(* ===== verification/_CoqProject ===== *)
-Q . S2P
Prelude.v
CString.v
Chacha.v
Poly1305.v
Vfs.v
Http2.v
Policy.v
WsCodec.v
WsClient.v
Png.v
Cookies.v
Bidi.v
Log.v
EventLoop.v
HttpCache.v
Shaping.v
Worker.v
Net.v
Fetch.v
Dom.v
Html5Ref.v
Html5Tree.v
Html5Tok.v
Html5.v
Html5Inv.v
Html5Round.v
EditField.v
Events.v
Selectors.v
SelCache.v
SelectorSem.v
SelectorSpec.v
CssVars.v
CssMedia.v
Stylesheet.v
StylesheetSpec.v
Cascade.v
Ipc.v
Protocol.v
