(* ===== verification/Prelude.v ===== *)
(** * TinyFramework: verification library (root and prelude)

    TinyFramework is a small browser engine and application shell in C: an HTML
    parser, a DOM with selectors, style sheets and events, an HTTP client with
    cookies, cache and security policy, an event loop, workers, WebSockets,
    windows that exchange messages, text shaping, an encrypted resource bundle
    and a renderer.  This library translates its own logic into Rocq functions and
    proves what makes each part correct.  It covers the C files of src/src/
    that decide something; code that only moves pixels, opens devices or calls
    a third-party library is outside, see the end of this header.

    ** How the program is put together

    [main.c] builds a document with the HTML parser (mini_html5.c), which calls
    the node functions of mini_dom.c; scripts see the nodes through the bridge
    to QuickJS.  The selector engine of mini_dom.c serves queries and the
    cascade, which applies the rules of the parsed sheets; mini_css.c decides
    media queries and replaces [var()].  mini_events.c dispatches input to the
    listeners of nodes, moves the focus and edits fields.  Every frame pumps the event loop (mini_eventloop.c), which
    runs tasks, microtasks, animation frames and observers, and polls the
    workers (mini_worker.c), which read files and fetch URLs on other threads.
    A fetch (mini_net.c) asks the policy (mini_policy.c), the cookie jar
    (mini_cookies.c) and the cache (mini_httpcache.c), and goes through the
    HTTP/1.1 client of the same file.  mini_websocket.c and mini_h2.c speak the
    other protocols; mini_vfs_decrypt.c opens the bundle the pages may come
    from; mini_bidi.c and mini_shaping.c prepare text for the renderer;
    mini_png.c reads and writes images; all of them log through mini_log.c.
    Every window has a JavaScript context of its own; mini_ipc.c carries
    messages between the main context and the windows, and the run loop of
    main.c pumps and drains the contexts in turn.  [loadURL] of a window
    (mini_native.c) asks the custom schemes of mini_protocol.c first.

    ** How code is modelled

    A C function is a Rocq function of the same name.  What it reads and
    writes through pointers and statics is an argument and a result (a record
    per module: [tree], [tokenizer], [dom], the log's statics, ...); an array
    with its counter is the list of its used part; a pointer to a node is its
    address in a store, [None] when null.  Machine words are [Z] with their
    wrap-around written out ([u8], [u32], [i32]); a byte buffer is a list of
    [Z].  An execution without meaning in C (an access outside an object, a
    null dereference, signed overflow, use of a freed object) is the outcome
    [UB] of [res], and so is running out of the fuel of a loop: a theorem that
    says a function returns [Ok] says that it ends and is defined.  The
    outcomes of [malloc], the clock, files, sockets and threads are arguments.
    Callbacks are values whose effect is an argument, or events of a trace.

    ** Files

    - [Prelude]: words, bytes, [res] and its bind, [expect], buffer access,
      and the generic lemmas and tactics.  [ends m P] says that [m] returns
      [Ok] of a value with [P].
    - [CString]: the functions of <string.h>, <ctype.h> and [strtol] used.
    - [Chacha], [Poly1305], [Vfs]: mini_vfs_decrypt.c.  The cipher, the
      authenticator and the bundle over the interface [Aead].
    - [Http2]: mini_h2.c.  Frame headers, HPACK integers and blocks.
    - [Policy]: mini_policy.c.  Origins, HSTS, CORS and CSP.
    - [WsCodec], [WsClient]: mini_websocket.c.  Codec; connection and pump.
    - [Png]: mini_png.c.  PNG writer, BMP and TGA readers.
    - [Cookies]: mini_cookies.c.  [HttpCache]: mini_httpcache.c.
    - [Bidi]: mini_bidi.c.  [Shaping]: mini_shaping.c.
    - [Log]: mini_log.c.  [EventLoop]: mini_eventloop.c.
    - [Worker]: mini_worker.c, as a state machine of critical sections.
    - [Net]: the HTTP/1.1 client of mini_net.c.  [Fetch]: [mini_net_fetch],
      the composition of [Policy], [Cookies], [HttpCache] and [Net].
    - [Dom]: the node part of mini_dom.c.
    - [Html5Ref], [Html5Tree], [Html5Tok], [Html5]: mini_html5.c.  Element sets
      and references; tree construction over [Dom]; the tokenizer over the
      class [Sink]; the interface.  [Html5Inv]: the invariant of the parser.
      [Html5Round]: trees, their text, and the run of the parser over it.
    - [EditField]: the keys that edit a focused field, in mini_events.c.
      [Events]: the listener table, dispatch, focus and keys of the same file.
    - [Selectors], [SelCache]: the matcher of mini_dom.c and its compiled-
      selector cache, behind the record [Store].  [SelectorSem],
      [SelectorSpec]: what selectors mean, and that the matcher says so.
    - [CssVars], [CssMedia]: [var()] with its cache, and media queries, of
      mini_css.c.
    - [Stylesheet], [StylesheetSpec]: the sheet parser of mini_dom.c; sheets,
      their text and their rules.  [Cascade]: [mini_css_apply].
    - [Ipc]: mini_ipc.c with the JavaScript shim it installs, and the turns of
      the run loop.  [Protocol]: mini_protocol.c and [loadURL].

    ** What the theorems show

    Functional correctness against an independent definition: the limb code of
    Poly1305 is the polynomial of RFC 8439 ([poly1305_mac_spec]); the CSP table
    ([csp_allows_spec]); preflight ([cors_preflight_spec]); the Cookie header
    ([cookie_header_spec]); the order of a pump ([eventloop_pump_order]);
    character references ([h5_references]); rule L2 of the bidirectional
    algorithm ([bidi_two_levels]); queries against a relation between nodes and
    selectors ([query_implements_selector]); the replacement of [var()]
    ([var_resolution]); who wins the cascade ([cascade_winner]); the three
    phases of an event whose listeners only stop or prevent it
    ([event_dispatch_order]); typing ([event_typing]).

    Caches that cannot be seen: of selectors ([selector_cache_transparent]) and
    of variables ([var_cache_transparent]).

    Round trips: bundles ([vfs_roundtrip]), WebSocket frames
    ([ws_frame_codec]), HTML trees ([html5_roundtrip]), style sheets
    ([stylesheet_roundtrip]), PNG ([png_roundtrip]), HPACK ([hpack_int_codec],
    [hpack_block_roundtrip]), chunked bodies ([net_dechunk_roundtrip]), cache
    files ([httpcache_disk_roundtrip]).

    Refinement of an abstract state: the jar and the cache as maps
    ([cookie_set_refines], [httpcache_store_refines],
    [httpcache_lookup_refines]), the log as a bounded sequence
    ([log_ring_refines]), attributes as a map ([dom_attributes]), the pump as
    the frames of a byte stream ([ws_pump_refines], [ws_pump_schedule_free],
    [ws_reassembly]), an exchange as its parts ([net_http_exchange]), a fetch
    as its cache ([fetch_cached]), the registry of schemes as a map
    ([protocol_load]), a field as a text with a selection ([field_refines]).

    Invariants: the links of the DOM ([dom_child_lists]), what the event module
    refers to ([event_references]: the drag state is the part that may dangle),
    the answers of [ipcRenderer.invoke] ([ipc_answers]), the HSTS table
    ([hsts_remember_spec]), the visual order ([bidi_visual_permutation]), the
    forms of letters ([shaping_forms]).

    Safety and progress: a forged bundle is refused ([vfs_decrypt_exact]), a
    host that sent the HSTS header is reached over TLS for http URLs
    ([fetch_hsts]), a response that CORS forbids
    stays unread and unstored ([fetch_cors_gate]), connections are not shared
    ([net_pool]); in every schedule a worker's callback is called once, and
    progress is made ([worker_conserves], [worker_progress]); tasks are not
    starved ([eventloop_liveness]); a promise of [ipcRenderer.invoke] is
    settled within two turns of the run loop ([ipc_invoke_answered]).

    Termination and bounds: any text is parsed to its end
    ([html5_parse_total]), the walk to the root ends ([dom_contains]), the
    readers end ([net_readers]), emission ends ([log_dispatch]), a decoded body
    fits ([net_dechunk_total]), draining a context ends ([ipc_dispatch_drains]:
    a window's always, the main one's as long as its callbacks run no window
    script that posts to it).

    ** Bounds and fuel

    Loops over lists recurse on them.  The others have fuel, computed from the
    input where the loop is called: the number of nodes for walks in the DOM (a
    walk that visits more is in a cycle and never ends in C), [3 * length + 3]
    for the tokenizer (no state looks at a byte more than three times), 256 for
    the inner loop of the adoption agency (the bound the code has), 4 for the
    insertion modes that hand a token on, the length of the rest for readers.
    The theorems above prove that it is enough.  Loops whose length depends on
    what callbacks do (the pump, the drain of a context) take any fuel, and
    their theorems say from which amount on the result is there: for the pump
    under a bound on the microtasks, for the drain of the main context under
    the condition above.

    ** Limits of the theorems

    A theorem that holds only for some inputs says so in its hypotheses and its
    comment.  The main ones: attribute names of cookies over 31 bytes may read
    past the text ([cookie_set_refines] leaves them undefined); WebSocket frames
    of 2^31 bytes and more are encoded but reported wrongly ([ws_frame_codec]);
    a scheme's handler must not take entries out of the registry or make it grow
    ([protocol_load]); the cascade's theorem is for sheets without
    pseudo-elements whose queries succeed ([cascade_winner]); prefetches and
    URLs without a scheme are outside [fetch_hsts].

    ** Not modelled

    The renderer, window, audio, the JavaScript bridge, crash handling,
    diagnostics, the developer tools, and of main.c and mini_native.c all but
    what [Ipc] and [Protocol] take from them: they call the driver, the platform
    or the engine and keep no state that could be stated without these.  The
    values of style properties, layout, hit testing, painting, gradients,
    expressions, interpolation and key frames compute with floats and glyph
    metrics; with them the pointer, wheel and drag handlers of mini_events.c,
    which start from a hit test.  The sockets, TLS and thread primitives under
    mini_net.c, mini_websocket.c and mini_worker.c are arguments.  Everything
    under src/libs/ is third-party. *)

From stdpp Require Export prelude strings.
From Stdlib Require Export ZArith Lia.
From Stdlib Require String Ascii.

#[export] Set Default Proof Using "Type".
Open Scope Z_scope.

(** ** Bytes and machine words

    A C buffer is the list of its bytes; a byte, and every other machine word,
    is a [Z].  Wrap-around is written where the C type wraps. *)

Abbreviation bytes := (list Z).

Definition u8 (x : Z) : Z := x mod 2 ^ 8.
Definition u16 (x : Z) : Z := x mod 2 ^ 16.
Definition u32 (x : Z) : Z := x mod 2 ^ 32.
Definition u64 (x : Z) : Z := x mod 2 ^ 64.
(** Conversion of an unsigned value to [int] (two's complement). *)
Definition i32 (x : Z) : Z := (x + 2 ^ 31) mod 2 ^ 32 - 2 ^ 31.
Definition i8 (x : Z) : Z := (x + 2 ^ 7) mod 2 ^ 8 - 2 ^ 7.

Definition byte_ok (b : Z) : Prop := 0 <= b < 256.
Definition bytes_ok (l : bytes) : Prop := Forall byte_ok l.
#[export] Instance byte_ok_dec b : Decision (byte_ok b).
Proof. unfold byte_ok. apply _. Defined.

(** 32-bit operators, as C writes them on [uint32_t]. *)
Declare Scope w32_scope.
Delimit Scope w32_scope with w32.
Definition add32 (a b : Z) : Z := u32 (a + b).
Definition mul32 (a b : Z) : Z := u32 (a * b).
Definition shl32 (a n : Z) : Z := u32 (Z.shiftl a n).
Notation "x + y" := (add32 x%w32 y%w32) : w32_scope.
Notation "x * y" := (mul32 x%w32 y%w32) : w32_scope.
Notation "x ^^ y" := (Z.lxor x%w32 y%w32) (at level 40, left associativity) : w32_scope.
Notation "x << y" := (shl32 x%w32 y%Z) (at level 36, left associativity) : w32_scope.
Notation "x >> y" := (Z.shiftr x%w32 y%Z) (at level 36, left associativity) : w32_scope.
Definition not32 (a : Z) : Z := 2 ^ 32 - 1 - a.

(** ** Outcomes

    [UB] is an execution the C standard gives no meaning to: an access outside
    its object, a null dereference. *)

Inductive res (A : Type) : Type :=
| Ok (a : A)
| UB.
Arguments Ok {A} a.
Arguments UB {A}.

Definition res_bind {A B} (m : res A) (k : A → res B) : res B :=
  match m with Ok a => k a | UB => UB end.

Declare Scope c_scope.
Delimit Scope c_scope with c.
Notation "'let*' x := m 'in' k" := (res_bind m (fun x => k))
  (at level 10, x pattern, m at level 100, k at level 200) : c_scope.

#[export] Instance res_eq_dec `{EqDecision A} : EqDecision (res A).
Proof.
  intros [a|] [b|]; [|by right|by right|by left].
  destruct (decide (a = b)) as [->|]; [by left|right; congruence].
Defined.

Lemma res_bind_Ok {A B} (m : res A) (k : A → res B) b :
  res_bind m k = Ok b ↔ ∃ a, m = Ok a ∧ k a = Ok b.
Proof.
  destruct m; simpl; split; [eauto|intros (?&[= <-]&?); done|done|intros (?&?&?); done].
Qed.

(** *** Computations that end *)

(** [m] has an outcome, and it satisfies [Q]. *)
Definition ends {A} (m : res A) (Q : A → Prop) : Prop := ∃ a, m = Ok a ∧ Q a.

Lemma ends_ok {A} (a : A) (Q : A → Prop) : Q a → ends (Ok a) Q.
Proof. intros H. by exists a. Qed.
Lemma ends_bind {A B} (m : res A) (k : A → res B) R Q : ends m R → (∀ a, R a → ends (k a) Q) → ends (res_bind m k) Q.
Proof. intros (a&->&Ha) Hk. apply Hk, Ha. Qed.
Lemma ends_weaken {A} (m : res A) (R Q : A → Prop) : ends m R → (∀ a, R a → Q a) → ends m Q.
Proof. intros (a&->&Ha) H. exists a. auto. Qed.

Lemma ends_bind2 {A B C} (m : res A) (f : A → res B) (g : B → res C) R Q :
  ends (let* a := m in f a)%c R → (∀ b, R b → ends (g b) Q) → ends (let* a := m in let* b := f a in g b)%c Q.
Proof. destruct m as [a|]; [intros H Hk; exact (ends_bind _ _ _ _ H Hk)|intros (?&?&_); done]. Qed.

(** ** Arithmetic automation *)

(** [mlia] is [lia] after the division equations. *)
Ltac mlia := zify; Z.to_euclidean_division_equations; lia.

(** Unfold the word wrappers, then decide. *)
Ltac wordlia := unfold byte_ok, u8, u16, u32, u64, i32, i8 in *; mlia.

Create HintDb word.

Lemma u8_range x : byte_ok (u8 x).
Proof. wordlia. Qed.
Lemma u16_range x : 0 <= u16 x < 2 ^ 16.
Proof. wordlia. Qed.
Lemma u32_range x : 0 <= u32 x < 2 ^ 32.
Proof. wordlia. Qed.
Lemma u64_range x : 0 <= u64 x < 2 ^ 64.
Proof. wordlia. Qed.
Lemma u8_small x : byte_ok x → u8 x = x.
Proof. intros. apply Z.mod_small. wordlia. Qed.
Lemma u16_small x : 0 <= x < 2 ^ 16 → u16 x = x.
Proof. intros. by apply Z.mod_small. Qed.
Lemma u32_small x : 0 <= x < 2 ^ 32 → u32 x = x.
Proof. intros. by apply Z.mod_small. Qed.
Lemma u64_small x : 0 <= x < 2 ^ 64 → u64 x = x.
Proof. intros. by apply Z.mod_small. Qed.
Lemma i8_small x : - 2 ^ 7 <= x < 2 ^ 7 → i8 x = x.
Proof. intros. unfold i8. mlia. Qed.
Lemma i32_small x : - 2 ^ 31 <= x < 2 ^ 31 → i32 x = x.
Proof. intros. wordlia. Qed.

#[export] Hint Resolve u8_range u16_range u32_range u64_range : word.
Create Rewrite HintDb word_small.
#[export] Hint Rewrite u8_small u16_small u32_small u64_small i32_small using lia : word_small.

(** *** Bit operations as arithmetic *)

Lemma land_mod a n : 0 <= n → Z.land a (2 ^ n - 1) = a mod 2 ^ n.
Proof.
  intros. replace (2 ^ n - 1) with (Z.ones n) by (rewrite Z.ones_equiv; lia).
  by apply Z.land_ones.
Qed.

Lemma shiftr_div a n : 0 <= n → Z.shiftr a n = a / 2 ^ n.
Proof. apply Z.shiftr_div_pow2. Qed.

Lemma shiftl_mul a n : 0 <= n → Z.shiftl a n = a * 2 ^ n.
Proof. apply Z.shiftl_mul_pow2. Qed.

(** Bits at or above [n] of a number below [2^n] are clear. *)
Lemma testbit_above a n i : 0 <= a < 2 ^ n → n <= i → Z.testbit a i = false.
Proof.
  intros Ha Hi.
  destruct (decide (n < 0)) as [Hn|Hn].
  { rewrite Z.pow_neg_r in Ha by done. lia. }
  rewrite <- (Z.mod_small a (2 ^ n)) by done. apply Z.mod_pow2_bits_high. lia.
Qed.

(** Disjoint bit fields: [a | b << n] is [a + b * 2^n]. *)
Lemma lor_disjoint a b n : 0 <= n → 0 <= a < 2 ^ n →
  Z.lor a (b * 2 ^ n) = a + b * 2 ^ n.
Proof.
  intros Hn Ha. assert (Z.land a (b * 2 ^ n) = 0) as Hand.
  { apply Z.bits_inj'. intros i Hi. rewrite Z.land_spec, Z.bits_0.
    destruct (decide (i < n)) as [Hin|Hin].
    - rewrite Z.mul_pow2_bits_low by done. apply andb_false_r.
    - by rewrite (testbit_above a n) by lia. }
  by rewrite Z.add_nocarry_lxor, Z.lxor_lor by done.
Qed.

(** The same with the high part given as a multiple of [2^n]. *)
Lemma lor_add x y n : 0 <= n → x mod 2 ^ n = 0 → 0 <= y < 2 ^ n → Z.lor x y = x + y.
Proof.
  intros Hn Hx Hy. pose proof (Z.div_mod x (2 ^ n) ltac:(lia)) as E. rewrite Hx in E.
  replace x with (x / 2 ^ n * 2 ^ n) by lia. rewrite Z.lor_comm, lor_disjoint by done. lia.
Qed.

Lemma testbit_div x n : 0 <= n → Z.land x (2 ^ n) = if decide (x / 2 ^ n mod 2 = 0) then 0 else 2 ^ n.
Proof.
  intros Hn. assert (Z.testbit x n = bool_decide (x / 2 ^ n mod 2 ≠ 0)) as E.
  { rewrite Z.testbit_odd, shiftr_div, Zmod_odd by done.
    by destruct (Z.odd _). }
  apply Z.bits_inj'. intros i Hi. rewrite Z.land_spec, Z.pow2_bits_eqb by done.
  destruct (n =? i) eqn:Ei.
  - apply Z.eqb_eq in Ei as <-. rewrite andb_true_r, E.
    destruct (decide (x / 2 ^ n mod 2 = 0)) as [Hd|Hd].
    + by rewrite bool_decide_eq_false_2, Z.bits_0 by tauto.
    + by rewrite bool_decide_eq_true_2, Z.pow2_bits_eqb, Z.eqb_refl by done.
  - rewrite andb_false_r. destruct (decide _); [by rewrite Z.bits_0|].
    by rewrite Z.pow2_bits_eqb, Ei by done.
Qed.

Lemma lor_lt a b n : 0 <= n → 0 <= a < 2 ^ n → 0 <= b < 2 ^ n → 0 <= Z.lor a b < 2 ^ n.
Proof.
  intros Hn Ha Hb. assert (0 <= Z.lor a b) by (apply Z.lor_nonneg; lia). split; [done|].
  replace (Z.lor a b) with (Z.lor a b mod 2 ^ n); [apply Z.mod_pos_bound; lia|].
  rewrite <- Z.land_ones, Z.land_lor_distr_l, !Z.land_ones by done.
  by rewrite !Z.mod_small by done.
Qed.

Lemma lxor_lt a b n : 0 <= n → 0 <= a < 2 ^ n → 0 <= b < 2 ^ n → 0 <= Z.lxor a b < 2 ^ n.
Proof.
  intros Hn Ha Hb.
  assert (0 <= Z.lxor a b) by (apply Z.lxor_nonneg; lia). split; [done|].
  replace (Z.lxor a b) with (Z.lxor a b mod 2 ^ n); [apply Z.mod_pos_bound; lia|].
  apply Z.bits_inj'. intros i Hi. destruct (decide (i < n)).
  - by rewrite Z.mod_pow2_bits_low by done.
  - rewrite Z.mod_pow2_bits_high, Z.lxor_spec by lia.
    by rewrite !(testbit_above _ n) by lia.
Qed.

Lemma land_lt_l a b n : 0 <= n → 0 <= a < 2 ^ n → 0 <= Z.land a b < 2 ^ n.
Proof.
  intros Hn Ha. assert (0 <= Z.land a b) by (apply Z.land_nonneg; lia). split; [done|].
  replace (Z.land a b) with (Z.land a b mod 2 ^ n); [apply Z.mod_pos_bound; lia|].
  rewrite <- Z.land_ones, (Z.land_comm a), <- Z.land_assoc, Z.land_ones by done.
  by rewrite (Z.mod_small a) by done.
Qed.

Lemma lxor_byte a b : byte_ok a → byte_ok b → byte_ok (Z.lxor a b).
Proof. by apply (lxor_lt _ _ 8). Qed.
#[export] Hint Resolve lxor_byte : word.

(** ** Buffers *)

(** [x[i]], 0 outside the list (used only at indices shown to be inside). *)
Definition rd (l : bytes) (i : nat) : Z := l !!! i.
Arguments rd : simpl never.

(** The [n] bytes at offset [off]. *)
Definition slice {A} (off n : nat) (l : list A) : list A := take n (drop off l).

Lemma length_slice {A} off n (l : list A) : (off + n <= length l)%nat → length (slice off n l) = n.
Proof. intros. unfold slice. rewrite length_take, length_drop. lia. Qed.

Lemma slice_app_l {A} n (l1 l2 : list A) : (n = length l1)%nat → slice 0 n (l1 ++ l2) = l1.
Proof. intros ->. unfold slice. rewrite drop_0. apply take_app_length. Qed.

Lemma slice_app_r {A} off n (l1 l2 : list A) :
  off = length l1 → n = length l2 → slice off n (l1 ++ l2) = l2.
Proof. intros -> ->. unfold slice. rewrite drop_app_length. by apply take_ge. Qed.

Lemma slice_app_mid {A} off n (l1 l2 l3 : list A) :
  off = length l1 → n = length l2 → slice off n (l1 ++ l2 ++ l3) = l2.
Proof. intros -> ->. unfold slice. rewrite drop_app_length. apply take_app_length. Qed.

(** Little- and big-endian readings of a byte list. *)
Fixpoint le_Z (l : bytes) : Z :=
  match l with [] => 0 | b :: l => b + 2 ^ 8 * le_Z l end.
Fixpoint le_bytes (n : nat) (z : Z) : bytes :=
  match n with O => [] | S n => u8 z :: le_bytes n (z / 2 ^ 8) end.
Definition be_Z (l : bytes) : Z := foldl (λ acc b, acc * 2 ^ 8 + b) 0 l.

Lemma le_Z_bound l : bytes_ok l → 0 <= le_Z l < 2 ^ (8 * Z.of_nat (length l)).
Proof.
  induction 1 as [|b l Hb Hl IH]; simpl length; [done|].
  replace (8 * Z.of_nat (S (length l))) with (8 + 8 * Z.of_nat (length l)) by lia.
  rewrite Z.pow_add_r by lia. simpl le_Z. unfold byte_ok in Hb. lia.
Qed.

Lemma le_Z_app l1 l2 : le_Z (l1 ++ l2) = le_Z l1 + 2 ^ (8 * Z.of_nat (length l1)) * le_Z l2.
Proof.
  induction l1 as [|b l IH]; simpl app; simpl le_Z; [simpl; lia|].
  rewrite IH. simpl length.
  replace (8 * Z.of_nat (S (length l))) with (8 + 8 * Z.of_nat (length l)) by lia.
  rewrite Z.pow_add_r by lia. lia.
Qed.

Lemma length_le_bytes n z : length (le_bytes n z) = n.
Proof. revert z. induction n; simpl; auto. Qed.

Lemma le_bytes_ok n z : bytes_ok (le_bytes n z).
Proof. revert z. induction n; simpl; constructor; [apply u8_range|apply IHn]. Qed.

Lemma le_Z_le_bytes n z : le_Z (le_bytes n z) = z mod 2 ^ (8 * Z.of_nat n).
Proof.
  revert z. induction n as [|n IH]; intros z; [simpl; by rewrite Z.mod_1_r|].
  simpl le_Z. rewrite IH.
  replace (8 * Z.of_nat (S n)) with (8 + 8 * Z.of_nat n) by lia.
  rewrite Z.pow_add_r by lia. rewrite Z.rem_mul_r by lia. unfold u8. lia.
Qed.

Lemma le_bytes_le_Z l : bytes_ok l → le_bytes (length l) (le_Z l) = l.
Proof.
  induction 1 as [|b l Hb Hl IH]; simpl; [done|]. unfold byte_ok in Hb.
  f_equal; [wordlia|]. etrans; [|exact IH]. f_equal. mlia.
Qed.

Lemma le_bytes_app n m z :
  le_bytes (n + m) z = le_bytes n z ++ le_bytes m (z / 2 ^ (8 * Z.of_nat n)).
Proof.
  revert z. induction n as [|n IH]; intros z; [by rewrite Z.div_1_r|].
  simpl. f_equal. rewrite IH. do 2 f_equal. rewrite Z.div_div by lia. f_equal.
  replace (8 * Z.of_nat (S n)) with (8 + 8 * Z.of_nat n) by lia. by rewrite Z.pow_add_r by lia.
Qed.

Lemma le_bytes_mod n z : le_bytes n (z mod 2 ^ (8 * Z.of_nat n)) = le_bytes n z.
Proof.
  rewrite <- le_Z_le_bytes. rewrite <- (length_le_bytes n z) at 1.
  apply le_bytes_le_Z, le_bytes_ok.
Qed.

Lemma bytes_ok_app l1 l2 : bytes_ok (l1 ++ l2) ↔ bytes_ok l1 ∧ bytes_ok l2.
Proof. apply Forall_app. Qed.

Lemma bytes_ok_slice off n l : bytes_ok l → bytes_ok (slice off n l).
Proof. intros. by apply Forall_take, Forall_drop. Qed.

Lemma bytes_ok_replicate n : bytes_ok (replicate n 0).
Proof. apply Forall_replicate. split; lia. Qed.

Lemma rd_ok l i : bytes_ok l → byte_ok (rd l i).
Proof.
  intros Hl. unfold rd. destruct (l !! i) as [b|] eqn:E.
  - erewrite list_lookup_total_correct by done. by eapply Forall_lookup_1.
  - rewrite list_lookup_total_alt, E. split; simpl; lia.
Qed.
#[export] Hint Resolve rd_ok bytes_ok_slice le_bytes_ok bytes_ok_replicate : word.
