(* ===== verification/CString.v ===== *)
(** * C strings

    A [char *] is the list of the bytes before its terminator, so a C string
    value has no zero byte.  [str] turns a literal into bytes; the functions of
    <string.h> and <ctype.h> (C locale) the program calls are defined on them. *)

From S2P Require Import Prelude.

Definition ch (a : Ascii.ascii) : Z := Z.of_N (Ascii.N_of_ascii a).

Definition str (s : string) : bytes := map ch (String.list_ascii_of_string s).

(** [strcmp (a, b) == 0] *)
Definition streq (a b : bytes) : bool := bool_decide (a = b).

Definition c_isspace (c : Z) : bool := bool_decide (c = 32 ∨ 9 <= c <= 13).
Definition c_isdigit (c : Z) : bool := bool_decide (48 <= c <= 57).
Definition c_isupper (c : Z) : bool := bool_decide (65 <= c <= 90).
Definition c_islower (c : Z) : bool := bool_decide (97 <= c <= 122).
Definition c_isalpha (c : Z) : bool := c_isupper c || c_islower c.
Definition c_isalnum (c : Z) : bool := c_isalpha c || c_isdigit c.
Definition c_tolower (c : Z) : Z := if c_isupper c then c + 32 else c.

(** [strcasecmp (a, b) == 0] *)
Definition strcaseeq (a b : bytes) : bool := bool_decide (map c_tolower a = map c_tolower b).

(** [strncmp (s, p, strlen (p)) == 0] and its case-insensitive form. *)
Definition starts_with (p s : bytes) : bool := bool_decide (take (length p) s = p).
Definition starts_with_ci (p s : bytes) : bool :=
  bool_decide (map c_tolower (take (length p) s) = map c_tolower p).

(** [strchr (s, c)] as an index. *)
Fixpoint strchr (s : bytes) (c : Z) : option nat :=
  match s with
  | [] => None
  | x :: s => if decide (x = c) then Some O else S <$> strchr s c
  end.

(** [strstr (s, p)] as an index. *)
Fixpoint strstr (s p : bytes) : option nat :=
  if starts_with p s then Some O
  else match s with [] => None | _ :: s => S <$> strstr s p end.

Definition nonul (s : bytes) : Prop := Forall (λ b, 1 <= b < 256) s.

Lemma streq_true a b : streq a b = true ↔ a = b.
Proof. apply bool_decide_eq_true. Qed.

Lemma starts_with_true p s : starts_with p s = true ↔ ∃ t, s = p ++ t.
Proof.
  unfold starts_with. rewrite bool_decide_eq_true. split.
  - intros E. exists (drop (length p) s). rewrite <- E at 1. by rewrite take_drop.
  - intros [t ->]. apply take_app_length.
Qed.

Lemma strchr_Some s c i : strchr s c = Some i ↔
  s !! i = Some c ∧ ∀ j, (j < i)%nat → s !! j ≠ Some c.
Proof.
  revert i. induction s as [|x s IH]; intros i; simpl.
  { split; [done|]. intros [? _]. done. }
  case_decide as E.
  - subst. split.
    + intros [= <-]. split; [done|lia].
    + intros [_ H]. destruct i; [done|]. by destruct (H 0%nat ltac:(lia)).
  - split.
    + intros (j&Hj&->)%fmap_Some. apply IH in Hj as [H1 H2]. split; [done|].
      intros [|k] Hk; simpl; [congruence|]. apply H2. lia.
    + intros [H1 H2]. destruct i as [|i]; simpl in H1; [congruence|].
      rewrite (proj2 (IH i)); [done|]. split; [done|]. intros j Hj. apply (H2 (S j)). lia.
Qed.

Lemma strchr_None s c : strchr s c = None ↔ c ∉ s.
Proof.
  induction s as [|x s IH]; simpl; [split; [intros _; apply not_elem_of_nil|done]|].
  rewrite not_elem_of_cons. case_decide as E.
  - subst. split; [done|]. by intros [? _].
  - rewrite fmap_None, IH. split; [|by intros [_ ?]]. split; [congruence|done].
Qed.

Lemma c_tolower_idem c : c_tolower (c_tolower c) = c_tolower c.
Proof.
  unfold c_tolower, c_isupper. destruct (bool_decide (65 <= c <= 90)) eqn:E; [|by rewrite E].
  apply bool_decide_eq_true in E. by rewrite bool_decide_eq_false_2 by lia.
Qed.

(** [while ( *p && f ( *p) && n + 1 < cap) buf[n++] = *p++] with [n = cap - 1]: what
    is copied, and where [p] stops. *)
Fixpoint scan (f : Z → bool) (n : nat) (s : bytes) : bytes * bytes :=
  match n, s with
  | S n, c :: s' => if f c then let '(t, r) := scan f n s' in (c :: t, r) else ([], s)
  | _, _ => ([], s)
  end.

(** [while (f ( *p)) p++], for an [f] false on the terminator. *)
Fixpoint skip (f : Z → bool) (s : bytes) : bytes :=
  match s with
  | c :: s' => if f c then skip f s' else s
  | [] => []
  end.

(** [*p], the terminator at the end. *)
Definition hd0 (s : bytes) : Z := match s with c :: _ => c | [] => 0 end.

(** [if ( *p == c) p++] as a partial match. *)
Definition expect (c : Z) (p : bytes) : option bytes :=
  match p with x :: p' => if decide (x = c) then Some p' else None | [] => None end.

(** The same for a fixed string. *)
Definition expects (l p : bytes) : option bytes :=
  if starts_with l p then Some (drop (length l) p) else None.

Lemma expects_Some l p p' : expects l p = Some p' ↔ p = l ++ p'.
Proof.
  unfold expects. destruct (starts_with l p) eqn:E.
  - apply starts_with_true in E as [t ->]. rewrite drop_app_length. split; [congruence|].
    by intros ->%app_inv_head.
  - split; [done|]. intros ->. rewrite (proj2 (starts_with_true l _)) in E; [done|by eexists].
Qed.
Lemma expects_app l p : expects l (l ++ p) = Some p.
Proof. by apply expects_Some. Qed.

Lemma expect_Some c p p' : expect c p = Some p' ↔ p = c :: p'.
Proof.
  destruct p as [|x p]; simpl; [done|]. case_decide; split; congruence.
Qed.
Lemma expect_cons c p : expect c (c :: p) = Some p.
Proof. by apply expect_Some. Qed.

Lemma scan_split f n s t r : scan f n s = (t, r) →
  s = t ++ r ∧ (length t <= n)%nat ∧ Forall (λ c, f c = true) t.
Proof.
  revert s t r. induction n as [|n IH]; intros s t r E; simpl in E.
  { injection E as <- <-. by split_and!; [| |constructor]. }
  destruct s as [|c s]; [injection E as <- <-; split_and!; [done|simpl; lia|constructor]|].
  destruct (f c) eqn:Ef; [|injection E as <- <-; split_and!; [done|simpl; lia|constructor]].
  destruct (scan f n s) as [t' r'] eqn:Es. injection E as <- <-.
  destruct (IH _ _ _ Es) as (->&Hl&Hf). split_and!; [done|simpl; lia|by constructor].
Qed.

(** A scan stops at the first byte it rejects. *)
Lemma scan_app f n t r : Forall (λ c, f c = true) t → (length t <= n)%nat →
  (∀ c r', r = c :: r' → f c = false) → scan f n (t ++ r) = (t, r).
Proof.
  revert n. induction t as [|c t IH]; intros n Ht Hn Hr.
  - destruct n; [done|]. destruct r as [|c r]; [done|]. simpl. by rewrite (Hr c r).
  - apply Forall_cons in Ht as [Ec Ht]. destruct n as [|n]; simpl in Hn; [lia|].
    simpl. rewrite Ec. by rewrite IH by (done || lia).
Qed.

Lemma scan_rest_stop f n s t r : scan f n s = (t, r) → (length t < n)%nat →
  r = [] ∨ f (hd0 r) = false.
Proof.
  revert s t r. induction n as [|n IH]; intros s t r E Hl; [lia|]. simpl in E.
  destruct s as [|c s]; [injection E as <- <-; by left|].
  destruct (f c) eqn:Ef; [|injection E as <- <-; by right].
  destruct (scan f n s) as [t' r'] eqn:Es. injection E as <- <-. simpl in Hl.
  apply (IH _ _ _ Es). lia.
Qed.

Lemma skip_app f t r : Forall (λ c, f c = true) t → (∀ c r', r = c :: r' → f c = false) →
  skip f (t ++ r) = r.
Proof.
  induction 1 as [|c t Ec Ht IH]; intros Hr; simpl; [|rewrite Ec; by apply IH].
  destruct r as [|c r]; simpl; [done|]. by rewrite (Hr c r).
Qed.

Lemma skip_none f s : (∀ c r, s = c :: r → f c = false) → skip f s = s.
Proof. apply (skip_app f []). constructor. Qed.

Lemma skip_suffix f s : ∃ t, s = t ++ skip f s ∧ Forall (λ c, f c = true) t.
Proof.
  induction s as [|c s (t&E&Hf)]; [by exists []|]. simpl. destruct (f c) eqn:Ef.
  - exists (c :: t). simpl. split; [by f_equal|by constructor].
  - exists []. split; [done|constructor].
Qed.

Lemma length_skip f s : (length (skip f s) <= length s)%nat.
Proof. destruct (skip_suffix f s) as (t&E&_). rewrite E at 2. rewrite length_app. lia. Qed.

Lemma skip_stop f s : skip f s = [] ∨ f (hd0 (skip f s)) = false.
Proof. induction s as [|c s IH]; simpl; [by left|]. destruct (f c) eqn:E; [done|by right]. Qed.

(** [atol]: leading white space, a sign, digits; the value saturates at the
    bounds of [long]. *)
Fixpoint digits (acc : Z) (s : bytes) : Z :=
  match s with
  | c :: s => if c_isdigit c then digits (acc * 10 + (c - 48)) s else acc
  | [] => acc
  end.

Definition c_atol (s : bytes) : Z :=
  let s := skip c_isspace s in
  let v := if decide (hd0 s = 45) then - digits 0 (tail s)
           else if decide (hd0 s = 43) then digits 0 (tail s) else digits 0 s in
  Z.max (- 2 ^ 63) (Z.min (2 ^ 63 - 1) v).

(** [strcasestr]-style search: the suffix that starts with the needle.  The
    empty haystack never matches. *)
Fixpoint mini_strcasestr (h n : bytes) : option bytes :=
  match h with
  | [] => None
  | _ :: h' => if starts_with_ci n h then Some h else mini_strcasestr h' n
  end.

Lemma strcaseeq_true a b : strcaseeq a b = true ↔ map c_tolower a = map c_tolower b.
Proof. apply bool_decide_eq_true. Qed.
Lemma strcaseeq_refl a : strcaseeq a a = true.
Proof. by apply strcaseeq_true. Qed.
Lemma strcaseeq_sym a b : strcaseeq a b = strcaseeq b a.
Proof. apply bool_decide_ext. by split; intros ->. Qed.
Lemma strcaseeq_trans a b c : strcaseeq a b = true → strcaseeq b c = true → strcaseeq a c = true.
Proof. rewrite !strcaseeq_true. congruence. Qed.

(** [%d], [%ld], [%lld] and [%zu] of a value of at most 64 bits. *)
Fixpoint udec (fuel : nat) (n : Z) : bytes :=
  match fuel with
  | O => []
  | S fuel => (if decide (n < 10) then [] else udec fuel (n / 10)) ++ [48 + n mod 10]
  end.
Definition c_dec (z : Z) : bytes := if decide (z < 0) then 45 :: udec 20 (- z) else udec 20 z.

Lemma c_isdigit_true c : c_isdigit c = true ↔ 48 <= c <= 57.
Proof. apply bool_decide_eq_true. Qed.

Lemma digits_app a s t : Forall (λ c, 48 <= c <= 57) s → digits a (s ++ t) = digits (digits a s) t.
Proof.
  intros H. revert a. induction H as [|c s Hc _ IH]; intros a; [done|]. simpl.
  by rewrite (proj2 (c_isdigit_true c) Hc).
Qed.

Lemma udec_digits f n : 0 <= n → Forall (λ c, 48 <= c <= 57) (udec f n).
Proof.
  revert n. induction f as [|f IH]; intros n Hn; simpl; [constructor|].
  apply Forall_app. split; [|repeat constructor; mlia].
  destruct (decide (n < 10)); [constructor|]. apply IH. mlia.
Qed.

Lemma digits_udec f n : 0 <= n < 10 ^ Z.of_nat f → digits 0 (udec f n) = n.
Proof.
  revert n. induction f as [|f IH]; intros n Hn; [simpl in Hn; simpl; lia|].
  replace (Z.of_nat (S f)) with (Z.of_nat f + 1) in Hn by lia. rewrite Z.pow_add_r in Hn by lia.
  simpl. assert (c_isdigit (48 + n mod 10) = true) as Ed by (apply c_isdigit_true; mlia).
  destruct (decide (n < 10)).
  - simpl. rewrite Ed. mlia.
  - rewrite digits_app by (apply udec_digits; mlia). rewrite IH by mlia. simpl. rewrite Ed. mlia.
Qed.

Lemma udec_cons f n : 0 <= n → ∃ c r, udec (S f) n = c :: r ∧ 48 <= c <= 57.
Proof.
  intros Hn. pose proof (udec_digits (S f) n Hn) as H. simpl in H |- *.
  destruct (_ ++ [48 + n mod 10]) as [|c r] eqn:E; [by apply app_eq_nil in E as [_ ?]|].
  exists c, r. split; [done|]. by apply Forall_cons in H as [? _].
Qed.

Lemma length_udec f n : (length (udec f n) <= f)%nat.
Proof.
  revert n. induction f as [|f IH]; intros n; simpl; [lia|]. rewrite length_app. simpl.
  destruct (decide (n < 10)); simpl; [lia|]. specialize (IH (n / 10)). lia.
Qed.
#[global] Arguments udec : simpl never.

(** Reading a printed number gives it back. *)
Lemma c_atol_dec z : - 2 ^ 63 <= z < 2 ^ 63 → c_atol (c_dec z) = z.
Proof.
  intros Hz. unfold c_atol, c_dec. destruct (decide (z < 0)) as [Hn|Hn].
  - cbn [skip]. change (c_isspace 45) with false. cbn [hd0 tail].
    rewrite decide_True by done. rewrite digits_udec by lia. lia.
  - destruct (udec_cons 19 z ltac:(lia)) as (c&r&E&Hc). rewrite E.
    cbn [skip]. assert (c_isspace c = false) as -> by (apply bool_decide_eq_false; lia).
    cbn [hd0]. rewrite !decide_False by lia. rewrite <- E, digits_udec by lia. lia.
Qed.

Lemma c_dec_chars z : Forall (λ c, c = 45 ∨ 48 <= c <= 57) (c_dec z).
Proof.
  unfold c_dec. destruct (decide (z < 0)) as [Hn|Hn].
  - constructor; [by left|]. eapply Forall_impl; [apply udec_digits; lia|]. intros; by right.
  - eapply Forall_impl; [apply udec_digits; lia|]. intros; by right.
Qed.

Lemma length_c_dec z : (length (c_dec z) <= 21)%nat.
Proof.
  unfold c_dec. destruct (decide (z < 0)).
  - cbn [length]. apply le_n_S, (length_udec 20).
  - etrans; [apply (length_udec 20)|]. repeat constructor.
Qed.

(** The two texts differ before either ends. *)
Fixpoint differ (a b : bytes) : bool :=
  match a, b with
  | x :: a, y :: b => if decide (x = y) then differ a b else true
  | _, _ => false
  end.

Lemma starts_with_differ k l r : differ k l = true → starts_with k (l ++ r) = false.
Proof.
  intros H. apply bool_decide_eq_false. intros E. revert l H E.
  induction k as [|x k IH]; intros [|y l]; simpl; try done.
  destruct (decide (x = y)) as [->|]; [|congruence]. intros H [= E]. by apply (IH l).
Qed.
Lemma starts_with_self k r : starts_with k (k ++ r) = true.
Proof. apply starts_with_true. by eexists. Qed.
