(* ===== verification/Chacha.v ===== *)
(** * ChaCha20 (src/src/mini_vfs_decrypt.c, lines 24-69)

    The stream cipher of the VFS bundle: little-endian word I/O, the quarter
    round on the 16-word state, the 64-byte block function and the XOR loop.
    Results: the quarter round is invertible, blocks have 64 bytes, the XOR
    loop is the byte-wise keystream XOR (counter wrap-around included) and is
    its own inverse. *)

From S2P Require Import Prelude.

(** ** Little-endian I/O *)

Definition le32 (p : bytes) : Z :=
  Z.lor (Z.lor (rd p 0) (Z.shiftl (rd p 1) 8))
    (Z.lor (Z.shiftl (rd p 2) 16) (Z.shiftl (rd p 3) 24)).

Definition le32s (v : Z) : bytes :=
  [u8 v; u8 (Z.shiftr v 8); u8 (Z.shiftr v 16); u8 (Z.shiftr v 24)].

Definition ROTL32 (x c : Z) : Z := Z.lor (x << c)%w32 (x >> (32 - c))%w32.

(** ** The block function *)

(** The state is a list of 16 words; [s[i] op= e] is an update at [i].  One
    line of the C function is [s[a]+=s[b]; s[d]=ROTL32(s[d]^s[a],n)]. *)
Definition chacha_qr_line (s : list Z) (a b d : nat) (n : Z) : list Z :=
  let s := <[a := (s !!! a + s !!! b)%w32]> s in
  <[d := ROTL32 (s !!! d ^^ s !!! a)%w32 n]> s.

Definition chacha_qr (s : list Z) (a b c d : nat) : list Z :=
  let s := chacha_qr_line s a b d 16 in
  let s := chacha_qr_line s c d b 12 in
  let s := chacha_qr_line s a b d 8 in
  chacha_qr_line s c d b 7.

Definition chacha_double_round (x : list Z) : list Z :=
  let x := chacha_qr x 0 4 8 12 in
  let x := chacha_qr x 1 5 9 13 in
  let x := chacha_qr x 2 6 10 14 in
  let x := chacha_qr x 3 7 11 15 in
  let x := chacha_qr x 0 5 10 15 in
  let x := chacha_qr x 1 6 11 12 in
  let x := chacha_qr x 2 7 8 13 in
  chacha_qr x 3 4 9 14.

Definition chacha_init (key : bytes) (counter : Z) (nonce : bytes) : list Z :=
  [0x61707865; 0x3320646e; 0x79622d32; 0x6b206574]
  ++ map (λ i, le32 (drop (4 * i) key)) (seq 0 8)
  ++ [counter; le32 (drop 0 nonce); le32 (drop 4 nonce); le32 (drop 8 nonce)].

Definition chacha20_block (key : bytes) (counter : Z) (nonce : bytes) : bytes :=
  let s := chacha_init key counter nonce in
  let x := Nat.iter 10 chacha_double_round s in
  mjoin (map (λ i, le32s (x !!! i + s !!! i)%w32) (seq 0 16)).

(** ** The XOR loop

    [while (n)]: one block per iteration; [input] holds the [n] bytes left.
    Every iteration consumes at least one byte, so [length input] iterations
    are enough. *)
Fixpoint chacha20_xor_loop (fuel : nat) (key : bytes) (counter : Z) (nonce : bytes)
    (input : bytes) : bytes :=
  match fuel with
  | O => []
  | S fuel =>
    match input with
    | [] => []
    | _ =>
      let blk := chacha20_block key counter nonce in
      let m := if decide (length input < 64)%nat then length input else 64%nat in
      map (λ i, u8 (rd input i ^^ rd blk i)%w32) (seq 0 m)
      ++ chacha20_xor_loop fuel key (counter + 1)%w32 nonce (drop m input)
    end
  end.

Definition chacha20_xor (key : bytes) (counter : Z) (nonce input : bytes) : bytes :=
  chacha20_xor_loop (length input) key counter nonce input.

(** ** Word I/O *)

Lemma le32_le_Z p : (4 <= length p)%nat → bytes_ok p → le32 p = le_Z (take 4 p).
Proof.
  intros Hl Hp. destruct p as [|a [|b [|c [|d p]]]]; simpl in Hl; try lia.
  assert (byte_ok a ∧ byte_ok b ∧ byte_ok c ∧ byte_ok d) as (?&?&?&?).
  { unfold bytes_ok in Hp. rewrite !Forall_cons in Hp. tauto. }
  unfold byte_ok in *. unfold le32, rd. simpl. rewrite !shiftl_mul by lia.
  rewrite (lor_disjoint a) by lia.
  replace (c * 2 ^ 16) with ((c * 2 ^ 0) * 2 ^ 16) by lia.
  replace (d * 2 ^ 24) with ((d * 2 ^ 8) * 2 ^ 16) by lia.
  rewrite <- !(shiftl_mul _ 16), <- Z.shiftl_lor, !(shiftl_mul _ 16) by lia.
  rewrite (lor_disjoint (c * 2 ^ 0) d 8) by lia.
  rewrite lor_disjoint by lia. lia.
Qed.

Lemma le32s_le_bytes v : le32s v = le_bytes 4 v.
Proof.
  unfold le32s, le_bytes. rewrite !shiftr_div by lia.
  rewrite !Z.div_div by lia. done.
Qed.

Lemma length_le32s v : length (le32s v) = 4%nat.
Proof. done. Qed.

Lemma le32_range p : bytes_ok p → 0 <= le32 p < 2 ^ 32.
Proof.
  intros Hp. unfold le32.
  pose proof (rd_ok p 0 Hp); pose proof (rd_ok p 1 Hp);
  pose proof (rd_ok p 2 Hp); pose proof (rd_ok p 3 Hp). unfold byte_ok in *.
  rewrite !shiftl_mul by lia. repeat apply lor_lt; lia.
Qed.

(** ** The quarter round *)

Lemma ROTL32_range x c : 0 <= x < 2 ^ 32 → 0 <= c <= 32 → 0 <= ROTL32 x c < 2 ^ 32.
Proof.
  intros Hx Hc. unfold ROTL32, shl32. apply lor_lt; [lia|apply u32_range|].
  rewrite shiftr_div by lia. split; [apply Z.div_pos; lia|].
  apply Z.div_lt_upper_bound; [lia|].
  assert (1 <= 2 ^ (32 - c)) by (pose proof (Z.pow_pos_nonneg 2 (32 - c)); lia). nia.
Qed.

(** A rotation by [c] swaps the two bit fields of the word. *)
Lemma ROTL32_split x c : 0 <= x < 2 ^ 32 → 0 < c < 32 →
  ROTL32 x c = x mod 2 ^ (32 - c) * 2 ^ c + x / 2 ^ (32 - c).
Proof.
  intros Hx Hc. unfold ROTL32, shl32, u32. rewrite shiftl_mul, shiftr_div by lia.
  replace (2 ^ 32) with (2 ^ (32 - c) * 2 ^ c) at 1 by (rewrite <- Z.pow_add_r by lia; f_equal; lia).
  rewrite Z.mul_mod_distr_r by lia. rewrite Z.lor_comm, lor_disjoint; [lia|lia|].
  split; [apply Z.div_pos; lia|]. apply Z.div_lt_upper_bound; [lia|].
  rewrite <- Z.pow_add_r by lia. replace (32 - c + c) with 32 by lia. lia.
Qed.

Lemma ROTL32_inverse x c : 0 <= x < 2 ^ 32 → 0 < c < 32 → ROTL32 (ROTL32 x c) (32 - c) = x.
Proof.
  intros Hx Hc.
  rewrite (ROTL32_split _ (32 - c)) by (try apply ROTL32_range; lia).
  rewrite (ROTL32_split x c) by lia.
  replace (32 - (32 - c)) with c by lia.
  assert (0 <= x / 2 ^ (32 - c) < 2 ^ c) as Hq.
  { split; [apply Z.div_pos; lia|]. apply Z.div_lt_upper_bound; [lia|].
    rewrite <- Z.pow_add_r by lia. replace (32 - c + c) with 32 by lia. lia. }
  rewrite (Z.add_comm (_ * 2 ^ c)), Z.mod_add, Z.mod_small by lia.
  assert (2 ^ c ≠ 0) by (apply Z.pow_nonzero; lia).
  rewrite Z.div_add by done. rewrite (Z.div_small (x / _)) by done.
  pose proof (Z.div_mod x (2 ^ (32 - c))). lia.
Qed.

(** The quarter round on the four words alone. *)
Definition qr4 (w : Z * Z * Z * Z) : Z * Z * Z * Z :=
  let '(a, b, c, d) := w in
  let a := (a + b)%w32 in let d := ROTL32 (d ^^ a)%w32 16 in
  let c := (c + d)%w32 in let b := ROTL32 (b ^^ c)%w32 12 in
  let a := (a + b)%w32 in let d := ROTL32 (d ^^ a)%w32 8 in
  let c := (c + d)%w32 in let b := ROTL32 (b ^^ c)%w32 7 in
  (a, b, c, d).

Definition qr4_inv (w : Z * Z * Z * Z) : Z * Z * Z * Z :=
  let '(a, b, c, d) := w in
  let b := (ROTL32 b 25 ^^ c)%w32 in let c := u32 (c - d) in
  let d := (ROTL32 d 24 ^^ a)%w32 in let a := u32 (a - b) in
  let b := (ROTL32 b 20 ^^ c)%w32 in let c := u32 (c - d) in
  let d := (ROTL32 d 16 ^^ a)%w32 in let a := u32 (a - b) in
  (a, b, c, d).

Definition word (x : Z) : Prop := 0 <= x < 2 ^ 32.

Lemma add32_sub a b : word a → u32 (add32 a b - b) = a.
Proof.
  intros Ha. unfold add32, u32. rewrite Zminus_mod_idemp_l.
  replace (a + b - b) with a by lia. by apply Z.mod_small.
Qed.
Lemma lxor_cancel a b : Z.lxor (Z.lxor a b) b = a.
Proof. by rewrite Z.lxor_assoc, Z.lxor_nilpotent, Z.lxor_0_r. Qed.
Lemma word_add a b : word (add32 a b).
Proof. apply u32_range. Qed.
Lemma word_lxor a b : word a → word b → word (Z.lxor a b).
Proof. by apply lxor_lt. Qed.
Lemma word_rotl a c : word a → 0 <= c <= 32 → word (ROTL32 a c).
Proof. apply ROTL32_range. Qed.
#[export] Hint Resolve word_add word_lxor word_rotl : word.

Lemma qr4_inverse a b c d : word a → word b → word c → word d →
  qr4_inv (qr4 (a, b, c, d)) = (a, b, c, d).
Proof.
  intros Ha Hb Hc Hd. unfold qr4, qr4_inv. cbv zeta.
  set (a1 := (a + b)%w32). set (d1 := ROTL32 (d ^^ a1)%w32 16).
  set (c1 := (c + d1)%w32). set (b1 := ROTL32 (b ^^ c1)%w32 12).
  set (a2 := (a1 + b1)%w32). set (d2 := ROTL32 (d1 ^^ a2)%w32 8).
  set (c2 := (c1 + d2)%w32).
  assert (word a1) by apply word_add. assert (word c1) by apply word_add.
  assert (word a2) by apply word_add. assert (word c2) by apply word_add.
  assert (word d1) by (apply word_rotl; [by apply word_lxor|lia]).
  assert (word b1) by (apply word_rotl; [by apply word_lxor|lia]).
  assert (ROTL32 (ROTL32 (b1 ^^ c2)%w32 7) 25 = (b1 ^^ c2)%w32) as ->
    by (apply (ROTL32_inverse _ 7); [by apply word_lxor|lia]).
  rewrite lxor_cancel.
  assert (u32 (c2 - d2) = c1) as -> by (by apply add32_sub).
  assert (ROTL32 d2 24 = (d1 ^^ a2)%w32) as ->
    by (apply (ROTL32_inverse _ 8); [by apply word_lxor|lia]).
  rewrite lxor_cancel.
  assert (u32 (a2 - b1) = a1) as -> by (by apply add32_sub).
  assert (ROTL32 b1 20 = (b ^^ c1)%w32) as ->
    by (apply (ROTL32_inverse _ 12); [by apply word_lxor|lia]).
  rewrite lxor_cancel.
  assert (u32 (c1 - d1) = c) as -> by (by apply add32_sub).
  assert (ROTL32 d1 16 = (d ^^ a1)%w32) as ->
    by (apply (ROTL32_inverse _ 16); [by apply word_lxor|lia]).
  rewrite lxor_cancel.
  by assert (u32 (a1 - b) = a) as -> by (by apply add32_sub).
Qed.

(** ** The rounds as a permutation of states *)

Definition state_ok (s : list Z) : Prop := length s = 16%nat ∧ Forall word s.

Definition qr_indices (a b c d : nat) : Prop :=
  (a < 16 ∧ b < 16 ∧ c < 16 ∧ d < 16)%nat ∧ NoDup [a; b; c; d].

Lemma state_ok_word s i : state_ok s → word (s !!! i).
Proof.
  intros [Hl Hs]. destruct (s !! i) as [w|] eqn:E.
  - erewrite list_lookup_total_correct by done. by eapply Forall_lookup_1.
  - rewrite list_lookup_total_alt, E. split; simpl; lia.
Qed.

Lemma state_ok_insert s i w : state_ok s → word w → state_ok (<[i := w]> s).
Proof. intros [Hl Hs] Hw. split; [by rewrite length_insert|by apply Forall_insert]. Qed.
#[export] Hint Resolve state_ok_word state_ok_insert : word.

(** One line writes the sum at [a], the rotated word at [d], nothing else. *)
Lemma chacha_qr_line_lookup s a b d n : length s = 16%nat → (a < 16)%nat → (d < 16)%nat → a ≠ d →
  let s' := chacha_qr_line s a b d n in
  s' !!! a = (s !!! a + s !!! b)%w32
  ∧ s' !!! d = ROTL32 (s !!! d ^^ (s !!! a + s !!! b))%w32 n
  ∧ (∀ i, i ≠ a → i ≠ d → s' !!! i = s !!! i)
  ∧ length s' = 16%nat.
Proof.
  intros Hl Ha Hd Had. unfold chacha_qr_line. cbv zeta. rewrite !length_insert.
  split_and!; [| |intros i ??|done];
  repeat first
    [ rewrite list_lookup_total_insert_eq by (rewrite ?length_insert; lia)
    | rewrite list_lookup_total_insert_ne by congruence ]; done.
Qed.

(** The quarter round writes [qr4] of the four words and nothing else. *)
Lemma chacha_qr_lookup s a b c d : length s = 16%nat → qr_indices a b c d →
  let s' := chacha_qr s a b c d in
  (s' !!! a, s' !!! b, s' !!! c, s' !!! d) = qr4 (s !!! a, s !!! b, s !!! c, s !!! d)
  ∧ (∀ i, i ≠ a → i ≠ b → i ≠ c → i ≠ d → s' !!! i = s !!! i)
  ∧ length s' = 16%nat.
Proof.
  intros Hl [(Ha&Hb&Hc&Hd) Hnd]. rewrite !NoDup_cons, !not_elem_of_cons in Hnd.
  destruct Hnd as ((Hab&Hac&Had&_)&(Hbc&Hbd&_)&(Hcd&_)&_).
  unfold chacha_qr. cbv zeta.
  destruct (chacha_qr_line_lookup s a b d 16) as (A1&D1&N1&L1); [done || congruence..|].
  set (s1 := chacha_qr_line s a b d 16) in *.
  destruct (chacha_qr_line_lookup s1 c d b 12) as (C2&B2&N2&L2); [done || congruence..|].
  set (s2 := chacha_qr_line s1 c d b 12) in *.
  destruct (chacha_qr_line_lookup s2 a b d 8) as (A3&D3&N3&L3); [done || congruence..|].
  set (s3 := chacha_qr_line s2 a b d 8) in *.
  destruct (chacha_qr_line_lookup s3 c d b 7) as (C4&B4&N4&L4); [done || congruence..|].
  split_and!; [|intros i ????; by rewrite N4, N3, N2, N1 by done|done].
  rewrite B4, C4, (N4 a), (N4 d), A3, D3, (N3 b), (N3 c), B2, C2, (N2 a), (N2 d), A1, D1,
    (N1 b), (N1 c) by congruence.
  done.
Qed.

Lemma state_ok_qr s a b c d : state_ok s → state_ok (chacha_qr s a b c d).
Proof.
  assert (∀ s a b d n, 0 <= n <= 32 → state_ok s → state_ok (chacha_qr_line s a b d n)) as H.
  { intros s' a' b' d' n Hn Hs. unfold chacha_qr_line. cbv zeta.
    assert (state_ok (<[a' := (s' !!! a' + s' !!! b')%w32]> s')) by auto with word.
    auto 10 with word. }
  intros. unfold chacha_qr. cbv zeta. by repeat (apply H; [lia|]).
Qed.

Lemma chacha_qr_inj s1 s2 a b c d : state_ok s1 → state_ok s2 → qr_indices a b c d →
  chacha_qr s1 a b c d = chacha_qr s2 a b c d → s1 = s2.
Proof.
  intros H1 H2 Hi E.
  destruct (chacha_qr_lookup s1 a b c d) as (Q1&N1&_); [apply H1|done|].
  destruct (chacha_qr_lookup s2 a b c d) as (Q2&N2&_); [apply H2|done|].
  rewrite E in Q1, N1.
  assert (qr4_inv (qr4 (s1 !!! a, s1 !!! b, s1 !!! c, s1 !!! d))
    = qr4_inv (qr4 (s2 !!! a, s2 !!! b, s2 !!! c, s2 !!! d))) as Einv by congruence.
  rewrite !qr4_inverse in Einv by auto with word. injection Einv as Ea Eb Ec Ed.
  destruct H1 as [L1 _], H2 as [L2 _].
  apply (list_eq_same_length s1 s2 16); [done..|]. intros i x y Hlt Hx Hy.
  apply list_lookup_total_correct in Hx as <-. apply list_lookup_total_correct in Hy as <-.
  destruct (decide (i = a)) as [->|]; [done|]. destruct (decide (i = b)) as [->|]; [done|].
  destruct (decide (i = c)) as [->|]; [done|]. destruct (decide (i = d)) as [->|]; [done|].
  rewrite <- N1, <- N2 by done. done.
Qed.

(** State maps that keep states well formed and lose no information. *)
Definition permutes (f : list Z → list Z) : Prop :=
  (∀ s, state_ok s → state_ok (f s))
  ∧ ∀ s1 s2, state_ok s1 → state_ok s2 → f s1 = f s2 → s1 = s2.

Lemma permutes_comp f g : permutes f → permutes g → permutes (λ s, g (f s)).
Proof. intros [Kf If] [Kg Ig]. split; [by eauto|]. intros s1 s2 H1 H2 E. by apply If, Ig; auto. Qed.

Lemma permutes_qr a b c d : bool_decide (qr_indices a b c d) → permutes (λ s, chacha_qr s a b c d).
Proof.
  intros H%bool_decide_unpack. split; [intros; by apply state_ok_qr|].
  intros. by eapply chacha_qr_inj.
Qed.

Lemma permutes_double_round : permutes chacha_double_round.
Proof.
  pose proof (permutes_qr 0 4 8 12 I) as P0. pose proof (permutes_qr 1 5 9 13 I) as P1.
  pose proof (permutes_qr 2 6 10 14 I) as P2. pose proof (permutes_qr 3 7 11 15 I) as P3.
  pose proof (permutes_qr 0 5 10 15 I) as P4. pose proof (permutes_qr 1 6 11 12 I) as P5.
  pose proof (permutes_qr 2 7 8 13 I) as P6. pose proof (permutes_qr 3 4 9 14 I) as P7.
  exact (permutes_comp _ _ (permutes_comp _ _ (permutes_comp _ _ (permutes_comp _ _
    (permutes_comp _ _ (permutes_comp _ _ (permutes_comp _ _ P0 P1) P2) P3) P4) P5) P6) P7).
Qed.

(** The 20 rounds are a permutation of states: distinct inputs give distinct
    mixed states. *)
Lemma permutes_rounds n : permutes (Nat.iter n chacha_double_round).
Proof.
  induction n as [|n IH]; [by split|].
  apply (permutes_comp _ _ IH permutes_double_round).
Qed.

(** ** Blocks *)

Lemma length_mjoin_le32s l : length (mjoin (map le32s l)) = (4 * length l)%nat.
Proof. induction l as [|w l IH]; simpl; [done|]. rewrite IH. lia. Qed.

Lemma length_chacha20_block key counter nonce : length (chacha20_block key counter nonce) = 64%nat.
Proof.
  unfold chacha20_block. rewrite <- (map_map _ le32s), length_mjoin_le32s, length_map, length_seq. done.
Qed.

Lemma bytes_ok_mjoin ll : Forall bytes_ok ll → bytes_ok (mjoin ll).
Proof. induction 1; simpl; [constructor|]. by apply bytes_ok_app. Qed.

Lemma chacha20_block_ok key counter nonce : bytes_ok (chacha20_block key counter nonce).
Proof.
  unfold chacha20_block. apply bytes_ok_mjoin, Forall_map, Forall_true. intros i.
  rewrite le32s_le_bytes. apply le_bytes_ok.
Qed.

Lemma chacha_init_ok key counter nonce :
  bytes_ok key → bytes_ok nonce → word counter → state_ok (chacha_init key counter nonce).
Proof.
  intros Hk Hn Hc. unfold chacha_init. split; [by rewrite !length_app, length_map, length_seq|].
  assert (∀ n l, bytes_ok l → word (le32 (drop n l))) by (intros; by apply le32_range, Forall_drop).
  apply Forall_app. split; [rewrite !Forall_cons; unfold word; split_and!; try lia; by apply Forall_nil|].
  apply Forall_app. split; [apply Forall_map, Forall_true; auto|].
  rewrite !Forall_cons. split_and!; auto.
Qed.

#[global] Opaque chacha20_block.

(** ** The XOR loop *)

(** Byte [i] of the keystream that starts at [counter]. *)
Definition keystream (key : bytes) (counter : Z) (nonce : bytes) (i : nat) : Z :=
  rd (chacha20_block key (u32 (counter + Z.of_nat (i / 64))) nonce) (i mod 64).

Lemma keystream_ok key counter nonce i : byte_ok (keystream key counter nonce i).
Proof. apply rd_ok, chacha20_block_ok. Qed.

Lemma keystream_next key counter nonce i :
  keystream key (counter + 1)%w32 nonce i = keystream key counter nonce (64 + i).
Proof.
  unfold keystream, add32, u32. rewrite Zplus_mod_idemp_l.
  pose proof (Nat.div_mod_eq i 64). pose proof (Nat.mod_upper_bound i 64 ltac:(lia)).
  replace ((64 + i) / 64)%nat with (1 + i / 64)%nat
    by (apply (Nat.div_unique _ _ _ (i mod 64)); lia).
  replace ((64 + i) mod 64)%nat with (i mod 64)%nat
    by (apply (Nat.mod_unique _ _ (1 + i / 64)); lia).
  by replace (counter + 1 + Z.of_nat (i / 64)) with (counter + Z.of_nat (1 + i / 64)) by lia.
Qed.

Lemma map_seq_lookup {A} (f : nat → A) n i :
  map f (seq 0 n) !! i = if decide (i < n)%nat then Some (f i) else None.
Proof.
  rewrite list_lookup_fmap. case_decide.
  - by rewrite lookup_seq_lt.
  - by rewrite lookup_seq_ge by lia.
Qed.

Lemma chacha20_xor_loop_lookup fuel key counter nonce input i :
  word counter → (length input <= fuel)%nat →
  chacha20_xor_loop fuel key counter nonce input !! i
  = (λ b, u8 (Z.lxor b (keystream key counter nonce i))) <$> input !! i.
Proof.
  revert counter input i. induction fuel as [|fuel IH]; intros counter input i Hc Hf.
  { destruct input; [done|simpl in Hf; lia]. }
  destruct input as [|b input']; [done|]. set (input := b :: input') in *.
  unfold input at 1. cbn [chacha20_xor_loop]. fold input. cbv zeta. set (m := if decide _ then _ else _).
  assert (Hm : (m = length input `min` 64)%nat) by (unfold m; case_decide; lia).
  assert (Hpos : (0 < length input)%nat) by (simpl; lia). clearbody m.
  destruct (decide (i < m)%nat) as [Hi|Hi].
  - rewrite lookup_app_l by (rewrite length_map, length_seq; lia).
    rewrite map_seq_lookup, decide_True by done.
    destruct (lookup_lt_is_Some_2 input i ltac:(lia)) as [x Hx]. rewrite Hx. simpl.
    assert (rd input i = x) as -> by (by apply list_lookup_total_correct).
    unfold keystream. rewrite Nat.div_small, Nat.mod_small by lia.
    by rewrite Z.add_0_r, u32_small by done.
  - rewrite lookup_app_r by (rewrite length_map, length_seq; lia).
    rewrite length_map, length_seq, IH; [|apply word_add|rewrite length_drop; lia].
    rewrite lookup_drop. replace (m + (i - m))%nat with i by lia.
    destruct (input !! i) as [x|] eqn:Hx; [|done]. apply lookup_lt_Some in Hx. simpl.
    rewrite keystream_next. by replace (64 + (i - m))%nat with i by lia.
Qed.

(** The XOR loop computes the keystream XOR, byte by byte. *)
Lemma chacha20_xor_lookup key counter nonce input i : word counter → bytes_ok input →
  chacha20_xor key counter nonce input !! i
  = (λ b, Z.lxor b (keystream key counter nonce i)) <$> input !! i.
Proof.
  intros Hc Hin. unfold chacha20_xor. rewrite chacha20_xor_loop_lookup by done.
  destruct (input !! i) as [b|] eqn:Hb; [|done]. simpl. f_equal. apply u8_small.
  apply lxor_byte, keystream_ok. by eapply Forall_lookup_1.
Qed.

Lemma length_chacha20_xor_loop fuel key counter nonce input : (length input <= fuel)%nat →
  length (chacha20_xor_loop fuel key counter nonce input) = length input.
Proof.
  revert counter input. induction fuel as [|fuel IH]; intros counter input Hf.
  { destruct input; [done|simpl in Hf; lia]. }
  destruct input as [|b l]; [done|]. cbn [chacha20_xor_loop]. cbv zeta.
  rewrite length_app, length_map, length_seq, IH, length_drop.
  all: rewrite ?length_drop; case_decide; simpl length in *; lia.
Qed.

(** One output byte per input byte: the loop terminates on every input. *)
Lemma length_chacha20_xor key counter nonce input :
  length (chacha20_xor key counter nonce input) = length input.
Proof. by apply length_chacha20_xor_loop. Qed.

Lemma chacha20_xor_ok key counter nonce input : word counter → bytes_ok input →
  bytes_ok (chacha20_xor key counter nonce input).
Proof.
  intros Hc Hin. apply Forall_lookup. intros i x Hx. rewrite chacha20_xor_lookup in Hx by done.
  destruct (input !! i) as [b|] eqn:Hb; [|done]. injection Hx as <-.
  apply lxor_byte, keystream_ok. by eapply Forall_lookup_1.
Qed.

Lemma chacha20_xor_involutive key counter nonce input : word counter → bytes_ok input →
  chacha20_xor key counter nonce (chacha20_xor key counter nonce input) = input.
Proof.
  intros Hc Hin. apply list_eq. intros i.
  rewrite chacha20_xor_lookup, chacha20_xor_lookup by auto using chacha20_xor_ok.
  destruct (input !! i); simpl; [|done]. by rewrite lxor_cancel.
Qed.

(** ** RFC 8439 vectors (the inputs of the self-test at the end of the file) *)

(** §2.3.2: key 00..1f, nonce 000000090000004a00000000, counter 1. *)
Example chacha20_rfc_2_3_2 :
  take 16 (chacha20_xor (map Z.of_nat (seq 0 32)) 1 [0; 0; 0; 9; 0; 0; 0; 0x4a; 0; 0; 0; 0]
    (replicate 64 0))
  = [0x10; 0xf1; 0xe7; 0xe4; 0xd1; 0x3b; 0x59; 0x15; 0x50; 0x0f; 0xdd; 0x1f; 0xa3; 0x20; 0x71; 0xc4].
Proof. vm_compute. reflexivity. Qed.

(** ** Properties *)

(** On every input the XOR loop returns one byte per input byte, the [i]-th
    being the input byte XORed with byte [i mod 64] of the block whose counter is
    [counter + i / 64] (32-bit); applied twice it gives the input back. *)
Theorem chacha20_xor_spec key counter nonce input : word counter → bytes_ok input →
  let out := chacha20_xor key counter nonce input in
  length out = length input
  ∧ (∀ i, out !! i = (λ b, Z.lxor b
      (rd (chacha20_block key (u32 (counter + Z.of_nat (i / 64))) nonce) (i mod 64))) <$> input !! i)
  ∧ chacha20_xor key counter nonce out = input.
Proof.
  intros Hc Hi. cbv zeta. split_and!; [apply length_chacha20_xor| |by apply chacha20_xor_involutive].
  intros i. by rewrite chacha20_xor_lookup.
Qed.

Lemma chacha20_xor_spec_witness :
  chacha20_xor (map Z.of_nat (seq 0 32)) 1 (replicate 12 0)
    (chacha20_xor (map Z.of_nat (seq 0 32)) 1 (replicate 12 0) [1; 2; 3]) = [1; 2; 3].
Proof.
  apply (chacha20_xor_spec (map Z.of_nat (seq 0 32)) 1 (replicate 12 0) [1; 2; 3]).
  - split; reflexivity || discriminate.
  - repeat constructor; discriminate || reflexivity.
Defined.

(** The twenty rounds are a permutation of the 16-word states: two different
    states (two keys, counters or nonces) never meet before the feed-forward. *)
Theorem chacha20_rounds_injective key1 c1 nonce1 key2 c2 nonce2 :
  bytes_ok key1 → bytes_ok nonce1 → word c1 → bytes_ok key2 → bytes_ok nonce2 → word c2 →
  Nat.iter 10 chacha_double_round (chacha_init key1 c1 nonce1)
  = Nat.iter 10 chacha_double_round (chacha_init key2 c2 nonce2) →
  chacha_init key1 c1 nonce1 = chacha_init key2 c2 nonce2.
Proof.
  intros. by apply (permutes_rounds 10); [apply chacha_init_ok..|].
Qed.

Lemma chacha20_rounds_injective_witness :
  chacha_init (replicate 32 0) 1 (replicate 12 0) = chacha_init (replicate 32 0) 1 (replicate 12 0).
Proof.
  apply (chacha20_rounds_injective (replicate 32 0) 1 (replicate 12 0)
           (replicate 32 0) 1 (replicate 12 0)); try reflexivity;
    (apply bytes_ok_replicate || (split; reflexivity || discriminate)).
Defined.
