(* ===== verification/Poly1305.v ===== *)
(** * Poly1305 (src/src/mini_vfs_decrypt.c, lines 71-180)

    The one-time authenticator in the 5 x 26-bit limb representation, followed
    by its specification: the polynomial of the padded 16-byte blocks evaluated
    at the clamped [r] modulo [2^130 - 5], plus [s], modulo [2^128].  The main
    result, [poly1305_mac_spec], says the limb code computes exactly that, on
    every message and key. *)

From S2P Require Import Prelude Chacha.

(** Five limbs, least significant first. *)
Record limbs := L5 { l0 : Z; l1 : Z; l2 : Z; l3 : Z; l4 : Z }.

Definition M26 : Z := 0x3ffffff.

(** ** The code *)

Definition poly_clamp (key : bytes) : limbs :=
  L5 (Z.land (le32 key) 0x03ffffff)
     (Z.land (le32 (drop 3 key) >> 2)%w32 0x03ffff03)
     (Z.land (le32 (drop 6 key) >> 4)%w32 0x03ffc0ff)
     (Z.land (le32 (drop 9 key) >> 6)%w32 0x03f03fff)
     (Z.land (le32 (drop 12 key) >> 8)%w32 0x00fffff).

(** The limbs [nn] of one block of [bs] bytes at [p], before the top bit. *)
Definition poly_limbs (buf : bytes) : list Z :=
  let t0 := le32 buf in let t1 := le32 (drop 4 buf) in
  let t2 := le32 (drop 8 buf) in let t3 := le32 (drop 12 buf) in
  [ Z.land t0 M26;
    Z.land (Z.lor (t0 >> 26)%w32 (t1 << 6)%w32) M26;
    Z.land (Z.lor (t1 >> 20)%w32 (t2 << 12)%w32) M26;
    Z.land (Z.lor (t2 >> 14)%w32 (t3 << 18)%w32) M26;
    (t3 >> 8)%w32 ].

Definition poly_load (p : bytes) (bs : nat) : list Z :=
  let buf := take bs p ++ replicate (16 - bs) 0 in
  let nn := poly_limbs buf in
  let hb := 8 * Z.of_nat bs in
  let k := Z.to_nat (hb / 26) in
  <[k := Z.lor (nn !!! k) (1 << (hb mod 26))%w32]> nn.

(** [h * r] with the high products folded by [s = 5 r]; the five 64-bit sums. *)
Definition poly_mul (h r : limbs) : limbs :=
  let s1 := mul32 (l1 r) 5 in let s2 := mul32 (l2 r) 5 in
  let s3 := mul32 (l3 r) 5 in let s4 := mul32 (l4 r) 5 in
  L5 (u64 (l0 h * l0 r + l1 h * s4 + l2 h * s3 + l3 h * s2 + l4 h * s1))
     (u64 (l0 h * l1 r + l1 h * l0 r + l2 h * s4 + l3 h * s3 + l4 h * s2))
     (u64 (l0 h * l2 r + l1 h * l1 r + l2 h * l0 r + l3 h * s4 + l4 h * s3))
     (u64 (l0 h * l3 r + l1 h * l2 r + l2 h * l1 r + l3 h * l0 r + l4 h * s4))
     (u64 (l0 h * l4 r + l1 h * l3 r + l2 h * l2 r + l3 h * l1 r + l4 h * l0 r)).

(** The two carry chains after the multiplication: 64-bit, then 32-bit. *)
Definition poly_carry (d : limbs) : limbs :=
  let c := Z.shiftr (l0 d) 26 in let d0 := Z.land (l0 d) M26 in let d1 := u64 (l1 d + c) in
  let c := Z.shiftr d1 26 in let d1 := Z.land d1 M26 in let d2 := u64 (l2 d + c) in
  let c := Z.shiftr d2 26 in let d2 := Z.land d2 M26 in let d3 := u64 (l3 d + c) in
  let c := Z.shiftr d3 26 in let d3 := Z.land d3 M26 in let d4 := u64 (l4 d + c) in
  let c := Z.shiftr d4 26 in let d4 := Z.land d4 M26 in
  let h0 := add32 (u32 d0) (mul32 (u32 c) 5) in
  let c := Z.shiftr h0 26 in let h0 := Z.land h0 M26 in
  let h1 := add32 (u32 d1) (u32 c) in let c := Z.shiftr h1 26 in let h1 := Z.land h1 M26 in
  let h2 := add32 (u32 d2) (u32 c) in let c := Z.shiftr h2 26 in let h2 := Z.land h2 M26 in
  let h3 := add32 (u32 d3) (u32 c) in let c := Z.shiftr h3 26 in let h3 := Z.land h3 M26 in
  let h4 := add32 (u32 d4) (u32 c) in let c := Z.shiftr h4 26 in let h4 := Z.land h4 M26 in
  let h0 := add32 h0 (mul32 (u32 c) 5) in let c := Z.shiftr h0 26 in let h0 := Z.land h0 M26 in
  let h1 := add32 h1 (u32 c) in
  L5 h0 h1 h2 h3 h4.

Definition poly_block (r h : limbs) (p : bytes) (bs : nat) : limbs :=
  let nn := poly_load p bs in
  let h := L5 (add32 (l0 h) (nn !!! 0%nat)) (add32 (l1 h) (nn !!! 1%nat))
              (add32 (l2 h) (nn !!! 2%nat)) (add32 (l3 h) (nn !!! 3%nat))
              (add32 (l4 h) (nn !!! 4%nat)) in
  poly_carry (poly_mul h r).

(** [while (left > 0)]: [p] is what is left of the message. *)
Fixpoint poly_loop (fuel : nat) (r h : limbs) (p : bytes) : limbs :=
  match fuel with
  | O => h
  | S fuel =>
    match p with
    | [] => h
    | _ =>
      let bs := if decide (16 <= length p)%nat then 16%nat else length p in
      poly_loop fuel r (poly_block r h p bs) (drop bs p)
    end
  end.

(** One pass of the final carry propagation. *)
Definition poly_pass (h : limbs) : limbs :=
  let c := Z.shiftr (l1 h) 26 in let h1 := Z.land (l1 h) M26 in let h2 := add32 (l2 h) c in
  let c := Z.shiftr h2 26 in let h2 := Z.land h2 M26 in let h3 := add32 (l3 h) c in
  let c := Z.shiftr h3 26 in let h3 := Z.land h3 M26 in let h4 := add32 (l4 h) c in
  let c := Z.shiftr h4 26 in let h4 := Z.land h4 M26 in let h0 := add32 (l0 h) (mul32 c 5) in
  let c := Z.shiftr h0 26 in let h0 := Z.land h0 M26 in let h1 := add32 h1 c in
  L5 h0 h1 h2 h3 h4.

(** [h + (-p)], selected by mask if [h >= p]. *)
Definition poly_select (h : limbs) : limbs :=
  let g0 := add32 (l0 h) 5 in let c := Z.shiftr g0 26 in let g0 := Z.land g0 M26 in
  let g1 := add32 (l1 h) c in let c := Z.shiftr g1 26 in let g1 := Z.land g1 M26 in
  let g2 := add32 (l2 h) c in let c := Z.shiftr g2 26 in let g2 := Z.land g2 M26 in
  let g3 := add32 (l3 h) c in let c := Z.shiftr g3 26 in let g3 := Z.land g3 M26 in
  let g4 := u32 (l4 h + c - 2 ^ 26) in
  let mask := u32 (Z.shiftr g4 31 - 1) in
  let sel x g := Z.lor (Z.land x (not32 mask)) (Z.land g mask) in
  L5 (sel (l0 h) g0) (sel (l1 h) g1) (sel (l2 h) g2) (sel (l3 h) g3) (sel (l4 h) g4).

(** 5 x 26 bits to 4 x 32 bits through a 64-bit accumulator. *)
Definition poly_repack (h : limbs) : list Z :=
  let acc := Z.lor (l0 h) (u64 (Z.shiftl (l1 h) 26)) in
  let w0 := u32 acc in let acc := Z.shiftr acc 32 in
  let acc := Z.lor acc (u64 (Z.shiftl (l2 h) 20)) in
  let w1 := u32 acc in let acc := Z.shiftr acc 32 in
  let acc := Z.lor acc (u64 (Z.shiftl (l3 h) 14)) in
  let w2 := u32 acc in let acc := Z.shiftr acc 32 in
  let acc := Z.lor acc (u64 (Z.shiftl (l4 h) 8)) in
  let w3 := u32 acc in
  [w0; w1; w2; w3].

Definition poly_add_pad (key : bytes) (w : list Z) : bytes :=
  let p0 := le32 (drop 16 key) in let p1 := le32 (drop 20 key) in
  let p2 := le32 (drop 24 key) in let p3 := le32 (drop 28 key) in
  let f := u64 (w !!! 0%nat + p0) in let w0 := u32 f in
  let f := u64 (w !!! 1%nat + p1 + Z.shiftr f 32) in let w1 := u32 f in
  let f := u64 (w !!! 2%nat + p2 + Z.shiftr f 32) in let w2 := u32 f in
  let f := u64 (w !!! 3%nat + p3 + Z.shiftr f 32) in let w3 := u32 f in
  le32s w0 ++ le32s w1 ++ le32s w2 ++ le32s w3.

Definition poly1305_mac (key msg : bytes) : bytes :=
  let r := poly_clamp key in
  let h := poly_loop (length msg) r (L5 0 0 0 0 0) msg in
  let h := poly_pass (poly_pass h) in
  poly_add_pad key (poly_repack (poly_select h)).

(** ** Specification (RFC 8439 §2.5) *)

Definition P1305 : Z := 2 ^ 130 - 5.
Definition clamp_mask : Z := 0x0ffffffc0ffffffc0ffffffc0fffffff.

Fixpoint poly_eval (fuel : nat) (r acc : Z) (msg : bytes) : Z :=
  match fuel, msg with
  | O, _ | _, [] => acc
  | S fuel, _ => poly_eval fuel r ((acc + le_Z (take 16 msg ++ [1])) * r mod P1305) (drop 16 msg)
  end.

Definition poly1305 (key msg : bytes) : Z :=
  let r := Z.land (le_Z (take 16 key)) clamp_mask in
  let s := le_Z (slice 16 16 key) in
  (poly_eval (length msg) r 0 msg + s) mod 2 ^ 128.

Example poly1305_mac_rfc_2_5_2 :
  poly1305_mac
    [0x85;0xd6;0xbe;0x78;0x57;0x55;0x6d;0x33;0x7f;0x44;0x52;0xfe;0x42;0xd5;0x06;0xa8;
     0x01;0x03;0x80;0x8a;0xfb;0x0d;0xb2;0xfd;0x4a;0xbf;0xf6;0xaf;0x41;0x49;0xf5;0x1b]
    [0x43;0x72;0x79;0x70;0x74;0x6f;0x67;0x72;0x61;0x70;0x68;0x69;0x63;0x20;0x46;0x6f;0x72;
     0x75;0x6d;0x20;0x52;0x65;0x73;0x65;0x61;0x72;0x63;0x68;0x20;0x47;0x72;0x6f;0x75;0x70]
  = [0xa8;0x06;0x1d;0xc1;0x30;0x51;0x36;0xc6;0xc2;0x2b;0x8b;0xaf;0x0c;0x01;0x27;0xa9].
Proof. vm_compute. reflexivity. Qed.

(** ** Limb arithmetic *)

Definition val (h : limbs) : Z :=
  l0 h + 2 ^ 26 * l1 h + 2 ^ 52 * l2 h + 2 ^ 78 * l3 h + 2 ^ 104 * l4 h.

Definition lim (x : Z) : Prop := 0 <= x < 2 ^ 26.

(** Between blocks every limb is below [2^26], except [h1 <= 2^26]. *)
Definition acc_ok (h : limbs) : Prop :=
  lim (l0 h) ∧ 0 <= l1 h <= 2 ^ 26 ∧ lim (l2 h) ∧ lim (l3 h) ∧ lim (l4 h).

(** After the full carry all limbs are below [2^26]. *)
Definition reduced (h : limbs) : Prop :=
  lim (l0 h) ∧ lim (l1 h) ∧ lim (l2 h) ∧ lim (l3 h) ∧ lim (l4 h).

Lemma land_M26 x : Z.land x M26 = x mod 2 ^ 26.
Proof. by apply (land_mod x 26). Qed.

(** *** Let-chains

    The goal is [Q (let x := v in b)].  [chain_step] names the value, replaces a
    mask/shift pair by the quotient and remainder it computes, and removes a
    wrapper whose argument is in range: the context keeps linear facts only. *)

Lemma div26_bounds x c : c = Z.shiftr x 26 → 2 ^ 26 * c <= x < 2 ^ 26 * c + 2 ^ 26.
Proof. intros ->. rewrite shiftr_div by lia. mlia. Qed.

Lemma mod26_eq x c lo : c = Z.shiftr x 26 → lo = Z.land x M26 → lo = x - 2 ^ 26 * c.
Proof. intros -> ->. rewrite land_M26, shiftr_div by lia. mlia. Qed.

Ltac chain_fact y E :=
  lazymatch type of E with
  | y = Z.shiftr ?x 26 =>
      let B := fresh "B" in pose proof (div26_bounds x y E) as B
  | y = Z.land ?x M26 =>
      lazymatch goal with
      | C : ?c = Z.shiftr x 26 |- _ => apply (mod26_eq x c y C) in E
      end
  | y = ?v =>
      unfold add32, mul32 in E;
      repeat match type of E with
      | context [u32 ?e] => rewrite (u32_small e) in E by lia
      | context [u64 ?e] => rewrite (u64_small e) in E by lia
      end
  end.

Ltac chain_step :=
  lazymatch goal with
  | |- ?Q (let x := ?v in @?b x) =>
      change (Q (b v)); cbv beta;
      let y := fresh "y" in let E := fresh "E" in
      remember v as y eqn:E in |- *; chain_fact y E
  end.

(** Multiples of [p] separate congruent values. *)
Definition congP (a b : Z) : Prop := ∃ q, a = b + P1305 * q.

Lemma congP_mod a b : congP a b → a mod P1305 = b mod P1305.
Proof. intros [q ->]. rewrite Z.mul_comm. by rewrite Z.mod_add. Qed.
Lemma congP_trans a b c : congP a b → congP b c → congP a c.
Proof. intros [q ->] [q' ->]. exists (q' + q). lia. Qed.

(** Turn the goal into [Q t] for the let-chain [t]. *)
Ltac focus_chain t :=
  pattern t;
  lazymatch goal with |- ?P t => let Q := fresh "Q" in set (Q := P) end.

(** One pass fully reduces an accumulator (the second one finds nothing to
    carry). *)
Lemma poly_pass_spec h : acc_ok h → reduced (poly_pass h) ∧ congP (val h) (val (poly_pass h)).
Proof.
  destruct h as [h0 h1 h2 h3 h4]. unfold acc_ok, lim. simpl. intros (H0&H1&H2&H3&H4).
  focus_chain (poly_pass (L5 h0 h1 h2 h3 h4)).
  cbv beta iota delta [poly_pass l0 l1 l2 l3 l4]. repeat chain_step. subst Q.
  unfold reduced, lim, congP, val, P1305. simpl. split; [lia|].
  match goal with
  | E1 : ?y = h4 + _, E2 : ?c = Z.shiftr ?y 26 |- _ => exists c
  end. lia.
Qed.

(** *** The carry chains of a block *)
Definition mul_ok (d : limbs) : Prop :=
  0 <= l0 d < 2 ^ 58 ∧ 0 <= l1 d < 2 ^ 58 ∧ 0 <= l2 d < 2 ^ 58 ∧ 0 <= l3 d < 2 ^ 58
  ∧ 0 <= l4 d < 5 * 2 ^ 53.

Lemma poly_carry_spec d : mul_ok d → acc_ok (poly_carry d) ∧ congP (val d) (val (poly_carry d)).
Proof.
  destruct d as [d0 d1 d2 d3 d4]. unfold mul_ok. simpl. intros (H0&H1&H2&H3&H4).
  focus_chain (poly_carry (L5 d0 d1 d2 d3 d4)).
  cbv beta iota delta [poly_carry l0 l1 l2 l3 l4]. repeat chain_step. subst Q.
  unfold acc_ok, lim, congP, val, P1305. simpl. split; [lia|].
  match goal with
  | E1 : ?y = d4 + _, E2 : ?c = Z.shiftr ?y 26, E3 : ?z = _ + ?c',
    E4 : ?c' = Z.shiftr _ 26, E5 : ?c5 = Z.shiftr ?z 26 |- _ => exists (c + c5)
  end.
  lia.
Qed.

(** *** The multiplication *)
Definition r_ok (r : limbs) : Prop := reduced r.
(** The accumulator once a block has been added to it. *)
Definition sum_ok (h : limbs) : Prop :=
  0 <= l0 h <= 2 ^ 27 ∧ 0 <= l1 h <= 2 ^ 27 ∧ 0 <= l2 h <= 2 ^ 27 ∧ 0 <= l3 h <= 2 ^ 27
  ∧ 0 <= l4 h <= 2 ^ 27.

Definition prod_ok (m x : Z) : Prop := 0 <= x <= m.

Lemma prod_1 a b : 0 <= a <= 2 ^ 27 → 0 <= b < 2 ^ 26 → prod_ok (2 ^ 53 - 1) (a * b).
Proof. unfold prod_ok. nia. Qed.
Lemma prod_5 a b : 0 <= a <= 2 ^ 27 → 0 <= b < 2 ^ 26 → prod_ok (5 * 2 ^ 53) (a * (b * 5)).
Proof. unfold prod_ok. nia. Qed.
Lemma prod_15 a b : 0 <= a <= 2 ^ 27 → 0 <= b < 2 ^ 26 → prod_ok (5 * 2 ^ 53) (a * b).
Proof. unfold prod_ok. nia. Qed.
Lemma sum5 m a b c d e : 0 <= m <= 5 * 2 ^ 53 → prod_ok m a → prod_ok m b → prod_ok m c →
  prod_ok m d → prod_ok m e →
  u64 (a + b + c + d + e) = a + b + c + d + e ∧ 0 <= a + b + c + d + e <= 5 * m.
Proof. unfold prod_ok. intros. split; [apply u64_small|]; lia. Qed.

Lemma poly_mul_spec h r : sum_ok h → r_ok r →
  mul_ok (poly_mul h r) ∧ congP (val h * val r) (val (poly_mul h r)).
Proof.
  destruct h as [a0 a1 a2 a3 a4], r as [r0 r1 r2 r3 r4].
  unfold sum_ok, r_ok, reduced, lim. simpl. intros (A0&A1&A2&A3&A4) (R0&R1&R2&R3&R4).
  unfold poly_mul, mul32. simpl. rewrite !(u32_small (_ * 5)) by lia.
  assert (0 <= 5 * 2 ^ 53 <= 5 * 2 ^ 53) as M5 by lia.
  assert (0 <= 2 ^ 53 - 1 <= 5 * 2 ^ 53) as M1 by lia.
  do 4 (lazymatch goal with |- context [u64 (?a + ?b + ?c + ?d + ?e)] =>
    destruct (sum5 (5 * 2 ^ 53) a b c d e) as [-> ?]; [exact M5|by auto using prod_5, prod_15..|] end).
  lazymatch goal with |- context [u64 (?a + ?b + ?c + ?d + ?e)] =>
    destruct (sum5 (2 ^ 53 - 1) a b c d e) as [-> B4]; [exact M1|by auto using prod_1..|] end.
  split.
  - unfold mul_ok. cbn [l0 l1 l2 l3 l4]. split_and!; lia.
  - unfold val. cbn [l0 l1 l2 l3 l4].
    exists (a1 * r4 + a2 * r3 + a3 * r2 + a4 * r1
      + 2 ^ 26 * (a2 * r4 + a3 * r3 + a4 * r2) + 2 ^ 52 * (a3 * r4 + a4 * r3)
      + 2 ^ 78 * (a4 * r4)).
    unfold P1305. ring.
Qed.

(** ** Blocks *)

Lemma le_Z_window k n l : bytes_ok l → (k + n <= length l)%nat →
  le_Z (take n (drop k l)) = le_Z l / 2 ^ (8 * Z.of_nat k) mod 2 ^ (8 * Z.of_nat n).
Proof.
  intros Hl Hn.
  assert (le_Z l = le_Z (take k l) + 2 ^ (8 * Z.of_nat k)
    * (le_Z (take n (drop k l)) + 2 ^ (8 * Z.of_nat n) * le_Z (drop n (drop k l)))) as ->.
  { rewrite <- (take_drop k l) at 1. rewrite le_Z_app, length_take, Nat.min_l by lia.
    rewrite <- (take_drop n (drop k l)) at 1.
    rewrite le_Z_app, (length_take _ n), length_drop, Nat.min_l by lia. done. }
  pose proof (le_Z_bound (take k l) ltac:(by apply Forall_take)) as B1.
  pose proof (le_Z_bound (take n (drop k l)) ltac:(by apply Forall_take, Forall_drop)) as B2.
  rewrite length_take, Nat.min_l in B1 by lia.
  rewrite length_take, length_drop, Nat.min_l in B2 by lia.
  rewrite (Z.mul_comm (2 ^ (8 * Z.of_nat k))), Z.div_add by lia.
  rewrite (Z.div_small (le_Z (take k l))), Z.add_0_l by lia.
  rewrite (Z.mul_comm (2 ^ (8 * Z.of_nat n))), Z.mod_add by lia.
  by rewrite Z.mod_small.
Qed.

Lemma le32_window k l : bytes_ok l → (k + 4 <= length l)%nat →
  le32 (drop k l) = le_Z l / 2 ^ (8 * Z.of_nat k) mod 2 ^ 32.
Proof.
  intros Hl Hk. rewrite le32_le_Z; [|rewrite length_drop; lia|by apply Forall_drop].
  by rewrite le_Z_window.
Qed.

(** Adjacent 32-bit words yield the 26-bit fields. *)
Lemma limb_splice a b s : 0 <= a < 2 ^ 32 → 0 <= b < 2 ^ 32 → 0 < s < 32 →
  Z.lor (Z.shiftr a s) (shl32 b (32 - s)) = (a + 2 ^ 32 * b) / 2 ^ s mod 2 ^ 32.
Proof.
  intros Ha Hb Hs. unfold shl32, u32. rewrite shiftr_div, shiftl_mul by lia.
  assert (2 ^ 32 = 2 ^ s * 2 ^ (32 - s)) as E32 by (rewrite <- Z.pow_add_r by lia; f_equal; lia).
  assert (0 < 2 ^ s) by lia. assert (0 < 2 ^ (32 - s)) by lia.
  assert (0 <= a / 2 ^ s < 2 ^ (32 - s)) as Hq.
  { split; [apply Z.div_pos; lia|]. apply Z.div_lt_upper_bound; lia. }
  rewrite E32, Z.mul_mod_distr_r by lia. rewrite lor_disjoint by lia.
  replace (a + 2 ^ s * 2 ^ (32 - s) * b) with (a + b * 2 ^ (32 - s) * 2 ^ s) by lia.
  rewrite Z.div_add by lia. rewrite (Z.mul_comm (2 ^ s)), Z.rem_mul_r by lia.
  rewrite Z.mod_add by lia. rewrite Z.div_add by lia.
  rewrite (Z.mod_small (a / 2 ^ s)) by lia. rewrite (Z.div_small (a / 2 ^ s)) by lia.
  rewrite Z.add_0_l. lia.
Qed.

Lemma mod_mod_26 x : x mod 2 ^ 32 mod 2 ^ 26 = x mod 2 ^ 26.
Proof. mlia. Qed.

(** The five fields of the 128-bit block value [T]. *)
Lemma poly_limbs_spec buf : bytes_ok buf → length buf = 16%nat →
  let T := le_Z buf in
  poly_limbs buf = [T mod 2 ^ 26; T / 2 ^ 26 mod 2 ^ 26; T / 2 ^ 52 mod 2 ^ 26;
                    T / 2 ^ 78 mod 2 ^ 26; T / 2 ^ 104].
Proof.
  intros Hb Hl T. unfold poly_limbs. cbv zeta.
  pose proof (le_Z_bound buf Hb) as HT. rewrite Hl in HT. fold T in HT. simpl (8 * _) in HT.
  rewrite <- (drop_0 buf) at 1 2. rewrite !le32_window by (try done; lia). fold T.
  simpl (8 * _). rewrite !land_M26.
  assert (∀ k, 0 <= T / 2 ^ k mod 2 ^ 32 < 2 ^ 32) as Hw by (intros; mlia).
  rewrite (limb_splice _ _ 26), (limb_splice _ _ 20), (limb_splice _ _ 14) by (try apply Hw; lia).
  rewrite !mod_mod_26, Z.div_1_r, shiftr_div by lia. clear Hw.
  change (8 * Z.of_nat 16) with 128 in HT. change (8 * Z.of_nat 4) with 32.
  change (8 * Z.of_nat 8) with 64. change (8 * Z.of_nat 12) with 96.
  clearbody T. clear Hb Hl.
  f_equal. f_equal; [mlia|]. f_equal; [mlia|]. f_equal; [mlia|]. f_equal. mlia.
Qed.

Lemma fields_sum T : 0 <= T < 2 ^ 128 →
  T = T mod 2 ^ 26 + 2 ^ 26 * (T / 2 ^ 26 mod 2 ^ 26) + 2 ^ 52 * (T / 2 ^ 52 mod 2 ^ 26)
    + 2 ^ 78 * (T / 2 ^ 78 mod 2 ^ 26) + 2 ^ 104 * (T / 2 ^ 104).
Proof. intros. mlia. Qed.

Definition nn_val (nn : list Z) : Z :=
  val (L5 (nn !!! 0%nat) (nn !!! 1%nat) (nn !!! 2%nat) (nn !!! 3%nat) (nn !!! 4%nat)).

(** The 1-bit lands above the [hb] message bits, in limb [hb / 26]. *)
Lemma top_bit_field T hb k off : 0 <= T < 2 ^ hb → hb = 26 * k + off → 0 <= k → 0 <= off < 26 →
  let f := T / 2 ^ (26 * k) mod 2 ^ 26 in
  T / 2 ^ (26 * k) = f ∧ Z.lor f (shl32 1 off) = f + 2 ^ off ∧ f + 2 ^ off < 2 ^ 26.
Proof.
  intros HT -> Hk Hoff f.
  assert (0 <= T / 2 ^ (26 * k) < 2 ^ off) as Hq.
  { split; [apply Z.div_pos; lia|]. apply Z.div_lt_upper_bound; [lia|].
    rewrite <- Z.pow_add_r by lia. apply HT. }
  assert (2 ^ off <= 2 ^ 25) by (apply Z.pow_le_mono_r; lia).
  assert (T / 2 ^ (26 * k) = f) as Ef by (unfold f; by rewrite Z.mod_small by lia).
  split_and!; [done| |lia].
  unfold shl32. rewrite shiftl_mul, Z.mul_1_l, u32_small by lia.
  rewrite <- Ef. replace (2 ^ off) with (1 * 2 ^ off) by lia. apply lor_disjoint; lia.
Qed.

(** Adding to one limb adds at its weight. *)
Lemma limb_bump nn k x : length nn = 5%nat → Forall lim nn → (k < 5)%nat →
  lim (nn !!! k + x) →
  Forall lim (<[k := nn !!! k + x]> nn)
  ∧ nn_val (<[k := nn !!! k + x]> nn) = nn_val nn + 2 ^ (26 * Z.of_nat k) * x.
Proof.
  intros Hl Hf Hk Hx. split; [by apply Forall_insert|].
  destruct nn as [|a0 [|a1 [|a2 [|a3 [|a4 [|]]]]]]; try done.
  destruct k as [|[|[|[|[|]]]]]; try lia; unfold nn_val, val; simpl; lia.
Qed.

Lemma poly_load_spec p bs : bytes_ok p → (0 < bs <= 16)%nat → (bs <= length p)%nat →
  Forall lim (poly_load p bs) ∧ length (poly_load p bs) = 5%nat
  ∧ nn_val (poly_load p bs) = le_Z (take bs p ++ [1]).
Proof.
  intros Hp Hbs Hlen. unfold poly_load. cbv zeta.
  set (buf := take bs p ++ replicate (16 - bs) 0).
  assert (bytes_ok (take bs p)) as Ht by by apply Forall_take.
  assert (length (take bs p) = bs) as Lt by (rewrite length_take; lia).
  assert (bytes_ok buf) as Hbuf by (apply bytes_ok_app; auto with word).
  assert (length buf = 16%nat) as Lbuf by (unfold buf; rewrite length_app, length_replicate; lia).
  rewrite (poly_limbs_spec buf Hbuf Lbuf).
  assert (le_Z buf = le_Z (take bs p)) as ->.
  { unfold buf. rewrite le_Z_app. clear. induction (16 - bs)%nat; simpl le_Z; lia. }
  pose proof (le_Z_bound _ Ht) as HT. rewrite Lt in HT.
  rewrite le_Z_app, Lt. change (le_Z [1]) with 1. rewrite Z.mul_1_r.
  set (T := le_Z (take bs p)) in *. clearbody T. clear Hbuf Lbuf buf Ht Lt.
  set (hb := 8 * Z.of_nat bs) in *. assert (8 <= hb <= 128) as Hhb by lia. clearbody hb.
  assert (2 ^ hb <= 2 ^ 128) by (apply Z.pow_le_mono_r; lia).
  pose proof (fields_sum T ltac:(lia)) as HS.
  pose proof (Z.div_mod hb 26 ltac:(lia)) as Ehb. pose proof (Z.mod_pos_bound hb 26 ltac:(lia)).
  set (off := hb mod 26) in *. clearbody off.
  set (k := hb / 26) in *. assert (0 <= k <= 4) as Hk by (unfold k; mlia). clearbody k.
  destruct (top_bit_field T hb k off) as (_&E2&E3); [lia..|].
  assert (2 ^ hb = 2 ^ (26 * k) * 2 ^ off) as -> by (rewrite <- Z.pow_add_r by lia; by f_equal).
  assert (∀ x, lim (x mod 2 ^ 26)) as Hmod by (intros; unfold lim; mlia).
  assert (lim (T / 2 ^ 104)) as H4 by (unfold lim; mlia).
  rewrite <- (Z.mod_small (T / 2 ^ 104) (2 ^ 26)) in HS |- * by done.
  set (nn := [T mod 2 ^ 26; T / 2 ^ 26 mod 2 ^ 26; T / 2 ^ 52 mod 2 ^ 26;
              T / 2 ^ 78 mod 2 ^ 26; T / 2 ^ 104 mod 2 ^ 26]).
  assert (nn !!! Z.to_nat k = T / 2 ^ (26 * k) mod 2 ^ 26) as Ek.
  { assert (k = 0 ∨ k = 1 ∨ k = 2 ∨ k = 3 ∨ k = 4) as Hc by lia.
    destruct Hc as [->|[->|[->|[->| ->]]]]; [by rewrite Z.div_1_r|done..]. }
  rewrite Ek, E2, <- Ek.
  destruct (limb_bump nn (Z.to_nat k) (2 ^ off)) as [HF ->]; [done| |lia| |].
  - unfold nn. rewrite !Forall_cons. split_and!; try apply Hmod. by apply Forall_nil.
  - rewrite Ek. pose proof (Hmod (T / 2 ^ (26 * k))). unfold lim in *. lia.
  - split; [done|]. rewrite length_insert. split; [done|].
    rewrite Z2Nat.id by lia. unfold nn_val, val, nn. simpl. lia.
Qed.

(** ** The clamped key *)

Lemma land_mod_l x m n : 0 <= n → 0 <= m < 2 ^ n → Z.land (x mod 2 ^ n) m = Z.land x m.
Proof.
  intros Hn Hm. rewrite <- Z.land_ones, <- Z.land_assoc, (Z.land_comm (Z.ones n)) by done.
  by rewrite Z.land_ones, (Z.mod_small m) by done.
Qed.

Lemma land_split x m m' n : 0 <= n → 0 <= m < 2 ^ n →
  Z.land x (m + 2 ^ n * m') = Z.land x m + 2 ^ n * Z.land (x / 2 ^ n) m'.
Proof.
  intros Hn Hm. set (y := Z.land x _). rewrite (Z.div_mod y (2 ^ n)) by lia.
  rewrite Z.add_comm. f_equal.
  - unfold y. rewrite <- Z.land_ones, <- Z.land_assoc, Z.land_ones by done.
    rewrite (Z.mul_comm (2 ^ n)), Z.mod_add by lia. by rewrite Z.mod_small.
  - f_equal. unfold y. rewrite <- !Z.shiftr_div_pow2, Z.shiftr_land by done.
    rewrite !Z.shiftr_div_pow2 by done. f_equal.
    rewrite (Z.mul_comm (2 ^ n)), Z.div_add, Z.div_small by lia. done.
Qed.

Lemma land_lim x m : 0 <= m < 2 ^ 26 → lim (Z.land x m).
Proof. intros. rewrite Z.land_comm. by apply land_lt_l. Qed.

(** The shifted window of the key that holds limb [i]. *)
Lemma clamp_limb key i k s m : bytes_ok key → length key = 32%nat →
  (k + 4 <= 16)%nat → 0 <= s → 8 * Z.of_nat k + s = i → 0 <= m < 2 ^ (32 - s) → s <= 32 →
  Z.land (Z.shiftr (le32 (drop k key)) s) m = Z.land (le_Z (take 16 key) / 2 ^ i) m.
Proof.
  intros Hk Hl Hk4 Hs <- Hm Hs32.
  assert (le32 (drop k key) = le_Z (take 16 key) / 2 ^ (8 * Z.of_nat k) mod 2 ^ 32) as ->.
  { rewrite <- le32_window; [|by apply Forall_take|rewrite length_take; lia].
    rewrite !le32_le_Z; try (rewrite length_drop, ?length_take; lia);
      try (by apply Forall_drop); try (by apply Forall_drop, Forall_take).
    rewrite !take_drop_commute, take_take. do 3 f_equal. lia. }
  rewrite shiftr_div by done.
  rewrite <- (land_mod_l (_ / 2 ^ s) m (32 - s)) by lia.
  rewrite <- (land_mod_l (_ / 2 ^ (_ + s)) m (32 - s)) by lia. f_equal.
  rewrite Z.pow_add_r, <- Z.div_div by lia.
  set (x := _ / 2 ^ (8 * _)). clearbody x.
  assert (2 ^ 32 = 2 ^ s * 2 ^ (32 - s)) as -> by (rewrite <- Z.pow_add_r by lia; f_equal; lia).
  rewrite Z.rem_mul_r, (Z.mul_comm (2 ^ s)), Z.div_add by lia.
  rewrite (Z.div_small (x mod 2 ^ s)) by mlia. rewrite Z.add_0_l. by apply Z.mod_mod; lia.
Qed.

Lemma poly_clamp_spec key : bytes_ok key → length key = 32%nat →
  r_ok (poly_clamp key) ∧ val (poly_clamp key) = Z.land (le_Z (take 16 key)) clamp_mask.
Proof.
  intros Hk Hl.
  assert (poly_clamp key = let K := le_Z (take 16 key) in
    L5 (Z.land K 0x03ffffff) (Z.land (K / 2 ^ 26) 0x03ffff03) (Z.land (K / 2 ^ 52) 0x03ffc0ff)
       (Z.land (K / 2 ^ 78) 0x03f03fff) (Z.land (K / 2 ^ 104) 0x00fffff)) as ->.
  { unfold poly_clamp. cbv zeta. f_equal; try (apply clamp_limb; (done || lia)).
    rewrite <- (Z.div_1_r (le_Z _)), <- (Z.shiftr_0_r (le32 key)), <- (drop_0 key) at 1.
    apply (clamp_limb key 0); (done || lia). }
  cbv zeta. split.
  - unfold r_ok, reduced. cbn [l0 l1 l2 l3 l4]. split_and!; by apply land_lim.
  - set (K := le_Z _). unfold val. cbn [l0 l1 l2 l3 l4].
    change clamp_mask with (0x03ffffff + 2 ^ 26 * (0x03ffff03 + 2 ^ 26 * (0x03ffc0ff
      + 2 ^ 26 * (0x03f03fff + 2 ^ 26 * 0x00fffff)))).
    rewrite !land_split by lia. rewrite !Z.div_div by lia.
    change (2 ^ 26 * 2 ^ 26) with (2 ^ 52). change (2 ^ 52 * 2 ^ 26) with (2 ^ 78).
    change (2 ^ 78 * 2 ^ 26) with (2 ^ 104). lia.
Qed.

(** ** Blocks and the loop *)

Lemma congP_mul a a' b : congP a a' → congP (a * b) (a' * b).
Proof. intros [q ->]. exists (q * b). lia. Qed.

Lemma poly_block_spec r h p bs : r_ok r → acc_ok h → bytes_ok p → (0 < bs <= 16)%nat →
  (bs <= length p)%nat →
  acc_ok (poly_block r h p bs)
  ∧ congP ((val h + le_Z (take bs p ++ [1])) * val r) (val (poly_block r h p bs)).
Proof.
  intros Hr Hh Hp Hbs Hlen.
  destruct (poly_load_spec p bs) as (HF&HL&HV); [done..|].
  unfold poly_block. cbv zeta. set (nn := poly_load p bs) in *. clearbody nn.
  destruct nn as [|n0 [|n1 [|n2 [|n3 [|n4 [|]]]]]]; try done. clear HL.
  rewrite !Forall_cons in HF. destruct HF as (N0&N1&N2&N3&N4&_).
  rewrite <- HV. clear HV. unfold nn_val.
  change ([n0; n1; n2; n3; n4] !!! 0%nat) with n0.
  change ([n0; n1; n2; n3; n4] !!! 1%nat) with n1.
  change ([n0; n1; n2; n3; n4] !!! 2%nat) with n2.
  change ([n0; n1; n2; n3; n4] !!! 3%nat) with n3.
  change ([n0; n1; n2; n3; n4] !!! 4%nat) with n4.
  destruct h as [h0 h1 h2 h3 h4]. unfold acc_ok, lim in Hh, N0, N1, N2, N3, N4.
  cbn [l0 l1 l2 l3 l4] in *. destruct Hh as (H0&H1&H2&H3&H4).
  unfold add32. rewrite !u32_small by lia.
  set (h' := L5 _ _ _ _ _).
  assert (sum_ok h') as Hs by (unfold sum_ok, h'; cbn [l0 l1 l2 l3 l4]; lia).
  destruct (poly_mul_spec h' r Hs Hr) as [Hm Hc].
  destruct (poly_carry_spec _ Hm) as [Ha Hc']. split; [done|].
  eapply congP_trans, Hc'. eapply congP_trans, Hc.
  exists 0. unfold val, h'. cbn [l0 l1 l2 l3 l4]. lia.
Qed.

Lemma poly_loop_spec fuel r h p a : r_ok r → acc_ok h → bytes_ok p →
  val h mod P1305 = a → (length p <= fuel)%nat →
  acc_ok (poly_loop fuel r h p)
  ∧ val (poly_loop fuel r h p) mod P1305 = poly_eval fuel (val r) a p.
Proof.
  intros Hr. revert h p a. induction fuel as [|fuel IH]; intros h p a Hh Hp Ha Hf; [done|].
  destruct p as [|b p']; [done|].
  set (bs := if decide (16 <= length (b :: p'))%nat then 16%nat else length (b :: p')).
  assert (0 < bs <= 16 ∧ bs <= length (b :: p'))%nat as [Hb1 Hb2].
  { unfold bs. simpl length. case_decide; lia. }
  change (poly_loop (S fuel) r h (b :: p'))
    with (poly_loop fuel r (poly_block r h (b :: p') bs) (drop bs (b :: p'))).
  change (poly_eval (S fuel) (val r) a (b :: p')) with
    (poly_eval fuel (val r) ((a + le_Z (take 16 (b :: p') ++ [1])) * val r mod P1305)
       (drop 16 (b :: p'))).
  set (p := b :: p') in *. clearbody p.
  assert (take 16 p = take bs p ∧ drop 16 p = drop bs p) as [-> ->].
  { unfold bs. case_decide; [done|]. rewrite !take_ge, !drop_ge by lia. done. }
  destruct (poly_block_spec r h p bs) as [Hh' Hc]; [done..|].
  apply IH; [done|by apply Forall_drop| |rewrite length_drop; lia].
  rewrite <- (congP_mod _ _ Hc), <- Ha.
  by rewrite <- (Zmult_mod_idemp_l (val h mod P1305 + _)), Zplus_mod_idemp_l, Zmult_mod_idemp_l.
Qed.

(** ** Final subtraction, repacking, pad *)

Definition sel (mask x g : Z) : Z := Z.lor (Z.land x (not32 mask)) (Z.land g mask).

Lemma sel_all x g : 0 <= x < 2 ^ 32 → 0 <= g < 2 ^ 32 → sel (2 ^ 32 - 1) x g = g.
Proof.
  intros Hx Hg. unfold sel, not32. rewrite Z.sub_diag, Z.land_0_r, Z.lor_0_l.
  by rewrite land_mod, Z.mod_small.
Qed.
Lemma sel_none x g : 0 <= x < 2 ^ 32 → sel 0 x g = x.
Proof.
  intros Hx. unfold sel, not32. rewrite Z.land_0_r, Z.lor_0_r, Z.sub_0_r.
  by rewrite land_mod, Z.mod_small.
Qed.

(** [(g4 >> 31) - 1] is all ones when the subtraction did not borrow. *)
Lemma mask_spec x : 0 <= x <= 2 ^ 26 →
  u32 (Z.shiftr (u32 (x - 2 ^ 26)) 31 - 1) = if decide (x = 2 ^ 26) then 2 ^ 32 - 1 else 0.
Proof.
  intros Hx. case_decide as E; [by rewrite E|].
  rewrite shiftr_div by lia. unfold u32. mlia.
Qed.

(** [mask_spec] also gives the top limb where it is selected. *)
Lemma poly_select_spec h : reduced h →
  reduced (poly_select h) ∧ val (poly_select h) = val h mod P1305.
Proof.
  destruct h as [h0 h1 h2 h3 h4]. unfold reduced, lim. cbn [l0 l1 l2 l3 l4].
  intros (H0&H1&H2&H3&H4).
  assert (∃ g0 g1 g2 g3 c, poly_select (L5 h0 h1 h2 h3 h4)
    = (let mask := if decide (h4 + c = 2 ^ 26) then 2 ^ 32 - 1 else 0 in
       L5 (sel mask h0 g0) (sel mask h1 g1) (sel mask h2 g2) (sel mask h3 g3)
          (sel mask h4 (u32 (h4 + c - 2 ^ 26))))
    ∧ lim g0 ∧ lim g1 ∧ lim g2 ∧ lim g3 ∧ 0 <= c <= 1
    ∧ g0 + 2 ^ 26 * g1 + 2 ^ 52 * g2 + 2 ^ 78 * g3 + 2 ^ 104 * c
      = 5 + h0 + 2 ^ 26 * h1 + 2 ^ 52 * h2 + 2 ^ 78 * h3) as (g0&g1&g2&g3&c&->&G0&G1&G2&G3&Hc&HG).
  { focus_chain (poly_select (L5 h0 h1 h2 h3 h4)).
    cbv beta iota delta [poly_select l0 l1 l2 l3 l4]. do 12 chain_step.
    lazymatch goal with
    | |- ?Q (let g4 := u32 (h4 + ?c - _) in _) => pose proof (mask_spec (h4 + c) ltac:(lia)) as Em;
        exists y1, y4, y7, y10, c
    end.
    subst Q. cbv beta zeta. rewrite Em. split; [reflexivity|]. unfold lim. lia. }
  unfold lim in *. cbv zeta. unfold val, P1305. case_decide as E; cbn [l0 l1 l2 l3 l4].
  - rewrite E. change (u32 (2 ^ 26 - 2 ^ 26)) with 0. rewrite !sel_all by lia.
    split; [lia|]. apply (Z.mod_unique _ _ 1); [left|]; lia.
  - rewrite !sel_none by lia. split; [lia|]. rewrite Z.mod_small; lia.
Qed.

Lemma lor_limb a b n : 0 <= n <= 26 → 0 <= a < 2 ^ n → lim b →
  Z.lor a (u64 (Z.shiftl b n)) = a + 2 ^ n * b.
Proof.
  intros Hn Ha Hb. unfold lim in Hb. assert (2 ^ n <= 2 ^ 26) by (apply Z.pow_le_mono_r; lia).
  rewrite shiftl_mul, u64_small by nia. rewrite lor_disjoint by lia. lia.
Qed.

Lemma poly_repack_spec h : reduced h →
  ∃ w0 w1 w2 w3, poly_repack h = [w0; w1; w2; w3]
    ∧ 0 <= w0 < 2 ^ 32 ∧ 0 <= w1 < 2 ^ 32 ∧ 0 <= w2 < 2 ^ 32 ∧ 0 <= w3 < 2 ^ 32
    ∧ w0 + 2 ^ 32 * w1 + 2 ^ 64 * w2 + 2 ^ 96 * w3 = val h mod 2 ^ 128.
Proof.
  destruct h as [h0 h1 h2 h3 h4]. unfold reduced. cbn [l0 l1 l2 l3 l4].
  intros (H0&H1&H2&H3&H4). unfold poly_repack. cbv zeta. cbn [l0 l1 l2 l3 l4].
  rewrite !shiftr_div by lia. unfold lim in *.
  rewrite (lor_limb h0) by (unfold lim; lia).
  remember (h0 + 2 ^ 26 * h1) as a0 eqn:E0. assert (0 <= a0 < 2 ^ 52) as B0 by lia.
  rewrite (lor_limb (a0 / 2 ^ 32) h2 20) by (unfold lim; mlia).
  remember (a0 / 2 ^ 32 + 2 ^ 20 * h2) as a1 eqn:E1. assert (0 <= a1 < 2 ^ 46) as B1 by mlia.
  rewrite (lor_limb (a1 / 2 ^ 32) h3 14) by (unfold lim; mlia).
  remember (a1 / 2 ^ 32 + 2 ^ 14 * h3) as a2 eqn:E2. assert (0 <= a2 < 2 ^ 40) as B2 by mlia.
  rewrite (lor_limb (a2 / 2 ^ 32) h4 8) by (unfold lim; mlia).
  remember (a2 / 2 ^ 32 + 2 ^ 8 * h4) as a3 eqn:E3. assert (0 <= a3 < 2 ^ 34) as B3 by mlia.
  eexists _, _, _, _. split; [reflexivity|]. unfold val. cbn [l0 l1 l2 l3 l4].
  split_and!; try apply u32_range.
  apply (Z.mod_unique _ _ (a3 / 2 ^ 32)); [left|]; unfold u32; mlia.
Qed.

(** A 128-bit number from its four words. *)
Lemma le_bytes_words w0 w1 w2 w3 z :
  w0 = z mod 2 ^ 32 → w1 = z / 2 ^ 32 mod 2 ^ 32 → w2 = z / 2 ^ 64 mod 2 ^ 32 →
  w3 = z / 2 ^ 96 mod 2 ^ 32 →
  le_bytes 4 w0 ++ le_bytes 4 w1 ++ le_bytes 4 w2 ++ le_bytes 4 w3 = le_bytes 16 z.
Proof.
  intros -> -> -> ->.
  assert (∀ x, le_bytes 4 (x mod 2 ^ 32) = le_bytes 4 x) as E.
  { intros x. apply (le_bytes_mod 4). }
  rewrite !E. rewrite (le_bytes_app 4 12), (le_bytes_app 4 8), (le_bytes_app 4 4).
  by rewrite !Z.div_div by done.
Qed.

Lemma words_of s : 0 <= s < 2 ^ 128 →
  s = s mod 2 ^ 32 + 2 ^ 32 * (s / 2 ^ 32 mod 2 ^ 32) + 2 ^ 64 * (s / 2 ^ 64 mod 2 ^ 32)
      + 2 ^ 96 * (s / 2 ^ 96 mod 2 ^ 32).
Proof. intros. mlia. Qed.

(** The carry chain through [f], over the four words of each summand. *)
Lemma add_words w0 w1 w2 w3 p0 p1 p2 p3 :
  0 <= w0 < 2 ^ 32 → 0 <= w1 < 2 ^ 32 → 0 <= w2 < 2 ^ 32 → 0 <= w3 < 2 ^ 32 →
  0 <= p0 < 2 ^ 32 → 0 <= p1 < 2 ^ 32 → 0 <= p2 < 2 ^ 32 → 0 <= p3 < 2 ^ 32 →
  (let f := u64 (w0 + p0) in let w0 := u32 f in
   let f := u64 (w1 + p1 + Z.shiftr f 32) in let w1 := u32 f in
   let f := u64 (w2 + p2 + Z.shiftr f 32) in let w2 := u32 f in
   let f := u64 (w3 + p3 + Z.shiftr f 32) in let w3 := u32 f in
   le32s w0 ++ le32s w1 ++ le32s w2 ++ le32s w3)
  = le_bytes 16 (w0 + 2 ^ 32 * w1 + 2 ^ 64 * w2 + 2 ^ 96 * w3
                 + (p0 + 2 ^ 32 * p1 + 2 ^ 64 * p2 + 2 ^ 96 * p3)).
Proof.
  intros H0 H1 H2 H3 P0 P1 P2 P3. cbv zeta. rewrite !le32s_le_bytes, !shiftr_div by lia.
  rewrite (u64_small (w0 + p0)) by lia. remember (w0 + p0) as f0 eqn:E0.
  assert (0 <= f0 < 2 ^ 33) by lia. rewrite (u64_small (w1 + p1 + f0 / 2 ^ 32)) by mlia.
  remember (w1 + p1 + f0 / 2 ^ 32) as f1 eqn:E1. assert (0 <= f1 < 2 ^ 33) by mlia.
  rewrite (u64_small (w2 + p2 + f1 / 2 ^ 32)) by mlia.
  remember (w2 + p2 + f1 / 2 ^ 32) as f2 eqn:E2. assert (0 <= f2 < 2 ^ 33) by mlia.
  rewrite (u64_small (w3 + p3 + f2 / 2 ^ 32)) by mlia.
  remember (w3 + p3 + f2 / 2 ^ 32) as f3 eqn:E3.
  apply le_bytes_words; unfold u32; mlia.
Qed.

Lemma poly_add_pad_spec key w0 w1 w2 w3 : bytes_ok key → length key = 32%nat →
  0 <= w0 < 2 ^ 32 → 0 <= w1 < 2 ^ 32 → 0 <= w2 < 2 ^ 32 → 0 <= w3 < 2 ^ 32 →
  poly_add_pad key [w0; w1; w2; w3]
  = le_bytes 16 (w0 + 2 ^ 32 * w1 + 2 ^ 64 * w2 + 2 ^ 96 * w3 + le_Z (slice 16 16 key)).
Proof.
  intros Hk Hl H0 H1 H2 H3.
  pose proof (add_words w0 w1 w2 w3 (le32 (drop 16 key)) (le32 (drop 20 key))
    (le32 (drop 24 key)) (le32 (drop 28 key)) H0 H1 H2 H3) as E.
  specialize (E (le32_range _ (Forall_drop _ _ _ Hk)) (le32_range _ (Forall_drop _ _ _ Hk))
    (le32_range _ (Forall_drop _ _ _ Hk)) (le32_range _ (Forall_drop _ _ _ Hk))).
  etransitivity; [exact E|]. clear E. do 2 f_equal.
  unfold slice. rewrite (take_ge (drop 16 key)) by (rewrite length_drop; lia).
  pose proof (le_Z_bound (drop 16 key) (Forall_drop _ _ _ Hk)) as Hb.
  rewrite length_drop, Hl in Hb. rewrite (words_of _ Hb).
  replace (drop 20 key) with (drop 4 (drop 16 key)) by (by rewrite drop_drop).
  replace (drop 24 key) with (drop 8 (drop 16 key)) by (by rewrite drop_drop).
  replace (drop 28 key) with (drop 12 (drop 16 key)) by (by rewrite drop_drop).
  rewrite !(le32_window _ (drop 16 key)) by (try (by apply Forall_drop); rewrite length_drop; lia).
  assert (le32 (drop 16 key) = le_Z (drop 16 key) mod 2 ^ 32) as ->; [|done].
  rewrite <- (Z.div_1_r (le_Z _)).
  apply (le32_window 0); [by apply Forall_drop|rewrite length_drop; lia].
Qed.

(** ** The authenticator *)

Lemma poly_eval_range fuel r a msg : 0 <= a < P1305 → 0 <= poly_eval fuel r a msg < P1305.
Proof.
  revert a msg. induction fuel as [|fuel IH]; intros a [|b msg] Ha; try done.
  apply IH. by apply Z.mod_pos_bound.
Qed.

(** The limb code computes the one-time authenticator of the RFC. *)
Lemma poly1305_mac_eq key msg : bytes_ok key → length key = 32%nat → bytes_ok msg →
  poly1305_mac key msg = le_bytes 16 (poly1305 key msg).
Proof.
  intros Hk Hl Hm. unfold poly1305_mac, poly1305. cbv zeta.
  destruct (poly_clamp_spec key Hk Hl) as [Hr <-].
  destruct (poly_loop_spec (length msg) (poly_clamp key) (L5 0 0 0 0 0) msg 0)
    as [Ha Hv]; [done|unfold acc_ok, lim; simpl; lia|done..|].
  set (h := poly_loop _ _ _ _) in *. clearbody h.
  destruct (poly_pass_spec h Ha) as [Hd1 Hc1].
  assert (acc_ok (poly_pass h)) as Ha1.
  { unfold acc_ok, reduced, lim in *. lia. }
  destruct (poly_pass_spec _ Ha1) as [Hd2 Hc2].
  destruct (poly_select_spec _ Hd2) as [Hd3 Hv3].
  destruct (poly_repack_spec _ Hd3) as (w0&w1&w2&w3&->&W0&W1&W2&W3&Hw).
  rewrite poly_add_pad_spec by done. rewrite Hw, Hv3.
  rewrite <- (congP_mod _ _ Hc2), <- (congP_mod _ _ Hc1), Hv.
  rewrite <- le_bytes_mod. change (8 * Z.of_nat 16) with 128.
  by rewrite Zplus_mod_idemp_l.
Qed.

(** The code's macs are 16 bytes. *)
Lemma length_poly1305_mac key msg : length (poly1305_mac key msg) = 16%nat.
Proof. done. Qed.

Lemma poly1305_mac_ok key msg : bytes_ok (poly1305_mac key msg).
Proof.
  unfold poly1305_mac, poly_add_pad. cbv zeta. rewrite !le32s_le_bytes, !bytes_ok_app.
  auto using le_bytes_ok.
Qed.

(** A fully reduced value passes through unchanged. *)
Lemma poly_pass_reduced h : reduced h → poly_pass h = h.
Proof.
  destruct h as [h0 h1 h2 h3 h4]. unfold reduced, lim. cbn [l0 l1 l2 l3 l4].
  intros (H0&H1&H2&H3&H4). unfold poly_pass. cbv zeta. cbn [l0 l1 l2 l3 l4].
  assert (∀ x, 0 <= x < 2 ^ 26 → Z.shiftr x 26 = 0) as Sh.
  { intros x Hx. rewrite shiftr_div by lia. by apply Z.div_small. }
  assert (∀ x, 0 <= x < 2 ^ 26 → Z.land x M26 = x) as La.
  { intros x Hx. rewrite land_M26. by apply Z.mod_small. }
  assert (∀ x, 0 <= x < 2 ^ 26 → add32 x 0 = x) as Ad.
  { intros x Hx. unfold add32. rewrite Z.add_0_r. apply u32_small. lia. }
  repeat (rewrite ?(Sh h1), ?(Sh h2), ?(Sh h3), ?(Sh h4), ?(Sh h0) by lia;
          change (mul32 0 5) with 0; rewrite ?(Ad h0), ?(Ad h1), ?(Ad h2), ?(Ad h3), ?(Ad h4) by lia).
  rewrite !La by lia. by rewrite Ad by lia.
Qed.

(** ** Properties *)

(** C1. For every 32-byte key and every message, [poly1305_mac] is the RFC 8439
    one-time authenticator: the polynomial with coefficients the 16-byte blocks
    (each with the 1 bit appended) at the clamped [r], modulo [2^130 - 5], plus
    [s], modulo [2^128], in little-endian order. *)
Theorem poly1305_mac_spec key msg : bytes_ok key → length key = 32%nat → bytes_ok msg →
  poly1305_mac key msg = le_bytes 16 (poly1305 key msg).
Proof. apply poly1305_mac_eq. Qed.

Lemma poly1305_mac_spec_witness :
  poly1305_mac (replicate 32 1) [1; 2; 3] = le_bytes 16 (poly1305 (replicate 32 1) [1; 2; 3]).
Proof.
  apply (poly1305_mac_spec (replicate 32 1) [1; 2; 3]).
  - apply Forall_replicate. split; reflexivity || discriminate.
  - reflexivity.
  - repeat constructor; discriminate || reflexivity.
Defined.

(** Whatever the message, the accumulator a block leaves has limbs below
    [2^26] except [h1 <= 2^26], congruent to [(h + block) * r]: none of the
    32- and 64-bit sums of a block wraps. *)
Theorem poly_block_bounds r h p bs : r_ok r → acc_ok h → bytes_ok p → (0 < bs <= 16)%nat →
  (bs <= length p)%nat →
  acc_ok (poly_block r h p bs)
  ∧ val (poly_block r h p bs) mod P1305
    = (val h + le_Z (take bs p ++ [1])) * val r mod P1305.
Proof.
  intros Hr Hh Hp Hbs Hlen. destruct (poly_block_spec r h p bs) as [Ha Hc]; [done..|].
  split; [done|]. symmetry. by apply congP_mod.
Qed.

Lemma poly_block_bounds_witness :
  acc_ok (poly_block (L5 1 2 3 4 5) (L5 0 (2 ^ 26) 0 0 (2 ^ 26 - 1)) (replicate 20 255) 16)
  ∧ val (poly_block (L5 1 2 3 4 5) (L5 0 (2 ^ 26) 0 0 (2 ^ 26 - 1)) (replicate 20 255) 16) mod P1305
    = (val (L5 0 (2 ^ 26) 0 0 (2 ^ 26 - 1)) + le_Z (take 16 (replicate 20 255) ++ [1]))
      * val (L5 1 2 3 4 5) mod P1305.
Proof.
  apply (poly_block_bounds (L5 1 2 3 4 5) (L5 0 (2 ^ 26) 0 0 (2 ^ 26 - 1)) (replicate 20 255) 16).
  - unfold r_ok, reduced, lim. cbn. lia.
  - unfold acc_ok, lim. cbn [l0 l1 l2 l3 l4]. lia.
  - apply Forall_replicate. split; reflexivity || discriminate.
  - lia.
  - apply Nat.leb_le. reflexivity.
Defined.

(** The second pass of the final carry never changes anything. *)
Lemma poly_second_pass_idle h : acc_ok h → poly_pass (poly_pass h) = poly_pass h.
Proof. intros Ha. apply poly_pass_reduced. by apply poly_pass_spec. Qed.
