(* ===== verification/Vfs.v ===== *)
(** * The encrypted bundle (src/src/mini_vfs_decrypt.c, lines 182-278)

    The ChaCha20-Poly1305 construction of RFC 8439 §2.8 and the bundle format
    [nonce | ciphertext | tag] on top of it.  The bundle code is proved against
    the interface [Aead] (what a sealing scheme promises); the ChaCha20 and
    Poly1305 code discharges it.  [malloc] is an argument: the outcome of each
    call, in call order. *)

From S2P Require Import Prelude Chacha Poly1305.

(** ** The AEAD construction *)

Definition pad16 (d : bytes) : bytes :=
  let rem := (length d mod 16)%nat in
  d ++ if decide (rem = 0%nat) then [] else replicate (16 - rem) 0.

Definition le64 (v : Z) : bytes := map (λ i, u8 (Z.shiftr v (8 * Z.of_nat i))) (seq 0 8).

(** What is written through [cur]: the MAC input. *)
Definition aead_msg (aad ct : bytes) : bytes :=
  pad16 aad ++ pad16 ct ++ le64 (Z.of_nat (length aad)) ++ le64 (Z.of_nat (length ct)).

Definition aead_mlen (aad_len in_len : Z) : Z :=
  u64 (u64 (aad_len + 15) / 16 * 16 + u64 (in_len + 15) / 16 * 16 + 16).

(** The MAC input built in the buffer [m] of [mlen] bytes.  The result of
    [malloc] is not tested. *)
Definition aead_tag (malloc : bool) (key nonce aad ct : bytes) : res bytes :=
  let block0 := chacha20_block key 0 nonce in
  let mlen := aead_mlen (Z.of_nat (length aad)) (Z.of_nat (length ct)) in
  let m := aead_msg aad ct in
  if malloc && bool_decide (Z.of_nat (length m) <= mlen)
  then Ok (poly1305_mac (take 32 block0) m) else UB.

Definition aead_seal (malloc : bool) (key nonce aad input : bytes) : res (bytes * bytes) :=
  let ct := chacha20_xor key 1 nonce input in
  (let* tag := aead_tag malloc key nonce aad ct in Ok (ct, tag))%c.

(** [diff |= tag[i] ^ tag2[i]] over the 16 bytes. *)
Definition tag_diff (tag tag2 : bytes) : Z :=
  foldl (λ diff i, Z.lor diff (u8 (Z.lxor (rd tag i) (rd tag2 i)))) 0 (seq 0 16).

(** [None] is the return value -1, [Some pt] the return value 0 with the
    plaintext written to [pt]. *)
Definition aead_open (malloc : bool) (key nonce aad ct tag : bytes) : res (option bytes) :=
  (let* tag2 := aead_tag malloc key nonce aad ct in
   if decide (tag_diff tag tag2 = 0)
   then Ok (Some (chacha20_xor key 1 nonce ct)) else Ok None)%c.

(** The construction of the RFC, over the specifications of its two parts. *)
Definition rfc_pad16 (d : bytes) : bytes := replicate (Nat.modulo (16 - length d mod 16) 16) 0.
Definition rfc_mac_data (aad ct : bytes) : bytes :=
  aad ++ rfc_pad16 aad ++ ct ++ rfc_pad16 ct
  ++ le_bytes 8 (Z.of_nat (length aad)) ++ le_bytes 8 (Z.of_nat (length ct)).
Definition rfc_seal (key nonce aad pt : bytes) : bytes * bytes :=
  let ct := imap (λ i b, Z.lxor b (keystream key 1 nonce i)) pt in
  let otk := map (keystream key 0 nonce) (seq 0 32) in
  (ct, le_bytes 16 (poly1305 otk (rfc_mac_data aad ct))).

Definition addressable (l : bytes) : Prop := Z.of_nat (length l) < 2 ^ 62.

Lemma pad16_rfc d : pad16 d = d ++ rfc_pad16 d.
Proof.
  unfold pad16, rfc_pad16. cbv zeta. f_equal.
  pose proof (Nat.mod_upper_bound (length d) 16 ltac:(lia)). case_decide as E.
  - by rewrite E.
  - by rewrite (Nat.mod_small (16 - _)) by lia.
Qed.

Lemma length_pad16 d : length (pad16 d) = ((length d + 15) / 16 * 16)%nat.
Proof.
  rewrite pad16_rfc, length_app. unfold rfc_pad16. rewrite length_replicate.
  pose proof (Nat.div_mod_eq (length d) 16). pose proof (Nat.mod_upper_bound (length d) 16 ltac:(lia)).
  pose proof (Nat.div_mod_eq (length d + 15) 16).
  pose proof (Nat.mod_upper_bound (length d + 15) 16 ltac:(lia)).
  destruct (decide (length d mod 16 = 0)%nat) as [E|E].
  { rewrite E. change ((16 - 0) mod 16)%nat with 0%nat. lia. }
  rewrite (Nat.mod_small (16 - _)) by lia. lia.
Qed.

Lemma le64_le_bytes v : le64 v = le_bytes 8 v.
Proof. unfold le64. simpl. rewrite !shiftr_div, !Z.div_div by lia. by rewrite Z.div_1_r. Qed.

(** The buffer is exactly filled. *)
Lemma aead_mlen_spec aad ct : addressable aad → addressable ct →
  Z.of_nat (length (aead_msg aad ct)) = aead_mlen (Z.of_nat (length aad)) (Z.of_nat (length ct)).
Proof.
  unfold addressable, aead_msg, aead_mlen. intros Ha Hc.
  rewrite !length_app, !length_pad16, !le64_le_bytes, !length_le_bytes.
  rewrite !Nat2Z.inj_add, !Nat2Z.inj_mul, !Nat2Z.inj_div, !Nat2Z.inj_add.
  rewrite !(u64_small (_ + 15)) by lia. rewrite u64_small by mlia. lia.
Qed.

Lemma aead_tag_Ok key nonce aad ct : addressable aad → addressable ct →
  aead_tag true key nonce aad ct
  = Ok (poly1305_mac (take 32 (chacha20_block key 0 nonce)) (aead_msg aad ct)).
Proof.
  intros Ha Hc. unfold aead_tag. cbv zeta. rewrite aead_mlen_spec by done.
  by rewrite bool_decide_true by lia.
Qed.

Lemma tag_diff_zero tag tag2 : bytes_ok tag → bytes_ok tag2 →
  length tag = 16%nat → length tag2 = 16%nat → tag_diff tag tag2 = 0 ↔ tag = tag2.
Proof.
  intros Ht Ht2 L L2. unfold tag_diff.
  assert (∀ l a, foldl (λ diff i, Z.lor diff (u8 (Z.lxor (rd tag i) (rd tag2 i)))) a l = 0
    ↔ a = 0 ∧ Forall (λ i, rd tag i = rd tag2 i) l) as H.
  { induction l as [|i l IH]; intros a; simpl; [split; [by auto|by intros [? _]]|].
    rewrite IH, Forall_cons, Z.lor_eq_0_iff, u8_small by auto with word.
    rewrite Z.lxor_eq_0_iff. tauto. }
  rewrite H. split; [|intros ->; split; [done|by apply Forall_true]].
  intros [_ Hf]. apply list_eq_same_length with 16%nat; [done..|].
  intros i x y Hi Hx Hy. rewrite Forall_forall in Hf.
  assert (i ∈ seq 0 16) as Hin by (apply elem_of_seq; lia).
  apply Hf in Hin. unfold rd in Hin.
  by erewrite !list_lookup_total_correct in Hin by done.
Qed.

(** ** What a sealing scheme promises *)

Class Aead := {
  seal : bool → bytes → bytes → bytes → bytes → res (bytes * bytes);
  open : bool → bytes → bytes → bytes → bytes → bytes → res (option bytes) }.

(** A message the scheme can be asked to seal or open. *)
Definition aead_args (aad text : bytes) : Prop :=
  bytes_ok text ∧ addressable aad ∧ addressable text.

Class AeadLaws (A : Aead) : Prop := {
  seal_total key nonce aad pt : aead_args aad pt → ∃ ct tag,
    seal true key nonce aad pt = Ok (ct, tag)
    ∧ bytes_ok ct ∧ length ct = length pt ∧ bytes_ok tag ∧ length tag = 16%nat;
  open_total key nonce aad ct tag : aead_args aad ct → ∃ o,
    open true key nonce aad ct tag = Ok o
    ∧ ∀ pt, o = Some pt → bytes_ok pt ∧ length pt = length ct;
  open_seal key nonce aad pt ct tag : aead_args aad pt → bytes_ok tag → length tag = 16%nat →
    seal true key nonce aad pt = Ok (ct, tag) →
    open true key nonce aad ct tag = Ok (Some pt);
  seal_open key nonce aad pt ct tag : aead_args aad ct → bytes_ok tag → length tag = 16%nat →
    open true key nonce aad ct tag = Ok (Some pt) →
    seal true key nonce aad pt = Ok (ct, tag) }.

#[export] Instance ChaChaPoly : Aead := { seal := aead_seal; open := aead_open }.

Lemma word_1 : word 1.
Proof. unfold word. lia. Qed.

Lemma addressable_xor key c nonce l : addressable l → addressable (chacha20_xor key c nonce l).
Proof. unfold addressable. by rewrite length_chacha20_xor. Qed.
#[local] Hint Resolve word_1 addressable_xor poly1305_mac_ok chacha20_xor_ok : core.

Lemma aead_seal_Ok key nonce aad pt : addressable aad → addressable pt →
  aead_seal true key nonce aad pt
  = Ok (chacha20_xor key 1 nonce pt,
        poly1305_mac (take 32 (chacha20_block key 0 nonce))
          (aead_msg aad (chacha20_xor key 1 nonce pt))).
Proof. intros. unfold aead_seal. cbv zeta. by rewrite aead_tag_Ok by auto. Qed.

Lemma aead_open_Ok key nonce aad ct tag : addressable aad → addressable ct →
  bytes_ok tag → length tag = 16%nat →
  aead_open true key nonce aad ct tag
  = Ok (if decide (tag = poly1305_mac (take 32 (chacha20_block key 0 nonce)) (aead_msg aad ct))
        then Some (chacha20_xor key 1 nonce ct) else None).
Proof.
  intros Ha Hc Ht Hl. unfold aead_open. rewrite aead_tag_Ok by done. cbn [res_bind].
  set (tag2 := poly1305_mac _ _).
  assert (tag_diff tag tag2 = 0 ↔ tag = tag2) as Hd
    by (apply tag_diff_zero; auto; apply poly1305_mac_ok).
  repeat case_decide; tauto.
Qed.

#[export] Instance ChaChaPoly_laws : AeadLaws ChaChaPoly.
Proof.
  constructor; cbn [seal open ChaChaPoly]; unfold aead_args.
  - intros key nonce aad pt (Hp&Ha&Hl). rewrite aead_seal_Ok by done.
    eexists _, _. split; [done|]. rewrite length_chacha20_xor. auto using length_poly1305_mac.
  - intros key nonce aad ct tag (Hp&Ha&Hl). unfold aead_open. rewrite aead_tag_Ok by done.
    cbn [res_bind]. case_decide; (eexists; split; [done|]); [|done].
    intros pt [= <-]. rewrite length_chacha20_xor. auto.
  - intros key nonce aad pt ct tag (Hp&Ha&Hl) Ht Lt. rewrite aead_seal_Ok by done.
    intros [= <- Htag]. rewrite aead_open_Ok by auto. rewrite decide_True by done.
    by rewrite chacha20_xor_involutive by auto.
  - intros key nonce aad pt ct tag (Hp&Ha&Hl) Ht Lt. rewrite aead_open_Ok by auto.
    case_decide as E; [|done]. intros [= <-]. rewrite aead_seal_Ok by auto.
    rewrite chacha20_xor_involutive by auto. by rewrite E.
Qed.

(** ** The bundle code *)

Section Bundle.
  Context {A : Aead} {AL : AeadLaws A}.

(** [None] as a pointer argument is [NULL]; the result is the return code and
    what [*out] is set to. *)
Definition mini_vfs_encrypt (malloc : nat → bool) (input key nonce : option bytes)
    (aad : bytes) : res (Z * option bytes) :=
  match input, key, nonce with
  | Some input, Some key, Some nonce =>
    let in_len := Z.of_nat (length input) in
    let total := u64 (12 + in_len + 16) in
    if negb (malloc 0%nat) then Ok (-1, None)
    else (let* (ct, tag) := seal (malloc 1%nat) key nonce aad input in
          let buf := take 12 nonce ++ ct ++ tag in
          if decide (Z.of_nat (length buf) <= total) then Ok (0, Some buf) else UB)%c
  | _, _, _ => Ok (-1, None)
  end.

Definition mini_vfs_decrypt (malloc : nat → bool) (bundle key : option bytes)
    (aad : bytes) : res (Z * option bytes) :=
  match bundle, key with
  | Some bundle, Some key =>
    if decide (length bundle < 12 + 16)%nat then Ok (-1, None) else
    let ct_len := (length bundle - 12 - 16)%nat in
    let nonce := take 12 bundle in
    let ct := slice 12 ct_len bundle in
    let tag := slice (12 + ct_len) 16 bundle in
    if negb (malloc 0%nat) then Ok (-1, None) else
    (let* pt := open (malloc 1%nat) key nonce aad ct tag in
     match pt with
     | None => Ok (-2, None)
     | Some pt => Ok (0, Some pt)
     end)%c
  | _, _ => Ok (-1, None)
  end.

(** Both mallocs of a call succeed. *)
Definition plenty : nat → bool := λ _, true.

Lemma bundle_split (bundle : bytes) : (28 <= length bundle)%nat →
  bundle = take 12 bundle ++ slice 12 (length bundle - 12 - 16) bundle
           ++ slice (12 + (length bundle - 12 - 16)) 16 bundle.
Proof.
  intros Hl. rewrite <- (take_drop 12 bundle) at 1. f_equal. unfold slice.
  rewrite <- (take_drop (length bundle - 12 - 16) (drop 12 bundle)) at 1. f_equal.
  rewrite drop_drop. symmetry. apply take_ge. rewrite length_drop. lia.
Qed.

Lemma encrypt_Ok key nonce aad pt ct tag : aead_args aad pt → length nonce = 12%nat →
  seal true key nonce aad pt = Ok (ct, tag) → length ct = length pt → length tag = 16%nat →
  mini_vfs_encrypt plenty (Some pt) (Some key) (Some nonce) aad = Ok (0, Some (nonce ++ ct ++ tag)).
Proof.
  intros (_&_&Hp) Hn Hs Lc Lt. unfold mini_vfs_encrypt, plenty. cbn [negb]. cbv zeta.
  rewrite Hs. cbn [res_bind]. rewrite take_ge by lia. unfold addressable in Hp.
  rewrite decide_True; [done|]. rewrite !length_app, u64_small; lia.
Qed.

(** Decryption is the partial inverse of encryption. *)
Lemma decrypt_encrypt_iff key aad bundle pt :
  bytes_ok bundle → addressable bundle → addressable aad →
  mini_vfs_decrypt plenty (Some bundle) (Some key) aad = Ok (0, Some pt) ↔
  bytes_ok pt ∧ addressable pt ∧ (28 <= length bundle)%nat ∧
  mini_vfs_encrypt plenty (Some pt) (Some key) (Some (take 12 bundle)) aad = Ok (0, Some bundle).
Proof using AL.
  intros Hb Lb La. unfold mini_vfs_decrypt, plenty. cbn [negb]. cbv zeta.
  case_decide as Hlen; [split; [done|lia]|].
  pose proof (bundle_split bundle ltac:(lia)) as Hsp.
  set (n := (length bundle - 12 - 16)%nat) in *.
  set (ct := slice 12 n bundle) in *. set (tag := slice (12 + n) 16 bundle) in *.
  assert (length ct = n) as Lc by (apply length_slice; lia).
  assert (length tag = 16%nat) as Lt by (apply length_slice; lia).
  assert (bytes_ok ct ∧ bytes_ok tag) as [Hc Ht] by (split; by apply bytes_ok_slice).
  assert (length (take 12 bundle) = 12%nat) as Ln by (rewrite length_take; lia).
  assert (aead_args aad ct) as Hargs.
  { split_and!; [done..|]. unfold addressable in *. lia. }
  destruct (open_total key (take 12 bundle) aad ct tag Hargs) as (o&Ho&Hshape).
  rewrite Ho. cbn [res_bind]. split.
  - destruct o as [pt'|]; [|done]. intros [= ->]. destruct (Hshape pt eq_refl) as [Hpt Lpt].
    assert (addressable pt) by (unfold addressable in *; lia).
    split_and!; [done..|lia|]. rewrite Hsp at 2. apply encrypt_Ok; [by split_and!|done| |lia|done].
    by apply seal_open.
  - intros (Hpt&Lpt&_&He). assert (aead_args aad pt) as Hpargs by by split_and!.
    destruct (seal_total key (take 12 bundle) aad pt Hpargs) as (ct'&tag'&Hs&_&Lc'&Ht'&Lt').
    rewrite (encrypt_Ok _ _ _ _ ct' tag') in He by done. injection He as He.
    rewrite Hsp in He at 2. apply app_inj_1 in He as [_ He]; [|done].
    apply (f_equal length) in He as Hl. rewrite !length_app in Hl.
    apply app_inj_1 in He as [-> ->]; [|lia].
    rewrite (open_seal _ _ _ pt) in Ho by done. by injection Ho as <-.
Qed.
End Bundle.

(** ** The construction is that of the RFC *)

Lemma otk_keystream key nonce :
  take 32 (chacha20_block key 0 nonce) = map (keystream key 0 nonce) (seq 0 32).
Proof.
  apply list_eq. intros i. rewrite map_seq_lookup. case_decide as Hi.
  - rewrite lookup_take_lt by done. unfold keystream.
    rewrite Nat.div_small, Nat.mod_small by lia. change (u32 (0 + Z.of_nat 0)) with 0.
    unfold rd. apply list_lookup_lookup_total_lt. rewrite length_chacha20_block. lia.
  - apply lookup_take_ge. lia.
Qed.

Lemma chacha20_xor_imap key nonce l : bytes_ok l →
  chacha20_xor key 1 nonce l = imap (λ i b, Z.lxor b (keystream key 1 nonce i)) l.
Proof.
  intros Hl. apply list_eq. intros i. rewrite chacha20_xor_lookup by auto.
  by rewrite list_lookup_imap.
Qed.

Lemma aead_msg_rfc aad ct : aead_msg aad ct = rfc_mac_data aad ct.
Proof. unfold aead_msg, rfc_mac_data. by rewrite !pad16_rfc, !le64_le_bytes, <- !app_assoc. Qed.

Lemma rfc_pad16_ok d : bytes_ok (rfc_pad16 d).
Proof. apply bytes_ok_replicate. Qed.
#[local] Hint Resolve rfc_pad16_ok : core.

Lemma rfc_mac_data_ok aad ct : bytes_ok aad → bytes_ok ct → bytes_ok (rfc_mac_data aad ct).
Proof. intros. unfold rfc_mac_data. rewrite !bytes_ok_app. auto 10 using le_bytes_ok. Qed.

Lemma aead_mac_rfc key nonce aad ct : bytes_ok aad → bytes_ok ct →
  poly1305_mac (take 32 (chacha20_block key 0 nonce)) (aead_msg aad ct)
  = le_bytes 16 (poly1305 (map (keystream key 0 nonce) (seq 0 32)) (rfc_mac_data aad ct)).
Proof.
  intros Ha Hc. rewrite aead_msg_rfc, otk_keystream. apply poly1305_mac_eq.
  - rewrite <- otk_keystream. apply Forall_take, chacha20_block_ok.
  - by rewrite length_map, length_seq.
  - by apply rfc_mac_data_ok.
Qed.

(** Key, nonce and data of the vector of §2.8.2, as the self-test has them. *)
Definition rfc_key : bytes := map (λ i, 0x80 + Z.of_nat i) (seq 0 32).
Definition rfc_nonce : bytes := [7; 0; 0; 0; 0x40; 0x41; 0x42; 0x43; 0x44; 0x45; 0x46; 0x47].
Definition rfc_aad : bytes :=
  [0x50; 0x51; 0x52; 0x53; 0xc0; 0xc1; 0xc2; 0xc3; 0xc4; 0xc5; 0xc6; 0xc7].
Definition rfc_plain : bytes :=
  [76;97;100;105;101;115;32;97;110;100;32;71;101;110;116;108;101;109;101;110;32;111;102;32;
   116;104;101;32;99;108;97;115;115;32;111;102;32;39;57;57;58;32;73;102;32;73;32;99;111;117;
   108;100;32;111;102;102;101;114;32;121;111;117;32;111;110;108;121;32;111;110;101;32;116;
   105;112;32;102;111;114;32;116;104;101;32;102;117;116;117;114;101;44;32;115;117;110;115;99;
   114;101;101;110;32;119;111;117;108;100;32;98;101;32;105;116;46].

Example aead_rfc_2_8_2 :
  match aead_seal true rfc_key rfc_nonce rfc_aad rfc_plain with
  | Ok (ct, tag) =>
    take 16 ct = [0xd3;0x1a;0x8d;0x34;0x64;0x8e;0x60;0xdb;0x7b;0x86;0xaf;0xbc;0x53;0xef;0x7e;0xc2]
    ∧ tag = [0x1a;0xe1;0x0b;0x59;0x4f;0x09;0xe2;0x6a;0x7e;0x90;0x2e;0xcb;0xd0;0x60;0x06;0x91]
  | UB => False
  end.
Proof. vm_compute. by split. Qed.

(** ** Properties *)

(** C6. Decrypting what [mini_vfs_encrypt] returned, under the same key and
    associated data, gives back the plaintext: for every key, nonce, data and
    plaintext the bundle is [nonce | ct | tag], 28 bytes longer. *)
Theorem vfs_roundtrip key nonce aad pt : length nonce = 12%nat → bytes_ok nonce →
  bytes_ok pt → addressable aad → addressable pt →
  ∃ bundle, mini_vfs_encrypt plenty (Some pt) (Some key) (Some nonce) aad = Ok (0, Some bundle)
    ∧ length bundle = (28 + length pt)%nat ∧ take 12 bundle = nonce
    ∧ (addressable bundle → mini_vfs_decrypt plenty (Some bundle) (Some key) aad = Ok (0, Some pt)).
Proof.
  intros Hn Hnb Hp La Lp. assert (aead_args aad pt) as Hargs by by split_and!.
  destruct (seal_total key nonce aad pt Hargs) as (ct&tag&Hs&Hc&Lc&Ht&Lt).
  pose proof (encrypt_Ok _ _ _ _ _ _ Hargs Hn Hs Lc Lt) as He.
  assert (take 12 (nonce ++ ct ++ tag) = nonce) as Etake by by apply take_app_length'.
  exists (nonce ++ ct ++ tag). split_and!; [done|rewrite !length_app; lia|done|].
  intros Hadd. apply decrypt_encrypt_iff; rewrite ?bytes_ok_app; [done..|].
  split_and!; [done..|rewrite !length_app; lia|]. by rewrite Etake.
Qed.

Lemma vfs_roundtrip_witness :
  ∃ bundle, mini_vfs_encrypt plenty (Some [7; 8]) (Some rfc_key) (Some rfc_nonce) rfc_aad
      = Ok (0, Some bundle)
    ∧ length bundle = 30%nat ∧ take 12 bundle = rfc_nonce
    ∧ (addressable bundle →
       mini_vfs_decrypt plenty (Some bundle) (Some rfc_key) rfc_aad = Ok (0, Some [7; 8])).
Proof.
  apply (vfs_roundtrip rfc_key rfc_nonce rfc_aad [7; 8]).
  all: reflexivity || (repeat constructor; discriminate || reflexivity).
Defined.

(** C13. The bundles decryption accepts are exactly those encryption produces:
    [mini_vfs_decrypt] returns 0 with [pt] if and only if encrypting [pt] under
    the bundle's own nonce yields the bundle, byte for byte. *)
Theorem vfs_decrypt_exact key aad bundle pt :
  bytes_ok bundle → addressable bundle → addressable aad →
  mini_vfs_decrypt plenty (Some bundle) (Some key) aad = Ok (0, Some pt) ↔
  bytes_ok pt ∧ addressable pt ∧ (28 <= length bundle)%nat ∧
  mini_vfs_encrypt plenty (Some pt) (Some key) (Some (take 12 bundle)) aad = Ok (0, Some bundle).
Proof. apply decrypt_encrypt_iff. Qed.

Lemma vfs_decrypt_exact_witness : let bundle := replicate 30 0 in
  mini_vfs_decrypt plenty (Some bundle) (Some rfc_key) rfc_aad = Ok (0, Some [1; 2]) ↔
  bytes_ok [1; 2] ∧ addressable [1; 2] ∧ (28 <= length bundle)%nat ∧
  mini_vfs_encrypt plenty (Some [1; 2]) (Some rfc_key) (Some (take 12 bundle)) rfc_aad
  = Ok (0, Some bundle).
Proof.
  apply (vfs_decrypt_exact rfc_key rfc_aad (replicate 30 0) [1; 2]).
  - apply bytes_ok_replicate.
  - reflexivity.
  - reflexivity.
Defined.

(** [aead_seal] computes the RFC 8439 construction: ciphertext by the
    keystream from block 1, tag by Poly1305 under the first 32 keystream bytes of
    block 0 over the padded data and the two 64-bit lengths; [aead_open] accepts
    a 16-byte tag exactly when it is that value. *)
Theorem aead_rfc8439 key nonce aad text tag : bytes_ok aad → bytes_ok text →
  addressable aad → addressable text → bytes_ok tag → length tag = 16%nat →
  aead_seal true key nonce aad text = Ok (rfc_seal key nonce aad text)
  ∧ aead_open true key nonce aad text tag
    = Ok (if decide (tag = le_bytes 16 (poly1305 (map (keystream key 0 nonce) (seq 0 32))
                                         (rfc_mac_data aad text)))
          then Some (imap (λ i b, Z.lxor b (keystream key 1 nonce i)) text) else None).
Proof.
  intros Ha Ht La Lt Htag Ltag. split.
  - rewrite aead_seal_Ok, aead_mac_rfc by auto. unfold rfc_seal. cbv zeta.
    by rewrite chacha20_xor_imap.
  - rewrite aead_open_Ok, aead_mac_rfc by auto. by rewrite chacha20_xor_imap.
Qed.

Lemma aead_rfc8439_witness :
  aead_seal true rfc_key rfc_nonce rfc_aad [1; 2; 3] = Ok (rfc_seal rfc_key rfc_nonce rfc_aad [1; 2; 3])
  ∧ aead_open true rfc_key rfc_nonce rfc_aad [1; 2; 3] (replicate 16 0)
    = Ok (if decide (replicate 16 0 = le_bytes 16
             (poly1305 (map (keystream rfc_key 0 rfc_nonce) (seq 0 32)) (rfc_mac_data rfc_aad [1; 2; 3])))
          then Some (imap (λ i b, Z.lxor b (keystream rfc_key 1 rfc_nonce i)) [1; 2; 3]) else None).
Proof.
  apply (aead_rfc8439 rfc_key rfc_nonce rfc_aad [1; 2; 3] (replicate 16 0)).
  all: reflexivity || (repeat constructor; discriminate || reflexivity).
Defined.

(** Every call of [mini_vfs_decrypt] that can allocate returns 0, -1 or -2:
    -1 for a null pointer or fewer than 28 bytes, -2 when the tag is not the
    MAC of the bundle's own nonce and ciphertext, 0 otherwise; [*out] is set
    exactly when it returns 0. *)
Theorem vfs_decrypt_verdict bundle key aad : bytes_ok bundle → addressable bundle →
  addressable aad →
  let n := (length bundle - 28)%nat in
  mini_vfs_decrypt plenty (Some bundle) (Some key) aad
  = Ok (if decide (length bundle < 28)%nat then (-1, None) else
        if decide (slice (12 + n) 16 bundle
                   = poly1305_mac (take 32 (chacha20_block key 0 (take 12 bundle)))
                       (aead_msg aad (slice 12 n bundle)))
        then (0, Some (chacha20_xor key 1 (take 12 bundle) (slice 12 n bundle)))
        else (-2, None))
  ∧ mini_vfs_decrypt plenty None (Some key) aad = Ok (-1, None)
  ∧ mini_vfs_decrypt plenty (Some bundle) None aad = Ok (-1, None).
Proof.
  intros Hb Lb La n. split; [|done]. unfold mini_vfs_decrypt, plenty. cbn [negb]. cbv zeta.
  change (12 + 16)%nat with 28%nat. case_decide as Hlen; [done|].
  replace (length bundle - 12 - 16)%nat with n by (unfold n; lia).
  assert (length (slice 12 n bundle) = n) as Lc by (apply length_slice; lia).
  cbn [open ChaChaPoly]. rewrite aead_open_Ok.
  - cbn [res_bind]. by case_decide.
  - done.
  - unfold addressable in *. lia.
  - by apply bytes_ok_slice.
  - apply length_slice. lia.
Qed.

Lemma vfs_decrypt_verdict_witness :
  mini_vfs_decrypt plenty (Some (replicate 27 0)) (Some rfc_key) [] = Ok (-1, None).
Proof.
  apply (vfs_decrypt_verdict (replicate 27 0) rfc_key []).
  - apply bytes_ok_replicate.
  - reflexivity.
  - reflexivity.
Defined.

(** The [malloc] of the MAC buffer is not checked: when it fails, both
    directions write through a null pointer. *)
Lemma vfs_unchecked_malloc input key nonce aad :
  mini_vfs_encrypt (λ k, bool_decide (k = 0%nat)) (Some input) (Some key) (Some nonce) aad = UB
  ∧ (28 <= length input →
     mini_vfs_decrypt (λ k, bool_decide (k = 0%nat)) (Some input) (Some key) aad = UB)%nat.
Proof.
  split; [done|]. intros Hl. unfold mini_vfs_decrypt. by rewrite decide_False by lia.
Qed.
