(* ===== verification/Http2.v ===== *)
(** * HTTP/2 framing and HPACK (src/src/mini_h2.c)

    The 9-byte frame header, the HPACK prefix integers, the static table and the
    header-block decoder.  Buffers are byte lists; a decoder is given what is
    left of the buffer from its position.  [malloc] maps a requested size to
    whether the call succeeds. *)

From S2P Require Import Prelude CString.

(** ** Frame header *)

Record H2FrameHeader := H2F { h2_length : Z; h2_type : Z; h2_flags : Z; h2_stream_id : Z }.

Definition mini_h2_encode_header (length type flags stream_id : Z) : bytes :=
  [ u8 (Z.land (Z.shiftr length 16) 0xFF);
    u8 (Z.land (Z.shiftr length 8) 0xFF);
    u8 (Z.land length 0xFF);
    type;
    flags;
    u8 (Z.land (Z.shiftr stream_id 24) 0x7F);
    u8 (Z.land (Z.shiftr stream_id 16) 0xFF);
    u8 (Z.land (Z.shiftr stream_id 8) 0xFF);
    u8 (Z.land stream_id 0xFF) ].

(** [None] is the return value -1. *)
Definition mini_h2_decode_header (buf : bytes) : option H2FrameHeader :=
  if decide (length buf < 9)%nat then None else
  Some (H2F
    (Z.lor (Z.lor (Z.shiftl (rd buf 0) 16) (Z.shiftl (rd buf 1) 8)) (rd buf 2))
    (rd buf 3)
    (rd buf 4)
    (Z.lor (Z.lor (Z.shiftl (Z.land (rd buf 5) 0x7F) 24) (Z.shiftl (rd buf 6) 16))
           (Z.lor (Z.shiftl (rd buf 7) 8) (rd buf 8)))).

(** ** HPACK integers *)

Definition prefix_mask (prefix_bits : Z) : Z := u8 (Z.shiftl 1 prefix_bits - 1).

(** [while (value >= 128)]: the bytes from [out[o]] on; [None] when [cap] is
    reached. *)
Fixpoint enc_int_loop (fuel : nat) (o cap : nat) (value : Z) : option bytes :=
  match fuel with
  | O => None
  | S fuel =>
    if decide (128 <= value) then
      if decide (cap <= o)%nat then None else
      cons (u8 (Z.lor (Z.land value 0x7F) 0x80)) <$>
        enc_int_loop fuel (S o) cap (Z.shiftr value 7)
    else if decide (cap <= o)%nat then None else Some [u8 value]
  end.

(** The first byte is updated in place: its bits outside the prefix survive.
    The result is the bytes written, [None] the return value -1. *)
Definition mini_hpack_enc_int (out0 : Z) (cap : nat) (value prefix_bits : Z) : option bytes :=
  if decide (cap = 0%nat) then None else
  let max := prefix_mask prefix_bits in
  let high := Z.land out0 (255 - max) in
  if decide (value < max) then Some [u8 (Z.lor high (u8 value))]
  else cons (u8 (Z.lor high max)) <$> enc_int_loop 11 1 cap (u64 (value - max)).

Fixpoint dec_int_loop (l : bytes) (i : nat) (v m : Z) : option (Z * nat) :=
  match l with
  | [] => None
  | b :: l =>
    let v := u64 (v + u64 (Z.shiftl (Z.land b 0x7F) m)) in
    let m := m + 7 in
    if decide (Z.land b 0x80 = 0) then Some (v, S i)
    else if decide (63 < m) then None
    else dec_int_loop l (S i) v m
  end.

(** The value and the number of bytes consumed; [None] is -1. *)
Definition mini_hpack_dec_int (buf : bytes) (prefix_bits : Z) : option (Z * nat) :=
  match buf with
  | [] => None
  | b0 :: rest =>
    let mask := prefix_mask prefix_bits in
    let v := Z.land b0 mask in
    if decide (v < mask) then Some (v, 1%nat) else dec_int_loop rest 1 v 0
  end.

(** ** The static table *)

Definition STATIC_NAMES : list string :=
  [ ""; ":authority"; ":method"; ":method"; ":path"; ":path"; ":scheme"; ":scheme";
    ":status"; ":status"; ":status"; ":status"; ":status"; ":status"; ":status";
    "accept-charset"; "accept-encoding"; "accept-language"; "accept-ranges"; "accept";
    "access-control-allow-origin"; "age";
    "allow"; "authorization"; "cache-control"; "content-disposition"; "content-encoding";
    "content-language"; "content-length";
    "content-location"; "content-range"; "content-type"; "cookie"; "date"; "etag"; "expect";
    "expires"; "from"; "host"; "if-match"; "if-modified-since"; "if-none-match"; "if-range";
    "if-unmodified-since"; "last-modified"; "link"; "location"; "max-forwards";
    "proxy-authenticate"; "proxy-authorization";
    "range"; "referer"; "refresh"; "retry-after"; "server"; "set-cookie";
    "strict-transport-security";
    "transfer-encoding"; "user-agent"; "vary"; "via"; "www-authenticate" ]%string.

Definition STATIC_VALUES : list string :=
  [ ""; ""; "GET"; "POST"; "/"; "/index.html"; "http"; "https";
    "200"; "204"; "206"; "304"; "400"; "404"; "500";
    ""; "gzip, deflate" ]%string ++ replicate 45 ""%string.

Definition static_entry (tbl : list string) (idx : Z) : option bytes :=
  if decide (1 <= idx <= 61) then str <$> tbl !! Z.to_nat idx else None.

Definition mini_hpack_static_name : Z → option bytes := static_entry STATIC_NAMES.
Definition mini_hpack_static_value : Z → option bytes := static_entry STATIC_VALUES.

Definition mini_hpack_static_find_name (name : option bytes) : Z :=
  match name with
  | None => -1
  | Some name =>
    match list_find (λ s, streq (str s) name = true) (drop 1 STATIC_NAMES) with
    | Some (i, _) => Z.of_nat i + 1
    | None => -1
    end
  end.

(** ** Header blocks *)

Section Decoder.
  Context (malloc : Z → bool).

(** The string, and the bytes consumed.  The bounds test [n + slen > len] is
    made in [size_t]: when it wraps, the copy leaves both buffers. *)
Definition hpack_dec_string (buf : bytes) : res (option (bytes * nat)) :=
  match buf with
  | [] => Ok None
  | b0 :: _ =>
    if decide (Z.land b0 0x80 ≠ 0) then Ok None else
    match mini_hpack_dec_int buf 7 with
    | None => Ok None
    | Some (slen, n) =>
      if decide (Z.of_nat (length buf) < u64 (Z.of_nat n + slen)) then Ok None else
      if negb (malloc (u64 (slen + 1))) then Ok None else
      if decide (Z.of_nat n + slen <= Z.of_nat (length buf))
      then Ok (Some (slice n (Z.to_nat slen) buf, (n + Z.to_nat slen)%nat))
      else UB
    end
  end.

(** [strdup], whose result the decoder stores unchecked. *)
Definition strdup (s : bytes) : option bytes :=
  if malloc (Z.of_nat (length s) + 1) then Some s else None.

(** A name/value pair; [None] is a null pointer. *)
Definition H2HeaderPair : Type := option bytes * option bytes.

(** One turn of [while (i < len)]: [Ok None] is -1; otherwise the rest of the
    buffer and the pair produced, if any. *)
Definition decode_field (buf : bytes) : res (option (bytes * option H2HeaderPair)) :=
  if decide (Z.land (rd buf 0) 0x80 ≠ 0) then
    match mini_hpack_dec_int buf 7 with
    | None => Ok None
    | Some (idx, c) =>
      match mini_hpack_static_name (i32 idx) with
      | None => Ok (Some (drop c buf, None))
      | Some name =>
        let val := default [] (mini_hpack_static_value (i32 idx)) in
        Ok (Some (drop c buf, Some (strdup name, strdup val)))
      end
    end
  else
    match mini_hpack_dec_int buf 6 with
    | None => Ok None
    | Some (idx, c) =>
      let buf := drop c buf in
      let literal_value name buf :=
        (let* v := hpack_dec_string buf in
         match v with
         | None => Ok None
         | Some (val, cc) => Ok (Some (drop cc buf, Some (name, Some val)))
         end)%c in
      if decide (0 < idx) then
        match mini_hpack_static_name (i32 idx) with
        | None => Ok None
        | Some sn => literal_value (strdup sn) buf
        end
      else
        (let* nm := hpack_dec_string buf in
         match nm with
         | None => Ok None
         | Some (name, cc) => literal_value (Some name) (drop cc buf)
         end)%c
    end.

(** The pairs written to [out], in order; [None] is -1.  A pair found when [out]
    is full is an error. *)
Fixpoint decode_block_loop (fuel : nat) (buf : bytes) (n max_pairs : Z)
    : res (option (list H2HeaderPair)) :=
  match fuel with
  | O => UB
  | S fuel =>
    match buf with
    | [] => Ok (Some [])
    | _ =>
      (let* r := decode_field buf in
       match r with
       | None => Ok None
       | Some (rest, None) => decode_block_loop fuel rest n max_pairs
       | Some (rest, Some hp) =>
         if decide (max_pairs <= n) then Ok None else
         let* r := decode_block_loop fuel rest (n + 1) max_pairs in
         Ok (cons hp <$> r)
       end)%c
    end
  end.

Definition mini_hpack_decode_block (buf : bytes) (max_pairs : Z)
    : res (option (list H2HeaderPair)) :=
  decode_block_loop (S (length buf)) buf 0 max_pairs.
End Decoder.

(** ** Integers: lemmas *)

Lemma prefix_mask_eq k : 1 <= k <= 8 → prefix_mask k = 2 ^ k - 1.
Proof.
  intros Hk. unfold prefix_mask. rewrite shiftl_mul, Z.mul_1_l by lia. apply u8_small.
  assert (2 ^ 1 <= 2 ^ k) by (apply Z.pow_le_mono_r; lia).
  assert (2 ^ k <= 2 ^ 8) by (apply Z.pow_le_mono_r; lia). unfold byte_ok. lia.
Qed.

(** Clearing the low [k] bits and writing others leaves them to be read back. *)
Lemma land_high_low x y k : 0 <= k <= 8 → 0 <= y < 2 ^ k →
  Z.land (u8 (Z.lor (Z.land x (255 - (2 ^ k - 1))) y)) (2 ^ k - 1) = y.
Proof.
  intros Hk Hy. rewrite land_mod by lia. unfold u8.
  apply Z.bits_inj'. intros i Hi. destruct (decide (i < k)) as [Hik|Hik].
  - rewrite !Z.mod_pow2_bits_low, Z.lor_spec, Z.land_spec by lia.
    assert (Z.testbit (255 - (2 ^ k - 1)) i = false) as ->; [|by rewrite andb_false_r].
    replace (255 - (2 ^ k - 1)) with ((2 ^ (8 - k) - 1) * 2 ^ k).
    + apply Z.mul_pow2_bits_low. lia.
    + rewrite Z.mul_sub_distr_r, <- Z.pow_add_r by lia.
      replace (8 - k + k) with 8 by lia. lia.
  - rewrite Z.mod_pow2_bits_high by lia. symmetry. apply (testbit_above _ k); lia.
Qed.

Lemma cont_byte v : 0 <= v →
  Z.land (u8 (Z.lor (Z.land v 0x7F) 0x80)) 0x7F = v mod 2 ^ 7
  ∧ Z.land (u8 (Z.lor (Z.land v 0x7F) 0x80)) 0x80 = 0x80.
Proof.
  intros Hv. assert (u8 (Z.lor (Z.land v 0x7F) 0x80) = v mod 2 ^ 7 + 1 * 2 ^ 7) as ->.
  { change 0x7F with (2 ^ 7 - 1). rewrite land_mod by lia.
    change 0x80 with (1 * 2 ^ 7). rewrite lor_disjoint by mlia.
    apply u8_small. unfold byte_ok. mlia. }
  change 0x7F with (2 ^ 7 - 1). rewrite land_mod by lia. split; [mlia|].
  set (a := v mod 2 ^ 7). assert (0 <= a < 2 ^ 7) by (unfold a; mlia). clearbody a.
  change 0x80 with (2 ^ 7). apply Z.bits_inj'. intros i Hi. rewrite Z.land_spec.
  rewrite Z.pow2_bits_eqb by lia.
  destruct (7 =? i) eqn:E; [|by rewrite andb_false_r]. apply Z.eqb_eq in E as <-.
  rewrite andb_true_r, <- (Z.shiftr_spec _ 7 0), shiftr_div by lia.
  by replace ((a + 1 * 2 ^ 7) / 2 ^ 7) with 1 by mlia.
Qed.

(** Decoding what the encoder's loop wrote. *)
Lemma enc_dec_loop fuel : ∀ o cap value l tail v m,
  enc_int_loop fuel o cap value = Some l → 0 <= value → 0 <= m → 0 <= v →
  v + value * 2 ^ m < 2 ^ 64 → m + 7 * (Z.of_nat (length l) - 1) <= 63 →
  dec_int_loop (l ++ tail) o v m = Some (v + value * 2 ^ m, (o + length l)%nat).
Proof.
  induction fuel as [|fuel IH]; intros o cap value l tail v m E Hval Hm Hv Hlt Hlen; [done|].
  simpl in E. case_decide as H128.
  - case_decide; [done|]. destruct (enc_int_loop fuel (S o) cap _) as [l'|] eqn:E'; [|done].
    injection E as <-. simpl app. cbn [dec_int_loop].
    destruct (cont_byte value Hval) as [-> ->]. rewrite decide_False by done.
    rewrite (shiftr_div value) in E' by lia. rewrite shiftl_mul by lia.
    assert (l' ≠ []) as Hl'.
    { destruct fuel; [done|]. simpl in E'.
      repeat case_decide; [done| |done|by injection E' as <-].
      by apply fmap_Some in E' as (?&_&->). }
    simpl length in Hlen |- *. assert (0 < length l')%nat by (destruct l'; [done|simpl; lia]).
    rewrite decide_False by lia.
    assert (value * 2 ^ m = value mod 2 ^ 7 * 2 ^ m + value / 2 ^ 7 * 2 ^ (m + 7)) as Es.
    { rewrite Z.pow_add_r by lia. rewrite (Z.div_mod value (2 ^ 7)) at 1 by lia. lia. }
    assert (0 <= value mod 2 ^ 7) by mlia. assert (0 <= value / 2 ^ 7) by mlia.
    assert (0 <= value mod 2 ^ 7 * 2 ^ m) by nia. assert (0 <= value / 2 ^ 7 * 2 ^ (m + 7)) by nia.
    rewrite (u64_small (value mod _ * _)), (u64_small (v + _)) by lia.
    rewrite (IH _ _ _ _ _ _ _ E') by lia. do 2 f_equal; [lia|]. simpl. lia.
  - case_decide; [done|]. injection E as <-. simpl app. cbn [dec_int_loop].
    assert (u8 value = value) as -> by (apply u8_small; unfold byte_ok; lia).
    change 0x7F with (2 ^ 7 - 1). rewrite land_mod, Z.mod_small, shiftl_mul by lia.
    assert (0 <= value * 2 ^ m) by nia.
    rewrite (u64_small (value * _)), (u64_small (v + _)) by lia.
    assert (Z.land value 0x80 = 0) as ->.
    { change 0x80 with (2 ^ 7). apply Z.bits_inj'. intros i Hi.
      rewrite Z.land_spec, Z.bits_0, Z.pow2_bits_eqb by lia.
      destruct (7 =? i) eqn:E; [|by rewrite andb_false_r]. apply Z.eqb_eq in E as <-.
      by rewrite (testbit_above value 7) by lia. }
    rewrite decide_True by done. do 2 f_equal. simpl. lia.
Qed.

Lemma enc_int_loop_total k : ∀ fuel o cap value, (k <= fuel)%nat → (1 <= k)%nat →
  (o + k <= cap)%nat → 0 <= value < 2 ^ (7 * Z.of_nat k) →
  ∃ l, enc_int_loop fuel o cap value = Some l ∧ (1 <= length l <= k)%nat.
Proof.
  induction k as [|k IH]; intros fuel o cap value Hk H1 Hcap Hv; [lia|].
  destruct fuel as [|fuel]; [lia|]. simpl. do 2 rewrite (decide_False (P := (cap <= o)%nat)) by lia.
  case_decide as H128; [|exists [u8 value]; simpl; split; [done|lia]].
  destruct (decide (k = 0%nat)) as [->|Hk0]; [simpl in Hv; lia|].
  replace (7 * Z.of_nat (S k)) with (7 * Z.of_nat k + 7) in Hv by lia.
  rewrite Z.pow_add_r in Hv by lia.
  destruct (IH fuel (S o) cap (Z.shiftr value 7)) as (l&->&Hl); [lia..| |].
  { rewrite shiftr_div by lia. split; [apply Z.div_pos; lia|].
    apply Z.div_lt_upper_bound; lia. }
  eexists. split; [reflexivity|]. simpl. lia.
Qed.

(** Every prefix size, every 64-bit value. *)
Lemma hpack_int_roundtrip out0 cap value k tail : byte_ok out0 → (11 <= cap)%nat →
  0 <= value < 2 ^ 64 → 1 <= k <= 8 →
  ∃ l, mini_hpack_enc_int out0 cap value k = Some l ∧ (1 <= length l <= 11)%nat
    ∧ mini_hpack_dec_int (l ++ tail) k = Some (value, length l).
Proof.
  intros Ho Hcap Hv Hk. unfold mini_hpack_enc_int, mini_hpack_dec_int.
  rewrite (decide_False (P := cap = 0%nat)) by lia. cbv zeta. rewrite prefix_mask_eq by done.
  assert (2 ^ 1 <= 2 ^ k) by (apply Z.pow_le_mono_r; lia).
  assert (2 ^ k <= 2 ^ 8) by (apply Z.pow_le_mono_r; lia).
  case_decide as Hsmall.
  - eexists. split; [reflexivity|]. simpl length. split; [lia|]. simpl app. cbv iota.
    rewrite (u8_small value) by (unfold byte_ok; lia). rewrite land_high_low by lia.
    by rewrite decide_True by lia.
  - rewrite u64_small by lia.
    destruct (enc_int_loop_total 10 11 1 cap (value - (2 ^ k - 1))) as (l&E&Hl); [lia..|].
    rewrite E. eexists. split; [reflexivity|]. simpl length. split; [lia|]. simpl app. cbv iota.
    rewrite land_high_low, decide_False by lia.
    rewrite (enc_dec_loop _ _ _ _ _ tail (2 ^ k - 1) 0 E) by lia.
    do 2 f_equal; lia.
Qed.

Lemma dec_int_loop_bounds l : ∀ i v m v' n, dec_int_loop l i v m = Some (v', n) →
  (1 <= i <= 10)%nat → m = 7 * (Z.of_nat i - 1) →
  (i < n <= i + length l)%nat ∧ (n <= 11)%nat ∧ 0 <= v' < 2 ^ 64.
Proof.
  induction l as [|b l IH]; intros i v m v' n E Hi Hm; [done|]. simpl in E.
  case_decide.
  - injection E as <- <-. simpl. split_and!; try lia; apply u64_range.
  - case_decide; [done|]. apply IH in E; [simpl; lia|lia|lia].
Qed.

Lemma prefix_mask_byte k : byte_ok (prefix_mask k).
Proof. apply u8_range. Qed.

Lemma dec_int_bounds buf k v n : bytes_ok buf → mini_hpack_dec_int buf k = Some (v, n) →
  (1 <= n <= length buf)%nat ∧ (n <= 11)%nat ∧ 0 <= v < 2 ^ 64.
Proof.
  intros Hb. unfold mini_hpack_dec_int. destruct buf as [|b0 rest]; [done|]. cbv zeta.
  apply Forall_cons in Hb as [Hb0 _]. case_decide as Hlt.
  - intros [= <- <-]. simpl. split_and!; [lia..| |].
    + apply Z.land_nonneg. left. apply Hb0.
    + pose proof (prefix_mask_byte k) as H. unfold byte_ok in H. lia.
  - intros E. apply dec_int_loop_bounds in E; simpl; lia.
Qed.

(** ** The block decoder: progress and memory safety *)

Section Safety.
  Context (malloc : Z → bool).
(** [malloc] refuses what exceeds [PTRDIFF_MAX]. *)
Definition malloc_limited : Prop := ∀ s, 2 ^ 63 <= s → malloc s = false.
  Context (Hlim : malloc_limited) (Hzero : malloc 0 = false).

Lemma dec_string_safe buf : bytes_ok buf → Z.of_nat (length buf) < 2 ^ 63 →
  ∃ r, hpack_dec_string malloc buf = Ok r
    ∧ ∀ s c, r = Some (s, c) → (1 <= c <= length buf)%nat.
Proof using Hlim Hzero.
  intros Hb Hl. unfold hpack_dec_string. destruct buf as [|b0 rest]; [by exists None|].
  set (buf := b0 :: rest) in *. clearbody buf.
  case_decide; [by exists None|].
  destruct (mini_hpack_dec_int buf 7) as [[slen n]|] eqn:E; [|by exists None].
  apply dec_int_bounds in E as (Hn&Hn11&Hs); [|done].
  case_decide as Htr; [by exists None|]. destruct (malloc (u64 (slen + 1))) eqn:Em; [|by exists None].
  simpl negb. cbv iota. case_decide as Hin.
  - eexists. split; [reflexivity|]. intros s c [= <- <-]. lia.
  - exfalso. destruct (decide (slen + 1 = 2 ^ 64)) as [Heq|Hne].
    + rewrite Heq in Em. change (u64 (2 ^ 64)) with 0 in Em. congruence.
    + rewrite u64_small in Em by lia. rewrite Hlim in Em; [done|].
      destruct (decide (Z.of_nat n + slen < 2 ^ 64)); [|lia].
      rewrite u64_small in Htr by lia. lia.
Qed.

Lemma decode_field_safe buf : bytes_ok buf → Z.of_nat (length buf) < 2 ^ 63 → buf ≠ [] →
  ∃ r, decode_field malloc buf = Ok r
    ∧ ∀ rest o, r = Some (rest, o) → ∃ c, rest = drop c buf ∧ (1 <= c <= length buf)%nat.
Proof using Hlim Hzero.
  intros Hb Hl Hne. unfold decode_field.
  assert (∀ name c, (1 <= c <= length buf)%nat → ∃ r,
    (let* v := hpack_dec_string malloc (drop c buf) in
     match v with
     | None => Ok None
     | Some (val, cc) => Ok (Some (drop cc (drop c buf), Some (name : option bytes, Some val)))
     end)%c = Ok r
    ∧ ∀ rest o, r = Some (rest, o) → ∃ c, rest = drop c buf ∧ (1 <= c <= length buf)%nat) as Hval.
  { intros name c Hc.
    destruct (dec_string_safe (drop c buf)) as (r&->&Hr);
      [by apply Forall_drop|rewrite length_drop; lia|]. simpl.
    destruct r as [[s cc]|]; eexists; (split; [reflexivity|]); [|done].
    intros rest o [= <- <-]. specialize (Hr s cc eq_refl). rewrite length_drop in Hr.
    exists (c + cc)%nat. rewrite drop_drop. split; [done|lia]. }
  case_decide.
  - destruct (mini_hpack_dec_int buf 7) as [[idx c]|] eqn:E; [|by exists None].
    apply dec_int_bounds in E as (Hc&_); [|done].
    destruct (mini_hpack_static_name _); (eexists; split; [reflexivity|]);
      intros rest o [= <- <-]; by exists c.
  - destruct (mini_hpack_dec_int buf 6) as [[idx c]|] eqn:E; [|by exists None].
    apply dec_int_bounds in E as (Hc&_); [|done]. cbv zeta.
    case_decide.
    + destruct (mini_hpack_static_name _) as [sn|]; [|by exists None].
      by destruct (Hval (strdup malloc sn) c Hc) as (r&->&Hr); exists r.
    + destruct (dec_string_safe (drop c buf)) as (r&->&Hr);
        [by apply Forall_drop|rewrite length_drop; lia|]. simpl.
      destruct r as [[nm cc]|]; [|by exists None].
      specialize (Hr nm cc eq_refl). rewrite length_drop in Hr. rewrite drop_drop.
      destruct (Hval (Some nm) (c + cc)%nat) as (r&->&Hr'); [lia|]. by exists r.
Qed.

Lemma decode_block_loop_safe fuel : ∀ buf n mx, bytes_ok buf → Z.of_nat (length buf) < 2 ^ 63 →
  (length buf < fuel)%nat →
  ∃ r, decode_block_loop malloc fuel buf n mx = Ok r
    ∧ ∀ l, r = Some l → l = [] ∨ n + Z.of_nat (length l) <= mx.
Proof using Hlim Hzero.
  induction fuel as [|fuel IH]; intros buf n mx Hb Hl Hf; [lia|]. simpl.
  destruct buf as [|b0 buf']; [exists (Some []); split; [done|by intros l [= <-]; left]|].
  set (buf := b0 :: buf') in *.
  destruct (decode_field_safe buf) as (r&->&Hr); [done..|]. clearbody buf. simpl.
  destruct r as [[rest o]|]; [|by exists None].
  destruct (Hr rest o eq_refl) as (c&->&Hc).
  assert (bytes_ok (drop c buf)) by by apply Forall_drop.
  assert (length (drop c buf) = (length buf - c)%nat) as Ld by apply length_drop.
  destruct o as [hp|]; [|apply IH; [done|lia|lia]].
  case_decide; [by exists None|].
  destruct (IH (drop c buf) (n + 1) mx) as (r&->&Hr'); [done|lia|lia|]. simpl.
  destruct r as [l|]; (eexists; split; [reflexivity|]); [|done].
  intros l' [= <-]. right. simpl. destruct (Hr' l eq_refl) as [->|]; simpl; lia.
Qed.
End Safety.

(** ** A reference encoder for the fields the decoder supports *)

Inductive field :=
| FIndexed (i : Z)
| FNamed (i : Z) (value : bytes)
| FLiteral (name value : bytes).

Definition enc_str (s : bytes) : bytes :=
  default [] (mini_hpack_enc_int 0 11 (Z.of_nat (length s)) 7) ++ s.

(** §6.1 and §6.2.1 of RFC 7541, strings without Huffman coding. *)
Definition enc_field (f : field) : bytes :=
  match f with
  | FIndexed i => [0x80 + i]
  | FNamed i v => [0x40 + i] ++ enc_str v
  | FLiteral n v => [0x40] ++ enc_str n ++ enc_str v
  end.

Definition field_pair (f : field) : H2HeaderPair :=
  match f with
  | FIndexed i => (mini_hpack_static_name i, mini_hpack_static_value i)
  | FNamed i v => (mini_hpack_static_name i, Some v)
  | FLiteral n v => (Some n, Some v)
  end.

Definition str_ok (s : bytes) : Prop := Z.of_nat (length s) < 2 ^ 62.
Definition field_ok (f : field) : Prop :=
  match f with
  | FIndexed i => 1 <= i <= 61
  | FNamed i v => 1 <= i <= 61 ∧ str_ok v
  | FLiteral n v => str_ok n ∧ str_ok v
  end.

Lemma index_byte i : 0 <= i <= 61 →
  Z.land (0x80 + i) 0x80 ≠ 0 ∧ Z.land (0x80 + i) 127 = i
  ∧ Z.land (0x40 + i) 0x80 = 0 ∧ Z.land (0x40 + i) 63 = i.
Proof.
  intros Hi. assert (Forall (λ i, Z.land (0x80 + i) 0x80 ≠ 0 ∧ Z.land (0x80 + i) 127 = i
    ∧ Z.land (0x40 + i) 0x80 = 0 ∧ Z.land (0x40 + i) 63 = i) (seqZ 0 62)) as H.
  { apply (bool_decide_unpack _). by vm_compute. }
  rewrite Forall_forall in H. apply (H i), elem_of_seqZ. lia.
Qed.

(** The length prefix of a string never has the Huffman bit. *)
Lemma enc_len_first len cap l : mini_hpack_enc_int 0 cap len 7 = Some l → 0 <= len →
  ∃ b l', l = b :: l' ∧ Z.land b 0x80 = 0.
Proof.
  unfold mini_hpack_enc_int. intros E Hlen. case_decide; [done|]. cbv zeta in E.
  rewrite prefix_mask_eq in E by lia. change (2 ^ 7 - 1) with 127 in E.
  rewrite Z.land_0_l, Z.lor_0_l in E. case_decide as Hs.
  - injection E as <-. eexists _, _. split; [reflexivity|].
    rewrite !u8_small by (unfold byte_ok, u8; mlia).
    rewrite (testbit_div _ 7) by lia. by rewrite Z.div_small by lia.
  - apply fmap_Some in E as (l'&_&->). by eexists _, _.
Qed.

Section Encoder.
  Context (malloc : Z → bool) (Hm : ∀ s, 0 < s < 2 ^ 63 → malloc s = true).

Lemma dec_enc_str s tail : str_ok s → Z.of_nat (length (enc_str s ++ tail)) < 2 ^ 63 →
  hpack_dec_string malloc (enc_str s ++ tail) = Ok (Some (s, length (enc_str s))).
Proof using Hm.
  unfold str_ok. intros Hs Hl. unfold enc_str in *.
  destruct (hpack_int_roundtrip 0 11 (Z.of_nat (length s)) 7 (s ++ tail)) as (l&E&Hn&D);
    [unfold byte_ok; lia|lia|lia|lia|].
  destruct (enc_len_first _ _ _ E) as (b&l'&El&Hb); [lia|].
  rewrite E in *. simpl default in *. rewrite <- app_assoc in *.
  unfold hpack_dec_string. rewrite D.
  destruct (l ++ s ++ tail) as [|b0 rest] eqn:Ebuf.
  { by rewrite El in Ebuf. }
  assert (b0 = b) as -> by (rewrite El in Ebuf; by injection Ebuf).
  rewrite <- Ebuf in *. clear Ebuf. rewrite Hb, decide_False by (intros []; done).
  rewrite !length_app in *. rewrite u64_small, decide_False by lia.
  rewrite u64_small, Hm by lia. simpl negb. cbv iota. rewrite decide_True by lia.
  rewrite Nat2Z.id. rewrite slice_app_mid by done. done.
Qed.

Lemma strdup_ok s : str_ok s → strdup malloc s = Some s.
Proof using Hm. unfold str_ok, strdup. intros. by rewrite Hm by lia. Qed.

Lemma static_ok i : 1 <= i <= 61 → ∃ n v,
  mini_hpack_static_name i = Some n ∧ mini_hpack_static_value i = Some v
  ∧ str_ok n ∧ str_ok v.
Proof.
  intros Hi. assert (Forall (λ i,
    match mini_hpack_static_name i, mini_hpack_static_value i with
    | Some n, Some v => str_ok n ∧ str_ok v
    | _, _ => False
    end) (seqZ 1 61)) as H.
  { unfold str_ok. repeat (apply Forall_cons; split; [by vm_compute|]). by apply Forall_nil. }
  rewrite Forall_forall in H. specialize (H i). rewrite elem_of_seqZ in H.
  specialize (H ltac:(lia)).
  destruct (mini_hpack_static_name i), (mini_hpack_static_value i); try done. by eauto.
Qed.

Lemma decode_enc_field f tail : field_ok f →
  Z.of_nat (length (enc_field f ++ tail)) < 2 ^ 63 →
  decode_field malloc (enc_field f ++ tail) = Ok (Some (tail, Some (field_pair f))).
Proof using Hm.
  intros Hf Hl. destruct f as [i|i v|n v]; unfold decode_field, enc_field in *; simpl in Hf.
  - destruct (index_byte i) as (H1&H2&_); [lia|]. unfold rd. simpl app. simpl lookup_total.
    rewrite decide_True by done. cbn [mini_hpack_dec_int]. rewrite prefix_mask_eq by lia.
    change (2 ^ 7 - 1) with 127. rewrite H2, decide_True, i32_small by lia.
    destruct (static_ok i Hf) as (n&v&En&Ev&Sn&Sv). simpl field_pair. rewrite En, Ev. simpl.
    by rewrite !strdup_ok by done.
  - destruct Hf as [Hi Hv]. destruct (index_byte i) as (_&_&H1&H2); [lia|].
    unfold rd. rewrite <- app_assoc in *. simpl app. simpl lookup_total.
    rewrite decide_False by (rewrite H1; by intros []). cbn [mini_hpack_dec_int].
    rewrite prefix_mask_eq by lia. change (2 ^ 6 - 1) with 63.
    rewrite H2, decide_True, i32_small by lia. cbv zeta. rewrite decide_True by lia.
    destruct (static_ok i Hi) as (n&v'&En&_&Sn&_). simpl field_pair. rewrite En. simpl drop.
    rewrite drop_0, dec_enc_str; [|done|simpl in Hl; lia]. simpl. rewrite drop_app_length.
    by rewrite strdup_ok.
  - destruct Hf as [Hn Hv]. unfold rd. rewrite <- app_assoc in *. simpl app. simpl lookup_total.
    rewrite decide_False by (intros []; done). cbn [mini_hpack_dec_int].
    rewrite decide_True by done. cbv zeta. rewrite decide_False by done. simpl drop.
    rewrite <- app_assoc in *. simpl in Hl.
    rewrite drop_0, dec_enc_str; [|done|lia]. simpl. rewrite drop_app_length.
    rewrite length_app in Hl. rewrite dec_enc_str; [|done|lia]. simpl.
    by rewrite drop_app_length.
Qed.
End Encoder.

Lemma decode_enc_block malloc fs : ∀ fuel n mx, (∀ s, 0 < s < 2 ^ 63 → malloc s = true) →
  Forall field_ok fs → Z.of_nat (length (mjoin (enc_field <$> fs))) < 2 ^ 63 →
  (length fs < fuel)%nat → n + Z.of_nat (length fs) <= mx →
  decode_block_loop malloc fuel (mjoin (enc_field <$> fs)) n mx = Ok (Some (field_pair <$> fs)).
Proof.
  induction fs as [|f fs IH]; intros fuel n mx Hm Hf Hl Hfuel Hmx;
    (destruct fuel as [|fuel]; [lia|]); [done|].
  apply Forall_cons in Hf as [Hf Hfs]. rewrite fmap_cons in *.
  change (mjoin (enc_field f :: (enc_field <$> fs)))
    with (enc_field f ++ mjoin (enc_field <$> fs)) in *. simpl length in Hmx, Hfuel.
  pose proof (decode_enc_field malloc Hm f (mjoin (enc_field <$> fs)) Hf Hl) as E.
  rewrite length_app in Hl. cbn [decode_block_loop].
  remember (enc_field f ++ mjoin (enc_field <$> fs)) as buf eqn:Eb.
  destruct buf as [|b l]; [by destruct f|].
  rewrite E. simpl. rewrite decide_False by lia. by rewrite IH by (done || lia).
Qed.

Lemma decode_block_UB malloc buf mx : buf ≠ [] → decode_field malloc buf = UB →
  mini_hpack_decode_block malloc buf mx = UB.
Proof.
  intros Hne E. unfold mini_hpack_decode_block. cbn [decode_block_loop].
  destruct buf; [done|]. by rewrite E.
Qed.

Lemma length_enc_block fs : (length fs <= length (mjoin (enc_field <$> fs)))%nat.
Proof.
  induction fs as [|f fs IH]; [done|]. rewrite fmap_cons.
  change (mjoin (enc_field f :: (enc_field <$> fs)))
    with (enc_field f ++ mjoin (enc_field <$> fs)). rewrite length_app.
  assert (1 <= length (enc_field f))%nat by (destruct f; simpl; lia). simpl length. lia.
Qed.

Lemma frame_24 l : Z.lor (Z.lor (Z.shiftl (u8 (Z.land (Z.shiftr l 16) 255)) 16)
    (Z.shiftl (u8 (Z.land (Z.shiftr l 8) 255)) 8)) (u8 (Z.land l 255)) = l mod 2 ^ 24.
Proof.
  change 255 with (2 ^ 8 - 1). rewrite !land_mod, !shiftr_div, !shiftl_mul by lia.
  rewrite !u8_small by (unfold byte_ok; mlia).
  rewrite (lor_add (_ * 2 ^ 16) _ 16) by mlia. rewrite (lor_add _ _ 8) by mlia. mlia.
Qed.

Lemma frame_31 s : Z.lor (Z.lor (Z.shiftl (Z.land (u8 (Z.land (Z.shiftr s 24) 127)) 127) 24)
      (Z.shiftl (u8 (Z.land (Z.shiftr s 16) 255)) 16))
    (Z.lor (Z.shiftl (u8 (Z.land (Z.shiftr s 8) 255)) 8) (u8 (Z.land s 255))) = s mod 2 ^ 31.
Proof.
  change 255 with (2 ^ 8 - 1). change 127 with (2 ^ 7 - 1).
  rewrite !land_mod, !shiftr_div, !shiftl_mul by lia. unfold u8.
  rewrite (lor_add (_ * 2 ^ 24) _ 24) by mlia. rewrite (lor_add (_ * 2 ^ 8) _ 8) by mlia.
  rewrite (lor_add _ _ 16) by mlia. mlia.
Qed.

(** ** Properties *)

(** Every frame header survives encoding and decoding: the decoder reads the
    24 low bits of the length and the 31 low bits of the stream id back (so all of
    them when they are in range), from a buffer with anything after the header,
    and rejects every shorter buffer. *)
Theorem h2_header_roundtrip len ty fl sid tail :
  mini_h2_decode_header (mini_h2_encode_header len ty fl sid ++ tail)
  = Some (H2F (len mod 2 ^ 24) ty fl (sid mod 2 ^ 31))
  ∧ ∀ k, (k < 9)%nat → mini_h2_decode_header (take k (mini_h2_encode_header len ty fl sid)) = None.
Proof.
  split.
  - unfold mini_h2_decode_header. rewrite decide_False by (rewrite length_app; simpl; lia).
    unfold rd, mini_h2_encode_header. simpl app. simpl lookup_total. do 2 f_equal.
    + apply frame_24.
    + apply frame_31.
  - intros k Hk. unfold mini_h2_decode_header. rewrite decide_True; [done|].
    rewrite length_take. lia.
Qed.

(** C40. HPACK integers: for every prefix of 1 to 8 bits, every 64-bit value and
    every buffer of at least 11 bytes the encoder succeeds, and the decoder reads
    the value back from the encoding and whatever follows, consuming exactly it. *)
Theorem hpack_int_codec out0 cap value k tail : byte_ok out0 → (11 <= cap)%nat →
  0 <= value < 2 ^ 64 → 1 <= k <= 8 →
  ∃ l, mini_hpack_enc_int out0 cap value k = Some l ∧ (1 <= length l <= 11)%nat
    ∧ mini_hpack_dec_int (l ++ tail) k = Some (value, length l).
Proof. apply hpack_int_roundtrip. Qed.

Lemma hpack_int_codec_witness :
  ∃ l, mini_hpack_enc_int 0xe0 11 1337 5 = Some l ∧ (1 <= length l <= 11)%nat
    ∧ mini_hpack_dec_int (l ++ [7]) 5 = Some (1337, length l).
Proof.
  apply (hpack_int_codec 0xe0 11 1337 5 [7]); [split; reflexivity || discriminate|lia| |];
    split; reflexivity || discriminate.
Defined.

(** A header block built from the representations the decoder supports
    (indexed fields, literals with an indexed or a literal name, no Huffman
    coding) decodes to exactly the pairs it encodes, in order. *)
Theorem hpack_block_roundtrip malloc fs max_pairs :
  (∀ s, 0 < s < 2 ^ 63 → malloc s = true) → Forall field_ok fs →
  Z.of_nat (length (mjoin (enc_field <$> fs))) < 2 ^ 63 → Z.of_nat (length fs) <= max_pairs →
  mini_hpack_decode_block malloc (mjoin (enc_field <$> fs)) max_pairs = Ok (Some (field_pair <$> fs)).
Proof.
  intros Hm Hf Hl Hmx. apply decode_enc_block; [done..| |lia].
  pose proof (length_enc_block fs). lia.
Qed.

Lemma hpack_block_roundtrip_witness :
  mini_hpack_decode_block (λ _, true)
    (mjoin (enc_field <$> [FIndexed 2; FLiteral (str "x-foo") (str "bar"); FNamed 31 (str "a")])) 4
  = Ok (Some (field_pair <$> [FIndexed 2; FLiteral (str "x-foo") (str "bar"); FNamed 31 (str "a")])).
Proof.
  apply (hpack_block_roundtrip (λ _, true)
    [FIndexed 2; FLiteral (str "x-foo") (str "bar"); FNamed 31 (str "a")] 4).
  - intros; reflexivity.
  - repeat (apply Forall_cons; split; [repeat split; reflexivity || discriminate|]). apply Forall_nil.
    exact I.
  - reflexivity.
  - discriminate.
Defined.

(** On arbitrary bytes, when [malloc] refuses sizes above [PTRDIFF_MAX] and
    zero, decoding a block terminates without leaving a buffer, and never yields
    more than [max_pairs] pairs. *)
Theorem hpack_block_safe malloc buf max_pairs : malloc_limited malloc → malloc 0 = false →
  bytes_ok buf → Z.of_nat (length buf) < 2 ^ 63 →
  ∃ r, mini_hpack_decode_block malloc buf max_pairs = Ok r
    ∧ ∀ l, r = Some l → l = [] ∨ Z.of_nat (length l) <= max_pairs.
Proof.
  intros Hlim H0 Hb Hl. by apply (decode_block_loop_safe malloc Hlim H0 _ buf 0); [..|lia].
Qed.

Lemma hpack_block_safe_witness :
  ∃ r, mini_hpack_decode_block (λ s, bool_decide (0 < s < 2 ^ 63)) [0x82; 0x40; 0x7f] 1 = Ok r
    ∧ ∀ l, r = Some l → l = [] ∨ Z.of_nat (length l) <= 1.
Proof.
  apply (hpack_block_safe (λ s, bool_decide (0 < s < 2 ^ 63)) [0x82; 0x40; 0x7f] 1).
  - intros s Hs. apply bool_decide_eq_false_2. lia.
  - reflexivity.
  - repeat constructor; discriminate || reflexivity.
  - reflexivity.
Defined.

(** The bounds check of a string length wraps at [2^64]: on a [malloc] that
    returns a block for size 0, a 15-byte header block with the string length
    [2^64 - 1] makes the decoder copy [2^64 - 1] bytes into that empty block. *)
Theorem hpack_length_overflow malloc max_pairs : malloc 0 = true →
  mini_hpack_decode_block malloc
    ([0x40; 0x7f] ++ [0x80; 0xff; 0xff; 0xff; 0xff; 0xff; 0xff; 0xff; 0xff; 0x01] ++ [1; 2; 3])
    max_pairs = UB.
Proof.
  intros H0. apply decode_block_UB; [done|]. set (buf := _ ++ _).
  assert (mini_hpack_dec_int buf 6 = Some (0, 1%nat)) as E1 by by vm_compute.
  assert (mini_hpack_dec_int (drop 1 buf) 7 = Some (2 ^ 64 - 1, 11%nat)) as E2 by by vm_compute.
  unfold decode_field. rewrite decide_False by (intros []; done). rewrite E1. cbv zeta.
  rewrite decide_False by done.
  assert (hpack_dec_string malloc (drop 1 buf) = UB) as ->; [|done].
  unfold hpack_dec_string. rewrite E2. simpl. change (u64 (2 ^ 64 - 1 + 1)) with 0.
  by rewrite H0.
Qed.

Lemma hpack_length_overflow_witness :
  mini_hpack_decode_block (λ _, true)
    ([0x40; 0x7f] ++ [0x80; 0xff; 0xff; 0xff; 0xff; 0xff; 0xff; 0xff; 0xff; 0x01] ++ [1; 2; 3]) 4 = UB.
Proof. apply (hpack_length_overflow (λ _, true) 4). reflexivity. Defined.

(** RFC 7541 §6.2.3: a never-indexed literal [a: b] (first byte 0x10, 4-bit
    index prefix) is read with a 6-bit prefix, as index 16. *)
Lemma hpack_never_indexed_misread :
  mini_hpack_decode_block (λ _, true) [0x10; 1; 97; 1; 98] 4 = Ok None.
Proof. by vm_compute. Qed.
