(* ===== verification/Policy.v ===== *)
(** * Web security policy (src/src/mini_policy.c)

    Origins, HSTS, CORS and CSP.  Strings are bytes without terminator; the
    static tables [g_hsts] and [g_csp] are explicit lists (their first [n]
    entries); the clock is an argument.  Fixed-size buffers show as the bound of
    [scan]. *)

From S2P Require Import Prelude CString.

(** ** Origins *)

Record MiniOrigin := Origin { scheme : bytes; host : bytes; port : Z }.

Definition not_in (cs : list Z) (c : Z) : bool := bool_decide (c ∉ cs).

(** [o->port = o->port * 10 + ( *p++ - '0')] in [int]. *)
Fixpoint parse_port (port : Z) (p : bytes) : res Z :=
  match p with
  | c :: p =>
    if c_isdigit c then
      let port := port * 10 + (c - 48) in
      if decide (port < 2 ^ 31) then parse_port port p else UB
    else Ok port
  | [] => Ok port
  end.

(** [Ok None] is the return value -1. *)
Definition mini_origin_parse (url : option bytes) : res (option MiniOrigin) :=
  match url with
  | None => Ok None
  | Some url =>
    let '(sch, p) := scan (not_in [58]) 7 url in
    match expects (str "://") p with
    | Some p =>
      let '(hst, p) := scan (not_in [58; 47; 63; 35]) 255 p in
      (let* prt :=
         match expect 58 p with
         | Some p => parse_port 0 p
         | None => Ok (if streq sch (str "https") then 443 else 80)
         end in
       Ok (if decide (hst = []) then None else Some (Origin sch hst prt)))%c
    | None => Ok None
    end
  end.

Definition mini_origin_same (a b : MiniOrigin) : bool :=
  streq (scheme a) (scheme b) && strcaseeq (host a) (host b) && bool_decide (port a = port b).

(** [snprintf (out, cap, "%s://%s", ...)]: what [out] holds. *)
Definition mini_origin_str (o : MiniOrigin) (cap : nat) : bytes :=
  take (cap - 1) (scheme o ++ str "://" ++ host o).

(** ** HSTS *)

Record HstsEntry := Hsts { h_host : bytes; h_expires : Z; h_subs : bool }.
Definition HSTS_MAX : nat := 64.

Definition mini_hsts_clear : list HstsEntry := [].

(** [age], -1 when there is no [max-age]. *)
Definition hsts_age (sts : bytes) : Z :=
  match mini_strcasestr sts (str "max-age") with
  | None => -1
  | Some ma => c_atol (skip (λ c, bool_decide (c = 32 ∨ c = 61 ∨ c = 9)) (drop 7 ma))
  end.

Definition mini_hsts_remember (now : Z) (g_hsts : list HstsEntry) (host sts : option bytes)
    : res (list HstsEntry) :=
  match host, sts with
  | Some host, Some sts =>
    if decide (sts = []) then Ok g_hsts else
    let age := hsts_age sts in
    let subs := bool_decide (is_Some (mini_strcasestr sts (str "includeSubDomains"))) in
    let idx := fst <$> list_find (λ e, strcaseeq (h_host e) host = true) g_hsts in
    if decide (age <= 0) then
      Ok (match idx with Some i => delete i g_hsts | None => g_hsts end)
    else if decide (now + age < 2 ^ 63) then
      match idx with
      | Some i =>
        Ok (alter (λ e, Hsts (h_host e) (now + age) subs) i g_hsts)
      | None =>
        let g_hsts := if decide (HSTS_MAX <= length g_hsts)%nat then drop 1 g_hsts else g_hsts in
        Ok (g_hsts ++ [Hsts (take 255 host) (now + age) subs])
      end
    else UB
  | _, _ => Ok g_hsts
  end.

Definition hsts_entry_matches (now : Z) (host : bytes) (e : HstsEntry) : bool :=
  if decide (h_expires e ≠ 0 ∧ h_expires e <= now) then false
  else if strcaseeq (h_host e) host then true
  else if h_subs e then
    let hl := length host in let bl := length (h_host e) in
    if decide (bl < hl)%nat then
      bool_decide (rd host (hl - bl - 1) = 46) && strcaseeq (drop (hl - bl) host) (h_host e)
    else false
  else false.

Definition mini_hsts_should_upgrade (now : Z) (g_hsts : list HstsEntry) (host : option bytes)
    : bool :=
  match host with
  | None => false
  | Some host => existsb (hsts_entry_matches now host) g_hsts
  end.

(** ** Same origin *)

Definition mini_sop_same_origin (page : option MiniOrigin) (url : option bytes) : res bool :=
  match page, url with
  | Some page, Some url =>
    (let* o := mini_origin_parse (Some url) in
     Ok (match o with None => false | Some o => mini_origin_same page o end))%c
  | _, _ => Ok false
  end.

(** ** CORS *)

Definition is_simple_method (m : option bytes) : bool :=
  match m with
  | None => false
  | Some m => strcaseeq m (str "GET") || strcaseeq m (str "HEAD") || strcaseeq m (str "POST")
  end.

Definition is_space (c : Z) : bool := bool_decide (c = 32).

Definition is_simple_header (name : bytes) : bool :=
  let name := skip is_space name in
  strcaseeq name (str "Accept") || strcaseeq name (str "Accept-Language")
  || strcaseeq name (str "Content-Language") || strcaseeq name (str "Content-Type")
  || strcaseeq name (str "Range").

(** [val] points into the header list: what follows the value is there too. *)
Definition is_simple_content_type (val : bytes) : bool :=
  starts_with_ci (str "application/x-www-form-urlencoded") val
  || starts_with_ci (str "multipart/form-data") val
  || starts_with_ci (str "text/plain") val.

(** [while (ni > 0 && name[ni - 1] == ' ') name[--ni] = 0] *)
Definition rtrim (name : bytes) : bytes := rev (skip is_space (rev name)).

(** One header of the list: whether it forces a preflight, and where [p] is
    after the separators. *)
Definition preflight_header (p : bytes) : bool * bytes :=
  let '(raw, p) := scan (not_in [58; 44; 13; 10]) 63 p in
  let name := rtrim raw in
  let '(val, p) :=
    match expect 58 p with
    | Some p => let v := skip is_space p in (Some v, skip (not_in [13; 10; 44]) v)
    | None => (None, p)
    end in
  let forced :=
    bool_decide (name ≠ []) && negb (is_simple_header name)
    || bool_decide (name ≠ []) && match val with
       | Some v => strcaseeq name (str "Content-Type") && negb (is_simple_content_type v)
       | None => false
       end in
  (forced, skip (λ c, bool_decide (c ∈ [44; 13; 10; 32])) p).

(** [None] is fuel exhausted; [mini_cors_preflight_needed] gives enough. *)
Fixpoint preflight_loop (fuel : nat) (p : bytes) : option bool :=
  match p with
  | [] => Some false
  | _ =>
    match fuel with
    | O => None
    | S fuel =>
      let '(forced, p) := preflight_header p in
      if forced then Some true else preflight_loop fuel p
    end
  end.

Definition mini_cors_preflight_needed (method headers_csv : option bytes) : option bool :=
  if negb (is_simple_method method) then Some true else
  match headers_csv with
  | None => Some false
  | Some h => preflight_loop (length h) h
  end.

Definition mini_cors_response_allowed (req_origin : option MiniOrigin) (aca_origin : option bytes)
    (is_credentialed : bool) : bool :=
  match aca_origin with
  | None | Some [] => false
  | Some aca =>
    if streq aca (str "*") then negb is_credentialed else
    match req_origin with
    | None => false
    | Some o =>
      let req_str := mini_origin_str o 280 in
      strcaseeq aca req_str || (streq aca (str "null") && streq req_str (str "null"))
    end
  end.

(** ** CSP *)

Record CspDir := Csp { csp_name : bytes; csp_src : list bytes }.
Definition CSP_MAX_DIRS : nat := 8.
Definition CSP_MAX_SRC : nat := 16.

Definition mini_csp_clear : list CspDir := [].

(** The sources of one directive; [src] are those stored so far. *)
Fixpoint csp_sources (fuel : nat) (src : list bytes) (p : bytes) : option (list bytes * bytes) :=
  if decide (p = [] ∨ hd0 p = 59) then Some (src, p) else
    match fuel with
    | O => None
    | S fuel =>
      let p := skip is_space p in
      let '(tok, p) := scan (not_in [32; 59]) 127 p in
      let src :=
        if decide (tok ≠ [] ∧ length src < CSP_MAX_SRC)%nat then src ++ [tok] else src in
      csp_sources fuel src (skip is_space p)
    end.

Fixpoint csp_set_loop (fuel : nat) (g_csp : list CspDir) (p : bytes) : option (list CspDir) :=
  match p with
  | [] => Some g_csp
  | _ =>
    if decide (CSP_MAX_DIRS <= length g_csp)%nat then Some g_csp else
    match fuel with
    | O => None
    | S fuel =>
      let p := skip (λ c, bool_decide (c = 32 ∨ c = 59)) p in
      let '(name, p) := scan (not_in [32; 59]) 23 p in
      if decide (name = []) then Some g_csp else
      let p := skip is_space p in
      match csp_sources (S (length p)) [] p with
      | None => None
      | Some (src, p) =>
        let p := default p (expect 59 p) in
        csp_set_loop fuel (g_csp ++ [Csp name src]) p
      end
    end
  end.

Definition mini_csp_set (csp : option bytes) : option (list CspDir) :=
  match csp with
  | None => Some []
  | Some csp => csp_set_loop (length csp) [] csp
  end.

Definition csp_find (g_csp : list CspDir) (name : bytes) : option CspDir :=
  snd <$> list_find (λ d, strcaseeq (csp_name d) name = true) g_csp.

(** [scheme://host] of an origin, cut at the buffer size. *)
Definition csp_origin_str (o : MiniOrigin) (cap : nat) : bytes :=
  take (cap - 1) (scheme o ++ str "://" ++ host o).

(** Whether source [s] is an origin expression that matches [o]. *)
Definition csp_source_matches (s : bytes) (o : MiniOrigin) : res bool :=
  if starts_with_ci (str "http") s || starts_with (str "data:") s || starts_with (str "blob:") s
  then (let* so := mini_origin_parse (Some s) in
        Ok (match so with
            | None => false
            | Some so => strcaseeq (csp_origin_str so 128) (csp_origin_str o 280)
            end))%c
  else Ok false.

(** The scan of the sources: [inl] is [return 1] from inside the loop, [inr] the
    three flags. *)
Fixpoint csp_scan (srcs : list bytes) (o : option MiniOrigin) (has_self has_none has_star : bool)
    : res (unit + bool * bool * bool) :=
  match srcs with
  | [] => Ok (inr (has_self, has_none, has_star))
  | s :: srcs =>
    if streq s (str "'none'") then csp_scan srcs o has_self true has_star
    else if streq s (str "'self'") then csp_scan srcs o true has_none has_star
    else if streq s (str "*") then csp_scan srcs o has_self has_none true
    else match o with
         | None => csp_scan srcs o has_self has_none has_star
         | Some o' =>
           (let* m := csp_source_matches s o' in
            if m : bool then Ok (inl ()) else csp_scan srcs o has_self has_none has_star)%c
         end
  end.

Definition mini_csp_allows (g_csp : list CspDir) (directive : bytes) (page : option MiniOrigin)
    (url : option bytes) : res bool :=
  let d := match csp_find g_csp directive with
           | Some d => Some d
           | None => csp_find g_csp (str "default-src")
           end in
  match d with
  | None => Ok true
  | Some d =>
    (let* o := mini_origin_parse (Some (default [] url)) in
     let* r := csp_scan (csp_src d) o false false false in
     Ok (match r with
         | inl () => true
         | inr (has_self, has_none, has_star) =>
           if (has_none : bool) then false
           else if (has_star : bool) then true
           else match (has_self : bool), page, o with
                | true, Some page, Some o => mini_origin_same page o
                | _, _, _ => false
                end
         end))%c
  end.

(** ** Origins: lemmas *)

Lemma mini_origin_same_equiv :
  (∀ a, mini_origin_same a a = true) ∧ (∀ a b, mini_origin_same a b = mini_origin_same b a)
  ∧ (∀ a b c, mini_origin_same a b = true → mini_origin_same b c = true →
       mini_origin_same a c = true).
Proof.
  unfold mini_origin_same. split_and!.
  - intros a. rewrite strcaseeq_refl, bool_decide_eq_true_2 by done.
    unfold streq. by rewrite bool_decide_eq_true_2.
  - intros a b. rewrite (strcaseeq_sym (host a)). unfold streq.
    f_equal; [f_equal|]; apply bool_decide_ext; split; congruence.
  - intros a b c. rewrite !andb_true_iff, !streq_true, !bool_decide_eq_true.
    intros [[-> Hab] ->] [[-> Hbc] ->]. eauto using strcaseeq_trans.
Qed.

(** Decimal digits of a port, most significant first. *)
Definition is_port (ds : bytes) (v : Z) : Prop :=
  Forall (λ c, c_isdigit c = true) ds ∧ foldl (λ a c, a * 10 + (c - 48)) 0 ds = v.

Lemma foldl_port_mono ds : ∀ a, 0 <= a → Forall (λ c, c_isdigit c = true) ds →
  a <= foldl (λ a c, a * 10 + (c - 48)) a ds.
Proof.
  induction ds as [|c ds IH]; intros a Ha Hd; simpl; [lia|].
  apply Forall_cons in Hd as [Hc Hd]. apply bool_decide_eq_true in Hc.
  specialize (IH (a * 10 + (c - 48)) ltac:(lia) Hd). lia.
Qed.

Lemma parse_port_digits ds r : ∀ a, 0 <= a → Forall (λ c, c_isdigit c = true) ds →
  (∀ c r', r = c :: r' → c_isdigit c = false) →
  foldl (λ a c, a * 10 + (c - 48)) a ds < 2 ^ 31 →
  parse_port a (ds ++ r) = Ok (foldl (λ a c, a * 10 + (c - 48)) a ds).
Proof.
  induction ds as [|c ds IH]; intros a Ha Hd Hr Hlt; simpl.
  - destruct r as [|c r]; simpl; [done|]. by rewrite (Hr c r).
  - apply Forall_cons in Hd as [Hc Hd]. rewrite Hc. cbv zeta. simpl in Hlt.
    apply bool_decide_eq_true in Hc.
    pose proof (foldl_port_mono ds (a * 10 + (c - 48)) ltac:(lia) Hd).
    rewrite decide_True by lia. apply IH; [lia|done..].
Qed.

Definition scheme_char (c : Z) : Prop := not_in [58] c = true.
Definition host_char (c : Z) : Prop := not_in [58; 47; 63; 35] c = true.

Lemma not_in_hd cs c r r' : r = c :: r' → hd0 r ∈ cs → not_in cs c = false.
Proof. intros -> H. by apply bool_decide_eq_false_2; intros []. Qed.

(** The general form of a parsed URL: [tail] is what follows the host. *)
Lemma origin_parse_eq sch hst tail : Forall scheme_char sch → (length sch <= 7)%nat →
  Forall host_char hst → (length hst <= 255)%nat → hst ≠ [] →
  (tail = [] ∨ hd0 tail ∈ [58; 47; 63; 35]) →
  mini_origin_parse (Some (sch ++ str "://" ++ hst ++ tail))
  = (let* prt := match expect 58 tail with
                 | Some p => parse_port 0 p
                 | None => Ok (if streq sch (str "https") then 443 else 80)
                 end in Ok (Some (Origin sch hst prt)))%c.
Proof.
  intros Hs Ls Hh Lh Hne Ht. unfold mini_origin_parse.
  rewrite scan_app; [|done|done|]; [|intros c r' [= <- _]; done].
  rewrite expects_app.
  rewrite scan_app; [|done|done|].
  - by destruct hst.
  - intros c r' E. destruct Ht as [->|Ht]; [done|]. by eapply not_in_hd.
Qed.

(** What a successful parse guarantees: the fields fit their arrays. *)
Lemma parse_port_range a p v : 0 <= a < 2 ^ 31 → parse_port a p = Ok v → 0 <= v < 2 ^ 31.
Proof.
  revert a. induction p as [|c p IH]; intros a Ha E; simpl in E; [by injection E as <-|].
  destruct (c_isdigit c) eqn:Ec; [|by injection E as <-]. case_decide; [|done].
  apply bool_decide_eq_true in Ec. apply IH in E; lia.
Qed.

Definition origin_ok (o : MiniOrigin) : Prop :=
  (length (scheme o) <= 7)%nat ∧ (1 <= length (host o) <= 255)%nat ∧ 0 <= port o < 2 ^ 31
  ∧ Forall scheme_char (scheme o) ∧ Forall host_char (host o).

Lemma origin_parse_ok url o : mini_origin_parse url = Ok (Some o) → origin_ok o.
Proof.
  unfold mini_origin_parse. destruct url as [url|]; [|done].
  destruct (scan (not_in [58]) 7 url) as [sch p] eqn:Es.
  apply scan_split in Es as (_&Ls&Hs).
  destruct (expects (str "://") p) as [q|]; [|done].
  destruct (scan (not_in [58; 47; 63; 35]) 255 q) as [hst r] eqn:Eh.
  apply scan_split in Eh as (_&Lh&Hh). intros (prt&Hp&E)%res_bind_Ok.
  case_decide as Hne; [done|]. injection E as <-.
  assert (0 <= prt < 2 ^ 31) as Hprt.
  { destruct (expect 58 r); [by eapply parse_port_range in Hp; [|lia]|].
    injection Hp as <-. destruct (streq _ _); lia. }
  split_and!; simpl; try done; [|lia..]. destruct hst; simpl; [done|lia].
Qed.

(** ** HSTS: lemmas *)

Definition ci_host (e : HstsEntry) : bytes := map c_tolower (h_host e).

(** The table fits, its hosts fit their arrays and are pairwise different. *)
Definition hsts_inv (st : list HstsEntry) : Prop :=
  (length st <= HSTS_MAX)%nat ∧ Forall (λ e, length (h_host e) <= 255)%nat st
  ∧ NoDup (ci_host <$> st).

Definition find_host (host : bytes) (st : list HstsEntry) : option nat :=
  fst <$> list_find (λ e, strcaseeq (h_host e) host = true) st.

Lemma find_host_Some host st i : find_host host st = Some i →
  ∃ e, st !! i = Some e ∧ strcaseeq (h_host e) host = true.
Proof.
  unfold find_host. intros ([j e]&E&->)%fmap_Some. apply list_find_Some in E as (He&Hc&_).
  by exists e.
Qed.
Lemma find_host_None host st : find_host host st = None →
  Forall (λ e, strcaseeq (h_host e) host = false) st.
Proof.
  unfold find_host. intros E%fmap_None. apply list_find_None in E.
  eapply Forall_impl; [exact E|]. intros e He. by apply not_true_is_false.
Qed.

Lemma ci_host_alter f (i : nat) (st : list HstsEntry) : (∀ e, ci_host (f e) = ci_host e) →
  ci_host <$> alter f i st = ci_host <$> st.
Proof.
  intros Hf. revert i. induction st as [|e st IH]; intros [|i]; try done; csimpl.
  - by rewrite Hf.
  - by rewrite IH.
Qed.

Lemma hsts_inv_delete (i : nat) (st : list HstsEntry) : hsts_inv st → hsts_inv (delete i st).
Proof.
  intros (Hl&Hh&Hn). rewrite delete_take_drop. pose proof (take_drop i st) as E.
  destruct (drop i st) as [|e r] eqn:Ed.
  { assert (drop (S i) st = []) as ->.
    { apply drop_ge. assert (length (drop i st) = 0%nat) as H by (by rewrite Ed).
      rewrite length_drop in H. lia. }
    by rewrite E. }
  assert (drop (S i) st = r) as ->.
  { replace (S i) with (i + 1)%nat by lia. by rewrite <- drop_drop, Ed. }
  rewrite <- E in Hl, Hh, Hn. rewrite fmap_app, fmap_cons in Hn. unfold hsts_inv.
  rewrite length_app in *. simpl in Hl. apply Forall_app in Hh as [H1 H2%Forall_cons].
  split_and!; [lia|apply Forall_app; by destruct H2|]. rewrite fmap_app.
  eapply sublist_NoDup; [exact Hn|]. by apply sublist_app, sublist_cons.
Qed.

(** Deleting the host leaves no entry for it. *)
Lemma delete_unique host (st : list HstsEntry) (i : nat) : NoDup (ci_host <$> st) → find_host host st = Some i →
  Forall (λ e, strcaseeq (h_host e) host = false) (delete i st).
Proof.
  intros Hn Hi. apply find_host_Some in Hi as (e&He&Hc).
  apply Forall_lookup. intros j e' Hj. apply not_true_is_false. intros Hc'.
  assert (∃ k, k ≠ i ∧ st !! k = Some e') as (k&Hk&Ek).
  { destruct (decide (j < i)%nat).
    - rewrite list_lookup_delete_lt in Hj by done. exists j. split; [lia|done].
    - rewrite list_lookup_delete_ge in Hj by lia. exists (S j). split; [lia|done]. }
  apply Hk. eapply (NoDup_lookup _ k i (map c_tolower host) Hn);
    rewrite list_lookup_fmap, ?Ek, ?He; simpl; f_equal; by apply strcaseeq_true.
Qed.

Lemma hsts_remember_inv now st host sts st' : (length host <= 255)%nat → hsts_inv st →
  mini_hsts_remember now st (Some host) (Some sts) = Ok st' → hsts_inv st'.
Proof.
  intros Lh Hi. unfold mini_hsts_remember. fold (find_host host st). case_decide; [by intros [= <-]|].
  cbv zeta. case_decide.
  { destruct (find_host host st) as [i|]; intros [= <-]; [by apply hsts_inv_delete|done]. }
  case_decide; [|done]. destruct (find_host host st) as [i|] eqn:Ei; intros [= <-].
  - destruct Hi as (Hl&Hh&Hn). unfold hsts_inv. rewrite length_alter, ci_host_alter by done.
    split_and!; [done| |done]. apply Forall_alter; [done|by intros x _ Hx].
  - set (st0 := if decide _ then _ else _).
    assert (hsts_inv st0 ∧ (length st0 < HSTS_MAX)%nat ∧
            Forall (λ e, strcaseeq (h_host e) host = false) st0) as ((Hl&Hh&Hn)&Hlt&Hf).
    { apply find_host_None in Ei. unfold st0. case_decide as Hd; [|split_and!; [done|lia|done]].
      destruct Hi as (Hl&Hh&Hn). unfold hsts_inv, HSTS_MAX in *. rewrite fmap_drop, length_drop.
      split_and!; [lia|by apply Forall_drop| |lia|by apply Forall_drop].
      eapply sublist_NoDup; [exact Hn|]. apply sublist_drop. }
    clearbody st0. unfold hsts_inv. rewrite length_app, fmap_app, take_ge by done. simpl.
    split_and!; [lia|apply Forall_app; split; [done|by constructor]|].
    apply NoDup_app. split_and!; [done| |apply NoDup_singleton].
    intros x (e&->&He)%list_elem_of_fmap Hx. apply list_elem_of_singleton in Hx.
    rewrite Forall_forall in Hf. specialize (Hf e He).
    unfold ci_host in Hx. simpl in Hx. apply strcaseeq_true in Hx. congruence.
Qed.

Lemma existsb_elem {A} (f : A → bool) l x : x ∈ l → f x = true → existsb f l = true.
Proof. intros Hx Hf. apply existsb_exists. exists x. by rewrite <- list_elem_of_In. Qed.

(** A positive [max-age] makes the host, in any case, upgrade until it expires. *)
Lemma remember_upgrades now st host sts st' : (length host <= 255)%nat → 0 < hsts_age sts → sts ≠ [] → 0 < now → host ≠ [] →
  mini_hsts_remember now st (Some host) (Some sts) = Ok st' → ∀ t h, t < now + hsts_age sts → strcaseeq host h = true →
  mini_hsts_should_upgrade t st' (Some h) = true.
Proof.
  intros Lh Hage Hne Hnow Hh E t h Ht Hc. unfold mini_hsts_remember in E. fold (find_host host st) in E.
  rewrite decide_False in E by done. cbv zeta in E. rewrite decide_False in E by lia. case_decide; [|done].
  assert (∃ e, e ∈ st' ∧ h_expires e = now + hsts_age sts ∧ strcaseeq (h_host e) host = true)
    as (e&He&Hex&Hce).
  { destruct (find_host host st) as [i|] eqn:Ei; injection E as <-.
    - apply find_host_Some in Ei as (e&He&Hce).
      eexists. split; [apply list_elem_of_lookup; exists i; by rewrite list_lookup_alter_eq, He|]. done.
    - eexists. split; [apply elem_of_app; right; by apply list_elem_of_singleton|].
      split; [done|]. simpl. rewrite take_ge by lia. apply strcaseeq_refl. }
  simpl. eapply existsb_elem; [exact He|]. unfold hsts_entry_matches.
  rewrite decide_False by lia. by rewrite (strcaseeq_trans _ _ _ Hce Hc).
Qed.

(** ** Properties: origins and HSTS *)

(** Parsing [scheme "://" host [":" port] rest] gives back scheme, host and
    port (443 for https and 80 otherwise when there is none), for every scheme
    of at most 7 and host of 1 to 255 characters and every port below [2^31];
    and whatever it accepts fits the arrays of [MiniOrigin]. *)
Theorem origin_parse_print sch hst ds rest : Forall scheme_char sch → (length sch <= 7)%nat →
  Forall host_char hst → (1 <= length hst <= 255)%nat →
  Forall (λ c, c_isdigit c = true) ds → c_isdigit (hd0 rest) = false →
  foldl (λ a c, a * 10 + (c - 48)) 0 ds < 2 ^ 31 →
  mini_origin_parse (Some (sch ++ str "://" ++ hst ++ [58] ++ ds ++ rest))
    = Ok (Some (Origin sch hst (foldl (λ a c, a * 10 + (c - 48)) 0 ds)))
  ∧ mini_origin_parse (Some (sch ++ str "://" ++ hst ++ [47] ++ rest))
    = Ok (Some (Origin sch hst (if streq sch (str "https") then 443 else 80)))
  ∧ ∀ url o, mini_origin_parse url = Ok (Some o) → origin_ok o.
Proof.
  intros Hs Ls Hh Lh Hd Hr Hlt. assert (hst ≠ []) by (by intros ->; simpl in Lh; lia). split_and!.
  - rewrite origin_parse_eq; [|done|done|done|lia|done|right; by apply (bool_decide_unpack _)].
    change ([58] ++ ds ++ rest) with (58 :: ds ++ rest). rewrite expect_cons.
    rewrite parse_port_digits; [done|lia|done| |done]. by intros c r' ->.
  - rewrite origin_parse_eq; [done|done|done|done|lia|done|right; by apply (bool_decide_unpack _)].
  - apply origin_parse_ok.
Qed.

Lemma origin_parse_print_witness :
  mini_origin_parse (Some (str "https://a.b:8443/x")) = Ok (Some (Origin (str "https") (str "a.b") 8443)).
Proof.
  apply (origin_parse_print (str "https") (str "a.b") (str "8443") (str "/x")).
  all: apply (bool_decide_unpack _) || (apply Nat.leb_le) || idtac.
  all: try reflexivity.
Defined.

(** [mini_hsts_remember] keeps the table well formed (at most 64 entries,
    hosts of at most 255 bytes, no host twice); a positive [max-age] makes the
    host, in any case, upgrade until it expires; a zero or absent one leaves no
    entry for it. *)
Theorem hsts_remember_spec now st host sts st' : (1 <= length host <= 255)%nat → hsts_inv st →
  sts ≠ [] → 0 < now → mini_hsts_remember now st (Some host) (Some sts) = Ok st' →
  hsts_inv st'
  ∧ (0 < hsts_age sts → ∀ t h, t < now + hsts_age sts → strcaseeq host h = true →
       mini_hsts_should_upgrade t st' (Some h) = true)
  ∧ (hsts_age sts <= 0 → Forall (λ e, strcaseeq (h_host e) host = false) st').
Proof.
  intros Lh Hi Hne Hnow E. split; [by eapply hsts_remember_inv; [|done|exact E]; lia|]. split.
  - intros Hage. eapply remember_upgrades; try done; [lia|]. by intros ->; cbn in Lh; lia.
  - intros Hage. unfold mini_hsts_remember in E. fold (find_host host st) in E.
    rewrite decide_False in E by done. cbv zeta in E. rewrite decide_True in E by lia.
    destruct (find_host host st) as [i|] eqn:Ei; injection E as <-.
    + apply delete_unique; [apply Hi|done].
    + by apply find_host_None.
Qed.

Lemma hsts_remember_spec_witness :
  let st' := [Hsts (str "a.com") 160 false] in
  mini_hsts_remember 100 [] (Some (str "a.com")) (Some (str "max-age=60")) = Ok st' ∧ hsts_inv st'.
Proof.
  split; [reflexivity|].
  apply (hsts_remember_spec 100 [] (str "a.com") (str "max-age=60") [Hsts (str "a.com") 160 false]).
  - split; apply Nat.leb_le; reflexivity.
  - split; [apply Nat.leb_le; reflexivity|split; [apply Forall_nil; exact I|apply NoDup_nil; exact I]].
  - discriminate.
  - reflexivity.
  - reflexivity.
Defined.

(** A host is upgraded exactly when some entry that has not expired names it
    (case-insensitively), or has includeSubDomains and names a parent: the host
    is some prefix, a dot, and the entry's name. *)
Theorem hsts_should_upgrade_spec now st h :
  mini_hsts_should_upgrade now st (Some h) = true ↔
  ∃ e, e ∈ st ∧ (h_expires e = 0 ∨ now < h_expires e) ∧
    (strcaseeq (h_host e) h = true ∨
     h_subs e = true ∧ ∃ pre suf, h = pre ++ [46] ++ suf ∧ strcaseeq suf (h_host e) = true).
Proof.
  simpl. rewrite existsb_exists.
  assert (∀ e, hsts_entry_matches now h e = true ↔ (h_expires e = 0 ∨ now < h_expires e) ∧
    (strcaseeq (h_host e) h = true ∨
     h_subs e = true ∧ ∃ pre suf, h = pre ++ [46] ++ suf ∧ strcaseeq suf (h_host e) = true)) as H.
  { intros e. unfold hsts_entry_matches. case_decide as Hx; [split; [done|lia]|].
    destruct (strcaseeq (h_host e) h); [split; [|done]; split; [lia|by left]|].
    destruct (h_subs e); [|split; [done|by intros [_ [?|[? _]]]]]. cbv zeta.
    set (bl := length (h_host e)). split.
    - case_decide as Hl; [|done]. intros [Hdot%bool_decide_eq_true Hc]%andb_true_iff.
      split; [lia|]. right. split; [done|].
      exists (take (length h - bl - 1) h), (drop (length h - bl) h). split; [|done].
      rewrite <- (take_drop (length h - bl - 1) h) at 1. f_equal.
      unfold rd in Hdot. rewrite <- Hdot.
      set (k := (length h - bl - 1)%nat).
      assert (length h - bl = S k)%nat as -> by (unfold k; lia).
      apply drop_S. apply list_lookup_lookup_total_lt. lia.
    - intros [_ [?|[_ (pre&suf&->&Hc)]]]; [done|].
      assert (bl = length suf) as Hbl.
      { apply strcaseeq_true in Hc. apply (f_equal length) in Hc. rewrite !length_map in Hc. done. }
      rewrite !length_app, Hbl. simpl. rewrite decide_True by lia.
      replace (length pre + S (length suf) - length suf)%nat with (length pre + 1)%nat by lia.
      apply andb_true_iff. split.
      + apply bool_decide_eq_true. replace (length pre + 1 - 1)%nat with (length pre) by lia.
        unfold rd. by rewrite list_lookup_total_middle.
      + rewrite <- drop_drop, drop_app_length. done. }
  split.
  - intros (e&He&Hm). apply list_elem_of_In in He. rewrite H in Hm. by exists e.
  - intros (e&He&Hm). exists e. by rewrite <- list_elem_of_In, H.
Qed.

(** ** CORS: lemmas *)

(** A header name and a value as they survive the list syntax. *)
Definition name_char (c : Z) : Prop := not_in [58; 44; 13; 10] c = true ∧ c ≠ 32.
Definition value_char (c : Z) : Prop := not_in [13; 10; 44] c = true.
Definition hdr_ok (h : bytes * bytes) : Prop :=
  (1 <= length (fst h) <= 63)%nat ∧ Forall name_char (fst h)
  ∧ Forall value_char (snd h) ∧ hd0 (snd h) ≠ 32 ∧ snd h ≠ [].

Definition print_hdr (h : bytes * bytes) : bytes := fst h ++ [58; 32] ++ snd h ++ [13; 10].

Definition forces (h : bytes * bytes) : bool :=
  negb (is_simple_header (fst h))
  || strcaseeq (fst h) (str "Content-Type") && negb (is_simple_content_type (snd h)).

Lemma starts_with_ci_sep p v r c : c_tolower c ∉ map c_tolower p →
  starts_with_ci p (v ++ c :: r) = starts_with_ci p v.
Proof.
  intros Hc. unfold starts_with_ci. apply bool_decide_ext.
  destruct (decide (length p <= length v)%nat) as [Hl|Hl].
  { by rewrite take_app_le by lia. }
  rewrite (take_ge v) by lia. split; intros E.
  - exfalso. apply Hc. rewrite <- E, take_app_ge by lia.
    replace (length p - length v)%nat with (S (length p - length v - 1)) by lia.
    simpl. rewrite map_app. apply elem_of_app. right. left.
  - apply (f_equal length) in E. rewrite !length_map in E. lia.
Qed.

Lemma simple_content_type_sep v r : is_simple_content_type (v ++ 13 :: r) = is_simple_content_type v.
Proof.
  unfold is_simple_content_type.
  by rewrite !starts_with_ci_sep by (by apply (bool_decide_unpack _)).
Qed.

Lemma rtrim_id n : Forall name_char n → rtrim n = n.
Proof.
  intros Hn. unfold rtrim. rewrite skip_none; [apply rev_involutive|].
  intros c r E. apply bool_decide_eq_false_2. intros ->.
  assert (32 ∈ n) as Hin.
  { apply list_elem_of_In, in_rev, list_elem_of_In. rewrite E. left. }
  rewrite Forall_forall in Hn. by destruct (Hn 32 Hin).
Qed.

Lemma preflight_header_print h tail : hdr_ok h → ¬ hd0 tail ∈ [44; 13; 10; 32] →
  preflight_header (print_hdr h ++ tail) = (forces h, tail).
Proof.
  destruct h as [n v]. unfold hdr_ok, print_hdr. simpl fst; simpl snd.
  intros (Ln&Hn&Hv&Hsp&Hvne) Ht. unfold preflight_header.
  rewrite <- !app_assoc. rewrite scan_app; [|by eapply Forall_impl; [exact Hn|by intros c []]|lia|].
  2:{ intros c r' [= <- _]. done. }
  rewrite rtrim_id by done. change ([58; 32] ++ ?x) with (58 :: 32 :: x). rewrite expect_cons.
  change ([13; 10] ++ tail) with (13 :: 10 :: tail). cbv zeta.
  assert (skip is_space (32 :: v ++ 13 :: 10 :: tail) = v ++ 13 :: 10 :: tail) as ->.
  { simpl. apply skip_none. intros c r' E. apply bool_decide_eq_false_2. intros ->.
    destruct v; [done|]. injection E as -> _. done. }
  rewrite skip_app; [|done|by intros c r' [= <- _]].
  assert (n ≠ []) as Hne by (by intros ->; simpl in Ln; lia).
  rewrite bool_decide_eq_true_2 by done. rewrite simple_content_type_sep. f_equal.
  simpl. apply skip_none. intros c r' ->. by apply bool_decide_eq_false_2.
Qed.

Lemma length_print_hdr h : hdr_ok h → (1 <= length (print_hdr h))%nat.
Proof. intros. unfold print_hdr. rewrite !length_app. simpl. lia. Qed.

Lemma print_hdrs_head hs : Forall hdr_ok hs → ¬ hd0 (mjoin (print_hdr <$> hs)) ∈ [44; 13; 10; 32].
Proof.
  intros Hf. destruct hs as [|[n v] hs]; [by apply (bool_decide_unpack _)|].
  apply Forall_cons in Hf as [(Ln&Hn&_) _]. simpl in *. destruct n as [|c n]; [simpl in Ln; lia|].
  apply Forall_cons in Hn as [[Hc%bool_decide_eq_true Hc'] _]. simpl.
  rewrite !elem_of_cons in Hc |- *. rewrite elem_of_nil in *. tauto.
Qed.

Lemma preflight_loop_print hs : ∀ fuel, Forall hdr_ok hs →
  (length (mjoin (print_hdr <$> hs)) <= fuel)%nat →
  preflight_loop fuel (mjoin (print_hdr <$> hs)) = Some (existsb forces hs).
Proof.
  induction hs as [|h hs IH]; intros fuel Hf Hl; [by destruct fuel|].
  apply Forall_cons in Hf as [Hh Hhs]. rewrite fmap_cons in *.
  change (mjoin (print_hdr h :: (print_hdr <$> hs)))
    with (print_hdr h ++ mjoin (print_hdr <$> hs)) in *.
  rewrite length_app in Hl. pose proof (length_print_hdr h Hh).
  destruct fuel as [|fuel]; [lia|]. cbn [preflight_loop].
  destruct (print_hdr h ++ _) as [|b l] eqn:E.
  { apply (f_equal length) in E. rewrite length_app in E. simpl in E. lia. }
  rewrite <- E. rewrite preflight_header_print by (done || by apply print_hdrs_head).
  simpl existsb. destruct (forces h); [done|]. apply IH; [done|lia].
Qed.

(** Every header consumed leaves less of the list. *)
Lemma preflight_header_progress p : p ≠ [] → (length (snd (preflight_header p)) < length p)%nat.
Proof.
  intros Hp. unfold preflight_header.
  destruct (scan (not_in [58; 44; 13; 10]) 63 p) as [raw q] eqn:Es.
  pose proof (scan_rest_stop _ _ _ _ _ Es) as Hstop.
  apply scan_split in Es as (->&Hl&_). rewrite length_app.
  destruct (expect 58 q) as [q'|] eqn:Ee; cbv zeta; simpl snd.
  - apply expect_Some in Ee as ->. simpl length.
    pose proof (length_skip is_space q').
    pose proof (length_skip (not_in [13; 10; 44]) (skip is_space q')).
    pose proof (length_skip (λ c, bool_decide (c ∈ [44; 13; 10; 32]))
      (skip (not_in [13; 10; 44]) (skip is_space q'))). lia.
  - pose proof (length_skip (λ c, bool_decide (c ∈ [44; 13; 10; 32])) q).
    destruct (decide (length raw = 0%nat)) as [Hr|]; [|lia].
    destruct Hstop as [->|Hs]; [lia|by destruct raw|]. destruct q as [|c q]; [by destruct raw|].
    simpl in Hs. apply bool_decide_eq_false in Hs. simpl in Ee.
    destruct (decide (c = 58)) as [|Hc]; [done|]. simpl.
    rewrite bool_decide_eq_true_2.
    + pose proof (length_skip (λ c, bool_decide (c ∈ [44; 13; 10; 32])) q). lia.
    + apply dec_stable in Hs. rewrite !elem_of_cons in Hs |- *. tauto.
Qed.

Lemma preflight_loop_total fuel p : (length p <= fuel)%nat → is_Some (preflight_loop fuel p).
Proof.
  revert p. induction fuel as [|fuel IH]; intros p Hl; destruct p as [|c p']; simpl;
    [by eexists|simpl in Hl; lia|by eexists|].
  set (p := c :: p') in *. pose proof (preflight_header_progress p ltac:(done)) as Hpr.
  change (is_Some (let '(forced, p) := preflight_header p in
    if forced then Some true else preflight_loop fuel p)).
  destruct (preflight_header p) as [f q]. destruct f; [by eexists|]. apply IH. subst p. simpl in *. lia.
Qed.

(** ** CSP: lemmas *)

Definition word_ok (n : nat) (w : bytes) : Prop :=
  (1 <= length w <= n)%nat ∧ Forall (λ c, not_in [32; 59] c = true) w.
Definition csp_dir_ok (d : CspDir) : Prop :=
  word_ok 23 (csp_name d) ∧ Forall (word_ok 127) (csp_src d) ∧ (length (csp_src d) <= CSP_MAX_SRC)%nat.

Definition spaced (srcs : list bytes) : bytes := mjoin (cons 32 <$> srcs).
Definition print_dir (d : CspDir) : bytes := csp_name d ++ spaced (csp_src d) ++ [59].
Definition print_csp (ds : list CspDir) : bytes := mjoin (print_dir <$> ds).

Lemma word_hd n w r : word_ok n w → hd0 (w ++ r) ≠ 32 ∧ hd0 (w ++ r) ≠ 59.
Proof.
  intros [Hl Hw]. destruct w as [|c w]; simpl in *; [lia|].
  apply Forall_cons in Hw as [Hc%bool_decide_eq_true _].
  rewrite !not_elem_of_cons in Hc. tauto.
Qed.

(** The text after the blanks that follow a name or a source. *)
Lemma skip_spaced srcs r : Forall (word_ok 127) srcs →
  skip is_space (spaced srcs ++ 59 :: r)
  = match srcs with [] => 59 :: r | s :: srcs => s ++ spaced srcs ++ 59 :: r end.
Proof.
  intros Hs. destruct srcs as [|s srcs]; [done|].
  apply Forall_cons in Hs as [Hs _]. unfold spaced. rewrite fmap_cons.
  change (mjoin ((32 :: s) :: (cons 32 <$> srcs))) with ((32 :: s) ++ mjoin (cons 32 <$> srcs)).
  rewrite <- app_assoc. simpl. apply skip_none. intros c r' E. apply bool_decide_eq_false_2.
  intros ->. destruct (word_hd 127 s (mjoin (cons 32 <$> srcs) ++ 59 :: r) Hs) as [H _].
  rewrite E in H. done.
Qed.

Lemma spaced_head srcs r : hd0 (spaced srcs ++ 59 :: r) ∈ [32; 59].
Proof. destruct srcs; simpl; [right; left|left]. Qed.

Lemma csp_sources_print srcs r : ∀ fuel acc, Forall (word_ok 127) srcs →
  (length srcs < fuel)%nat → (length acc + length srcs <= CSP_MAX_SRC)%nat →
  csp_sources fuel acc (match srcs with [] => 59 :: r | s :: srcs => s ++ spaced srcs ++ 59 :: r end)
  = Some (acc ++ srcs, 59 :: r).
Proof.
  induction srcs as [|s srcs IH]; intros fuel acc Hs Hf Hm; (destruct fuel as [|fuel]; [simpl in Hf; lia|]).
  - cbn [csp_sources]. rewrite decide_True by (by right). by rewrite app_nil_r.
  - apply Forall_cons in Hs as [Hs Hss]. cbn [csp_sources].
    destruct (word_hd 127 s (spaced srcs ++ 59 :: r) Hs) as [H32 H59].
    rewrite decide_False; [|intros [E|E]; [|done]].
    2:{ destruct Hs as [Hl _]. by destruct s; [simpl in Hl; lia|]. }
    rewrite skip_none.
    2:{ intros c r' E. apply bool_decide_eq_false_2. intros ->. by rewrite E in H32. }
    destruct Hs as [Hl Hw]. rewrite scan_app; [|done|lia|].
    2:{ intros c r' E. pose proof (spaced_head srcs r) as H. by eapply not_in_hd. }
    simpl in Hm. rewrite decide_True by (split; [by intros ->; simpl in Hl; lia|lia]).
    rewrite skip_spaced by done. rewrite IH; [by rewrite <- app_assoc|done|simpl in Hf; lia|].
    rewrite length_app. simpl. lia.
Qed.

Lemma length_spaced srcs : (length srcs <= length (spaced srcs))%nat.
Proof.
  induction srcs as [|s srcs IH]; [done|]. unfold spaced. rewrite fmap_cons.
  change (mjoin ((32 :: s) :: (cons 32 <$> srcs))) with ((32 :: s) ++ mjoin (cons 32 <$> srcs)).
  rewrite length_app. fold (spaced srcs). simpl. lia.
Qed.

Lemma csp_set_loop_print ds : ∀ fuel acc, Forall csp_dir_ok ds →
  (length ds <= fuel)%nat → (length acc + length ds <= CSP_MAX_DIRS)%nat →
  csp_set_loop fuel acc (print_csp ds) = Some (acc ++ ds).
Proof.
  induction ds as [|d ds IH]; intros fuel acc Hd Hf Hm.
  { destruct fuel; simpl; by rewrite app_nil_r. }
  apply Forall_cons in Hd as [(Hn&Hs&Hl) Hds]. destruct fuel as [|fuel]; [simpl in Hf; lia|].
  unfold print_csp. rewrite fmap_cons.
  change (mjoin (print_dir d :: (print_dir <$> ds))) with (print_dir d ++ print_csp ds).
  unfold print_dir. rewrite <- !app_assoc. change ([59] ++ print_csp ds) with (59 :: print_csp ds).
  simpl length in *. cbn [csp_set_loop].
  destruct (word_hd 23 (csp_name d) (spaced (csp_src d) ++ 59 :: print_csp ds) Hn) as [H32 H59].
  destruct (csp_name d ++ spaced (csp_src d) ++ 59 :: print_csp ds) as [|b l] eqn:E.
  { destruct Hn as [Hn _]. apply (f_equal length) in E. rewrite length_app in E. simpl in E. lia. }
  rewrite <- E in *. clear E b l. rewrite decide_False by lia.
  rewrite skip_none.
  2:{ intros c r' E. apply bool_decide_eq_false_2. rewrite E in H32, H59. simpl in *. tauto. }
  destruct Hn as [Ln Hn]. rewrite scan_app; [|done|lia|].
  2:{ intros c r' E. pose proof (spaced_head (csp_src d) (print_csp ds)). by eapply not_in_hd. }
  rewrite decide_False by (intros E; rewrite E in Ln; simpl in Ln; lia).
  rewrite skip_spaced by done. rewrite csp_sources_print; [|done| |simpl; lia].
  - rewrite expect_cons. simpl default. rewrite IH; [|done|lia|rewrite length_app; simpl; lia].
    rewrite <- app_assoc. by destruct d.
  - destruct (csp_src d) as [|s srcs]; simpl; [lia|]. rewrite !length_app. simpl.
    pose proof (length_spaced srcs). lia.
Qed.

(** What is stored always fits. *)
Definition csp_dir_fits (d : CspDir) : Prop :=
  (length (csp_name d) <= 23)%nat ∧ (length (csp_src d) <= CSP_MAX_SRC)%nat
  ∧ Forall (λ s, length s <= 127)%nat (csp_src d).

Lemma csp_sources_total fuel : ∀ src p, (length p < fuel)%nat → (length src <= CSP_MAX_SRC)%nat →
  Forall (λ s, length s <= 127)%nat src →
  ∃ src' p', csp_sources fuel src p = Some (src', p') ∧ (length p' <= length p)%nat
    ∧ (length src' <= CSP_MAX_SRC)%nat ∧ Forall (λ s, length s <= 127)%nat src'.
Proof.
  induction fuel as [|fuel IH]; intros src p Hf Hs Hb; [lia|]. cbn [csp_sources].
  case_decide as Hend; [by eexists _, _|]. cbv zeta.
  destruct (scan (not_in [32; 59]) 127 (skip is_space p)) as [tok q] eqn:Es.
  pose proof (scan_rest_stop _ _ _ _ _ Es) as Hstop. apply scan_split in Es as (Eq&Ltok&_).
  pose proof (length_skip is_space p) as H1. pose proof (length_skip is_space q) as H2.
  rewrite Eq, length_app in H1.
  assert (length (skip is_space q) < length p)%nat as Hlt.
  { destruct tok as [|t tok]; [|simpl in H1; lia]. simpl in Eq.
    destruct p as [|c p]; [by destruct Hend; left|]. simpl in Eq.
    destruct (is_space c) eqn:Ec.
    - rewrite <- Eq in H2 |- *. pose proof (length_skip is_space p). simpl. lia.
    - exfalso. destruct Hstop as [->|Hq]; [simpl; lia|done|]. rewrite <- Eq in Hq. simpl in Hq.
      apply bool_decide_eq_false, dec_stable in Hq. apply bool_decide_eq_false in Ec.
      rewrite !elem_of_cons, elem_of_nil in Hq. apply Hend. right. simpl. tauto. }
  set (src' := if decide _ then _ else _).
  assert (length src' <= CSP_MAX_SRC ∧ Forall (λ s, length s <= 127) src')%nat as [Hs' Hb'].
  { unfold src'. case_decide as Hd; [|done]. rewrite length_app. simpl. split; [lia|].
    apply Forall_app. split; [done|]. by constructor. }
  destruct (IH src' (skip is_space q)) as (s2&p2&->&Hl&Hs2&Hb2); [lia|done..|].
  eexists _, _. split; [reflexivity|]. split_and!; [lia|done..].
Qed.

Lemma csp_set_loop_total fuel : ∀ g p, (length p <= fuel)%nat → (length g <= CSP_MAX_DIRS)%nat →
  Forall csp_dir_fits g →
  ∃ g', csp_set_loop fuel g p = Some g' ∧ (length g' <= CSP_MAX_DIRS)%nat ∧ Forall csp_dir_fits g'.
Proof.
  induction fuel as [|fuel IH]; intros g p Hf Hg Hb.
  { destruct p; [by eexists|simpl in Hf; lia]. }
  destruct p as [|c p']; [by eexists|]. cbn [csp_set_loop]. set (p := c :: p') in *.
  case_decide as Hfull; [by eexists|]. cbv zeta.
  set (p0 := skip _ p). assert (length p0 <= length p)%nat as H0 by apply length_skip. clearbody p0.
  destruct (scan (not_in [32; 59]) 23 p0) as [name q] eqn:Es. apply scan_split in Es as (->&Ln&_).
  case_decide as Hne; [by eexists|]. rewrite length_app in H0.
  assert (1 <= length name)%nat by (destruct name; simpl; [done|lia]).
  pose proof (length_skip is_space q) as H1.
  destruct (csp_sources_total (S (length (skip is_space q))) [] (skip is_space q))
    as (src&r&->&Hr&Hs&Hbs); [lia|simpl; unfold CSP_MAX_SRC; lia|by apply Forall_nil|].
  assert (length (default r (expect 59 r)) <= length r)%nat as H2.
  { destruct (expect 59 r) as [r'|] eqn:Ee; [|done]. apply expect_Some in Ee as ->. simpl. lia. }
  apply IH; [lia|rewrite length_app; simpl; lia|].
  apply Forall_app. split; [done|]. apply Forall_singleton; by split_and!.
Qed.

(** The scan of the sources, as two membership questions. *)
Definition keyword (s : bytes) : bool :=
  streq s (str "'none'") || streq s (str "'self'") || streq s (str "*").

Definition csp_match (o : option MiniOrigin) (s : bytes) : bool :=
  negb (keyword s) &&
  match o with
  | None => false
  | Some o => match csp_source_matches s o with Ok b => b | UB => false end
  end.

Definition csp_defined (o : option MiniOrigin) (s : bytes) : Prop :=
  keyword s = true ∨ ∀ o', o = Some o' → ∃ b, csp_source_matches s o' = Ok b.

Lemma csp_scan_eq o srcs : ∀ fs fn fst, Forall (csp_defined o) srcs →
  csp_scan srcs o fs fn fst
  = Ok (if existsb (csp_match o) srcs then inl ()
        else inr (fs || existsb (λ s, streq s (str "'self'")) srcs,
                  fn || existsb (λ s, streq s (str "'none'")) srcs,
                  fst || existsb (λ s, streq s (str "*")) srcs)).
Proof.
  induction srcs as [|s srcs IH]; intros fs fn fst Hd; simpl; [by rewrite !orb_false_r|].
  apply Forall_cons in Hd as [Hs Hd]. unfold csp_match at 1, keyword.
  destruct (streq s (str "'none'")) eqn:En.
  { apply streq_true in En as ->. simpl. rewrite IH by done. by rewrite orb_true_r. }
  destruct (streq s (str "'self'")) eqn:Es.
  { apply streq_true in Es as ->. simpl. rewrite IH by done. by rewrite orb_true_r. }
  destruct (streq s (str "*")) eqn:Et.
  { apply streq_true in Et as ->. simpl. rewrite IH by done. by rewrite orb_true_r. }
  simpl. destruct o as [o'|]; [|simpl; by rewrite IH].
  destruct Hs as [Hk|Hs]; [unfold keyword in Hk; by rewrite En, Es, Et in Hk|].
  destruct (Hs o' eq_refl) as [b ->]. simpl. destruct b; [done|]. by rewrite IH.
Qed.

(** ** Properties: CORS and CSP *)

(** For a header list printed as [name ": " value CRLF ...], a preflight is
    needed exactly when the method is not GET, HEAD or POST, or some header is
    outside the safelist, or a Content-Type value does not start with one of the
    three form types; and on every input the scan terminates with an answer. *)
Theorem cors_preflight_spec m hs : Forall hdr_ok hs →
  mini_cors_preflight_needed m (Some (mjoin (print_hdr <$> hs)))
    = Some (negb (is_simple_method m) || existsb forces hs)
  ∧ ∀ m' h', is_Some (mini_cors_preflight_needed m' h').
Proof.
  intros Hf. unfold mini_cors_preflight_needed. split.
  - destruct (is_simple_method m); simpl; [|done]. by apply preflight_loop_print.
  - intros m' h'. destruct (is_simple_method m'); simpl; [|by eexists].
    destruct h'; [by apply preflight_loop_total|by eexists].
Qed.

Lemma cors_preflight_spec_witness :
  mini_cors_preflight_needed (Some (str "POST"))
    (Some (mjoin (print_hdr <$> [(str "Accept", str "x"); (str "content-type", str "text/html")])))
  = Some true.
Proof.
  apply (cors_preflight_spec (Some (str "POST"))
    [(str "Accept", str "x"); (str "content-type", str "text/html")]).
  repeat (apply Forall_cons; split);
    [| |apply Forall_nil; exact I]; unfold hdr_ok, name_char, value_char; simpl fst; simpl snd;
    (split; [split; apply Nat.leb_le; reflexivity|]);
    (split; [apply (bool_decide_unpack _); reflexivity|]);
    (split; [apply (bool_decide_unpack _); reflexivity|]); split; discriminate.
Defined.

(** A response is exposed exactly when [Access-Control-Allow-Origin] is ["*"]
    and no credentials were sent, or it is the requester's [scheme://host] up to
    case; the port takes no part in it. *)
Theorem cors_response_spec o aca cred : (length (scheme o) <= 7)%nat →
  (length (host o) <= 255)%nat → aca ≠ [] →
  mini_cors_response_allowed (Some o) (Some aca) cred = true ↔
    (aca = str "*" ∧ cred = false)
    ∨ (aca ≠ str "*" ∧ strcaseeq aca (scheme o ++ str "://" ++ host o) = true).
Proof.
  intros Ls Lh Hne. unfold mini_cors_response_allowed, mini_origin_str.
  destruct aca as [|a aca]; [done|]. set (s := a :: aca) in *. clearbody s.
  assert (length (scheme o ++ str "://" ++ host o) <= 280 - 1)%nat as Hl.
  { rewrite !length_app. simpl. lia. }
  rewrite (take_ge _ _ Hl).
  assert (streq (scheme o ++ str "://" ++ host o) (str "null") = false) as ->.
  { apply not_true_is_false. intros E%streq_true. 
    assert (58 ∈ scheme o ++ str "://" ++ host o) as Hin.
    { rewrite !elem_of_app. right. left. by apply (bool_decide_unpack _). }
    rewrite E in Hin. revert Hin. by apply (bool_decide_unpack _). }
  rewrite andb_false_r, orb_false_r.
  destruct (streq s (str "*")) eqn:Es.
  - apply streq_true in Es as ->. destruct cred; simpl; split; try done; try tauto.
    + by intros [[_ ?]|[? _]].
  - assert (s ≠ str "*") by (intros E; by rewrite (proj2 (streq_true _ _) E) in Es).
    split; [by right|]. intros [[? _]|[_ ?]]; done.
Qed.

Lemma cors_response_spec_witness :
  let o := Origin (str "https") (str "a.com") 8443 in
  mini_cors_response_allowed (Some o) (Some (str "https://A.com")) true = true ↔
    (str "https://A.com" = str "*" ∧ true = false)
    ∨ (str "https://A.com" ≠ str "*"
       ∧ strcaseeq (str "https://A.com") (scheme o ++ str "://" ++ host o) = true).
Proof.
  apply (cors_response_spec (Origin (str "https") (str "a.com") 8443) (str "https://A.com") true).
  - apply Nat.leb_le. reflexivity.
  - apply Nat.leb_le. reflexivity.
  - discriminate.
Defined.

(** Storing a printed policy (up to 8 directives of up to 16 sources) gives
    that policy back; and on every text the parser terminates with a table that
    fits its arrays. *)
Theorem csp_set_print ds : Forall csp_dir_ok ds → (length ds <= CSP_MAX_DIRS)%nat →
  mini_csp_set (Some (print_csp ds)) = Some ds
  ∧ ∀ csp, ∃ g, mini_csp_set csp = Some g ∧ (length g <= CSP_MAX_DIRS)%nat ∧ Forall csp_dir_fits g.
Proof.
  intros Hd Hl. split.
  - unfold mini_csp_set. rewrite csp_set_loop_print; [done|done| |done].
    clear Hl. induction Hd as [|d ds Hd _ IH]; [done|]. unfold print_csp. rewrite fmap_cons.
    change (mjoin (print_dir d :: (print_dir <$> ds))) with (print_dir d ++ print_csp ds).
    rewrite length_app. unfold print_dir. rewrite !length_app. simpl. lia.
  - intros [csp|]; simpl; [|exists []; split_and!; [done|unfold CSP_MAX_DIRS; simpl; lia|done]].
    apply csp_set_loop_total; [lia|unfold CSP_MAX_DIRS; simpl; lia|done].
Qed.

Lemma csp_set_print_witness :
  let ds := [Csp (str "default-src") [str "'self'"];
             Csp (str "img-src") [str "https://cdn.x"; str "*"]] in
  mini_csp_set (Some (print_csp ds)) = Some ds.
Proof.
  apply (csp_set_print [Csp (str "default-src") [str "'self'"];
             Csp (str "img-src") [str "https://cdn.x"; str "*"]]).
  - repeat (apply Forall_cons; split); [| |apply Forall_nil; exact I];
      (split; [|split; [|apply Nat.leb_le; reflexivity]]); unfold word_ok;
      apply (bool_decide_unpack _); reflexivity.
  - apply Nat.leb_le. reflexivity.
Defined.

(** The decision of [mini_csp_allows], for a governing directive [d] (the
    named one, else default-src): an origin source that matches the URL's scheme
    and host allows it; otherwise ['none'] forbids, ["*"] allows, ['self'] allows
    the page's own origin, and anything else is forbidden.  Without a governing
    directive everything is allowed. *)
Theorem csp_allows_spec g directive page url o d :
  mini_origin_parse (Some (default [] url)) = Ok o →
  (csp_find g directive = Some d ∨ csp_find g directive = None ∧ csp_find g (str "default-src") = Some d) →
  Forall (csp_defined o) (csp_src d) →
  mini_csp_allows g directive page url
  = Ok (existsb (csp_match o) (csp_src d)
        || negb (existsb (λ s, streq s (str "'none'")) (csp_src d))
           && (existsb (λ s, streq s (str "*")) (csp_src d)
               || existsb (λ s, streq s (str "'self'")) (csp_src d)
                  && match page, o with Some p, Some o => mini_origin_same p o | _, _ => false end))
  ∧ mini_csp_allows [] directive page url = Ok true.
Proof.
  intros Ho Hd Hs. split; [|done]. unfold mini_csp_allows.
  assert (match csp_find g directive with Some d => Some d
          | None => csp_find g (str "default-src") end = Some d) as ->.
  { by destruct Hd as [->|[-> ?]]. }
  rewrite Ho. simpl. rewrite csp_scan_eq by done. simpl.
  destruct (existsb (csp_match o) (csp_src d)); [done|].
  destruct (existsb _ _), (existsb _ _), (existsb _ _), page, o; done.
Qed.

Lemma csp_allows_spec_witness :
  mini_csp_allows [Csp (str "img-src") [str "'self'"]] (str "img-src")
    (Some (Origin (str "https") (str "a") 443)) (Some (str "https://a/x")) = Ok true.
Proof.
  apply (csp_allows_spec [Csp (str "img-src") [str "'self'"]] (str "img-src")
    (Some (Origin (str "https") (str "a") 443)) (Some (str "https://a/x"))
    (Some (Origin (str "https") (str "a") 443)) (Csp (str "img-src") [str "'self'"])).
  - reflexivity.
  - left. reflexivity.
  - apply Forall_cons. split; [left; reflexivity|apply Forall_nil; exact I].
Defined.

(** A leading blank hides the content type from the second test. *)
Lemma cors_leading_space_bypass :
  mini_cors_preflight_needed (Some (str "POST")) (Some (str " Content-Type: application/json"))
  = Some false.
Proof. by vm_compute. Qed.

(** A [data:] source never allows anything: it has no "://". *)
Lemma csp_data_source_dead o : csp_source_matches (str "data:") o = Ok false.
Proof. done. Qed.

(** [now + max_age] overflows [time_t]. *)
Lemma hsts_age_overflow now st h : 0 < now →
  mini_hsts_remember now st (Some h) (Some (str "max-age=9223372036854775807")) = UB.
Proof.
  intros Hn. unfold mini_hsts_remember. rewrite decide_False by done.
  assert (hsts_age (str "max-age=9223372036854775807") = 2 ^ 63 - 1) as -> by by vm_compute.
  cbv zeta. rewrite !decide_False by lia. done.
Qed.
