(* ===== verification/WsCodec.v ===== *)
(** * WebSocket codec (src/src/mini_websocket.c, codec part)

    SHA-1, base64, the handshake accept key and the RFC 6455 frame codec.
    SHA-1's streaming interface is proved equal to hashing the padded message
    block by block, base64 and the frame encoder are inverted by a decoder. *)

From S2P Require Import Prelude CString.

(** ** SHA-1 *)

Record Sha1 := SHA { sh : list Z; slen : Z; sbuf : bytes }.

Definition sha1_init : Sha1 :=
  SHA [0x67452301; 0xEFCDAB89; 0x98BADCFE; 0x10325476; 0xC3D2E1F0] 0 [].

Definition rotl (x n : Z) : Z := Z.lor (x << n)%w32 (x >> (32 - n))%w32.

Definition be32 (b : bytes) : Z :=
  Z.lor (Z.lor (Z.shiftl (rd b 0) 24) (Z.shiftl (rd b 1) 16))
        (Z.lor (Z.shiftl (rd b 2) 8) (rd b 3)).

(** [w[0..15]] from the block, then [w[16..79]] one by one. *)
Definition sha1_schedule (b : bytes) : list Z :=
  foldl (λ w i, w ++ [rotl (w !!! (i - 3)%nat ^^ w !!! (i - 8)%nat
                            ^^ w !!! (i - 14)%nat ^^ w !!! (i - 16)%nat)%w32 1])
    (map (λ i, be32 (drop (4 * i) b)) (seq 0 16)) (seq 16 64).

Definition sha1_round (w : list Z) (v : Z * Z * Z * Z * Z) (i : nat) : Z * Z * Z * Z * Z :=
  let '(a, b2, c, d, e) := v in
  let '(f, k) :=
    if decide (i < 20)%nat then (Z.lor (Z.land b2 c) (Z.land (not32 b2) d), 0x5A827999)
    else if decide (i < 40)%nat then ((b2 ^^ c ^^ d)%w32, 0x6ED9EBA1)
    else if decide (i < 60)%nat
      then (Z.lor (Z.lor (Z.land b2 c) (Z.land b2 d)) (Z.land c d), 0x8F1BBCDC)
    else ((b2 ^^ c ^^ d)%w32, 0xCA62C1D6) in
  let t := (rotl a 5 + e + k + f + w !!! i)%w32 in
  (t, a, rotl b2 30, c, d).

Definition sha1_block (h : list Z) (b : bytes) : list Z :=
  let w := sha1_schedule b in
  let '(a, b2, c, d, e) :=
    foldl (sha1_round w) (h !!! 0%nat, h !!! 1%nat, h !!! 2%nat, h !!! 3%nat, h !!! 4%nat)
      (seq 0 80) in
  [ (h !!! 0%nat + a)%w32; (h !!! 1%nat + b2)%w32; (h !!! 2%nat + c)%w32;
    (h !!! 3%nat + d)%w32; (h !!! 4%nat + e)%w32 ].

(** [while (n)]: fill the buffer, compress when it is full. *)
Fixpoint sha1_update_loop (fuel : nat) (h : list Z) (buf p : bytes) : list Z * bytes :=
  match fuel with
  | O => (h, buf)
  | S fuel =>
    match p with
    | [] => (h, buf)
    | _ =>
      let n := (64 - length buf)%nat in
      let n := if decide (length p < n)%nat then length p else n in
      let buf := buf ++ take n p in
      if decide (length buf = 64%nat)
      then sha1_update_loop fuel (sha1_block h buf) [] (drop n p)
      else sha1_update_loop fuel h buf (drop n p)
    end
  end.

Definition sha1_update (s : Sha1) (data : bytes) : Sha1 :=
  let '(h, buf) := sha1_update_loop (length data) (sh s) (sbuf s) data in
  SHA h (u64 (slen s + Z.of_nat (length data))) buf.

(** [while (s->buflen != 56) sha1_update (s, &pad, 1)]: at most 63 turns. *)
Fixpoint sha1_pad (fuel : nat) (s : Sha1) : Sha1 :=
  match fuel with
  | O => s
  | S fuel =>
    if decide (length (sbuf s) = 56%nat) then s else sha1_pad fuel (sha1_update s [0])
  end.

Definition be_bytes (n : nat) (v : Z) : bytes :=
  map (λ i, u8 (Z.shiftr v (8 * Z.of_nat (n - 1 - i)))) (seq 0 n).

Definition sha1_final (s : Sha1) : bytes :=
  let bits := u64 (slen s * 8) in
  let s := sha1_update s [0x80] in
  let s := sha1_pad 64 s in
  let s := sha1_update s (be_bytes 8 bits) in
  mjoin (map (be_bytes 4) (take 5 (sh s))).

(** ** Base64 *)

Definition B64CH : bytes := str "ABCDEFGHIJKLMNOPQRSTUVWXYZabcdefghijklmnopqrstuvwxyz0123456789+/".

Definition b64ch (v : Z) : Z := rd B64CH (Z.to_nat (Z.land v 63)).

Fixpoint b64enc (input : bytes) : bytes :=
  match input with
  | a :: b :: c :: rest =>
    let v := Z.lor (Z.lor (Z.shiftl a 16) (Z.shiftl b 8)) c in
    [b64ch (Z.shiftr v 18); b64ch (Z.shiftr v 12); b64ch (Z.shiftr v 6); b64ch v] ++ b64enc rest
  | [a; b] =>
    let v := Z.lor (Z.shiftl a 16) (Z.shiftl b 8) in
    [b64ch (Z.shiftr v 18); b64ch (Z.shiftr v 12); b64ch (Z.shiftr v 6); 61]
  | [a] =>
    let v := Z.shiftl a 16 in
    [b64ch (Z.shiftr v 18); b64ch (Z.shiftr v 12); 61; 61]
  | [] => []
  end.

(** ** Keys *)

(** The linear congruential generator of the key and of the masks. *)
Fixpoint lcg_bytes (n : nat) (seed : Z) : bytes :=
  match n with
  | O => []
  | S n =>
    let seed := (seed * 1103515245 + 12345)%w32 in u8 (Z.shiftr seed 16) :: lcg_bytes n seed
  end.

(** [counter] is the value after the increment, [addr] the low bits of its address. *)
Definition mini_ws_make_key (now addr counter : Z) : bytes :=
  let seed := (u32 now ^^ u32 addr ^^ counter * 2654435761)%w32 in
  b64enc (lcg_bytes 16 seed).

Definition WS_GUID : bytes := str "258EAFA5-E914-47DA-95CA-C5AB0DC85B11".

Definition mini_ws_accept_key (key : bytes) : bytes :=
  let s := sha1_update sha1_init key in
  let s := sha1_update s WS_GUID in
  b64enc (sha1_final s).

(** RFC 6455 §1.2, the vector of the self-test. *)
Example accept_key_rfc :
  mini_ws_accept_key (str "dGhlIHNhbXBsZSBub25jZQ==") = str "s3pPLMBiTxaQ9kYGzzhZRbK+xOo=".
Proof. vm_compute. reflexivity. Qed.

(** ** Frames *)

Definition ws_mask (now mc : Z) : bytes := lcg_bytes 4 (u32 now ^^ mc * 2654435761)%w32.

Definition xor_mask (mk p : bytes) : bytes := imap (λ i b, Z.lxor b (rd mk (i mod 4))) p.

(** The bytes written to [out], and the value returned: -1, or [(int)o]. *)
Definition mini_ws_encode_frame (mk : bytes) (opcode : Z) (fin : bool) (payload : bytes) (cap : Z)
    : bytes * Z :=
  let plen := Z.of_nat (length payload) in
  let need := 2 + (if decide (plen < 126) then 0 else if decide (plen <= 0xFFFF) then 2 else 8) in
  let need := u64 (need + (4 + plen)) in
  if decide (cap < need) then ([], -1) else
  let out := [u8 (Z.lor (if fin then 0x80 else 0) (Z.land opcode 0xF))]
    ++ (if decide (plen < 126) then [u8 (Z.lor 0x80 (u8 plen))]
        else if decide (plen <= 0xFFFF)
          then [Z.lor 0x80 126; u8 (Z.shiftr plen 8); u8 plen]
          else Z.lor 0x80 127 :: be_bytes 8 plen)
    ++ mk ++ xor_mask mk payload in
  (out, i32 (Z.of_nat (length out))).

Inductive decoded :=
| Need                    (** 1: more bytes are needed *)
| DecodeFail              (** -1: no memory *)
| Frame (opcode : Z) (fin : bool) (consumed : nat) (payload : bytes).

#[export] Instance decoded_eq_dec : EqDecision decoded.
Proof. solve_decision. Defined.

Definition be_len (l : bytes) : Z := foldl (λ v b, Z.lor (u64 (Z.shiftl v 8)) b) 0 l.

(** The payload length and the size of the length field; [None] when the
    buffer ends inside it. *)
Definition frame_len (buf : bytes) : option (Z * nat) :=
  let plen := Z.land (rd buf 1) 0x7F in
  if decide (plen = 126) then
    if decide (length buf < 4)%nat then None
    else Some (Z.lor (Z.shiftl (rd buf 2) 8) (rd buf 3), 4%nat)
  else if decide (plen = 127) then
    if decide (length buf < 10)%nat then None else Some (be_len (slice 2 8 buf), 10%nat)
  else Some (plen, 2%nat).

Definition mini_ws_decode_frame (malloc : Z → bool) (buf : bytes) : res decoded :=
  if decide (length buf < 2)%nat then Ok Need else
  let finb := negb (bool_decide (Z.land (Z.shiftr (rd buf 0) 7) 1 = 0)) in
  let op := Z.land (rd buf 0) 0xF in
  let masked := negb (bool_decide (Z.land (Z.shiftr (rd buf 1) 7) 1 = 0)) in
  match frame_len buf with
  | None => Ok Need
  | Some (plen, hlen) =>
    let hlen := if masked then (hlen + 4)%nat else hlen in
    if decide (Z.of_nat (length buf) < u64 (Z.of_nat hlen + plen)) then Ok Need else
    if negb (malloc (u64 (plen + 1))) then Ok DecodeFail else
    if decide (Z.of_nat hlen + plen <= Z.of_nat (length buf)) then
      let src := slice hlen (Z.to_nat plen) buf in
      let mask := slice (hlen - 4) 4 buf in
      Ok (Frame op finb (hlen + Z.to_nat plen)
            (if masked then xor_mask mask src else src))
    else UB
  end.

(** ** SHA-1: lemmas *)

(** Compress the full blocks of [l]; what is left is shorter than a block. *)
Fixpoint absorb (fuel : nat) (h : list Z) (l : bytes) : list Z * bytes :=
  match fuel with
  | O => (h, l)
  | S fuel =>
    if decide (length l < 64)%nat then (h, l)
    else absorb fuel (sha1_block h (take 64 l)) (drop 64 l)
  end.

Lemma absorb_short fuel h l : (length l < 64)%nat → absorb fuel h l = (h, l).
Proof. intros Hl. destruct fuel; simpl; [done|]. by rewrite decide_True by done. Qed.

Lemma absorb_block fuel h b l : length b = 64%nat → 
  absorb (S fuel) h (b ++ l) = absorb fuel (sha1_block h b) l.
Proof.
  intros Hb. cbn [absorb]. rewrite decide_False by (rewrite length_app; lia).
  by rewrite take_app_length', drop_app_length' by done.
Qed.

Lemma absorb_fuel fuel : ∀ fuel' h l, (length l <= fuel)%nat → (length l <= fuel')%nat →
  absorb fuel h l = absorb fuel' h l.
Proof.
  induction fuel as [|fuel IH]; intros fuel' h l H1 H2.
  { rewrite !absorb_short by lia. done. }
  destruct fuel' as [|fuel']; [rewrite !absorb_short by lia; done|]. cbn [absorb].
  case_decide; [done|]. apply IH; rewrite length_drop; lia.
Qed.

(** Absorbing a concatenation is absorbing its parts in turn. *)
Lemma absorb_app fuel : ∀ fuel' h a b, (length a <= fuel)%nat → (length (a ++ b) <= fuel')%nat →
  absorb fuel' h (a ++ b)
  = let '(h', r) := absorb fuel h a in absorb fuel' h' (r ++ b).
Proof.
  induction fuel as [|fuel IH]; intros fuel' h a b Ha Hab; [done|]. cbn [absorb].
  case_decide as Hs; [done|]. destruct fuel' as [|fuel'].
  { rewrite length_app in Hab. lia. }
  rewrite <- (take_drop 64 a) at 1. rewrite <- app_assoc, absorb_block by (rewrite length_take; lia).
  rewrite length_app in Hab.
  rewrite (IH fuel' (sha1_block h (take 64 a)) (drop 64 a) b)
    by (rewrite ?length_app, ?length_drop; lia).
  destruct (absorb fuel _ (drop 64 a)) as [h' r] eqn:E.
  apply absorb_fuel; rewrite length_app.
  all: assert (length r <= length (drop 64 a))%nat as Hr; [|rewrite length_drop in Hr; lia].
  all: clear -E; revert E; generalize (drop 64 a) as l; generalize (sha1_block h (take 64 a)) as h0;
    induction fuel as [|fuel IH]; intros h0 l E; cbn [absorb] in E;
    [by injection E as <- <-|]; case_decide; [by injection E as <- <-|];
    apply IH in E; rewrite length_drop in E; lia.
Qed.

Lemma absorb_rest fuel h l : (length l <= fuel)%nat →
  (length (snd (absorb fuel h l)) < 64)%nat
  ∧ length (snd (absorb fuel h l)) = (length l mod 64)%nat.
Proof.
  revert h l. induction fuel as [|fuel IH]; intros h l Hl; cbn [absorb].
  { cbn [snd]. rewrite Nat.mod_small by lia. split; lia. }
  case_decide as Hs; cbn [snd]; [by rewrite Nat.mod_small|].
  destruct (IH (sha1_block h (take 64 l)) (drop 64 l)) as [H1 H2]; [rewrite length_drop; lia|].
  split; [done|]. rewrite H2, length_drop.
  replace (length l) with (length l - 64 + 1 * 64)%nat at 2 by lia. by rewrite Nat.Div0.mod_add.
Qed.

Lemma sha1_update_loop_spec fuel : ∀ h buf p, (length p <= fuel)%nat → (length buf < 64)%nat →
  sha1_update_loop fuel h buf p = absorb (length (buf ++ p)) h (buf ++ p).
Proof.
  induction fuel as [|fuel IH]; intros h buf p Hf Hb.
  { destruct p; [|simpl in Hf; lia]. by rewrite app_nil_r, absorb_short. }
  destruct p as [|c p']; [by rewrite app_nil_r, absorb_short|]. cbn [sha1_update_loop].
  set (p := c :: p') in *. assert (1 <= length p)%nat by (simpl; lia). clearbody p. clear c p'.
  cbv zeta. destruct (decide (length p < 64 - length buf)%nat) as [Hn|Hn].
  - rewrite take_ge, drop_ge by lia. rewrite decide_False by (rewrite length_app; lia).
    rewrite IH by (simpl; rewrite ?length_app; lia). by rewrite app_nil_r.
  - assert (length (take (64 - length buf) p) = 64 - length buf)%nat as Lt
      by (rewrite length_take; lia).
    rewrite decide_True by (rewrite length_app; lia).
    rewrite IH by (simpl; rewrite ?length_drop; lia). simpl app.
    set (b := buf ++ take (64 - length buf) p) in *.
    assert (length b = 64%nat) as Lb by (unfold b; rewrite length_app; lia).
    assert (buf ++ p = b ++ drop (64 - length buf) p) as ->.
    { unfold b. rewrite <- app_assoc. by rewrite take_drop. }
    rewrite length_app, Lb. rewrite (Nat.add_succ_l 63), absorb_block by done.
    apply absorb_fuel; lia.
Qed.

(** The state reached by hashing the bytes [m] so far. *)
Definition sha1_at (m : bytes) (s : Sha1) : Prop :=
  (sh s, sbuf s) = absorb (length m) (sh sha1_init) m ∧ slen s = u64 (Z.of_nat (length m)).

Lemma sha1_at_init : sha1_at [] sha1_init.
Proof. done. Qed.

Lemma sha1_at_buf m s : sha1_at m s → length (sbuf s) = (length m mod 64)%nat ∧ (length (sbuf s) < 64)%nat.
Proof.
  intros [E _]. destruct (absorb_rest (length m) (sh sha1_init) m) as [H1 H2]; [done|].
  rewrite <- E in H1, H2. done.
Qed.

Lemma sha1_at_update m s d : sha1_at m s → sha1_at (m ++ d) (sha1_update s d).
Proof.
  intros Hs. destruct (sha1_at_buf m s Hs) as [_ Hb]. destruct Hs as [E El].
  unfold sha1_update. rewrite sha1_update_loop_spec by done.
  assert (absorb (length (m ++ d)) (sh sha1_init) (m ++ d)
    = absorb (length (sbuf s ++ d)) (sh s) (sbuf s ++ d)) as Ea.
  { rewrite (absorb_app (length m)) by done. rewrite <- E. apply absorb_fuel; [|done].
    rewrite !length_app. destruct (absorb_rest (length m) (sh sha1_init) m) as [_ H]; [done|].
    rewrite <- E in H. cbn [snd] in H. rewrite H. pose proof (Nat.Div0.mod_le (length m) 64). lia. }
  destruct (absorb _ (sh s) _) as [h' r] eqn:E'. split; cbn [sh sbuf slen]; [done|].
  rewrite El, length_app. unfold u64. rewrite Zplus_mod_idemp_l. f_equal. lia.
Qed.

Lemma sha1_at_pad fuel : ∀ m s, sha1_at m s → ((120 - length m mod 64) mod 64 < fuel)%nat →
  sha1_at (m ++ replicate ((120 - length m mod 64) mod 64) 0) (sha1_pad fuel s)
  ∧ length (sbuf (sha1_pad fuel s)) = 56%nat.
Proof.
  induction fuel as [|fuel IH]; intros m s Hs Hf; [lia|]. cbn [sha1_pad].
  destruct (sha1_at_buf m s Hs) as [Hb Hlt]. rewrite Hb.
  case_decide as H56.
  - rewrite H56. change ((120 - 56) mod 64)%nat with 0%nat. simpl. rewrite app_nil_r.
    split; [done|congruence].
  - pose proof (sha1_at_update m s [0] Hs) as Hs'.
    assert ((120 - length m mod 64) mod 64
      = S ((120 - length (m ++ [0%Z]) mod 64) mod 64))%nat as Ek.
    { rewrite length_app. simpl length. rewrite <- Nat.Div0.add_mod_idemp_l.
      set (x := (length m mod 64)%nat) in *.
      assert (x < 64 ∧ x ≠ 56)%nat as Hx by lia. clearbody x. clear -Hx.
      assert (Forall (λ x, x ≠ 56 → (120 - x) mod 64 = S ((120 - (x + 1) mod 64) mod 64))%nat
        (seq 0 64)) as H.
      { apply (bool_decide_unpack _). by vm_compute. }
      rewrite Forall_forall in H. apply H; [apply elem_of_seq; lia|lia]. }
    rewrite Ek. simpl replicate. rewrite (cons_middle 0 m), app_assoc.
    apply IH; [done|lia].
Qed.

(** FIPS 180-4 §5.1.1 and §6.1: pad, then compress block by block. *)
Definition sha1_padded (m : bytes) : bytes :=
  m ++ [0x80] ++ replicate ((120 - (length m + 1) mod 64) mod 64) 0
    ++ be_bytes 8 (8 * Z.of_nat (length m)).
Definition sha1_spec (m : bytes) : bytes :=
  let p := sha1_padded m in
  mjoin (map (be_bytes 4) (take 5 (fst (absorb (length p) (sh sha1_init) p)))).

Lemma length_be_bytes n v : length (be_bytes n v) = n.
Proof. unfold be_bytes. by rewrite length_map, length_seq. Qed.

Lemma sha1_at_padded m s : sha1_at m s →
  sha1_at (sha1_padded m)
    (sha1_update (sha1_pad 64 (sha1_update s [0x80])) (be_bytes 8 (8 * Z.of_nat (length m)))).
Proof.
  intros Hs. pose proof (sha1_at_update m s [0x80] Hs) as H1.
  destruct (sha1_at_pad 64 _ _ H1) as [H2 _]; [apply Nat.mod_upper_bound; lia|].
  apply (sha1_at_update _ _ (be_bytes 8 (8 * Z.of_nat (length m)))) in H2.
  rewrite <- !app_assoc, (length_app m [0x80]) in H2. exact H2.
Qed.

Lemma sha1_final_spec m s : sha1_at m s → Z.of_nat (length m) < 2 ^ 61 → sha1_final s = sha1_spec m.
Proof.
  intros Hs Hl. destruct (sha1_at_padded m s Hs) as [E _]. destruct Hs as [_ El].
  unfold sha1_final, sha1_spec. cbv zeta. rewrite <- E. cbn [fst].
  assert (u64 (slen s * 8) = 8 * Z.of_nat (length m)) as ->; [|reflexivity].
  rewrite El, (u64_small (Z.of_nat _)), u64_small by lia. lia.
Qed.

(** ** Base64: lemmas *)

(** The decoder of RFC 4648 §4. *)
Definition b64val (c : Z) : Z := match strchr B64CH c with Some i => Z.of_nat i | None => -1 end.
Definition b64bytes (a b c d : Z) : bytes :=
  let v := ((b64val a * 64 + b64val b) * 64 + b64val c) * 64 + b64val d in
  [v / 2 ^ 16 mod 2 ^ 8; v / 2 ^ 8 mod 2 ^ 8; v mod 2 ^ 8].
Fixpoint b64dec (fuel : nat) (s : bytes) : bytes :=
  match fuel, s with
  | S fuel, a :: b :: c :: d :: rest =>
    if decide (c = 61) then take 1 (b64bytes a b 65 65)
    else if decide (d = 61) then take 2 (b64bytes a b c 65)
    else b64bytes a b c d ++ b64dec fuel rest
  | _, _ => []
  end.

Lemma b64_alphabet v : b64val (b64ch v) = v mod 2 ^ 6 ∧ b64ch v ≠ 61.
Proof.
  assert (b64ch v = rd B64CH (Z.to_nat (v mod 2 ^ 6))) as E.
  { unfold b64ch. change 63 with (2 ^ 6 - 1). by rewrite land_mod. }
  rewrite E. assert (0 <= v mod 2 ^ 6 < 64) as Hv by mlia. clear E.
  set (x := v mod 2 ^ 6) in *. clearbody x.
  assert (Forall (λ x, b64val (rd B64CH (Z.to_nat x)) = x ∧ rd B64CH (Z.to_nat x) ≠ 61)
    (seqZ 0 64)) as H by (apply (bool_decide_unpack _); by vm_compute).
  rewrite Forall_forall in H. apply H, elem_of_seqZ. lia.
Qed.

Lemma b64_group v : 0 <= v < 2 ^ 24 →
  b64bytes (b64ch (Z.shiftr v 18)) (b64ch (Z.shiftr v 12)) (b64ch (Z.shiftr v 6)) (b64ch v)
  = [v / 2 ^ 16; v / 2 ^ 8 mod 2 ^ 8; v mod 2 ^ 8].
Proof.
  intros Hv. unfold b64bytes. cbv zeta. rewrite !(proj1 (b64_alphabet _)), !shiftr_div by lia.
  assert (((v / 2 ^ 18 mod 2 ^ 6 * 64 + v / 2 ^ 12 mod 2 ^ 6) * 64 + v / 2 ^ 6 mod 2 ^ 6) * 64
    + v mod 2 ^ 6 = v) as -> by mlia.
  f_equal. mlia.
Qed.

Lemma b64dec_enc n : ∀ l, (length l <= n)%nat → bytes_ok l → b64dec (S n) (b64enc l) = l.
Proof.
  induction n as [n IH] using lt_wf_ind. intros l Hl Hb.
  destruct l as [|a [|b [|c l]]]; [done| | |];
    unfold bytes_ok in Hb; rewrite !Forall_cons in Hb; unfold byte_ok in Hb; cbn [b64enc]; cbv zeta.
  - rewrite shiftl_mul by lia. destruct Hb as [Ha _].
    pose proof (b64_group (a * 2 ^ 16) ltac:(lia)) as E. 
    assert (b64ch (Z.shiftr (a * 2 ^ 16) 6) = 65 ∧ b64ch (a * 2 ^ 16) = 65) as [E1 E2].
    { unfold b64ch. change 63 with (2 ^ 6 - 1). rewrite !land_mod, shiftr_div by lia.
      replace (a * 2 ^ 16 / 2 ^ 6 mod 2 ^ 6) with 0 by mlia.
      by replace (a * 2 ^ 16 mod 2 ^ 6) with 0 by mlia. }
    rewrite E1, E2 in E. cbn [b64dec]. rewrite decide_True by done. rewrite E. simpl.
    f_equal. mlia.
  - rewrite !shiftl_mul by lia. destruct Hb as (Ha&Hb&_).
    rewrite (lor_add (a * 2 ^ 16) _ 16) by mlia.
    set (v := a * 2 ^ 16 + b * 2 ^ 8). assert (0 <= v < 2 ^ 24) as Hv by (unfold v; lia).
    pose proof (b64_group v Hv) as E.
    assert (b64ch v = 65) as E2.
    { unfold b64ch. change 63 with (2 ^ 6 - 1). rewrite land_mod by lia.
      by replace (v mod 2 ^ 6) with 0 by (unfold v; mlia). }
    rewrite E2 in E. cbn [b64dec].
    rewrite decide_False by apply b64_alphabet. rewrite decide_True by done. rewrite E. simpl.
    f_equal; [unfold v; mlia|]. f_equal. unfold v; mlia.
  - rewrite !shiftl_mul by lia. destruct Hb as (Ha&Hb&Hc&Hl').
    rewrite (lor_add (a * 2 ^ 16) _ 16), (lor_add _ c 8) by mlia.
    set (v := a * 2 ^ 16 + b * 2 ^ 8 + c). assert (0 <= v < 2 ^ 24) as Hv by (unfold v; lia).
    cbn [b64dec app]. rewrite !decide_False by apply b64_alphabet.
    rewrite b64_group by done. simpl app. simpl in Hl.
    destruct n as [|n]; [lia|]. rewrite (IH n) by (done || lia).
    f_equal; [unfold v; mlia|]. f_equal; [unfold v; mlia|]. f_equal. unfold v; mlia.
Qed.

Lemma length_b64enc l : length (b64enc l) = (4 * ((length l + 2) / 3))%nat.
Proof.
  induction l as [l IH] using (induction_ltof1 _ (@length Z)). unfold ltof in IH.
  destruct l as [|a [|b [|c l]]]; [done..|]. cbn [b64enc]. cbv zeta.
  rewrite length_app, IH by (simpl; lia). simpl length.
  replace (S (S (S (length l))) + 2)%nat with (length l + 2 + 1 * 3)%nat by lia.
  rewrite Nat.div_add by lia. lia.
Qed.

(** ** Frames: lemmas *)

Lemma rd_app_l l t i : (i < length l)%nat → rd (l ++ t) i = rd l i.
Proof. intros Hi. unfold rd. rewrite !list_lookup_total_alt. by rewrite lookup_app_l. Qed.

Lemma slice_prefix {A} off n (l t : list A) : (off + n <= length l)%nat →
  slice off n (l ++ t) = slice off n l.
Proof.
  intros Hn. unfold slice. rewrite drop_app_le by lia.
  rewrite take_app_le; [done|]. rewrite length_drop. lia.
Qed.

Lemma frame_len_mono buf t x : (2 <= length buf)%nat → frame_len buf = Some x →
  frame_len (buf ++ t) = Some x.
Proof.
  intros Hl. unfold frame_len. rewrite (rd_app_l buf t 1) by lia. rewrite length_app.
  case_decide; [|case_decide; [|done]].
  - case_decide; [done|]. rewrite decide_False by lia. by rewrite !rd_app_l by lia.
  - case_decide; [done|]. rewrite decide_False by lia. by rewrite slice_prefix by lia.
Qed.

Lemma frame_len_range buf plen hlen : bytes_ok buf → frame_len buf = Some (plen, hlen) →
  0 <= plen < 2 ^ 64 ∧ (hlen = 2 ∨ hlen = 4 ∨ hlen = 10)%nat.
Proof.
  intros Hb. unfold frame_len.
  assert (0 <= Z.land (rd buf 1) 0x7F < 2 ^ 8) as H1 by (apply land_lt_l; [lia|by apply rd_ok]).
  case_decide.
  - case_decide; [done|]. intros [= <- <-]. split; [|lia].
    pose proof (rd_ok buf 2 Hb) as B2. pose proof (rd_ok buf 3 Hb) as B3. unfold byte_ok in *.
    rewrite shiftl_mul, (lor_add _ _ 8) by mlia. lia.
  - case_decide; [|intros [= <- <-]; lia].
    case_decide; [done|]. intros [= <- <-]. split; [|lia].
    assert (∀ l a, bytes_ok l → 0 <= a < 2 ^ 64 →
      0 <= foldl (λ v b, Z.lor (u64 (Z.shiftl v 8)) b) a l < 2 ^ 64) as Hfold.
    { induction l as [|b l IH]; intros a Hl Ha; [done|]. simpl.
      apply Forall_cons in Hl as [Hb0 Hl]. apply IH; [done|].
      apply lor_lt; [lia|apply u64_range|]. unfold byte_ok in Hb0. lia. }
    apply Hfold; [by apply bytes_ok_slice|lia].
Qed.

(** A verdict other than [Need] does not depend on the bytes that follow. *)
Lemma decode_mono malloc buf t r : bytes_ok buf → mini_ws_decode_frame malloc buf = Ok r → r ≠ Need →
  mini_ws_decode_frame malloc (buf ++ t) = Ok r.
Proof.
  intros Hb E Hr. unfold mini_ws_decode_frame in *. case_decide; [congruence|].
  rewrite length_app, decide_False by lia.
  destruct (frame_len buf) as [[plen hlen]|] eqn:El; [|congruence].
  rewrite (frame_len_mono buf t _ ltac:(lia) El). rewrite !rd_app_l by lia.
  apply frame_len_range in El as [Hp Hh]; [|done].
  cbv zeta in *. set (masked := negb (bool_decide (Z.land (Z.shiftr (rd buf 1) 7) 1 = 0))) in *.
  set (hl := if masked then _ else _) in *.
  assert (masked = true → 4 <= hl)%nat as Hhl by (unfold hl; intros ->; lia).
  clearbody hl masked.
  case_decide; [congruence|]. rewrite decide_False by lia.
  destruct (negb (malloc _)); [done|]. case_decide as Hin; [|done]. rewrite decide_True by lia.
  injection E as <-. do 2 f_equal. destruct masked; [|by rewrite slice_prefix by lia].
  specialize (Hhl eq_refl). by rewrite !slice_prefix by lia.
Qed.

(** [malloc] refuses what exceeds [PTRDIFF_MAX], and size 0. *)
Definition malloc_sane (malloc : Z → bool) : Prop :=
  (∀ s, 2 ^ 63 <= s → malloc s = false) ∧ malloc 0 = false.


Lemma decode_safe malloc buf : malloc_sane malloc → bytes_ok buf →
  Z.of_nat (length buf) < 2 ^ 63 →
  ∃ r, mini_ws_decode_frame malloc buf = Ok r ∧
    ∀ op fin c p, r = Frame op fin c p → (2 <= c <= length buf)%nat.
Proof.
  intros [Hlim H0] Hb Hl. unfold mini_ws_decode_frame. case_decide; [by exists Need|].
  destruct (frame_len buf) as [[plen hlen]|] eqn:El; [|by exists Need].
  apply frame_len_range in El as [Hp Hh]; [|done]. cbv zeta.
  set (hl := if negb _ then _ else _).
  assert (2 <= hl <= 14)%nat as Hhl by (unfold hl; destruct (negb _); lia). clearbody hl.
  case_decide as Hn; [by exists Need|].
  destruct (malloc (u64 (plen + 1))) eqn:Em; [|by exists DecodeFail]. simpl negb. cbv iota.
  case_decide as Hin.
  - eexists. split; [reflexivity|]. intros op fin c p [= _ _ <- _]. lia.
  - exfalso. destruct (decide (plen + 1 = 2 ^ 64)) as [E|E].
    + rewrite E in Em. change (u64 (2 ^ 64)) with 0 in Em. congruence.
    + rewrite u64_small in Em by lia. destruct (decide (Z.of_nat hl + plen < 2 ^ 64)).
      * rewrite u64_small in Hn by lia. lia.
      * rewrite Hlim in Em by lia. done.
Qed.

Lemma xor_mask_involutive mk p : xor_mask mk (xor_mask mk p) = p.
Proof.
  unfold xor_mask. apply list_eq. intros i. rewrite !list_lookup_imap.
  destruct (p !! i) as [b|]; [|done]. simpl. f_equal.
  by rewrite Z.lxor_assoc, Z.lxor_nilpotent, Z.lxor_0_r.
Qed.

Lemma be_bytes_S n v : be_bytes (S n) v = u8 (Z.shiftr v (8 * Z.of_nat n)) :: be_bytes n v.
Proof.
  unfold be_bytes. simpl seq. rewrite map_cons. f_equal; [do 2 f_equal; lia|].
  rewrite <- seq_shift, map_map. apply map_ext_in. intros i Hi. do 2 f_equal. lia.
Qed.

Lemma be_len_bytes n : ∀ a v, 0 <= a → 0 <= v → a * 2 ^ (8 * Z.of_nat n) + v mod 2 ^ (8 * Z.of_nat n) < 2 ^ 64 →
  foldl (λ v b, Z.lor (u64 (Z.shiftl v 8)) b) a (be_bytes n v)
  = a * 2 ^ (8 * Z.of_nat n) + v mod 2 ^ (8 * Z.of_nat n).
Proof.
  induction n as [|n IH]; intros a v Ha Hv Hlt; [simpl; rewrite Z.mod_1_r; lia|].
  rewrite be_bytes_S. simpl foldl. rewrite shiftr_div, shiftl_mul by lia.
  replace (8 * Z.of_nat (S n)) with (8 * Z.of_nat n + 8) in * by lia.
  set (k := 8 * Z.of_nat n) in *. assert (0 <= k) as Hk by lia. clearbody k.
  rewrite Z.pow_add_r in * by lia. rewrite Z.rem_mul_r in * by lia.
  assert (0 < 2 ^ k) by lia. set (d := v / 2 ^ k) in *.
  assert (0 <= d mod 2 ^ 8 < 2 ^ 8) by mlia. pose proof (Z.mod_pos_bound v (2 ^ k) ltac:(lia)).
  assert (a * 2 ^ 8 < 2 ^ 64) by nia.
  rewrite (u64_small (a * _)) by lia. unfold u8. rewrite (lor_add _ _ 8) by mlia.
  rewrite IH by nia. lia.
Qed.

(** A server-side or client-side frame with the given length field. *)
Definition len_field (mbit plen : Z) : bytes :=
  if decide (plen < 126) then [mbit + plen]
  else if decide (plen <= 0xFFFF) then (mbit + 126) :: be_bytes 2 plen
  else (mbit + 127) :: be_bytes 8 plen.
Definition masked (mk : option bytes) : bool := match mk with Some _ => true | None => false end.
(** Size of the extended length field. *)
Definition len_extra (plen : Z) : nat :=
  if decide (plen < 126) then 0%nat else if decide (plen <= 0xFFFF) then 2%nat else 8%nat.
Definition frame_bytes (mk : option bytes) (op : Z) (fin : bool) (p : bytes) : bytes :=
  [(if fin then 0x80 else 0) + op]
  ++ len_field (if masked mk then 0x80 else 0) (Z.of_nat (length p))
  ++ match mk with Some mk => mk ++ xor_mask mk p | None => p end.

Lemma flag_byte (f : bool) v : 0 <= v < 128 →
  let b := (if f then 0x80 else 0) + v in
  negb (bool_decide (Z.land (Z.shiftr b 7) 1 = 0)) = f ∧ Z.land b 0x7F = v
  ∧ (v < 16 → Z.land b 0xF = v).
Proof.
  intros Hv b. change 0x7F with (2 ^ 7 - 1). change 0xF with (2 ^ 4 - 1). change 1 with (2 ^ 1 - 1).
  rewrite !land_mod, shiftr_div by lia. unfold b.
  split_and!; [|destruct f; mlia|intros; destruct f; mlia].
  destruct f; [rewrite bool_decide_eq_false_2|rewrite bool_decide_eq_true_2]; try done; mlia.
Qed.

Definition mask_ok (mk : option bytes) : Prop :=
  ∀ l, mk = Some l → length l = 4%nat ∧ bytes_ok l.

Lemma length_frame mk op fin p : mask_ok mk →
  length (frame_bytes mk op fin p)
  = (2 + len_extra (Z.of_nat (length p)) + (if masked mk then 4 else 0) + length p)%nat.
Proof.
  intros Hm. unfold frame_bytes, len_field, len_extra. rewrite !length_app. simpl length at 1.
  assert (length match mk with Some mk => mk ++ xor_mask mk p | None => p end
    = (if masked mk then 4 else 0) + length p)%nat as ->.
  { destruct mk as [l|]; [|done]. rewrite length_app. unfold xor_mask.
    rewrite length_imap. by rewrite (proj1 (Hm l eq_refl)). }
  repeat case_decide; simpl length; rewrite ?length_be_bytes; lia.
Qed.

Lemma decode_frame_self malloc mk op fin p : (∀ s, 0 < s < 2 ^ 63 → malloc s = true) →
  mask_ok mk → 0 <= op < 16 → Z.of_nat (length p) < 2 ^ 62 →
  mini_ws_decode_frame malloc (frame_bytes mk op fin p)
  = Ok (Frame op fin (length (frame_bytes mk op fin p)) p).
Proof.
  intros Hm Hmk Hop Hp. unfold mini_ws_decode_frame. rewrite length_frame by done.
  set (buf := frame_bytes mk op fin p).
  rewrite decide_False by lia.
  destruct (flag_byte fin op) as (F1&_&F2); [lia|].
  assert (rd buf 0 = (if fin then 0x80 else 0) + op) as -> by done.
  rewrite F1, (F2 ltac:(lia)). clear F1 F2.
  set (mbit := if masked mk then 0x80 else 0).
  set (L := Z.of_nat (length p)) in *.
  set (body := match mk with Some mk => mk ++ xor_mask mk p | None => p end).
  set (n := len_extra L).
  assert (buf = ((if fin then 0x80 else 0) + op) :: len_field mbit L ++ body) as Ebuf by done.
  assert (length (len_field mbit L) = S n) as Lf.
  { unfold len_field, n, len_extra. repeat case_decide; simpl; by rewrite ?length_be_bytes. }
  assert (negb (bool_decide (Z.land (Z.shiftr (rd buf 1) 7) 1 = 0)) = masked mk
    ∧ frame_len buf = Some (L, (2 + n)%nat)) as [-> ->].
  { assert (∀ v r, len_field mbit L = (mbit + v) :: r → 0 <= v < 128 →
      negb (bool_decide (Z.land (Z.shiftr (rd buf 1) 7) 1 = 0)) = masked mk
      ∧ Z.land (rd buf 1) 0x7F = v) as Hv.
    { intros v r Er Hv. rewrite Ebuf, Er. unfold rd. simpl lookup_total. unfold mbit.
      destruct (masked mk); [destruct (flag_byte true v Hv) as (H1&H2&_)
                   |destruct (flag_byte false v Hv) as (H1&H2&_)]; by split. }
    assert (length buf = 2 + n + length body)%nat as Lb.
    { rewrite Ebuf. simpl. rewrite length_app, Lf. lia. }
    unfold frame_len. unfold len_field, n, len_extra in *. destruct (decide (L < 126)) as [H126|H126].
    - destruct (Hv L [] eq_refl) as [-> ->]; [lia|]. split; [done|]. by rewrite !decide_False by lia.
    - destruct (decide (L <= 0xFFFF)) as [H16|H16].
      + destruct (Hv 126 _ eq_refl) as [-> ->]; [lia|]. split; [done|].
        rewrite decide_True by done. rewrite decide_False by lia. do 2 f_equal.
        rewrite Ebuf. unfold rd. simpl lookup_total. rewrite shiftr_div, Z.shiftr_0_r, shiftl_mul by lia.
        change (8 * Z.of_nat 1) with 8. unfold u8. rewrite (Z.mod_small (L / 2 ^ 8)) by mlia.
        rewrite (lor_add _ _ 8) by mlia. mlia.
      + destruct (Hv 127 _ eq_refl) as [-> ->]; [lia|]. split; [done|].
        rewrite decide_False, decide_True by done. rewrite decide_False by lia. do 2 f_equal.
        rewrite Ebuf. change (slice 2 8 (?a :: (?b :: be_bytes 8 L) ++ body))
          with (slice 0 8 (be_bytes 8 L ++ body)).
        rewrite slice_app_l by (by rewrite length_be_bytes).
        unfold be_len. rewrite be_len_bytes by (try mlia; simpl; rewrite Z.mod_small; lia).
        simpl. apply Z.mod_small. lia. }
  cbv zeta. assert (n <= 8)%nat by (unfold n, len_extra; repeat case_decide; lia).
  assert (buf = ([(if fin then 0x80 else 0) + op] ++ len_field mbit L) ++ body) as Eb by done.
  clearbody n buf. unfold L in *. rewrite !Nat2Z.id. clear Ebuf.
  set (hdr := [_] ++ len_field _ _) in Eb.
  assert (length hdr = (2 + n)%nat) as Lh by (simpl; lia). clearbody hdr. unfold body in *.
  destruct mk as [l|]; simpl masked; cbv iota; (rewrite !u64_small by lia);
    rewrite decide_False by lia; rewrite Hm by lia; simpl negb; cbv iota;
    rewrite decide_True by lia; do 2 f_equal; try lia; subst buf.
  - destruct (Hmk l eq_refl) as [Ll _]. replace (2 + n + 4 - 4)%nat with (2 + n)%nat by lia.
    rewrite slice_app_mid by done. rewrite (app_assoc hdr).
    rewrite slice_app_r; [by apply xor_mask_involutive|rewrite length_app; lia|].
    unfold xor_mask. by rewrite length_imap.
  - by apply slice_app_r.
Qed.

Lemma be_bytes_ok n v : bytes_ok (be_bytes n v).
Proof. unfold be_bytes. apply Forall_map, Forall_true. intros i. apply u8_range. Qed.

Lemma xor_mask_ok mk p : bytes_ok mk → bytes_ok p → bytes_ok (xor_mask mk p).
Proof.
  intros Hm Hp. unfold xor_mask. apply Forall_lookup. intros i x Hx.
  rewrite list_lookup_imap in Hx. destruct (p !! i) as [b|] eqn:E; [|done].
  injection Hx as <-. apply lxor_byte; [by eapply Forall_lookup_1|by apply rd_ok].
Qed.

Lemma frame_bytes_ok mk op fin p : mask_ok mk → 0 <= op < 16 → bytes_ok p →
  bytes_ok (frame_bytes mk op fin p).
Proof.
  intros Hm Hop Hp. unfold frame_bytes. apply bytes_ok_app. split.
  { apply Forall_singleton. unfold byte_ok. destruct fin; lia. }
  apply bytes_ok_app. split.
  - unfold len_field. repeat case_decide; apply Forall_cons;
      (split; [unfold byte_ok; destruct (masked mk); lia|]);
      try apply be_bytes_ok; by apply Forall_nil.
  - destruct mk as [l|]; [|done]. destruct (Hm l eq_refl) as [_ Hl].
    apply bytes_ok_app. split; [done|]. by apply xor_mask_ok.
Qed.

(** A whole frame is decoded whatever follows it; of a part of it nothing is. *)
Lemma decode_frame_bytes malloc mk op fin p tail : (∀ s, 0 < s < 2 ^ 63 → malloc s = true) →
  mask_ok mk → 0 <= op < 16 → bytes_ok p → Z.of_nat (length p) < 2 ^ 62 →
  mini_ws_decode_frame malloc (frame_bytes mk op fin p ++ tail)
  = Ok (Frame op fin (length (frame_bytes mk op fin p)) p).
Proof.
  intros Hm Hmk Hop Hb Hp. apply decode_mono; [by apply frame_bytes_ok| |done].
  by apply decode_frame_self.
Qed.

Lemma decode_frame_partial malloc mk op fin p k : malloc_sane malloc →
  (∀ s, 0 < s < 2 ^ 63 → malloc s = true) →
  mask_ok mk → 0 <= op < 16 → bytes_ok p → Z.of_nat (length p) < 2 ^ 62 →
  (k < length (frame_bytes mk op fin p))%nat →
  mini_ws_decode_frame malloc (take k (frame_bytes mk op fin p)) = Ok Need.
Proof.
  intros Hs Hm Hmk Hop Hb Hp Hk.
  pose proof (frame_bytes_ok mk op fin p Hmk Hop Hb) as Hf.
  pose proof (decode_frame_self malloc mk op fin p Hm Hmk Hop Hp) as E.
  pose proof (length_frame mk op fin p Hmk) as Hl.
  set (f := frame_bytes mk op fin p) in *.
  assert (length f <= length p + 14)%nat.
  { rewrite Hl. unfold len_extra. repeat case_decide; destruct (masked mk); lia. }
  destruct (decode_safe malloc (take k f)) as (r&Er&Hr); [done|by apply Forall_take| |].
  { rewrite length_take. lia. }
  destruct (decide (r = Need)) as [->|Hne]; [done|].
  pose proof (decode_mono malloc (take k f) (drop k f) r ltac:(by apply Forall_take) Er Hne) as E'.
  rewrite take_drop, E in E'.
  assert (r = Frame op fin (length f) p) as Er' by congruence. specialize (Hr _ _ _ _ Er'). rewrite length_take in Hr. lia.
Qed.

(** What the encoder writes is the masked frame of the specification. *)
Lemma encode_frame_eq mk op (fin : bool) p cap : length mk = 4%nat → 0 <= op < 16 →
  Z.of_nat (length p) < 2 ^ 62 →
  mini_ws_encode_frame mk op fin p cap
  = if decide (Z.of_nat (length (frame_bytes (Some mk) op fin p)) <= cap)
    then (frame_bytes (Some mk) op fin p, i32 (Z.of_nat (length (frame_bytes (Some mk) op fin p)))) else ([], -1).
Proof.
  intros Hmk Hop Hp. unfold mini_ws_encode_frame. cbv zeta.
  assert (length (frame_bytes (Some mk) op fin p)
    = 2 + len_extra (Z.of_nat (length p)) + 4 + length p)%nat as Lf.
  { unfold frame_bytes, len_field, len_extra, xor_mask. rewrite !length_app, length_imap. simpl masked.
    repeat case_decide; simpl length; rewrite ?length_be_bytes; lia. }
  assert ((if decide (Z.of_nat (length p) < 126) then 0
           else if decide (Z.of_nat (length p) <= 65535) then 2 else 8)
          = Z.of_nat (len_extra (Z.of_nat (length p)))) as ->.
  { unfold len_extra. by repeat case_decide. }
  assert (len_extra (Z.of_nat (length p)) <= 8)%nat by (unfold len_extra; repeat case_decide; lia).
  rewrite u64_small, Lf by lia. destruct (decide (cap < _)) as [Hc|Hc].
  { by rewrite decide_False by lia. }
  rewrite (decide_True (P := _ <= cap)) by lia.
  match goal with |- (?f, i32 (Z.of_nat (length ?f))) = (?g, _) => cut (f = g); [intros ->; by rewrite Lf|] end.
  unfold frame_bytes. f_equal.
  { f_equal. assert (u8 (Z.lor (if fin then 128 else 0) (Z.land op 15)) = (if fin then 128 else 0) + op)
      as ->; [|done]. change 15 with (2 ^ 4 - 1). rewrite land_mod, Z.mod_small by lia.
    rewrite (lor_add _ _ 4) by (try (destruct fin; reflexivity); lia).
    apply u8_small. unfold byte_ok. destruct fin; lia. }
  f_equal. simpl masked. cbv iota. unfold len_field.
  repeat case_decide; [| |by f_equal].
  - rewrite (u8_small (Z.of_nat _)) by (unfold byte_ok; lia).
    rewrite (lor_add 128 _ 7) by (done || lia). by rewrite u8_small by (unfold byte_ok; lia).
  - rewrite !be_bytes_S. change (be_bytes 0 (Z.of_nat (length p))) with (@nil Z).
    by rewrite Z.shiftr_0_r.
Qed.

(** ** Properties *)

(** Hashing the message in any pieces gives the SHA-1 of the whole message:
    padded to a multiple of 64 bytes with its bit length, compressed block by
    block. *)
Theorem sha1_streaming parts : Z.of_nat (length (mjoin parts)) < 2 ^ 61 →
  sha1_final (foldl sha1_update sha1_init parts) = sha1_spec (mjoin parts).
Proof.
  intros Hl. apply sha1_final_spec; [|done]. clear Hl.
  assert (∀ m s, sha1_at m s → sha1_at (m ++ mjoin parts) (foldl sha1_update s parts)) as H;
    [|by apply (H [] sha1_init), sha1_at_init].
  induction parts as [|d parts IH]; intros m s Hs; simpl; [by rewrite app_nil_r|].
  rewrite app_assoc. by apply IH, sha1_at_update.
Qed.

Lemma sha1_streaming_witness :
  sha1_final (foldl sha1_update sha1_init [str "ab"; str "c"]) = sha1_spec (mjoin [str "ab"; str "c"]).
Proof. apply (sha1_streaming [str "ab"; str "c"]). reflexivity. Defined.

(** Base64 encoding is inverted by the RFC 4648 decoder, and is four
    characters per started group of three bytes: the accept key always has 28. *)
Theorem b64_roundtrip l : bytes_ok l →
  b64dec (S (length l)) (b64enc l) = l ∧ length (b64enc l) = (4 * ((length l + 2) / 3))%nat.
Proof. intros Hl. split; [by apply b64dec_enc|apply length_b64enc]. Qed.

Lemma b64_roundtrip_witness :
  b64dec 6 (b64enc [0; 16; 131; 255; 7]) = [0; 16; 131; 255; 7]
  ∧ length (b64enc [0; 16; 131; 255; 7]) = 8%nat.
Proof.
  apply (b64_roundtrip [0; 16; 131; 255; 7]). repeat constructor; discriminate || reflexivity.
Defined.

(** C31. A frame the encoder writes is decoded to its opcode, FIN bit and payload,
    consuming exactly its bytes whatever follows them, and every proper prefix
    of it asks for more: for all three length encodings and any mask.  The
    encoder writes the frame exactly when it fits the capacity, and returns its
    length converted to [int]; so for frames below 2^31 bytes -1 is returned
    exactly when the capacity does not suffice. *)
Theorem ws_frame_codec malloc mk op fin p cap tail k : malloc_sane malloc →
  (∀ s, 0 < s < 2 ^ 63 → malloc s = true) → length mk = 4%nat → bytes_ok mk → 0 <= op < 16 →
  bytes_ok p → Z.of_nat (length p) < 2 ^ 62 →
  let f := frame_bytes (Some mk) op fin p in
  mini_ws_encode_frame mk op fin p cap
    = (if decide (Z.of_nat (length f) <= cap) then (f, i32 (Z.of_nat (length f))) else ([], -1))
  ∧ (Z.of_nat (length f) < 2 ^ 31 → (mini_ws_encode_frame mk op fin p cap).2
       = if decide (Z.of_nat (length f) <= cap) then Z.of_nat (length f) else -1)
  ∧ mini_ws_decode_frame malloc (f ++ tail) = Ok (Frame op fin (length f) p)
  ∧ ((k < length f)%nat → mini_ws_decode_frame malloc (take k f) = Ok Need).
Proof.
  intros Hs Hm Lmk Hmk Hop Hp Lp f.
  assert (mask_ok (Some mk)) by (intros l [= <-]; done).
  split_and!; [by apply encode_frame_eq| |by apply decode_frame_bytes|].
  { intros Hf. rewrite encode_frame_eq by done. fold f. case_decide; [cbn [snd]; apply i32_small; lia|done]. }
  intros. by apply decode_frame_partial.
Qed.

Lemma ws_frame_codec_witness :
  mini_ws_decode_frame (λ s, bool_decide (0 < s < 2 ^ 63))
    (frame_bytes (Some [1; 2; 3; 4]) 1 true (str "hello") ++ [9])
  = Ok (Frame 1 true 11 (str "hello")).
Proof.
  apply (ws_frame_codec (λ s, bool_decide (0 < s < 2 ^ 63)) [1; 2; 3; 4] 1 true (str "hello") 14 [9] 3).
  - split; [|reflexivity]. intros s Hs. apply bool_decide_eq_false_2. lia.
  - intros s Hs. apply bool_decide_eq_true_2. exact Hs.
  - reflexivity.
  - repeat constructor; discriminate || reflexivity.
  - split; reflexivity || discriminate.
  - repeat constructor; discriminate || reflexivity.
  - reflexivity.
Defined.

(** A payload of 2^32 - 15 bytes is encoded whole, and -1 returned. *)
Lemma encode_frame_int_wrap mk op fin p cap : length mk = 4%nat → 0 <= op < 16 → 2 ^ 32 <= cap →
  Z.of_nat (length p) = 2 ^ 32 - 15 →
  mini_ws_encode_frame mk op fin p cap = (frame_bytes (Some mk) op fin p, -1).
Proof.
  intros Hmk Hop Hc Hp. rewrite encode_frame_eq by lia.
  assert (Z.of_nat (length (frame_bytes (Some mk) op fin p)) = 2 ^ 32 - 1) as ->.
  { unfold frame_bytes, len_field, xor_mask. rewrite !length_app, length_imap, Hmk, Hp.
    rewrite !decide_False by lia. simpl length. lia. }
  by rewrite decide_True by lia.
Qed.

(** The length check wraps: a 14-byte buffer with the 64-bit length 2^64 - 1. *)
Lemma ws_length_overflow malloc : malloc 0 = true →
  mini_ws_decode_frame malloc ([0x82; 0x7f] ++ replicate 8 0xff ++ [1; 2; 3; 4]) = UB.
Proof.
  intros H0. set (buf := _ ++ _). unfold mini_ws_decode_frame.
  assert (frame_len buf = Some (2 ^ 64 - 1, 10%nat)) as -> by by vm_compute.
  rewrite decide_False by (simpl; lia). cbv zeta.
  change (negb (bool_decide (Z.land (Z.shiftr (rd buf 1) 7) 1 = 0))) with false. cbv iota.
  rewrite decide_False by (vm_compute; congruence). change (u64 (2 ^ 64 - 1 + 1)) with 0.
  by rewrite H0.
Qed.
