(* ===== verification/WsClient.v ===== *)
(** * WebSocket client (src/src/mini_websocket.c, live client)

    The connection: URL and handshake text, the frame-handling state machine with
    its reassembly of fragmented messages, the senders and the pump.  Callbacks
    and writes to the socket are the events of a step, in order; callbacks do not
    re-enter.  The socket is a byte stream with a schedule: how much each [recv]
    finds.  [now] is the clock, [malloc] and [realloc] tell which sizes succeed. *)

From S2P Require Import Prelude CString WsCodec.

Definition MINI_WS_CONNECTING := 0.
Definition MINI_WS_OPEN := 1.
Definition MINI_WS_CLOSING := 2.
Definition MINI_WS_CLOSED := 3.

Definition MINI_WSOP_CONT := 0x0.
Definition MINI_WSOP_TEXT := 0x1.
Definition MINI_WSOP_BIN := 0x2.
Definition MINI_WSOP_CLOSE := 0x8.
Definition MINI_WSOP_PING := 0x9.
Definition MINI_WSOP_PONG := 0xA.

(** [frag] is the reassembly buffer's contents ([frag_len] bytes of [frag_cap]);
    [mc] is the mask counter of the encoder. *)
Record MiniWS := WS {
  state : Z; frag : option bytes; frag_cap : Z; frag_op : Z;
  rbuf : bytes; dispatched_open : bool; mc : Z }.

Inductive event :=
| OnOpen
| OnText (data : bytes)
| OnBin (data : bytes)
| OnClose (code : Z) (reason : bytes)
| OnErr (msg : bytes)
| Sent (data : bytes).

#[export] Instance event_eq_dec : EqDecision event.
Proof. solve_decision. Defined.

Definition set_state (s : Z) (ws : MiniWS) : MiniWS :=
  WS s (frag ws) (frag_cap ws) (frag_op ws) (rbuf ws) (dispatched_open ws) (mc ws).
Definition set_rbuf (b : bytes) (ws : MiniWS) : MiniWS :=
  WS (state ws) (frag ws) (frag_cap ws) (frag_op ws) b (dispatched_open ws) (mc ws).
Definition set_frag (f : option bytes) (cap op : Z) (ws : MiniWS) : MiniWS :=
  WS (state ws) f cap op (rbuf ws) (dispatched_open ws) (mc ws).

(** ** URL and handshake *)

Definition url_char (c : Z) : bool := bool_decide (c ∉ [58; 47; 63]).

(** Scheme, host, port and path of [mini_ws_connect]; [None] when the scheme is
    not ws or wss.  A port that overflows [int] is undefined. *)
Record WsUrl := { u_tls : bool; u_host : bytes; u_port : Z; u_path : bytes }.

Fixpoint ws_port (port : Z) (p : bytes) : res (Z * bytes) :=
  match p with
  | c :: p' =>
    if c_isdigit c then
      let port := port * 10 + (c - 48) in
      if decide (port < 2 ^ 31) then ws_port port p' else UB
    else Ok (port, p)
  | [] => Ok (port, [])
  end.

Definition ws_parse_url (url : bytes) : res (option WsUrl) :=
  let after (tls : bool) (p : bytes) :=
    let '(hst, p) := scan url_char 255 p in
    (let* (prt, p) := match expect 58 p with
                      | Some p => ws_port 0 p
                      | None => Ok (if tls then 443 else 80, p)
                      end in
     Ok (Some {| u_tls := tls; u_host := hst; u_port := prt;
                 u_path := if decide (hd0 p = 47) then p else str "/" |}))%c in
  match expects (str "ws://") url with
  | Some p => after false p
  | None => match expects (str "wss://") url with
            | Some p => after true p
            | None => Ok None
            end
  end.

Definition crlf : bytes := [13; 10].

(** The text [snprintf] formats; [port] is its decimal form. *)
Definition ws_handshake_fields (host port path key : bytes) : bytes :=
  str "GET " ++ path ++ str " HTTP/1.1" ++ crlf ++ str "Host: " ++ host ++ str ":" ++ port ++ crlf
  ++ str "Upgrade: websocket" ++ crlf ++ str "Connection: Upgrade" ++ crlf
  ++ str "Sec-WebSocket-Key: " ++ key ++ crlf ++ str "Sec-WebSocket-Version: 13".

Definition ws_handshake_request (host port path : bytes) (origin : option bytes) (key : bytes) : bytes :=
  ws_handshake_fields host port path key ++ crlf
  ++ match origin with Some o => str "Origin: " ++ o | None => [] end ++ crlf.

(** [req] has 1024 bytes, [n] is the full length: a longer request is read past
    the array. *)
Definition ws_send_handshake (host port path : bytes) (origin : option bytes) (key : bytes) : res bytes :=
  let req := ws_handshake_request host port path origin key in
  if decide (length req < 1024)%nat then Ok req else UB.

(** The accept value in the response text [buf]; [Ok None] is -1. *)
Definition ws_recv_handshake (buf : bytes) (cap : nat) : res (option bytes) :=
  if decide (buf = []) then Ok None else
  match strstr buf (str " 101 ") with
  | None => Ok None
  | Some _ =>
    let p := match strstr buf (str "Sec-WebSocket-Accept:") with
             | Some i => Some (drop i buf)
             | None => mini_strcasestr buf (str "sec-websocket-accept:")
             end in
    match p with
    | None => Ok None
    | Some p =>
      if decide (length p < 22)%nat then UB else
      let p := skip (λ c, bool_decide (c = 32 ∨ c = 9)) (drop 22 p) in
      Ok (Some (fst (scan (λ c, bool_decide (c ∉ [13; 10])) (cap - 1) p)))
    end
  end.

(** The state after a handshake answered by [response]: [None] when
    [mini_ws_connect] gives up. *)
Definition ws_handshake_done (key response : bytes) : res (option MiniWS) :=
  (let* a := ws_recv_handshake response 64 in
   match a with
   | None => Ok None
   | Some accept =>
     if streq accept (mini_ws_accept_key key)
     then Ok (Some (WS MINI_WS_OPEN None 0 0 [] false 0)) else Ok None
   end)%c.

Section Client.
  Context (now : Z) (malloc : Z → bool) (realloc : Z → bool) (send_ok : bytes → bool).

(** ** Senders *)

(** Encode into [uint8_t hdr[14]] and write: the return code and the events. *)
Definition ws_send_frame (ws : MiniWS) (op : Z) (payload : bytes) : MiniWS * Z * list event :=
  let '(hdr, hl) := mini_ws_encode_frame (ws_mask now (u32 (mc ws + 1))) op true payload 14 in
  if decide (hl < 0) then (ws, -1, []) else
  let ws := WS (state ws) (frag ws) (frag_cap ws) (frag_op ws) (rbuf ws) (dispatched_open ws)
               (u32 (mc ws + 1)) in
  let f := take (Z.to_nat hl) hdr in
  if send_ok f then (ws, 0, [Sent f]) else (ws, -1, []).

Definition mini_ws_send_text (ws : MiniWS) (data : bytes) : MiniWS * Z * list event :=
  if decide (state ws ≠ MINI_WS_OPEN) then (ws, -1, []) else ws_send_frame ws MINI_WSOP_TEXT data.
Definition mini_ws_send_binary (ws : MiniWS) (data : bytes) : MiniWS * Z * list event :=
  if decide (state ws ≠ MINI_WS_OPEN) then (ws, -1, []) else ws_send_frame ws MINI_WSOP_BIN data.
Definition mini_ws_send_ping (ws : MiniWS) (data : bytes) : MiniWS * Z * list event :=
  if decide (state ws = MINI_WS_CLOSED) then (ws, -1, []) else ws_send_frame ws MINI_WSOP_PING data.
Definition mini_ws_send_pong_raw (ws : MiniWS) (data : bytes) : MiniWS * Z * list event :=
  if decide (state ws = MINI_WS_CLOSED) then (ws, -1, []) else ws_send_frame ws MINI_WSOP_PONG data.

Definition mini_ws_close (ws : MiniWS) (code : Z) (reason : option bytes) : MiniWS * Z * list event :=
  if decide (state ws = MINI_WS_CLOSED) then (ws, -1, []) else
  let pl := [u8 (Z.land (Z.shiftr code 8) 0xFF); u8 (Z.land code 0xFF)]
            ++ match reason with Some r => take 126 r | None => [] end in
  let '(ws, _, ev) := ws_send_frame ws MINI_WSOP_CLOSE pl in
  (set_state MINI_WS_CLOSING ws, 0, ev).

(** The event of [mini_ws_destroy], before the object is released. *)
Definition mini_ws_destroy (ws : MiniWS) : list event :=
  if decide (state ws = MINI_WS_OPEN ∨ state ws = MINI_WS_CLOSING)
  then snd (ws_send_frame ws MINI_WSOP_CLOSE []) else [].

(** ** Frames *)

Definition deliver (op : Z) (data : bytes) : event :=
  if decide (op = MINI_WSOP_TEXT) then OnText data else OnBin data.

(** [while (nc < need) nc *= 2] *)
Fixpoint frag_grow (fuel : nat) (nc need : Z) : option Z :=
  match fuel with
  | O => None
  | S fuel => if decide (nc < need) then frag_grow fuel (u64 (nc * 2)) need else Some nc
  end.

(** The new capacity for [frag_len + plen] bytes; [None] is a failed [realloc]
    (or a doubling that never gets there). *)
Definition frag_reserve (cap need : Z) : option Z :=
  if decide (cap < need) then
    match frag_grow 64 (if decide (cap = 0) then 64 else cap) need with
    | Some nc => if realloc nc then Some nc else None
    | None => None
    end
  else Some cap.

Definition ws_handle_frame (ws : MiniWS) (opcode : Z) (fin : bool) (pl : bytes)
    : MiniWS * list event :=
  if decide (opcode = MINI_WSOP_PING) then
    let '(ws, _, ev) := mini_ws_send_pong_raw ws pl in (ws, ev)
  else if decide (opcode = MINI_WSOP_PONG) then (ws, [])
  else if decide (opcode = MINI_WSOP_CLOSE) then
    let code := if decide (2 <= length pl)%nat then Z.lor (Z.shiftl (rd pl 0) 8) (rd pl 1) else 1000 in
    (set_state MINI_WS_CLOSED ws, [OnClose code (drop 2 pl)])
  else if decide (opcode = MINI_WSOP_TEXT ∨ opcode = MINI_WSOP_BIN) then
    if fin then (set_frag None (frag_cap ws) opcode ws, [deliver opcode pl])
    else (set_frag (Some pl) (Z.of_nat (length pl)) opcode ws, [])
  else if decide (opcode = MINI_WSOP_CONT) then
    match frag ws with
    | None => (ws, [])
    | Some f =>
      match frag_reserve (frag_cap ws) (u64 (Z.of_nat (length f) + Z.of_nat (length pl))) with
      | None => (set_frag None (frag_cap ws) (frag_op ws) ws, [])
      | Some cap =>
        let f := f ++ pl in
        if fin then (set_frag None cap (frag_op ws) ws, [deliver (frag_op ws) f])
        else (set_frag (Some f) cap (frag_op ws) ws, [])
      end
    end
  else (ws, []).

Definition ws_fail (ws : MiniWS) (msg : bytes) : MiniWS * list event :=
  if decide (state ws = MINI_WS_CLOSED) then (ws, [])
  else (set_state MINI_WS_CLOSED ws, [OnErr msg]).

(** ** The pump *)

Definition RBUF : nat := Z.to_nat 8192.

(** Decode whole frames from [rbuf]: state, events, frames delivered, and whether
    the decoder failed.  [None] is fuel exhausted. *)
Fixpoint decode_loop (fuel : nat) (ws : MiniWS) (delivered : Z)
    : res (option (MiniWS * list event * Z * bool)) :=
  match fuel with
  | O => Ok None
  | S fuel =>
    (let* r := mini_ws_decode_frame malloc (rbuf ws) in
     match r with
     | Need => Ok (Some (ws, [], delivered, true))
     | DecodeFail =>
       let '(ws, ev) := ws_fail ws (str "frame decode error") in
       Ok (Some (ws, ev, delivered, false))
     | Frame op fin consumed pl =>
       let '(ws, ev) := ws_handle_frame ws op fin pl in
       if decide (length (rbuf ws) <= consumed)%nat
       then Ok (Some (set_rbuf [] ws, ev, delivered + 1, true))
       else
         let* r := decode_loop fuel (set_rbuf (drop consumed (rbuf ws)) ws) (delivered + 1) in
         Ok (match r with
             | None => None
             | Some (ws, ev', d, ok) => Some (ws, ev ++ ev', d, ok)
             end)
     end)%c
  end.

(** What [recv] reports once the stream is exhausted. *)
Inductive sock_end := WouldBlock | Eof | Error.

(** [schedule] is how many bytes each [recv] finds; when it runs out the socket
    would block.  The result: state, events, return value, unread bytes. *)
Fixpoint pump_loop (schedule : list nat) (send : sock_end) (ws : MiniWS) (pending : bytes)
    (delivered : Z) : res (option (MiniWS * list event * Z * bytes)) :=
  let space := (RBUF - length (rbuf ws))%nat in
  if decide (space = 0%nat) then Ok (Some (ws, [], delivered, pending)) else
  match schedule with
  | [] => Ok (Some (ws, [], delivered, pending))
  | k :: schedule =>
    if decide (pending = []) then
      match send with
      | WouldBlock => Ok (Some (ws, [], delivered, pending))
      | Eof => Ok (Some (set_state MINI_WS_CLOSED ws, [OnClose 1000 []],
                   (if decide (delivered = 0) then -1 else delivered), pending))
      | Error => let '(ws, ev) := ws_fail ws (str "recv error") in Ok (Some (ws, ev, -1, pending))
      end
    else
      let n := (space `min` S k)%nat in
      let ws := set_rbuf (rbuf ws ++ take n pending) ws in
      (let* r := decode_loop (S (length (rbuf ws))) ws delivered in
       match r with
       | None => Ok None
       | Some (ws, ev, _, false) => Ok (Some (ws, ev, -1, drop n pending))
       | Some (ws, ev, d, true) =>
         let* r := pump_loop schedule send ws (drop n pending) d in
         Ok (match r with
             | None => None
             | Some (ws, ev', ret, rest) => Some (ws, ev ++ ev', ret, rest)
             end)
       end)%c
  end.

Definition mini_ws_pump (schedule : list nat) (send : sock_end) (ws : MiniWS) (pending : bytes)
    : res (option (MiniWS * list event * Z * bytes)) :=
  if decide (state ws = MINI_WS_CLOSED) then Ok (Some (ws, [], 0, pending)) else
  let '(ws, ev) :=
    if decide (dispatched_open ws = false ∧ state ws = MINI_WS_OPEN)
    then (WS (state ws) (frag ws) (frag_cap ws) (frag_op ws) (rbuf ws) true (mc ws), [OnOpen])
    else (ws, []) in
  (let* r := pump_loop schedule send ws pending 0 in
   Ok (match r with
       | None => None
       | Some (ws, ev', ret, rest) => Some (ws, ev ++ ev', ret, rest)
       end))%c.
End Client.

(** ** The frame stream, as a specification of the pump *)

Definition frame : Type := Z * bool * bytes.

Section Stream.
  Context (malloc : Z → bool).

(** [parses buf fs rest]: [buf] is the frames [fs], then an incomplete [rest]. *)
Inductive parses : bytes → list frame → bytes → Prop :=
| parses_need buf : mini_ws_decode_frame malloc buf = Ok Need → parses buf [] buf
| parses_frame buf op fin c p fs rest :
    mini_ws_decode_frame malloc buf = Ok (Frame op fin c p) →
    parses (drop c buf) fs rest → parses buf ((op, fin, p) :: fs) rest.

Lemma parses_det buf fs rest : parses buf fs rest →
  ∀ fs' rest', parses buf fs' rest' → fs' = fs ∧ rest' = rest.
Proof.
  induction 1 as [buf E|buf op fin c p fs rest E _ IH]; intros fs' rest' H;
    inversion H as [? E0|? op0 fin0 c0 p0 fs0 rest0 E0 H0]; subst; [done|congruence..|].
  assert (op0 = op ∧ fin0 = fin ∧ c0 = c ∧ p0 = p) as (->&->&->&->) by (split_and!; congruence).
  by destruct (IH _ _ H0) as [-> ->].
Qed.

Lemma parses_app a fs r : parses a fs r → malloc_sane malloc → bytes_ok a →
  Z.of_nat (length a) < 2 ^ 63 → ∀ b gs r', parses (r ++ b) gs r' → parses (a ++ b) (fs ++ gs) r'.
Proof.
  induction 1 as [buf E|buf op fin c p fs rest E _ IH]; intros Hs Hb Hl b gs r' H; [done|].
  simpl. destruct (decode_safe malloc buf Hs Hb Hl) as (d&E'&Hc).
  assert (d = Frame op fin c p) as Ed by congruence. specialize (Hc _ _ _ _ Ed).
  apply parses_frame with (c := c); [by apply decode_mono|].
  rewrite drop_app_le by lia. apply IH; [done|by apply Forall_drop|rewrite length_drop; lia|done].
Qed.
End Stream.

Section Pump.
  Context (now : Z) (malloc realloc : Z → bool) (send_ok : bytes → bool).
  Context (Hs : malloc_sane malloc).

Local Abbreviation handle := (ws_handle_frame now realloc send_ok).

(** Handling a list of frames, events concatenated. *)
Fixpoint handle_all (ws : MiniWS) (fs : list frame) : MiniWS * list event :=
  match fs with
  | [] => (ws, [])
  | (op, fin, p) :: fs =>
    let '(ws, ev) := handle ws op fin p in
    let '(ws, ev') := handle_all ws fs in (ws, ev ++ ev')
  end.

Lemma handle_all_app fs : ∀ ws gs,
  handle_all ws (fs ++ gs)
  = let '(ws, ev) := handle_all ws fs in let '(ws, ev') := handle_all ws gs in (ws, ev ++ ev').
Proof.
  induction fs as [|[[op fin] p] fs IH]; intros ws gs; simpl.
  { by destruct (handle_all ws gs). }
  destruct (handle ws op fin p) as [ws1 ev1]. rewrite IH.
  destruct (handle_all ws1 fs) as [ws2 ev2]. destruct (handle_all ws2 gs). by rewrite app_assoc.
Qed.

(** Handling a frame neither reads nor writes the receive buffer. *)
Lemma handle_rbuf ws op fin p b :
  handle (set_rbuf b ws) op fin p
  = (set_rbuf b (fst (handle ws op fin p)), snd (handle ws op fin p)).
Proof.
  destruct ws as [st fr cap fo rb dp m].
  unfold ws_handle_frame, mini_ws_send_pong_raw, ws_send_frame, set_rbuf, set_frag, set_state. simpl.
  repeat (first [case_decide|done|case_match]; simpl); by simplify_eq.
Qed.

Lemma handle_all_rbuf fs : ∀ ws b,
  handle_all (set_rbuf b ws) fs = (set_rbuf b (fst (handle_all ws fs)), snd (handle_all ws fs)).
Proof.
  induction fs as [|[[op fin] p] fs IH]; intros ws b; simpl; [done|].
  rewrite handle_rbuf. destruct (handle ws op fin p) as [ws1 ev1]. simpl. rewrite IH.
  by destruct (handle_all ws1 fs).
Qed.

Lemma decode_loop_spec fuel : ∀ ws d, bytes_ok (rbuf ws) → Z.of_nat (length (rbuf ws)) < 2 ^ 63 →
  (length (rbuf ws) < fuel)%nat →
  ∃ ws' ev d' ok, decode_loop now malloc realloc send_ok fuel ws d = Ok (Some (ws', ev, d', ok))
    ∧ (ok = true → ∃ fs rest, parses malloc (rbuf ws) fs rest
         ∧ (length rest <= length (rbuf ws))%nat ∧ bytes_ok rest
         ∧ d' = d + Z.of_nat (length fs)
         ∧ ws' = set_rbuf rest (fst (handle_all ws fs)) ∧ ev = snd (handle_all ws fs)).
Proof using Hs.
  induction fuel as [|fuel IH]; intros ws d Hb Hl Hf; [lia|]. cbn [decode_loop].
  destruct (decode_safe malloc (rbuf ws) Hs Hb Hl) as (r&E&Hc). rewrite E. simpl.
  destruct r as [| |op fin c p].
  - eexists _, _, _, _. split; [reflexivity|]. intros _. exists [], (rbuf ws).
    split_and!; [by constructor|done|done|simpl; lia|by destruct ws|done].
  - destruct (ws_fail ws _). eexists _, _, _, _. by split; [reflexivity|].
  - specialize (Hc _ _ _ _ eq_refl). destruct (handle ws op fin p) as [ws1 ev1] eqn:Eh.
    assert (rbuf ws1 = rbuf ws) as Er.
    { pose proof (handle_rbuf ws op fin p (rbuf ws)) as H.
      replace (set_rbuf (rbuf ws) ws) with ws in H by by destruct ws. rewrite Eh in H.
      injection H as H. by rewrite H. }
    rewrite Er. case_decide as Hlast.
    + eexists _, _, _, _. split; [reflexivity|]. intros _. exists [(op, fin, p)], [].
      split_and!; [|simpl; lia|by apply Forall_nil|done|by simpl; rewrite Eh|
                   simpl; rewrite Eh; simpl; by rewrite app_nil_r].
      econstructor; [exact E|]. rewrite drop_ge by lia. by constructor.
    + destruct (IH (set_rbuf (drop c (rbuf ws)) ws1) (d + 1)) as (ws'&ev&d'&ok&->&Hok); simpl;
        [by apply Forall_drop|rewrite length_drop; lia..|].
      eexists _, _, _, _. split; [reflexivity|]. intros Hok'.
      destruct (Hok Hok') as (fs&rest&Hp&Hlr&Hbr&->&->&->). simpl in Hp, Hlr.
      exists ((op, fin, p) :: fs), rest. rewrite handle_all_rbuf. simpl. rewrite Eh.
      destruct (handle_all ws1 fs) as [ws2 ev2]. simpl.
      split_and!; [by econstructor|rewrite length_drop in Hlr; lia|done|lia|by destruct ws2|done].
Qed.

(** What a pump that ended without closing has done. *)
Definition pump_result (ws : MiniWS) (pending : bytes) (delivered : Z)
    (r : MiniWS * list event * Z * bytes) : Prop :=
  let '(ws', ev, ret, rest) := r in
  ∃ consumed fs left, pending = consumed ++ rest
    ∧ parses malloc (rbuf ws ++ consumed) fs left
    ∧ ret = delivered + Z.of_nat (length fs)
    ∧ ws' = set_rbuf left (fst (handle_all ws fs)) ∧ ev = snd (handle_all ws fs).

Lemma pump_loop_spec sched : ∀ ws pending d, parses malloc (rbuf ws) [] (rbuf ws) →
  bytes_ok (rbuf ws) → bytes_ok pending → (length (rbuf ws) <= RBUF)%nat →
  ∃ r, pump_loop now malloc realloc send_ok sched WouldBlock ws pending d = Ok (Some r)
    ∧ (snd (fst r) ≠ -1 → 0 <= d → pump_result ws pending d r).
Proof using Hs.
  assert (∀ ws pending d, parses malloc (rbuf ws) [] (rbuf ws) →
    pump_result ws pending d (ws, [], d, pending)) as Hidle.
  { intros ws pending d Hp. exists [], [], (rbuf ws). rewrite app_nil_r. simpl.
    split_and!; [done|done|lia|by destruct ws|done]. }
  induction sched as [|k sched IH]; intros ws pending d Hp Hb Hbp Hl;
    cbn [pump_loop]; cbv zeta.
  { case_decide; eexists; (split; [reflexivity|]); intros _ _; by apply Hidle. }
  case_decide as Hfull; [eexists; split; [reflexivity|]; intros; by apply Hidle|].
  case_decide as Hpend; [eexists; split; [reflexivity|]; intros; by apply Hidle|].
  change (rbuf (set_rbuf ?b _)) with b. set (n := ((RBUF - length (rbuf ws)) `min` S k)%nat).
  assert (n <= RBUF - length (rbuf ws))%nat by (unfold n; lia). unfold RBUF in *. clearbody n.
  assert (bytes_ok (take n pending)) by by apply Forall_take.
  assert (length (take n pending) <= n)%nat by (rewrite length_take; lia).
  set (ws1 := set_rbuf (rbuf ws ++ take n pending) ws).
  destruct (decode_loop_spec (S (length (rbuf ws ++ take n pending))) ws1 d)
    as (ws2&ev&d2&ok&->&Hok);
    [by apply bytes_ok_app|simpl; rewrite length_app; lia|simpl; lia|]. simpl res_bind.
  destruct ok; [|eexists; split; [reflexivity|]; intros Hm1; by destruct Hm1].
  destruct (Hok eq_refl) as (fs&rest&Hparse&Hlr&Hbr&->&->&->). simpl in Hparse, Hlr.
  rewrite length_app in Hlr. unfold ws1 in *. rewrite handle_all_rbuf. simpl.
  set (ws3 := set_rbuf rest (set_rbuf _ _)).
  assert (parses malloc rest [] rest) as Hrest.
  { clear -Hparse. remember fs as fs' eqn:E. clear E.
    induction Hparse; [by constructor|done]. }
  destruct (IH ws3 (drop n pending) (d + Z.of_nat (length fs))) as (r&->&Hr); simpl;
    [done|done|by apply Forall_drop|lia|].
  destruct r as [[[ws4 ev4] ret4] rest4]. eexists. split; [reflexivity|]. simpl in *.
  intros Hret Hd. destruct (Hr Hret) as (consumed&gs&left&E1&E2&->&->&->); [lia|]. simpl in E2.
  exists (take n pending ++ consumed), (fs ++ gs), left. split_and!.
  - rewrite <- app_assoc, <- E1. by rewrite take_drop.
  - rewrite app_assoc. eapply parses_app; [done|done|by apply bytes_ok_app| |done].
    rewrite length_app. lia.
  - rewrite length_app. lia.
  - rewrite handle_all_app. unfold ws3. rewrite !handle_all_rbuf.
    destruct (handle_all ws fs) as [w1 e1]. simpl. destruct (handle_all w1 gs) as [w2 e2]. simpl.
    by destruct w2.
  - rewrite handle_all_app. unfold ws3. rewrite !handle_all_rbuf.
    destruct (handle_all ws fs) as [w1 e1]. simpl. by destruct (handle_all w1 gs).
Qed.
End Pump.

(** ** Reassembly: lemmas *)

Section Reassembly.
  Context (now : Z) (realloc : Z → bool) (send_ok : bytes → bool).
  Context (Hre : ∀ s, 0 < s < 2 ^ 63 → realloc s = true).

Lemma frag_grow_spec fuel : ∀ nc need, 0 < nc < 2 ^ 63 → need <= 2 ^ 62 →
  need <= nc * 2 ^ (Z.of_nat fuel - 1) → (0 < fuel)%nat →
  ∃ nc', frag_grow fuel nc need = Some nc' ∧ need <= nc' ∧ 0 < nc' < 2 ^ 63.
Proof.
  induction fuel as [|fuel IH]; intros nc need Hnc Hneed Hle Hf; [lia|]. cbn [frag_grow].
  case_decide; [|eexists; split; [reflexivity|]; lia]. rewrite u64_small by lia.
  destruct (decide (fuel = 0%nat)) as [->|Hf0]; [simpl in Hle; lia|].
  apply IH; [lia|done| |lia].
  replace (Z.of_nat (S fuel) - 1) with (1 + (Z.of_nat fuel - 1)) in Hle by lia.
  rewrite Z.pow_add_r in Hle by lia. lia.
Qed.

Lemma frag_reserve_spec cap need : 0 <= cap < 2 ^ 63 → need < 2 ^ 62 →
  ∃ nc, frag_reserve realloc cap need = Some nc ∧ need <= nc < 2 ^ 63 ∧ 0 <= nc.
Proof using Hre.
  intros Hc Hn. unfold frag_reserve. case_decide; [|exists cap; split; [done|lia]].
  destruct (frag_grow_spec 64 (if decide (cap = 0) then 64 else cap) need) as (nc&->&H1&H2).
  - case_decide; lia.
  - lia.
  - case_decide; lia.
  - lia.
  - rewrite Hre by lia. exists nc. split; [done|lia].
Qed.

(** A frame that may come between the first and the last fragment. *)
Inductive mid := Cont (p : bytes) | Ping (p : bytes) | Pong (p : bytes).
Definition mid_frame (m : mid) : frame :=
  match m with
  | Cont p => (MINI_WSOP_CONT, false, p)
  | Ping p => (MINI_WSOP_PING, true, p)
  | Pong p => (MINI_WSOP_PONG, true, p)
  end.
Definition mid_data (m : mid) : bytes := match m with Cont p => p | _ => [] end.

Definition is_data (e : event) : bool :=
  match e with OnText _ | OnBin _ => true | _ => false end.

Local Abbreviation hall := (handle_all now realloc send_ok).

(** Mid-message: the buffer holds what came so far. *)
Definition holding (op : Z) (acc : bytes) (ws : MiniWS) : Prop :=
  frag ws = Some acc ∧ frag_op ws = op ∧ 0 <= frag_cap ws < 2 ^ 63.

Lemma handle_pong_data op acc ws p ws' ev : holding op acc ws →
  ws_handle_frame now realloc send_ok ws MINI_WSOP_PING true p = (ws', ev) →
  holding op acc ws' ∧ List.filter is_data ev = [].
Proof.
  intros H. unfold ws_handle_frame, mini_ws_send_pong_raw, ws_send_frame. rewrite decide_True by done.
  repeat (first [case_decide|case_match]; simpl); intros; simplify_eq; simpl; split; try done.
Qed.

Lemma handle_cont op acc ws p fin : holding op acc ws → Z.of_nat (length (acc ++ p)) < 2 ^ 62 →
  ∃ ws', ws_handle_frame now realloc send_ok ws MINI_WSOP_CONT fin p
    = (ws', if fin then [deliver op (acc ++ p)] else [])
    ∧ (if fin then frag ws' = None else holding op (acc ++ p) ws').
Proof using Hre.
  intros (Hf&Ho&Hc) Hl. unfold ws_handle_frame. rewrite !decide_False by (done || by intros []).
  rewrite decide_True by done. rewrite Hf. rewrite length_app in Hl. rewrite u64_small by lia.
  destruct (frag_reserve_spec (frag_cap ws) (Z.of_nat (length acc) + Z.of_nat (length p)))
    as (nc&->&Hnc&Hnc'); [lia|lia|].
  destruct fin; eexists; rewrite ?Ho; (split; [reflexivity|]); [done|].
  unfold holding. simpl. split_and!; [done|done|lia|lia].
Qed.

Lemma handle_mids mids : ∀ op acc ws, holding op acc ws →
  Z.of_nat (length (acc ++ mjoin (mid_data <$> mids))) < 2 ^ 62 →
  ∃ ws' ev, hall ws (mid_frame <$> mids) = (ws', ev) ∧ List.filter is_data ev = []
    ∧ holding op (acc ++ mjoin (mid_data <$> mids)) ws'.
Proof using Hre.
  induction mids as [|m mids IH]; intros op acc ws Hh Hl.
  { eexists _, _. split; [reflexivity|]. simpl. by rewrite app_nil_r. }
  rewrite !fmap_cons in *. change (mjoin (mid_data m :: (mid_data <$> mids)))
    with (mid_data m ++ mjoin (mid_data <$> mids)) in *. rewrite app_assoc in *.
  assert (∃ ws1 ev1, hall ws [mid_frame m] = (ws1, ev1) ∧ List.filter is_data ev1 = []
    ∧ holding op (acc ++ mid_data m) ws1) as (ws1&ev1&E1&F1&H1).
  { destruct m as [p|p|p]; unfold mid_frame, mid_data in *; cbn [handle_all].
    - destruct (handle_cont op acc ws p false) as (ws'&->&Hh'); [done|rewrite !length_app in *; lia|].
      by eexists _, _.
    - destruct (ws_handle_frame now realloc send_ok ws MINI_WSOP_PING true p) as [w e] eqn:E.
      apply (handle_pong_data op acc) in E as [E1 E2]; [|done]. rewrite app_nil_r.
      eexists _, _. split; [reflexivity|]. by rewrite app_nil_r.
    - eexists _, _. split; [reflexivity|]. by rewrite !app_nil_r. }
  change (mid_frame m :: (mid_frame <$> mids)) with ([mid_frame m] ++ (mid_frame <$> mids)).
  rewrite handle_all_app, E1.
  destruct (IH op (acc ++ mid_data m) ws1 H1 Hl) as (ws2&ev2&->&F2&H2).
  eexists _, _. split; [reflexivity|]. split; [|done]. by rewrite List.filter_app, F1, F2.
Qed.
End Reassembly.

Lemma length_frame_small mk p : length mk = 4%nat → Z.of_nat (length p) < 126 →
  ∀ op, length (frame_bytes (Some mk) op true p) = (6 + length p)%nat.
Proof.
  intros Hmk Hp op. unfold frame_bytes, len_field, xor_mask. rewrite decide_True by done.
  rewrite !length_app, length_imap. simpl. lia.
Qed.

Lemma length_lcg n : ∀ seed, length (lcg_bytes n seed) = n.
Proof. induction n as [|n IH]; intros seed; simpl; [done|]. by rewrite IH. Qed.

Lemma send_frame_limit now send_ok ws op p : 0 <= op < 16 → Z.of_nat (length p) < 2 ^ 62 →
  let f := frame_bytes (Some (ws_mask now (u32 (mc ws + 1)))) op true p in
  let r := ws_send_frame now send_ok ws op p in
  ((8 < length p)%nat → r = (ws, -1, []))
  ∧ ((length p <= 8)%nat → send_ok f = true → snd (fst r) = 0 ∧ snd r = [Sent f]).
Proof.
  intros Hop Hl. cbv zeta. set (mk := ws_mask now (u32 (mc ws + 1))).
  assert (length mk = 4%nat) as Lmk by apply length_lcg.
  unfold ws_send_frame. fold mk. rewrite encode_frame_eq by done.
  assert (6 + length p <= length (frame_bytes (Some mk) op true p))%nat as Hge.
  { unfold frame_bytes, len_field, xor_mask. rewrite !length_app, length_imap.
    repeat case_decide; simpl; lia. }
  split; intros Hp.
  - by rewrite decide_False by lia.
  - intros Hok. rewrite (decide_True (P := _ <= 14)) by (rewrite length_frame_small by (done || lia); lia).
    rewrite i32_small by (rewrite length_frame_small by (done || lia); lia).
    rewrite decide_False by lia. rewrite Nat2Z.id, take_ge by lia. by rewrite Hok.
Qed.

(** ** Properties *)

(** C17. The pump implements the frame stream: whatever pieces the socket
    delivers, a pump that ends without closing has read a part [consumed] of the
    pending bytes, and its events, state and count are those of handling, in
    order, exactly the complete frames of the old buffer followed by [consumed];
    the incomplete rest is kept.  It never leaves the 8192-byte buffer. *)
Theorem ws_pump_refines now malloc realloc send_ok sched ws pending :
  malloc_sane malloc → state ws ≠ MINI_WS_CLOSED → dispatched_open ws = true →
  parses malloc (rbuf ws) [] (rbuf ws) → bytes_ok (rbuf ws) → bytes_ok pending →
  (length (rbuf ws) <= RBUF)%nat →
  ∃ r, mini_ws_pump now malloc realloc send_ok sched WouldBlock ws pending = Ok (Some r)
    ∧ (snd (fst r) ≠ -1 → pump_result now malloc realloc send_ok ws pending 0 r).
Proof.
  intros Hs Hst Hd Hp Hb Hbp Hl. unfold mini_ws_pump. rewrite decide_False by done.
  rewrite decide_False by (rewrite Hd; by intros []).
  destruct (pump_loop_spec now malloc realloc send_ok Hs sched ws pending 0) as (r&->&Hr); [done..|].
  destruct r as [[[w e] ret] rest]. eexists. split; [reflexivity|]. intros Hret. by apply Hr.
Qed.

Definition malloc63 (s : Z) : bool := bool_decide (0 < s < 2 ^ 63).
Lemma malloc63_sane : malloc_sane malloc63.
Proof. split; [|done]. intros s Hs. apply bool_decide_eq_false_2. lia. Qed.

Lemma ws_pump_refines_witness : let ws := WS 1 None 0 0 [] true 0 in
  ∃ r, mini_ws_pump 0 malloc63 (λ _, true) (λ _, true) [0; 5]%nat WouldBlock ws [0x81; 1; 65] = Ok (Some r)
    ∧ (snd (fst r) ≠ -1 → pump_result 0 malloc63 (λ _, true) (λ _, true) ws [0x81; 1; 65] 0 r).
Proof.
  apply (ws_pump_refines 0 malloc63 (λ _, true) (λ _, true) [0; 5]%nat (WS 1 None 0 0 [] true 0) [0x81; 1; 65]).
  - exact malloc63_sane.
  - discriminate.
  - reflexivity.
  - apply parses_need. reflexivity.
  - apply Forall_nil. exact I.
  - repeat constructor; discriminate || reflexivity.
  - apply Nat.leb_le. reflexivity.
Defined.

(** How the bytes are cut into [recv]s does not matter: two pumps that both
    read everything and end without closing deliver the same events in the same
    order, count the same frames, and reach the same state. *)
Theorem ws_pump_schedule_free now malloc realloc send_ok s1 s2 ws pending r1 r2 :
  malloc_sane malloc → state ws ≠ MINI_WS_CLOSED → dispatched_open ws = true →
  parses malloc (rbuf ws) [] (rbuf ws) → bytes_ok (rbuf ws) → bytes_ok pending →
  (length (rbuf ws) <= RBUF)%nat →
  mini_ws_pump now malloc realloc send_ok s1 WouldBlock ws pending = Ok (Some r1) →
  mini_ws_pump now malloc realloc send_ok s2 WouldBlock ws pending = Ok (Some r2) →
  snd (fst r1) ≠ -1 → snd (fst r2) ≠ -1 → snd r1 = [] → snd r2 = [] → r1 = r2.
Proof.
  intros Hs Hst Hd Hp Hb Hbp Hl. unfold mini_ws_pump.
  do 2 rewrite (decide_False (P := state ws = MINI_WS_CLOSED)) by done.
  rewrite decide_False by (rewrite Hd; by intros []).
  destruct (pump_loop_spec now malloc realloc send_ok Hs s1 ws pending 0) as (q1&->&Hr1); [done..|].
  destruct (pump_loop_spec now malloc realloc send_ok Hs s2 ws pending 0) as (q2&->&Hr2); [done..|].
  destruct q1 as [[[w1 e1] n1] t1], q2 as [[[w2 e2] n2] t2]. simpl.
  intros [= <-] [= <-] N1 N2 E1 E2. simpl in *. subst.
  destruct (Hr1 N1 ltac:(lia)) as (c1&fs1&l1&P1&Q1&->&->&->).
  destruct (Hr2 N2 ltac:(lia)) as (c2&fs2&l2&P2&Q2&->&->&->).
  rewrite app_nil_r in P1, P2. subst c1 c2.
  by destruct (parses_det _ _ _ _ Q1 _ _ Q2) as [-> ->].
Qed.

Lemma ws_pump_schedule_free_witness : let ws := WS 1 None 0 0 [] true 0 in
  let w' := WS 1 None 0 1 [] true 0 in
  (w', [OnText [65]], 1, @nil Z) = (w', [OnText [65]], 1, []).
Proof.
  apply (ws_pump_schedule_free 0 malloc63 (λ _, true) (λ _, true) [0; 5]%nat [1; 1; 1]%nat
    (WS 1 None 0 0 [] true 0) [0x81; 1; 65]).
  - exact malloc63_sane.
  - discriminate.
  - reflexivity.
  - apply parses_need. reflexivity.
  - apply Forall_nil. exact I.
  - repeat constructor; discriminate || reflexivity.
  - apply Nat.leb_le. reflexivity.
  - vm_compute. reflexivity.
  - vm_compute. reflexivity.
  - discriminate.
  - discriminate.
  - reflexivity.
  - reflexivity.
Defined.

(** C26. A fragmented message is delivered once, whole, at its final fragment,
    with the type of its first frame, whatever pings and pongs come between its
    fragments; no part of it is delivered before, and the reassembly buffer is
    empty again. *)
Theorem ws_reassembly now realloc send_ok ws op p0 mids pn :
  (∀ s, 0 < s < 2 ^ 63 → realloc s = true) → op = MINI_WSOP_TEXT ∨ op = MINI_WSOP_BIN →
  Z.of_nat (length ((p0 ++ mjoin (mid_data <$> mids)) ++ pn)) < 2 ^ 62 →
  ∃ ws' ev, handle_all now realloc send_ok ws
      ((op, false, p0) :: (mid_frame <$> mids) ++ [(MINI_WSOP_CONT, true, pn)]) = (ws', ev)
    ∧ List.filter is_data ev = [deliver op ((p0 ++ mjoin (mid_data <$> mids)) ++ pn)]
    ∧ frag ws' = None.
Proof.
  intros Hre Hop Hl. cbn [handle_all].
  assert (∃ w0, ws_handle_frame now realloc send_ok ws op false p0 = (w0, []) ∧ holding op p0 w0)
    as (w0&->&H0).
  { unfold ws_handle_frame. rewrite !(decide_False (P := op = _)) by (destruct Hop; by subst).
    rewrite decide_True by done. eexists. split; [reflexivity|]. unfold holding. simpl.
    rewrite !length_app in Hl. split_and!; [done|done|lia|lia]. }
  rewrite handle_all_app.
  destruct (handle_mids now realloc send_ok Hre mids op p0 w0 H0) as (w1&ev1&->&F1&H1).
  { rewrite length_app in Hl. lia. }
  destruct (handle_cont now realloc send_ok Hre op _ w1 pn true H1 Hl) as (w2&E2&Hn).
  cbn [handle_all]. rewrite E2. eexists _, _. split; [reflexivity|]. split; [|done].
  simpl. rewrite List.filter_app, F1. unfold deliver. by case_decide.
Qed.

Lemma ws_reassembly_witness :
  ∃ ws' ev, handle_all 0 (λ _, true) (λ _, true) (WS 1 None 0 0 [] true 0)
      ((1, false, [65]) :: (mid_frame <$> [Ping [1]; Cont [66]; Pong []]) ++ [(0, true, [67])]) = (ws', ev)
    ∧ List.filter is_data ev = [OnText [65; 66; 67]] ∧ frag ws' = None.
Proof.
  apply (ws_reassembly 0 (λ _, true) (λ _, true) (WS 1 None 0 0 [] true 0) 1 [65]
    [Ping [1]; Cont [66]; Pong []] [67]).
  - intros s Hs. reflexivity.
  - left. reflexivity.
  - reflexivity.
Defined.

(** The senders encode the whole frame into 14 bytes: on an open connection
    every text or binary message of more than 8 bytes fails with -1 and nothing
    is written, and every shorter one is sent as one masked frame. *)
Theorem ws_send_limit now send_ok ws data : state ws = MINI_WS_OPEN →
  Z.of_nat (length data) < 2 ^ 62 →
  ((8 < length data)%nat →
     mini_ws_send_text now send_ok ws data = (ws, -1, [])
     ∧ mini_ws_send_binary now send_ok ws data = (ws, -1, []))
  ∧ ((length data <= 8)%nat → (∀ f, send_ok f = true) →
     snd (mini_ws_send_text now send_ok ws data)
     = [Sent (frame_bytes (Some (ws_mask now (u32 (mc ws + 1)))) MINI_WSOP_TEXT true data)]).
Proof.
  intros Ho Hl. unfold mini_ws_send_text, mini_ws_send_binary. rewrite Ho.
  rewrite !decide_False by (by intros []). split.
  - intros H8. split; by apply send_frame_limit.
  - intros H8 Hs. by apply send_frame_limit.
Qed.

Lemma ws_send_limit_witness :
  mini_ws_send_text 0 (λ _, true) (WS 1 None 0 0 [] true 0) (str "nine char")
  = (WS 1 None 0 0 [] true 0, -1, []).
Proof.
  apply (ws_send_limit 0 (λ _, true) (WS 1 None 0 0 [] true 0) (str "nine char")).
  - reflexivity.
  - reflexivity.
  - apply Nat.ltb_lt. reflexivity.
Defined.

(** Without an Origin the handshake request ends with the blank line that
    ends an HTTP header; with one it does not, so the request is never complete.
    And a connection opens only on the accept key of its own key. *)
Theorem ws_handshake_text host port path key response :
  (∃ pre, ws_handshake_request host port path None key = pre ++ crlf ++ crlf)
  ∧ (∀ o, o ≠ [] → 10 ∉ o → ¬ ∃ pre, ws_handshake_request host port path (Some o) key = pre ++ crlf ++ crlf)
  ∧ (∀ ws, ws_handshake_done key response = Ok (Some ws) →
       state ws = MINI_WS_OPEN ∧ ws_recv_handshake response 64 = Ok (Some (mini_ws_accept_key key))).
Proof.
  split_and!.
  - by exists (ws_handshake_fields host port path key).
  - intros o Ho Hno [pre E]. unfold ws_handshake_request in E.
    set (h := ws_handshake_fields host port path key) in *. clearbody h.
    rewrite !app_assoc in E. apply app_inj_2 in E as [E _]; [|done].
    destruct (exists_last Ho) as (o'&c&->). rewrite !app_assoc in E.
    change crlf with ([13] ++ [10]) in E. rewrite !app_assoc in E.
    apply app_inj_2 in E as [_ [= ->]]; [|done].
    apply Hno. rewrite elem_of_app. right. by apply list_elem_of_singleton.
  - intros ws (a&Ha&E)%res_bind_Ok. destruct a as [a|]; [|done].
    destruct (streq a _) eqn:Es; [|done]. apply streq_true in Es as ->. by injection E as <-.
Qed.

(** A partial frame that fills the buffer is never read past. *)
Lemma ws_pump_stall now malloc realloc send_ok sched fin ws pending :
  state ws = MINI_WS_OPEN → dispatched_open ws = true → length (rbuf ws) = RBUF →
  mini_ws_pump now malloc realloc send_ok sched fin ws pending = Ok (Some (ws, [], 0, pending)).
Proof.
  intros Ho Hd Hl. unfold mini_ws_pump. rewrite decide_False by (rewrite Ho; done).
  rewrite decide_False by (rewrite Hd; by intros []).
  assert (pump_loop now malloc realloc send_ok sched fin ws pending 0 = Ok (Some (ws, [], 0, pending))) as ->;
    [|done].
  destruct sched; cbn [pump_loop]; cbv zeta; by rewrite decide_True by lia.
Qed.

(** A close frame followed by the end of the stream closes twice. *)
Lemma ws_pump_double_close :
  mini_ws_pump 0 malloc63 (λ _, true) (λ _, true) [9; 9]%nat Eof (WS 1 None 0 0 [] true 0) [0x88; 2; 3; 0xe8]
  = Ok (Some (WS 3 None 0 0 [] true 0, [OnClose 1000 []; OnClose 1000 []], 1, [])).
Proof. by vm_compute. Qed.
