(* ===== verification/Png.v ===== *)
(** * PNG encoder, BMP and TGA decoders (src/src/mini_png.c)

    The table-driven CRC-32, Adler-32, the stored-deflate PNG writer, and the
    image readers.  [malloc] is the outcome of each call, in call order.  A byte
    of a fresh buffer that is never written is [None]. *)

From S2P Require Import Prelude CString.

(** ** Checksums *)

Definition CRC_POLY : Z := 0xEDB88320.

(** One turn of [for (k < 8)]. *)
Definition crc_bit (c : Z) : Z :=
  if decide (Z.land c 1 = 0) then Z.shiftr c 1 else Z.lxor CRC_POLY (Z.shiftr c 1).

Definition png_crc_table : list Z := map (λ i, Nat.iter 8 crc_bit (Z.of_nat i)) (seq 0 256).

Definition crc_step (c b : Z) : Z :=
  Z.lxor (png_crc_table !!! Z.to_nat (Z.land (Z.lxor c b) 0xFF)) (Z.shiftr c 8).

Definition png_crc32 (p : bytes) : Z := Z.lxor (foldl crc_step 0xFFFFFFFF p) 0xFFFFFFFF.

Definition adler_step (ab : Z * Z) (x : Z) : Z * Z :=
  let a := u32 (fst ab + x) mod 65521 in (a, u32 (snd ab + a) mod 65521).

Definition png_adler32 (p : bytes) : Z :=
  let '(a, b) := foldl adler_step (1, 0) p in Z.lor (u32 (Z.shiftl b 16)) a.

(** ** Writer *)

Definition put_be32 (v : Z) : bytes :=
  [u8 (Z.shiftr v 24); u8 (Z.shiftr v 16); u8 (Z.shiftr v 8); u8 v].

Definition png_chunk (type data : bytes) : bytes :=
  put_be32 (u32 (Z.of_nat (length data))) ++ type ++ data ++ put_be32 (png_crc32 (type ++ data)).

(** The filtered scanlines. *)
Definition png_raw (rgba : bytes) (w h : nat) : bytes :=
  mjoin (map (λ y, 0 :: slice (y * (w * 4)) (w * 4) rgba) (seq 0 h)).

Definition MAX_STORED : nat := Z.to_nat 65535.

(** [while (off < raw_len)]: [raw] is what is left. *)
Fixpoint stored_blocks (fuel : nat) (raw : bytes) : bytes :=
  match fuel with
  | O => []
  | S fuel =>
    match raw with
    | [] => []
    | _ =>
      let '(chunk, last) :=
        if decide (MAX_STORED < length raw)%nat then (MAX_STORED, 0) else (length raw, 1) in
      let len16 := u16 (Z.of_nat chunk) in
      let nlen16 := 2 ^ 16 - 1 - len16 in
      [last; u8 (Z.land len16 0xFF); u8 (Z.land (Z.shiftr len16 8) 0xFF);
       u8 (Z.land nlen16 0xFF); u8 (Z.land (Z.shiftr nlen16 8) 0xFF)]
      ++ take chunk raw ++ stored_blocks fuel (drop chunk raw)
    end
  end.

Definition png_zlib (raw : bytes) : bytes :=
  [0x78; 0x01] ++ stored_blocks (length raw) raw ++ put_be32 (png_adler32 raw).

Definition png_sig : bytes := [137; 80; 78; 71; 13; 10; 26; 10].

Definition png_ihdr (w h : Z) : bytes := put_be32 w ++ put_be32 h ++ [8; 6; 0; 0; 0].

(** [Ok None] is -1.  The two copies are into blocks of [zlib_cap] and [total]
    bytes. *)
Definition mini_png_encode_rgba (malloc : nat → bool) (rgba : option bytes) (w h : Z)
    : res (option bytes) :=
  match rgba with
  | None => Ok None
  | Some rgba =>
    if decide (w <= 0 ∨ h <= 0) then Ok None else
    let row := u64 (w * 4) in
    let raw_len := u64 (u64 (row + 1) * h) in
    if negb (malloc 0%nat) then Ok None else
    if decide (Z.of_nat (length rgba) < row * h) then UB else
    let raw := png_raw rgba (Z.to_nat w) (Z.to_nat h) in
    let blocks := u64 (raw_len + 65534) / 65535 in
    let zlib_cap := u64 (2 + blocks * (5 + 65535) + 4) in
    if negb (malloc 1%nat) then Ok None else
    let zlib := png_zlib raw in
    if decide (raw_len < Z.of_nat (length raw) ∨ zlib_cap < Z.of_nat (length zlib)) then UB else
    let zo := Z.of_nat (length zlib) in
    let total := u64 (8 + (4 + 4 + 13 + 4) + (4 + 4 + zo + 4) + (4 + 4 + 0 + 4)) in
    if negb (malloc 2%nat) then Ok None else
    let png := png_sig ++ png_chunk (str "IHDR") (png_ihdr w h)
               ++ png_chunk (str "IDAT") zlib ++ png_chunk (str "IEND") [] in
    if decide (Z.of_nat (length png) = total) then Ok (Some png) else UB
  end.

(** ** Readers *)

(** [int32_t] of four bytes, [uint32_t] of four bytes. *)
Definition rd32 (data : bytes) (i : nat) : Z := le_Z (slice i 4 data).
Definition rd_i32 (data : bytes) (i : nat) : Z := i32 (rd32 data i).

(** One BGR(A) pixel as RGBA. *)
Definition pixel (bpp : Z) (src : bytes) : bytes :=
  [rd src 2; rd src 1; rd src 0; if decide (bpp = 32) then rd src 3 else 255].

Definition pixels (bpp : Z) (w : nat) (src : bytes) : bytes :=
  mjoin (map (λ x, pixel bpp (drop (x * Z.to_nat (bpp / 8)) src)) (seq 0 w)).

Record image := Img { img_w : Z; img_h : Z; img_rgba : list (option Z) }.

(** The rows from [y] on; a row outside the file ends the loop and leaves the
    rest unwritten. *)
Fixpoint bmp_rows (n : nat) (y : Z) (data : bytes) (data_offset w h bpp row_stride : Z) (flip_y : bool)
    : list (option Z) :=
  match n with
  | O => []
  | S n' =>
    let src_y := if flip_y then h - 1 - y else y in
    let row_off := u64 (data_offset + u64 (src_y * row_stride)) in
    if decide (Z.of_nat (length data) < u64 (row_off + u64 (w * (bpp / 8))))
    then replicate (n * Z.to_nat w * 4) None
    else (Some <$> pixels bpp (Z.to_nat w) (drop (Z.to_nat row_off) data))
         ++ bmp_rows n' (y + 1) data data_offset w h bpp row_stride flip_y
  end.

Definition bmp_decode (malloc : bool) (data : bytes) : res (option image) :=
  let data_offset := rd32 data 10 in
  let w := rd_i32 data 18 in
  let h := rd_i32 data 22 in
  let bpp := le_Z (slice 28 2 data) in
  if decide (w <= 0 ∨ h = 0 ∨ (bpp ≠ 24 ∧ bpp ≠ 32) ∨ Z.of_nat (length data) <= data_offset)
  then Ok None else
  if decide (h = - 2 ^ 31) then UB else
  let flip_y := bool_decide (0 < h) in
  let h := Z.abs h in
  if negb malloc then Ok None else
  if decide (2 ^ 31 <= w * (bpp / 8) + 3) then UB else
  let row_stride := (w * (bpp / 8) + 3) / 4 * 4 in
  Ok (Some (Img w h (bmp_rows (Z.to_nat h) 0 data data_offset w h bpp row_stride flip_y))).

(** Pixel [y] of the TGA source goes to row [y] or [h - 1 - y]. *)
Definition tga_decode (malloc : bool) (data : bytes) : res (option image) :=
  let w := le_Z (slice 12 2 data) in
  let h := le_Z (slice 14 2 data) in
  let bpp := rd data 16 in
  let id_len := rd data 0 in
  if decide (0 < w ∧ 0 < h ∧ (bpp = 24 ∨ bpp = 32) ∧ 18 + id_len < i32 (Z.of_nat (length data))) then
    if negb malloc then Ok None else
    if decide (18 + id_len + w * h * (bpp / 8) <= Z.of_nat (length data)) then
      let src := drop (Z.to_nat (18 + id_len)) data in
      let src_row y := pixels bpp (Z.to_nat w) (drop (y * Z.to_nat w * Z.to_nat (bpp / 8)) src) in
      let rows := map src_row (seq 0 (Z.to_nat h)) in
      Ok (Some (Img w h (Some <$> mjoin (if decide (Z.land (rd data 17) 0x20 = 0) then rev rows else rows))))
    else UB
  else Ok None.

Definition mini_png_decode_rgba (malloc : bool) (data : option bytes) : res (option image) :=
  match data with
  | None => Ok None
  | Some data =>
    if decide (length data < 18)%nat then Ok None else
    if decide (rd data 0 = 66 ∧ rd data 1 = 77 ∧ (54 <= length data)%nat)
    then bmp_decode malloc data
    else if decide (rd data 2 = 2) then tga_decode malloc data
    else Ok None
  end.

Example png_crc_check : png_crc32 (str "123456789") = 0xCBF43926.
Proof. vm_compute. reflexivity. Qed.

(** ** Checksums: specification *)

(** CRC-32 bit by bit (ISO 3309): shift in each byte, reduce eight times. *)
Definition crc_spec (p : bytes) : Z :=
  Z.lxor (foldl (λ c b, Nat.iter 8 crc_bit (Z.lxor c b)) 0xFFFFFFFF p) 0xFFFFFFFF.

(** Adler-32 (RFC 1950): the two sums without reduction. *)
Definition adler_sums (p : bytes) : Z * Z :=
  foldl (λ '(a, b) x, (a + x, b + (a + x))) (1, 0) p.
Definition adler_spec (p : bytes) : Z :=
  let '(a, b) := adler_sums p in b mod 65521 * 2 ^ 16 + a mod 65521.

Lemma land_1_odd c : (Z.land c 1 = 0) ↔ Z.odd c = false.
Proof.
  change 1 with (2 ^ 1 - 1). rewrite land_mod by lia. rewrite Zmod_odd.
  by destruct (Z.odd c).
Qed.

Lemma crc_bit_lxor a b : crc_bit (Z.lxor a b) = Z.lxor (crc_bit a) (crc_bit b).
Proof.
  assert (∀ c, crc_bit c = Z.lxor (Z.shiftr c 1) (if Z.odd c then CRC_POLY else 0)) as H.
  { intros c. unfold crc_bit. destruct (decide (Z.land c 1 = 0)) as [E|E].
    - apply land_1_odd in E as ->. by rewrite Z.lxor_0_r.
    - destruct (Z.odd c) eqn:Eo; [by rewrite Z.lxor_comm|by destruct E; apply land_1_odd]. }
  rewrite !H, Z.shiftr_lxor, <- !Z.bit0_odd, Z.lxor_spec.
  apply Z.bits_inj'. intros i Hi. rewrite !Z.lxor_spec.
  destruct (Z.testbit a 0), (Z.testbit b 0); simpl; rewrite ?Z.bits_0;
    destruct (Z.testbit (Z.shiftr a 1) i), (Z.testbit (Z.shiftr b 1) i), (Z.testbit CRC_POLY i); done.
Qed.

Lemma crc_bits_lxor k a b :
  Nat.iter k crc_bit (Z.lxor a b) = Z.lxor (Nat.iter k crc_bit a) (Nat.iter k crc_bit b).
Proof. induction k as [|k IH]; [done|]. simpl. by rewrite IH, crc_bit_lxor. Qed.

(** Bits that are still above the window are only shifted. *)
Lemma crc_bits_high x k : (k <= 8)%nat →
  Nat.iter k crc_bit (Z.shiftl x 8) = Z.shiftl x (8 - Z.of_nat k).
Proof.
  induction k as [|k IH]; intros Hk; [done|]. simpl Nat.iter. rewrite IH by lia.
  unfold crc_bit. rewrite decide_True.
  - rewrite Z.shiftr_shiftl_l by lia. f_equal. lia.
  - apply land_1_odd. rewrite <- Z.bit0_odd, Z.shiftl_spec_low by lia. done.
Qed.

Lemma split_low8 c : c = Z.lxor (Z.land c 0xFF) (Z.shiftl (Z.shiftr c 8) 8).
Proof.
  apply Z.bits_inj'. intros i Hi. rewrite Z.lxor_spec, Z.land_spec.
  change 0xFF with (Z.ones 8). destruct (decide (i < 8)).
  - rewrite Z.ones_spec_low, Z.shiftl_spec_low, andb_true_r, xorb_false_r by lia. done.
  - rewrite Z.ones_spec_high, Z.shiftl_spec_high, Z.shiftr_spec, andb_false_r by lia.
    rewrite xorb_false_l. f_equal. lia.
Qed.

Lemma crc_step_spec c b : byte_ok b → 0 <= c →
  crc_step c b = Nat.iter 8 crc_bit (Z.lxor c b).
Proof.
  intros Hb Hc. unfold crc_step. set (x := Z.lxor c b).
  assert (0 <= Z.land x 0xFF < 256) as Hx.
  { change 0xFF with (2 ^ 8 - 1). rewrite land_mod by lia. mlia. }
  assert (png_crc_table !!! Z.to_nat (Z.land x 255) = Nat.iter 8 crc_bit (Z.land x 255)) as ->.
  { unfold png_crc_table. apply list_lookup_total_correct. rewrite list_lookup_fmap, lookup_seq_lt by lia.
    cbn [fmap option_fmap option_map Nat.add]. by rewrite Z2Nat.id by lia. }
  rewrite (split_low8 x) at 2. rewrite crc_bits_lxor, crc_bits_high by lia.
  change (8 - Z.of_nat 8) with 0. rewrite Z.shiftl_0_r. f_equal.
  unfold x. rewrite Z.shiftr_lxor, (shiftr_div b) by lia. unfold byte_ok in Hb.
  by rewrite Z.div_small, Z.lxor_0_r by lia.
Qed.

Lemma crc_bit_nonneg c : 0 <= c → 0 <= crc_bit c.
Proof.
  intros Hc. unfold crc_bit. assert (0 <= Z.shiftr c 1) by (by apply Z.shiftr_nonneg).
  case_decide; [done|]. apply Z.lxor_nonneg. unfold CRC_POLY. lia.
Qed.

Lemma png_crc32_eq p : bytes_ok p → png_crc32 p = crc_spec p.
Proof.
  intros Hp. unfold png_crc32, crc_spec. f_equal.
  assert (0 <= 0xFFFFFFFF) as Hc by lia. revert Hc. generalize 0xFFFFFFFF as c.
  induction Hp as [|b p Hb Hp IH]; intros c Hc; [done|]. cbn [foldl].
  rewrite crc_step_spec by done. apply IH.
  assert (0 <= Z.lxor c b) by (apply Z.lxor_nonneg; unfold byte_ok in Hb; lia).
  by repeat apply crc_bit_nonneg.
Qed.

Lemma adler_fold p : ∀ a b A B, bytes_ok p → a = A mod 65521 → b = B mod 65521 →
  foldl adler_step (a, b) p
  = (fst (foldl (λ '(a, b) x, (a + x, b + (a + x))) (A, B) p) mod 65521,
     snd (foldl (λ '(a, b) x, (a + x, b + (a + x))) (A, B) p) mod 65521).
Proof.
  induction p as [|x p IH]; intros a b A B Hp Ha Hb; [by subst|].
  apply Forall_cons in Hp as [Hx Hp]. unfold byte_ok in Hx. simpl foldl.
  unfold adler_step at 2. cbn [fst snd]. cbv zeta.
  assert (0 <= a < 65521 ∧ 0 <= b < 65521) as [Ra Rb] by (subst; mlia).
  rewrite (u32_small (a + x)) by lia.
  assert ((a + x) mod 65521 = (A + x) mod 65521) as E by (subst; by rewrite Zplus_mod_idemp_l).
  rewrite E. rewrite u32_small by mlia. apply IH; [done|done|].
  subst. by rewrite Zplus_mod_idemp_l, Zplus_mod_idemp_r.
Qed.

Lemma png_adler32_eq p : bytes_ok p → png_adler32 p = adler_spec p.
Proof.
  intros Hp. unfold png_adler32, adler_spec, adler_sums.
  rewrite (adler_fold p 1 0 1 0) by done.
  destruct (foldl _ (1, 0) p) as [A B] eqn:E. cbn [fst snd].
  rewrite shiftl_mul, u32_small by mlia. rewrite (lor_add _ _ 16) by mlia. done.
Qed.

Lemma adler_spec_range p : 0 <= adler_spec p < 2 ^ 32.
Proof. unfold adler_spec. destruct (adler_sums p) as [A B]. mlia. Qed.

(** ** A reader for the images the writer produces *)

Definition read_chunk (ty l : bytes) : option (bytes * bytes) :=
  let len := Z.to_nat (be_Z (take 4 l)) in
  let data := take len (drop 8 l) in
  if decide (slice 4 4 l = ty ∧ length data = len ∧
             be_Z (take 4 (drop len (drop 8 l))) = crc_spec (ty ++ data))
  then Some (data, drop 4 (drop len (drop 8 l))) else None.

(** Stored deflate blocks (RFC 1951 §3.2.4). *)
Fixpoint inflate_stored (fuel : nat) (l : bytes) : option (bytes * bytes) :=
  match fuel, l with
  | S fuel, last :: a :: b :: c :: d :: rest =>
    let len := Z.to_nat (a + 256 * b) in
    let data := take len rest in
    if decide (a + 256 * b + (c + 256 * d) = 65535 ∧ length data = len) then
      if decide (last = 1) then Some (data, drop len rest)
      else match inflate_stored fuel (drop len rest) with
           | Some (more, rest) => Some (data ++ more, rest)
           | None => None
           end
    else None
  | _, _ => None
  end.

(** RFC 1950: header divisible by 31, no dictionary, stored data, Adler-32. *)
Definition zlib_read (z : bytes) : option bytes :=
  match z with
  | cmf :: flg :: z =>
    if decide (Z.land cmf 0xF = 8 ∧ (cmf * 256 + flg) mod 31 = 0 ∧ Z.land flg 0x20 = 0) then
      match inflate_stored (length z) z with
      | Some (raw, tail) =>
        if decide (length tail = 4%nat ∧ be_Z tail = adler_spec raw) then Some raw else None
      | None => None
      end
    else None
  | _ => None
  end.

Fixpoint unfilter (row h : nat) (raw : bytes) : option bytes :=
  match h with
  | O => if decide (raw = []) then Some [] else None
  | S h =>
    match raw with
    | 0 :: raw =>
      if decide (length (take row raw) = row)
      then app (take row raw) <$> unfilter row h (drop row raw) else None
    | _ => None
    end
  end.

Definition png_read (l : bytes) : option (Z * Z * bytes) :=
  if decide (take 8 l = png_sig) then
    match read_chunk (str "IHDR") (drop 8 l) with
    | Some (hd, l) =>
      let w := be_Z (take 4 hd) in let h := be_Z (slice 4 4 hd) in
      if decide (drop 8 hd = [8; 6; 0; 0; 0]) then
        match read_chunk (str "IDAT") l with
        | Some (z, l) =>
          match read_chunk (str "IEND") l with
          | Some ([], []) =>
            match zlib_read z with
            | Some raw =>
              match unfilter (Z.to_nat w * 4) (Z.to_nat h) raw with
              | Some rgba => Some (w, h, rgba)
              | None => None
              end
            | None => None
            end
          | _ => None
          end
        | None => None
        end
      else None
    | None => None
    end
  else None.

Lemma be_put_be32 v : be_Z (put_be32 v) = v mod 2 ^ 32.
Proof. unfold be_Z, put_be32. simpl foldl. rewrite !shiftr_div by lia. unfold u8. mlia. Qed.

Lemma put_be32_ok v : bytes_ok (put_be32 v).
Proof. repeat (apply Forall_cons; split; [apply u8_range|]). by apply Forall_nil. Qed.

Lemma lxor32 a b : 0 <= a < 2 ^ 32 → 0 <= b < 2 ^ 32 → 0 <= Z.lxor a b < 2 ^ 32.
Proof. by apply lxor_lt. Qed.

Lemma crc_bit_range c : 0 <= c < 2 ^ 32 → 0 <= crc_bit c < 2 ^ 32.
Proof.
  intros Hc. unfold crc_bit. rewrite shiftr_div by lia. case_decide; [mlia|].
  apply lxor32; [unfold CRC_POLY; lia|mlia].
Qed.

Lemma crc_spec_range p : bytes_ok p → 0 <= crc_spec p < 2 ^ 32.
Proof.
  intros Hp. unfold crc_spec. apply lxor32; [|lia].
  assert (0 <= 0xFFFFFFFF < 2 ^ 32) as Hc by lia. revert Hc. generalize 0xFFFFFFFF as c.
  induction Hp as [|b p Hb Hp IH]; intros c Hc; [done|]. cbn [foldl]. apply IH.
  assert (0 <= Z.lxor c b < 2 ^ 32) as Hx by (apply lxor32; unfold byte_ok in Hb; lia).
  by repeat apply crc_bit_range.
Qed.

Lemma read_png_chunk ty data tail : length ty = 4%nat → bytes_ok ty → bytes_ok data →
  Z.of_nat (length data) < 2 ^ 32 →
  read_chunk ty (png_chunk ty data ++ tail) = Some (data, tail).
Proof.
  intros Lt Ht Hd Hl. unfold read_chunk, png_chunk. rewrite (u32_small (Z.of_nat _)) by lia.
  rewrite <- !app_assoc.
  assert (length (put_be32 (Z.of_nat (length data))) = 4%nat) as LL by done.
  assert (be_Z (put_be32 (Z.of_nat (length data))) = Z.of_nat (length data)) as LV
    by (rewrite be_put_be32, Z.mod_small by lia; done).
  revert LL LV. generalize (put_be32 (Z.of_nat (length data))) as L. intros L LL LV.
  rewrite (take_app_length' L) by done. rewrite LV, Nat2Z.id.
  assert (∀ x, drop 8 (L ++ ty ++ x) = x) as ->.
  { intros x. rewrite app_assoc. apply drop_app_length'. rewrite length_app, Lt, LL. done. }
  rewrite (take_app_length data), (drop_app_length data), take_app_length', drop_app_length' by done.
  assert (slice 4 4 (L ++ ty ++ data ++ put_be32 (png_crc32 (ty ++ data)) ++ tail) = ty) as ->.
  { unfold slice. rewrite drop_app_length' by done. by apply take_app_length'. }
  assert (bytes_ok (ty ++ data)) as Hb by by apply bytes_ok_app.
  rewrite be_put_be32, png_crc32_eq by done.
  rewrite Z.mod_small by by apply crc_spec_range. by rewrite decide_True by done.
Qed.

Lemma stored_blocks_S fuel raw : raw ≠ [] →
  stored_blocks (S fuel) raw
  = let '(chunk, last) :=
      if decide (MAX_STORED < length raw)%nat then (MAX_STORED, 0) else (length raw, 1) in
    let len16 := u16 (Z.of_nat chunk) in
    let nlen16 := 2 ^ 16 - 1 - len16 in
    [last; u8 (Z.land len16 0xFF); u8 (Z.land (Z.shiftr len16 8) 0xFF);
     u8 (Z.land nlen16 0xFF); u8 (Z.land (Z.shiftr nlen16 8) 0xFF)]
    ++ take chunk raw ++ stored_blocks fuel (drop chunk raw).
Proof. by destruct raw. Qed.

Lemma max_stored_Z : Z.of_nat MAX_STORED = 65535.
Proof. done. Qed.
#[local] Opaque MAX_STORED.

Lemma stored_blocks_nil fuel : stored_blocks fuel [] = [].
Proof. by destruct fuel. Qed.

Lemma length_stored_blocks fuel : ∀ raw, (length raw <= fuel)%nat →
  Z.of_nat (length (stored_blocks fuel raw))
  = Z.of_nat (length raw) + 5 * ((Z.of_nat (length raw) + 65534) / 65535).
Proof.
  induction fuel as [|fuel IH]; intros raw Hf; [by destruct raw; [|simpl in Hf; lia]|].
  destruct (decide (raw = [])) as [->|Hr]; [done|]. rewrite stored_blocks_S by done.
  rename raw into r. assert (1 <= length r)%nat by (destruct r; [done|simpl; lia]).
  pose proof max_stored_Z as HM.
  case_decide as E; cbn [app length]; rewrite length_app, length_take.
  - rewrite !Nat2Z.inj_succ, Nat2Z.inj_add, IH; rewrite length_drop; [|lia].
    rewrite Nat2Z.inj_sub, Nat.min_l, HM by lia.
    replace (Z.of_nat (length r) + 65534) with (Z.of_nat (length r) - 65535 + 65534 + 1 * 65535) by lia.
    rewrite Z.div_add by lia. lia.
  - rewrite drop_all, !Nat2Z.inj_succ, Nat2Z.inj_add, Nat.min_id.
    rewrite stored_blocks_nil.
    cbn [length]. rewrite <- (Z.div_unique (Z.of_nat (length r) + 65534) 65535 1 (Z.of_nat (length r) - 1)) by lia. lia.
Qed.

Lemma inflate_stored_blocks fuel : ∀ raw tail fuel', raw ≠ [] → (length raw <= fuel)%nat →
  (length (stored_blocks fuel raw) <= fuel')%nat →
  inflate_stored fuel' (stored_blocks fuel raw ++ tail) = Some (raw, tail).
Proof.
  induction fuel as [|fuel IH]; intros raw tail fuel' Hr Hf Hf'; [by destruct raw; [|simpl in Hf; lia]|].
  rewrite stored_blocks_S in * by done.
  rename raw into r. assert (1 <= length r)%nat as L1 by (destruct r; [done|simpl; lia]).
  assert (∀ v, 0 <= v < 2 ^ 16 →
    u8 (Z.land v 0xFF) + 256 * u8 (Z.land (Z.shiftr v 8) 0xFF) = v) as B.
  { intros v Hv. rewrite shiftr_div by lia. change 0xFF with (2 ^ 8 - 1). rewrite !land_mod by lia.
    unfold u8. mlia. }
  assert (∀ x, _) as B1 by (intros x; apply (B (u16 x)), u16_range).
  assert (∀ x, _) as B2 by (intros x; apply (B (2 ^ 16 - 1 - u16 x)); pose proof (u16_range x); lia).
  clear B. pose proof max_stored_Z as HM.
  revert Hf'. case_decide as E; intros Hf'; cbn [app length] in *;
    (destruct fuel' as [|fuel']; [lia|]); cbn [inflate_stored].
  - rewrite B1, B2. unfold u16. rewrite HM, Z.mod_small by lia.
    change (Z.to_nat 65535) with MAX_STORED.
    rewrite <- app_assoc, take_app_length', drop_app_length' by (rewrite length_take; lia).
    rewrite decide_True by (rewrite length_take; lia). rewrite decide_False by lia.
    rewrite length_app in Hf'. rewrite IH.
    + rewrite take_drop. done.
    + intros Hn. apply (f_equal length) in Hn. rewrite length_drop in Hn. simpl in Hn. lia.
    + rewrite length_drop. lia.
    + lia.
  - rewrite B1, B2. unfold u16. rewrite Z.mod_small, Nat2Z.id by lia.
    rewrite <- app_assoc, firstn_all, drop_all.
    rewrite stored_blocks_nil.
    rewrite take_app_length, drop_app_length. rewrite !decide_True by lia. done.
Qed.

(** ** Filtered scanlines *)

Definition raw_rows (row : nat) (rgba : bytes) (k n : nat) : bytes :=
  mjoin (map (λ y, 0 :: slice (y * row) row rgba) (seq k n)).

Lemma length_raw_rows row rgba n : ∀ k, ((k + n) * row <= length rgba)%nat →
  length (raw_rows row rgba k n) = (n * (row + 1))%nat.
Proof.
  induction n as [|n IH]; intros k H; [done|]. unfold raw_rows. cbn [seq map].
  change (mjoin (?x :: ?y)) with (x ++ mjoin y). rewrite length_app.
  fold (raw_rows row rgba (S k) n). rewrite IH by lia. cbn [length].
  unfold slice. rewrite length_take, length_drop. nia.
Qed.

Lemma unfilter_raw_rows row rgba n : ∀ k, ((k + n) * row <= length rgba)%nat →
  unfilter row n (raw_rows row rgba k n) = Some (slice (k * row) (n * row) rgba).
Proof.
  induction n as [|n IH]; intros k H.
  { cbn [unfilter raw_rows seq map]. rewrite decide_True by done. done. }
  unfold raw_rows. cbn [seq map]. change (mjoin (?x :: ?y)) with (x ++ mjoin y).
  fold (raw_rows row rgba (S k) n). cbn [app unfilter].
  assert (length (slice (k * row) row rgba) = row) as L.
  { unfold slice. rewrite length_take, length_drop. nia. }
  rewrite take_app_length', drop_app_length' by done. rewrite L, decide_True by done.
  rewrite IH by lia. cbn [fmap option_fmap option_map]. f_equal.
  unfold slice. replace (S k * row)%nat with (k * row + row)%nat by lia.
  rewrite <- drop_drop. replace (S n * row)%nat with (row + n * row)%nat by lia.
  by rewrite take_take_drop.
Qed.

Lemma raw_rows_ok row rgba k n : bytes_ok rgba → bytes_ok (raw_rows row rgba k n).
Proof.
  intros H. apply Forall_join, Forall_forall. intros r Hr.
  apply list_elem_of_In, in_map_iff in Hr as (y & <- & _).
  apply Forall_cons. split; [unfold byte_ok; lia|]. by apply Forall_take, Forall_drop.
Qed.

Lemma zlib_read_png_zlib raw : raw ≠ [] → bytes_ok raw → zlib_read (png_zlib raw) = Some raw.
Proof.
  intros Hr Hb. unfold png_zlib. set (s := stored_blocks (length raw) raw).
  cbn [app zlib_read]. rewrite decide_True by done.
  unfold s. rewrite inflate_stored_blocks by (rewrite ?length_app; done || lia).
  rewrite be_put_be32, png_adler32_eq, Z.mod_small by (done || apply adler_spec_range).
  by rewrite decide_True.
Qed.

Lemma length_png_zlib raw : Z.of_nat (length (png_zlib raw))
  = Z.of_nat (length raw) + 5 * ((Z.of_nat (length raw) + 65534) / 65535) + 6.
Proof.
  unfold png_zlib. rewrite !length_app, !Nat2Z.inj_add, length_stored_blocks by done.
  cbn [length put_be32]. lia.
Qed.

Lemma stored_blocks_ok fuel : ∀ raw, bytes_ok raw → bytes_ok (stored_blocks fuel raw).
Proof.
  induction fuel as [|fuel IH]; intros raw H; [by apply Forall_nil|].
  destruct (decide (raw = [])) as [->|Hr]; [by apply Forall_nil|]. rewrite stored_blocks_S by done.
  case_decide; (cbv zeta; apply bytes_ok_app; split;
    [repeat (apply Forall_cons; split; [apply u8_range || (unfold byte_ok; lia)|]); by apply Forall_nil
    |apply bytes_ok_app; split; [by apply Forall_take|by apply IH, Forall_drop]]).
Qed.

Lemma png_zlib_ok raw : bytes_ok raw → bytes_ok (png_zlib raw).
Proof.
  intros H. unfold png_zlib. rewrite !bytes_ok_app. repeat split.
  - repeat (apply Forall_cons; split; [unfold byte_ok; lia|]). by apply Forall_nil.
  - by apply stored_blocks_ok.
  - apply put_be32_ok.
Qed.

Lemma png_read_chunks w h z raw rgba : 0 <= w < 2 ^ 32 → 0 <= h < 2 ^ 32 →
  bytes_ok z → Z.of_nat (length z) < 2 ^ 32 → zlib_read z = Some raw →
  unfilter (Z.to_nat w * 4) (Z.to_nat h) raw = Some rgba →
  png_read (png_sig ++ png_chunk (str "IHDR") (png_ihdr w h)
            ++ png_chunk (str "IDAT") z ++ png_chunk (str "IEND") []) = Some (w, h, rgba).
Proof.
  intros Hw Hh Hz Lz Ez Eu. unfold png_read.
  rewrite take_app_length', drop_app_length', decide_True by done.
  assert (∀ ty, (λ t, length t = 4%nat ∧ bytes_ok t) (str ty) →
    ∀ d t, bytes_ok d → Z.of_nat (length d) < 2 ^ 32 →
    read_chunk (str ty) (png_chunk (str ty) d ++ t) = Some (d, t)) as R.
  { intros ty [L O] d t Hd Hl. by apply read_png_chunk. }
  assert (∀ s, s = "IHDR" ∨ s = "IDAT" ∨ s = "IEND" → length (str s) = 4%nat ∧ bytes_ok (str s)) as T.
  { intros s [->|[->| ->]]; (split; [done|]); apply (bool_decide_unpack _); by vm_compute. }
  rewrite (R "IHDR"); [|by apply T; auto| |done].
  2:{ unfold png_ihdr. rewrite !bytes_ok_app. repeat split; try apply put_be32_ok.
      repeat (apply Forall_cons; split; [unfold byte_ok; lia|]). by apply Forall_nil. }
  unfold png_ihdr at 2. rewrite decide_True by done.
  rewrite (R "IDAT"); [|by apply T; auto|done|done].
  rewrite <- (app_nil_r (png_chunk (str "IEND") [])).
  rewrite (R "IEND"); [|by apply T; auto|by apply Forall_nil|done].
  rewrite Ez. change (take 4 (png_ihdr w h)) with (put_be32 w).
  change (slice 4 4 (png_ihdr w h)) with (put_be32 h).
  rewrite !be_put_be32, !Z.mod_small by done. by rewrite Eu.
Qed.

(** A size for which every chunk length fits its 32-bit field. *)
Definition png_fits (rgba : bytes) (w h : Z) : Prop :=
  0 < w ∧ 0 < h ∧ (w * 4 + 1) * h < 2 ^ 32 - 2 ^ 20 ∧
  Z.of_nat (length rgba) = w * h * 4 ∧ bytes_ok rgba.

Section encode.
  Context (rgba : bytes) (w h : Z) (F : png_fits rgba w h).
Let raw := png_raw rgba (Z.to_nat w) (Z.to_nat h).

Lemma png_raw_facts : Z.of_nat (length raw) = (w * 4 + 1) * h ∧ bytes_ok raw ∧ raw ≠ [] ∧
  unfilter (Z.to_nat w * 4) (Z.to_nat h) raw = Some rgba.
Proof using F.
  destruct F as (Hw & Hh & Hs & Hl & Hb).
  assert ((0 + Z.to_nat h) * (Z.to_nat w * 4) <= length rgba)%nat as L by nia.
  assert (Z.of_nat (length raw) = (w * 4 + 1) * h) as Lr.
  { unfold raw. change (png_raw _ _ _) with (raw_rows (Z.to_nat w * 4) rgba 0 (Z.to_nat h)).
    rewrite length_raw_rows by done. nia. }
  split; [done|]. split; [by apply raw_rows_ok|]. split.
  - intros E. rewrite E in Lr. simpl in Lr. nia.
  - unfold raw. change (png_raw _ _ _) with (raw_rows (Z.to_nat w * 4) rgba 0 (Z.to_nat h)).
    rewrite unfilter_raw_rows by done. f_equal. unfold slice. rewrite drop_0. apply take_ge. nia.
Qed.

Lemma png_encode_eq malloc :
  mini_png_encode_rgba malloc (Some rgba) w h
  = if malloc 0%nat && malloc 1%nat && malloc 2%nat
    then Ok (Some (png_sig ++ png_chunk (str "IHDR") (png_ihdr w h)
                   ++ png_chunk (str "IDAT") (png_zlib raw) ++ png_chunk (str "IEND") []))
    else Ok None.
Proof using F.
  destruct png_raw_facts as (Lr & Hb & _). pose proof (length_png_zlib raw) as Lz.
  destruct F as (Hw & Hh & Hs & Hl & _). unfold mini_png_encode_rgba. fold raw.
  rewrite decide_False by lia.
  assert (w < 2 ^ 30 ∧ h < 2 ^ 30) as [Ww Wh] by nia.
  rewrite !(u64_small (w * 4)), !(u64_small (w * 4 + 1)), !(u64_small ((w * 4 + 1) * h)) by nia.
  destruct (malloc 0%nat); [|done]. cbn [negb andb]. rewrite decide_False by nia.
  destruct (malloc 1%nat); [|done]. cbn [negb andb].
  rewrite (u64_small (_ + 65534)) by nia. rewrite Lr in Lz.
  set (n := (w * 4 + 1) * h) in *. assert (0 < n) by (unfold n; nia).
  assert (n <= (n + 65534) / 65535 * 65535 < n + 65535) as Hn by mlia.
  set (B := (n + 65534) / 65535) in *.
  rewrite (u64_small (2 + _ + 4)) by lia. rewrite decide_False by lia.
  destruct (malloc 2%nat); [|done]. cbn [negb]. rewrite decide_True; [done|].
  rewrite u64_small by lia. rewrite !length_app. unfold png_chunk. rewrite !length_app. cbn [length put_be32].
  change (length (str "IHDR")) with 4%nat. change (length (str "IDAT")) with 4%nat.
  change (length (str "IEND")) with 4%nat. change (length png_sig) with 8%nat.
  change (length (png_ihdr w h)) with 13%nat. lia.
Qed.

End encode.

(** The table-driven CRC-32 is the bit-serial CRC of ISO 3309 for every
    byte string, and [png_adler32], which reduces at each step, is the Adler-32
    of RFC 1950, which reduces the two plain sums once. *)
Theorem png_checksums p : bytes_ok p →
  png_crc32 p = crc_spec p ∧ png_adler32 p = adler_spec p.
Proof. intros Hp. split; [by apply png_crc32_eq|by apply png_adler32_eq]. Qed.

Lemma png_checksums_witness :
  bytes_ok (str "123456789") ∧ png_crc32 (str "123456789") = 0xCBF43926 ∧
  crc_spec (str "123456789") = 0xCBF43926 ∧ adler_spec (str "123456789") = 0x091E01DE.
Proof.
  assert (bytes_ok (str "123456789")) as H by (apply (bool_decide_unpack _); by vm_compute).
  destruct (png_checksums _ H) as [E1 E2]. split; [done|]. rewrite <- E1, <- E2.
  split; [vm_compute; reflexivity|]. split; vm_compute; reflexivity.
Defined.

(** Screenshot round trip: for an image whose data length fits a PNG chunk,
    the encoder returns, it never writes outside its three buffers, it fails
    exactly when one of its three allocations does, and the bytes it returns
    are a PNG that an independent reader (chunks with bit-serial CRCs, a zlib
    stream of stored deflate blocks with its Adler-32, filter type 0) reads
    back to the same width, height and pixels. *)
Theorem png_roundtrip malloc rgba w h : png_fits rgba w h →
  match mini_png_encode_rgba malloc (Some rgba) w h with
  | Ok (Some png) => png_read png = Some (w, h, rgba)
  | Ok None => ∃ i, (i < 3)%nat ∧ malloc i = false
  | UB => False
  end.
Proof.
  intros F. rewrite (png_encode_eq _ _ _ F). destruct (png_raw_facts _ _ _ F) as (Lr & Hb & Hn & Hu).
  destruct (malloc 0%nat) eqn:E0; [|by exists 0%nat; eauto with lia].
  destruct (malloc 1%nat) eqn:E1; [|by exists 1%nat; eauto with lia].
  destruct (malloc 2%nat) eqn:E2; [|by exists 2%nat; eauto with lia].
  cbn [andb]. pose proof F as (Hw & Hh & Hs & Hl & _).
  apply (png_read_chunks _ _ _ (png_raw rgba (Z.to_nat w) (Z.to_nat h))); try nia; try done.
  - by apply png_zlib_ok.
  - rewrite length_png_zlib, Lr. mlia.
  - by apply zlib_read_png_zlib.
Qed.

Lemma png_roundtrip_witness :
  png_fits [1; 2; 3; 4; 255; 0; 255; 128] 2 1 ∧
  match mini_png_encode_rgba (λ _, true) (Some [1; 2; 3; 4; 255; 0; 255; 128]) 2 1 with
  | Ok (Some png) => png_read png = Some (2, 1, [1; 2; 3; 4; 255; 0; 255; 128])
  | _ => False
  end.
Proof.
  assert (png_fits [1; 2; 3; 4; 255; 0; 255; 128] 2 1) as F.
  { split_and!; [lia|lia|lia|done|]. apply (bool_decide_unpack _); by vm_compute. }
  split; [exact F|]. generalize (png_roundtrip (λ _, true) _ _ _ F).
  rewrite png_encode_eq by done. done.
Defined.

(** ** Readers *)

(** The four bytes of pixel ([x], [y]). *)
Definition at_pixel (m : image) (x y : nat) : list (option Z) :=
  slice (4 * (y * Z.to_nat (img_w m) + x)) 4 (img_rgba m).

(** A TGA the decoder accepts; whether its pixel data is all there. *)
Definition is_tga (data : bytes) : Prop :=
  (18 <= length data)%nat ∧ Z.of_nat (length data) < 2 ^ 31 ∧ rd data 0 ≠ 66 ∧ rd data 2 = 2 ∧
  0 < le_Z (slice 12 2 data) ∧ 0 < le_Z (slice 14 2 data) ∧
  (rd data 16 = 24 ∨ rd data 16 = 32) ∧ 18 + rd data 0 < Z.of_nat (length data) ∧ 0 <= rd data 0.

Definition tga_complete (data : bytes) : Prop :=
  18 + rd data 0 + le_Z (slice 12 2 data) * le_Z (slice 14 2 data) * (rd data 16 / 8)
  <= Z.of_nat (length data).
#[export] Instance tga_complete_dec data : Decision (tga_complete data).
Proof. unfold tga_complete. apply _. Defined.

(** A BMP the decoder accepts with all its rows, in either direction. *)
Definition bmp_stride (data : bytes) : Z :=
  (rd_i32 data 18 * (le_Z (slice 28 2 data) / 8) + 3) / 4 * 4.
Definition is_bmp (data : bytes) : Prop :=
  (54 <= length data)%nat ∧ Z.of_nat (length data) < 2 ^ 63 ∧ rd data 0 = 66 ∧ rd data 1 = 77 ∧
  0 < rd_i32 data 18 ∧ rd_i32 data 22 ≠ 0 ∧ - 2 ^ 31 < rd_i32 data 22 ∧
  (le_Z (slice 28 2 data) = 24 ∨ le_Z (slice 28 2 data) = 32) ∧
  rd_i32 data 18 * (le_Z (slice 28 2 data) / 8) + 3 < 2 ^ 31 ∧
  0 <= rd32 data 10 ∧ rd32 data 10 + Z.abs (rd_i32 data 22) * bmp_stride data <= Z.of_nat (length data).

Lemma length_mjoin_const {A} n (ls : list (list A)) :
  Forall (λ l, length l = n) ls → length (mjoin ls) = (length ls * n)%nat.
Proof.
  induction 1 as [|l ls Hl Hls IH]; [done|]. change (mjoin (l :: ls)) with (l ++ mjoin ls).
  rewrite length_app, IH, Hl. simpl. lia.
Qed.

Lemma slice_mjoin_const {A} n (ls : list (list A)) i l :
  Forall (λ l, length l = n) ls → ls !! i = Some l → slice (i * n) n (mjoin ls) = l.
Proof.
  revert i. induction ls as [|l' ls IH]; intros i H Hi; [done|].
  apply Forall_cons in H as [Hl H]. change (mjoin (l' :: ls)) with (l' ++ mjoin ls).
  destruct i as [|i]; simpl in Hi.
  - simplify_eq. by apply slice_app_l.
  - unfold slice. replace (S i * n)%nat with (length l' + i * n)%nat by lia.
    rewrite <- drop_drop, drop_app_length. by apply IH.
Qed.

Lemma slice_slice {A} a b c d (l : list A) : (c + d <= b)%nat →
  slice c d (slice a b l) = slice (a + c) d l.
Proof.
  intros H. unfold slice. rewrite skipn_firstn_comm, drop_drop, take_take. f_equal. lia.
Qed.

Lemma pixels_length bpp w src : length (pixels bpp w src) = (w * 4)%nat.
Proof.
  unfold pixels. rewrite (length_mjoin_const 4).
  - by rewrite length_map, length_seq.
  - apply Forall_forall. intros l Hl. by apply list_elem_of_In, in_map_iff in Hl as (? & <- & _).
Qed.

Lemma pixels_slice bpp w src x : (x < w)%nat →
  slice (x * 4) 4 (pixels bpp w src) = pixel bpp (drop (x * Z.to_nat (bpp / 8)) src).
Proof.
  intros H. unfold pixels. apply slice_mjoin_const.
  - apply Forall_forall. intros l Hl. by apply list_elem_of_In, in_map_iff in Hl as (? & <- & _).
  - by rewrite list_lookup_fmap, lookup_seq_lt.
Qed.

(** Pixels of an image made of rows. *)
Lemma at_pixel_rows w h rows x y r : (x < Z.to_nat w)%nat →
  Forall (λ l, length l = (Z.to_nat w * 4)%nat) rows → rows !! y = Some r →
  at_pixel (Img w h (mjoin rows)) x y = slice (x * 4) 4 r.
Proof.
  intros Hx Hr Hy. unfold at_pixel. cbn [img_w img_rgba].
  rewrite <- (slice_mjoin_const _ _ _ _ Hr Hy), slice_slice by lia. f_equal. lia.
Qed.

Lemma fmap_mjoin {A B} (f : A → B) (ls : list (list A)) : f <$> mjoin ls = mjoin (fmap f <$> ls).
Proof.
  induction ls as [|l ls IH]; [done|]. change (mjoin (l :: ls)) with (l ++ mjoin ls).
  by rewrite fmap_app, IH.
Qed.

Lemma rev_seq_lookup {A} (f : nat → A) n y : (y < n)%nat →
  rev (map f (seq 0 n)) !! y = Some (f (n - 1 - y)%nat).
Proof.
  intros H. rewrite rev_alt. change (rev_append ?l []) with (reverse l).
  rewrite reverse_lookup by by rewrite length_map, length_seq.
  rewrite length_map, length_seq, list_lookup_fmap, lookup_seq_lt by lia.
  simpl. do 2 f_equal. lia.
Qed.

Lemma decode_tga data : is_tga data →
  mini_png_decode_rgba true (Some data) = tga_decode true data.
Proof.
  intros (H & _ & H0 & H2 & _). unfold mini_png_decode_rgba.
  rewrite decide_False by lia. rewrite decide_False by tauto. by rewrite decide_True.
Qed.

(** TGA: a file the decoder accepts is read outside its buffer exactly when
    it is shorter than the header's width x height pixels (nothing checks it);
    otherwise the image has the header's size and each of its pixels is the
    file's BGR(A) pixel as RGBA, alpha 255 in 24-bit files, rows bottom-up
    unless bit 5 of the descriptor is set. *)
Theorem tga_decode_pixels data : is_tga data →
  if decide (tga_complete data) then
    ∃ m, mini_png_decode_rgba true (Some data) = Ok (Some m) ∧
      img_w m = le_Z (slice 12 2 data) ∧ img_h m = le_Z (slice 14 2 data) ∧
      ∀ x y, (x < Z.to_nat (img_w m))%nat → (y < Z.to_nat (img_h m))%nat →
        at_pixel m x y = Some <$> pixel (rd data 16) (drop (Z.to_nat (18 + rd data 0)
          + ((if decide (Z.land (rd data 17) 0x20 = 0) then Z.to_nat (img_h m) - 1 - y else y)
             * Z.to_nat (img_w m) + x) * Z.to_nat (rd data 16 / 8)) data)
  else mini_png_decode_rgba true (Some data) = UB.
Proof.
  intros T. rewrite (decode_tga _ T). destruct T as (H & Hl & _ & _ & Hw & Hh & Hb & Hs & Hid).
  destruct (decide (tga_complete data)) as [C|C]; unfold tga_complete in C;
    unfold tga_decode; rewrite (i32_small (Z.of_nat _)) by lia;
    rewrite decide_True by done; cbn [negb]; [rewrite decide_True by done|by rewrite decide_False].
  set (w := le_Z (slice 12 2 data)) in *. set (h := le_Z (slice 14 2 data)) in *.
  eexists. split; [done|]. cbn [img_w img_h]. split; [done|]. split; [done|]. intros x y Hx Hy.
  rewrite fmap_mjoin. set (B := Z.to_nat (rd data 16 / 8)).
  set (src_row := λ y, pixels _ _ _). set (sy := if decide _ then (_ - 1 - y)%nat else y).
  rewrite (at_pixel_rows _ _ _ _ _ (Some <$> src_row sy)); [|done| |].
  - unfold slice. rewrite <- fmap_drop, <- fmap_take. f_equal.
    change (take 4 _) with (slice (x * 4) 4 (src_row sy)). unfold src_row.
    rewrite pixels_slice by done. rewrite !drop_drop. do 2 f_equal. fold B. lia.
  - apply Forall_fmap, Forall_forall. intros r Hr.
    assert (∃ z, r = src_row z) as [z ->].
    { case_decide; [apply list_elem_of_In, in_rev, in_map_iff in Hr|apply list_elem_of_In, in_map_iff in Hr];
        destruct Hr as (z & <- & _); eauto. }
    cbn. rewrite length_fmap. apply pixels_length.
  - rewrite list_lookup_fmap. unfold sy. case_decide.
    + by rewrite rev_seq_lookup.
    + by rewrite list_lookup_fmap, lookup_seq_lt.
Qed.

Definition tga_sample : bytes :=
  [0; 0; 2; 0; 0; 0; 0; 0; 0; 0; 0; 0; 2; 0; 1; 0; 24; 0; 10; 20; 30; 40; 50; 60].

Lemma tga_decode_pixels_witness :
  is_tga tga_sample ∧ is_tga (take 20 tga_sample) ∧
  mini_png_decode_rgba true (Some (take 20 tga_sample)) = UB ∧
  mini_png_decode_rgba true (Some tga_sample)
  = Ok (Some (Img 2 1 (Some <$> [30; 20; 10; 255; 60; 50; 40; 255]))).
Proof.
  assert (is_tga tga_sample) as T1.
  { split_and!; try (vm_compute; (reflexivity || lia || discriminate)); vm_compute; lia. }
  assert (is_tga (take 20 tga_sample)) as T2.
  { split_and!; try (vm_compute; (reflexivity || lia || discriminate)); vm_compute; lia. }
  split; [exact T1|]. split; [exact T2|].
  generalize (tga_decode_pixels _ T1). generalize (tga_decode_pixels _ T2). intros H2 _. split.
  - revert H2. by rewrite decide_False by (vm_compute; congruence).
  - vm_compute. reflexivity.
Defined.

Lemma bmp_rows_complete data off w h bpp stride flip n : ∀ y,
  0 <= y → y + Z.of_nat n <= h → 0 <= off → 0 <= w * (bpp / 8) <= stride → 
  off + h * stride <= Z.of_nat (length data) → Z.of_nat (length data) < 2 ^ 63 →
  bmp_rows n y data off w h bpp stride flip
  = mjoin (map (λ i : nat, Some <$> pixels bpp (Z.to_nat w)
      (drop (Z.to_nat (off + (if flip : bool then h - 1 - Z.of_nat i else Z.of_nat i) * stride)) data))
      (seq (Z.to_nat y) n)).
Proof.
  induction n as [|n IH]; intros y Hy Hn Ho Hs Hd Hl; [done|]. cbn [bmp_rows seq map].
  change (mjoin (?a :: ?b)) with (a ++ mjoin b).
  set (src := if flip then h - 1 - y else y).
  assert (0 <= src ∧ (src + 1) * stride <= h * stride) as [Hs1 Hs2].
  { unfold src. destruct flip; nia. }
  assert (0 <= src * stride) by nia.
  rewrite (u64_small (src * stride)), (u64_small (off + _)), (u64_small (w * _)), u64_small by lia.
  rewrite decide_False by lia. rewrite IH by lia.
  replace (Z.to_nat (y + 1)) with (S (Z.to_nat y)) by lia. by rewrite Z2Nat.id.
Qed.

(** BMP: a 24- or 32-bit file with all its rows present is decoded without
    an access outside the file or an overflow, into an image of the header's
    size each pixel of which is the file's BGR(A) pixel as RGBA (alpha 255 in
    24-bit files), rows padded to four bytes and bottom-up exactly when the
    stored height is positive; the height INT_MIN is negated, undefined. *)
Theorem bmp_decode_pixels data : is_bmp data →
  let bpp := le_Z (slice 28 2 data) in
  ∃ m, mini_png_decode_rgba true (Some data) = Ok (Some m) ∧
    img_w m = rd_i32 data 18 ∧ img_h m = Z.abs (rd_i32 data 22) ∧
    ∀ x y, (x < Z.to_nat (img_w m))%nat → (y < Z.to_nat (img_h m))%nat →
      at_pixel m x y = Some <$> pixel bpp (drop (Z.to_nat (rd32 data 10
        + (if decide (0 < rd_i32 data 22) then img_h m - 1 - Z.of_nat y else Z.of_nat y) * bmp_stride data
        + Z.of_nat x * (bpp / 8))) data).
Proof.
  intros (H & Hl & H0 & H1 & Hw & Hh0 & Hh1 & Hb & Hov & Hoff & Hsz) bpp.
  unfold mini_png_decode_rgba. rewrite decide_False by lia. rewrite decide_True by (split_and!; done || lia).
  unfold bmp_decode. fold bpp in Hb, Hov |- *. fold (bmp_stride data).
  set (w := rd_i32 data 18) in *. set (h := Z.abs (rd_i32 data 22)) in *.
  assert (0 < h) as Hh by (unfold h; lia).
  assert (bmp_stride data = (w * (bpp / 8) + 3) / 4 * 4) as Es by done.
  assert (0 <= w * (bpp / 8) <= bmp_stride data) as Hst.
  { rewrite Es. destruct Hb as [-> | ->]; mlia. }
  assert (0 < bmp_stride data) as Hst0.
  { rewrite Es. destruct Hb as [-> | ->]; mlia. }
  rewrite decide_False by nia. rewrite decide_False by lia. cbn [negb]. rewrite decide_False by lia.
  rewrite bmp_rows_complete by (rewrite <- ?Es; lia). rewrite <- Es.
  eexists. split; [done|]. cbn [img_w img_h]. split; [done|]. split; [done|]. intros x y Hx Hy.
  rewrite (at_pixel_rows _ _ _ _ _ (Some <$> pixels bpp (Z.to_nat w) (drop (Z.to_nat (rd32 data 10
    + (if decide (0 < rd_i32 data 22) then h - 1 - Z.of_nat y else Z.of_nat y) * bmp_stride data)) data)));
    [|done| |].
  - unfold slice. rewrite <- fmap_drop, <- fmap_take. f_equal.
    change (take 4 (drop (x * 4) ?p)) with (slice (x * 4) 4 p).
    rewrite pixels_slice by done. rewrite drop_drop. do 2 f_equal.
    assert (0 <= bpp / 8) by (destruct Hb as [-> | ->]; mlia).
    case_decide; nia.
  - apply Forall_forall. intros r Hr. apply list_elem_of_In, in_map_iff in Hr as (z & <- & _).
    rewrite length_fmap. apply pixels_length.
  - rewrite list_lookup_fmap, lookup_seq_lt by done. simpl. do 6 f_equal.
    rewrite bool_decide_decide. by case_decide.
Qed.

Definition bmp_sample : bytes :=
  [66; 77] ++ replicate 8 0 ++ [54; 0; 0; 0; 40; 0; 0; 0; 1; 0; 0; 0; 2; 0; 0; 0; 1; 0; 24; 0]
  ++ replicate 24 0 ++ [1; 2; 3; 0; 4; 5; 6; 0].

Lemma bmp_decode_pixels_witness :
  is_bmp bmp_sample ∧ ∃ m, mini_png_decode_rgba true (Some bmp_sample) = Ok (Some m) ∧
    img_w m = 1 ∧ img_h m = 2 ∧ at_pixel m 0 0 = Some <$> [6; 5; 4; 255].
Proof.
  assert (is_bmp bmp_sample) as B.
  { split_and!; try (vm_compute; (reflexivity || lia || discriminate)); vm_compute; lia. }
  split; [exact B|]. destruct (bmp_decode_pixels _ B) as (m & E & W & H & P).
  exists m. split; [exact E|]. split; [exact W|]. split; [exact H|].
  rewrite (P 0%nat 0%nat).
  - rewrite H. vm_compute. reflexivity.
  - rewrite W. vm_compute. lia.
  - rewrite H. vm_compute. lia.
Defined.
