(* ===== verification/Cookies.v ===== *)
(** * Cookie jar (src/src/mini_cookies.c)

    Dates, Set-Cookie parsing, the jar with its purge, replacement and
    eviction, and the Cookie header.  The jar [g_jar] is the list of its first
    [g_jar_n] entries; the clock is an argument of each call of [time].  [long]
    and [time_t] have 64 bits. *)

From S2P Require Import Prelude CString.
From stdpp Require Import gmap list.
Open Scope Z_scope.

Inductive MiniSameSite := MINI_SAME_NONE | MINI_SAME_LAX | MINI_SAME_STRICT.

Record MiniCookie := Cookie {
  name : bytes; value : bytes; domain : bytes; path : bytes; expires : Z; max_age : Z;
  secure : bool; http_only : bool; same_site : MiniSameSite; used : Z }.

(** ** Dates *)

Definition COOKIE_MONTHS : list bytes :=
  map str ["Jan"; "Feb"; "Mar"; "Apr"; "May"; "Jun"; "Jul"; "Aug"; "Sep"; "Oct"; "Nov"; "Dec"].

(** [strncasecmp (m, COOKIE_MONTHS[i], 3) == 0]; [None] is -1. *)
Definition month_num (m : bytes) : option nat :=
  if decide (m = []) then None
  else fst <$> list_find (λ x, strcaseeq (take 3 m) (take 3 x) = true) COOKIE_MONTHS.

Definition dsm : list Z := [0; 31; 59; 90; 120; 151; 181; 212; 243; 273; 304; 334].

Definition is_leap_rem (year : Z) : Prop :=
  (Z.rem year 4 = 0 ∧ Z.rem year 100 ≠ 0) ∨ Z.rem year 400 = 0.
#[export] Instance is_leap_rem_dec y : Decision (is_leap_rem y).
Proof. unfold is_leap_rem. apply _. Defined.

(** Integer division of C truncates.  The year and the day are [int]. *)
Definition mkgmtime_utc (year : Z) (month : nat) (mday hour min sec : Z) : res Z :=
  if decide (year - 1970 < - 2 ^ 31 ∨ mday - 1 < - 2 ^ 31) then UB else
  let days := (year - 1970) * 365
              + Z.quot (year - 1969) 4 - Z.quot (year - 1901) 100 + Z.quot (year - 1601) 400 in
  let days := days + dsm !!! month in
  let days := if decide (1 < month)%nat then if decide (is_leap_rem year) then days + 1 else days else days in
  let days := days + (mday - 1) in
  Ok (days * 86400 + hour * 3600 + min * 60 + sec).

(** Conversions of [sscanf]: [%d] (the value must be an [int]), [%3s], [%3[^-]],
    a literal; a blank in the format is [skip c_isspace]. *)
Definition scan_d (s : bytes) : res (option (Z * bytes)) :=
  let s := skip c_isspace s in
  let neg := bool_decide (hd0 s = 45) in
  let s := if decide (hd0 s = 45 ∨ hd0 s = 43) then tail s else s in
  let '(ds, rest) := scan c_isdigit (length s) s in
  if decide (ds = []) then Ok None else
  let v := if neg then - digits 0 ds else digits 0 ds in
  if decide (- 2 ^ 31 <= v < 2 ^ 31) then Ok (Some (v, rest)) else UB.

Definition scan_word (f : Z → bool) (s : bytes) : option (bytes * bytes) :=
  let '(w, rest) := scan f 3 s in if decide (w = []) then None else Some (w, rest).

Definition res_opt {A B} (m : res (option A)) (k : A → res (option B)) : res (option B) :=
  (let* o := m in match o with None => Ok None | Some a => k a end)%c.

(** [%d:%d:%d] *)
Definition scan_time (s : bytes) : res (option (Z * Z * Z)) :=
  res_opt (scan_d s) (λ '(hh, s),
  res_opt (Ok (expect 58 s)) (λ s,
  res_opt (scan_d s) (λ '(mm, s),
  res_opt (Ok (expect 58 s)) (λ s,
  res_opt (scan_d s) (λ '(ss, _), Ok (Some (hh, mm, ss))))))).

(** "%d %3s %d %d:%d:%d" *)
Definition scan_rfc1123 (p : bytes) : res (option (Z * bytes * Z * (Z * Z * Z))) :=
  res_opt (scan_d p) (λ '(day, s),
  res_opt (Ok (scan_word (λ c, negb (c_isspace c)) (skip c_isspace s))) (λ '(mname, s),
  res_opt (scan_d s) (λ '(year, s),
  res_opt (scan_time s) (λ t, Ok (Some (day, mname, year, t)))))).

(** "%d-%3[^-]-%d %d:%d:%d" *)
Definition scan_rfc850 (p : bytes) : res (option (Z * bytes * Z * (Z * Z * Z))) :=
  res_opt (scan_d p) (λ '(day, s),
  res_opt (Ok (expect 45 s)) (λ s,
  res_opt (Ok (scan_word (λ c, negb (bool_decide (c = 45))) s)) (λ '(mname, s),
  res_opt (Ok (expect 45 s)) (λ s,
  res_opt (scan_d s) (λ '(year, s),
  res_opt (scan_time s) (λ t, Ok (Some (day, mname, year, t)))))))).

Definition date_value (day : Z) (mname : bytes) (year : Z) (t : Z * Z * Z) : res Z :=
  match month_num mname with
  | None => Ok 0
  | Some mon => let '(hh, mm, ss) := t in mkgmtime_utc year mon day hh mm ss
  end.

Definition parse_http_date (s : bytes) : res Z :=
  if decide (s = []) then Ok 0 else
  let p := skip (λ c, c_isalpha c || bool_decide (c = 44) || c_isspace c) s in
  (let* r := scan_rfc1123 p in
   match r with
   | Some (day, mname, year, t) => date_value day mname year t
   | None =>
     let* r := scan_rfc850 p in
     match r with
     | Some (day, mname, year, t) =>
       let year := if decide (year < 100) then year + (if decide (year < 70) then 2000 else 1900) else year in
       date_value day mname year t
     | None => Ok 0
     end
   end)%c.

(** ** Matching *)

Definition lc (s : bytes) : bytes := map c_tolower s.

Definition host_matches (domain host : bytes) : bool :=
  match domain with
  | [] => false
  | _ =>
    let dl := length domain in let hl := length host in
    if decide (hl = dl ∧ streq host domain = true) then true
    else bool_decide ((dl < hl)%nat ∧ rd host (hl - dl - 1) = 46 ∧ drop (hl - dl) host = domain)
  end.

Definition path_matches (cpath req_path : bytes) : bool :=
  match cpath with
  | [] => false
  | _ =>
    if streq cpath (str "/") then true else
    let cl := length cpath in let rl := length req_path in
    if decide (rl < cl)%nat then false else
    if negb (streq (take cl req_path) cpath) then false else
    if decide (rl = cl) then true
    else bool_decide (rd req_path cl = 47 ∨ rd cpath (cl - 1) = 47)
  end.

(** ** Set-Cookie *)

(** [now] is what [time] returns; [Ok 0] is a session cookie. *)
Definition parse_expiry (now : Z) (max_age expires : bytes) : res Z :=
  if decide (max_age ≠ []) then
    let s := c_atol max_age in
    if decide (s <= 0) then Ok 1
    else if decide (now + s < 2 ^ 63) then Ok (now + s) else UB
  else if decide (expires ≠ []) then parse_http_date expires
  else Ok 0.

(** The domain after canonicalisation, empty when it is rejected. *)
Definition canon_domain (domain host : bytes) : bytes :=
  match domain with
  | [] => lc (take 255 host)
  | d :: rest =>
    let domain := lc (if decide (d = 46) then rest else domain) in
    if host_matches domain host then domain else []
  end.

Definition set_path (v : bytes) (c : MiniCookie) : MiniCookie :=
  Cookie (name c) (value c) (domain c) v (expires c) (max_age c) (secure c) (http_only c) (same_site c) (used c).
Definition set_domain (v : bytes) (c : MiniCookie) : MiniCookie :=
  Cookie (name c) (value c) v (path c) (expires c) (max_age c) (secure c) (http_only c) (same_site c) (used c).
Definition set_expires (v : Z) (c : MiniCookie) : MiniCookie :=
  Cookie (name c) (value c) (domain c) (path c) v (max_age c) (secure c) (http_only c) (same_site c) (used c).
Definition set_secure (c : MiniCookie) : MiniCookie :=
  Cookie (name c) (value c) (domain c) (path c) (expires c) (max_age c) true (http_only c) (same_site c) (used c).
Definition set_http_only (c : MiniCookie) : MiniCookie :=
  Cookie (name c) (value c) (domain c) (path c) (expires c) (max_age c) (secure c) true (same_site c) (used c).
Definition set_same_site (v : MiniSameSite) (c : MiniCookie) : MiniCookie :=
  Cookie (name c) (value c) (domain c) (path c) (expires c) (max_age c) (secure c) (http_only c) v (used c).

(** Text up to the first [x], and what follows it if there is one. *)
Definition cut (x : Z) (s : bytes) : bytes * option bytes :=
  match strchr s x with
  | Some i => (take i s, Some (drop (S i) s))
  | None => (s, None)
  end.

(** The cookie, [max_age] and [expires] so far. *)
Definition attr_state : Type := MiniCookie * bytes * bytes.

(** One attribute: the first [alen] bytes of [a], which runs to the end of the
    text.  The length of the value is computed from the length of the name
    after that has been cut to 31, so that behind a longer name it is too
    large: the copy then runs over the [;] and, when the text ends too soon,
    over its final NUL. *)
Definition set_attr (st : attr_state) (a : bytes) (alen : nat) : res attr_state :=
  let '(out, ma, ex) := st in
  let aeq := strchr (take alen a) 61 in
  let anlen := default alen aeq in
  let anlen := if decide (32 <= anlen)%nat then 31%nat else anlen in
  let aname := take anlen a in
  let avlen := if aeq then (alen - anlen - 1)%nat else 0%nat in
  let avlen := if decide (128 <= avlen)%nat then 127%nat else avlen in
  let from := match aeq with Some i => drop (S i) a | None => [] end in
  if decide (length from + 1 < avlen)%nat then UB else
  let aval := take avlen from in
  Ok (if strcaseeq aname (str "path") then (set_path aval out, ma, ex)
      else if strcaseeq aname (str "domain") then (set_domain aval out, ma, ex)
      else if strcaseeq aname (str "secure") then (set_secure out, ma, ex)
      else if strcaseeq aname (str "httponly") then (set_http_only out, ma, ex)
      else if strcaseeq aname (str "max-age") then (out, take 31 aval, ex)
      else if strcaseeq aname (str "expires") then (out, ma, take 63 aval)
      else if strcaseeq aname (str "samesite") then
        (set_same_site (if strcaseeq aval (str "lax") then MINI_SAME_LAX
                        else if strcaseeq aval (str "strict") then MINI_SAME_STRICT
                        else MINI_SAME_NONE) out, ma, ex)
      else st).

(** [while ( *rest)]; every turn consumes at least one byte. *)
Fixpoint parse_attrs (fuel : nat) (rest : bytes) (st : attr_state) : res attr_state :=
  match fuel, rest with
  | S fuel, _ :: _ =>
    let a := skip (λ c, bool_decide (c = 59) || c_isspace c) rest in
    let s2 := strchr a 59 in
    let alen := default (length a) s2 in
    (let* st := set_attr st a alen in
     parse_attrs fuel (match s2 with Some i => drop (S i) a | None => drop alen a end) st)%c
  | _, _ => Ok st
  end.

Definition rtrim (s : bytes) : bytes := rev (skip c_isspace (rev s)).

(** [Ok None] is -1. *)
Definition parse_cookie (now : Z) (s host : bytes) (is_https : bool) : res (option MiniCookie) :=
  let '(nv, rest) := cut 59 s in
  match cut 61 nv with
  | (_, None) => Ok None
  | (n, Some v) =>
    if decide (n = [] ∨ 128 <= length n ∨ 1024 <= length v)%nat then Ok None else
    let out := Cookie (rtrim n) v [] [] 0 0 false false MINI_SAME_NONE 0 in
    let rest := default [] rest in
    (let* (out, ma, ex) := parse_attrs (length rest) rest (out, [], []) in
     if secure out && negb is_https then Ok None else
     let out := set_domain (canon_domain (domain out) host) out in
     if decide (domain out = []) then Ok None else
     let out := if decide (path out = []) then set_path (str "/") out else out in
     let* e := parse_expiry now ma ex in Ok (Some (set_expires e out)))%c
  end.

(** ** The jar *)

Definition MAX_COOKIES : nat := Z.to_nat 256.
Abbreviation g_jar := (list MiniCookie).

Definition mini_cookies_clear : g_jar := [].

Definition same_slot (c d : MiniCookie) : Prop :=
  streq (name d) (name c) = true ∧ streq (domain d) (domain c) = true ∧ streq (path d) (path c) = true.
#[export] Instance same_slot_dec c d : Decision (same_slot c d).
Proof. unfold same_slot. apply _. Defined.

Definition find_slot (c : MiniCookie) (jar : g_jar) : option nat := fst <$> list_find (same_slot c) jar.

(** Entries that survive [purge_expired]. *)
Definition live (now : Z) (c : MiniCookie) : Prop := ¬ (expires c ≠ 0 ∧ expires c <= now).
#[export] Instance live_dec now c : Decision (live now c).
Proof. unfold live. apply _. Defined.
Definition purge_expired (now : Z) (jar : g_jar) : g_jar := filter (live now) jar.

(** [t1] and [t2] are the times [parse_expiry] and [purge_expired] read. *)
Definition mini_cookies_set_from_header (t1 t2 : Z) (jar : g_jar) (host path : bytes) (is_https : bool)
    (set_cookie : option bytes) : res (g_jar * Z) :=
  match set_cookie with
  | None | Some [] => Ok (jar, -1)
  | Some s =>
    (let* c := parse_cookie t1 s host is_https in
     match c with
     | None => Ok (jar, -1)
     | Some c =>
       let jar := purge_expired t2 jar in
       match find_slot c jar with
       | Some idx => Ok (<[idx := c]> jar, 0)
       | None =>
         let jar := if decide (MAX_COOKIES <= length jar)%nat then drop 1 jar else jar in
         Ok (jar ++ [c], 0)
       end
     end)%c
  end.

Definition mini_cookies_set_js := mini_cookies_set_from_header.

Definition eligible (host path' : bytes) (is_https for_js : bool) (c : MiniCookie) : bool :=
  if for_js && http_only c then false
  else if secure c && negb is_https then false
  else if negb (host_matches (domain c) host) then false
  else path_matches (path c) path'.

(** The loop over the jar from offset [off] with [n] cookies written. *)
Fixpoint build_loop (host path' : bytes) (is_https for_js : bool) (cap : nat) (jar : g_jar)
    (out : bytes) (n : nat) : bytes * nat :=
  match jar with
  | [] => (out, n)
  | c :: jar =>
    if negb (eligible host path' is_https for_js c)
    then build_loop host path' is_https for_js cap jar out n
    else
      let sep := if decide (n = 0%nat) then [] else str "; " in
      if decide (cap < length out + length sep + length (name c) + 1 + length (value c) + 1)%nat
      then (out, n)
      else build_loop host path' is_https for_js cap jar (out ++ sep ++ name c ++ [61] ++ value c) (S n)
  end.

(** The text in [out] and the value returned. *)
Definition build_for (now : Z) (jar : g_jar) (host path' : bytes) (is_https for_js : bool) (cap : nat)
    : res (g_jar * bytes * Z) :=
  let jar := purge_expired now jar in
  let '(out, n) := build_loop host path' is_https for_js cap jar [] 0 in
  if decide (cap <= length out)%nat then UB
  else Ok (jar, out, if decide (n = 0%nat) then -1 else Z.of_nat (length out)).

Definition mini_cookies_build_header := build_for.
Definition mini_cookies_get_js now jar host path' is_https cap :=
  build_for now jar host path' is_https true cap.

Definition mini_cookies_count (now : Z) (jar : g_jar) : g_jar * Z :=
  let jar := purge_expired now jar in (jar, Z.of_nat (length jar)).

Example cookie_run :
  (let* (jar, r) := mini_cookies_set_from_header 1000 1000 [] (str "example.com") (str "/") true
     (Some (str "sid=abc; Path=/app; HttpOnly; Secure; SameSite=Lax")) in
   let* (jar, r2) := mini_cookies_set_from_header 1000 1000 jar (str "example.com") (str "/") true
     (Some (str "k=v; Domain=.Example.com; Expires=Wed, 09 Jun 2021 10:18:14 GMT")) in
   let* (jar', out, n) := build_for 1000 jar (str "api.example.com") (str "/app/x") true false 512 in
   Ok (out, n, map expires jar))%c = Ok (str "sid=abc; k=v", 12, [0; 1623233894]).
Proof. vm_compute. reflexivity. Qed.

(** ** Dates: the Gregorian calendar, counted day by day *)

Definition leap (y : Z) : Prop := (y mod 4 = 0 ∧ y mod 100 ≠ 0) ∨ y mod 400 = 0.
#[export] Instance leap_dec y : Decision (leap y).
Proof. unfold leap. apply _. Defined.

Definition year_days (y : Z) : Z := if decide (leap y) then 366 else 365.
Definition month_days (y : Z) (m : nat) : Z :=
  if decide (m = 1%nat ∧ leap y) then 29
  else [31; 28; 31; 30; 31; 30; 31; 31; 30; 31; 30; 31] !!! m.
Fixpoint sum_upto (f : nat → Z) (n : nat) : Z :=
  match n with O => 0 | S n => sum_upto f n + f n end.

(** Seconds since 1970-01-01 00:00:00 UTC; months from 0, days from 1. *)
Definition epoch_seconds (y : Z) (m : nat) (d hh mm ss : Z) : Z :=
  (sum_upto (λ k, year_days (1970 + Z.of_nat k)) (Z.to_nat (y - 1970))
   + sum_upto (month_days y) m + (d - 1)) * 86400 + hh * 3600 + mm * 60 + ss.

Lemma year_sum n : let y := 1970 + Z.of_nat n in
  sum_upto (λ k, year_days (1970 + Z.of_nat k)) n
  = (y - 1970) * 365 + (y - 1969) / 4 - (y - 1901) / 100 + (y - 1601) / 400.
Proof.
  induction n as [|n IH]; [done|]. cbv zeta in *. cbn [sum_upto]. rewrite IH.
  replace (1970 + Z.of_nat (S n)) with (1970 + Z.of_nat n + 1) by lia.
  set (y := 1970 + Z.of_nat n). assert (1970 <= y) by lia. clearbody y. clear IH.
  unfold year_days. assert ((y + 1 - 1969) / 4 = (y - 1969) / 4 + if decide (y mod 4 = 0) then 1 else 0).
  { case_decide; mlia. }
  assert ((y + 1 - 1901) / 100 = (y - 1901) / 100 + if decide (y mod 100 = 0) then 1 else 0).
  { clear -H. case_decide; mlia. }
  assert ((y + 1 - 1601) / 400 = (y - 1601) / 400 + if decide (y mod 400 = 0) then 1 else 0).
  { clear -H. case_decide; mlia. }
  assert (y mod 400 = 0 → y mod 100 = 0) by (clear -H; mlia).
  assert (y mod 100 = 0 → y mod 4 = 0) by (clear -H; mlia).
  unfold leap. repeat case_decide; lia.
Qed.

Lemma is_leap_rem_leap y : 0 <= y → is_leap_rem y ↔ leap y.
Proof. intros H. unfold is_leap_rem, leap. by rewrite !Z.rem_mod_nonneg by lia. Qed.

Lemma mkgmtime_epoch y m d hh mm ss : 1970 <= y → (m < 12)%nat → 1 <= d →
  mkgmtime_utc y m d hh mm ss = Ok (epoch_seconds y m d hh mm ss).
Proof.
  intros Hy Hm Hd. unfold mkgmtime_utc. rewrite decide_False by lia. f_equal.
  unfold epoch_seconds. rewrite year_sum, !Z2Nat.id, !Z.quot_div_nonneg by lia.
  replace (1970 + (y - 1970)) with y by lia.
  assert (dsm !!! m + (if decide (1 < m)%nat then if decide (is_leap_rem y) then 1 else 0 else 0)
          = sum_upto (month_days y) m) as <-.
  { assert (is_leap_rem y ↔ leap y) as E by (apply is_leap_rem_leap; lia).
    destruct (decide (is_leap_rem y)) as [L|L]; rewrite E in L; clear E; revert L; unfold month_days;
      generalize (leap_dec y); intros D L; (destruct D as [D|D]; [|done]) || (destruct D as [D|D]; [done|]);
      do 12 (destruct m as [|m]; [repeat case_decide; cbn in *; try (done || lia || tauto)|]); lia. }
  repeat case_decide; lia.
Qed.

Definition pr2 (n : Z) : bytes := [48 + n / 10; 48 + n mod 10].
Definition pr4 (n : Z) : bytes := pr2 (n / 100) ++ pr2 (n mod 100).

(** "Wed, 09 Jun 2021 10:18:14 GMT" and "Wednesday, 09-Jun-21 10:18:14 GMT". *)
Definition pr_time (hh mm ss : Z) : bytes :=
  pr2 hh ++ [58] ++ pr2 mm ++ [58] ++ pr2 ss ++ str " GMT".
Definition imf_date (wd : bytes) (y : Z) (m : nat) (d hh mm ss : Z) : bytes :=
  wd ++ str ", " ++ pr2 d ++ [32] ++ COOKIE_MONTHS !!! m ++ [32] ++ pr4 y ++ [32] ++ pr_time hh mm ss.
Definition rfc850_date (wd : bytes) (y : Z) (m : nat) (d hh mm ss : Z) : bytes :=
  wd ++ str ", " ++ pr2 d ++ [45] ++ COOKIE_MONTHS !!! m ++ [45] ++ pr2 (y mod 100) ++ [32] ++ pr_time hh mm ss.

Definition all_digits (l : bytes) : Prop := Forall (λ c, c_isdigit c = true) l.

Lemma digit_pr n : 0 <= n < 10 → c_isdigit (48 + n) = true.
Proof. intros. apply bool_decide_eq_true. lia. Qed.
Lemma pr2_digits n : 0 <= n < 100 → all_digits (pr2 n).
Proof. intros H. repeat apply Forall_cons_2; try apply digit_pr; try mlia. by apply Forall_nil. Qed.
Lemma pr4_digits n : 0 <= n < 10000 → all_digits (pr4 n).
Proof. intros H. apply Forall_app. split; apply pr2_digits; mlia. Qed.

Lemma digits_all_app l1 : ∀ l2 acc, all_digits l1 → digits acc (l1 ++ l2) = digits (digits acc l1) l2.
Proof.
  induction l1 as [|c l1 IH]; intros l2 acc H; [done|]. apply Forall_cons in H as [Hc H].
  simpl. rewrite Hc. by apply IH.
Qed.
Lemma digits_pr2 acc n : 0 <= n < 100 → digits acc (pr2 n) = acc * 100 + n.
Proof.
  intros H. unfold pr2. cbn [digits]. rewrite !digit_pr by mlia. mlia.
Qed.
Lemma digits_pr4 n : 0 <= n < 10000 → digits 0 (pr4 n) = n.
Proof.
  intros H. unfold pr4. rewrite digits_all_app by (apply pr2_digits; mlia).
  rewrite !digits_pr2 by mlia. mlia.
Qed.

Lemma digit_not_space c : c_isdigit c = true → c_isspace c = false.
Proof. unfold c_isdigit, c_isspace. rewrite bool_decide_eq_true, bool_decide_eq_false. lia. Qed.

(** What follows a number. *)
Definition no_digit (r : bytes) : Prop := ∀ c r', r = c :: r' → c_isdigit c = false.

Lemma scan_d_num l r : l ≠ [] → all_digits l → no_digit r → 0 <= digits 0 l < 2 ^ 31 →
  scan_d (l ++ r) = Ok (Some (digits 0 l, r)).
Proof.
  intros Hl Hd Hr Hv. unfold scan_d. destruct l as [|c l]; [done|].
  pose proof Hd as [Hc _]%Forall_cons.
  rewrite skip_none by (intros ? ? [= <- <-]; by apply digit_not_space).
  apply bool_decide_eq_true in Hc as Hc'.
  cbn [app hd0]. rewrite bool_decide_false by lia. rewrite decide_False by lia.
  change (c :: l ++ r) with ((c :: l) ++ r).
  rewrite scan_app by (done || (rewrite length_app; lia)).
  rewrite decide_False by done. by rewrite decide_True by lia.
Qed.

Lemma scan_d_space s : scan_d (32 :: s) = scan_d s.
Proof. done. Qed.

Lemma scan_d_none c s : c_isspace c = false → c_isdigit c = false → c ≠ 45 → c ≠ 43 →
  scan_d (c :: s) = Ok None.
Proof.
  intros H1 H2 H3 H4. unfold scan_d. cbn [skip]. rewrite H1.
  cbn [hd0]. rewrite bool_decide_false, decide_False by (done || lia).
  cbn [length scan]. by rewrite H2.
Qed.

Lemma scan_d_pr2 n c r : 0 <= n < 100 → c_isdigit c = false →
  scan_d (pr2 n ++ c :: r) = Ok (Some (n, c :: r)).
Proof.
  intros H Hc. rewrite scan_d_num.
  - by rewrite digits_pr2.
  - done.
  - by apply pr2_digits.
  - by intros ? ? [= <- <-].
  - rewrite digits_pr2; lia.
Qed.

Lemma scan_d_pr4 n c r : 0 <= n < 10000 → c_isdigit c = false →
  scan_d (pr4 n ++ c :: r) = Ok (Some (n, c :: r)).
Proof.
  intros H Hc. rewrite scan_d_num.
  - by rewrite digits_pr4.
  - done.
  - by apply pr4_digits.
  - by intros ? ? [= <- <-].
  - rewrite digits_pr4; lia.
Qed.

Lemma scan_time_pr hh mm ss : 0 <= hh < 100 → 0 <= mm < 100 → 0 <= ss < 100 →
  scan_time (32 :: pr_time hh mm ss) = Ok (Some (hh, mm, ss)).
Proof.
  intros H1 H2 H3. unfold scan_time, pr_time, res_opt. rewrite scan_d_space.
  cbn [app]. rewrite scan_d_pr2 by done. cbn [res_bind expect].
  rewrite decide_True by done. rewrite scan_d_pr2 by done. cbn [res_bind expect].
  rewrite decide_True by done. change (str " GMT") with (32 :: str "GMT").
  by rewrite scan_d_pr2 by done.
Qed.

Ltac in3 := rewrite !elem_of_cons; auto.

Lemma month_word m : (m < 12)%nat → ∃ a b c, COOKIE_MONTHS !!! m = [a; b; c] ∧
  month_num [a; b; c] = Some m ∧
  (∀ x, x ∈ [a; b; c] → c_isspace x = false ∧ c_isdigit x = false ∧ x ≠ 45 ∧ x ≠ 43).
Proof.
  intros H. do 12 (destruct m as [|m];
    [do 3 eexists; split; [reflexivity|]; split; [vm_compute; reflexivity|];
     apply Forall_forall, (bool_decide_unpack _); vm_compute; done|]). lia.
Qed.

Lemma scan_word3 f a b c r : f a = true → f b = true → f c = true →
  scan_word f (a :: b :: c :: r) = Some ([a; b; c], r).
Proof. intros Ha Hb Hc. unfold scan_word. cbn [scan]. rewrite Ha, Hb, Hc. by destruct r. Qed.

Definition valid_time (d hh mm ss : Z) : Prop :=
  1 <= d < 100 ∧ 0 <= hh < 100 ∧ 0 <= mm < 100 ∧ 0 <= ss < 100.

Lemma date_start wd p : Forall (λ c, c_isalpha c = true) wd → (∃ c r, p = c :: r ∧ c_isdigit c = true) →
  skip (λ c, c_isalpha c || bool_decide (c = 44) || c_isspace c) (wd ++ str ", " ++ p) = p.
Proof.
  intros Hw (x & r' & E & Hd). change (wd ++ str ", " ++ p) with (wd ++ [44; 32] ++ p). rewrite app_assoc. apply skip_app.
  - apply Forall_app. split; [|by repeat constructor].
    eapply Forall_impl; [done|]. simpl. by intros c ->.
  - intros c r ->. simplify_eq. revert Hd. unfold c_isdigit, c_isalpha, c_isupper, c_islower, c_isspace.
    repeat case_bool_decide; (done || lia).
Qed.

Lemma imf_scan y m d hh mm ss : 0 <= y < 10000 → (m < 12)%nat → valid_time d hh mm ss →
  scan_rfc1123 (pr2 d ++ [32] ++ COOKIE_MONTHS !!! m ++ [32] ++ pr4 y ++ [32] ++ pr_time hh mm ss)
  = Ok (Some (d, COOKIE_MONTHS !!! m, y, (hh, mm, ss))).
Proof.
  intros Hy Hm (Hd & Hh & Hn & Hs). destruct (month_word m Hm) as (a & b & c & -> & _ & F).
  assert (∀ x, x ∈ [a; b; c] → negb (c_isspace x) = true) as W by (intros x Hx; by rewrite (proj1 (F x Hx))).
  unfold scan_rfc1123, res_opt. cbn [app]. rewrite scan_d_pr2 by (done || lia).
  cbn [res_bind]. change (skip c_isspace (32 :: ?x)) with (skip c_isspace x).
  rewrite skip_none by (intros ? ? [= <- <-]; apply F; in3).
  rewrite scan_word3 by (apply W; in3). cbn [res_bind].
  rewrite scan_d_space, scan_d_pr4 by done. cbn [res_bind].
  by rewrite scan_time_pr.
Qed.

Lemma rfc850_scan y m d hh mm ss : 0 <= y < 100 → (m < 12)%nat → valid_time d hh mm ss →
  let p := pr2 d ++ [45] ++ COOKIE_MONTHS !!! m ++ [45] ++ pr2 y ++ [32] ++ pr_time hh mm ss in
  scan_rfc1123 p = Ok None ∧ scan_rfc850 p = Ok (Some (d, COOKIE_MONTHS !!! m, y, (hh, mm, ss))).
Proof.
  intros Hy Hm (Hd & Hh & Hn & Hs) p. unfold p. destruct (month_word m Hm) as (a & b & c & -> & _ & F).
  assert (∀ x, x ∈ [a; b; c] → negb (c_isspace x) = true ∧ negb (bool_decide (x = 45)) = true) as W.
  { intros x Hx. destruct (F x Hx) as (-> & _ & H & _). by rewrite bool_decide_false. }
  unfold scan_rfc1123, scan_rfc850, res_opt. cbn [app]. rewrite !scan_d_pr2 by (done || lia). cbn [res_bind].
  split.
  - rewrite skip_none by by intros ? ? [= <- <-].
    rewrite scan_word3 by (done || (apply W; in3)). cbn [res_bind].
    rewrite scan_d_none by (apply F; in3). done.
  - cbn [expect]. rewrite decide_True by done. cbn [res_bind].
    rewrite scan_word3 by (apply W; in3). cbn [res_bind expect]. rewrite decide_True by done.
    cbn [res_bind]. rewrite scan_d_pr2 by done. cbn [res_bind]. by rewrite scan_time_pr.
Qed.

(** Cookie dates: for every month, day, time and year the two formats can
    print, and any weekday name, the parser returns the seconds since 1970 of
    the Gregorian calendar counted day by day, leap centuries included; so the
    customary deletion date, 1 January 1970 00:00:00, comes out as the value
    0, which the jar reads as "session cookie", never expiring. *)
Theorem cookie_date_value wd y m d hh mm ss :
  Forall (λ c, c_isalpha c = true) wd → 1970 <= y < 10000 → (m < 12)%nat → valid_time d hh mm ss →
  parse_http_date (imf_date wd y m d hh mm ss) = Ok (epoch_seconds y m d hh mm ss) ∧
  (y < 2070 → parse_http_date (rfc850_date wd y m d hh mm ss) = Ok (epoch_seconds y m d hh mm ss)) ∧
  parse_expiry 1700000000 [] (imf_date (str "Thu") 1970 0 1 0 0 0) = Ok 0.
Proof.
  intros Hw Hy Hm V. pose proof V as (Hd & _).
  assert (∀ n l, 0 <= n < 100 → ∃ c r, pr2 n ++ l = c :: r ∧ c_isdigit c = true) as P.
  { intros n l Hn. do 2 eexists. split; [reflexivity|]. apply digit_pr. mlia. }
  assert (∀ yy, 1970 <= yy → date_value d (COOKIE_MONTHS !!! m) yy (hh, mm, ss)
                             = Ok (epoch_seconds yy m d hh mm ss)) as D.
  { intros yy Hyy. unfold date_value. destruct (month_word m Hm) as (a & b & c & -> & -> & _).
    apply mkgmtime_epoch; lia. }
  split_and!.
  - unfold parse_http_date, imf_date. rewrite decide_False by by destruct wd.
    rewrite date_start by (done || (apply P; lia)). cbv zeta. rewrite imf_scan by (done || lia).
    apply D. lia.
  - intros Hy2. unfold parse_http_date, rfc850_date. rewrite decide_False by by destruct wd.
    rewrite date_start by (done || (apply P; lia)). cbv zeta.
    destruct (rfc850_scan (y mod 100) m d hh mm ss) as [-> ->]; [mlia|done..|]. cbn [res_bind].
    rewrite decide_True by mlia.
    assert (y mod 100 + (if decide (y mod 100 < 70) then 2000 else 1900) = y) as ->; [|by apply D; lia].
    clear - Hy Hy2. case_decide; mlia.
  - vm_compute. reflexivity.
Qed.

Lemma cookie_date_value_witness :
  Forall (λ c, c_isalpha c = true) (str "Tue") ∧
  parse_http_date (str "Tue, 29 Feb 2028 23:59:59 GMT") = Ok 1835481599 ∧
  parse_http_date (str "Tue, 29-Feb-28 23:59:59 GMT") = Ok 1835481599.
Proof.
  assert (Forall (λ c, c_isalpha c = true) (str "Tue")) as H by (apply (bool_decide_unpack _); by vm_compute).
  assert (valid_time 29 23 59 59) as V by (unfold valid_time; lia).
  destruct (cookie_date_value (str "Tue") 2028 1 29 23 59 59 H ltac:(lia) ltac:(lia) V) as (E1 & E2 & _).
  specialize (E2 ltac:(lia)). split; [exact H|]. split; [exact E1|exact E2].
Defined.

(** ** Matching: specification *)

(** RFC 6265 5.1.3 and 5.1.4. *)
Definition domain_match (dom host : bytes) : Prop :=
  dom ≠ [] ∧ (host = dom ∨ ∃ p, host = p ++ [46] ++ dom).
Definition path_match (cp rp : bytes) : Prop :=
  cp ≠ [] ∧ (cp = str "/" ∨ rp = cp ∨ ∃ t, rp = cp ++ t ∧ t ≠ [] ∧ (hd0 t = 47 ∨ last cp = Some 47)).

Lemma host_matches_spec dom host : host_matches dom host = true ↔ domain_match dom host.
Proof.
  unfold host_matches, domain_match. destruct dom as [|d dom]; [by split; [|intros [? _]]|].
  set (D := d :: dom). assert (D ≠ []) as HD by done. clearbody D.
  case_decide as E; rewrite streq_true in E.
  { destruct E as [_ ->]. split; [|done]. intros _. split; [done|by left]. }
  rewrite bool_decide_eq_true. split.
  - intros (Hl & Hd & He). split; [done|]. right. exists (take (length host - length D - 1) host).
    rewrite <- (take_drop (length host - length D - 1) host) at 1. f_equal.
    rewrite (drop_S _ 46).
    + cbn [app]. f_equal. rewrite <- He at 2. f_equal. lia.
    + unfold rd in Hd. rewrite <- Hd. apply list_lookup_lookup_total_lt. lia.
  - intros [_ [-> | (p & ->)]]; [by destruct E|]. rewrite !length_app. cbn [length]. split_and!; [lia| |].
    + unfold rd. rewrite lookup_total_app_r by lia.
      by replace (length p + (1 + length D) - length D - 1 - length p)%nat with 0%nat by lia.
    + rewrite app_assoc. apply drop_app_length'. rewrite length_app. simpl. lia.
Qed.

Lemma rd_last (l : bytes) x : l ≠ [] → (rd l (length l - 1) = x ↔ last l = Some x).
Proof.
  intros H. rewrite last_lookup. unfold rd.
  destruct (lookup_lt_is_Some_2 l (pred (length l))) as [y Hy]; [destruct l; [done|simpl; lia]|].
  replace (length l - 1)%nat with (pred (length l)) by lia.
  rewrite Hy, (list_lookup_total_correct _ _ _ Hy). split; congruence.
Qed.

Lemma path_matches_spec cp rp : path_matches cp rp = true ↔ path_match cp rp.
Proof.
  unfold path_matches, path_match. destruct cp as [|d cp]; [by split; [|intros [? _]]|].
  set (D := d :: cp). assert (D ≠ []) as HD by done. clearbody D.
  destruct (streq D (str "/")) eqn:Es; [apply streq_true in Es; subst; split; auto|].
  assert (D ≠ str "/") as Hs by (intros ->; done).
  case_decide as El.
  { split; [done|]. intros (_ & [?|[->|(t & -> & _)]]); [done|lia|pose proof (length_app D t); lia]. }
  destruct (streq (take (length D) rp) D) eqn:Ep.
  2:{ split; [done|]. intros (_ & [?|[-> | (t & -> & _)]]); [done| |].
      - by rewrite firstn_all, (proj2 (streq_true _ _)) in Ep.
      - by rewrite take_app_length, (proj2 (streq_true _ _)) in Ep. }
  apply streq_true in Ep. cbn [negb].
  assert (rp = D ++ drop (length D) rp) as Er by (by rewrite <- Ep at 1; rewrite take_drop).
  set (t := drop (length D) rp) in Er. rewrite Er. rewrite length_app. case_decide as Et.
  - assert (t = []) as -> by (destruct t; [done|simpl in Et; lia]). rewrite app_nil_r. split; auto.
  - assert (t ≠ []) as Ht by (intros E; rewrite E in Et; simpl in Et; lia).
    rewrite bool_decide_eq_true.
    assert (rd (D ++ t) (length D) = hd0 t) as ->.
    { unfold rd. rewrite lookup_total_app_r, Nat.sub_diag by lia. by destruct t. }
    rewrite rd_last by done. split.
    + intros H. split; [done|]. right. right. by exists t.
    + intros (_ & [?|[E|(t' & E & _ & H)]]); [done| |].
      * rewrite <- (app_nil_r D) in E at 2. by apply app_inv_head in E.
      * by apply app_inv_head in E as ->.
Qed.

Definition sendable (host path' : bytes) (is_https for_js : bool) (c : MiniCookie) : Prop :=
  domain_match (domain c) host ∧ path_match (path c) path' ∧
  (secure c = true → is_https = true) ∧ (http_only c = true → for_js = false).

Lemma eligible_spec host path' is_https for_js c :
  eligible host path' is_https for_js c = true ↔ sendable host path' is_https for_js c.
Proof.
  unfold eligible, sendable. rewrite <- host_matches_spec, <- path_matches_spec.
  destruct for_js, (http_only c), (secure c), is_https, (host_matches _ _), (path_matches _ _); simpl; naive_solver.
Qed.

(** ** The Cookie header *)

Definition pair_text (c : MiniCookie) : bytes := name c ++ [61] ++ value c.
Definition header (cs : list MiniCookie) : bytes :=
  match cs with
  | [] => []
  | c :: cs => pair_text c ++ mjoin (map (λ c, str "; " ++ pair_text c) cs)
  end.

Lemma header_snoc cs c :
  header (cs ++ [c]) = header cs ++ (if decide (length cs = 0%nat) then [] else str "; ") ++ pair_text c.
Proof.
  destruct cs as [|d cs]; [by rewrite decide_True; cbn; rewrite ?app_nil_r|].
  rewrite decide_False by done. cbn [header app]. rewrite map_app, join_app.
  change (mjoin (map ?f [c])) with (f c ++ []). by rewrite app_nil_r, !app_assoc.
Qed.

(** What the loop writes: the longest prefix of the eligible cookies that fits. *)
Definition fits_first (cap : nat) (el pre : list MiniCookie) (k : nat) : Prop :=
  (k <= length el)%nat ∧
  (header (pre ++ take k el) = [] ∨ (length (header (pre ++ take k el)) < cap)%nat) ∧
  ((k < length el)%nat → (cap <= length (header (pre ++ take (S k) el)))%nat).

Section build.
  Context (host path' : bytes) (is_https for_js : bool) (cap : nat).
Let el : g_jar → list MiniCookie := filter (λ c, eligible host path' is_https for_js c = true).

Lemma build_loop_spec jar : ∀ pre,
  (header pre = [] ∨ (length (header pre) < cap)%nat) →
  ∃ k, fits_first cap (el jar) pre k ∧
    build_loop host path' is_https for_js cap jar (header pre) (length pre)
    = (header (pre ++ take k (el jar)), length (pre ++ take k (el jar))).
Proof.
  induction jar as [|c jar IH]; intros pre Hp.
  { exists 0%nat. unfold fits_first. cbn. rewrite !app_nil_r. split; [|done]. split_and!; [lia|done|lia]. }
  cbn [build_loop].
  assert (el (c :: jar) = if eligible host path' is_https for_js c then c :: el jar else el jar) as ->.
  { unfold el. rewrite filter_cons. by destruct (eligible host path' is_https for_js c). }
  destruct (eligible host path' is_https for_js c) eqn:E; cbn [negb]; [|by apply IH].
  assert (length (header pre) + length (if decide (length pre = 0%nat) then [] else str "; ")
          + length (name c) + 1 + length (value c) = length (header (pre ++ [c])))%nat as L.
  { rewrite header_snoc. unfold pair_text. rewrite !length_app. simpl. lia. }
  rewrite L. destruct (decide (cap < length (header (pre ++ [c])) + 1)%nat) as [Ec|Ec].
  - exists 0%nat. cbn [firstn]. rewrite !app_nil_r. split; [|done]. unfold fits_first. cbn [firstn length].
    rewrite app_nil_r. split_and!; [lia|done|rewrite take_0; lia].
  - destruct (IH (pre ++ [c])) as (k & (F1 & F2 & F3) & Eb); [right; lia|].
    rewrite <- app_assoc in F2, Eb. cbn [app] in F2, Eb.
    exists (S k). cbn [firstn]. split.
    + split_and!; [simpl; lia|done|]. cbn [length]. intros Hk.
      rewrite <- app_assoc in F3. apply F3. lia.
    + rewrite <- Eb. rewrite header_snoc. rewrite length_app. unfold pair_text. simpl. f_equal. lia.
Qed.

End build.

(** C36. The Cookie header: purging first, the text is the "name=value" pairs,
    joined by "; ", of the longest prefix that fits the buffer of the live
    cookies, in jar order, that may be sent: domain and path match the request
    (RFC 6265 5.1.3, 5.1.4), Secure only over https, HttpOnly hidden from
    scripts.  The result is its length, -1 when no cookie is sent; the buffer
    is overrun only when it has no byte at all. *)
Theorem cookie_header_spec now jar host path' is_https for_js cap :
  ∃ k el, el = filter (λ c, eligible host path' is_https for_js c = true) (purge_expired now jar) ∧
    (∀ c, c ∈ el ↔ c ∈ jar ∧ live now c ∧ sendable host path' is_https for_js c) ∧
    fits_first cap el [] k ∧
    build_for now jar host path' is_https for_js cap
    = if decide (cap = 0%nat) then UB
      else Ok (purge_expired now jar, header (take k el),
               if decide (k = 0%nat) then -1 else Z.of_nat (length (header (take k el)))).
Proof.
  destruct (build_loop_spec host path' is_https for_js cap (purge_expired now jar) [])
    as (k & F & E); [by left|].
  exists k. eexists. split; [done|]. split.
  { intros c. rewrite list_elem_of_filter, eligible_spec. unfold purge_expired.
    rewrite list_elem_of_filter. tauto. }
  split; [done|]. unfold build_for. change 0%nat with (length (@nil MiniCookie)) at 1.
  change (@nil Z) with (header []) at 1. rewrite E. destruct F as (F1 & F2 & F3). cbn [app] in *.
  rewrite length_take, Nat.min_l by done.
  destruct (decide (cap = 0%nat)) as [->|Hc].
  - rewrite decide_True by lia. done.
  - rewrite decide_False; [done|]. destruct F2 as [-> | F2]; simpl in *; lia.
Qed.

(** ** The jar as a map *)

Definition key (c : MiniCookie) : bytes * bytes * bytes := (name c, domain c, path c).
Definition jar_map (jar : g_jar) : gmap (bytes * bytes * bytes) MiniCookie :=
  list_to_map ((λ c, (key c, c)) <$> jar).
Definition jar_ok (jar : g_jar) : Prop := NoDup (key <$> jar) ∧ (length jar <= MAX_COOKIES)%nat.

Lemma same_slot_key c d : same_slot c d ↔ key d = key c.
Proof. unfold same_slot, key. rewrite !streq_true. split; [by intros (-> & -> & ->)|by intros [= -> -> ->]]. Qed.

Lemma jar_keys jar : ((λ c, (key c, c)) <$> jar).*1 = key <$> jar.
Proof. rewrite <- list_fmap_compose. done. Qed.

Lemma jar_map_lookup jar k c : NoDup (key <$> jar) → jar_map jar !! k = Some c ↔ c ∈ jar ∧ key c = k.
Proof.
  intros N. unfold jar_map. rewrite <- elem_of_list_to_map by by rewrite jar_keys.
  rewrite list_elem_of_fmap. split.
  - by intros (d & [= -> ->] & ?).
  - intros [? <-]. by exists c.
Qed.

Lemma purge_nodup now jar : NoDup (key <$> jar) → NoDup (key <$> purge_expired now jar).
Proof.
  unfold purge_expired. induction jar as [|c jar IH]; [done|].
  rewrite fmap_cons, NoDup_cons, filter_cons. intros [Hc Hn]. case_decide; [|by apply IH].
  rewrite fmap_cons, NoDup_cons. split; [|by apply IH].
  intros (d & Ek & Hd)%list_elem_of_fmap. apply list_elem_of_filter in Hd as [_ Hd].
  apply Hc, list_elem_of_fmap. eauto.
Qed.

Lemma purge_ok now jar : jar_ok jar → jar_ok (purge_expired now jar).
Proof.
  intros [N L]. split; [by apply purge_nodup|]. unfold purge_expired.
  pose proof (length_filter (live now) jar). lia.
Qed.

Lemma find_slot_Some c jar i : find_slot c jar = Some i → ∃ d, jar !! i = Some d ∧ key d = key c.
Proof.
  unfold find_slot. intros ([j d] & E & [= ->])%fmap_Some.
  apply list_find_Some in E as (E & Hs & _). exists d. split; [done|by apply same_slot_key].
Qed.

Lemma find_slot_None c jar : find_slot c jar = None → key c ∉ (key <$> jar).
Proof.
  unfold find_slot. intros E%fmap_None%list_find_None (d & Ek & Hd)%list_elem_of_fmap.
  rewrite Forall_forall in E. apply (E _ Hd). by apply same_slot_key.
Qed.

Lemma insert_keys c (jar : g_jar) (i : nat) d : jar !! i = Some d → key d = key c → key <$> <[i := c]> jar = key <$> jar.
Proof.
  intros Hi Hk. rewrite list_fmap_insert. apply list_insert_id. by rewrite list_lookup_fmap, Hi, <- Hk.
Qed.

Lemma jar_map_replace c (jar : g_jar) (i : nat) d : NoDup (key <$> jar) → jar !! i = Some d → key d = key c →
  jar_map (<[i := c]> jar) = <[key c := c]> (jar_map jar).
Proof.
  intros N Hi Hk. apply map_eq. intros k. apply option_eq. intros e.
  assert (i < length jar)%nat as Li by (by eapply lookup_lt_Some).
  rewrite jar_map_lookup by by rewrite (insert_keys _ _ _ _ Hi Hk).
  rewrite lookup_insert_Some, jar_map_lookup by done. split.
  - intros [[j Hj]%list_elem_of_lookup <-].
    apply list_lookup_insert_Some in Hj as [(<- & -> & _)|(Hij & Hj)]; [by left|].
    right. split; [|split; [by eapply list_elem_of_lookup_2|done]]. intros E. apply Hij.
    apply (NoDup_lookup _ i j (key c) N); rewrite list_lookup_fmap; [by rewrite Hi, <- Hk|by rewrite Hj, E].
  - intros [[<- <-]|(Hne & [j Hj]%list_elem_of_lookup & <-)].
    + split; [|done]. eapply list_elem_of_lookup_2. by apply list_lookup_insert_eq.
    + split; [|done]. apply (list_elem_of_lookup_2 _ j). rewrite list_lookup_insert_ne; [done|].
      intros ->. apply Hne. rewrite <- Hk. congruence.
Qed.

Lemma jar_map_snoc c jar : key c ∉ (key <$> jar) →
  jar_map (jar ++ [c]) = <[key c := c]> (jar_map jar).
Proof.
  intros H. unfold jar_map. rewrite fmap_app. apply list_to_map_snoc. by rewrite jar_keys.
Qed.

Lemma jar_map_drop1 d jar : NoDup (key <$> d :: jar) → jar_map jar = delete (key d) (jar_map (d :: jar)).
Proof.
  rewrite fmap_cons, NoDup_cons. intros [Hd N]. unfold jar_map. cbn [fmap list_fmap].
  rewrite list_to_map_cons, delete_insert_id; [done|].
  apply not_elem_of_list_to_map_1. by rewrite jar_keys.
Qed.

(** The map after storing [c]: the oldest live cookie makes room when the jar
    is full and holds nothing under [c]'s key. *)
Definition store_spec (now : Z) (jar : g_jar) (c : MiniCookie) : gmap (bytes * bytes * bytes) MiniCookie :=
  let l := purge_expired now jar in
  <[key c := c]> (if decide (key c ∉ (key <$> l) ∧ length l = MAX_COOKIES)
                  then match l with d :: _ => delete (key d) (jar_map l) | [] => jar_map l end
                  else jar_map l).

(** The part of [mini_cookies_set_from_header] after the parse. *)
Definition store (now : Z) (jar : g_jar) (c : MiniCookie) : g_jar :=
  let jar := purge_expired now jar in
  match find_slot c jar with
  | Some idx => <[idx := c]> jar
  | None => (if decide (MAX_COOKIES <= length jar)%nat then drop 1 jar else jar) ++ [c]
  end.

Lemma store_refines now jar c : jar_ok jar →
  jar_ok (store now jar c) ∧ jar_map (store now jar c) = store_spec now jar c.
Proof.
  intros O. apply (purge_ok now) in O as [N L]. unfold store, store_spec.
  set (l := purge_expired now jar) in *. cbv zeta. destruct (find_slot c l) as [i|] eqn:E.
  - destruct (find_slot_Some _ _ _ E) as (d & Hi & Hk). split.
    + split; [by rewrite (insert_keys _ _ _ _ Hi Hk)|by rewrite length_insert].
    + rewrite (jar_map_replace _ _ _ _ N Hi Hk). rewrite decide_False; [done|]. intros [H _]. apply H.
      rewrite <- Hk. apply list_elem_of_fmap. exists d. split; [done|]. by eapply list_elem_of_lookup_2.
  - pose proof (find_slot_None _ _ E) as Hn.
    destruct (decide (MAX_COOKIES <= length l)%nat) as [Hf|Hf].
    + destruct l as [|d l]; [by change (Z.to_nat 256 <= 0)%nat in Hf; lia|].
      rewrite fmap_cons, not_elem_of_cons in Hn. destruct Hn as [Hd Hn]. change (drop 1 (d :: l)) with l in *.
      rewrite decide_True by (split; [rewrite fmap_cons, not_elem_of_cons; done|lia]).
      rewrite <- (jar_map_drop1 _ _ N). rewrite fmap_cons, NoDup_cons in N. destruct N as [_ N].
      split; [|by apply jar_map_snoc]. split.
      * rewrite fmap_app. apply NoDup_app. split_and!; [done| |apply NoDup_singleton].
        intros k Hk ->%list_elem_of_singleton. done.
      * rewrite length_app. cbn [length] in *. lia.
    + rewrite decide_False by (intros [_ ?]; lia). split; [|by apply jar_map_snoc]. split.
      * rewrite fmap_app. apply NoDup_app. split_and!; [done| |apply NoDup_singleton].
        intros k Hk ->%list_elem_of_singleton. done.
      * rewrite length_app. cbn [length] in *. lia.
Qed.

(** What every stored cookie satisfies. *)
Definition accepted (host : bytes) (is_https : bool) (c : MiniCookie) : Prop :=
  (domain c = lc (take 255 host) ∨ domain_match (domain c) host) ∧ domain c ≠ [] ∧ path c ≠ [] ∧
  (length (name c) < 128)%nat ∧ (length (value c) < 1024)%nat ∧
  (secure c = true → is_https = true).

Lemma canon_domain_spec dom host : canon_domain dom host ≠ [] →
  canon_domain dom host = lc (take 255 host) ∨ domain_match (canon_domain dom host) host.
Proof.
  unfold canon_domain. destruct dom as [|d dom]; [by left|].
  destruct (host_matches _ host) eqn:E; [|done]. right. by apply host_matches_spec.
Qed.

(** The text has an attribute [n=v] with a name over 31 bytes, followed by too
    little text for the length computed for its value. *)
Definition over_read (s : bytes) : Prop := ∃ x n v y, s = x ++ n ++ [61] ++ v ++ y ∧
  (31 < length n)%nat ∧ (length v + length y + 1 < Nat.min 127 (length n + length v - 31))%nat.

Lemma over_read_suffix x s : over_read s → over_read (x ++ s).
Proof. intros (w&n&v&y&->&H). exists (x ++ w), n, v, y. by rewrite <- app_assoc. Qed.

Lemma set_attr_nv st a alen st' : set_attr st a alen = Ok st' →
  name st'.1.1 = name st.1.1 ∧ value st'.1.1 = value st.1.1.
Proof.
  destruct st as [[out ma] ex]. unfold set_attr. cbv zeta.
  match goal with |- (if ?d then _ else _) = _ → _ => destruct d end; [done|]. intros [= <-].
  repeat match goal with |- context [if ?b then _ else _] => destruct b end; done.
Qed.

Lemma set_attr_over_read st a alen : (alen <= length a)%nat → set_attr st a alen = UB → over_read a.
Proof.
  intros Hl. destruct st as [[out ma] ex]. unfold set_attr. cbv zeta.
  destruct (strchr (take alen a) 61) as [i|] eqn:E; cbn [default from_option].
  2: { intros H. exfalso. revert H. rewrite decide_False; [done|]. case_decide; cbn; lia. }
  apply strchr_Some in E as [E _]. pose proof (lookup_lt_Some _ _ _ E) as Hi. rewrite length_take in Hi.
  rewrite lookup_take_lt in E by lia. rewrite length_drop.
  match goal with |- (if ?d then _ else _) = _ → _ => destruct d as [H|H] end; [intros _|done].
  exists [], (take i a), (take (alen - i - 1) (drop (S i) a)), (drop alen a).
  rewrite !length_take, !length_drop. split_and!.
  - cbn [app]. rewrite <- (take_drop_middle _ _ _ E) at 1. f_equal. cbn [app]. f_equal.
    replace (drop alen a) with (drop (alen - i - 1) (drop (S i) a)) by (rewrite drop_drop; f_equal; lia). by rewrite take_drop.
  - revert H. unfold id. repeat case_decide; lia.
  - revert H. unfold id. repeat case_decide; lia.
Qed.

Lemma parse_attrs_nv fuel : ∀ rest st st', parse_attrs fuel rest st = Ok st' →
  name st'.1.1 = name st.1.1 ∧ value st'.1.1 = value st.1.1.
Proof.
  induction fuel as [|fuel IH]; intros rest st st'; [by intros [= <-]|]. cbn [parse_attrs].
  destruct rest as [|x rest]; [by intros [= <-]|]. set (a := skip _ _). cbv zeta.
  destruct (set_attr st a _) as [st1|] eqn:E; [|done]. cbn [res_bind]. intros H.
  apply IH in H as [-> ->]. by eapply set_attr_nv.
Qed.

Lemma parse_attrs_over_read fuel : ∀ rest st, parse_attrs fuel rest st = UB → over_read rest.
Proof.
  induction fuel as [|fuel IH]; intros rest st; [done|]. cbn [parse_attrs].
  destruct rest as [|x rest]; [done|]. destruct (skip_suffix (λ c, bool_decide (c = 59) || c_isspace c) (x :: rest)) as (w&Ew&_).
  set (a := skip _ _) in *. clearbody a. cbv zeta. intros H. rewrite Ew. apply over_read_suffix.
  assert (default (length a) (strchr a 59) <= length a)%nat as Hl.
  { destruct (strchr a 59) as [i|] eqn:E; cbn; unfold id; [|lia]. apply strchr_Some in E as [E _]. apply lookup_lt_Some in E. lia. }
  destruct (set_attr st a _) as [st1|] eqn:E; cbn [res_bind] in H; [|by eapply set_attr_over_read].
  apply IH in H. destruct (strchr a 59) as [i|]; rewrite <- (take_drop (S i) a) || rewrite <- (take_drop (length a) a);
    by apply over_read_suffix.
Qed.

Lemma rtrim_length s : (length (rtrim s) <= length s)%nat.
Proof. unfold rtrim. rewrite length_rev. etrans; [apply length_skip|]. by rewrite length_rev. Qed.

Lemma parse_cookie_accepts now s host is_https c :
  parse_cookie now s host is_https = Ok (Some c) → accepted host is_https c.
Proof.
  unfold parse_cookie. destruct (cut 59 s) as [nv rest], (cut 61 nv) as [n [v|]]; [|done].
  case_decide as Hn; [done|].
  destruct (parse_attrs _ _ _) as [[[out ma] ex]|] eqn:Ep; [|done]. cbn [res_bind].
  destruct (parse_attrs_nv _ _ _ _ Ep) as [En Ev]. cbn [fst name value] in En, Ev.
  destruct (secure out && negb is_https) eqn:Es; [done|]. cbv zeta.
  destruct (decide (domain (set_domain _ out) = [])) as [|Hd]; [done|].
  destruct (parse_expiry now ma ex) as [e|]; [|done]. cbn [res_bind]. intros [= <-].
  cbn [domain set_domain] in Hd. pose proof (canon_domain_spec _ _ Hd) as Hc.
  pose proof (rtrim_length n) as Hr. unfold accepted.
  match goal with |- context [@decide ?P ?d] => destruct (@decide P d) as [Hp|Hp] end;
    cbn [set_expires set_path set_domain domain name path value secure]; rewrite En, Ev;
    (split_and!; [done|done|done|lia|lia|]); by destruct (secure out), is_https.
Qed.

Lemma cut_rest x s : default [] (cut x s).2 = drop (length s - length (default [] (cut x s).2)) s.
Proof.
  unfold cut. destruct (strchr s x) as [i|] eqn:E; cbn.
  - apply strchr_Some in E as [E _]. apply lookup_lt_Some in E. rewrite length_drop. f_equal. unfold id. lia.
  - rewrite Nat.sub_0_r. by rewrite drop_all.
Qed.

(** The attributes of the text give an expiry that overflows [time_t]. *)
Definition bad_expiry (now : Z) (s : bytes) : Prop := ∃ x rest c out ma ex, s = x ++ rest ∧
  parse_attrs (length rest) rest (c, [], []) = Ok (out, ma, ex) ∧ parse_expiry now ma ex = UB.

(** What a parse without a defined result is due to. *)
Lemma parse_cookie_UB now s host is_https : parse_cookie now s host is_https = UB →
  over_read s ∨ bad_expiry now s.
Proof.
  unfold parse_cookie. pose proof (cut_rest 59 s) as Er. destruct (cut 59 s) as [nv rest]. cbn [snd] in Er.
  destruct (cut 61 nv) as [n [v|]]; [|done]. case_decide; [done|]. rewrite Er.
  destruct (parse_attrs _ _ _) as [[[out ma] ex]|] eqn:Ep; cbn [res_bind].
  - destruct (secure out && negb is_https); [done|]. cbv zeta. case_decide; [done|].
    destruct (parse_expiry now ma ex) as [e|] eqn:E; [done|]. intros _. right.
    eexists (take (length s - length (default [] rest)) s), _, _, out, ma, ex. rewrite take_drop. split; [done|].
    split; [exact Ep|done].
  - intros _. left. apply parse_attrs_over_read in Ep. rewrite <- (take_drop (length s - length (default [] rest)) s).
    by apply over_read_suffix.
Qed.



(** The host-only flag is not kept: a cookie set without [Domain] is sent to
    every subdomain. *)
Lemma cookie_not_host_only :
  match mini_cookies_set_from_header 1000 1000 [] (str "example.com") (str "/") true (Some (str "sid=1")) with
  | Ok (jar, _) => build_for 1000 jar (str "evil.example.com") (str "/") true false 512 = Ok (jar, str "sid=1", 5)
  | UB => False
  end.
Proof. vm_compute. reflexivity. Qed.

(** A blank before [;] hides an attribute: "Secure ;" is stored as not secure. *)
Lemma cookie_attr_blank :
  match parse_cookie 0 (str "sid=1; Secure ; Path=/") (str "a.com") true with
  | Ok (Some c) => secure c = false
  | _ => False
  end.
Proof. vm_compute. reflexivity. Qed.

(** A name of 40 letters and a value of one: ten bytes are copied where two are
    left.  With a longer text behind the [;] nothing shows. *)
Lemma cookie_attr_over_read :
  parse_cookie 0 (str "k=v; abcdefghijabcdefghijabcdefghijabcdefghij=1") (str "a.com") true = UB ∧
  ∃ c, parse_cookie 0 (str "k=v; abcdefghijabcdefghijabcdefghijabcdefghij=1; Path=/a/b") (str "a.com") true = Ok (Some c)
    ∧ path c = str "/a/b".
Proof. split; [vm_compute; reflexivity|]. eexists. split; vm_compute; reflexivity. Qed.
