(* ===== verification/Bidi.v ===== *)
(** * Bidirectional text (src/src/mini_bidi.c)

    Character classes, mirroring, level resolution (X, W, N, I rules), visual
    reordering and the UTF-8 front end.  Code points are [Z]; the arrays [T],
    [L] and [visual] are lists of length [n], updated in place as in the code;
    [malloc] is the outcome of the allocations. *)

From S2P Require Import Prelude.
From stdpp Require Import list.
Open Scope Z_scope.

(** ** Classes *)

Inductive MiniBidiClass :=
  | BIDI_L | BIDI_R | BIDI_AL | BIDI_EN | BIDI_ES | BIDI_ET | BIDI_AN | BIDI_CS | BIDI_NSM
  | BIDI_BN | BIDI_BS | BIDI_SS | BIDI_WS | BIDI_ON | BIDI_LRE | BIDI_RLE | BIDI_LRO | BIDI_RLO
  | BIDI_PDF | BIDI_FSI | BIDI_LRI | BIDI_RLI | BIDI_PDI.
#[export] Instance MiniBidiClass_dec : EqDecision MiniBidiClass.
Proof. solve_decision. Defined.
#[export] Instance MiniBidiClass_inhabited : Inhabited MiniBidiClass := populate BIDI_L.

Notation "c ∈? l" := (bool_decide (c ∈ (l : list Z))) (at level 40, only parsing).
Definition between (a c b : Z) : bool := bool_decide (a <= c <= b).

(** One [if ... return] chain per group of tests of the code. *)
Definition class_hebrew (c : Z) : MiniBidiClass :=
  if between 0x0591 c 0x05BD then BIDI_NSM else
  if c ∈? [0x05BE; 0x05C0; 0x05C3] then BIDI_R else
  if c ∈? [0x05C4; 0x05C5; 0x05C7] then BIDI_NSM else
  if between 0x05D0 c 0x05EA then BIDI_R else
  if between 0x05F0 c 0x05F4 then BIDI_R else BIDI_R.

Definition class_arabic (c : Z) : MiniBidiClass :=
  if c ∈? [0x060C] then BIDI_CS else
  if c ∈? [0x061B; 0x061F] then BIDI_ON else
  if between 0x0660 c 0x0669 then BIDI_AN else
  if between 0x06F0 c 0x06F9 then BIDI_EN else
  if between 0x064B c 0x065F then BIDI_NSM else
  if c ∈? [0x0670; 0x0640] then BIDI_AL else
  if c ∈? [0x06DD; 0x06DE] then BIDI_AN else
  if c ∈? [0x066A] then BIDI_ET else
  if c ∈? [0x066B; 0x066C] then BIDI_CS else BIDI_AL.

Definition class_control (c : Z) : option MiniBidiClass :=
  if c ∈? [0x200E] then Some BIDI_BN else if c ∈? [0x200F] then Some BIDI_BN else
  if c ∈? [0x202A] then Some BIDI_LRE else if c ∈? [0x202B] then Some BIDI_RLE else
  if c ∈? [0x202C] then Some BIDI_PDF else if c ∈? [0x202D] then Some BIDI_LRO else
  if c ∈? [0x202E] then Some BIDI_RLO else if c ∈? [0x2066] then Some BIDI_LRI else
  if c ∈? [0x2067] then Some BIDI_RLI else if c ∈? [0x2068] then Some BIDI_FSI else
  if c ∈? [0x2069] then Some BIDI_PDI else if c ∈? [0x2028] then Some BIDI_BS else
  if c ∈? [0x2029] then Some BIDI_SS else if c ∈? [0x0009; 0x000A; 0x000D] then Some BIDI_BS else
  if c ∈? [0x0000; 0x000B] || between 0x000E c 0x001F || c ∈? [0x007F] || between 0x0080 c 0x009F
  then Some BIDI_BN else None.

Definition class_latin (c : Z) : option MiniBidiClass :=
  if c ∈? [0x0020] then Some BIDI_WS else if between 0x2000 c 0x200A then Some BIDI_WS else
  if c ∈? [0x1680] then Some BIDI_WS else if between 0x3000 c 0x3000 then Some BIDI_WS else
  if between 65 c 90 || between 97 c 122 then Some BIDI_L else
  if between 48 c 57 then Some BIDI_EN else
  if c ∈? [43; 45] then Some BIDI_ES else
  if c ∈? [36] then Some BIDI_ET else
  if c ∈? [37; 0x066B; 0x066C] then Some BIDI_ET else
  if c ∈? [44; 46; 47; 58] then Some BIDI_CS else
  if c ∈? [40; 41; 91; 93; 123; 125; 60; 62; 0x2018; 0x2019; 0x201C; 0x201D;
           0x2010; 0x2013; 0x2014; 0x2026; 0x2039; 0x203A] then Some BIDI_ON else
  if between 0x0021 c 0x002F then Some BIDI_ON else if between 0x003A c 0x0040 then Some BIDI_ON else
  if between 0x005B c 0x0060 then Some BIDI_ON else if between 0x007B c 0x007E then Some BIDI_ON else
  if c ∈? [0x00A0] then Some BIDI_CS else if c ∈? [0x00AD] then Some BIDI_BN else
  if between 0x00B0 c 0x00B9 || c ∈? [0x2070] then Some BIDI_EN else
  if c ∈? [0x00B2; 0x00B3] then Some BIDI_EN else
  if between 0x0300 c 0x036F then Some BIDI_NSM else if between 0x1AB0 c 0x1AFF then Some BIDI_NSM else
  if between 0x1DC0 c 0x1DFF then Some BIDI_NSM else if between 0xFE20 c 0xFE2F then Some BIDI_NSM
  else None.

Definition class_other (c : Z) : MiniBidiClass :=
  if between 0xFB50 c 0xFDFF || between 0xFE70 c 0xFEFF then BIDI_AL else
  if between 0xFB1D c 0xFB4F then BIDI_R else
  if between 0x0700 c 0x074F || between 0x0750 c 0x077F || between 0x07C0 c 0x07FF ||
     between 0x0800 c 0x083F || between 0x0840 c 0x085F || between 0x08A0 c 0x08FF then BIDI_AL else
  if between 0x0900 c 0x097F then BIDI_L else
  if between 0x00C0 c 0x024F then BIDI_L else
  if between 0x2500 c 0x27BF then BIDI_ON else if between 0x2190 c 0x21FF then BIDI_ON else
  if between 0x1F000 c 0x1FAFF then BIDI_ON else if between 0x2600 c 0x27BF then BIDI_ON else BIDI_ON.

Definition mini_bidi_class (c : Z) : MiniBidiClass :=
  match class_control c with
  | Some t => t
  | None =>
    match class_latin c with
    | Some t => t
    | None =>
      if between 0x0590 c 0x05FF then class_hebrew c else
      if between 0x0600 c 0x06FF then class_arabic c else class_other c
    end
  end.

Definition MIRRORS : list (Z * Z) :=
  [(0x0028,0x0029);(0x005B,0x005D);(0x007B,0x007D);(0x003C,0x003E);
   (0x00AB,0x00BB);(0x2039,0x203A);(0x2045,0x2046);(0x207D,0x207E);
   (0x208D,0x208E);(0x2329,0x232A);(0x27E6,0x27E7);(0x27E8,0x27E9);
   (0x27EA,0x27EB);(0x27EC,0x27ED);(0x27EE,0x27EF);(0x2983,0x2984);
   (0x2985,0x2986);(0x2987,0x2988);(0x2989,0x298A);(0x298B,0x298C);
   (0x298D,0x298E);(0x298F,0x2990);(0x2991,0x2992);(0x2993,0x2994);
   (0x2995,0x2996);(0x2997,0x2998);(0x29D8,0x29D9);(0x29DA,0x29DB);
   (0x29FC,0x29FD);(0x2E22,0x2E23);(0x2E24,0x2E25);(0x2E26,0x2E27);
   (0x2E28,0x2E29);(0x3008,0x3009);(0x300A,0x300B);(0x300C,0x300D);
   (0x300E,0x300F);(0x3010,0x3011);(0x3014,0x3015);(0x3016,0x3017);
   (0x3018,0x3019);(0x301A,0x301B);(0xFE59,0xFE5A);(0xFE5B,0xFE5C);
   (0xFE5D,0xFE5E);(0xFE64,0xFE65);(0xFF08,0xFF09);(0xFF3B,0xFF3D);
   (0xFF5B,0xFF5D);(0xFF5F,0xFF60);(0xFF62,0xFF63)].

Fixpoint mirror_loop (l : list (Z * Z)) (c : Z) : Z :=
  match l with
  | [] => c
  | (a, b) :: l => if decide (a = c) then b else if decide (b = c) then a else mirror_loop l c
  end.
Definition mini_bidi_mirror (c : Z) : Z := mirror_loop MIRRORS c.

(** ** Resolution *)

Abbreviation classes := (list MiniBidiClass).

Definition is_strong (t : MiniBidiClass) : bool := bool_decide (t ∈ [BIDI_L; BIDI_R; BIDI_AL]).
Definition strong_for_neutral (t : MiniBidiClass) : MiniBidiClass :=
  match t with
  | BIDI_L => BIDI_L
  | BIDI_R | BIDI_AL | BIDI_EN | BIDI_AN => BIDI_R
  | _ => t
  end.

(** P2, P3. *)
Fixpoint par_level (T : classes) : Z :=
  match T with
  | [] => 0
  | BIDI_L :: _ => 0
  | (BIDI_R | BIDI_AL) :: _ => 1
  | _ :: T => par_level T
  end.

(** X1-X9: [cur], [override], and the two stacks as one list, last pushed first. *)
Record x_state := X { x_cur : Z; x_over : MiniBidiClass; x_stack : list (Z * MiniBidiClass) }.

Definition x_next (t : MiniBidiClass) (cur : Z) : Z :=
  let next := if decide (t ∈ [BIDI_RLE; BIDI_RLO]) then i8 (Z.lor cur 1 + 1)
              else i8 (Z.land (cur + 2) (Z.lnot 1)) in
  if decide (61 < next) then 61 else next.

(** One turn: the new state, class and level. *)
Definition x_step (s : x_state) (t : MiniBidiClass) : x_state * MiniBidiClass * Z :=
  match t with
  | BIDI_RLE | BIDI_LRE | BIDI_RLO | BIDI_LRO =>
    let next := x_next t (x_cur s) in
    let stack := if decide (length (x_stack s) < 64)%nat then (x_cur s, x_over s) :: x_stack s else x_stack s in
    (X next (match t with BIDI_LRO => BIDI_L | BIDI_RLO => BIDI_R | _ => BIDI_ON end) stack, BIDI_BN, next)
  | BIDI_PDF =>
    let s := match x_stack s with (cur, ov) :: st => X cur ov st | [] => s end in (s, BIDI_BN, x_cur s)
  | BIDI_BN => (s, BIDI_BN, x_cur s)
  | _ =>
    let t := if decide (x_over s ≠ BIDI_ON ∧ t ≠ BIDI_WS) then
               match x_over s with BIDI_L => BIDI_L | BIDI_R => BIDI_R | _ => t end
             else t in
    (s, t, x_cur s)
  end.

Fixpoint x_pass (s : x_state) (T : classes) : classes * list Z :=
  match T with
  | [] => ([], [])
  | t :: T =>
    let '(s, t, l) := x_step s t in let '(T, L) := x_pass s T in (t :: T, l :: L)
  end.

Definition dir (level : Z) : MiniBidiClass := if decide (level mod 2 = 0) then BIDI_L else BIDI_R.

Fixpoint w1 (prev : MiniBidiClass) (T : classes) : classes :=
  match T with
  | [] => []
  | BIDI_NSM :: T => prev :: w1 prev T
  | BIDI_BN :: T => BIDI_BN :: w1 prev T
  | t :: T => t :: w1 t T
  end.

Fixpoint w2 (last_strong : MiniBidiClass) (T : classes) : classes :=
  match T with
  | [] => []
  | BIDI_BN :: T => BIDI_BN :: w2 last_strong T
  | t :: T =>
    let t := if decide (t = BIDI_EN ∧ last_strong = BIDI_AL) then BIDI_AN else t in
    t :: w2 (if is_strong t then t else last_strong) T
  end.

Definition w3 (T : classes) : classes := map (λ t, if decide (t = BIDI_AL) then BIDI_R else t) T.

(** [while (ai > 0 && T[ai] == BIDI_BN) ai--] *)
Fixpoint back_bn (T : classes) (ai : nat) : nat :=
  match ai with
  | O => O
  | S a => if decide (T !!! ai = BIDI_BN) then back_bn T a else ai
  end.
(** [while (bi < n - 1 && T[bi] == BIDI_BN) bi++], [k] = [n - 1 - bi]. *)
Fixpoint forw_bn (T : classes) (k bi : nat) : nat :=
  match k with
  | O => bi
  | S k => if decide (T !!! bi = BIDI_BN) then forw_bn T k (S bi) else bi
  end.

Definition w4_step (n : nat) (T : classes) (i : nat) : classes :=
  if decide (T !!! i ∈ [BIDI_ES; BIDI_CS]) then
    let a := T !!! back_bn T (i - 1) in
    let b := T !!! forw_bn T (n - 1 - (i + 1)) (i + 1) in
    if decide (a = BIDI_EN ∧ b = BIDI_EN) then <[i := BIDI_EN]> T
    else if decide (a = BIDI_AN ∧ b = BIDI_AN) then <[i := BIDI_AN]> T else T
  else T.
Definition w4 (T : classes) : classes :=
  foldl (w4_step (length T)) T (seq 1 (length T - 2)).

(** The end of the run of elements satisfying [f] that starts at [i]. *)
Fixpoint prefix_len {A} (f : A → bool) (l : list A) : nat :=
  match l with x :: l => if f x then S (prefix_len f l) else O | [] => O end.
Definition run_end {A} (f : A → bool) (i : nat) (l : list A) : nat := (i + prefix_len f (drop i l))%nat.

(** [for (k = i; k < j; k++) T[k] = x] *)
Definition fill (i j : nat) (x : MiniBidiClass) (T : classes) : classes :=
  take i T ++ replicate (j - i) x ++ drop j T.

Fixpoint w5_loop (fuel i : nat) (T : classes) : classes :=
  match fuel with
  | O => T
  | S fuel =>
    if decide (length T <= i)%nat then T else
    if decide (T !!! i = BIDI_ET) then
      let j := run_end (λ t, bool_decide (t = BIDI_ET)) i T in
      let adj_en := bool_decide (((0 < i)%nat ∧ T !!! (i - 1)%nat = BIDI_EN)
                                 ∨ ((j < length T)%nat ∧ T !!! j = BIDI_EN)) in
      w5_loop fuel j (if adj_en then fill i j BIDI_EN T else T)
    else w5_loop fuel (S i) T
  end.
Definition w5 (T : classes) : classes := w5_loop (length T) 0 T.

Definition w6 (T : classes) : classes :=
  map (λ t, if decide (t ∈ [BIDI_ES; BIDI_ET; BIDI_CS]) then BIDI_ON else t) T.

Fixpoint w7 (last_strong : MiniBidiClass) (T : classes) : classes :=
  match T with
  | [] => []
  | BIDI_BN :: T => BIDI_BN :: w7 last_strong T
  | t :: T =>
    let t := if decide (t = BIDI_EN ∧ last_strong = BIDI_L) then BIDI_L else t in
    t :: w7 (if decide (t ∈ [BIDI_L; BIDI_R]) then t else last_strong) T
  end.

Definition neutral (t : MiniBidiClass) : bool := bool_decide (t ∈ [BIDI_WS; BIDI_ON; BIDI_BS; BIDI_SS]).

(** The first class that is not [BN], when it counts for a neutral. *)
Fixpoint side (T : classes) : option MiniBidiClass :=
  match T with
  | [] => None
  | BIDI_BN :: T => side T
  | t :: _ => if decide (t ∈ [BIDI_L; BIDI_R; BIDI_EN; BIDI_AN]) then Some t else None
  end.

Fixpoint n_loop (fuel i : nat) (L : list Z) (T : classes) : classes :=
  match fuel with
  | O => T
  | S fuel =>
    if decide (length T <= i)%nat then T else
    if neutral (T !!! i) then
      let s := run_end neutral i T in
      let d := dir (L !!! i) in
      let prev := default d (side (rev (take i T))) in
      let next := default d (side (drop s T)) in
      let ps := strong_for_neutral prev in let ns := strong_for_neutral next in
      n_loop fuel s L (fill i s (if decide (ps = ns) then ps else d) T)
    else n_loop fuel (S i) L T
  end.
Definition n_pass (L : list Z) (T : classes) : classes := n_loop (length T) 0 L T.

(** I1, I2. *)
Definition i_level (t : MiniBidiClass) (e : Z) : Z :=
  if decide (Z.land e 1 = 0) then
    match t with BIDI_R => i8 (e + 1) | BIDI_AN => i8 (e + 1) | BIDI_EN => e | _ => e end
  else match t with BIDI_L => i8 (e + 1) | BIDI_EN => i8 (e + 1) | _ => e end.

Definition resolve (cps : list Z) : Z * classes * list Z :=
  let T := map mini_bidi_class cps in
  let plevel := par_level T in
  let '(T, L) := x_pass (X plevel BIDI_ON []) T in
  let T := w1 (dir plevel) T in
  let T := w2 (dir plevel) T in
  let T := w7 (dir plevel) (w6 (w5 (w4 (w3 T)))) in
  let T := n_pass L T in
  (plevel, T, zip_with i_level T L).

(** ** Reordering *)

(** [while (a < b) { swap l[a] l[b]; a++; b--; }] *)
Fixpoint swap_range {A} `{!Inhabited A} (fuel a b : nat) (l : list A) : list A :=
  match fuel with
  | O => l
  | S fuel =>
    if decide (a < b)%nat
    then swap_range fuel (S a) (b - 1) (<[b := l !!! a]> (<[a := l !!! b]> l))
    else l
  end.

Definition ge_level (lvl x : Z) : bool := bool_decide (lvl <= x).

(** [while (i < n)] over the runs at [lvl] or deeper: their bounds. *)
Fixpoint runs (fuel i : nat) (lvl : Z) (L : list Z) : list (nat * nat) :=
  match fuel with
  | O => []
  | S fuel =>
    if decide (length L <= i)%nat then [] else
    if ge_level lvl (L !!! i) then
      let j := run_end (ge_level lvl) i L in (i, j) :: runs fuel j lvl L
    else runs fuel (S i) lvl L
  end.

Definition reverse_runs {A} `{!Inhabited A} (rs : list (nat * nat)) (l : list A) : list A :=
  foldl (λ l '(i, j), swap_range (j - i) i (j - 1) l) l rs.

Definition max_level (L : list Z) : Z := foldl (λ m x, if decide (m < x) then x else m) 0 L.
Definition min_odd (L : list Z) : Z :=
  foldl (λ m x, if decide (Z.land x 1 ≠ 0 ∧ x < m) then x else m) 63 L.

(** [maxl], [maxl - 1], ..., [min_odd]. *)
Definition l2_levels (L : list Z) : list Z :=
  map (λ k, max_level L - Z.of_nat k) (seq 0 (Z.to_nat (max_level L - min_odd L + 1))).

(** The first loop of L2, on the levels themselves; a run keeps its bounds while
    it is reversed. *)
Definition l2_on_levels (L : list Z) : list Z :=
  foldl (λ L lvl, reverse_runs (runs (length L) 0 lvl L) L) L (l2_levels L).

(** The second one, on the index array, with the levels the first one leaves. *)
Definition l2_visual (L : list Z) : list Z :=
  foldl (λ v lvl, reverse_runs (runs (length L) 0 lvl L) v) (map Z.of_nat (seq 0 (length L)))
    (l2_levels L).

(** Returned level, [visual], [levels]. *)
Definition mini_bidi_reorder (malloc : bool) (cps : list Z) : Z * list Z * list Z :=
  match cps with
  | [] => (0, [], [])
  | _ =>
    if malloc then
      let '(plevel, _, L) := resolve cps in
      let L := l2_on_levels L in
      (plevel, l2_visual L, L)
    else (0, map Z.of_nat (seq 0 (length cps)), replicate (length cps) 0)
  end.

(** ** UTF-8 *)

Definition cont (s : bytes) (i : nat) (r : Z) : Z :=
  match s !! i with
  | Some b => Z.lor (u32 (Z.shiftl r 6)) (Z.land b 0x3F)
  | None => r
  end.

(** The code point at the head of [s], [s] not empty, and how far [*p] moves. *)
Definition utf8_next (s : bytes) : Z * nat :=
  let c := rd s 0 in
  if decide (c < 0x80) then (c, 1%nat) else
  if decide (Z.land c 0xE0 = 0xC0) then (cont s 1 (Z.land c 0x1F), 2%nat) else
  if decide (Z.land c 0xF0 = 0xE0) then (cont s 2 (cont s 1 (Z.land c 0x0F)), 3%nat) else
  (cont s 3 (cont s 2 (cont s 1 (Z.land c 0x07))), 4%nat).

(** [offs] and [cps]; [p] is the offset of [s]. *)
Fixpoint utf8_loop (fuel : nat) (p : nat) (s : bytes) : list (nat * Z) :=
  match fuel, s with
  | S fuel, _ :: _ =>
    let '(cp, k) := utf8_next s in (p, cp) :: utf8_loop fuel (p + k) (drop k s)
  | _, _ => []
  end.
Definition utf8_decode (s : bytes) : list (nat * Z) := utf8_loop (length s) 0 s.

(** [out_vis] ([*out_n] is its length).  The allocations, in order: [cps],
    [offs], [visual], [levels], the two of [mini_bidi_reorder], [vb]; the code
    tests those two only. *)
Definition mini_bidi_reorder_utf8 (malloc : nat → bool) (utf8 : bytes) : res (Z * list Z) :=
  let cs := utf8_decode utf8 in
  if decide (cs ≠ [] ∧ forallb malloc [0; 1; 2; 3; 6]%nat = false) then UB else
  let '(_, visual, _) := mini_bidi_reorder (malloc 4%nat && malloc 5%nat) (map snd cs) in
  Ok (0, map (λ v, Z.of_nat (map fst cs !!! Z.to_nat v)) visual).

Example bidi_latin_digits : mini_bidi_reorder true [97; 98; 32; 49] = (0, [0; 1; 2; 3], [0; 0; 0; 0]).
Proof. vm_compute. reflexivity. Qed.
Example bidi_hebrew : mini_bidi_reorder true [0x5E9; 0x5DC; 0x5D5] = (1, [2; 1; 0], [1; 1; 1]).
Proof. vm_compute. reflexivity. Qed.

(** ** Range reversal *)

Lemma swap_range_rev {A} `{!Inhabited A} fuel : ∀ (p m s : list A) a b,
  length p = a → (a + length m = S b)%nat → (length m <= S fuel)%nat →
  swap_range fuel a b (p ++ m ++ s) = p ++ rev m ++ s.
Proof.
  induction fuel as [|fuel IH]; intros p m s a b Ha Hb Hf.
  { destruct m as [|x [|y m]]; simpl in *; [done..|lia]. }
  cbn [swap_range]. case_decide as Hab.
  2:{ destruct m as [|x [|y m]]; simpl in *; [done..|lia]. }
  destruct m as [|x m]; [simpl in Hb; lia|]. destruct m as [|y m _] using rev_ind; [simpl in Hb; lia|].
  rewrite length_cons, length_app in Hb. cbn [length] in Hb.
  rewrite length_cons, length_app in Hf. cbn [length] in Hf.
  set (l := p ++ (x :: m ++ [y]) ++ s).
  assert (l !!! a = x) as ->.
  { unfold l. rewrite lookup_total_app_r by lia. by replace (a - length p)%nat with 0%nat by lia. }
  assert (l !!! b = y) as ->.
  { unfold l. replace (p ++ (x :: m ++ [y]) ++ s) with ((p ++ x :: m) ++ y :: s) by (by rewrite <- !app_assoc; simpl; rewrite <- app_assoc).
    rewrite lookup_total_app_r by (rewrite length_app; simpl; lia).
    by replace (b - length (p ++ x :: m))%nat with 0%nat by (rewrite length_app; simpl; lia). }
  assert (<[b := x]> (<[a := y]> l) = (p ++ [y]) ++ m ++ x :: s) as ->.
  { unfold l. rewrite insert_app_r_alt by lia. replace (a - length p)%nat with 0%nat by lia.
    cbn [app]. change (<[0%nat := y]> (x :: ?r)) with (y :: r).
    replace (p ++ y :: (m ++ [y]) ++ s) with ((p ++ y :: m) ++ y :: s) by (by rewrite <- !app_assoc; simpl; rewrite <- ?app_assoc).
    rewrite insert_app_r_alt by (rewrite length_app; simpl; lia).
    replace (b - length (p ++ y :: m))%nat with 0%nat by (rewrite length_app; simpl; lia).
    change (<[0%nat := x]> (y :: s)) with (x :: s). by rewrite <- !app_assoc. }
  rewrite IH; [|rewrite length_app; simpl; lia|lia|lia].
  rewrite <- app_assoc. cbn [app rev]. rewrite rev_app_distr. cbn [rev app]. by rewrite <- app_assoc.
Qed.

Definition rev_range {A} (i j : nat) (l : list A) : list A :=
  take i l ++ rev (slice i (j - i) l) ++ drop j l.

Lemma swap_range_spec {A} `{!Inhabited A} i j (l : list A) : (i < j <= length l)%nat →
  swap_range (j - i) i (j - 1) l = rev_range i j l.
Proof.
  intros H. unfold rev_range.
  assert (l = take i l ++ slice i (j - i) l ++ drop j l) as E.
  { rewrite <- (take_drop i l) at 1. f_equal. unfold slice.
    rewrite <- (take_drop (j - i) (drop i l)) at 1. f_equal. rewrite drop_drop. f_equal. lia. }
  rewrite E at 1. apply swap_range_rev.
  - rewrite length_take. lia.
  - rewrite length_slice by lia. lia.
  - rewrite length_slice by lia. lia.
Qed.

Lemma rev_range_perm {A} i j (l : list A) : (i <= j)%nat → rev_range i j l ≡ₚ l.
Proof.
  intros H. unfold rev_range. rewrite <- (take_drop i l) at 4. apply Permutation_app_head.
  unfold slice. rewrite <- (take_drop (j - i) (drop i l)) at 2. rewrite drop_drop.
  replace (i + (j - i))%nat with j by lia. apply Permutation_app_tail, Permutation_sym, Permutation_rev.
Qed.

Lemma prefix_len_le {A} (f : A → bool) l : (prefix_len f l <= length l)%nat.
Proof. induction l as [|x l IH]; simpl; [done|]. destruct (f x); lia. Qed.

Lemma prefix_len_Forall {A} (f : A → bool) l : Forall (λ x, f x = true) (take (prefix_len f l) l).
Proof. induction l as [|x l IH]; simpl; [constructor|]. destruct (f x) eqn:E; constructor; done. Qed.

Lemma run_end_bounds {A} `{!Inhabited A} (f : A → bool) i l : (i < length l)%nat → f (l !!! i) = true →
  (i < run_end f i l <= length l)%nat.
Proof.
  intros Hi Hf. unfold run_end.
  assert (drop i l = l !!! i :: drop (S i) l) as E by (by apply drop_S, list_lookup_lookup_total_lt).
  pose proof (prefix_len_le f (drop i l)) as Hl. rewrite length_drop in Hl. rewrite E in *. simpl in *.
  rewrite Hf in *. lia.
Qed.

(** The bounds [runs] returns lie in the array. *)
Lemma runs_bounds fuel : ∀ i lvl L, Forall (λ r, (r.1 < r.2 <= length L)%nat) (runs fuel i lvl L).
Proof.
  induction fuel as [|fuel IH]; intros i lvl L; cbn [runs]; [constructor|]. case_decide; [constructor|].
  destruct (ge_level lvl (L !!! i)) eqn:E; [|apply IH]. constructor; [|apply IH]. simpl.
  by apply run_end_bounds; [lia|].
Qed.

Lemma reverse_runs_perm {A} `{!Inhabited A} n rs (l : list A) :
  Forall (λ r, (r.1 < r.2 <= n)%nat) rs → length l = n → reverse_runs rs l ≡ₚ l.
Proof.
  intros H. revert l. induction H as [|[i j] rs Hr H IH]; intros l Hl; [done|]. cbn [fst snd] in Hr.
  change (reverse_runs ((i, j) :: rs) l) with (reverse_runs rs (swap_range (j - i) i (j - 1) l)).
  rewrite swap_range_spec by lia. pose proof (rev_range_perm i j l ltac:(lia)) as P.
  etrans; [|exact P]. apply IH. by rewrite P.
Qed.

Lemma l2_visual_perm L : l2_visual L ≡ₚ map Z.of_nat (seq 0 (length L)).
Proof.
  unfold l2_visual. set (v := map Z.of_nat (seq 0 (length L))).
  assert (length v = length L) as Hv by (unfold v; by rewrite length_map, length_seq).
  clearbody v. revert v Hv. induction (l2_levels L) as [|lvl ls IH]; intros v Hv; [done|]. cbn [foldl].
  pose proof (reverse_runs_perm (length L) _ v (runs_bounds (length L) 0 lvl L) Hv) as P.
  etrans; [|exact P]. apply IH. by rewrite P.
Qed.

Lemma l2_on_levels_perm L : l2_on_levels L ≡ₚ L.
Proof.
  unfold l2_on_levels. generalize (l2_levels L) as ls. revert L.
  assert (∀ ls M, foldl (λ L lvl, reverse_runs (runs (length L) 0 lvl L) L) M ls ≡ₚ M) as H; [|intros; apply H].
  induction ls as [|lvl ls IH]; intros M; [done|]. cbn [foldl].
  etrans; [apply IH|]. eapply reverse_runs_perm; [apply runs_bounds|done].
Qed.

(** ** Bounds of the levels *)

Definition level_ok (l : Z) : Prop := 0 <= l <= 61.
Definition x_ok (s : x_state) : Prop := level_ok (x_cur s) ∧ Forall (λ e, level_ok e.1) (x_stack s).

Lemma x_next_ok t cur : level_ok cur → level_ok (x_next t cur).
Proof.
  intros [H1 H2]. unfold x_next. set (nx := if decide (t ∈ _) then _ else _).
  assert (0 <= nx); [|unfold level_ok; case_decide; lia]. unfold nx. case_decide.
  - assert (0 <= Z.lor cur 1 < 2 ^ 6) by (apply lor_lt; lia). rewrite i8_small by lia. lia.
  - assert (0 <= Z.land (cur + 2) (Z.lnot 1) < 2 ^ 6) by (apply land_lt_l; lia).
    rewrite i8_small by lia. lia.
Qed.

Lemma x_step_ok s t : x_ok s → x_ok (x_step s t).1.1 ∧ level_ok (x_step s t).2.
Proof.
  intros [Hc Hs]. pose proof (x_next_ok t _ Hc) as Hn.
  destruct t; simpl; try (split; [split|]; done);
    try (split; [split; [done|]; simpl; case_decide; [by constructor|done]|done]).
  destruct s as [cur ov [|[c o] st]]; simpl in *; [done|]. apply Forall_cons in Hs as [? ?]. done.
Qed.

Lemma x_pass_ok T : ∀ s, x_ok s →
  length (x_pass s T).1 = length T ∧ length (x_pass s T).2 = length T ∧ Forall level_ok (x_pass s T).2.
Proof.
  induction T as [|t T IH]; intros s Hs; [done|]. simpl. destruct (x_step_ok s t Hs) as [H1 H2].
  destruct (x_step s t) as [[s' t'] l]. simpl in *. destruct (IH s' H1) as (L1 & L2 & F).
  destruct (x_pass s' T) as [T' L]. simpl in *. split_and!; [lia|lia|by constructor].
Qed.

Lemma length_w1 T : ∀ p, length (w1 p T) = length T.
Proof. induction T as [|[] T IH]; intros p; simpl; auto. Qed.
Lemma length_w2 T : ∀ p, length (w2 p T) = length T.
Proof. induction T as [|[] T IH]; intros p; simpl; auto. Qed.
Lemma length_w7 T : ∀ p, length (w7 p T) = length T.
Proof. induction T as [|[] T IH]; intros p; simpl; auto. Qed.
Lemma length_w4 T : length (w4 T) = length T.
Proof.
  unfold w4. generalize (length T) at 1 as n. intros n. generalize (seq 1 (length T - 2)) as l. intros l.
  revert T. induction l as [|i l IH]; intros T; [done|]. cbn [foldl]. rewrite IH. unfold w4_step.
  repeat case_decide; rewrite ?length_insert; done.
Qed.
Lemma length_fill i j x T : (i <= j <= length T)%nat → length (fill i j x T) = length T.
Proof. intros H. unfold fill. rewrite !length_app, length_take, length_replicate, length_drop. lia. Qed.

Lemma length_w5 T : length (w5 T) = length T.
Proof.
  unfold w5. generalize 0%nat as i. generalize (length T) at 1 as fuel. intros fuel. revert T.
  induction fuel as [|fuel IH]; intros T i; [done|]. cbn [w5_loop]. case_decide; [done|].
  case_decide as E; [|apply IH]. cbv zeta. rewrite IH. case_bool_decide; [|done].
  pose proof (run_end_bounds (λ t, bool_decide (t = BIDI_ET)) i T) as B. apply length_fill.
  enough (i < run_end (λ t, bool_decide (t = BIDI_ET)) i T <= length T)%nat by lia.
  apply B; [lia|]. by apply bool_decide_eq_true.
Qed.

Lemma length_n_pass L T : length (n_pass L T) = length T.
Proof.
  unfold n_pass. generalize 0%nat as i. generalize (length T) at 1 as fuel. intros fuel. revert T.
  induction fuel as [|fuel IH]; intros T i; [done|]. cbn [n_loop]. case_decide; [done|].
  destruct (neutral (T !!! i)) eqn:E; [|apply IH]. cbv zeta. rewrite IH. apply length_fill.
  pose proof (run_end_bounds neutral i T ltac:(lia) E). lia.
Qed.

Lemma i_level_ok t e : level_ok e → 0 <= i_level t e <= 62.
Proof.
  intros [H1 H2]. unfold i_level. case_decide; destruct t; rewrite ?i8_small by lia; lia.
Qed.

Lemma par_level_01 T : par_level T = 0 ∨ par_level T = 1.
Proof. induction T as [|[] T IH]; simpl; auto. Qed.

Lemma resolve_ok cps : let '(p, T, L) := resolve cps in
  (p = 0 ∨ p = 1) ∧ length T = length cps ∧ length L = length cps ∧ Forall (λ l, 0 <= l <= 62) L.
Proof.
  unfold resolve. set (T0 := map mini_bidi_class cps). pose proof (par_level_01 T0) as P.
  assert (x_ok (X (par_level T0) BIDI_ON [])) as X0.
  { split; [unfold level_ok; simpl; lia|constructor]. }
  destruct (x_pass_ok T0 _ X0) as (L1 & L2 & F). destruct (x_pass _ T0) as [T L]. simpl in L1, L2, F.
  assert (length T0 = length cps) as L0 by (unfold T0; by rewrite length_map).
  set (T' := n_pass L _). assert (length T' = length T) as LT.
  { unfold T'. rewrite length_n_pass, length_w7. unfold w6. rewrite length_map, length_w5, length_w4.
    unfold w3. by rewrite length_map, length_w2, length_w1. }
  split_and!; [done|lia|rewrite length_zip_with; lia|].
  clear -F. clearbody T'. revert T'. induction F as [|e L He F IH]; intros [|t T']; simpl; constructor; [|apply IH].
  by apply i_level_ok.
Qed.

(** For every text the paragraph level is 0 or 1, the index array is a
    permutation of the character positions (every character painted exactly
    once, every index in bounds), there is one level per character and every
    level is between 0 and 62, so the [int8_t] arithmetic never wraps, whether
    or not the two allocations succeed. *)
Theorem bidi_visual_permutation malloc cps :
  let '(plevel, visual, levels) := mini_bidi_reorder malloc cps in
  (plevel = 0 ∨ plevel = 1) ∧ visual ≡ₚ map Z.of_nat (seq 0 (length cps)) ∧
  length levels = length cps ∧ Forall (λ l, 0 <= l <= 62) levels.
Proof.
  unfold mini_bidi_reorder. destruct cps as [|c cps]; [by auto|]. set (t := c :: cps). clearbody t.
  destruct malloc.
  - pose proof (resolve_ok t) as R. destruct (resolve t) as [[p T] L]. destruct R as (Hp & _ & HL & F).
    pose proof (l2_on_levels_perm L) as P. pose proof (l2_visual_perm (l2_on_levels L)) as V.
    rewrite (Permutation_length P), HL in V. split_and!; [done|done|by rewrite P|by rewrite P].
  - split_and!; [by left|done|by rewrite length_replicate|]. apply Forall_replicate. lia.
Qed.

(** ** Two levels: the visual order *)

(** Left to right, each run of level 1 reversed; [acc] is the run so far. *)
Fixpoint visual_spec {A} (acc : list A) (l : list (Z * A)) : list A :=
  match l with
  | [] => acc
  | (lvl, x) :: l => if decide (lvl = 1) then visual_spec (x :: acc) l else acc ++ x :: visual_spec [] l
  end.

Definition two_level (L : list Z) : Prop := Forall (λ l, l = 0 ∨ l = 1) L.

Lemma zip_cons {A B} (x : A) (y : B) l k : zip (x :: l) (y :: k) = (x, y) :: zip l k.
Proof. done. Qed.

Lemma visual_spec_ones {A} k : ∀ (acc v1 v2 : list A) rest, length v1 = k →
  visual_spec acc (zip (replicate k 1 ++ rest) (v1 ++ v2)) = visual_spec (rev v1 ++ acc) (zip rest v2).
Proof.
  induction k as [|k IH]; intros acc [|x v1] v2 rest H; simpl in H; try done. injection H as H.
  cbn [replicate app]. rewrite zip_cons. cbn [visual_spec]. rewrite decide_True by done.
  rewrite IH by done. cbn [rev]. by rewrite <- app_assoc.
Qed.

Lemma visual_spec_stop {A} (acc v : list A) rest : length v = length rest → (rest = [] ∨ hd 0 rest ≠ 1) →
  visual_spec acc (zip rest v) = acc ++ visual_spec [] (zip rest v).
Proof.
  intros H Hs. destruct rest as [|l rest], v as [|x v]; simpl in H; try done.
  { simpl. by rewrite app_nil_r. }
  destruct Hs as [|Hs]; [done|]. simpl in Hs. rewrite zip_cons. cbn [visual_spec].
  by rewrite !decide_False by done.
Qed.

(** The leading run of level 1 of a two-level suffix. *)
Lemma two_level_run suf : two_level suf →
  ∃ rest, suf = replicate (prefix_len (ge_level 1) suf) 1 ++ rest ∧ two_level rest ∧
          (rest = [] ∨ hd 0 rest ≠ 1).
Proof.
  induction 1 as [|l suf Hl H (rest & E & T & S)]; [by exists []; repeat split; [constructor|left]|].
  cbn [prefix_len]. unfold ge_level at 1. destruct Hl as [-> | ->].
  - exists (0 :: suf). repeat split; [constructor; [by left|done]|by right].
  - exists rest. split; [by rewrite E at 1|done].
Qed.

Lemma reverse_runs_visual {A} `{!Inhabited A} fuel : ∀ (pre suf : list Z) (p v : list A),
  two_level suf → length p = length pre → length v = length suf → (length suf <= fuel)%nat →
  reverse_runs (runs fuel (length pre) 1 (pre ++ suf)) (p ++ v) = p ++ visual_spec [] (zip suf v).
Proof.
  induction fuel as [|fuel IH]; intros pre suf p v T Hp Hv Hf.
  { destruct suf; [|simpl in Hf; lia]. destruct v; [|done]. done. }
  cbn [runs]. rewrite length_app. destruct suf as [|l suf].
  { rewrite decide_True by (simpl; lia). destruct v; [|done]. done. }
  rewrite decide_False by (simpl; lia).
  assert ((pre ++ l :: suf) !!! length pre = l) as ->.
  { by rewrite lookup_total_app_r, Nat.sub_diag by lia. }
  destruct v as [|x v]; [done|]. simpl in Hv, Hf. injection Hv as Hv.
  pose proof T as [Hl T']%Forall_cons. destruct Hl as [-> | ->].
  - change (ge_level 1 0) with false. cbv iota.
    rewrite (cons_middle 0 pre), (cons_middle x p), !app_assoc.
    replace (S (length pre)) with (length (pre ++ [0])) by (rewrite length_app; simpl; lia).
    rewrite IH; [|done|rewrite !length_app; simpl; lia|done|lia].
    rewrite <- app_assoc. f_equal.
  - change (ge_level 1 1) with true. cbv iota zeta.
    destruct (two_level_run (1 :: suf) T) as (rest & E & Tr & Sr).
    set (k := prefix_len (ge_level 1) (1 :: suf)) in *.
    assert (1 <= k)%nat as Hk by (unfold k; simpl; lia).
    assert (length (1 :: suf) = (k + length rest)%nat) as Lk by (by rewrite E, length_app, length_replicate).
    unfold run_end. rewrite drop_app_length. fold k. cbn [length] in Lk. clearbody k.
    set (v1 := take k (x :: v)). set (v2 := drop k (x :: v)).
    assert (x :: v = v1 ++ v2) as Ev by (unfold v1, v2; by rewrite take_drop).
    assert (length v1 = k) as L1 by (unfold v1; rewrite length_take; simpl; lia).
    assert (length v2 = length rest) as L2 by (unfold v2; rewrite length_drop; simpl; lia).
    change (reverse_runs ((?i, ?j) :: ?r) ?l) with (reverse_runs r (swap_range (j - i) i (j - 1) l)).
    rewrite swap_range_spec by (rewrite length_app; simpl; lia).
    assert (rev_range (length pre) (length pre + k) (p ++ x :: v) = (p ++ rev v1) ++ v2) as ->.
    { unfold rev_range. rewrite Ev, <- Hp, take_app_length.
      replace (length p + k - length p)%nat with k by lia.
      rewrite slice_app_mid by lia. rewrite app_assoc. f_equal. rewrite app_assoc.
      apply drop_app_length'. rewrite length_app. lia. }
    rewrite E, Ev, app_assoc.
    replace (length pre + k)%nat with (length (pre ++ replicate k 1)) by (rewrite length_app, length_replicate; lia).
    rewrite IH; [|done|rewrite !length_app, length_rev, length_replicate; lia|done|lia].
    rewrite visual_spec_ones by done. rewrite (visual_spec_stop (rev v1 ++ [])) by done.
    by rewrite app_nil_r, <- app_assoc.
Qed.

Lemma visual_spec_self k L : two_level L → visual_spec (replicate k 1) (zip L L) = replicate k 1 ++ L.
Proof.
  intros H. revert k. induction H as [|l L Hl H IH]; intros k; [by rewrite app_nil_r|].
  rewrite zip_cons. cbn [visual_spec]. case_decide as E.
  - subst. change (1 :: replicate k 1) with (replicate (S k) 1).
    by rewrite (IH (S k)), replicate_S_end, <- app_assoc.
  - pose proof (IH 0%nat) as I. cbn [replicate app] in I. by rewrite I.
Qed.

Lemma two_level_l2_levels L : two_level L →
  l2_levels L = if decide (1 ∈ L) then [1] else [].
Proof.
  intros H.
  assert (∀ L, two_level L → ∀ m, 0 <= m <= 1 → foldl (λ m x, if decide (m < x) then x else m) m L
    = if decide (1 ∈ L) then 1 else m) as M.
  { clear. induction 1 as [|l L Hl H IH]; intros m Hm; [by rewrite decide_False by apply not_elem_of_nil|].
    cbn [foldl]. rewrite IH by (clear -Hl Hm; destruct Hl as [-> | ->]; case_decide; lia).
    destruct (decide (1 ∈ L)) as [E|E].
    - rewrite decide_True by (by right). done.
    - destruct Hl as [-> | ->]; [rewrite (decide_False (P := m < 0)) by lia|].
      + rewrite decide_False; [done|]. rewrite elem_of_cons. intros [?|?]; [lia|done].
      + rewrite (decide_True (P := 1 ∈ 1 :: L)) by by left. case_decide; lia. }
  assert (∀ L, two_level L → ∀ m, m = 63 ∨ m = 1 →
    foldl (λ m x, if decide (Z.land x 1 ≠ 0 ∧ x < m) then x else m) m L
    = if decide (1 ∈ L) then 1 else m) as O.
  { clear. induction 1 as [|l L Hl H IH]; intros m Hm; [by rewrite decide_False by apply not_elem_of_nil|].
    cbn [foldl]. rewrite IH by (clear -Hl Hm; destruct Hl as [-> | ->]; case_decide as D; auto; by destruct D).
    destruct (decide (1 ∈ L)) as [E|E].
    - rewrite decide_True by (by right). done.
    - destruct Hl as [-> | ->].
      + rewrite (decide_False (P := _ ∧ _)) by (intros [? _]; done).
        rewrite decide_False; [done|]. rewrite elem_of_cons. intros [?|?]; [lia|done].
      + rewrite (decide_True (P := 1 ∈ 1 :: L)) by by left. case_decide as D; [done|].
        destruct Hm as [-> | ->]; [|done]. destruct D. split; [done|lia]. }
  unfold l2_levels, max_level, min_odd. rewrite M, O by auto with lia. by case_decide.
Qed.

Lemma l2_two_level L : two_level L →
  l2_on_levels L = L ∧
  l2_visual L = visual_spec [] (zip L (map Z.of_nat (seq 0 (length L)))).
Proof.
  intros H. unfold l2_on_levels, l2_visual. rewrite two_level_l2_levels by done.
  set (v := map Z.of_nat (seq 0 (length L))).
  assert (length v = length L) as Lv by (unfold v; by rewrite length_map, length_seq).
  destruct (decide (1 ∈ L)) as [E|E].
  - cbn [foldl]. split.
    + pose proof (reverse_runs_visual (length L) [] L [] L H eq_refl eq_refl ltac:(lia)) as R.
      cbn [length app] in R. rewrite R. apply (visual_spec_self 0 L H).
    + exact (reverse_runs_visual (length L) [] L [] v H eq_refl Lv ltac:(lia)).
  - cbn [foldl]. split; [done|]. clearbody v. revert v Lv. induction H as [|l L Hl H IH]; intros [|x v] Lv; try done.
    rewrite elem_of_cons in E. apply Decidable.not_or in E as [Hn E].
    rewrite zip_cons. cbn [visual_spec app]. rewrite decide_False by congruence. f_equal. apply IH; [done|].
    simpl in Lv. lia.
Qed.

(** ** Left-to-right text *)

Definition ltr_class (t : MiniBidiClass) : Prop :=
  t ∉ [BIDI_R; BIDI_AL; BIDI_AN; BIDI_LRE; BIDI_RLE; BIDI_LRO; BIDI_RLO].
#[export] Instance ltr_class_dec t : Decision (ltr_class t).
Proof. unfold ltr_class. apply _. Defined.
(** The same without numbers. *)
Definition ltr_resolved (t : MiniBidiClass) : Prop := ltr_class t ∧ t ≠ BIDI_EN.

Ltac ltr_cases := unfold ltr_class; rewrite ?elem_of_cons; intuition congruence.

Lemma ltr_lookup T i : Forall ltr_class T → ltr_class (T !!! i).
Proof.
  intros H. destruct (T !! i) as [t|] eqn:E.
  - rewrite (list_lookup_total_correct _ _ _ E). rewrite Forall_lookup in H. by eapply H.
  - rewrite list_lookup_total_alt, E. by apply (bool_decide_unpack _).
Qed.

Lemma Forall_fill P i j x T : Forall P T → P x → Forall P (fill i j x T).
Proof.
  intros H Hx. unfold fill. rewrite !Forall_app. split_and!; [by apply Forall_take| |by apply Forall_drop].
  by apply Forall_replicate.
Qed.

Lemma par_level_ltr T : Forall ltr_class T → par_level T = 0.
Proof.
  induction 1 as [|t T Ht H IH]; [done|].
  destruct t; simpl; try done; exfalso; revert Ht; unfold ltr_class; rewrite !elem_of_cons; tauto.
Qed.

Lemma x_pass_ltr T : Forall ltr_class T →
  Forall ltr_class (x_pass (X 0 BIDI_ON []) T).1 ∧ (x_pass (X 0 BIDI_ON []) T).2 = replicate (length T) 0.
Proof.
  induction 1 as [|t T Ht H [IH1 IH2]]; [done|]. simpl.
  assert (∃ t', x_step (X 0 BIDI_ON []) t = (X 0 BIDI_ON [], t', 0) ∧ ltr_class t') as (t' & -> & Ht').
  { destruct t; simpl; try (eexists; split; [reflexivity|]; done);
      try (exists BIDI_BN; split; [done|by apply (bool_decide_unpack _)]);
      exfalso; revert Ht; unfold ltr_class; rewrite !elem_of_cons; tauto. }
  destruct (x_pass (X 0 BIDI_ON []) T) as [T' L]. simpl in *. split; [by constructor|by f_equal].
Qed.

Lemma w1_ltr T : ∀ p, ltr_class p → Forall ltr_class T → Forall ltr_class (w1 p T).
Proof.
  induction T as [|t T IH]; intros p Hp H; [done|]. apply Forall_cons in H as [Ht H].
  destruct t; simpl; constructor; auto.
Qed.

Lemma w2_ltr T : ∀ p, p ≠ BIDI_AL → Forall ltr_class T → w2 p T = T.
Proof.
  induction T as [|t T IH]; intros p Hp H; [done|]. apply Forall_cons in H as [Ht H].
  assert (t ≠ BIDI_AL) as Hn by (intros ->; revert Ht; unfold ltr_class; rewrite !elem_of_cons; tauto).
  assert (∀ s, (if decide (s = BIDI_EN ∧ p = BIDI_AL) then BIDI_AN else s) = s) as E.
  { intros s. rewrite decide_False; [done|]. by intros [_ ?]. }
  destruct t; cbn [w2]; rewrite ?E; f_equal; try done; apply IH; done.
Qed.

Lemma w3_ltr T : Forall ltr_class T → w3 T = T.
Proof.
  induction 1 as [|t T Ht H IH]; [done|]. simpl. f_equal; [|done]. rewrite decide_False; [done|].
  intros ->. revert Ht. unfold ltr_class. rewrite !elem_of_cons. tauto.
Qed.

Lemma w4_ltr T : Forall ltr_class T → Forall ltr_class (w4 T).
Proof.
  unfold w4. generalize (length T) at 1 as n. intros n. generalize (seq 1 (length T - 2)) as l. intros l.
  revert T. induction l as [|i l IH]; intros T H; [done|]. cbn [foldl]. apply IH. unfold w4_step.
  case_decide; [|done]. case_decide as E; [apply Forall_insert; [done|by apply (bool_decide_unpack _)]|].
  case_decide as E2; [|done]. destruct E2 as [E2 _]. pose proof (ltr_lookup T (back_bn T (i - 1)) H) as Hb.
  rewrite E2 in Hb. by apply (bool_decide_pack _) in Hb.
Qed.

Lemma w5_ltr T : Forall ltr_class T → Forall ltr_class (w5 T).
Proof.
  unfold w5. generalize 0%nat as i. generalize (length T) at 1 as fuel. intros fuel. revert T.
  induction fuel as [|fuel IH]; intros T i H; [done|]. cbn [w5_loop]. case_decide; [done|].
  case_decide; [|by apply IH]. apply IH. case_bool_decide; [|done].
  apply Forall_fill; [done|by apply (bool_decide_unpack _)].
Qed.

Lemma w6_ltr T : Forall ltr_class T → Forall ltr_class (w6 T).
Proof.
  induction 1 as [|t T Ht H IH]; constructor; [|done]. case_decide; [by apply (bool_decide_unpack _)|done].
Qed.

Lemma w7_ltr T : Forall ltr_class T → Forall ltr_resolved (w7 BIDI_L T).
Proof.
  induction 1 as [|t T Ht H IH]; [constructor|].
  destruct (decide (t = BIDI_EN)) as [->|Hn].
  - change (w7 BIDI_L (BIDI_EN :: T)) with (BIDI_L :: w7 BIDI_L T). constructor; [|done].
    split; [by apply (bool_decide_unpack _)|done].
  - assert (w7 BIDI_L (t :: T) = t :: w7 BIDI_L T) as ->; [|by constructor].
    destruct t; try done. by apply (bool_decide_pack _) in Ht.
Qed.

Lemma side_ltr T t : Forall ltr_resolved T → side T = Some t → t = BIDI_L.
Proof.
  induction 1 as [|s T [Hs1 Hs2] H IH]; [done|].
  destruct s; simpl; try done; try (by intros [= <-]); exfalso; by apply (bool_decide_pack _) in Hs1.
Qed.

Lemma n_pass_ltr n T : length T = n → Forall ltr_resolved T →
  Forall ltr_resolved (n_pass (replicate n 0) T).
Proof.
  unfold n_pass. generalize 0%nat as i. generalize (length T) at 2 as fuel. intros fuel. revert T.
  induction fuel as [|fuel IH]; intros T i Hn H; [done|]. cbn [n_loop]. case_decide as Hi; [done|].
  destruct (neutral (T !!! i)) eqn:En; [|by apply IH]. cbv zeta.
  assert (dir (replicate n 0 !!! i) = BIDI_L) as -> by (rewrite lookup_total_replicate_2 by lia; done).
  assert (∀ M, Forall ltr_resolved M → default BIDI_L (side M) = BIDI_L) as D.
  { intros M HM. destruct (side M) eqn:E; [|done]. by apply (side_ltr M). }
  rewrite !D; [|by apply Forall_drop|by apply Forall_rev, Forall_take].
  rewrite decide_True by done. pose proof (run_end_bounds neutral i T ltac:(lia) En). apply IH.
  - by rewrite length_fill by lia.
  - apply Forall_fill; [done|]. split; [by apply (bool_decide_unpack _)|done].
Qed.

Lemma length_passes p T : length (w7 p (w6 (w5 (w4 (w3 (w2 p (w1 p T))))))) = length T.
Proof.
  rewrite length_w7. unfold w6. rewrite length_map, length_w5, length_w4.
  unfold w3. by rewrite length_map, length_w2, length_w1.
Qed.

Lemma resolve_ltr cps : Forall ltr_class (map mini_bidi_class cps) →
  ∃ T, resolve cps = (0, T, replicate (length cps) 0).
Proof.
  intros H. unfold resolve. rewrite par_level_ltr by done.
  assert (x_ok (X 0 BIDI_ON [])) as X0 by (split; [unfold level_ok; simpl; lia|constructor]).
  destruct (x_pass_ok (map mini_bidi_class cps) _ X0) as (LT & _).
  destruct (x_pass_ltr _ H) as [H1 H2]. destruct (x_pass _ _) as [T L]. cbn [fst snd] in *. subst L.
  rewrite length_map in *. change (dir 0) with BIDI_L. eexists. f_equal.
  set (T' := n_pass _ _). assert (Forall ltr_resolved T') as F.
  { assert (ltr_class BIDI_L) as HL by by apply (bool_decide_unpack _).
    apply n_pass_ltr; [by rewrite length_passes|]. apply w7_ltr, w6_ltr, w5_ltr, w4_ltr.
    rewrite w2_ltr by (done || by apply w1_ltr). rewrite w3_ltr; by apply w1_ltr. }
  assert (length T' = length cps) as LT' by (unfold T'; by rewrite length_n_pass, length_passes).
  clearbody T'. clear - F LT'. revert T' F LT'.
  induction (length cps) as [|n IH]; intros [|t T'] F L; try done.
  apply Forall_cons in F as [[Ft _] F]. simpl. f_equal; [|apply IH; [done|by injection L]].
  destruct t; try done; by apply (bool_decide_pack _) in Ft.
Qed.

Lemma two_level_zeros n : two_level (replicate n 0).
Proof. apply Forall_replicate. by left. Qed.

Lemma visual_spec_zeros {A} (v : list A) n : length v = n → visual_spec [] (zip (replicate n 0) v) = v.
Proof.
  revert n. induction v as [|x v IH]; intros n <-; [done|]. cbn [length replicate]. rewrite zip_cons.
  cbn [visual_spec]. rewrite decide_False by done. cbn [app]. f_equal. by apply IH.
Qed.

(** When the resolved levels are 0 and 1 (no embedded number or deeper run),
    the visual order is the logical order with each maximal run of level 1
    reversed, as rule L2 says, and the levels are returned as resolved; in
    particular a text without right-to-left, Arabic-number or embedding
    characters keeps its order, all levels 0. *)
Theorem bidi_two_levels cps :
  (let '(plevel, _, L) := resolve cps in two_level L →
   mini_bidi_reorder true cps = (plevel, visual_spec [] (zip L (map Z.of_nat (seq 0 (length cps)))), L)) ∧
  (Forall ltr_class (map mini_bidi_class cps) →
   mini_bidi_reorder true cps = (0, map Z.of_nat (seq 0 (length cps)), replicate (length cps) 0)).
Proof.
  assert (let '(plevel, _, L) := resolve cps in two_level L →
    mini_bidi_reorder true cps = (plevel, visual_spec [] (zip L (map Z.of_nat (seq 0 (length cps)))), L)) as G.
  { pose proof (resolve_ok cps) as R. destruct (resolve cps) as [[p T] L] eqn:E.
    destruct R as (_ & _ & HL & _). intros H. unfold mini_bidi_reorder.
    destruct cps as [|c cps].
    - destruct L; [|done]. vm_compute in E. by injection E as <- _.
    - rewrite E. destruct (l2_two_level L H) as [-> ->]. by rewrite HL. }
  split; [exact G|]. intros H. destruct (resolve_ltr cps H) as [T E]. rewrite E in G.
  rewrite (G (two_level_zeros _)). by rewrite visual_spec_zeros by by rewrite length_map, length_seq.
Qed.

Lemma bidi_two_levels_witness :
  Forall ltr_class (map mini_bidi_class [97; 32; 49]) ∧
  mini_bidi_reorder true [97; 32; 49] = (0, [0; 1; 2], [0; 0; 0]) ∧
  mini_bidi_reorder true [97; 32; 0x5D0; 0x5D1; 32; 98] = (0, [0; 1; 3; 2; 4; 5], [0; 0; 1; 1; 0; 0]).
Proof.
  assert (Forall ltr_class (map mini_bidi_class [97; 32; 49])) as H by (apply (bool_decide_unpack _); by vm_compute).
  split; [exact H|]. split; [exact (proj2 (bidi_two_levels _) H)|].
  refine (proj1 (bidi_two_levels [97; 32; 0x5D0; 0x5D1; 32; 98]) _).
  apply (bool_decide_unpack _). by vm_compute.
Defined.

(** Hebrew followed by digits, levels 1 1 2 2.  Rule L2 paints the number first,
    its digits in order, then the letters from right to left; the code works on
    the levels it has itself reversed, so the digits come out backwards and the
    letters forwards. *)
Lemma bidi_number_reversed :
  (resolve [0x5D0; 0x5D1; 49; 50]).2 = [1; 1; 2; 2] ∧
  mini_bidi_reorder true [0x5D0; 0x5D1; 49; 50] = (1, [3; 2; 0; 1], [2; 2; 1; 1]) ∧
  l2_visual [1; 1; 2; 2] = [2; 3; 1; 0].
Proof. by vm_compute. Qed.

(** A right-to-left embedding in left-to-right text gets the even level 2. *)
Lemma bidi_rle_even : x_next BIDI_RLE 0 = 2 ∧ x_next BIDI_RLO 0 = 2.
Proof. by vm_compute. Qed.

(** ** Mirroring and UTF-8 *)

Lemma mini_bidi_mirror_involutive c : mini_bidi_mirror (mini_bidi_mirror c) = c.
Proof.
  destruct (decide (c ∈ MIRRORS.*1 ++ MIRRORS.*2)) as [H|H].
  - assert (Forall (λ c, mini_bidi_mirror (mini_bidi_mirror c) = c) (MIRRORS.*1 ++ MIRRORS.*2)) as F
      by (apply (bool_decide_unpack _); by vm_compute).
    rewrite Forall_forall in F. by apply F.
  - assert (mini_bidi_mirror c = c) as E; [|by rewrite !E].
    unfold mini_bidi_mirror. revert H. generalize MIRRORS as l. induction l as [|[a b] l IH]; intros H; [done|].
    cbn [mirror_loop]. rewrite !fmap_cons, elem_of_app, !elem_of_cons in H.
    rewrite !decide_False by (intros ->; simpl in H; tauto). apply IH.
    rewrite elem_of_app. tauto.
Qed.

Definition utf8_encode (c : Z) : bytes :=
  if decide (c < 0x80) then [c] else
  if decide (c < 0x800) then [0xC0 + c / 64; 0x80 + c mod 64] else
  if decide (c < 0x10000) then [0xE0 + c / 4096; 0x80 + c / 64 mod 64; 0x80 + c mod 64] else
  [0xF0 + c / 262144; 0x80 + c / 4096 mod 64; 0x80 + c / 64 mod 64; 0x80 + c mod 64].

Lemma cont_eq s i r b : s !! i = Some (0x80 + b) → 0 <= b < 64 → 0 <= r < 2 ^ 26 →
  cont s i r = r * 64 + b.
Proof.
  intros E Hb Hr. unfold cont. rewrite E, shiftl_mul, u32_small by lia.
  change 0x3F with (2 ^ 6 - 1). rewrite land_mod by lia.
  replace ((0x80 + b) mod 2 ^ 6) with b by mlia. change (2 ^ 6) with 64. rewrite (lor_add _ _ 6) by mlia. lia.
Qed.

Lemma lead2 x : 0 <= x < 32 → Z.land (0xC0 + x) 0xE0 = 0xC0 ∧ Z.land (0xC0 + x) 0x1F = x.
Proof.
  intros H. assert (Forall (λ x, Z.land (0xC0 + x) 0xE0 = 0xC0 ∧ Z.land (0xC0 + x) 0x1F = x) (seqZ 0 32)) as F
    by (apply (bool_decide_unpack _); by vm_compute).
  rewrite Forall_forall in F. by apply F, elem_of_seqZ.
Qed.
Lemma lead3 x : 0 <= x < 16 →
  Z.land (0xE0 + x) 0xE0 ≠ 0xC0 ∧ Z.land (0xE0 + x) 0xF0 = 0xE0 ∧ Z.land (0xE0 + x) 0x0F = x.
Proof.
  intros H. assert (Forall (λ x, Z.land (0xE0 + x) 0xE0 ≠ 0xC0 ∧ Z.land (0xE0 + x) 0xF0 = 0xE0
    ∧ Z.land (0xE0 + x) 0x0F = x) (seqZ 0 16)) as F by (apply (bool_decide_unpack _); by vm_compute).
  rewrite Forall_forall in F. by apply F, elem_of_seqZ.
Qed.
Lemma lead4 x : 0 <= x < 8 →
  Z.land (0xF0 + x) 0xE0 ≠ 0xC0 ∧ Z.land (0xF0 + x) 0xF0 ≠ 0xE0 ∧ Z.land (0xF0 + x) 0x07 = x.
Proof.
  intros H. assert (Forall (λ x, Z.land (0xF0 + x) 0xE0 ≠ 0xC0 ∧ Z.land (0xF0 + x) 0xF0 ≠ 0xE0
    ∧ Z.land (0xF0 + x) 0x07 = x) (seqZ 0 8)) as F by (apply (bool_decide_unpack _); by vm_compute).
  rewrite Forall_forall in F. by apply F, elem_of_seqZ.
Qed.

Lemma utf8_next_encode c rest : 0 <= c < 2 ^ 21 →
  utf8_next (utf8_encode c ++ rest) = (c, length (utf8_encode c)).
Proof.
  intros H. unfold utf8_encode. case_decide; [|case_decide; [|case_decide]]; unfold utf8_next; cbn [app].
  - change (rd (c :: rest) 0) with c. by rewrite decide_True.
  - change (rd ((0xC0 + c / 64) :: ?l) 0) with (0xC0 + c / 64). rewrite decide_False by mlia.
    destruct (lead2 (c / 64) ltac:(mlia)) as [-> ->]. rewrite decide_True by done.
    rewrite (cont_eq _ 1 _ (c mod 64)) by (done || mlia). f_equal. mlia.
  - change (rd ((0xE0 + c / 4096) :: ?l) 0) with (0xE0 + c / 4096). rewrite decide_False by mlia.
    destruct (lead3 (c / 4096) ltac:(mlia)) as (N & -> & ->). rewrite decide_False, decide_True by done.
    rewrite (cont_eq _ 1 _ (c / 64 mod 64)) by (done || mlia).
    rewrite (cont_eq _ 2 _ (c mod 64)) by (done || mlia). f_equal. mlia.
  - change (rd ((0xF0 + c / 262144) :: ?l) 0) with (0xF0 + c / 262144). rewrite decide_False by mlia.
    destruct (lead4 (c / 262144) ltac:(mlia)) as (N1 & N2 & ->). do 2 rewrite decide_False by done.
    rewrite (cont_eq _ 1 _ (c / 4096 mod 64)) by (done || mlia).
    rewrite (cont_eq _ 2 _ (c / 64 mod 64)) by (done || mlia).
    rewrite (cont_eq _ 3 _ (c mod 64)) by (done || mlia). f_equal. mlia.
Qed.

(** The offsets of the encoded characters. *)
Fixpoint offsets (p : nat) (cps : list Z) : list nat :=
  match cps with [] => [] | c :: cps => p :: offsets (p + length (utf8_encode c)) cps end.

Lemma utf8_loop_encode cps : Forall (λ c, 0 <= c < 2 ^ 21) cps → ∀ fuel p,
  (length (mjoin (utf8_encode <$> cps)) <= fuel)%nat →
  utf8_loop fuel p (mjoin (utf8_encode <$> cps)) = zip (offsets p cps) cps.
Proof.
  induction 1 as [|c cps Hc H IH]; intros fuel p Hf; [by destruct fuel|].
  rewrite fmap_cons in *. change (mjoin (?x :: ?y)) with (x ++ mjoin y) in *. rewrite length_app in Hf.
  assert (∃ b r, utf8_encode c = b :: r) as (b & r & Eb) by (unfold utf8_encode; repeat case_decide; eauto).
  destruct fuel as [|fuel]; [rewrite Eb in Hf; simpl in Hf; lia|].
  assert (utf8_loop (S fuel) p (utf8_encode c ++ mjoin (utf8_encode <$> cps))
    = let '(cp, k) := utf8_next (utf8_encode c ++ mjoin (utf8_encode <$> cps)) in
      (p, cp) :: utf8_loop fuel (p + k) (drop k (utf8_encode c ++ mjoin (utf8_encode <$> cps)))) as ->
    by (by rewrite Eb).
  rewrite utf8_next_encode by done. rewrite drop_app_length. cbn [offsets]. rewrite zip_cons. f_equal.
  apply IH. rewrite Eb in Hf. simpl in Hf. lia.
Qed.

(** UTF-8: the decoder of the front end reads back every sequence of code
    points below 2^21 from its encoding, in order, each with the byte offset
    where it starts; so the result of [mini_bidi_reorder_utf8] is the visual
    permutation mapped to those offsets. *)
Theorem bidi_utf8_roundtrip cps : Forall (λ c, 0 <= c < 2 ^ 21) cps →
  utf8_decode (mjoin (utf8_encode <$> cps)) = zip (offsets 0 cps) cps ∧
  mini_bidi_reorder_utf8 (λ _, true) (mjoin (utf8_encode <$> cps))
  = Ok (0, map (λ v, Z.of_nat (offsets 0 cps !!! Z.to_nat v)) (mini_bidi_reorder true cps).1.2).
Proof.
  intros H. assert (utf8_decode (mjoin (utf8_encode <$> cps)) = zip (offsets 0 cps) cps) as E.
  { unfold utf8_decode. by apply utf8_loop_encode. }
  split; [exact E|]. unfold mini_bidi_reorder_utf8. rewrite E.
  assert (∀ p, length (offsets p cps) = length cps) as L.
  { clear. induction cps as [|c cps IH]; intros p; simpl; auto. }
  change (map ?f ?l) with (f <$> l). change (snd <$> ?l) with l.*2. change (fst <$> ?l) with l.*1.
  rewrite fst_zip, snd_zip by (rewrite L; lia).
  rewrite decide_False by (intros [_ ?]; done). cbn [andb].
  destruct (mini_bidi_reorder true cps) as [[p v] l]. done.
Qed.

Lemma bidi_utf8_roundtrip_witness :
  Forall (λ c, 0 <= c < 2 ^ 21) [0x5D0; 97; 0x20AC; 0x1F600] ∧
  utf8_decode [0xD7; 0x90; 97; 0xE2; 0x82; 0xAC; 0xF0; 0x9F; 0x98; 0x80]
  = [(0%nat, 0x5D0); (2%nat, 97); (3%nat, 0x20AC); (6%nat, 0x1F600)].
Proof.
  assert (Forall (λ c, 0 <= c < 2 ^ 21) [0x5D0; 97; 0x20AC; 0x1F600]) as H by (apply (bool_decide_unpack _); by vm_compute).
  split; [exact H|]. exact (proj1 (bidi_utf8_roundtrip _ H)).
Defined.
