(* ===== verification/Log.v ===== *)
(** * Log (src/src/mini_log.c)

    The ring of recent entries, its readers, sinks with re-entrant logging,
    levels and start-up.  The static variables are a record; [out] is the trace
    of what leaves the module: lines on stderr and in the file, sink calls.  A
    time stamp is the reading of the clock for its call, a text what [vsnprintf]
    formats. *)

From S2P Require Import Prelude CString.
From stdpp Require Import list.
Open Scope Z_scope.

Definition MINI_LOG_TRACE : Z := 0.
Definition MINI_LOG_DEBUG : Z := 1.
Definition MINI_LOG_INFO : Z := 2.
Definition MINI_LOG_WARN : Z := 3.
Definition MINI_LOG_ERROR : Z := 4.
Definition MINI_LOG_FATAL : Z := 5.
Definition MINI_LOG_LEVEL_COUNT : Z := 6.

Definition MINI_LOG_RING_CAP : nat := Z.to_nat 1024.
Definition MINI_LOG_MSG_LEN : nat := Z.to_nat 1024.
Definition MINI_LOG_TAG_LEN : nat := 24.
Definition MINI_LOG_MAX_SINKS : nat := 8.

Record MiniLogEntry := Entry { ts_ms : Z; level : Z; tag : bytes; msg : bytes }.
#[export] Instance MiniLogEntry_inhabited : Inhabited MiniLogEntry := populate (Entry 0 0 [] []).

(** A callback and its user data; [None] is a null callback. *)
Abbreviation sink := (option nat * nat)%type.

Inductive out_event :=
  | Stderr (e : MiniLogEntry)
  | FileLine (path : bytes) (e : MiniLogEntry)
  | FileBanner (path : bytes)
  | FileClose (path : bytes)
  | SinkCall (s : sink) (e : MiniLogEntry).

Record log_state := Log {
  g_inited : bool; g_level : Z; g_stderr_level : Z; g_file : option bytes;
  g_ring : list MiniLogEntry; g_ring_head : nat; g_ring_count : nat; g_total : Z;
  g_sinks : list sink; g_log_depth : Z; out : list out_event }.

Definition log_start : log_state :=
  Log false MINI_LOG_INFO MINI_LOG_WARN None (replicate MINI_LOG_RING_CAP inhabitant) 0 0 0 [] 0 [].

Definition set_inited b s :=
  Log b (g_level s) (g_stderr_level s) (g_file s) (g_ring s) (g_ring_head s) (g_ring_count s) (g_total s)
    (g_sinks s) (g_log_depth s) (out s).
Definition set_levels l el s :=
  Log (g_inited s) l el (g_file s) (g_ring s) (g_ring_head s) (g_ring_count s) (g_total s)
    (g_sinks s) (g_log_depth s) (out s).
Definition set_file f s :=
  Log (g_inited s) (g_level s) (g_stderr_level s) f (g_ring s) (g_ring_head s) (g_ring_count s) (g_total s)
    (g_sinks s) (g_log_depth s) (out s).
Definition set_ring r h c t s :=
  Log (g_inited s) (g_level s) (g_stderr_level s) (g_file s) r h c t
    (g_sinks s) (g_log_depth s) (out s).
Definition set_sinks k s :=
  Log (g_inited s) (g_level s) (g_stderr_level s) (g_file s) (g_ring s) (g_ring_head s) (g_ring_count s)
    (g_total s) k (g_log_depth s) (out s).
Definition set_depth d s :=
  Log (g_inited s) (g_level s) (g_stderr_level s) (g_file s) (g_ring s) (g_ring_head s) (g_ring_count s)
    (g_total s) (g_sinks s) d (out s).
Definition emit ev s :=
  Log (g_inited s) (g_level s) (g_stderr_level s) (g_file s) (g_ring s) (g_ring_head s) (g_ring_count s)
    (g_total s) (g_sinks s) (g_log_depth s) (out s ++ [ev]).

(** ** Levels and start-up *)

Definition mini_log_level_str (l : Z) : bytes :=
  if decide (l = 0) then str "TRACE" else if decide (l = 1) then str "DEBUG" else
  if decide (l = 2) then str "INFO " else if decide (l = 3) then str "WARN " else
  if decide (l = 4) then str "ERROR" else if decide (l = 5) then str "FATAL" else str "?    ".
Definition level_short (l : Z) : bytes :=
  if decide (l = 0) then str "TRACE" else if decide (l = 1) then str "DEBUG" else
  if decide (l = 2) then str "INFO" else if decide (l = 3) then str "WARN" else
  if decide (l = 4) then str "ERROR" else if decide (l = 5) then str "FATAL" else str "?".

(** The [strcmp] chain on an environment variable; [d] is the value kept. *)
Definition env_level (v : option bytes) (d : Z) : Z :=
  match v with
  | None | Some [] => d
  | Some v =>
    if streq v (str "trace") then MINI_LOG_TRACE else if streq v (str "debug") then MINI_LOG_DEBUG else
    if streq v (str "info") then MINI_LOG_INFO else if streq v (str "warn") then MINI_LOG_WARN else
    if streq v (str "error") then MINI_LOG_ERROR else if streq v (str "fatal") then MINI_LOG_FATAL else d
  end.

Definition close_file (s : log_state) : log_state :=
  match g_file s with Some p => set_file None (emit (FileClose p) s) | None => s end.

(** [fopen_ok] is the outcome of [fopen (path, "ab")]. *)
Definition mini_log_set_file (fopen_ok : bool) (path : option bytes) (s : log_state) : log_state * Z :=
  let s := close_file s in
  match path with
  | None | Some [] => (s, 0)
  | Some p => if fopen_ok then (emit (FileBanner p) (set_file (Some p) s), 0) else (s, -1)
  end.

Definition mini_log_init (fopen_ok : bool) (tiny_log tiny_stderr tiny_file : option bytes)
    (s : log_state) : log_state :=
  if g_inited s then s else
  let s := set_inited true s in
  let s := set_levels (env_level tiny_log (g_level s)) (env_level tiny_stderr (g_stderr_level s)) s in
  match tiny_file with
  | None | Some [] => s
  | Some fp => fst (mini_log_set_file fopen_ok (Some fp) s)
  end.

Definition mini_log_shutdown (s : log_state) : log_state :=
  set_inited false (set_sinks [] (close_file s)).

Definition mini_log_set_level l s := set_levels l (g_stderr_level s) s.
Definition mini_log_get_level s := g_level s.
Definition mini_log_set_stderr_level l s := set_levels (g_level s) l s.

(** ** Sinks *)

Definition mini_log_add_sink (k : sink) (s : log_state) : log_state * Z :=
  match fst k with
  | None => (s, -1)
  | Some _ =>
    if decide (MINI_LOG_MAX_SINKS <= length (g_sinks s))%nat then (s, -1)
    else if decide (k ∈ g_sinks s) then (s, 0)
    else (set_sinks (g_sinks s ++ [k]) s, 0)
  end.

(** [g_sinks[i] = g_sinks[--g_sink_n]] *)
Definition swap_remove {A} (i : nat) (l : list A) : list A :=
  match last l with Some x => take (length l - 1) (<[i := x]> l) | None => l end.

Definition mini_log_remove_sink (k : sink) (s : log_state) : log_state * Z :=
  match list_find (k =.) (g_sinks s) with
  | Some (i, _) => (set_sinks (swap_remove i (g_sinks s)) s, 0)
  | None => (s, -1)
  end.

(** ** The ring *)

Definition ring_push (e : MiniLogEntry) (s : log_state) : log_state :=
  set_ring (<[g_ring_head s := e]> (g_ring s)) ((g_ring_head s + 1) mod MINI_LOG_RING_CAP)
    (if decide (g_ring_count s < MINI_LOG_RING_CAP)%nat then S (g_ring_count s) else g_ring_count s)
    (u64 (g_total s + 1)) s.

Definition mini_log_count (s : log_state) : Z := g_total s.

(** [(g_ring_head - g_ring_count + CAP) % CAP] *)
Definition ring_start (s : log_state) : nat :=
  (g_ring_head s + MINI_LOG_RING_CAP - g_ring_count s) mod MINI_LOG_RING_CAP.

(** [g_ring[(start + i) % CAP]] for [n] values of [i] from [k]. *)
Definition ring_read (s : log_state) (k n : nat) : list MiniLogEntry :=
  map (λ i, g_ring s !!! ((ring_start s + i) mod MINI_LOG_RING_CAP)%nat) (seq k n).

(** What is written to [out] ([want] tells whether it is not null), and the
    value returned. *)
Definition mini_log_recent (want : bool) (max : Z) (s : log_state) : list MiniLogEntry * Z :=
  let count := Z.of_nat (g_ring_count s) in
  let n := if decide (max < count) then max else count in
  (if want then ring_read s 0 (Z.to_nat n) else [], if decide (count < max) then count else max).

Definition mini_log_since (want : bool) (max since : Z) (s : log_state) : list MiniLogEntry * Z :=
  if decide (g_ring_count s = 0%nat ∨ g_total s <= since) then ([], 0) else
  let oldest_global := u64 (g_total s - Z.of_nat (g_ring_count s)) in
  let want_global := u64 (since + 1) in
  let want_global := if decide (want_global < oldest_global) then oldest_global else want_global in
  let start_i := i32 (u64 (want_global - oldest_global)) in
  let start_i := if decide (start_i < 0) then 0 else start_i in
  let avail := Z.of_nat (g_ring_count s) - start_i in
  let n := if decide (avail < max) then avail else max in
  (if want then ring_read s (Z.to_nat start_i) (Z.to_nat n) else [], n).

Definition mini_log_clear (s : log_state) : log_state := set_ring (g_ring s) 0 0 (g_total s) s.

(** The entries dumped, in order. *)
Definition mini_log_dump_to_file (s : log_state) : list MiniLogEntry := ring_read s 0 (g_ring_count s).

(** ** Emission *)

(** What a sink may do when it is called. *)
Inductive log_op :=
  | OLog (ts lvl : Z) (tag : option bytes) (text : bytes)
  | OAdd (k : sink)
  | ORemove (k : sink).

Definition mk_entry (ts lvl : Z) (tag : option bytes) (text : bytes) : MiniLogEntry :=
  Entry ts lvl (take (MINI_LOG_TAG_LEN - 1) (default [] tag)) (take (MINI_LOG_MSG_LEN - 1) text).

Definition rejected (lvl : Z) (s : log_state) : bool :=
  bool_decide (lvl < 0 ∨ MINI_LOG_LEVEL_COUNT <= lvl) || (g_inited s && bool_decide (lvl < g_level s)).

(** Ring, stderr and file. *)
Definition store_entry (e : MiniLogEntry) (s : log_state) : log_state :=
  let s := ring_push e s in
  let s := if decide (g_stderr_level s <= level e) then emit (Stderr e) s else s in
  match g_file s with Some p => emit (FileLine p e) s | None => s end.

Section emit.
  (** What each sink does with an entry. *)
  Context (react : sink → MiniLogEntry → list log_op).

(** The sinks of the snapshot in order; a null callback is skipped. *)
Definition dispatch (run : log_op → log_state → option log_state) (e : MiniLogEntry) (snap : list sink)
    (s : log_state) : option log_state :=
  foldl (λ o k, s ← o;
    match fst k with
    | None => Some s
    | Some _ => foldl (λ o op, s ← o; run op s) (Some (emit (SinkCall k e) s)) (react k e)
    end) (Some s) snap.

(** [fuel] bounds the C stack: [None] is an overflow. *)
Fixpoint mini_logv (fuel : nat) (ts lvl : Z) (tag : option bytes) (text : bytes) (s : log_state)
    : option log_state :=
  match fuel with
  | O => None
  | S fuel =>
    if rejected lvl s then Some s else
    let e := mk_entry ts lvl tag text in
    let s := store_entry e (set_depth (g_log_depth s + 1) s) in
    if decide (g_log_depth s = 1) then
      let snap := take MINI_LOG_MAX_SINKS (g_sinks s) in
      dispatch (λ op s,
        match op with
        | OLog ts lvl tag text => mini_logv fuel ts lvl tag text s
        | OAdd k => Some (fst (mini_log_add_sink k s))
        | ORemove k => Some (fst (mini_log_remove_sink k s))
        end) e snap (set_depth (g_log_depth s - 1) s)
    else Some (set_depth (g_log_depth s - 1) s)
  end.
End emit.

(** ** The ring as a bounded log *)

Lemma cap_Z : Z.of_nat MINI_LOG_RING_CAP = 1024.
Proof. done. Qed.
#[local] Opaque MINI_LOG_RING_CAP MINI_LOG_MSG_LEN.
Abbreviation CAP := MINI_LOG_RING_CAP.

Definition ring_ok (s : log_state) : Prop :=
  length (g_ring s) = CAP ∧ (g_ring_head s < CAP)%nat ∧ (g_ring_count s <= CAP)%nat ∧
  ((g_ring_count s < CAP)%nat → g_ring_head s = g_ring_count s) ∧
  Z.of_nat (g_ring_count s) <= g_total s < 2 ^ 64.

(** The entries held, oldest first. *)
Definition contents (s : log_state) : list MiniLogEntry := ring_read s 0 (g_ring_count s).

Lemma mod_wrap x : (x < 2 * CAP)%nat → (x mod CAP)%nat = if decide (x < CAP)%nat then x else (x - CAP)%nat.
Proof.
  intros H. case_decide as E; [by apply Nat.mod_small|].
  replace x with ((x - CAP) + 1 * CAP)%nat at 1 by lia. rewrite Nat.Div0.mod_add. apply Nat.mod_small. lia.
Qed.

Lemma ring_start_ok s : ring_ok s →
  ring_start s = if decide (g_ring_count s < CAP)%nat then 0%nat else g_ring_head s.
Proof.
  intros (_ & Hh & Hc & He & _). unfold ring_start. pose proof cap_Z. rewrite mod_wrap by lia.
  destruct (decide (g_ring_count s < CAP)%nat) as [E|E]; [rewrite He by done|]; case_decide; lia.
Qed.

Lemma length_contents s : length (contents s) = g_ring_count s.
Proof. unfold contents, ring_read. by rewrite length_map, length_seq. Qed.

Lemma ring_push_ok e s : ring_ok s → g_total s < 2 ^ 64 - 1 → ring_ok (ring_push e s).
Proof.
  intros (Hl & Hh & Hc & He & Ht) Hn. pose proof cap_Z. unfold ring_ok, ring_push, set_ring. simpl.
  rewrite mod_wrap by lia. rewrite u64_small by lia. split_and!.
  - by rewrite length_insert.
  - case_decide; lia.
  - case_decide; lia.
  - destruct (decide (g_ring_count s < CAP)%nat) as [E|E]; [|lia].
    intros H2. rewrite He by done. case_decide; lia.
  - case_decide; lia.
  - lia.
Qed.

Lemma contents_push e s : ring_ok s → g_total s < 2 ^ 64 - 1 →
  contents (ring_push e s) = (if decide (g_ring_count s < CAP)%nat then contents s else drop 1 (contents s)) ++ [e].
Proof.
  intros O Hn. pose proof (ring_push_ok e s O Hn) as O'. pose proof cap_Z.
  unfold contents, ring_read. rewrite (ring_start_ok _ O), (ring_start_ok _ O').
  destruct O as (Hl & Hh & Hc & He & _). unfold ring_push, set_ring. cbn [g_ring g_ring_head g_ring_count].
  destruct (decide (g_ring_count s < CAP)%nat) as [E|E].
  - rewrite seq_S, map_app. cbn [map]. rewrite He by done. f_equal.
    + apply map_ext_in. intros i Hi. apply in_seq in Hi.
      rewrite (mod_wrap (g_ring_count s + 1)) by lia.
      assert ((if decide (S (g_ring_count s) < CAP)%nat then 0%nat else
               if decide (g_ring_count s + 1 < CAP)%nat then (g_ring_count s + 1)%nat
               else (g_ring_count s + 1 - CAP)%nat) = 0%nat) as -> by (repeat case_decide; lia).
      rewrite Nat.mod_small by lia. by rewrite list_lookup_total_insert_ne by lia.
    + assert ((if decide (S (g_ring_count s) < CAP)%nat then 0%nat else
               ((g_ring_count s + 1) mod CAP)%nat) = 0%nat) as ->.
      { case_decide; [done|]. replace (g_ring_count s + 1)%nat with CAP by lia. apply Nat.Div0.mod_same. }
      rewrite Nat.mod_small by lia. by rewrite list_lookup_total_insert_eq by lia.
  - assert (g_ring_count s = CAP) as -> by lia. set (h := g_ring_head s) in *.
    destruct CAP as [|c] eqn:EC; [lia|]. rewrite <- EC in *. rewrite decide_False by lia.
    assert (∀ B (f : nat → B), drop 1 (map f (seq 0 CAP)) = map f (seq 1 c)) as D by (intros; by rewrite EC).
    assert (seq 0 CAP = seq 0 c ++ [c]) as Q by (by rewrite EC, seq_S).
    rewrite D, Q, map_app. f_equal.
    + rewrite <- (seq_shift c), map_map.
      apply map_ext_in. intros i Hi. apply in_seq in Hi. rewrite (mod_wrap (h + 1)) by lia.
      rewrite (mod_wrap (h + S i)), !(mod_wrap (_ + i)) by (repeat case_decide; lia).
      rewrite list_lookup_total_insert_ne by (repeat case_decide; lia). f_equal. repeat case_decide; lia.
    + cbn [map]. rewrite (mod_wrap (h + 1)) by lia. rewrite (mod_wrap (_ + c)) by (repeat case_decide; lia).
      assert ((if decide ((if decide (h + 1 < CAP)%nat then h + 1 else h + 1 - CAP) + c < CAP)%nat
               then ((if decide (h + 1 < CAP)%nat then h + 1 else h + 1 - CAP) + c)%nat
               else ((if decide (h + 1 < CAP)%nat then h + 1 else h + 1 - CAP) + c - CAP)%nat) = h) as ->
        by (repeat case_decide; lia).
      by rewrite list_lookup_total_insert_eq by lia.
Qed.

Lemma ring_read_contents s k n : (k + n <= g_ring_count s)%nat →
  ring_read s k n = take n (drop k (contents s)).
Proof.
  intros H. unfold contents, ring_read. change (map ?f ?l) with (f <$> l) in *.
  rewrite <- fmap_drop, <- fmap_take. f_equal.
  replace (g_ring_count s) with (k + (n + (g_ring_count s - k - n)))%nat by lia.
  rewrite seq_app, drop_app_length' by by rewrite length_seq.
  rewrite seq_app, take_app_length' by by rewrite length_seq. done.
Qed.

(** The ring refines a log bounded to 1024 entries: from the start state on,
    a push appends the entry and forgets the oldest only when 1024 are held,
    clearing empties it, and the counter of emitted entries never goes back
    (as long as it does not reach 2^64). *)
Theorem log_ring_refines e s :
  ring_ok log_start ∧ contents log_start = [] ∧
  (ring_ok s → g_total s < 2 ^ 64 - 1 →
   ring_ok (ring_push e s) ∧
   contents (ring_push e s) = drop (length (contents s ++ [e]) - CAP) (contents s ++ [e]) ∧
   mini_log_count (ring_push e s) = mini_log_count s + 1) ∧
  (ring_ok s → ring_ok (mini_log_clear s) ∧ contents (mini_log_clear s) = [] ∧
   mini_log_count (mini_log_clear s) = mini_log_count s).
Proof.
  pose proof cap_Z as HC. split; [|split; [done|split]].
  - unfold ring_ok, log_start. cbn [g_ring g_ring_head g_ring_count g_total]. rewrite length_replicate. lia.
  - intros O Ht. split; [by apply ring_push_ok|]. split.
    + rewrite contents_push by done. rewrite length_app, length_contents. cbn [length].
      pose proof O as (_ & _ & Hc & _). case_decide as E.
      * replace (g_ring_count s + 1 - CAP)%nat with 0%nat by lia. by rewrite drop_0.
      * replace (g_ring_count s + 1 - CAP)%nat with 1%nat by lia.
        rewrite drop_app_le by (rewrite length_contents; lia). done.
    + unfold mini_log_count, ring_push, set_ring. simpl. destruct O as (_ & _ & _ & _ & Hr).
      by rewrite u64_small by lia.
  - intros (Hl & Hh & Hc & He & Hr). split; [|done]. unfold ring_ok. simpl. lia.
Qed.

Lemma log_ring_refines_witness :
  ring_ok log_start ∧ contents (ring_push (Entry 0 2 [] []) log_start) = [Entry 0 2 [] []].
Proof.
  destruct (log_ring_refines (Entry 0 2 [] []) log_start) as (O & E & P & _).
  split; [exact O|]. destruct (P O ltac:(done)) as (_ & -> & _). vm_compute. reflexivity.
Defined.

(** The readers: [mini_log_recent] copies the first, that is oldest, entries
    when the caller's array is smaller than the ring (the header promises the
    most recent); [mini_log_since] copies, from the entries held, those whose
    index is above [since], indices counting from 0, so that a poller passing
    the counter it last read never sees the next entry: right after one entry
    is pushed it is told there is none. *)
Theorem log_readers s want max since e : ring_ok s → 0 <= max → 0 <= since < 2 ^ 64 - 1 →
  (let n := Z.min max (Z.of_nat (g_ring_count s)) in
   mini_log_recent want max s = (if want then take (Z.to_nat n) (contents s) else [], n)) ∧
  (let k := Z.max 0 (since + 1 - (g_total s - Z.of_nat (g_ring_count s))) in
   let n := Z.min max (Z.of_nat (g_ring_count s) - k) in
   mini_log_since want max since s
   = if decide (g_ring_count s = 0%nat ∨ g_total s <= since) then ([], 0)
     else (if want then take (Z.to_nat n) (drop (Z.to_nat k) (contents s)) else [], n)) ∧
  (g_total s < 2 ^ 63 → mini_log_since want max (mini_log_count s) (ring_push e s) = ([], 0)).
Proof.
  intros O Hm Hs. pose proof cap_Z as HC.
  assert (∀ s since, ring_ok s → 0 <= since < 2 ^ 64 - 1 →
    let k := Z.max 0 (since + 1 - (g_total s - Z.of_nat (g_ring_count s))) in
    let n := Z.min max (Z.of_nat (g_ring_count s) - k) in
    mini_log_since want max since s
    = if decide (g_ring_count s = 0%nat ∨ g_total s <= since) then ([], 0)
      else (if want then take (Z.to_nat n) (drop (Z.to_nat k) (contents s)) else [], n)) as S.
  { clear s since O Hs. intros s since O Hs. cbv zeta. pose proof O as (_ & _ & Hc & _ & Ht).
    unfold mini_log_since. case_decide as E; [done|].
    rewrite (u64_small (g_total s - _)), (u64_small (since + 1)) by lia.
    set (k := Z.max 0 _).
    assert ((if decide (since + 1 < g_total s - Z.of_nat (g_ring_count s))
             then g_total s - Z.of_nat (g_ring_count s) else since + 1)
            - (g_total s - Z.of_nat (g_ring_count s)) = k) as -> by (unfold k; case_decide; lia).
    rewrite u64_small, i32_small by (unfold k; lia). cbv zeta. rewrite (decide_False (P := k < 0)) by (unfold k; lia).
    assert ((if decide (Z.of_nat (g_ring_count s) - k < max) then Z.of_nat (g_ring_count s) - k else max)
            = Z.min max (Z.of_nat (g_ring_count s) - k)) as -> by (case_decide; lia).
    destruct want; [|done]. f_equal. apply ring_read_contents. unfold k. lia. }
  split; [|split].
  - cbv zeta. unfold mini_log_recent. pose proof O as (_ & _ & Hc & _).
    assert ((if decide (max < Z.of_nat (g_ring_count s)) then max else Z.of_nat (g_ring_count s))
            = Z.min max (Z.of_nat (g_ring_count s))) as -> by (case_decide; lia).
    assert ((if decide (Z.of_nat (g_ring_count s) < max) then Z.of_nat (g_ring_count s) else max)
            = Z.min max (Z.of_nat (g_ring_count s))) as -> by (case_decide; lia).
    destruct want; [|done]. f_equal. rewrite ring_read_contents by lia. by rewrite drop_0.
  - by apply S.
  - intros Ht. pose proof (ring_push_ok e s O ltac:(lia)) as O'. pose proof O as (_ & _ & Hc & _ & Hr).
    rewrite (S _ _ O') by (unfold mini_log_count; lia).
    assert (g_total (ring_push e s) = g_total s + 1) as -> by (simpl; by rewrite u64_small by lia).
    unfold mini_log_count. destruct O' as (_ & _ & Hc' & _ & Hr').
    assert (g_total (ring_push e s) = g_total s + 1) as E' by (simpl; by rewrite u64_small by lia).
    rewrite E' in Hr'.
    assert (1 <= g_ring_count (ring_push e s))%nat as H1 by (unfold ring_push, set_ring; simpl; case_decide; lia).
    rewrite decide_False by lia.
    replace (Z.max 0 _) with (Z.of_nat (g_ring_count (ring_push e s))) by lia.
    replace (Z.min max _) with 0 by lia. by destruct want.
Qed.

Lemma log_readers_witness :
  ring_ok (ring_push (Entry 1 2 [] []) log_start) ∧
  mini_log_since true 10 1 (ring_push (Entry 2 2 [] []) (ring_push (Entry 1 2 [] []) log_start)) = ([], 0).
Proof.
  assert (ring_ok (ring_push (Entry 1 2 [] []) log_start)) as O.
  { apply ring_push_ok; [|done]. unfold ring_ok. split_and!; vm_compute; (reflexivity || lia || congruence). }
  split; [exact O|].
  exact (proj2 (proj2 (log_readers _ true 10 1 (Entry 2 2 [] []) O ltac:(lia) ltac:(lia))) ltac:(done)).
Defined.

(** ** Dispatch *)

(** What storing an entry leaves alone. *)
Lemma store_entry_frame e s :
  g_inited (store_entry e s) = g_inited s ∧ g_level (store_entry e s) = g_level s ∧
  g_sinks (store_entry e s) = g_sinks s ∧ g_log_depth (store_entry e s) = g_log_depth s ∧
  ∃ evs, out (store_entry e s) = out s ++ evs ∧ Forall (λ ev, ¬ ∃ k e, ev = SinkCall k e) evs.
Proof.
  unfold store_entry. set (s1 := ring_push e s).
  assert (g_file s1 = g_file s) as Ef by done. case_decide as E; cbn [g_file emit];
    rewrite Ef; destruct (g_file s) as [p|]; simpl; (split_and!; [done..|]).
  - exists [Stderr e; FileLine p e]. rewrite <- app_assoc. split; [done|].
    repeat constructor; by intros (? & ? & ?).
  - exists [Stderr e]. split; [done|]. repeat constructor; by intros (? & ? & ?).
  - exists [FileLine p e]. split; [done|]. repeat constructor; by intros (? & ? & ?).
  - exists []. by rewrite app_nil_r.
Qed.

Definition quiet (react : sink → MiniLogEntry → list log_op) : Prop :=
  ∀ k e op, op ∈ react k e → match op with OLog _ _ _ _ => False | _ => True end.

Definition non_null (k : sink) : Prop := is_Some (fst k).
#[export] Instance non_null_dec k : Decision (non_null k).
Proof. unfold non_null. apply _. Defined.

Lemma dispatch_quiet react run e snap : quiet react →
  (∀ op s, match op with OLog _ _ _ _ => False | _ => True end →
    ∃ s', run op s = Some s' ∧ out s' = out s ∧ g_log_depth s' = g_log_depth s) →
  ∀ s, ∃ s', dispatch react run e snap s = Some s' ∧
    out s' = out s ++ ((λ k, SinkCall k e) <$> filter non_null snap) ∧ g_log_depth s' = g_log_depth s.
Proof.
  intros Q R. unfold dispatch. induction snap as [|k snap IH]; intros s.
  { exists s. simpl. by rewrite app_nil_r. }
  cbn [foldl]. destruct k as [[c|] u].
  2:{ cbn. destruct (IH s) as (s' & E & O & D). exists s'. split; [exact E|].
      rewrite decide_False by (intros [? ?]; done). done. }
  rewrite filter_cons_True by (by eexists). rewrite fmap_cons.
  assert (∀ ops, (∀ op, op ∈ ops → op ∈ react (Some c, u) e) → ∀ s,
    ∃ s', foldl (λ o op, s ← o; run op s) (Some s) ops = Some s' ∧ out s' = out s ∧ g_log_depth s' = g_log_depth s) as F.
  { clear s. induction ops as [|op ops IHo]; intros Ho s; [by exists s|]. cbn [foldl].
    destruct (R op s) as (s1 & E1 & O1 & D1); [eapply Q, Ho; by left|].
    destruct (IHo (λ o H, Ho o (list_elem_of_further _ _ _ H)) s1) as (s2 & E2 & O2 & D2).
    exists s2. cbn. rewrite E1. split; [exact E2|]. by rewrite O2, O1, D2, D1. }
  destruct (F (react (Some c, u) e) (λ _ H, H) (emit (SinkCall (Some c, u) e) s)) as (s1 & E1 & O1 & D1).
  destruct (IH s1) as (s2 & E2 & O2 & D2). exists s2.
  cbn [mbind option_bind fst]. rewrite E1. split; [exact E2|]. rewrite O2, O1, D2, D1. split; [|done].
  simpl. by rewrite <- app_assoc.
Qed.

Lemma add_remove_frame k s :
  (out (fst (mini_log_add_sink k s)) = out s ∧ g_log_depth (fst (mini_log_add_sink k s)) = g_log_depth s) ∧
  (out (fst (mini_log_remove_sink k s)) = out s ∧ g_log_depth (fst (mini_log_remove_sink k s)) = g_log_depth s).
Proof.
  unfold mini_log_add_sink, mini_log_remove_sink. split.
  - destruct (fst k); [|done]. case_decide; [done|]. by case_decide.
  - by destruct (list_find _ _) as [[i x]|].
Qed.

(** C34. Emission terminates when the sinks do not log (they may add and remove
    sinks): a call that passes the threshold outside of a sink stores the entry
    and then calls the first eight registered callbacks, in order, each once,
    with no other sink event, leaving the depth at 0.  But the depth is already
    0 when they are called, so a sink that logs, which the header allows ("may
    call mini_logf again ... stored but not re-dispatched"), is called again for
    its own entry, without end: whatever the stack, it overflows. *)
Theorem log_dispatch react ts lvl tag text s : g_log_depth s = 0 → rejected lvl s = false →
  (quiet react → ∀ fuel, ∃ s' pre, mini_logv react (S fuel) ts lvl tag text s = Some s' ∧
     g_log_depth s' = 0 ∧ Forall (λ ev, ¬ ∃ k e, ev = SinkCall k e) pre ∧
     out s' = out s ++ pre ++ ((λ k, SinkCall k (mk_entry ts lvl tag text)) <$>
                               filter non_null (take MINI_LOG_MAX_SINKS (g_sinks s)))) ∧
  (∀ c u ks, g_sinks s = (Some c, u) :: ks →
     (∀ e, ∃ t l g x ops, react (Some c, u) e = OLog t l g x :: ops ∧ rejected l s = false) →
     ∀ fuel, mini_logv react fuel ts lvl tag text s = None).
Proof.
  intros D R. split.
  - intros Q fuel. cbn [mini_logv]. rewrite R. cbv zeta. set (e := mk_entry _ _ _ _).
    destruct (store_entry_frame e (set_depth (g_log_depth s + 1) s)) as (_ & _ & Hk & Hd & evs & Ho & Hev).
    rewrite Hd. cbn [g_log_depth set_depth]. rewrite D. rewrite decide_True by done.
    set (run := λ op s, _). destruct (dispatch_quiet react run e
      (take MINI_LOG_MAX_SINKS (g_sinks (store_entry e (set_depth (0 + 1) s)))) Q) with
      (s := set_depth (0 + 1 - 1) (store_entry e (set_depth (0 + 1) s))) as (s' & E & O & D').
    { intros op s0 Hop. destruct op as [|k|k]; [done|..]; unfold run; eexists; (split; [done|]); apply add_remove_frame. }
    exists s', evs. split; [exact E|]. split; [by rewrite D'|]. split; [exact Hev|].
    rewrite O. cbn [out set_depth]. rewrite D in Ho, Hk. rewrite Ho, Hk. by rewrite <- app_assoc.
  - intros c u ks Hk Hr fuel. revert ts lvl tag text s D R Hk Hr.
    induction fuel as [|fuel IH]; intros ts lvl tag text s D R Hk Hr; [done|]. cbn [mini_logv].
    rewrite R. cbv zeta. set (e := mk_entry _ _ _ _).
    destruct (store_entry_frame e (set_depth (g_log_depth s + 1) s)) as (Hi & Hl & Hks & Hd & _).
    rewrite Hd. cbn [g_log_depth set_depth]. rewrite D. rewrite decide_True by done.
    rewrite D in *. rewrite Hks. cbn [g_sinks set_depth]. rewrite Hk. cbn [take firstn].
    destruct (Hr e) as (t & l & g & x & ops & Er & Rl).
    change (take MINI_LOG_MAX_SINKS (?a :: ?b)) with (a :: take 7 b).
    unfold dispatch. cbn [foldl mbind option_bind fst]. rewrite Er. cbn [foldl mbind option_bind].
    assert (∀ rest, foldl (λ o op, s0 ← o; match op with
        | OLog t l g x => mini_logv react fuel t l g x s0
        | OAdd k => Some (fst (mini_log_add_sink k s0))
        | ORemove k => Some (fst (mini_log_remove_sink k s0)) end) None rest = None) as N1 by (by induction rest).
    rewrite IH.
    + rewrite N1. induction (take 7 ks) as [|k' r IHr]; [done|]. cbn [foldl mbind option_bind]. exact IHr.
    + done.
    + revert Rl. unfold rejected. cbn [g_inited g_level set_depth emit] in *. by rewrite Hi, Hl.
    + cbn [g_sinks set_depth emit]. by rewrite Hks.
    + intros e'. destruct (Hr e') as (t' & l' & g' & x' & ops' & E' & R'). do 5 eexists. split; [exact E'|].
      revert R'. unfold rejected. cbn [g_inited g_level set_depth emit] in *. by rewrite Hi, Hl.
Qed.

Definition relog : sink → MiniLogEntry → list log_op := λ _ _, [OLog 0 MINI_LOG_ERROR None []].

Lemma log_dispatch_witness :
  let s := fst (mini_log_add_sink (Some 7%nat, 0%nat) (set_ring [] 0 0 0 log_start)) in
  g_log_depth s = 0 ∧ rejected MINI_LOG_INFO s = false ∧
  (∃ s', mini_logv (λ _ _, []) 1 5 MINI_LOG_INFO None (str "x") s = Some s' ∧ g_log_depth s' = 0) ∧
  (∀ fuel, mini_logv relog fuel 5 MINI_LOG_INFO None (str "x") s = None).
Proof.
  set (s := fst _). split; [reflexivity|]. split; [reflexivity|].
  split.
  - destruct (log_dispatch (λ _ _, []) 5 MINI_LOG_INFO None (str "x") s eq_refl eq_refl) as [H _].
    destruct (H ltac:(intros ? ? ? []%elem_of_nil) 0%nat) as (s' & pre & E & D & _). by exists s'.
  - destruct (log_dispatch relog 5 MINI_LOG_INFO None (str "x") s eq_refl eq_refl) as [_ H].
    apply (H 7%nat 0%nat []); [reflexivity|]. intros e. by exists 0, MINI_LOG_ERROR, None, [], [].
Defined.
