(* ===== verification/EventLoop.v ===== *)
(** * Event loop (src/src/mini_eventloop.c)

    Tasks, microtasks, animation-frame callbacks and the three observer
    registries.  A callback is a pair of its code (null is [None]) and its user
    data; what it does to the loop when called is the list of operations
    [acts] gives for it.  Observers live in a store indexed by their address:
    using one that was freed is [UB].  [float] and its operations are
    parameters.  The trace records every call. *)

From S2P Require Import Prelude.
From stdpp Require Import gmap list.
Open Scope Z_scope.

Abbreviation task := (option nat * nat)%type.
Abbreviation node := nat.
Abbreviation addr := nat.

(** ** Mutation observers *)

Definition MUT_CHILD_LIST : Z := 1.
Definition MUT_ATTRIBUTES : Z := 2.
Definition MUT_CHARACTER_DATA : Z := 4.
Definition MUT_SUBTREE : Z := 8.

Record MiniMutRecord := MutRecord {
  mr_target : node; mr_type : Z; mr_node : option node; mr_name : option bytes; mr_value : option bytes }.
Record MiniMutationObserver := MutObs {
  mo_cb : task; mo_targets : list (node * Z); mo_records : list MiniMutRecord }.

Definition MAX_TARGETS : nat := 64.
Definition MAX_RECORDS : nat := Z.to_nat 256.
Definition MAX_OBS : nat := 64.

Definition mini_mutation_observer_create (cb : task) : MiniMutationObserver := MutObs cb [] [].
Definition mini_mutation_observer_observe (target : node) (opts : Z) (o : MiniMutationObserver) :=
  if decide (MAX_TARGETS <= length (mo_targets o))%nat then o
  else MutObs (mo_cb o) (mo_targets o ++ [(target, opts)]) (mo_records o).
Definition mini_mutation_observer_disconnect (o : MiniMutationObserver) :=
  MutObs (mo_cb o) [] (mo_records o).

(** [for (p = target; p; p = p->parent) if (p == root)]; [fuel] bounds the depth
    of the tree. *)
Fixpoint is_ancestor (parent : node → option node) (fuel : nat) (root p : node) : bool :=
  match fuel with
  | O => false
  | S fuel => if decide (p = root) then true
              else match parent p with Some p => is_ancestor parent fuel root p | None => false end
  end.

(** Does the target entry ask for this mutation? *)
Definition mut_match (parent : node → option node) (depth : nat) (target : node) (type : Z)
    (t : node * Z) : bool :=
  (if decide (fst t = target) then true
   else if decide (Z.land (snd t) MUT_SUBTREE ≠ 0) then is_ancestor parent depth (fst t) target else false)
  && (bool_decide (Z.land (snd t) type ≠ 0) || bool_decide (type = MUT_CHARACTER_DATA)).

(** The loop over the targets stops at the first match. *)
Definition mut_observe_one (parent : node → option node) (depth : nat) (r : MiniMutRecord)
    (o : MiniMutationObserver) : MiniMutationObserver :=
  if existsb (mut_match parent depth (mr_target r) (mr_type r)) (mo_targets o)
     && bool_decide (length (mo_records o) < MAX_RECORDS)%nat
  then MutObs (mo_cb o) (mo_targets o) (mo_records o ++ [r]) else o.

(** ** The loop *)

Record MiniIntersectionObserver := IntObs { io_cb : task; io_targets : list (option node * Z) }.
Record MiniResizeObserver (F : Type) := ResObs { ro_cb : task; ro_targets : list (option node * F * F) }.
Arguments ResObs {F}. Arguments ro_cb {F}. Arguments ro_targets {F}.

Inductive call :=
  | RunTask (t : task) | RunMicro (t : task) | RunRaf (t : task)
  | RunMut (o : addr) | RunInt (o : addr) (n : Z) | RunRes (o : addr) (n : Z).
#[export] Instance call_dec : EqDecision call.
Proof. solve_decision. Defined.

(** [raf] holds the slots written so far, of [raf_cap] allocated. *)
Record MiniEventLoop (F : Type) := Loop {
  tasks : list task; micros : list task;
  raf : list task; raf_n : nat; raf_cap : nat;
  mut_obs : list addr; int_obs : list addr; res_obs : list addr;
  muts : gmap addr MiniMutationObserver; ints : gmap addr MiniIntersectionObserver;
  ress : gmap addr (MiniResizeObserver F); trace : list call }.
Arguments Loop {F}. Arguments tasks {F}. Arguments micros {F}. Arguments raf {F}. Arguments raf_n {F}.
Arguments raf_cap {F}. Arguments mut_obs {F}. Arguments int_obs {F}. Arguments res_obs {F}.
Arguments muts {F}. Arguments ints {F}. Arguments ress {F}. Arguments trace {F}.

(** What a callback asks of the loop.  [realloc] is the outcome of the call. *)
Inductive action :=
  | ATask (t : task) | AMicro (t : task) | ARaf (t : task) (realloc : bool)
  | AMutate (r : MiniMutRecord).

Section loop.
Context {F : Type} (flt fne : F → F → bool) (fadd : F → F → F) (of_int : Z → F).
(** The geometry of a node: [abs_x], [abs_y], [w], [h]. *)
Context (box : node → F * F * F * F).
Context (parent : node → option node) (depth : nat) (acts : call → list action).

Abbreviation loop := (MiniEventLoop F).

Definition mini_eventloop_create : loop := Loop [] [] [] 0 0 [] [] [] ∅ ∅ ∅ [].

Definition set_tasks q (s : loop) : loop :=
  Loop q (micros s) (raf s) (raf_n s) (raf_cap s) (mut_obs s) (int_obs s) (res_obs s) (muts s) (ints s) (ress s) (trace s).
Definition set_micros q (s : loop) : loop :=
  Loop (tasks s) q (raf s) (raf_n s) (raf_cap s) (mut_obs s) (int_obs s) (res_obs s) (muts s) (ints s) (ress s) (trace s).
Definition set_raf r n c (s : loop) : loop :=
  Loop (tasks s) (micros s) r n c (mut_obs s) (int_obs s) (res_obs s) (muts s) (ints s) (ress s) (trace s).
Definition set_obs m i r (s : loop) : loop :=
  Loop (tasks s) (micros s) (raf s) (raf_n s) (raf_cap s) m i r (muts s) (ints s) (ress s) (trace s).
Definition set_heap m i r (s : loop) : loop :=
  Loop (tasks s) (micros s) (raf s) (raf_n s) (raf_cap s) (mut_obs s) (int_obs s) (res_obs s) m i r (trace s).
Definition log_call c (s : loop) : loop :=
  Loop (tasks s) (micros s) (raf s) (raf_n s) (raf_cap s) (mut_obs s) (int_obs s) (res_obs s) (muts s) (ints s) (ress s)
    (trace s ++ [c]).

Definition mini_eventloop_queue_task (t : task) (s : loop) : loop := set_tasks (tasks s ++ [t]) s.
Definition mini_eventloop_queue_microtask (t : task) (s : loop) : loop := set_micros (micros s ++ [t]) s.

(** The index returned, -1 when [realloc] fails. *)
Definition mini_eventloop_add_raf (t : task) (realloc : bool) (s : loop) : loop * Z :=
  let grow := bool_decide (raf_n s = raf_cap s) in
  if grow && negb realloc then (s, -1) else
  let cap := if grow then (if decide (raf_cap s = 0%nat) then 8%nat else raf_cap s * 2)%nat else raf_cap s in
  let arr := if decide (raf_n s < length (raf s))%nat then <[raf_n s := t]> (raf s)
             else raf s ++ [t] in
  (set_raf arr (S (raf_n s)) cap s, Z.of_nat (raf_n s)).

(** [mini_eventloop_mutate] *)
Definition mini_eventloop_mutate (r : MiniMutRecord) (s : loop) : res loop :=
  foldl (λ m a, let* s := m in
    match muts s !! a with
    | Some o => Ok (set_heap (<[a := mut_observe_one parent depth r o]> (muts s)) (ints s) (ress s) s)
    | None => UB
    end)%c (Ok s) (mut_obs s).

Definition run_action (a : action) (s : loop) : res loop :=
  match a with
  | ATask t => Ok (mini_eventloop_queue_task t s)
  | AMicro t => Ok (mini_eventloop_queue_microtask t s)
  | ARaf t r => Ok (fst (mini_eventloop_add_raf t r s))
  | AMutate r => mini_eventloop_mutate r s
  end.

(** [if (t->cb) t->cb (t->ud)] *)
Definition invoke (cb : task) (c : call) (s : loop) : res loop :=
  match fst cb with
  | None => Ok s
  | Some _ => foldl (λ m a, let* s := m in run_action a s)%c (Ok (log_call c s)) (acts c)
  end.

(** [None] is a drain that has not ended within [fuel] microtasks. *)
Fixpoint drain_microtasks (fuel : nat) (s : loop) : res (option (loop * Z)) :=
  match micros s with
  | [] => Ok (Some (s, 0))
  | t :: q =>
    match fuel with
    | O => Ok None
    | S fuel =>
      (let* s := invoke t (RunMicro t) (set_micros q s) in
       let* o := drain_microtasks fuel s in
       Ok (match o with Some (s, n) => Some (s, n + 1) | None => None end))%c
    end
  end.

Definition run_one_task (s : loop) : res (loop * Z) :=
  match tasks s with
  | [] => Ok (s, 0)
  | t :: q => (let* s := invoke t (RunTask t) (set_tasks q s) in Ok (s, 1))%c
  end.

Definition mini_eventloop_pump (fuel : nat) (s : loop) : res (option (loop * Z)) :=
  (let* o := drain_microtasks fuel s in
   match o with
   | None => Ok None
   | Some (s, n1) =>
     let* (s, n2) := run_one_task s in
     let* o := drain_microtasks fuel s in
     Ok (match o with Some (s, n3) => Some (s, n1 + n2 + n3) | None => None end)
   end)%c.

(** Registration and observers; [a] is the address of the observer. *)
Definition mini_eventloop_add_mutation (a : addr) (s : loop) : loop :=
  if decide (length (mut_obs s) < MAX_OBS)%nat then set_obs (mut_obs s ++ [a]) (int_obs s) (res_obs s) s else s.
Definition mini_eventloop_add_intersection (a : addr) (s : loop) : loop :=
  if decide (length (int_obs s) < MAX_OBS)%nat then set_obs (mut_obs s) (int_obs s ++ [a]) (res_obs s) s else s.
Definition mini_eventloop_add_resize (a : addr) (s : loop) : loop :=
  if decide (length (res_obs s) < MAX_OBS)%nat then set_obs (mut_obs s) (int_obs s) (res_obs s ++ [a]) s else s.

(** The records are counted and freed after the callback has run. *)
Definition mini_mutation_observer_take_records (a : addr) (s : loop) : res (loop * Z) :=
  match muts s !! a with
  | None => UB
  | Some o =>
    (let* s := if decide (mo_records o ≠ []) then invoke (mo_cb o) (RunMut a) s else Ok s in
     match muts s !! a with
     | None => UB
     | Some o =>
       Ok (set_heap (<[a := MutObs (mo_cb o) (mo_targets o) []]> (muts s)) (ints s) (ress s) s,
           Z.of_nat (length (mo_records o)))
     end)%c
  end.

Definition mini_intersection_observer_create (cb : task) : MiniIntersectionObserver := IntObs cb [].
Definition mini_intersection_observer_observe (t : option node) (o : MiniIntersectionObserver) :=
  if decide (length (io_targets o) < MAX_TARGETS)%nat
  then IntObs (io_cb o) (io_targets o ++ [(t, -1)]) else o.
Definition mini_intersection_observer_disconnect (o : MiniIntersectionObserver) := IntObs (io_cb o) [].

(** [targets[i] = targets[--n_targets]] for the first [i] watching [t]. *)
Definition unobserve {A} (f : A → option node) (t : option node) (l : list A) : list A :=
  match list_find (λ x, f x = t) l, last l with
  | Some (i, _), Some z => take (length l - 1) (<[i := z]> l)
  | _, _ => l
  end.
Definition mini_intersection_observer_unobserve (t : option node) (o : MiniIntersectionObserver) :=
  IntObs (io_cb o) (unobserve fst t (io_targets o)).

Definition mini_resize_observer_create (cb : task) : MiniResizeObserver F := ResObs cb [].
Definition mini_resize_observer_observe (t : option node) (o : MiniResizeObserver F) :=
  if decide (length (ro_targets o) < MAX_TARGETS)%nat
  then ResObs (ro_cb o) (ro_targets o ++ [(t, of_int (-1), of_int (-1))]) else o.
Definition mini_resize_observer_disconnect (o : MiniResizeObserver F) : MiniResizeObserver F := ResObs (ro_cb o) [].
Definition mini_resize_observer_unobserve (t : option node) (o : MiniResizeObserver F) :=
  ResObs (ro_cb o) (unobserve (λ x, fst (fst x)) t (ro_targets o)).

(** ** Render phase *)

(** [el->raf[i]] is read when its turn comes. *)
Fixpoint raf_loop (k i : nat) (s : loop) : res loop :=
  match k with
  | O => Ok s
  | S k =>
    match raf s !! i with
    | None => UB
    | Some t => (let* s := invoke t (RunRaf t) s in raf_loop k (S i) s)%c
    end
  end.

Definition intersecting (vw vh : Z) (t : node) : Z :=
  let '(x, y, w, h) := box t in
  if flt x (of_int vw) && flt y (of_int vh) && flt (of_int 0) (fadd x w) && flt (of_int 0) (fadd y h)
  then 1 else 0.

Definition int_target (vw vh : Z) (e : option node * Z) : (option node * Z) * Z :=
  match e with
  | (None, was) => ((None, was), 0)
  | (Some t, was) =>
    let now := intersecting vw vh t in
    if decide (now ≠ was) then ((Some t, now), 1) else ((Some t, was), 0)
  end.

Definition res_target (e : option node * F * F) : (option node * F * F) * Z :=
  match e with
  | (None, lw, lh) => ((None, lw, lh), 0)
  | (Some t, lw, lh) =>
    let '(_, _, w, h) := box t in
    if fne w lw || fne h lh then ((Some t, w, h), 1) else ((Some t, lw, lh), 0)
  end.

Definition changes {A} (l : list (A * Z)) : list A * Z := (l.*1, foldr Z.add 0 l.*2).

Definition int_step (vw vh : Z) (a : addr) (s : loop) : res loop :=
  match ints s !! a with
  | None => UB
  | Some o =>
    let '(ts, changed) := changes (int_target vw vh <$> io_targets o) in
    let s := set_heap (muts s) (<[a := IntObs (io_cb o) ts]> (ints s)) (ress s) s in
    if decide (changed ≠ 0) then invoke (io_cb o) (RunInt a changed) s else Ok s
  end.

Definition res_step (a : addr) (s : loop) : res loop :=
  match ress s !! a with
  | None => UB
  | Some o =>
    let '(ts, changed) := changes (res_target <$> ro_targets o) in
    let s := set_heap (muts s) (ints s) (<[a := ResObs (ro_cb o) ts]> (ress s)) s in
    if decide (changed ≠ 0) then invoke (ro_cb o) (RunRes a changed) s else Ok s
  end.

Definition for_each (f : addr → loop → res loop) (l : list addr) (s : loop) : res loop :=
  foldl (λ m a, let* s := m in f a s)%c (Ok s) l.

Definition mini_eventloop_render_phase (vw vh : Z) (s : loop) : res loop :=
  (let* s := raf_loop (raf_n s) 0 (set_raf (raf s) 0 (raf_cap s) s) in
   let* s := for_each (int_step vw vh) (int_obs s) s in
   for_each res_step (res_obs s) s)%c.

(** ** Destruction *)

(** The queue is detached, then its callbacks run. *)
Definition drain_queue (mk : task → call) (q : list task) (s : loop) : res loop :=
  foldl (λ m t, let* s := m in invoke t (mk t) s)%c (Ok s) q.

Definition free_mut (a : addr) (s : loop) : res loop :=
  if decide (is_Some (muts s !! a)) then Ok (set_heap (delete a (muts s)) (ints s) (ress s) s) else UB.
Definition free_int (a : addr) (s : loop) : res loop :=
  if decide (is_Some (ints s !! a)) then Ok (set_heap (muts s) (delete a (ints s)) (ress s) s) else UB.
Definition free_res (a : addr) (s : loop) : res loop :=
  if decide (is_Some (ress s !! a)) then Ok (set_heap (muts s) (ints s) (delete a (ress s)) s) else UB.

Definition mini_eventloop_destroy (s : loop) : res loop :=
  (let* s := drain_queue RunTask (tasks s) (set_tasks [] s) in
   let* s := drain_queue RunMicro (micros s) (set_micros [] s) in
   let* s := for_each free_mut (mut_obs s) s in
   let* s := for_each free_int (int_obs s) s in
   for_each free_res (res_obs s) s)%c.


(** ** What one callback changes *)

Definition atask (a : action) : option task := match a with ATask t => Some t | _ => None end.
Definition amicro (a : action) : option task := match a with AMicro t => Some t | _ => None end.

(** Tasks and microtasks queued by the call [c] of [cb]. *)
Definition spawned (cb : task) (c : call) : list task :=
  match fst cb with None => [] | Some _ => omap atask (acts c) end.
Definition spawned_micros (cb : task) (c : call) : list task :=
  match fst cb with None => [] | Some _ => omap amicro (acts c) end.
Definition called (cb : task) (c : call) : list call := match fst cb with None => [] | Some _ => [c] end.

Definition alive (s : loop) : Prop := Forall (λ a, is_Some (muts s !! a)) (mut_obs s).

(** Same observers and allocations. *)
Definition same_obs (s s' : loop) : Prop :=
  mut_obs s' = mut_obs s ∧ int_obs s' = int_obs s ∧ res_obs s' = res_obs s ∧ (alive s → alive s').

Lemma same_obs_refl s : same_obs s s.
Proof. done. Qed.
Lemma same_obs_trans s1 s2 s3 : same_obs s1 s2 → same_obs s2 s3 → same_obs s1 s3.
Proof. intros (? & ? & ? & ?) (? & ? & ? & ?). split_and!; [congruence..|auto]. Qed.

Definition qt (s : loop) : list task * list task * list call := (tasks s, micros s, trace s).

Lemma mutate_frame r s s' : mini_eventloop_mutate r s = Ok s' →
  qt s' = qt s ∧ same_obs s s' ∧ raf s' = raf s ∧ raf_n s' = raf_n s ∧ raf_cap s' = raf_cap s.
Proof.
  unfold mini_eventloop_mutate.
  assert (∀ l s s', foldl (λ m a, let* s := m in match muts s !! a with
    | Some o => Ok (set_heap (<[a := mut_observe_one parent depth r o]> (muts s)) (ints s) (ress s) s)
    | None => UB end)%c (Ok s) l = Ok s' →
    qt s' = qt s ∧ same_obs s s' ∧ raf s' = raf s ∧ raf_n s' = raf_n s ∧ raf_cap s' = raf_cap s) as G.
  { clear s s'. induction l as [|a l IH]; intros s s' E; [by injection E as <-|].
    cbn [foldl res_bind] in E. destruct (muts s !! a) as [o|] eqn:Eo.
    - apply IH in E as (Q & (E1 & E2 & E3 & A) & R). split; [exact Q|]. split; [|exact R].
      split_and!; [exact E1|exact E2|exact E3|]. intros H. apply A. unfold alive in *. simpl.
      eapply Forall_impl; [exact H|]. intros b Hb. simpl. destruct (decide (a = b)) as [->|].
      + rewrite lookup_insert_eq. by eexists.
      + by rewrite lookup_insert_ne.
    - exfalso. clear -E. revert E. induction l as [|b l IH]; [done|]. cbn [foldl res_bind]. exact IH. }
  apply G.
Qed.

Lemma run_action_frame a s s' : run_action a s = Ok s' →
  tasks s' = tasks s ++ option_list (atask a) ∧ micros s' = micros s ++ option_list (amicro a) ∧
  trace s' = trace s ∧ same_obs s s'.
Proof.
  destruct a as [t|t|t r|r]; cbn [run_action].
  - intros [= <-]. simpl. by rewrite app_nil_r.
  - intros [= <-]. simpl. by rewrite app_nil_r.
  - intros [= <-]. unfold mini_eventloop_add_raf. destruct (_ && _); simpl; by rewrite !app_nil_r.
  - intros E. apply mutate_frame in E as (Q & O & _). injection Q as -> -> ->. simpl. by rewrite !app_nil_r.
Qed.

Lemma actions_ub (l : list action) : foldl (λ m a, let* s := m in run_action a s)%c UB l = UB.
Proof. by induction l. Qed.

Lemma run_actions_frame l : ∀ s s', foldl (λ m a, let* s := m in run_action a s)%c (Ok s) l = Ok s' →
  tasks s' = tasks s ++ omap atask l ∧ micros s' = micros s ++ omap amicro l ∧
  trace s' = trace s ∧ same_obs s s'.
Proof.
  induction l as [|a l IH]; intros s s' E; [injection E as <-; by rewrite !app_nil_r|].
  cbn [foldl res_bind] in E. destruct (run_action a s) as [s1|] eqn:E1; [|by rewrite actions_ub in E].
  apply run_action_frame in E1 as (T1 & M1 & R1 & O1). apply IH in E as (T & M & R & O).
  rewrite T, M, R, T1, M1, R1, <- !app_assoc.
  split_and!; [|..|done|by eapply same_obs_trans]; f_equal; simpl;
    [by destruct (atask a)|by destruct (amicro a)].
Qed.

Lemma invoke_frame cb c s s' : invoke cb c s = Ok s' →
  tasks s' = tasks s ++ spawned cb c ∧ micros s' = micros s ++ spawned_micros cb c ∧
  trace s' = trace s ++ called cb c ∧ same_obs s s'.
Proof.
  unfold invoke, spawned, spawned_micros, called. destruct (fst cb) as [f|].
  - intros E. apply run_actions_frame in E as (T & M & R & O). done.
  - intros [= <-]. by rewrite !app_nil_r.
Qed.

(** A loop whose observers are allocated runs every callback. *)
Lemma mutate_alive r s : alive s → ∃ s', mini_eventloop_mutate r s = Ok s'.
Proof.
  unfold mini_eventloop_mutate, alive. generalize (mut_obs s) as l. intros l. revert s.
  induction l as [|a l IH]; intros s H; [by exists s|]. apply Forall_cons in H as [[o Ho] H].
  cbn [foldl res_bind]. rewrite Ho. apply IH. simpl. eapply Forall_impl; [exact H|]. intros b Hb. simpl.
  destruct (decide (a = b)) as [->|]; [rewrite lookup_insert_eq; by eexists|by rewrite lookup_insert_ne].
Qed.

Lemma invoke_alive cb c s : alive s → ∃ s', invoke cb c s = Ok s'.
Proof.
  intros H. unfold invoke. destruct (fst cb); [|by exists s].
  assert (alive (log_call c s)) as H' by done. revert H'. generalize (log_call c s) as s0.
  induction (acts c) as [|a l IH]; intros s0 H0; [by exists s0|]. cbn [foldl res_bind].
  assert (∃ s1, run_action a s0 = Ok s1) as [s1 E].
  { destruct a; cbn [run_action]; try (eexists; reflexivity). by apply mutate_alive. }
  rewrite E. apply IH. apply run_action_frame in E as (_ & _ & _ & _ & _ & _ & A). auto.
Qed.

(** ** Order of execution *)

Definition micro_of (t : task) : list task := spawned_micros t (RunMicro t).
Definition task_of (t : task) : list task := spawned t (RunMicro t).
Definition micro_calls (r : list task) : list call := mjoin ((λ t, called t (RunMicro t)) <$> r).

(** [r] is the sequence of microtasks run from the queue [q]: the queue, then
    what they queue, in order. *)
Definition checkpoint (q r : list task) : Prop := r = q ++ mjoin (micro_of <$> r).

Lemma drain_spec fuel : ∀ s s' n, drain_microtasks fuel s = Ok (Some (s', n)) →
  ∃ r, checkpoint (micros s) r ∧ micros s' = [] ∧ tasks s' = tasks s ++ mjoin (task_of <$> r) ∧
       trace s' = trace s ++ micro_calls r ∧ n = Z.of_nat (length r) ∧ same_obs s s'.
Proof.
  unfold checkpoint, micro_calls.
  induction fuel as [|fuel IH]; intros s s' n; cbn [drain_microtasks]; destruct (micros s) as [|t q] eqn:Eq;
    try (intros [= <- <-]; exists []; by rewrite Eq, !app_nil_r).
  destruct (invoke t (RunMicro t) (set_micros q s)) as [s1|] eqn:E1; [|done]. cbn [res_bind].
  destruct (drain_microtasks fuel s1) as [[[s2 m]|]|] eqn:E2; cbn [res_bind]; [|done..].
  intros [= <- <-]. apply invoke_frame in E1 as (T1 & M1 & R1 & O1).
  destruct (IH _ _ _ E2) as (r & Hr & M2 & T2 & R2 & -> & O2). simpl in T1, M1, R1. rewrite M1 in Hr.
  exists (t :: r). rewrite !fmap_cons. change (mjoin (?x :: ?y)) with (x ++ mjoin y). split_and!.
  - cbn [app]. f_equal. rewrite Hr at 1. by rewrite <- app_assoc.
  - done.
  - by rewrite T2, T1, <- app_assoc.
  - by rewrite R2, R1, <- app_assoc.
  - simpl. lia.
  - by eapply same_obs_trans.
Qed.

Lemma pump_spec fuel s s' n : mini_eventloop_pump fuel s = Ok (Some (s', n)) →
  ∃ r1, checkpoint (micros s) r1 ∧ micros s' = [] ∧
    match tasks s ++ mjoin (task_of <$> r1) with
    | [] => tasks s' = [] ∧ trace s' = trace s ++ micro_calls r1 ∧ n = Z.of_nat (length r1)
    | t :: q => ∃ r2, checkpoint (spawned_micros t (RunTask t)) r2 ∧
        tasks s' = q ++ spawned t (RunTask t) ++ mjoin (task_of <$> r2) ∧
        trace s' = trace s ++ micro_calls r1 ++ called t (RunTask t) ++ micro_calls r2 ∧
        n = Z.of_nat (length r1) + 1 + Z.of_nat (length r2)
    end.
Proof.
  unfold mini_eventloop_pump. destruct (drain_microtasks fuel s) as [[[s1 n1]|]|] eqn:E1; cbn [res_bind]; [|done..].
  destruct (drain_spec _ _ _ _ E1) as (r1 & H1 & M1 & T1 & R1 & -> & _). unfold run_one_task.
  destruct (tasks s1) as [|t q] eqn:Eq; cbn [res_bind].
  - destruct (drain_microtasks fuel s1) as [[[s2 n2]|]|] eqn:E2; cbn [res_bind]; [|done..]. intros [= <- <-].
    destruct (drain_spec _ _ _ _ E2) as (r2 & H2 & M2 & T2 & R2 & -> & _). rewrite M1 in H2.
    assert (r2 = []) as -> by (destruct fuel; cbn [drain_microtasks] in E2; rewrite M1 in E2;
      injection E2 as _ Hn; destruct r2; done).
    exists r1. rewrite <- T1. split; [done|]. split; [done|]. rewrite T2, Eq, R2, R1. simpl.
    unfold micro_calls. simpl. rewrite app_nil_r. split_and!; [done|done|lia].
  - destruct (invoke t (RunTask t) (set_tasks q s1)) as [s2|] eqn:E2; cbn [res_bind]; [|done].
    apply invoke_frame in E2 as (T2 & M2 & R2 & _). simpl in T2, M2, R2.
    destruct (drain_microtasks fuel s2) as [[[s3 n3]|]|] eqn:E3; cbn [res_bind]; [|done..]. intros [= <- <-].
    destruct (drain_spec _ _ _ _ E3) as (r2 & H3 & M3 & T3 & R3 & -> & _). rewrite M2, M1 in H3.
    exists r1. rewrite <- T1. split; [done|]. split; [done|]. exists r2. split; [exact H3|].
    rewrite T3, T2, R3, R2, R1, <- !app_assoc. split_and!; [done|done|lia].
Qed.

(** ** Termination and liveness *)

Section bounded.
(** A bound on the microtasks a microtask leads to, itself included. *)
Context (size : task → nat).
Definition total (q : list task) : nat := sum_list_with size q.
Hypothesis size_micro : ∀ t, (S (total (micro_of t)) <= size t)%nat.

Lemma total_app q1 q2 : total (q1 ++ q2) = (total q1 + total q2)%nat.
Proof using. apply sum_list_with_app. Qed.

Lemma drain_terminates fuel : ∀ s, alive s → (total (micros s) <= fuel)%nat →
  ∃ s' n, drain_microtasks fuel s = Ok (Some (s', n)).
Proof using size_micro.
  induction fuel as [|fuel IH]; intros s A H; cbn [drain_microtasks]; destruct (micros s) as [|t q] eqn:Eq;
    try (by eexists _, _); cbn in H; pose proof (size_micro t) as St; [lia|].
  destruct (invoke_alive t (RunMicro t) (set_micros q s) A) as [s1 E1]. rewrite E1. cbn [res_bind].
  apply invoke_frame in E1 as (_ & M1 & _ & _ & _ & _ & A1). simpl in M1.
  destruct (IH s1) as (s2 & n & E2); [by apply A1| |].
  - rewrite M1, total_app. fold (micro_of t). unfold total in *. lia.
  - rewrite E2. by eexists _, _.
Qed.

(** [k] pumps. *)
Fixpoint pumps (fuel k : nat) (s : loop) : res (option loop) :=
  match k with
  | O => Ok (Some s)
  | S k =>
    (let* o := mini_eventloop_pump fuel s in
     match o with Some (s, _) => pumps fuel k s | None => Ok None end)%c
  end.

Lemma pump_total B s : (∀ t, total (spawned_micros t (RunTask t)) <= B)%nat → alive s →
  (total (micros s) <= B)%nat →
  ∃ s' n, mini_eventloop_pump B s = Ok (Some (s', n)) ∧ alive s' ∧ micros s' = [].
Proof using size_micro.
  intros HB A H. unfold mini_eventloop_pump.
  destruct (drain_terminates B s A H) as (s1 & n1 & E1). rewrite E1. cbn [res_bind].
  apply drain_spec in E1 as (r1 & _ & M1 & _ & _ & _ & _ & _ & _ & A1). specialize (A1 A).
  unfold run_one_task. assert (∃ s2 n2, (match tasks s1 with
      | [] => Ok (s1, 0)
      | t :: q => (let* s := invoke t (RunTask t) (set_tasks q s1) in Ok (s, 1))%c end) = Ok (s2, n2)
      ∧ alive s2 ∧ (total (micros s2) <= B)%nat) as (s2 & n2 & E2 & A2 & H2).
  { destruct (tasks s1) as [|t q]; [exists s1, 0; rewrite M1; simpl; split_and!; [done|done|lia]|].
    destruct (invoke_alive t (RunTask t) (set_tasks q s1) A1) as [s2 E2]. rewrite E2. exists s2, 1.
    apply invoke_frame in E2 as (_ & M2 & _ & _ & _ & _ & A2). simpl in M2. rewrite M2, M1.
    split_and!; [done|by apply A2|]. apply HB. }
  rewrite E2. cbn [res_bind]. destruct (drain_terminates B s2 A2 H2) as (s3 & n3 & E3). rewrite E3. cbn [res_bind].
  apply drain_spec in E3 as (r3 & _ & M3 & _ & _ & _ & _ & _ & _ & A3). eexists _, _. split; [done|auto].
Qed.

(** C15. Liveness: if no microtask leads to unboundedly many others ([size] is
    a bound for each, [B] one for what is queued now and for what any one
    task queues) and the observers are allocated, every pump returns, and the
    task at position [k] of the queue has been called after [k + 1] pumps,
    whatever the callbacks queue meanwhile. *)
Theorem eventloop_liveness B s k t : (∀ t, total (spawned_micros t (RunTask t)) <= B)%nat →
  alive s → (total (micros s) <= B)%nat → tasks s !! k = Some t → is_Some (fst t) →
  ∃ s', pumps B (S k) s = Ok (Some s') ∧ RunTask t ∈ trace s'.
Proof using size_micro.
  intros HB. revert s. induction k as [|k IH]; intros s A H Ht Hc;
    destruct (pump_total B s HB A H) as (s1 & n1 & E1 & A1 & M1); cbn [pumps]; rewrite E1; cbn [res_bind];
    apply pump_spec in E1 as (r1 & _ & _ & E);
    (destruct (tasks s) as [|t0 q]; [done|]); cbn [app] in E; destruct E as (r2 & _ & Tq & Tr & _).
  - injection Ht as ->. exists s1. split; [done|]. rewrite Tr. unfold called. destruct (fst t); [|by destruct Hc].
    rewrite !elem_of_app. right. right. left. by left.
  - apply IH; [done|rewrite M1; simpl; lia| |done]. rewrite Tq. rewrite <- app_assoc.
    by apply lookup_app_l_Some.
Qed.
End bounded.

(** More fuel does not change what a drain or a pump gives. *)
Lemma drain_more f f' : ∀ s r, (f <= f')%nat → drain_microtasks f s = Ok (Some r) → drain_microtasks f' s = Ok (Some r).
Proof.
  revert f'. induction f as [|f IH]; intros f' s r Hf; destruct f' as [|f']; cbn [drain_microtasks]; try done; try lia; [by destruct (micros s)|].
  destruct (micros s) as [|t q]; [done|]. destruct (invoke t (RunMicro t) (set_micros q s)) as [s1|]; [|done]. cbn [res_bind].
  destruct (drain_microtasks f s1) as [[r1|]|] eqn:E; cbn [res_bind]; [|done..]. by rewrite (IH f' s1 r1 ltac:(lia) E).
Qed.
Lemma pump_more f f' s r : (f <= f')%nat → mini_eventloop_pump f s = Ok (Some r) → mini_eventloop_pump f' s = Ok (Some r).
Proof.
  intros Hf. unfold mini_eventloop_pump. destruct (drain_microtasks f s) as [[[s1 n1]|]|] eqn:E1; cbn [res_bind]; [|done..].
  rewrite (drain_more f f' s _ Hf E1). cbn [res_bind]. destruct (run_one_task s1) as [[s2 n2]|]; [|done]. cbn [res_bind].
  destruct (drain_microtasks f s2) as [[[s3 n3]|]|] eqn:E3; cbn [res_bind]; [|done..]. by rewrite (drain_more f f' s2 _ Hf E3).
Qed.

(** What a pump does: the queued microtasks and every microtask they lead to,
    first in first out; exactly one task, the oldest of the queue; the
    microtasks that task leads to. *)
Definition pump_order (s s' : loop) (n : Z) : Prop :=
  ∃ r1, checkpoint (micros s) r1 ∧ micros s' = [] ∧
    match tasks s ++ mjoin (task_of <$> r1) with
    | [] => tasks s' = [] ∧ trace s' = trace s ++ micro_calls r1 ∧ n = Z.of_nat (length r1)
    | t :: q => ∃ r2, checkpoint (spawned_micros t (RunTask t)) r2 ∧
        tasks s' = q ++ spawned t (RunTask t) ++ mjoin (task_of <$> r2) ∧
        trace s' = trace s ++ micro_calls r1 ++ called t (RunTask t) ++ micro_calls r2 ∧
        n = Z.of_nat (length r1) + 1 + Z.of_nat (length r2)
    end.

(** C21. One pump runs, in this order: the queued microtasks and every microtask
    they lead to, first in first out; then exactly one task, the oldest of the
    queue (tasks queued by those microtasks come last); then the microtasks
    that task leads to.  Nothing else is called, the microtask queue is left
    empty, the other tasks stay queued in order with the new ones behind, and
    the number returned counts the callbacks.  The pump returns, with any fuel
    from [B] on, when the observers are allocated and [B] bounds the microtasks
    that what is queued, or any one task, leads to; whenever it returns, bound or
    not, it has done this. *)
Theorem eventloop_pump_order s :
  (∀ size B, (∀ t, (S (total size (micro_of t)) <= size t)%nat) → (∀ t, (total size (spawned_micros t (RunTask t)) <= B)%nat) →
     alive s → (total size (micros s) <= B)%nat →
     ∃ s' n, (∀ fuel, (B <= fuel)%nat → mini_eventloop_pump fuel s = Ok (Some (s', n))) ∧ pump_order s s' n)
  ∧ (∀ fuel s' n, mini_eventloop_pump fuel s = Ok (Some (s', n)) → pump_order s s' n).
Proof.
  split; [|exact (λ fuel s' n, pump_spec fuel s s' n)]. intros size B Hs HB A H.
  destruct (pump_total size Hs B s HB A H) as (s'&n&E&_). exists s', n. split; [|exact (pump_spec B s s' n E)].
  intros fuel Hf. exact (pump_more B fuel s _ Hf E).
Qed.

(** A microtask that queues itself again is never drained. *)
Lemma drain_loops t fuel : ∀ s, micros s = [t] → acts (RunMicro t) = [AMicro t] → is_Some (fst t) →
  drain_microtasks fuel s = Ok None.
Proof.
  induction fuel as [|fuel IH]; intros s Hm Ha Hc; cbn [drain_microtasks]; rewrite Hm; [done|].
  unfold invoke. destruct (fst t) eqn:Ef; [|by destruct Hc]. rewrite Ha. cbn [foldl res_bind run_action].
  by rewrite IH by done.
Qed.

(** ** Animation frames *)

Definition araf (a : action) : option task := match a with ARaf t _ => Some t | _ => None end.

(** Slots from [b] on are not written. *)
Definition raf_above (b : nat) (s s' : loop) : Prop :=
  (raf_n s' <= length (raf s'))%nat ∧ (length (raf s) <= length (raf s'))%nat ∧ (raf_n s' <= b)%nat ∧
  ∀ j, (b <= j < length (raf s))%nat → raf s' !! j = raf s !! j.

Lemma add_raf_above t r s b : (raf_n s <= length (raf s))%nat → (S (raf_n s) <= b)%nat →
  raf_above b s (fst (mini_eventloop_add_raf t r s)).
Proof.
  intros H Hb. unfold mini_eventloop_add_raf, raf_above. destruct (_ && _); simpl; [split_and!; (done || lia)|].
  case_decide; simpl; rewrite ?length_insert, ?length_app; simpl; (split_and!; [lia..|]); intros j Hj.
  - rewrite list_lookup_insert_ne by lia. done.
  - rewrite lookup_app_l by lia. done.
Qed.

Lemma actions_above l : ∀ s s' b, foldl (λ m a, let* s := m in run_action a s)%c (Ok s) l = Ok s' →
  (raf_n s <= length (raf s))%nat → (raf_n s + length (omap araf l) <= b)%nat → raf_above b s s'.
Proof.
  induction l as [|a l IH]; intros s s' b E H Hb.
  { injection E as <-. simpl in Hb. unfold raf_above. split_and!; (done || lia). }
  cbn [foldl res_bind] in E. destruct (run_action a s) as [s1|] eqn:E1; [|by rewrite actions_ub in E].
  assert (raf_above b s s1 ∧ (raf_n s1 + length (omap araf l) <= b)%nat) as [(A1 & A2 & A3 & A4) Hb1].
  { destruct a as [t|t|t r|r]; cbn [run_action] in E1; simpl in Hb.
    - injection E1 as <-. unfold raf_above. simpl. split_and!; (done || lia).
    - injection E1 as <-. unfold raf_above. simpl. split_and!; (done || lia).
    - injection E1 as <-. split; [apply add_raf_above; lia|].
      change (list_omap action task araf l) with (omap araf l) in Hb. unfold mini_eventloop_add_raf. destruct (_ && _); simpl in *; lia.
    - apply mutate_frame in E1 as (_ & _ & Er & En & _). unfold raf_above. rewrite Er, En. split_and!; (done || lia). }
  destruct (IH s1 s' b E ltac:(lia) ltac:(lia)) as (B1 & B2 & B3 & B4).
  unfold raf_above. split_and!; [done|lia|done|]. intros j Hj. rewrite B4 by lia. apply A4. lia.
Qed.

Lemma invoke_above cb c s s' b : invoke cb c s = Ok s' → (raf_n s <= length (raf s))%nat →
  (raf_n s + length (omap araf (acts c)) <= b)%nat → raf_above b s s'.
Proof.
  unfold invoke. destruct (fst cb).
  - intros E H Hb. by apply (actions_above (acts c) (log_call c s)).
  - intros [= <-] H Hb. unfold raf_above. split_and!; (done || lia).
Qed.

Lemma raf_loop_order k : ∀ i s, alive s → (∀ t, (length (omap araf (acts (RunRaf t))) <= 1)%nat) →
  (raf_n s <= i)%nat → (i + k <= length (raf s))%nat →
  ∃ s', raf_loop k i s = Ok s' ∧
    trace s' = trace s ++ mjoin ((λ t, called t (RunRaf t)) <$> slice i k (raf s)) ∧ (raf_n s' <= i + k)%nat.
Proof.
  induction k as [|k IH]; intros i s A H1 Hn Hl; cbn [raf_loop].
  { exists s. unfold slice. simpl. rewrite app_nil_r. split_and!; [done|done|lia]. }
  destruct (lookup_lt_is_Some_2 (raf s) i) as [t Ht]; [lia|]. rewrite Ht.
  destruct (invoke_alive t (RunRaf t) s A) as [s1 E1]. rewrite E1. cbn [res_bind].
  pose proof (invoke_above _ _ _ _ (S i) E1 ltac:(lia)) as (B1 & B2 & B3 & B4).
  { specialize (H1 t). lia. }
  apply invoke_frame in E1 as (_ & _ & R1 & _ & _ & _ & A1).
  destruct (IH (S i) s1) as (s' & E' & R' & N'); [by apply A1|done|done|lia|].
  exists s'. split; [exact E'|]. split; [|lia]. rewrite R', R1, <- app_assoc. f_equal.
  assert (slice i (S k) (raf s) = t :: slice (S i) k (raf s1)) as ->; [|done].
  unfold slice. rewrite (drop_S _ _ _ Ht). cbn [take firstn]. f_equal. apply list_eq. intros j.
  destruct (decide (j < k)%nat).
  - rewrite !lookup_take_lt, !lookup_drop by done. symmetry. apply B4. lia.
  - by rewrite !lookup_take_ge by lia.
Qed.

(** Animation frames: when each frame callback registers at most one other
    frame, the render phase calls exactly the callbacks registered before it
    started, each once and in order, and those registered meanwhile stay for
    the next frame. *)
Theorem eventloop_raf s : alive s → (raf_n s <= length (raf s))%nat →
  (∀ t, (length (omap araf (acts (RunRaf t))) <= 1)%nat) →
  ∃ s', raf_loop (raf_n s) 0 (set_raf (raf s) 0 (raf_cap s) s) = Ok s' ∧
    trace s' = trace s ++ mjoin ((λ t, called t (RunRaf t)) <$> take (raf_n s) (raf s)) ∧
    (raf_n s' <= raf_n s)%nat.
Proof.
  intros A H H1. destruct (raf_loop_order (raf_n s) 0 (set_raf (raf s) 0 (raf_cap s) s) A H1) as (s' & E & R & N);
    [done|done|]. by exists s'.
Qed.

(** ** Observers *)

(** A mutation adds its record, at most 256 kept, to every observer one of
    whose targets is the mutated node, or an ancestor watched with SUBTREE,
    and asked for the kind of mutation (character data goes to all of them);
    taking the records calls the callback once if there are any and leaves
    none. *)
Theorem mutation_observer_records r s s' a o : NoDup (mut_obs s) → mini_eventloop_mutate r s = Ok s' →
  muts s !! a = Some o →
  muts s' !! a = Some (if decide (a ∈ mut_obs s) then mut_observe_one parent depth r o else o) ∧
  (length (mo_records o) <= MAX_RECORDS → length (mo_records (mut_observe_one parent depth r o)) <= MAX_RECORDS)%nat.
Proof.
  clear fne flt fadd box.
  intros N E Ho. split.
  - revert N E Ho. unfold mini_eventloop_mutate. generalize (mut_obs s) as l. intros l. revert s o.
    induction l as [|b l IH]; intros s o N E Ho.
    { injection E as <-. rewrite decide_False by apply not_elem_of_nil. done. }
    cbn [foldl res_bind] in E. apply NoDup_cons in N as [Nb N]. destruct (muts s !! b) as [ob|] eqn:Eb.
    2:{ exfalso. clear -E. revert E. induction l as [|b l IH]; [done|]. cbn [foldl res_bind]. exact IH. }
    destruct (decide (a = b)) as [->|Hne].
    + rewrite decide_True by by left. simplify_eq.
      rewrite (IH _ (mut_observe_one parent depth r ob) N E) by (simpl; by rewrite lookup_insert_eq).
      by rewrite decide_False.
    + rewrite (IH _ o N E) by (simpl; by rewrite lookup_insert_ne).
      f_equal. case_decide as D; [rewrite decide_True by (by right)|rewrite decide_False]; [done..|].
      rewrite elem_of_cons. tauto.
  - unfold mut_observe_one. destruct (_ && _) eqn:Ec; [|done]. apply andb_true_iff in Ec as [_ Ec].
    apply bool_decide_eq_true in Ec. cbn [mo_records]. rewrite length_app. cbn [length]. lia.
Qed.

(** A second frame with the same geometry reports nothing. *)
Lemma res_target_stable e : (∀ x, fne x x = false) →
  snd (res_target (fst (res_target e))) = 0.
Proof.
  intros R. destruct e as [[[t|] lw] lh]; [|done]. simpl. destruct (box t) as [[[x y] w] h] eqn:Eb.
  destruct (fne w lw || fne h lh) eqn:Ec; simpl; rewrite Eb; [rewrite !R|rewrite Ec]; done.
Qed.
Lemma int_target_stable vw vh e : snd (int_target vw vh (fst (int_target vw vh e))) = 0.
Proof.
  destruct e as [[t|] was]; [|done]. simpl.
  destruct (decide (intersecting vw vh t ≠ was)) as [D|D]; simpl; case_decide as H; simpl; (done || congruence || tauto).
Qed.
End loop.

(** A frame callback that registers two frames overwrites the next callback of
    this frame, which is lost, and its second registration runs at once. *)
Definition A1 : task := (Some 1%nat, 0%nat).
Definition B2 : task := (Some 2%nat, 0%nat).
Definition C3 : task := (Some 3%nat, 0%nat).
Lemma raf_lost :
  match raf_loop (F := unit) (λ _, None) 1
          (λ c, if decide (c = RunRaf A1) then [ARaf A1 true; ARaf C3 true] else [])
          2 0 (Loop [] [] [A1; B2] 0 8 [] [] [] ∅ ∅ ∅ []) with
  | Ok s' => trace s' = [RunRaf A1; RunRaf C3]
  | UB => False
  end.
Proof. vm_compute. reflexivity. Qed.

(** ** Witnesses: a task that queues a microtask. *)

Definition acts_demo (c : call) : list action := if decide (c = RunTask A1) then [AMicro B2; ATask C3] else [].
Definition loop_demo : MiniEventLoop unit := Loop [A1; C3] [B2] [] 0 0 [] [] [] ∅ ∅ ∅ [].

Lemma demo_micro_bound (t : task) : (S (total (λ _, 1%nat) (micro_of acts_demo t)) <= 1)%nat.
Proof. destruct t as [[n|] u]; unfold micro_of, spawned_micros, acts_demo; simpl; lia. Qed.
Lemma demo_task_bound (t : task) : (total (λ _, 1%nat) (spawned_micros acts_demo t (RunTask t)) <= 1)%nat.
Proof. destruct t as [[n|] u]; unfold spawned_micros, acts_demo; simpl; [case_decide; simpl; lia|lia]. Qed.
Lemma demo_alive : alive loop_demo.
Proof. by apply (bool_decide_unpack _). Qed.

Lemma eventloop_pump_order_witness :
  ∃ s' n, mini_eventloop_pump (F := unit) (λ _, None) 1 acts_demo 5 loop_demo = Ok (Some (s', n)) ∧
    trace s' = [RunMicro B2; RunTask A1; RunMicro B2] ∧ tasks s' = [C3; C3] ∧ n = 3 ∧ pump_order acts_demo loop_demo s' n.
Proof.
  destruct (proj1 (eventloop_pump_order (F := unit) (λ _, None) 1 acts_demo loop_demo) (λ _, 1%nat) 1%nat demo_micro_bound demo_task_bound demo_alive)
    as (s'&n&E&Ho); [vm_compute; lia|].
  exists s', n. specialize (E 5%nat ltac:(lia)). split; [exact E|]. vm_compute in E. injection E as <- <-.
  split; [reflexivity|]. split; [reflexivity|]. split; [reflexivity|exact Ho].
Defined.

Lemma eventloop_liveness_witness :
  ∃ s', pumps (F := unit) (λ _, None) 1 acts_demo 1 2 loop_demo = Ok (Some s') ∧ RunTask C3 ∈ trace s'.
Proof.
  apply (eventloop_liveness (F := unit) (λ _, None) 1 acts_demo (λ _, 1%nat) demo_micro_bound 1 loop_demo 1 C3 demo_task_bound).
  - exact demo_alive.
  - vm_compute. lia.
  - reflexivity.
  - by eexists.
Defined.

Lemma eventloop_raf_witness :
  ∃ s', raf_loop (F := unit) (λ _, None) 1 (λ c, match c with RunRaf t => [ARaf t true] | _ => [] end) 2 0
          (set_raf [A1; B2] 0 8 (Loop [] [] [A1; B2] 2 8 [] [] [] ∅ ∅ ∅ [])) = Ok s' ∧
    trace s' = [RunRaf A1; RunRaf B2].
Proof.
  destruct (eventloop_raf (F := unit) (λ _, None) 1 (λ c, match c with RunRaf t => [ARaf t true] | _ => [] end)
    (Loop [] [] [A1; B2] 2 8 [] [] [] ∅ ∅ ∅ [])) as (s' & E & R & _).
  - by apply (bool_decide_unpack _).
  - simpl. lia.
  - intros t. simpl. lia.
  - exists s'. split; [exact E|exact R].
Defined.

Lemma mutation_observer_records_witness :
  let r := MutRecord 3 MUT_ATTRIBUTES None (Some []) None in
  let o := MutObs A1 [(1%nat, Z.lor MUT_ATTRIBUTES MUT_SUBTREE)] [] in
  let s := Loop (F := unit) [] [] [] 0 0 [9%nat] [] [] {[ 9%nat := o ]} ∅ ∅ [] in
  NoDup (mut_obs s) ∧ ∃ s', mini_eventloop_mutate (λ n, Some (n - 1)%nat) 5 r s = Ok s' ∧
    muts s' !! 9%nat = Some (MutObs A1 (mo_targets o) [r]).
Proof.
  intros r o s. assert (NoDup (mut_obs s)) as N by apply NoDup_singleton. split; [exact N|].
  eexists. split; [reflexivity|].
  refine (proj1 (mutation_observer_records (F := unit) (λ n, Some (n - 1)%nat) 5 r s _ 9%nat o N eq_refl _)).
  reflexivity.
Defined.
