(* ===== verification/HttpCache.v ===== *)
(** * HTTP cache (src/src/mini_httpcache.c)

    The entries [g_entries] (the list of the first [g_n]) over the files of the
    cache directory.  A file system is a map from path to contents; whether a
    path can be opened for writing, whether [malloc] succeeds and the clock are
    arguments.  This is the POSIX branch: text files are not translated, and
    the [\] of a path is an ordinary character of the file's name. *)

From S2P Require Import Prelude CString.
From stdpp Require Import gmap list.
Open Scope Z_scope.

Record MiniCacheEntry := Entry {
  url : bytes; status : Z; mime : bytes; body : option bytes; body_len : Z; etag : bytes;
  last_modified : bytes; stored_at : Z; max_age : Z; no_store : Z; no_cache : Z; used : Z }.

(** [memset (e, 0, sizeof *e)] *)
Definition zero_entry : MiniCacheEntry := Entry [] 0 [] None 0 [] [] 0 0 0 0 0.

Definition set_url v e :=
  Entry v (status e) (mime e) (body e) (body_len e) (etag e) (last_modified e) (stored_at e) (max_age e) (no_store e) (no_cache e) (used e).
Definition set_status v e :=
  Entry (url e) v (mime e) (body e) (body_len e) (etag e) (last_modified e) (stored_at e) (max_age e) (no_store e) (no_cache e) (used e).
Definition set_mime v e :=
  Entry (url e) (status e) v (body e) (body_len e) (etag e) (last_modified e) (stored_at e) (max_age e) (no_store e) (no_cache e) (used e).
Definition set_body b n e :=
  Entry (url e) (status e) (mime e) b n (etag e) (last_modified e) (stored_at e) (max_age e) (no_store e) (no_cache e) (used e).
Definition set_etag v e :=
  Entry (url e) (status e) (mime e) (body e) (body_len e) v (last_modified e) (stored_at e) (max_age e) (no_store e) (no_cache e) (used e).
Definition set_last_modified v e :=
  Entry (url e) (status e) (mime e) (body e) (body_len e) (etag e) v (stored_at e) (max_age e) (no_store e) (no_cache e) (used e).
Definition set_stored_at v e :=
  Entry (url e) (status e) (mime e) (body e) (body_len e) (etag e) (last_modified e) v (max_age e) (no_store e) (no_cache e) (used e).
Definition set_max_age v e :=
  Entry (url e) (status e) (mime e) (body e) (body_len e) (etag e) (last_modified e) (stored_at e) v (no_store e) (no_cache e) (used e).
Definition set_no_store v e :=
  Entry (url e) (status e) (mime e) (body e) (body_len e) (etag e) (last_modified e) (stored_at e) (max_age e) v (no_cache e) (used e).
Definition set_no_cache v e :=
  Entry (url e) (status e) (mime e) (body e) (body_len e) (etag e) (last_modified e) (stored_at e) (max_age e) (no_store e) v (used e).

(** [getenv ("HOME")], [fopen (p, "w")], [malloc] and [time]. *)
Record env := Env { HOME : option bytes; writable : bytes → bool; malloc_ok : Z → bool; now : Z }.

Abbreviation files := (gmap bytes bytes).
Record cache := Cache { mem : list MiniCacheEntry; disk : files }.

(** ** Files *)

(** [%016llx] *)
Definition hex16 (h : Z) : bytes :=
  map (λ i, let d := h / 16 ^ (15 - Z.of_nat i) mod 16 in if decide (d < 10) then 48 + d else 87 + d) (seq 0 16).

Definition hash_step (h : Z * Z) (c : Z) : Z * Z :=
  (u64 (Z.lxor (fst h) c * 0x100000001b3), u64 ((snd h + c) * 0xcbf29ce484222325)).

Definition url_to_filename (url : bytes) (cap : nat) : bytes :=
  let '(h1, h2) := foldl hash_step (0xcbf29ce484222325, 0x100000001b3) url in
  take (cap - 1) (hex16 h1 ++ hex16 h2).

Definition mini_httpcache_get_dir (home : option bytes) (cap : nat) : bytes :=
  match home with
  | Some (h :: t) => take (cap - 1) ((h :: t) ++ str "/.tiny_cache")
  | _ => take (cap - 1) (str ".tiny_cache")
  end.

Definition DIR_CAP : nat := Z.to_nat 512.
Definition PATH_CAP : nat := Z.to_nat 600.

Definition path_of (v : env) (ext : bytes) (u : bytes) : bytes :=
  take (PATH_CAP - 1) (mini_httpcache_get_dir (HOME v) DIR_CAP ++ str "\" ++ url_to_filename u 64 ++ ext).
Definition meta_path (v : env) : bytes → bytes := path_of v (str ".meta").
Definition bin_path (v : env) : bytes → bytes := path_of v (str ".bin").

(** One [fprintf] of the meta file. *)
Definition meta_line (key value : bytes) : bytes := key ++ value ++ [10].

Definition meta_text (e : MiniCacheEntry) : bytes :=
  meta_line (str "URL: ") (url e) ++
  meta_line (str "STATUS: ") (c_dec (status e)) ++
  meta_line (str "MIME: ") (mime e) ++
  meta_line (str "ETAG: ") (etag e) ++
  meta_line (str "LAST_MODIFIED: ") (last_modified e) ++
  meta_line (str "STORED_AT: ") (c_dec (stored_at e)) ++
  meta_line (str "MAX_AGE: ") (c_dec (max_age e)) ++
  meta_line (str "NO_CACHE: ") (c_dec (no_cache e)) ++
  meta_line (str "NO_STORE: ") (c_dec (no_store e)) ++
  meta_line (str "BODY_LEN: ") (c_dec (body_len e)).

(** [fopen (p, "w")], write [text], [fclose]: nothing happens when it cannot be opened. *)
Definition write_file (v : env) (p text : bytes) (d : files) : files :=
  if writable v p then <[p := text]> d else d.

Definition mini_httpcache_save_to_disk (v : env) (e : MiniCacheEntry) (d : files) : files :=
  if decide (url e = []) then d else
  let d := write_file v (meta_path v (url e)) (meta_text e) d in
  match body e with
  | Some b => if decide (0 < body_len e)
              then write_file v (bin_path v (url e)) (take (Z.to_nat (body_len e)) b) d else d
  | None => d
  end.

(** [fgets (line, n + 1, f)]: the line, and what is left of the file. *)
Fixpoint fgets (n : nat) (s : bytes) : bytes * bytes :=
  match n, s with
  | S n, c :: s =>
    if decide (c = 10) then ([10], s) else let '(l, r) := fgets n s in (c :: l, r)
  | _, _ => ([], s)
  end.

Definition LINE_CAP : nat := Z.to_nat 1024.

(** [while (fgets (line, sizeof line, f))]; every call consumes a byte. *)
Fixpoint read_lines (fuel : nat) (s : bytes) : list bytes :=
  match fuel, s with
  | S fuel, _ :: _ => let '(l, r) := fgets (LINE_CAP - 1) s in l :: read_lines fuel r
  | _, _ => []
  end.

(** The text before the first [x]. *)
Definition upto (x : Z) (s : bytes) : bytes :=
  match strchr s x with Some i => take i s | None => s end.

(** The body of the loop: the entry and [body_len] so far. *)
Definition set_field (st : MiniCacheEntry * Z) (line : bytes) : MiniCacheEntry * Z :=
  let '(e, n) := st in
  let line := upto 10 (upto 13 (upto 0 line)) in
  let key k := starts_with (str k) line in
  if key "URL: "%string then (set_url (take (Z.to_nat 1023) (drop 5 line)) e, n)
  else if key "STATUS: "%string then (set_status (i32 (c_atol (drop 8 line))) e, n)
  else if key "MIME: "%string then (set_mime (take 127 (drop 6 line)) e, n)
  else if key "ETAG: "%string then (set_etag (take 255 (drop 6 line)) e, n)
  else if key "LAST_MODIFIED: "%string then (set_last_modified (take 63 (drop 15 line)) e, n)
  else if key "STORED_AT: "%string then (set_stored_at (c_atol (drop 11 line)) e, n)
  else if key "MAX_AGE: "%string then (set_max_age (c_atol (drop 9 line)) e, n)
  else if key "NO_CACHE: "%string then (set_no_cache (i32 (c_atol (drop 10 line))) e, n)
  else if key "NO_STORE: "%string then (set_no_store (i32 (c_atol (drop 10 line))) e, n)
  else if key "BODY_LEN: "%string then (e, u64 (c_atol (drop 10 line)))
  else st.

(** [None] is 0. *)
Definition mini_httpcache_load_from_disk (v : env) (u : bytes) (d : files) : res (option MiniCacheEntry) :=
  if decide (u = []) then Ok None else
  match d !! meta_path v u with
  | None => Ok None
  | Some text =>
    let '(e, n) := foldl set_field (zero_entry, 0) (read_lines (length text) text) in
    if negb (streq (url e) u) then Ok None
    else if decide (0 < n) then
      match d !! bin_path v u with
      | None => Ok None
      | Some f =>
        if negb (malloc_ok v (u64 (n + 1))) then Ok None else
        let b := take (Z.to_nat (Z.min n (Z.of_nat (length f)))) f in
        if decide (u64 (n + 1) <= Z.of_nat (length b)) then UB
        else Ok (Some (set_body (Some b) (Z.of_nat (length b)) e))
      end
    else Ok (Some (set_body (if malloc_ok v 1 then Some [] else None) 0 e))
  end.

Definition mini_httpcache_delete_from_disk (v : env) (u : bytes) (d : files) : files :=
  if decide (u = []) then d else delete (bin_path v u) (delete (meta_path v u) d).

(** ** Cache-Control *)

Fixpoint cc_has_loop (fuel : nat) (p name : bytes) : bool :=
  match fuel, p with
  | S fuel, _ :: _ =>
    let p := skip (λ c, c_isspace c || bool_decide (c = 44)) p in
    let '(tok, p) := scan (λ c, negb (bool_decide (c = 44)) && negb (c_isspace c)) (length p) p in
    if bool_decide (length tok = length name) && strcaseeq tok name then true
    else cc_has_loop fuel (skip (λ c, negb (bool_decide (c = 44))) p) name
  | _, _ => false
  end.

Definition cc_has (cc name : bytes) : bool := cc_has_loop (length cc) cc name.

(** [strtol (s, &end, 10)]; [None] when [end == s]. *)
Definition c_strtol (s : bytes) : option Z :=
  let t := skip c_isspace s in
  let t := if decide (hd0 t = 45 ∨ hd0 t = 43) then tail t else t in
  if c_isdigit (hd0 t) then Some (c_atol s) else None.

(** [max_age], [no_store], [no_cache]; a null [cc] is the empty string. *)
Definition mini_httpcache_parse_cc (cc : bytes) : Z * bool * bool :=
  let ns := cc_has cc (str "no-store") in
  let nc := cc_has cc (str "no-cache") in
  match mini_strcasestr cc (str "max-age") with
  | None => (-1, ns, nc)
  | Some ma =>
    let ma := skip (λ c, bool_decide (c ∈ [32; 61; 9])) (drop 7 ma) in
    (default (-1) (c_strtol ma), ns, nc)
  end.

(** ** The cache *)

Definition MAX_ENTRIES : nat := Z.to_nat 512.

Definition mini_httpcache_clear (c : cache) : cache := Cache [] (disk c).

Definition find_mem (u : bytes) (m : list MiniCacheEntry) : option nat :=
  fst <$> list_find (λ e, streq (url e) u = true) m.

(** A new last slot: the oldest entry goes when the table is full. *)
Definition make_room (m : list MiniCacheEntry) : list MiniCacheEntry :=
  if decide (MAX_ENTRIES <= length m)%nat then drop 1 m else m.

(** [None] is -1. *)
Definition find_idx (v : env) (u : bytes) (c : cache) : res (cache * option nat) :=
  match find_mem u (mem c) with
  | Some i => Ok (c, Some i)
  | None =>
    (let* r := mini_httpcache_load_from_disk v u (disk c) in
     match r with
     | Some e => let m := make_room (mem c) in Ok (Cache (m ++ [e]) (disk c), Some (length m))
     | None => Ok (c, None)
     end)%c
  end.

(** [strstr (url, s) != NULL] for one of the listed texts. *)
Definition static_resource (u : bytes) : bool :=
  existsb (λ s, bool_decide (is_Some (strstr u (str s))))
    ["unpkg.com"; "cdnjs.cloudflare.com"; "cdn.jsdelivr.net"; "@"; ".min.js"; ".js"; ".css"; ".ttf";
     ".woff"; ".woff2"; ".png"; ".jpg"]%string.

Definition heuristic_age (u : bytes) (ma : Z) (nc : bool) : Z :=
  if bool_decide (ma < 0) && negb nc then (if static_resource u then 86400 * 30 else 86400) else ma.

(** The slot [e] filled by [store]; [buf] is the readable memory at [body]. *)
Definition fill_entry (v : env) (st : Z) (mm : option bytes) (buf : option bytes) (len : nat)
    (et lm : option bytes) (ma : Z) (nc : bool) (e : MiniCacheEntry) : res MiniCacheEntry :=
  let src := default [0] buf in
  if malloc_ok v (u64 (Z.of_nat len + 1)) && bool_decide (length src < len)%nat then UB else
  Ok (Entry (url e) st (take 127 (default [] mm))
        (if malloc_ok v (u64 (Z.of_nat len + 1)) then Some (take len src) else None) (Z.of_nat len)
        (take 255 (default [] et)) (take 63 (default [] lm)) (now v) ma 0 (Z.b2z nc) (used e)).

Definition mini_httpcache_store (v : env) (u : bytes) (st : Z) (mm buf : option bytes) (len : nat)
    (et lm cc expires : option bytes) (c : cache) : res cache :=
  if decide (u = []) then Ok c else
  let '(ma, ns, nc) := mini_httpcache_parse_cc (default [] cc) in
  if ns then Ok (Cache (mem c) (mini_httpcache_delete_from_disk v u (disk c))) else
  if decide (st < 200 ∨ 300 <= st) then Ok c else
  let ma := heuristic_age u ma nc in
  let '(m, idx) :=
    match find_mem u (mem c) with
    | Some i => (mem c, i)
    | None => let m := make_room (mem c) in
              (m ++ [set_url (take (Z.to_nat 1023) u) zero_entry], length m)
    end in
  match m !! idx with
  | None => UB
  | Some e =>
    (let* e := fill_entry v st mm buf len et lm ma nc e in
     Ok (Cache (<[idx := e]> m) (mini_httpcache_save_to_disk v e (disk c))))%c
  end.

(** The difference of two times is a [time_t]. *)
Definition fresh (v : env) (e : MiniCacheEntry) : res bool :=
  if decide (no_cache e ≠ 0) then Ok false
  else if decide (max_age e < 0) then Ok false
  else if decide (- 2 ^ 63 <= now v - stored_at e < 2 ^ 63)
  then Ok (bool_decide (now v - stored_at e < max_age e)) else UB.

(** The entry returned and [*stale]. *)
Definition mini_httpcache_get (v : env) (u : bytes) (c : cache)
    : res (cache * option MiniCacheEntry * bool) :=
  (let* (c, i) := find_idx v u c in
   match i ≫= λ i, mem c !! i with
   | None => Ok (c, None, false)
   | Some e =>
     let* f := fresh v e in
     if f : bool then Ok (c, Some e, false) else Ok (c, None, true)
   end)%c.

Definition mini_httpcache_get_any (v : env) (u : bytes) (c : cache)
    : res (cache * option MiniCacheEntry) :=
  (let* (c, i) := find_idx v u c in Ok (c, i ≫= λ i, mem c !! i))%c.

(** [off += snprintf (out + off, cap - off, ...)] on the buffer [out] of [cap]
    bytes: [cap - off] is a [size_t]. *)
Definition snprintf_at (out : bytes) (off : nat) (s : bytes) : res (bytes * nat) :=
  let n := u64 (Z.of_nat (length out) - Z.of_nat off) in
  if decide (n = 0) then Ok (out, off + length s)%nat else
  let t := take (Z.to_nat (n - 1)) s ++ [0] in
  if decide (length out < off + length t)%nat then UB
  else Ok (take off out ++ t ++ drop (off + length t) out, off + length s)%nat.

(** What [out] holds, and the value returned. *)
Definition mini_httpcache_conditional_headers (v : env) (u : bytes) (out : bytes) (c : cache)
    : res (cache * bytes * Z) :=
  (let* (c, i) := find_idx v u c in
   match i ≫= λ i, mem c !! i with
   | None => Ok (c, out, -1)
   | Some e =>
     let* (out, off) := if decide (etag e = []) then Ok (out, O)
                        else snprintf_at out 0 (str "If-None-Match: " ++ etag e ++ [13; 10]) in
     let* (out, off) := if decide (last_modified e = []) then Ok (out, off)
                        else snprintf_at out off (str "If-Modified-Since: " ++ last_modified e ++ [13; 10]) in
     if decide (length out <= off)%nat then UB
     else Ok (c, <[off := 0]> out,
              if decide (etag e = [] ∧ last_modified e = []) then -1 else Z.of_nat off)
   end)%c.

Definition mini_httpcache_invalidate (v : env) (u : bytes) (c : cache) : cache :=
  Cache (match find_mem u (mem c) with Some i => delete i (mem c) | None => mem c end)
        (mini_httpcache_delete_from_disk v u (disk c)).

Definition mini_httpcache_count (c : cache) : Z := Z.of_nat (length (mem c)).

(** The self test of the source, from an empty disk. *)
Definition env_demo (t : Z) : env := Env (Some (str "/home/u")) (λ _, true) (λ n, bool_decide (n < 2 ^ 62)) t.

Example httpcache_selftest :
  let v := env_demo 1000 in
  (let* c := mini_httpcache_store v (str "https://x/y") 200 (Some (str "text/plain")) (Some (str "hello")) 5
               (Some (str "v1")) (Some (str "Wed, 09 Jun 2021 10:18:14 GMT")) (Some (str "max-age=3600")) None
               (Cache [] ∅) in
   let* (c, e, stale) := mini_httpcache_get v (str "https://x/y") (mini_httpcache_clear c) in
   let* (c, h, n) := mini_httpcache_conditional_headers v (str "https://x/y") (replicate 256 0) c in
   let* c := mini_httpcache_store v (str "https://x/z") 200 None (Some (str "z")) 1 None None
               (Some (str "max-age=0")) None c in
   let* (c, e', stale') := mini_httpcache_get v (str "https://x/z") c in
   Ok (body <$> e, stale, upto 0 h, n, e', stale', map (λ e, c_dec (max_age e)) (mem c)))%c
  = Ok (Some (Some (str "hello")), false,
        str "If-None-Match: v1" ++ [13; 10] ++ str "If-Modified-Since: Wed, 09 Jun 2021 10:18:14 GMT" ++ [13; 10],
        69, None, true, [str "3600"; str "0"]).
Proof. vm_compute. reflexivity. Qed.

(** ** File names *)

Lemma length_hex16 h : length (hex16 h) = 16%nat.
Proof. unfold hex16. by rewrite length_map, length_seq. Qed.

Lemma length_url_to_filename u : length (url_to_filename u 64) = 32%nat.
Proof.
  unfold url_to_filename. destruct (foldl _ _ _) as [h1 h2].
  rewrite length_take, length_app, !length_hex16. lia.
Qed.

Lemma length_dir home : (length (mini_httpcache_get_dir home DIR_CAP) <= 511)%nat.
Proof.
  assert (Z.of_nat DIR_CAP = 512) by reflexivity.
  unfold mini_httpcache_get_dir. destruct home as [[|h t]|]; rewrite length_take; lia.
Qed.

(** No path is truncated. *)
Lemma path_of_full v ext u : (length ext <= 5)%nat →
  path_of v ext u = mini_httpcache_get_dir (HOME v) DIR_CAP ++ str "\" ++ url_to_filename u 64 ++ ext.
Proof.
  intros He. unfold path_of. apply take_ge.
  assert (Z.of_nat PATH_CAP = 600) by reflexivity.
  pose proof (length_dir (HOME v)). rewrite !length_app, length_url_to_filename.
  change (length (str "\")) with 1%nat. lia.
Qed.

Lemma meta_bin_ne v u u' : meta_path v u ≠ bin_path v u'.
Proof.
  intros E%(f_equal length). unfold meta_path, bin_path in E.
  rewrite !path_of_full in E by (simpl; lia). rewrite !length_app, !length_url_to_filename in E.
  simpl in E. lia.
Qed.

Lemma path_of_inj v ext u u' : (length ext <= 5)%nat → path_of v ext u = path_of v ext u' →
  url_to_filename u 64 = url_to_filename u' 64.
Proof.
  intros He E. rewrite !path_of_full in E by done.
  apply app_inv_head in E. apply app_inv_head in E. by apply app_inv_tail in E.
Qed.

(** ** Reading back what was printed *)

Definition line_ok (s : bytes) : Prop := Forall (λ b, 1 <= b < 256 ∧ b ≠ 10 ∧ b ≠ 13) s.
#[export] Instance line_ok_dec s : Decision (line_ok s).
Proof. unfold line_ok. apply _. Defined.

Lemma line_ok_app a b : line_ok (a ++ b) ↔ line_ok a ∧ line_ok b.
Proof. apply Forall_app. Qed.
Lemma line_ok_take n s : line_ok s → line_ok (take n s).
Proof. apply Forall_take. Qed.
Lemma line_ok_dec_text z : line_ok (c_dec z).
Proof. eapply Forall_impl; [apply c_dec_chars|]. simpl. lia. Qed.
Lemma line_ok_str s : forallb (λ b, bool_decide (1 <= b < 256 ∧ b ≠ 10 ∧ b ≠ 13)) (str s) = true → line_ok (str s).
Proof. intros H. apply Forall_forall. intros x Hx. rewrite forallb_forall in H.
  apply list_elem_of_In, H, bool_decide_eq_true in Hx. done. Qed.

Lemma fgets_line n l r : line_ok l → (length l < n)%nat → fgets n (l ++ [10] ++ r) = (l ++ [10], r).
Proof.
  revert n. induction l as [|c l IH]; intros n Hl Hn; destruct n as [|n]; simpl in Hn; try lia; [done|].
  apply Forall_cons in Hl as [Hc Hl]. simpl. rewrite decide_False by lia.
  change (l ++ 10 :: r) with (l ++ [10] ++ r). by rewrite IH by (done || lia).
Qed.

Lemma fgets_consumes n s : s ≠ [] → (length (snd (fgets (S n) s)) < length s)%nat.
Proof.
  revert n. induction s as [|c s IH]; intros n; [done|]. intros _. cbn [fgets].
  destruct (decide (c = 10)); cbn [snd length]; [lia|].
  destruct (fgets n s) as [l r] eqn:E. cbn [snd].
  destruct n as [|n]; [injection E as <- <-; lia|]. destruct s as [|d s]; [injection E as <- <-; simpl; lia|].
  pose proof (IH n ltac:(done)) as H. rewrite E in H. cbn [snd length] in *. lia.
Qed.

Lemma LINE_CAP_S : (LINE_CAP - 1)%nat = S (Z.to_nat 1022).
Proof. apply Nat2Z.inj. vm_compute. reflexivity. Qed.

Lemma read_lines_fuel f1 f2 s : (length s <= f1)%nat → (length s <= f2)%nat →
  read_lines f1 s = read_lines f2 s.
Proof.
  revert f2 s. induction f1 as [|f1 IH]; intros f2 s H1 H2.
  { destruct s; simpl in H1; [by destruct f2|lia]. }
  destruct s as [|c s]; [by destruct f2|]. destruct f2 as [|f2]; simpl in H2; [lia|].
  cbn [read_lines]. rewrite LINE_CAP_S. pose proof (fgets_consumes (Z.to_nat 1022) (c :: s) ltac:(done)) as Hc.
  destruct (fgets _ _) as [l r]. cbn [snd length] in *. f_equal. apply IH; lia.
Qed.

Lemma read_lines_cons l r : line_ok l → Z.of_nat (length l) <= 1022 →
  read_lines (length (l ++ [10] ++ r)) (l ++ [10] ++ r) = (l ++ [10]) :: read_lines (length r) r.
Proof.
  intros Hl Hn. assert (length (l ++ [10] ++ r) = S (length l + length r)) as ->.
  { rewrite !length_app. simpl. lia. }
  destruct (l ++ [10] ++ r) as [|c s] eqn:E; [by destruct l|]. cbn [read_lines].
  rewrite <- E, LINE_CAP_S, fgets_line by (done || lia). f_equal. apply read_lines_fuel; lia.
Qed.

Lemma upto_app x a b : x ∉ a → upto x (a ++ [x] ++ b) = a.
Proof.
  intros H. unfold upto. rewrite (proj2 (strchr_Some _ _ (length a))); [apply take_app_length|].
  split; [by rewrite lookup_app_r, Nat.sub_diag by lia|].
  intros j Hj E. rewrite lookup_app_l in E by lia. by apply list_elem_of_lookup_2 in E.
Qed.
Lemma upto_none x a : x ∉ a → upto x a = a.
Proof. intros H. unfold upto. by rewrite (proj2 (strchr_None _ _)). Qed.

Lemma line_ok_not_in l x : line_ok l → x ∈ [0; 10; 13] → x ∉ l.
Proof.
  unfold line_ok. rewrite Forall_forall. intros H Hx Hl. specialize (H _ Hl).
  assert (x = 0 ∨ x = 10 ∨ x = 13) by set_solver. lia.
Qed.

Lemma cut_line l : line_ok l → upto 10 (upto 13 (upto 0 (l ++ [10]))) = l.
Proof.
  intros H. assert (∀ x, x ∈ [0; 13] → x ∉ l ++ [10]) as Hn.
  { intros x Hx [Hl|Hl]%elem_of_app; [|set_solver]. eapply line_ok_not_in; [done| |done]. set_solver. }
  rewrite (upto_none 0), (upto_none 13) by (apply Hn; set_solver).
  rewrite <- (app_nil_r [10]). apply upto_app. eapply line_ok_not_in; [done|set_solver].
Qed.

(** [set_field] on a printed line, one equation per field. *)
Lemma meta_line_cut k x : line_ok k → line_ok x → upto 10 (upto 13 (upto 0 (meta_line k x))) = k ++ x.
Proof. intros Hk Hx. unfold meta_line. rewrite app_assoc. apply cut_line. by apply line_ok_app. Qed.

Ltac field_line := intros; unfold set_field; rewrite meta_line_cut by (done || by apply line_ok_str);
  cbv zeta; rewrite ?starts_with_self, ?starts_with_differ by reflexivity; try reflexivity.

Section fields.
Context (e : MiniCacheEntry) (n : Z) (x : bytes) (Hx : line_ok x).

Lemma set_field_url : set_field (e, n) (meta_line (str "URL: ") x) = (set_url (take (Z.to_nat 1023) x) e, n).
Proof using Hx. field_line. Qed.
Lemma set_field_status : set_field (e, n) (meta_line (str "STATUS: ") x) = (set_status (i32 (c_atol x)) e, n).
Proof using Hx. field_line. Qed.
Lemma set_field_mime : set_field (e, n) (meta_line (str "MIME: ") x) = (set_mime (take 127 x) e, n).
Proof using Hx. field_line. Qed.
Lemma set_field_etag : set_field (e, n) (meta_line (str "ETAG: ") x) = (set_etag (take 255 x) e, n).
Proof using Hx. field_line. Qed.
Lemma set_field_lm : set_field (e, n) (meta_line (str "LAST_MODIFIED: ") x) = (set_last_modified (take 63 x) e, n).
Proof using Hx. field_line. Qed.
Lemma set_field_stored : set_field (e, n) (meta_line (str "STORED_AT: ") x) = (set_stored_at (c_atol x) e, n).
Proof using Hx. field_line. Qed.
Lemma set_field_age : set_field (e, n) (meta_line (str "MAX_AGE: ") x) = (set_max_age (c_atol x) e, n).
Proof using Hx. field_line. Qed.
Lemma set_field_nc : set_field (e, n) (meta_line (str "NO_CACHE: ") x) = (set_no_cache (i32 (c_atol x)) e, n).
Proof using Hx. field_line. Qed.
Lemma set_field_ns : set_field (e, n) (meta_line (str "NO_STORE: ") x) = (set_no_store (i32 (c_atol x)) e, n).
Proof using Hx. field_line. Qed.
Lemma set_field_len : set_field (e, n) (meta_line (str "BODY_LEN: ") x) = (e, u64 (c_atol x)).
Proof using Hx. field_line. Qed.
End fields.

Lemma read_meta_line k x r : line_ok k → line_ok x → Z.of_nat (length k + length x) <= 1022 →
  read_lines (length (meta_line k x ++ r)) (meta_line k x ++ r) = meta_line k x :: read_lines (length r) r.
Proof.
  intros Hk Hx Hl. unfold meta_line. rewrite !app_assoc, <- (app_assoc (k ++ x)).
  apply read_lines_cons; [by apply line_ok_app|]. rewrite length_app. lia.
Qed.

(** Entries the meta file can represent. *)
Record savable (e : MiniCacheEntry) : Prop := {
  sv_url : line_ok (url e) ∧ 0 < Z.of_nat (length (url e)) <= 1017;
  sv_mime : line_ok (mime e) ∧ Z.of_nat (length (mime e)) <= 127;
  sv_etag : line_ok (etag e) ∧ Z.of_nat (length (etag e)) <= 255;
  sv_lm : line_ok (last_modified e) ∧ Z.of_nat (length (last_modified e)) <= 63;
  sv_int : - 2 ^ 31 <= status e < 2 ^ 31 ∧ - 2 ^ 31 <= no_cache e < 2 ^ 31 ∧ - 2 ^ 31 <= no_store e < 2 ^ 31;
  sv_long : - 2 ^ 63 <= stored_at e < 2 ^ 63 ∧ - 2 ^ 63 <= max_age e < 2 ^ 63;
  sv_used : used e = 0;
  sv_body : ∃ b, body e = Some b ∧ body_len e = Z.of_nat (length b) ∧ Z.of_nat (length b) < 2 ^ 63 }.

Ltac meta_len :=
  match goal with
  | |- context [c_dec ?z] => pose proof (length_c_dec z)
  | _ => idtac
  end; cbn [length str map String.list_ascii_of_string] in *; lia.

Lemma meta_text_fields e : savable e →
  foldl set_field (zero_entry, 0) (read_lines (length (meta_text e)) (meta_text e))
  = (set_body None 0 e, body_len e).
Proof.
  intros [[Hu Hul] [Hm Hml] [He Hel] [Hl Hll] Hi Hlo Hus (b&Eb&Ebl&Hb)].
  unfold meta_text. rewrite <- (app_nil_r (meta_line (str "BODY_LEN: ") _)).
  repeat rewrite read_meta_line by (first [by apply line_ok_str | by apply line_ok_dec_text | done | meta_len]).
  cbn [foldl].
  rewrite set_field_url, set_field_status, set_field_mime, set_field_etag, set_field_lm, set_field_stored,
    set_field_age, set_field_nc, set_field_ns by (done || apply line_ok_dec_text).
  change (read_lines (length []) []) with (@nil bytes). cbn [foldl].
  rewrite set_field_len by apply line_ok_dec_text.
  rewrite !c_atol_dec, !i32_small, u64_small by lia. rewrite !take_ge by lia.
  clear -Hus. destruct e. cbn in Hus. by subst.
Qed.

(** ** The disk as a map from URL to entry *)

Lemma load_ext (v : env) u d d' : d !! meta_path v u = d' !! meta_path v u → d !! bin_path v u = d' !! bin_path v u →
  mini_httpcache_load_from_disk v u d = mini_httpcache_load_from_disk v u d'.
Proof. intros E1 E2. unfold mini_httpcache_load_from_disk. by rewrite E1, E2. Qed.

Lemma lookup_write_ne (v : env) (p q t : bytes) (d : files) : p ≠ q → write_file v p t d !! q = d !! q.
Proof. intros. unfold write_file. destruct (writable v p); [by rewrite lookup_insert_ne|done]. Qed.
Lemma lookup_write_eq (v : env) (p t : bytes) (d : files) : writable v p = true → write_file v p t d !! p = Some t.
Proof. intros Hw. unfold write_file. by rewrite Hw, lookup_insert_eq. Qed.

Lemma save_frame (v : env) e d p : p ≠ meta_path v (url e) → p ≠ bin_path v (url e) →
  mini_httpcache_save_to_disk v e d !! p = d !! p.
Proof.
  intros H1 H2. unfold mini_httpcache_save_to_disk. destruct (decide (url e = [])); [done|].
  destruct (body e); [destruct (decide (0 < body_len e))|]; by rewrite ?lookup_write_ne by done.
Qed.

(** Two URLs whose files differ. *)
Definition apart (u u' : bytes) : Prop := url_to_filename u 64 ≠ url_to_filename u' 64.
#[export] Instance apart_dec u u' : Decision (apart u u').
Proof. unfold apart. apply _. Defined.

Lemma apart_sym u u' : apart u u' → apart u' u.
Proof. unfold apart. congruence. Qed.
Lemma apart_meta v u u' : apart u u' → meta_path v u ≠ meta_path v u'.
Proof. intros H E. apply H. eapply path_of_inj; [|exact E]. simpl; lia. Qed.
Lemma apart_bin v u u' : apart u u' → bin_path v u ≠ bin_path v u'.
Proof. intros H E. apply H. eapply path_of_inj; [|exact E]. simpl; lia. Qed.

Lemma load_save_frame v e d u' : apart u' (url e) →
  mini_httpcache_load_from_disk v u' (mini_httpcache_save_to_disk v e d)
  = mini_httpcache_load_from_disk v u' d.
Proof.
  intros H. apply load_ext; apply save_frame.
  - by apply apart_meta. - apply meta_bin_ne.
  - intros E. by apply (meta_bin_ne v (url e) u'). - by apply apart_bin.
Qed.

Lemma load_delete_frame v u d u' : apart u' u →
  mini_httpcache_load_from_disk v u' (mini_httpcache_delete_from_disk v u d)
  = mini_httpcache_load_from_disk v u' d.
Proof.
  intros H. unfold mini_httpcache_delete_from_disk. destruct (decide (u = [])); [done|].
  apply load_ext; rewrite !lookup_delete_ne; try done;
    (by apply not_eq_sym, apart_meta) || (by apply not_eq_sym, apart_bin) || (by apply meta_bin_ne)
    || (by apply not_eq_sym, meta_bin_ne).
Qed.

Lemma load_delete v u d : mini_httpcache_load_from_disk v u (mini_httpcache_delete_from_disk v u d) = Ok None.
Proof.
  unfold mini_httpcache_load_from_disk, mini_httpcache_delete_from_disk.
  destruct (decide (u = [])); [done|].
  rewrite lookup_delete_ne by (apply not_eq_sym, meta_bin_ne). by rewrite lookup_delete_eq.
Qed.

Lemma set_body_same e b : body e = Some b → e = set_body (Some b) (body_len e) (set_body None 0 e).
Proof. destruct e. simpl. by intros ->. Qed.

Lemma load_save v e d : savable e →
  writable v (meta_path v (url e)) = true → writable v (bin_path v (url e)) = true →
  malloc_ok v (body_len e + 1) = true →
  mini_httpcache_load_from_disk v (url e) (mini_httpcache_save_to_disk v e d) = Ok (Some e).
Proof.
  intros Hs Hwm Hwb Hm. pose proof (meta_text_fields e Hs) as Hf.
  destruct Hs as [[_ Hul] _ _ _ _ _ _ (b&Eb&El&Hb)].
  assert (url e ≠ []) as Hne by (intros E; rewrite E in Hul; simpl in Hul; lia).
  pose proof (set_body_same e b Eb) as Ee.
  unfold mini_httpcache_load_from_disk, mini_httpcache_save_to_disk. rewrite Eb, !decide_False by done.
  destruct (decide (0 < body_len e)) as [Hp|Hp].
  - rewrite lookup_write_ne by (apply not_eq_sym, meta_bin_ne). rewrite !lookup_write_eq by done.
    rewrite Hf, (proj2 (streq_true _ _)) by done. rewrite decide_True by done.
    rewrite u64_small, Hm by lia. cbn [negb].
    assert (take (Z.to_nat (body_len e)) b = b) as -> by (apply take_ge; lia).
    assert (take (Z.to_nat (Z.min (body_len e) (Z.of_nat (length b)))) b = b) as -> by (apply take_ge; lia).
    rewrite decide_False by lia. by rewrite <- El, <- Ee.
  - rewrite lookup_write_eq by done. rewrite Hf, (proj2 (streq_true _ _)) by done.
    rewrite decide_False by done. assert (body_len e = 0) as E0 by lia.
    rewrite E0 in Hm. cbn [Z.add] in Hm. change (0 + 1) with 1 in Hm. rewrite Hm.
    rewrite E0 in El, Ee. destruct b; [|simpl in El; lia]. by rewrite <- Ee.
Qed.

Lemma load_used v u d e : mini_httpcache_load_from_disk v u d = Ok (Some e) → url e = u ∧ used e = 0.
Proof.
  unfold mini_httpcache_load_from_disk. destruct (decide (u = [])) as [|Hne]; [done|].
  destruct (d !! _) as [text|]; [|done].
  assert (∀ ls st, used (fst (foldl set_field st ls)) = used (fst st)) as Hu.
  { induction ls as [|l ls IH]; intros [e0 k]; [done|]. cbn [foldl]. rewrite IH. unfold set_field.
    repeat case_match; done. }
  specialize (Hu (read_lines (length text) text) (zero_entry, 0)).
  destruct (foldl _ _ _) as [e' n]. cbn [fst] in Hu.
  destruct (streq (url e') u) eqn:E; [|done]. apply streq_true in E. cbn [negb].
  destruct (decide (0 < n)).
  - destruct (d !! _); [|done]. destruct (malloc_ok v _); [|done]. cbn [negb].
    destruct (decide _); [done|]. by intros [= <-].
  - by intros [= <-].
Qed.

(** ** The table *)

Lemma find_mem_Some u m i : find_mem u m = Some i → ∃ e, m !! i = Some e ∧ url e = u.
Proof.
  unfold find_mem. intros ([j e]&(Hl&Hu&_)%list_find_Some&[= ->])%fmap_Some.
  exists e. split; [done|]. by apply streq_true.
Qed.
Lemma find_mem_None u m : find_mem u m = None ↔ u ∉ url <$> m.
Proof.
  unfold find_mem. rewrite fmap_None, list_find_None, Forall_forall, list_elem_of_fmap. split.
  - intros H (e&->&He). by apply (H e He), streq_true.
  - intros H e He E. apply H. exists e. by apply streq_true in E.
Qed.

(** The table holds what the disk holds. *)
Record coherent (v : env) (c : cache) : Prop := {
  co_nodup : NoDup (url <$> mem c);
  co_len : Z.of_nat (length (mem c)) <= 512;
  co_disk : ∀ e, e ∈ mem c → mini_httpcache_load_from_disk v (url e) (disk c) = Ok (Some e) }.

Lemma MAX_ENTRIES_Z : Z.of_nat MAX_ENTRIES = 512.
Proof. reflexivity. Qed.
#[local] Opaque MAX_ENTRIES.

Lemma make_room_spec m : ∃ k, make_room m = drop k m ∧ (Z.of_nat (length m) <= 512 → Z.of_nat (length (make_room m)) < 512).
Proof.
  pose proof MAX_ENTRIES_Z. unfold make_room. destruct (decide _).
  - exists 1%nat. split; [done|]. rewrite length_drop. lia.
  - exists 0%nat. split; [by rewrite drop_0|]. lia.
Qed.

Lemma NoDup_drop' {A} k (l : list A) : NoDup l → NoDup (drop k l).
Proof. rewrite <- (take_drop k l) at 1. by intros (_&_&?)%NoDup_app. Qed.

Lemma coherent_app v m d e : coherent v (Cache m d) → url e ∉ url <$> m →
  mini_httpcache_load_from_disk v (url e) d = Ok (Some e) → coherent v (Cache (make_room m ++ [e]) d).
Proof.
  intros [Hn Hl Hd] Hu He. destruct (make_room_spec m) as (k&Ek&Hk). simpl in *. split; simpl.
  - rewrite Ek, fmap_app, fmap_drop. apply NoDup_app. split; [by apply (NoDup_drop' k)|]. split; [|apply NoDup_singleton].
    intros x Hx Hx'. apply list_elem_of_singleton in Hx' as ->. apply Hu. eapply subseteq_drop, Hx.
  - rewrite length_app. simpl. specialize (Hk Hl). lia.
  - intros x [Hx|Hx]%elem_of_app; [|by apply list_elem_of_singleton in Hx as ->].
    rewrite Ek in Hx. apply Hd. by eapply subseteq_drop.
Qed.

(** A coherent cache answers what the disk answers, and stays coherent. *)
Lemma find_idx_spec v u c : coherent v c →
  match mini_httpcache_load_from_disk v u (disk c) with
  | UB => find_idx v u c = UB
  | Ok r => ∃ c' i, find_idx v u c = Ok (c', i) ∧ (i ≫= λ i, mem c' !! i) = r ∧ coherent v c' ∧ disk c' = disk c
  end.
Proof.
  intros Hc. unfold find_idx. destruct (find_mem u (mem c)) as [i|] eqn:Ef.
  - apply find_mem_Some in Ef as (e&Hi&<-).
    rewrite (co_disk _ _ Hc e) by (by eapply list_elem_of_lookup_2). by exists c, (Some i).
  - destruct (mini_httpcache_load_from_disk v u (disk c)) as [[e|]|] eqn:El; [|by exists c, None|done].
    cbn [res_bind]. eexists _, _. split; [done|]. cbn [mbind option_bind mem disk].
    rewrite lookup_app_r, Nat.sub_diag by lia. split; [done|]. split; [|done].
    apply find_mem_None in Ef. destruct (load_used _ _ _ _ El) as [<- _]. destruct c. by apply coherent_app.
Qed.

Lemma c_atol_range s : - 2 ^ 63 <= c_atol s < 2 ^ 63.
Proof. unfold c_atol. lia. Qed.

Lemma parse_cc_range cc : let ma := fst (fst (mini_httpcache_parse_cc cc)) in - 2 ^ 63 <= ma < 2 ^ 63.
Proof.
  unfold mini_httpcache_parse_cc. destruct (mini_strcasestr _ _) as [p|]; cbn [fst]; [|lia].
  unfold c_strtol. destruct (c_isdigit _); cbn [default]; [apply c_atol_range|simpl; lia].
Qed.

Lemma heuristic_age_range u ma nc : - 2 ^ 63 <= ma < 2 ^ 63 → - 2 ^ 63 <= heuristic_age u ma nc < 2 ^ 63.
Proof. intros. unfold heuristic_age. destruct (_ && _); [destruct (static_resource u)|]; lia. Qed.

(** Replacing the entry of [u], or adding it, and rewriting its files keeps the
    cache coherent. *)
Lemma coherent_write v c e idx m :
  coherent v c → (∀ x, x ∈ mem c → url x ≠ url e → apart (url x) (url e)) →
  mini_httpcache_load_from_disk v (url e) (mini_httpcache_save_to_disk v e (disk c)) = Ok (Some e) →
  (∃ e0, m !! idx = Some e0 ∧ url e0 = url e) → NoDup (url <$> m) → Z.of_nat (length m) <= 512 →
  (∀ x, x ∈ m → url x ≠ url e → x ∈ mem c) →
  coherent v (Cache (<[idx := e]> m) (mini_httpcache_save_to_disk v e (disk c))).
Proof.
  intros Hc Hap Hl (e0&Hi&Hu) Hn Hlen Hin.
  assert (url <$> <[idx := e]> m = url <$> m) as Eu.
  { rewrite list_fmap_insert. apply list_insert_id. by rewrite list_lookup_fmap, Hi, <- Hu. }
  split; simpl.
  - by rewrite Eu.
  - by rewrite length_insert.
  - intros x Hx. destruct (decide (url x = url e)) as [Ex|Ex].
    + apply list_elem_of_lookup in Hx as [j Hj].
      assert (j = idx) as ->.
      { apply (NoDup_lookup (url <$> m) j idx (url e)); [done| |].
        - rewrite <- Eu, list_lookup_fmap, Hj. simpl. by f_equal.
        - by rewrite list_lookup_fmap, Hi, <- Hu. }
      rewrite list_lookup_insert_eq in Hj by (by apply lookup_lt_Some in Hi). injection Hj as <-. done.
    + assert (x ∈ m) as Hxm.
      { apply list_elem_of_lookup in Hx as [j Hj]. destruct (decide (j = idx)) as [->|Hji].
        - rewrite list_lookup_insert_eq in Hj by (by apply lookup_lt_Some in Hi). by injection Hj as <-.
        - rewrite list_lookup_insert_ne in Hj by done. by eapply list_elem_of_lookup_2. }
      specialize (Hin x Hxm Ex). rewrite load_save_frame by (by apply Hap). by apply (co_disk _ _ Hc).
Qed.

(** What [store] files under [u]. *)
Definition stored_entry (v : env) (u : bytes) (st : Z) (mm buf : option bytes) (len : nat)
    (et lm cc : option bytes) : MiniCacheEntry :=
  let '(ma, _, nc) := mini_httpcache_parse_cc (default [] cc) in
  Entry u st (take 127 (default [] mm)) (Some (take len (default [0] buf))) (Z.of_nat len)
    (take 255 (default [] et)) (take 63 (default [] lm)) (now v) (heuristic_age u ma nc) 0 (Z.b2z nc) 0.

(** What a call of [store] that succeeds is given. *)
Record good_store (v : env) (u : bytes) (st : Z) (mm buf : option bytes) (len : nat) (et lm cc : option bytes) : Prop := {
  gs_url : line_ok u ∧ 0 < Z.of_nat (length u) <= 1017;
  gs_status : 200 <= st < 300;
  gs_cc : snd (fst (mini_httpcache_parse_cc (default [] cc))) = false;
  gs_text : line_ok (default [] mm) ∧ line_ok (default [] et) ∧ line_ok (default [] lm);
  gs_body : Z.of_nat len <= Z.of_nat (length (default [0] buf)) ∧ Z.of_nat len < 2 ^ 63 ∧ malloc_ok v (Z.of_nat len + 1) = true;
  gs_files : writable v (meta_path v u) = true ∧ writable v (bin_path v u) = true;
  gs_now : - 2 ^ 63 <= now v < 2 ^ 63 }.

Lemma stored_savable v u st mm buf len et lm cc : good_store v u st mm buf len et lm cc →
  savable (stored_entry v u st mm buf len et lm cc).
Proof.
  intros [Hu Hs _ (Hm&He&Hl) (Hb&Hlen&_) _ Hnow]. unfold stored_entry.
  pose proof (parse_cc_range (default [] cc)) as Hr.
  destruct (mini_httpcache_parse_cc _) as [[ma ns] nc]. cbn [fst] in Hr.
  split; cbn -[Z.pow]; try done.
  - split; [by apply line_ok_take|]. rewrite length_take. lia.
  - split; [by apply line_ok_take|]. rewrite length_take. lia.
  - split; [by apply line_ok_take|]. rewrite length_take. lia.
  - destruct nc; simpl; lia.
  - split; [done|]. by apply heuristic_age_range.
  - eexists. split; [done|]. rewrite length_take. lia.
Qed.

Lemma store_spec v u st mm buf len et lm cc ex c :
  coherent v c → good_store v u st mm buf len et lm cc →
  (∀ x, x ∈ mem c → url x ≠ u → apart (url x) u) →
  let e := stored_entry v u st mm buf len et lm cc in
  ∃ m, mini_httpcache_store v u st mm buf len et lm cc ex c
       = Ok (Cache m (mini_httpcache_save_to_disk v e (disk c)))
    ∧ coherent v (Cache m (mini_httpcache_save_to_disk v e (disk c)))
    ∧ mini_httpcache_load_from_disk v u (mini_httpcache_save_to_disk v e (disk c)) = Ok (Some e).
Proof.
  intros Hc Hg Hap e. pose proof (stored_savable _ _ _ _ _ _ _ _ _ Hg) as Hs. fold e in Hs.
  destruct Hg as [[_ Hu] Hst Hcc _ (Hb&Hlen&Hm) [Hw1 Hw2] _].
  assert (url e = u ∧ body_len e = Z.of_nat len) as [Eu El].
  { unfold e, stored_entry. by destruct (mini_httpcache_parse_cc _) as [[??]?]. }
  assert (mini_httpcache_load_from_disk v u (mini_httpcache_save_to_disk v e (disk c)) = Ok (Some e)) as Hld.
  { rewrite <- Eu. apply load_save; [done| | |]; by rewrite ?Eu, ?El. }
  assert (∀ e0, url e0 = u → used e0 = 0 →
    let '(ma, _, nc) := mini_httpcache_parse_cc (default [] cc) in
    fill_entry v st mm buf len et lm (heuristic_age u ma nc) nc e0 = Ok e) as Hf.
  { intros e0 E0 U0. unfold e, stored_entry. destruct (mini_httpcache_parse_cc _) as [[ma ns] nc].
    unfold fill_entry. rewrite u64_small, Hm by lia. rewrite bool_decide_eq_false_2 by lia. cbn [andb].
    by rewrite E0, U0. }
  unfold mini_httpcache_store. destruct (decide (u = [])) as [->|_]; [simpl in Hu; lia|].
  destruct (mini_httpcache_parse_cc _) as [[ma ns] nc]. cbn [fst snd] in Hcc. subst ns.
  rewrite decide_False by lia. destruct (find_mem u (mem c)) as [i|] eqn:Ef.
  - apply find_mem_Some in Ef as (e0&Hi&E0). rewrite Hi.
    pose proof (co_disk _ _ Hc e0 ltac:(by eapply list_elem_of_lookup_2)) as Hd.
    rewrite Hf by (done || eapply load_used; done). cbn [res_bind].
    eexists. split; [done|]. split; [|done].
    apply coherent_write; rewrite ?Eu; try done; try apply Hc. by exists e0.
  - set (e0 := set_url (take (Z.to_nat 1023) u) zero_entry).
    assert (url e0 = u) as E0 by (apply take_ge; lia).
    rewrite lookup_app_r, Nat.sub_diag by lia. cbn [lookup list_lookup].
    rewrite Hf by done. cbn [res_bind]. eexists. split; [done|]. split; [|done].
    apply find_mem_None in Ef. destruct (make_room_spec (mem c)) as (k&Ek&Hk).
    apply coherent_write; rewrite ?Eu; try done.
    + exists e0. by rewrite lookup_app_r, Nat.sub_diag by lia.
    + rewrite Ek, fmap_app, fmap_drop. apply NoDup_app. split; [by apply NoDup_drop', (co_nodup _ _ Hc)|].
      split; [|apply NoDup_singleton]. intros x Hx Hx'. apply list_elem_of_singleton in Hx' as ->.
      apply Ef. rewrite <- E0. by eapply subseteq_drop.
    + rewrite length_app. simpl. pose proof (co_len _ _ Hc). lia.
    + intros x [Hx|Hx]%elem_of_app Hne; [|by apply list_elem_of_singleton in Hx as ->].
      rewrite Ek in Hx. by eapply subseteq_drop.
Qed.

(** ** What the cache promises *)

(** C25. The disk is a map from URL to entry and the table is a transparent copy
    of part of it: when the files can be written and no two URLs in play share
    a file name, a 2xx response that is not no-store is what a lookup of its
    URL then answers, with the freshness computed from Cache-Control; every
    other URL answers what it did, whatever was evicted; the table keeps at
    most 512 entries, with distinct URLs, each equal to its files. *)
Theorem httpcache_store_refines v u st mm buf len et lm cc ex c :
  coherent v c → good_store v u st mm buf len et lm cc →
  (∀ x, x ∈ mem c → url x ≠ u → apart (url x) u) →
  ∃ c', mini_httpcache_store v u st mm buf len et lm cc ex c = Ok c' ∧ coherent v c'
    ∧ mini_httpcache_load_from_disk v u (disk c') = Ok (Some (stored_entry v u st mm buf len et lm cc))
    ∧ ∀ u', apart u' u →
        mini_httpcache_load_from_disk v u' (disk c') = mini_httpcache_load_from_disk v u' (disk c).
Proof.
  intros Hc Hg Hap. destruct (store_spec v u st mm buf len et lm cc ex c Hc Hg Hap) as (m&E&Hc'&Hl).
  eexists. split_and!; [exact E|done|done|]. intros u' Hu'. apply load_save_frame.
  unfold stored_entry. by destruct (mini_httpcache_parse_cc _) as [[??]?].
Qed.

Definition demo_u : bytes := str "https://x/y".
Definition demo_c1 : res cache :=
  mini_httpcache_store (env_demo 1000) demo_u 200 (Some (str "text/plain")) (Some (str "hello")) 5
    (Some (str "v1")) None (Some (str "max-age=3600")) None (Cache [] ∅).
Definition demo_c : cache := match demo_c1 with Ok c => c | UB => Cache [] ∅ end.

Lemma demo_coherent : coherent (env_demo 2000) demo_c.
Proof.
  split.
  - vm_compute. apply NoDup_singleton.
  - vm_compute. discriminate.
  - intros e He. assert (e ∈ [hd zero_entry (mem demo_c)]) as He' by exact He.
    apply list_elem_of_singleton in He' as ->. vm_compute. reflexivity.
Defined.

Ltac dec := refine (proj1 (bool_decide_eq_true _) _); vm_compute; reflexivity.

Lemma demo_good t : t = 2000 ∨ t = 3000 →
  good_store (env_demo t) (str "https://x/z") 200 None (Some (str "zz")) 2 None None (Some (str "no-cache")).
Proof.
  intros [-> | ->]; split; dec.
Defined.

Lemma httpcache_store_refines_witness :
  ∃ c', mini_httpcache_store (env_demo 2000) (str "https://x/z") 200 None (Some (str "zz")) 2 None None
          (Some (str "no-cache")) None demo_c = Ok c' ∧ coherent (env_demo 2000) c'
    ∧ mini_httpcache_load_from_disk (env_demo 2000) demo_u (disk c')
      = mini_httpcache_load_from_disk (env_demo 2000) demo_u (disk demo_c).
Proof.
  destruct (httpcache_store_refines (env_demo 2000) (str "https://x/z") 200 None (Some (str "zz")) 2 None None
    (Some (str "no-cache")) None demo_c demo_coherent (demo_good 2000 ltac:(by left))) as (c'&E&Hc&_&Hf).
  { intros x Hx. assert (x ∈ [hd zero_entry (mem demo_c)]) as Hx' by exact Hx.
    apply list_elem_of_singleton in Hx' as ->. intros _. dec. }
  exists c'. split; [exact E|]. split; [exact Hc|]. apply Hf. dec.
Defined.

(** On a coherent cache a lookup answers what the disk holds: [get_any] the
    entry, [get] the entry while it is fresh and otherwise only that it is
    stale; both leave the disk as it is and the cache coherent.  Clearing the
    cache changes no answer.  After an invalidation the URL has no entry and
    the others are untouched. *)
Theorem httpcache_lookup_refines v u c : coherent v c →
  (∀ x, x ∈ mem c → url x ≠ u → apart (url x) u) →
  let look := mini_httpcache_load_from_disk v u (disk c) in
  ((let* (c', r) := mini_httpcache_get_any v u c in Ok r)%c = look
   ∧ ((let* (c', r, stale) := mini_httpcache_get v u c in Ok (r, stale)) =
      (let* r := look in
       match r with
       | None => Ok (None, false)
       | Some e => let* f := fresh v e in Ok (if f : bool then (Some e, false) else (None, true))
       end))%c
   ∧ (∀ c' r s, mini_httpcache_get v u c = Ok (c', r, s) → coherent v c' ∧ disk c' = disk c))
  ∧ (coherent v (mini_httpcache_clear c) ∧ disk (mini_httpcache_clear c) = disk c)
  ∧ let c' := mini_httpcache_invalidate v u c in
    coherent v c' ∧ mini_httpcache_load_from_disk v u (disk c') = Ok None
    ∧ (∀ u', apart u' u → mini_httpcache_load_from_disk v u' (disk c') = mini_httpcache_load_from_disk v u' (disk c)).
Proof.
  intros Hc Hap look. split; [|split].
  - pose proof (find_idx_spec v u c Hc) as Hf. fold look in Hf. unfold mini_httpcache_get_any, mini_httpcache_get.
    destruct look as [r|]; [|by rewrite Hf]. destruct Hf as (c'&i&->&<-&Hc'&Hd). cbn [res_bind].
    split; [done|]. destruct (i ≫= λ i, mem c' !! i) as [e|]; cbn [res_bind].
    + split; [by destruct (fresh v e) as [[]|]|]. intros c'' r s.
      destruct (fresh v e) as [[]|]; cbn [res_bind]; [by intros [= <- _ _]..|done].
    + split; [done|]. by intros c'' r s [= <- _ _].
  - split; [|done]. split; [constructor|vm_compute; discriminate|]. by intros e ?%not_elem_of_nil.
  - split; [|split; [apply load_delete|intros; by apply load_delete_frame]].
    destruct Hc as [Hn Hl Hd]. unfold mini_httpcache_invalidate.
    assert (∀ m', (∀ x, x ∈ m' → x ∈ mem c ∧ url x ≠ u) → NoDup (url <$> m') → Z.of_nat (length m') <= 512 →
      coherent v (Cache m' (mini_httpcache_delete_from_disk v u (disk c)))) as H.
    { intros m' Hx Hn' Hl'. split; [done|done|]. intros e [He Hne]%Hx. simpl.
      rewrite load_delete_frame by (by apply Hap). by apply Hd. }
    destruct (find_mem u (mem c)) as [i|] eqn:Ef.
    + apply find_mem_Some in Ef as (e0&Hi&E0). pose proof (delete_Permutation _ _ _ Hi) as Hp.
      pose proof Hn as Hn2. rewrite Hp in Hn2. cbn [fmap list_fmap] in Hn2. apply NoDup_cons in Hn2 as [Hn1 Hn2].
      apply H; [|done|].
      * intros x Hx. split; [rewrite Hp; by right|]. intros Ex. apply Hn1. apply list_elem_of_fmap.
        exists x. split; [congruence|done].
      * rewrite Hp in Hl. simpl in Hl. lia.
    + apply find_mem_None in Ef. apply H; [|done|done]. intros x Hx. split; [done|].
      intros Ex. apply Ef, list_elem_of_fmap. by exists x.
Qed.

Lemma httpcache_lookup_refines_witness :
  (let* (c', r, stale) := mini_httpcache_get (env_demo 2000) demo_u (mini_httpcache_clear demo_c) in
   Ok (etag <$> r, stale))%c = Ok (Some (str "v1"), false)
  ∧ mini_httpcache_load_from_disk (env_demo 2000) demo_u
      (disk (mini_httpcache_invalidate (env_demo 2000) demo_u demo_c)) = Ok None.
Proof.
  assert (∀ x, x ∈ mem demo_c → url x ≠ demo_u → apart (url x) demo_u) as Hap.
  { intros x Hx. assert (x ∈ [hd zero_entry (mem demo_c)]) as Hx' by exact Hx.
    apply list_elem_of_singleton in Hx' as ->. intros H. destruct (H eq_refl). }
  destruct (httpcache_lookup_refines (env_demo 2000) demo_u demo_c demo_coherent Hap) as (_&[Hc _]&(_&Hi&_)).
  split; [|exact Hi].
  assert (∀ x, x ∈ mem (mini_httpcache_clear demo_c) → url x ≠ demo_u → apart (url x) demo_u) as Hap2
    by (intros x Hx; inversion Hx).
  destruct (httpcache_lookup_refines (env_demo 2000) demo_u _ Hc Hap2) as ((_&Hg&_)&_).
  revert Hg. destruct (mini_httpcache_get _ _ _) as [[[c' r] s]|]; vm_compute; [|discriminate].
  intros [= -> ->]. reflexivity.
Defined.

(** An entry written to the disk is read back exactly, whatever the files
    held before: every field, the body included, for URLs of at most 1017
    bytes, texts without line breaks and numbers in range of their types. *)
Theorem httpcache_disk_roundtrip v e d : savable e →
  writable v (meta_path v (url e)) = true → writable v (bin_path v (url e)) = true →
  malloc_ok v (body_len e + 1) = true →
  mini_httpcache_load_from_disk v (url e) (mini_httpcache_save_to_disk v e d) = Ok (Some e).
Proof. apply load_save. Qed.

Definition demo_e : MiniCacheEntry := Entry (str "u") 206 (str "a/b") (Some [0; 10; 255]) 3 (str "W/1") [] (-5) 7 0 1 0.
Definition demo_d : files := {[ meta_path (env_demo 0) (str "u") := str "URL: x" ]}.

Lemma httpcache_disk_roundtrip_witness :
  mini_httpcache_load_from_disk (env_demo 0) (str "u") (mini_httpcache_save_to_disk (env_demo 0) demo_e demo_d)
  = Ok (Some demo_e).
Proof.
  assert (savable demo_e) as Hs by (split; try dec; by exists [0; 10; 255]).
  exact (httpcache_disk_roundtrip (env_demo 0) demo_e demo_d Hs eq_refl eq_refl eq_refl).
Defined.

(** ** Cache-Control directives *)

Fixpoint split_on (x : Z) (s : bytes) : list bytes :=
  match s with
  | [] => [[]]
  | c :: s => if decide (c = x) then [] :: split_on x s
              else match split_on x s with [] => [[c]] | l :: ls => (c :: l) :: ls end
  end.

(** The first word of a comma-separated part. *)
Definition word_char (c : Z) : bool := negb (bool_decide (c = 44)) && negb (c_isspace c).
Definition first_word (s : bytes) : bytes := let t := skip c_isspace s in fst (scan word_char (length t) t).

Abbreviation sep := (λ c, c_isspace c || bool_decide (c = 44)).
Abbreviation not_comma := (λ c, negb (bool_decide (c = 44))).

Lemma strcaseeq_length a b : strcaseeq a b = true → length a = length b.
Proof. rewrite strcaseeq_true. intros E%(f_equal length). by rewrite !length_map in E. Qed.

(** Leading separators: white space and empty parts match no name. *)
Lemma split_skip p name : name ≠ [] →
  existsb (λ s, strcaseeq (first_word s) name) (split_on 44 p)
  = existsb (λ s, strcaseeq (first_word s) name) (split_on 44 (skip sep p)).
Proof.
  intros Hn. induction p as [|c p IH]; [done|]. cbn [skip].
  destruct (decide (c = 44)) as [->|Hc].
  - rewrite bool_decide_eq_true_2, orb_true_r by done. rewrite <- IH. simpl.
    assert (strcaseeq [] name = false) as E; [|unfold first_word; simpl; by rewrite E].
    apply not_true_is_false. intros E%strcaseeq_length. by destruct name.
  - rewrite (bool_decide_eq_false_2 _ Hc), orb_false_r. destruct (c_isspace c) eqn:Es; [|done].
    rewrite <- IH. simpl. rewrite decide_False by done. destruct (split_on 44 p) as [|l ls] eqn:E.
    { destruct p as [|d p]; simpl in E; [done|]. destruct (decide _); [done|]. by destruct (split_on 44 p). }
    simpl. unfold first_word at 1. simpl. by rewrite Es.
Qed.

Lemma split_part s : split_on 44 s =
  match skip not_comma s with
  | [] => [s]
  | _ :: r => take (length s - length (skip not_comma s)) s :: split_on 44 r
  end.
Proof.
  induction s as [|c s IH]; [done|]. simpl. destruct (decide (c = 44)) as [->|Hc].
  - rewrite bool_decide_eq_true_2 by done. cbn [negb]. by rewrite Nat.sub_diag.
  - rewrite (bool_decide_eq_false_2 _ Hc). cbn [negb]. rewrite IH.
    pose proof (length_skip not_comma s). destruct (skip not_comma s) as [|d r] eqn:E; [done|].
    rewrite Nat.sub_succ_l by done. done.
Qed.

Lemma skip_skip_word p : skip not_comma (snd (scan word_char (length p) p)) = skip not_comma p.
Proof.
  induction p as [|c p IH]; [done|]. simpl. unfold word_char at 1. destruct (bool_decide (c = 44)) eqn:E; simpl.
  - by rewrite E.
  - destruct (c_isspace c); simpl; [by rewrite E|].
    destruct (scan word_char (length p) p) as [t r] eqn:Es. simpl in *. done.
Qed.

Lemma scan_word_take p k : (length p - length (skip not_comma p) = k)%nat →
  fst (scan word_char k (take k p)) = fst (scan word_char (length p) p).
Proof.
  revert k. induction p as [|c p IH]; intros k Hk; [by destruct k|]. simpl in Hk |- *.
  pose proof (length_skip not_comma p).
  unfold word_char at 2. destruct (bool_decide (c = 44)) eqn:E; simpl in Hk |- *.
  - by destruct k; [|lia].
  - destruct k as [|k]; [lia|]. simpl. unfold word_char at 1. rewrite E. simpl.
    destruct (c_isspace c); [done|]. simpl. specialize (IH k ltac:(lia)).
    destruct (scan _ k _), (scan _ (length p) p). simpl in *. by subst.
Qed.

Lemma cc_has_loop_spec fuel p name : name ≠ [] → (length p <= fuel)%nat →
  cc_has_loop fuel p name = existsb (λ s, strcaseeq (first_word s) name) (split_on 44 p).
Proof.
  intros Hn. assert (strcaseeq [] name = false) as E0.
  { apply not_true_is_false. intros E%strcaseeq_length. by destruct name. }
  revert p. induction fuel as [|fuel IH]; intros p Hp.
  { destruct p; [|simpl in Hp; lia]. simpl. unfold first_word. simpl. by rewrite E0. }
  destruct p as [|c p]; [simpl; unfold first_word; simpl; by rewrite E0|].
  rewrite split_skip by done. cbn [cc_has_loop].
  assert (length (skip sep (c :: p)) <= S fuel)%nat as Hq by (pose proof (length_skip sep (c :: p)); lia).
  pose proof (skip_stop sep (c :: p)) as Hs. set (q := skip sep (c :: p)) in *. clearbody q. clear c p Hp.
  change (λ c, negb (bool_decide (c = 44)) && negb (c_isspace c)) with word_char.
  pose proof (skip_skip_word q) as Hk. pose proof (scan_word_take q _ eq_refl) as Ht.
  pose proof (split_part q) as Hsp. pose proof (length_skip not_comma q) as Hlen.
  destruct (scan word_char (length q) q) as [tok r] eqn:Es. cbn [fst snd] in *.
  assert (first_word q = tok ∧ ∀ k, take k q = [] ∨ skip c_isspace (take k q) = take k q) as [Hw Hsk].
  { destruct q as [|d q].
    - injection Es as <- _. split; [done|]. intros k. left. by destruct k.
    - destruct Hs as [|Hs]; [done|]. simpl in Hs. apply orb_false_iff in Hs as [Hs _].
      split; [unfold first_word; simpl; by rewrite Hs, Es|].
      intros [|k]; [by left|]. right. simpl. by rewrite Hs. }
  assert (bool_decide (length tok = length name) && strcaseeq tok name = strcaseeq tok name) as ->.
  { destruct (strcaseeq tok name) eqn:E; [|apply andb_false_r].
    by rewrite bool_decide_eq_true_2 by (by apply strcaseeq_length). }
  rewrite Hk, Hsp. destruct (skip not_comma q) as [|x rest] eqn:Er.
  { simpl. rewrite Hw. destruct (strcaseeq tok name); [done|]. by destruct fuel. }
  cbn [existsb]. assert (first_word (take (length q - length (x :: rest)) q) = tok) as ->.
  { set (k := (length q - length (x :: rest))%nat) in *. unfold first_word. destruct (Hsk k) as [E|E].
    - rewrite E in Ht |- *. simpl. rewrite <- Ht. by destruct k.
    - rewrite E. rewrite length_take, Nat.min_l by lia. exact Ht. }
  destruct (strcaseeq tok name); [done|].
  assert (length (x :: rest) < length q)%nat as Hlt.
  { destruct q as [|d q]; [done|]. destruct Hs as [|Hs]; [done|]. simpl in Hs.
    apply orb_false_iff in Hs as [_ Hs]. simpl in Er. rewrite Hs in Er. simpl in Er.
    rewrite <- Er. pose proof (length_skip not_comma q). simpl. lia. }
  rewrite IH by lia. cbn [orb].
  rewrite split_skip by done. cbn [skip].
  assert (x = 44) as ->.
  { pose proof (skip_stop not_comma q) as [?|H]; [congruence|]. rewrite Er in H. simpl in H.
    apply negb_false_iff, bool_decide_eq_true in H. done. }
  rewrite bool_decide_eq_true_2, orb_true_r by done. by rewrite <- split_skip.
Qed.

(** [cc_has] finds a directive exactly when it is the first word of one of
    the comma-separated parts, case ignored: the scan is the obvious split. *)
Theorem httpcache_cc_has cc name : name ≠ [] →
  cc_has cc name = existsb (λ s, strcaseeq (first_word s) name) (split_on 44 cc).
Proof. intros Hn. unfold cc_has. by apply cc_has_loop_spec. Qed.

Lemma httpcache_cc_has_witness :
  cc_has (str "public , NO-STORE x, max-age=1") (str "no-store") = true ∧ str "no-store" ≠ [].
Proof. split; [rewrite httpcache_cc_has by discriminate; reflexivity|discriminate]. Defined.

(** ** Conditional requests *)

Definition cond_text (e : MiniCacheEntry) : bytes :=
  (if decide (etag e = []) then [] else str "If-None-Match: " ++ etag e ++ [13; 10]) ++
  (if decide (last_modified e = []) then [] else str "If-Modified-Since: " ++ last_modified e ++ [13; 10]).

Lemma snprintf_fits pre rest s : Z.of_nat (length (pre ++ rest)) < 2 ^ 63 → (length s < length rest)%nat →
  snprintf_at (pre ++ rest) (length pre) s
  = Ok (pre ++ s ++ [0] ++ drop (S (length s)) rest, (length pre + length s)%nat).
Proof.
  intros Hb Hs. rewrite length_app in Hb. unfold snprintf_at. rewrite u64_small by (rewrite length_app; lia).
  rewrite decide_False by (rewrite length_app; lia). rewrite (take_ge s) by (rewrite length_app; lia).
  rewrite decide_False by (rewrite !length_app; simpl; lia). rewrite take_app_length.
  do 2 f_equal. rewrite <- app_assoc. do 3 f_equal.
  rewrite length_app, drop_app_ge by (simpl; lia). f_equal. simpl. lia.
Qed.

Lemma snprintf_full out off s : Z.of_nat (length out) < 2 ^ 63 → Z.of_nat off < 2 ^ 62 →
  Z.of_nat (length s) < 2 ^ 62 → (length out <= off + length s)%nat →
  snprintf_at out off s = UB ∨
  ∃ out', snprintf_at out off s = Ok (out', (off + length s)%nat) ∧ length out' = length out.
Proof.
  intros Ho Hof Hs Hl. unfold snprintf_at. destruct (decide (u64 _ = 0)); [right; by eexists|].
  set (t := take _ s ++ [0]). destruct (decide (length out < off + length t)%nat) as [|Hlt]; [by left|].
  right. eexists. split; [done|]. rewrite !length_app, length_take, length_drop. lia.
Qed.

(** One optional header. *)
Definition opt_text (x s : bytes) : bytes := if decide (x = []) then [] else s.
Definition opt_at (x s out : bytes) (off : nat) : res (bytes * nat) :=
  if decide (x = []) then Ok (out, off) else snprintf_at out off s.

Lemma opt_fits x s pre rest : Z.of_nat (length (pre ++ rest)) < 2 ^ 63 →
  (length (opt_text x s) < length rest)%nat → let t := opt_text x s in
  ∃ rest', opt_at x s (pre ++ rest) (length pre) = Ok (pre ++ t ++ rest', (length pre + length t)%nat)
    ∧ length rest' = (length rest - length t)%nat ∧ drop 1 rest' = drop (S (length t)) rest.
Proof.
  unfold opt_at, opt_text. intros Hb Hl. destruct (decide (x = [])).
  - exists rest. simpl. rewrite Nat.add_0_r. split; [done|]. split; [lia|done].
  - rewrite snprintf_fits by done. eexists. split; [done|]. simpl. rewrite length_drop. split; [lia|by rewrite drop_0].
Qed.

Lemma opt_full x s out off : Z.of_nat (length out) < 2 ^ 63 → Z.of_nat off < 2 ^ 62 →
  Z.of_nat (length s) < 2 ^ 62 → (length out <= off + length (opt_text x s))%nat →
  opt_at x s out off = UB ∨
  ∃ out', opt_at x s out off = Ok (out', (off + length (opt_text x s))%nat) ∧ length out' = length out.
Proof.
  unfold opt_at, opt_text. intros Ho Hof Hs Hl. destruct (decide (x = [])); [|by apply snprintf_full].
  right. exists out. by rewrite Nat.add_0_r.
Qed.

Definition inm (e : MiniCacheEntry) : bytes := str "If-None-Match: " ++ etag e ++ [13; 10].
Definition ims (e : MiniCacheEntry) : bytes := str "If-Modified-Since: " ++ last_modified e ++ [13; 10].

Lemma cond_text_empty e : cond_text e = [] ↔ etag e = [] ∧ last_modified e = [].
Proof. unfold cond_text. destruct (decide (etag e = [])), (decide (last_modified e = [])); split; try tauto; done. Qed.

Lemma cond_buffer e out : Z.of_nat (length out) < 2 ^ 63 → Z.of_nat (length (etag e)) <= 255 →
  Z.of_nat (length (last_modified e)) <= 63 →
  (let* (o, off) := opt_at (etag e) (inm e) out 0 in
   let* (o, off) := opt_at (last_modified e) (ims e) o off in
   if decide (length o <= off)%nat then UB else Ok (<[off := 0]> o, off))%c
  = if decide (length (cond_text e) < length out)%nat
    then Ok (cond_text e ++ [0] ++ drop (S (length (cond_text e))) out, length (cond_text e)) else UB.
Proof.
  intros Ho He Hm.
  assert (Z.of_nat (length (inm e)) <= 272 ∧ Z.of_nat (length (ims e)) <= 84) as [L1 L2].
  { unfold inm, ims. rewrite !length_app. cbn [length str map String.list_ascii_of_string]. lia. }
  assert (Z.of_nat (length (opt_text (etag e) (inm e))) <= 272) as L3.
  { unfold opt_text. destruct (decide _); [cbn [length]; lia|exact L1]. }
  change (cond_text e) with (opt_text (etag e) (inm e) ++ opt_text (last_modified e) (ims e)).
  pose proof (opt_fits (etag e) (inm e)) as G1. pose proof (opt_full (etag e) (inm e)) as F1.
  pose proof (opt_fits (last_modified e) (ims e)) as G2. pose proof (opt_full (last_modified e) (ims e)) as F2.
  cbv zeta in G1, G2. rewrite length_app.
  remember (opt_text (etag e) (inm e)) as t1 eqn:Et1. remember (opt_text (last_modified e) (ims e)) as t2 eqn:Et2.
  destruct (decide (length t1 < length out)%nat) as [H1|H1].
  - destruct (G1 [] out Ho H1) as (r1&E1&Hl1&Hd1).
    simpl in E1. rewrite E1. cbn [res_bind].
    destruct (decide (length t2 < length r1)%nat) as [H2|H2].
    + destruct (G2 t1 r1 ltac:(rewrite length_app; lia) H2) as (r2&E2&Hl2&Hd2). rewrite E2. cbn [res_bind].
      rewrite decide_False by (rewrite !length_app; lia). rewrite decide_True by lia. do 2 f_equal.
      destruct r2 as [|z r2]; [simpl in *; lia|]. rewrite (app_assoc t1), <- (length_app t1).
      rewrite insert_app_r_alt, Nat.sub_diag by lia. simpl. f_equal. f_equal.
      simpl in Hd2. rewrite drop_0 in Hd2. rewrite Hd2, length_app. destruct r1 as [|z1 r1]; [simpl in *; lia|].
      simpl in Hd1 |- *. rewrite drop_0 in Hd1. by rewrite Hd1, drop_drop.
    + rewrite (decide_False (P := (length t1 + _ < _)%nat)) by lia.
      destruct (F2 (t1 ++ r1) (length t1)) as [->|(o'&->&El)]; rewrite ?length_app in *; try lia; [done|].
      cbn [res_bind]. by rewrite decide_True by lia.
  - rewrite (decide_False (P := (length t1 + _ < _)%nat)) by lia.
    destruct (F1 out 0%nat) as [->|(o'&->&El)]; try lia; [done|]. cbn [res_bind].
    destruct (F2 o' (0 + length t1)%nat) as [->|(o''&->&El')]; try lia; [done|].
    cbn [res_bind]. by rewrite decide_True by lia.
Qed.

(** The conditional request headers of an entry are written to a buffer of
    [cap] bytes, with their terminator and nothing else changed, exactly when
    they fit with it; otherwise the function writes outside the buffer, for
    [cap - off] wraps around or [out[off]] is past the end.  The value
    returned is the length, or -1 when the entry has no validators. *)
Theorem httpcache_cond_headers v u out c c' i e :
  find_idx v u c = Ok (c', Some i) → mem c' !! i = Some e →
  Z.of_nat (length out) < 2 ^ 63 → Z.of_nat (length (etag e)) <= 255 → Z.of_nat (length (last_modified e)) <= 63 →
  mini_httpcache_conditional_headers v u out c =
    if decide (length (cond_text e) < length out)%nat
    then Ok (c', cond_text e ++ [0] ++ drop (S (length (cond_text e))) out,
             if decide (cond_text e = []) then -1 else Z.of_nat (length (cond_text e)))
    else UB.
Proof.
  intros Hf Hi Ho He Hm. pose proof (cond_buffer e out Ho He Hm) as E. pose proof (cond_text_empty e) as Et.
  unfold mini_httpcache_conditional_headers. rewrite Hf. cbn [res_bind mbind option_bind]. rewrite Hi.
  change (if decide (etag e = []) then _ else _) with (opt_at (etag e) (inm e) out 0).
  destruct (opt_at (etag e) (inm e) out 0) as [[o1 off1]|]; cbn [res_bind] in *.
  2:{ by destruct (decide (length (cond_text e) < length out)%nat). }
  change (if decide (last_modified e = []) then _ else _) with (opt_at (last_modified e) (ims e) o1 off1).
  destruct (opt_at (last_modified e) (ims e) o1 off1) as [[o2 off2]|]; cbn [res_bind] in *.
  2:{ by destruct (decide (length (cond_text e) < length out)%nat). }
  destruct (decide (length o2 <= off2)%nat); destruct (decide (length (cond_text e) < length out)%nat); try done.
  injection E as -> ->. do 2 f_equal. by apply decide_ext.
Qed.

Lemma demo_find : find_idx (env_demo 2000) demo_u demo_c = Ok (demo_c, Some O).
Proof. vm_cast_no_check (eq_refl (Ok (demo_c, Some O))). Qed.
Definition demo_entry : MiniCacheEntry :=
  Entry demo_u 200 (str "text/plain") (Some (str "hello")) 5 (str "v1") [] 1000 3600 0 0 0.
Lemma demo_mem : mem demo_c !! O = Some demo_entry.
Proof. vm_cast_no_check (eq_refl (Some demo_entry)). Qed.

Lemma httpcache_cond_headers_witness :
  mini_httpcache_conditional_headers (env_demo 2000) demo_u (replicate 22 7) demo_c
    = Ok (demo_c, str "If-None-Match: v1" ++ [13; 10; 0; 7; 7], 19)
  ∧ mini_httpcache_conditional_headers (env_demo 2000) demo_u (replicate 19 7) demo_c = UB.
Proof.
  split.
  - rewrite (httpcache_cond_headers (env_demo 2000) demo_u _ demo_c demo_c O demo_entry demo_find demo_mem)
      by (simpl; lia). reflexivity.
  - rewrite (httpcache_cond_headers (env_demo 2000) demo_u _ demo_c demo_c O demo_entry demo_find demo_mem)
      by (simpl; lia). reflexivity.
Defined.

(** ** What the code does that its comments do not say *)

(** A no-store response leaves the entry already in the table, which goes on
    being served. *)
Lemma httpcache_no_store_kept v u st mm buf len et lm cc ex c i :
  u ≠ [] → find_mem u (mem c) = Some i → snd (fst (mini_httpcache_parse_cc (default [] cc))) = true →
  ∃ d, mini_httpcache_store v u st mm buf len et lm cc ex c = Ok (Cache (mem c) d)
    ∧ mini_httpcache_get_any v u (Cache (mem c) d) = Ok (Cache (mem c) d, mem c !! i).
Proof.
  intros Hu Hf Hn. unfold mini_httpcache_store. destruct (decide (u = [])); [done|].
  destruct (mini_httpcache_parse_cc _) as [[ma ns] nc]. simpl in Hn. subst ns. eexists. split; [done|].
  unfold mini_httpcache_get_any, find_idx. cbn [mem]. by rewrite Hf.
Qed.

(** Clearing the cache and looking up: the entry comes back from the disk. *)
Example httpcache_clear_keeps :
  (let* (_, r) := mini_httpcache_get_any (env_demo 2000) demo_u (mini_httpcache_clear demo_c) in
   Ok (body <$> r))%c = Ok (Some (Some (str "hello"))).
Proof. vm_compute. reflexivity. Qed.

(** A negative or unreadable max-age counts as no max-age at all: a day of freshness. *)
Example httpcache_negative_age :
  map (λ s, let '(ma, _, nc) := mini_httpcache_parse_cc (str s) in heuristic_age (str "http://a/b") ma nc)
    ["max-age=-1"; "max-age=x"; "max-age=0"]%string = [86400; 86400; 0].
Proof. vm_compute. reflexivity. Qed.

(** A stored length of -1 makes the loader write the whole body file into a
    buffer of [malloc (0)]. *)
Example httpcache_bad_length :
  let v := Env None (λ _, true) (λ _, true) 0 in
  mini_httpcache_load_from_disk v (str "u")
    (<[meta_path v (str "u") := str "URL: u" ++ [10] ++ str "BODY_LEN: -1" ++ [10]]>
      {[bin_path v (str "u") := str "x"]}) = UB.
Proof. vm_compute. reflexivity. Qed.
