(* ===== verification/Shaping.v ===== *)
(** * Text shaping (src/src/mini_shaping.c)

    Arabic joining forms, the presentation-form table, grapheme clusters and
    the Devanagari reorder.  A text is the list of its code points; the array
    bounds [n] and [j] are the lengths of the lists.  The advances are the
    floats 0, 1 and 2, written as integers. *)

From S2P Require Import Prelude CString.
From stdpp Require Import list.
Open Scope Z_scope.

Inductive MiniJoinType := JT_U | JT_L | JT_R | JT_D | JT_C | JT_T.
#[export] Instance MiniJoinType_eq : EqDecision MiniJoinType.
Proof. solve_decision. Defined.

Inductive form := SHAP_FORM_NONE | SHAP_ISOLATED | SHAP_INITIAL | SHAP_MEDIAL | SHAP_FINAL.
#[export] Instance form_eq : EqDecision form.
Proof. solve_decision. Defined.

Definition JT_AR : bytes :=
  str ("U" ++ "RRRR" ++ "D" ++ "R" ++ "D" ++ "R" ++ "DDDD" ++ "RRRRR" ++ "DDDDDDDDD" ++ "UUUUU" ++ "DDDDDDDRDD").

Definition within (a c b : Z) : bool := bool_decide (a <= c <= b).

Definition mini_join_type (cp : Z) : MiniJoinType :=
  if within 0x0621 cp 0x064A then
    let t := rd JT_AR (Z.to_nat (cp - 0x0621)) in
    if decide (t = 85) then JT_U else if decide (t = 76) then JT_L else if decide (t = 82) then JT_R
    else if decide (t = 68) then JT_D else if decide (t = 67) then JT_C else JT_U
  else if decide (cp = 0x0640) then JT_C
  else if within 0x064B cp 0x065F then JT_T
  else if within 0x0670 cp 0x06FF then JT_D
  else if decide (cp = 0x200D) then JT_T
  else JT_U.

(** The loop of both functions, over the code points in the order it visits them. *)
Fixpoint first_joining (l : list Z) : MiniJoinType :=
  match l with
  | [] => JT_U
  | c :: l => let t := mini_join_type c in if decide (t = JT_T) then first_joining l else t
  end.

Definition skip_transparent_prev (cps : list Z) (i : nat) : MiniJoinType := first_joining (rev (take i cps)).
Definition skip_transparent_next (cps : list Z) (i : nat) : MiniJoinType := first_joining (drop (S i) cps).

(** One turn of the loop. *)
Definition shape_at (cps : list Z) (i : nat) : form :=
  let t := mini_join_type (cps !!! i) in
  if decide (t = JT_T ∨ t = JT_U ∨ t = JT_C) then SHAP_FORM_NONE else
  let pt := skip_transparent_prev cps i in
  let nt := skip_transparent_next cps i in
  let joins_prev := bool_decide (pt = JT_D ∨ pt = JT_L ∨ pt = JT_C) in
  let joins_next := bool_decide (t = JT_D ∨ t = JT_L) &&
                    bool_decide (nt = JT_D ∨ nt = JT_R ∨ nt = JT_L ∨ nt = JT_C) in
  if joins_prev && joins_next then SHAP_MEDIAL
  else if joins_prev && negb joins_next then SHAP_FINAL
  else if negb joins_prev && joins_next then SHAP_INITIAL
  else SHAP_ISOLATED.

Definition mini_shape_arabic (cps : list Z) : list form := map (shape_at cps) (seq 0 (length cps)).

(** ** Presentation forms *)

Record ArabForm := Arab { base : Z; iso : Z; dual : bool }.

Definition AF : list ArabForm := map (λ '(b, i, d), Arab b i (bool_decide (d = 1)))
  [(0x0621,0xFE80,0);(0x0622,0xFE81,0);(0x0623,0xFE83,0);(0x0624,0xFE85,0);
   (0x0625,0xFE87,0);(0x0626,0xFE89,1);(0x0627,0xFE8D,0);(0x0628,0xFE8F,1);
   (0x0629,0xFE93,0);(0x062A,0xFE95,1);(0x062B,0xFE99,1);(0x062C,0xFE9D,1);
   (0x062D,0xFEA1,1);(0x062E,0xFEA5,0);(0x062F,0xFEA7,0);(0x0630,0xFEA9,0);
   (0x0631,0xFEAB,0);(0x0632,0xFEAD,1);(0x0633,0xFEAF,1);(0x0634,0xFEB1,1);
   (0x0635,0xFEB5,1);(0x0636,0xFEB9,1);(0x0637,0xFEBD,1);(0x0638,0xFEC1,1);
   (0x0639,0xFEC5,1);(0x063A,0xFEC9,1);(0x0641,0xFECD,1);(0x0642,0xFED1,1);
   (0x0643,0xFED5,1);(0x0644,0xFED9,1);(0x0645,0xFEDD,1);(0x0646,0xFEE1,1);
   (0x0647,0xFEE5,1);(0x0648,0xFEE9,0);(0x0649,0xFEED,1);(0x064A,0xFEEF,1)].

(** The glyph of an entry of the table. *)
Definition arab_glyph (a : ArabForm) (f : form) : Z :=
  if dual a then
    match f with
    | SHAP_ISOLATED => iso a
    | SHAP_FINAL => iso a + 1
    | SHAP_INITIAL => iso a + 2
    | SHAP_MEDIAL => iso a + 3
    | SHAP_FORM_NONE => iso a
    end
  else match f with SHAP_FINAL => iso a + 1 | _ => iso a end.

Definition mini_arabic_presentation (b : Z) (f : form) : Z :=
  match list_find (λ a, base a = b) AF with
  | Some (_, a) => arab_glyph a f
  | None => b
  end.

(** ** Clusters *)

Definition is_emoji_base (cp : Z) : bool :=
  within 0x1F300 cp 0x1FAFF || within 0x2600 cp 0x27BF ||
  bool_decide (cp ∈ [0x231A; 0x231B; 0x23E9; 0x23EA; 0x23F0; 0x23F3; 0x25FB; 0x25FC; 0x2B05; 0x2B06; 0x2B07]).

Definition is_combining_mark (cp : Z) : bool :=
  within 0x0300 cp 0x036F || within 0x064B cp 0x065F || within 0x0900 cp 0x094F ||
  within 0xFE20 cp 0xFE2F || bool_decide (cp = 0x0670 ∨ cp = 0x200C).

(** The three arrays, [cluster] and [prev_was_zwj]. *)
Record cl_state := ClState { cp : list Z; mul : list Z; cl : list Z; cluster : Z; prev_was_zwj : bool }.

(** [j > 0 ? cl[j-1] : 0] *)
Definition last_cluster (l : list Z) : Z := default 0 (last l).

Definition cluster_step (s : cl_state) (c : Z) : cl_state :=
  if decide (c = 0x200D) then
    ClState (cp s ++ [c]) (mul s ++ [0]) (cl s ++ [last_cluster (cl s)]) (cluster s) true
  else if decide (c = 0xFE0F ∨ c = 0xFE0E ∨ is_combining_mark c = true) then
    ClState (cp s ++ [c]) (mul s ++ [0]) (cl s ++ [last_cluster (cl s)]) (cluster s) false
  else
    let k := if prev_was_zwj s then cluster s else cluster s + 1 in
    ClState (cp s ++ [c]) (mul s ++ [if is_emoji_base c then 2 else 1]) (cl s ++ [k]) k false.

(** The swap at [i]. *)
Definition matra_step (cp : list Z) (i : nat) : list Z :=
  let a := rd cp (i - 1) in
  if decide (rd cp i = 0x093F ∧ 0x0915 <= a <= 0x0939)
  then <[(i - 1)%nat := rd cp i]> (<[i := a]> cp) else cp.

Definition matra_loop (cp : list Z) : list Z := foldl matra_step cp (seq 1 (length cp - 1)).

(** [m1], [m2] and [m3] say whether the allocations succeed; [None] is the
    return of 0 that leaves the arguments alone. *)
Definition mini_shape_cluster (m1 m2 m3 : bool) (cps : list Z) : option (list Z * list Z * list Z) :=
  if negb (m1 && m2 && m3) then None else
  let s := foldl cluster_step (ClState [] [] [] (-1) false) cps in
  Some (matra_loop (cp s), mul s, cl s).

Example shaping_selftest :
  (mini_shape_arabic [0x628; 0x628; 0x64B; 0x628], mini_shape_arabic [0x627; 0x628],
   mini_arabic_presentation 0x628 SHAP_MEDIAL, mini_shape_cluster true true true [0x1F600; 0x200D; 0x1F600; 65])
  = ([SHAP_INITIAL; SHAP_MEDIAL; SHAP_FORM_NONE; SHAP_FINAL], [SHAP_ISOLATED; SHAP_ISOLATED],
     0xFE92, Some ([0x1F600; 0x200D; 0x1F600; 65], [2; 0; 2; 1], [0; 0; 0; 1])).
Proof. vm_compute. reflexivity. Qed.

(** ** Joining *)

(** No code point is left-joining or join-causing: the tatweel is in the table. *)
Lemma join_type_cases c : let t := mini_join_type c in t = JT_U ∨ t = JT_R ∨ t = JT_D ∨ t = JT_T.
Proof.
  cbv zeta. unfold mini_join_type. destruct (within 0x621 c 0x64A) eqn:E.
  - apply bool_decide_eq_true in E.
    assert (Forall (λ t, t = 85 ∨ t = 82 ∨ t = 68) JT_AR) as HF.
    { refine (bool_decide_eq_true_1 _ _). vm_compute. reflexivity. }
    destruct (lookup_lt_is_Some_2 JT_AR (Z.to_nat (c - 0x621))) as [t Ht].
    { change (length JT_AR) with 42%nat. lia. }
    unfold rd. rewrite (list_lookup_total_correct _ _ _ Ht).
    rewrite Forall_lookup in HF. destruct (HF _ _ Ht) as [->|[->| ->]]; cbn; auto.
  - destruct (decide (c = 0x640)) as [->|]; [by vm_compute in E|]. clear E.
    destruct (within _ _ _); [auto|]. destruct (within _ _ _); [auto|]. destruct (decide _); auto.
Qed.

(** [x] joins the [y] that follows it. *)
Definition connects (x y : Z) : Prop :=
  mini_join_type x = JT_D ∧ (mini_join_type y = JT_D ∨ mini_join_type y = JT_R).
#[export] Instance connects_dec x y : Decision (connects x y).
Proof. unfold connects. apply _. Defined.

Abbreviation transparent := (λ c, mini_join_type c = JT_T).

Lemma first_joining_app m x r : Forall transparent m → mini_join_type x ≠ JT_T →
  first_joining (m ++ x :: r) = mini_join_type x.
Proof.
  induction 1 as [|c m Hc _ IH]; intros Hx; simpl; [by rewrite decide_False|].
  rewrite Hc, decide_True by done. by apply IH.
Qed.

(** The next letter joins backwards, given its type. *)
Definition to_next (t nt : MiniJoinType) : Prop := t = JT_D ∧ (nt = JT_D ∨ nt = JT_R).
#[export] Instance to_next_dec t nt : Decision (to_next t nt).
Proof. unfold to_next. apply _. Defined.

Definition letter (t : MiniJoinType) : Prop := t = JT_D ∨ t = JT_R.
#[export] Instance letter_dec t : Decision (letter t).
Proof. unfold letter. apply _. Defined.

Lemma first_joining_cases l : let t := first_joining l in t = JT_U ∨ t = JT_R ∨ t = JT_D.
Proof.
  cbv zeta. induction l as [|c l IH]; simpl; [auto|]. destruct (decide _) as [|H]; [done|].
  destruct (join_type_cases c) as [E|[E|[E|E]]]; rewrite E in *; auto. done.
Qed.

(** The form of a letter: whether it is joined before and after. *)
Lemma shape_at_spec cps i : let t := mini_join_type (cps !!! i) in
  let p := skip_transparent_prev cps i in let n := skip_transparent_next cps i in
  shape_at cps i =
    if decide (letter t) then
      if decide (to_next p t) then if decide (to_next t n) then SHAP_MEDIAL else SHAP_FINAL
      else if decide (to_next t n) then SHAP_INITIAL else SHAP_ISOLATED
    else SHAP_FORM_NONE.
Proof.
  intros t p n. unfold shape_at. fold t. fold p. fold n.
  pose proof (join_type_cases (cps !!! i)) as Ht. fold t in Ht.
  pose proof (first_joining_cases (rev (take i cps))) as Hp. fold (skip_transparent_prev cps i) in Hp. fold p in Hp.
  pose proof (first_joining_cases (drop (S i) cps)) as Hn. fold (skip_transparent_next cps i) in Hn. fold n in Hn.
  clearbody t p n. clear cps i.
  destruct Ht as [->|[->|[->| ->]]], Hp as [->|[->| ->]], Hn as [->|[->| ->]]; reflexivity.
Qed.

Lemma length_shape cps : length (mini_shape_arabic cps) = length cps.
Proof. unfold mini_shape_arabic. by rewrite length_map, length_seq. Qed.

Lemma lookup_shape cps i : (i < length cps)%nat → mini_shape_arabic cps !! i = Some (shape_at cps i).
Proof.
  intros Hi. unfold mini_shape_arabic. rewrite (list_lookup_fmap (shape_at cps) (seq 0 (length cps))).
  by rewrite lookup_seq_lt by done.
Qed.

Lemma shape_pair a x m y b : Forall transparent m →
  mini_join_type x ≠ JT_T → mini_join_type y ≠ JT_T →
  let cps := a ++ x :: m ++ y :: b in
  let i := length a in let j := (length a + S (length m))%nat in
  cps !!! i = x ∧ cps !!! j = y
  ∧ skip_transparent_next cps i = mini_join_type y ∧ skip_transparent_prev cps j = mini_join_type x.
Proof.
  intros Hm Hx Hy cps i j. split_and!.
  - apply list_lookup_total_correct. unfold cps, i. by rewrite lookup_app_r, Nat.sub_diag by lia.
  - apply list_lookup_total_correct. unfold cps, j. rewrite lookup_app_r by lia.
    replace (length a + S (length m) - length a)%nat with (S (length m)) by lia. simpl.
    by rewrite lookup_app_r, Nat.sub_diag by lia.
  - unfold skip_transparent_next, cps, i. replace (S (length a)) with (length (a ++ [x])) by (rewrite length_app; simpl; lia).
    change (x :: m ++ y :: b) with ([x] ++ m ++ y :: b). rewrite (app_assoc a [x]), drop_app_length.
    by apply first_joining_app.
  - unfold skip_transparent_prev, cps, j.
    assert (a ++ x :: m ++ y :: b = (a ++ x :: m) ++ y :: b) as -> by (by rewrite <- app_assoc).
    replace (length a + S (length m))%nat with (length (a ++ x :: m)) by (rewrite length_app; simpl; lia).
    rewrite take_app_length. rewrite rev_app_distr. simpl. rewrite <- app_assoc. simpl.
    apply first_joining_app; [by apply Forall_rev|done].
Qed.

(** Cursive connection is symmetric: for two characters with only
    transparent marks between them, the first takes a form that joins forwards
    exactly when the second takes a form that joins backwards, and this is so
    exactly when the first is dual-joining and the second dual- or
    right-joining. *)
Theorem shaping_joins a x m y b : Forall transparent m →
  mini_join_type x ≠ JT_T → mini_join_type y ≠ JT_T →
  let forms := mini_shape_arabic (a ++ x :: m ++ y :: b) in
  ∃ f g, forms !! length a = Some f ∧ forms !! (length a + S (length m))%nat = Some g
    ∧ ((f = SHAP_INITIAL ∨ f = SHAP_MEDIAL) ↔ connects x y)
    ∧ ((g = SHAP_FINAL ∨ g = SHAP_MEDIAL) ↔ connects x y).
Proof.
  intros Hm Hx Hy forms. destruct (shape_pair a x m y b Hm Hx Hy) as (Ei&Ej&En&Ep).
  eexists _, _. unfold forms.
  rewrite !lookup_shape by (rewrite length_app; simpl; rewrite length_app; simpl; lia).
  split; [done|]. split; [done|]. rewrite !shape_at_spec. cbv zeta. rewrite Ei, Ej, En, Ep.
  unfold connects, to_next, letter. generalize (skip_transparent_prev (a ++ x :: m ++ y :: b) (length a)).
  generalize (skip_transparent_next (a ++ x :: m ++ y :: b) (length a + S (length m))). intros n p.
  split; repeat match goal with |- context [decide ?P] => destruct (decide P) end; intuition congruence.
Qed.

Lemma shaping_joins_witness :
  ∃ f g, mini_shape_arabic [0x628; 0x64B; 0x627; 65] !! 0%nat = Some f
    ∧ mini_shape_arabic [0x628; 0x64B; 0x627; 65] !! 2%nat = Some g
    ∧ ((f = SHAP_INITIAL ∨ f = SHAP_MEDIAL) ↔ (g = SHAP_FINAL ∨ g = SHAP_MEDIAL)).
Proof.
  destruct (shaping_joins [] 0x628 [0x64B] 0x627 [65]) as (f&g&Hf&Hg&H1&H2);
    [repeat constructor|discriminate|discriminate|].
  exists f, g. split; [exact Hf|]. split; [exact Hg|]. exact (iff_trans H1 (iff_sym H2)).
Defined.

(** ** Presentation forms *)

(** C39. The shaped text is well typed: there is one form per code point; a
    right-joining letter is only ever isolated or final, a character that does
    not join has no form; and the glyph of a code point in its form is the
    code point itself or one of Arabic Presentation Forms-B. *)
Theorem shaping_forms cps :
  length (mini_shape_arabic cps) = length cps ∧
  ∀ i c, cps !! i = Some c → ∃ f, mini_shape_arabic cps !! i = Some f
    ∧ match mini_join_type c with
      | JT_D => f ≠ SHAP_FORM_NONE
      | JT_R => f = SHAP_ISOLATED ∨ f = SHAP_FINAL
      | _ => f = SHAP_FORM_NONE
      end
    ∧ (let g := mini_arabic_presentation c f in g = c ∨ 0xFE80 <= g <= 0xFEF2).
Proof.
  split; [apply length_shape|]. intros i c Hi. exists (shape_at cps i).
  assert (cps !!! i = c) as Ec by (by apply list_lookup_total_correct).
  split; [apply lookup_shape; by apply lookup_lt_Some in Hi|]. split.
  - rewrite shape_at_spec. cbv zeta. rewrite Ec. unfold letter, to_next.
    destruct (join_type_cases c) as [->|[->|[->| ->]]]; repeat case_decide; intuition congruence.
  - unfold mini_arabic_presentation. destruct (list_find _ AF) as [[k a]|] eqn:E; [|by left]. right.
    apply list_find_Some in E as (Ha&_&_).
    assert (Forall (λ a, 0xFE80 <= iso a ∧ iso a + 3 <= 0xFEF2) AF) as HF.
    { refine (bool_decide_eq_true_1 _ _). vm_compute. reflexivity. }
    rewrite Forall_lookup in HF. specialize (HF _ _ Ha). unfold arab_glyph.
    destruct (dual a), (shape_at cps i); lia.
Qed.

(** The table is wrong from khah on: the four forms of zain and of seen overlap. *)
Lemma arabic_forms_overlap :
  mini_arabic_presentation 0x632 SHAP_INITIAL = mini_arabic_presentation 0x633 SHAP_ISOLATED
  ∧ mini_join_type 0x62E = JT_R ∧ mini_join_type 0x640 = JT_U.
Proof. vm_compute. auto. Qed.

(** ** The Devanagari reorder *)

Definition preposed (a b : Z) : Prop := b = 0x093F ∧ 0x0915 <= a <= 0x0939.
#[export] Instance preposed_dec a b : Decision (preposed a b).
Proof. unfold preposed. apply _. Defined.

(** One pass that carries the character [a] along. *)
Fixpoint reorder (a : Z) (l : list Z) : list Z :=
  match l with
  | [] => [a]
  | b :: l => if decide (preposed a b) then b :: reorder a l else a :: reorder b l
  end.

Lemma rd_app_here pre a l : rd (pre ++ a :: l) (length pre) = a.
Proof. unfold rd. apply list_lookup_total_correct. by rewrite lookup_app_r, Nat.sub_diag by lia. Qed.

Lemma matra_foldl l pre a :
  foldl matra_step (pre ++ a :: l) (seq (S (length pre)) (length l)) = pre ++ reorder a l.
Proof.
  revert pre a. induction l as [|b l IH]; intros pre a; [done|]. cbn [length seq foldl].
  assert (pre ++ a :: b :: l = (pre ++ [a]) ++ b :: l) as E by (by rewrite <- app_assoc).
  assert (S (length pre) = length (pre ++ [a])) as El by (rewrite length_app; simpl; lia).
  assert (rd (pre ++ a :: b :: l) (S (length pre)) = b) as Eb by (rewrite E, El; apply rd_app_here).
  unfold matra_step at 2. rewrite Eb. replace (S (length pre) - 1)%nat with (length pre) by lia.
  rewrite rd_app_here. cbn [reorder].
  destruct (decide (b = 0x093F ∧ 0x0915 <= a <= 0x0939)) as [Hp|Hp].
  - rewrite (decide_True (P := preposed a b)) by done.
    rewrite E, El, insert_app_r_alt, Nat.sub_diag by lia. cbn [list_insert insert].
    rewrite <- app_assoc. rewrite insert_app_r_alt, Nat.sub_diag by lia. cbn [list_insert insert app].
    specialize (IH (pre ++ [b]) a). rewrite <- app_assoc, length_app, Nat.add_1_r in IH.
    rewrite length_app, Nat.add_1_r. cbn [app] in IH. rewrite IH. by rewrite <- app_assoc.
  - rewrite (decide_False (P := preposed a b)) by done. rewrite E, El.
    specialize (IH (pre ++ [a]) b). rewrite IH. by rewrite <- app_assoc.
Qed.

Lemma matra_loop_spec a l : matra_loop (a :: l) = reorder a l.
Proof. unfold matra_loop. cbn [length]. rewrite Nat.sub_succ, Nat.sub_0_r. apply (matra_foldl l [] a). Qed.

Lemma reorder_perm a l : reorder a l ≡ₚ a :: l.
Proof.
  revert a. induction l as [|b l IH]; intros a; [done|]. simpl. destruct (decide _); rewrite IH; [apply perm_swap|done].
Qed.

(** ** Clusters *)

Definition extends (c : Z) : bool :=
  bool_decide (c = 0x200D ∨ c = 0xFE0F ∨ c = 0xFE0E) || is_combining_mark c.
Definition advance (c : Z) : Z := if extends c then 0 else if is_emoji_base c then 2 else 1.
(** [c] after [p] begins a new grapheme. *)
Definition starts_new (p c : Z) : bool := negb (extends c) && bool_decide (p ≠ 0x200D).

Lemma cluster_step_spec s c :
  cluster_step s c =
    let k := if extends c then last_cluster (cl s) else if prev_was_zwj s then cluster s else cluster s + 1 in
    ClState (cp s ++ [c]) (mul s ++ [advance c]) (cl s ++ [k]) (if extends c then cluster s else k)
      (bool_decide (c = 0x200D)).
Proof.
  unfold cluster_step, advance, extends. destruct (decide (c = 0x200D)) as [->|H1]; [done|].
  rewrite (bool_decide_eq_false_2 (c = 0x200D)) by done.
  destruct (decide (c = 0xFE0F ∨ c = 0xFE0E ∨ is_combining_mark c = true)) as [H|H].
  - assert (bool_decide (c = 8205 ∨ c = 65039 ∨ c = 65038) || is_combining_mark c = true) as ->; [|done].
    apply orb_true_iff. destruct H as [H|[H|H]]; [left|left|by right]; apply bool_decide_eq_true; auto.
  - rewrite (bool_decide_eq_false_2 (c = 8205 ∨ _)) by tauto.
    destruct (is_combining_mark c); [by destruct H; auto|]. done.
Qed.

(** The clusters of [l] after the character [p] of cluster [k]. *)
Fixpoint clusters (p k : Z) (l : list Z) : list Z :=
  match l with
  | [] => []
  | c :: l => let k := if starts_new p c then k + 1 else k in k :: clusters c k l
  end.

Lemma cluster_foldl l s p : last_cluster (cl s) = cluster s → prev_was_zwj s = bool_decide (p = 0x200D) →
  let r := foldl cluster_step s l in
  cp r = cp s ++ l ∧ mul r = mul s ++ map advance l ∧ cl r = cl s ++ clusters p (cluster s) l.
Proof.
  revert s p. induction l as [|c l IH]; intros s p Hc Hz; cbn [foldl]; [by rewrite !app_nil_r|].
  rewrite cluster_step_spec. cbv zeta.
  match goal with |- context [foldl _ ?s' l] => specialize (IH s' c) end. cbn [cl cluster prev_was_zwj cp mul] in IH.
  assert ((if starts_new p c then cluster s + 1 else cluster s)
    = (if extends c then last_cluster (cl s) else if prev_was_zwj s then cluster s else cluster s + 1)) as Ek.
  { unfold starts_new. rewrite Hc, Hz. destruct (extends c); [done|].
    destruct (decide (p = 0x200D)); [rewrite bool_decide_eq_false_2, bool_decide_eq_true_2 by tauto
      |rewrite bool_decide_eq_true_2, bool_decide_eq_false_2 by tauto]; done. }
  destruct IH as (I1&I2&I3); [|done|].
  { unfold last_cluster at 1. rewrite last_snoc. simpl. destruct (extends c); done. }
  cbv zeta in I1, I2, I3. rewrite I1, I2, I3, <- !app_assoc. split_and!; [done|done|].
  cbn [app]. f_equal. simpl. rewrite Ek. f_equal. destruct (extends c); [by rewrite Hc|done].
Qed.

(** For a text that starts with a base character, clustering returns, when
    its memory can be had, as many glyphs as characters: the glyphs are the
    text with each short-i matra carried before the consonant it follows, a
    permutation of it; the advance is 0 for joiners, selectors and marks, 2
    for emoji and 1 otherwise; and the cluster numbers start at 0 and go up by
    one exactly at a base character that no joiner precedes. *)
Theorem shaping_cluster a l : extends a = false →
  mini_shape_cluster true true true (a :: l)
    = Some (reorder a l, map advance (a :: l), 0 :: clusters a 0 l)
  ∧ reorder a l ≡ₚ a :: l
  ∧ (∀ m1 m2 m3, m1 && m2 && m3 = false → mini_shape_cluster m1 m2 m3 (a :: l) = None).
Proof.
  intros Ha. split; [|split; [apply reorder_perm|intros m1 m2 m3 Hm; unfold mini_shape_cluster; by rewrite Hm]].
  unfold mini_shape_cluster. cbn [andb negb foldl]. rewrite cluster_step_spec, Ha. cbn [prev_was_zwj cluster cl].
  match goal with |- context [foldl cluster_step ?s l] =>
    destruct (cluster_foldl l s a) as (H1&H2&H3); [done|done|]; set (r := foldl cluster_step s l) in * end.
  cbv zeta in H1, H2, H3. cbn [cl cluster cp mul] in H1, H2, H3. clearbody r. cbv zeta.
  rewrite H1, H2, H3. cbn [app]. by rewrite matra_loop_spec.
Qed.

Lemma shaping_cluster_witness :
  mini_shape_cluster true true true [0x1F468; 0x200D; 0x1F469; 65; 0x301]
    = Some ([0x1F468; 0x200D; 0x1F469; 65; 0x301], [2; 0; 2; 1; 0], [0; 0; 0; 1; 1])
  ∧ extends 0x1F468 = false.
Proof.
  split; [|reflexivity].
  destruct (shaping_cluster 0x1F468 [0x200D; 0x1F469; 65; 0x301] eq_refl) as [H _]. exact H.
Defined.

(** A leading joiner puts the next base in cluster -1; and Devanagari
    consonants count as marks, so a word of them is one cluster of width 0. *)
Example shaping_cluster_oddities :
  map (λ l, snd <$> mini_shape_cluster true true true l) [[0x200D; 65]] = [Some [0; -1]]
  ∧ mini_shape_cluster true true true [0x0915; 0x093F; 0x0924] = Some ([0x093F; 0x0915; 0x0924], [0; 0; 0], [0; 0; 0]).
Proof. vm_compute. auto. Qed.
