(* ===== verification/Worker.v ===== *)
(** * Worker pool (src/src/mini_worker.c)

    The queue shared by the main thread and the workers, as a state machine: a
    section under the mutex is one step, and the schedule is a list of
    actions.  Outcomes of allocations, files and [mini_net_fetch] are part of
    the actions.  A JavaScript value handed to a callback is described by
    what it is built from. *)

From S2P Require Import Prelude CString.
From stdpp Require Import list.
Open Scope Z_scope.

Inductive MWKind := MW_FS_READ | MW_FS_WRITE | MW_FETCH.
#[export] Instance MWKind_eq : EqDecision MWKind.
Proof. solve_decision. Defined.

(** A callback: which value it is, and whether it is a function. *)
Record JSValue := Cb { cb_id : nat; is_function : bool }.

Record MiniWorkerTask := Task {
  t_kind : MWKind; path : option bytes; data : option bytes; method : option bytes; t_url : option bytes;
  t_body : option bytes; page_origin : option bytes; extra_headers : option bytes; t_cb : JSValue }.

Record MiniWorkerResult := Result {
  kind : MWKind; cb : JSValue; buf : option bytes; len : nat; err : bool; status : Z; mime : bytes }.

(** What the outside world answers to one task: the contents of the file when
    it opens for reading, whether it opens for writing, whether [malloc]
    succeeds, and the record [mini_net_fetch] fills. *)
Record io := Io {
  file : option bytes; opens : bool; malloc_ok : bool;
  fetch_rc : Z; fetch_status : Z; fetch_body : option bytes; fetch_mime : bytes }.

(** The result, and what is written to the file. *)
Definition worker_do (w : io) (t : MiniWorkerTask) : MiniWorkerResult * option bytes :=
  let r b n e st m := Result (t_kind t) (t_cb t) b n e st m in
  match t_kind t with
  | MW_FS_READ =>
    match file w with
    | None => (r None O true 0 [], None)
    | Some c => if malloc_ok w then (r (Some c) (length c) false 0 [], None) else (r None O true 0 [], None)
    end
  | MW_FS_WRITE =>
    if opens w then (r None O false 0 [], Some (default [] (data t))) else (r None O true 0 [], None)
  | MW_FETCH =>
    match fetch_body w with
    | Some b => if decide (fetch_rc w = 0)
                then (r (Some b) (length b) false (fetch_status w) (take 127 (fetch_mime w)), None)
                else (r None O true (fetch_status w) [], None)
    | None => (r None O true (fetch_status w) [], None)
    end
  end.

(** The arguments of the callback. *)
Inductive js := JS_UNDEFINED | JS_NULL | JS_Error | JS_String (b : bytes)
  | JS_Response (body : bytes) (status : Z) (mime : bytes).

Definition callback_args (r : MiniWorkerResult) : js * js :=
  if err r then (JS_Error, JS_UNDEFINED) else
  (JS_NULL, match kind r with
            | MW_FS_READ => JS_String (default [] (buf r))
            | MW_FS_WRITE => JS_UNDEFINED
            | MW_FETCH => JS_Response (default [] (buf r)) (status r) (mime r)
            end).

(** ** The queue *)

(** A worker between two critical sections. *)
Inductive thread := Waiting | Holding (t : MiniWorkerTask) | Finished (r : MiniWorkerResult) | Exited.

Inductive cb_event :=
| Fired (c : JSValue) (args : js * js)    (* called if it is a function, then freed *)
| Freed (c : JSValue)                     (* freed without a call *)
| Lost (c : JSValue).                     (* no longer referenced, not freed *)

Record MiniWorkerQueue := Queue {
  pending : list MiniWorkerTask; pend_cap : nat; ready : list MiniWorkerResult; ready_cap : nat;
  threads : list thread; shutdown : bool;
  batch : list MiniWorkerResult;          (* what the running [mini_worker_pump] has yet to call *)
  events : list cb_event }.

Definition set_pending p k q := Queue p k (ready q) (ready_cap q) (threads q) (shutdown q) (batch q) (events q).
Definition set_ready r k q := Queue (pending q) (pend_cap q) r k (threads q) (shutdown q) (batch q) (events q).
Definition set_thread i s q :=
  Queue (pending q) (pend_cap q) (ready q) (ready_cap q) (<[i := s]> (threads q)) (shutdown q) (batch q) (events q).
Definition set_batch b q := Queue (pending q) (pend_cap q) (ready q) (ready_cap q) (threads q) (shutdown q) b (events q).
Definition emit e q :=
  Queue (pending q) (pend_cap q) (ready q) (ready_cap q) (threads q) (shutdown q) (batch q) (events q ++ [e]).

(** Capacity after the growth step; [ok] says whether [realloc] succeeds. *)
Definition grow (ok : bool) (n cap : nat) : nat :=
  if decide (cap <= n)%nat then (if ok then (if decide (cap = 0)%nat then 16 else cap * 2) else cap)%nat else cap.

(** [n_threads] clamped; [up i] says whether thread [i] starts, [a1] and [a2]
    whether the allocations succeed. *)
Definition mini_worker_init (a1 a2 : bool) (up : nat → bool) (n_threads : Z) : res (option MiniWorkerQueue) :=
  let n := if decide (n_threads < 1) then 1 else n_threads in
  let n := if decide (8 < n) then 8 else n in
  if negb a1 then Ok None else
  if negb a2 then UB else
  Ok (Some (Queue [] 0 [] 0 (map (λ i, if up i then Waiting else Exited) (seq 0 (Z.to_nat n))) false [] [])).

Definition mini_worker_submit (m ok : bool) (t : MiniWorkerTask) (q : MiniWorkerQueue) : MiniWorkerQueue :=
  if negb m then emit (Lost (t_cb t)) q else
  let cap := grow ok (length (pending q)) (pend_cap q) in
  if decide (length (pending q) < cap)%nat
  then set_pending (pending q ++ [t]) cap q
  else emit (Freed (t_cb t)) (set_pending (pending q) cap q).

(** The first critical section of [worker_main]: [None] while the worker waits. *)
Definition worker_take (i : nat) (q : MiniWorkerQueue) : option MiniWorkerQueue :=
  match threads q !! i, last (pending q) with
  | Some Waiting, Some t => Some (set_thread i (Holding t) (set_pending (removelast (pending q)) (pend_cap q) q))
  | Some Waiting, None => if shutdown q then Some (set_thread i Exited q) else None
  | _, _ => None
  end.

(** From there to the second: [a] is the [calloc]. *)
Definition worker_work (i : nat) (a : bool) (w : io) (q : MiniWorkerQueue) : option MiniWorkerQueue :=
  match threads q !! i with
  | Some (Holding t) =>
    Some (if a then set_thread i (Finished (fst (worker_do w t))) q
          else emit (Lost (t_cb t)) (set_thread i Waiting q))
  | _ => None
  end.

(** The second critical section. *)
Definition worker_push (i : nat) (ok : bool) (q : MiniWorkerQueue) : option MiniWorkerQueue :=
  match threads q !! i with
  | Some (Finished r) =>
    let cap := grow ok (length (ready q)) (ready_cap q) in
    let q := set_thread i Waiting q in
    Some (if decide (length (ready q) < cap)%nat
          then set_ready (ready q ++ [r]) cap q
          else emit (Freed (cb r)) (set_ready (ready q) cap q))
  | _ => None
  end.

(** [mini_worker_pump]: the section under the lock ([m] is the [malloc]), *)
Definition pump_take (m : bool) (q : MiniWorkerQueue) : MiniWorkerQueue :=
  if decide (0 < length (ready q))%nat
  then if m then set_ready [] (ready_cap q) (set_batch (ready q) q) else q
  else q.

(** and one turn of its loop. *)
Definition pump_fire (q : MiniWorkerQueue) : option MiniWorkerQueue :=
  match batch q with
  | r :: b => Some (emit (Fired (cb r) (callback_args r)) (set_batch b q))
  | [] => None
  end.

Definition mini_worker_pump (m : bool) (q : MiniWorkerQueue) : MiniWorkerQueue :=
  let q := pump_take m q in
  Nat.iter (length (batch q)) (λ q, default q (pump_fire q)) q.

(** [mini_worker_destroy], up to the joins, *)
Definition destroy_begin (q : MiniWorkerQueue) : MiniWorkerQueue :=
  Queue (pending q) (pend_cap q) (ready q) (ready_cap q) (threads q) true (batch q) (events q).

(** and after them: [rt] says whether a runtime is given. *)
Definition destroy_end (rt : bool) (q : MiniWorkerQueue) : option MiniWorkerQueue :=
  if forallb (λ s, match s with Exited => true | _ => false end) (threads q) then
    let drop c := if rt then Freed c else Lost c in
    Some (Queue [] 0 [] 0 [] true (batch q)
            (events q ++ map (drop ∘ t_cb) (pending q) ++ map (drop ∘ cb) (ready q)))
  else None.

(** ** Schedules *)

Inductive action :=
| ASubmit (m ok : bool) (t : MiniWorkerTask)
| ATake (i : nat)
| AWork (i : nat) (a : bool) (w : io)
| APush (i : nat) (ok : bool)
| APump (m : bool)
| AFire
| AShutdown.

(** The main thread is inside [mini_worker_pump] while [batch] is not empty; the
    callbacks it calls there may submit tasks.  [mini_worker_destroy] is
    [AShutdown], the workers' last actions, and [destroy_end]. *)
Definition step (a : action) (q : MiniWorkerQueue) : option MiniWorkerQueue :=
  match a with
  | ASubmit m ok t => Some (mini_worker_submit m ok t q)
  | ATake i => worker_take i q
  | AWork i a w => worker_work i a w q
  | APush i ok => worker_push i ok q
  | APump m => match batch q with [] => Some (pump_take m q) | _ => None end
  | AFire => pump_fire q
  | AShutdown => match batch q with [] => Some (destroy_begin q) | _ => None end
  end.

Fixpoint run (l : list action) (q : MiniWorkerQueue) : option MiniWorkerQueue :=
  match l with
  | [] => Some q
  | a :: l => step a q ≫= run l
  end.

Definition demo_task (k : nat) : MiniWorkerTask :=
  Task MW_FS_READ (Some (str "a")) None None None None None None (Cb k true).
Definition demo_io : io := Io (Some (str "hi")) true true 0 200 None [].
Definition demo_queue : MiniWorkerQueue := Queue [] 0 [] 0 [Waiting; Exited] false [] [].

(** One worker, three tasks: the first submitted is the last served. *)
Example worker_lifo :
  events <$> run ([ASubmit true true (demo_task 1); ASubmit true true (demo_task 2); ATake 0; ASubmit true true (demo_task 3)]
                  ++ [AWork 0 true demo_io; APush 0 true; ATake 0; AWork 0 true demo_io; APush 0 true;
                      ATake 0; AWork 0 true demo_io; APush 0 true; APump true; AFire; AFire; AFire]) demo_queue
  = Some (map (λ k, Fired (Cb k true) (JS_NULL, JS_String (str "hi"))) [2; 3; 1]%nat).
Proof. vm_compute. reflexivity. Qed.

(** ** Conservation of callbacks *)

Definition thread_cbs (s : thread) : list JSValue :=
  match s with Holding t => [t_cb t] | Finished r => [cb r] | _ => [] end.
Definition event_cb (e : cb_event) : JSValue := match e with Fired c _ => c | Freed c => c | Lost c => c end.

(** Every callback the pool is responsible for, and those it has disposed of. *)
Definition owned (q : MiniWorkerQueue) : list JSValue :=
  map t_cb (pending q) ++ (threads q ≫= thread_cbs) ++ map cb (ready q) ++ map cb (batch q).
Definition disposed (q : MiniWorkerQueue) : list JSValue := map event_cb (events q).
Definition submitted (l : list action) : list MiniWorkerTask :=
  omap (λ a, match a with ASubmit _ _ t => Some t | _ => None end) l.

Lemma bind_insert {A B} (f : A → list B) i x y (l : list A) : l !! i = Some x →
  f x ++ (<[i := y]> l ≫= f) ≡ₚ f y ++ (l ≫= f).
Proof.
  intros Hi. rewrite <- (take_drop_middle l i x Hi) at 1 2.
  rewrite insert_app_r_alt by (rewrite length_take; lia).
  assert (i < length l)%nat as Hl by (by eapply lookup_lt_Some).
  rewrite length_take, Nat.min_l, Nat.sub_diag by lia. simpl. rewrite !bind_app. simpl.
  by rewrite (Permutation_app_swap_app (f x)), (Permutation_app_swap_app (f y)), (Permutation_app_swap_app (f x) (f y)).
Qed.

Lemma removelast_snoc {A} (l : list A) x : last l = Some x → l = removelast l ++ [x].
Proof.
  intros H. destruct l as [|y l] using rev_ind; [done|]. rewrite last_snoc in H. injection H as ->.
  by rewrite removelast_last.
Qed.

Lemma set_thread_owned i s s' q : threads q !! i = Some s →
  thread_cbs s ++ owned (set_thread i s' q) ≡ₚ thread_cbs s' ++ owned q.
Proof.
  intros Hi. unfold owned, set_thread. cbn [pending threads ready batch].
  pose proof (bind_insert thread_cbs i s s' _ Hi) as Hp.
  rewrite (Permutation_app_swap_app (thread_cbs s)), (Permutation_app_swap_app (thread_cbs s')).
  apply Permutation_app_head. rewrite (app_assoc (thread_cbs s)), (app_assoc (thread_cbs s')).
  by apply Permutation_app_tail.
Qed.

(** One action: what was owned or disposed of, and the callback of a submitted task. *)
Definition all_cbs (q : MiniWorkerQueue) : list JSValue := owned q ++ disposed q.
Definition new_cbs (a : action) : list JSValue := match a with ASubmit _ _ t => [t_cb t] | _ => [] end.

Lemma emit_all e q : all_cbs (emit e q) ≡ₚ event_cb e :: all_cbs q.
Proof.
  unfold all_cbs, disposed, emit. cbn [events]. change (owned (Queue _ _ _ _ _ _ _ _)) with (owned q).
  rewrite map_app, app_assoc. symmetry. apply Permutation_cons_append.
Qed.

Lemma set_thread_all i s s' q : threads q !! i = Some s →
  thread_cbs s ++ all_cbs (set_thread i s' q) ≡ₚ thread_cbs s' ++ all_cbs q.
Proof.
  intros Hi. unfold all_cbs. rewrite !app_assoc. change (disposed (set_thread i s' q)) with (disposed q).
  by apply Permutation_app_tail, set_thread_owned.
Qed.

Lemma submit_all m ok t q : all_cbs (mini_worker_submit m ok t q) ≡ₚ t_cb t :: all_cbs q.
Proof.
  unfold mini_worker_submit. destruct m; cbn [negb]; [|by rewrite emit_all].
  destruct (decide _); [|by rewrite emit_all].
  unfold all_cbs, owned, disposed, set_pending. cbn [pending threads ready batch events].
  rewrite map_app, <- !app_assoc. cbn [map app]. symmetry. apply Permutation_middle.
Qed.

Lemma take_all i q q' : worker_take i q = Some q' → all_cbs q' ≡ₚ all_cbs q.
Proof.
  unfold worker_take. destruct (threads q !! i) as [[| | |]|] eqn:Ei; try done.
  destruct (last (pending q)) as [t|] eqn:El.
  - intros [= <-]. set (q1 := set_pending _ _ q).
    pose proof (set_thread_all i Waiting (Holding t) q1 Ei) as H. cbn [thread_cbs app] in H. rewrite H.
    unfold all_cbs, owned, disposed, q1, set_pending. cbn [pending threads ready batch events].
    rewrite (removelast_snoc _ _ El) at 2. rewrite map_app, <- !app_assoc. cbn [map app]. apply Permutation_middle.
  - destruct (shutdown q); [|done]. intros [= <-].
    pose proof (set_thread_all i Waiting Exited q Ei) as H. exact H.
Qed.

Lemma work_all i a w q q' : worker_work i a w q = Some q' → all_cbs q' ≡ₚ all_cbs q.
Proof.
  unfold worker_work. destruct (threads q !! i) as [[| t | |]|] eqn:Ei; try done. intros [= <-].
  apply (Permutation_app_inv_l [t_cb t]). destruct a.
  - rewrite (set_thread_all i _ (Finished (fst (worker_do w t))) q Ei). cbn [thread_cbs].
    assert (cb (fst (worker_do w t)) = t_cb t) as ->; [|done].
    unfold worker_do. repeat case_match; done.
  - rewrite emit_all. cbn [event_cb].
    pose proof (set_thread_all i _ Waiting q Ei) as H. cbn [thread_cbs app] in *. by rewrite H.
Qed.

Lemma push_all i ok q q' : worker_push i ok q = Some q' → all_cbs q' ≡ₚ all_cbs q.
Proof.
  unfold worker_push. destruct (threads q !! i) as [[| | r |]|] eqn:Ei; try done. intros [= <-].
  pose proof (set_thread_all i _ Waiting q Ei) as H. cbn [thread_cbs app] in H. rewrite <- H.
  set (q1 := set_thread i Waiting q). change (ready q) with (ready q1). change (ready_cap q) with (ready_cap q1).
  destruct (decide _); [|by rewrite emit_all].
  unfold all_cbs, owned, disposed, set_ready. cbn [pending threads ready batch events].
  rewrite map_app, <- !app_assoc. cbn [map app].
  rewrite <- Permutation_middle. by rewrite <- !Permutation_middle.
Qed.

Lemma pump_take_all m q : batch q = [] → all_cbs (pump_take m q) ≡ₚ all_cbs q.
Proof.
  intros Hb. unfold pump_take. destruct (decide _); [destruct m|]; try done.
  unfold all_cbs, owned, disposed, set_ready, set_batch. cbn [pending threads ready batch events].
  rewrite Hb. cbn [map app]. by rewrite app_nil_r.
Qed.

Lemma fire_all q q' : pump_fire q = Some q' → all_cbs q' ≡ₚ all_cbs q.
Proof.
  unfold pump_fire. destruct (batch q) as [|r b] eqn:Eb; [done|]. intros [= <-]. rewrite emit_all. cbn [event_cb].
  unfold all_cbs, owned, disposed, set_batch. cbn [pending threads ready batch events]. rewrite Eb. cbn [map].
  rewrite <- !app_assoc. cbn [app]. by rewrite <- !Permutation_middle.
Qed.

Lemma step_all a q q' : step a q = Some q' → all_cbs q' ≡ₚ new_cbs a ++ all_cbs q.
Proof.
  destruct a as [m ok t|i|i a w|i ok|m| |]; cbn [step new_cbs app].
  - intros [= <-]. apply submit_all.
  - apply take_all.
  - apply work_all.
  - apply push_all.
  - destruct (batch q) eqn:Eb; [|done]. intros [= <-]. by apply pump_take_all.
  - apply fire_all.
  - destruct (batch q); [|done]. by intros [= <-].
Qed.

Lemma run_all l q q' : run l q = Some q' → all_cbs q' ≡ₚ map t_cb (submitted l) ++ all_cbs q.
Proof.
  revert q. induction l as [|a l IH]; intros q; cbn [run].
  - by intros [= ->].
  - destruct (step a q) as [q1|] eqn:E; [|done]. cbn [mbind option_bind]. intros H%IH. rewrite H, (step_all _ _ _ E).
    destruct a; cbn [new_cbs submitted omap list_omap]; try done. symmetry. apply Permutation_middle.
Qed.

(** Where the arguments of a call come from. *)
Definition produced (l : list action) (c : JSValue) (args : js * js) : Prop :=
  ∃ t w i, t ∈ submitted l ∧ AWork i true w ∈ l ∧ t_cb t = c ∧ args = callback_args (fst (worker_do w t)).

(** Tasks waiting or held were submitted; results and calls were produced. *)
Record traced (l : list action) (q : MiniWorkerQueue) : Prop := {
  tr_pending : ∀ t, t ∈ pending q → t ∈ submitted l;
  tr_threads : ∀ s, s ∈ threads q → match s with
                 | Holding t => t ∈ submitted l
                 | Finished r => produced l (cb r) (callback_args r)
                 | _ => True end;
  tr_ready : ∀ r, r ∈ ready q ++ batch q → produced l (cb r) (callback_args r);
  tr_events : ∀ c args, Fired c args ∈ events q → produced l c args }.

Lemma submitted_app l l' : submitted (l ++ l') = submitted l ++ submitted l'.
Proof. apply omap_app. Qed.

Lemma produced_mono l a c args : produced l c args → produced (l ++ [a]) c args.
Proof.
  intros (t&w&i&Ht&Hw&E). exists t, w, i. rewrite submitted_app, !elem_of_app. auto.
Qed.

Lemma traced_mono l a q : traced l q → traced (l ++ [a]) q.
Proof.
  intros [H1 H2 H3 H4]. split.
  - intros t Ht. rewrite submitted_app, elem_of_app. left. auto.
  - intros s Hs. specialize (H2 s Hs). destruct s; try done.
    + rewrite submitted_app, elem_of_app. by left.
    + by apply produced_mono.
  - intros r Hr. apply produced_mono; auto.
  - intros c args Hc. apply produced_mono; auto.
Qed.

Lemma elem_of_insert {A} (i : nat) (x y : A) (l : list A) : y ∈ <[i := x]> l → y = x ∨ y ∈ l.
Proof.
  intros [j Hj]%list_elem_of_lookup. apply list_lookup_insert_Some in Hj as [(?&?&?)|[? ?]]; [by left|].
  right. by eapply list_elem_of_lookup_2.
Qed.

Lemma elem_of_snoc {A} (x y : A) (l : list A) : x ∈ l ++ [y] → x ∈ l ∨ x = y.
Proof. intros [?|?%list_elem_of_singleton]%elem_of_app; auto. Qed.

Lemma traced_emit l e q : traced l q → (∀ c args, e = Fired c args → produced l c args) → traced l (emit e q).
Proof.
  intros [H1 H2 H3 H4] He. split; [done|done|done|]. intros c args [Hc|Hc]%elem_of_snoc; [by apply H4|by apply He].
Qed.

Lemma traced_thread l i s q : traced l q → match s with
    | Holding t => t ∈ submitted l | Finished r => produced l (cb r) (callback_args r) | _ => True end →
  traced l (set_thread i s q).
Proof.
  intros [H1 H2 H3 H4] Hs. split; try done. cbn. intros s' [->|Hs']%elem_of_insert; [done|by apply H2].
Qed.

Lemma worker_do_cb w t : cb (fst (worker_do w t)) = t_cb t.
Proof. unfold worker_do. repeat case_match; done. Qed.

Lemma step_traced l a q q' : traced l q → step a q = Some q' → traced (l ++ [a]) q'.
Proof.
  intros Ht Hs. apply (traced_mono l a) in Ht. destruct a as [m ok t|i|i a w|i ok|m| |]; cbn [step] in Hs.
  - injection Hs as <-. assert (t ∈ submitted (l ++ [ASubmit m ok t])) as Hin.
    { rewrite submitted_app, elem_of_app. right. by apply list_elem_of_singleton. }
    unfold mini_worker_submit. destruct m; cbn [negb]; [|by apply traced_emit].
    destruct (decide _).
    + destruct Ht as [H1 H2 H3 H4]. split; try done. cbn. intros t' [?| ->]%elem_of_snoc; auto.
    + apply traced_emit; [|done]. by destruct Ht.
  - unfold worker_take in Hs. destruct (threads q !! i) as [[| | |]|]; try done.
    destruct (last (pending q)) as [t|] eqn:El.
    + injection Hs as <-. pose proof (removelast_snoc _ _ El) as Ep. apply traced_thread.
      * destruct Ht as [H1 H2 H3 H4]. split; try done. cbn. intros t' Ht'. apply H1. rewrite Ep, elem_of_app. by left.
      * apply (tr_pending _ _ Ht). rewrite Ep, elem_of_app. right. by apply list_elem_of_singleton.
    + destruct (shutdown q); [|done]. injection Hs as <-. by apply traced_thread.
  - unfold worker_work in Hs. destruct (threads q !! i) as [[| t | |]|] eqn:Ei; try done. injection Hs as <-.
    pose proof (tr_threads _ _ Ht _ (list_elem_of_lookup_2 _ _ _ Ei)) as Hin. simpl in Hin.
    destruct a; [|apply traced_emit; [by apply traced_thread|done]].
    apply traced_thread; [done|]. exists t, w, i. rewrite worker_do_cb. split; [done|]. split; [|done].
    apply elem_of_app. right. by apply list_elem_of_singleton.
  - unfold worker_push in Hs. destruct (threads q !! i) as [[| | r |]|] eqn:Ei; try done. injection Hs as <-.
    pose proof (tr_threads _ _ Ht _ (list_elem_of_lookup_2 _ _ _ Ei)) as Hin. simpl in Hin.
    pose proof (traced_thread _ i Waiting _ Ht I) as [H1 H2 H3 H4].
    destruct (decide _).
    + split; try done. cbn in *. intros r'. rewrite <- app_assoc, !elem_of_app, list_elem_of_singleton.
      intros [?|[->|?]]; [|done|]; apply H3, elem_of_app; auto.
    + by apply traced_emit.
  - destruct (batch q) eqn:Eb; [|done]. injection Hs as <-. unfold pump_take. destruct (decide _); [destruct m|]; try done.
    destruct Ht as [H1 H2 H3 H4]. split; try done. cbn. intros r Hr. apply H3, elem_of_app. by left.
  - unfold pump_fire in Hs. destruct (batch q) as [|r b] eqn:Eb; [done|]. injection Hs as <-.
    assert (∀ r', r' ∈ r :: b → produced (l ++ [AFire]) (cb r') (callback_args r')) as Hr.
    { intros r' Hr'. apply (tr_ready _ _ Ht). rewrite Eb, elem_of_app. by right. }
    apply traced_emit; [|intros c args [= <- <-]; apply Hr; by left].
    destruct Ht as [H1 H2 H3 H4]. split; try done. cbn. intros r' [H|H]%elem_of_app.
    + apply H3, elem_of_app. by left.
    + apply Hr. by right.
  - destruct (batch q); [|done]. injection Hs as <-. by destruct Ht.
Qed.

Lemma run_traced l0 l q q' : traced l0 q → run l q = Some q' → traced (l0 ++ l) q'.
Proof.
  revert l0 q. induction l as [|a l IH]; intros l0 q Ht; cbn [run].
  - intros [= ->]. by rewrite app_nil_r.
  - destruct (step a q) as [q1|] eqn:E; [|done]. cbn [mbind option_bind]. intros H.
    apply (IH (l0 ++ [a])) in H; [by rewrite <- app_assoc in H|by eapply step_traced].
Qed.

(** A new pool. *)
Definition fresh_queue (ths : list thread) : MiniWorkerQueue := Queue [] 0 [] 0 ths false [] [].
Definition started (ths : list thread) : Prop := Forall (λ s, s = Waiting ∨ s = Exited) ths.

Lemma started_cbs ths : started ths → ths ≫= thread_cbs = [].
Proof. induction 1 as [|s ths [->| ->] _ IH]; [done|exact IH|exact IH]. Qed.

Lemma fresh_traced ths : started ths → traced [] (fresh_queue ths).
Proof.
  intros Hs. split; cbn; try (by intros ? ?%not_elem_of_nil); try (by intros ? ? ?%not_elem_of_nil).
  intros s Hin. unfold started in Hs. rewrite Forall_forall in Hs. by destruct (Hs s Hin) as [->| ->].
Qed.

(** C29. Whatever the schedule, every callback given to the pool is in exactly
    one place: waiting, held by a worker, ready, about to be called, or
    disposed of (called, freed or lost); after [mini_worker_destroy] all are
    disposed of.  So a callback submitted once is called at most once, and
    what it is called with is the outcome of its own task. *)
Theorem worker_conserves ths l q : started ths → run l (fresh_queue ths) = Some q →
  owned q ++ map event_cb (events q) ≡ₚ map t_cb (submitted l)
  ∧ (∀ rt q', batch q = [] → destroy_end rt q = Some q' → map event_cb (events q') ≡ₚ map t_cb (submitted l))
  ∧ (NoDup (map t_cb (submitted l)) → NoDup (map event_cb (events q)))
  ∧ (∀ c args, Fired c args ∈ events q →
      ∃ t w i, t ∈ submitted l ∧ AWork i true w ∈ l ∧ t_cb t = c ∧ args = callback_args (fst (worker_do w t))).
Proof.
  intros Hs Hr. pose proof (run_all _ _ _ Hr) as Hp.
  assert (all_cbs (fresh_queue ths) = []) as E0.
  { unfold all_cbs, owned, disposed. cbn. by rewrite started_cbs. }
  rewrite E0, app_nil_r in Hp. split_and!.
  - exact Hp.
  - intros rt q' Hb Hd. unfold destroy_end in Hd.
    destruct (forallb _ (threads q)) eqn:Ef; [|done]. injection Hd as <-. cbn [events].
    rewrite <- Hp. unfold all_cbs, owned, disposed. rewrite Hb, !map_app.
    assert (threads q ≫= thread_cbs = []) as ->.
    { induction (threads q) as [|s ts IH]; [done|]. simpl in Ef. destruct s; try done. by apply IH. }
    cbn [map app]. rewrite app_nil_r, Permutation_app_comm. apply Permutation_app_tail.
    rewrite !map_map. destruct rt; done.
  - intros Hn. assert (NoDup (all_cbs q)) as Hn' by (by rewrite Hp). by apply NoDup_app in Hn' as (_&_&?).
  - intros c args Hc. pose proof (run_traced [] l _ _ (fresh_traced ths Hs) Hr) as Ht. by apply Ht.
Qed.

Definition demo_schedule : list action :=
  [ASubmit true true (demo_task 1); ATake 0; ASubmit false true (demo_task 2); AWork 0 true demo_io; APush 0 true;
   APump true; AFire; ASubmit true true (demo_task 3); AShutdown; ATake 0; AWork 0 false demo_io; ATake 0].

Lemma demo_started : started [Waiting; Exited].
Proof. apply Forall_cons. split; [by left|]. apply Forall_cons. split; [by right|]. by apply Forall_nil. Qed.

Lemma worker_conserves_witness :
  ∃ q, run demo_schedule (fresh_queue [Waiting; Exited]) = Some q
    ∧ owned q ++ map event_cb (events q) ≡ₚ map (λ k, Cb k true) [1; 2; 3]%nat.
Proof.
  destruct (run demo_schedule (fresh_queue [Waiting; Exited])) as [q|] eqn:E; [|vm_compute in E; discriminate].
  exists q. split; [reflexivity|].
  refine (proj1 (worker_conserves [Waiting; Exited] demo_schedule q demo_started E)).
Defined.

(** ** Progress *)

Definition worker_action (a : action) : bool :=
  match a with ATake _ | AWork _ true _ | APush _ true => true | _ => false end.

(** Work left for the workers. *)
Definition thread_work (s : thread) : nat :=
  match s with Waiting => 1 | Holding _ => 3 | Finished _ => 2 | Exited => 0 end%nat.
Definition work (q : MiniWorkerQueue) : nat :=
  (3 * length (pending q) + sum_list_with thread_work (threads q))%nat.

Lemma sum_list_insert {A} (f : A → nat) i x y (l : list A) : l !! i = Some x →
  (sum_list_with f (<[i := y]> l) + f x = sum_list_with f l + f y)%nat.
Proof.
  revert i. induction l as [|z l IH]; intros [|i] Hi; simpl in *; [done|done| |].
  - injection Hi as ->. lia.
  - specialize (IH i Hi). lia.
Qed.

Lemma length_removelast {A} (l : list A) x : last l = Some x → length l = S (length (removelast l)).
Proof. intros H. rewrite (removelast_snoc l x H) at 1. rewrite length_app. simpl. lia. Qed.

(** Every worker action makes it smaller. *)
Lemma work_decreases a q q' : worker_action a = true → step a q = Some q' → (work q' < work q)%nat.
Proof.
  destruct a as [|i|i a w|i ok| | |]; try done; cbn [step worker_action]; intros Ha.
  - unfold worker_take. destruct (threads q !! i) as [[| | |]|] eqn:Ei; try done.
    destruct (last (pending q)) as [t|] eqn:El; [|destruct (shutdown q); [|done]]; intros [= <-];
      unfold work; cbn [threads pending set_thread set_pending].
    + pose proof (sum_list_insert thread_work i _ (Holding t) _ Ei). rewrite (length_removelast _ _ El).
      cbn [thread_work] in *. lia.
    + pose proof (sum_list_insert thread_work i _ Exited _ Ei). cbn [thread_work] in *. lia.
  - unfold worker_work. destruct (threads q !! i) as [[| t | |]|] eqn:Ei; try done. destruct a; [|done].
    intros [= <-]. unfold work. cbn [threads pending set_thread].
    pose proof (sum_list_insert thread_work i _ (Finished (fst (worker_do w t))) _ Ei). cbn [thread_work] in *. lia.
  - unfold worker_push. destruct (threads q !! i) as [[| | r |]|] eqn:Ei; try done. intros [= <-].
    pose proof (sum_list_insert thread_work i _ Waiting _ Ei). cbn [thread_work] in *.
    destruct (decide _); unfold work; cbn [threads pending set_thread set_ready emit]; lia.
Qed.

Lemma worker_runs_end l q q' : forallb worker_action l = true → run l q = Some q' → (length l + work q' <= work q)%nat.
Proof.
  revert q. induction l as [|a l IH]; intros q; cbn [forallb run length].
  - intros _ [= ->]. lia.
  - intros [Ha Hl]%andb_true_iff. destruct (step a q) as [q1|] eqn:E; [|done]. cbn [mbind option_bind].
    intros H. apply (IH _ Hl) in H. pose proof (work_decreases _ _ _ Ha E). lia.
Qed.

(** The arrays hold what they should, and nothing was dropped. *)
Definition roomy (q : MiniWorkerQueue) : Prop :=
  (length (ready q) <= ready_cap q)%nat ∧ (length (pending q) <= pend_cap q)%nat.

Lemma grow_lt n cap : (n <= cap)%nat → (n < grow true n cap)%nat.
Proof. intros. unfold grow. destruct (decide (cap <= n)%nat); [|lia]. destruct (decide (cap = 0%nat)); lia. Qed.

(** Some worker runs. *)
Definition has_live (q : MiniWorkerQueue) : Prop := ∃ i s, threads q !! i = Some s ∧ s ≠ Exited.

Lemma set_thread_live i s0 s q : threads q !! i = Some s0 → s ≠ Exited → has_live (set_thread i s q).
Proof.
  intros Hi Hs. exists i, s. split; [|done]. cbn. apply list_lookup_insert_eq. by eapply lookup_lt_Some.
Qed.

Lemma worker_step_quiet a q q' : roomy q → shutdown q = false → worker_action a = true → step a q = Some q' →
  roomy q' ∧ shutdown q' = false ∧ has_live q' ∧ events q' = events q ∧ batch q' = batch q.
Proof.
  intros [R1 R2] Hsh Ha. destruct a as [|i|i a w|i ok| | |]; try done; cbn [step]; intros Hs.
  - unfold worker_take in Hs. destruct (threads q !! i) as [[| | |]|] eqn:Ei; try done.
    destruct (last (pending q)) as [t|] eqn:El; [|by rewrite Hsh in Hs]. injection Hs as <-.
    split_and!; try done; [|by eapply (set_thread_live i Waiting)].
    split; cbn; [done|]. pose proof (length_removelast _ _ El). lia.
  - unfold worker_work in Hs. destruct (threads q !! i) as [[| t | |]|] eqn:Ei; try done. destruct a; [|done].
    injection Hs as <-. split_and!; try done. by eapply (set_thread_live i (Holding t)).
  - unfold worker_push in Hs. destruct (threads q !! i) as [[| | r |]|] eqn:Ei; try done. destruct ok; [|done].
    injection Hs as <-. pose proof (grow_lt _ _ R1). rewrite decide_True by done.
    split_and!; try done; [split; cbn; [rewrite length_app; simpl; lia|done]|].
    by apply (set_thread_live i (Finished r) Waiting).
Qed.

Lemma worker_run_quiet l q q' : roomy q → shutdown q = false → has_live q → forallb worker_action l = true →
  run l q = Some q' →
  roomy q' ∧ shutdown q' = false ∧ has_live q' ∧ events q' = events q ∧ batch q' = batch q ∧ submitted l = [].
Proof.
  revert q. induction l as [|a l IH]; intros q Hr Hs Hl; cbn [forallb run].
  - by intros _ [= ->].
  - intros [Ha Hal]%andb_true_iff. destruct (step a q) as [q1|] eqn:E; [|done]. cbn [mbind option_bind]. intros H.
    destruct (worker_step_quiet _ _ _ Hr Hs Ha E) as (R1&S1&L1&E1&B1).
    destruct (IH _ R1 S1 L1 Hal H) as (?&?&?&E2&B2&S2). split_and!; try done; [congruence|congruence|].
    by destruct a.
Qed.

(** No worker can act. *)
Definition idle (q : MiniWorkerQueue) : Prop := ∀ a, worker_action a = true → step a q = None.

Lemma idle_done q : has_live q → idle q → pending q = [] ∧ threads q ≫= thread_cbs = [].
Proof.
  intros (i&s&Hi&Hs) Hid. split.
  - destruct (last (pending q)) as [t|] eqn:El.
    + exfalso. destruct s; [..|done].
      * specialize (Hid (ATake i) eq_refl). simpl in Hid. unfold worker_take in Hid. by rewrite Hi, El in Hid.
      * specialize (Hid (AWork i true demo_io) eq_refl). simpl in Hid. unfold worker_work in Hid. by rewrite Hi in Hid.
      * specialize (Hid (APush i true) eq_refl). simpl in Hid. unfold worker_push in Hid. by rewrite Hi in Hid.
    + by apply last_None in El.
  - assert (∀ j s', threads q !! j = Some s' → thread_cbs s' = []) as H.
    { intros j s' Hj. destruct s'; try done; exfalso.
      - specialize (Hid (AWork j true demo_io) eq_refl). simpl in Hid. unfold worker_work in Hid. by rewrite Hj in Hid.
      - specialize (Hid (APush j true) eq_refl). simpl in Hid. unfold worker_push in Hid. by rewrite Hj in Hid. }
    clear -H. induction (threads q) as [|s ts IH]; [done|]. simpl. rewrite (H 0%nat s eq_refl). simpl.
    apply IH. intros j s' Hj. by apply (H (S j)).
Qed.

Lemma pump_fires q : batch q = [] →
  let q' := mini_worker_pump true q in
  events q' = events q ++ map (λ r, Fired (cb r) (callback_args r)) (ready q) ∧ ready q' = [] ∧ batch q' = [].
Proof.
  intros Hb. cbv zeta. unfold mini_worker_pump.
  assert (∀ b q0, batch q0 = b → let q1 := Nat.iter (length b) (λ q, default q (pump_fire q)) q0 in
    events q1 = events q0 ++ map (λ r, Fired (cb r) (callback_args r)) b ∧ ready q1 = ready q0 ∧ batch q1 = []) as H.
  { induction b as [|r b IH]; intros q0 Hb0; [cbn; by rewrite app_nil_r|].
    cbv zeta in *. cbn [length]. rewrite Nat.iter_succ_r.
    assert (default q0 (pump_fire q0) = emit (Fired (cb r) (callback_args r)) (set_batch b q0)) as ->
      by (unfold pump_fire; by rewrite Hb0).
    destruct (IH (emit (Fired (cb r) (callback_args r)) (set_batch b q0)) eq_refl) as (H1&H2&H3).
    rewrite H1, H2, H3. split_and!; [|done|done]. cbn [emit events set_batch map]. by rewrite <- app_assoc. }
  unfold pump_take. destruct (decide (0 < length (ready q))%nat).
  - destruct (H _ (set_ready [] (ready_cap q) (set_batch (ready q) q)) eq_refl) as (H1&H2&H3). by rewrite H1, H2, H3.
  - destruct (ready q) as [|r rs] eqn:Er; [|simpl in *; lia]. destruct (H _ q Hb) as (H1&H2&H3).
    rewrite Hb. cbn [length Nat.iter map]. by rewrite app_nil_r.
Qed.

(** C33. While one worker runs and memory lasts, every task is completed: the
    workers can take at most [work q] actions, in whatever order; when none is
    left to take, nothing is pending or held, and the next pump calls every
    callback the pool owned, once each. *)
Theorem worker_progress q l q' : roomy q → shutdown q = false → has_live q → batch q = [] →
  forallb worker_action l = true → run l q = Some q' →
  (length l <= work q)%nat
  ∧ (idle q' →
      let q'' := mini_worker_pump true q' in
      owned q'' = []
      ∧ ∃ rs, events q'' = events q ++ map (λ r, Fired (cb r) (callback_args r)) rs ∧ map cb rs ≡ₚ owned q).
Proof.
  intros Hr Hs Hl Hb Ha Hrun.
  pose proof (worker_runs_end _ _ _ Ha Hrun) as Hw. split; [lia|]. intros Hid q''.
  destruct (worker_run_quiet _ _ _ Hr Hs Hl Ha Hrun) as (_&_&Hl'&Ee&Eb&Esub).
  destruct (idle_done _ Hl' Hid) as [Ep Et]. rewrite Hb in Eb.
  destruct (pump_fires q' Eb) as (E1&E2&E3). fold q'' in E1, E2, E3.
  pose proof (run_all _ _ _ Hrun) as Hp. rewrite Esub in Hp. unfold all_cbs, disposed in Hp. rewrite Ee in Hp.
  cbn [map app] in Hp. apply Permutation_app_inv_r in Hp.
  assert (owned q' = map cb (ready q')) as Eo.
  { unfold owned. rewrite Ep, Et, Eb. cbn. by rewrite app_nil_r. }
  split.
  - assert (pending q'' = pending q' ∧ threads q'' = threads q') as [Ep' Et'].
    { unfold q'', mini_worker_pump. generalize (length (batch (pump_take true q'))). intros n.
      induction n as [|n [IH1 IH2]]; [unfold pump_take; cbn; by destruct (decide _)|].
      rewrite Nat.iter_succ. unfold pump_fire. destruct (batch (Nat.iter n _ _)); cbn; done. }
    unfold owned. by rewrite Ep', Et', Ep, Et, E2, E3.
  - exists (ready q'). split; [by rewrite E1, Ee|]. rewrite <- Eo. exact Hp.
Qed.

Definition demo_q : MiniWorkerQueue :=
  mini_worker_submit true true (demo_task 2) (mini_worker_submit true true (demo_task 1) demo_queue).
Definition demo_work : list action := [ATake 0; AWork 0 true demo_io; APush 0 true; ATake 0; AWork 0 true demo_io; APush 0 true].

Lemma worker_progress_witness :
  ∃ q', run demo_work demo_q = Some q' ∧ (length demo_work <= work demo_q)%nat
    ∧ owned (mini_worker_pump true q') = [].
Proof.
  destruct (run demo_work demo_q) as [q'|] eqn:E; [|vm_compute in E; discriminate].
  exists q'. split; [reflexivity|].
  destruct (worker_progress demo_q demo_work q') as [H1 H2].
  - split; vm_compute; [apply Nat.le_0_l|repeat constructor].
  - reflexivity.
  - exists O, Waiting. split; [reflexivity|discriminate].
  - reflexivity.
  - reflexivity.
  - exact E.
  - split; [exact H1|]. apply H2. vm_compute in E. injection E as <-.
    intros a Ha. destruct a as [|i|i a w|i ok| | |]; try discriminate; destruct i as [|[|i]]; reflexivity.
Defined.
