(* ===== verification/Net.v ===== *)
(** * HTTP/1.1 client (src/src/mini_net.c)

    URL parsing, the growing buffer, the readers over a receive callback,
    chunked decoding, header parsing, the request and the response of one
    exchange, and the tables kept by the process: recorded requests,
    keep-alive connections, prefetch slots.  Sockets, TLS and the clock are
    arguments. *)

From S2P Require Import Prelude CString.
From stdpp Require Import list.
Open Scope Z_scope.

(** ** URLs *)

Fixpoint url_port (port : Z) (p : bytes) : res (Z * bytes) :=
  match p with
  | c :: p' =>
    if c_isdigit c then
      let port := port * 10 + (c - 48) in
      if decide (port < 2 ^ 31) then url_port port p' else UB
    else Ok (port, p)
  | [] => Ok (port, [])
  end.

Record parsed_url := Url { u_host : bytes; u_port : Z; u_path : bytes; is_https : bool }.

(** [None] is -1.  [hcap] and [pcap] are the sizes of the two buffers. *)
Definition parse_url (url : bytes) (hcap pcap : nat) : res (option parsed_url) :=
  let '(p, https) :=
    match expects (str "http://") url with
    | Some p => (p, false)
    | None => match expects (str "https://") url with Some p => (p, true) | None => (url, false) end
    end in
  let dflt := if https then 443 else 80 in
  let '(host, p) := scan (λ c, bool_decide (c ∉ [58; 47])) (hcap - 1) p in
  (let* (port, p) :=
     match expect 58 p with
     | Some p => let* (v, p) := url_port 0 p in Ok (if decide (v = 0) then dflt else v, p)
     | None => Ok (dflt, p)
     end in
   let path := if decide (hd0 p = 47) then take (pcap - 1) p else str "/" in
   Ok (if decide (host = []) then None else Some (Url host port path https)))%c.

(** ** The growing buffer *)

(** [p], null or not, with its first [len] bytes. *)
Record ByteBuf := Buf { b_null : bool; b_data : bytes; b_cap : Z }.
Definition bb_empty : ByteBuf := Buf true [] 0.

(** [while (nc < need) nc *= 2] *)
Fixpoint bb_grow (fuel : nat) (nc need : Z) : Z :=
  match fuel with
  | O => nc
  | S fuel => if decide (nc < need) then bb_grow fuel (u64 (nc * 2)) need else nc
  end.

Definition blen (b : ByteBuf) : Z := Z.of_nat (length (b_data b)).

Section buffer.
Context (realloc : Z → bool).

Definition bb_ensure (b : ByteBuf) (extra : Z) : ByteBuf :=
  let need := blen b + extra + 1 in
  if decide (b_cap b < need) then
    let nc := bb_grow 64 (if decide (b_cap b = 0) then 4096 else b_cap b) need in
    if realloc nc then Buf false (b_data b) nc else b
  else b.

(** A write outside the allocation is undefined. *)
Definition bb_put (b : ByteBuf) (src : bytes) : res ByteBuf :=
  let b := bb_ensure b (Z.of_nat (length src)) in
  if b_null b then Ok b
  else if decide (b_cap b < blen b + Z.of_nat (length src)) then UB
  else Ok (Buf false (b_data b ++ src) (b_cap b)).

Definition bb_putc (b : ByteBuf) (c : Z) : res ByteBuf := bb_put b [c].

(** [strstr (b->p, needle)]: the buffer has no terminator of its own, so a
    search that meets neither the needle nor a zero byte leaves it. *)
Definition bb_strstr (b : ByteBuf) (needle : bytes) : res (option nat) :=
  match strstr (fst (scan (λ c, negb (bool_decide (c = 0))) (length (b_data b)) (b_data b))) needle with
  | Some i => Ok (Some i)
  | None => if decide (0 ∈ b_data b) then Ok None else UB
  end.

(** ** Readers *)

(** What one call of the callback gives. *)
Inductive recv_out := Got (d : bytes) | Closed | Retry | Fatal.

Context {S : Type} (cb : nat → S → recv_out * S).

Definition CRLF2 : bytes := [13; 10; 13; 10].

(** The outer [option] is the fuel; [hdr_end_off] is given with 0. *)
Fixpoint read_until_headers (fuel : nat) (io : S) (buf : ByteBuf) : res (option (S * ByteBuf * (Z * nat))) :=
  match fuel with
  | O => Ok None
  | Datatypes.S fuel =>
    let last (io : S) (buf : ByteBuf) :=
      if b_null buf then Ok (Some (io, buf, (1, O))) else
      (let* he := bb_strstr buf CRLF2 in
       Ok (Some (io, buf, match he with Some i => (0, (i + 4)%nat) | None => (1, O) end)))%c in
    if decide (8192 <= blen buf) then Ok (Some (io, buf, (1, O))) else
    match cb 1024 io with
    | (Got d, io) =>
      (let* buf := bb_put buf d in
       let* he := if b_null buf then Ok None else bb_strstr buf CRLF2 in
       match he with
       | Some i => Ok (Some (io, buf, (0, (i + 4)%nat)))
       | None => read_until_headers fuel io buf
       end)%c
    | (Closed, io) => last io buf
    | (Retry, io) => read_until_headers fuel io buf
    | (Fatal, io) => Ok (Some (io, buf, (-2, O)))
    end
  end.

Definition READ_CAP : nat := Z.to_nat 4096.

(** [have] and [need] in bytes. *)
Fixpoint read_exact (fuel : nat) (io : S) (buf : ByteBuf) (have need : nat) : res (option (S * ByteBuf * Z)) :=
  match fuel with
  | O => Ok None
  | Datatypes.S fuel =>
    if decide (have < need)%nat then
      let want := if decide (READ_CAP < need - have)%nat then READ_CAP else (need - have)%nat in
      match cb want io with
      | (Got d, io) => (let* buf := bb_put buf d in read_exact fuel io buf (have + length d) need)%c
      | (Retry, io) => read_exact fuel io buf have need
      | (_, io) => Ok (Some (io, buf, -1))
      end
    else Ok (Some (io, buf, 0))
  end.

(** [stop] is the test after a piece: a size, and for the chunked reader the
    terminating chunk. *)
Fixpoint read_loop (stop : ByteBuf → res bool) (fuel : nat) (io : S) (buf : ByteBuf) : res (option (S * ByteBuf)) :=
  match fuel with
  | O => Ok None
  | Datatypes.S fuel =>
    match cb READ_CAP io with
    | (Got d, io) =>
      (let* buf := bb_put buf d in
       let* s := stop buf in
       if s : bool then Ok (Some (io, buf)) else read_loop stop fuel io buf)%c
    | (Retry, io) => read_loop stop fuel io buf
    | (_, io) => Ok (Some (io, buf))
    end
  end.

Definition read_chunked : nat → S → ByteBuf → res (option (S * ByteBuf)) :=
  read_loop (λ raw,
    if b_null raw then Ok (bool_decide (8 * 1024 * 1024 < blen raw)) else
    (let* e := bb_strstr raw ([13; 10; 48] ++ CRLF2) in
     Ok (bool_decide (is_Some e) || bool_decide (8 * 1024 * 1024 < blen raw)))%c).

Definition read_until_close : nat → S → ByteBuf → res (option (S * ByteBuf)) :=
  read_loop (λ buf, Ok (bool_decide (64 * 1024 * 1024 < blen buf))).
End buffer.

(** The callback of [mini_net_http]: the calls of [recv] (or of the TLS read)
    to come, the connection closing after the last.  Not-ready results are
    repeated, a hundred thousand times at most. *)
Inductive raw := Bytes (d : bytes) | WouldBlock | Error.

Fixpoint net_recv_loop (fuel : nat) (cap : nat) (io : list raw) : recv_out * list raw :=
  match fuel, io with
  | O, _ => (Fatal, io)
  | _, [] => (Closed, [])
  | _, Bytes [] :: io => (Closed, io)
  | _, Bytes d :: io => if decide (length d <= cap)%nat then (Got d, io) else (Got (take cap d), Bytes (drop cap d) :: io)
  | _, Error :: io => (Fatal, io)
  | S fuel, WouldBlock :: io => net_recv_loop fuel cap io
  end.
Definition RETRIES : nat := Z.to_nat 100000.
Definition net_recv : nat → list raw → recv_out * list raw := net_recv_loop RETRIES.

(** ** Chunked bodies *)

Definition hexval (c : Z) : option Z :=
  if bool_decide (48 <= c <= 57) then Some (c - 48)
  else if bool_decide (97 <= c <= 102) then Some (c - 97 + 10)
  else if bool_decide (65 <= c <= 70) then Some (c - 65 + 10) else None.

(** The size: its value, and where the scan stops; [None] when it has more
    than sixteen digits. *)
Fixpoint hex_line (s : bytes) (csz : Z) (h : Z) : option (Z * bytes) :=
  match s with
  | c :: s' =>
    if bool_decide (c ∈ [13; 10; 59]) then Some (csz, s) else
    match hexval c with
    | None => Some (csz, s)
    | Some v => let csz := u64 (csz * 16 + v) in
                if decide (16 < h + 1) then None else hex_line s' csz (h + 1)
    end
  | [] => Some (csz, [])
  end.

(** [memmove (b + dst, b + src, n)] *)
Definition memmove (b : bytes) (dst src n : nat) : bytes :=
  take dst b ++ slice src n b ++ drop (dst + n) b.

(** [body] is at address [addr]; its bytes, and the length returned. *)
Fixpoint dechunk_loop (fuel : nat) (addr : Z) (body : bytes) (src dst : nat) : res (option (bytes * nat)) :=
  match fuel with
  | O => Ok None
  | S fuel =>
    if decide (src < length body)%nat then
      match hex_line (drop src body) 0 0 with
      | None => Ok (Some (body, O))
      | Some (csz, s) =>
        let s := tail (skip (λ c, negb (bool_decide (c = 10))) s) in
        let src := (length body - length s)%nat in
        if decide (csz = 0) then Ok (Some (body, dst))
        else if decide (addr + Z.of_nat (length body) < u64 (addr + Z.of_nat src + csz)) then Ok (Some (body, O))
        else if decide (Z.of_nat (length s) < csz) then UB
        else
          let n := Z.to_nat csz in
          let body := memmove body dst src n in
          let r := skip (λ c, bool_decide (c = 13) || bool_decide (c = 10)) (drop (src + n) body) in
          dechunk_loop fuel addr body (length body - length r) (dst + n)
      end
    else Ok (Some (body, dst))
  end.

Definition dechunk (addr : Z) (body : bytes) : res (option (bytes * nat)) :=
  dechunk_loop (S (length body)) addr body 0 0.

(** ** Headers *)

(** Content-Length (or -1), chunked, close. *)
Record response_meta := Meta { content_length : Z; chunked : bool; close_it : bool }.

(** [HNAME (n)] on the line [p] of length [llen]: what follows the colon. *)
Definition hname (n : bytes) (llen : nat) (p : bytes) : option bytes :=
  if decide (length n < llen)%nat then
    if starts_with_ci n p then expect 58 (drop (length n) p) else None
  else None.

(** [strtol (v, &tail, 10)]; [None] when [tail == v]. *)
Definition c_strtol (s : bytes) : option Z :=
  let t := skip c_isspace s in
  let t := if decide (hd0 t = 45 ∨ hd0 t = 43) then tail t else t in
  if c_isdigit (hd0 t) then Some (c_atol s) else None.

(** [stristr (h, n)] as a test. *)
Fixpoint stristr (h n : bytes) : option bytes :=
  match h with
  | [] => None
  | _ :: h' => if starts_with_ci n h then Some h else stristr h' n
  end.
Definition has_ci (h n : bytes) : bool := bool_decide (is_Some (stristr h n)).

(** One line; the values are read to the end of the block, not of the line. *)
Definition meta_of_line (llen : nat) (p : bytes) (m : response_meta) : response_meta :=
  match hname (str "Content-Length") llen p with
  | Some v => match c_strtol v with Some n => Meta n (chunked m) (close_it m) | None => m end
  | None =>
    match hname (str "Transfer-Encoding") llen p with
    | Some v => if has_ci v (str "chunked") then Meta (content_length m) true (close_it m) else m
    | None =>
      match hname (str "Connection") llen p with
      | Some v => if has_ci v (str "close") then Meta (content_length m) (chunked m) true else m
      | None => m
      end
    end
  end.

(** [p] of which [n] bytes are before [end]. *)
Fixpoint meta_loop (fuel : nat) (p : bytes) (n : nat) (m : response_meta) : response_meta :=
  match fuel with
  | O => m
  | S fuel =>
    match strchr (take n p) 13 with
    | None => m
    | Some llen =>
      let m := meta_of_line llen p m in
      let lf := bool_decide (llen + 1 < n)%nat && bool_decide (rd p (llen + 1) = 10) in
      let k := (llen + 1 + (if lf then 1 else 0))%nat in
      meta_loop fuel (drop k p) (n - k) m
    end
  end.

Definition mini_net_parse_response_meta (hdrs : option bytes) (hlen : nat) : response_meta :=
  match hdrs with
  | None => Meta (-1) false false
  | Some h => meta_loop hlen h hlen (Meta (-1) false false)
  end.

(** The value of the first header [name], cut to [cap - 1] bytes. *)
Fixpoint header_loop (fuel : nat) (p name : bytes) (cap : nat) : option bytes :=
  match fuel, p with
  | S fuel, _ :: _ =>
    let eol := strstr p [13; 10] in
    let line := match eol with Some i => take i p | None => p end in
    match (if decide (length name < length line)%nat then
             if starts_with_ci name line then expect 58 (drop (length name) line) else None
           else None) with
    | Some v => Some (take (cap - 1) (skip (λ c, bool_decide (c = 32) || bool_decide (c = 9)) v))
    | None => match eol with
              | Some i => header_loop fuel (drop (i + 2) p) name cap
              | None => None
              end
    end
  | _, _ => None
  end.

Definition header_value (hdrs : option bytes) (name : bytes) (cap : nat) : option bytes :=
  match hdrs with None => None | Some h => header_loop (length h) h name cap end.

(** ** One exchange *)

Definition USER_AGENT : bytes :=
  str ("User-Agent: Mozilla/5.0 (Windows NT 10.0; Win64; x64) " ++
       "AppleWebKit/537.36 (KHTML, like Gecko) " ++
       "TinyFramework/1.0 Chrome/120 Safari/537.36") ++ [13; 10].

(** [bb_put (&req, lit, n)] on a literal: [n] may reach its terminator. *)
Definition lit (n : nat) (s : bytes) : bytes := take n (s ++ [0]).

(** The pieces in the order they are put, and how many of them make the head. *)
Definition request_pieces (pooled : bool) (method path host : bytes) (extra body : option bytes) : list bytes * list bytes :=
  let body := default [] body in
  ([method; lit 1 (str " "); path; lit 17 (str " HTTP/1.1" ++ [13; 10] ++ str "Host: "); host;
    if pooled then lit 27 ([13; 10] ++ str "Connection: keep-alive" ++ [13; 10])
    else lit 21 ([13; 10] ++ str "Connection: close" ++ [13; 10]);
    USER_AGENT; str "Accept: */*" ++ [13; 10]; str "Accept-Language: en-US,en;q=0.9" ++ [13; 10]] ++
   (if decide (body = []) then [] else
      (str "Content-Length: " ++ c_dec (Z.of_nat (length body)) ++ [13; 10]) ::
      match extra with
      | Some x => if decide (strstr x (str "Content-Type") = None)
                  then [lit 49 (str "Content-Type: application/x-www-form-urlencoded" ++ [13; 10])] else []
      | None => []
      end) ++
   match extra with
   | Some ((_ :: _) as x) => x :: (if decide (last x = Some 10) then [] else [lit 2 [13; 10]])
   | _ => []
   end ++ [lit 2 [13; 10]],
   if decide (body = []) then [] else [body]).

Fixpoint bb_puts (realloc : Z → bool) (b : ByteBuf) (l : list bytes) : res ByteBuf :=
  match l with
  | [] => Ok b
  | s :: l => (let* b := bb_put realloc b s in bb_puts realloc b l)%c
  end.

(** What is sent, and its head. *)
Definition http_request (realloc : Z → bool) (pooled : bool) (method path host : bytes) (extra body : option bytes)
    : res (bytes * bytes) :=
  let '(head, rest) := request_pieces pooled method path host extra body in
  (let* h := bb_puts realloc bb_empty head in
   let* b := bb_puts realloc h rest in
   Ok (b_data b, b_data h))%c.

Record MiniNetRecord := Rec {
  r_method : bytes; r_url : bytes; req_headers : option bytes; req_body : option bytes;
  r_status : Z; resp_headers : option bytes; resp_body : option bytes; r_mime : bytes;
  reported : bool; r_id : Z; failed : bool }.

(** Content-Type: the value up to the parameters, cut to 127 bytes. *)
Definition mime_of (h : bytes) : bytes :=
  let ct := match strstr h (str "Content-Type:") with
            | Some i => Some i
            | None => strstr h (str "content-type:")
            end in
  match ct with
  | Some i =>
    fst (scan (λ c, negb (bool_decide (c ∈ [13; 10; 59]))) 127
           (skip (λ c, bool_decide (c = 32) || bool_decide (c = 9)) (drop (i + 13) h)))
  | None => []
  end.

Definition status_of (h : bytes) : Z :=
  match strchr h 32 with Some i => i32 (c_atol (drop (S i) h)) | None => 0 end.

(** Content-Length as the response is cut, -1 when there is none. *)
Definition cl_of (h : bytes) : Z :=
  let clh := match strstr h (str "Content-Length:") with
             | Some i => Some i
             | None => strstr h (str "content-length:")
             end in
  match clh with Some i => c_atol (drop (i + 15) h) | None => -1 end.

(** The header block is a C string: it ends at a zero byte. *)
Definition c_string (b : bytes) : bytes := fst (scan (λ c, negb (bool_decide (c = 0))) (length b) b).

(** From the bytes read to status, headers, body and mime; [addr] is where the
    body's memory is.  [None] is a failed exchange. *)
Definition http_response (addr : Z) (resp : ByteBuf) : res (option (Z * bytes * bytes * bytes)) :=
  if b_null resp || bool_decide (b_data resp = []) then Ok None else
  (let* he := bb_strstr resp CRLF2 in
   let '(h, b) := match he with
                  | Some i => (take i (b_data resp), drop (i + 4) (b_data resp))
                  | None => (b_data resp, [])
                  end in
   let hs := c_string h in
   let cl := cl_of hs in
   let b := if decide (0 <= cl <= Z.of_nat (length b)) then take (Z.to_nat cl) b else b in
   let* b := if has_ci hs (str "chunked") then
               let* r := dechunk addr b in
               Ok (match r with Some (b, n) => take n b | None => b end)
             else Ok b in
   let m := mime_of hs in
   Ok (Some (status_of hs, hs, b, if decide (m = []) then str "text/plain" else m)))%c.

(** The network: whether host, port and TLS can be connected, and from what is
    sent there the calls of [recv], [None] when sending fails. *)
Record network := Net { connect : bytes → Z → bool → bool; exchange : bytes → Z → bool → bytes → option (list raw) }.

(** [mini_net_http] with the keep-alive pool off, as it is compiled. *)
Definition mini_net_http (realloc : Z → bool) (addr : Z) (net : network) (fuel : nat)
    (method url extra body : option bytes) : res (option (MiniNetRecord * Z)) :=
  let fail hd bd := Rec (take 7 (default (str "GET") method)) (take (Z.to_nat 1023) (default [] url)) hd bd 0 None None []
                      false 0 true in
  match url with
  | None => UB
  | Some u =>
    (let* p := parse_url u 256 (Z.to_nat 1024) in
     match p with
     | None => Ok (Some (fail None None, -1))
     | Some p =>
       if negb (connect net (u_host p) (u_port p) (is_https p)) then Ok (Some (fail None None, -1)) else
       match method with
       | None => UB
       | Some m =>
         let* (req, head) := http_request realloc false m (u_path p) (u_host p) extra body in
         match exchange net (u_host p) (u_port p) (is_https p) req with
         | None => Ok (Some (fail None None, -1))
         | Some io =>
           let* r := read_until_close realloc net_recv fuel io bb_empty in
           match r with
           | None => Ok None
           | Some (_, buf) =>
             let sent := if decide (default [] body = []) then None else body in
             let f := fail (Some head) sent in
             let* r := http_response addr buf in
             Ok (Some (match r with
                       | None => (f, -1)
                       | Some (st, h, b, mime) =>
                         (Rec (r_method f) (r_url f) (Some head) sent st (Some h) (Some b) mime false 0 false, 0)
                       end))
           end
         end
       end
     end)%c
  end.

(** ** Recorded requests *)

Definition NET_REC_CAP : nat := Z.to_nat 256.
Record rec_table := Recs { g_recs : list MiniNetRecord; g_rec_next_id : Z }.

Definition set_id (i : Z) (r : MiniNetRecord) : MiniNetRecord :=
  Rec (r_method r) (r_url r) (req_headers r) (req_body r) (r_status r) (resp_headers r) (resp_body r) (r_mime r) false i (failed r).
Definition set_reported (r : MiniNetRecord) : MiniNetRecord :=
  Rec (r_method r) (r_url r) (req_headers r) (req_body r) (r_status r) (resp_headers r) (resp_body r) (r_mime r) true (r_id r) (failed r).

Definition mini_net_record_add (r : MiniNetRecord) (t : rec_table) : rec_table :=
  let l := if decide (length (g_recs t) < NET_REC_CAP)%nat then g_recs t else drop 1 (g_recs t) in
  Recs (l ++ [set_id (g_rec_next_id t) r]) (g_rec_next_id t + 1).
Definition mini_net_record_count (t : rec_table) : Z := Z.of_nat (length (g_recs t)).
Definition mini_net_record_get (i : Z) (t : rec_table) : option MiniNetRecord :=
  if decide (0 <= i < mini_net_record_count t) then g_recs t !! Z.to_nat i else None.
Definition mini_net_record_mark_reported (i : Z) (t : rec_table) : rec_table :=
  if decide (0 <= i < mini_net_record_count t)
  then Recs (alter set_reported (Z.to_nat i) (g_recs t)) (g_rec_next_id t) else t.

(** ** Keep-alive connections *)

Definition NET_INVALID : Z := -1.
Record KaConn := Ka { k_host : bytes; k_port : Z; k_https : bool; fd : Z; valid : bool; in_use : bool; last_used : Z }.
Definition KA_CAP : nat := 16.
(** Static storage: all zero. *)
Definition g_ka : list KaConn := replicate KA_CAP (Ka [] 0 false 0 false false 0).

Definition set_use (b : bool) (c : KaConn) : KaConn := Ka (k_host c) (k_port c) (k_https c) (fd c) (valid c) b (last_used c).

(** The slot, and the descriptors closed. *)
Definition ka_close_slot (c : KaConn) : KaConn * list Z :=
  (Ka (k_host c) (k_port c) (k_https c) NET_INVALID false (in_use c) (last_used c),
   if decide (fd c = NET_INVALID) then [] else [fd c]).

(** The idle slot used longest ago, the first of several. *)
Fixpoint oldest (i : nat) (l : list KaConn) (best : option (nat * Z)) : option nat :=
  match l with
  | [] => fst <$> best
  | c :: l =>
    oldest (S i) l
      (if valid c && negb (in_use c) &&
          match best with None => true | Some (_, ot) => bool_decide (last_used c < ot) end
       then Some (i, last_used c) else best)
  end.

(** The slot handed out, whether it is reused, and the descriptors closed. *)
Definition ka_acquire (enabled : bool) (host : bytes) (port : Z) (https : bool) (ka : list KaConn)
    : list KaConn * option (nat * bool) * list Z :=
  if negb enabled then (ka, None, []) else
  match list_find (λ c, valid c = true ∧ in_use c = false ∧ k_port c = port ∧ k_https c = https ∧ k_host c = host) ka with
  | Some (i, c) => (<[i := set_use true c]> ka, Some (i, true), [])
  | None =>
    match list_find (λ c, valid c = false ∧ in_use c = false) ka with
    | Some (i, c) => (<[i := set_use true c]> ka, Some (i, false), [])
    | None =>
      match oldest 0 ka None with
      | Some i =>
        match ka !! i with
        | Some c => let '(c, cl) := ka_close_slot c in (<[i := set_use true c]> ka, Some (i, false), cl)
        | None => (ka, None, [])
        end
      | None => (ka, None, [])
      end
    end
  end.

Definition ka_release (now : Z) (i : nat) (reusable : bool) (ka : list KaConn) : list KaConn * list Z :=
  match ka !! i with
  | Some c =>
    if reusable && valid c
    then (<[i := Ka (k_host c) (k_port c) (k_https c) (fd c) (valid c) false now]> ka, [])
    else let '(c, cl) := ka_close_slot c in (<[i := set_use false c]> ka, cl)
  | None => (ka, [])
  end.

Fixpoint ka_shutdown_all (ka : list KaConn) : list KaConn * list Z :=
  match ka with
  | [] => ([], [])
  | c :: ka => let '(c, cl) := ka_close_slot c in let '(ka, cl') := ka_shutdown_all ka in (c :: ka, cl ++ cl')
  end.

(** ** Prefetch slots *)

Record PrefetchSlot := Slot { pf_url : bytes; pf_valid : bool; pf_thread : nat }.
Definition PF_CAP : nat := 64.

(** [up] says whether the thread starts; [th] is its handle. *)
Definition mini_net_prefetch (enabled up : bool) (th : nat) (url : bytes) (pf : list PrefetchSlot)
    : list PrefetchSlot * bool :=
  if negb enabled then (pf, false) else
  if decide (url = []) then (pf, false) else
  if negb (starts_with (str "http://") url) && negb (starts_with (str "https://") url) then (pf, false) else
  match list_find (λ s, pf_valid s = true ∧ pf_url s = url) pf with
  | Some _ => (pf, false)
  | None =>
    match list_find (λ s, pf_valid s = false) pf with
    | None => (pf, false)
    | Some (i, s) =>
      if up then (<[i := Slot (take (Z.to_nat 1023) url) true th]> pf, true)
      else (<[i := Slot (take (Z.to_nat 1023) url) false (pf_thread s)]> pf, false)
    end
  end.

(** The thread joined. *)
Definition mini_net_prefetch_await (url : bytes) (pf : list PrefetchSlot) : list PrefetchSlot * option nat :=
  match list_find (λ s, pf_valid s = true ∧ pf_url s = url) pf with
  | Some (i, s) => (<[i := Slot (pf_url s) false 0]> pf, Some (pf_thread s))
  | None => (pf, None)
  end.

Definition mini_net_prefetch_shutdown (pf : list PrefetchSlot) (ka : list KaConn)
    : list PrefetchSlot * list nat * (list KaConn * list Z) :=
  (map (λ s, if pf_valid s then Slot (pf_url s) false 0 else s) pf,
   map pf_thread (filter (λ s, pf_valid s = true) pf), ka_shutdown_all ka).

(** ** Overrides *)

(** [snprintf] into a buffer of [cap] bytes; null clears it. *)
Definition set_text (cap : nat) (v : option bytes) : bytes := take (cap - 1) (default [] v).
Definition mini_net_set_proxy : option bytes → bytes := set_text (Z.to_nat 1024).
Definition mini_net_set_user_agent : option bytes → bytes := set_text 256.
Definition mini_net_get_user_agent (ua : bytes) : option bytes := if decide (ua = []) then None else Some ua.

Definition yes : Z → bool := λ _, true.
Example net_exchange :
  let io := map Bytes [str "HTTP/1.1 200 OK" ++ [13; 10]; str "Transfer-Encoding: chunked" ++ CRLF2 ++ str "3";
                       [13; 10] ++ str "abc" ++ [13; 10] ++ str "0" ++ CRLF2] in
  (let* r := mini_net_http yes 4096 (Net (λ _ _ _, true) (λ h p s _, if decide (h = str "h" ∧ p = 81) then Some io else None)) 5
               (Some (str "GET")) (Some (str "http://h:81/x")) None None in
   Ok (match r with Some (r, rc) => Some (r_status r, resp_body r, r_mime r, rc) | None => None end))%c
  = Ok (Some (200, Some (str "abc"), str "text/plain", 0)).
Proof. vm_compute. reflexivity. Qed.

(** ** The growing buffer *)

Lemma bb_grow_spec f nc need : 0 < nc <= 2 ^ 41 → 0 < need <= 2 ^ 40 → need <= nc * 2 ^ Z.of_nat f →
  let r := bb_grow f nc need in need <= r ∧ nc <= r ∧ (r = nc ∨ r < 2 * need).
Proof.
  revert nc. induction f as [|f IH]; intros nc Hnc Hn Hf; cbn [bb_grow]; cbv zeta.
  - change (2 ^ Z.of_nat 0) with 1 in Hf. split_and!; [lia|lia|by left].
  - destruct (decide (nc < need)) as [Hl|Hl]; [|split_and!; [lia|lia|by left]].
    rewrite Nat2Z.inj_succ, Z.pow_succ_r in Hf by lia.
    rewrite u64_small by lia. destruct (IH (nc * 2)) as (H1&H2&[H3|H3]); [lia|lia|lia|split_and!; lia..].
Qed.

Definition buf_ok (b : ByteBuf) : Prop :=
  0 <= b_cap b <= 2 ^ 41 ∧ (b_null b = true → b_data b = [] ∧ b_cap b = 0) ∧ (b_null b = false → blen b < b_cap b).

Lemma buf_ok_empty : buf_ok bb_empty.
Proof. split; [simpl; lia|]. by split. Qed.

Section alloc.
Context (realloc : Z → bool) (Hra : ∀ n, 0 < n <= 2 ^ 41 → realloc n = true).

(** While memory lasts, a put appends; the byte for a terminator stays free. *)
Lemma bb_put_ok b src : buf_ok b → blen b + Z.of_nat (length src) + 1 <= 2 ^ 40 →
  ∃ cap, bb_put realloc b src = Ok (Buf false (b_data b ++ src) cap) ∧ buf_ok (Buf false (b_data b ++ src) cap).
Proof using Hra.
  intros (Hc&Hn&Hd) Hl. unfold bb_put, bb_ensure.
  assert (0 <= blen b) as Hb0 by (unfold blen; lia).
  destruct (decide (b_cap b < blen b + Z.of_nat (length src) + 1)) as [Hlt|Hlt].
  - set (nc0 := if decide (b_cap b = 0) then 4096 else b_cap b).
    assert (0 < nc0 <= 2 ^ 41) as Hnc by (unfold nc0; destruct (decide (b_cap b = 0)); lia).
    destruct (bb_grow_spec 64 nc0 (blen b + Z.of_nat (length src) + 1) Hnc) as (H1&H2&H3); [lia| |].
    { change (2 ^ Z.of_nat 64) with (2 ^ 64). lia. }
    set (nc := bb_grow 64 nc0 _) in *. rewrite Hra by lia. cbn [b_null b_cap b_data].
    change (blen (Buf false (b_data b) nc)) with (blen b).
    rewrite decide_False by lia. exists nc. split; [done|]. split; [simpl; lia|]. split; [done|].
    intros _. unfold blen in *. cbn [b_data b_cap]. rewrite length_app. lia.
  - destruct (b_null b) eqn:En.
    + destruct (Hn eq_refl) as [_ Hc0]. lia.
    + rewrite decide_False by lia. exists (b_cap b). split; [done|]. split; [done|]. split; [done|].
      intros _. unfold blen in *. cbn [b_data b_cap]. rewrite length_app. lia.
Qed.

Lemma bb_puts_ok b l : buf_ok b → blen b + Z.of_nat (length (mjoin l)) + 1 <= 2 ^ 40 →
  l ≠ [] → ∃ cap, bb_puts realloc b l = Ok (Buf false (b_data b ++ mjoin l) cap) ∧ buf_ok (Buf false (b_data b ++ mjoin l) cap).
Proof using Hra.
  revert b. induction l as [|s l IH]; intros b Hb Hl Hne; [done|].
  change (mjoin (s :: l)) with (s ++ mjoin l) in *. cbn [bb_puts]. rewrite length_app in Hl. destruct (bb_put_ok b s Hb ltac:(lia)) as (cap&->&Hok). cbn [res_bind].
  destruct l as [|s' l].
  - change (mjoin []) with (@nil Z). rewrite app_nil_r. by exists cap.
  - destruct (IH (Buf false (b_data b ++ s) cap) Hok) as (cap'&E&Hok'); [|done|].
    + unfold blen in *. cbn [b_data]. rewrite length_app. lia.
    + exists cap'. cbn [b_data] in E, Hok'. rewrite <- app_assoc in E, Hok'. by split.
Qed.
End alloc.

(** ** Readers *)

(** What the readers ask of the callback: pieces of at most the size asked for,
    of one byte stream that ends where the callback closes or fails. *)
Class Recv {S : Type} (cb : nat → S → recv_out * S) := {
  left : S → nat;
  stream : S → bytes;
  recv_law : ∀ cap s, (0 < cap)%nat →
    match cb cap s with
    | (Got d, s') => d ≠ [] ∧ (length d <= cap)%nat ∧ stream s = d ++ stream s' ∧ (left s' < left s)%nat
    | (Retry, s') => stream s = stream s' ∧ (left s' < left s)%nat
    | (_, _) => stream s = []
    end }.

(** The callback of the client is one. *)
Fixpoint raw_stream (k : nat) (io : list raw) : bytes :=
  match k, io with
  | O, _ => []
  | _, [] => []
  | _, Bytes [] :: _ => []
  | _, Bytes d :: io => d ++ raw_stream RETRIES io
  | _, Error :: _ => []
  | S k, WouldBlock :: io => raw_stream k io
  end.
Definition raw_left (io : list raw) : nat :=
  sum_list_with (λ r, match r with Bytes d => S (length d) | _ => 1 end)%nat io.

Lemma RETRIES_S : RETRIES = S (Z.to_nat 99999).
Proof. apply Nat2Z.inj. vm_compute. reflexivity. Qed.
#[local] Opaque RETRIES.

Lemma net_recv_step k cap s : (0 < cap)%nat →
  match net_recv_loop k cap s with
  | (Got d, s') => d ≠ [] ∧ (length d <= cap)%nat ∧ raw_stream k s = d ++ raw_stream RETRIES s' ∧ (raw_left s' < raw_left s)%nat
  | (Retry, _) => False
  | (_, _) => raw_stream k s = []
  end.
Proof.
  intros Hcap. revert k. induction s as [|r s IH]; intros k; [by destruct k|].
  destruct k as [|k]; [done|]. destruct r as [d| |]; cbn [net_recv_loop raw_stream]; [| |done].
  - destruct d as [|x d]; [done|]. destruct (decide (length (x :: d) <= cap)%nat) as [Hl|Hl].
    + split_and!; [done|done|done|]. unfold raw_left. cbn [sum_list_with]. lia.
    + split_and!.
      * destruct cap; [lia|done].
      * rewrite length_take. lia.
      * rewrite RETRIES_S. cbn [raw_stream]. destruct (drop cap (x :: d)) as [|y e] eqn:Ed.
        { apply (f_equal length) in Ed. rewrite length_drop in Ed. simpl in Ed, Hl. lia. }
        rewrite app_assoc, <- Ed, take_drop. by rewrite <- RETRIES_S.
      * unfold raw_left. cbn [sum_list_with]. rewrite length_drop. simpl in Hl |- *. lia.
  - specialize (IH k). destruct (net_recv_loop k cap s) as [[d| | |] s']; try done.
    destruct IH as (?&?&?&?). split_and!; try done. unfold raw_left in *. cbn [sum_list_with]. lia.
Qed.

#[export] Program Instance net_recv_law : Recv net_recv := { left := raw_left; stream := raw_stream RETRIES }.
Next Obligation.
  intros cap s Hcap. unfold net_recv. pose proof (net_recv_step RETRIES cap s Hcap) as H.
  destruct (net_recv_loop RETRIES cap s) as [[d| | |] s']; done.
Qed.

Section readers.
Context (realloc : Z → bool) (Hra : ∀ n, 0 < n <= 2 ^ 41 → realloc n = true).
Context {S : Type} (cb : nat → S → recv_out * S) `{!Recv cb}.

Lemma READ_CAP_Z : Z.of_nat READ_CAP = 4096.
Proof. reflexivity. Qed.
#[local] Opaque READ_CAP.

(** A loop that is never told to stop collects the stream. *)
Lemma read_loop_spec stop fuel io buf : (left io < fuel)%nat → buf_ok buf →
  blen buf + Z.of_nat (length (stream io)) + 1 <= 2 ^ 40 →
  (∀ b, blen b <= blen buf + Z.of_nat (length (stream io)) → stop b = Ok false) →
  ∃ io' null cap, read_loop realloc cb stop fuel io buf = Ok (Some (io', Buf null (b_data buf ++ stream io) cap))
    ∧ buf_ok (Buf null (b_data buf ++ stream io) cap)
    ∧ (null = true → b_null buf = true ∧ stream io = []).
Proof using Hra Recv0.
  pose proof READ_CAP_Z. revert io buf. induction fuel as [|fuel IH]; intros io buf Hf Hb Hl Hs; [lia|].
  cbn [read_loop]. pose proof (recv_law READ_CAP io ltac:(lia)) as Hr.
  destruct (cb READ_CAP io) as [[d| | |] io'].
  - destruct Hr as (Hd&_&Es&Hlt). rewrite Es, length_app in *.
    destruct (bb_put_ok realloc Hra buf d Hb ltac:(lia)) as (cap&->&Hok). cbn [res_bind].
    assert (blen (Buf false (b_data buf ++ d) cap) = blen buf + Z.of_nat (length d)) as Eb.
    { unfold blen. cbn [b_data]. rewrite length_app. lia. }
    rewrite Hs by (rewrite Eb; lia). cbn [res_bind].
    destruct (IH io' (Buf false (b_data buf ++ d) cap) ltac:(lia) Hok) as (io''&null&cap'&E&Hok'&Hn).
    { rewrite Eb. lia. }
    { intros b0 Hb0. apply Hs. rewrite Eb in Hb0. lia. }
    cbn [b_data b_null] in *. rewrite <- app_assoc in E, Hok'. exists io'', null, cap'. split; [done|]. split; [done|].
    intros Hnull. by destruct (Hn Hnull).
  - rewrite Hr, app_nil_r. exists io', (b_null buf), (b_cap buf). by destruct buf.
  - destruct Hr as [Es Hlt]. rewrite Es in *. apply IH; [lia|done|done|done].
  - rewrite Hr, app_nil_r. exists io', (b_null buf), (b_cap buf). by destruct buf.
Qed.

Lemma read_exact_spec fuel io buf have need : (left io < fuel)%nat → buf_ok buf → (have <= need)%nat →
  blen buf + Z.of_nat (need - have) + 1 <= 2 ^ 40 →
  let n := (need - have)%nat in
  ∃ io' null cap, read_exact realloc cb fuel io buf have need
      = Ok (Some (io', Buf null (b_data buf ++ take n (stream io)) cap,
                  if decide (n <= length (stream io))%nat then 0 else -1))
    ∧ (if decide (n <= length (stream io))%nat then stream io = take n (stream io) ++ stream io' else True).
Proof using Hra Recv0.
  pose proof READ_CAP_Z. revert io buf have. induction fuel as [|fuel IH]; intros io buf have Hf Hb Hh Hl n; [lia|].
  cbn [read_exact]. destruct (decide (have < need)%nat) as [Hlt|Hlt].
  2:{ exists io, (b_null buf), (b_cap buf). replace n with 0%nat by lia. rewrite take_0, app_nil_r.
      rewrite decide_True by lia. by destruct buf. }
  set (want := if decide _ then READ_CAP else _).
  assert (0 < want ∧ want <= n)%nat as [Hw Hwn] by (unfold want; destruct (decide _); lia).
  pose proof (recv_law want io Hw) as Hr. destruct (cb want io) as [[d| | |] io'].
  - destruct Hr as (Hd&Hdl&Es&Hlf).
    destruct (bb_put_ok realloc Hra buf d Hb ltac:(lia)) as (cap&->&Hok). cbn [res_bind].
    destruct (IH io' (Buf false (b_data buf ++ d) cap) (have + length d)%nat) as (io''&null&cap'&E&Hs); [lia|done|lia| |].
    { unfold blen in *. cbn [b_data]. rewrite length_app. lia. }
    rewrite E. cbn [b_data]. replace (need - (have + length d))%nat with (n - length d)%nat in * by lia.
    exists io'', null, cap'. rewrite Es, take_app_ge by lia. rewrite <- app_assoc.
    assert ((n - length d <= length (stream io'))%nat ↔ (n <= length (d ++ stream io'))%nat) as Hiff
      by (rewrite length_app; lia).
    destruct (decide (n - length d <= length (stream io'))%nat) as [H1|H1].
    + rewrite !(decide_True (P := (n <= length (d ++ stream io'))%nat)) by (by apply Hiff).
      split; [done|]. rewrite <- app_assoc. f_equal. exact Hs.
    + by rewrite !(decide_False (P := (n <= length (d ++ stream io'))%nat)) by (by rewrite <- Hiff).
  - rewrite Hr. exists io', (b_null buf), (b_cap buf). rewrite take_nil, app_nil_r.
    rewrite !(decide_False (P := (n <= length [])%nat)) by (simpl; lia). by destruct buf.
  - destruct Hr as [Es Hlf]. rewrite Es. destruct (IH io' buf have ltac:(lia) Hb ltac:(lia) Hl) as (io''&null&cap&E&Hs).
    exists io'', null, cap. by split.
  - rewrite Hr. exists io', (b_null buf), (b_cap buf). rewrite take_nil, app_nil_r.
    rewrite !(decide_False (P := (n <= length [])%nat)) by (simpl; lia). by destruct buf.
Qed.

(** The readers, over any callback that delivers a byte stream in pieces:
    with more fuel than the callback has pieces left, reading until close
    appends the whole stream (up to its size limit), and reading exactly
    [need] bytes appends the first of them that were missing, leaves the rest
    of the stream unread, and fails exactly when the stream is too short. *)
Theorem net_readers fuel io buf have need : (left io < fuel)%nat → buf_ok buf → (have <= need)%nat →
  blen buf + Z.of_nat (need - have) + 1 <= 2 ^ 40 →
  blen buf + Z.of_nat (length (stream io)) <= 64 * 1024 * 1024 →
  (∃ io' null cap, read_until_close realloc cb fuel io buf
      = Ok (Some (io', Buf null (b_data buf ++ stream io) cap)))
  ∧ (∃ io' null cap,
      read_exact realloc cb fuel io buf have need
        = Ok (Some (io', Buf null (b_data buf ++ take (need - have) (stream io)) cap,
                    if decide (need - have <= length (stream io))%nat then 0 else -1))
      ∧ (need - have <= length (stream io) → stream io = take (need - have) (stream io) ++ stream io')%nat).
Proof using Hra Recv0.
  intros Hf Hb Hh Hl Hs. split.
  - destruct (read_loop_spec (λ buf, Ok (bool_decide (64 * 1024 * 1024 < blen buf))) fuel io buf Hf Hb) as (io'&null&cap&E&_).
    + lia.
    + intros b Hbl. rewrite bool_decide_eq_false_2 by lia. done.
    + by exists io', null, cap.
  - destruct (read_exact_spec fuel io buf have need Hf Hb Hh Hl) as (io'&null&cap&E&H).
    exists io', null, cap. split; [exact E|]. intros Hn. by rewrite decide_True in H by done.
Qed.
End readers.

Definition demo_io : list raw := [Bytes (str "ab"); WouldBlock; Bytes (str "cde")].

Lemma net_readers_witness :
  ∃ io' null cap, read_exact yes net_recv 9 demo_io bb_empty 1 4
    = Ok (Some (io', Buf null (str "abc") cap, 0)) ∧ raw_stream RETRIES io' = str "de".
Proof.
  destruct (net_readers yes (λ _ _, eq_refl) net_recv 9 demo_io bb_empty 1 4) as [_ (io'&null&cap&E&H)].
  - vm_compute. repeat constructor.
  - exact buf_ok_empty.
  - repeat constructor.
  - vm_compute. discriminate.
  - vm_compute. discriminate.
  - exists io', null, cap. split; [exact E|]. specialize (H ltac:(vm_compute; repeat constructor)).
    assert (raw_stream RETRIES demo_io = str "abcde") as Es by (vm_compute; reflexivity).
    change (stream demo_io) with (raw_stream RETRIES demo_io) in H. rewrite Es in H.
    apply (app_inv_head (str "abc")). exact (eq_sym H).
Defined.

(** ** Chunked bodies *)

Record chunk := Chunk { c_digits : bytes; c_ext : bytes; c_data : bytes }.
Definition hex_value (acc : Z) (hs : bytes) : Z := foldl (λ a c, a * 16 + default 0 (hexval c)) acc hs.

(** An extension starts with a semicolon and stays on its line. *)
Definition chunk_text (c : chunk) : bytes :=
  c_digits c ++ (if decide (c_ext c = []) then [] else 59 :: c_ext c) ++ [13; 10] ++ c_data c ++ [13; 10].
Definition chunk_ok (c : chunk) : Prop :=
  Forall (λ x, is_Some (hexval x)) (c_digits c) ∧ (0 < length (c_digits c) <= 16)%nat ∧ 10 ∉ c_ext c
  ∧ hex_value 0 (c_digits c) = Z.of_nat (length (c_data c)) ∧ c_data c ≠ [].
(** What may follow the chunks: nothing, or a zero size and anything. *)
Definition last_ok (f : bytes) : Prop := f = [] ∨ ∃ x r, f = 48 :: x :: r ∧ (x = 13 ∨ x = 10 ∨ x = 59).

Lemma hexval_range c v : hexval c = Some v → 0 <= v < 16 ∧ c ≠ 13 ∧ c ≠ 10 ∧ c ≠ 59.
Proof.
  unfold hexval. destruct (bool_decide (48 <= c <= 57)) eqn:E1; [apply bool_decide_eq_true in E1; intros [= <-]; lia|].
  destruct (bool_decide (97 <= c <= 102)) eqn:E2; [apply bool_decide_eq_true in E2; intros [= <-]; lia|].
  destruct (bool_decide (65 <= c <= 70)) eqn:E3; [apply bool_decide_eq_true in E3; intros [= <-]; lia|done].
Qed.

Lemma hex_line_digits hs x r acc h : Forall (λ x, is_Some (hexval x)) hs → (x = 13 ∨ x = 10 ∨ x = 59) →
  0 <= h → h + Z.of_nat (length hs) <= 16 → 0 <= acc < 16 ^ h →
  hex_line (hs ++ x :: r) acc h = Some (hex_value acc hs, x :: r)
  ∧ 0 <= hex_value acc hs < 16 ^ (h + Z.of_nat (length hs)).
Proof.
  intros Hh Hx. revert acc h. induction Hh as [|c hs [v Hv] _ IH]; intros acc h Hh0 Hl Ha.
  - simpl. rewrite bool_decide_eq_true_2 by (destruct Hx as [->|[->| ->]]; set_solver). rewrite Z.add_0_r. done.
  - destruct (hexval_range _ _ Hv) as (Hvr&N1&N2&N3). cbn [app hex_line length] in *.
    rewrite bool_decide_eq_false_2 by set_solver. rewrite Hv.
    assert (16 ^ (h + 1) = 16 * 16 ^ h) as Ep by (rewrite Z.pow_add_r by lia; lia).
    assert (16 ^ (h + 1) <= 16 ^ 16) as Hp by (apply Z.pow_le_mono_r; lia).
    change (16 ^ 16) with (2 ^ 64) in Hp. rewrite u64_small by nia. rewrite decide_False by lia.
    destruct (IH (acc * 16 + v) (h + 1)) as [E1 E2]; [lia|lia|nia|].
    assert (hex_value acc (c :: hs) = hex_value (acc * 16 + v) hs) as -> by (unfold hex_value; simpl; by rewrite Hv).
    rewrite E1. split; [done|]. replace (h + Z.of_nat (S (length hs))) with (h + 1 + Z.of_nat (length hs)) by lia. done.
Qed.

Lemma length_memmove b d s n : (d <= s)%nat → (s + n <= length b)%nat → length (memmove b d s n) = length b.
Proof. intros. unfold memmove, slice. rewrite !length_app, !length_take, !length_drop. lia. Qed.

Lemma memmove_take b d s n : (d <= s)%nat → (s + n <= length b)%nat →
  take (d + n) (memmove b d s n) = take d b ++ slice s n b.
Proof.
  intros. unfold memmove. rewrite app_assoc. apply take_app_length'.
  rewrite length_app, length_slice, length_take by lia. lia.
Qed.

Lemma memmove_drop b d s n k : (d <= s)%nat → (s + n <= length b)%nat → (d + n <= k)%nat →
  drop k (memmove b d s n) = drop k b.
Proof.
  intros. unfold memmove. rewrite app_assoc. rewrite drop_app_ge.
  - rewrite drop_drop. f_equal. rewrite length_app, length_slice, length_take by lia. lia.
  - rewrite length_app, length_slice, length_take by lia. lia.
Qed.

Lemma skip_to_lf e r : 10 ∉ e → tail (skip (λ c, negb (bool_decide (c = 10))) (e ++ 10 :: r)) = r.
Proof.
  intros He. rewrite skip_app; [done| |].
  - apply Forall_forall. intros c Hc. apply negb_true_iff, bool_decide_eq_false. intros ->. done.
  - intros c r' [= <- _]. by rewrite bool_decide_eq_true_2.
Qed.

Lemma drop_suffix (b : bytes) k p r : drop k b = p ++ r → (k <= length b)%nat →
  (length b - length r)%nat = (k + length p)%nat ∧ drop (k + length p) b = r.
Proof.
  intros E Hk. assert (length (drop k b) = length (p ++ r)) as El by (by rewrite E).
  rewrite length_drop, length_app in El. split; [lia|]. rewrite <- drop_drop, E. apply drop_app_length.
Qed.

(** One chunk. *)
Lemma dechunk_step fuel addr b src dst c rest : chunk_ok c → (rest = [] ∨ hd0 rest ≠ 13 ∧ hd0 rest ≠ 10) →
  0 <= addr → addr + Z.of_nat (length b) < 2 ^ 64 → (dst <= src <= length b)%nat →
  drop src b = chunk_text c ++ rest →
  ∃ b' src', dechunk_loop (S fuel) addr b src dst
      = dechunk_loop fuel addr b' src' (dst + length (c_data c))
    ∧ length b' = length b ∧ (dst + length (c_data c) <= src' <= length b)%nat ∧ drop src' b' = rest
    ∧ take (dst + length (c_data c)) b' = take dst b ++ c_data c.
Proof.
  intros (Hd&Hdl&He&Hv&Hne) Hrest Ha Hb Hds E.
  set (pre := c_digits c ++ (if decide (c_ext c = []) then [] else 59 :: c_ext c) ++ [13; 10]).
  assert (chunk_text c ++ rest = pre ++ c_data c ++ [13; 10] ++ rest) as Et.
  { unfold chunk_text, pre. by rewrite <- !app_assoc. }
  rewrite Et in E. destruct (drop_suffix _ _ _ _ E (proj2 Hds)) as [Es Ed].
  assert (length b - src = length pre + (length (c_data c) + (2 + length rest)))%nat as Elen.
  { rewrite <- (length_drop b src), E, !length_app. simpl. lia. }
  cbn [dechunk_loop]. rewrite decide_True by lia.
  assert (∃ x r e, drop src b = c_digits c ++ x :: r ∧ (x = 13 ∨ x = 10 ∨ x = 59)
    ∧ x :: r = e ++ 10 :: c_data c ++ [13; 10] ++ rest ∧ 10 ∉ e) as (x&r&e&Ex&Hx&Er&Hen).
  { rewrite E. unfold pre. destruct (decide (c_ext c = [])).
    - exists 13, (10 :: c_data c ++ [13; 10] ++ rest), [13]. rewrite <- !app_assoc. split_and!; try done; [by left|set_solver].
    - exists 59, (c_ext c ++ [13; 10] ++ c_data c ++ [13; 10] ++ rest), (59 :: c_ext c ++ [13]).
      split_and!; [by rewrite <- !app_assoc|by right; right|simpl; by rewrite <- app_assoc|].
      rewrite not_elem_of_cons, not_elem_of_app. set_solver. }
  destruct (hex_line_digits (c_digits c) x r 0 0 Hd Hx) as [Eh _]; [lia|lia|simpl; lia|].
  rewrite Ex, Eh, Hv, Er, skip_to_lf by done. rewrite Es.
  destruct (c_data c) as [|d0 ds] eqn:Edata; [done|]. rewrite <- Edata in *.
  rewrite decide_False by (rewrite Edata; simpl; lia). rewrite u64_small by lia.
  rewrite decide_False by lia. rewrite decide_False by (rewrite length_app; lia). rewrite Nat2Z.id.
  set (src1 := (src + length pre)%nat) in *. set (n := length (c_data c)) in *.
  assert (slice src1 n b = c_data c) as Esl by (unfold slice; rewrite Ed; apply take_app_length).
  rewrite memmove_drop by lia.
  assert (drop (src1 + n) b = [13; 10] ++ rest) as Ed2 by (rewrite <- drop_drop, Ed; apply drop_app_length).
  rewrite Ed2. rewrite skip_app.
  2:{ repeat constructor. }
  2:{ intros c0 r0 ->. destruct Hrest as [|[H1 H2]]; [done|]. simpl in H1, H2.
      by rewrite !bool_decide_eq_false_2. }
  eexists (memmove b dst src1 n), _. split; [done|]. rewrite length_memmove by lia. split; [done|].
  assert (drop (src1 + n + 2) b = rest) as Ed3 by (rewrite <- drop_drop, Ed2; done).
  assert (length b - length rest = src1 + n + 2)%nat as -> by lia.
  split; [lia|]. split; [by rewrite memmove_drop by lia|]. rewrite memmove_take by lia. by rewrite Esl.
Qed.

Lemma hd_not_crlf c r : chunk_ok c → hd0 (chunk_text c ++ r) ≠ 13 ∧ hd0 (chunk_text c ++ r) ≠ 10.
Proof.
  intros (Hd&Hl&_). unfold chunk_text. destruct (c_digits c) as [|x xs]; [simpl in Hl; lia|].
  apply Forall_cons in Hd as [[v Hv] _]. apply hexval_range in Hv. simpl. lia.
Qed.

Lemma dechunk_chunks cs fuel addr b src dst f : Forall chunk_ok cs → last_ok f → (length cs < fuel)%nat →
  0 <= addr → addr + Z.of_nat (length b) < 2 ^ 64 → (dst <= src <= length b)%nat →
  drop src b = mjoin (map chunk_text cs) ++ f →
  ∃ b' n, dechunk_loop fuel addr b src dst = Ok (Some (b', n)) ∧ take n b' = take dst b ++ mjoin (map c_data cs).
Proof.
  revert fuel b src dst. induction cs as [|c cs IH]; intros fuel b src dst Hcs Hf Hfu Ha Hb Hds E;
    destruct fuel as [|fuel]; simpl in Hfu; try lia.
  - exists b, dst. simpl. rewrite app_nil_r. split; [|done]. destruct (decide (src < length b)%nat) as [Hs|]; [|done].
    destruct Hf as [->|(x&r&->&Hx)].
    { apply (f_equal length) in E. rewrite length_drop in E. simpl in E. lia. }
    change (mjoin (map chunk_text [])) with (@nil Z) in E. cbn [app] in E.
    rewrite E. destruct (hex_line_digits [48] x r 0 0) as [Eh _]; [repeat constructor; by exists 0|done|lia|simpl; lia|simpl; lia|].
    cbn [app] in Eh. rewrite Eh. done.
  - apply Forall_cons in Hcs as [Hc Hcs]. change (mjoin (map chunk_text (c :: cs))) with (chunk_text c ++ mjoin (map chunk_text cs)) in E.
    rewrite <- app_assoc in E.
    destruct (dechunk_step fuel addr b src dst c (mjoin (map chunk_text cs) ++ f) Hc) as (b'&src'&E1&El&Hs'&Ed&Et); try done.
    { destruct cs as [|c' cs].
      - destruct Hf as [->|(x&r&->&_)]; [by left|right]. simpl. lia.
      - right. change (mjoin (map chunk_text (c' :: cs))) with (chunk_text c' ++ mjoin (map chunk_text cs)).
        rewrite <- app_assoc. apply hd_not_crlf. by apply Forall_cons in Hcs as [? _]. }
    rewrite E1. destruct (IH fuel b' src' (dst + length (c_data c))%nat Hcs Hf) as (b''&n&E2&Et2); try lia; [done|].
    exists b'', n. split; [done|]. rewrite Et2, Et, <- app_assoc. done.
Qed.

Lemma hex_line_suffix s acc h : match hex_line s acc h with
  | Some (v, r) => ∃ p, s = p ++ r ∧ (p = [] → v = acc)
  | None => True end.
Proof.
  revert acc h. induction s as [|c s IH]; intros acc h; cbn [hex_line]; [by exists []|].
  destruct (bool_decide _); [by exists []|]. destruct (hexval c) as [v|]; [|by exists []].
  destruct (decide _); [done|]. specialize (IH (u64 (acc * 16 + v)) (h + 1)).
  destruct (hex_line s _ _) as [[w r]|]; [|done]. destruct IH as (p&->&_). by exists (c :: p).
Qed.

(** The loop ends, and stays inside the body. *)
Lemma dechunk_loop_total fuel addr b src dst : (length b - src < fuel)%nat → (dst <= src <= length b)%nat →
  dechunk_loop fuel addr b src dst = UB ∨
  ∃ b' n, dechunk_loop fuel addr b src dst = Ok (Some (b', n)) ∧ length b' = length b ∧ (n <= length b)%nat.
Proof.
  revert b src dst. induction fuel as [|fuel IH]; intros b src dst Hf Hd; [lia|]. cbn [dechunk_loop].
  destruct (decide (src < length b)%nat) as [Hs|]; [|right; exists b, dst; split_and!; [done|done|lia]].
  pose proof (hex_line_suffix (drop src b) 0 0) as Hh. destruct (hex_line _ 0 0) as [[csz s]|].
  2:{ right. exists b, 0%nat. split_and!; [done|done|lia]. }
  destruct Hh as (p&Ep&Hp). set (t := tail (skip (λ c, negb (bool_decide (c = 10))) s)).
  destruct (decide (csz = 0)) as [|Hc]; [right; exists b, dst; split_and!; [done|done|lia]|].
  assert (p ≠ []) as Hpn by (intros ->; by apply Hc, Hp).
  assert (length t <= length s)%nat as Ht.
  { unfold t. pose proof (length_skip (λ c, negb (bool_decide (c = 10))) s). destruct (skip _ s); simpl in *; lia. }
  assert (length (drop src b) = length p + length s)%nat as El by (by rewrite Ep, length_app).
  rewrite length_drop in El. assert (0 < length p)%nat by (destruct p; [done|simpl; lia]).
  destruct (decide (_ < u64 _)); [right; exists b, 0%nat; split_and!; [done|done|lia]|].
  destruct (decide (Z.of_nat (length t) < csz)) as [|Hle]; [by left|].
  destruct (decide (csz < 0)) as [Hneg|Hneg].
  - replace (Z.to_nat csz) with 0%nat by lia. set (m := memmove b dst (length b - length t) 0).
    assert (length m = length b) as Em by (apply length_memmove; lia).
    rewrite <- Em. set (r := skip _ (drop _ m)). pose proof (length_skip (λ c, bool_decide (c = 13) || bool_decide (c = 10)) (drop (length m - length t + 0) m)) as Hr.
    fold r in Hr. rewrite length_drop in Hr.
    destruct (IH m (length m - length r)%nat (dst + 0)%nat) as [|(b'&k&E&E1&E2)]; [lia|lia|by left|].
    right. exists b', k. split_and!; [done|lia|lia].
  - set (nn := Z.to_nat csz). assert (Z.of_nat nn = csz) as En by lia.
    set (m := memmove b dst (length b - length t) nn).
    assert (length m = length b) as Em by (apply length_memmove; lia).
    rewrite <- Em. set (r := skip _ (drop _ m)). pose proof (length_skip (λ c, bool_decide (c = 13) || bool_decide (c = 10)) (drop (length m - length t + nn) m)) as Hr.
    fold r in Hr. rewrite length_drop in Hr.
    destruct (IH m (length m - length r)%nat (dst + nn)%nat) as [|(b'&k&E&E1&E2)]; [lia|lia|by left|].
    right. exists b', k. split_and!; [done|lia|lia].
Qed.

Lemma chunks_length cs : Forall chunk_ok cs → (length cs <= length (mjoin (map chunk_text cs)))%nat.
Proof.
  induction 1 as [|c cs (_&Hl&_) _ IH]; [done|].
  change (mjoin (map chunk_text (c :: cs))) with (chunk_text c ++ mjoin (map chunk_text cs)).
  unfold chunk_text at 1. rewrite !length_app. simpl. lia.
Qed.

(** Decoding a chunked body in place gives the data of the chunks in order,
    for every list of chunks with their extensions, with or without the final
    zero chunk and whatever follows it. *)
Theorem net_dechunk_roundtrip addr cs f : Forall chunk_ok cs → last_ok f → 0 <= addr →
  let body := mjoin (map chunk_text cs) ++ f in
  addr + Z.of_nat (length body) < 2 ^ 64 →
  ∃ b n, dechunk addr body = Ok (Some (b, n)) ∧ take n b = mjoin (map c_data cs).
Proof.
  intros Hc Hf Ha body Hb. unfold dechunk.
  destruct (dechunk_chunks cs (S (length body)) addr body 0 0 f) as (b&n&E&Et); try done; try lia.
  - pose proof (chunks_length cs Hc). unfold body. rewrite length_app. lia.
  - exists b, n. by rewrite take_0 in Et.
Qed.

Lemma net_dechunk_roundtrip_witness :
  ∃ b n, dechunk 4096 (str "3;x" ++ [13; 10] ++ str "abc" ++ [13; 10] ++ str "00A" ++ [13; 10] ++ str "0123456789"
            ++ [13; 10] ++ str "0" ++ CRLF2) = Ok (Some (b, n)) ∧ take n b = str "abc0123456789".
Proof.
  destruct (net_dechunk_roundtrip 4096 [Chunk (str "3") (str "x") (str "abc"); Chunk (str "00A") [] (str "0123456789")]
    (str "0" ++ CRLF2)) as (b&n&E&Et).
  - assert (∀ c, bool_decide (Forall (λ x, is_Some (hexval x)) (c_digits c)) && bool_decide (0 < length (c_digits c) <= 16)%nat
      && bool_decide (10 ∉ c_ext c) && bool_decide (hex_value 0 (c_digits c) = Z.of_nat (length (c_data c)))
      && bool_decide (c_data c ≠ []) = true → chunk_ok c) as H.
    { intros c. rewrite !andb_true_iff, !bool_decide_eq_true. intros [[[[? ?] ?] ?] ?]. unfold chunk_ok; tauto. }
    apply Forall_cons. split; [apply H; vm_compute; reflexivity|].
    apply Forall_cons. split; [apply H; vm_compute; reflexivity|]. by apply Forall_nil.
  - right. exists 13, [10; 13; 10]. split; [reflexivity|by left].
  - discriminate.
  - reflexivity.
  - exists b, n. split; [exact E|exact Et].
Defined.

(** Decoding any body ends, and unless a size makes the end of a chunk wrap
    around the address space, it returns at most as many bytes as it was given,
    in the memory it was given. *)
Theorem net_dechunk_total addr body :
  dechunk addr body = UB ∨
  ∃ b n, dechunk addr body = Ok (Some (b, n)) ∧ length b = length body ∧ (n <= length body)%nat.
Proof. unfold dechunk. apply dechunk_loop_total; lia. Qed.

Lemma dechunk_wrap hs addr rest : Forall (λ x, is_Some (hexval x)) hs → length hs = 16%nat →
  hex_value 0 hs = 2 ^ 64 - 1 → 0 <= addr → addr + 18 + Z.of_nat (length rest) < 2 ^ 63 →
  dechunk addr (hs ++ 13 :: 10 :: rest) = UB.
Proof.
  intros Hh Hl Hv Ha Hb. unfold dechunk.
  assert (length (hs ++ 13%Z :: 10%Z :: rest) = 18 + length rest)%nat as El by (rewrite length_app; simpl; lia).
  cbn [dechunk_loop]. rewrite El, decide_True by lia. rewrite drop_0.
  destruct (hex_line_digits hs 13 (10 :: rest) 0 0 Hh) as [Eh _]; [by left|lia|lia|lia|].
  rewrite Eh, Hv. cbn [skip]. change (negb (bool_decide (13 = 10))) with true. cbn iota.
  change (negb (bool_decide (10 = 10))) with false. cbn iota. cbn [tail].
  rewrite decide_False by lia.
  replace (18 + length rest - length rest)%nat with 18%nat by lia.
  assert (u64 (addr + Z.of_nat 18 + (2 ^ 64 - 1)) = addr + 17) as ->.
  { replace (addr + Z.of_nat 18 + (2 ^ 64 - 1)) with (addr + 17 + 1 * 2 ^ 64) by lia.
    unfold u64. rewrite Z.mod_add, Z.mod_small by lia. done. }
  rewrite decide_False by lia. by rewrite decide_True by lia.
Qed.

(** A size of sixteen f's passes the test for a truncated chunk and moves memory
    past the end of the body. *)
Lemma net_dechunk_wrap addr rest : 0 <= addr → addr + 18 + Z.of_nat (length rest) < 2 ^ 63 →
  dechunk addr (str "ffffffffffffffff" ++ [13; 10] ++ rest) = UB.
Proof.
  apply (dechunk_wrap (str "ffffffffffffffff")); [|reflexivity|vm_compute; reflexivity].
  refine (bool_decide_eq_true_1 _ _). vm_compute. reflexivity.
Qed.

(** ** URLs *)

Lemma digits_ge acc ds : 0 <= acc → acc <= digits acc ds.
Proof.
  revert acc. induction ds as [|c ds IH]; intros acc Ha; simpl; [lia|].
  destruct (c_isdigit c) eqn:E; [|lia]. apply c_isdigit_true in E. specialize (IH (acc * 10 + (c - 48))). lia.
Qed.

Lemma url_port_digits acc ds r : Forall (λ c, 48 <= c <= 57) ds → 0 <= acc → digits acc ds < 2 ^ 31 →
  c_isdigit (hd0 r) = false → url_port acc (ds ++ r) = Ok (digits acc ds, r).
Proof.
  intros Hd. revert acc. induction Hd as [|c ds Hc _ IH]; intros acc Ha Hlt Hr.
  - simpl. destruct r as [|x r]; [done|]. simpl in Hr |- *. by rewrite Hr.
  - simpl in Hlt |- *. rewrite (proj2 (c_isdigit_true c) Hc) in *.
    pose proof (digits_ge (acc * 10 + (c - 48)) ds ltac:(lia)). rewrite decide_True by lia. apply IH; [lia|done|done].
Qed.

Definition print_url (https : bool) (host : bytes) (port : option Z) (path : bytes) : bytes :=
  (if https then str "https://" else str "http://") ++ host ++
  match port with Some p => 58 :: c_dec p | None => [] end ++ path.

(** A URL made of a scheme, a host that fits, a port or none, and a path or
    none is taken apart again; without a port it is the scheme's, without a
    path it is /. *)
Theorem net_parse_url https host port path hcap pcap :
  host ≠ [] → Forall (λ c, c ∉ [58; 47]) host → (length host < hcap)%nat →
  match port with Some p => 0 < p < 2 ^ 31 | None => True end →
  (path = [] ∨ hd0 path = 47 ∧ (length path < pcap)%nat) →
  parse_url (print_url https host port path) hcap pcap
  = Ok (Some (Url host (default (if https then 443 else 80) port) (if decide (path = []) then str "/" else path) https)).
Proof.
  intros Hh Hf Hhc Hp Hpath. unfold parse_url, print_url.
  set (rest := host ++ match port with Some p => 58 :: c_dec p | None => [] end ++ path).
  assert ((match expects (str "http://") ((if https then str "https://" else str "http://") ++ rest) with
    | Some p => (p, false)
    | None => match expects (str "https://") ((if https then str "https://" else str "http://") ++ rest) with
              | Some p => (p, true) | None => ((if https then str "https://" else str "http://") ++ rest, false) end
    end) = (rest, https)) as ->.
  { destruct https; [|by rewrite expects_app]. rewrite (expects_app (str "https://")).
    unfold expects. by rewrite starts_with_differ by reflexivity. }
  assert (hd0 path = 47 ∨ path = []) as Hpa by (destruct Hpath as [|[? _]]; auto).
  assert (scan (λ c, bool_decide (c ∉ [58; 47])) (hcap - 1) rest
    = (host, match port with Some p => 58 :: c_dec p | None => [] end ++ path)) as ->.
  { apply scan_app; [|lia|].
    - eapply Forall_impl; [exact Hf|]. intros c Hc. by apply bool_decide_eq_true.
    - intros c r' E. apply bool_decide_eq_false. intros Hn. apply Hn. destruct port as [p|].
      + injection E as <- _. set_solver.
      + cbn [app] in E. subst path. destruct Hpa as [Hpa|]; [|done]. simpl in Hpa. subst. set_solver. }
  assert (c_isdigit (hd0 path) = false) as Hnd by (destruct Hpa as [->| ->]; done).
  assert (expect 58 path = None) as Hne.
  { destruct path as [|x path]; [done|]. destruct Hpa as [Hpa|]; [|done]. simpl in Hpa |- *. by rewrite Hpa. }
  assert ((if decide (hd0 path = 47) then take (pcap - 1) path else str "/") = (if decide (path = []) then str "/" else path)) as Ep.
  { destruct Hpath as [->|[H47 Hl]]; [done|]. rewrite H47, decide_True by done. destruct (decide (path = [])) as [->|]; [done|].
    apply take_ge. lia. }
  destruct port as [p|].
  - cbn [app]. rewrite expect_cons. unfold c_dec. rewrite decide_False by lia.
    rewrite url_port_digits; [|apply udec_digits; lia|lia|rewrite digits_udec; lia|done].
    rewrite digits_udec by lia. cbn [res_bind]. rewrite (decide_False (P := p = 0)) by lia. cbn [res_bind default].
    rewrite Ep. by rewrite (decide_False (P := host = [])).
  - cbn [app]. rewrite Hne. cbn [res_bind default]. rewrite Ep. by rewrite (decide_False (P := host = [])).
Qed.

Lemma net_parse_url_witness :
  parse_url (str "https://example.org:8443/a?b") 256 1024 = Ok (Some (Url (str "example.org") 8443 (str "/a?b") true)).
Proof.
  refine (net_parse_url true (str "example.org") (Some 8443) (str "/a?b") 256 1024 _ _ _ _ _).
  - discriminate.
  - refine (bool_decide_eq_true_1 _ _). vm_compute. reflexivity.
  - refine (bool_decide_eq_true_1 _ _). vm_compute. reflexivity.
  - split; reflexivity.
  - right. split; [reflexivity|]. refine (bool_decide_eq_true_1 _ _). vm_compute. reflexivity.
Defined.

(** Without a path, a query becomes part of the host; a long port is undefined. *)
Example net_url_oddities :
  (let* r := parse_url (str "http://h?q=1") 256 64 in Ok (u_host <$> r))%c = Ok (Some (str "h?q=1"))
  ∧ parse_url (str "http://h:99999999999/") 256 64 = UB.
Proof. vm_compute. auto. Qed.

(** ** One exchange *)

Definition connection_line (pooled : bool) : bytes :=
  [13; 10] ++ (if pooled then str "Connection: keep-alive" ++ [13; 10; 0] else str "Connection: close" ++ [13; 10]).

(** The head of a request as one text. *)
Definition request_head (pooled : bool) (method path host : bytes) (extra body : option bytes) : bytes :=
  let body := default [] body in
  method ++ str " " ++ path ++ str " HTTP/1.1" ++ [13; 10] ++ str "Host: " ++ host ++ connection_line pooled ++
  USER_AGENT ++ str "Accept: */*" ++ [13; 10] ++ str "Accept-Language: en-US,en;q=0.9" ++ [13; 10] ++
  (if decide (body = []) then [] else
     str "Content-Length: " ++ c_dec (Z.of_nat (length body)) ++ [13; 10] ++
     match extra with
     | Some x => if decide (strstr x (str "Content-Type") = None)
                 then str "Content-Type: application/x-www-form-urlencoded" ++ [13; 10] else []
     | None => [] end) ++
  match extra with
  | Some ((_ :: _) as x) => x ++ (if decide (last x = Some 10) then [] else [13; 10])
  | _ => [] end ++ [13; 10].

(** The counts given to [bb_put] are those of the texts, but for one. *)
Lemma lits :
  lit 1 (str " ") = str " " ∧ lit 17 (str " HTTP/1.1" ++ [13; 10] ++ str "Host: ") = str " HTTP/1.1" ++ [13; 10] ++ str "Host: "
  ∧ lit 27 ([13; 10] ++ str "Connection: keep-alive" ++ [13; 10]) = connection_line true
  ∧ lit 21 ([13; 10] ++ str "Connection: close" ++ [13; 10]) = connection_line false
  ∧ lit 49 (str "Content-Type: application/x-www-form-urlencoded" ++ [13; 10])
    = str "Content-Type: application/x-www-form-urlencoded" ++ [13; 10]
  ∧ lit 2 [13; 10] = [13; 10].
Proof. vm_compute. auto 10. Qed.

Lemma request_pieces_text pooled method path host extra body :
  mjoin (fst (request_pieces pooled method path host extra body)) = request_head pooled method path host extra body
  ∧ mjoin (snd (request_pieces pooled method path host extra body)) = default [] body.
Proof.
  unfold request_pieces, request_head. destruct lits as (->&->&->&->&->&->). cbn [fst snd].
  assert (∀ l l' : list bytes, mjoin (l ++ l') = mjoin l ++ mjoin l') as J.
  { induction l as [|x l IH]; intros l'; [done|]. simpl. by rewrite IH, app_assoc. }
  assert (∀ x (l : list bytes), mjoin (x :: l) = x ++ mjoin l) as C by done.
  split.
  - rewrite !J, !C. change (mjoin []) with (@nil Z). rewrite !app_nil_r, <- !app_assoc.
    assert ((if pooled then connection_line true else connection_line false) = connection_line pooled) as -> by (by destruct pooled).
    do 13 (apply f_equal2; [done|]). apply f_equal2.
    { destruct (decide (default [] body = [])); [done|]. rewrite C, <- !app_assoc.
      destruct extra as [x|]; [destruct (decide (strstr x _ = None))|]; rewrite ?C; change (mjoin []) with (@nil Z); rewrite ?app_nil_r; done. }
    apply f_equal2; [|done]. destruct extra as [[|c x]|]; [done| |done]. rewrite C.
    destruct (decide (last (c :: x) = Some 10)); rewrite ?C; change (mjoin []) with (@nil Z); rewrite ?app_nil_r; done.
  - destruct (decide (default [] body = [])) as [->|]; [done|]. rewrite C. change (mjoin []) with (@nil Z). apply app_nil_r.
Qed.

Section exchange.
Context (realloc : Z → bool) (Hra : ∀ n, 0 < n <= 2 ^ 41 → realloc n = true).

Lemma http_request_text pooled method path host extra body :
  let head := request_head pooled method path host extra body in
  Z.of_nat (length head) + Z.of_nat (length (default [] body)) + 1 <= 2 ^ 40 →
  http_request realloc pooled method path host extra body = Ok (head ++ default [] body, head).
Proof using Hra.
  intros head Hl.
  unfold http_request. destruct (request_pieces_text pooled method path host extra body) as [Eh Eb]. fold head in Eh.
  assert (fst (request_pieces pooled method path host extra body) ≠ []) as Hne by done.
  assert (snd (request_pieces pooled method path host extra body) = if decide (default [] body = []) then [] else [default [] body]) as Es by done.
  destruct (request_pieces pooled method path host extra body) as [l r]. cbn [fst snd] in *.
  destruct (bb_puts_ok realloc Hra bb_empty l buf_ok_empty) as (cap&E1&Hok); [|done|].
  { rewrite Eh. unfold blen. simpl. lia. }
  rewrite E1. cbn [res_bind b_data bb_empty app] in *. rewrite Eh in *.
  destruct (decide (default [] body = [])) as [E0|E0].
  - rewrite Es. cbn [bb_puts res_bind b_data]. by rewrite E0, app_nil_r.
  - destruct (bb_puts_ok realloc Hra _ r Hok) as (cap'&E2&_); [rewrite Eb; unfold blen; simpl; lia|by rewrite Es|].
    rewrite E2. cbn [res_bind b_data]. by rewrite Eb.
Qed.

(** The request on the wire is the text of its lines: request line, Host,
    Connection, the fixed headers, the body's length and type, the caller's
    headers, the blank line, the body; every literal is put with its own
    length, except that a keep-alive request has a zero byte after its
    Connection line. *)
Theorem net_request_wire pooled method path host extra body :
  let head := request_head pooled method path host extra body in
  Z.of_nat (length head) + Z.of_nat (length (default [] body)) + 1 <= 2 ^ 40 →
  http_request realloc pooled method path host extra body = Ok (head ++ default [] body, head)
  ∧ (0 ∈ connection_line pooled ↔ pooled = true).
Proof using Hra.
  intros head Hl. split; [by apply http_request_text|].
  assert (∀ p, bool_decide (0 ∈ connection_line p) = p) as H by (intros []; vm_compute; reflexivity).
  rewrite <- (H pooled) at 2. by rewrite bool_decide_eq_true.
Qed.
End exchange.

Lemma net_request_wire_witness :
  http_request yes false (str "GET") (str "/") (str "h") None None
    = Ok (request_head false (str "GET") (str "/") (str "h") None None, request_head false (str "GET") (str "/") (str "h") None None).
Proof.
  refine (eq_trans (proj1 (net_request_wire yes (λ _ _, eq_refl) false (str "GET") (str "/") (str "h") None None _)) _).
  - vm_compute. discriminate.
  - reflexivity.
Defined.

(** The first blank line of a text. *)
Lemma strstr_first (p a t : bytes) : p ≠ [] → strstr (a ++ take (length p - 1) p) p = None →
  strstr (a ++ p ++ t) p = Some (length a).
Proof.
  intros Hp. assert (0 < length p)%nat by (destruct p; [done|simpl; lia]). induction a as [|x a IH]; intros Hn.
  - cbn [app length]. destruct p as [|y p]; [done|]. cbn [app strstr].
    by rewrite (proj2 (starts_with_true (y :: p) (y :: p ++ t))) by (by exists t).
  - cbn [app strstr length] in *. destruct (starts_with p (x :: a ++ take (length p - 1) p)) eqn:E1; [done|].
    assert (starts_with p (x :: a ++ p ++ t) = false) as ->.
    { rewrite <- E1. unfold starts_with. apply bool_decide_ext.
      rewrite !(app_comm_cons _ _ x), !(take_app (x :: a)).
      assert (take (length p - length (x :: a)) (p ++ t) = take (length p - length (x :: a)) (take (length p - 1) p)) as ->; [|done].
      rewrite take_take, take_app_le by lia. f_equal. simpl. lia. }
    apply fmap_None in Hn. by rewrite IH.
Qed.

Lemma c_string_app a t : 0 ∉ a → c_string (a ++ t) = a ++ c_string t.
Proof.
  intros Ha. unfold c_string. rewrite length_app. induction a as [|x a IH]; [done|].
  apply not_elem_of_cons in Ha as [Hx Ha]. cbn [app length scan Nat.add].
  rewrite bool_decide_eq_false_2 by done. cbn [negb]. specialize (IH Ha).
  destruct (scan _ (length a + length t) (a ++ t)) as [u r]. cbn [fst] in *. by rewrite IH.
Qed.
Lemma c_string_nonul a : 0 ∉ a → c_string a = a.
Proof. intros Ha. rewrite <- (app_nil_r a) at 1. rewrite c_string_app by done. apply app_nil_r. Qed.

Lemma bb_strstr_first b a t cap : 0 ∉ a → strstr (a ++ [13; 10; 13]) CRLF2 = None →
  bb_strstr (Buf b (a ++ CRLF2 ++ t) cap) CRLF2 = Ok (Some (length a)).
Proof.
  intros Ha Hn. unfold bb_strstr. cbn [b_data]. fold (c_string (a ++ CRLF2 ++ t)).
  rewrite c_string_app by done. rewrite c_string_app by (unfold CRLF2; set_solver).
  by rewrite strstr_first.
Qed.

(** C37. The response of an exchange, for a header block without a zero byte that
    ends at the first blank line: status, headers and type come from the
    block; a body announced as chunked is the data of its chunks, one with a
    length that has arrived is cut to it, any other is what arrived.  A
    response without a blank line or a zero byte makes the search for one
    leave the buffer. *)
Theorem net_response addr h b cap :
  0 ∉ h → strstr (h ++ [13; 10; 13]) CRLF2 = None →
  let mime := if decide (mime_of h = []) then str "text/plain" else mime_of h in
  let resp := Buf false (h ++ CRLF2 ++ b) cap in
  (has_ci h (str "chunked") = false →
    http_response addr resp = Ok (Some (status_of h, h,
      if decide (0 <= cl_of h <= Z.of_nat (length b)) then take (Z.to_nat (cl_of h)) b else b, mime)))
  ∧ (∀ cs f, has_ci h (str "chunked") = true → cl_of h < 0 → Forall chunk_ok cs → last_ok f → 0 <= addr →
      addr + Z.of_nat (length b) < 2 ^ 64 → b = mjoin (map chunk_text cs) ++ f →
      http_response addr resp = Ok (Some (status_of h, h, mjoin (map c_data cs), mime)))
  ∧ (∀ cap', h ≠ [] → strstr h CRLF2 = None → http_response addr (Buf false h cap') = UB).
Proof.
  intros Hz Hs mime resp.
  assert (bb_strstr resp CRLF2 = Ok (Some (length h))) as Hsplit by (by apply bb_strstr_first).
  assert (b_null resp || bool_decide (b_data resp = []) = false) as Hne.
  { simpl. apply bool_decide_eq_false. by intros [_ ?]%app_eq_nil. }
  unfold http_response. rewrite Hne, Hsplit. cbn [res_bind b_data resp].
  rewrite take_app_length, app_assoc, drop_app_length' by (rewrite length_app; done).
  rewrite c_string_nonul by done. split_and!.
  - intros Hc. by rewrite Hc.
  - intros cs f Hc Hcl Hcs Hf Ha Hb Eb. rewrite Hc. rewrite decide_False by lia.
    destruct (dechunk_chunks cs (S (length b)) addr b 0 0 f) as (b'&n&E&Et); try done; try lia.
    { rewrite Eb, length_app. pose proof (chunks_length cs Hcs). lia. }
    unfold dechunk. rewrite E. cbn [res_bind]. rewrite take_0 in Et. by rewrite Et.
  - intros cap' Hh Hn. cbn [b_null b_data orb]. rewrite bool_decide_eq_false_2 by done.
    unfold bb_strstr. cbn [b_data]. fold (c_string h). rewrite c_string_nonul, Hn by done. by rewrite decide_False.
Qed.

Definition demo_head : bytes := str "HTTP/1.1 404 Not Found" ++ [13; 10] ++ str "Content-Type: text/html; charset=x" ++ [13; 10] ++
  str "content-length: 2".

Lemma net_response_witness :
  http_response 4096 (Buf false (demo_head ++ CRLF2 ++ str "abc") 99)
  = Ok (Some (404, demo_head, str "ab", str "text/html")).
Proof.
  destruct (net_response 4096 demo_head (str "abc") 99) as [H _].
  - refine (bool_decide_eq_true_1 _ _). vm_compute. reflexivity.
  - vm_compute. reflexivity.
  - specialize (H eq_refl). refine (eq_trans H _). vm_compute. reflexivity.
Defined.

(** What [mini_net_http] returns from the parts of a response. *)
Definition exchange_record (m u : bytes) (head : option bytes) (sent : option bytes)
    (r : option (Z * bytes * bytes * bytes)) : MiniNetRecord * Z :=
  match r with
  | None => (Rec (take 7 m) (take (Z.to_nat 1023) u) head sent 0 None None [] false 0 true, -1)
  | Some (st, h, b, mime) =>
    (Rec (take 7 m) (take (Z.to_nat 1023) u) head sent st (Some h) (Some b) mime false 0 false, 0)
  end.

(** C30. An exchange is its parts in sequence: the URL is taken apart, the request
    text goes to the host of the URL, and the record is what the response
    makes of the byte stream received, however it was cut into pieces; when
    the host cannot be reached or the sending fails, the record is a failed
    one.  Fuel above the number of pieces and bytes is enough. *)
Theorem net_http_exchange realloc addr net fuel m u extra body p :
  (∀ n, 0 < n <= 2 ^ 41 → realloc n = true) →
  parse_url u 256 (Z.to_nat 1024) = Ok (Some p) →
  let head := request_head false m (u_path p) (u_host p) extra body in
  Z.of_nat (length head) + Z.of_nat (length (default [] body)) + 1 <= 2 ^ 40 →
  let sent := if decide (default [] body = []) then None else body in
  mini_net_http realloc addr net fuel (Some m) (Some u) extra body =
    if negb (connect net (u_host p) (u_port p) (is_https p)) then Ok (Some (exchange_record m u None None None)) else
    match exchange net (u_host p) (u_port p) (is_https p) (head ++ default [] body) with
    | None => Ok (Some (exchange_record m u None None None))
    | Some io =>
      if decide (raw_left io < fuel)%nat then
        if decide (Z.of_nat (length (raw_stream RETRIES io)) <= 64 * 1024 * 1024) then
          (let* r := http_response addr (Buf false (raw_stream RETRIES io) 0) in
           Ok (Some (exchange_record m u (Some head) sent r)))%c
        else mini_net_http realloc addr net fuel (Some m) (Some u) extra body
      else mini_net_http realloc addr net fuel (Some m) (Some u) extra body
    end.
Proof.
  intros Hra Hp head Hl sent. unfold mini_net_http. rewrite Hp. cbn [res_bind].
  destruct (connect net _ _ _); cbn [negb]; [|done].
  rewrite (http_request_text realloc Hra) by done. cbn [res_bind]. fold head.
  destruct (exchange net _ _ _ _) as [io|]; [|done].
  destruct (decide (raw_left io < fuel)%nat) as [Hf|]; [|done].
  destruct (decide (Z.of_nat (length (raw_stream RETRIES io)) <= 64 * 1024 * 1024)) as [Hs|]; [|done].
  destruct (read_loop_spec realloc Hra net_recv (λ buf, Ok (bool_decide (64 * 1024 * 1024 < blen buf))) fuel io bb_empty)
    as (io'&null&cap&E&_&Hn).
  - exact Hf.
  - apply buf_ok_empty.
  - change (stream io) with (raw_stream RETRIES io). change (blen bb_empty) with 0. lia.
  - intros b Hb. change (stream io) with (raw_stream RETRIES io) in Hb. change (blen bb_empty) with 0 in Hb.
    rewrite bool_decide_eq_false_2 by lia. done.
  - change (stream io) with (raw_stream RETRIES io) in E, Hn. unfold read_until_close. rewrite E. cbn [res_bind].
    cbn [b_data bb_empty app] in *.
    assert (http_response addr (Buf null (raw_stream RETRIES io) cap)
      = http_response addr (Buf false (raw_stream RETRIES io) 0)) as ->.
    { destruct null; [|done]. destruct (Hn eq_refl) as [_ ->]. done. }
    destruct (http_response addr _) as [[[[[st h] b] mime]|]|]; done.
Qed.

Definition demo_net : network :=
  Net (λ _ _ _, true) (λ h p s _, if decide (h = str "h" ∧ p = 81) then
    Some [Bytes (str "HTTP/1.1 200 OK" ++ [13; 10] ++ str "x: y" ++ [13]); WouldBlock; Bytes ([10; 13; 10] ++ str "abc")] else None).

Lemma net_http_exchange_witness :
  mini_net_http yes 4096 demo_net 60 (Some (str "GET")) (Some (str "http://h:81/x")) None None
  = Ok (Some (Rec (str "GET") (str "http://h:81/x") (Some (request_head false (str "GET") (str "/x") (str "h") None None)) None
      200 (Some (str "HTTP/1.1 200 OK" ++ [13; 10] ++ str "x: y")) (Some (str "abc")) (str "text/plain") false 0 false, 0)).
Proof.
  refine (eq_trans (net_http_exchange yes 4096 demo_net 60 (str "GET") (str "http://h:81/x") None None
    (Url (str "h") 81 (str "/x") false) (λ _ _, eq_refl) _ _) _); vm_compute; [reflexivity|discriminate|reflexivity].
Defined.

(** ** Header lookup *)

Definition print_header (h : bytes * bytes) : bytes := fst h ++ [58; 32] ++ snd h ++ [13; 10].
Definition header_ok (h : bytes * bytes) : Prop :=
  58 ∉ fst h ∧ 13 ∉ fst h ∧ 13 ∉ snd h ∧ hd0 (snd h) ≠ 32 ∧ hd0 (snd h) ≠ 9.
#[export] Instance header_ok_dec h : Decision (header_ok h).
Proof. unfold header_ok. apply _. Defined.

Lemma strstr_crlf a t : 13 ∉ a → strstr (a ++ [13; 10] ++ t) [13; 10] = Some (length a).
Proof.
  intros Ha. apply strstr_first; [done|]. cbn [length Nat.sub take].
  induction a as [|x a IH]; [done|]. apply not_elem_of_cons in Ha as [Hx Ha]. cbn [app strstr].
  assert (starts_with [13; 10] (x :: a ++ [13]) = false) as ->.
  { apply bool_decide_eq_false. simpl. congruence. }
  by rewrite IH.
Qed.

Lemma header_match name h : 58 ∉ name → header_ok h → let line := fst h ++ [58; 32] ++ snd h in
  (if decide (length name < length line)%nat then
     if starts_with_ci name line then expect 58 (drop (length name) line) else None else None)
  = if strcaseeq (fst h) name then Some (32 :: snd h) else None.
Proof.
  intros Hn (H1&_). cbv zeta. destruct (strcaseeq (fst h) name) eqn:E.
  - pose proof E as El. apply strcaseeq_true in E. assert (length (fst h) = length name) as Hl.
    { apply (f_equal length) in E. by rewrite !length_map in E. }
    rewrite decide_True by (rewrite length_app; simpl; lia). unfold starts_with_ci. rewrite <- Hl, take_app_length.
    rewrite bool_decide_eq_true_2 by done. rewrite drop_app_length. apply expect_cons.
  - destruct (decide _) as [Hl|]; [|done]. destruct (starts_with_ci name _) eqn:Es; [|done].
    apply bool_decide_eq_true in Es. destruct (expect 58 _) as [v|] eqn:Ex; [|done]. exfalso.
    apply expect_Some in Ex.
    assert (length name = length (fst h)) as El.
    { destruct (Nat.lt_trichotomy (length name) (length (fst h))) as [Hlt|[?|Hgt]]; [|done|].
      - exfalso. apply H1. rewrite drop_app_le in Ex by lia. destruct (drop (length name) (fst h)) as [|y r] eqn:Ed.
        { apply (f_equal length) in Ed. rewrite length_drop in Ed. simpl in Ed. lia. }
        injection Ex as -> _. rewrite <- (take_drop (length name) (fst h)), Ed. apply elem_of_app. right. by left.
      - exfalso. (* the colon of the line is inside the name *)
        apply (f_equal (λ l, l !! length (fst h))) in Es. rewrite !list_lookup_fmap in Es.
        rewrite lookup_take_lt, lookup_app_r, Nat.sub_diag in Es by lia. cbn in Es.
        destruct (name !! length (fst h)) as [y|] eqn:Ey; [|done]. injection Es as Es.
        apply list_elem_of_lookup_2 in Ey.
        assert (y = 58) as ->; [|done]. change (c_tolower 58) with 58 in Es. unfold c_tolower, c_isupper in Es.
        destruct (bool_decide (65 <= y <= 90)) eqn:Eb; [apply bool_decide_eq_true in Eb; lia|done]. }
    rewrite El, take_app_length in Es. apply strcaseeq_true in Es. congruence.
Qed.

(** The value of a header is that of the first line whose name is the one
    asked for, case ignored, cut to the buffer; the status line is no header. *)
Theorem net_header_value l0 hs name cap : 58 ∉ l0 → 13 ∉ l0 → 58 ∉ name → Forall header_ok hs →
  header_value (Some (l0 ++ [13; 10] ++ mjoin (map print_header hs))) name cap
  = (λ '(_, h), take (cap - 1) (snd h)) <$> list_find (λ h, strcaseeq (fst h) name = true) hs.
Proof.
  intros Hc Hr Hn Hh. unfold header_value. set (t := l0 ++ _).
  assert (∀ fuel hs, Forall header_ok hs → (length hs < fuel)%nat →
    header_loop fuel (mjoin (map print_header hs)) name cap
    = (λ '(_, h), take (cap - 1) (snd h)) <$> list_find (λ h, strcaseeq (fst h) name = true) hs) as Hloop.
  { clear -Hn. induction fuel as [|fuel IH]; intros hs Hh Hf; [lia|].
    destruct Hh as [|h hs Hok Hh]; [done|].
    change (mjoin (map print_header (h :: hs))) with (print_header h ++ mjoin (map print_header hs)).
    unfold print_header at 1. rewrite <- !app_assoc.
    assert (fst h ++ [58; 32] ++ snd h ++ [13; 10] ++ mjoin (map print_header hs)
      = (fst h ++ [58; 32] ++ snd h) ++ [13; 10] ++ mjoin (map print_header hs)) as -> by (by rewrite <- !app_assoc).
    set (line := fst h ++ [58; 32] ++ snd h). set (rest := mjoin (map print_header hs)).
    assert (13 ∉ line) as Hl13 by (destruct Hok as (?&?&?&?); unfold line; rewrite !not_elem_of_app; set_solver).
    destruct (line ++ [13; 10] ++ rest) as [|c0 p0] eqn:Ep; [by destruct line|]. cbn [header_loop].
    rewrite <- Ep, strstr_crlf, take_app_length by done.
    pose proof (header_match name h Hn Hok) as Hm. cbv zeta in Hm. fold line in Hm. rewrite Hm.
    cbn [list_find]. destruct (strcaseeq (fst h) name) eqn:Es.
    - rewrite decide_True by done. cbn [fmap option_map]. destruct Hok as (_&_&_&N1&N2).
      cbn [skip]. rewrite (bool_decide_eq_true_2 (32 = 32)) by done. cbn [orb].
      rewrite skip_none; [done|]. intros c r E. rewrite E in N1, N2. simpl in N1, N2. by rewrite !bool_decide_eq_false_2.
    - rewrite decide_False by done. rewrite app_assoc, drop_app_length' by (rewrite length_app; simpl; lia).
      unfold rest. rewrite IH by (done || (simpl in Hf; lia)).
      destruct (list_find _ hs) as [[k x]|]; done. }
  assert (length hs + 1 < length t)%nat as Hlen.
  { unfold t. rewrite !length_app. simpl. assert (length hs <= length (mjoin (map print_header hs)))%nat; [|lia].
    clear. induction hs as [|h hs IH]; [done|].
    change (mjoin (map print_header (h :: hs))) with (print_header h ++ mjoin (map print_header hs)).
    unfold print_header at 1. rewrite !length_app. simpl. lia. }
  destruct (length t) as [|fuel] eqn:Ef; [lia|]. destruct t as [|c0 p0] eqn:Et; [by destruct l0|].
  cbn [header_loop]. rewrite <- Et. unfold t. rewrite strstr_crlf, take_app_length by done.
  assert ((if decide (length name < length l0)%nat then
     if starts_with_ci name l0 then expect 58 (drop (length name) l0) else None else None) = None) as ->.
  { destruct (decide _); [|done]. destruct (starts_with_ci _ _); [|done].
    destruct (expect 58 _) as [v|] eqn:Ex; [|done]. exfalso. apply expect_Some in Ex. apply Hc.
    rewrite <- (take_drop (length name) l0), Ex. apply elem_of_app. right. by left. }
  rewrite app_assoc, drop_app_length' by (rewrite length_app; simpl; lia).
  apply Hloop; [done|lia].
Qed.

Lemma net_header_value_witness :
  header_value (Some (str "HTTP/1.1 200 OK" ++ [13; 10] ++ mjoin (map print_header
    [(str "ETag", str "v1"); (str "Age", []); (str "etag", str "v2")]))) (str "etag") 2 = Some (str "v").
Proof.
  rewrite (net_header_value (str "HTTP/1.1 200 OK")); [reflexivity|..];
    refine (bool_decide_eq_true_1 _ _); vm_compute; reflexivity.
Defined.

(** ** Recorded requests *)

Lemma NET_REC_CAP_Z : Z.of_nat NET_REC_CAP = 256.
Proof. reflexivity. Qed.
#[local] Opaque NET_REC_CAP.

(** The identifiers in the table: consecutive, the next one after the last. *)
Definition recs_ok (t : rec_table) : Prop :=
  Z.of_nat (length (g_recs t)) <= 256 ∧
  ∀ i r, g_recs t !! i = Some r → r_id r = g_rec_next_id t - Z.of_nat (length (g_recs t)) + Z.of_nat i.

Definition strip (r : MiniNetRecord) : MiniNetRecord := set_id 0 r.

(** The record table keeps the last 256 requests in order, numbered
    consecutively; adding one drops the oldest when full, gives the new one
    the next number and leaves it unreported; marking reports one record and
    nothing else. *)
Theorem net_records t r : recs_ok t →
  let t' := mini_net_record_add r t in
  recs_ok t'
  ∧ g_recs t' = (if decide (length (g_recs t) = 256%nat) then drop 1 (g_recs t) else g_recs t) ++ [set_id (g_rec_next_id t) r]
  ∧ mini_net_record_get (mini_net_record_count t' - 1) t' = Some (set_id (g_rec_next_id t) r)
  ∧ (∀ i, recs_ok (mini_net_record_mark_reported i t))
  ∧ (∀ i j, mini_net_record_get j (mini_net_record_mark_reported i t)
        = (if decide (i = j) then set_reported <$> mini_net_record_get j t else mini_net_record_get j t)).
Proof.
  intros [Hl Hid] t'. pose proof NET_REC_CAP_Z as Hcap.
  assert (g_recs t' = (if decide (length (g_recs t) = 256%nat) then drop 1 (g_recs t) else g_recs t) ++ [set_id (g_rec_next_id t) r]) as E.
  { unfold t', mini_net_record_add. cbn [g_recs]. destruct (decide (length (g_recs t) < NET_REC_CAP)%nat).
    - by rewrite decide_False by lia.
    - by rewrite decide_True by lia. }
  set (l := if decide _ then _ else _) in E.
  assert (Z.of_nat (length l) <= 255 ∧ ∀ i x, l !! i = Some x → r_id x = g_rec_next_id t - Z.of_nat (length l) + Z.of_nat i) as [Hll Hli].
  { unfold l. destruct (decide (length (g_recs t) = 256%nat)).
    - split; [rewrite length_drop; lia|]. intros i x Hx. rewrite lookup_drop in Hx. apply Hid in Hx.
      rewrite length_drop. lia.
    - split; [lia|done]. }
  split_and!.
  - split; rewrite E, length_app; cbn [length]; [lia|]. intros i x Hx.
    replace (g_rec_next_id t') with (g_rec_next_id t + 1) by done. apply lookup_app_Some in Hx as [Hx|[Hi Hx]].
    + apply Hli in Hx. lia.
    + destruct (i - length l)%nat as [|k] eqn:Ei; [|by destruct k]. injection Hx as <-. cbn. lia.
  - exact E.
  - unfold mini_net_record_get, mini_net_record_count. rewrite E, length_app. cbn [length].
    rewrite decide_True by lia. rewrite lookup_app_r by lia.
    by replace (Z.to_nat (Z.of_nat (length l + 1) - 1) - length l)%nat with 0%nat by lia.
  - intros i. unfold mini_net_record_mark_reported. destruct (decide (0 <= i < mini_net_record_count t)); [|exact (conj Hl Hid)]. split; cbn [g_recs g_rec_next_id];
      rewrite length_alter; [done|]. intros j x Hx. rewrite list_lookup_alter in Hx.
    destruct (decide (Z.to_nat i = j)) as [->|]; [|by apply Hid].
    apply fmap_Some in Hx as (y&Hy&->). by apply (Hid j y).
  - intros i j. unfold mini_net_record_get, mini_net_record_mark_reported, mini_net_record_count.
    destruct (decide (0 <= i < Z.of_nat (length (g_recs t)))) as [Hi|Hi]; cbn [g_recs].
    + rewrite length_alter. destruct (decide (0 <= j < Z.of_nat (length (g_recs t)))) as [Hj|Hj].
      * rewrite list_lookup_alter. destruct (decide (i = j)) as [->|Hne]; [by rewrite decide_True|].
        by rewrite decide_False by lia.
      * by destruct (decide (i = j)).
    + destruct (decide (i = j)) as [->|]; [|done]. by rewrite decide_False.
Qed.

Lemma net_records_witness :
  let t := Recs [] 1 in let r := fst (exchange_record (str "GET") (str "u") None None None) in
  recs_ok (mini_net_record_add r t) ∧ map r_id (g_recs (mini_net_record_add r t)) = [1].
Proof.
  intros t r. destruct (net_records t r) as (H1&H2&_).
  - split; [discriminate|]. intros i x Hx. discriminate.
  - split; [exact H1|]. rewrite H2. reflexivity.
Defined.

(** ** Keep-alive connections *)

Definition idle (c : KaConn) : Prop := valid c = true ∧ in_use c = false.
#[export] Instance idle_dec c : Decision (idle c).
Proof. unfold idle. apply _. Defined.

Lemma oldest_spec l i best : (match best with Some (_, ot) => ∀ c, c ∈ l → True | None => True end) →
  match oldest i l best with
  | Some k => (∃ ot, best = Some (k, ot) ∧ (∀ c, c ∈ l → idle c → ot <= last_used c))
      ∨ ∃ j c, k = (i + j)%nat ∧ l !! j = Some c ∧ idle c ∧ (∀ d, d ∈ l → idle d → last_used c <= last_used d)
          ∧ match best with Some (_, ot) => last_used c < ot | None => True end
  | None => best = None ∧ ∀ c, c ∈ l → ¬ idle c
  end.
Proof.
  intros _. revert i best. induction l as [|c l IH]; intros i best; cbn [oldest].
  - destruct best as [[k ot]|]; simpl; [left; exists ot; split; [done|]; by intros c ?%not_elem_of_nil|].
    split; [done|]. by intros c ?%not_elem_of_nil.
  - set (b := match best with None => true | Some (_, ot) => bool_decide (last_used c < ot) end).
    destruct (valid c && negb (in_use c) && b) eqn:E.
    + apply andb_true_iff in E as [E Eb]. apply andb_true_iff in E as [E1 E2]. apply negb_true_iff in E2.
      specialize (IH (S i) (Some (i, last_used c))). destruct (oldest (S i) l _) as [k|]; [|by destruct IH].
      assert (match best with Some (_, ot) => last_used c < ot | None => True end) as Hb.
      { destruct best as [[? ot]|]; [|done]. by apply bool_decide_eq_true in Eb. }
      right. destruct IH as [(ot&[= <- <-]&H)|(j&d&->&Hj&Hd&H&Hlt)].
      * exists 0%nat, c. rewrite Nat.add_0_r. split_and!; try done.
        intros d [->|Hd]%elem_of_cons Hid; [lia|by apply H].
      * exists (S j), d. split; [lia|]. split_and!; try done; try apply Hd.
        -- intros x [->|Hx]%elem_of_cons Hid; [lia|by apply H].
        -- destruct best as [[? ot]|]; [lia|done].
    + assert (∀ k ot, best = Some (k, ot) → idle c → ot <= last_used c) as Hc.
      { intros k ot -> [Hv Hu]. unfold b in E. rewrite Hv, Hu in E. simpl in E. apply bool_decide_eq_false in E. lia. }
      assert (best = None → ¬ idle c) as Hc2.
      { intros -> [Hv Hu]. unfold b in E. by rewrite Hv, Hu in E. }
      specialize (IH (S i) best). destruct (oldest (S i) l best) as [k|].
      * destruct IH as [(ot&Eb&H)|(j&d&->&Hj&Hd&H&Hlt)].
        -- left. exists ot. split; [done|]. intros x [->|Hx]%elem_of_cons Hid; [by eapply Hc|by apply H].
        -- right. exists (S j), d. split; [lia|]. split_and!; try done; try apply Hd.
           intros x [->|Hx]%elem_of_cons Hid; [|by apply H].
           destruct best as [[k ot]|]; [specialize (Hc k ot eq_refl Hid); lia|by destruct (Hc2 eq_refl)].
      * destruct IH as [Eb H]. split; [done|]. intros x [->|Hx]%elem_of_cons; [by apply Hc2|by apply H].
Qed.

(** What a slot is handed out for. *)
Definition ka_match (host : bytes) (port : Z) (https : bool) (c : KaConn) : Prop :=
  idle c ∧ k_port c = port ∧ k_https c = https ∧ k_host c = host.

(** The connection pool never gives one slot to two requests: a slot handed
    out was not in use and now is, and no other slot changes; it is reused
    only for the same host, port and scheme, otherwise it is empty, the
    connection it held being closed, which happens only when no slot was free
    and then to the one idle longest.  None is handed out only when every
    slot is in use.  A release makes the slot idle, keeping the connection
    when it may be reused and closing it otherwise. *)
Theorem net_pool host port https ka ka' r cl : ka_acquire true host port https ka = (ka', r, cl) →
  match r with
  | Some (i, reused) => ∃ c c', ka !! i = Some c ∧ in_use c = false ∧ ka' = <[i := c']> ka ∧ in_use c' = true
      ∧ (if reused : bool then ka_match host port https c ∧ valid c' = true ∧ fd c' = fd c ∧ cl = []
         else valid c' = false ∧ (valid c = false ∧ cl = [] ∨
              idle c ∧ fd c' = NET_INVALID ∧ (∀ d, d ∈ ka → in_use d = false → valid d = true ∧ last_used c <= last_used d)))
      ∧ (∀ now reusable ka2 cl2, ka_release now i reusable ka' = (ka2, cl2) →
          ∃ c2, ka2 = <[i := c2]> ka ∧ in_use c2 = false ∧ valid c2 = (reusable && valid c')
            ∧ (valid c2 = false → fd c2 = NET_INVALID) ∧ (valid c2 = true → fd c2 = fd c' ∧ cl2 = []))
  | None => ka' = ka ∧ cl = [] ∧ ∀ c, c ∈ ka → in_use c = true
  end.
Proof.
  assert (∀ i c c', ka !! i = Some c → in_use c' = true →
    ∀ now reusable ka2 cl2, ka_release now i reusable (<[i := c']> ka) = (ka2, cl2) →
    ∃ c2, ka2 = <[i := c2]> ka ∧ in_use c2 = false ∧ valid c2 = (reusable && valid c')
      ∧ (valid c2 = false → fd c2 = NET_INVALID) ∧ (valid c2 = true → fd c2 = fd c' ∧ cl2 = [])) as Hrel.
  { intros i c c' Hi Hu now reusable ka2 cl2. unfold ka_release.
    rewrite list_lookup_insert_eq by (by eapply lookup_lt_Some). destruct (reusable && valid c') eqn:E.
    - intros [= <- <-]. eexists. split; [by rewrite list_insert_insert_eq|]. apply andb_true_iff in E as [-> Hv].
      by rewrite Hv.
    - unfold ka_close_slot. intros [= <- <-]. eexists. split; [by rewrite list_insert_insert_eq|]. done. }
  unfold ka_acquire. cbn [negb].
  destruct (list_find _ ka) as [[i c]|] eqn:E1.
  { intros [= <- <- <-]. apply list_find_Some in E1 as (Hi&(Hv&Hu&Hk)&_).
    exists c, (set_use true c). split_and!; try done. by apply (Hrel i c). }
  destruct (list_find (λ c, valid c = false ∧ in_use c = false) ka) as [[i c]|] eqn:E2.
  { intros [= <- <- <-]. apply list_find_Some in E2 as (Hi&(Hv&Hu)&_).
    exists c, (set_use true c). split_and!; try done; [by left|]. by apply (Hrel i c). }
  apply list_find_None in E2. rewrite Forall_forall in E2.
  assert (∀ d, d ∈ ka → in_use d = false → valid d = true) as Hvalid.
  { intros d Hd Hu. specialize (E2 d Hd). destruct (valid d) eqn:Ev; [done|]. by destruct E2. }
  pose proof (oldest_spec ka 0 None I) as Ho. destruct (oldest 0 ka None) as [k|].
  - destruct Ho as [(ot&?&_)|(j&c&->&Hj&Hid&Hmin&_)]; [done|]. cbn [Nat.add]. rewrite Hj.
    unfold ka_close_slot. intros [= <- <- <-]. destruct Hid as [Hv Hu].
    eexists c, _. split_and!; try done; [|by apply (Hrel j c)].
    right. split_and!; try done. intros d Hd Hdu. split; [by apply Hvalid|]. apply Hmin; [done|]. split; [by apply Hvalid|done].
  - destruct Ho as [_ Ho]. intros [= <- <- <-]. split; [done|]. split; [done|]. intros c Hc.
    destruct (in_use c) eqn:Eu; [done|]. exfalso. apply (Ho c Hc). split; [by apply Hvalid|done].
Qed.

Lemma net_pool_witness :
  ∃ ka', ka_acquire true (str "h") 443 true [Ka (str "h") 443 true 7 true true 3; Ka (str "h") 443 true 8 true false 4]
    = (ka', Some (1%nat, true), []) ∧ (∀ ka2 cl2, ka_release 9 1 false ka' = (ka2, cl2) → (fd <$> ka2) = [7; NET_INVALID]).
Proof.
  eexists. split; [reflexivity|]. intros ka2 cl2 Hr.
  destruct (net_pool (str "h") 443 true [Ka (str "h") 443 true 7 true true 3; Ka (str "h") 443 true 8 true false 4]
    _ _ _ eq_refl) as (c&c'&_&_&Ek&_&_&Hrel).
  destruct (Hrel 9 false ka2 cl2 Hr) as (c2&->&_&Hv&Hf&_). cbn. by rewrite (Hf Hv).
Defined.

(** With the pool off, as it is compiled, no slot is handed out; its slots have
    descriptor 0, and shutting the pool down closes it. *)
Lemma ka_off_closes_stdin :
  (∀ host port https, ka_acquire false host port https g_ka = (g_ka, None, []))
  ∧ snd (ka_shutdown_all g_ka) = replicate KA_CAP 0.
Proof. split; [done|reflexivity]. Qed.

(** ** Prefetch *)

(** The URLs in flight. *)
Definition in_flight (pf : list PrefetchSlot) : list bytes := map pf_url (filter (λ s, pf_valid s = true) pf).

Lemma in_flight_insert pf i s0 s : pf !! i = Some s0 →
  in_flight (<[i := s]> pf) ≡ₚ (if pf_valid s then [pf_url s] else []) ++ in_flight (delete i pf).
Proof.
  intros Hi. assert (i < length pf)%nat as Hl by (by eapply lookup_lt_Some).
  assert (<[i := s]> pf ≡ₚ s :: delete i pf) as Hp.
  { rewrite insert_take_drop by done. rewrite delete_take_drop. symmetry. apply Permutation_middle. }
  unfold in_flight. rewrite Hp, filter_cons. by destruct (pf_valid s).
Qed.

Lemma in_flight_delete pf i s : pf !! i = Some s →
  in_flight pf ≡ₚ (if pf_valid s then [pf_url s] else []) ++ in_flight (delete i pf).
Proof. intros Hi. rewrite <- (list_insert_id pf i s Hi) at 1. by eapply in_flight_insert. Qed.

(** At most one prefetch of a URL is in flight: a prefetch starts a thread
    only for an http or https URL of at most 1023 bytes that is not in flight,
    in a free slot, and adds just that URL; awaiting it joins its thread and
    removes it.  Shutting down joins every thread and leaves none in flight. *)
Theorem net_prefetch enabled up th u pf pf' spawned :
  NoDup (in_flight pf) → Z.of_nat (length u) < 1024 → mini_net_prefetch enabled up th u pf = (pf', spawned) →
  NoDup (in_flight pf')
  ∧ (if spawned : bool then
       enabled = true ∧ up = true ∧ u ∉ in_flight pf ∧ in_flight pf' ≡ₚ u :: in_flight pf
       ∧ ∃ pf2, mini_net_prefetch_await u pf' = (pf2, Some th) ∧ in_flight pf2 ≡ₚ in_flight pf
     else in_flight pf' ≡ₚ in_flight pf)
  ∧ (∀ ka, let '(pf2, joined, _) := mini_net_prefetch_shutdown pf' ka in
       in_flight pf2 = [] ∧ length joined = length (in_flight pf')).
Proof.
  intros Hn Hu Hp.
  assert (∀ ka, let '(pf2, joined, _) := mini_net_prefetch_shutdown pf' ka in
       in_flight pf2 = [] ∧ length joined = length (in_flight pf')) as Hsh.
  { intros ka. cbn. split; [|unfold in_flight; by rewrite !length_map].
    unfold in_flight. induction pf' as [|s l IH] using rev_ind; [done|]. clear. 
    induction (l ++ [s]) as [|x xs IHx]; [done|]. simpl. rewrite filter_cons.
    destruct (pf_valid x) eqn:Ex; cbn; [by rewrite decide_False|]. rewrite decide_False by congruence. done. }
  assert (in_flight pf' ≡ₚ in_flight pf → spawned = false →
    NoDup (in_flight pf') ∧ (if spawned then
       enabled = true ∧ up = true ∧ u ∉ in_flight pf ∧ in_flight pf' ≡ₚ u :: in_flight pf
       ∧ ∃ pf2, mini_net_prefetch_await u pf' = (pf2, Some th) ∧ in_flight pf2 ≡ₚ in_flight pf
     else in_flight pf' ≡ₚ in_flight pf)) as Hno.
  { intros Hpm ->. split; [by rewrite Hpm|done]. }
  unfold mini_net_prefetch in Hp. destruct enabled; cbn [negb] in Hp;
    [|injection Hp as <- <-; destruct Hno; done].
  destruct (decide (u = [])) as [|Hne]; [injection Hp as <- <-; destruct Hno; done|].
  destruct (negb _ && negb _); [injection Hp as <- <-; destruct Hno; done|].
  destruct (list_find (λ s, pf_valid s = true ∧ pf_url s = u) pf) as [[k x]|] eqn:E1;
    [injection Hp as <- <-; destruct Hno; done|].
  destruct (list_find (λ s, pf_valid s = false) pf) as [[i s]|] eqn:E2; [|injection Hp as <- <-; destruct Hno; done].
  apply list_find_Some in E2 as (Hi&Hv&_).
  pose proof (in_flight_delete pf i s Hi) as Hd. rewrite Hv in Hd. cbn [app] in Hd.
  assert (take (Z.to_nat 1023) u = u) as Et by (apply take_ge; lia). rewrite Et in Hp.
  destruct up; injection Hp as <- <-.
  - pose proof (in_flight_insert pf i s (Slot u true th) Hi) as Hins. cbn [pf_valid pf_url app] in Hins.
    rewrite <- Hd in Hins.
    assert (u ∉ in_flight pf) as Hnin.
    { unfold in_flight. rewrite list_elem_of_fmap. intros (x&->&Hx). apply list_elem_of_filter in Hx as [Hxv Hx].
      apply list_find_None in E1. rewrite Forall_forall in E1. by apply (E1 x Hx). }
    split; [rewrite Hins; by apply NoDup_cons|]. split; [|exact Hsh]. split_and!; [done|done|done|done|].
    unfold mini_net_prefetch_await.
    assert (list_find (λ s, pf_valid s = true ∧ pf_url s = u) (<[i := Slot u true th]> pf) = Some (i, Slot u true th)) as ->.
    { apply list_find_Some. assert (i < length pf)%nat by (by eapply lookup_lt_Some).
      split; [by apply list_lookup_insert_eq|]. split; [done|]. intros j y Hy Hj [Hyv Hyu].
      rewrite list_lookup_insert_ne in Hy by lia. apply list_find_None in E1. rewrite Forall_forall in E1.
      by apply (E1 y (list_elem_of_lookup_2 _ _ _ Hy)). }
    eexists. split; [done|]. rewrite list_insert_insert_eq. rewrite (in_flight_insert pf i s) by done. by rewrite Hd.
  - pose proof (in_flight_insert pf i s (Slot u false (pf_thread s)) Hi) as Hins. cbn [pf_valid app] in Hins.
    rewrite <- Hd in Hins. destruct Hno; done.
Qed.

Lemma net_prefetch_witness :
  ∃ pf', mini_net_prefetch true true 5 (str "https://a/b") (replicate 2 (Slot [] false 0)) = (pf', true)
    ∧ in_flight pf' ≡ₚ [str "https://a/b"].
Proof.
  destruct (mini_net_prefetch true true 5 (str "https://a/b") (replicate 2 (Slot [] false 0))) as [pf' b] eqn:E.
  destruct (net_prefetch true true 5 (str "https://a/b") (replicate 2 (Slot [] false 0)) pf' b) as (_&H&_).
  - constructor.
  - reflexivity.
  - exact E.
  - destruct b; [|vm_compute in E; discriminate]. exists pf'. split; [reflexivity|]. apply H.
Defined.

(** A URL of 1024 bytes or more is cut in its slot: it is never found again. *)
Lemma net_prefetch_long :
  let u := str "http://" ++ replicate (Z.to_nat 1017) 97 in
  let '(pf, s) := mini_net_prefetch true true 5 u (replicate 2 (Slot [] false 0)) in
  s = true ∧ snd (mini_net_prefetch_await u pf) = None.
Proof. vm_compute. auto. Qed.
