(* ===== verification/Fetch.v ===== *)
(** * Fetching (src/src/mini_net.c, [mini_net_fetch])

    The orchestration of policy, cookies, cache and HTTP: HSTS upgrade, fresh
    cache hits, revalidation, Set-Cookie and HSTS capture, the CORS gate and
    the store.  The clock is read as [t0] before the exchange and [t1] after
    it.  Log output is left out. *)

From S2P Require Import Prelude.
From S2P Require Import CString.
From S2P Require Import Policy.
From S2P Require Import Cookies.
From S2P Require Import HttpCache.
From S2P Require Import Net.
From stdpp Require Import gmap list.
Open Scope Z_scope.

(** The tables a fetch reads and writes. *)
Record world := World { w_hsts : list HstsEntry; w_jar : list MiniCookie; w_cache : cache }.

(** What the outside answers: memory, files, the network and the clock. *)
Record outside := Outside {
  o_realloc : Z → bool; o_addr : Z; o_net : network; o_fuel : nat;
  o_home : option bytes; o_writable : bytes → bool; o_malloc : Z → bool; t0 : Z; t1 : Z }.

Definition before (x : outside) : env := Env (o_home x) (o_writable x) (o_malloc x) (t0 x).
Definition after (x : outside) : env := Env (o_home x) (o_writable x) (o_malloc x) (t1 x).

(** An origin that failed to parse has an empty host. *)
Definition no_origin : MiniOrigin := Origin [] [] 0.

(** [eff_url], [o], [parsed]. *)
Definition effective_url (now : Z) (hsts : list HstsEntry) (url : option bytes) : res (bytes * MiniOrigin * bool) :=
  (let* o := mini_origin_parse url in
   let u := default [] url in
   match o with
   | Some o' =>
     if streq (scheme o') (str "http") && mini_hsts_should_upgrade now hsts (Some (host o')) then
       let eff := take (Z.to_nat 1023) (str "https://" ++ drop 7 u) in
       let* o2 := mini_origin_parse (Some eff) in
       Ok (eff, default no_origin o2, true)
     else Ok (take (Z.to_nat 1023) u, o', true)
   | None => Ok (take (Z.to_nat 1023) u, no_origin, false)
   end)%c.

Definition request_path (eff : bytes) : bytes :=
  match strstr eff (str "://") with
  | Some i => let pp := drop (i + 3) eff in
              match strchr pp 47 with Some j => take (Z.to_nat 1023) (drop j pp) | None => str "/" end
  | None => str "/"
  end.

Definition is_get (method : option bytes) : bool := strcaseeq (default (str "GET") method) (str "GET").

(** The copy of a cached body: [memcpy] from a null pointer is undefined. *)
Definition copy_body (x : outside) (e : MiniCacheEntry) : res (option bytes) :=
  if o_malloc x (body_len e + 1) then
    match body e with
    | Some b => Ok (Some b)
    | None => if decide (body_len e = 0) then Ok (Some []) else UB
    end
  else Ok None.

Definition serve_from_cache (x : outside) (method : option bytes) (eff : bytes) (e : MiniCacheEntry) : res MiniNetRecord :=
  (let* b := copy_body x e in
   Ok (Rec (take 7 (default (str "GET") method)) eff None None (status e)
         (if o_malloc x 256 then
            Some (take 255 (str "HTTP/1.1 " ++ c_dec (status e) ++ str " OK (from cache)" ++ [13; 10] ++
                            str "Content-Type: " ++ mime e ++ [13; 10; 13; 10]))
          else None)
         b (mime e) false 0 false))%c.

(** The merged headers, [None] when there are none; the blocks are not checked. *)
Definition merge_headers (cookie cond : bytes) (extra : option bytes) : option bytes :=
  let h := (if decide (cookie = []) then [] else str "Cookie: " ++ cookie ++ [13; 10]) ++ cond ++
           match extra with
           | Some ((_ :: _) as e) => e ++ (if decide (last e = Some 10) then [] else [13; 10])
           | _ => []
           end in
  if decide (h = []) then None else Some h.

(** [capture_set_cookies] *)
Fixpoint capture_set_cookies (fuel : nat) (t : Z) (jar : list MiniCookie) (hst path : bytes) (https : bool) (p : bytes)
    : res (list MiniCookie) :=
  match fuel with
  | O => Ok jar
  | S fuel =>
    match stristr p (str "Set-Cookie:") with
    | None => Ok jar
    | Some q =>
      let v := skip (λ c, bool_decide (c = 32) || bool_decide (c = 9)) (drop 11 q) in
      let '(line, r) := scan (λ c, bool_decide (c ∉ [13; 10])) (Z.to_nat 1023) v in
      (let* jar := if decide (line = []) then Ok jar else
                     let* (jar, _) := mini_cookies_set_from_header t t jar hst path https (Some line) in Ok jar in
       let r := default r (expect 13 r) in
       let r := default r (expect 10 r) in
       capture_set_cookies fuel t jar hst path https r)%c
    end
  end.

(** [resp_body_len] *)
Definition body_length (r : MiniNetRecord) : nat := length (default [] (resp_body r)).

(** The cached body in place of a 304, with [resp_body_len], which a failed
    allocation leaves as it was. *)
Definition use_cached (x : outside) (r : MiniNetRecord) (e : MiniCacheEntry) : res (MiniNetRecord * nat) :=
  (let* b := copy_body x e in
   Ok (Rec (r_method r) (r_url r) (req_headers r) (req_body r) (status e) (resp_headers r) b (mime e)
         (reported r) (r_id r) (failed r),
       match b with Some b => length b | None => body_length r end))%c.

(** The gate: blocked when the page's origin is another one and the response
    does not allow it. *)
Definition cors_blocked (page_origin : option bytes) (o : MiniOrigin) (h : bytes) (credentialed : bool) : res bool :=
  match page_origin with
  | None => Ok false
  | Some p =>
    (let* po := mini_origin_parse (Some p) in
     Ok (match po with
         | None => false
         | Some po =>
           if mini_origin_same po o then false else
           match header_value (Some h) (str "Access-Control-Allow-Origin") 256 with
           | None => true
           | Some acao => negb (mini_cors_response_allowed (Some po) (Some acao) credentialed)
           end
         end))%c
  end.

Definition block (r : MiniNetRecord) : MiniNetRecord :=
  Rec (r_method r) (r_url r) (req_headers r) (req_body r) 0 (resp_headers r) (resp_body r) (r_mime r)
    (reported r) (r_id r) true.

(** What follows the exchange: capture, gate, store; [blen] is [resp_body_len]. *)
Definition after_exchange (x : outside) (method page_origin : option bytes) (eff : bytes) (o : MiniOrigin)
    (reqpath : bytes) (https credentialed : bool) (w : world) (r : MiniNetRecord) (blen : nat) : res (world * MiniNetRecord) :=
  match resp_headers r with
  | None => Ok (w, r)
  | Some h =>
    (let* jar := capture_set_cookies (length h) (t1 x) (w_jar w) (host o) reqpath https h in
     let* hsts := match header_value (Some h) (str "Strict-Transport-Security") 256 with
                  | Some sts => mini_hsts_remember (t1 x) (w_hsts w) (Some (host o)) (Some sts)
                  | None => Ok (w_hsts w)
                  end in
     let* blocked := cors_blocked page_origin o h credentialed in
     let r := if blocked : bool then block r else r in
     if is_get method && bool_decide (200 <= r_status r < 300) then
       let hv n cap := Some (default [] (header_value (Some h) (str n) cap)) in
       let* hc := mini_httpcache_store (after x) eff (r_status r) (Some (r_mime r))
                    (Some (default [] (resp_body r) ++ [0])) blen
                    (hv "ETag"%string 256%nat) (hv "Last-Modified"%string 128%nat) (hv "Cache-Control"%string 256%nat)
                    (Some []) (w_cache w) in
       Ok (World hsts jar hc, r)
     else Ok (World hsts jar (w_cache w), r))%c
  end.

(** The outer [option] is the fuel of the readers; with the world, the record
    and the value returned. *)
Definition mini_net_fetch (x : outside) (method url extra body page_origin : option bytes) (w : world)
    : res (option (world * MiniNetRecord * Z)) :=
  (let* (eff, o, parsed) := effective_url (t0 x) (w_hsts w) url in
   let https := parsed && streq (scheme o) (str "https") in
   let reqpath := request_path eff in
   let* (hc, ce, stale) := mini_httpcache_get (before x) eff (w_cache w) in
   match (if is_get method then ce else None) with
   | Some e =>
     let* r := serve_from_cache x method eff e in
     Ok (Some (World (w_hsts w) (w_jar w) hc, r, 0))
   | None =>
     let* (jar, cookie, n) := build_for (t0 x) (w_jar w) (host o) reqpath https false (Z.to_nat 2048) in
     let cookie := if decide (0 < n) then cookie else [] in
     let* (hc, cond) :=
       if stale : bool then
         let* (hc, out, _) := mini_httpcache_conditional_headers (before x) eff (replicate (Z.to_nat 512) 0) hc in
         Ok (hc, c_string out)
       else Ok (hc, []) in
     let* rr := mini_net_http (o_realloc x) (o_addr x) (o_net x) (o_fuel x) method (Some eff)
                  (merge_headers cookie cond extra) body in
     match rr with
     | None => Ok None
     | Some (r, rc) =>
       if decide (rc ≠ 0) then Ok (Some (World (w_hsts w) jar hc, r, rc)) else
       let* (hc, r, blen) :=
         if decide (r_status r = 304) then
           let* (hc, se) := mini_httpcache_get_any (after x) eff hc in
           match se with
           | Some e => let* (r, blen) := use_cached x r e in Ok (hc, r, blen)
           | None => Ok (hc, r, body_length r)
           end
         else Ok (hc, r, body_length r) in
       let* (w, r) := after_exchange x method page_origin eff o reqpath https (bool_decide (0 < n))
                        (World (w_hsts w) jar hc) r blen in
       Ok (Some (w, r, rc))
     end
   end)%c.

(** [pf_do], the body of a prefetch thread: a plain exchange, stored. *)
Definition pf_do (x : outside) (u : bytes) (c : cache) : res (option cache) :=
  (let* rr := mini_net_http (o_realloc x) (o_addr x) (o_net x) (o_fuel x) (Some (str "GET")) (Some u) None None in
   match rr with
   | None => Ok None
   | Some (r, rc) =>
     match resp_headers r, resp_body r with
     | Some h, Some b =>
       if bool_decide (rc = 0) && bool_decide (200 <= r_status r < 300) then
         let hv n cap := Some (default [] (header_value (Some h) (str n) cap)) in
         let* c := mini_httpcache_store (after x) u (r_status r) (Some (r_mime r)) (Some (b ++ [0])) (length b)
                     (hv "ETag"%string 256%nat) (hv "Last-Modified"%string 128%nat) (hv "Cache-Control"%string 256%nat)
                     (Some []) c in
         Ok (Some c)
       else Ok (Some c)
     | _, _ => Ok (Some c)
     end
   end)%c.

Definition demo_out (net : network) (t : Z) : outside :=
  Outside (λ _, true) 4096 net 200 (Some (str "/h")) (λ _, true) (λ n, bool_decide (n < 2 ^ 62)) t t.
Definition one_reply (host_ : bytes) (https : bool) (reply : bytes) : network :=
  Net (λ _ _ _, true) (λ h p s _, if decide (h = host_ ∧ s = https) then Some [Bytes reply] else None).
Definition demo_reply : bytes := str "HTTP/1.1 200 OK" ++ [13; 10] ++ str "ETag: v1" ++ [13; 10] ++
  str "Cache-Control: max-age=60" ++ [13; 10] ++ str "Set-Cookie: a=b" ++ [13; 10] ++ str "Content-Length: 2" ++ [13; 10; 13; 10] ++ str "hi".
Definition no_net : network := Net (λ _ _ _, false) (λ _ _ _ _, None).
Definition empty_world : world := World [] [] (Cache [] ∅).

(** A fetch, a second one from the cache without network, and a third after the
    entry is stale, which sends the tag and gets a 304. *)
Example fetch_run :
  (let get net t w := mini_net_fetch (demo_out net t) (Some (str "GET")) (Some (str "http://h/p")) None None None w in
   let* r1 := get (one_reply (str "h") false demo_reply) 1000 empty_world in
   let w1 := match r1 with Some (w, _, _) => w | None => empty_world end in
   let* r2 := get no_net 1059 w1 in
   let w2 := match r2 with Some (w, _, _) => w | None => empty_world end in
   let* r3 := get (one_reply (str "h") false (str "HTTP/1.1 304 Not Modified" ++ [13; 10; 13; 10])) 1060 w2 in
   Ok (map (fmap (λ '(w, r, rc), (r_status r, resp_body r, map name (w_jar w), rc))) [r1; r2; r3],
       (λ '(_, r, _), strstr (default [] (req_headers r)) (str "If-None-Match: v1")) <$> r3))%c
  = Ok ([Some (200, Some (str "hi"), [str "a"], 0); Some (200, Some (str "hi"), [str "a"], 0);
         Some (200, Some (str "hi"), [str "a"], 0)], Some (Some 241%nat)).
Proof. vm_compute. reflexivity. Qed.

(** A prefetch warms the cache: the fetch that follows needs no network.  It goes
    out in clear text even for a host of the HSTS table. *)
Example prefetch_run :
  (let x := demo_out (one_reply (str "h") false demo_reply) 1000 in
   let* c := pf_do x (str "http://h/p") (Cache [] ∅) in
   let* r := mini_net_fetch (demo_out no_net 1001) None (Some (str "http://h/p")) None None None
               (World [] [] (default (Cache [] ∅) c)) in
   Ok ((λ '(_, r, _), resp_body r) <$> r))%c = Ok (Some (Some (str "hi"))).
Proof. vm_compute. reflexivity. Qed.

(** ** HSTS *)

(** Two networks that are the same over TLS. *)
Definition same_over_tls (n1 n2 : network) : Prop :=
  ∀ h p, connect n1 h p true = connect n2 h p true ∧ ∀ s, exchange n1 h p true s = exchange n2 h p true s.

Definition with_net (n : network) (x : outside) : outside :=
  Outside (o_realloc x) (o_addr x) n (o_fuel x) (o_home x) (o_writable x) (o_malloc x) (t0 x) (t1 x).

Lemma parse_https u hcap pcap p : parse_url (str "https://" ++ u) hcap pcap = Ok (Some p) → is_https p = true.
Proof.
  unfold parse_url. assert (expects (str "http://") (str "https://" ++ u) = None) as ->.
  { unfold expects. by rewrite starts_with_differ by reflexivity. }
  rewrite expects_app. destruct (scan _ _ u) as [h q]. destruct (expect 58 q) as [q'|]; cbn [res_bind].
  - destruct (url_port 0 q') as [[v q'']|]; cbn [res_bind]; [|done]. destruct (decide (h = [])); [done|]. by intros [= <-].
  - destruct (decide (h = [])); [done|]. by intros [= <-].
Qed.

(** Over TLS only, an exchange does not depend on the rest of the network. *)
Lemma http_over_tls realloc addr n1 n2 fuel m u extra body : same_over_tls n1 n2 →
  (∀ p, parse_url u 256 (Z.to_nat 1024) = Ok (Some p) → is_https p = true) →
  mini_net_http realloc addr n1 fuel m (Some u) extra body = mini_net_http realloc addr n2 fuel m (Some u) extra body.
Proof.
  intros Hn Hp. unfold mini_net_http. destruct (parse_url u 256 (Z.to_nat 1024)) as [[p|]|]; [|done|done].
  cbn [res_bind]. rewrite (Hp p) by done. destruct (Hn (u_host p) (u_port p)) as [-> Hs].
  destruct (connect n2 _ _ true); [|done]. cbn [negb]. destruct m as [m|]; [|done].
  destruct (http_request _ _ _ _ _ _ _) as [[req head]|]; [|done]. cbn [res_bind]. by rewrite Hs.
Qed.

Lemma take_https u n : Z.of_nat n = 1023 → ∃ v, take n (str "https://" ++ u) = str "https://" ++ v.
Proof.
  intros Hn. exists (take (n - 8) u). assert (length (str "https://") = 8%nat) as Hl by reflexivity.
  rewrite take_app_ge by (rewrite Hl; lia). by rewrite Hl.
Qed.

(** The address of an upgraded fetch is an https one. *)
Lemma effective_upgrade now hsts u o : mini_origin_parse (Some u) = Ok (Some o) → scheme o = str "http" →
  mini_hsts_should_upgrade now hsts (Some (host o)) = true →
  ∃ v, effective_url now hsts (Some u)
       = (let* o2 := mini_origin_parse (Some (str "https://" ++ v)) in Ok (str "https://" ++ v, default no_origin o2, true))%c.
Proof.
  intros Ho Hs Hu. destruct (take_https (drop 7 u) (Z.to_nat 1023)) as [v Ev]; [by rewrite Z2Nat.id|]. exists v.
  unfold effective_url. rewrite Ho. cbv beta iota delta [res_bind default]. rewrite Hs, Hu.
  change (streq (str "http") (str "http")) with true. cbv beta iota delta [andb]. by rewrite <- Ev.
Qed.

(** An upgraded fetch does not look at the plain network. *)
Lemma fetch_upgraded x n1 n2 method u extra body page_origin w o :
  mini_origin_parse (Some u) = Ok (Some o) → scheme o = str "http" →
  mini_hsts_should_upgrade (t0 x) (w_hsts w) (Some (host o)) = true → same_over_tls n1 n2 →
  mini_net_fetch (with_net n1 x) method (Some u) extra body page_origin w
  = mini_net_fetch (with_net n2 x) method (Some u) extra body page_origin w.
Proof.
  intros Ho Hs Hu Hn. destruct (effective_upgrade _ _ _ _ Ho Hs Hu) as [v E].
  unfold mini_net_fetch. cbn [with_net t0 t1 o_net o_realloc o_addr o_fuel o_home o_writable o_malloc].
  rewrite E. destruct (mini_origin_parse (Some (str "https://" ++ v))) as [o2|]; [|done]. cbn [res_bind].
  change (before (with_net n1 x)) with (before x). change (before (with_net n2 x)) with (before x).
  change (after (with_net n1 x)) with (after x). change (after (with_net n2 x)) with (after x).
  destruct (mini_httpcache_get (before x) _ _) as [[[hc ce] stale]|]; [|done]. cbn [res_bind].
  destruct (if is_get method then ce else None) as [e|]; [done|].
  destruct (build_for _ _ _ _ _ _ _) as [[[jar cookie] n]|]; [|done]. cbn [res_bind].
  destruct (if stale : bool then _ else _) as [[hc' cond]|]; [|done]. cbn [res_bind].
  by rewrite (http_over_tls _ _ n1 n2) by (done || (intros p; apply parse_https)).
Qed.

(** The table an exchange leaves when the response asks for HSTS. *)
Lemma after_exchange_hsts x method page eff o reqpath https cred w r blen h sts w1 r1 :
  resp_headers r = Some h → header_value (Some h) (str "Strict-Transport-Security") 256 = Some sts →
  after_exchange x method page eff o reqpath https cred w r blen = Ok (w1, r1) →
  mini_hsts_remember (t1 x) (w_hsts w) (Some (host o)) (Some sts) = Ok (w_hsts w1).
Proof.
  intros Hh Hv. unfold after_exchange. rewrite Hh, Hv.
  destruct (capture_set_cookies _ _ _ _ _ _ _) as [jar|]; [|done]. cbn [res_bind].
  destruct (mini_hsts_remember _ _ _ _) as [hsts|]; [|done]. cbn [res_bind].
  destruct (cors_blocked _ _ _ _) as [b|]; [|done]. cbn [res_bind].
  destruct (_ && _); [|by intros [= <- _]].
  destruct (mini_httpcache_store _ _ _ _ _ _ _ _ _ _ _) as [hc|]; [|done]. by intros [= <- _].
Qed.

(** C9. When a response of a host carries Strict-Transport-Security with a
    positive lifetime, every http:// URL of that host, in any case, that
    [mini_net_fetch] is given before the lifetime ends and while the table is
    kept is fetched over TLS only: whatever the network would answer over plain
    HTTP, the outcome is the same.  Prefetches, and URLs without a scheme, do
    not look at the table (findings). *)
Theorem fetch_hsts x method page eff o reqpath https cred w r blen h sts w1 r1 :
  resp_headers r = Some h → header_value (Some h) (str "Strict-Transport-Security") 256 = Some sts →
  0 < hsts_age sts → (1 <= length (host o) <= 255)%nat → 0 < t1 x →
  after_exchange x method page eff o reqpath https cred w r blen = Ok (w1, r1) →
  ∀ y n1 n2 method2 u extra body page_origin w2 o2,
    mini_origin_parse (Some u) = Ok (Some o2) → scheme o2 = str "http" → strcaseeq (host o) (host o2) = true →
    t0 y < t1 x + hsts_age sts → w_hsts w2 = w_hsts w1 → same_over_tls n1 n2 →
    mini_net_fetch (with_net n1 y) method2 (Some u) extra body page_origin w2
    = mini_net_fetch (with_net n2 y) method2 (Some u) extra body page_origin w2.
Proof.
  intros Hh Hv Hage Hl Ht Ha y n1 n2 method2 u extra body page_origin w2 o2 Ho Hs Hc Hy Hw Hn.
  pose proof (after_exchange_hsts _ _ _ _ _ _ _ _ _ _ _ _ _ _ _ Hh Hv Ha) as Hr.
  apply (fetch_upgraded y n1 n2 method2 u extra body page_origin w2 o2); [done|done| |done]. rewrite Hw.
  refine (remember_upgrades _ _ _ _ _ _ Hage _ Ht _ Hr _ _ Hy Hc); [lia| |].
  - intros ->. vm_compute in Hage. done.
  - intros E. rewrite E in Hl. cbn in Hl. lia.
Qed.

Definition sts_headers : bytes := str "HTTP/1.1 204 No" ++ [13; 10] ++ str "Strict-Transport-Security: max-age=60".
Definition sts_record : MiniNetRecord :=
  Rec (str "GET") (str "https://h/p") None None 204 (Some sts_headers) None [] false 0 false.
Definition tls_page : MiniOrigin := Origin (str "https") (str "h") 443.
Definition dead_net : network := Net (λ _ _ s, s) (λ _ _ _ _, None).
Definition hsts_world : world := World [Hsts (str "h") 1060 false] [] (Cache [] ∅).
Lemma sts_after : after_exchange (demo_out no_net 1000) (Some (str "HEAD")) None (str "https://h/p") tls_page (str "/p") true false
  empty_world sts_record 0 = Ok (hsts_world, sts_record).
Proof. vm_cast_no_check (eq_refl (Ok (hsts_world, sts_record))). Qed.

Lemma fetch_hsts_witness :
  mini_net_fetch (with_net (one_reply (str "h") false demo_reply) (demo_out no_net 1059)) (Some (str "GET"))
    (Some (str "http://H/p")) None None None hsts_world
  = mini_net_fetch (with_net dead_net (demo_out no_net 1059)) (Some (str "GET")) (Some (str "http://H/p")) None None None hsts_world.
Proof.
  apply (fetch_hsts (demo_out no_net 1000) (Some (str "HEAD")) None (str "https://h/p") tls_page (str "/p") true false
    empty_world sts_record 0 sts_headers (str "max-age=60") hsts_world sts_record) with (o2 := Origin (str "http") (str "H") 80).
  - reflexivity.
  - vm_compute. reflexivity.
  - vm_compute. reflexivity.
  - split; apply Nat.leb_le; reflexivity.
  - reflexivity.
  - exact sts_after.
  - reflexivity.
  - reflexivity.
  - vm_compute. reflexivity.
  - vm_compute. reflexivity.
  - reflexivity.
  - intros h p. split; [reflexivity|]. intros s. cbn. rewrite decide_False; [reflexivity|]. intros [_ H]. discriminate.
Defined.

(** ** The gate *)

(** The page [po] may read the response [h] of the origin [o]. *)
Definition may_read (po o : MiniOrigin) (h : bytes) (cred : bool) : Prop :=
  mini_origin_same po o = true ∨
  ∃ acao, header_value (Some h) (str "Access-Control-Allow-Origin") 256 = Some acao
          ∧ mini_cors_response_allowed (Some po) (Some acao) cred = true.

Lemma cors_blocked_spec p po o h cred : mini_origin_parse (Some p) = Ok (Some po) →
  ∃ b, cors_blocked (Some p) o h cred = Ok b ∧ (b = false ↔ may_read po o h cred).
Proof.
  intros Hp. unfold cors_blocked, may_read. rewrite Hp. cbn [res_bind]. eexists. split; [done|].
  destruct (mini_origin_same po o); [by split; [left|]|].
  destruct (header_value _ _ _) as [acao|]; [|by split; [|intros [?|(?&?&?)]]].
  destruct (mini_cors_response_allowed _ _ _) eqn:E; split; try done.
  - intros _. right. by exists acao.
  - intros [?|(a&[= <-]&?)]; [done|congruence].
Qed.

(** C16. The CORS gate: after an exchange for a page, a response the page may read
    (its own origin's, or one whose Access-Control-Allow-Origin allows the
    page) is left as it is; any other is marked failed with status 0 and never
    enters the cache. *)
Theorem fetch_cors_gate x method p po eff o reqpath https cred w r blen h w' r' :
  mini_origin_parse (Some p) = Ok (Some po) → resp_headers r = Some h →
  after_exchange x method (Some p) eff o reqpath https cred w r blen = Ok (w', r') →
  (may_read po o h cred → r' = r) ∧
  (¬ may_read po o h cred → failed r' = true ∧ r_status r' = 0 ∧ w_cache w' = w_cache w).
Proof.
  intros Hp Hh. unfold after_exchange. rewrite Hh.
  destruct (cors_blocked_spec p po o h cred Hp) as (b&Eb&Hb).
  destruct (capture_set_cookies _ _ _ _ _ _ _) as [jar|]; [|done]. cbn [res_bind].
  destruct (match header_value _ (str "Strict-Transport-Security") _ with Some _ => _ | None => _ end) as [hsts|]; [|done].
  cbn [res_bind]. rewrite Eb. cbn [res_bind]. destruct b.
  - rewrite bool_decide_eq_false_2 by (cbn; lia). rewrite andb_false_r. intros [= <- <-].
    split; [intros ?%Hb; done|done].
  - intros H. split; [|by intros Hn; destruct Hn; apply Hb]. intros _. revert H.
    destruct (_ && _); [|by intros [= _ <-]]. destruct (mini_httpcache_store _ _ _ _ _ _ _ _ _ _ _) as [hc|]; [|done].
    by intros [= _ <-].
Qed.

Definition demo_headers : bytes := str "HTTP/1.1 200 OK" ++ [13; 10] ++ str "Access-Control-Allow-Origin: http://b" ++ [13; 10]
  ++ str "Cache-Control: max-age=9".
Definition demo_record : MiniNetRecord :=
  Rec (str "GET") (str "http://h/p") None None 200 (Some demo_headers) (Some (str "hi")) (str "text/plain") false 0 false.

Definition demo_after (page : option bytes) : res (world * MiniNetRecord) :=
  after_exchange (demo_out no_net 1000) None page (str "http://h/p") (Origin (str "http") (str "h") 80)
    (str "/p") false false empty_world demo_record 2.
Definition demo_world : world := match demo_after None with Ok (w, _) => w | UB => empty_world end.

Lemma demo_after_b : demo_after (Some (str "http://b")) = Ok (demo_world, demo_record).
Proof. vm_cast_no_check (eq_refl (Ok (demo_world, demo_record))). Qed.
Lemma demo_after_none : demo_after None = Ok (demo_world, demo_record).
Proof. vm_cast_no_check (eq_refl (Ok (demo_world, demo_record))). Qed.
Lemma demo_after_a : demo_after (Some (str "http://a")) = Ok (empty_world, block demo_record).
Proof. vm_cast_no_check (eq_refl (Ok (empty_world, block demo_record))). Qed.

Lemma fetch_cors_gate_witness :
  let run p := demo_after (Some (str p)) in
  (∃ w' r', run "http://a"%string = Ok (w', r') ∧ failed r' = true) ∧ ∃ w', run "http://b"%string = Ok (w', demo_record).
Proof.
  split.
  - exists empty_world, (block demo_record). split; [exact demo_after_a|].
    refine (proj1 (proj2 (fetch_cors_gate (demo_out no_net 1000) None (str "http://a") (Origin (str "http") (str "a") 80)
      (str "http://h/p") (Origin (str "http") (str "h") 80) (str "/p") false false empty_world demo_record 2 demo_headers
      empty_world (block demo_record) eq_refl eq_refl demo_after_a) _)).
    intros [H|(a&H1&H2)]; [vm_compute in H; discriminate H|]. vm_compute in H1. injection H1 as <-. vm_compute in H2. discriminate H2.
  - exists demo_world. rewrite demo_after_b. apply (f_equal (λ r, Ok (demo_world, r))). symmetry.
    refine (proj1 (fetch_cors_gate (demo_out no_net 1000) None (str "http://b") (Origin (str "http") (str "b") 80)
      (str "http://h/p") (Origin (str "http") (str "h") 80) (str "/p") false false empty_world demo_record 2 demo_headers
      demo_world demo_record eq_refl eq_refl demo_after_b) _).
    right. eexists. split; vm_compute; reflexivity.
Defined.

(** ** The cache *)

Definition later (x : outside) (n : network) (t : Z) : outside :=
  Outside (o_realloc x) (o_addr x) n (o_fuel x) (o_home x) (o_writable x) (o_malloc x) t t.

Lemma coherent_later x n t c : coherent (after x) c → coherent (before (later x n t)) c.
Proof. intros [H1 H2 H3]. by split. Qed.

(** What [mini_net_fetch] hands to the cache. *)
Definition to_store (h : bytes) (n : String.string) (cap : nat) : option bytes := Some (default [] (header_value (Some h) (str n) cap)).
Definition storable (x : outside) (eff h : bytes) (r : MiniNetRecord) : Prop :=
  good_store (after x) eff (r_status r) (Some (r_mime r)) (Some (default [] (resp_body r) ++ [0])) (body_length r)
    (to_store h "ETag" 256) (to_store h "Last-Modified" 128) (to_store h "Cache-Control" 256).

(** A GET the cache has a fresh entry for: no network, no gate. *)
Lemma fetch_hit x method url extra body page_origin w eff o pd c e :
  effective_url (t0 x) (w_hsts w) url = Ok (eff, o, pd) → is_get method = true →
  mini_httpcache_get (before x) eff (w_cache w) = Ok (c, Some e, false) →
  mini_net_fetch x method url extra body page_origin w
  = (let* r := serve_from_cache x method eff e in Ok (Some (World (w_hsts w) (w_jar w) c, r, 0)))%c.
Proof.
  intros He Hm Hg. unfold mini_net_fetch. rewrite He. cbn [res_bind]. rewrite Hg. cbn [res_bind]. by rewrite Hm.
Qed.

(** An entry of the disk that is fresh is what [get] returns. *)
Lemma get_fresh v u c e : coherent v c → mini_httpcache_load_from_disk v u (disk c) = Ok (Some e) →
  HttpCache.fresh v e = Ok true → ∃ c', mini_httpcache_get v u c = Ok (c', Some e, false).
Proof.
  intros Hc Hl Hf. pose proof (find_idx_spec v u c Hc) as H. rewrite Hl in H. destruct H as (c'&i&E&Hi&_).
  unfold mini_httpcache_get. rewrite E. cbn [res_bind]. rewrite Hi, Hf. by eexists.
Qed.

(** The entry a storable response leaves. *)
Definition entry_of (x : outside) (eff h : bytes) (r : MiniNetRecord) : MiniCacheEntry :=
  stored_entry (after x) eff (r_status r) (Some (r_mime r)) (Some (default [] (resp_body r) ++ [0])) (body_length r)
    (to_store h "ETag" 256) (to_store h "Last-Modified" 128) (to_store h "Cache-Control" 256).

Lemma after_exchange_stored x method page eff o reqpath https cred w r h w1 r1 :
  resp_headers r = Some h → is_get method = true →
  after_exchange x method page eff o reqpath https cred w r (body_length r) = Ok (w1, r1) →
  storable x eff h r1 → coherent (after x) (w_cache w) → (∀ y, y ∈ mem (w_cache w) → url y ≠ eff → apart (url y) eff) →
  resp_body r1 = resp_body r ∧ coherent (after x) (w_cache w1)
  ∧ mini_httpcache_load_from_disk (after x) eff (disk (w_cache w1)) = Ok (Some (entry_of x eff h r1)).
Proof.
  intros Hh Hm Ha Hs Hc Hap. unfold after_exchange in Ha. rewrite Hh in Ha.
  destruct (capture_set_cookies _ _ _ _ _ _ _) as [jar|]; [|done]. cbn [res_bind] in Ha.
  destruct (match header_value _ (str "Strict-Transport-Security") _ with Some _ => _ | None => _ end) as [hsts|]; [|done].
  cbn [res_bind] in Ha. destruct (cors_blocked _ _ _ _) as [b|]; [|done]. cbn [res_bind] in Ha.
  set (r' := if b then block r else r) in *.
  assert (resp_body r' = resp_body r ∧ body_length r' = body_length r) as [Hb Hl] by (unfold r'; by destruct b).
  assert (r1 = r') as ->.
  { destruct (_ && _); [|by injection Ha]. destruct (mini_httpcache_store _ _ _ _ _ _ _ _ _ _ _); [|done]. by injection Ha. }
  pose proof (gs_status _ _ _ _ _ _ _ _ _ Hs) as Hst.
  rewrite Hm, bool_decide_eq_true_2 in Ha by done. cbn [andb] in Ha. rewrite <- Hl in Ha.
  destruct (store_spec _ _ _ _ _ _ _ _ _ (Some []) _ Hc Hs Hap) as (m&E&Hco&Hld).
  unfold to_store in E. rewrite E in Ha. injection Ha as <-. done.
Qed.

Lemma fresh_entry x n t eff h r age ns :
  mini_httpcache_parse_cc (default [] (to_store h "Cache-Control" 256)) = (age, ns, false) → 0 <= t - t1 x < age →
  HttpCache.fresh (before (later x n t)) (entry_of x eff h r) = Ok true.
Proof.
  intros Hcc Ht. pose proof (parse_cc_range (default [] (to_store h "Cache-Control" 256))) as Hr.
  unfold entry_of, stored_entry. rewrite Hcc in *. cbn [fst] in Hr.
  unfold HttpCache.fresh, heuristic_age. rewrite (bool_decide_eq_false_2 (age < 0)) by lia. cbn -[Z.pow] in *.
  rewrite decide_False by lia. rewrite decide_False by lia. rewrite decide_True by lia. by rewrite bool_decide_eq_true_2 by lia.
Qed.

(** C22. A response that was stored with a lifetime answers every later GET of its
    URL within the lifetime, whatever the network does then: same status and
    body, the type, no new cookies.  The page that asks plays no part: a hit
    does not pass the CORS gate. *)
Theorem fetch_cached x method page eff o reqpath https cred w r h w1 r1 age ns n t method2 url2 extra2 body2 page2 o2 pd :
  resp_headers r = Some h → is_get method = true →
  after_exchange x method page eff o reqpath https cred w r (body_length r) = Ok (w1, r1) →
  storable x eff h r1 → coherent (after x) (w_cache w) → (∀ y, y ∈ mem (w_cache w) → url y ≠ eff → apart (url y) eff) →
  mini_httpcache_parse_cc (default [] (to_store h "Cache-Control" 256)) = (age, ns, false) →
  0 <= t - t1 x < age → is_get method2 = true → effective_url t (w_hsts w1) url2 = Ok (eff, o2, pd) →
  ∃ w2 r2, mini_net_fetch (later x n t) method2 url2 extra2 body2 page2 w1 = Ok (Some (w2, r2, 0))
    ∧ r_status r2 = r_status r1 ∧ resp_body r2 = Some (default [] (resp_body r)) ∧ r_mime r2 = take 127 (r_mime r1)
    ∧ failed r2 = false ∧ w_hsts w2 = w_hsts w1 ∧ w_jar w2 = w_jar w1.
Proof.
  intros Hh Hm Ha Hs Hc Hap Hcc Ht Hm2 He.
  destruct (after_exchange_stored _ _ _ _ _ _ _ _ _ _ _ _ _ Hh Hm Ha Hs Hc Hap) as (Hb&Hco&Hld).
  pose proof (fresh_entry x n t eff h r1 age ns Hcc Ht) as Hf.
  destruct (get_fresh _ eff _ _ (coherent_later x n t _ Hco) Hld Hf) as [c' Hg].
  rewrite (fetch_hit (later x n t) _ _ _ _ _ _ _ _ _ _ _ He Hm2 Hg).
  destruct (gs_body _ _ _ _ _ _ _ _ _ Hs) as (_&_&Hma).
  unfold serve_from_cache, copy_body, entry_of, stored_entry. rewrite Hcc. cbn [body_len body status mime].
  change (o_malloc (later x n t)) with (o_malloc x). cbn in Hma. rewrite Hma. cbn [res_bind].
  eexists _, _. split; [done|]. cbn. split_and!; try done. rewrite <- Hb. f_equal. unfold body_length. apply take_app_length.
Qed.

Lemma demo_world_url : effective_url 1005 (w_hsts demo_world) (Some (str "http://h/p"))
  = Ok (str "http://h/p", Origin (str "http") (str "h") 80, true).
Proof. vm_compute. reflexivity. Qed.

Lemma fetch_cached_witness :
  ∃ w2 r2, mini_net_fetch (later (demo_out no_net 1000) no_net 1005) None (Some (str "http://h/p")) None None
             (Some (str "http://elsewhere")) demo_world
           = Ok (Some (w2, r2, 0)) ∧ r_status r2 = 200 ∧ resp_body r2 = Some (str "hi").
Proof.
  destruct (fetch_cached (demo_out no_net 1000) None None (str "http://h/p") (Origin (str "http") (str "h") 80)
    (str "/p") false false empty_world demo_record demo_headers demo_world demo_record 9 false no_net 1005
    None (Some (str "http://h/p")) None None (Some (str "http://elsewhere")) (Origin (str "http") (str "h") 80) true)
    as (w2&r2&H1&H2&H3&_).
  - reflexivity.
  - reflexivity.
  - exact demo_after_none.
  - split; refine (bool_decide_eq_true_1 _ _); vm_compute; reflexivity.
  - split; [apply NoDup_nil_2|discriminate|]. intros e He. inversion He.
  - intros y Hy. inversion Hy.
  - vm_compute. reflexivity.
  - split; [discriminate|reflexivity].
  - reflexivity.
  - exact demo_world_url.
  - exists w2, r2. split; [exact H1|]. split; [rewrite H2; reflexivity|]. rewrite H3. reflexivity.
Defined.
