(* ===== verification/Dom.v ===== *)
(** * DOM tree (src/src/mini_dom.c, node part)

    Nodes live in a store indexed by their address ([nat]); a null pointer is
    [None].  Allocation succeeds.  [UB] is an access to a node that is not
    there, and a loop that never ends (more rounds than there are nodes).  The
    style fields, the DevTools hook's effects and the JavaScript wrappers are
    left out; [muts] is what the hook is told. *)

From S2P Require Import Prelude CString.
From stdpp Require Import gmap list.
Open Scope Z_scope.

(** ** Elements *)

Inductive MiniNodeType :=
| MN_ELEMENT_NODE | MN_ATTRIBUTE_NODE | MN_TEXT_NODE | MN_CDATA_SECTION_NODE | MN_PROCESSING_INSTRUCTION
| MN_COMMENT_NODE | MN_DOCUMENT_NODE | MN_DOCUMENT_TYPE_NODE | MN_DOCUMENT_FRAGMENT_NODE | MN_NOTATION_NODE.
#[export] Instance MiniNodeType_eq_dec : EqDecision MiniNodeType.
Proof. solve_decision. Defined.

Inductive MiniElementCategory :=
| MINI_CAT_UNKNOWN | MINI_CAT_METADATA | MINI_CAT_SECTION | MINI_CAT_TEXT | MINI_CAT_LIST | MINI_CAT_FORM
| MINI_CAT_MEDIA | MINI_CAT_TABLE | MINI_CAT_INTERACTIVE.
Inductive MiniDisplayModel :=
| MINI_DISPLAY_BLOCK | MINI_DISPLAY_FLEX | MINI_DISPLAY_NONE | MINI_DISPLAY_INLINE | MINI_DISPLAY_TABLE
| MINI_DISPLAY_LIST_ITEM | MINI_DISPLAY_INLINE_FLEX.

Record TagDef := Def { t_tag : bytes; t_category : MiniElementCategory; t_flags : Z; t_heading : Z; t_display : MiniDisplayModel }.
Definition F_VOID : Z := 1.
Definition F_RAWTEXT : Z := 2.
Definition rows (c : MiniElementCategory) (f h : Z) (d : MiniDisplayModel) (l : list string) : list TagDef :=
  map (λ s, Def (str s) c f h d) l.

Definition TAG_TABLE : list TagDef :=
   rows MINI_CAT_METADATA F_VOID 0 MINI_DISPLAY_NONE ["base"]%string ++
   rows MINI_CAT_METADATA 0 0 MINI_DISPLAY_NONE ["head"]%string ++
   rows MINI_CAT_METADATA 0 0 MINI_DISPLAY_BLOCK ["html"]%string ++
   rows MINI_CAT_METADATA F_VOID 0 MINI_DISPLAY_NONE ["link"; "meta"]%string ++
   rows MINI_CAT_METADATA F_RAWTEXT 0 MINI_DISPLAY_NONE ["script"; "style"; "title"]%string ++
   rows MINI_CAT_SECTION 0 0 MINI_DISPLAY_BLOCK ["article"; "aside"; "body"; "footer"; "header"; "hgroup";
     "main"; "nav"; "section"; "address"]%string ++
   rows MINI_CAT_SECTION 0 1 MINI_DISPLAY_BLOCK ["h1"]%string ++
   rows MINI_CAT_SECTION 0 2 MINI_DISPLAY_BLOCK ["h2"]%string ++
   rows MINI_CAT_SECTION 0 3 MINI_DISPLAY_BLOCK ["h3"]%string ++
   rows MINI_CAT_SECTION 0 4 MINI_DISPLAY_BLOCK ["h4"]%string ++
   rows MINI_CAT_SECTION 0 5 MINI_DISPLAY_BLOCK ["h5"]%string ++
   rows MINI_CAT_SECTION 0 6 MINI_DISPLAY_BLOCK ["h6"]%string ++
   rows MINI_CAT_TEXT 0 0 MINI_DISPLAY_BLOCK ["blockquote"; "div"; "figure"; "figcaption"]%string ++
   rows MINI_CAT_TEXT F_VOID 0 MINI_DISPLAY_BLOCK ["hr"]%string ++
   rows MINI_CAT_TEXT 0 0 MINI_DISPLAY_BLOCK ["p"; "pre"]%string ++
   rows MINI_CAT_TEXT 0 0 MINI_DISPLAY_INLINE ["a"; "abbr"; "b"; "bdi"; "bdo"]%string ++
   rows MINI_CAT_TEXT F_VOID 0 MINI_DISPLAY_INLINE ["br"]%string ++
   rows MINI_CAT_TEXT 0 0 MINI_DISPLAY_INLINE ["cite"; "code"; "data"; "del"; "dfn"; "em"; "i"; "ins"; "kbd";
     "mark"; "q"; "ruby"; "rp"; "rt"; "s"; "samp"; "small"; "span"; "strong"; "sub"; "sup"; "time"; "u"; "var"]%string ++
   rows MINI_CAT_TEXT F_VOID 0 MINI_DISPLAY_INLINE ["wbr"]%string ++
   rows MINI_CAT_LIST 0 0 MINI_DISPLAY_BLOCK ["dd"; "dl"; "dt"]%string ++
   rows MINI_CAT_LIST 0 0 MINI_DISPLAY_LIST_ITEM ["li"]%string ++
   rows MINI_CAT_LIST 0 0 MINI_DISPLAY_BLOCK ["menu"; "ol"; "ul"]%string ++
   rows MINI_CAT_FORM 0 0 MINI_DISPLAY_INLINE ["button"]%string ++
   rows MINI_CAT_FORM 0 0 MINI_DISPLAY_NONE ["datalist"]%string ++
   rows MINI_CAT_FORM 0 0 MINI_DISPLAY_BLOCK ["fieldset"; "form"]%string ++
   rows MINI_CAT_FORM F_VOID 0 MINI_DISPLAY_INLINE ["input"]%string ++
   rows MINI_CAT_FORM 0 0 MINI_DISPLAY_INLINE ["label"; "legend"; "meter"]%string ++
   rows MINI_CAT_FORM 0 0 MINI_DISPLAY_NONE ["optgroup"; "option"]%string ++
   rows MINI_CAT_FORM 0 0 MINI_DISPLAY_INLINE ["output"; "progress"; "select"]%string ++
   rows MINI_CAT_FORM F_RAWTEXT 0 MINI_DISPLAY_INLINE ["textarea"]%string ++
   rows MINI_CAT_MEDIA F_VOID 0 MINI_DISPLAY_NONE ["area"]%string ++
   rows MINI_CAT_MEDIA 0 0 MINI_DISPLAY_INLINE ["audio"; "canvas"]%string ++
   rows MINI_CAT_MEDIA F_VOID 0 MINI_DISPLAY_INLINE ["embed"]%string ++
   rows MINI_CAT_MEDIA 0 0 MINI_DISPLAY_INLINE ["iframe"]%string ++
   rows MINI_CAT_MEDIA F_VOID 0 MINI_DISPLAY_INLINE ["img"]%string ++
   rows MINI_CAT_MEDIA 0 0 MINI_DISPLAY_INLINE ["map"; "math"; "object"]%string ++
   rows MINI_CAT_MEDIA F_VOID 0 MINI_DISPLAY_NONE ["param"]%string ++
   rows MINI_CAT_MEDIA 0 0 MINI_DISPLAY_INLINE ["picture"]%string ++
   rows MINI_CAT_MEDIA F_VOID 0 MINI_DISPLAY_NONE ["source"]%string ++
   rows MINI_CAT_MEDIA 0 0 MINI_DISPLAY_INLINE ["svg"]%string ++
   rows MINI_CAT_MEDIA F_VOID 0 MINI_DISPLAY_NONE ["track"]%string ++
   rows MINI_CAT_MEDIA 0 0 MINI_DISPLAY_INLINE ["video"]%string ++
   rows MINI_CAT_TABLE 0 0 MINI_DISPLAY_BLOCK ["caption"]%string ++
   rows MINI_CAT_TABLE F_VOID 0 MINI_DISPLAY_NONE ["col"]%string ++
   rows MINI_CAT_TABLE 0 0 MINI_DISPLAY_NONE ["colgroup"]%string ++
   rows MINI_CAT_TABLE 0 0 MINI_DISPLAY_BLOCK ["table"; "tbody"; "td"; "tfoot"; "th"; "thead"; "tr"]%string ++
   rows MINI_CAT_INTERACTIVE 0 0 MINI_DISPLAY_BLOCK ["details"; "dialog"; "portal"]%string ++
   rows MINI_CAT_INTERACTIVE 0 0 MINI_DISPLAY_INLINE ["slot"]%string ++
   rows MINI_CAT_INTERACTIVE 0 0 MINI_DISPLAY_BLOCK ["summary"]%string ++
   rows MINI_CAT_INTERACTIVE 0 0 MINI_DISPLAY_NONE ["template"]%string.

Record MiniElementInfo := Info {
  i_category : MiniElementCategory; is_void : bool; is_raw_text : bool; i_heading : Z; i_display : MiniDisplayModel }.

Definition mini_element_info (tag : option bytes) : MiniElementInfo :=
  match tag ≫= (λ t, find (λ r, streq (t_tag r) t) TAG_TABLE) with
  | Some r => Info (t_category r) (Z.testbit (t_flags r) 0) (Z.testbit (t_flags r) 1) (t_heading r) (t_display r)
  | None => Info MINI_CAT_UNKNOWN false false 0 MINI_DISPLAY_BLOCK
  end.

(** ** Nodes *)

Record Links := Lk {
  parent : option nat; first_child : option nat; last_child : option nat;
  prev_sibling : option nat; next_sibling : option nat }.

(** An attribute's value may be null. *)
Record MiniNode := Node {
  ntype : MiniNodeType; tag : option bytes; text : option bytes; attrs : list (bytes * option bytes);
  vars : list (bytes * bytes); shadow_root : option nat;
  category : MiniElementCategory; default_display : MiniDisplayModel; heading_level : Z;
  state_hovered : Z; state_active : Z; state_focused : Z; dirty_layout : bool; dirty_paint : bool;
  lk : Links }.

Definition no_links : Links := Lk None None None None None.
Definition set_parent v l := Lk v (first_child l) (last_child l) (prev_sibling l) (next_sibling l).
Definition set_first v l := Lk (parent l) v (last_child l) (prev_sibling l) (next_sibling l).
Definition set_last v l := Lk (parent l) (first_child l) v (prev_sibling l) (next_sibling l).
Definition set_prev v l := Lk (parent l) (first_child l) (last_child l) v (next_sibling l).
Definition set_next v l := Lk (parent l) (first_child l) (last_child l) (prev_sibling l) v.

Definition set_lk (f : Links → Links) (x : MiniNode) : MiniNode :=
  Node (ntype x) (tag x) (text x) (attrs x) (vars x) (shadow_root x) (category x) (default_display x) (heading_level x)
    (state_hovered x) (state_active x) (state_focused x) (dirty_layout x) (dirty_paint x) (f (lk x)).
Definition set_text (v : option bytes) (x : MiniNode) : MiniNode :=
  Node (ntype x) (tag x) v (attrs x) (vars x) (shadow_root x) (category x) (default_display x) (heading_level x)
    (state_hovered x) (state_active x) (state_focused x) (dirty_layout x) (dirty_paint x) (lk x).
Definition set_attrs (v : list (bytes * option bytes)) (x : MiniNode) : MiniNode :=
  Node (ntype x) (tag x) (text x) v (vars x) (shadow_root x) (category x) (default_display x) (heading_level x)
    (state_hovered x) (state_active x) (state_focused x) (dirty_layout x) (dirty_paint x) (lk x).
Definition set_vars (v : list (bytes * bytes)) (x : MiniNode) : MiniNode :=
  Node (ntype x) (tag x) (text x) (attrs x) v (shadow_root x) (category x) (default_display x) (heading_level x)
    (state_hovered x) (state_active x) (state_focused x) (dirty_layout x) (dirty_paint x) (lk x).
Definition set_shadow (v : option nat) (x : MiniNode) : MiniNode :=
  Node (ntype x) (tag x) (text x) (attrs x) (vars x) v (category x) (default_display x) (heading_level x)
    (state_hovered x) (state_active x) (state_focused x) (dirty_layout x) (dirty_paint x) (lk x).
Definition set_states (h a f : Z) (x : MiniNode) : MiniNode :=
  Node (ntype x) (tag x) (text x) (attrs x) (vars x) (shadow_root x) (category x) (default_display x) (heading_level x)
    h a f (dirty_layout x) (dirty_paint x) (lk x).
Definition set_dirty (l p : bool) (x : MiniNode) : MiniNode :=
  Node (ntype x) (tag x) (text x) (attrs x) (vars x) (shadow_root x) (category x) (default_display x) (heading_level x)
    (state_hovered x) (state_active x) (state_focused x) l p (lk x).

(** What [notify_mutation] reports. *)
Inductive mutation :=
| Inserted (p c : nat) | Removed (p c : nat) | AttrModified (n : nat) (k : bytes) (v : option bytes) | AttrRemoved (n : nat) (k : bytes).

(** [next_id] is the next address; [active_dirty] the flags of the active document. *)
Record dom := Dom { nodes : gmap nat MiniNode; next_id : nat; muts : list mutation; active_dirty : bool; css_vars : list (bytes * bytes) }.

Definition with_nodes (m : gmap nat MiniNode) (d : dom) : dom := Dom m (next_id d) (muts d) (active_dirty d) (css_vars d).
Definition notify_mutation (m : mutation) (d : dom) : dom := Dom (nodes d) (next_id d) (muts d ++ [m]) true (css_vars d).

(** [*n], and a write to it. *)
Definition node (d : dom) (n : nat) : res MiniNode := match nodes d !! n with Some x => Ok x | None => UB end.
Definition put (d : dom) (n : nat) (f : MiniNode → MiniNode) : res dom :=
  match nodes d !! n with Some x => Ok (with_nodes (<[n := f x]> (nodes d)) d) | None => UB end.
Definition put_lk (d : dom) (n : nat) (f : Links → Links) : res dom := put d n (set_lk f).

(** More rounds than this and a walk over the tree is in a cycle. *)
Definition rounds (d : dom) : nat := S (size (nodes d)).

(** ** Creation *)

Definition alloc (x : MiniNode) (d : dom) : dom * nat :=
  (Dom (<[next_id d := x]> (nodes d)) (S (next_id d)) (muts d) (active_dirty d) (css_vars d), next_id d).
Definition zero_node (t : MiniNodeType) (tg tx : option bytes) : MiniNode :=
  Node t tg tx [] [] None MINI_CAT_UNKNOWN MINI_DISPLAY_BLOCK 0 0 0 0 false false no_links.

Definition element_node (buf : bytes) : MiniNode :=
  let i := mini_element_info (Some buf) in
  Node MN_ELEMENT_NODE (Some buf) None [] [] None (i_category i) (i_display i) (i_heading i) 0 0 0 false false no_links.
Definition mini_node_create_element (tg : option bytes) : dom → dom * nat :=
  alloc (element_node (map c_tolower (take 47 (default (str "div") tg)))).
Definition mini_node_create_text (data : option bytes) : dom → dom * nat := alloc (zero_node MN_TEXT_NODE None data).
Definition mini_node_create_text_n (data : bytes) : dom → dom * nat := alloc (zero_node MN_TEXT_NODE None (Some data)).
Definition mini_node_create_comment (data : option bytes) : dom → dom * nat :=
  alloc (zero_node MN_COMMENT_NODE None (Some (default [] data))).
Definition mini_node_create_comment_n (data : bytes) : dom → dom * nat := alloc (zero_node MN_COMMENT_NODE None (Some data)).
Definition mini_node_create_document_type (name : option bytes) : dom → dom * nat :=
  alloc (zero_node MN_DOCUMENT_TYPE_NODE (Some (default (str "html") name)) None).
Definition mini_node_create_document_fragment : dom → dom * nat := alloc (zero_node MN_DOCUMENT_FRAGMENT_NODE None None).
Definition mini_node_create_attribute (name value : option bytes) : dom → dom * nat :=
  alloc (zero_node MN_ATTRIBUTE_NODE (Some (default [] name)) (Some (default [] value))).

(** ** The tree *)

Definition mini_node_remove_child (d : dom) (p c : option nat) : res (dom * Z) :=
  match p, c with
  | Some p, Some c =>
    (let* x := node d c in
     if decide (parent (lk x) ≠ Some p) then Ok (d, -1) else
     let* d := match prev_sibling (lk x) with
               | Some s => put_lk d s (set_next (next_sibling (lk x)))
               | None => put_lk d p (set_first (next_sibling (lk x)))
               end in
     let* x := node d c in
     let* d := match next_sibling (lk x) with
               | Some s => put_lk d s (set_prev (prev_sibling (lk x)))
               | None => put_lk d p (set_last (prev_sibling (lk x)))
               end in
     let* d := put_lk d c (set_parent None) in
     let* d := put_lk d c (λ l, set_prev None (set_next None l)) in
     Ok (notify_mutation (Removed p c) d, 0))%c
  | _, _ => Ok (d, -1)
  end.

(** [c] after the last child of [p]. *)
Definition link_last (d : dom) (p c : nat) : res dom :=
  (let* d := put_lk d c (set_parent (Some p)) in
   let* px := node d p in
   let* d := put_lk d c (λ l, set_next None (set_prev (last_child (lk px)) l)) in
   let* px := node d p in
   let* d := match last_child (lk px) with
             | Some l => put_lk d l (set_next (Some c))
             | None => put_lk d p (set_first (Some c))
             end in
   put_lk d p (set_last (Some c)))%c.

(** The children of a fragment, moved one by one. *)
Fixpoint move_children (fuel : nat) (d : dom) (p : nat) (c : option nat) : res dom :=
  match fuel, c with
  | _, None => Ok d
  | O, _ => UB
  | S fuel, Some c =>
    (let* x := node d c in
     let* d := link_last d p c in
     move_children fuel d p (next_sibling (lk x)))%c
  end.

Definition mini_node_append_child (d : dom) (p c : option nat) : res (dom * Z) :=
  match p, c with
  | Some p, Some c =>
    (let* x := node d c in
     if bool_decide (ntype x = MN_DOCUMENT_FRAGMENT_NODE) && bool_decide (c ≠ p) then
       let* d := move_children (rounds d) d p (first_child (lk x)) in
       let* d := put_lk d c (λ l, set_first None (set_last None l)) in
       Ok (d, 0)
     else
       let* d := match parent (lk x) with
                 | Some q => let* (d, _) := mini_node_remove_child d (Some q) (Some c) in Ok d
                 | None => Ok d
                 end in
       let* d := link_last d p c in
       Ok (notify_mutation (Inserted p c) d, 0))%c
  | _, _ => Ok (d, -1)
  end.

Definition mini_node_insert_before (d : dom) (p c r : option nat) : res (dom * Z) :=
  match p, c, r with
  | Some _, Some _, None => mini_node_append_child d p c
  | Some p, Some c, Some r =>
    (let* x := node d c in
     let* d := match parent (lk x) with
               | Some q => let* (d, _) := mini_node_remove_child d (Some q) (Some c) in Ok d
               | None => Ok d
               end in
     let* d := put_lk d c (set_parent (Some p)) in
     let* d := put_lk d c (set_next (Some r)) in
     let* rx := node d r in
     let* d := put_lk d c (set_prev (prev_sibling (lk rx))) in
     let* rx := node d r in
     let* d := match prev_sibling (lk rx) with
               | Some s => put_lk d s (set_next (Some c))
               | None => put_lk d p (set_first (Some c))
               end in
     let* d := put_lk d r (set_prev (Some c)) in
     Ok (d, 0))%c
  | _, _, _ => Ok (d, -1)
  end.

Definition mini_node_replace_child (d : dom) (p c o : option nat) : res (dom * Z) :=
  match p, c, o with
  | Some p', Some _, Some o' =>
    (let* x := node d o' in
     if decide (parent (lk x) ≠ Some p') then Ok (d, -1) else
     let* (d, r) := mini_node_insert_before d p c o in
     if decide (r ≠ 0) then Ok (d, -1) else mini_node_remove_child d p o)%c
  | _, _, _ => Ok (d, -1)
  end.

(** The loop [for (c = ...; c; c = c->next_sibling)] over unchanged links. *)
Fixpoint chain (fuel : nat) (d : dom) (step : Links → option nat) (c : option nat) : res (list nat) :=
  match c, fuel with
  | None, _ => Ok []
  | Some _, O => UB
  | Some c, S fuel => (let* x := node d c in let* l := chain fuel d step (step (lk x)) in Ok (c :: l))%c
  end.
Definition children (d : dom) (n : nat) : res (list nat) :=
  (let* x := node d n in chain (rounds d) d next_sibling (first_child (lk x)))%c.
Definition ancestors (d : dom) (n : option nat) : res (list nat) := chain (rounds d) d parent n.

(** The same loop left at the first node that passes a test. *)
Fixpoint seek (fuel : nat) (d : dom) (step : Links → option nat) (ok : nat → bool) (c : option nat) : res (option nat) :=
  match c, fuel with
  | None, _ => Ok None
  | Some _, O => UB
  | Some c, S fuel => (let* x := node d c in if ok c then Ok (Some c) else seek fuel d step ok (step (lk x)))%c
  end.

(** The walk from [x] to the root meets [anc]. *)
Definition mini_is_anc (d : dom) (anc x : nat) : res bool :=
  (let* r := seek (rounds d) d parent (λ n, bool_decide (n = anc)) (Some x) in Ok (bool_decide (r ≠ None)))%c.
Definition mini_node_contains (d : dom) (root target : option nat) : res bool :=
  match root, target with
  | Some r, Some t => mini_is_anc d r t
  | _, _ => Ok false
  end.

Definition is_element (d : dom) (n : nat) : bool :=
  match nodes d !! n with Some x => bool_decide (ntype x = MN_ELEMENT_NODE) | None => false end.
Definition mini_node_first_element_child (d : dom) (n : option nat) : res (option nat) :=
  match n with
  | None => Ok None
  | Some n => (let* x := node d n in seek (rounds d) d next_sibling (is_element d) (first_child (lk x)))%c
  end.
Definition mini_node_last_element_child (d : dom) (n : option nat) : res (option nat) :=
  match n with
  | None => Ok None
  | Some n => (let* x := node d n in seek (rounds d) d prev_sibling (is_element d) (last_child (lk x)))%c
  end.
Definition mini_node_element_child_count (d : dom) (n : option nat) : res Z :=
  match n with
  | None => Ok 0
  | Some n => (let* l := children d n in Ok (Z.of_nat (length (List.filter (is_element d) l))))%c
  end.

(** ** Copies and destruction *)

Definition copy_node (x : MiniNode) : MiniNode :=
  Node (ntype x) (tag x) (text x) (attrs x) [] None (category x) (default_display x) (heading_level x)
    (state_hovered x) (state_active x) (state_focused x) false false no_links.

Fixpoint clone (fuel : nat) (d : dom) (n : option nat) (deep : bool) : res (dom * option nat) :=
  match n, fuel with
  | None, _ => Ok (d, None)
  | Some _, O => UB
  | Some n, S fuel =>
    (let* x := node d n in
     let (d, c) := alloc (copy_node x) d in
     if deep then
       let fix kids k d ch :=
         match ch, k with
         | None, _ => Ok d
         | Some _, O => UB
         | Some ch, S k =>
           let* (d, cc) := clone fuel d (Some ch) true in
           let* (d, _) := mini_node_append_child d (Some c) cc in
           let* y := node d ch in
           kids k d (next_sibling (lk y))
         end in
       let* y := node d n in
       let* d := kids (rounds d) d (first_child (lk y)) in
       Ok (d, Some c)
     else Ok (d, Some c))%c
  end.
Definition mini_node_clone (d : dom) (n : option nat) (deep : bool) : res (dom * option nat) := clone (rounds d) d n deep.

Fixpoint destroy (fuel : nat) (d : dom) (n : option nat) : res dom :=
  match n, fuel with
  | None, _ => Ok d
  | Some _, O => UB
  | Some n, S fuel =>
    (let* x := node d n in
     let fix kids k d c :=
       match c, k with
       | None, _ => Ok d
       | Some _, O => UB
       | Some c, S k =>
         let* y := node d c in
         let* d := destroy fuel d (Some c) in
         kids k d (next_sibling (lk y))
       end in
     let* d := kids (rounds d) d (first_child (lk x)) in
     let* x := node d n in
     let* d := destroy fuel d (shadow_root x) in
     Ok (with_nodes (delete n (nodes d)) d))%c
  end.
Definition mini_node_destroy (d : dom) (n : option nat) : res dom := destroy (rounds d) d n.

Definition mini_node_attach_shadow (d : dom) (host : option nat) : res (dom * option nat) :=
  match host with
  | None => Ok (d, None)
  | Some h =>
    (let* x := node d h in
     match shadow_root x with
     | Some r => Ok (d, Some r)
     | None =>
       let (d, r) := alloc (zero_node MN_DOCUMENT_FRAGMENT_NODE (Some (str "#shadow-root")) None) d in
       let* d := put d h (set_shadow (Some r)) in
       let* d := put_lk d r (set_parent (Some h)) in
       Ok (d, Some r)
     end)%c
  end.
Definition mini_node_shadow_root (d : dom) (host : option nat) : res (option nat) :=
  match host with None => Ok None | Some h => (let* x := node d h in Ok (shadow_root x))%c end.

(** ** Attributes, text, custom properties *)

(** Attributes and custom properties are lists of named values, searched from
    the head; a change of one that is not there is [None]. *)
Section assoc.
Context {V : Type}.
Fixpoint assoc_set (l : list (bytes * V)) (k : bytes) (v : V) : option (list (bytes * V)) :=
  match l with
  | [] => None
  | (k', v') :: l => if streq k' k then Some ((k', v) :: l) else cons (k', v') <$> assoc_set l k v
  end.
Fixpoint assoc_get (l : list (bytes * V)) (k : bytes) : option V :=
  match l with
  | [] => None
  | (k', v) :: l => if streq k' k then Some v else assoc_get l k
  end.
Fixpoint assoc_del (l : list (bytes * V)) (k : bytes) : option (list (bytes * V)) :=
  match l with
  | [] => None
  | (k', v) :: l => if streq k' k then Some l else cons (k', v) <$> assoc_del l k
  end.
End assoc.

Definition attr_set (l : list (bytes * option bytes)) (k : bytes) (v : option bytes) : list (bytes * option bytes) :=
  match assoc_set l k v with Some l => l | None => (k, v) :: l end.
Definition mini_node_set_attribute (d : dom) (n : option nat) (k v : option bytes) : res dom :=
  match n, k with
  | Some n, Some k =>
    (let* x := node d n in
     let* d := put d n (set_attrs (attr_set (attrs x) k v)) in
     Ok (notify_mutation (AttrModified n k v) d))%c
  | _, _ => Ok d
  end.
Definition mini_node_get_attribute (d : dom) (n : option nat) (k : option bytes) : res (option bytes) :=
  match n, k with
  | Some n, Some k => (let* x := node d n in Ok (assoc_get (attrs x) k ≫= λ v, v))%c
  | _, _ => Ok None
  end.
Definition mini_node_remove_attribute (d : dom) (n : option nat) (k : option bytes) : res dom :=
  match n, k with
  | Some n, Some k =>
    (let* x := node d n in
     match assoc_del (attrs x) k with
     | Some l => let* d := put d n (λ x, set_dirty true true (set_attrs l x)) in
                 Ok (notify_mutation (AttrRemoved n k) d)
     | None => Ok d
     end)%c
  | _, _ => Ok d
  end.
Definition mini_node_set_text (d : dom) (n : option nat) (t : option bytes) : res dom :=
  match n with None => Ok d | Some n => put d n (set_text t) end.

Definition var_name (name : bytes) : bytes := if starts_with (str "--") name then drop 2 name else name.
Definition mini_css_var_set (name value : bytes) (d : dom) : dom :=
  Dom (nodes d) (next_id d) (muts d) (active_dirty d)
    match assoc_set (css_vars d) name value with Some l => l | None => css_vars d ++ [(name, value)] end.
Definition mini_css_var_get (name : bytes) (d : dom) : bytes := default [] (assoc_get (css_vars d) name).

(** [None] for the node is a null pointer: the global table. *)
Definition mini_node_set_var (d : dom) (n : option nat) (name value : bytes) : res dom :=
  let name := var_name name in
  match n with
  | None => Ok (mini_css_var_set name value d)
  | Some n =>
    (let* x := node d n in
     if bool_decide (tag x = Some (str "html")) || bool_decide (ntype x = MN_DOCUMENT_NODE)
     then Ok (mini_css_var_set name value d)
     else put d n (set_vars match assoc_set (vars x) name value with Some l => l | None => (name, value) :: vars x end))%c
  end.
Fixpoint var_up (fuel : nat) (d : dom) (n : option nat) (name : bytes) : res bytes :=
  match n, fuel with
  | None, _ => Ok (mini_css_var_get name d)
  | Some _, O => UB
  | Some n, S fuel =>
    (let* x := node d n in
     match assoc_get (vars x) name with
     | Some v => Ok v
     | None => var_up fuel d (parent (lk x)) name
     end)%c
  end.
Definition mini_node_get_var (d : dom) (n : option nat) (name : bytes) : res bytes :=
  var_up (rounds d) d n (var_name name).

Definition mini_node_set_interaction_state (d : dom) (n : option nat) (hovered active focused : Z) : res dom :=
  match n with
  | None => Ok d
  | Some n =>
    (let* x := node d n in
     let upd old new := if decide (0 <= new) then u8 new else old in
     let h := upd (state_hovered x) hovered in let a := upd (state_active x) active in let f := upd (state_focused x) focused in
     put d n (λ x, set_states h a f (set_dirty (dirty_layout x)
       (dirty_paint x || negb (bool_decide (h = state_hovered x ∧ a = state_active x ∧ f = state_focused x))) x)))%c
  end.
Definition mini_node_mark_dirty (d : dom) (n : option nat) (layout paint : bool) : res dom :=
  match n with None => Ok d | Some n => put d n (λ x, set_dirty (dirty_layout x || layout) (dirty_paint x || paint) x) end.

(** ** Queries *)

(** [ci_eq] on two non-null strings. *)
Fixpoint ci_eq (a b : bytes) : bool :=
  match a, b with
  | x :: a, y :: b => if decide (c_tolower x = c_tolower y) then ci_eq a b else false
  | [], [] => true
  | _, _ => false
  end.
Definition ci_eq_n (a b : bytes) (n : nat) : bool := bool_decide (map c_tolower (take n a) = map c_tolower (take n b)).

Fixpoint class_loop (fuel : nat) (p tok : bytes) : bool :=
  match fuel, p with
  | S fuel, _ :: _ =>
    let p := skip c_isspace p in
    let '(s, r) := scan (λ c, negb (c_isspace c)) (length p) p in
    if bool_decide (length tok = length s) && ci_eq_n s tok (length s) then true else class_loop fuel r tok
  | _, _ => false
  end.
Definition class_has (classval tok : bytes) : bool := class_loop (length classval) classval tok.

(** The nodes of a subtree in document order that pass a test, [max] at most. *)
Fixpoint collect (fuel : nat) (d : dom) (ok : MiniNode → bool) (max : nat) (n : nat) (out : list nat) : res (list nat) :=
  match fuel with
  | O => UB
  | S fuel =>
    (let* x := node d n in
     let out := if bool_decide (ntype x = MN_ELEMENT_NODE) && ok x && bool_decide (length out < max)%nat
                then out ++ [n] else out in
     let* l := chain (rounds d) d next_sibling (first_child (lk x)) in
     foldl (λ r c, let* out := r in collect fuel d ok max c out) (Ok out) l)%c
  end.
Definition collect_by_tag (d : dom) (tg : bytes) : nat → nat → list nat → res (list nat) :=
  collect (rounds d) d (λ x, match tag x with
                             | Some t => bool_decide (hd0 tg = 42) || ci_eq t tg
                             | None => false
                             end).
Definition collect_by_class (d : dom) (cls : bytes) : nat → nat → list nat → res (list nat) :=
  collect (rounds d) d (λ x, match assoc_get (attrs x) (str "class") with
                             | Some (Some v) => class_has v cls
                             | _ => false
                             end).
Definition mini_dom_get_elements_by_tag_name (d : dom) (root : nat) (tg : bytes) (max : nat) : res (list nat) :=
  collect_by_tag d tg max root [].
Definition mini_dom_get_elements_by_class_name (d : dom) (root : nat) (cls : bytes) (max : nat) : res (list nat) :=
  collect_by_class d cls max root [].

Fixpoint find_node_by_id_rec (fuel : nat) (d : dom) (n : option nat) (id : bytes) : res (option nat) :=
  match n, fuel with
  | None, _ => Ok None
  | Some _, O => UB
  | Some n, S fuel =>
    (let* x := node d n in
     if bool_decide (assoc_get (attrs x) (str "id") = Some (Some id)) then Ok (Some n) else
     let* l := chain (rounds d) d next_sibling (first_child (lk x)) in
     let* r := foldl (λ r c, let* r := r in
                             match r with Some _ => Ok r | None => find_node_by_id_rec fuel d (Some c) id end) (Ok None) l in
     match r with Some _ => Ok r | None => find_node_by_id_rec fuel d (shadow_root x) id end)%c
  end.
Definition mini_dom_get_element_by_id (d : dom) (root : option nat) (id : bytes) : res (option nat) :=
  find_node_by_id_rec (rounds d) d root id.

(** The ancestor of [x], or [x], that is a child of [lca]. *)
Fixpoint branch (fuel : nat) (d : dom) (x lca : nat) : res nat :=
  match fuel with
  | O => UB
  | S fuel =>
    (let* nx := node d x in
     match parent (lk nx) with
     | Some p => if decide (p = lca) then Ok x else branch fuel d p lca
     | None => Ok x
     end)%c
  end.
Definition mini_node_precedes (d : dom) (a b : option nat) : res bool :=
  match a, b with
  | None, None => Ok false
  | None, Some _ => Ok true
  | Some _, None => Ok false
  | Some a, Some b =>
    if decide (a = b) then Ok false else
    (let* ab := mini_is_anc d a b in
     if ab : bool then Ok true else
     let* ba := mini_is_anc d b a in
     if ba : bool then Ok false else
     let* na := node d a in
     let* up := ancestors d (parent (lk na)) in
     let* ub := ancestors d (Some b) in
     match find (λ x, bool_decide (x ∈ ub)) up with
     | None => Ok (bool_decide (a < b)%nat)
     | Some lca =>
       let* ca := branch (rounds d) d a lca in
       let* cb := branch (rounds d) d b lca in
       let* l := children d lca in
       Ok (match find (λ c, bool_decide (c = ca) || bool_decide (c = cb)) l with
           | Some c => bool_decide (c = ca)
           | None => false
           end)
     end)%c
  end.

Definition no_dom : dom := Dom ∅ 1 [] false [].
(** The document node and its body. *)
Definition mini_doc_create (d : dom) : res (dom * nat * nat) :=
  let (d, r) := mini_node_create_element (Some (str "#document")) d in
  (let* x := node d r in
   let* d := put d r (λ x, Node MN_DOCUMENT_NODE (tag x) (text x) (attrs x) (vars x) (shadow_root x) (category x)
                        (default_display x) (heading_level x) (state_hovered x) (state_active x) (state_focused x)
                        (dirty_layout x) (dirty_paint x) (lk x)) in
   let (d, b) := mini_node_create_element (Some (str "body")) d in
   let* (d, _) := mini_node_append_child d (Some r) (Some b) in
   Ok (d, r, b))%c.

(** Replacing a node by itself loses its siblings, unlinks it and leaves it the
    parent's first child. *)
Example replace_itself :
  (let (d, p) := mini_node_create_element (Some (str "ul")) no_dom in
   let (d, a) := mini_node_create_text (Some (str "a")) d in
   let (d, b) := mini_node_create_text (Some (str "b")) d in
   let* (d, _) := mini_node_append_child d (Some p) (Some a) in
   let* (d, _) := mini_node_append_child d (Some p) (Some b) in
   let* l := children d p in
   let* (d, r) := mini_node_replace_child d (Some p) (Some b) (Some b) in
   let* l' := children d p in
   let* x := node d b in
   Ok (l, r, l', parent (lk x)))%c = Ok ([2; 3]%nat, 0, [3]%nat, None).
Proof. reflexivity. Qed.

(** Nothing keeps a node out of its own subtree. *)
Example append_ancestor :
  (let (d, p) := mini_node_create_element None no_dom in
   let (d, c) := mini_node_create_element None d in
   let* (d, _) := mini_node_append_child d (Some p) (Some c) in
   let* (d, r) := mini_node_append_child d (Some c) (Some p) in
   let* x := node d c in
   Ok (r, parent (lk x), mini_node_contains d (Some 9%nat) (Some c)))%c = Ok (0, Some 1%nat, UB).
Proof. reflexivity. Qed.

(** ** The tree is the lists of children *)

Definition pred_at (l : list nat) (i : nat) : option nat := match i with O => None | S j => l !! j end.

(** [K p] is the list of the children of [p]: the five pointers of every node
    agree with it.  Only a fragment (a shadow root) may have a parent whose
    child it is not. *)
Record linked (d : dom) (K : nat → list nat) : Prop := {
  lk_ends : ∀ p x, nodes d !! p = Some x → first_child (lk x) = head (K p) ∧ last_child (lk x) = last (K p);
  lk_kid : ∀ p i c, K p !! i = Some c → ∃ x, nodes d !! c = Some x ∧ parent (lk x) = Some p
    ∧ prev_sibling (lk x) = pred_at (K p) i ∧ next_sibling (lk x) = K p !! S i;
  lk_par : ∀ c x p, nodes d !! c = Some x → parent (lk x) = Some p → ntype x ≠ MN_DOCUMENT_FRAGMENT_NODE → c ∈ K p;
  lk_dom : ∀ p, nodes d !! p = None → K p = [];
  lk_nodup : ∀ p, NoDup (K p) }.

(** [d'] is [d] but for the links. *)
Definition relinked (F : nat → Links → Links) (d d' : dom) : Prop :=
  (∀ m, nodes d' !! m = set_lk (F m) <$> nodes d !! m) ∧ next_id d' = next_id d ∧ css_vars d' = css_vars d.

Definition without (c : nat) (l : list nat) : list nat := filter (λ x, x ≠ c) l.

Lemma without_id c l : c ∉ l → without c l = l.
Proof.
  unfold without. induction l as [|x l IH]; [done|]. rewrite not_elem_of_cons. intros [Hx Hl].
  rewrite filter_cons, decide_True by congruence. by rewrite IH.
Qed.

Section tree.
Context (d : dom) (K : nat → list nat) (HL : linked d K).

Lemma kid_node p c : c ∈ K p → ∃ x, nodes d !! c = Some x ∧ parent (lk x) = Some p.
Proof using HL. intros [i Hi]%list_elem_of_lookup. destruct (lk_kid _ _ HL _ _ _ Hi) as (x&?&?&_). by exists x. Qed.

Lemma kid_unique p q c : c ∈ K p → c ∈ K q → p = q.
Proof using HL. intros (x&Hx&Hp)%kid_node (y&Hy&Hq)%kid_node. congruence. Qed.

Lemma kids_node p c : c ∈ K p → is_Some (nodes d !! p).
Proof using HL.
  intros Hc. destruct (nodes d !! p) eqn:E; [by eexists|]. rewrite (lk_dom _ _ HL p E) in Hc. by apply not_elem_of_nil in Hc.
Qed.

Lemma without_other p q c : c ∈ K p → p ≠ q → without c (K q) = K q.
Proof using HL. intros Hp Hne. apply without_id. intros Hx. by destruct (Hne (kid_unique _ _ _ Hp Hx)). Qed.
End tree.

Lemma without_delete c l i : NoDup l → l !! i = Some c → without c l = delete i l.
Proof.
  intros Hn Hi. rewrite delete_take_drop. rewrite <- (take_drop_middle l i c Hi) in Hn |- * at 1.
  apply NoDup_app in Hn as (_&H1&[H2 _]%NoDup_cons).
  unfold without. rewrite filter_app, filter_cons, decide_False by (intros H; by apply H). f_equal; apply without_id.
  - intros Hx. apply (H1 c Hx). by left.
  - done.
Qed.

Lemma without_nodup c l : NoDup l → NoDup (without c l).
Proof. apply NoDup_filter. Qed.
Lemma elem_without x c l : x ∈ without c l ↔ x ≠ c ∧ x ∈ l.
Proof. unfold without. by rewrite list_elem_of_filter. Qed.

Lemma set_lk_lk f x : lk (set_lk f x) = f (lk x).
Proof. done. Qed.
Lemma put_relinked d n f : is_Some (nodes d !! n) →
  ∃ d', put_lk d n f = Ok d' ∧ relinked (λ m l, if decide (m = n) then f l else l) d d'.
Proof.
  intros [x Hx]. unfold put_lk, put. rewrite Hx. eexists. split; [done|]. split; [|done]. intros m. cbn.
  destruct (decide (m = n)) as [->|]; [by rewrite lookup_insert_eq, Hx|].
  rewrite lookup_insert_ne by done. by destruct (nodes d !! m) as [[]|].
Qed.
Lemma relinked_trans F G d1 d2 d3 : relinked F d1 d2 → relinked G d2 d3 → relinked (λ m l, G m (F m l)) d1 d3.
Proof.
  intros (H1&E1&V1) (H2&E2&V2). split; [|by split; congruence]. intros m. rewrite H2, H1. by destruct (nodes d1 !! m).
Qed.
Lemma relinked_ext F G d d' : (∀ m x, nodes d !! m = Some x → F m (lk x) = G m (lk x)) → relinked F d d' → relinked G d d'.
Proof.
  intros HE (H&E). split; [|done]. intros m. rewrite H. destruct (nodes d !! m) as [x|] eqn:Ex; [|done]. cbn.
  unfold set_lk. by rewrite (HE m x).
Qed.
Lemma relinked_id d : relinked (λ _ l, l) d d.
Proof. split; [|done]. intros m. by destruct (nodes d !! m) as [[]|]. Qed.
Lemma relinked_node F d d' m x : relinked F d d' → nodes d !! m = Some x → node d' m = Ok (set_lk (F m) x).
Proof. intros (H&_) Hx. unfold node. by rewrite H, Hx. Qed.
Lemma relinked_some F d d' m : relinked F d d' → is_Some (nodes d !! m) → is_Some (nodes d' !! m).
Proof. intros (H&_) [x Hx]. rewrite H, Hx. by eexists. Qed.

(** One write more: [d0] relinked to [d], and to the result. *)
Ltac put_step H n :=
  let d' := fresh "d" in let E := fresh "E" in let R := fresh "R" in
  match type of H with relinked _ ?d0 ?d =>
    match goal with |- context [put_lk d n ?f] =>
      destruct (put_relinked d n f) as (d'&E&R); [by eapply relinked_some; [exact H|eauto]|];
      rewrite E; cbn [res_bind]; clear E; apply (relinked_trans _ _ _ _ _ H) in R; clear H; rename R into H
    end
  end.
(** What unlinking [c] from [p] does, given the siblings [pv] and [nx] of [c]. *)
Definition unlink (p c : nat) (pv nx : option nat) (m : nat) (l : Links) : Links :=
  Lk (if decide (m = c) then None else parent l)
     (if decide (m = p ∧ pv = None) then nx else first_child l)
     (if decide (m = p ∧ nx = None) then pv else last_child l)
     (if decide (m = c) then None else if decide (nx = Some m) then pv else prev_sibling l)
     (if decide (m = c) then None else if decide (pv = Some m) then nx else next_sibling l).

(** Two descriptions of the new links agree, node by node. *)
Ltac links_done R :=
  eexists; split; [reflexivity|]; eapply relinked_ext; [|exact R]; intros m [] Hm; unfold unlink;
  cbn [lk]; match goal with l : Links |- _ => destruct l end;
  repeat (case_decide; destruct_and?; simplify_eq); cbn; try done; try naive_solver.

Lemma remove_child_run d p c x i K : linked d K → nodes d !! c = Some x → K p !! i = Some c →
  ∃ d', mini_node_remove_child d (Some p) (Some c) = Ok (notify_mutation (Removed p c) d', 0)
    ∧ relinked (unlink p c (pred_at (K p) i) (K p !! S i)) d d'.
Proof.
  intros HL Hx Hi. destruct (lk_kid _ _ HL _ _ _ Hi) as (x'&Hx'&Hp&Hpv&Hnx). assert (x' = x) as -> by congruence. clear Hx'.
  assert (is_Some (nodes d !! p)) as Hsp by (eapply (kids_node _ _ HL), list_elem_of_lookup_2, Hi).
  assert (is_Some (nodes d !! c)) as Hsc by (by eexists).
  pose proof (lk_nodup _ _ HL p) as Hn.
  assert (∀ s, pred_at (K p) i = Some s → s ≠ c ∧ is_Some (nodes d !! s)) as Hs1.
  { intros s Hs. destruct i as [|j]; [done|]. split; [|destruct (lk_kid _ _ HL _ _ _ Hs) as (?&?&_); by eexists].
    intros ->. pose proof (NoDup_lookup _ _ _ _ Hn Hs Hi). lia. }
  assert (∀ s, K p !! S i = Some s → s ≠ c ∧ is_Some (nodes d !! s)) as Hs2.
  { intros s Hs. split; [|destruct (lk_kid _ _ HL _ _ _ Hs) as (?&?&_); by eexists].
    intros ->. pose proof (NoDup_lookup _ _ _ _ Hn Hs Hi). lia. }
  unfold mini_node_remove_child. unfold node at 1. rewrite Hx. cbn [res_bind]. rewrite decide_False by (intros H; by apply H).
  rewrite Hpv, Hnx. pose proof (relinked_id d) as R.
  destruct (pred_at (K p) i) as [s|] eqn:Es.
  - destruct (Hs1 s eq_refl) as [Hsne Hss]. put_step R s. rewrite (relinked_node _ _ _ _ _ R Hx). cbn [res_bind].
    unfold set_lk at 1 2 3. cbn [lk]. rewrite decide_False by congruence. rewrite Hnx, Hpv.
    destruct (K p !! S i) as [s'|] eqn:Es'.
    + destruct (Hs2 s' eq_refl) as [Hsne' Hss']. put_step R s'. put_step R c. put_step R c. links_done R.
    + put_step R p. put_step R c. put_step R c. links_done R.
  - put_step R p. rewrite (relinked_node _ _ _ _ _ R Hx). cbn [res_bind].
    unfold set_lk at 1 2 3. cbn [lk].
    replace (next_sibling (if decide (c = p) then set_first (K p !! S i) (lk x) else lk x)) with (K p !! S i)
      by (by destruct (decide _)).
    replace (prev_sibling (if decide (c = p) then set_first (K p !! S i) (lk x) else lk x)) with (@None nat)
      by (by destruct (decide _)).
    destruct (K p !! S i) as [s'|] eqn:Es'.
    + destruct (Hs2 s' eq_refl) as [Hsne' Hss']. put_step R s'. put_step R c. put_step R c. links_done R.
    + put_step R p. put_step R c. put_step R c. links_done R.
Qed.

Lemma pred_at_delete l i j : pred_at (delete i l) j =
  if decide (j < i)%nat then pred_at l j else if decide (j = i)%nat then pred_at l i else l !! j.
Proof.
  destruct j as [|j]; simpl.
  - destruct (decide (0 < i)%nat); [done|]. rewrite decide_True by lia. by assert (i = 0)%nat as -> by lia.
  - destruct (decide (S j < i)%nat); [by rewrite list_lookup_delete_lt by lia|].
    destruct (decide (S j = i)) as [<-|]; [by rewrite list_lookup_delete_lt by lia|]. by rewrite list_lookup_delete_ge by lia.
Qed.

Lemma head_delete (l : list nat) i : head (delete i l) = if decide (i = 0)%nat then l !! 1%nat else head l.
Proof. by destruct l as [|? [|]], i. Qed.
Lemma last_delete (l : list nat) i c : l !! i = Some c → last (delete i l) = match l !! S i with Some _ => last l | None => pred_at l i end.
Proof.
  intros Hi. pose proof (lookup_lt_Some _ _ _ Hi) as Hlt. rewrite !last_lookup, length_delete by (by eexists).
  destruct (l !! S i) as [y|] eqn:Ey.
  - apply lookup_lt_Some in Ey. rewrite list_lookup_delete_ge by lia. f_equal. lia.
  - apply lookup_ge_None in Ey. assert (i = pred (length l)) as -> by lia.
    destruct (length l) as [|[|n]] eqn:En; [lia| |].
    + simpl. destruct l as [|? [|]]; done.
    + simpl. rewrite list_lookup_delete_lt by lia. done.
Qed.

Lemma linked_unlink d d' K p c i x : linked d K → nodes d !! c = Some x → K p !! i = Some c →
  relinked (unlink p c (pred_at (K p) i) (K p !! S i)) d d' → linked d' (λ q, without c (K q)).
Proof.
  intros HL Hx Hi (HR&_). pose proof (lk_nodup _ _ HL p) as Hn.
  assert (c ∈ K p) as Hc by (by eapply list_elem_of_lookup_2).
  assert (∀ q, without c (K q) = if decide (q = p) then delete i (K p) else K q) as Hw.
  { intros q. destruct (decide (q = p)) as [->|]; [by apply without_delete|]. by apply (without_other _ _ HL p). }
  split.
  - intros q y. rewrite Hw, HR. destruct (nodes d !! q) as [y0|] eqn:Ey; [|done]. intros [= <-]. cbn.
    destruct (lk_ends _ _ HL _ _ Ey) as [E1 E2]. destruct (decide (q = p)) as [->|].
    + rewrite head_delete, (last_delete _ _ _ Hi), E1, E2. split.
      * destruct i as [|i]; simpl; [by rewrite decide_True|].
        destruct (K p !! i) as [s|] eqn:Es; [by rewrite decide_False by naive_solver|].
        apply lookup_lt_Some in Hi. apply lookup_ge_None in Es. lia.
      * destruct (K p !! S i); [by rewrite decide_False by naive_solver|by rewrite decide_True by done].
    + by rewrite !decide_False by naive_solver.
  - intros q j z. rewrite Hw. destruct (decide (q = p)) as [->|Hqp].
    + intros Hz. assert (∃ k, K p !! k = Some z ∧ k ≠ i ∧ k = if decide (j < i)%nat then j else S j) as (k&Hk&Hki&Ek).
      { destruct (decide (j < i)%nat) as [Hj|Hj].
        - exists j. rewrite list_lookup_delete_lt in Hz by done. split_and!; [done|lia|done].
        - exists (S j). rewrite list_lookup_delete_ge in Hz by lia. split_and!; [done|lia|done]. }
      destruct (lk_kid _ _ HL _ _ _ Hk) as (y&Hy&H1&H2&H3). exists (set_lk (unlink p c (pred_at (K p) i) (K p !! S i) z) y).
      rewrite HR, Hy. split; [done|]. cbn.
      assert (z ≠ c) as Hzc by (intros ->; pose proof (NoDup_lookup _ _ _ _ Hn Hk Hi); lia).
      rewrite !(decide_False (P := z = c)) by done. split; [done|]. rewrite H2, H3, pred_at_delete. split.
      * destruct (decide (K p !! S i = Some z)) as [Es|Es].
        { pose proof (NoDup_lookup _ _ _ _ Hn Es Hk) as <-. destruct (decide (j < i)%nat); [lia|].
          by rewrite decide_True by lia. }
        destruct (decide (j < i)%nat); [by subst|]. subst k. rewrite decide_False; [done|]. intros ->. done.
      * destruct (decide (pred_at (K p) i = Some z)) as [Es|Es].
        { destruct i as [|i]; [done|]. simpl in Es. pose proof (NoDup_lookup _ _ _ _ Hn Es Hk) as <-.
          destruct (decide (j < S i)%nat); [subst j|lia]. by rewrite list_lookup_delete_ge by lia. }
        destruct (decide (j < i)%nat).
        { subst k. rewrite list_lookup_delete_lt; [done|]. destruct (decide (S j = i)) as [<-|]; [|lia]. done. }
        subst k. by rewrite list_lookup_delete_ge by lia.
    + intros Hz. destruct (lk_kid _ _ HL _ _ _ Hz) as (y&Hy&H1&H2&H3). exists (set_lk (unlink p c (pred_at (K p) i) (K p !! S i) z) y).
      rewrite HR, Hy. split; [done|]. cbn.
      assert (∀ s, s ∈ K p → z ≠ s) as Hzs.
      { intros s Hs ->. apply Hqp. apply (kid_unique _ _ HL q p s); [by eapply list_elem_of_lookup_2|done]. }
      assert (∀ k, K p !! k ≠ Some z) as Hzk by (intros k ?%list_elem_of_lookup_2; by apply (Hzs z)).
      rewrite !(decide_False (P := z = c)) by (by apply Hzs). rewrite (decide_False (P := K p !! S i = Some z)) by apply Hzk.
      rewrite (decide_False (P := pred_at (K p) i = Some z)) by (destruct i; [done|apply Hzk]). done.
  - intros z y q. rewrite HR, Hw. destruct (nodes d !! z) as [y0|] eqn:Ey; [|done]. intros [= <-]. cbn.
    destruct (decide (z = c)) as [->|Hzc]; [done|]. intros Hq Hf. specialize (lk_par _ _ HL _ _ _ Ey Hq Hf) as Hz.
    rewrite <- Hw. by apply elem_without.
  - intros q. rewrite HR. destruct (nodes d !! q) eqn:Ey; [done|]. by rewrite (lk_dom _ _ HL q Ey).
  - intros q. apply without_nodup, (lk_nodup _ _ HL).
Qed.

(** What linking [c] after the last child [lst] of [p] does. *)
Definition link (p c : nat) (lst : option nat) (m : nat) (l : Links) : Links :=
  Lk (if decide (m = c) then Some p else parent l)
     (if decide (m = p ∧ lst = None) then Some c else first_child l)
     (if decide (m = p) then Some c else last_child l)
     (if decide (m = c) then lst else prev_sibling l)
     (if decide (lst = Some m) then Some c else if decide (m = c) then None else next_sibling l).

Lemma link_last_run d p c K : linked d K → c ∉ K p → is_Some (nodes d !! p) → is_Some (nodes d !! c) →
  ∃ d', link_last d p c = Ok d' ∧ relinked (link p c (last (K p))) d d'.
Proof.
  intros HL Hc [px Hpx] Hsc. assert (is_Some (nodes d !! p)) as Hsp by (by eexists).
  pose proof (lk_ends _ _ HL _ _ Hpx) as [_ El].
  assert (∀ s, last (K p) = Some s → s ≠ c ∧ is_Some (nodes d !! s)) as Hs.
  { intros s Hs. rewrite last_lookup in Hs. split; [intros ->; by apply list_elem_of_lookup_2 in Hs|].
    destruct (lk_kid _ _ HL _ _ _ Hs) as (?&?&_). by eexists. }
  unfold link_last. pose proof (relinked_id d) as R. put_step R c.
  rewrite (relinked_node _ _ _ _ _ R Hpx). cbn [res_bind].
  rewrite set_lk_lk. replace (last_child _) with (last (K p)) by (rewrite <- El; by destruct (decide _)).
  put_step R c. rewrite (relinked_node _ _ _ _ _ R Hpx). cbn [res_bind]. rewrite set_lk_lk.
  replace (last_child _) with (last (K p)) by (rewrite <- El; by repeat destruct (decide _)).
  destruct (last (K p)) as [s|] eqn:Es.
  - destruct (Hs s eq_refl) as [Hsne Hss]. put_step R s. 
    destruct (put_relinked d2 p (set_last (Some c))) as (d'&E&R'); [by eapply relinked_some|]. exists d'. split; [done|].
    eapply relinked_ext; [|exact (relinked_trans _ _ _ _ _ R R')]. intros m [] Hm. unfold link.
    cbn [lk]. destruct lk0. repeat (case_decide; destruct_and?; simplify_eq); cbn; try done; try naive_solver.
  - put_step R p. destruct (put_relinked d2 p (set_last (Some c))) as (d'&E&R'); [by eapply relinked_some|]. exists d'. split; [done|].
    eapply relinked_ext; [|exact (relinked_trans _ _ _ _ _ R R')]. intros m [] Hm. unfold link.
    cbn [lk]. destruct lk0. repeat (case_decide; destruct_and?; simplify_eq); cbn; try done; try naive_solver.
Qed.

Lemma linked_link d d' K p c : linked d K → (∀ q, c ∉ K q) → is_Some (nodes d !! p) → is_Some (nodes d !! c) →
  relinked (link p c (last (K p))) d d' → linked d' (λ q, if decide (q = p) then K q ++ [c] else K q).
Proof.
  intros HL Hc [px Hpx] [cx Hcx] (HR&_).
  assert (∀ q j z, K q !! j = Some z → z ≠ c) as Hzc by (intros q j z Hz ->; by eapply (Hc q), list_elem_of_lookup_2).
  split.
  - intros q y. rewrite HR. destruct (nodes d !! q) as [y0|] eqn:Ey; [|done]. intros [= <-]. cbn.
    destruct (lk_ends _ _ HL _ _ Ey) as [E1 E2]. destruct (decide (q = p)) as [->|]; [|by rewrite decide_False by naive_solver].
    rewrite last_snoc. split; [|done]. destruct (K p) as [|k l] eqn:Ek; [by rewrite decide_True|]. rewrite decide_False; [done|].
    intros [_ El]. by apply last_None in El.
  - intros q j z Hz. assert (is_Some (K q !! j) ∨ q = p ∧ j = length (K p) ∧ z = c) as Hcase.
    { destruct (decide (q = p)) as [->|]; [|left; by eexists]. apply lookup_app_Some in Hz as [?|[Hj Hz]]; [left; by eexists|].
      right. apply list_lookup_singleton_Some in Hz as [? ->]. split_and!; [done|lia|done]. }
    destruct Hcase as [[z' Hz']|(->&->&->)].
    + assert (z' = z) as ->.
      { destruct (decide (q = p)) as [->|]; [|congruence].
        rewrite lookup_app_l in Hz by (by eapply lookup_lt_Some). congruence. }
      destruct (lk_kid _ _ HL _ _ _ Hz') as (y&Hy&H1&H2&H3). exists (set_lk (link p c (last (K p)) z) y).
      rewrite HR, Hy. split; [done|]. cbn. rewrite !(decide_False (P := z = c)) by (by eapply Hzc). split; [done|].
      pose proof (lookup_lt_Some _ _ _ Hz') as Hlt.
      rewrite H2, H3. split; destruct (decide (q = p)) as [->|Hqp].
      * destruct j; [done|]. simpl. by rewrite lookup_app_l by lia.
      * done.
      * destruct (decide (last (K p) = Some z)) as [El|El].
        -- rewrite last_lookup in El. pose proof (NoDup_lookup _ _ _ _ (lk_nodup _ _ HL p) El Hz') as E.
           rewrite lookup_app_r by lia. by replace (S j - length (K p))%nat with O by lia.
        -- rewrite lookup_app_l; [done|]. destruct (decide (S j = length (K p))) as [E|]; [|lia].
           destruct El. rewrite last_lookup, <- E. done.
      * rewrite decide_False; [done|]. intros El. rewrite last_lookup in El. apply Hqp.
        apply (kid_unique _ _ HL q p z); by eapply list_elem_of_lookup_2.
    + exists (set_lk (link p c (last (K p)) c) cx). rewrite HR, Hcx. split; [done|]. cbn. rewrite !(decide_True (P := c = c)) by done.
      rewrite decide_True by done. split; [done|]. split.
      * rewrite last_lookup. destruct (length (K p)) as [|n] eqn:En; simpl.
        -- apply lookup_ge_None. lia.
        -- rewrite lookup_app_l by lia. done.
      * rewrite decide_False; [|rewrite last_lookup; intros El; by eapply Hzc]. rewrite lookup_app_r by lia.
        by replace (S (length (K p)) - length (K p))%nat with 1%nat by lia.
  - intros z y q. rewrite HR. destruct (nodes d !! z) as [y0|] eqn:Ey; [|done]. intros [= <-]. cbn.
    destruct (decide (z = c)) as [->|Hzc'].
    + intros [= <-] _. rewrite decide_True by done. apply elem_of_app. right. by left.
    + intros Hq Hf. pose proof (lk_par _ _ HL _ _ _ Ey Hq Hf) as Hz. destruct (decide (q = p)) as [->|]; [|done].
      apply elem_of_app. by left.
  - intros q. rewrite HR. destruct (nodes d !! q) eqn:Ey; [done|]. intros _. rewrite (lk_dom _ _ HL q Ey).
    rewrite decide_False; [done|]. intros ->. congruence.
  - intros q. destruct (decide (q = p)) as [->|]; [|apply (lk_nodup _ _ HL)]. apply NoDup_app.
    split; [apply (lk_nodup _ _ HL)|]. split; [|apply NoDup_singleton]. intros z Hz Hzc'%list_elem_of_singleton.
    subst z. by apply (Hc p).
Qed.

(** [c] at position [i]. *)
Definition ins (i : nat) (c : nat) (l : list nat) : list nat := take i l ++ c :: drop i l.

Lemma lookup_ins l i c j : (i <= length l)%nat →
  ins i c l !! j = if decide (j < i)%nat then l !! j else if decide (j = i) then Some c else l !! pred j.
Proof.
  intros Hi. unfold ins. destruct (decide (j < i)%nat).
  - rewrite lookup_app_l by (rewrite length_take; lia). by rewrite lookup_take_lt by lia.
  - rewrite lookup_app_r by (rewrite length_take; lia). rewrite length_take, Nat.min_l by lia.
    destruct (decide (j = i)) as [->|]; [by rewrite Nat.sub_diag|].
    replace (j - i)%nat with (S (pred j - i)) by lia. simpl. rewrite lookup_drop. f_equal. lia.
Qed.
Lemma length_ins i c l : (i <= length l)%nat → length (ins i c l) = S (length l).
Proof. intros. unfold ins. rewrite length_app, length_take. simpl. rewrite length_drop. lia. Qed.
Lemma elem_ins x i c l : x ∈ ins i c l ↔ x = c ∨ x ∈ l.
Proof.
  unfold ins. rewrite elem_of_app, elem_of_cons. rewrite <- (take_drop i l) at 3. rewrite elem_of_app. tauto.
Qed.
Lemma NoDup_ins i c l : NoDup l → c ∉ l → NoDup (ins i c l).
Proof.
  intros Hn Hc. unfold ins. assert (take i l ++ c :: drop i l ≡ₚ c :: l) as ->; [|by constructor].
  rewrite <- Permutation_middle. by rewrite take_drop.
Qed.
Lemma pred_at_ins l i c j : (i <= length l)%nat →
  pred_at (ins i c l) j = if decide (j <= i)%nat then pred_at l j else if decide (j = S i) then Some c else pred_at l (pred j).
Proof.
  intros Hi. destruct j as [|j]; simpl; [done|]. rewrite lookup_ins by done.
  destruct (decide (j < i)%nat); [by rewrite decide_True by lia|]. rewrite (decide_False (P := (S j <= i)%nat)) by lia.
  destruct (decide (j = i)) as [->|]; [by rewrite decide_True|]. rewrite decide_False by lia. by destruct j; [lia|].
Qed.

(** What linking [c] before [r], whose previous sibling is [pv], does. *)
Definition link_before (p c r : nat) (pv : option nat) (m : nat) (l : Links) : Links :=
  Lk (if decide (m = c) then Some p else parent l)
     (if decide (m = p ∧ pv = None) then Some c else first_child l)
     (last_child l)
     (if decide (m = r) then Some c else if decide (m = c) then pv else prev_sibling l)
     (if decide (pv = Some m) then Some c else if decide (m = c) then Some r else next_sibling l).

Lemma linked_link_before d d' K p c r i : linked d K → (∀ q, c ∉ K q) → is_Some (nodes d !! c) → K p !! i = Some r →
  relinked (link_before p c r (pred_at (K p) i)) d d' → linked d' (λ q, if decide (q = p) then ins i c (K q) else K q).
Proof.
  intros HL Hc [cx Hcx] Hr (HR&_). pose proof (lookup_lt_Some _ _ _ Hr) as Hlt.
  assert (∀ q j z, K q !! j = Some z → z ≠ c) as Hzc by (intros q j z Hz ->; by eapply (Hc q), list_elem_of_lookup_2).
  assert (∀ j, pred_at (K p) i = Some j → ∃ k, i = S k ∧ K p !! k = Some j) as Hpv by (destruct i; [done|]; eauto).
  split.
  - intros q y. rewrite HR. destruct (nodes d !! q) as [y0|] eqn:Ey; [|done]. intros [= <-]. cbn.
    destruct (lk_ends _ _ HL _ _ Ey) as [E1 E2]. destruct (decide (q = p)) as [->|]; [|by rewrite decide_False by naive_solver].
    rewrite !head_lookup, !last_lookup in *. split.
    + rewrite lookup_ins by lia. destruct i as [|i]; [by rewrite decide_True|].
      rewrite decide_False; [by rewrite decide_True by lia|]. simpl. intros [_ E]. apply lookup_ge_None in E. lia.
    + rewrite length_ins, lookup_ins by lia. simpl.
      rewrite decide_False by lia. rewrite decide_False by lia. done.
  - intros q j z Hz. destruct (decide (q = p)) as [->|Hqp].
    + rewrite lookup_ins in Hz by lia.
      assert (z = c ∧ j = i ∨ ∃ k, K p !! k = Some z ∧ (k < i ∧ j = k ∨ i <= k ∧ j = S k)%nat) as [[-> ->]|(k&Hk&Ej)].
      { destruct (decide (j < i)%nat); [right; exists j; by split; [|left]|].
        destruct (decide (j = i)) as [->|]; [left; split; [congruence|done]|]. right. exists (pred j). split; [done|right; lia]. }
      * exists (set_lk (link_before p c r (pred_at (K p) i) c) cx). rewrite HR, Hcx. split; [done|]. cbn.
        rewrite !(decide_True (P := c = c)) by done. rewrite (decide_False (P := c = r)) by (intros ->; by eapply Hzc).
        rewrite decide_False by (intros (k&->&Hk)%Hpv; by eapply Hzc).
        split; [done|]. rewrite pred_at_ins, lookup_ins by lia. rewrite decide_True by lia.
        rewrite decide_False by lia. rewrite decide_False by lia. done.
      * destruct (lk_kid _ _ HL _ _ _ Hk) as (y&Hy&H1&H2&H3). exists (set_lk (link_before p c r (pred_at (K p) i) z) y).
        rewrite HR, Hy. split; [done|]. cbn. rewrite !(decide_False (P := z = c)) by (by eapply Hzc). split; [done|].
        rewrite pred_at_ins, lookup_ins, H2, H3 by lia. split.
        -- destruct (decide (z = r)) as [->|Hzr].
           { pose proof (NoDup_lookup _ _ _ _ (lk_nodup _ _ HL p) Hk Hr) as ->. destruct Ej as [[? _]|[_ ->]]; [lia|].
             rewrite decide_False by lia. by rewrite decide_True. }
           assert (k ≠ i) by (intros ->; congruence). destruct Ej as [[? ->]|[? ->]]; [by rewrite decide_True by lia|].
           rewrite decide_False by lia. rewrite decide_False by lia. done.
        -- destruct (decide (pred_at (K p) i = Some z)) as [El|El].
           { apply Hpv in El as (k'&->&Hk'). pose proof (NoDup_lookup _ _ _ _ (lk_nodup _ _ HL p) Hk Hk') as ->.
             destruct Ej as [[_ ->]|[? _]]; [|lia]. rewrite decide_False by lia. by rewrite decide_True. }
           destruct Ej as [[? ->]|[? ->]].
           { assert (S k ≠ i) by (intros <-; simpl in El; congruence). by rewrite decide_True by lia. }
           rewrite decide_False by lia. rewrite decide_False by lia. done.
    + destruct (lk_kid _ _ HL _ _ _ Hz) as (y&Hy&H1&H2&H3). exists (set_lk (link_before p c r (pred_at (K p) i) z) y).
      rewrite HR, Hy. split; [done|]. cbn. rewrite !(decide_False (P := z = c)) by (by eapply Hzc). split; [done|].
      assert (∀ s, s ∈ K p → z ≠ s) as Hzs.
      { intros s Hs ->. apply Hqp. apply (kid_unique _ _ HL q p s); [by eapply list_elem_of_lookup_2|done]. }
      rewrite (decide_False (P := z = r)) by (apply Hzs; by eapply list_elem_of_lookup_2).
      rewrite decide_False; [done|]. intros (k&->&Hk)%Hpv. by eapply Hzs; [eapply list_elem_of_lookup_2|].
  - intros z y q. rewrite HR. destruct (nodes d !! z) as [y0|] eqn:Ey; [|done]. intros [= <-]. cbn.
    destruct (decide (z = c)) as [->|Hzc'].
    + intros [= <-] _. rewrite decide_True by done. apply elem_ins. by left.
    + intros Hq Hf. pose proof (lk_par _ _ HL _ _ _ Ey Hq Hf) as Hz. destruct (decide (q = p)) as [->|]; [|done].
      apply elem_ins. by right.
  - intros q. rewrite HR. destruct (nodes d !! q) eqn:Ey; [done|]. intros _. rewrite (lk_dom _ _ HL q Ey).
    rewrite decide_False; [done|]. intros ->. by rewrite (lk_dom _ _ HL p Ey) in Hr.
  - intros q. destruct (decide (q = p)) as [->|]; [|apply (lk_nodup _ _ HL)]. apply NoDup_ins; [apply (lk_nodup _ _ HL)|apply Hc].
Qed.

Lemma linked_nodes d d' K : nodes d' = nodes d → linked d K → linked d' K.
Proof. intros E [H1 H2 H3 H4 H5]. by split; rewrite ?E. Qed.
Lemma linked_ext d K K' : (∀ q, K' q = K q) → linked d K → linked d K'.
Proof.
  intros E [H1 H2 H3 H4 H5]. split.
  - intros p x. rewrite E. apply H1.
  - intros p i c. rewrite E. apply H2.
  - intros c x p. rewrite E. apply H3.
  - intros p. rewrite E. apply H4.
  - intros p. rewrite E. apply H5.
Qed.

(** Everything but the links is the same. *)
Definition same_data (d d' : dom) : Prop :=
  (∀ m, set_lk (λ _, no_links) <$> nodes d' !! m = set_lk (λ _, no_links) <$> nodes d !! m)
  ∧ next_id d' = next_id d ∧ css_vars d' = css_vars d.
Lemma relinked_same F d d' : relinked F d d' → same_data d d'.
Proof. intros (H&E). split; [|done]. intros m. rewrite H. by destruct (nodes d !! m). Qed.
Lemma same_data_trans d1 d2 d3 : same_data d1 d2 → same_data d2 d3 → same_data d1 d3.
Proof. intros (H1&E1&V1) (H2&E2&V2). split; [|by split; congruence]. intros m. by rewrite H2. Qed.
Lemma same_data_refl d : same_data d d.
Proof. done. Qed.
Lemma same_data_notify d d' m : same_data d d' → same_data d (notify_mutation m d').
Proof. done. Qed.
Lemma same_data_some d d' m : same_data d d' → is_Some (nodes d' !! m) ↔ is_Some (nodes d !! m).
Proof.
  intros (H&_). specialize (H m). destruct (nodes d' !! m), (nodes d !! m); try discriminate H; split; intros [? ?]; by eexists.
Qed.
Lemma same_data_node d d' m x : same_data d d' → nodes d !! m = Some x →
  ∃ y, nodes d' !! m = Some y ∧ set_lk (λ _, no_links) y = set_lk (λ _, no_links) x.
Proof.
  intros (H&_) Hx. specialize (H m). rewrite Hx in H. destruct (nodes d' !! m) as [y|]; [|done].
  exists y. split; [done|]. cbn in H. congruence.
Qed.

(** Only the parent of [c] changes. *)
Definition reparented (c : nat) (v : option nat) (d d' : dom) : Prop :=
  ∀ m x, nodes d !! m = Some x →
    ∃ y, nodes d' !! m = Some y ∧ parent (lk y) = if decide (m = c) then v else parent (lk x).
Lemma relinked_parent F c v d d' : relinked F d d' → (∀ m l, parent (F m l) = if decide (m = c) then v else parent l) →
  reparented c v d d'.
Proof. intros (H&_) HF m x Hx. rewrite H, Hx. eexists. split; [done|]. apply HF. Qed.
Lemma reparented_trans c v w d1 d2 d3 : reparented c v d1 d2 → reparented c w d2 d3 → reparented c w d1 d3.
Proof.
  intros H1 H2 m x Hx. destruct (H1 m x Hx) as (y&Hy&Ey). destruct (H2 m y Hy) as (z&Hz&Ez). exists z. split; [done|].
  rewrite Ez, Ey. by destruct (decide (m = c)).
Qed.

Section ops.
Context (d : dom) (K : nat → list nat) (HL : linked d K).

(** Unlinking a node from wherever it is. *)
Lemma detach_spec c x : nodes d !! c = Some x → ntype x ≠ MN_DOCUMENT_FRAGMENT_NODE →
  ∃ d', match parent (lk x) with
        | Some q => (let* (d, _) := mini_node_remove_child d (Some q) (Some c) in Ok d)%c
        | None => Ok d
        end = Ok d' ∧ linked d' (λ q, without c (K q)) ∧ same_data d d' ∧ reparented c None d d'.
Proof using HL.
  intros Hx Hf. destruct (parent (lk x)) as [q|] eqn:Ep.
  - pose proof (lk_par _ _ HL _ _ _ Hx Ep Hf) as [i Hi]%list_elem_of_lookup.
    destruct (remove_child_run _ _ _ _ _ _ HL Hx Hi) as (d'&E&R). rewrite E. eexists. split; [done|].
    split; [|split; [by apply same_data_notify, (relinked_same _ _ _ R)|by apply (relinked_parent _ _ _ _ _ R)]].
    eapply (linked_nodes d'); [done|]. by eapply linked_unlink.
  - exists d. split; [done|]. split; [|split; [done|]]; cycle 1.
    { intros m y Hy. exists y. split; [done|]. destruct (decide (m = c)) as [->|]; [congruence|done]. }
    eapply linked_ext; [|done]. intros r. apply without_id.
    intros (y&Hy&Hp)%(kid_node _ _ HL). congruence.
Qed.

Lemma remove_child_in p c : c ∈ K p →
  ∃ d', mini_node_remove_child d (Some p) (Some c) = Ok (d', 0) ∧ linked d' (λ q, without c (K q)) ∧ same_data d d'.
Proof using HL.
  intros Hc. destruct (kid_node _ _ HL _ _ Hc) as (x&Hx&_). apply list_elem_of_lookup in Hc as [i Hi].
  destruct (remove_child_run _ _ _ _ _ _ HL Hx Hi) as (d'&E&R). eexists. split; [done|].
  split; [|by apply same_data_notify, (relinked_same _ _ _ R)]. eapply (linked_nodes d'); [done|]. by eapply linked_unlink.
Qed.

Lemma remove_child_out p c x : nodes d !! c = Some x → ntype x ≠ MN_DOCUMENT_FRAGMENT_NODE → c ∉ K p →
  mini_node_remove_child d (Some p) (Some c) = Ok (d, -1).
Proof using HL.
  intros Hx Hf Hc. unfold mini_node_remove_child, node. rewrite Hx. cbn [res_bind].
  rewrite decide_True; [done|]. intros Hp. apply Hc. by eapply (lk_par _ _ HL).
Qed.

Lemma append_child_spec p c x : nodes d !! c = Some x → ntype x ≠ MN_DOCUMENT_FRAGMENT_NODE → is_Some (nodes d !! p) →
  ∃ d', mini_node_append_child d (Some p) (Some c) = Ok (d', 0)
    ∧ linked d' (λ q, if decide (q = p) then without c (K q) ++ [c] else without c (K q)) ∧ same_data d d'
    ∧ reparented c (Some p) d d'.
Proof using HL.
  intros Hx Hf Hp. unfold mini_node_append_child. unfold node at 1. rewrite Hx. cbn [res_bind].
  rewrite bool_decide_eq_false_2 by done. cbn [andb].
  destruct (detach_spec c x Hx Hf) as (d1&E&HL1&HS&HP). rewrite E. cbn [res_bind].
  assert (∀ q, c ∉ without c (K q)) as Hc by (by intros q [? _]%elem_without).
  assert (is_Some (nodes d1 !! p)) by (by apply (same_data_some _ _ _ HS)).
  assert (is_Some (nodes d1 !! c)) by (apply (same_data_some _ _ _ HS); by eexists).
  destruct (link_last_run d1 p c _ HL1 (Hc p)) as (d2&E2&R); [done..|].
  rewrite E2. cbn [res_bind]. eexists. split; [done|].
  split; [|split; [by apply same_data_notify, (same_data_trans _ _ _ HS), (relinked_same _ _ _ R)|]].
  2: { apply (reparented_trans _ _ _ _ _ _ HP). by apply (relinked_parent _ _ _ _ _ R). }
  eapply (linked_nodes d2); [done|]. by apply (linked_link d1 d2 (λ q, without c (K q)) p c).
Qed.

Lemma insert_before_spec p c r x i : nodes d !! c = Some x → ntype x ≠ MN_DOCUMENT_FRAGMENT_NODE → r ≠ c →
  without c (K p) !! i = Some r →
  ∃ d', mini_node_insert_before d (Some p) (Some c) (Some r) = Ok (d', 0)
    ∧ linked d' (λ q, if decide (q = p) then ins i c (without c (K q)) else without c (K q)) ∧ same_data d d'
    ∧ reparented c (Some p) d d'.
Proof using HL.
  intros Hx Hf Hrc Hi. unfold mini_node_insert_before. unfold node at 1. rewrite Hx. cbn [res_bind].
  destruct (detach_spec c x Hx Hf) as (d1&E&HL1&HS&HP). rewrite E. cbn [res_bind].
  assert (∀ q, c ∉ without c (K q)) as Hc by (by intros q [? _]%elem_without).
  assert (is_Some (nodes d1 !! c)) as Hsc by (apply (same_data_some _ _ _ HS); by eexists).
  assert (is_Some (nodes d1 !! p)) as Hsp by (eapply (kids_node _ _ HL1), list_elem_of_lookup_2, Hi).
  destruct (lk_kid _ _ HL1 _ _ _ Hi) as (rx&Hrx&_&Hpv&_). assert (is_Some (nodes d1 !! r)) as Hsr by (by eexists).
  pose proof (relinked_id d1) as R. put_step R c. put_step R c.
  rewrite (relinked_node _ _ _ _ _ R Hrx). cbn [res_bind]. rewrite set_lk_lk, !(decide_False (P := r = c)), Hpv by done.
  put_step R c. rewrite (relinked_node _ _ _ _ _ R Hrx). cbn [res_bind]. rewrite set_lk_lk, !(decide_False (P := r = c)), Hpv by done.
  assert (∃ d', match pred_at (without c (K p)) i with
                | Some s => put_lk d3 s (set_next (Some c))
                | None => put_lk d3 p (set_first (Some c))
                end = Ok d' ∧ relinked (λ m l, match pred_at (without c (K p)) i with
                  | Some s => if decide (m = s) then set_next (Some c) l else l
                  | None => if decide (m = p) then set_first (Some c) l else l
                  end) d3 d')
    as (d4&E4&R4).
  { destruct (pred_at (without c (K p)) i) as [s|] eqn:Es; apply put_relinked; eapply relinked_some; eauto.
    destruct i; [done|]. by destruct (lk_kid _ _ HL1 _ _ _ Es) as (?&?&_). }
  rewrite E4. cbn [res_bind]. apply (relinked_trans _ _ _ _ _ R) in R4. clear R. rename R4 into R. put_step R r.
  assert (relinked (link_before p c r (pred_at (without c (K p)) i)) d1 d5) as R'; cycle 1.
  { eexists. split; [done|]. split; [|split; [by eapply (same_data_trans _ _ _ HS), (relinked_same _ _ _ R)|]].
    - by apply (linked_link_before d1 d5 (λ q, without c (K q)) p c r i).
    - apply (reparented_trans _ _ _ _ _ _ HP). by apply (relinked_parent _ _ _ _ _ R'). }
  eapply relinked_ext; [|exact R]. intros m [] _. unfold link_before. cbn [lk]. destruct lk0.
  assert (∀ s, pred_at (without c (K p)) i = Some s → s ≠ c ∧ s ≠ r) as Hps.
  { intros s Hs. destruct i as [|i]; [done|]. simpl in Hs. split.
    - intros ->. by apply (Hc p), (list_elem_of_lookup_2 _ i).
    - intros ->. pose proof (NoDup_lookup _ _ _ _ (lk_nodup _ _ HL1 p) Hs Hi). lia. }
  destruct (pred_at (without c (K p)) i) as [s|]; [destruct (Hps s eq_refl)|];
    repeat (case_decide; destruct_and?; simplify_eq); cbn; try done; try naive_solver.
Qed.
End ops.

Lemma without_cons_ne c r l : r ≠ c → without c (r :: l) = r :: without c l.
Proof. intros. unfold without. by rewrite filter_cons, decide_True. Qed.
Lemma without_cons_eq c l : without c (c :: l) = without c l.
Proof. unfold without. rewrite filter_cons, decide_False; [done|]. intros H; by apply H. Qed.
Lemma without_app c l1 l2 : without c (l1 ++ l2) = without c l1 ++ without c l2.
Proof. apply filter_app. Qed.
Lemma ins_mid c r l1 l2 : ins (length l1) c (l1 ++ r :: l2) = l1 ++ c :: r :: l2.
Proof. unfold ins. by rewrite take_app_length, drop_app_length. Qed.

(** C11. Inserting, moving, removing and replacing nodes edits the lists of children:
    whatever subtree the node comes from, it leaves its old place, takes the
    new one, every other list keeps its order, and the five pointers of all
    nodes agree with the lists again.  A node that is no child of the parent
    is not removed. *)
Theorem dom_child_lists d K p c x : linked d K → nodes d !! c = Some x → ntype x ≠ MN_DOCUMENT_FRAGMENT_NODE →
  is_Some (nodes d !! p) →
  (∃ d', mini_node_append_child d (Some p) (Some c) = Ok (d', 0) ∧ same_data d d'
     ∧ linked d' (λ q, if decide (q = p) then without c (K q) ++ [c] else without c (K q)))
  ∧ (if decide (c ∈ K p)
     then ∃ d', mini_node_remove_child d (Some p) (Some c) = Ok (d', 0) ∧ same_data d d' ∧ linked d' (λ q, without c (K q))
     else mini_node_remove_child d (Some p) (Some c) = Ok (d, -1))
  ∧ ∀ r l1 l2, r ≠ c → K p = l1 ++ r :: l2 →
     (∃ d', mini_node_insert_before d (Some p) (Some c) (Some r) = Ok (d', 0) ∧ same_data d d'
       ∧ linked d' (λ q, if decide (q = p) then without c l1 ++ c :: r :: without c l2 else without c (K q)))
     ∧ (∃ d', mini_node_replace_child d (Some p) (Some c) (Some r) = Ok (d', 0) ∧ same_data d d'
       ∧ linked d' (λ q, if decide (q = p) then without c l1 ++ c :: without c l2 else without c (K q))).
Proof.
  intros HL Hx Hf Hp. split; [|split].
  - destruct (append_child_spec _ _ HL p c x Hx Hf Hp) as (d'&E&HL'&HS&_). by exists d'.
  - destruct (decide (c ∈ K p)) as [Hc|Hc]; [|by eapply remove_child_out].
    destruct (remove_child_in _ _ HL p c Hc) as (d'&E&HL'&HS). by exists d'.
  - intros r l1 l2 Hr Hk. assert (without c (K p) = without c l1 ++ r :: without c l2) as Ew
      by (by rewrite Hk, without_app, without_cons_ne).
    destruct (insert_before_spec _ _ HL p c r x (length (without c l1)) Hx Hf Hr) as (d1&E1&HL1&HS1&_).
    { by rewrite Ew, list_lookup_middle. }
    assert (linked d1 (λ q, if decide (q = p) then without c l1 ++ c :: r :: without c l2 else without c (K q))) as HL1'.
    { eapply linked_ext; [|exact HL1]. intros q. cbv beta. destruct (decide (q = p)) as [->|]; [|done]. by rewrite Ew, ins_mid. }
    split; [by exists d1|].
    assert (nodes d !! r ≠ None ∧ ∃ rx, nodes d !! r = Some rx ∧ parent (lk rx) = Some p) as (_&rx&Hrx&Hrp).
    { destruct (kid_node _ _ HL p r) as (rx&Hrx&Hrp); [rewrite Hk; apply elem_of_app; right; by left|].
      rewrite Hrx. split; [done|]. by exists rx. }
    destruct (remove_child_in _ _ HL1' p r) as (d2&E2&HL2&HS2).
    { rewrite decide_True by done. apply elem_of_app. right. right. by left. }
    exists d2. unfold mini_node_replace_child, node. rewrite Hrx. cbn [res_bind]. rewrite decide_False by (intros H; by apply H).
    rewrite E1. cbn [res_bind]. rewrite decide_False by lia. split; [done|]. split; [by eapply same_data_trans|].
    eapply linked_ext; [|exact HL2]. intros q. cbv beta. destruct (decide (q = p)) as [->|Hq].
    + pose proof (lk_nodup _ _ HL p) as Hn. rewrite Hk in Hn. apply NoDup_app in Hn as (_&Hn1&[Hn2 _]%NoDup_cons).
      assert (r ∉ without c l1) as H1 by (intros [_ H]%elem_without; apply (Hn1 r H); by left).
      assert (r ∉ without c l2) as H2 by (by intros [_ ?]%elem_without).
      rewrite without_app, (without_cons_ne r c) by congruence.
      by rewrite without_cons_eq, (without_id r (without c l1)), (without_id r (without c l2)).
    + symmetry. apply without_id. intros [_ Hrq]%elem_without. apply Hq. apply (kid_unique _ _ HL q p r); [done|].
      rewrite Hk. apply elem_of_app. right. by left.
Qed.

(** The invariant as a test, the lists of children given as a map. *)
Definition kids_of (kk : gmap nat (list nat)) (p : nat) : list nat := default [] (kk !! p).
Definition node_ok (kk : gmap nat (list nat)) (c : nat) (x : MiniNode) : Prop :=
  first_child (lk x) = head (kids_of kk c) ∧ last_child (lk x) = last (kids_of kk c)
  ∧ match parent (lk x) with
    | Some p => ntype x = MN_DOCUMENT_FRAGMENT_NODE ∨ c ∈ kids_of kk p
    | None => True
    end.
Definition kid_ok (d : dom) (p : nat) (l : list nat) (i c : nat) : Prop :=
  match nodes d !! c with
  | Some x => parent (lk x) = Some p ∧ prev_sibling (lk x) = pred_at l i ∧ next_sibling (lk x) = l !! S i
  | None => False
  end.
#[export] Instance node_ok_dec kk c x : Decision (node_ok kk c x).
Proof. unfold node_ok. destruct (parent _); apply _. Defined.
#[export] Instance kid_ok_dec d p l i c : Decision (kid_ok d p l i c).
Proof. unfold kid_ok. destruct (_ !! _); apply _. Defined.
Definition kids_ok (d : dom) (p : nat) (l : list nat) : Prop :=
  nodes d !! p ≠ None ∧ NoDup l ∧ Forall (λ ic, kid_ok d p l (fst ic) (snd ic)) (imap pair l).
#[export] Instance nodes_none_dec d p : Decision (nodes d !! p ≠ None).
Proof. destruct (nodes d !! p); [by left|right; intros H; by apply H]. Defined.
#[export] Instance kids_ok_dec d p l : Decision (kids_ok d p l).
Proof. unfold kids_ok. apply _. Defined.
Definition linked_test (d : dom) (kk : gmap nat (list nat)) : bool :=
  bool_decide (map_Forall (node_ok kk) (nodes d)) && bool_decide (map_Forall (kids_ok d) kk).

Lemma linked_test_true d kk : linked_test d kk = true → linked d (kids_of kk).
Proof.
  intros [H1%bool_decide_eq_true H2%bool_decide_eq_true]%andb_prop. split.
  - intros p x Hx. destruct (H1 p x Hx) as (?&?&_). done.
  - intros p i c Hi. unfold kids_of in *. destruct (kk !! p) as [l|] eqn:El; [|done]. simpl in *.
    destruct (H2 p l El) as (_&_&Hf). rewrite Forall_lookup in Hf. specialize (Hf i (i, c)).
    rewrite list_lookup_imap, Hi in Hf. specialize (Hf eq_refl). unfold kid_ok in Hf. simpl in Hf.
    destruct (nodes d !! c) as [x|]; [|done]. by exists x.
  - intros c x p Hx Hp Hf. destruct (H1 c x Hx) as (_&_&H). rewrite Hp in H. by destruct H.
  - intros p Hp. unfold kids_of. destruct (kk !! p) as [l|] eqn:El; [|done]. by destruct (H2 p l El) as [? _].
  - intros p. unfold kids_of. destruct (kk !! p) as [l|] eqn:El; [|constructor]. by destruct (H2 p l El) as (_&?&_).
Qed.

Definition demo_dom : dom :=
  match (let (d, p) := mini_node_create_element (Some (str "ul")) no_dom in
         let (d, a) := mini_node_create_element (Some (str "li")) d in
         let (d, b) := mini_node_create_element (Some (str "li")) d in
         let (d, t) := mini_node_create_text (Some (str "t")) d in
         let* (d, _) := mini_node_append_child d (Some p) (Some a) in
         let* (d, _) := mini_node_append_child d (Some p) (Some b) in
         let* (d, _) := mini_node_append_child d (Some a) (Some t) in Ok d)%c with
  | Ok d => d
  | UB => no_dom
  end.
Definition demo_kids : gmap nat (list nat) := {[ 1%nat := [2; 3]%nat; 2%nat := [4]%nat ]}.

Lemma demo_linked : linked demo_dom (kids_of demo_kids).
Proof. apply linked_test_true. vm_compute. reflexivity. Qed.

Lemma dom_child_lists_witness :
  ∃ d', mini_node_insert_before demo_dom (Some 1%nat) (Some 4%nat) (Some 3%nat) = Ok (d', 0)
    ∧ linked d' (λ q, if decide (q = 1%nat) then [2; 4; 3]%nat else without 4 (kids_of demo_kids q)).
Proof.
  destruct (nodes demo_dom !! 4%nat) as [x|] eqn:Hx; [|vm_compute in Hx; discriminate Hx].
  destruct (dom_child_lists demo_dom (kids_of demo_kids) 1 4 x demo_linked Hx) as (_&_&H).
  - vm_compute in Hx. injection Hx as <-. discriminate.
  - vm_compute. eexists. reflexivity.
  - destruct (H 3%nat [2%nat] []) as [(d'&E&_&HL) _]; [discriminate|reflexivity|]. exists d'. split; [exact E|]. exact HL.
Defined.

(** ** Walks *)

Lemma nodup_size (d : dom) l : NoDup l → (∀ c, c ∈ l → is_Some (nodes d !! c)) → (length l < rounds d)%nat.
Proof.
  intros Hn Hl. unfold rounds. apply Nat.lt_succ_r. rewrite <- (size_dom (D := gset nat)), <- (size_list_to_set (C := gset nat) l) by done.
  apply subseteq_size. intros c Hc. apply elem_of_dom, Hl. by apply elem_of_list_to_set in Hc.
Qed.

(** Walking the links from [c] through [l]. *)
Lemma chain_spec d step l f c : (length l < f)%nat → head l = c →
  (∀ i c, l !! i = Some c → ∃ x, nodes d !! c = Some x ∧ step (lk x) = l !! S i) → chain f d step c = Ok l.
Proof.
  revert f c. induction l as [|y l IH]; intros f c Hf <- Hl; destruct f as [|f]; simpl in Hf; try lia; [done|].
  cbn [head chain]. destruct (Hl 0%nat y eq_refl) as (x&Hx&E). unfold node. rewrite Hx. cbn [res_bind]. rewrite E. simpl.
  rewrite (IH f); [done|lia|by rewrite head_lookup|]. intros i z Hz. apply (Hl (S i) z Hz).
Qed.

Lemma seek_chain d step ok f c l : chain f d step c = Ok l → seek f d step ok c = Ok (find ok l).
Proof.
  revert c l. induction f as [|f IH]; intros [c|] l; simpl; try discriminate; try (by intros [= <-]).
  destruct (node d c) as [x|]; simpl; try discriminate.
  destruct (chain f d step (step (lk x))) as [l'|] eqn:E; simpl; try discriminate. intros [= <-].
  simpl. destruct (ok c); [done|]. by apply IH.
Qed.

Lemma children_spec d K p : linked d K → is_Some (nodes d !! p) → children d p = Ok (K p).
Proof.
  intros HL [x Hx]. unfold children, node. rewrite Hx. cbn [res_bind]. destruct (lk_ends _ _ HL _ _ Hx) as [-> _].
  apply chain_spec; [|done|].
  - apply nodup_size; [apply (lk_nodup _ _ HL)|]. intros c Hc. destruct (kid_node _ _ HL _ _ Hc) as (y&?&_). by eexists.
  - intros i c Hi. destruct (lk_kid _ _ HL _ _ _ Hi) as (y&Hy&_&_&E). by exists y.
Qed.

(** No node is above itself. *)
Definition acyclic (d : dom) : Prop :=
  ∃ depth : nat → nat, ∀ c x p, nodes d !! c = Some x → parent (lk x) = Some p →
    is_Some (nodes d !! p) ∧ (depth p < depth c)%nat.

(** [p] is the parent of [c]. *)
Definition up (d : dom) (c p : nat) : Prop := ∃ x, nodes d !! c = Some x ∧ parent (lk x) = Some p.

Section ancestors.
Context (d : dom) (depth : nat → nat).
Context (HA : ∀ c x p, nodes d !! c = Some x → parent (lk x) = Some p → is_Some (nodes d !! p) ∧ (depth p < depth c)%nat).

(** The path to the root. *)
Lemma path_exists n : is_Some (nodes d !! n) → ∃ l, head l = Some n ∧ NoDup l ∧ (∀ c, c ∈ l → (depth c <= depth n)%nat)
  ∧ (∀ i c, l !! i = Some c → ∃ x, nodes d !! c = Some x ∧ parent (lk x) = l !! S i) ∧ (∀ r, r ∈ l ↔ rtc (up d) n r).
Proof using HA.
  remember (depth n) as k eqn:Ek. revert n Ek. induction k as [k IH] using lt_wf_ind. intros n -> [x Hx].
  destruct (parent (lk x)) as [p|] eqn:Ep.
  - destruct (HA _ _ _ Hx Ep) as [Hp Hlt]. destruct (IH (depth p) Hlt p eq_refl Hp) as (l&Hh&Hn&Hd&Hl&Hr).
    exists (n :: l). split; [done|]. split; [|split; [|split]].
    + constructor; [|done]. intros Hin. specialize (Hd n Hin). lia.
    + intros c [->|Hc]%elem_of_cons; [done|]. specialize (Hd c Hc). lia.
    + intros [|i] c Hi; [|apply (Hl i c Hi)]. injection Hi as <-. exists x. split; [done|]. simpl. by rewrite Ep, <- head_lookup.
    + intros r. rewrite elem_of_cons, Hr. split.
      * intros [->|Hc]; [done|]. eapply rtc_l; [|done]. by exists x.
      * intros [->|(c&(x'&Hx'&Hp')&Hc)]%rtc_inv; [by left|]. right. by assert (c = p) as -> by congruence.
  - exists [n]. split; [done|]. split; [apply NoDup_singleton|]. split; [|split].
    + by intros c ->%list_elem_of_singleton.
    + intros i c [-> ->]%list_lookup_singleton_Some. by exists x.
    + intros r. rewrite list_elem_of_singleton. split; [by intros ->|].
      intros [->|(c&(x'&Hx'&Hp')&Hc)]%rtc_inv; [done|]. congruence.
Qed.

Lemma ancestors_spec n : is_Some (nodes d !! n) → ∃ l, ancestors d (Some n) = Ok l ∧ ∀ r, r ∈ l ↔ rtc (up d) n r.
Proof using HA.
  intros Hn. destruct (path_exists n Hn) as (l&Hh&Hnd&_&Hl&Hr). exists l. split; [|done]. unfold ancestors.
  apply chain_spec; [|done|done]. apply nodup_size; [done|]. intros c [i Hi]%list_elem_of_lookup.
  destruct (Hl _ _ Hi) as (?&?&_). by eexists.
Qed.
End ancestors.

Lemma reparented_up c p d d' m q : same_data d d' → reparented c (Some p) d d' → is_Some (nodes d !! c) →
  up d' m q ↔ if decide (m = c) then q = p else up d m q.
Proof.
  intros HS HP [x Hx]. unfold up. split.
  - intros (y&Hy&Hq). assert (is_Some (nodes d !! m)) as [z Hz] by (apply (same_data_some _ _ _ HS); by eexists).
    destruct (HP m z Hz) as (y'&Hy'&E). assert (y' = y) as -> by congruence. destruct (decide (m = c)); [congruence|].
    exists z. split; [done|congruence].
  - destruct (decide (m = c)) as [->|Hm].
    + intros ->. destruct (HP c x Hx) as (y&Hy&E). rewrite decide_True in E by done. by exists y.
    + intros (z&Hz&Hq). destruct (HP m z Hz) as (y&Hy&E). rewrite decide_False in E by done. exists y. split; [done|congruence].
Qed.

(** A cycle has no depths. *)
Lemma acyclic_up d depth n m : (∀ c x p, nodes d !! c = Some x → parent (lk x) = Some p → is_Some (nodes d !! p) ∧ (depth p < depth c)%nat) →
  rtc (up d) n m → (depth m <= depth n)%nat.
Proof. intros HA. induction 1 as [|n k m (x&Hx&Hp) _ IH]; [done|]. destruct (HA _ _ _ Hx Hp). lia. Qed.

Lemma reparented_acyclic d d' depth (HA : ∀ c x p, nodes d !! c = Some x → parent (lk x) = Some p →
    is_Some (nodes d !! p) ∧ (depth p < depth c)%nat) p c :
  same_data d d' → reparented c (Some p) d d' → is_Some (nodes d !! c) → is_Some (nodes d !! p) →
  acyclic d' ↔ ¬ rtc (up d) p c.
Proof.
  intros HS HP Hc Hp. pose proof (λ m q, reparented_up c p d d' m q HS HP Hc) as Hup. split.
  - intros [depth' HA'] Hr. assert (∀ s, rtc (up d) s c → rtc (up d') s c) as Hr'.
    { apply (rtc_ind_l (λ s, rtc (up d') s c)); [done|]. intros s k Hsk _ IH.
      destruct (decide (s = c)) as [->|Hne]; [done|]. eapply rtc_l; [|apply IH]. apply Hup. by rewrite decide_False. }
    apply Hr' in Hr. clear Hr'. rename Hr into Hr'.
    pose proof (acyclic_up d' depth' p c HA' Hr') as H1. destruct (proj2 (Hup c p)) as (y&Hy&Hq); [by rewrite decide_True|].
    destruct (HA' _ _ _ Hy Hq). lia.
  - intros Hr.
    set (below m := match ancestors d (Some m) with Ok l => bool_decide (c ∈ l) | UB => false end).
    assert (∀ m, is_Some (nodes d !! m) → below m = true ↔ rtc (up d) m c) as Hb.
    { intros m Hm. destruct (ancestors_spec d depth HA m Hm) as (l&El&Hl). unfold below. rewrite El. by rewrite bool_decide_eq_true. }
    exists (λ m, if below m then depth m + S (depth p) else depth m)%nat. intros m y q Hy Hq.
    assert (is_Some (nodes d !! m)) as Hm by (apply (same_data_some _ _ _ HS); by eexists).
    assert (up d' m q) as Hu by (by exists y). apply Hup in Hu. destruct (decide (m = c)) as [->|Hmc].
    + subst q. split; [by apply (same_data_some _ _ _ HS)|]. rewrite (proj2 (Hb c Hc)) by done.
      destruct (below p) eqn:Ep; [by destruct Hr; apply Hb|]. lia.
    + destruct Hu as (z&Hz&Hzq). destruct (HA _ _ _ Hz Hzq) as [Hsq Hlt]. split; [by apply (same_data_some _ _ _ HS)|].
      assert (below m = below q) as ->; [|destruct (below q); lia]. apply eq_true_iff_eq. rewrite !Hb by done. split.
      * intros [->|(k&(z'&Hz'&Hk)&Hc')]%rtc_inv; [done|]. by assert (k = q) as -> by congruence.
      * intros Hc'. eapply rtc_l; [|done]. by exists z.
Qed.

(** The nesting depth a node has in [demo_dom]. *)
Definition demo_depth (n : nat) : nat := if decide (n = 4%nat) then 2 else if decide (n = 1%nat) then 0 else 1.

#[export] Instance depth_ok_dec (d : dom) (depth : nat → nat) c x :
  Decision (match parent (lk x) with Some p => nodes d !! p ≠ None ∧ (depth p < depth c)%nat | None => True end).
Proof. destruct (parent (lk x)); apply _. Defined.

Lemma demo_acyclic : acyclic demo_dom.
Proof.
  exists demo_depth. intros c y p Hy Hp.
  assert (map_Forall (λ c x, match parent (lk x) with
    | Some p => nodes demo_dom !! p ≠ None ∧ (demo_depth p < demo_depth c)%nat | None => True end) (nodes demo_dom)) as H
    by (refine (bool_decide_eq_true_1 _ _); vm_compute; reflexivity).
  specialize (H c y Hy). cbv beta in H. rewrite Hp in H. destruct H as [H l].
  exact (conj (proj1 (not_eq_None_Some _) H) l).
Qed.

Lemma is_anc_spec d a n l : ancestors d (Some n) = Ok l → mini_is_anc d a n = Ok (bool_decide (a ∈ l)).
Proof.
  unfold ancestors, mini_is_anc. intros H. rewrite (seek_chain _ _ _ _ _ _ H). cbn [res_bind]. f_equal.
  destruct (find _ l) as [y|] eqn:E; apply bool_decide_ext; (split; [intros H1|intros H1]).
  - apply find_some in E. destruct E as [Hin Hy%bool_decide_eq_true]. subst. by apply list_elem_of_In.
  - done.
  - done.
  - exfalso. apply list_elem_of_In in H1. pose proof (find_none _ _ E _ H1) as Hf. cbv beta in Hf. by rewrite bool_decide_true in Hf.
Qed.

(** C23. In a tree the walk to the root ends, and [contains] says whether the node
    is below; appending a node keeps the tree free of cycles exactly when the
    node does not contain its new parent, a test the program leaves to its
    callers. *)
Theorem dom_contains d K p c x : linked d K → acyclic d → nodes d !! c = Some x → ntype x ≠ MN_DOCUMENT_FRAGMENT_NODE →
  is_Some (nodes d !! p) →
  ∃ b d', mini_node_contains d (Some c) (Some p) = Ok b ∧ (b = true ↔ rtc (up d) p c)
    ∧ mini_node_append_child d (Some p) (Some c) = Ok (d', 0) ∧ (acyclic d' ↔ b = false).
Proof.
  intros HL [depth HA] Hx Hf Hp.
  destruct (ancestors_spec d depth HA p Hp) as (l&El&Hl).
  destruct (append_child_spec _ _ HL p c x Hx Hf Hp) as (d'&E&HL'&HS&HP).
  exists (bool_decide (c ∈ l)), d'. unfold mini_node_contains. rewrite (is_anc_spec _ _ _ _ El). split; [done|].
  split; [by rewrite bool_decide_eq_true|]. split; [done|]. rewrite bool_decide_eq_false, Hl.
  apply (reparented_acyclic d d' depth HA p c); [done..|by eexists|done].
Qed.

Lemma dom_contains_witness :
  ∃ b d', mini_node_contains demo_dom (Some 2%nat) (Some 4%nat) = Ok b ∧ (b = true ↔ rtc (up demo_dom) 4%nat 2%nat)
    ∧ mini_node_append_child demo_dom (Some 4%nat) (Some 2%nat) = Ok (d', 0) ∧ (acyclic d' ↔ b = false).
Proof.
  destruct (nodes demo_dom !! 2%nat) as [x|] eqn:Hx; [|vm_compute in Hx; discriminate Hx].
  apply (dom_contains demo_dom (kids_of demo_kids) 4 2 x demo_linked demo_acyclic Hx).
  - vm_compute in Hx. injection Hx as <-. discriminate.
  - refine (bool_decide_eq_true_1 _ _); vm_compute; reflexivity.
Defined.

(** ** Attributes *)

Definition attr_map (x : MiniNode) : gmap bytes (option bytes) := list_to_map (attrs x).

Section assoc_lemmas.
Context {V : Type}.
Implicit Types l : list (bytes * V).

Lemma assoc_get_map l k : assoc_get l k = (list_to_map l : gmap bytes V) !! k.
Proof.
  induction l as [|[k' v] l IH]; simpl; [by rewrite lookup_empty|]. destruct (streq k' k) eqn:E.
  - apply streq_true in E as ->. by rewrite lookup_insert_eq.
  - rewrite lookup_insert_ne; [done|]. intros ->. by rewrite (proj2 (streq_true k k)) in E.
Qed.

(** Setting a name that is there keeps the names; there is none otherwise. *)
Lemma assoc_set_map l k v : match assoc_set l k v with
  | Some l' => l'.*1 = l.*1 ∧ (list_to_map l' : gmap bytes V) = <[k := v]> (list_to_map l) ∧ k ∈ l.*1
  | None => k ∉ l.*1
  end.
Proof.
  induction l as [|[k' v'] l IH]; simpl; [apply not_elem_of_nil|]. destruct (streq k' k) eqn:E.
  - apply streq_true in E as ->. split; [done|]. split; [by rewrite insert_insert_eq|left].
  - assert (k' ≠ k) as Hk by (intros ->; by rewrite (proj2 (streq_true k k)) in E).
    destruct (assoc_set l k v) as [l'|]; simpl in *.
    + destruct IH as (H1&H2&H3). split; [by f_equal|]. split; [rewrite H2; by apply insert_insert_ne|by right].
    + by intros [->|?]%elem_of_cons.
Qed.

Lemma assoc_del_map l k : NoDup l.*1 → match assoc_del l k with
  | Some l' => sublist l'.*1 l.*1 ∧ (list_to_map l' : gmap bytes V) = delete k (list_to_map l) ∧ k ∈ l.*1
  | None => k ∉ l.*1
  end.
Proof.
  induction l as [|[k' v'] l IH]; simpl; [intros; apply not_elem_of_nil|]. intros [Hk Hl]%NoDup_cons. destruct (streq k' k) eqn:E.
  - apply streq_true in E as ->. split; [by constructor|]. split; [|left].
    rewrite delete_insert_id; [done|]. by apply not_elem_of_list_to_map_1.
  - assert (k' ≠ k) as Hn by (intros ->; by rewrite (proj2 (streq_true k k)) in E). specialize (IH Hl).
    destruct (assoc_del l k) as [l'|]; simpl in *.
    + destruct IH as (H1&H2&H3). split; [by constructor|]. split; [rewrite H2; by rewrite delete_insert_ne|by right].
    + by intros [->|?]%elem_of_cons.
Qed.
End assoc_lemmas.

Lemma attr_set_map l k v : NoDup l.*1 →
  NoDup (attr_set l k v).*1 ∧ (list_to_map (attr_set l k v) : gmap bytes (option bytes)) = <[k := v]> (list_to_map l).
Proof.
  intros Hl. unfold attr_set. pose proof (assoc_set_map l k v) as H. destruct (assoc_set l k v) as [l'|].
  - destruct H as (H1&H2&_). split; [by rewrite H1|done].
  - split; [|done]. by constructor.
Qed.

(** Under set and remove an element's attribute list behaves as a map from
    names to values: names stay distinct, the other fields and nodes are not
    touched, and the observer is told of a removal only when there was
    something to remove. *)
Theorem dom_attributes d n x k v : nodes d !! n = Some x → NoDup (attrs x).*1 →
  mini_node_get_attribute d (Some n) (Some k) = Ok (attr_map x !! k ≫= λ v, v) ∧
  (∃ d' y, mini_node_set_attribute d (Some n) (Some k) v = Ok d' ∧ nodes d' = <[n := y]> (nodes d)
     ∧ y = set_attrs (attrs y) x ∧ NoDup (attrs y).*1 ∧ attr_map y = <[k := v]> (attr_map x)
     ∧ muts d' = muts d ++ [AttrModified n k v]) ∧
  (∃ d' y, mini_node_remove_attribute d (Some n) (Some k) = Ok d' ∧ nodes d' !! n = Some y
     ∧ delete n (nodes d') = delete n (nodes d) ∧ NoDup (attrs y).*1 ∧ attr_map y = delete k (attr_map x)
     ∧ muts d' = muts d ++ if decide (is_Some (attr_map x !! k)) then [AttrRemoved n k] else []).
Proof.
  intros Hx Hn. unfold mini_node_get_attribute, mini_node_set_attribute, mini_node_remove_attribute, node, put. rewrite Hx. cbn [res_bind].
  rewrite assoc_get_map. split; [done|]. destruct (attr_set_map _ k v Hn) as [H1 H2]. split.
  - eexists _, _. split; [done|]. cbn. split; [done|]. by split; [destruct x|].
  - pose proof (assoc_del_map _ k Hn) as H. destruct (assoc_del (attrs x) k) as [l|].
    + destruct H as (H3&H4&H5). eexists _, _. split; [done|]. cbn. rewrite lookup_insert_eq. split; [done|].
      rewrite delete_insert_eq. split; [done|]. split; [exact (sublist_NoDup _ _ Hn H3)|]. split; [exact H4|].
      rewrite decide_True; [done|]. unfold attr_map. destruct (list_to_map (attrs x) !! k) as [w|] eqn:E; [by eexists|].
      by apply not_elem_of_list_to_map in E.
    + eexists _, _. split; [done|]. split; [done|]. split; [done|]. split; [done|].
      apply not_elem_of_list_to_map_1 in H. split; [unfold attr_map; by rewrite delete_id|].
      rewrite decide_False by (unfold attr_map; rewrite H; by intros [? ?]). by rewrite app_nil_r.
Qed.

(** An element with a class and an id. *)
Definition demo_attr_node : MiniNode :=
  set_attrs [(str "id", Some (str "a")); (str "class", Some (str "x y"))] (zero_node MN_ELEMENT_NODE (Some (str "p")) None).
Definition demo_attr_dom : dom := Dom {[ 1%nat := demo_attr_node ]} 2 [] false [].

Lemma dom_attributes_witness :
  mini_node_get_attribute demo_attr_dom (Some 1%nat) (Some (str "class")) = Ok (Some (str "x y"))
  ∧ ∃ d' y, mini_node_remove_attribute demo_attr_dom (Some 1%nat) (Some (str "class")) = Ok d' ∧ nodes d' !! 1%nat = Some y
     ∧ attr_map y = {[ str "id" := Some (str "a") ]} ∧ muts d' = [AttrRemoved 1 (str "class")].
Proof.
  destruct (dom_attributes demo_attr_dom 1 demo_attr_node (str "class") None) as (H1&_&d'&y&H2&H3&_&_&H4&H5).
  - reflexivity.
  - refine (bool_decide_eq_true_1 _ _); vm_compute; reflexivity.
  - split; [rewrite H1; vm_compute; reflexivity|]. exists d', y. split; [exact H2|]. split; [exact H3|].
    split; [rewrite H4; vm_compute; reflexivity|]. rewrite H5. vm_compute. reflexivity.
Defined.
