(* ===== verification/Html5Ref.v ===== *)
(** * HTML elements and character references (src/src/mini_html5.c)

    The element sets of the parser, its table of named references, the UTF-8
    encoder and the reference decoder, which both the text and the attribute
    states of the tokenizer call. *)

From S2P Require Import Prelude CString Bidi Dom.
Open Scope Z_scope.

(** ** Element sets *)

Definition one_of (l : list string) (t : bytes) : bool := existsb (λ s, streq t (str s)) l.

Definition h5_is_special : bytes → bool := one_of [
   "address"; "applet"; "area"; "article"; "aside"; "base"; "basefont"; "bgsound"; "blockquote"; "body"; "br"; "button";
   "caption"; "center"; "col"; "colgroup"; "dd"; "details"; "dir"; "div"; "dl"; "dt"; "embed"; "fieldset"; "figcaption";
   "figure"; "footer"; "form"; "frame"; "frameset"; "h1"; "h2"; "h3"; "h4"; "h5"; "h6"; "head"; "header"; "hgroup"; "hr";
   "html"; "iframe"; "img"; "input"; "isindex"; "li"; "link"; "listing"; "main"; "marquee"; "menu"; "meta"; "nav";
   "noembed"; "noframes"; "noscript"; "object"; "ol"; "p"; "param"; "plaintext"; "pre"; "script"; "section"; "select";
   "style"; "summary"; "table"; "tbody"; "td"; "template"; "textarea"; "tfoot"; "th"; "thead"; "title"; "tr"; "ul"; "wbr";
   "xmp"]%string.
Definition h5_is_formatting : bytes → bool := one_of [
   "a"; "b"; "big"; "code"; "em"; "font"; "i"; "nobr"; "s"; "small"; "strike"; "strong"; "tt"; "u"]%string.
Definition h5_is_rcdata : bytes → bool := one_of ["title"; "textarea"]%string.
Definition h5_is_rawtext : bytes → bool := one_of [
   "style"; "script"; "xmp"; "iframe"; "noembed"; "noframes"; "noscript"; "plaintext"]%string.

(** ** Character references *)

(** Case-insensitive equality of two strings that are not null. *)
Definition h5_ci : bytes → bytes → bool := ci_eq.

Definition H5_ENT : list (bytes * bytes) := [
   (str "amp", [38]); (str "lt", [60]); (str "gt", [62]); (str "quot", [34]); (str "apos", [39]); (str "nbsp", [32]); (str
   "ldquo", [226; 128; 156]); (str "rdquo", [226; 128; 157]); (str "lsquo", [226; 128; 152]); (str "rsquo", [226; 128;
   153]); (str "sbquo", [226; 128; 154]); (str "bdquo", [226; 128; 158]); (str "prime", [226; 128; 178]); (str "Prime",
   [226; 128; 179]); (str "mdash", [226; 128; 148]); (str "ndash", [226; 128; 147]); (str "hellip", [226; 128; 166]); (str
   "copy", [194; 169]); (str "reg", [194; 174]); (str "trade", [226; 132; 162]); (str "deg", [194; 176]); (str "plusmn",
   [194; 177]); (str "times", [195; 151]); (str "divide", [195; 183]); (str "micro", [194; 181]); (str "para", [194; 182]);
   (str "sect", [194; 167]); (str "middot", [194; 183]); (str "bull", [226; 128; 162]); (str "euro", [226; 130; 172]); (str
   "pound", [194; 163]); (str "cent", [194; 162]); (str "yen", [194; 165]); (str "darr", [226; 134; 147]); (str "uarr",
   [226; 134; 145]); (str "larr", [226; 134; 144]); (str "rarr", [226; 134; 146]); (str "harr", [226; 134; 148]); (str
   "lArr", [226; 135; 144]); (str "uArr", [226; 135; 145]); (str "rArr", [226; 135; 146]); (str "dArr", [226; 135; 147]);
   (str "hArr", [226; 135; 148]); (str "dagger", [226; 128; 160]); (str "Dagger", [226; 128; 161]); (str "laquo", [194;
   171]); (str "raquo", [194; 187]); (str "ensp", [226; 128; 130]); (str "emsp", [226; 128; 131]); (str "thinsp", [226;
   128; 137]); (str "iexcl", [194; 161]); (str "iquest", [194; 191]); (str "frac12", [194; 189]); (str "frac14", [194;
   188]); (str "frac34", [194; 190]); (str "sup2", [194; 178]); (str "sup3", [194; 179]); (str "szlig", [195; 159]); (str
   "minus", [226; 136; 146]); (str "infin", [226; 136; 158]); (str "radic", [226; 136; 154]); (str "ne", [226; 137; 160]);
   (str "equiv", [226; 137; 161]); (str "le", [226; 137; 164]); (str "ge", [226; 137; 165]); (str "sum", [226; 136; 145]);
   (str "prod", [226; 136; 143]); (str "int", [226; 136; 171]); (str "spades", [226; 153; 160]); (str "clubs", [226; 153;
   163]); (str "hearts", [226; 153; 165]); (str "diams", [226; 153; 166]); (str "check", [226; 156; 147]); (str "agrave",
   [195; 160]); (str "eacute", [195; 169]); (str "egrave", [195; 168]); (str "ccedil", [195; 167]); (str "uuml", [195;
   188]); (str "ouml", [195; 182]); (str "auml", [195; 164]); (str "aacute", [195; 161]); (str "iacute", [195; 173]); (str
   "oacute", [195; 179]); (str "uacute", [195; 186]); (str "ntilde", [195; 177])].

Definition h5_utf8 (cp : Z) : bytes :=
  if decide (cp < 0x80) then [u8 cp]
  else if decide (cp < 0x800) then
    [u8 (Z.lor 0xC0 (Z.shiftr cp 6)); u8 (Z.lor 0x80 (Z.land cp 0x3F))]
  else if decide (cp < 0x10000) then
    [u8 (Z.lor 0xE0 (Z.shiftr cp 12)); u8 (Z.lor 0x80 (Z.land (Z.shiftr cp 6) 0x3F)); u8 (Z.lor 0x80 (Z.land cp 0x3F))]
  else
    [u8 (Z.lor 0xF0 (Z.shiftr cp 18)); u8 (Z.lor 0x80 (Z.land (Z.shiftr cp 12) 0x3F));
     u8 (Z.lor 0x80 (Z.land (Z.shiftr cp 6) 0x3F)); u8 (Z.lor 0x80 (Z.land cp 0x3F))].

Definition ref_digit (hex : bool) (c : Z) : option Z :=
  if decide (48 <= c <= 57) then Some (c - 48)
  else if decide (hex = true ∧ 97 <= c <= 102) then Some (c - 97 + 10)
  else if decide (hex = true ∧ 65 <= c <= 70) then Some (c - 65 + 10)
  else None.

(** The digits of a numeric reference: the value, whether there was a digit,
    and the rest; the value is an [int]. *)
Fixpoint ref_number (hex : bool) (val : Z) (some : bool) (s : bytes) : res (Z * bool * bytes) :=
  match s with
  | c :: s' =>
    match ref_digit hex c with
    | Some v => if decide (val * 16 + v < 2 ^ 31) then ref_number hex (val * 16 + v) true s' else UB
    | None => Ok (val, some, s)
    end
  | [] => Ok (val, some, [])
  end.

Definition ref_name_char (c : Z) : bool := c_islower c || c_isupper c || c_isdigit c.

(** The part after [&#]; [s] is the whole, for its length. *)
Definition numeric_ref (s s2 : bytes) : res (nat * bytes) :=
  let '(hex, s3) := match s2 with
                    | c :: s3 => if decide (c = 120 ∨ c = 88) then (true, s3) else (false, s2)
                    | [] => (false, s2)
                    end in
  (let* (val, some, r) := ref_number hex 0 false s3 in
   if negb some then Ok (0%nat, []) else
   match r with
   | [] => Ok (0%nat, [])
   | c :: r' =>
     let r := if decide (c = 59) then r' else r in
     let used := (length s - length r)%nat in
     let val := if decide (val = 0) then 0xFFFD else if decide (0x10FFFF < val) then 0xFFFD else val in
     Ok (used, h5_utf8 val)
   end)%c.

(** The part after [&]; what [out] holds is cut to its size. *)
Definition named_ref (s1 : bytes) : nat * bytes :=
  let '(name, r) := scan ref_name_char (length s1) s1 in
  let semi := bool_decide (head r = Some 59) in
  if bool_decide (name = []) then (0%nat, [])
  else if negb semi && bool_decide (r = []) then (0%nat, [])
  else match find (λ e, streq (take 23 name) (e.1)) H5_ENT with
       | Some e => (1 + length name + (if semi then 1 else 0), take 7 (e.2))%nat
       | None => (0%nat, [])
       end.

(** How much of [s] is a reference, 0 if it starts with none, and its text. *)
Definition h5_decode_ref (s : bytes) : res (nat * bytes) :=
  match expect 38 s with
  | None => Ok (0%nat, [])
  | Some s1 => match expect 35 s1 with Some s2 => numeric_ref s s2 | None => Ok (named_ref s1) end
  end.

(** Decimal references are read in base 16. *)
Example decimal_reference : h5_decode_ref (str "&#65; ") = Ok (5%nat, str "e") ∧ h5_decode_ref (str "&#x65; ") = Ok (6%nat, str "e").
Proof. split; reflexivity. Qed.

(** Nine digits are too many for an [int]. *)
Example long_reference : h5_decode_ref (str "&#x100000000;") = UB.
Proof. reflexivity. Qed.

(** ** UTF-8 *)

Lemma h5_utf8_encode cp : 0 <= cp < 2 ^ 21 → h5_utf8 cp = utf8_encode cp.
Proof.
  intros H. unfold h5_utf8, utf8_encode. change 0x3F with (2 ^ 6 - 1). rewrite !land_mod, !shiftr_div by lia.
  change (2 ^ 6) with 64. change (2 ^ 12) with 4096. change (2 ^ 18) with 262144.
  repeat (case_decide; [rewrite ?(lor_add 0x80 _ 6), ?(lor_add 0xC0 _ 5), ?(lor_add 0xE0 _ 4) by mlia; repeat f_equal; wordlia|]).
  rewrite ?(lor_add 0x80 _ 6), (lor_add 0xF0 _ 3) by mlia. repeat f_equal; wordlia.
Qed.

(** ** What a reference stands for *)

Lemma length_h5_utf8 cp : (1 <= length (h5_utf8 cp) <= 4)%nat.
Proof. unfold h5_utf8. repeat case_decide; simpl; lia. Qed.

Lemma ref_number_rest hex s : ∀ val some v b r, ref_number hex val some s = Ok (v, b, r) →
  0 <= val → (length r <= length s)%nat ∧ val <= v ∧ (b = false → s = r).
Proof.
  induction s as [|c s IH]; intros val some v b r H Hv; simpl in H; [by simplify_eq|].
  destruct (ref_digit hex c) as [x|] eqn:E; [|by simplify_eq].
  destruct (decide _); [|done].
  assert (0 <= x) by (unfold ref_digit in E; repeat case_decide; simplify_eq; lia).
  destruct (IH _ _ _ _ _ H ltac:(lia)) as (?&?&?). simpl. split; [lia|]. split; [lia|].
  intros ->. exfalso. revert H. clear. generalize (val * 16 + x). revert r v. induction s as [|c' s IH]; intros r v y; simpl; [congruence|].
  destruct (ref_digit hex c'); [destruct (decide _); [apply IH|done]|congruence].
Qed.

Lemma utf8_nonul cp : 0 < cp <= 0x10FFFF → 0 ∉ h5_utf8 cp.
Proof.
  intros H. rewrite h5_utf8_encode by lia. unfold utf8_encode.
  repeat case_decide; rewrite !not_elem_of_cons; repeat split; try apply not_elem_of_nil; mlia.
Qed.

Lemma H5_ENT_ok e : e ∈ H5_ENT → (1 <= length (e.2) <= 3)%nat ∧ 0 ∉ e.2.
Proof.
  assert (Forall (λ e, (1 <= length (e.2) <= 3)%nat ∧ 0 ∉ e.2) H5_ENT) as F by (refine (bool_decide_eq_true_1 _ _); vm_compute; reflexivity).
  rewrite Forall_forall in F. apply F.
Qed.

(** A reference is inside the text, its expansion fits the callers' buffers of
    eight bytes and is not empty, and only an ampersand starts one. *)
Lemma decode_ref_bounds s n out : h5_decode_ref s = Ok (n, out) →
  (n <= length s)%nat ∧ (length out <= 4)%nat ∧ 0 ∉ out ∧ (if decide (n = 0)%nat then out = [] else out ≠ [] ∧ head s = Some 38 ∧ (2 <= n)%nat).
Proof.
  unfold h5_decode_ref. assert (0 ∉ ([] : bytes)) as H0 by apply not_elem_of_nil.
  destruct (expect 38 s) as [s1|] eqn:E1; [apply expect_Some in E1 as ->|intros [= <- <-]; simpl; split_and!; auto with lia].
  destruct (expect 35 s1) as [s2|] eqn:E2; [apply expect_Some in E2 as ->|].
  - unfold numeric_ref. intros H.
    destruct (match s2 with c :: s3 => _ | [] => _ end) as [hex s3] eqn:E3.
    assert (length s3 <= length s2)%nat by (destruct s2; [|case_decide]; simplify_eq; simpl; lia).
    apply res_bind_Ok in H as ([[val some] r]&Hn&H).
    destruct (ref_number_rest _ _ _ _ _ _ _ Hn ltac:(lia)) as (Hr&Hv&_).
    destruct some; simpl in H; [|injection H as <- <-; simpl; split_and!; auto with lia].
    destruct r as [|c r]; [injection H as <- <-; simpl; split_and!; auto with lia|].
    injection H as <- <-. set (r1 := if decide (c = 59) then r else c :: r).
    assert (length r1 <= length s2)%nat by (unfold r1; case_decide; simpl in *; lia).
    set (v := if decide (val = 0) then _ else _).
    assert (0 < v <= 0x10FFFF) by (unfold v; repeat case_decide; lia).
    pose proof (length_h5_utf8 v). split; [simpl; lia|]. split; [lia|]. split; [by apply utf8_nonul|].
    rewrite decide_False by (simpl; lia). split; [intros E; rewrite E in *; simpl in *; lia|]. split; [done|simpl; lia].
  - unfold named_ref. destruct (scan ref_name_char (length s1) s1) as [name r] eqn:Es.
    apply scan_split in Es as (->&_&_). case_bool_decide as En; [intros [= <- <-]; simpl; split_and!; auto with lia|].
    assert (1 <= length name)%nat by (destruct name; simpl; [done|lia]).
    destruct (_ && _); [intros [= <- <-]; simpl; split_and!; auto with lia|].
    destruct (find _ _) as [e|] eqn:Ef; [|intros [= <- <-]; simpl; split_and!; auto with lia].
    apply find_some in Ef as [He%list_elem_of_In _]. destruct (H5_ENT_ok e He) as [Hl Hz].
    rewrite take_ge by lia. intros [= <- <-]. simpl. rewrite length_app.
    assert (∀ b, b = bool_decide (head r = Some 59) → ((if b then 1 else 0) <= length r)%nat) as Hsemi
      by (intros b ->; case_bool_decide; [destruct r; simpl; [done|]|]; lia). specialize (Hsemi _ eq_refl).
    split; [lia|]. split; [lia|]. split; [done|]. split; [intros E; rewrite E in Hl; simpl in Hl; lia|]. split; [done|lia].
Qed.

(** The text of a digit list in base 16, and its value. *)
Definition hexit (d : Z) : Z := if decide (d < 10) then 48 + d else 97 + (d - 10).
Definition hex_value (ds : list Z) : Z := foldl (λ v d, v * 16 + d) 0 ds.

Lemma ref_digit_hexit d : 0 <= d < 16 → ref_digit true (hexit d) = Some d.
Proof. intros H. unfold ref_digit, hexit. repeat case_decide; try lia; f_equal; lia. Qed.

Lemma hex_value_mono ds : Forall (λ d, 0 <= d < 16) ds → ∀ v, 0 <= v → v <= foldl (λ v d, v * 16 + d) v ds.
Proof. induction 1 as [|d ds Hd _ IH]; intros v Hv; simpl; [lia|]. specialize (IH (v * 16 + d)). lia. Qed.

Lemma ref_number_hex ds r : Forall (λ d, 0 <= d < 16) ds → ∀ v b, 0 <= v → foldl (λ v d, v * 16 + d) v ds < 2 ^ 31 →
  ref_number true v b (map hexit ds ++ 59 :: r) = Ok (foldl (λ v d, v * 16 + d) v ds, match ds with [] => b | _ => true end, 59 :: r).
Proof.
  induction 1 as [|d ds Hd Hds IH]; intros v b Hv Hlt; [done|].
  cbn [map app ref_number]. rewrite ref_digit_hexit by done. cbn [foldl] in *.
  pose proof (hex_value_mono ds Hds (v * 16 + d) ltac:(lia)). rewrite decide_True by lia.
  rewrite IH by lia. by destruct ds.
Qed.

Lemma ent_names : Forall (λ e, Forall (λ c, ref_name_char c = true) (e.1) ∧ e.1 ≠ [] ∧ head (e.1) ≠ Some 35
  ∧ find (λ e', streq (take 23 (e.1)) (e'.1)) H5_ENT = Some e) H5_ENT.
Proof. refine (bool_decide_eq_true_1 _ _); vm_compute; reflexivity. Qed.

Lemma named_ref_entry name out rest : (name, out) ∈ H5_ENT →
  h5_decode_ref (38 :: name ++ 59 :: rest) = Ok ((2 + length name)%nat, out).
Proof.
  intros He. pose proof ent_names as F. rewrite Forall_forall in F. destruct (F _ He) as (Hn&Hne&H35&Hf).
  cbn [fst] in *. unfold h5_decode_ref. rewrite expect_cons.
  assert (expect 35 (name ++ 59 :: rest) = None) as ->.
  { destruct name as [|c name]; [done|]. simpl. case_decide; [subst; by destruct H35|done]. }
  unfold named_ref. rewrite scan_app; [|done|rewrite length_app; lia|by intros c r' [= <- <-]].
  rewrite bool_decide_eq_false_2 by done. cbn [head negb andb]. rewrite (bool_decide_eq_true_2 (Some 59 = Some 59)) by done.
  cbn [negb andb]. rewrite Hf. cbn [snd]. destruct (H5_ENT_ok _ He) as [Hl _]. cbn [snd] in Hl. rewrite take_ge by lia. do 2 f_equal. lia.
Qed.

(** A hexadecimal reference stands for the code point it spells, in UTF-8,
    which the text shaper's decoder reads back; zero and values beyond Unicode
    are the replacement character; every name of the table stands for its text. *)
Theorem h5_references rest :
  (∀ ds, ds ≠ [] → Forall (λ d, 0 <= d < 16) ds → hex_value ds < 2 ^ 31 →
     ∃ cp out, h5_decode_ref (str "&#x" ++ map hexit ds ++ 59 :: rest) = Ok ((4 + length ds)%nat, out)
       ∧ cp = (if decide (1 <= hex_value ds <= 0x10FFFF) then hex_value ds else 0xFFFD)
       ∧ ∀ t, utf8_next (out ++ t) = (cp, length out)) ∧
  (∀ name out, (name, out) ∈ H5_ENT → h5_decode_ref (38 :: name ++ 59 :: rest) = Ok ((2 + length name)%nat, out)).
Proof.
  split.
  - intros ds Hne Hds Hlt. pose proof (hex_value_mono ds Hds 0 ltac:(lia)) as H0. unfold hex_value in *.
    set (cp := if decide _ then _ else _). exists cp, (h5_utf8 cp).
    assert (0 <= cp < 2 ^ 21) by (unfold cp; case_decide; lia).
    split; [|split; [done|]]; [|intros t; rewrite h5_utf8_encode by done; by apply utf8_next_encode].
    change (str "&#x" ++ map hexit ds ++ 59 :: rest) with (38 :: 35 :: 120 :: map hexit ds ++ 59 :: rest).
    unfold h5_decode_ref. rewrite !expect_cons. unfold numeric_ref. rewrite decide_True by auto.
    rewrite ref_number_hex by (done || lia). cbn [res_bind]. destruct ds as [|d ds']; [done|]. set (ds := d :: ds') in *. cbn [negb].
    rewrite decide_True by done. cbv zeta. f_equal. f_equal.
    + simpl. rewrite !length_app, length_map. simpl. lia.
    + f_equal. unfold cp. repeat case_decide; lia.
  - intros name out. apply named_ref_entry.
Qed.

Lemma h5_references_witness :
  (∃ out, h5_decode_ref (str "&#x1f600;!") = Ok (9%nat, out) ∧ utf8_next (out ++ [33]) = (0x1F600, length out))
  ∧ h5_decode_ref (str "&hearts;!") = Ok (8%nat, [226; 153; 165]).
Proof.
  destruct (h5_references (str "!")) as [H1 H2]. split.
  - destruct (H1 [1; 15; 6; 0; 0]) as (cp&out&H&Hcp&Hd).
    + discriminate.
    + refine (bool_decide_eq_true_1 _ _); vm_compute; reflexivity.
    + vm_compute. reflexivity.
    + exists out. split; [exact H|]. rewrite Hd, Hcp. reflexivity.
  - apply (H2 (str "hearts")). refine (bool_decide_eq_true_1 _ _); vm_compute; reflexivity.
Defined.
