(* ===== verification/Html5Tree.v ===== *)
(** * HTML tree construction (src/src/mini_html5.c)

    The insertion modes, the stack of open elements and the list of active
    formatting elements, over the DOM of Dom.v.  The stack is bottom first, as
    the array of the code is; an entry of the formatting list is [None] for a
    marker.  The tokenizer sees only [process_token] and the tag of the current
    node (class [Sink] of Html5Tok.v).  Allocation succeeds. *)

From stdpp Require Import gmap list.
From S2P Require Import Prelude CString Dom Html5Ref.
Open Scope Z_scope.

Inductive H5TokType := TT_START | TT_END | TT_CHAR | TT_COMMENT | TT_DOCTYPE | TT_EOF.
#[export] Instance H5TokType_eq_dec : EqDecision H5TokType.
Proof. solve_decision. Defined.

Record H5Token := Tok { ttype : H5TokType; tname : option bytes; tattrs : list (bytes * bytes); is_self_closing : bool }.

Inductive H5Mode :=
| M_INITIAL | M_BEFORE_HTML | M_BEFORE_HEAD | M_IN_HEAD | M_AFTER_HEAD | M_IN_BODY | M_IN_TABLE | M_IN_TABLE_BODY
| M_IN_ROW | M_IN_CELL | M_IN_SELECT | M_AFTER_BODY | M_AFTER_AFTER_BODY.
#[export] Instance H5Mode_eq_dec : EqDecision H5Mode.
Proof. solve_decision. Defined.

(** The tree-construction fields of the parser, and of its document. *)
Record tree := Tree {
  td : dom; root : nat; body : option nat; open : list nat; afe : list (option nat); mode : H5Mode;
  head_element : option nat; table_foster : option nat; pending_text_tail : option nat }.

Definition set_td d p := Tree d (root p) (body p) (open p) (afe p) (mode p) (head_element p) (table_foster p) (pending_text_tail p).
Definition set_body b p := Tree (td p) (root p) b (open p) (afe p) (mode p) (head_element p) (table_foster p) (pending_text_tail p).
Definition set_open o p := Tree (td p) (root p) (body p) o (afe p) (mode p) (head_element p) (table_foster p) (pending_text_tail p).
Definition set_afe a p := Tree (td p) (root p) (body p) (open p) a (mode p) (head_element p) (table_foster p) (pending_text_tail p).
Definition set_mode m p := Tree (td p) (root p) (body p) (open p) (afe p) m (head_element p) (table_foster p) (pending_text_tail p).
Definition set_head h p := Tree (td p) (root p) (body p) (open p) (afe p) (mode p) h (table_foster p) (pending_text_tail p).
Definition set_foster f p := Tree (td p) (root p) (body p) (open p) (afe p) (mode p) (head_element p) f (pending_text_tail p).
Definition set_tail t p := Tree (td p) (root p) (body p) (open p) (afe p) (mode p) (head_element p) (table_foster p) t.

(** ** The stack of open elements *)

Definition current_node (p : tree) : nat := default (root p) (last (open p)).
(** The position of the topmost occurrence. *)
Fixpoint open_index_from (l : list nat) (i : nat) (n : nat) : option nat :=
  match l with
  | [] => None
  | x :: l => match open_index_from l (S i) n with Some j => Some j | None => if decide (x = n) then Some i else None end
  end.
Definition open_index (p : tree) (n : nat) : option nat := open_index_from (open p) 0 n.
Definition open_push (n : nat) (p : tree) : tree := set_open (open p ++ [n]) p.
Definition open_pop (p : tree) : tree := set_open (take (length (open p) - 1) (open p)) p.
Definition open_remove (n : nat) (p : tree) : tree :=
  match open_index p n with Some i => set_open (delete i (open p)) p | None => p end.

(** [n->tag && h5_ci (n->tag, tag)] *)
Definition tag_is (d : dom) (n : nat) (tg : bytes) : res bool :=
  (let* x := node d n in Ok (match tag x with Some t => h5_ci t tg | None => false end))%c.

Fixpoint any_open (d : dom) (l : list nat) (tg : bytes) : res bool :=
  match l with
  | [] => Ok false
  | n :: l => (let* b := tag_is d n tg in if b : bool then Ok true else any_open d l tg)%c
  end.
(** Pops up to and with the first one of that tag; the list is top first. *)
Fixpoint pop_to (d : dom) (l : list nat) (tg : bytes) : res (list nat) :=
  match l with
  | [] => Ok []
  | n :: l => (let* b := tag_is d n tg in if b : bool then Ok l else pop_to d l tg)%c
  end.
Definition pop_loop (p : tree) (tg : bytes) : res tree :=
  (let* l := pop_to (td p) (rev (open p)) tg in Ok (set_open (rev l) p))%c.
Definition pop_until (p : tree) (tg : bytes) : res tree :=
  (let* found := any_open (td p) (rev (open p)) tg in
   if found : bool then pop_loop p tg else Ok p)%c.

Definition DEFAULT_SCOPE := ["applet"; "caption"; "html"; "table"; "td"; "th"; "marquee"; "object"; "template"]%string.
Definition TABLE_SCOPE := ["html"; "table"]%string.
Definition ci_one_of (l : list string) (t : bytes) : bool := existsb (λ s, h5_ci t (str s)) l.
Fixpoint scope_loop (d : dom) (b : list string) (l : list nat) (tg : bytes) : res bool :=
  match l with
  | [] => Ok false
  | n :: l =>
    (let* x := node d n in
     match tag x with
     | Some t => if h5_ci t tg then Ok true else if ci_one_of b t then Ok false else scope_loop d b l tg
     | None => scope_loop d b l tg
     end)%c
  end.
Definition has_in_scope (p : tree) (tg : bytes) (table_scope : bool) : res bool :=
  scope_loop (td p) (if table_scope then TABLE_SCOPE else DEFAULT_SCOPE) (rev (open p)) tg.

(** [pop_until_one]: pops to the topmost element of one of three tags. *)
Fixpoint pop_one_of (d : dom) (l : list nat) (tags : list string) : res (option (list nat)) :=
  match l with
  | [] => Ok None
  | n :: l =>
    (let* x := node d n in
     if match tag x with Some t => ci_one_of tags t | None => false end then Ok (Some l) else pop_one_of d l tags)%c
  end.
Definition pop_until_one (p : tree) (tags : list string) : res tree :=
  (let* r := pop_one_of (td p) (rev (open p)) tags in
   Ok (match r with Some l => set_open (rev l) p | None => p end))%c.

(** ** The list of active formatting elements *)

Definition afe_push_typed (e : option nat) (p : tree) : tree := set_afe (afe p ++ [e]) p.
Definition afe_marker : tree → tree := afe_push_typed None.
Fixpoint afe_index_from (l : list (option nat)) (i : nat) (n : nat) : option nat :=
  match l with
  | [] => None
  | e :: l => match afe_index_from l (S i) n with Some j => Some j | None => if decide (e = Some n) then Some i else None end
  end.
Definition afe_index (p : tree) (n : nat) : option nat := afe_index_from (afe p) 0 n.
Definition afe_remove (n : nat) (p : tree) : tree :=
  match afe_index p n with Some i => set_afe (delete i (afe p)) p | None => p end.

(** ** Insertion *)

Definition append (p : tree) (parent n : nat) : res tree :=
  (let* (d, _) := mini_node_append_child (td p) (Some parent) (Some n) in Ok (set_td d p))%c.
Definition remove_from (p : tree) (parent n : nat) : res tree :=
  (let* (d, _) := mini_node_remove_child (td p) (Some parent) (Some n) in Ok (set_td d p))%c.
Definition create (p : tree) (mk : dom → dom * nat) : tree * nat := let (d, n) := mk (td p) in (set_td d p, n).

Fixpoint set_attributes (d : dom) (n : nat) (l : list (bytes * bytes)) : res dom :=
  match l with
  | [] => Ok d
  | (k, v) :: l => (let* d := mini_node_set_attribute d (Some n) (Some k) (Some v) in set_attributes d n l)%c
  end.
Definition create_element_for_token (p : tree) (t : H5Token) : res (tree * nat) :=
  let (p, n) := create p (mini_node_create_element (Some (default (str "div") (tname t)))) in
  (let* d := set_attributes (td p) n (tattrs t) in Ok (set_td d p, n))%c.

Definition insert_element (p : tree) (parent n : nat) : res tree :=
  (let* p := append p parent n in Ok (set_tail None (open_push n p)))%c.

Definition foster_insert (p : tree) (n : nat) : res tree :=
  match table_foster p with
  | None => insert_element p (current_node p) n
  | Some table =>
    (let* x := node (td p) table in
     match parent (lk x) with
     | None => insert_element p (current_node p) n
     | Some q =>
       let* (d, r) := mini_node_insert_before (td p) (Some q) (Some n) (Some table) in
       if decide (r = 0) then Ok (set_tail None (open_push n (set_td d p)))
       else insert_element (set_td d p) (current_node p) n
     end)%c
  end.

(** [n]'s text grows; [n] has one. *)
Definition grow_text (p : tree) (n : nat) (s : bytes) : res tree :=
  (let* x := node (td p) n in
   match text x with
   | None => UB
   | Some t => let* d := put (td p) n (set_text (Some (t ++ s))) in Ok (set_td d p)
   end)%c.

Definition is_blank1 (s : bytes) : bool := bool_decide (s ∈ [[32]; [9]; [10]; [13]; [12]]).
Definition table_mode (m : H5Mode) : bool := bool_decide (m ∈ [M_IN_TABLE; M_IN_TABLE_BODY; M_IN_ROW; M_IN_CELL]).
Definition is_text (d : dom) (n : nat) : res bool := (let* x := node d n in Ok (bool_decide (ntype x = MN_TEXT_NODE)))%c.

Definition insert_char (p : tree) (s : bytes) : res tree :=
  if bool_decide (s = []) then Ok p else
  let cur := current_node p in
  (let* x := node (td p) cur in
   if bool_decide (ntype x = MN_ELEMENT_NODE) && match tag x with Some t => h5_is_rawtext t || h5_is_rcdata t | None => false end
   then let* d := put (td p) cur (set_text (Some (default [] (text x) ++ s))) in Ok (set_td d p)
   else
   match (if table_mode (mode p) then table_foster p else None) with
   | Some table =>
     if is_blank1 s then Ok p else
     let* y := node (td p) table in
     let parent := default cur (parent (lk y)) in
     let* tn := match prev_sibling (lk y) with
                | Some q => let* b := is_text (td p) q in Ok (if b : bool then Some q else None)
                | None => Ok None
                end in
     match tn with
     | Some tn => grow_text p tn s
     | None =>
       let (p, tn) := create p (mini_node_create_text (Some s)) in
       let* (d, _) := mini_node_insert_before (td p) (Some parent) (Some tn) (Some table) in
       Ok (set_tail (Some tn) (set_td d p))
     end
   | None =>
     let* grow := match pending_text_tail p, last_child (lk x) with
                  | Some t, Some lc => if decide (lc = t) then is_text (td p) lc else Ok false
                  | _, _ => Ok false
                  end in
     if grow : bool then grow_text p (default 0%nat (last_child (lk x))) s
     else
       let (p, tn) := create p (mini_node_create_text (Some s)) in
       let* p := append p cur tn in
       Ok (set_tail (Some tn) p)
   end)%c.

Definition insert_comment (p : tree) (parent : nat) (data : bytes) : res tree :=
  let (p, c) := create p (mini_node_create_comment (Some data)) in
  (let* p := append p parent c in Ok (set_tail None p))%c.

(** ** Implied end tags and formatting *)

Definition is_implied_end : bytes → bool :=
  ci_one_of ["dd"; "dt"; "li"; "option"; "optgroup"; "p"; "rb"; "rp"; "rt"; "rtc"; "thead"; "tbody"; "tfoot"; "tr"; "td"; "th"]%string.
(** The list is top first. *)
Fixpoint implied_loop (d : dom) (l : list nat) (except : option bytes) : res (list nat) :=
  match l with
  | [] => Ok []
  | n :: l' =>
    (let* x := node d n in
     match tag x with
     | Some t => if negb (is_implied_end t) then Ok l
                 else if match except with Some e => h5_ci t e | None => false end then Ok l
                 else implied_loop d l' except
     | None => Ok l
     end)%c
  end.
Definition gen_implied_end (p : tree) (except : option bytes) : res tree :=
  (let* l := implied_loop (td p) (rev (open p)) except in Ok (set_open (rev l) p))%c.

Definition h5_closes_p : bytes → bool :=
  ci_one_of ["address"; "article"; "aside"; "blockquote"; "center"; "details"; "dialog"; "dir"; "div"; "dl"; "fieldset";
   "figcaption"; "figure"; "footer"; "form"; "h1"; "h2"; "h3"; "h4"; "h5"; "h6"; "header"; "hgroup"; "hr"; "main"; "nav"; "ol";
   "p"; "pre"; "section"; "table"; "ul"; "listing"; "summary"]%string.

(** [if (has_in_scope (p, tag, ...)) pop_until (p, tag)] *)
Definition close_scope (p : tree) (tg : bytes) (table_scope : bool) : res tree :=
  (let* b := has_in_scope p tg table_scope in if b : bool then pop_until p tg else Ok p)%c.
Definition close_p_if_open (p : tree) : res tree :=
  (let* p := gen_implied_end p None in close_scope p (str "p") false)%c.

Definition is_open (p : tree) (n : nat) : bool := bool_decide (n ∈ open p).
(** The entries after the last marker or open element, by position. *)
Fixpoint last_kept (p : tree) (l : list (option nat)) (i : nat) (from : nat) : nat :=
  match l with
  | [] => from
  | e :: l => last_kept p l (S i) (match e with None => S i | Some n => if is_open p n then S i else from end)
  end.
(** Each of these is copied, the copy opened in the current node. *)
Fixpoint reopen (fuel i : nat) (p : tree) : res tree :=
  match fuel, afe p !! i with
  | S fuel, Some (Some orig) =>
    (let* (d, c) := mini_node_clone (td p) (Some orig) false in
     match c with
     | None => reopen fuel (S i) (set_td d p)
     | Some c =>
       let* p := append (set_td d p) (current_node p) c in
       let p := open_push c p in
       reopen fuel (S i) (set_afe (<[i := Some c]> (afe p)) p)
     end)%c
  | S fuel, Some None => reopen fuel (S i) p
  | _, _ => Ok p
  end.
Definition reconstruct_active_formatting (p : tree) : res tree :=
  match last (afe p) with
  | None | Some None => Ok p
  | Some (Some n) => if is_open p n then Ok p else reopen (length (afe p)) (last_kept p (afe p) 0 0) p
  end.

(** [while (c) ...]: the children of [from], one by one, to the end of [to]. *)
Fixpoint move_all (fuel : nat) (p : tree) (from to : nat) (c : option nat) : res tree :=
  match c, fuel with
  | None, _ => Ok p
  | Some _, O => UB
  | Some c, S fuel =>
    (let* x := node (td p) c in
     let nx := next_sibling (lk x) in
     let* p := remove_from p from c in
     let* p := append p to c in
     move_all fuel p from to nx)%c
  end.
Definition move_children_to (p : tree) (from to : nat) : res tree :=
  (let* x := node (td p) from in move_all (rounds (td p)) p from to (first_child (lk x)))%c.

(** The formatting entry of that tag, open and above the last marker; the list is last first. *)
Fixpoint find_fmt (p : tree) (l : list (option nat)) (tg : bytes) : res (option nat) :=
  match l with
  | [] | None :: _ => Ok None
  | Some n :: l => (let* b := tag_is (td p) n tg in if b && is_open p n then Ok (Some n) else find_fmt p l tg)%c
  end.
(** The topmost special element above position [fi], with its position. *)
Fixpoint find_furthest (d : dom) (l : list nat) (i fi : nat) (best : option (nat * nat)) : res (option (nat * nat)) :=
  match l with
  | [] => Ok best
  | n :: l =>
    (let* x := node d n in
     let ok := match tag x with Some t => h5_is_special t && negb (h5_is_formatting t) | None => false end in
     find_furthest d l (S i) fi (if bool_decide (fi < i)%nat && ok then Some (n, i) else best))%c
  end.
(** The loop down the stack from the furthest block to the formatting element. *)
Fixpoint aaa_loop (guard : nat) (p : tree) (fmt last_node node_i : nat) : res (tree * nat) :=
  match guard, node_i with
  | S guard, S node_i =>
    match open p !! node_i with
    | None => UB
    | Some n =>
      if decide (n = fmt) then Ok (p, last_node) else
      match afe_index p n with
      | Some ai =>
        (let* (d, c) := mini_node_clone (td p) (Some n) false in
         match c with
         | None => Ok (set_td d p, last_node)
         | Some c =>
           let p := set_open (<[node_i := c]> (open p)) (set_afe (<[ai := Some c]> (afe p)) (set_td d p)) in
           let* p := append p last_node c in
           let* p := move_children_to p n c in
           aaa_loop guard p fmt c node_i
         end)%c
      | None => aaa_loop guard (open_remove n p) fmt last_node node_i
      end
    end
  | _, _ => Ok (p, last_node)
  end.
Fixpoint pop_past (l : list nat) (n : nat) : list nat :=
  match l with [] => [] | x :: l => if decide (x = n) then l else pop_past l n end.
(** Back under the common ancestor, unless already there. *)
Definition place_last (p : tree) (ca last_node : nat) : res tree :=
  (let* x := node (td p) last_node in
   let* p := match parent (lk x) with
             | Some q => if decide (q = ca) then Ok p else remove_from p q last_node
             | None => Ok p
             end in
   let* x := node (td p) last_node in
   if decide (parent (lk x) = Some ca) then Ok p else append p ca last_node)%c.
(** The copy of the formatting element takes the block's children. *)
Definition wrap_last (p : tree) (fmt last_node : nat) : res tree :=
  (let* (d, nf) := mini_node_clone (td p) (Some fmt) false in
   match nf with
   | None => Ok (set_td d p)
   | Some nf =>
     let* p := move_children_to (set_td d p) last_node nf in
     let* p := append p last_node nf in
     Ok (afe_push_typed (Some nf) (open_push nf p))
   end)%c.

Definition adoption_agency (p : tree) (subject : bytes) : res tree :=
  (let* f := find_fmt p (rev (afe p)) subject in
   match f with
   | None =>
     let* b := has_in_scope p subject false in
     if b : bool then let* p := gen_implied_end p None in pop_loop p subject else Ok p
   | Some fmt =>
     match open_index p fmt with
     | None => Ok (afe_remove fmt p)
     | Some fi =>
       let* fur := find_furthest (td p) (open p) 0 fi None in
       match fur with
       | None => Ok (afe_remove fmt (set_open (rev (pop_past (rev (open p)) fmt)) p))
       | Some (furthest, furthest_i) =>
         let ca := match fi with O => root p | S i => default 0%nat (open p !! i) end in
         let* (p, last_node) := aaa_loop 256 p fmt furthest furthest_i in
         let* p := place_last p ca last_node in
         wrap_last (afe_remove fmt (open_remove fmt p)) fmt last_node
       end
     end
   end)%c.

(** ** Insertion modes *)

(** The children of the document: its html element. *)
Definition find_child (d : dom) (n : nat) (tg : bytes) : res (list nat) :=
  (let* l := children d n in Ok (List.filter (λ c, match nodes d !! c with
     | Some x => match tag x with Some t => h5_ci t tg | None => false end
     | None => false end) l))%c.

Definition ensure_html (p : tree) : res tree :=
  (let* l := find_child (td p) (root p) (str "html") in
   match l with
   | _ :: _ => Ok p
   | [] =>
     let (p, html) := create p (mini_node_create_element (Some (str "html"))) in
     let* p := match body p with
               | Some b => let* x := node (td p) b in
                           if decide (parent (lk x) = Some (root p)) then remove_from p (root p) b else Ok p
               | None => Ok p
               end in
     let* p := append p (root p) html in
     let (p, h) := create p (mini_node_create_element (Some (str "head"))) in
     let p := set_head (Some h) p in
     let* p := append p html h in
     let* p := match body p with
               | Some b => append p html b
               | None => let (p, b) := create p (mini_node_create_element (Some (str "body"))) in
                         append (set_body (Some b) p) html b
               end in
     Ok (open_push html p)
   end)%c.

Definition is_void_tag (tg : bytes) : bool := is_void (mini_element_info (Some tg)).
(** Creates the token's element at the end of the current node; [push] opens it. *)
Definition append_token (p : tree) (t : H5Token) (push : bool) : res (tree * nat) :=
  (let* (p, n) := create_element_for_token p t in
   let* p := append p (current_node p) n in
   Ok (if push then open_push n p else p, n))%c.

Definition in_body_start (p : tree) (t : H5Token) (tg : bytes) : res tree :=
  if ci_one_of ["html"; "head"]%string tg then Ok p
  else if ci_one_of ["base"; "basefont"; "bgsound"; "link"; "meta"; "title"]%string tg then
    (let* (p, n) := create_element_for_token p t in
     let* p := append p (default (current_node p) (head_element p)) n in
     Ok (if is_void_tag tg then p else open_push n p))%c
  else if ci_one_of ["style"; "script"]%string tg then (let* (p, _) := append_token p t true in Ok p)%c
  else if h5_ci tg (str "body") then Ok p
  else
    (let* p := if h5_closes_p tg then close_p_if_open p else Ok p in
     let* p := if h5_ci tg (str "li") then gen_implied_end p (Some (str "li")) else Ok p in
     let* p := if ci_one_of ["dd"; "dt"]%string tg then gen_implied_end p None else Ok p in
     if h5_ci tg (str "table") then
       let* (p, n) := append_token p t true in
       Ok (set_mode M_IN_TABLE (set_foster (Some n) p))
     else
       let* p := reconstruct_active_formatting p in
       let* (p, n) := create_element_for_token p t in
       if h5_is_formatting tg then
         let* p := insert_element p (current_node p) n in
         Ok (afe_push_typed (Some n) p)
       else if is_self_closing t || is_void_tag tg then append p (current_node p) n
       else insert_element p (current_node p) n)%c.

Definition in_body_end (p : tree) (tg : bytes) : res tree :=
  if h5_is_formatting tg then adoption_agency p tg
  else if h5_ci tg (str "p") then (let* p := gen_implied_end p (Some (str "p")) in close_scope p (str "p") false)%c
  else if ci_one_of ["li"; "dd"; "dt"]%string tg then (let* p := gen_implied_end p (Some tg) in close_scope p tg false)%c
  else if ci_one_of ["body"; "html"]%string tg then Ok (set_mode M_AFTER_BODY p)
  else (let* b := has_in_scope p tg false in
        if b : bool then let* p := gen_implied_end p None in pop_loop p tg else Ok p)%c.

Definition in_table_start (p : tree) (t : H5Token) (tg : bytes) : res tree :=
  if h5_ci tg (str "caption") then
    (let* p := pop_until p (str "table") in
     let* (p, _) := append_token p t true in
     Ok (set_mode M_IN_BODY (afe_marker p)))%c
  else if h5_ci tg (str "colgroup") then (let* (p, _) := append_token p t true in Ok p)%c
  else if h5_ci tg (str "col") then (let* (p, _) := append_token p t false in Ok p)%c
  else if ci_one_of ["thead"; "tfoot"; "tbody"]%string tg then
    (let* (p, _) := append_token p t true in Ok (set_mode M_IN_TABLE_BODY p))%c
  else if h5_ci tg (str "tr") then (let* (p, _) := append_token p t true in Ok (set_mode M_IN_ROW p))%c
  else if ci_one_of ["th"; "td"]%string tg then
    let (p, tr) := create p (mini_node_create_element (Some (str "tr"))) in
    (let* p := append p (current_node p) tr in
     let p := set_mode M_IN_ROW (open_push tr p) in
     let* (p, _) := append_token p t true in
     Ok (set_mode M_IN_CELL p))%c
  else
    (let* p := reconstruct_active_formatting p in
     let* (p, n) := create_element_for_token p t in
     if is_self_closing t || is_void_tag tg then
       match table_foster p with
       | None => append p (current_node p) n
       | Some table =>
         let* x := node (td p) table in
         match parent (lk x) with
         | Some q => let* (d, _) := mini_node_insert_before (td p) (Some q) (Some n) (Some table) in Ok (set_td d p)
         | None => let* (d, _) := mini_node_append_child (td p) None (Some n) in Ok (set_td d p)
         end
       end
     else foster_insert p n)%c.

Definition in_table_end (p : tree) (tg : bytes) : res tree :=
  let close m := (let* b := has_in_scope p tg true in
                  if b : bool then let* p := pop_until p tg in Ok (set_mode m p) else Ok p)%c in
  if h5_ci tg (str "table") then
    (let* b := has_in_scope p (str "table") true in
     if b : bool then let* p := pop_until p (str "table") in Ok (set_mode M_IN_BODY (set_foster None p)) else Ok p)%c
  else if ci_one_of ["tbody"; "tfoot"; "thead"]%string tg then close M_IN_TABLE
  else if h5_ci tg (str "tr") then close M_IN_TABLE_BODY
  else if ci_one_of ["th"; "td"]%string tg then close M_IN_ROW
  else in_body_end p tg.

Definition in_row_start (p : tree) (t : H5Token) (tg : bytes) : res tree :=
  if ci_one_of ["th"; "td"]%string tg then (let* (p, _) := append_token p t true in Ok (set_mode M_IN_CELL p))%c
  else if h5_ci tg (str "tr") then
    (let* p := close_scope p (str "tr") true in let* (p, _) := append_token p t true in Ok p)%c
  else (let* p := close_scope p (str "tr") true in in_table_start (set_mode M_IN_TABLE_BODY p) t tg)%c.

Definition in_cell_start : tree → H5Token → bytes → res tree := in_body_start.

Definition in_cell_end (p : tree) (tg : bytes) : res tree :=
  if ci_one_of ["td"; "th"]%string tg then
    (let* b := has_in_scope p tg true in
     if b : bool then
       let* p := gen_implied_end p None in
       let* p := pop_until p tg in Ok (set_mode M_IN_ROW p)
     else Ok p)%c
  else if ci_one_of ["tr"; "tbody"; "thead"; "tfoot"]%string tg then
    (let* b := has_in_scope p (str "td") true in
     let* b' := if b : bool then Ok true else has_in_scope p (str "th") true in
     if b' : bool then
       let* p := gen_implied_end p None in
       let* p := pop_until p (str "td") in
       let* p := pop_until p (str "th") in
       in_table_end (set_mode M_IN_ROW p) tg
     else Ok p)%c
  else in_body_end p tg.

(** ** Dispatch *)

(** A head or body of the document, from a token or made up. *)
Definition open_head (p : tree) (mk : tree → res (tree * nat)) : res tree :=
  (let* (p, h) := mk p in
   let* p := append p (current_node p) h in
   Ok (set_mode M_IN_HEAD (set_head (Some h) (open_push h p))))%c.
Definition open_body (p : tree) (mk : tree → res (tree * nat)) : res tree :=
  (let* (p, b) := mk p in
   let* p := append p (current_node p) b in
   Ok (set_mode M_IN_BODY (set_body (Some b) (open_push b p))))%c.
Definition made (tg : string) (p : tree) : res (tree * nat) := Ok (create p (mini_node_create_element (Some (str tg)))).
Definition from_token (t : H5Token) (p : tree) : res (tree * nat) := create_element_for_token p t.

(** [again] is the recursive call. *)
Definition in_head (again : tree → res tree) (p : tree) (t : H5Token) (tg : bytes) : res tree :=
  match ttype t with
  | TT_START =>
    if ci_one_of ["title"; "style"; "script"]%string tg then (let* (p, _) := append_token p t true in Ok p)%c
    else if ci_one_of ["meta"; "link"; "base"]%string tg then (let* (p, _) := append_token p t false in Ok p)%c
    else again (set_mode M_AFTER_HEAD (open_pop p))
  | TT_END =>
    if h5_ci tg (str "head") then Ok (set_mode M_AFTER_HEAD (open_pop p))
    else if ci_one_of ["title"; "style"; "script"]%string tg then
      (let* b := tag_is (td p) (current_node p) tg in Ok (if b : bool then open_pop p else p))%c
    else if ci_one_of ["body"; "html"]%string tg then again (set_mode M_AFTER_HEAD (open_pop p))
    else Ok p
  | TT_CHAR => insert_char p tg
  | TT_COMMENT => insert_comment p (current_node p) tg
  | _ => again (set_mode M_AFTER_HEAD (open_pop p))
  end.

Definition in_table_body (p : tree) (t : H5Token) (tg : bytes) : res tree :=
  match ttype t with
  | TT_START =>
    if h5_ci tg (str "tr") then (let* (p, _) := append_token p t true in Ok (set_mode M_IN_ROW p))%c
    else
      (let* b1 := has_in_scope p (str "tbody") true in
       let* b2 := if b1 : bool then Ok true else has_in_scope p (str "thead") true in
       let* b3 := if b2 : bool then Ok true else has_in_scope p (str "tfoot") true in
       let* p := if b3 : bool then pop_until_one p ["tbody"; "thead"; "tfoot"]%string else Ok p in
       in_table_start (set_mode M_IN_TABLE p) t tg)%c
  | TT_END =>
    if ci_one_of ["tbody"; "thead"; "tfoot"]%string tg then
      (let* b := has_in_scope p tg true in
       if b : bool then let* p := pop_until p tg in Ok (set_mode M_IN_TABLE p) else Ok p)%c
    else Ok p
  | _ => Ok p
  end.

(** The switch over the current insertion mode. *)
Definition in_mode (again : tree → res tree) (p : tree) (t : H5Token) : res tree :=
  let tg := default [] (tname t) in
  let modes start fin chr com :=
    match ttype t with
    | TT_START => start p t tg
    | TT_END => fin p tg
    | TT_CHAR => if chr : bool then insert_char p tg else Ok p
    | TT_COMMENT => if com : bool then insert_comment p (current_node p) tg else Ok p
    | _ => Ok p
    end in
  let starts s := bool_decide (ttype t = TT_START) && h5_ci tg (str s) in
  match mode p with
  | M_INITIAL | M_BEFORE_HTML =>
    (let* p := ensure_html p in
     let p := set_mode M_BEFORE_HEAD p in
     if decide (ttype t = TT_CHAR) then insert_char p tg
     else let p := set_mode M_IN_BODY p in
          if starts "head"%string then open_head p (from_token t) else Ok p)%c
  | M_BEFORE_HEAD =>
    if starts "head"%string then open_head p (from_token t) else (let* p := open_head p (made "head"%string) in again p)%c
  | M_IN_HEAD => in_head again p t tg
  | M_AFTER_HEAD =>
    if starts "body"%string then open_body p (from_token t)
    else if starts "head"%string then Ok p
    else (let* p := open_body p (made "body"%string) in again p)%c
  | M_IN_BODY => modes in_body_start in_body_end true true
  | M_IN_TABLE => modes in_table_start in_table_end true true
  | M_IN_TABLE_BODY => in_table_body p t tg
  | M_IN_ROW => modes in_row_start in_table_end true false
  | M_IN_CELL => modes in_cell_start in_cell_end true true
  | M_IN_SELECT => modes in_body_start in_body_end true false
  | M_AFTER_BODY =>
    if bool_decide (ttype t = TT_END) && h5_ci tg (str "html") then Ok (set_mode M_AFTER_AFTER_BODY p)
    else again (set_mode M_IN_BODY p)
  | M_AFTER_AFTER_BODY =>
    if decide (ttype t = TT_CHAR) then insert_char p tg else again (set_mode M_IN_BODY p)
  end.
(** [n] bounds the calls of itself: a token is passed on at most three times. *)
Fixpoint process_fuel (n : nat) (p : tree) (t : H5Token) : res tree :=
  match n with O => UB | S n => in_mode (λ p, process_fuel n p t) p t end.
Definition process_token (p : tree) (t : H5Token) : res tree := process_fuel 4 p t.

Definition init_tree (d : dom) (root : nat) (body : option nat) : tree := Tree d root body [] [] M_INITIAL None None None.
(** [mini_html5_init] after its allocation: the last html child of the
    document, its last body, both open. *)
Definition init_parser (p : tree) : res tree :=
  (let* p := ensure_html p in
   let* hs := find_child (td p) (root p) (str "html") in
   let html := last hs in
   let* bs := match html with Some h => find_child (td p) h (str "body") | None => Ok [] end in
   let p := match last bs with Some b => set_body (Some b) p | None => p end in
   let p := set_mode M_IN_BODY p in
   let p := match html with Some h => open_push h p | None => p end in
   match last bs with
   | Some b => Ok (open_push b p)
   | None =>
     let (p, b) := create p (mini_node_create_element (Some (str "body"))) in
     let* p := append p (default (root p) html) b in
     Ok (open_push b (set_body (Some b) p))
   end)%c.
