(* ===== verification/Html5Tok.v ===== *)
(** * HTML tokenizer (src/src/mini_html5.c)

    The state machine that turns bytes into tokens, one [switch] case per
    definition.  Each takes the bytes from the read position on and returns
    what is left of them; the consumer of the tokens is an instance of [Sink],
    so that what is proved here holds for any consumer.  [cstr] is written
    where the code copies with [strdup]. *)

From stdpp Require Import list.
From S2P Require Import Prelude CString Html5Ref Html5Tree.
Open Scope Z_scope.

(** What the tokenizer asks of tree construction: to take a token, and the tag
    of the current node, which may switch it to raw text. *)
Class Sink (St : Type) := {
  sink_token : St → H5Token → res St;
  sink_tag : St → res (option bytes) }.

Inductive H5TokState :=
| TS_DATA | TS_TAG_OPEN | TS_END_TAG_OPEN | TS_TAG_NAME | TS_BEFORE_ATTR_NAME | TS_ATTR_NAME | TS_AFTER_ATTR_NAME
| TS_BEFORE_ATTR_VALUE | TS_ATTR_VALUE_DQ | TS_ATTR_VALUE_SQ | TS_ATTR_VALUE_UQ | TS_AFTER_ATTR_VALUE | TS_SELF_CLOSING
| TS_BOGUS_COMMENT | TS_MARKUP_DECL_OPEN | TS_COMMENT | TS_DOCTYPE | TS_RAWTEXT | TS_RCDATA | TS_EOF.
#[export] Instance H5TokState_eq_dec : EqDecision H5TokState.
Proof. solve_decision. Defined.

(** The string a buffer holds: what is before its first zero. *)
Fixpoint cstr (s : bytes) : bytes :=
  match s with [] => [] | c :: s => if decide (c = 0) then [] else c :: cstr s end.

(** ** Tokens under construction *)

Definition tok_reset : H5Token := Tok TT_START None [] false.
Definition tok_set_name (t : H5Token) (s : bytes) : H5Token := Tok (ttype t) (Some (cstr s)) (tattrs t) (is_self_closing t).
Definition tok_set_type (ty : H5TokType) (t : H5Token) : H5Token := Tok ty (tname t) (tattrs t) (is_self_closing t).
Definition tok_add_attr (t : H5Token) (k v : bytes) : H5Token :=
  Tok (ttype t) (tname t) (tattrs t ++ [(cstr k, cstr v)]) (is_self_closing t).
Definition set_last_attr_value (t : H5Token) (v : bytes) : H5Token :=
  match last (tattrs t) with
  | None => t
  | Some (k, _) => Tok (ttype t) (tname t) (take (length (tattrs t) - 1) (tattrs t) ++ [(k, cstr v)]) (is_self_closing t)
  end.
Definition tok_close_self (t : H5Token) : H5Token := Tok (ttype t) (tname t) (tattrs t) true.

Section tokenizer.
Context {St : Type} `{Sink St}.

(** The tokenizer's fields of the parser, and its consumer. *)
Record tokenizer := Tk { ts : H5TokState; acc : bytes; cur : H5Token; sink : St }.
Definition set_ts s p := Tk s (acc p) (cur p) (sink p).
Definition set_acc a p := Tk (ts p) a (cur p) (sink p).
Definition set_cur c p := Tk (ts p) (acc p) c (sink p).
Definition set_sink x p := Tk (ts p) (acc p) (cur p) x.
Definition acc_putc (c : Z) (p : tokenizer) : tokenizer := set_acc (acc p ++ [c]) p.

Definition char_token (s : bytes) : H5Token := Tok TT_CHAR (Some (cstr s)) [] false.
Definition emit_char (p : tokenizer) (s : bytes) : res tokenizer :=
  (let* x := sink_token (sink p) (char_token s) in Ok (set_sink x p))%c.

Definition maybe_enter_rawtext (p : tokenizer) : res tokenizer :=
  (let* tg := sink_tag (sink p) in
   match tg with
   | None => Ok p
   | Some tg =>
     let cur := Tok TT_START (Some tg) [] false in
     if h5_is_rawtext tg then Ok (set_cur cur (set_ts TS_RAWTEXT p))
     else if h5_is_rcdata tg then Ok (set_cur cur (set_ts TS_RCDATA p))
     else Ok p
   end)%c.

Definition emit_current (p : tokenizer) : res tokenizer :=
  let c := cur p in
  match ttype c with
  | TT_COMMENT | TT_DOCTYPE =>
    (let* x := sink_token (sink p) (Tok (ttype c) (Some (default [] (tname c))) (tattrs c) (is_self_closing c)) in
     Ok (set_cur tok_reset (set_sink x p)))%c
  | _ =>
    match default [] (tname c) with
    | [] => Ok (set_cur tok_reset p)
    | (_ :: _) as name =>
      (let* x := sink_token (sink p) (Tok (ttype c) (Some (map c_tolower name)) (tattrs c) (is_self_closing c)) in
       let p := set_cur tok_reset (set_sink x p) in
       if decide (ttype c = TT_START) then maybe_enter_rawtext p else Ok p)%c
    end
  end.

(** ** The states *)

Definition h5_space (c : Z) : bool := bool_decide (c ∈ [32; 9; 10; 13; 12]).

(** Each state gets the next byte [c] and the rest [r]; [Ok (p, c :: r)] leaves
    the byte to the next state. *)
Definition step := tokenizer → Z → bytes → res (tokenizer * bytes).

Definition data : step := λ p c r,
  (if decide (c = 38) then
     let* (used, out) := h5_decode_ref (c :: r) in
     if decide (0 < used)%nat then let* p := emit_char p out in Ok (p, drop used (c :: r))
     else let* p := emit_char p (str "&") in Ok (p, r)
   else if decide (c = 60) then Ok (set_ts TS_TAG_OPEN p, r)
   else let '(text, r) := scan (λ c, negb (bool_decide (c = 60 ∨ c = 38))) (length (c :: r)) (c :: r) in
        let* p := emit_char p text in Ok (p, r))%c.

Definition tag_open : step := λ p c r,
  (if decide (c = 33) then Ok (set_ts TS_MARKUP_DECL_OPEN p, r)
   else if decide (c = 47) then Ok (set_ts TS_END_TAG_OPEN p, r)
   else if c_isalpha c then Ok (set_ts TS_TAG_NAME (set_acc [c] (set_cur (tok_set_type TT_START (cur p)) p)), r)
   else if decide (c = 63) then Ok (set_ts TS_BOGUS_COMMENT (set_acc [] p), r)
   else let* p := emit_char p (str "<") in Ok (set_ts TS_DATA p, c :: r))%c.

Definition end_tag_open : step := λ p c r,
  if c_isalpha c then Ok (set_ts TS_TAG_NAME (set_acc [c] (set_cur (tok_set_type TT_END (cur p)) p)), r)
  else if decide (c = 62) then Ok (set_ts TS_DATA p, r)
  else Ok (set_ts TS_BOGUS_COMMENT (set_acc [] p), c :: r).

Definition finish_name (p : tokenizer) : tokenizer := set_acc [] (set_cur (tok_set_name (cur p) (acc p)) p).
Definition emit_tag (p : tokenizer) (r : bytes) : res (tokenizer * bytes) :=
  (let* p := emit_current (set_ts TS_DATA p) in Ok (p, r))%c.

Definition tag_name : step := λ p c r,
  if h5_space c then Ok (set_ts TS_BEFORE_ATTR_NAME (finish_name p), r)
  else if decide (c = 47) then Ok (set_ts TS_SELF_CLOSING (finish_name p), r)
  else if decide (c = 62) then emit_tag (finish_name p) r
  else Ok (acc_putc c p, r).

Definition before_attr_name : step := λ p c r,
  if h5_space c then Ok (p, r)
  else if decide (c = 47 ∨ c = 62) then Ok (set_ts TS_AFTER_ATTR_NAME p, c :: r)
  else Ok (set_ts TS_ATTR_NAME (set_acc [c] p), r).

Definition finish_attr (p : tokenizer) : tokenizer := set_acc [] (set_cur (tok_add_attr (cur p) (acc p) []) p).
Definition attr_name : step := λ p c r,
  if h5_space c then Ok (set_ts TS_AFTER_ATTR_NAME (finish_attr p), r)
  else if decide (c = 47 ∨ c = 62) then Ok (set_ts TS_AFTER_ATTR_NAME (finish_attr p), c :: r)
  else if decide (c = 61) then Ok (set_ts TS_BEFORE_ATTR_VALUE (finish_attr p), r)
  else Ok (acc_putc c p, r).

Definition after_attr_name : step := λ p c r,
  if h5_space c then Ok (p, r)
  else if decide (c = 47) then Ok (set_ts TS_SELF_CLOSING p, r)
  else if decide (c = 61) then Ok (set_ts TS_BEFORE_ATTR_VALUE p, r)
  else if decide (c = 62) then emit_tag p r
  else Ok (set_ts TS_ATTR_NAME (set_acc [c] p), r).

Definition before_attr_value : step := λ p c r,
  if h5_space c then Ok (p, r)
  else if decide (c = 34) then Ok (set_ts TS_ATTR_VALUE_DQ p, r)
  else if decide (c = 39) then Ok (set_ts TS_ATTR_VALUE_SQ p, r)
  else if decide (c = 62) then emit_tag p r
  else Ok (set_ts TS_ATTR_VALUE_UQ p, c :: r).

(** A byte of a value, or a reference in it. *)
Definition value_byte : step := λ p c r,
  (if decide (c = 38) then
     let* (used, out) := h5_decode_ref (c :: r) in
     if decide (0 < used)%nat then Ok (set_acc (acc p ++ cstr out) p, drop used (c :: r)) else Ok (acc_putc 38 p, r)
   else Ok (acc_putc c p, r))%c.
Definition finish_value (p : tokenizer) : tokenizer := set_acc [] (set_cur (set_last_attr_value (cur p) (acc p)) p).
Definition attr_value_quoted (q : Z) : step := λ p c r,
  if decide (c = q) then Ok (set_ts TS_AFTER_ATTR_VALUE (finish_value p), r) else value_byte p c r.
Definition attr_value_uq : step := λ p c r,
  if h5_space c then Ok (set_ts TS_AFTER_ATTR_VALUE (finish_value p), r)
  else if decide (c = 62) then emit_tag (finish_value p) r
  else value_byte p c r.

Definition after_attr_value : step := λ p c r,
  if h5_space c then Ok (set_ts TS_BEFORE_ATTR_NAME p, r)
  else if decide (c = 47) then Ok (set_ts TS_SELF_CLOSING p, r)
  else if decide (c = 62) then emit_tag p r
  else Ok (set_ts TS_BEFORE_ATTR_NAME p, c :: r).

Definition self_closing : step := λ p c r,
  if decide (c = 62) then emit_tag (set_cur (tok_close_self (cur p)) p) r
  else Ok (set_ts TS_BEFORE_ATTR_NAME p, c :: r).

Definition finish_comment (ty : H5TokType) (p : tokenizer) : tokenizer := set_cur (tok_set_type ty (tok_set_name (cur p) (acc p))) p.
Definition bogus_comment : step := λ p c r,
  if decide (c = 62) then emit_tag (finish_comment TT_COMMENT p) r else Ok (acc_putc c p, r).
Definition markup_decl_open : step := λ p c r,
  if bool_decide (c = 45) && bool_decide (head r = Some 45) then Ok (set_ts TS_COMMENT (set_acc [] p), drop 1 r)
  else if decide (c_tolower c = 100) then Ok (set_ts TS_DOCTYPE (set_acc [c] p), r)
  else Ok (set_ts TS_BOGUS_COMMENT (set_acc [] p), c :: r).
Definition comment : step := λ p c r,
  if bool_decide (c = 45) && starts_with [45; 62] r then emit_tag (finish_comment TT_COMMENT p) (drop 2 r)
  else Ok (acc_putc c p, r).
Definition doctype : step := λ p c r,
  if decide (c = 62) then emit_tag (finish_comment TT_DOCTYPE p) r else Ok (acc_putc c p, r).

(** ** Raw text *)

(** What follows [tn] in [s], ignoring case. *)
Fixpoint match_ci (tn s : bytes) : option bytes :=
  match tn, s with
  | [], _ => Some s
  | x :: tn, y :: s => if decide (c_tolower y = c_tolower x) then match_ci tn s else None
  | _ :: _, [] => None
  end.
(** The text before the first end tag of that name, and what follows the name. *)
Fixpoint raw_end (tn s : bytes) : option (bytes * bytes) :=
  match s with
  | [] => None
  | c :: s' =>
    match (if starts_with [60; 47] s then match_ci tn (drop 2 s) else None) with
    | Some r => Some ([], r)
    | None => (λ '(t, r), (c :: t, r)) <$> raw_end tn s'
    end
  end.

(** A byte into [outbuf], flushed when nearly full; its terminator has to fit
    in the 1024 bytes. *)
Definition rc_flush (x : St) (out : bytes) : res (St * bytes) :=
  if decide (1020 <= Z.of_nat (length out)) then
    if decide (Z.of_nat (length out) < 1024) then (let* x := sink_token x (char_token out) in Ok (x, []))%c else UB
  else Ok (x, out).
(** Text with references, collected in [outbuf]. *)
Fixpoint rcdata (fuel : nat) (x : St) (out s : bytes) : res (St * bytes) :=
  match s, fuel with
  | [], _ => Ok (x, out)
  | _ :: _, O => UB
  | c :: s', S fuel =>
    (if decide (c = 38) then
       let* (used, o) := h5_decode_ref s in
       if decide (0 < used)%nat then
         rcdata fuel x (out ++ take (Z.to_nat (1023 - Z.of_nat (length out))) (take used (cstr o))) (drop used s)
       else let* (x, out) := rc_flush x (out ++ [38]) in rcdata fuel x out s'
     else
       let* (x, out) := rc_flush x (if decide (Z.of_nat (length out) + 1 < 1024) then out ++ [c] else out) in
       rcdata fuel x out s')%c
  end.

Definition raw_text : tokenizer → bytes → res (tokenizer * bytes) := λ p s,
  (match raw_end (default [] (tname (cur p))) s with
   | Some (text, r) =>
     let* x := match text with
               | [] => Ok (sink p)
               | _ :: _ =>
                 if decide (ts p = TS_RCDATA) then
                   let* (x, out) := rcdata (length text) (sink p) [] text in
                   match out with [] => Ok x | _ :: _ => sink_token x (char_token out) end
                 else sink_token (sink p) (char_token text)
               end in
     let '(_, r) := scan (λ c, negb (bool_decide (c = 62))) (length r) r in
     let* x := sink_token x (Tok TT_END (Some (default [] (tname (cur p)))) [] false) in
     Ok (set_ts TS_DATA (set_cur tok_reset (set_sink x p)), drop 1 r)
   | None =>
     let* x := if decide (ts p = TS_RCDATA) then let* (x, _) := rcdata (length s) (sink p) [] s in Ok x
               else sink_token (sink p) (char_token s) in
     Ok (set_sink x p, [])
   end)%c.

(** ** The run *)

Definition tok_step (p : tokenizer) (c : Z) (r : bytes) : res (tokenizer * bytes) :=
  match ts p with
  | TS_DATA => data p c r
  | TS_TAG_OPEN => tag_open p c r
  | TS_END_TAG_OPEN => end_tag_open p c r
  | TS_TAG_NAME => tag_name p c r
  | TS_BEFORE_ATTR_NAME => before_attr_name p c r
  | TS_ATTR_NAME => attr_name p c r
  | TS_AFTER_ATTR_NAME => after_attr_name p c r
  | TS_BEFORE_ATTR_VALUE => before_attr_value p c r
  | TS_ATTR_VALUE_DQ => attr_value_quoted 34 p c r
  | TS_ATTR_VALUE_SQ => attr_value_quoted 39 p c r
  | TS_ATTR_VALUE_UQ => attr_value_uq p c r
  | TS_AFTER_ATTR_VALUE => after_attr_value p c r
  | TS_SELF_CLOSING => self_closing p c r
  | TS_BOGUS_COMMENT => bogus_comment p c r
  | TS_MARKUP_DECL_OPEN => markup_decl_open p c r
  | TS_COMMENT => comment p c r
  | TS_DOCTYPE => doctype p c r
  | TS_RAWTEXT | TS_RCDATA => raw_text p (c :: r)
  | TS_EOF => Ok (p, [])
  end.

Fixpoint run_states (fuel : nat) (p : tokenizer) (s : bytes) : res tokenizer :=
  match s, fuel with
  | [], _ => Ok p
  | _ :: _, O => UB
  | c :: r, S fuel => (let* (p, s) := tok_step p c r in run_states fuel p s)%c
  end.
(** At most two steps in a row read nothing. *)
Definition tokenize_run (p : tokenizer) (s : bytes) : res tokenizer := run_states (3 * length s + 3) p s.

(** ** The run_states ends

    The room check of the RCDATA loop, on the text alone: no reference is too
    large for an [int], and no byte is written past [outbuf]. *)
Fixpoint rc_room (fuel : nat) (out : nat) (s : bytes) : bool :=
  let flush n := if decide (1020 <= Z.of_nat n) then if decide (Z.of_nat n < 1024) then Some 0%nat else None else Some n in
  match s, fuel with
  | [], _ => true
  | _ :: _, O => false
  | c :: s', S fuel =>
    if decide (c = 38) then
      match h5_decode_ref s with
      | UB => false
      | Ok (used, o) =>
        if decide (0 < used)%nat then rc_room fuel (out + length (take (Z.to_nat (1023 - Z.of_nat out)) (take used (cstr o)))) (drop used s)
        else match flush (S out) with Some n => rc_room fuel n s' | None => false end
      end
    else match flush (if decide (Z.of_nat out + 1 < 1024) then S out else out) with Some n => rc_room fuel n s' | None => false end
  end.
End tokenizer.
Arguments tokenizer St : clear implicits.

(** This for every part of the text. *)
Definition fits (s : bytes) : Prop := ∀ i n, rc_room n 0 (take n (drop i s)) = true.

Lemma fits_suffix s u : suffix u s → fits s → fits u.
Proof. intros [v ->] H i n. specialize (H (length v + i)%nat n). by rewrite <- drop_drop, drop_app_length in H. Qed.

(** Where nothing is a reference nothing can go wrong. *)
Lemma rc_room_no_amp n : ∀ m t, Z.of_nat m <= 1019 → 38 ∉ t → (length t <= n)%nat → rc_room n m t = true.
Proof.
  induction n as [|n IH]; intros m [|c t] Hm Ht Hl; cbn [rc_room]; try done; [simpl in Hl; lia|].
  apply not_elem_of_cons in Ht as [Hc Ht]. simpl in Hl. rewrite decide_False by done.
  repeat case_decide; try lia; apply IH; (lia || done).
Qed.
Lemma fits_no_amp s : 38 ∉ s → fits s.
Proof.
  intros H i n. apply rc_room_no_amp; [lia| |rewrite length_take; lia]. intros (j&Hj&_)%elem_of_take.
  rewrite lookup_drop in Hj. apply H. by eapply list_elem_of_lookup_2.
Qed.

Section run_ends.
Context {St : Type} `{Sink St} (I : St → Prop).
Context (I_token : ∀ x t, I x → ends (sink_token x t) I) (I_tag : ∀ x, I x → ends (sink_tag x) (λ _, True)).

Definition sound (p : tokenizer St) : Prop := I (sink p).

Lemma emit_char_ends p s : sound p → ends (emit_char p s) (λ p', sound p' ∧ ts p' = ts p).
Proof using I_token. intros Hp. unfold emit_char. eapply ends_bind; [by apply I_token|]. intros x Hx. by apply ends_ok. Qed.

(** A tag leaves the tokenizer in the data state or in raw text. *)
Definition rank (s : H5TokState) : nat :=
  match s with
  | TS_SELF_CLOSING | TS_AFTER_ATTR_VALUE => 2
  | TS_TAG_OPEN | TS_END_TAG_OPEN | TS_MARKUP_DECL_OPEN | TS_BEFORE_ATTR_NAME | TS_ATTR_NAME | TS_BEFORE_ATTR_VALUE => 1
  | _ => 0
  end.
Lemma emit_current_ends p : sound p → rank (ts p) = 0%nat → ends (emit_current p) (λ p', sound p' ∧ rank (ts p') = 0%nat).
Proof using I_token I_tag.
  intros Hp Hr. unfold emit_current.
  assert (∀ t, ends (let* x := sink_token (sink p) t in Ok (set_cur tok_reset (set_sink x p)))%c (λ p', sound p' ∧ rank (ts p') = 0%nat)) as Hem.
  { intros t. eapply ends_bind; [by apply I_token|]. intros x Hx. by apply ends_ok. }
  assert (∀ p', sound p' → rank (ts p') = 0%nat → ends (maybe_enter_rawtext p') (λ p', sound p' ∧ rank (ts p') = 0%nat)) as Hraw.
  { intros p' Hp' Hr'. unfold maybe_enter_rawtext. eapply ends_bind; [by apply I_tag|]. intros [tg|] _; [|by apply ends_ok].
    destruct (h5_is_rawtext tg); [by apply ends_ok|]. destruct (h5_is_rcdata tg); by apply ends_ok. }
  destruct (ttype (cur p)); try apply Hem.
  all: destruct (default [] (tname (cur p))) as [|c n]; [by apply ends_ok|]; eapply ends_bind; [by apply I_token|]; intros x Hx; cbv zeta;
    (destruct (decide _); [by apply Hraw|by apply ends_ok]).
Qed.

(** The RCDATA buffer. *)
Lemma rcdata_ends fuel : ∀ x out s, I x → rc_room fuel (length out) s = true → ends (rcdata fuel x out s) (λ a, I a.1).
Proof using I_token.
  assert (∀ (o : bytes) c, length (o ++ [c]) = S (length o)) as Hsnoc by (intros; rewrite length_app; apply Nat.add_1_r).
  induction fuel as [|fuel IH]; intros x out [|c s] Hx Hr; cbn [rcdata rc_room] in *; try done; try by apply ends_ok.
  assert (∀ out', match (if decide (1020 <= Z.of_nat (length out')) then if decide (Z.of_nat (length out') < 1024) then Some 0%nat else None
      else Some (length out')) with Some n => rc_room fuel n s | None => false end = true →
    ends (let* (x, out) := rc_flush x out' in rcdata fuel x out s)%c (λ a, I a.1)) as Hflush.
  { intros out' H'. unfold rc_flush. case_decide; [case_decide; [|done]|].
    - destruct (I_token x (char_token out') Hx) as (x'&->&Hx'). cbn [res_bind]. by apply IH.
    - cbn [res_bind]. by apply IH. }
  case_decide.
  - destruct (h5_decode_ref (c :: s)) as [[used o]|]; [|done]. cbn [res_bind]. case_decide.
    + apply IH; [done|]. rewrite length_app. exact Hr.
    + apply Hflush. rewrite Hsnoc. exact Hr.
  - apply Hflush. destruct (decide (Z.of_nat (length out) + 1 < 1024)); [rewrite Hsnoc|]; exact Hr.
Qed.

Lemma match_ci_suffix tn s r : match_ci tn s = Some r → suffix r s.
Proof.
  revert s. induction tn as [|x tn IH]; intros [|y s]; cbn [match_ci]; try done; try (by intros [= <-]).
  case_decide; [|done]. intros Hm. by apply suffix_cons_r, IH.
Qed.
Lemma raw_end_spec tn s t r : raw_end tn s = Some (t, r) → suffix r s ∧ (length r < length s)%nat ∧ t = take (length t) s.
Proof.
  revert t. induction s as [|c s IH]; intros t; cbn [raw_end]; [done|].
  destruct (if starts_with [60; 47] (c :: s) then _ else None) as [r'|] eqn:E.
  - intros [= <- <-]. destruct (starts_with [60; 47] (c :: s)) eqn:Es; [|done].
    apply match_ci_suffix in E. pose proof (suffix_length _ _ E) as Hl. rewrite length_drop in Hl.
    split; [|split; [simpl in *; lia|done]]. etrans; [exact E|]. exists (take 2 (c :: s)). by rewrite take_drop.
  - destruct (raw_end tn s) as [[t' r']|]; [|done]. intros [= <- <-]. destruct (IH _ eq_refl) as (H1&H2&H3).
    split; [by apply suffix_cons_r|]. simpl. split; [lia|]. by f_equal.
Qed.

(** A step: the consumer stays sound, and either a byte is read or the state
    comes nearer to reading one. *)
Definition advances (p : tokenizer St) (s : bytes) (a : tokenizer St * bytes) : Prop :=
  sound a.1 ∧ suffix a.2 s ∧ (3 * length a.2 + rank (ts a.1) < 3 * length s + rank (ts p))%nat.

Lemma raw_text_ends p s : sound p → fits s → s ≠ [] → rank (ts p) = 0%nat → ends (raw_text p s) (advances p s).
Proof using I_token.
  intros Hp Hf Hs Hrk. unfold raw_text. assert (rc_room (length s) 0 s = true) as Hroom.
  { specialize (Hf 0%nat (length s)). by rewrite drop_0, take_ge in Hf. }
  assert (0 < length s)%nat by (destruct s; simpl; [done|lia]).
  destruct (raw_end _ s) as [[text r]|] eqn:E.
  - apply raw_end_spec in E as (Hsf&Hr&Ht).
    eapply (ends_bind _ _ I).
    { destruct text as [|c text]; [by apply ends_ok|]. destruct (decide _); [|by apply I_token].
      eapply ends_bind; [apply rcdata_ends; [done|]|].
      - rewrite Ht at 2. rewrite <- (drop_0 s). apply Hf.
      - intros [x out] Hx. destruct out; [by apply ends_ok|by apply I_token]. }
    intros x Hx. destruct (scan _ _ r) as [u r'] eqn:Es. apply scan_split in Es as (->&_&_).
    eapply ends_bind; [by apply I_token|]. intros x' Hx'. apply ends_ok. split; [done|]. cbn [fst snd]. rewrite length_app in Hr.
    split; [|cbn [ts set_ts rank]; rewrite length_drop; lia].
    etrans; [|exact Hsf]. exists (u ++ take 1 r'). by rewrite <- app_assoc, take_drop.
  - eapply (ends_bind _ _ I).
    { destruct (decide _); [|by apply I_token]. eapply ends_bind; [by apply rcdata_ends|]. intros [x out] Hx. by apply ends_ok. }
    intros x Hx. apply ends_ok. split; [done|]. cbn [fst snd]. split; [by apply suffix_nil|]. cbn. rewrite Hrk. lia.
Qed.

Lemma emit_tag_ends p0 p c r : sound p → ends (emit_tag p r) (advances p0 (c :: r)).
Proof using I_token I_tag.
  intros Hp. unfold emit_tag. eapply ends_bind; [by apply emit_current_ends|]. intros p' [Hp' Hr']. apply ends_ok.
  split; [done|]. split; [by apply suffix_cons_r|]. cbn [fst snd]. simpl. rewrite Hr'. lia.
Qed.
Lemma read_one p p' c r : sound p' → ends (Ok (p', r)) (advances p (c :: r)).
Proof.
  intros Hp. apply ends_ok. split; [done|]. split; [by apply suffix_cons_r|]. cbn [fst snd]. simpl.
  assert (rank (ts p') <= 2)%nat by (by destruct (ts p'); simpl; lia). lia.
Qed.
Lemma read_none p p' c r : sound p' → (rank (ts p') < rank (ts p))%nat → ends (Ok (p', c :: r)) (advances p (c :: r)).
Proof. intros Hp Hr. apply ends_ok. split; [done|]. split; [done|]. cbn [fst snd]. lia. Qed.

Lemma decode_fits s : fits s → ends (h5_decode_ref s) (λ _, True).
Proof.
  intros Hf. specialize (Hf 0%nat (length s)). rewrite drop_0, take_ge in Hf by done.
  destruct s as [|c s]; [by eexists|]. simpl in Hf. case_decide as Hc.
  - destruct (h5_decode_ref (c :: s)); [by eexists|done].
  - unfold h5_decode_ref. simpl. rewrite decide_False by done. by eexists.
Qed.

Lemma read_many p p' c r k : sound p' → (0 < k)%nat → ends (Ok (p', drop k (c :: r))) (advances p (c :: r)).
Proof.
  intros Hp Hk. apply ends_ok. split; [done|]. cbn [fst snd]. split; [eexists; symmetry; apply take_drop|].
  assert (rank (ts p') <= 2)%nat by (by destruct (ts p'); simpl; lia). rewrite length_drop. simpl. lia.
Qed.

Lemma value_byte_ends p c r : sound p → fits (c :: r) → ends (value_byte p c r) (advances p (c :: r)).
Proof.
  intros Hp Hf. unfold value_byte. case_decide; [|by apply read_one].
  eapply ends_bind; [by apply decode_fits|]. intros [used out] _. case_decide; [by apply read_many|by apply read_one].
Qed.

Lemma data_ends p c r : sound p → fits (c :: r) → rank (ts p) = 0%nat → ends (data p c r) (advances p (c :: r)).
Proof using I_token.
  intros Hp Hf Hr. unfold data. case_decide as H38.
  - eapply ends_bind; [by apply decode_fits|]. intros [used out] _.
    case_decide; (eapply ends_bind; [by apply emit_char_ends|]; intros p' [Hp' Ht]); [by apply read_many|by apply read_one].
  - case_decide as H60; [by apply read_one|]. destruct (scan _ _ _) as [text r'] eqn:E.
    eapply ends_bind; [by apply emit_char_ends|]. intros p' [Hp' Ht].
    assert (text ≠ []) as Hne.
    { intros ->. simpl in E. rewrite bool_decide_eq_false_2 in E by naive_solver. simpl in E.
      destruct (scan _ (length r) r). congruence. }
    apply scan_split in E as (E&_&_). replace r' with (drop (length text) (c :: r)) by (rewrite E; by apply drop_app_length).
    apply read_many; [done|]. destruct text; simpl; [done|lia].
Qed.

Lemma tag_open_ends p c r : sound p → rank (ts p) = 1%nat → ends (tag_open p c r) (advances p (c :: r)).
Proof using I_token.
  intros Hp Hr. unfold tag_open. repeat (case_decide; [by apply read_one|]). destruct (c_isalpha c); [by apply read_one|].
  case_decide; [by apply read_one|]. eapply ends_bind; [by apply emit_char_ends|]. intros p' [Hp' Ht].
  apply read_none; [done|]. simpl. lia.
Qed.

Lemma markup_decl_ends p c r : sound p → rank (ts p) = 1%nat → ends (markup_decl_open p c r) (advances p (c :: r)).
Proof.
  intros Hp Hr. unfold markup_decl_open. destruct (_ && _); [by apply (read_many p _ c r 2); [|lia]|].
  case_decide; [by apply read_one|]. apply read_none; [done|]. simpl. lia.
Qed.
Lemma comment_ends p c r : sound p → ends (comment p c r) (advances p (c :: r)).
Proof using I_token I_tag.
  intros Hp. unfold comment. destruct (_ && _); [|by apply read_one].
  destruct (emit_tag_ends p (finish_comment TT_COMMENT p) c (drop 2 r) Hp) as ([p' s']&E&Hs&Hsf&Hlt).
  exists (p', s'). split; [exact E|]. split; [exact Hs|]. unfold emit_tag in E.
  destruct (emit_current _) as [p1|] eqn:E1; [|done]. injection E as -> <-.
  destruct (emit_current_ends (set_ts TS_DATA (finish_comment TT_COMMENT p)) Hp eq_refl) as (p2&E2&_&Hr). rewrite E1 in E2. injection E2 as ->.
  cbn [fst snd]. rewrite Hr. split; [apply suffix_cons_r; eexists; symmetry; apply take_drop|]. rewrite length_drop. simpl. lia.
Qed.

(** A handler that tests bytes, then reads or passes the byte on. *)
Ltac read_state Ets := repeat match goal with |- ends (if ?b then _ else _) _ => destruct b end;
  first [by apply read_one | by apply emit_tag_ends | apply read_none; [done|cbn; rewrite Ets; simpl; lia] | by apply value_byte_ends].

Lemma tok_step_ends p c r : sound p → fits (c :: r) → ends (tok_step p c r) (advances p (c :: r)).
Proof using I_token I_tag.
  intros Hp Hf. unfold tok_step. destruct (ts p) eqn:Ets.
  - apply data_ends; [done|done|by rewrite Ets].
  - apply tag_open_ends; [done|by rewrite Ets].
  - unfold end_tag_open. read_state Ets.
  - unfold tag_name. read_state Ets.
  - unfold before_attr_name. read_state Ets.
  - unfold attr_name. read_state Ets.
  - unfold after_attr_name. read_state Ets.
  - unfold before_attr_value. read_state Ets.
  - unfold attr_value_quoted. read_state Ets.
  - unfold attr_value_quoted. read_state Ets.
  - unfold attr_value_uq. read_state Ets.
  - unfold after_attr_value. read_state Ets.
  - unfold self_closing. read_state Ets.
  - unfold bogus_comment. read_state Ets.
  - apply markup_decl_ends; [done|by rewrite Ets].
  - by apply comment_ends.
  - unfold doctype. read_state Ets.
  - apply raw_text_ends; [done|done|done|by rewrite Ets].
  - apply raw_text_ends; [done|done|done|by rewrite Ets].
  - apply ends_ok. split; [done|]. cbn [fst snd]. split; [apply suffix_nil|]. rewrite Ets. simpl. lia.
Qed.

Lemma run_ends fuel : ∀ p s, sound p → fits s → (3 * length s + rank (ts p) < fuel)%nat → ends (run_states fuel p s) sound.
Proof using I_token I_tag.
  induction fuel as [|fuel IH]; intros p [|c r] Hp Hf Hl; cbn [run_states]; try (by apply ends_ok); [lia|].
  eapply ends_bind; [by apply tok_step_ends|]. intros [p' s'] (Hs&Hsf&Hlt). cbn [fst snd] in *.
  apply IH; [done|by eapply fits_suffix|lia].
Qed.
Lemma tokenize_ends p s : sound p → fits s → ends (tokenize_run p s) sound.
Proof using I_token I_tag.
  intros Hp Hf. unfold tokenize_run. destruct (decide (length s = 0)%nat) as [E|E].
  { destruct s; [by apply ends_ok|done]. }
  apply run_ends; [done|done|]. assert (rank (ts p) <= 2)%nat by (by destruct (ts p); simpl; lia). lia.
Qed.
End run_ends.
