(* ===== verification/Html5.v ===== *)
(** * HTML parser (src/src/mini_html5.c)

    The streaming interface over the tokenizer and tree construction: what is
    carried from one chunk to the next, and [mini_html5_parse]. *)

From stdpp Require Import gmap list.
From S2P Require Import Prelude CString Dom Html5Ref Html5Tree Html5Tok.
Open Scope Z_scope.

#[export] Instance tree_sink : Sink tree := {|
  sink_token := process_token;
  sink_tag := λ p, (let* x := node (td p) (current_node p) in Ok (tag x))%c |}.

Record MiniHtml5Parser := Parser { tk : tokenizer tree; carry : bytes }.

(** The length of the end of the text from its last byte [c], 0 if there is
    none after the last [stop]; the text is given backwards. *)
Fixpoint back_to (c : Z) (stop : option Z) (r : bytes) (n : nat) : nat :=
  match r with
  | [] => 0
  | x :: r => if decide (x = c) then S n else if decide (stop = Some x) then 0 else back_to c stop r (S n)
  end.
Fixpoint back_to_close (r : bytes) (n : nat) : nat :=
  match r with
  | [] => 0
  | x :: r => if bool_decide (x = 47) && bool_decide (head r = Some 60) then S (S n) else back_to_close r (S n)
  end.
Definition carryover_tail (p : tokenizer tree) (buf : bytes) : nat :=
  match ts p with
  | TS_DATA | TS_RCDATA => back_to 38 (Some 59) (rev buf) 0
  | TS_RAWTEXT => back_to_close (rev buf) 0
  | TS_EOF => 0
  | _ => back_to 60 None (rev buf) 0
  end.

Definition mini_html5_init (d : dom) (root : nat) (body : option nat) : res MiniHtml5Parser :=
  (let* p := init_parser (init_tree d root body) in Ok (Parser (Tk TS_DATA [] tok_reset p) []))%c.

Definition mini_html5_feed (p : MiniHtml5Parser) (data : bytes) : res MiniHtml5Parser :=
  match data with
  | [] => Ok p
  | _ :: _ =>
    let work := carry p ++ data in
    (let* t := tokenize_run (tk p) work in
     let co := carryover_tail t work in
     Ok (Parser t (drop (length work - co) work)))%c
  end.

Definition mini_html5_finish (p : MiniHtml5Parser) : res MiniHtml5Parser :=
  match carry p with
  | [] => Ok p
  | _ :: _ => (let* t := tokenize_run (tk p) (cstr (carry p)) in Ok (Parser t []))%c
  end.

(** The document after the parse: the store and the body. *)
Definition mini_html5_parse (d : dom) (root : nat) (body : option nat) (html : option bytes) : res (dom * option nat) :=
  (let* p := mini_html5_init d root body in
   let* p := match html with Some s => mini_html5_feed p (cstr s) | None => Ok p end in
   let* p := mini_html5_finish p in
   let t := sink (tk p) in
   Ok (td t, Html5Tree.body t))%c.

(** ** Printing a tree back, for the examples *)

Fixpoint show (fuel : nat) (d : dom) (n : nat) : bytes :=
  match fuel, nodes d !! n with
  | S fuel, Some x =>
    let kids := match children d n with Ok l => mjoin (show fuel d <$> l) | UB => str "?" end in
    match ntype x with
    | MN_TEXT_NODE => default [] (text x)
    | MN_COMMENT_NODE => str "<!--" ++ default [] (text x) ++ str "-->"
    | _ => str "<" ++ default [] (tag x) ++ mjoin ((λ '(k, v), str " " ++ k ++ str "=" ++ default [] v) <$> attrs x) ++ str ">"
           ++ default [] (text x) ++ kids ++ str "</" ++ default [] (tag x) ++ str ">"
    end
  | _, _ => str "?"
  end.
Definition parse_show (html : string) : res bytes :=
  (let* (d, r, b) := mini_doc_create no_dom in
   let* (d, b) := mini_html5_parse d r (Some b) (Some (str html)) in
   Ok (match b with Some b => show 20 d b | None => [] end))%c.

Example parse_plain : parse_show "<div id=a class='b c'>x<p>y<p>z</div><!--k-->w"
  = Ok (str "<body><div class=b c id=a>x<p>y</p><p>z</p></div><!--k-->w</body>").
Proof. vm_compute. reflexivity. Qed.

(** ** What the parser gets wrong *)

(** An ampersand and all after it is carried over although it was read. *)
Example amp_read_twice : parse_show "a & b" = Ok (str "<body>a & b& b</body>").
Proof. vm_compute. reflexivity. Qed.

(** The clone of the adoption agency takes the block it is put into: [x] is lost. *)
Example formatting_loses_text : parse_show "<b><i><u><div>x</b>y" = Ok (str "<body><b><i></i></b><i><b><u></u>y</b></i></body>").
Proof. vm_compute. reflexivity. Qed.

(** The text of a table cell is put before the table. *)
Example cell_text_fostered : parse_show "<table><tr><td>a</td></tr></table>b"
  = Ok (str "<body>a<table><tr><td></td></tr></table>b</body>").
Proof. vm_compute. reflexivity. Qed.

(** A list item does not end the one before it. *)
Example items_nest : parse_show "<ul><li>1<li>2</ul>" = Ok (str "<body><ul><li>1<li>2</li></li></ul></body>").
Proof. vm_compute. reflexivity. Qed.

(** A block start tag closes the list item it stands in. *)
Example block_leaves_item : parse_show "<ul><li><p>x</p></li></ul>" = Ok (str "<body><ul><li></li><p>x</p></ul></body>").
Proof. vm_compute. reflexivity. Qed.

(** The end tag of an option closes every open element: what follows is not in the body. *)
Example option_ends_body : parse_show "<select><option>a</option></select>b" = Ok (str "<body><select><option>a</option></select></body>").
Proof. vm_compute. reflexivity. Qed.

(** An unfinished RCDATA element loses its text. *)
Example unfinished_title : parse_show "<div><textarea>abc" = Ok (str "<body><div><textarea></textarea></div></body>").
Proof. vm_compute. reflexivity. Qed.

(** 1019 bytes, two references of three bytes and a lone ampersand: the
    terminator of [outbuf] is written past its end. *)
Example title_overrun :
  (let* (d, r, b) := mini_doc_create no_dom in
   mini_html5_parse d r (Some b) (Some (str "<title>" ++ replicate (Z.to_nat 1019) 97 ++ str "&ne;&ne;& </title>")))%c = UB.
Proof. vm_compute. reflexivity. Qed.

(** In two chunks the tag is read from its [<] again, in the middle of its name. *)
Example chunked_tag :
  (let* (d, r, b) := mini_doc_create no_dom in
   let* p := mini_html5_init d r (Some b) in
   let* p := mini_html5_feed p (str "<di") in
   let* p := mini_html5_feed p (str "v>x</div>") in
   let* p := mini_html5_finish p in
   let t := sink (tk p) in
   Ok (show 20 (td t) (default 0%nat (Html5Tree.body t))))%c = Ok (str "<body><di<div>x</di<div></body>").
Proof. vm_compute. reflexivity. Qed.
