(* ===== verification/Html5Inv.v ===== *)
(** * Any input leaves a well linked document (src/src/mini_html5.c)

    The invariant of tree construction, and that every insertion mode keeps it
    and ends; with it the tokenizer reads any input to its end, and so does the
    whole parser. *)

From stdpp Require Import gmap list.
From S2P Require Import Prelude CString Dom Html5Ref Html5Tree Html5Tok Html5.
Open Scope Z_scope.

(** ** New nodes and changes of data *)

Definition elem (d : dom) (n : nat) : Prop := ∃ x, nodes d !! n = Some x ∧ ntype x = MN_ELEMENT_NODE.
Definition solid (d : dom) (n : nat) : Prop := ∃ x, nodes d !! n = Some x ∧ ntype x ≠ MN_DOCUMENT_FRAGMENT_NODE.
Definition fresh_ids (d : dom) : Prop := ∀ n, is_Some (nodes d !! n) → (n < next_id d)%nat.
Definition texts_ok (d : dom) : Prop := ∀ n x, nodes d !! n = Some x → ntype x = MN_TEXT_NODE → text x ≠ None.

(** Only elements are called html or body. *)
Definition names_ok (d : dom) : Prop := ∀ n x t, nodes d !! n = Some x → tag x = Some t → ntype x ≠ MN_ELEMENT_NODE →
  h5_ci t (str "html") = false ∧ h5_ci t (str "body") = false.

Lemma elem_solid d n : elem d n → solid d n.
Proof. intros (x&Hx&Ht). exists x. split; [done|congruence]. Qed.
Lemma solid_some d n : solid d n → is_Some (nodes d !! n).
Proof. intros (x&Hx&_). by exists x. Qed.
Lemma elem_some d n : elem d n → is_Some (nodes d !! n).
Proof. intros (x&Hx&_). by exists x. Qed.

(** [node] on a node that is there. *)
Lemma ends_node {A} d n (k : MiniNode → res A) Q : is_Some (nodes d !! n) → (∀ x, nodes d !! n = Some x → ends (k x) Q) →
  ends (let* x := node d n in k x)%c Q.
Proof. intros [x Hx] Hk. unfold node. rewrite Hx. cbn [res_bind]. by apply Hk. Qed.

Lemma linked_alloc d K x : linked d K → fresh_ids d → lk x = no_links → linked (alloc x d).1 K.
Proof.
  intros HL Hf Hx. assert (nodes d !! next_id d = None) as Hn.
  { destruct (nodes d !! next_id d) as [y|] eqn:E; [|done]. specialize (Hf (next_id d) ltac:(by eexists)). lia. }
  pose proof (lk_dom _ _ HL _ Hn) as Hk. unfold alloc. cbn [fst nodes]. split; cbn [nodes].
  - intros p y. destruct (decide (p = next_id d)) as [->|].
    + rewrite lookup_insert_eq. intros [= <-]. by rewrite Hx, Hk.
    + rewrite lookup_insert_ne by done. apply HL.
  - intros p i c Hi. destruct (lk_kid _ _ HL _ _ _ Hi) as (y&Hy&H). exists y. split; [|done].
    rewrite lookup_insert_ne; [done|]. intros <-. congruence.
  - intros c y p. destruct (decide (c = next_id d)) as [->|].
    + rewrite lookup_insert_eq. intros [= <-]. by rewrite Hx.
    + rewrite lookup_insert_ne by done. apply HL.
  - intros p [Hp _]%lookup_insert_None. by apply (lk_dom _ _ HL).
  - apply HL.
Qed.

(** A write that keeps the links and the type. *)
Lemma linked_put d K n x y : linked d K → nodes d !! n = Some x → lk y = lk x → ntype y = ntype x →
  linked (with_nodes (<[n := y]> (nodes d)) d) K.
Proof.
  intros HL Hx Hlk Hty. split; cbn [nodes with_nodes].
  - intros p z. destruct (decide (p = n)) as [->|]; [rewrite lookup_insert_eq; intros [= <-]; rewrite Hlk; by apply HL|].
    rewrite lookup_insert_ne by done. apply HL.
  - intros p i c Hi. destruct (lk_kid _ _ HL _ _ _ Hi) as (z&Hz&H). destruct (decide (c = n)) as [->|].
    + exists y. rewrite lookup_insert_eq. split; [done|]. rewrite Hlk. by simplify_eq.
    + exists z. by rewrite lookup_insert_ne.
  - intros c z p. destruct (decide (c = n)) as [->|]; [rewrite lookup_insert_eq; intros [= <-]; rewrite Hlk, Hty; by apply HL|].
    rewrite lookup_insert_ne by done. apply HL.
  - intros p [Hp _]%lookup_insert_None. by apply (lk_dom _ _ HL).
  - apply HL.
Qed.

Lemma same_data_elem d d' n : same_data d d' → elem d n → elem d' n.
Proof.
  intros HS (x&Hx&Ht). destruct (same_data_node _ _ _ _ HS Hx) as (y&Hy&E). exists y. split; [done|].
  rewrite <- Ht. exact (f_equal ntype E).
Qed.
Lemma same_data_solid d d' n : same_data d d' → solid d n → solid d' n.
Proof.
  intros HS (x&Hx&Ht). destruct (same_data_node _ _ _ _ HS Hx) as (y&Hy&E). exists y. split; [done|].
  by rewrite (f_equal ntype E : ntype y = ntype x).
Qed.
Lemma same_data_back d d' n y : same_data d d' → nodes d' !! n = Some y → ∃ x, nodes d !! n = Some x ∧ ntype x = ntype y ∧ text x = text y ∧ tag x = tag y.
Proof.
  intros HS Hy. destruct (proj1 (same_data_some _ _ n HS) ltac:(by eexists)) as [x Hx].
  destruct (same_data_node _ _ _ _ HS Hx) as (y'&Hy'&E). simplify_eq. by exists x.
Qed.
Lemma same_data_texts d d' : same_data d d' → texts_ok d → texts_ok d'.
Proof. intros HS H n y Hy Ht. destruct (same_data_back _ _ _ _ HS Hy) as (x&Hx&E1&E2&_). rewrite <- E2. apply (H n x); [done|congruence]. Qed.
Lemma same_data_names d d' : same_data d d' → names_ok d → names_ok d'.
Proof. intros HS H n y t Hy Ht Hn. destruct (same_data_back _ _ _ _ HS Hy) as (x&Hx&E1&_&E3). apply (H n x t); congruence. Qed.
Lemma same_data_fresh d d' : same_data d d' → fresh_ids d → fresh_ids d'.
Proof. intros HS H n Hn. rewrite (proj1 (proj2 HS)). apply H. by apply (same_data_some _ _ _ HS). Qed.

(** ** The invariant *)

(** The modes a token can find: the parser starts in the body. *)
Definition live (m : H5Mode) : bool :=
  bool_decide (m ∈ [M_IN_BODY; M_IN_TABLE; M_IN_TABLE_BODY; M_IN_ROW; M_IN_CELL; M_AFTER_BODY; M_AFTER_AFTER_BODY]).

Create HintDb html.

(** The modes are a parameter: before the body is open the parser is in its
    first mode. *)
Section invariant.
Context (ok_mode : H5Mode → bool) (ok_live : ∀ m, live m = true → ok_mode m = true).
#[local] Set Default Proof Using "All".

Record inv (p : tree) (K : nat → list nat) : Prop := {
  i_linked : linked (td p) K;
  i_fresh : fresh_ids (td p);
  i_texts : texts_ok (td p);
  i_names : names_ok (td p);
  i_kids : ∀ q c, c ∈ K q → solid (td p) c;
  i_mode : ok_mode (mode p) = true;
  i_root : is_Some (nodes (td p) !! root p);
  i_open : Forall (elem (td p)) (open p);
  i_afe : Forall (λ e, match e with Some n => elem (td p) n | None => True end) (afe p);
  i_head : match head_element p with Some h => is_Some (nodes (td p) !! h) | None => True end;
  i_body : match body p with Some b => elem (td p) b | None => True end;
  i_foster : match table_foster p with Some t => elem (td p) t ∧ ∃ q, t ∈ K q | None => True end }.
Definition good (p : tree) : Prop := ∃ K, inv p K.

(** The nodes of [p] are still there in [p']. *)
Definition grows (p p' : tree) : Prop :=
  (∀ n, elem (td p) n → elem (td p') n) ∧ (∀ n, is_Some (nodes (td p) !! n) → is_Some (nodes (td p') !! n)).
Lemma grows_refl p : grows p p.
Proof. by split. Qed.
Lemma grows_trans p1 p2 p3 : grows p1 p2 → grows p2 p3 → grows p1 p3.
Proof. intros [H1 H2] [H3 H4]. split; auto. Qed.
Definition next (p p' : tree) : Prop := good p' ∧ grows p p'.

Lemma current_elem p : good p → is_Some (nodes (td p) !! current_node p).
Proof.
  intros [K H]. unfold current_node. destruct (last (open p)) as [n|] eqn:E; [|apply H].
  apply elem_some. pose proof (i_open _ _ H) as Ho. rewrite Forall_forall in Ho. apply Ho. by apply last_Some_elem_of.
Qed.

(** A new store under the same bookkeeping. *)
Lemma inv_dom p d K K' : inv p K → linked d K' → fresh_ids d → texts_ok d → names_ok d →
  (∀ n, elem (td p) n → elem d n) → (∀ n, is_Some (nodes (td p) !! n) → is_Some (nodes d !! n)) →
  (∀ t q, t ∈ K q → ∃ q', t ∈ K' q') → (∀ q c, c ∈ K' q → solid d c) → inv (set_td d p) K'.
Proof.
  intros [H1 H2 H3 Hn H0 Hm H4 H5 H6 H7 H8 H9] HL Hf Ht Hn' He Hs Hk Hk'. split; cbn; auto.
  - eapply Forall_impl; [exact H5|]. auto.
  - eapply Forall_impl; [exact H6|]. intros [n|]; auto.
  - destruct (head_element p); auto.
  - destruct (body p); auto.
  - destruct (table_foster p); [|done]. destruct H9 as [? (q&Hq)]. split; [auto|]. eapply Hk, Hq.
Qed.

Lemma inv_same p d K K' : inv p K → linked d K' → same_data (td p) d → (∀ t q, t ∈ K q → ∃ q', t ∈ K' q') →
  (∀ t q, t ∈ K' q → (∃ q', t ∈ K q') ∨ solid (td p) t) → inv (set_td d p) K' ∧ grows p (set_td d p).
Proof.
  intros H HL HS Hk Hk'. assert (∀ n, solid (td p) n → solid d n) by (intros n; by apply same_data_solid). assert (∀ n, elem (td p) n → elem d n) by (intros n; by apply same_data_elem).
  assert (∀ n, is_Some (nodes (td p) !! n) → is_Some (nodes d !! n)) by (intros n; by apply (same_data_some _ _ _ HS)).
  split; [|by split]. eapply inv_dom; eauto; [eapply same_data_fresh; [|apply H]|eapply same_data_texts; [|apply H]|eapply same_data_names; [|apply H]|]; eauto.
  intros q c Hc. destruct (Hk' _ _ Hc) as [(q'&Hq)|]; eauto using i_kids.
Qed.

Lemma create_keeps p K mk x : inv p K → mk (td p) = alloc x (td p) → lk x = no_links → (ntype x = MN_TEXT_NODE → text x ≠ None) →
  tag x = None ∨ ntype x = MN_ELEMENT_NODE →
  ∃ p' n, create p mk = (p', n) ∧ grows p p' ∧ inv p' K ∧ nodes (td p') !! n = Some x ∧ ∀ q, n ∉ K q.
Proof.
  intros H E Hx Ht Hnm. unfold create. rewrite E. unfold alloc. eexists _, _. split; [done|].
  assert (nodes (td p) !! next_id (td p) = None) as Hn.
  { destruct (nodes (td p) !! next_id (td p)) as [y|] eqn:Ey; [|done]. pose proof (i_fresh _ _ H (next_id (td p)) ltac:(by eexists)). lia. }
  assert (∀ n y, nodes (td p) !! n = Some y → <[next_id (td p) := x]> (nodes (td p)) !! n = Some y) as Hold.
  { intros n y Hy. rewrite lookup_insert_ne; [done|]. intros <-. congruence. }
  split; [split|split; [eapply inv_dom; [exact H|..]|split; [cbn; by rewrite lookup_insert_eq|]]].
  - intros n (y&Hy&?). exists y. split; [by apply Hold|done].
  - intros n [y Hy]. exists y. by apply Hold.
  - apply (linked_alloc _ _ x); [apply H..|done].
  - intros n [y Hy]. cbn in *. destruct (decide (n = next_id (td p))) as [->|]; [lia|].
    rewrite lookup_insert_ne in Hy by done. specialize (i_fresh _ _ H n ltac:(by eexists)). lia.
  - intros n y. cbn. destruct (decide (n = next_id (td p))) as [->|].
    + rewrite lookup_insert_eq. by intros [= <-].
    + rewrite lookup_insert_ne by done. apply (i_texts _ _ H).
  - intros n y t. cbn. destruct (decide (n = next_id (td p))) as [->|].
    + rewrite lookup_insert_eq. intros [= <-] E1 E2. destruct Hnm; congruence.
    + rewrite lookup_insert_ne by done. apply (i_names _ _ H).
  - intros n (y&Hy&?). exists y. split; [by apply Hold|done].
  - intros n [y Hy]. exists y. by apply Hold.
  - eauto.
  - intros q c Hc. destruct (i_kids _ _ H _ _ Hc) as (y&Hy&?). exists y. split; [by apply Hold|done].
  - intros q Hq. destruct (i_kids _ _ H _ _ Hq) as (y&Hy&_). congruence.
Qed.

(** The lists of children after [c] has moved to the end of [r]. *)
Definition moved (c r : nat) (K : nat → list nat) (m : nat) : list nat :=
  if decide (m = r) then without c (K m) ++ [c] else without c (K m).
Lemma moved_kept c r K t q : t ∈ K q → ∃ q', t ∈ moved c r K q'.
Proof.
  intros Ht. unfold moved. destruct (decide (t = c)) as [->|].
  - exists r. rewrite decide_True by done. rewrite elem_of_app, list_elem_of_singleton. by right.
  - exists q. destruct (decide (q = r)); rewrite ?elem_of_app, elem_without; auto.
Qed.
Lemma moved_back c r K t q : t ∈ moved c r K q → t = c ∨ t ∈ K q.
Proof.
  unfold moved. destruct (decide (q = r)); rewrite ?elem_of_app, elem_without, ?list_elem_of_singleton; tauto.
Qed.

Lemma append_next p q c : good p → solid (td p) c → is_Some (nodes (td p) !! q) → ends (append p q c) (next p).
Proof.
  intros [K H] (x&Hx&Hf) Hq. unfold append.
  destruct (append_child_spec _ _ (i_linked _ _ H) q c x Hx Hf Hq) as (d'&E&HL&HS&_). rewrite E. cbn [res_bind].
  apply ends_ok. destruct (inv_same p d' K _ H HL HS) as [Hi Hg]; [..|by split; [eexists|]].
  - by apply moved_kept.
  - intros t r [->|Ht]%moved_back; [right; by exists x|left; by exists r].
Qed.

(** Removing a child from its parent and appending it elsewhere; in between the
    child has no parent. *)
Lemma move_next p K q r c : inv p K → c ∈ K q → is_Some (nodes (td p) !! r) →
  ends (let* p := remove_from p q c in append p r c)%c (λ p', grows p p' ∧ inv p' (moved c r K)).
Proof.
  intros H Hc Hr. destruct (i_kids _ _ H _ _ Hc) as (x&Hx&Hf).
  unfold remove_from. destruct (remove_child_in _ _ (i_linked _ _ H) q c Hc) as (d1&E1&HL1&HS1). rewrite E1. cbn [res_bind].
  unfold append. cbn [td set_td]. destruct (same_data_node _ _ _ _ HS1 Hx) as (x1&Hx1&Ex1).
  assert (ntype x1 ≠ MN_DOCUMENT_FRAGMENT_NODE) as Hf1.
  { by rewrite (f_equal ntype Ex1 : ntype x1 = ntype x). }
  destruct (append_child_spec _ _ HL1 r c x1 Hx1 Hf1) as (d2&E2&HL2&HS2&_).
  { by apply (same_data_some _ _ _ HS1). }
  rewrite E2. cbn [res_bind]. apply ends_ok.
  assert (linked d2 (moved c r K)) as HL'.
  { eapply linked_ext; [|exact HL2]. intros m. unfold moved. assert (without c (without c (K m)) = without c (K m)) as ->.
    { apply without_id. by intros [? _]%elem_without. } done. }
  destruct (inv_same p d2 K _ H HL' (same_data_trans _ _ _ HS1 HS2)) as [Hi Hg]; [..|by split].
  - by apply moved_kept.
  - intros t m [->|Ht]%moved_back; left; by eexists.
Qed.

Lemma next_trans p p1 p2 : grows p p1 → next p1 p2 → next p p2.
Proof. intros Hg [H1 H2]. split; [done|by eapply grows_trans]. Qed.
Lemma next_from p p1 m : grows p p1 → ends m (next p1) → ends m (next p).
Proof. intros Hg H. eapply ends_weaken; [exact H|]. intros p2. by apply next_trans. Qed.
Lemma next_refl p : good p → next p p.
Proof. intros H. split; [done|apply grows_refl]. Qed.

Lemma move_all_next fuel : ∀ p K from to rest, inv p K → K from = rest → from ≠ to → is_Some (nodes (td p) !! to) →
  (length rest < fuel)%nat → ends (move_all fuel p from to (head rest)) (next p).
Proof.
  induction fuel as [|fuel IH]; intros p K from to rest H Hk Hne Hto Hf; [lia|].
  destruct rest as [|c rest]; cbn [head move_all]; [apply ends_ok, next_refl; by exists K|].
  assert (K from !! 0%nat = Some c) as H0 by by rewrite Hk.
  destruct (lk_kid _ _ (i_linked _ _ H) _ _ _ H0) as (x&Hx&_&_&Hn). rewrite Hk in Hn.
  apply ends_node; [by eexists|]. intros x' Hx'. simplify_eq.
  eapply ends_bind2; [apply (move_next p K from to c H); [by eapply list_elem_of_lookup_2|done]|].
  cbv beta. intros p' [Hg Hi]. rewrite Hn. change (lookup 1%nat (c :: rest)) with (rest !! 0%nat). rewrite <- head_lookup.
  eapply ends_weaken; [apply (IH p' _ from to rest Hi)|].
  - unfold moved. rewrite decide_False, Hk by done. rewrite without_cons_eq, without_id; [done|].
    pose proof (lk_nodup _ _ (i_linked _ _ H) from) as Hnd. rewrite Hk in Hnd. by apply NoDup_cons in Hnd as [? _].
  - done.
  - by apply Hg.
  - simpl in Hf. lia.
  - intros p2. by apply next_trans.
Qed.

Lemma move_children_next p from to : good p → is_Some (nodes (td p) !! from) → from ≠ to → is_Some (nodes (td p) !! to) →
  ends (move_children_to p from to) (next p).
Proof.
  intros [K H] Hf Hne Ht. unfold move_children_to. apply ends_node; [done|]. intros x Hx.
  destruct (lk_ends _ _ (i_linked _ _ H) _ _ Hx) as [-> _]. apply (move_all_next _ p K); try done.
  apply nodup_size; [apply (lk_nodup _ _ (i_linked _ _ H))|]. intros c Hc. by eapply solid_some, i_kids.
Qed.

Lemma clone_next p n : good p → elem (td p) n →
  ∃ d c, mini_node_clone (td p) (Some n) false = Ok (d, Some c) ∧ next p (set_td d p) ∧ elem d c ∧ c ≠ n.
Proof.
  intros Hp He. pose proof He as (x&Hx&Ht). destruct Hp as [K H]. destruct (create_keeps p K (alloc (copy_node x)) (copy_node x) H eq_refl eq_refl) as (p'&c&E&Hg&Hi&Hc&Hf).
  { cbn. congruence. } { by right. }
  unfold create in E. destruct (alloc (copy_node x) (td p)) as [d c'] eqn:Ea. injection E as <- <-.
  exists d, c'. split; [|split; [by split; [exists K|]|split; [by exists (copy_node x)|]]].
  unfold mini_node_clone, rounds. cbn [clone]. unfold node. rewrite Hx. cbn [res_bind]. by rewrite Ea.
  - unfold alloc in Ea. injection Ea as _ <-. intros E. pose proof (i_fresh _ _ H n (elem_some _ _ He)). lia.
Qed.

(** A write to the data of one node. *)
Lemma put_keeps p K n f : inv p K → is_Some (nodes (td p) !! n) →
  (∀ x, nodes (td p) !! n = Some x → lk (f x) = lk x ∧ ntype (f x) = ntype x ∧ tag (f x) = tag x ∧ (text x ≠ None → text (f x) ≠ None)) →
  ∃ d, put (td p) n f = Ok d ∧ inv (set_td d p) K ∧ grows p (set_td d p).
Proof.
  intros H [x Hx] Hf. destruct (Hf x Hx) as (Hl&Ht&Htg&Htx). unfold put. rewrite Hx. eexists. split; [done|].
  assert (∀ m y, nodes (td p) !! m = Some y → ∃ z, <[n := f x]> (nodes (td p)) !! m = Some z ∧ ntype z = ntype y ∧ (text y ≠ None → text z ≠ None)) as Hold.
  { intros m y Hy. destruct (decide (m = n)) as [->|].
    - exists (f x). rewrite lookup_insert_eq. simplify_eq. auto.
    - exists y. by rewrite lookup_insert_ne. }
  assert (∀ m z, <[n := f x]> (nodes (td p)) !! m = Some z → ∃ y, nodes (td p) !! m = Some y ∧ ntype y = ntype z ∧ tag y = tag z ∧ (text y ≠ None → text z ≠ None)) as Hback.
  { intros m z. destruct (decide (m = n)) as [->|].
    - rewrite lookup_insert_eq. intros [= <-]. exists x. auto.
    - rewrite lookup_insert_ne by done. intros Hz. by exists z. }
  assert (grows p (set_td (with_nodes (<[n := f x]> (nodes (td p))) (td p)) p)) as Hg.
  { split; cbn.
    - intros m (y&Hy&Hty). destruct (Hold m y Hy) as (z&Hz&Hzt&_). exists z. split; [done|congruence].
    - intros m [y Hy]. destruct (Hold m y Hy) as (z&Hz&_). by exists z. }
  split; [|done]. eapply inv_dom; [exact H|..]; try apply Hg; eauto.
  - by apply (linked_put _ _ _ x); [apply H|..].
  - intros m [z Hz]. destruct (Hback m z Hz) as (y&Hy&_). apply (i_fresh _ _ H m). by exists y.
  - intros m z Hz Hzt. destruct (Hback m z Hz) as (y&Hy&E&_&Hzx). apply Hzx. apply (i_texts _ _ H m); [done|congruence].
  - intros m z t Hz Ht' Hzt. destruct (Hback m z Hz) as (y&Hy&E1&E2&_). apply (i_names _ _ H m y t); congruence.
  - intros q c Hc. destruct (i_kids _ _ H _ _ Hc) as (y&Hy&Hyt). destruct (Hold c y Hy) as (z&Hz&Hzt&_). exists z. split; [done|congruence].
Qed.

Lemma put_next p n f : good p → is_Some (nodes (td p) !! n) →
  (∀ x, nodes (td p) !! n = Some x → lk (f x) = lk x ∧ ntype (f x) = ntype x ∧ tag (f x) = tag x ∧ (text x ≠ None → text (f x) ≠ None)) →
  ends (let* d := put (td p) n f in Ok (set_td d p))%c (next p).
Proof. intros [K H] Hn Hf. destruct (put_keeps p K n f H Hn Hf) as (d&->&Hi&Hg). apply ends_ok. by split; [exists K|]. Qed.

Lemma set_attributes_keeps l : ∀ p K n, inv p K → is_Some (nodes (td p) !! n) →
  ∃ d, set_attributes (td p) n l = Ok d ∧ inv (set_td d p) K ∧ grows p (set_td d p).
Proof.
  induction l as [|[k v] l IH]; intros p K n H Hn; [exists (td p); by destruct p|].
  cbn [set_attributes]. unfold mini_node_set_attribute. pose proof Hn as [x Hx].
  unfold node. rewrite Hx. cbn [res_bind].
  destruct (put_keeps p K n (set_attrs (attr_set (attrs x) k (Some v))) H Hn) as (d1&E1&H1&Hg1); [done|].
  rewrite E1. cbn [res_bind]. set (p1 := set_td (notify_mutation (AttrModified n k (Some v)) d1) p).
  assert (inv p1 K) as Hp1.
  { destruct H1 as [HL]. split; auto. by eapply linked_nodes; [|exact HL]. }
  destruct (IH p1 K n Hp1) as (d2&E2&H2&Hg2); [apply (proj2 Hg1), Hn|].
  exists d2. split; [exact E2|]. split; [exact H2|]. eapply (grows_trans _ (set_td d1 p)); [exact Hg1|exact Hg2].
Qed.

(** ** Steps in sequence *)

Lemma seq_next (m : res tree) k p : ends m (next p) → (∀ p', good p' → grows p p' → ends (k p') (next p')) →
  ends (let* p' := m in k p')%c (next p).
Proof.
  intros Hm Hk. eapply ends_bind; [exact Hm|]. intros p' [Hp' Hg]. eapply ends_weaken; [by apply Hk|].
  intros p2. by apply next_trans.
Qed.
Lemma seq_any {A} (m : res A) k (p : tree) : ends m (λ _, True) → (∀ a, ends (k a) (next p)) → ends (let* a := m in k a)%c (next p).
Proof. intros Hm Hk. eapply ends_bind; [exact Hm|]. auto. Qed.
(** A new element with the tree it is in. *)
Definition next_elem (p : tree) (a : tree * nat) : Prop := next p a.1 ∧ elem (td a.1) a.2.
Lemma seq_elem (m : res (tree * nat)) k p : ends m (next_elem p) →
  (∀ p' n, good p' → grows p p' → elem (td p') n → ends (k (p', n)) (next p')) → ends (let* a := m in k a)%c (next p).
Proof.
  intros Hm Hk. eapply ends_bind; [exact Hm|]. intros [p' n] [[Hp' Hg] He]. eapply ends_weaken; [by apply Hk|].
  intros p2. by apply next_trans.
Qed.
Lemma next_if (b : bool) m1 m2 p : ends m1 (next p) → ends m2 (next p) → ends (if b then m1 else m2) (next p).
Proof. by destruct b. Qed.
Lemma next_ok p p' : next p p' → ends (Ok p') (next p).
Proof. apply ends_ok. Qed.

(** ** Bookkeeping *)

Lemma set_open_next p l : good p → Forall (elem (td p)) l → next p (set_open l p).
Proof. intros [K []] Hl. split; [|by split]. exists K. by split. Qed.
Lemma set_afe_next p l : good p → Forall (λ e, match e with Some n => elem (td p) n | None => True end) l → next p (set_afe l p).
Proof. intros [K []] Hl. split; [|by split]. exists K. by split. Qed.
Lemma set_mode_next p m : good p → ok_mode m = true → next p (set_mode m p).
Proof. intros [K []] Hm. split; [|by split]. exists K. by split. Qed.
Lemma set_tail_next p t : good p → next p (set_tail t p).
Proof. intros [K []]. split; [|by split]. exists K. by split. Qed.
Lemma set_head_next p h : good p → is_Some (nodes (td p) !! h) → next p (set_head (Some h) p).
Proof. intros [K []] Hh. split; [|by split]. exists K. by split. Qed.
Lemma set_body_next p b : good p → elem (td p) b → next p (set_body (Some b) p).
Proof. intros [K []] Hh. split; [|by split]. exists K. by split. Qed.
Lemma unset_foster_next p : good p → next p (set_foster None p).
Proof. intros [K []]. split; [|by split]. exists K. by split. Qed.

Lemma open_elems p : good p → Forall (elem (td p)) (open p).
Proof. intros [K H]. apply H. Qed.
Lemma afe_elems p : good p → Forall (λ e, match e with Some n => elem (td p) n | None => True end) (afe p).
Proof. intros [K H]. apply H. Qed.
Lemma Forall_delete' {A} (P : A → Prop) l i : Forall P l → Forall P (delete i l).
Proof. intros H. rewrite delete_take_drop. apply Forall_app. split; [by apply Forall_take|by apply Forall_drop]. Qed.

Lemma open_push_next p n : good p → elem (td p) n → next p (open_push n p).
Proof. intros Hp Hn. apply set_open_next; [done|]. apply Forall_app. split; [by apply open_elems|by constructor]. Qed.
Lemma open_pop_next p : good p → next p (open_pop p).
Proof. intros Hp. apply set_open_next; [done|]. by apply Forall_take, open_elems. Qed.
Lemma open_remove_next p n : good p → next p (open_remove n p).
Proof.
  intros Hp. unfold open_remove. destruct (open_index p n); [|by apply next_refl].
  apply set_open_next; [done|]. by apply Forall_delete', open_elems.
Qed.
Lemma afe_push_next p e : good p → match e with Some n => elem (td p) n | None => True end → next p (afe_push_typed e p).
Proof. intros Hp Hn. apply set_afe_next; [done|]. apply Forall_app. split; [by apply afe_elems|by constructor]. Qed.
Lemma afe_remove_next p n : good p → next p (afe_remove n p).
Proof.
  intros Hp. unfold afe_remove. destruct (afe_index p n); [|by apply next_refl].
  apply set_afe_next; [done|]. by apply Forall_delete', afe_elems.
Qed.
#[local] Hint Resolve next_refl set_mode_next set_tail_next set_head_next set_body_next unset_foster_next open_push_next open_pop_next
  open_remove_next afe_push_next afe_remove_next current_elem elem_some elem_solid open_elems afe_elems next_ok : html.

(** ** Looking at the stack *)

Section stack.
Context (d : dom).

Lemma tag_is_ends n tg : elem d n → ends (tag_is d n tg) (λ _, True).
Proof. intros (x&Hx&_). unfold tag_is, node. rewrite Hx. by eexists. Qed.

Lemma any_open_ends l tg : Forall (elem d) l → ends (any_open d l tg) (λ _, True).
Proof.
  induction 1 as [|n l Hn _ IH]; [by apply ends_ok|]. cbn [any_open]. eapply ends_bind; [by apply tag_is_ends|].
  intros [] _; [by apply ends_ok|done].
Qed.
Lemma pop_to_ends l tg : Forall (elem d) l → ends (pop_to d l tg) (Forall (elem d)).
Proof.
  induction 1 as [|n l Hn Hl IH]; [by apply ends_ok|]. cbn [pop_to]. eapply ends_bind; [by apply tag_is_ends|].
  intros [] _; [by apply ends_ok|done].
Qed.
Lemma scope_loop_ends b l tg : Forall (elem d) l → ends (scope_loop d b l tg) (λ _, True).
Proof.
  induction 1 as [|n l Hn _ IH]; [by apply ends_ok|]. cbn [scope_loop]. apply ends_node; [by apply elem_some|]. intros x _.
  destruct (tag x); [|done]. destruct (h5_ci _ _); [by apply ends_ok|]. destruct (ci_one_of _ _); [by apply ends_ok|done].
Qed.
Lemma pop_one_of_ends l tags : Forall (elem d) l → ends (pop_one_of d l tags) (λ r, match r with Some l => Forall (elem d) l | None => True end).
Proof.
  induction 1 as [|n l Hn Hl IH]; [by apply ends_ok|]. cbn [pop_one_of]. apply ends_node; [by apply elem_some|]. intros x _.
  destruct (match tag x with Some t => _ | None => false end); [by apply ends_ok|done].
Qed.
Lemma implied_loop_ends l e : Forall (elem d) l → ends (implied_loop d l e) (Forall (elem d)).
Proof.
  induction 1 as [|n l Hn Hl IH]; [by apply ends_ok|]. cbn [implied_loop]. apply ends_node; [by apply elem_some|]. intros x _.
  assert (Forall (elem d) (n :: l)) by by constructor.
  destruct (tag x); [|by apply ends_ok]. destruct (negb _); [by apply ends_ok|]. destruct (match e with Some e => _ | None => false end); [by apply ends_ok|done].
Qed.
Lemma find_furthest_ends l fi : Forall (elem d) l → ∀ i best, match best with Some (n, j) => elem d n ∧ (j < i)%nat | None => True end →
  ends (find_furthest d l i fi best) (λ r, match r with Some (n, j) => elem d n ∧ (j < i + length l)%nat | None => True end).
Proof.
  induction 1 as [|n l Hn _ IH]; intros i best Hb; cbn [find_furthest].
  - apply ends_ok. destruct best as [[m j]|]; [|done]. simpl. split; [apply Hb|lia].
  - apply ends_node; [by apply elem_some|]. intros x _. cbn zeta. cbn [length]. rewrite <- Nat.add_succ_comm. apply IH.
    destruct (_ && _); [split; [done|lia]|]. destruct best as [[m j]|]; [|done]. split; [apply Hb|lia].
Qed.
End stack.
#[local] Hint Resolve tag_is_ends any_open_ends scope_loop_ends : html.

Lemma has_in_scope_ends p tg b : good p → ends (has_in_scope p tg b) (λ _, True).
Proof. intros Hp. apply scope_loop_ends, List.Forall_rev, open_elems, Hp. Qed.
Lemma pop_loop_next p tg : good p → ends (pop_loop p tg) (next p).
Proof.
  intros Hp. unfold pop_loop. eapply ends_bind; [by apply pop_to_ends, List.Forall_rev, open_elems|].
  intros l Hl. apply ends_ok, set_open_next; [done|by apply List.Forall_rev].
Qed.
Lemma pop_until_next p tg : good p → ends (pop_until p tg) (next p).
Proof.
  intros Hp. unfold pop_until. apply seq_any; [by apply any_open_ends, List.Forall_rev, open_elems|].
  intros b. apply next_if; [by apply pop_loop_next|eauto with html].
Qed.
Lemma pop_until_one_next p tags : good p → ends (pop_until_one p tags) (next p).
Proof.
  intros Hp. unfold pop_until_one. eapply ends_bind; [by apply pop_one_of_ends, List.Forall_rev, open_elems|].
  intros [l|] Hl; apply ends_ok; [|by apply next_refl]. apply set_open_next; [done|by apply List.Forall_rev].
Qed.
Lemma gen_implied_next p e : good p → ends (gen_implied_end p e) (next p).
Proof.
  intros Hp. unfold gen_implied_end. eapply ends_bind; [by apply implied_loop_ends, List.Forall_rev, open_elems|].
  intros l Hl. apply ends_ok, set_open_next; [done|by apply List.Forall_rev].
Qed.
Lemma close_scope_next p tg b : good p → ends (close_scope p tg b) (next p).
Proof.
  intros Hp. unfold close_scope. apply seq_any; [by apply has_in_scope_ends|].
  intros c. apply next_if; [by apply pop_until_next|eauto with html].
Qed.
Lemma close_p_next p : good p → ends (close_p_if_open p) (next p).
Proof. intros Hp. apply seq_next; [by apply gen_implied_next|]. intros p' Hp' _. by apply close_scope_next. Qed.
#[local] Hint Resolve has_in_scope_ends pop_loop_next pop_until_next pop_until_one_next gen_implied_next close_scope_next close_p_next : html.

(** ** Insertion *)

#[local] Hint Resolve append_next : html.

Lemma create_element_keeps p K tg : inv p K →
  ∃ p' n, create p (mini_node_create_element tg) = (p', n) ∧ grows p p' ∧ inv p' K ∧ elem (td p') n ∧ ∀ q, n ∉ K q.
Proof.
  intros H.
  destruct (create_keeps p K (mini_node_create_element tg) _ H eq_refl) as (p'&n&E&Hg&Hi&Hx&Hf); [done|done|by right|].
  exists p', n. split; [exact E|]. split; [done|]. split; [done|]. split; [by eexists|done].
Qed.

(** An element not yet in any list. *)
Definition loose (p : tree) (n : nat) : Prop := ∃ K, inv p K ∧ ∀ q, n ∉ K q.

Lemma create_token_next p t : good p → ends (create_element_for_token p t) (λ a, next_elem p a ∧ loose a.1 a.2).
Proof.
  intros [K H]. unfold create_element_for_token.
  destruct (create_element_keeps p K (Some (default (str "div") (tname t))) H) as (p'&n&->&Hg&Hi&He&Hf).
  destruct (set_attributes_keeps (tattrs t) p' K n Hi (elem_some _ _ He)) as (d&->&Hd&Hg'). cbn [res_bind].
  apply ends_ok. split; [split; [split; [by exists K|by eapply grows_trans]|by apply Hg']|by exists K].
Qed.
Lemma from_token_next p t : good p → ends (from_token t p) (next_elem p).
Proof. intros Hp. eapply ends_weaken; [by apply create_token_next|]. by intros a [? _]. Qed.
Lemma made_next p tg : good p → ends (made tg p) (next_elem p).
Proof.
  intros [K H]. unfold made. destruct (create_element_keeps p K (Some (str tg)) H) as (p'&n&->&Hg&Hi&He&_).
  apply ends_ok. by split; [split; [exists K|]|].
Qed.
#[local] Hint Resolve from_token_next made_next : html.

Lemma append_token_next p t push : good p → ends (append_token p t push) (next_elem p).
Proof.
  intros Hp. unfold append_token. eapply ends_bind; [by apply from_token_next|]. intros [p1 n] [[Hp1 Hg1] He]. cbn [fst snd] in *.
  eapply ends_bind; [apply append_next; eauto with html|]. intros p2 [Hp2 Hg2]. apply ends_ok.
  assert (elem (td p2) n) by by apply Hg2.
  destruct push; split; cbn [fst snd]; try done.
  - eapply next_trans; [by eapply grows_trans|]. by apply open_push_next.
  - split; [done|by eapply grows_trans].
Qed.

Lemma insert_element_next p q n : good p → elem (td p) n → is_Some (nodes (td p) !! q) → ends (insert_element p q n) (next p).
Proof.
  intros Hp Hn Hq. apply seq_next; [eauto with html|]. intros p1 Hp1 Hg. apply next_ok.
  assert (next p1 (open_push n p1)) as [H1 H2] by (apply open_push_next; [done|by apply Hg]).
  eapply next_trans; [exact H2|]. by apply set_tail_next.
Qed.

(** A node no list has, before a child. *)
Lemma insert_before_next p q n t K x : inv p K → solid (td p) n → (∀ r, n ∉ K r) → nodes (td p) !! t = Some x → parent (lk x) = Some q → t ∈ K q →
  ∃ d, mini_node_insert_before (td p) (Some q) (Some n) (Some t) = Ok (d, 0) ∧ next p (set_td d p).
Proof.
  intros H (y&Hy&Hf) Hn Hx Hq Ht. pose proof Ht as [i Hi]%list_elem_of_lookup.
  assert (t ≠ n) as Hne by (intros ->; by apply (Hn q)).
  destruct (insert_before_spec _ _ (i_linked _ _ H) q n t y i Hy Hf Hne) as (d&E&HL&HS&_).
  { by rewrite without_id. }
  exists d. split; [exact E|].
  destruct (inv_same p d K _ H HL HS) as [Hi' Hg]; [..|by split; [eexists|]].
  - intros c r Hc. exists r. rewrite without_id by done. destruct (decide (r = q)) as [->|]; [|done]. apply elem_ins. by right.
  - intros c r Hc. rewrite without_id in Hc by done. destruct (decide (r = q)) as [->|]; [|left; by eexists].
    apply elem_ins in Hc as [->|Hc]; [right; by exists y|left; by eexists].
Qed.

(** Where fostered nodes go. *)
Lemma foster_parent p K t : inv p K → table_foster p = Some t → ∃ x q, nodes (td p) !! t = Some x ∧ parent (lk x) = Some q ∧ t ∈ K q.
Proof.
  intros H E. pose proof (i_foster _ _ H) as Hf. rewrite E in Hf. destruct Hf as (_&q&Hq).
  destruct (kid_node _ _ (i_linked _ _ H) _ _ Hq) as (x&Hx&Hp). by exists x, q.
Qed.


Lemma foster_insert_next p n : loose p n → elem (td p) n → ends (foster_insert p n) (next p).
Proof.
  intros (K&H&Hn) He. assert (good p) as Hp by by exists K. unfold foster_insert.
  destruct (table_foster p) as [t|] eqn:Et; [|apply insert_element_next; eauto with html].
  destruct (foster_parent p K t H Et) as (x&q&Hx&Hq&Ht). unfold node. rewrite Hx. cbn [res_bind]. rewrite Hq.
  destruct (insert_before_next p q n t K x H (elem_solid _ _ He) Hn Hx Hq Ht) as (d&->&[Hd Hg]). cbn [res_bind].
  rewrite decide_True by done. apply next_ok. eapply next_trans; [exact Hg|].
  assert (next (set_td d p) (open_push n (set_td d p))) as [H1 H2] by (apply open_push_next; [done|by apply Hg]).
  eapply next_trans; [exact H2|]. by apply set_tail_next.
Qed.

Lemma grow_text_next p n s : good p → (∃ x, nodes (td p) !! n = Some x ∧ ntype x = MN_TEXT_NODE) → ends (grow_text p n s) (next p).
Proof.
  intros Hp (x&Hx&Ht). unfold grow_text, node. rewrite Hx. cbn [res_bind].
  assert (text x ≠ None) as Htx by (destruct Hp as [K H]; by apply (i_texts _ _ H n)).
  destruct (text x); [|done]. apply put_next; [done|by eexists|]. intros y _. by split.
Qed.

Lemma is_text_ends d n : is_Some (nodes d !! n) →
  ends (is_text d n) (λ b, if b : bool then ∃ x, nodes d !! n = Some x ∧ ntype x = MN_TEXT_NODE else True).
Proof.
  intros [x Hx]. unfold is_text, node. rewrite Hx. apply ends_ok. case_bool_decide; [by exists x|done].
Qed.

Lemma create_leaf_keeps p K mk x : inv p K → mk (td p) = alloc x (td p) → lk x = no_links → (ntype x = MN_TEXT_NODE → text x ≠ None) →
  ntype x ≠ MN_DOCUMENT_FRAGMENT_NODE → tag x = None →
  ∃ p' n, create p mk = (p', n) ∧ grows p p' ∧ inv p' K ∧ solid (td p') n ∧ ∀ q, n ∉ K q.
Proof.
  intros H E Hx Ht Hf Htg. destruct (create_keeps p K mk x H E Hx Ht (or_introl Htg)) as (p'&n&Ec&Hg&Hi&Hn&Hq).
  exists p', n. split; [done|]. split; [done|]. split; [done|]. split; [by exists x|done].
Qed.

Lemma insert_char_next p s : good p → ends (insert_char p s) (next p).
Proof.
  intros Hp. unfold insert_char. case_bool_decide; [by apply next_ok, next_refl|].
  apply ends_node; [by apply current_elem|]. intros x Hx. destruct (_ && _).
  { apply put_next; [done|by eexists|]. intros y _. by split. }
  pose proof Hp as [K HK].
  destruct (if table_mode (mode p) then table_foster p else None) as [t|] eqn:Et.
  - destruct (is_blank1 s); [by apply next_ok, next_refl|].
    assert (table_foster p = Some t) as Et' by by destruct (table_mode _).
    destruct (foster_parent p K t HK Et') as (y&q&Hy&Hq&Ht). unfold node. rewrite Hy. cbn [res_bind]. rewrite Hq. cbv beta delta [id] match iota. cbn [from_option].
    eapply (ends_bind _ _ (λ tn, match tn with Some n => ∃ z, nodes (td p) !! n = Some z ∧ ntype z = MN_TEXT_NODE | None => True end)).
    { destruct (prev_sibling (lk y)) as [ps|] eqn:Ep; [|by apply ends_ok]. eapply ends_bind; [apply is_text_ends|].
      - apply list_elem_of_lookup in Ht as [i Hi]. destruct (lk_kid _ _ (i_linked _ _ HK) _ _ _ Hi) as (y'&Hy'&_&Hpv&_).
        simplify_eq. rewrite Ep in Hpv. destruct i as [|i]; [done|]. symmetry in Hpv. cbn in Hpv.
        eapply solid_some, (i_kids _ _ HK q), list_elem_of_lookup_2, Hpv.
      - intros [] Hb; by apply ends_ok. }
    intros [n|] Hn; [by apply grow_text_next|].
    destruct (create_leaf_keeps p K (mini_node_create_text (Some s)) _ HK eq_refl) as (p1&n&->&Hg&Hi&Hs&Hf); [done..|].
    assert (∃ y1, nodes (td p1) !! t = Some y1 ∧ parent (lk y1) = Some q) as (y1&Hy1&Hq1).
    { apply (kid_node _ _ (i_linked _ _ Hi)). done. }
    destruct (insert_before_next p1 q n t K y1 Hi Hs Hf Hy1 Hq1 Ht) as (d&->&[Hd Hgd]). cbn [res_bind]. apply next_ok.
    eapply next_trans; [eapply grows_trans; [exact Hg|exact Hgd]|]. by apply set_tail_next.
  - eapply (ends_bind _ _ (λ b, if b : bool then ∃ n z, last_child (lk x) = Some n ∧ nodes (td p) !! n = Some z ∧ ntype z = MN_TEXT_NODE else True)).
    { destruct (pending_text_tail p) as [tl|]; [|by apply ends_ok]. destruct (last_child (lk x)) as [lc|] eqn:El; [|by apply ends_ok].
      destruct (decide (lc = tl)); [|by apply ends_ok]. eapply ends_weaken; [apply is_text_ends|].
      - destruct (lk_ends _ _ (i_linked _ _ HK) _ _ Hx) as [_ E]. rewrite El in E. symmetry in E.
        by eapply solid_some, (i_kids _ _ HK), last_Some_elem_of.
      - intros [] Hb; [|done]. destruct Hb as (z&Hz&Hzt). by exists lc, z. }
    intros [] Hb.
    + destruct Hb as (n&z&->&Hz&Hzt). apply grow_text_next; [done|by exists z].
    + destruct (create_leaf_keeps p K (mini_node_create_text (Some s)) _ HK eq_refl) as (p1&n&->&Hg&Hi&Hs&Hf); [done..|].
      assert (good p1) by by exists K. apply (next_from _ _ _ Hg).
      apply seq_next; [|intros; by apply next_ok, set_tail_next]. apply append_next; [done|done|]. apply Hg. by eexists.
Qed.

Lemma insert_comment_next p q s : good p → is_Some (nodes (td p) !! q) → ends (insert_comment p q s) (next p).
Proof.
  intros Hp Hq. pose proof Hp as [K HK]. unfold insert_comment.
  destruct (create_leaf_keeps p K (mini_node_create_comment (Some s)) _ HK eq_refl) as (p1&n&->&Hg&Hi&Hs&Hf); [done..|].
  assert (good p1) by by exists K. apply (next_from _ _ _ Hg).
  apply seq_next; [|intros; by apply next_ok, set_tail_next]. apply append_next; [done|done|]. by apply Hg.
Qed.
#[local] Hint Resolve insert_char_next insert_comment_next insert_element_next append_token_next : html.

(** ** Formatting elements *)

Lemma afe_elem p i n : good p → afe p !! i = Some (Some n) → elem (td p) n.
Proof. intros Hp Hi. pose proof (afe_elems _ Hp) as H. rewrite Forall_lookup in H. apply (H i _ Hi). Qed.

Lemma afe_insert_next p i c : good p → elem (td p) c → next p (set_afe (<[i := Some c]> (afe p)) p).
Proof. intros Hp Hc. apply set_afe_next; [done|]. apply Forall_insert; [by apply afe_elems|done]. Qed.
Lemma open_insert_next p i c : good p → elem (td p) c → next p (set_open (<[i := c]> (open p)) p).
Proof. intros Hp Hc. apply set_open_next; [done|]. apply Forall_insert; [by apply open_elems|done]. Qed.

Lemma reopen_next fuel : ∀ i p, good p → ends (reopen fuel i p) (next p).
Proof.
  induction fuel as [|fuel IH]; intros i p Hp; cbn [reopen]; [by apply next_ok, next_refl|].
  destruct (afe p !! i) as [[o|]|] eqn:E; [|by apply IH|by apply next_ok, next_refl].
  destruct (clone_next p o Hp) as (d&c&->&[Hd Hg]&Hc&_); [by eapply afe_elem|]. cbn [res_bind].
  apply (next_from _ _ _ Hg).
  apply seq_next; [apply append_next; [done|by apply elem_solid|by apply (current_elem (set_td d p))]|]. intros p1 Hp1 Hg1. cbv zeta.
  assert (elem (td p1) c) as Hc1 by by apply Hg1.
  destruct (open_push_next p1 c Hp1 Hc1) as [Hp2 Hg2]. destruct (afe_insert_next _ i c Hp2 Hc1) as [Hp3 Hg3].
  eapply ends_weaken; [by apply IH|]. intros p4 Hp4. eapply next_trans; [|exact Hp4]. by eapply grows_trans.
Qed.
Lemma reconstruct_next p : good p → ends (reconstruct_active_formatting p) (next p).
Proof.
  intros Hp. unfold reconstruct_active_formatting. destruct (last (afe p)) as [[n|]|]; [|by apply next_ok, next_refl..].
  apply next_if; [by apply next_ok, next_refl|by apply reopen_next].
Qed.
#[local] Hint Resolve reconstruct_next : html.

Lemma find_fmt_ends p l tg : Forall (λ e, match e with Some n => elem (td p) n | None => True end) l →
  ends (find_fmt p l tg) (λ r, match r with Some n => elem (td p) n | None => True end).
Proof.
  induction 1 as [|[n|] l Hn _ IH]; cbn [find_fmt]; [by apply ends_ok| |by apply ends_ok].
  eapply ends_bind; [by apply tag_is_ends|]. intros b _. destruct (_ && _); [by apply ends_ok|done].
Qed.

Lemma open_index_bound l i n j : open_index_from l i n = Some j → (i <= j < i + length l)%nat.
Proof.
  revert i. induction l as [|x l IH]; intros i; cbn [open_index_from]; [done|].
  destruct (open_index_from l (S i) n) as [k|] eqn:E; [intros [= <-]; specialize (IH _ E); simpl; lia|].
  case_decide; [intros [= <-]; simpl; lia|done].
Qed.
Lemma open_remove_length p n : (length (open p) - 1 <= length (open (open_remove n p)))%nat.
Proof.
  unfold open_remove. destruct (open_index p n) as [i|] eqn:E; [|lia]. apply open_index_bound in E. cbn.
  rewrite length_delete; [lia|]. apply lookup_lt_is_Some. lia.
Qed.

Lemma append_same p q c p' : append p q c = Ok p' → open p' = open p ∧ mode p' = mode p.
Proof. unfold append. destruct (mini_node_append_child _ _ _) as [[]|]; [by intros [= <-]|done]. Qed.
Lemma move_all_open fuel : ∀ p from to c p', move_all fuel p from to c = Ok p' → open p' = open p.
Proof.
  induction fuel as [|fuel IH]; intros p from to [c|] p'; cbn [move_all]; try done; try by intros [= <-].
  intros (x&_&H)%res_bind_Ok. cbv zeta in H. apply res_bind_Ok in H as (p1&H1&H). apply res_bind_Ok in H as (p2&H2&H).
  rewrite (IH _ _ _ _ _ H), (proj1 (append_same _ _ _ _ H2)). unfold remove_from in H1.
  destruct (mini_node_remove_child _ _ _) as [[]|]; [by injection H1 as <-|done].
Qed.
Lemma move_children_open p from to p' : move_children_to p from to = Ok p' → open p' = open p.
Proof. unfold move_children_to. intros (x&_&H)%res_bind_Ok. by eapply move_all_open. Qed.

Lemma aaa_loop_next g : ∀ p fmt ln i, good p → elem (td p) ln → (i <= length (open p))%nat →
  ends (aaa_loop g p fmt ln i) (next_elem p).
Proof.
  induction g as [|g IH]; intros p fmt ln i Hp Hl Hi; cbn [aaa_loop]; [apply ends_ok; split; [by apply next_refl|done]|].
  destruct i as [|i]; [apply ends_ok; split; [by apply next_refl|done]|].
  destruct (lookup_lt_is_Some_2 (open p) i ltac:(lia)) as [n Hn]. rewrite Hn.
  destruct (decide (n = fmt)); [apply ends_ok; split; [by apply next_refl|done]|].
  assert (elem (td p) n) as He by (pose proof (open_elems _ Hp) as Ho; rewrite Forall_lookup in Ho; by eapply Ho).
  destruct (afe_index p n) as [ai|].
  - destruct (clone_next p n Hp He) as (d&c&->&[Hd Hg]&Hc&Hne). cbn [res_bind]. cbv zeta.
    destruct (afe_insert_next _ ai c Hd Hc) as [H1 G1]. destruct (open_insert_next _ i c H1 Hc) as [H2 G2].
    set (p2 := set_open (<[i := c]> (open p)) (set_afe (<[ai := Some c]> (afe p)) (set_td d p))).
    assert (grows p p2) as G by (by split; [intros m Hm; apply G2, G1, Hg|intros m Hm; apply G2, G1, Hg]).
    assert (elem (td p2) c) as Hc2 by by apply G2, G1. assert (length (open p2) = length (open p)) as El by apply length_insert.
    destruct (append_next p2 ln c H2) as (p3&E3&H3&G3); [by apply elem_solid|by apply elem_some, G|].
    rewrite E3. cbn [res_bind]. apply append_same in E3 as [E3 _].
    destruct (move_children_next p3 n c H3) as (p4&E4&H4&G4); [by apply elem_some, G3, G|congruence|by apply elem_some, G3|].
    rewrite E4. cbn [res_bind]. apply move_children_open in E4.
    eapply ends_weaken; [apply (IH p4 fmt c i H4); [by apply G4, G3|rewrite E4, E3, El; lia]|].
    intros [p5 m] [Hn5 Hm]. split; [|done]. eapply next_trans; [|exact Hn5].
    eapply grows_trans; [exact G|]. by eapply grows_trans.
  - destruct (open_remove_next p n Hp) as [H1 G1]. eapply ends_weaken; [apply (IH _ fmt ln i H1); [by apply G1|]|].
    + pose proof (open_remove_length p n). lia.
    + intros [p5 m] [Hn5 Hm]. split; [|done]. by eapply next_trans.
Qed.

Lemma place_last_next p ca ln : good p → elem (td p) ln → is_Some (nodes (td p) !! ca) → ends (place_last p ca ln) (next p).
Proof.
  intros Hp Hl Hca. pose proof Hp as [K HK]. unfold place_last. apply ends_node; [by apply elem_some|]. intros x Hx.
  assert (append_next' := append_next p ca ln Hp (elem_solid _ _ Hl) Hca).
  destruct (parent (lk x)) as [q|] eqn:Eq.
  - destruct (decide (q = ca)) as [->|Hne].
    + cbn [res_bind]. unfold node. rewrite Hx. cbn [res_bind]. rewrite Eq, decide_True by done. by apply next_ok, next_refl.
    + assert (ln ∈ K q) as Hin.
      { apply (lk_par _ _ (i_linked _ _ HK) _ _ _ Hx Eq). destruct Hl as (x'&Hx'&Ht). simplify_eq. by rewrite Ht. }
      destruct (move_next p K q ca ln HK Hin Hca) as (p'&E&Hg&Hi). unfold remove_from in *.
      destruct (remove_child_in _ _ (i_linked _ _ HK) q ln Hin) as (d1&E1&HL1&HS1). rewrite E1 in *. cbn [res_bind] in *.
      destruct Hl as (x'&Hx'&Ht). destruct (same_data_node _ _ _ _ HS1 Hx') as (x1&Hx1&Ex1).
      unfold node. cbn [td set_td]. rewrite Hx1. cbn [res_bind]. destruct (decide _) as [Ep|].
      * exfalso. pose proof (lk_par _ _ HL1 _ _ _ Hx1 Ep) as Hc. cbv beta in Hc. rewrite elem_without in Hc.
        destruct Hc as [Hc _]; [|done]. rewrite (f_equal ntype Ex1 : ntype x1 = ntype x'). by rewrite Ht.
      * exists p'. split; [done|]. by split; [exists (moved ln ca K)|].
  - cbn [res_bind]. unfold node. rewrite Hx. cbn [res_bind]. rewrite Eq, decide_False by done. done.
Qed.

Lemma wrap_last_next p fmt ln : good p → elem (td p) fmt → elem (td p) ln → ends (wrap_last p fmt ln) (next p).
Proof.
  intros Hp Hf Hl. unfold wrap_last. destruct (clone_next p fmt Hp Hf) as (d&c&E&[Hd Hg]&Hc&Hne). rewrite E. cbn [res_bind].
  apply (next_from _ _ _ Hg).
  assert (ln ≠ c) as Hlc.
  { intros ->. destruct Hp as [K HK]. destruct Hf as (x&Hx&_). unfold mini_node_clone, rounds in E. cbn [clone] in E.
    unfold node in E. rewrite Hx in E. cbn [res_bind] in E. unfold alloc in E. injection E as _ <-.
    pose proof (i_fresh _ _ HK _ (elem_some _ _ Hl)). lia. }
  apply seq_next; [apply move_children_next; [done|by apply elem_some, Hg|done|by apply elem_some]|]. intros p1 H1 G1.
  apply seq_next; [apply append_next; [done|by apply elem_solid, G1|by apply elem_some, G1, Hg]|]. intros p2 H2 G2.
  assert (elem (td p2) c) as Hc2 by by apply G2, G1. destruct (open_push_next p2 c H2 Hc2) as [H3 G3].
  apply next_ok. eapply next_trans; [exact G3|]. by apply afe_push_next.
Qed.

Lemma pop_past_elems (P : nat → Prop) l n : Forall P l → Forall P (pop_past l n).
Proof. induction 1 as [|x l Hx Hl IH]; cbn [pop_past]; [done|]. by case_decide. Qed.

Lemma adoption_next p tg : good p → ends (adoption_agency p tg) (next p).
Proof.
  intros Hp. unfold adoption_agency. eapply ends_bind; [by apply find_fmt_ends, List.Forall_rev, afe_elems|]. intros [fmt|] Hf.
  - destruct (open_index p fmt) as [fi|] eqn:Efi; [|by apply next_ok, afe_remove_next].
    eapply ends_bind; [apply (find_furthest_ends (td p)); [by apply open_elems|done]|]. intros [[fu fj]|].
    + cbv beta iota. intros [Hfu Hj]. cbv zeta.
      set (ca := match fi with O => _ | S i => _ end). assert (is_Some (nodes (td p) !! ca)) as Hca.
      { unfold ca. destruct fi as [|i]; [destruct Hp as [K HK]; apply HK|]. apply open_index_bound in Efi.
        destruct (lookup_lt_is_Some_2 (open p) i ltac:(lia)) as [m Hm]. rewrite Hm. cbn.
        pose proof (open_elems _ Hp) as Ho. rewrite Forall_lookup in Ho. by eapply elem_some, Ho. }
      eapply ends_bind; [apply (aaa_loop_next 256 p fmt fu fj Hp Hfu); lia|]. intros [p1 ln] [[H1 G1] Hl].
      apply (next_from _ _ _ G1). cbn [fst snd] in *.
      apply seq_next; [apply place_last_next; [done|done|by apply G1]|]. intros p2 H2 G2.
      destruct (open_remove_next p2 fmt H2) as [H3 G3]. destruct (afe_remove_next _ fmt H3) as [H4 G4].
      eapply ends_weaken; [apply wrap_last_next; [done|by apply G4, G3, G2, G1|by apply G4, G3, G2]|].
      intros p5. apply next_trans. by eapply grows_trans.
    + intros _. apply next_ok. destruct (set_open_next p (rev (pop_past (rev (open p)) fmt)) Hp) as [H1 G1].
      { by apply List.Forall_rev, pop_past_elems, List.Forall_rev, open_elems. }
      eapply next_trans; [exact G1|]. by apply afe_remove_next.
  - apply seq_any; [by apply has_in_scope_ends|]. intros []; [|by apply next_ok, next_refl].
    apply seq_next; [by apply gen_implied_next|]. intros p1 H1 _. by apply pop_loop_next.
Qed.
#[local] Hint Resolve adoption_next : html.

(** ** The insertion modes *)

Section accumulate.
Context (p q : tree) (H : next p q).
Let Hq : good q := proj1 H.
Let Hg : grows p q := proj2 H.
Lemma acc_mode m : ok_mode m = true → next p (set_mode m q).
Proof. intros Hm. eapply next_trans; [exact Hg|by apply set_mode_next]. Qed.
Lemma acc_tail t : next p (set_tail t q).
Proof. eapply next_trans; [exact Hg|by apply set_tail_next]. Qed.
Lemma acc_unfoster : next p (set_foster None q).
Proof. eapply next_trans; [exact Hg|by apply unset_foster_next]. Qed.
Lemma acc_pop : next p (open_pop q).
Proof. eapply next_trans; [exact Hg|by apply open_pop_next]. Qed.
Lemma acc_marker : next p (afe_marker q).
Proof. eapply next_trans; [exact Hg|by apply afe_push_next]. Qed.
Lemma acc_afe n : elem (td q) n → next p (afe_push_typed (Some n) q).
Proof. intros Hn. eapply next_trans; [exact Hg|by apply afe_push_next]. Qed.
Lemma acc_push n : elem (td q) n → next p (open_push n q).
Proof. intros Hn. eapply next_trans; [exact Hg|by apply open_push_next]. Qed.
Lemma acc_head n : elem (td q) n → next p (set_head (Some n) q).
Proof. intros Hn. eapply next_trans; [exact Hg|apply set_head_next; [done|by apply elem_some]]. Qed.
Lemma acc_body n : elem (td q) n → next p (set_body (Some n) q).
Proof. intros Hn. eapply next_trans; [exact Hg|by apply set_body_next]. Qed.
End accumulate.
#[local] Hint Extern 1 (ok_mode _ = true) => apply ok_live; reflexivity : html.
#[local] Hint Resolve acc_mode acc_tail acc_unfoster acc_pop acc_marker acc_afe acc_push acc_head acc_body : html.
#[local] Hint Extern 3 (elem _ _) => (cbn [td set_mode set_tail set_foster set_open set_afe set_head set_body open_push open_pop afe_marker
  afe_push_typed]; eassumption) : html.
#[local] Hint Extern 4 (elem (td _) _) => match goal with Hg : grows ?p ?q, He : elem (td ?p) ?n |- elem (td ?q) ?n => exact (proj1 Hg n He) end : html.

(** One step of a handler: a test, a command whose lemma is known, the end. *)
Ltac hstep := first
  [ solve [eauto 7 with html]
  | lazymatch goal with |- ends (if _ then _ else _) _ => apply next_if end
  | eapply seq_elem; [solve [eauto with html]|intros ? ? ? ? ?]
  | eapply seq_next; [repeat apply next_if; solve [eauto with html]|intros ? ? ?]
  | eapply seq_any; [solve [eauto with html]|intros ?] ].
Ltac hsteps := repeat hstep.

Lemma append_some_next p q n : good p → elem (td p) n → is_Some (nodes (td p) !! q) → ends (append p q n) (next p).
Proof. intros Hp Hn Hq. by apply append_next; [|apply elem_solid|]. Qed.
Lemma default_head p : good p → is_Some (nodes (td p) !! default (current_node p) (head_element p)).
Proof.
  intros Hp. destruct (head_element p) as [h|] eqn:E; cbn; [|by apply current_elem].
  destruct Hp as [K H]. pose proof (i_head _ _ H) as Hh. by rewrite E in Hh.
Qed.
#[local] Hint Resolve append_some_next default_head : html.

(** The table of the current foster parent is a child of the current node. *)
Lemma append_token_foster p t : good p → ends (append_token p t true) (λ a, next_elem p a ∧ next p (set_foster (Some a.2) a.1)).
Proof.
  intros Hp. unfold append_token. eapply ends_bind; [by apply from_token_next|]. intros [p1 n] [[H1 G1] He]. cbn [fst snd] in *.
  unfold append. destruct H1 as [K HK]. destruct He as (x&Hx&Ht).
  assert (is_Some (nodes (td p1) !! current_node p1)) as Hc by (apply current_elem; by exists K).
  assert (ntype x ≠ MN_DOCUMENT_FRAGMENT_NODE) as Hf by by rewrite Ht.
  destruct (append_child_spec _ _ (i_linked _ _ HK) _ n x Hx Hf Hc) as (d&->&HL&HS&_). cbn [res_bind].
  destruct (inv_same p1 d K (moved n (current_node p1) K) HK HL HS) as [Hi Hg].
  { intros t0 q Hq. by eapply moved_kept. } { intros t0 q [->|Hq]%moved_back; [right; by exists x|left; by eexists]. }
  apply ends_ok. cbn [fst snd]. assert (elem d n) as Hn by (apply (proj1 Hg); by exists x).
  assert (next p (open_push n (set_td d p1))) as HN.
  { apply acc_push; [|done]. eapply next_trans; [exact G1|]. split; [by eexists|done]. }
  split; [by split|]. split; [|apply HN]. exists (moved n (current_node p1) K). destruct Hi. split; auto.
  - cbn. apply Forall_app. split; [done|by constructor].
  - cbn. split; [done|]. exists (current_node p1). unfold moved. rewrite decide_True by done.
    rewrite elem_of_app, list_elem_of_singleton. by right.
Qed.

Lemma in_body_start_next p t tg : good p → ends (in_body_start p t tg) (next p).
Proof.
  intros Hp. unfold in_body_start. hstep; [hsteps|]. hstep.
  { hstep. hstep. destruct (is_void_tag tg); hsteps. }
  hstep; [hsteps|]. hstep; [hsteps|].
  hstep. hstep. hstep. hstep.
  - eapply ends_bind; [by apply append_token_foster|]. intros [p1 n] [_ Hn]. apply next_ok.
    eapply next_trans; [|by apply set_mode_next; [apply Hn|apply ok_live]]. eapply grows_trans; [|apply Hn]. done.
  - hsteps.
Qed.

Lemma in_body_end_next p tg : good p → ends (in_body_end p tg) (next p).
Proof. intros Hp. unfold in_body_end. hsteps. Qed.
#[local] Hint Resolve in_body_start_next in_body_end_next : html.

Lemma insert_token_next p t (f : tree → nat → res tree) : good p →
  (∀ p' n, loose p' n → elem (td p') n → ends (f p' n) (next p')) →
  ends (let* (p, n) := create_element_for_token p t in f p n)%c (next p).
Proof.
  intros Hp Hf. eapply ends_bind; [by apply create_token_next|]. intros [p' n] [[[_ Hg] He] Hl]. cbn [fst snd] in *.
  apply (next_from _ _ _ Hg). by apply Hf.
Qed.

Lemma in_table_start_next p t tg : good p → ends (in_table_start p t tg) (next p).
Proof.
  intros Hp. unfold in_table_start. hstep; [hsteps|]. hstep; [hsteps|]. hstep; [hsteps|]. hstep; [hsteps|]. hstep; [hsteps|].
  apply next_if.
  - pose proof Hp as [K HK]. destruct (create_element_keeps p K (Some (str "tr")) HK) as (p1&n&->&Hg&Hi&He&_).
    assert (good p1) as Hp1 by by exists K. apply (next_from _ _ _ Hg). hstep. cbv zeta.
    assert (next p' (set_mode M_IN_ROW (open_push n p'))) as [H2 G2] by (apply acc_mode; [apply acc_push; [by apply next_refl|eauto with html]|by apply ok_live]).
    apply (next_from _ _ _ G2). hsteps.
  - hstep. apply insert_token_next; [done|]. intros p1 n Hl He. assert (good p1) as Hp1 by (destruct Hl as (K&HK&_); by exists K).
    apply next_if; [|by apply foster_insert_next]. destruct (table_foster p1) as [tb|] eqn:Et; [|hsteps].
    destruct Hl as (K&HK&Hn). destruct (foster_parent p1 K tb HK Et) as (x&q&Hx&Hq&Ht). unfold node. rewrite Hx. cbn [res_bind]. rewrite Hq.
    destruct (insert_before_next p1 q n tb K x HK (elem_solid _ _ He) Hn Hx Hq Ht) as (d&->&Hd). by apply next_ok.
Qed.

Lemma in_table_end_next p tg : good p → ends (in_table_end p tg) (next p).
Proof. intros Hp. unfold in_table_end. cbv zeta. hsteps. Qed.
#[local] Hint Resolve in_table_start_next in_table_end_next : html.

(** A handler called on a state with changed bookkeeping. *)
Lemma next_at (f : tree → res tree) p q : next p q → (∀ q, good q → ends (f q) (next q)) → ends (f q) (next p).
Proof. intros [Hq Hg] Hf. apply (next_from _ _ _ Hg). by apply Hf. Qed.

Lemma in_row_start_next p t tg : good p → ends (in_row_start p t tg) (next p).
Proof.
  intros Hp. unfold in_row_start. hstep; [hsteps|]. hstep; [hsteps|]. hstep.
  eapply (next_at (λ p, in_table_start p t tg)); eauto with html.
Qed.
Lemma in_cell_end_next p tg : good p → ends (in_cell_end p tg) (next p).
Proof.
  intros Hp. unfold in_cell_end. hstep; [hsteps|]. hstep; [|hsteps]. hstep. eapply seq_any; [destruct a; eauto with html; by apply ends_ok|]. intros b'.
  hstep; [|hsteps]. hstep. hstep. hstep. eapply (next_at (λ p, in_table_end p tg)); eauto with html.
Qed.
#[local] Hint Resolve in_row_start_next in_cell_end_next : html.

Lemma find_child_ends p n tg : good p → is_Some (nodes (td p) !! n) → tg = str "html" ∨ tg = str "body" →
  ends (find_child (td p) n tg) (Forall (elem (td p))).
Proof.
  intros [K HK] Hn Htg. unfold find_child. rewrite (children_spec _ _ _ (i_linked _ _ HK) Hn). cbn [res_bind]. apply ends_ok.
  apply Forall_forall. intros c Hc. apply list_elem_of_In, filter_In in Hc as [_ Hx].
  destruct (nodes (td p) !! c) as [x|] eqn:E; [|done]. exists x. split; [done|].
  destruct (tag x) as [t|] eqn:Et; [|done]. destruct (decide (ntype x = MN_ELEMENT_NODE)) as [|Hne]; [done|].
  destruct (i_names _ _ HK c x t E Et Hne) as [H1 H2]. destruct Htg as [-> | ->]; congruence.
Qed.

Lemma good_root p : good p → is_Some (nodes (td p) !! root p).
Proof. intros [K H]. apply H. Qed.
Lemma good_body p b : good p → body p = Some b → elem (td p) b.
Proof. intros [K H] E. pose proof (i_body _ _ H) as Hb. by rewrite E in Hb. Qed.


(** ** The document skeleton *)


Lemma remove_next p q c : good p → table_foster p = None → elem (td p) c →
  (∃ x, nodes (td p) !! c = Some x ∧ parent (lk x) = Some q) → ends (remove_from p q c) (next p).
Proof.
  intros [K H] Hf (x&Hx&Ht) (x'&Hx'&Hq). assert (x' = x) as -> by congruence.
  assert (c ∈ K q) as Hc by (apply (lk_par _ _ (i_linked _ _ H) _ _ _ Hx Hq); by rewrite Ht).
  unfold remove_from. destruct (remove_child_in _ _ (i_linked _ _ H) q c Hc) as (d&->&HL&HS). cbn [res_bind]. apply ends_ok.
  assert (∀ n, elem (td p) n → elem d n) as He by (intros n; by apply same_data_elem).
  assert (∀ n, is_Some (nodes (td p) !! n) → is_Some (nodes d !! n)) as Hs by (intros n; by apply (same_data_some _ _ _ HS)).
  split; [|by split]. exists (λ m, without c (K m)). destruct H as [H1 H2 H3 Hn H0 Hm H4 H5 H6 H7 H8 H9]. split; cbn; auto.
  - by eapply same_data_fresh.
  - by eapply same_data_texts.
  - by eapply same_data_names.
  - intros r n [_ Hn']%elem_without. eapply same_data_solid; eauto.
  - eapply Forall_impl; [exact H5|]. auto.
  - eapply Forall_impl; [exact H6|]. intros [n|]; auto.
  - destruct (head_element p); auto.
  - destruct (body p); auto.
  - by rewrite Hf.
Qed.

Lemma create_element_next p tg : good p →
  ∃ p' n, create p (mini_node_create_element tg) = (p', n) ∧ next p p' ∧ elem (td p') n ∧ p' = set_td (td p') p.
Proof.
  intros [K H]. destruct (create_element_keeps p K tg H) as (p'&n&E&Hg&Hi&He&_). exists p', n. split; [done|].
  split; [split; [by exists K|done]|]. split; [done|]. unfold create in E.
  destruct (mini_node_create_element tg (td p)). by injection E as <- _.
Qed.

Lemma ensure_html_next p : good p → table_foster p = None → ends (ensure_html p) (next p).
Proof.
  intros Hp Hf. unfold ensure_html. eapply ends_bind; [apply find_child_ends; [done|by apply good_root|by left]|].
  intros [|c l] _; [|by apply next_ok, next_refl].
  destruct (create_element_next p (Some (str "html")) Hp) as (p1&html&->&[H1 G1]&He1&E1). apply (next_from _ _ _ G1).
  assert (table_foster p1 = None) as Hf1 by by rewrite E1.
  apply seq_next.
  { destruct (body p1) as [b|] eqn:Eb; [|by apply next_ok, next_refl]. pose proof (good_body _ _ H1 Eb) as Hb.
    apply ends_node; [by apply elem_some|]. intros x Hx. destruct (decide _); [|by apply next_ok, next_refl].
    apply remove_next; [done|done|done|by exists x]. }
  intros p2 H2 G2. apply seq_next; [apply append_some_next; [done|by apply G2|by apply good_root]|]. intros p3 H3 G3.
  destruct (create_element_next p3 (Some (str "head")) H3) as (p4&h&->&[H4 G4]&He4&_). apply (next_from _ _ _ G4). cbv zeta.
  destruct (set_head_next p4 h H4 (elem_some _ _ He4)) as [H5 G5]. apply (next_from _ _ _ G5).
  assert (elem (td p4) html) as Hh by by apply G4, G3, G2.
  apply seq_next; [apply append_some_next; [done|done|by apply elem_some]|]. intros p6 H6 G6.
  assert (elem (td p6) html) as Hh6 by by apply G6.
  apply seq_next.
  - destruct (body p6) as [b|] eqn:Eb.
    + apply append_some_next; [done|by eapply good_body|by apply elem_some].
    + destruct (create_element_next p6 (Some (str "body")) H6) as (p7&b&->&[H7 G7]&He7&_). apply (next_from _ _ _ G7).
      destruct (set_body_next p7 b H7 He7) as [H8 G8]. apply (next_from _ _ _ G8).
      apply append_some_next; [done|done|by apply elem_some, G7].
  - intros p7 H7 G7. apply next_ok, open_push_next; [done|by apply G7].
Qed.

Lemma init_parser_next p : good p → table_foster p = None → ends (init_parser p) (λ p', next p p' ∧ live (mode p') = true).
Proof.
  intros Hp Hf. unfold init_parser. eapply ends_bind; [by apply ensure_html_next|]. intros p1 [H1 G1].
  eapply ends_bind; [apply find_child_ends; [done|by apply good_root|by left]|]. intros hs Hhs.
  assert (match last hs with Some h => elem (td p1) h | None => True end) as Hh.
  { destruct (last hs) as [h|] eqn:E; [|done]. rewrite Forall_forall in Hhs. by apply Hhs, last_Some_elem_of. }
  eapply (ends_bind _ _ (Forall (elem (td p1)))).
  { destruct (last hs) as [h|]; [|by apply ends_ok; constructor]. apply find_child_ends; [done|by apply elem_some|by right]. }
  intros bs Hbs. assert (match last bs with Some b => elem (td p1) b | None => True end) as Hb.
  { destruct (last bs) as [h|] eqn:E; [|done]. rewrite Forall_forall in Hbs. by apply Hbs, last_Some_elem_of. }
  cbv zeta.
  set (p2 := match last bs with Some b => set_body (Some b) p1 | None => p1 end).
  assert (next p p2 ∧ td p2 = td p1) as [N2 E2].
  { unfold p2. destruct (last bs) as [b|]; [|by split]. split; [by apply acc_body|done]. }
  assert (next p (set_mode M_IN_BODY p2)) as N3 by (apply acc_mode; [done|by apply ok_live]).
  set (p4 := match last hs with Some h => open_push h (set_mode M_IN_BODY p2) | None => set_mode M_IN_BODY p2 end).
  assert (next p p4 ∧ td p4 = td p1 ∧ mode p4 = M_IN_BODY) as (N4&E4&M4).
  { unfold p4. destruct (last hs) as [h|]; [|by split]. split; [|done]. apply acc_push; [done|]. cbn. by rewrite E2. }
  destruct (last bs) as [b|].
  - apply ends_ok. split; [apply acc_push; [done|by rewrite E4]|]. cbn. by rewrite M4.
  - destruct N4 as [H4 G4]. destruct (create_element_next p4 (Some (str "body")) H4) as (p5&b&->&[H5 G5]&He5&E5).
    destruct (append_some_next p5 (default (root p5) (last hs)) b H5 He5) as (p6&E6&[H6 G6]).
    { destruct (last hs) as [h|]; cbn; [apply G5; rewrite E4; by apply elem_some|by apply good_root]. }
    rewrite E6. cbn [res_bind]. apply append_same in E6 as [_ M6]. apply ends_ok. split.
    + apply acc_push; [|by apply G6]. apply acc_body; [|by apply G6]. eapply next_trans; [exact G4|].
      eapply next_trans; [exact G5|done].
    + cbn. by rewrite M6, E5; cbn; rewrite M4.
Qed.

Lemma or_scope_ends (b : bool) p tg ts : good p → ends (if b then Ok true else has_in_scope p tg ts) (λ _, True).
Proof. intros Hp. destruct b; [by apply ends_ok|by apply has_in_scope_ends]. Qed.
#[local] Hint Resolve or_scope_ends : html.

Lemma in_table_body_next p t tg : good p → ends (in_table_body p t tg) (next p).
Proof.
  intros Hp. unfold in_table_body. destruct (ttype t); hsteps.
  eapply (next_at (λ p, in_table_start p t tg)); eauto with html.
Qed.
#[local] Hint Resolve in_table_body_next : html.

(** A token never stops tree construction, and is passed on once at most. *)
Lemma process_next p t : good p → live (mode p) = true → ends (process_token p t) (next p).
Proof.
  intros Hp Hm. unfold process_token.
  assert (∀ p' again, good p' → mode p' = M_IN_BODY → ends (in_mode again p' t) (next p')) as Hbody.
  { intros p' again Hp' E. unfold in_mode. rewrite E. destruct (ttype t); hsteps. }
  assert (next p (set_mode M_IN_BODY p)) as [Hb Gb] by (apply set_mode_next; [done|by apply ok_live]).
  assert (∀ n, ends (process_fuel (S n) (set_mode M_IN_BODY p) t) (next p)) as Hagain.
  { intros n. apply (next_from _ _ _ Gb). by apply Hbody. }
  assert (E : mode p ∈ [M_IN_BODY; M_IN_TABLE; M_IN_TABLE_BODY; M_IN_ROW; M_IN_CELL; M_AFTER_BODY; M_AFTER_AFTER_BODY])
    by by apply bool_decide_eq_true_1 in Hm.
  change (process_fuel 4 p t) with (in_mode (λ p, process_fuel 3 p t) p t). unfold in_mode.
  repeat apply elem_of_cons in E as [E|E]; [rewrite E..|by apply not_elem_of_nil in E];
    try (destruct (ttype t); hsteps; fail); try (hsteps; fail).
  destruct (decide _); [hsteps|apply (Hagain 2%nat)].
Qed.
End invariant.

(** ** The parser *)

(** A document fit to be parsed into: its links are child lists, addresses are
    new, text nodes have a text. *)
Record doc_ok (d : dom) (K : nat → list nat) (r : nat) (b : option nat) : Prop := {
  d_linked : linked d K; d_fresh : fresh_ids d; d_texts : texts_ok d; d_names : names_ok d;
  d_kids : ∀ q c, c ∈ K q → solid d c; d_root : is_Some (nodes d !! r);
  d_body : match b with Some b => elem d b | None => True end }.

(** What the tokenizer keeps of its consumer: the nodes of [d] are still there. *)
Definition sound_tree (d : dom) (p : tree) : Prop := good live p ∧ ∀ n, is_Some (nodes d !! n) → is_Some (nodes (td p) !! n).

Lemma sound_token d p t : sound_tree d p → ends (sink_token p t) (sound_tree d).
Proof.
  intros [Hp Hd]. pose proof Hp as [K H]. eapply ends_weaken; [apply (process_next live (λ _ H, H) p t Hp); apply H|].
  intros p' [Hp' [_ Hg]]. split; auto.
Qed.
Lemma sound_tag d p : sound_tree d p → ends (sink_tag p) (λ _, True).
Proof. intros [Hp _]. cbn. apply ends_node; [by apply (current_elem live (λ _ E, E))|]. intros x _. by apply ends_ok. Qed.

Lemma init_ends d K r b : doc_ok d K r b → ends (mini_html5_init d r b) (λ p, sound_tree d (sink (tk p)) ∧ carry p = []).
Proof.
  intros [H1 H2 H3 H4 H5 H6 H7]. unfold mini_html5_init.
  assert (good (λ _, true) (init_tree d r b)) as Hg by (exists K; split; cbn; auto).
  eapply ends_bind; [by apply (init_parser_next (λ _, true) (λ _ _, eq_refl))|]. intros p [[[K' Hi] Hg'] Hm]. apply ends_ok.
  split; [|done]. split; [|apply Hg']. exists K'. destruct Hi. by split.
Qed.

Lemma cstr_suffix s : ∀ u, suffix u (cstr s) → cstr u = u.
Proof.
  assert (∀ s, Forall (λ c, c ≠ 0) (cstr s)) as Hn.
  { clear. induction s as [|c s IH]; cbn [cstr]; [constructor|]. case_decide; by constructor. }
  intros u [v E]. specialize (Hn s). rewrite E in Hn. apply Forall_app in Hn as [_ Hn]. clear E.
  induction Hn as [|c u Hc _ IH]; cbn [cstr]; [done|]. rewrite decide_False by done. by f_equal.
Qed.

(** C7. Whatever the text, mis-nested as it may be, the parser reads it to its end
    and leaves a well linked document with all the nodes it had, ready for the
    next parse; the text only has to keep its numeric references within an
    [int] and within the RCDATA buffer, as any text without ampersands does. *)
Theorem html5_parse_total d K r b html : doc_ok d K r b → fits (cstr html) ∨ 38 ∉ html →
  ∃ d' b' K', mini_html5_parse d r b (Some html) = Ok (d', b') ∧ doc_ok d' K' r b'
    ∧ ∀ n, is_Some (nodes d !! n) → is_Some (nodes d' !! n).
Proof.
  intros Hd Hf'. assert (fits (cstr html)) as Hf.
  { destruct Hf' as [|H]; [done|]. apply fits_no_amp. intros Hin. apply H. clear -Hin. induction html as [|c s IH]; cbn [cstr] in Hin; [done|].
    case_decide; [by apply not_elem_of_nil in Hin|]. apply elem_of_cons in Hin as [->|]; [left|right; auto]. }
  assert (ends (mini_html5_parse d r b (Some html)) (λ a, ∃ K', doc_ok a.1 K' r a.2 ∧ ∀ n, is_Some (nodes d !! n) → is_Some (nodes a.1 !! n))) as H.
  { unfold mini_html5_parse. eapply ends_bind; [by eapply init_ends|]. intros p [Hp Hc].
    eapply (ends_bind _ _ (λ p, sound_tree d (sink (tk p)) ∧ suffix (carry p) (cstr html))).
    { unfold mini_html5_feed. destruct (cstr html) as [|c s] eqn:E; [apply ends_ok; rewrite Hc; by split|]. rewrite <- E in *. rewrite Hc. cbn [app].
      eapply ends_bind; [apply (tokenize_ends (sound_tree d) (sound_token d) (sound_tag d)); [exact Hp|exact Hf]|].
      intros t Ht. apply ends_ok. split; [exact Ht|]. cbn [carry]. eexists. symmetry. apply take_drop. }
    intros p1 [Hp1 Hs]. eapply (ends_bind _ _ (λ p, sound_tree d (sink (tk p)))).
    { unfold mini_html5_finish. destruct (carry p1) as [|c s] eqn:E; [by apply ends_ok|]. rewrite <- E in *. rewrite (cstr_suffix html) by done.
      eapply ends_bind; [apply (tokenize_ends (sound_tree d) (sound_token d) (sound_tag d)); [exact Hp1|by eapply fits_suffix]|].
      intros t Ht. by apply ends_ok. }
    intros p2 [[K2 Hp2] Hg2]. apply ends_ok. exists K2. cbn [fst snd]. split; [|done]. destruct Hp2. split; auto.
    apply Hg2, Hd. }
  destruct H as ([d' b']&E&K'&Hd'&Hg). by exists d', b', K'.
Qed.

(** The document of [mini_doc_create]. *)
Definition new_doc : dom := match mini_doc_create no_dom with Ok (d, _, _) => d | UB => no_dom end.
Definition new_kids : gmap nat (list nat) := {[ 1%nat := [2]%nat ]}.

#[export] Instance node_fit_dec (k : nat) n x : Decision ((n < k)%nat ∧ (ntype x = MN_TEXT_NODE → text x ≠ None) ∧
  ntype x ≠ MN_DOCUMENT_FRAGMENT_NODE ∧ match tag x with
  | Some t => ntype x = MN_ELEMENT_NODE ∨ h5_ci t (str "html") = false ∧ h5_ci t (str "body") = false | None => True end).
Proof. destruct (tag x); apply _. Defined.

Lemma new_doc_ok : doc_ok new_doc (kids_of new_kids) 1 (Some 2%nat).
Proof.
  assert (map_Forall (λ n x, (n < next_id new_doc)%nat ∧ (ntype x = MN_TEXT_NODE → text x ≠ None) ∧
    ntype x ≠ MN_DOCUMENT_FRAGMENT_NODE ∧ match tag x with
    | Some t => ntype x = MN_ELEMENT_NODE ∨ h5_ci t (str "html") = false ∧ h5_ci t (str "body") = false | None => True end) (nodes new_doc)) as H
    by (refine (bool_decide_eq_true_1 _ _); vm_compute; reflexivity).
  assert (linked new_doc (kids_of new_kids)) as HL by (apply linked_test_true; vm_compute; reflexivity).
  split.
  - exact HL.
  - intros n [x Hx]. exact (proj1 (H n x Hx)).
  - intros n x Hx. exact (proj1 (proj2 (H n x Hx))).
  - intros n x t Hx Ht Hne. pose proof (H n x Hx) as (_&_&_&Ho). rewrite Ht in Ho. by destruct Ho.
  - intros q c Hc. destruct (kid_node _ _ HL _ _ Hc) as (x&Hx&_). exists x. split; [exact Hx|]. apply (H c x Hx).
  - exists (match nodes new_doc !! 1%nat with Some x => x | None => zero_node MN_TEXT_NODE None None end). vm_compute. reflexivity.
  - exists (match nodes new_doc !! 2%nat with Some x => x | None => zero_node MN_TEXT_NODE None None end). split; vm_compute; reflexivity.
Qed.

(** A text that sends the adoption agency round a cycle. *)
Lemma html5_parse_total_witness :
  ∃ d' b' K', mini_html5_parse new_doc 1 (Some 2%nat) (Some (str "<b><i><u><div>x</b>y")) = Ok (d', b') ∧ doc_ok d' K' 1 b'
    ∧ ∀ n, is_Some (nodes new_doc !! n) → is_Some (nodes d' !! n).
Proof.
  apply (html5_parse_total new_doc (kids_of new_kids) 1 (Some 2%nat) (str "<b><i><u><div>x</b>y") new_doc_ok).
  right. refine (bool_decide_eq_true_1 _ _). vm_compute. reflexivity.
Defined.
