(* ===== verification/Html5Round.v ===== *)
(** * A printed document is parsed back (src/src/mini_html5.c)

    Markup as a tree, its text, and the conditions under which the parser
    builds that tree: the names of elements do not switch the insertion mode or
    the tokenizer, blocks stand neither in paragraphs nor directly in items.
    The tokenizer is followed token by token ([reaches]), tree construction node by
    node ([ctx], [frame]); [html5_roundtrip] puts them together. *)

From stdpp Require Import gmap list.
From S2P Require Import Prelude CString Dom Html5Ref Html5Tree Html5Tok Html5 Html5Inv.
Open Scope Z_scope.

(** ** Markup *)

Inductive markup :=
| Elt (t : bytes) (a : list (bytes * bytes)) (l : list markup)
| Txt (s : bytes)
| Cmt (s : bytes).

Section markup_ind.
Context (P : markup → Prop) (HE : ∀ t a l, Forall P l → P (Elt t a l)) (HT : ∀ s, P (Txt s)) (HC : ∀ s, P (Cmt s)).
Fixpoint markup_ind' (h : markup) : P h :=
  match h with
  | Elt t a l => HE t a l ((fix go l : Forall P l := match l with [] => Forall_nil_2 _ | h :: l => Forall_cons_2 _ _ _ (markup_ind' h) (go l) end) l)
  | Txt s => HT s
  | Cmt s => HC s
  end.
End markup_ind.

(** Text and attribute values are written with references. *)
Definition esc1 (c : Z) : bytes :=
  if decide (c = 38) then str "&amp;" else if decide (c = 60) then str "&lt;" else if decide (c = 34) then str "&quot;" else [c].
Definition esc (s : bytes) : bytes := flat_map esc1 s.
Definition print_attr (a : bytes * bytes) : bytes := 32 :: a.1 ++ 61 :: 34 :: esc a.2 ++ [34].

Fixpoint print (h : markup) : bytes :=
  match h with
  | Elt t a l =>
    60 :: t ++ flat_map print_attr a ++ 62 :: (if is_void_tag t then [] else flat_map print l ++ 60 :: 47 :: t ++ [62])
  | Txt s => esc s
  | Cmt s => str "<!--" ++ s ++ str "-->"
  end.
Definition prints (l : list markup) : bytes := flat_map print l.

(** ** What can be printed *)

Definition tag_char (c : Z) : bool := c_islower c || c_isdigit c || bool_decide (c = 45).
Definition rawish (t : bytes) : bool := h5_is_rawtext t || h5_is_rcdata t.
(** Names [in_body_start] and [in_body_end] treat as an ordinary, a formatting
    or a void element, a paragraph or an item. *)
Definition tag_ok (t : bytes) : bool :=
  bool_decide (length t <= 47)%nat && match t with c :: _ => c_islower c | [] => false end && forallb tag_char t && negb (rawish t)
  && negb (ci_one_of ["html"; "head"]%string t)
  && negb (ci_one_of ["base"; "basefont"; "bgsound"; "link"; "meta"; "title"]%string t)
  && negb (ci_one_of ["style"; "script"]%string t) && negb (h5_ci t (str "body")) && negb (h5_ci t (str "table"))
  && (negb (is_implied_end t) || h5_is_formatting t || h5_ci t (str "p") || ci_one_of ["li"; "dd"; "dt"]%string t)
  && negb (h5_is_formatting t && is_void_tag t).

(** The element may stand in the open elements [L], the last one its parent. *)
Definition start_ok (L : list bytes) (t : bytes) : bool :=
  let top := default [] (last L) in
  (negb (h5_closes_p t) || (negb (is_implied_end top) && forallb (λ u, negb (h5_ci u (str "p"))) L))
  && (negb (h5_ci t (str "li")) || negb (is_implied_end top) || h5_ci top (str "li"))
  && (negb (ci_one_of ["dd"; "dt"]%string t) || negb (is_implied_end top)).

Definition attr_char (c : Z) : bool := negb (h5_space c) && bool_decide (c ∉ [0; 38; 47; 61; 62]).
Definition nonzero (s : bytes) : bool := forallb (λ c, bool_decide (c ≠ 0)) s.
Definition attrs_ok (a : list (bytes * bytes)) : bool :=
  forallb (λ kv, bool_decide (kv.1 ≠ []) && forallb attr_char kv.1 && nonzero kv.2) a && bool_decide (NoDup a.*1).

(** No [-->] in the comment. *)
Fixpoint comment_ok (s : bytes) : bool :=
  match s with [] => true | c :: r => bool_decide (c ≠ 0) && bool_decide (c ≠ 38) && negb (starts_with (str "-->") s) && comment_ok r end.

Definition is_txt (h : markup) : bool := match h with Txt _ => true | _ => false end.
Fixpoint apart (l : list markup) : bool :=
  match l with
  | h :: l => negb (is_txt h && match l with h' :: _ => is_txt h' | [] => false end) && apart l
  | [] => true
  end.

Fixpoint ok (L : list bytes) (h : markup) : bool :=
  match h with
  | Elt t a l =>
    tag_ok t && start_ok L t && attrs_ok a
    && (if is_void_tag t then match l with [] => true | _ => false end else forallb (ok (L ++ [t])) l && apart l)
  | Txt s => bool_decide (s ≠ []) && nonzero s
  | Cmt s => comment_ok s
  end.
Definition oks (L : list bytes) (l : list markup) : bool := forallb (ok L) l && apart l.

(** ** The tokenizer on what is printed *)

Section tokens.
Context {St : Type} `{Sink St}.

(** From [p] before [s] to [q] before [s'], reading at least a byte per step. *)
Definition reaches (p : tokenizer St) (s : bytes) (q : tokenizer St) (s' : bytes) : Prop :=
  ∃ k, (k + length s' <= length s)%nat ∧ ∀ fuel, run_states (k + fuel) p s = run_states fuel q s'.

Lemma reaches_refl p s : reaches p s p s.
Proof. exists 0%nat. split; [lia|done]. Qed.
Lemma reaches_trans p1 s1 p2 s2 p3 s3 : reaches p1 s1 p2 s2 → reaches p2 s2 p3 s3 → reaches p1 s1 p3 s3.
Proof.
  intros (k1&H1&E1) (k2&H2&E2). exists (k1 + k2)%nat. split; [lia|]. intros fuel. by rewrite <- Nat.add_assoc, E1, E2.
Qed.
(** One step that reads; the rest. *)
Lemma reaches_step p c r q s' p' s : tok_step p c r = Ok (q, s') → (length s' <= length r)%nat → reaches q s' p' s → reaches p (c :: r) p' s.
Proof.
  intros E Hl H1. eapply reaches_trans; [|exact H1]. exists 1%nat. split; [simpl; lia|]. intros fuel. simpl. by rewrite E.
Qed.
Lemma reaches_end p s q : reaches p s q [] → tokenize_run p s = Ok q.
Proof.
  intros (k&Hk&E). unfold tokenize_run. replace (3 * length s + 3)%nat with (k + (3 * length s + 3 - k))%nat by (simpl in *; lia).
  rewrite E. by destruct (3 * length s + 3 - k)%nat.
Qed.

(** Bytes that the state only stores. *)
Lemma reaches_store st cu x u : ∀ a r, (∀ a c r, c ∈ u → tok_step (Tk st a cu x) c r = Ok (Tk st (a ++ [c]) cu x, r)) →
  reaches (Tk st a cu x) (u ++ r) (Tk st (a ++ u) cu x) r.
Proof.
  induction u as [|c u IH]; intros a r Hs; [rewrite app_nil_r; apply reaches_refl|].
  simpl. eapply reaches_step; [apply Hs; by left|done|]. replace (a ++ c :: u) with ((a ++ [c]) ++ u) by by rewrite <- app_assoc.
  apply IH. intros a' c' r' Hc. apply Hs. by right.
Qed.

(** Between tokens. *)
Definition between (a : bytes) (x : St) : tokenizer St := Tk TS_DATA a tok_reset x.

Fixpoint feed (x : St) (us : list bytes) : res St :=
  match us with [] => Ok x | u :: us => (let* x := sink_token x (char_token u) in feed x us)%c end.

(** What follows a text: markup or nothing. *)
Definition delim (r : bytes) : Prop := match r with [] => True | c :: _ => c = 60 end.
Definition plain (c : Z) : bool := negb (bool_decide (c = 60 ∨ c = 38)).

Lemma cstr_nonzero s : nonzero s = true → cstr s = s.
Proof.
  unfold nonzero. induction s as [|c s IH]; [done|]. simpl. intros [Hc%bool_decide_eq_true Hs]%andb_true_iff.
  rewrite decide_False by done. by rewrite IH.
Qed.
Lemma cstr_idem s : cstr (cstr s) = cstr s.
Proof. induction s as [|c s IH]; [done|]. simpl. case_decide; [done|]. simpl. rewrite decide_False by done. by rewrite IH. Qed.

Lemma run_plain a x u r x' : u ≠ [] → nonzero u = true → Forall (λ c, plain c = true) u →
  match r with [] => True | c :: _ => plain c = false end → sink_token x (char_token u) = Ok x' →
  reaches (between a x) (u ++ r) (between a x') r.
Proof.
  intros Hne Hz Hp Hr Hs. destruct u as [|c u]; [done|]. apply Forall_cons in Hp as [Hc Hp]. simpl.
  eapply reaches_step; [| |apply reaches_refl]; [|rewrite length_app; lia]. unfold tok_step, between. cbn [ts]. unfold data.
  unfold plain in Hc. apply negb_true_iff, bool_decide_eq_false in Hc.
  rewrite !decide_False by tauto. change (c :: u ++ r) with ((c :: u) ++ r).
  rewrite (scan_app _ _ (c :: u)); [|by apply Forall_cons; split; [apply negb_true_iff, bool_decide_eq_false|]|rewrite length_app; simpl; lia|].
  2: { intros c' r' ->. exact Hr. }
  unfold emit_char. cbn [sink]. by rewrite Hs.
Qed.

(** The references [esc] writes. *)
Lemma run_ref a x name o r x' : (name, o) ∈ H5_ENT → sink_token x (char_token o) = Ok x' →
  reaches (between a x) (38 :: name ++ 59 :: r) (between a x') r.
Proof.
  intros He Hs. eapply reaches_step; [| |apply reaches_refl].
  - unfold tok_step, between. cbn [ts]. unfold data. rewrite decide_True by done. rewrite (named_ref_entry _ _ _ He). cbn [res_bind].
    rewrite decide_True by lia. unfold emit_char. cbn [sink]. rewrite Hs. cbn [res_bind]. do 2 f_equal.
    change (2 + length name)%nat with (S (1 + length name))%nat. cbn [drop]. rewrite Nat.add_comm, <- drop_drop.
    rewrite drop_app_length. by simpl.
  - rewrite length_app. simpl. lia.
Qed.

Lemma esc1_cases c : (c = 38 ∧ esc1 c = str "&amp;") ∨ (c = 60 ∧ esc1 c = str "&lt;") ∨ (c = 34 ∧ esc1 c = str "&quot;")
  ∨ (plain c = true ∧ c ≠ 34 ∧ esc1 c = [c]).
Proof.
  unfold esc1, plain. repeat case_decide; [tauto..|]. right. right. right. rewrite bool_decide_eq_false_2 by tauto. done.
Qed.

Definition simple (c : Z) : bool := plain c && bool_decide (c ≠ 34).
Lemma simple_split s : ∃ u v, s = u ++ v ∧ Forall (λ c, simple c = true) u ∧ match v with [] => True | c :: _ => simple c = false end.
Proof.
  induction s as [|c s (u&v&->&Hu&Hv)]; [by exists [], []|]. destruct (simple c) eqn:E; [|by exists [], (c :: u ++ v)].
  exists (c :: u), v. split; [done|]. split; [by constructor|done].
Qed.
Lemma esc_simple u : Forall (λ c, simple c = true) u → esc u = u.
Proof.
  induction 1 as [|c u Hc _ IH]; [done|]. cbn [esc flat_map]. unfold esc in IH. rewrite IH. unfold simple in Hc.
  apply andb_true_iff in Hc as [Hp Hq%bool_decide_eq_true]. destruct (esc1_cases c) as [[-> _]|[[-> _]|[[-> _]|(_&_&->)]]]; by try discriminate Hp.
Qed.
(** A byte that is not simple is written as a reference. *)
Lemma esc_ref c s : simple c = false → ∃ name, (name, [c]) ∈ H5_ENT ∧ esc (c :: s) = 38 :: name ++ 59 :: esc s.
Proof.
  intros Hc. cbn [esc flat_map]. destruct (esc1_cases c) as [[-> ->]|[[-> ->]|[[-> ->]|(Hp&Hq&_)]]].
  - exists (str "amp"). split; [refine (bool_decide_eq_true_1 _ _); vm_compute; reflexivity|done].
  - exists (str "lt"). split; [refine (bool_decide_eq_true_1 _ _); vm_compute; reflexivity|done].
  - exists (str "quot"). split; [refine (bool_decide_eq_true_1 _ _); vm_compute; reflexivity|done].
  - unfold simple in Hc. by rewrite Hp, bool_decide_eq_true_2 in Hc.
Qed.
Lemma nonzero_app a b : nonzero (a ++ b) = nonzero a && nonzero b.
Proof. apply forallb_app. Qed.

(** Text is read in chunks: runs of plain bytes, and references. *)
Lemma run_esc n : ∀ s, (length s <= n)%nat → nonzero s = true → ∃ us, mjoin us = s ∧ Forall (λ u, u ≠ [] ∧ nonzero u = true) us ∧
  ∀ a r x x', delim r → feed x us = Ok x' → reaches (between a x) (esc s ++ r) (between a x') r.
Proof.
  induction n as [|n IH]; intros s Hl Hz.
  { destruct s; [|simpl in Hl; lia]. exists []. split; [done|]. split; [constructor|]. intros a r x x' _ [= <-]. apply reaches_refl. }
  destruct (simple_split s) as ([|c u]&v&->&Hu&Hv); cbn [app] in *.
  - destruct v as [|c v]; [exists []; split; [done|]; split; [constructor|]; intros a r x x' _ [= <-]; apply reaches_refl|].
    destruct (esc_ref c v Hv) as (name&He&E). pose proof Hz as [Hc Hz']%andb_true_iff. destruct (IH v) as (us&Ej&Hus&Hr); [simpl in Hl; lia|done|].
    exists ([c] :: us). split; [simpl; by rewrite Ej|]. split; [constructor; [|done]; split; [done|]; cbn [nonzero forallb]; by rewrite Hc|].
    intros a r x x' Hd Hf. rewrite E. cbn [feed] in Hf. destruct (sink_token x (char_token [c])) as [x1|] eqn:E1; [|done]. cbn [res_bind] in Hf.
    cbn [app]. rewrite <- app_assoc. eapply reaches_trans; [by eapply run_ref|]. by apply Hr.
  - set (w := c :: u) in *. change (c :: u ++ v) with (w ++ v) in *. rewrite nonzero_app in Hz. apply andb_true_iff in Hz as [Hw Hz].
    destruct (IH v) as (us&Ej&Hus&Hr); [rewrite length_app in Hl; simpl in Hl; lia|done|].
    exists (w :: us). split; [simpl; by rewrite Ej|]. split; [constructor; [by split|done]|].
    intros a r x x' Hd Hf. cbn [feed] in Hf. destruct (sink_token x (char_token w)) as [x1|] eqn:E1; [|done]. cbn [res_bind] in Hf.
    unfold esc. rewrite flat_map_app. fold (esc w) (esc v). rewrite (esc_simple w Hu), <- app_assoc.
    eapply reaches_trans; [|by apply Hr]. apply run_plain; [done..| | |exact E1].
    + eapply Forall_impl; [exact Hu|]. intros c0 Hc0. by apply andb_true_iff in Hc0 as [? _].
    + destruct v as [|c0 v]; [destruct r; [done|]; cbn in Hd; by subst|]. destruct (esc_ref c0 v Hv) as (name&_&->). done.
Qed.

Lemma tag_char_facts c : tag_char c = true →
  h5_space c = false ∧ c ≠ 47 ∧ c ≠ 62 ∧ c ≠ 0 ∧ c ≠ 38 ∧ c ≠ 59 ∧ c_tolower c = c.
Proof.
  unfold tag_char, h5_space, c_tolower, c_islower, c_isdigit, c_isupper. rewrite !orb_true_iff, !bool_decide_eq_true. intros H'.
  rewrite (bool_decide_eq_false_2 (65 <= c <= 90)) by lia. rewrite bool_decide_eq_false_2; [lia|].
  rewrite !elem_of_cons, elem_of_nil. lia.
Qed.
Lemma attr_char_facts c : attr_char c = true → h5_space c = false ∧ c ≠ 47 ∧ c ≠ 62 ∧ c ≠ 61 ∧ c ≠ 0 ∧ c ≠ 38.
Proof.
  unfold attr_char. rewrite andb_true_iff, negb_true_iff, bool_decide_eq_true, !elem_of_cons, elem_of_nil. intros [H1 H2]. split; [done|]. tauto.
Qed.
Lemma chars_nonzero f s : (∀ c, f c = true → c ≠ 0) → forallb f s = true → nonzero s = true.
Proof.
  intros Hf. rewrite forallb_forall. unfold nonzero. rewrite forallb_forall. intros Hs c Hc. apply bool_decide_eq_true. by apply Hf, Hs.
Qed.

Lemma value_run v : ∀ a cu x r, reaches (Tk TS_ATTR_VALUE_DQ a cu x) (esc v ++ r) (Tk TS_ATTR_VALUE_DQ (a ++ v) cu x) r.
Proof.
  induction v as [|c v IH]; intros a cu x r; [rewrite app_nil_r; apply reaches_refl|].
  destruct (simple c) eqn:Hc.
  - cbn [esc flat_map]. apply andb_true_iff in Hc as [Hp Hq%bool_decide_eq_true].
    destruct (esc1_cases c) as [[-> _]|[[-> _]|[[-> _]|(_&_&->)]]]; [done..|]. cbn [app]. apply negb_true_iff, bool_decide_eq_false in Hp.
    eapply (reaches_step _ _ _ (Tk TS_ATTR_VALUE_DQ (a ++ [c]) cu x)); [|done|].
    + unfold tok_step. cbn [ts]. unfold attr_value_quoted, value_byte. by rewrite !decide_False by tauto.
    + replace (a ++ c :: v) with ((a ++ [c]) ++ v) by by rewrite <- app_assoc. apply IH.
  - destruct (esc_ref c v Hc) as (name&He&->). cbn [app]. rewrite <- app_assoc. cbn [app].
    assert (cstr [c] = [c]) as Ec. { destruct (decide (c = 0)) as [->|]; [done|]. simpl. by rewrite decide_False. }
    eapply (reaches_step _ _ _ (Tk TS_ATTR_VALUE_DQ (a ++ [c]) cu x) (esc v ++ r)); [| |].
    + unfold tok_step. cbn [ts]. unfold attr_value_quoted, value_byte. rewrite decide_False, decide_True by done.
      rewrite (named_ref_entry _ _ _ He). cbn [res_bind]. rewrite decide_True by lia. rewrite Ec. unfold set_acc. cbn [acc ts cur sink]. do 2 f_equal.
      change (2 + length name)%nat with (S (1 + length name))%nat. cbn [drop]. rewrite Nat.add_comm, <- drop_drop.
      rewrite drop_app_length. by simpl.
    + rewrite !length_app. simpl. rewrite length_app. lia.
    + replace (a ++ c :: v) with ((a ++ [c]) ++ v) by by rewrite <- app_assoc. apply IH.
Qed.

Definition start_tag (t : bytes) (al : list (bytes * bytes)) : H5Token := Tok TT_START (Some t) al false.

Definition attr_ok (kv : bytes * bytes) : bool := bool_decide (kv.1 ≠ []) && forallb attr_char kv.1 && nonzero kv.2.

Lemma attr_run a t al x k v r : attr_ok (k, v) = true →
  reaches (Tk TS_BEFORE_ATTR_NAME a (start_tag t al) x) (k ++ 61 :: 34 :: esc v ++ 34 :: r)
       (Tk TS_AFTER_ATTR_VALUE [] (start_tag t (al ++ [(k, v)])) x) r.
Proof.
  unfold attr_ok. cbn [fst snd]. intros [[Hk%bool_decide_eq_true Hc]%andb_true_iff Hv]%andb_true_iff.
  pose proof (chars_nonzero attr_char k ltac:(intros c Hc'; by apply attr_char_facts in Hc' as (_&_&_&_&?&_)) Hc) as Hz.
  destruct k as [|c k]; [done|]. set (kk := c :: k) in *. assert (∀ c, c ∈ kk → attr_char c = true) as Hall.
  { intros c' Hc'. rewrite forallb_forall in Hc. apply Hc. by apply list_elem_of_In. }
  destruct (attr_char_facts c (Hall c ltac:(by left))) as (H1&H2&H3&_). cbn [app kk].
  eapply (reaches_step _ _ _ (Tk TS_ATTR_NAME [c] (start_tag t al) x)); [|done|].
  { unfold tok_step. cbn [ts]. unfold before_attr_name. rewrite H1. by rewrite decide_False by tauto. }
  eapply reaches_trans; [apply (reaches_store TS_ATTR_NAME (start_tag t al) x k)|].
  { intros a' c' r' Hc'. unfold tok_step. cbn [ts]. unfold attr_name.
    destruct (attr_char_facts c' (Hall c' ltac:(by right))) as (E1&E2&E3&E4&_). rewrite E1. by rewrite !decide_False by tauto. }
  cbn [app]. eapply (reaches_step _ _ _ (Tk TS_BEFORE_ATTR_VALUE [] (start_tag t (al ++ [(kk, [])])) x)); [|done|].
  { unfold tok_step. cbn [ts]. unfold attr_name, finish_attr, tok_add_attr, set_acc, set_cur, set_ts, start_tag.
    cbn [ts acc cur sink ttype tname tattrs is_self_closing]. fold kk. rewrite (cstr_nonzero _ Hz). reflexivity. }
  eapply (reaches_step _ _ _ (Tk TS_ATTR_VALUE_DQ [] (start_tag t (al ++ [(kk, [])])) x)); [done|done|].
  eapply reaches_trans; [apply value_run|]. cbn [app].
  eapply reaches_step; [|done|apply reaches_refl]. unfold tok_step. cbn [ts]. unfold attr_value_quoted. rewrite decide_True by done.
  unfold finish_value, set_last_attr_value, set_acc, set_cur, set_ts. cbn [ts acc cur sink tattrs start_tag]. rewrite last_snoc.
  rewrite (cstr_nonzero v Hv), length_app. cbn [length]. rewrite Nat.add_sub. by rewrite take_app_length.
Qed.

Definition named (t : bytes) : Prop := t ≠ [] ∧ c_islower (default 0 (head t)) = true ∧ Forall (λ c, tag_char c = true) t.

Lemma named_facts t : named t → nonzero t = true ∧ map c_tolower t = t.
Proof.
  intros (_&_&Ht). induction Ht as [|c t Hc Ht [IH1 IH2]]; [done|]. destruct (tag_char_facts c Hc) as (_&_&_&H0&_&_&Hl).
  cbn [nonzero forallb map]. rewrite bool_decide_eq_true_2 by done. split; [done|]. by rewrite Hl, IH2.
Qed.

Lemma emit_start st a t al x x' tg r : named t → sink_token x (start_tag t al) = Ok x' → sink_tag x' = Ok tg →
  match tg with Some u => rawish u = false | None => True end →
  emit_tag (Tk st a (start_tag t al) x) r = Ok (between a x', r).
Proof.
  intros Hn Hs Ht Hr. destruct (named_facts t Hn) as [_ Hl]. destruct Hn as (Hne&_&_). destruct t as [|c t]; [done|].
  unfold emit_tag, emit_current, set_ts, start_tag. cbn [cur ttype tname tattrs is_self_closing default from_option id sink]. rewrite Hl.
  unfold start_tag in Hs. rewrite Hs. cbn [res_bind]. rewrite decide_True by done. unfold maybe_enter_rawtext, set_cur, set_sink.
  cbn [sink ts acc cur]. rewrite Ht. cbn [res_bind]. destruct tg as [u|]; [|done]. apply orb_false_iff in Hr as [-> ->]. done.
Qed.

Lemma attrs_run al : ∀ al0 t x r, forallb attr_ok al = true →
  reaches (Tk TS_AFTER_ATTR_VALUE [] (start_tag t al0) x) (flat_map print_attr al ++ r)
       (Tk TS_AFTER_ATTR_VALUE [] (start_tag t (al0 ++ al)) x) r.
Proof.
  induction al as [|[k v] al IH]; intros al0 t x r Ho; [rewrite app_nil_r; apply reaches_refl|].
  cbn [forallb] in Ho. apply andb_true_iff in Ho as [Hkv Ho]. cbn [flat_map]. unfold print_attr at 1. cbn [fst snd].
  rewrite <- app_assoc. cbn [app]. rewrite <- app_assoc. cbn [app]. rewrite <- app_assoc. cbn [app].
  eapply reaches_step; [reflexivity|done|]. eapply reaches_trans; [by apply (attr_run _ t al0)|].
  replace (al0 ++ (k, v) :: al) with ((al0 ++ [(k, v)]) ++ al) by by rewrite <- app_assoc. by apply IH.
Qed.

Lemma name_run ty a x t r : named t →
  reaches (Tk TS_TAG_NAME a (Tok ty None [] false) x) (t ++ r) (Tk TS_TAG_NAME (a ++ t) (Tok ty None [] false) x) r.
Proof.
  intros (_&_&Ht). apply reaches_store. intros a' c r' Hc. rewrite Forall_forall in Ht. destruct (tag_char_facts c (Ht c Hc)) as (H1&H2&H3&_).
  unfold tok_step. cbn [ts]. unfold tag_name. rewrite H1. by rewrite !decide_False by done.
Qed.
Lemma lower_alpha c : c_islower c = true → c ≠ 33 ∧ c ≠ 47 ∧ c_isalpha c = true.
Proof.
  unfold c_isalpha. intros Hc. rewrite Hc, orb_true_r. split; [|split; [|done]]; intros ->; discriminate Hc.
Qed.
Lemma tag_open_run a x t r : named t →
  reaches (between a x) (60 :: t ++ r) (Tk TS_TAG_NAME t tok_reset x) r.
Proof.
  intros Hn. pose proof Hn as (Hne&Hc&Ht). destruct t as [|c t]; [done|]. cbn in Hc. apply Forall_cons in Ht as [_ Ht].
  eapply reaches_step; [reflexivity|done|]. destruct (lower_alpha c Hc) as (H1&H2&H3). cbn [app].
  eapply (reaches_step _ _ _ (Tk TS_TAG_NAME [c] tok_reset x)); [|done|].
  { unfold tok_step, set_ts. cbn [ts]. unfold tag_open. rewrite !decide_False by done. by rewrite H3. }
  apply (reaches_store TS_TAG_NAME tok_reset x t [c] r). intros a' c' r' Hc'. rewrite Forall_forall in Ht.
  destruct (tag_char_facts c' (Ht c' Hc')) as (E1&E2&E3&_). unfold tok_step. cbn [ts]. unfold tag_name. rewrite E1. by rewrite !decide_False by done.
Qed.

Lemma start_run a x t al r x' tg : named t → forallb attr_ok al = true → sink_token x (start_tag t al) = Ok x' → sink_tag x' = Ok tg →
  match tg with Some u => rawish u = false | None => True end →
  reaches (between a x) (60 :: t ++ flat_map print_attr al ++ 62 :: r) (between [] x') r.
Proof.
  intros Hn Ho Hs Ht Hr. pose proof (named_facts t Hn) as [Hz _]. eapply reaches_trans; [by apply tag_open_run|].
  assert (finish_name (Tk TS_TAG_NAME t tok_reset x) = Tk TS_TAG_NAME [] (start_tag t []) x) as Ef.
  { unfold finish_name, set_acc, set_cur, tok_set_name. cbn [ts acc cur sink]. by rewrite (cstr_nonzero t Hz). }
  destruct al as [|[k v] al].
  - cbn [flat_map app]. eapply reaches_step; [|done|apply reaches_refl]. unfold tok_step. cbn [ts]. unfold tag_name.
    cbn [h5_space]. rewrite !decide_False by done. rewrite decide_True by done. rewrite Ef. by apply (emit_start _ _ _ _ _ _ tg).
  - cbn [forallb] in Ho. apply andb_true_iff in Ho as [Hkv Ho]. cbn [flat_map]. unfold print_attr at 1. cbn [fst snd].
    rewrite <- app_assoc. cbn [app]. rewrite <- app_assoc. cbn [app]. rewrite <- app_assoc. cbn [app].
    eapply (reaches_step _ _ _ (Tk TS_BEFORE_ATTR_NAME [] (start_tag t []) x)); [|done|].
    { unfold tok_step. cbn [ts]. unfold tag_name. by rewrite Ef. }
    eapply reaches_trans; [by apply (attr_run _ t [])|]. eapply reaches_trans; [by apply attrs_run|]. cbn [app].
    eapply reaches_step; [|done|apply reaches_refl]. unfold tok_step. cbn [ts]. unfold after_attr_value.
    by apply (emit_start _ _ _ _ _ _ tg).
Qed.

Definition end_tag (t : bytes) : H5Token := Tok TT_END (Some t) [] false.
Lemma end_run a x t r x' : named t → sink_token x (end_tag t) = Ok x' →
  reaches (between a x) (60 :: 47 :: t ++ 62 :: r) (between [] x') r.
Proof.
  intros Hn Hs. pose proof (named_facts t Hn) as [Hz Hl]. pose proof Hn as (Hne&Hc&Ht). destruct t as [|c t]; [done|]. cbn in Hc.
  apply Forall_cons in Ht as [_ Ht]. destruct (lower_alpha c Hc) as (_&_&H3). do 2 (eapply reaches_step; [reflexivity|done|]). cbn [app].
  eapply (reaches_step _ _ _ (Tk TS_TAG_NAME [c] (Tok TT_END None [] false) x)); [|done|].
  { unfold tok_step, set_ts. cbn [ts]. unfold end_tag_open. by rewrite H3. }
  eapply reaches_trans; [apply (reaches_store TS_TAG_NAME (Tok TT_END None [] false) x t [c])|].
  { intros a' c' r' Hc'. rewrite Forall_forall in Ht. destruct (tag_char_facts c' (Ht c' Hc')) as (E1&E2&E3&_).
    unfold tok_step. cbn [ts]. unfold tag_name. rewrite E1. by rewrite !decide_False by done. }
  eapply reaches_step; [|done|apply reaches_refl]. unfold tok_step. cbn [ts]. unfold tag_name. rewrite !decide_False by done. rewrite decide_True by done.
  unfold emit_tag, emit_current, finish_name, set_acc, set_cur, set_ts, tok_set_name. cbn [ts acc cur sink ttype tname tattrs is_self_closing app h5_space].
  rewrite (cstr_nonzero _ Hz). cbn [default from_option id]. rewrite Hl. unfold end_tag in Hs. rewrite Hs. done.
Qed.

Definition comment_token (s : bytes) : H5Token := Tok TT_COMMENT (Some s) [] false.

(** No byte of the comment starts its end, even with the end next to it. *)
Lemma comment_head c s r : comment_ok (c :: s) = true → bool_decide (c = 45) && starts_with [45; 62] (s ++ str "-->" ++ r) = false.
Proof.
  cbn [comment_ok]. rewrite !andb_true_iff, negb_true_iff. intros [[_ Hs] _]. case_bool_decide as Ec; [|done]. subst. cbn [andb].
  unfold starts_with in *. apply bool_decide_eq_false in Hs. apply bool_decide_eq_false. intros E. apply Hs.
  destruct s as [|c [|c' s]]; cbn in *; [discriminate E|discriminate E|]. rewrite !take_0 in *. by simplify_eq.
Qed.

Lemma comment_store s : ∀ a x r, comment_ok s = true →
  reaches (Tk TS_COMMENT a tok_reset x) (s ++ str "-->" ++ r) (Tk TS_COMMENT (a ++ s) tok_reset x) (str "-->" ++ r).
Proof.
  induction s as [|c s IH]; intros a x r Hs; [rewrite app_nil_r; apply reaches_refl|]. cbn [app].
  eapply (reaches_step _ _ _ (Tk TS_COMMENT (a ++ [c]) tok_reset x)); [|done|].
  - unfold tok_step. cbn [ts]. unfold comment. by rewrite comment_head.
  - replace (a ++ c :: s) with ((a ++ [c]) ++ s) by by rewrite <- app_assoc. apply IH. cbn [comment_ok] in Hs. by apply andb_true_iff in Hs as [_ ?].
Qed.

Lemma comment_nonzero s : comment_ok s = true → nonzero s = true.
Proof.
  induction s as [|c s IH]; [done|]. cbn [comment_ok nonzero forallb]. rewrite !andb_true_iff. intros [[[? _] _] ?]. split; [done|by apply IH].
Qed.

Lemma comment_run a x s r x' : comment_ok s = true → sink_token x (comment_token s) = Ok x' →
  reaches (between a x) (str "<!--" ++ s ++ str "-->" ++ r) (between s x') r.
Proof.
  intros Hs Hx. do 2 (eapply reaches_step; [reflexivity|done|]). cbn [app].
  eapply (reaches_step _ _ _ (Tk TS_COMMENT [] tok_reset x) (s ++ str "-->" ++ r)); [done| |].
  { change (map ch _) with (str "-->"). simpl. lia. }
  eapply reaches_trans; [by apply comment_store|]. cbn [app].
  eapply reaches_step; [| |apply reaches_refl].
  - unfold tok_step. cbn [ts]. unfold comment. rewrite bool_decide_eq_true_2 by done. change (starts_with [45; 62] _) with true. cbn [andb].
    unfold emit_tag, emit_current, finish_comment, set_ts, set_cur, tok_set_name, tok_set_type. cbn [ts acc cur sink ttype tname tattrs is_self_closing default from_option id].
    rewrite (cstr_nonzero s) by by apply comment_nonzero. unfold comment_token in Hx. cbn. rewrite Hx. cbn. reflexivity.
  - simpl. lia.
Qed.
End tokens.

(** ** Tree construction on these tokens *)

Definition content (x : MiniNode) := (ntype x, tag x, text x, attrs x).
(** The open elements with their names; the formatting ones are the list. *)
Definition fmts (S : list (nat * bytes)) : list nat := (filter (λ e, h5_is_formatting e.2 = true) S).*1.

Section build.
Context (bd : option nat).
Record ctx (p : tree) (K : nat → list nat) (S : list (nat * bytes)) : Prop := {
  c_linked : linked (td p) K;
  c_fresh : fresh_ids (td p);
  c_mode : mode p = M_IN_BODY;
  c_open : open p = S.*1;
  c_elem : Forall (λ e, ∃ x, nodes (td p) !! e.1 = Some x ∧ ntype x = MN_ELEMENT_NODE ∧ tag x = Some e.2) S;
  c_raw : Forall (λ e, rawish e.2 = false) S;
  c_afe : afe p = Some <$> fmts S;
  c_body : body p = bd }.

(** Only the children of [c] change, new nodes apart. *)
Definition frame (c : nat) (d : dom) (K : nat → list nat) (d' : dom) (K' : nat → list nat) : Prop :=
  (next_id d <= next_id d')%nat ∧
  ∀ m x, nodes d !! m = Some x → (∃ y, nodes d' !! m = Some y ∧ content y = content x) ∧ (m ≠ c → K' m = K m).

Lemma frame_refl c d K : frame c d K d K.
Proof. split; [lia|]. intros m x Hx. split; [by exists x|done]. Qed.
Lemma frame_trans c c' d K d1 K1 d2 K2 : frame c d K d1 K1 → frame c' d1 K1 d2 K2 → c' = c ∨ nodes d !! c' = None → frame c d K d2 K2.
Proof.
  intros [L1 H1] [L2 H2] Hc. split; [lia|]. intros m x Hx. destruct (H1 m x Hx) as [(y&Hy&Ey) HK]. destruct (H2 m y Hy) as [(z&Hz&Ez) HK'].
  split; [exists z; split; [done|congruence]|]. intros Hm. rewrite HK', HK; [done..|]. destruct Hc as [->|Hc]; [done|]. intros ->. congruence.
Qed.

(** The tree of a piece of markup; its nodes have numbers from [lo] on. *)
Inductive shows (lo : nat) (d : dom) (K : nat → list nat) : nat → markup → Prop :=
| shows_elt n x t a l : (lo <= n)%nat → nodes d !! n = Some x →
    content x = (MN_ELEMENT_NODE, Some t, None, rev ((λ '(k, v), (k, Some v)) <$> a)) → Forall2 (shows lo d K) (K n) l → shows lo d K n (Elt t a l)
| shows_txt n x s : (lo <= n)%nat → nodes d !! n = Some x → content x = (MN_TEXT_NODE, None, Some s, []) → K n = [] → shows lo d K n (Txt s)
| shows_cmt n x s : (lo <= n)%nat → nodes d !! n = Some x → content x = (MN_COMMENT_NODE, None, Some s, []) → K n = [] → shows lo d K n (Cmt s).

Lemma shows_frame lo d K c d' K' h : frame c d K d' K' → (c < lo)%nat → ∀ n, shows lo d K n h → shows lo d' K' n h.
Proof.
  intros HF Hc. induction h as [t a l IH|s|s] using markup_ind'; intros n Hn; inversion Hn as [n' x ? ? ? Hlo Hx Hd HK|n' x ? Hlo Hx Hd HK|n' x ? Hlo Hx Hd HK]; subst;
    destruct (proj2 HF n x Hx) as [(y&Hy&Ey) EK]; specialize (EK ltac:(lia)).
  - apply (shows_elt _ _ _ _ y); [done..|congruence|]. rewrite EK. clear -IH HK. induction HK; [constructor|].
    apply Forall_cons in IH as [H1 H2]. constructor; auto.
  - apply (shows_txt _ _ _ _ y); congruence.
  - apply (shows_cmt _ _ _ _ y); congruence.
Qed.
Lemma shows_lower lo lo' d K h : (lo' <= lo)%nat → ∀ n, shows lo d K n h → shows lo' d K n h.
Proof.
  intros Hl. induction h as [t a l IH|s|s] using markup_ind'; intros n Hn; inversion Hn as [n' x ? ? ? Hlo Hx Hd HK|n' x ? Hlo Hx Hd HK|n' x ? Hlo Hx Hd HK]; subst.
  - apply (shows_elt _ _ _ _ x); [lia|done..|]. clear -IH HK. induction HK; [constructor|].
    apply Forall_cons in IH as [H1 H2]. constructor; auto.
  - apply (shows_txt _ _ _ _ x); [lia|done..].
  - apply (shows_cmt _ _ _ _ x); [lia|done..].
Qed.

Definition grown (c n : nat) (K : nat → list nat) (q : nat) : list nat := if decide (q = c) then K q ++ [n] else K q.

(** A node just made goes to the end of the current one. *)
Lemma append_new p K S c t x d1 : ctx p K S → last S = Some (c, t) → nodes d1 = <[next_id (td p) := x]> (nodes (td p)) →
  next_id d1 = Datatypes.S (next_id (td p)) → lk x = no_links → ntype x ≠ MN_DOCUMENT_FRAGMENT_NODE →
  ∃ d', append (set_td d1 p) c (next_id (td p)) = Ok (set_td d' p) ∧ ctx (set_td d' p) (grown c (next_id (td p)) K) S
    ∧ frame c (td p) K d' (grown c (next_id (td p)) K) ∧ (∃ y, nodes d' !! next_id (td p) = Some y ∧ content y = content x)
    ∧ next_id d' = Datatypes.S (next_id (td p)) ∧ grown c (next_id (td p)) K (next_id (td p)) = [] ∧ (c < next_id (td p))%nat.
Proof.
  intros H HS Hd1 Hn1 Hlk Hty. set (n := next_id (td p)) in *.
  assert (nodes (td p) !! n = None) as Hfree.
  { destruct (nodes (td p) !! n) eqn:E; [|done]. pose proof (c_fresh _ _ _ H n ltac:(by eexists)). unfold n in *. lia. }
  assert (∃ xc, nodes (td p) !! c = Some xc) as [xc Hc].
  { pose proof (c_elem _ _ _ H) as He. rewrite Forall_forall in He. destruct (He (c, t)) as (xc&?&_); [by apply last_Some_elem_of|]. by exists xc. }
  assert (c < n)%nat as Hcn by (apply (c_fresh _ _ _ H); by eexists).
  assert (linked d1 K) as HL1.
  { eapply linked_nodes; [|apply (linked_alloc (td p) K x); [apply H|apply H|done]]. by rewrite Hd1. }
  assert (∀ q, n ∉ K q) as Hfr.
  { intros q Hq. destruct (kid_node _ _ (c_linked _ _ _ H) _ _ Hq) as (z&Hz&_). congruence. }
  destruct (append_child_spec d1 K HL1 c n x) as (d'&E&HL&HD&_); [by rewrite Hd1, lookup_insert_eq|done| |].
  { rewrite Hd1, lookup_insert_ne by lia. by eexists. }
  assert (HF : frame c (td p) K d' (grown c n K)).
  { split; [rewrite (proj1 (proj2 HD)), Hn1; unfold n; lia|]. intros m z Hz. split; [|intros Hm; unfold grown; by rewrite decide_False].
    destruct (same_data_node d1 d' m z HD) as (y&Hy&Ey); [rewrite Hd1, lookup_insert_ne; [done|intros ->; congruence]|].
    exists y. split; [done|]. exact (f_equal content Ey). }
  exists d'. split; [unfold append; cbn [td set_td]; by rewrite E|].
  assert (linked d' (grown c n K)) as HL'.
  { eapply linked_ext; [|exact HL]. intros q. unfold grown. by rewrite (without_id n (K q) (Hfr q)). }
  split; [|split; [done|split; [|split; [by rewrite (proj1 (proj2 HD))|split; [|done]]]]].
  - destruct H as [_ Hf Hm Ho He Hr Ha Hb]. split; cbn [td set_td mode open afe]; auto.
    + eapply same_data_fresh; [exact HD|]. intros m. rewrite Hd1, Hn1. intros [z Hz]. destruct (decide (m = n)) as [->|]; [lia|].
      rewrite lookup_insert_ne in Hz by done. pose proof (Hf m ltac:(by eexists)). unfold n in *. lia.
    + eapply Forall_impl; [exact He|]. intros [m u] (z&Hz&H1&H2). destruct (proj2 HF m z Hz) as [(y&Hy&Ey) _]. exists y.
      unfold content in Ey. split; [done|]. split; congruence.
  - destruct (same_data_node d1 d' n x HD) as (y&Hy&Ey); [by rewrite Hd1, lookup_insert_eq|]. exists y. split; [done|]. exact (f_equal content Ey).
  - unfold grown. rewrite decide_False by lia. by apply (lk_dom _ _ (c_linked _ _ _ H)).
Qed.

Lemma ctx_tail v p K S : ctx p K S → ctx (set_tail v p) K S.
Proof. intros []; by split. Qed.
Lemma ctx_current p K S c t : ctx p K S → last S = Some (c, t) → current_node p = c ∧ ∃ x, nodes (td p) !! c = Some x ∧ ntype x = MN_ELEMENT_NODE ∧ tag x = Some t.
Proof.
  intros H HS. split; [unfold current_node; by rewrite (c_open _ _ _ H), fmap_last, HS|].
  pose proof (c_elem _ _ _ H) as He. rewrite Forall_forall in He. apply (He (c, t)). by apply last_Some_elem_of.
Qed.

(** What a token may do: one more node [n] that shows [h]; the open elements are [S']. *)
Definition adds (p : tree) (K : nat → list nat) (c : nat) (p' : tree) (K' : nat → list nat) (S' : list (nat * bytes)) (h : markup) : Prop :=
  let n := next_id (td p) in
  ctx p' K' S' ∧ frame c (td p) K (td p') K' ∧ K' c = K c ++ [n] ∧ shows n (td p') K' n h ∧ (c < n)%nat.

Lemma comment_token_run p K S c t s : ctx p K S → last S = Some (c, t) →
  ∃ p' K', process_token p (comment_token s) = Ok p' ∧ adds p K c p' K' S (Cmt s).
Proof.
  intros H HS. destruct (ctx_current _ _ _ _ _ H HS) as [Hc _].
  destruct (append_new p K S c t (zero_node MN_COMMENT_NODE None (Some s)) (mini_node_create_comment (Some s) (td p)).1 H HS) as (d'&E&H'&HF&(y&Hy&Ey)&_&Hk&Hl); [done..|].
  eexists _, _. split; [|split; [by apply (ctx_tail None)|split; [exact HF|split; [|split; [|done]]]]].
  - unfold process_token. cbn [process_fuel]. unfold in_mode. rewrite (c_mode _ _ _ H). cbn [comment_token ttype tname]. unfold insert_comment, create.
    cbn [default from_option id]. unfold mini_node_create_comment, alloc in *. cbn [fst] in E. rewrite Hc, E. cbn [res_bind]. reflexivity.
  - unfold grown. by rewrite decide_True.
  - by apply (shows_cmt _ _ _ _ y).
Qed.

Lemma assoc_set_new {V} (l : list (bytes * V)) k v : k ∉ l.*1 → assoc_set l k v = None.
Proof.
  induction l as [|[k' v'] l IH]; [done|]. rewrite fmap_cons, not_elem_of_cons. intros [Hne Hk]. cbn [assoc_set].
  unfold streq. rewrite bool_decide_eq_false_2 by (intros ->; by apply Hne). by rewrite IH.
Qed.
Lemma set_attributes_new al : ∀ d n x, nodes d !! n = Some x → NoDup al.*1 → (∀ k, k ∈ al.*1 → k ∉ (attrs x).*1) →
  ∃ d', set_attributes d n al = Ok d' ∧ nodes d' = <[n := set_attrs (rev ((λ '(k, v), (k, Some v)) <$> al) ++ attrs x) x]> (nodes d) ∧ next_id d' = next_id d.
Proof.
  induction al as [|[k v] al IH]; intros d n x Hx Hnd Hk; cbn [set_attributes].
  - exists d. split; [done|]. split; [|done]. cbn. rewrite insert_id; [done|]. rewrite Hx. by destruct x.
  - apply NoDup_cons in Hnd as [Hkn Hnd]. unfold mini_node_set_attribute, node, put. rewrite Hx. cbn [res_bind].
    assert (attr_set (attrs x) k (Some v) = (k, Some v) :: attrs x) as Ea.
    { unfold attr_set. rewrite assoc_set_new; [done|]. apply Hk. by left. }
    rewrite Ea. set (d1 := notify_mutation _ _).
    destruct (IH d1 n (set_attrs ((k, Some v) :: attrs x) x)) as (d'&E&En&Ei); [by unfold d1; cbn; rewrite lookup_insert_eq|done| |].
    + intros k' Hk'. cbn. apply not_elem_of_cons. split; [by intros ->|]. apply Hk. by right.
    + exists d'. split; [exact E|]. split; [|by rewrite Ei]. rewrite En. unfold d1. cbn [notify_mutation with_nodes nodes]. rewrite insert_insert_eq.
      cbn [fmap list_fmap rev attrs set_attrs]. by rewrite <- app_assoc.
Qed.

Definition elt_data (t : bytes) (al : list (bytes * bytes)) : MiniNode :=
  set_attrs (rev ((λ '(k, v), (k, Some v)) <$> al)) (element_node t).
Lemma create_element_run p t al : (length t <= 47)%nat → map c_tolower t = t → NoDup al.*1 →
  ∃ d1, create_element_for_token p (start_tag t al) = Ok (set_td d1 p, next_id (td p))
    ∧ nodes d1 = <[next_id (td p) := elt_data t al]> (nodes (td p)) ∧ next_id d1 = Datatypes.S (next_id (td p)).
Proof.
  intros Hl Ht Hnd. unfold create_element_for_token, create, mini_node_create_element, alloc. cbn [start_tag tname tattrs default from_option id td set_td].
  rewrite take_ge, Ht by done. set (d0 := Dom _ _ _ _ _).
  destruct (set_attributes_new al d0 (next_id (td p)) (element_node t)) as (d1&E&En&Ei); [unfold d0; cbn; by rewrite lookup_insert_eq|done|cbn; intros k _; by apply not_elem_of_nil|].
  exists d1. rewrite E. cbn [res_bind]. split; [done|]. split; [|done]. rewrite En. unfold d0. cbn [nodes]. rewrite insert_insert_eq. cbn [attrs element_node]. by rewrite app_nil_r.
Qed.

(** *** The stack is left alone *)

Lemma set_open_id p : set_open (open p) p = p.
Proof. by destruct p. Qed.
Lemma rev_open p K S e : ctx p K (S ++ [e]) → rev (open p) = e.1 :: rev S.*1.
Proof. intros H. by rewrite (c_open _ _ _ H), fmap_app, rev_app_distr. Qed.
Lemma node_tag p K S c u : ctx p K S → (c, u) ∈ S → ∃ x, node (td p) c = Ok x ∧ tag x = Some u.
Proof.
  intros H Hin. pose proof (c_elem _ _ _ H) as He. rewrite Forall_forall in He. destruct (He _ Hin) as (x&Hx&_&Ht). exists x.
  split; [unfold node; cbn in Hx; by rewrite Hx|done].
Qed.
Lemma top_in {A} (S : list A) e : e ∈ S ++ [e].
Proof. rewrite elem_of_app. right. by left. Qed.

Lemma implied_noop p K S c u e : ctx p K (S ++ [(c, u)]) →
  is_implied_end u = false ∨ match e with Some e => h5_ci u e | None => false end = true → gen_implied_end p e = Ok p.
Proof.
  intros H Hu. unfold gen_implied_end. pose proof (rev_open _ _ _ _ H) as E. rewrite E. cbn [fst implied_loop].
  destruct (node_tag _ _ _ _ _ H (top_in S (c, u))) as (x&->&Ht). cbn [res_bind]. rewrite Ht. cbn [fst] in E.
  assert (Ok (set_open (rev (c :: rev S.*1)) p) = Ok p) as Eo by by rewrite <- E, rev_involutive, set_open_id.
  destruct (is_implied_end u); [|done]. destruct Hu as [|Hu]; [done|]. destruct e as [e|]; [|done]. by rewrite Hu.
Qed.

Lemma scope_none p K S tg b : ctx p K S → (∀ e, e ∈ S → h5_ci e.2 tg = false) → has_in_scope p tg b = Ok false.
Proof.
  intros H Hn. unfold has_in_scope. generalize (if b then TABLE_SCOPE else DEFAULT_SCOPE). intros B. rewrite (c_open _ _ _ H). change (rev S.*1) with (rev (map fst S)). rewrite <- map_rev.
  assert (∀ e, e ∈ rev S → e ∈ S) as Hr by (intros e; by rewrite !list_elem_of_In, <- in_rev). induction (rev S) as [|[c u] l IH]; [done|].
  cbn [map scope_loop fst]. destruct (node_tag _ _ _ c u H) as (x&->&Ht); [apply Hr; by left|]. cbn [res_bind]. rewrite Ht.
  specialize (Hn (c, u) (Hr _ ltac:(by left))) as Hcu. cbn in Hcu. rewrite Hcu. destruct (ci_one_of B u); [done|]. apply IH. intros e He. apply Hr. by right.
Qed.
Lemma scope_top p K S c u tg b : ctx p K (S ++ [(c, u)]) → h5_ci u tg = true → has_in_scope p tg b = Ok true.
Proof.
  intros H Hu. unfold has_in_scope. rewrite (rev_open _ _ _ _ H). cbn [fst scope_loop].
  destruct (node_tag _ _ _ _ _ H (top_in S (c, u))) as (x&->&Ht). cbn [res_bind]. by rewrite Ht, Hu.
Qed.
Lemma pop_top p K S c u tg : ctx p K (S ++ [(c, u)]) → h5_ci u tg = true → pop_loop p tg = Ok (set_open S.*1 p) ∧ pop_until p tg = Ok (set_open S.*1 p).
Proof.
  intros H Hu. unfold pop_until, pop_loop. rewrite (rev_open _ _ _ _ H). cbn [fst pop_to any_open]. unfold tag_is.
  destruct (node_tag _ _ _ _ _ H (top_in S (c, u))) as (x&->&Ht). cbn [res_bind]. rewrite Ht, Hu. cbn [res_bind]. by rewrite rev_involutive.
Qed.

Lemma fmts_open S n : n ∈ fmts S → n ∈ S.*1.
Proof. unfold fmts. rewrite !list_elem_of_fmap. intros (e&->&[_ He]%list_elem_of_filter). by exists e. Qed.
Lemma fmts_snoc S c t : fmts (S ++ [(c, t)]) = fmts S ++ (if h5_is_formatting t then [c] else []).
Proof.
  unfold fmts. rewrite filter_app, fmap_app. f_equal. rewrite filter_cons, filter_nil. cbn [snd]. destruct (h5_is_formatting t); by case_decide.
Qed.
Lemma reconstruct_noop p K S : ctx p K S → reconstruct_active_formatting p = Ok p.
Proof.
  intros H. unfold reconstruct_active_formatting. rewrite (c_afe _ _ _ H), fmap_last. destruct (last (fmts S)) as [n|] eqn:E; [|done].
  cbn [fmap option_fmap option_map]. unfold is_open. rewrite bool_decide_eq_true_2; [done|]. rewrite (c_open _ _ _ H).
  apply fmts_open. by apply last_Some_elem_of.
Qed.

Lemma h5_ci_refl t : h5_ci t t = true.
Proof. unfold h5_ci. induction t as [|c t IH]; [done|]. cbn [ci_eq]. by rewrite decide_True. Qed.

(** *** Start tags *)

Record tag_facts (t : bytes) : Prop := {
  tf_len : (length t <= 47)%nat; tf_named : named t; tf_raw : rawish t = false;
  tf_html : ci_one_of ["html"; "head"]%string t = false;
  tf_head : ci_one_of ["base"; "basefont"; "bgsound"; "link"; "meta"; "title"]%string t = false;
  tf_style : ci_one_of ["style"; "script"]%string t = false;
  tf_body : h5_ci t (str "body") = false; tf_table : h5_ci t (str "table") = false;
  tf_implied : is_implied_end t = false ∨ h5_is_formatting t = true ∨ h5_ci t (str "p") = true ∨ ci_one_of ["li"; "dd"; "dt"]%string t = true;
  tf_void : h5_is_formatting t = true → is_void_tag t = false }.
Lemma tag_ok_facts t : tag_ok t = true → tag_facts t.
Proof.
  unfold tag_ok. rewrite !andb_true_iff, !negb_true_iff, !orb_true_iff, negb_true_iff, bool_decide_eq_true, andb_false_iff.
  intros ((((((((((H1&H2)&H3)&H4)&H5)&H6)&H7)&H8)&H9)&H10)&H11). split; try done.
  - destruct t as [|c t]; [done|]. split; [done|]. split; [done|]. rewrite Forall_forall. intros c' Hc'. rewrite forallb_forall in H3.
    apply H3. by apply list_elem_of_In.
  - tauto.
  - intros E. destruct H11; congruence.
Qed.

(** The steps before the element is made change nothing. *)
Lemma start_steps p K S c u t : ctx p K (S ++ [(c, u)]) → start_ok (S ++ [(c, u)]).*2 t = true →
  (if h5_closes_p t then close_p_if_open p else Ok p) = Ok p
  ∧ (if h5_ci t (str "li") then gen_implied_end p (Some (str "li")) else Ok p) = Ok p
  ∧ (if ci_one_of ["dd"; "dt"]%string t then gen_implied_end p None else Ok p) = Ok p.
Proof.
  intros H. unfold start_ok. rewrite fmap_app. cbv zeta. cbn [fmap list_fmap snd]. rewrite last_snoc. cbn [default from_option id].
  rewrite !andb_true_iff, !orb_true_iff, !negb_true_iff. intros ((H1&H2)&H3). split; [|split].
  - destruct (h5_closes_p t); [|done]. destruct H1 as [|[Hu Hp]%andb_true_iff]; [done|]. unfold close_p_if_open.
    rewrite (implied_noop _ _ _ _ _ _ H) by (left; by apply negb_true_iff). cbn [res_bind]. unfold close_scope.
    rewrite (scope_none _ _ _ _ _ H); [done|]. intros [n v] Hv. rewrite forallb_forall in Hp. apply negb_true_iff, (Hp v), list_elem_of_In.
    apply (list_elem_of_fmap_2 snd _ (n, v)) in Hv. by rewrite fmap_app in Hv.
  - destruct (h5_ci t (str "li")); [|done]. apply (implied_noop _ _ _ _ _ _ H). destruct H2 as [[|]|]; [done|by left|by right].
  - destruct (ci_one_of _ t); [|done]. apply (implied_noop _ _ _ _ _ _ H). destruct H3 as [|]; [done|by left].
Qed.

Lemma ctx_push p K S n t x : ctx p K S → nodes (td p) !! n = Some x → ntype x = MN_ELEMENT_NODE → tag x = Some t →
  rawish t = false →
  ctx (if h5_is_formatting t then afe_push_typed (Some n) (open_push n p) else open_push n p) K (S ++ [(n, t)]).
Proof.
  intros [H1 H2 H3 H4 H5 H7 H8 H9] Hx Ht Htg Hr. split.
  1-3: by destruct (h5_is_formatting t).
  - rewrite fmap_app. destruct (h5_is_formatting t); cbn; by rewrite H4.
  - apply Forall_app. split; [by destruct (h5_is_formatting t)|]. apply Forall_singleton. exists x. by destruct (h5_is_formatting t).
  - apply Forall_app. split; [done|]. by apply Forall_singleton.
  - rewrite fmts_snoc, fmap_app. destruct (h5_is_formatting t); cbn; rewrite H8; [done|by rewrite app_nil_r].
  - by destruct (h5_is_formatting t).
Qed.

Lemma elt_data_ok t al : content (elt_data t al) = (MN_ELEMENT_NODE, Some t, None, rev ((λ '(k, v), (k, Some v)) <$> al)).
Proof. done. Qed.

Lemma start_token_run p K S c u t al : ctx p K (S ++ [(c, u)]) → tag_facts t → start_ok (S ++ [(c, u)]).*2 t = true → NoDup al.*1 →
  ∃ p' K', process_token p (start_tag t al) = Ok p' ∧ let n := next_id (td p) in
    ctx p' K' (if is_void_tag t then S ++ [(c, u)] else (S ++ [(c, u)]) ++ [(n, t)]) ∧ frame c (td p) K (td p') K'
    ∧ K' c = K c ++ [n] ∧ K' n = [] ∧ (∃ y, nodes (td p') !! n = Some y ∧ content y = content (elt_data t al)) ∧ (c < n)%nat ∧ next_id (td p') = Datatypes.S n.
Proof.
  intros H T Hs Hnd. destruct (start_steps _ _ _ _ _ _ H Hs) as (E1&E2&E3). destruct (named_facts t (tf_named _ T)) as [_ Hlow].
  destruct (ctx_current _ _ _ _ _ H (last_snoc _ _)) as [Hc _]. set (n := next_id (td p)).
  destruct (create_element_run p t al (tf_len _ T) Hlow Hnd) as (d1&Ec&Hd1&Hn1).
  destruct (append_new p K _ c u (elt_data t al) d1 H (last_snoc _ _) Hd1 Hn1) as (d'&Ea&H'&HF&(y&Hy&Ey)&Hi&Hk&Hl); [done..|]. fold n in Ec, Ea, H', HF, Hy, Hi, Hk, Hl.
  assert (∃ p', process_token p (start_tag t al) = Ok p' ∧ td p' = d' ∧ ctx p' (grown c n K) (if is_void_tag t then S ++ [(c, u)] else (S ++ [(c, u)]) ++ [(n, t)])) as (p'&E&Ed&Hctx).
  { unfold process_token. cbn [process_fuel]. unfold in_mode. rewrite (c_mode _ _ _ H). cbn [start_tag ttype tname default from_option id].
    unfold in_body_start. rewrite (tf_html _ T), (tf_head _ T), (tf_style _ T), (tf_body _ T), E1. cbn [res_bind]. rewrite E2. cbn [res_bind]. rewrite E3. cbn [res_bind].
    rewrite (tf_table _ T), (reconstruct_noop _ _ _ H). cbn [res_bind]. rewrite Ec. cbn [res_bind]. fold n.
    assert (current_node (set_td d1 p) = c) as Hc1 by exact Hc. unfold insert_element. rewrite Hc1, Ea. cbn [res_bind is_self_closing start_tag].
    pose proof (ctx_push _ _ _ n t y H' Hy ltac:(by injection Ey) ltac:(by injection Ey) (tf_raw _ T)) as Hp.
    pose proof (tf_void _ T) as Hv. destruct (h5_is_formatting t).
    - rewrite Hv by done. eexists. split; [done|]. split; [done|]. exact (ctx_tail None _ _ _ Hp).
    - cbn [orb]. destruct (is_void_tag t); (eexists; split; [done|]; split; [done|]); [exact H'|exact (ctx_tail None _ _ _ Hp)]. }
  exists p', (grown c n K). split; [done|]. split; [exact Hctx|]. rewrite Ed. split; [done|]. split; [unfold grown; by rewrite decide_True|].
  split; [done|]. split; [by exists y|]. done.
Qed.

(** *** End tags *)

Lemma ctx_pop p K S n t : ctx p K (S ++ [(n, t)]) → ctx (set_afe (Some <$> fmts S) (set_open S.*1 p)) K S.
Proof.
  intros [H1 H2 H3 H4 H5 H7 H8 H9]. apply Forall_app in H5 as [H5 _], H7 as [H7 _].
  by split.
Qed.
Lemma ctx_pop_plain p K S n t : h5_is_formatting t = false → ctx p K (S ++ [(n, t)]) → ctx (set_open S.*1 p) K S.
Proof.
  intros Hf H. pose proof (ctx_pop _ _ _ _ _ H) as Hp. pose proof (c_afe _ _ _ H) as Ha. rewrite fmts_snoc, Hf, app_nil_r in Ha.
  rewrite <- Ha in Hp. by destruct p.
Qed.

Lemma open_index_last l n : ∀ i, open_index_from (l ++ [n]) i n = Some (i + length l)%nat.
Proof.
  induction l as [|x l IH]; intros i; cbn [app open_index_from length].
  - rewrite decide_True by done. by rewrite Nat.add_0_r.
  - rewrite IH. f_equal. lia.
Qed.
Lemma afe_index_last l n : ∀ i, afe_index_from (l ++ [Some n]) i n = Some (i + length l)%nat.
Proof.
  induction l as [|x l IH]; intros i; cbn [app afe_index_from length].
  - rewrite decide_True by done. by rewrite Nat.add_0_r.
  - rewrite IH. f_equal. lia.
Qed.
Lemma furthest_none d l fi best : ∀ i, (i + length l <= Datatypes.S fi)%nat → (∀ n, n ∈ l → is_Some (nodes d !! n)) →
  find_furthest d l i fi best = Ok best.
Proof.
  induction l as [|n l IH]; intros i Hl Hs; [done|]. cbn [find_furthest]. destruct (Hs n) as [x Hx]; [by left|]. unfold node. rewrite Hx. cbn [res_bind].
  simpl in Hl. rewrite bool_decide_eq_false_2 by lia. cbn [andb]. apply IH; [lia|]. intros m Hm. apply Hs. by right.
Qed.

Lemma agency_top p K S n t : h5_is_formatting t = true → ctx p K (S ++ [(n, t)]) →
  adoption_agency p t = Ok (set_afe (Some <$> fmts S) (set_open S.*1 p)).
Proof.
  intros Hf H. pose proof (c_afe _ _ _ H) as Ha. rewrite fmts_snoc, Hf, fmap_app in Ha. pose proof (c_open _ _ _ H) as Ho. rewrite fmap_app in Ho.
  cbn [fmap list_fmap fst] in Ha, Ho. unfold adoption_agency. rewrite Ha, rev_app_distr. cbn [rev app find_fmt].
  unfold tag_is. destruct (node_tag _ _ _ _ _ H (top_in S (n, t))) as (x&->&Ht). cbn [res_bind]. rewrite Ht, h5_ci_refl. cbn [andb].
  unfold is_open. rewrite bool_decide_eq_true_2 by (rewrite Ho; apply top_in). cbn [res_bind].
  unfold open_index. rewrite Ho, open_index_last. cbn [Nat.add]. rewrite furthest_none; cbn [res_bind].
  - rewrite rev_app_distr. cbn [rev app pop_past]. rewrite decide_True, rev_involutive by done. do 1 f_equal. unfold afe_remove, afe_index.
    cbn [afe set_open]. rewrite Ha, afe_index_last. cbn [Nat.add]. by rewrite delete_middle, app_nil_r.
  - rewrite length_app. simpl. lia.
  - intros m Hm. pose proof (c_elem _ _ _ H) as He. rewrite Forall_forall in He.
    assert (m ∈ (S ++ [(n, t)]).*1) as (e&->&Hin)%list_elem_of_fmap by by rewrite fmap_app.
    destruct (He e Hin) as (z&Hz&_). by exists z.
Qed.

Lemma implied_items t : is_implied_end t = false ∨ h5_is_formatting t = true ∨ h5_ci t (str "p") = true ∨ ci_one_of ["li"; "dd"; "dt"]%string t = true →
  h5_is_formatting t = false → h5_ci t (str "p") = false → ci_one_of ["li"; "dd"; "dt"]%string t = false → is_implied_end t = false.
Proof. intros [?|[?|[?|?]]]; congruence. Qed.

Lemma end_token_run p K S n t : ctx p K (S ++ [(n, t)]) → tag_facts t →
  ∃ p', process_token p (end_tag t) = Ok p' ∧ td p' = td p ∧ ctx p' K S.
Proof.
  intros H T. unfold process_token. cbn [process_fuel]. unfold in_mode. rewrite (c_mode _ _ _ H). cbn [end_tag ttype tname default from_option id].
  unfold in_body_end. destruct (h5_is_formatting t) eqn:Hf.
  { rewrite (agency_top _ _ _ _ _ Hf H). eexists. split; [done|]. split; [done|]. by eapply ctx_pop. }
  pose proof (ctx_pop_plain _ _ _ _ _ Hf H) as Hp. destruct (h5_ci t (str "p")) eqn:E1.
  { rewrite (implied_noop _ _ _ _ _ _ H) by by right. cbn [res_bind]. unfold close_scope. rewrite (scope_top _ _ _ _ _ _ _ H E1). cbn [res_bind].
    rewrite (proj2 (pop_top _ _ _ _ _ _ H E1)). by eexists. }
  destruct (ci_one_of ["li"; "dd"; "dt"]%string t) eqn:E2.
  { rewrite (implied_noop _ _ _ _ _ _ H) by (right; apply h5_ci_refl). cbn [res_bind]. unfold close_scope.
    rewrite (scope_top _ _ _ _ _ _ _ H (h5_ci_refl t)). cbn [res_bind]. rewrite (proj2 (pop_top _ _ _ _ _ _ H (h5_ci_refl t))). by eexists. }
  assert (ci_one_of ["body"; "html"]%string t = false) as ->.
  { pose proof (tf_body _ T) as B1. pose proof (tf_html _ T) as B2. unfold ci_one_of in *. cbn [existsb] in *. apply orb_false_iff in B2 as [B2 _].
    by rewrite B1, B2. }
  rewrite (scope_top _ _ _ _ _ _ _ H (h5_ci_refl t)). cbn [res_bind].
  rewrite (implied_noop _ _ _ _ _ _ H) by (left; by apply implied_items; [apply T|..]). cbn [res_bind].
  rewrite (proj1 (pop_top _ _ _ _ _ _ H (h5_ci_refl t))). by eexists.
Qed.

(** *** Text *)

Lemma insert_char_step p K S c u s : ctx p K (S ++ [(c, u)]) → s ≠ [] → nonzero s = true →
  ∃ x, nodes (td p) !! c = Some x ∧ last_child (lk x) = last (K c) ∧
  process_token p (char_token s) =
    (let* grow := match pending_text_tail p, last (K c) with
                  | Some t, Some lc => if decide (lc = t) then is_text (td p) lc else Ok false
                  | _, _ => Ok false
                  end in
     if grow : bool then grow_text p (default 0%nat (last (K c))) s
     else let (p, tn) := create p (mini_node_create_text (Some s)) in
          let* p := append p c tn in Ok (set_tail (Some tn) p))%c.
Proof.
  intros H Hne Hz. destruct (ctx_current _ _ _ _ _ H (last_snoc _ _)) as [Hc (x&Hx&Ht&Htg)]. exists x. split; [done|].
  destruct (lk_ends _ _ (c_linked _ _ _ H) _ _ Hx) as [_ Hl]. split; [done|].
  unfold process_token. cbn [process_fuel]. unfold in_mode. rewrite (c_mode _ _ _ H). unfold char_token. cbn [ttype tname default from_option id].
  rewrite (cstr_nonzero s Hz). unfold insert_char. rewrite bool_decide_eq_false_2 by done. rewrite Hc. unfold node. rewrite Hx. cbn [res_bind].
  pose proof (c_raw _ _ _ H) as Hr. rewrite Forall_app, Forall_singleton in Hr. destruct Hr as [_ Hr]. cbn [snd] in Hr. unfold rawish in Hr.
  rewrite Htg, Hr, andb_false_r, (c_mode _ _ _ H). change (table_mode M_IN_BODY) with false. rewrite Hl. reflexivity.
Qed.

Definition calm (p : tree) (K : nat → list nat) (c : nat) : Prop :=
  ∀ lc, last (K c) = Some lc → ∃ x, nodes (td p) !! lc = Some x ∧ ntype x ≠ MN_TEXT_NODE.

Lemma first_text p K S c u s : ctx p K (S ++ [(c, u)]) → s ≠ [] → nonzero s = true → calm p K c →
  ∃ p' K', process_token p (char_token s) = Ok p' ∧ adds p K c p' K' (S ++ [(c, u)]) (Txt s)
    ∧ pending_text_tail p' = Some (next_id (td p)) ∧ next_id (td p') = Datatypes.S (next_id (td p)).
Proof.
  intros H Hne Hz Hcalm. destruct (insert_char_step p K S c u s H Hne Hz) as (x&_&_&->).
  destruct (append_new p K _ c u (zero_node MN_TEXT_NODE None (Some s)) (mini_node_create_text (Some s) (td p)).1 H (last_snoc _ _)) as (d'&E&H'&HF&(y&Hy&Ey)&Hi&Hk&Hl); [done..|].
  eexists _, _. split; [|split; [|split]].
  - match goal with |- (let* _ := ?g in _)%c = _ => assert (g = Ok false) as -> end.
    { destruct (pending_text_tail p) as [t|]; [|done]. destruct (last (K c)) as [lc|] eqn:El; [|done]. case_decide; [|done].
      destruct (Hcalm lc El) as (z&Hz'&Hzt). unfold is_text, node. rewrite Hz'. cbn [res_bind]. by rewrite bool_decide_eq_false_2. }
    cbn [res_bind]. unfold create, mini_node_create_text, alloc in *. cbn [fst] in E. rewrite E. cbn [res_bind]. reflexivity.
  - split; [by apply (ctx_tail _)|]. split; [exact HF|]. split; [unfold grown; by rewrite decide_True|]. split; [|done]. by apply (shows_txt _ _ _ _ y).
  - done.
  - exact Hi.
Qed.

Lemma more_text p K S c u s n x t : ctx p K (S ++ [(c, u)]) → s ≠ [] → nonzero s = true → last (K c) = Some n →
  pending_text_tail p = Some n → nodes (td p) !! n = Some x → ntype x = MN_TEXT_NODE → text x = Some t →
  ∃ p', process_token p (char_token s) = Ok p' ∧ ctx p' K (S ++ [(c, u)]) ∧ pending_text_tail p' = Some n
    ∧ nodes (td p') = <[n := set_text (Some (t ++ s)) x]> (nodes (td p)) ∧ next_id (td p') = next_id (td p).
Proof.
  intros H Hne Hz Hl Ht Hx Hty Htx. destruct (insert_char_step p K S c u s H Hne Hz) as (xc&_&_&->). rewrite Ht, Hl, decide_True by done.
  unfold is_text, grow_text, put, node. rewrite Hx. cbn [res_bind]. rewrite bool_decide_eq_true_2 by done. cbn [default from_option id]. rewrite ?Hx. cbn [res_bind]. rewrite Htx.
  cbn [res_bind]. eexists. split; [done|]. split; [|done]. destruct H as [H1 H2 H3 H4 H5 H7 H8 H9]. split; try done; cbn [td set_td].
  - by eapply linked_put.
  - intros m [z Hz']. cbn in *. destruct (decide (m = n)) as [->|]; [apply H2; by eexists|]. rewrite lookup_insert_ne in Hz' by done. apply H2. by eexists.
  - eapply Forall_impl; [exact H5|]. intros [m v] (z&Hz'&Hzt&Hzg). cbn in *. destruct (decide (m = n)) as [->|]; [congruence|]. exists z. by rewrite lookup_insert_ne.
Qed.

Lemma rest_text us : ∀ p K S c u n x t, Forall (λ s, s ≠ [] ∧ nonzero s = true) us → ctx p K (S ++ [(c, u)]) → last (K c) = Some n →
  pending_text_tail p = Some n → nodes (td p) !! n = Some x → ntype x = MN_TEXT_NODE → text x = Some t →
  ∃ p', feed p us = Ok p' ∧ ctx p' K (S ++ [(c, u)])
    ∧ nodes (td p') = <[n := set_text (Some (t ++ mjoin us)) x]> (nodes (td p)) ∧ next_id (td p') = next_id (td p).
Proof.
  induction us as [|s us IH]; intros p K S c u n x t Hus H Hl Ht Hx Hty Htx; cbn [feed].
  - exists p. split; [done|]. split; [done|]. split; [|done]. cbn. rewrite app_nil_r, <- Htx. rewrite insert_id; [done|]. rewrite Hx. by destruct x.
  - apply Forall_cons in Hus as [[Hne Hz] Hus]. destruct (more_text p K S c u s n x t) as (p1&E1&H1&Ht1&Hn1&Hi1); [done..|].
    cbn [sink_token tree_sink]. rewrite E1. cbn [res_bind]. destruct (IH p1 K S c u n (set_text (Some (t ++ s)) x) (t ++ s)) as (p'&E&H'&Hn&Hi); [done..| |done|done|].
    { by rewrite Hn1, lookup_insert_eq. }
    exists p'. split; [done|]. split; [done|]. split; [|by rewrite Hi]. rewrite Hn, Hn1, insert_insert_eq. cbn. by rewrite <- app_assoc.
Qed.

Lemma text_run p K S c u us : Forall (λ s, s ≠ [] ∧ nonzero s = true) us → us ≠ [] → ctx p K (S ++ [(c, u)]) → calm p K c →
  ∃ p' K', feed p us = Ok p' ∧ adds p K c p' K' (S ++ [(c, u)]) (Txt (mjoin us)).
Proof.
  intros Hus Hne H Hcalm. destruct us as [|s us]; [done|]. apply Forall_cons in Hus as [[Hs Hz] Hus]. cbn [feed sink_token tree_sink].
  destruct (first_text p K S c u s H Hs Hz Hcalm) as (p1&K1&->&(H1&HF&HK&Hsh&Hl)&Ht&Hi). cbn [res_bind]. inversion Hsh as [|n' x s' Hlo Hx Hd HKn|]; subst.
  assert (last (K1 c) = Some (next_id (td p))) as HlK by by rewrite HK, last_snoc.
  unfold content in Hd. injection Hd as Hd1 Hd2 Hd3 Hd4.
  destruct (rest_text us p1 K1 S c u _ x s Hus H1 HlK Ht Hx Hd1 Hd3) as (p'&E&H'&Hn&Hi').
  exists p', K1. split; [done|]. split; [done|]. split; [|split; [done|split; [|done]]].
  - destruct HF as [HF0 HF]. split; [lia|]. intros m z Hz'. destruct (HF m z Hz') as [(y&Hy&Ey) HKm]. split; [|done].
    exists y. split; [|done]. rewrite Hn, lookup_insert_ne; [done|]. intros <-. rewrite Hx in Hy. injection Hy as <-.
    pose proof (c_fresh _ _ _ H _ ltac:(by eexists)). lia.
  - apply (shows_txt _ _ _ _ (set_text (Some (s ++ mjoin us)) x)); [lia|by rewrite Hn, lookup_insert_eq| |done].
    unfold content. cbn. by rewrite Hd1, Hd2, Hd4.
Qed.

(** ** Both together *)

Lemma adds_calm p K c p' K' S h : adds p K c p' K' S h → is_txt h = false → calm p' K' c.
Proof.
  intros (_&_&HK&Hs&_) Ht lc. rewrite HK, last_snoc. intros [= <-]. inversion Hs as [n' x t al l _ Hx Hd _|n' x s _ Hx Hd _|n' x s _ Hx Hd _]; subst; [|done|];
    exists x; (split; [done|]); unfold content in Hd; injection Hd as -> _; done.
Qed.
Lemma sink_tag_top p K S c u : ctx p K (S ++ [(c, u)]) → sink_tag p = Ok (Some u) ∧ rawish u = false.
Proof.
  intros H. destruct (ctx_current _ _ _ _ _ H (last_snoc _ _)) as [Hc (x&Hx&_&Ht)]. split.
  - cbn [sink_tag tree_sink]. rewrite Hc. unfold node. rewrite Hx. cbn [res_bind]. by rewrite Ht.
  - pose proof (c_raw _ _ _ H) as Hr. rewrite Forall_app, Forall_singleton in Hr. apply Hr.
Qed.

Definition reads (h : markup) : Prop := ∀ p K S c u a r, ctx p K (S ++ [(c, u)]) → ok (S ++ [(c, u)]).*2 h = true →
  (is_txt h = true → calm p K c ∧ delim r) →
  ∃ a' p' K', reaches (between a p) (print h ++ r) (between a' p') r ∧ adds p K c p' K' (S ++ [(c, u)]) h.

Definition first_txt (l : list markup) : bool := match l with h :: _ => is_txt h | [] => false end.
Lemma prints_delim h l r : is_txt h = false → delim (prints (h :: l) ++ r).
Proof. by destruct h. Qed.

Lemma reads_all l : Forall reads l → ∀ p K S c u a r, ctx p K (S ++ [(c, u)]) → forallb (ok (S ++ [(c, u)]).*2) l = true → apart l = true →
  (first_txt l = true → calm p K c) → delim r →
  ∃ a' p' K' ns, reaches (between a p) (prints l ++ r) (between a' p') r ∧ ctx p' K' (S ++ [(c, u)]) ∧ frame c (td p) K (td p') K'
    ∧ K' c = K c ++ ns ∧ Forall2 (shows (next_id (td p)) (td p') K') ns l.
Proof.
  induction 1 as [|h l Hh _ IH]; intros p K S c u a r H Hok Hap Hc Hd.
  { exists a, p, K, []. split; [apply reaches_refl|]. split; [done|]. split; [apply frame_refl|]. by rewrite app_nil_r. }
  cbn [forallb apart first_txt] in *. apply andb_true_iff in Hok as [Hok1 Hok]. apply andb_true_iff in Hap as [Ht Hap].
  destruct (Hh p K S c u a (prints l ++ r) H Hok1) as (a1&p1&K1&R1&Ha).
  { intros Htx. rewrite Htx in *. split; [by apply Hc|]. destruct l as [|h' l]; [done|]. apply prints_delim. cbn [andb] in Ht. by apply negb_true_iff in Ht. }
  destruct (IH p1 K1 S c u a1 r) as (a2&p2&K2&ns&R2&H2&HF2&HK2&Hs2); [apply Ha|done|done| |done|].
  { intros Hf. apply (adds_calm _ _ _ _ _ _ _ Ha). destruct l as [|h' l]; [done|]. cbn [first_txt] in Hf. rewrite Hf, andb_true_r in Ht. by apply negb_true_iff. }
  destruct Ha as (H1&HF1&HK1&Hs1&Hl). exists a2, p2, K2, (next_id (td p) :: ns).
  split; [cbn [prints flat_map]; rewrite <- app_assoc; by eapply reaches_trans|]. split; [done|]. split; [by eapply frame_trans; [| |left]|].
  split; [by rewrite HK2, HK1, <- app_assoc|]. constructor.
  - by eapply shows_frame.
  - eapply Forall2_impl; [exact Hs2|]. intros n h'. apply shows_lower. apply HF1.
Qed.

Lemma reads_txt s : reads (Txt s).
Proof.
  intros p K S c u a r H Hok Ht. destruct (Ht eq_refl) as [Hc Hd]. cbn [ok] in Hok. apply andb_true_iff in Hok as [Hne%bool_decide_eq_true Hz].
  destruct (run_esc (St := tree) (length s) s (le_n _) Hz) as (us&<-&Hus&Hr).
  destruct (text_run p K S c u us Hus) as (p'&K'&E&Ha); [by intros ->|done|done|]. exists a, p', K'. split; [|done]. by apply Hr.
Qed.
Lemma reads_cmt s : reads (Cmt s).
Proof.
  intros p K S c u a r H Hok _. destruct (comment_token_run p K _ c u s H (last_snoc _ _)) as (p'&K'&E&Ha).
  exists s, p', K'. split; [|done]. cbn [print]. rewrite <- !app_assoc. by apply comment_run.
Qed.

Lemma reads_elt t al l : Forall reads l → reads (Elt t al l).
Proof.
  intros IH p K S c u a r H Hok _. cbn [ok] in Hok. rewrite !andb_true_iff in Hok. destruct Hok as [[[Ht Hst] Hal] Hl].
  apply tag_ok_facts in Ht as T. apply andb_true_iff in Hal as [Hal Hnd%bool_decide_eq_true].
  destruct (start_token_run p K S c u t al H T Hst Hnd) as (p1&K1&E1&H1&HF1&HK1&Hkn&(y&Hy&Ey)&Hcn&Hi1). set (n := next_id (td p)) in *.
  assert (∃ tg, sink_tag p1 = Ok (Some tg) ∧ rawish tg = false) as (tg&Etg&Hraw).
  { destruct (is_void_tag t); (eexists; by apply (sink_tag_top _ _ _ _ _ H1)). }
  assert (∀ r', reaches (between a p) (60 :: t ++ flat_map print_attr al ++ 62 :: r') (between [] p1) r') as R1.
  { intros r'. by apply (start_run a p t al r' p1 (Some tg)); [apply T|..]. }
  cbn [print]. destruct (is_void_tag t).
  - destruct l; [|done]. exists [], p1, K1. split; [cbn; rewrite <- !app_assoc; apply R1|]. unfold adds. fold n. split; [done|]. split; [done|]. split; [done|]. split; [|done].
    apply (shows_elt _ _ _ _ y); [done..|by rewrite Ey, elt_data_ok|by rewrite Hkn].
  - apply andb_true_iff in Hl as [Hkids Hap]. set (S1 := S ++ [(c, u)]) in *.
    destruct (reads_all l IH p1 K1 S1 n t [] (60 :: 47 :: t ++ 62 :: r) H1) as (a2&p2&K2&ns&R2&H2&HF2&HK2&Hs2); [|done| |done|].
    { unfold S1 in *. by rewrite fmap_app. }
    { intros _ lc. by rewrite Hkn. }
    destruct (end_token_run p2 K2 S1 n t H2 T) as (p3&E3&Ed3&H3).
    exists [], p3, K2. split.
    { replace ((60 :: t ++ flat_map print_attr al ++ 62 :: flat_map print l ++ 60 :: 47 :: t ++ [62]) ++ r)
        with (60 :: t ++ flat_map print_attr al ++ 62 :: prints l ++ 60 :: 47 :: t ++ 62 :: r)
        by (cbn; rewrite <- !app_assoc; cbn; by rewrite <- !app_assoc; cbn; rewrite <- !app_assoc).
      eapply reaches_trans; [apply R1|]. eapply reaches_trans; [exact R2|]. by apply end_run; [apply T|]. }
    assert (nodes (td p) !! n = None) as Hfree.
    { destruct (nodes (td p) !! n) eqn:E; [|done]. pose proof (c_fresh _ _ _ H n ltac:(by eexists)). unfold n in *. lia. }
    destruct (proj2 HF2 n y Hy) as [(z&Hz&Ez) _].
    assert (is_Some (nodes (td p1) !! c)) as [xc Hxc].
    { destruct (ctx_current _ _ _ _ _ H (last_snoc _ _)) as [_ (x&Hx&_)]. destruct (proj2 HF1 c x Hx) as [(x'&?&_) _]. by exists x'. }
    unfold adds. fold n. rewrite Ed3. split; [done|]. split; [by eapply frame_trans; [exact HF1|exact HF2|right]|].
    split; [rewrite (proj2 (proj2 HF2 c xc Hxc)) by lia; done|]. split; [|done].
    apply (shows_elt _ _ _ _ z); [done|done|by rewrite Ez, Ey, elt_data_ok|]. rewrite HK2, Hkn. cbn [app].
    eapply Forall2_impl; [exact Hs2|]. intros m h'. apply shows_lower. lia.
Qed.

Lemma reads_markup h : reads h.
Proof. induction h using markup_ind'; [by apply reads_elt|apply reads_txt|apply reads_cmt]. Qed.
End build.

(** ** Nothing is carried over *)

Definition closed (s : bytes) : Prop := ∀ n, back_to 38 (Some 59) (rev s) n = 0%nat.

Lemma back_to_app u v : ∀ n, back_to 38 (Some 59) u n = 0%nat → (∀ n, back_to 38 (Some 59) v n = 0%nat) → back_to 38 (Some 59) (u ++ v) n = 0%nat.
Proof.
  induction u as [|x u IH]; intros n Hu Hv; [apply Hv|]. cbn [app back_to] in *. destruct (decide (x = 38)); [done|].
  destruct (decide (Some 59 = Some x)); [done|]. by apply IH.
Qed.
Lemma closed_app s t : closed s → closed t → closed (s ++ t).
Proof. intros Hs Ht n. rewrite rev_app_distr. by apply back_to_app. Qed.
Lemma closed_free s : Forall (λ c, c ≠ 38) s → closed s.
Proof.
  intros Hs. assert (Forall (λ c, c ≠ 38) (rev s)) as Hr by (rewrite Forall_forall in *; intros c; rewrite list_elem_of_In, <- in_rev, <- list_elem_of_In; apply Hs).
  unfold closed. induction Hr as [|c l Hc _ IH]; intros n; cbn [back_to]; [done|]. rewrite decide_False by done. by case_decide.
Qed.
Lemma closed_flat {A} (f : A → bytes) l : (∀ x, x ∈ l → closed (f x)) → closed (flat_map f l).
Proof.
  induction l as [|x l IH]; intros Hf; [done|]. cbn [flat_map]. apply closed_app; [apply Hf; by left|]. apply IH. intros y Hy. apply Hf. by right.
Qed.
Lemma closed_esc s : closed (esc s).
Proof.
  apply closed_flat. intros c _. destruct (esc1_cases c) as [[-> ->]|[[-> ->]|[[-> ->]|(Hp&_&->)]]]; [by intros n..|].
  apply closed_free. repeat constructor. intros ->. discriminate Hp.
Qed.
Lemma closed_cons c s : c ≠ 38 → closed s → closed (c :: s).
Proof. intros Hc Hs. apply (closed_app [c]); [apply closed_free; by repeat constructor|done]. Qed.

Lemma attrs_closed al : forallb attr_ok al = true → closed (flat_map print_attr al).
Proof.
  intros Ha. apply closed_flat. intros [k v] Hkv. rewrite forallb_forall in Ha. specialize (Ha (k, v) (proj1 (list_elem_of_In _ _) Hkv)).
  unfold attr_ok in Ha. cbn [fst snd] in Ha. apply andb_true_iff in Ha as [[_ Hk]%andb_true_iff _]. unfold print_attr. cbn [fst snd].
  apply closed_cons; [done|]. apply closed_app; [|apply closed_cons; [done|]; apply closed_cons; [done|]; apply closed_app; [apply closed_esc|by intros n]].
  apply closed_free. rewrite Forall_forall. intros c Hc. rewrite forallb_forall in Hk. by apply attr_char_facts, Hk, list_elem_of_In.
Qed.
Lemma tag_closed t : named t → closed t.
Proof. intros (_&_&Ht). apply closed_free. eapply Forall_impl; [exact Ht|]. intros c Hc. by apply tag_char_facts. Qed.
Lemma comment_closed s : comment_ok s = true → closed s.
Proof.
  intros Hs. apply closed_free. induction s as [|c s IH]; [done|]. cbn [comment_ok] in Hs. rewrite !andb_true_iff, !bool_decide_eq_true in Hs. constructor; [tauto|apply IH; tauto].
Qed.

Lemma nonzero_flat {A} (f : A → bytes) l : (∀ x, x ∈ l → nonzero (f x) = true) → nonzero (flat_map f l) = true.
Proof.
  induction l as [|x l IH]; intros Hf; [done|]. cbn [flat_map]. rewrite nonzero_app, IH, Hf; [done|by left|]. intros y Hy. apply Hf. by right.
Qed.
Lemma nonzero_esc s : nonzero s = true → nonzero (esc s) = true.
Proof.
  intros Hs. apply nonzero_flat. intros c Hc. destruct (esc1_cases c) as [[-> ->]|[[-> ->]|[[-> ->]|(Hp&_&->)]]]; [done..|].
  unfold nonzero in Hs. rewrite forallb_forall in Hs. cbn [nonzero forallb]. rewrite (Hs c (proj1 (list_elem_of_In _ _) Hc)). done.
Qed.

Lemma attrs_nonzero al : forallb attr_ok al = true → nonzero (flat_map print_attr al) = true.
Proof.
  intros Ha. apply nonzero_flat. intros [k v] Hkv. rewrite forallb_forall in Ha. specialize (Ha (k, v) (proj1 (list_elem_of_In _ _) Hkv)).
  unfold attr_ok in Ha. cbn [fst snd] in Ha. apply andb_true_iff in Ha as [[_ Hk]%andb_true_iff Hv]. unfold print_attr. cbn [fst snd].
  change (32 :: k ++ 61 :: 34 :: esc v ++ [34]) with ([32] ++ k ++ [61; 34] ++ esc v ++ [34]).
  rewrite !nonzero_app, (nonzero_esc v Hv), (chars_nonzero attr_char k); [done| |done]. intros c Hc. by apply attr_char_facts in Hc as (_&_&_&_&?&_).
Qed.

Lemma print_text h : ∀ L, ok L h = true → closed (print h) ∧ nonzero (print h) = true.
Proof.
  induction h as [t al l IH|s|s] using markup_ind'; intros L Hok; cbn [ok print] in *.
  - rewrite !andb_true_iff in Hok. destruct Hok as [[[Ht _] Hal] Hl]. apply tag_ok_facts in Ht as T. apply andb_true_iff in Hal as [Hal _].
    destruct (named_facts t (tf_named _ T)) as [Hz _].
    pose proof (attrs_nonzero al Hal) as Hza.
    assert (closed (if is_void_tag t then [] else flat_map print l ++ 60 :: 47 :: t ++ [62])
            ∧ nonzero (if is_void_tag t then [] else flat_map print l ++ 60 :: 47 :: t ++ [62]) = true) as [Hc Hn].
    { destruct (is_void_tag t); [done|]. apply andb_true_iff in Hl as [Hl _]. rewrite Forall_forall in IH. rewrite forallb_forall in Hl.
      assert (∀ h, h ∈ l → closed (print h) ∧ nonzero (print h) = true) as Hh by (intros h Hh; eapply IH; [done|]; by apply Hl, list_elem_of_In).
      split; [apply closed_app; [apply closed_flat; by apply Hh|]; do 2 (apply closed_cons; [done|]); apply closed_app; [by apply tag_closed, T|by intros n]|].
      change (60 :: 47 :: t ++ [62]) with ([60; 47] ++ t ++ [62]). rewrite !nonzero_app, nonzero_flat, Hz; [done|by apply Hh]. }
    split; [apply closed_cons; [done|]; apply closed_app; [by apply tag_closed, T|]; apply closed_app; [by apply attrs_closed|]; by apply closed_cons|].
    clear Hl. revert Hn. generalize (if is_void_tag t then [] else flat_map print l ++ 60 :: 47 :: t ++ [62]). intros rest Hn. change (60 :: t ++ flat_map print_attr al ++ 62 :: rest) with ([60] ++ t ++ flat_map print_attr al ++ [62] ++ rest).
    by rewrite !nonzero_app, Hz, Hza, Hn.
  - apply andb_true_iff in Hok as [_ Hz]. split; [apply closed_esc|by apply nonzero_esc].
  - split; [|rewrite !nonzero_app, (comment_nonzero s Hok); reflexivity]. apply closed_app; [by intros n|]. apply closed_app; [by apply comment_closed|by intros n].
Qed.

(** ** The round trip *)

(** The tree below node [n] of a document is [h]; attributes are listed last first. *)
Inductive is_tree (d : dom) : nat → markup → Prop :=
| tree_elt n x t a ns l : nodes d !! n = Some x → content x = (MN_ELEMENT_NODE, Some t, None, rev ((λ '(k, v), (k, Some v)) <$> a)) →
    children d n = Ok ns → Forall2 (is_tree d) ns l → is_tree d n (Elt t a l)
| tree_txt n x s : nodes d !! n = Some x → content x = (MN_TEXT_NODE, None, Some s, []) → children d n = Ok [] → is_tree d n (Txt s)
| tree_cmt n x s : nodes d !! n = Some x → content x = (MN_COMMENT_NODE, None, Some s, []) → children d n = Ok [] → is_tree d n (Cmt s).

Lemma shows_tree lo d K h : linked d K → ∀ n, shows lo d K n h → is_tree d n h.
Proof.
  intros HL. assert (∀ n x l, nodes d !! n = Some x → K n = l → children d n = Ok l) as HC by (intros n x l Hx <-; by eapply children_spec).
  induction h as [t a l IH|s|s] using markup_ind'; intros n Hn; inversion Hn as [n' x ? ? ? Hlo Hx Hd HK|n' x ? Hlo Hx Hd HK|n' x ? Hlo Hx Hd HK]; subst.
  - apply (tree_elt _ _ x _ _ (K n)); [done..|by eapply HC|]. clear -IH HK. induction HK; [constructor|].
    apply Forall_cons in IH as [H1 H2]. constructor; auto.
  - apply (tree_txt _ _ x); [done..|by eapply HC].
  - apply (tree_cmt _ _ x); [done..|by eapply HC].
Qed.

(** The parser of a new document: html and body are open. *)
Definition start_tree : tree := match mini_html5_init new_doc 1 (Some 2%nat) with Ok p => sink (tk p) | UB => init_tree no_dom 0 None end.
Definition start_stack : list (nat * bytes) := [(3%nat, str "html"); (3%nat, str "html"); (2%nat, str "body")].
Definition start_kids : gmap nat (list nat) := {[ 1%nat := [3]%nat; 3%nat := [4; 2]%nat ]}.

Lemma start_init : mini_html5_init new_doc 1 (Some 2%nat) = Ok (Parser (between [] start_tree) []).
Proof. vm_compute. reflexivity. Qed.

Lemma elements_ok d S : Forall (λ e, (λ x, (ntype x, tag x)) <$> nodes d !! e.1 = Some (MN_ELEMENT_NODE, Some e.2)) S →
  Forall (λ e : nat * bytes, ∃ x, nodes d !! e.1 = Some x ∧ ntype x = MN_ELEMENT_NODE ∧ tag x = Some e.2) S.
Proof.
  intros H. eapply Forall_impl; [exact H|]. intros e (x&Hx&E)%fmap_Some. injection E as E1 E2. by exists x.
Qed.
Lemma start_ctx : ctx (Some 2%nat) start_tree (kids_of start_kids) start_stack.
Proof.
  assert (map_Forall (λ n _, (n < next_id (td start_tree))%nat) (nodes (td start_tree))) as Hf by (refine (bool_decide_eq_true_1 _ _); vm_compute; reflexivity).
  assert (Forall (λ e, (λ x, (ntype x, tag x)) <$> nodes (td start_tree) !! e.1 = Some (MN_ELEMENT_NODE, Some e.2)) start_stack) as He
    by (refine (bool_decide_eq_true_1 _ _); vm_compute; reflexivity).
  split.
  - apply linked_test_true. vm_compute. reflexivity.
  - intros n [x Hx]. exact (Hf n x Hx).
  - vm_compute. reflexivity.
  - vm_compute. reflexivity.
  - exact (elements_ok _ _ He).
  - repeat constructor.
  - vm_compute. reflexivity.
  - vm_compute. reflexivity.
Qed.

Lemma feed_run t q s : ts q = TS_DATA → closed s → tokenize_run t s = Ok q → mini_html5_feed (Parser t []) s = Ok (Parser q []).
Proof.
  intros Hq Hs Ht. unfold mini_html5_feed. cbn [carry tk app]. destruct s as [|c s]; [cbn in Ht; congruence|].
  rewrite Ht. cbn [res_bind]. unfold carryover_tail. rewrite Hq, Hs, Nat.sub_0_r. by rewrite drop_all.
Qed.

(** C2. Parsing a printed document gives its tree back: in a new document, the
    body's children after [mini_html5_parse] are the nodes of the markup, in
    order, with its names, attributes and texts, character references decoded;
    formatting elements, paragraphs, items, void and unknown elements, comments
    and any text and attribute values among them. *)
Theorem html5_roundtrip l : oks [str "html"; str "html"; str "body"] l = true →
  ∃ d ns, mini_html5_parse new_doc 1 (Some 2%nat) (Some (prints l)) = Ok (d, Some 2%nat)
    ∧ children d 2 = Ok ns ∧ Forall2 (is_tree d) ns l.
Proof.
  intros [Hok Hap]%andb_true_iff.
  destruct (reads_all (Some 2%nat) l) with (p := start_tree) (K := kids_of start_kids) (S := [(3%nat, str "html"); (3%nat, str "html")])
    (c := 2%nat) (u := str "body") (a := @nil Z) (r := @nil Z) as (a&p&K&ns&R&H&HF&HK&Hs).
  1: { rewrite Forall_forall. intros h _. apply reads_markup. }
  1: exact start_ctx.
  1-2: done.
  1: { intros _ lc E. vm_compute in E. discriminate E. }
  1: done.
  exists (td p), ns. rewrite app_nil_r in R. change (kids_of start_kids 2%nat) with (@nil nat) in HK. cbn [app] in HK.
  assert (closed (prints l) ∧ nonzero (prints l) = true) as [Hcl Hz].
  { assert (∀ h, h ∈ l → closed (print h) ∧ nonzero (print h) = true) as Hh.
    { intros h Hh. rewrite forallb_forall in Hok. apply (print_text h [str "html"; str "html"; str "body"]), Hok. by apply list_elem_of_In. }
    split; [apply closed_flat|apply nonzero_flat]; apply Hh. }
  split; [|split].
  - unfold mini_html5_parse. rewrite start_init. cbn [res_bind]. rewrite (cstr_nonzero _ Hz). pose proof (reaches_end _ _ _ R) as Ht.
    rewrite (feed_run _ (between a p) _ eq_refl Hcl Ht).
    cbn [res_bind mini_html5_finish carry tk sink between]. by rewrite (c_body _ _ _ _ H).
  - rewrite <- HK. apply children_spec; [by eapply c_linked|]. destruct (ctx_current _ _ _ _ _ _ H (last_snoc _ _)) as [_ (x&Hx&_)]. by exists x.
  - eapply Forall2_impl; [exact Hs|]. intros n h. apply shows_tree. by eapply c_linked.
Qed.

(** Nested formatting, a void element, references in text and in a value. *)
Definition sample : list markup :=
  [Elt (str "div") [(str "id", str "a"); (str "title", [60; 34; 38])]
     [Elt (str "p") [] [Txt (str "1 < 2 & "); Elt (str "b") [] [Elt (str "i") [] [Txt (str "x")]; Txt (str "y")]; Elt (str "br") [] []; Txt [226; 153; 165]];
      Elt (str "ul") [] [Elt (str "li") [] [Txt (str "one")]; Elt (str "li") [] [Elt (str "x-y") [] []]]];
   Cmt (str "-> -- ")].
Lemma html5_roundtrip_witness :
  prints [Elt (str "p") [(str "id", str "a")] [Txt (str "1<2"); Elt (str "br") [] []]] = str "<p id=" ++ [34; 97; 34] ++ str ">1&lt;2<br></p>"
  ∧ ∃ d ns, mini_html5_parse new_doc 1 (Some 2%nat) (Some (prints sample)) = Ok (d, Some 2%nat)
      ∧ children d 2 = Ok ns ∧ Forall2 (is_tree d) ns sample.
Proof. split; [reflexivity|]. apply (html5_roundtrip sample). vm_compute. reflexivity. Defined.
