(* ===== verification/EditField.v ===== *)
(** * Text fields (src/src/mini_events.c, native editing of input and textarea)

    The value of a focused control, its caret and selection anchor (byte
    offsets), and what keys and typed characters do to them.  The effects of a
    key are listed in order; nothing is written to the field after the first.
    A value is shorter than 2^31 bytes, so that [int] holds its offsets; a null
    value is read as empty (the code copies zero bytes from it).

    [field_refines]: on text whose offsets stand between characters the byte
    code is an editor of lists of characters. *)

From stdpp Require Import list.
From S2P Require Import Prelude CString.
Open Scope Z_scope.

(** ** UTF-8 steps *)

Definition cont (c : Z) : bool := bool_decide (Z.land c 0xC0 = 0x80).
(** [s[i]], the terminator included. *)
Definition at_ (s : bytes) (i : nat) : Z := default 0 (s !! i).

Fixpoint conts (s : bytes) : nat := match s with c :: s => if cont c then S (conts s) else 0 | [] => 0 end.
Definition utf8_cplen_at (s : bytes) (i : nat) : nat :=
  match drop i s with
  | [] => 0
  | c :: r => if decide (Z.land c 0x80 = 0) then 1 else S (conts r)
  end.

(** [while (off > 0 && cont (s[off])) off--] *)
Fixpoint back_up (s : bytes) (off : nat) : nat :=
  match off with O => O | S k => if cont (at_ s off) then back_up s k else off end.
Definition caret_clamp (s : bytes) (off : Z) : nat :=
  if decide (off < 0) then 0%nat
  else if decide (Z.of_nat (length s) < off) then length s
  else back_up s (Z.to_nat off).

(** The bytes [apply_text_char] makes of a code point. *)
Definition char_utf8 (cp : Z) : bytes :=
  if decide (cp < 0x80) then [cp]
  else if decide (cp < 0x800) then [u8 (Z.lor 0xC0 (Z.shiftr cp 6)); u8 (Z.lor 0x80 (Z.land cp 0x3F))]
  else if decide (cp < 0x10000) then
    [u8 (Z.lor 0xE0 (Z.shiftr cp 12)); u8 (Z.lor 0x80 (Z.land (Z.shiftr cp 6) 0x3F)); u8 (Z.lor 0x80 (Z.land cp 0x3F))]
  else
    [u8 (Z.lor 0xF0 (Z.shiftr cp 18)); u8 (Z.lor 0x80 (Z.land (Z.shiftr cp 12) 0x3F));
     u8 (Z.lor 0x80 (Z.land (Z.shiftr cp 6) 0x3F)); u8 (Z.lor 0x80 (Z.land cp 0x3F))].

(** ** The control *)

Record Field := Fld { value : option bytes; caret_offset : Z; sel_anchor_off : Z }.
Inductive effect := Input | Caret | Restyle.

Definition text_of (f : Field) : bytes := default [] (value f).
Definition caret_of (f : Field) : nat := caret_clamp (text_of f) (caret_offset f).
Definition has_sel (f : Field) : bool := bool_decide (0 <= sel_anchor_off f) && bool_decide (sel_anchor_off f ≠ Z.of_nat (caret_of f)).
(** [sel_a] and [sel_b] when there is a selection. *)
Definition sel_range (f : Field) : Z * Z :=
  let caret := Z.of_nat (caret_of f) in
  let a := if decide (sel_anchor_off f < caret) then sel_anchor_off f else caret in
  let b := if decide (caret < sel_anchor_off f) then sel_anchor_off f else caret in
  (if decide (a < 0) then 0 else a, if decide (Z.of_nat (length (text_of f)) < b) then Z.of_nat (length (text_of f)) else b).

(** [SEL_ANCHOR_BEGIN] *)
Definition anchor_begin (shift : bool) (f : Field) : Z :=
  if shift then if decide (sel_anchor_off f < 0) then Z.of_nat (caret_of f) else sel_anchor_off f else -1.

Definition cut (s : bytes) (a b : nat) : bytes := take a s ++ drop b s.

(** The field, what follows, and [ev->preventDefault]; [malloc] is whether the
    only allocation succeeds. *)
Definition apply_text_edit_key (malloc prevented is_ta shift : bool) (key : bytes) (f : Field) : Field * list effect * bool :=
  if prevented || bool_decide (key = []) then (f, [], prevented) else
  let cur := text_of f in
  let caret := caret_of f in
  let key_is k := streq key (str k) in
  if key_is "Backspace"%string || key_is "Delete"%string then
    let '(a, b) := sel_range f in
    if has_sel f && bool_decide (a < b) then
      if malloc then (Fld (Some (cut cur (Z.to_nat a) (Z.to_nat b))) a (-1), [Input; Caret; Restyle], false) else (f, [], false)
    else if key_is "Backspace"%string then
      if decide (0 < caret)%nat then
        let start := back_up cur (caret - 1) in
        if malloc then (Fld (Some (cut cur start caret)) (Z.of_nat start) (-1), [Input; Caret; Restyle], false) else (f, [], false)
      else (f, [Caret; Restyle], false)
    else
      if decide (caret < length cur)%nat then
        if malloc then (Fld (Some (cut cur caret (caret + utf8_cplen_at cur caret))) (Z.of_nat caret) (-1), [Input; Caret; Restyle], false)
        else (f, [], false)
      else (f, [Caret; Restyle], false)
  else if key_is "Enter"%string && is_ta then
    if malloc then
      (Fld (Some (take caret cur ++ 10 :: drop caret cur)) (Z.of_nat caret + 1) (sel_anchor_off f), [Input; Caret; Restyle], false)
    else (f, [], false)
  else if key_is "ArrowLeft"%string then
    (Fld (value f) (if decide (0 < caret)%nat then Z.of_nat (back_up cur (caret - 1)) else caret_offset f) (anchor_begin shift f),
     [Caret; Restyle], true)
  else if key_is "ArrowRight"%string then
    (Fld (value f) (if decide (caret < length cur)%nat then Z.of_nat (caret + utf8_cplen_at cur caret) else caret_offset f)
       (anchor_begin shift f), [Caret; Restyle], true)
  else if key_is "Home"%string then (Fld (value f) 0 (anchor_begin shift f), [Caret; Restyle], true)
  else if key_is "End"%string then (Fld (value f) (Z.of_nat (length cur)) (anchor_begin shift f), [Caret; Restyle], true)
  else (f, [], false).

(** What a number field takes: one byte that fits the value as it is. *)
Definition number_takes (cur u : bytes) : bool :=
  let c := at_ u 0 in
  if decide (c = 46) then negb (bool_decide (46 ∈ cur)) && bool_decide (length u = 1)%nat
  else if decide (c = 45 ∨ c = 43) then bool_decide (cur = []) && bool_decide (length u = 1)%nat
  else c_isdigit c && bool_decide (length u = 1)%nat.

Definition apply_text_char (malloc is_number : bool) (cp : Z) (f : Field) : Field * list effect :=
  if decide (cp = 0) then (f, []) else
  let u := char_utf8 cp in
  let cur := text_of f in
  if is_number && negb (number_takes cur u) then (f, []) else
  let '(a, b) := if has_sel f then sel_range f else (Z.of_nat (caret_of f), Z.of_nat (caret_of f)) in
  if malloc then
    (Fld (Some (take (Z.to_nat a) cur ++ u ++ drop (Z.to_nat b) cur)) (a + Z.of_nat (length u)) (-1), [Input; Caret; Restyle])
  else (f, []).

(** A field that is focused by Tab or a script has its caret at the end and, as
    [calloc] made it, its anchor at 0: the next character replaces the value. *)
Example focus_selects_all : fst (apply_text_char true false 120 (Fld (Some (str "abc")) 3 0)) = Fld (Some (str "x")) 1 (-1).
Proof. reflexivity. Qed.
(** Enter leaves a selection and its text in place. *)
Example enter_keeps_selection : fst (fst (apply_text_edit_key true false true false (str "Enter") (Fld (Some (str "abc")) 0 2)))
  = Fld (Some (10 :: str "abc")) 1 2.
Proof. reflexivity. Qed.
(** A number field takes digits before the sign. *)
Example number_sign_last :
  let f1 := fst (apply_text_char true true 45 (Fld None 0 (-1))) in
  let f2 := fst (fst (apply_text_edit_key true false false false (str "Home") f1)) in
  value (fst (apply_text_char true true 53 f2)) = Some (str "5-").
Proof. reflexivity. Qed.
(** A second digit cannot replace a selected sign by a sign. *)
Example number_sign_over_selection : number_takes (str "12") (str "-") = false.
Proof. reflexivity. Qed.

(** ** Characters *)

(** The bytes of a character: one of seven bits, or a lead and continuations. *)
Definition char_ok (u : bytes) : Prop :=
  match u with
  | [] => False
  | c :: r => cont c = false ∧ Forall (λ c, cont c = true) r ∧ (Z.land c 0x80 = 0 ↔ r = [])
  end.

Lemma land_pow x n : 0 <= n → Z.land x (2 ^ n) = if Z.testbit x n then 2 ^ n else 0.
Proof.
  intros Hn. apply Z.bits_inj'. intros i Hi. rewrite Z.land_spec, Z.pow2_bits_eqb by lia.
  destruct (Z.testbit x n) eqn:E; [rewrite Z.pow2_bits_eqb by lia|rewrite Z.bits_0]; destruct (Z.eqb_spec n i) as [->|]; by rewrite ?andb_false_r, ?andb_true_r, ?E.
Qed.
Lemma cont_bits c : cont c = Z.testbit c 7 && negb (Z.testbit c 6).
Proof.
  unfold cont. change 0xC0 with (Z.lor (2 ^ 7) (2 ^ 6)). rewrite Z.land_lor_distr_r, !land_pow by lia.
  by destruct (Z.testbit c 7), (Z.testbit c 6).
Qed.
Lemma lead_bits c : Z.land c 0x80 = 0 ↔ Z.testbit c 7 = false.
Proof. change 0x80 with (2 ^ 7). rewrite land_pow by lia. by destruct (Z.testbit c 7). Qed.
Lemma u8_bit x i : 0 <= i < 8 → Z.testbit (u8 x) i = Z.testbit x i.
Proof. intros Hi. unfold u8. by rewrite Z.mod_pow2_bits_low by lia. Qed.

Lemma cont_tail x : cont (u8 (Z.lor 0x80 (Z.land x 0x3F))) = true.
Proof. rewrite cont_bits, !u8_bit, !Z.lor_spec, !Z.land_spec by lia. cbn. by rewrite andb_false_r. Qed.
Lemma char_lead k x r : Z.testbit k 7 = true → Z.testbit k 6 = true → r ≠ [] → Forall (λ c, cont c = true) r → char_ok (u8 (Z.lor k x) :: r).
Proof.
  intros H7 H6 Hr Ht. split; [|split; [done|]].
  - rewrite cont_bits, !u8_bit, !Z.lor_spec, H6, H7 by lia. done.
  - rewrite lead_bits, u8_bit, Z.lor_spec, H7 by lia. done.
Qed.
(** What is typed is a character, whatever the code point. *)
Lemma char_utf8_ok cp : 0 < cp → char_ok (char_utf8 cp).
Proof.
  intros H. unfold char_utf8. repeat case_decide.
  - split; [rewrite cont_bits, (testbit_above cp 7) by lia; done|]. split; [constructor|]. rewrite lead_bits, (testbit_above cp 7) by lia. done.
  - apply char_lead; [done..|]. repeat constructor. apply cont_tail.
  - apply char_lead; [done..|]. repeat constructor; apply cont_tail.
  - apply char_lead; [done..|]. repeat constructor; apply cont_tail.
Qed.

(** *** Steps over a text of characters *)

Lemma char_nonempty u : char_ok u → u ≠ [].
Proof. by destruct u. Qed.

Lemma conts_app r s : Forall (λ c, cont c = true) r → match s with [] => True | c :: _ => cont c = false end → conts (r ++ s) = length r.
Proof.
  induction 1 as [|c r Hc _ IH]; intros Hs; cbn [app conts length]; [destruct s as [|c s]; [done|]; cbn [conts]; by rewrite Hs|].
  rewrite Hc. f_equal. by apply IH.
Qed.
(** The text goes on with a character or ends. *)
Definition head_ok (s : bytes) : Prop := match s with [] => True | c :: _ => cont c = false end.
Lemma units_head us : Forall char_ok us → head_ok (mjoin us).
Proof. destruct 1 as [|u us Hu _]; [done|]. destruct u as [|c r]; [done|]. apply Hu. Qed.

Lemma at_app s t : at_ (s ++ t) (length s) = match t with [] => 0 | c :: _ => c end.
Proof. unfold at_. rewrite lookup_app_r, Nat.sub_diag by lia. by destruct t. Qed.
Lemma cont_0 : cont 0 = false.
Proof. done. Qed.
Lemma head_at s t : head_ok t → cont (at_ (s ++ t) (length s)) = false.
Proof. rewrite at_app. by destruct t. Qed.

Lemma cplen_char s u t : char_ok u → head_ok t → utf8_cplen_at (s ++ u ++ t) (length s) = length u.
Proof.
  intros Hu Ht. unfold utf8_cplen_at. rewrite drop_app_length. destruct u as [|c r]; [done|]. destruct Hu as (_&Hr&H0). cbn [app].
  destruct (decide (Z.land c 128 = 0)) as [E|E]; [by rewrite (proj1 H0 E)|]. cbn [length]. f_equal. by apply conts_app.
Qed.
Lemma back_up_conts r : ∀ s c t, Forall (λ c, cont c = true) r → cont c = false → back_up (s ++ c :: r ++ t) (length s + length r) = length s.
Proof.
  induction r as [|x r IH] using rev_ind; intros s c t Hr Hc.
  - cbn [length app]. rewrite Nat.add_0_r. pose proof (at_app s (c :: t)) as E. cbn in E. destruct (length s) as [|k] eqn:El; [done|].
    cbn [back_up]. by rewrite E, Hc.
  - apply Forall_app in Hr as [Hr [Hx _]%Forall_cons]. rewrite length_app. cbn [length]. replace (length s + (length r + 1))%nat with (S (length s + length r)) by lia. cbn [back_up].
    pose proof (at_app (s ++ c :: r) (x :: t)) as E. rewrite length_app in E. cbn [length] in E. rewrite <- !app_assoc in *. cbn [app] in *.
    rewrite <- Nat.add_succ_r, E, Hx. by apply IH.
Qed.
Lemma back_up_char s u t : char_ok u → back_up (s ++ u ++ t) (length (s ++ u) - 1) = length s.
Proof.
  intros Hu. destruct u as [|c r]; [done|]. destruct Hu as (Hc&Hr&_). rewrite length_app. cbn [length app].
  replace (length s + S (length r) - 1)%nat with (length s + length r)%nat by lia. by apply back_up_conts.
Qed.
Lemma clamp_char s t : head_ok t → caret_clamp (s ++ t) (Z.of_nat (length s)) = length s.
Proof.
  intros Ht. unfold caret_clamp. rewrite decide_False by lia. rewrite decide_False by (rewrite length_app; lia). rewrite Nat2Z.id.
  pose proof (head_at s t Ht) as E. destruct (length s); [done|]. cbn [back_up]. by rewrite E.
Qed.

(** ** The editor the field implements *)

(** Characters, the caret before one of them, the fixed end of a selection. *)
Record editor := Ed { chars : list bytes; caret : nat; anchor : option nat }.

Definition selected (g : editor) : option (nat * nat) :=
  match anchor g with
  | Some k => if decide (k = caret g) then None else Some (k `min` caret g, k `max` caret g)%nat
  | None => None
  end.
Definition replace (i j : nat) (us : list bytes) (g : editor) : editor :=
  Ed (take i (chars g) ++ us ++ drop j (chars g)) (i + length us) None.
Definition move (shift : bool) (n : nat) (g : editor) : editor :=
  Ed (chars g) n (if shift then Some (default (caret g) (anchor g)) else None).

Definition edit (is_ta shift : bool) (key : bytes) (g : editor) : editor :=
  let n := caret g in
  let key_is k := streq key (str k) in
  if key_is "Backspace"%string || key_is "Delete"%string then
    match selected g with
    | Some (i, j) => replace i j [] g
    | None =>
      if key_is "Backspace"%string then if decide (0 < n)%nat then replace (n - 1) n [] g else g
      else if decide (n < length (chars g))%nat then replace n (n + 1) [] g else g
    end
  else if key_is "Enter"%string && is_ta then
    Ed (take n (chars g) ++ [10] :: drop n (chars g)) (n + 1) (anchor g)
  else if key_is "ArrowLeft"%string then move shift (n - 1) g
  else if key_is "ArrowRight"%string then move shift ((n + 1) `min` length (chars g)) g
  else if key_is "Home"%string then move shift 0 g
  else if key_is "End"%string then move shift (length (chars g)) g
  else g.
Definition type_char (u : bytes) (g : editor) : editor :=
  match selected g with Some (i, j) => replace i j [u] g | None => replace (caret g) (caret g) [u] g end.

(** Where character [k] starts. *)
Definition pos (l : list bytes) (k : nat) : nat := length (mjoin (take k l)).

Record shows (f : Field) (g : editor) : Prop := {
  sh_chars : Forall char_ok (chars g);
  sh_text : text_of f = mjoin (chars g);
  sh_caret : (caret g <= length (chars g))%nat ∧ caret_offset f = Z.of_nat (pos (chars g) (caret g));
  sh_anchor : match anchor g with
              | None => sel_anchor_off f < 0
              | Some k => (k <= length (chars g))%nat ∧ sel_anchor_off f = Z.of_nat (pos (chars g) k)
              end }.

Lemma mjoin_split (l : list bytes) k : mjoin l = mjoin (take k l) ++ mjoin (drop k l).
Proof. by rewrite <- join_app, take_drop. Qed.
Lemma pos_le l k : (pos l k <= length (mjoin l))%nat.
Proof. unfold pos. rewrite (mjoin_split l k), length_app. lia. Qed.
Lemma take_pos l k : take (pos l k) (mjoin l) = mjoin (take k l).
Proof. unfold pos. rewrite (mjoin_split l k). by rewrite take_app_length. Qed.
Lemma drop_pos l k : drop (pos l k) (mjoin l) = mjoin (drop k l).
Proof. unfold pos. rewrite (mjoin_split l k). by rewrite drop_app_length. Qed.

Section chars.
Context (l : list bytes) (Hl : Forall char_ok l).

Lemma chars_drop k : Forall char_ok (drop k l).
Proof using Hl. by apply Forall_drop. Qed.

(** Character [k] splits the text. *)
Lemma char_at k : (k < length l)%nat → ∃ u, char_ok u ∧ take (k + 1) l = take k l ++ [u] ∧ drop k l = u :: drop (k + 1) l.
Proof using Hl.
  intros Hk. destruct (lookup_lt_is_Some_2 l k Hk) as [u Hu]. exists u.
  split; [by eapply Forall_lookup_1|]. replace (k + 1)%nat with (S k) by lia. split; [by apply take_S_r|by apply drop_S].
Qed.
Lemma pos_S k u : take (k + 1) l = take k l ++ [u] → pos l (k + 1) = (pos l k + length u)%nat.
Proof. unfold pos. intros ->. rewrite join_app, length_app. cbn. by rewrite app_nil_r. Qed.

Lemma pos_lt i j : (i < j)%nat → (j <= length l)%nat → (pos l i < pos l j)%nat.
Proof using Hl.
  intros Hij Hj. induction j as [|j IH]; [lia|]. destruct (char_at j ltac:(lia)) as (u&Hu&Ht&_). rewrite <- Nat.add_1_r, (pos_S j u Ht).
  assert (0 < length u)%nat by (destruct u; [done|simpl; lia]). destruct (decide (i = j)) as [->|]; [lia|]. specialize (IH ltac:(lia) ltac:(lia)). lia.
Qed.
Lemma pos_end : pos l (length l) = length (mjoin l).
Proof. unfold pos. by rewrite take_ge by lia. Qed.

Lemma clamp_pos k : caret_clamp (mjoin l) (Z.of_nat (pos l k)) = pos l k.
Proof using Hl. rewrite (mjoin_split l k). apply clamp_char, units_head, chars_drop. Qed.
Lemma cplen_pos k : (k < length l)%nat → (pos l k + utf8_cplen_at (mjoin l) (pos l k))%nat = pos l (k + 1).
Proof using Hl.
  intros Hk. destruct (char_at k Hk) as (u&Hu&Ht&Hd). rewrite (pos_S k u Ht). f_equal. rewrite (mjoin_split l k), Hd. cbn [mjoin list_join].
  apply cplen_char; [done|]. apply units_head, chars_drop.
Qed.
Lemma back_pos k : (k < length l)%nat → back_up (mjoin l) (pos l (k + 1) - 1) = pos l k.
Proof using Hl.
  intros Hk. destruct (char_at k Hk) as (u&Hu&Ht&Hd). rewrite (mjoin_split l k), Hd. cbn [mjoin list_join]. unfold pos. rewrite Ht, join_app. cbn [mjoin list_join].
  rewrite app_nil_r. by apply back_up_char.
Qed.
Lemma cut_pos i j (us : list bytes) : take (pos l i) (mjoin l) ++ (mjoin us : bytes) ++ drop (pos l j) (mjoin l) = mjoin (take i l ++ us ++ drop j l).
Proof. rewrite take_pos, drop_pos. by rewrite !join_app. Qed.
End chars.

Lemma shows_replace f g i j us a : shows f g → (i <= j)%nat → (j <= length (chars g))%nat → Forall char_ok us → a < 0 →
  shows (Fld (Some (take (pos (chars g) i) (text_of f) ++ mjoin us ++ drop (pos (chars g) j) (text_of f)))
             (Z.of_nat (pos (chars g) i + length (mjoin us))) a) (replace i j us g).
Proof.
  intros [Hc Ht _ _] Hij Hj Hus Ha. unfold replace. split; cbn [chars caret anchor value caret_offset sel_anchor_off].
  - apply Forall_app. split; [by apply Forall_take|]. apply Forall_app. split; [done|by apply Forall_drop].
  - cbn. by rewrite Ht, cut_pos.
  - rewrite !length_app, length_take, length_drop. split; [lia|]. unfold pos at 2. f_equal.
    rewrite take_app_add', take_app_length by (rewrite length_take; lia). by rewrite join_app, length_app.
  - done.
Qed.
Lemma shows_caret f g : shows f g → caret_of f = pos (chars g) (caret g).
Proof. intros [Hc Ht [_ Hn] _]. unfold caret_of. rewrite Ht, Hn. by apply clamp_pos. Qed.

Lemma pos_inj l i j : Forall char_ok l → (i <= length l)%nat → (j <= length l)%nat → pos l i = pos l j → i = j.
Proof.
  intros Hl Hi Hj E. destruct (Nat.lt_trichotomy i j) as [H|[H|H]]; [|done|]; [pose proof (pos_lt l Hl i j H Hj)|pose proof (pos_lt l Hl j i H Hi)]; lia.
Qed.

(** The selection of the field is that of the editor. *)
Lemma shows_sel f g : shows f g →
  match selected g with
  | Some (i, j) => has_sel f = true ∧ sel_range f = (Z.of_nat (pos (chars g) i), Z.of_nat (pos (chars g) j)) ∧ (i < j <= length (chars g))%nat
  | None => has_sel f = false
  end.
Proof.
  intros H. pose proof (shows_caret f g H) as Ec. destruct H as [Hc Ht [Hn _] Ha]. unfold selected, has_sel, sel_range. rewrite Ec, Ht.
  destruct (anchor g) as [k|]; [|by rewrite bool_decide_eq_false_2 by lia]. destruct Ha as [Hk ->].
  rewrite (bool_decide_eq_true_2 (0 <= _)) by lia. cbn [andb]. destruct (decide (k = caret g)) as [->|Hne]; [by rewrite bool_decide_eq_false_2 by lia|].
  assert (pos (chars g) k ≠ pos (chars g) (caret g)) as Hp by (intros E; apply Hne; by eapply pos_inj).
  rewrite bool_decide_eq_true_2 by lia. split; [done|]. pose proof (pos_le (chars g) k). pose proof (pos_le (chars g) (caret g)).
  destruct (decide (k < caret g)%nat) as [Hlt|Hge].
  - pose proof (pos_lt (chars g) Hc k (caret g) Hlt Hn). rewrite Nat.min_l, Nat.max_r by lia. split; [repeat case_decide; f_equal; lia|lia].
  - pose proof (pos_lt (chars g) Hc (caret g) k ltac:(lia) Hk). rewrite Nat.min_r, Nat.max_l by lia. split; [repeat case_decide; f_equal; lia|lia].
Qed.

Lemma shows_move f g n shift z : shows f g → (n <= length (chars g))%nat → z = Z.of_nat (pos (chars g) n) →
  shows (Fld (value f) z (anchor_begin shift f)) (move shift n g).
Proof.
  intros H Hn ->. pose proof (shows_caret f g H) as Ec. destruct H as [Hc Ht [Hk Hcar] Ha]. unfold move. split; [done..|]. cbn [anchor sel_anchor_off].
  unfold anchor_begin. rewrite Ec. destruct shift; [|done]. destruct (anchor g) as [k|]; cbn [default from_option id chars].
  - destruct Ha as [? ->]. by rewrite decide_False by lia.
  - by rewrite decide_True by done.
Qed.
Lemma shows_enter f g : shows f g → match anchor g with Some k => (k <= caret g)%nat | None => True end →
  shows (Fld (Some (take (caret_of f) (text_of f) ++ 10 :: drop (caret_of f) (text_of f))) (Z.of_nat (caret_of f) + 1) (sel_anchor_off f))
        (Ed (take (caret g) (chars g) ++ [10] :: drop (caret g) (chars g)) (caret g + 1) (anchor g)).
Proof.
  intros H Hsel. pose proof (shows_caret f g H) as Ec. pose proof (shows_replace f g (caret g) (caret g) [[10]] (-1) H) as Hr.
  destruct (sh_caret _ _ H) as [Hn _]. destruct Hr as [H1 H2 [H3 H4] _]; [lia|done|by repeat constructor|done|].
  cbn [chars caret anchor value caret_offset sel_anchor_off replace text_of] in *. rewrite Ec. split; cbn [chars caret anchor value caret_offset sel_anchor_off].
  - exact H1.
  - exact H2.
  - split; [exact H3|]. etrans; [|exact H4]. change (length (mjoin [[10]])) with 1%nat. lia.
  - pose proof (sh_anchor _ _ H) as Ha. destruct (anchor g) as [k|]; [|done]. destruct Ha as [Hk ->]. rewrite length_app, length_take. cbn [length]. rewrite length_drop.
    split; [lia|]. f_equal. unfold pos. do 2 f_equal. rewrite take_app_le by (rewrite length_take; lia). by rewrite take_take, Nat.min_l by lia.
Qed.

(** What a key leaves, with what it sends. *)
Definition done_as (f : Field) (r : Field * list effect * bool) (g g' : editor) : Prop :=
  shows r.1.1 g' ∧ (Input ∈ r.1.2 ↔ chars g' ≠ chars g).

Lemma replace_changes i j us g : (i <= j)%nat → (j <= length (chars g))%nat → length us ≠ (j - i)%nat → chars (replace i j us g) ≠ chars g.
Proof.
  intros Hi Hj Hu E. apply (f_equal length) in E. cbn [replace chars] in E. rewrite !length_app, length_take, length_drop in E. lia.
Qed.
Lemma remove_done f g i j : shows f g → (i < j)%nat → (j <= length (chars g))%nat →
  done_as f (Fld (Some (cut (text_of f) (pos (chars g) i) (pos (chars g) j))) (Z.of_nat (pos (chars g) i)) (-1), [Input; Caret; Restyle], false) g (replace i j [] g).
Proof.
  intros H Hi Hj. split; cbn [fst snd].
  - pose proof (shows_replace f g i j [] (-1) H ltac:(lia) Hj ltac:(constructor) ltac:(lia)) as Hr. cbn [mjoin list_join length app] in Hr.
    rewrite Nat.add_0_r in Hr. exact Hr.
  - split; [intros _; apply replace_changes; simpl; lia|intros _; by left].
Qed.
Lemma same_done f g effs b : shows f g → Input ∉ effs → done_as f (f, effs, b) g g.
Proof. intros H Hi. split; [exact H|]. split; [by intros ?%Hi|by intros []]. Qed.
Lemma move_done f g n shift z : shows f g → (n <= length (chars g))%nat → z = Z.of_nat (pos (chars g) n) →
  done_as f (Fld (value f) z (anchor_begin shift f), [Caret; Restyle], true) g (move shift n g).
Proof. intros H Hn Hz. split; [by apply shows_move|]. split; [|by intros []]. cbn [fst snd]. rewrite !elem_of_cons, elem_of_nil. by intros [|[|]]. Qed.
Lemma no_input : Input ∉ [Caret; Restyle].
Proof. rewrite !elem_of_cons, elem_of_nil. by intros [|[|]]. Qed.

(** Where the caret is, in bytes and in characters. *)
Lemma caret_zero f g : shows f g → (0 < caret_of f)%nat ↔ (0 < caret g)%nat.
Proof.
  intros H. rewrite (shows_caret f g H). destruct (sh_caret _ _ H) as [Hn _]. split; intros Hlt.
  - destruct (caret g); [done|lia].
  - pose proof (pos_lt (chars g) (sh_chars _ _ H) 0 (caret g) Hlt Hn). lia.
Qed.
Lemma caret_end f g : shows f g → (caret_of f < length (text_of f))%nat ↔ (caret g < length (chars g))%nat.
Proof.
  intros H. rewrite (shows_caret f g H), (sh_text _ _ H), <- pos_end. destruct (sh_caret _ _ H) as [Hn _]. split; intros Hlt.
  - destruct (decide (caret g = length (chars g))) as [E|]; [rewrite E in Hlt|]; lia.
  - by apply (pos_lt (chars g) (sh_chars _ _ H)).
Qed.
Lemma caret_back f g : shows f g → (0 < caret g)%nat → back_up (text_of f) (caret_of f - 1) = pos (chars g) (caret g - 1).
Proof.
  intros H Hlt. rewrite (shows_caret f g H), (sh_text _ _ H). destruct (sh_caret _ _ H) as [Hn _].
  replace (caret g) with (caret g - 1 + 1)%nat at 1 by lia. apply back_pos; [apply H|lia].
Qed.
Lemma caret_next f g : shows f g → (caret g < length (chars g))%nat →
  (caret_of f + utf8_cplen_at (text_of f) (caret_of f))%nat = pos (chars g) (caret g + 1).
Proof. intros H Hlt. rewrite (shows_caret f g H), (sh_text _ _ H). apply cplen_pos; [apply H|done]. Qed.

Lemma delete_done f g key : shows f g → streq key (str "Backspace") || streq key (str "Delete") = true → key ≠ [] →
  ∀ is_ta shift, done_as f (apply_text_edit_key true false is_ta shift key f) g (edit is_ta shift key g).
Proof.
  intros H Hk Hne is_ta shift. unfold apply_text_edit_key, edit. rewrite bool_decide_eq_false_2 by done. cbn [orb]. rewrite Hk.
  pose proof (shows_sel f g H) as Hs. destruct (selected g) as [[i j]|].
  - destruct Hs as (-> & -> & Hij). pose proof (pos_lt (chars g) (sh_chars _ _ H) i j ltac:(lia) ltac:(lia)).
    rewrite bool_decide_eq_true_2 by lia. cbn [andb]. rewrite !Nat2Z.id. apply remove_done; [done|lia..].
  - rewrite Hs. destruct (sel_range f) as [a b]. cbn [andb]. pose proof (shows_caret f g H) as Ec. destruct (sh_caret _ _ H) as [Hn _]. destruct (streq key (str "Backspace")).
    + destruct (decide (0 < caret g)%nat) as [Hc|Hc].
      * rewrite decide_True by by apply (caret_zero f g). rewrite (caret_back f g) by done. rewrite Ec. apply remove_done; [done|lia..].
      * rewrite decide_False by by rewrite (caret_zero f g). apply same_done; [done|apply no_input].
    + destruct (decide (caret g < length (chars g))%nat) as [Hc|Hc].
      * rewrite decide_True by by apply (caret_end f g). rewrite (caret_next f g), Ec by done. apply remove_done; [done|lia..].
      * rewrite decide_False by by rewrite (caret_end f g). apply same_done; [done|apply no_input].
Qed.

Lemma other_done f g key is_ta shift : shows f g → streq key (str "Backspace") || streq key (str "Delete") = false → key ≠ [] →
  (key = str "Enter" → is_ta = true → match anchor g with Some k => (k <= caret g)%nat | None => True end) →
  done_as f (apply_text_edit_key true false is_ta shift key f) g (edit is_ta shift key g).
Proof.
  intros H Hk Hne He. unfold apply_text_edit_key, edit. rewrite bool_decide_eq_false_2 by done. cbn [orb]. rewrite Hk.
  destruct (sh_caret _ _ H) as [Hn Hco]. destruct (streq key (str "Enter") && is_ta) eqn:E.
  { apply andb_true_iff in E as [E1%bool_decide_eq_true E2]. split; [by apply shows_enter; [|apply He]|]. cbn [fst snd chars].
    split; [intros _|intros _; by left]. intros E'%(f_equal length). rewrite length_app, length_take in E'. cbn [length] in E'. rewrite length_drop in E'. lia. }
  destruct (streq key (str "ArrowLeft")).
  { apply move_done; [done|lia|]. destruct (decide (0 < caret g)%nat) as [Hc|Hc].
    - rewrite decide_True by by apply (caret_zero f g). by rewrite (caret_back f g).
    - rewrite decide_False by by rewrite (caret_zero f g). rewrite Hco. by replace (caret g - 1)%nat with (caret g) by lia. }
  destruct (streq key (str "ArrowRight")).
  { apply move_done; [done|lia|]. destruct (decide (caret g < length (chars g))%nat) as [Hc|Hc].
    - rewrite decide_True by by apply (caret_end f g). rewrite (caret_next f g) by done. by rewrite Nat.min_l by lia.
    - rewrite decide_False by by rewrite (caret_end f g). rewrite Hco. by replace ((caret g + 1) `min` length (chars g))%nat with (caret g) by lia. }
  destruct (streq key (str "Home")); [by apply move_done; [|lia|]|].
  destruct (streq key (str "End")); [by apply move_done; [|lia|rewrite pos_end, (sh_text _ _ H)]|].
  apply same_done; [done|apply not_elem_of_nil].
Qed.

(** C10. A text field is an editor of characters: while its offsets stand
    between the characters of its text, every key and every typed character does
    to the bytes what the editor does to the characters, offsets between
    characters again.  A key sends an input event exactly when it changes the
    text; a typed character sends one exactly when it is taken (a number field
    takes some only), also when it takes the place of an equal one.  Left out:
    Enter in a textarea whose selection lies after the caret, of which it takes
    no account (finding). *)
Theorem field_refines f g : shows f g →
  (∀ is_ta shift key, (key = str "Enter" → is_ta = true → match anchor g with Some k => (k <= caret g)%nat | None => True end) →
     ∃ f' effs pd, apply_text_edit_key true false is_ta shift key f = (f', effs, pd) ∧ shows f' (edit is_ta shift key g)
       ∧ (Input ∈ effs ↔ chars (edit is_ta shift key g) ≠ chars g)) ∧
  (∀ is_number cp, 0 < cp →
     let refused := is_number && negb (number_takes (mjoin (chars g)) (char_utf8 cp)) in
     ∃ f' effs, apply_text_char true is_number cp f = (f', effs) ∧ shows f' (if refused then g else type_char (char_utf8 cp) g)
       ∧ (Input ∈ effs ↔ refused = false)).
Proof.
  intros H. split.
  - intros is_ta shift key He. destruct (apply_text_edit_key true false is_ta shift key f) as [[f' effs] pd] eqn:E. exists f', effs, pd. split; [done|].
    assert (done_as f (f', effs, pd) g (edit is_ta shift key g)) as [? ?]; [|done]. rewrite <- E.
    destruct (decide (key = [])) as [->|Hne]; [apply same_done; [done|apply not_elem_of_nil]|].
    destruct (streq key (str "Backspace") || streq key (str "Delete")) eqn:Ek; [by apply delete_done|by apply other_done].
  - intros is_number cp Hcp refused. unfold apply_text_char. rewrite decide_False by lia. rewrite (sh_text _ _ H). fold refused.
    destruct refused; [exists f, []; split; [done|split; [done|split; [by intros ?%not_elem_of_nil|done]]]|].
    assert (∀ i j, (i <= j)%nat → (j <= length (chars g))%nat → shows (Fld (Some (take (pos (chars g) i) (text_of f) ++ char_utf8 cp ++ drop (pos (chars g) j) (text_of f)))
      (Z.of_nat (pos (chars g) i) + Z.of_nat (length (char_utf8 cp))) (-1)) (replace i j [char_utf8 cp] g)) as Hr.
    { intros i j Hij Hj. pose proof (shows_replace f g i j [char_utf8 cp] (-1) H Hij Hj) as Hr. cbn [mjoin list_join] in Hr. rewrite app_nil_r, Nat2Z.inj_add in Hr.
      apply Hr; [repeat constructor; by apply char_utf8_ok|done]. }
    rewrite (sh_text _ _ H) in Hr. pose proof (shows_sel f g H) as Hs. unfold type_char. destruct (selected g) as [[i j]|].
    + destruct Hs as (-> & -> & Hij). rewrite !Nat2Z.id. eexists _, _. split; [done|]. split; [apply Hr; lia|]. split; [done|intros _; left].
    + rewrite Hs, (shows_caret f g H), !Nat2Z.id. eexists _, _. split; [done|]. split; [apply Hr; [lia|apply H]|]. split; [done|intros _; left].
Qed.

Definition demo_field : Field := Fld (Some [97; 195; 169; 98]) 3 (-1).
Definition demo_editor : editor := Ed [[97]; [195; 169]; [98]] 2 None.
Lemma demo_shows : shows demo_field demo_editor.
Proof. split; [|reflexivity|split; [simpl; lia|reflexivity]|reflexivity]. repeat constructor; discriminate. Qed.
Lemma field_refines_witness :
  edit false true (str "ArrowLeft") demo_editor = Ed [[97]; [195; 169]; [98]] 1 (Some 2%nat)
  ∧ (∃ f' effs, apply_text_char true false 0x20AC demo_field = (f', effs) ∧ shows f' (Ed [[97]; [195; 169]; [226; 130; 172]; [98]] 3 None) ∧ Input ∈ effs)
  ∧ ∃ f' effs pd, apply_text_edit_key true false false false (str "Backspace") demo_field = (f', effs, pd) ∧ shows f' (Ed [[97]; [98]] 1 None)
      ∧ (Input ∈ effs ↔ [[97]; [98]] ≠ chars demo_editor).
Proof.
  destruct (field_refines demo_field demo_editor demo_shows) as [H1 H2]. split; [reflexivity|]. split.
  - destruct (H2 false 0x20AC ltac:(lia)) as (f'&effs&E&Hs&Hi). exists f', effs. split; [exact E|]. split; [exact Hs|]. by apply Hi.
  - apply (H1 false false (str "Backspace")). discriminate.
Defined.
