(* ===== verification/Events.v ===== *)
(** * Events (src/src/mini_events.c)

    The listener table, dispatch in its three phases, focus, and what keys do:
    dispatch, Tab, selection, copy, editing.  A listener or an inline handler is
    called with a record of the call; what it does is the list of [act]s that
    [acts] gives for it.  The trace records the calls.  [hidden] tells which
    elements have display none.  Coordinates, styles and layout are left out:
    hit testing and the mouse and wheel handlers are not modelled here. *)

From stdpp Require Import gmap list.
From S2P Require Import Prelude CString Dom EditField.
Open Scope Z_scope.

Definition MINI_LS_MAX : nat := 256.

Record Listener := Lsn { target : option nat; type : bytes; cb : option nat; ud : nat; useCapture : bool; active : bool }.

(** A call of a listener or of an [on...] attribute. *)
Inductive call :=
| Listen (cb ud node : nat) (phase : Z) (type : bytes)
| Inline (code : bytes) (node : nat) (phase : Z) (type : bytes)
| CaretMoved (node : nat)
| Copied (text : bytes).

(** What a callback can do; it names nodes that are there. *)
Inductive act :=
| Stop
| Prevent
| Add (target : nat) (type : bytes) (cb ud : nat) (capture : bool)
| Remove (handle : nat)
| Destroy (n : nat)
| SetAttr (n : nat) (k v : bytes).

(** The nodes of a drag in progress: its source, the element that takes the
    drop, and the element that is moved.  The mouse handlers set them. *)
Record Drag := mkDrag { dnd_source : option nat; dnd_target : option nat; move_node : option nat }.
Definition no_drag : Drag := mkDrag None None None.

Record EventState := ES {
  doc : dom; doc_root : nat; doc_body : option nat;
  ls : list Listener; inline_handler : bool; has_caret_cb : bool; has_copy_cb : bool;
  hover : option nat; focus : option nat; press_target : option nat; last_click_target : option nat; drag_range : option nat;
  sel_anchor : option nat * Z; sel_focus : option nat * Z;
  edit_snapshot : option bytes; suppress_char : bool;
  carets : gmap nat (Z * Z);
  drag : Drag;
  trace : list call }.

Definition set_doc v s := ES v (doc_root s) (doc_body s) (ls s) (inline_handler s) (has_caret_cb s) (has_copy_cb s) (hover s) (focus s) (press_target s)
  (last_click_target s) (drag_range s) (sel_anchor s) (sel_focus s) (edit_snapshot s) (suppress_char s) (carets s) (drag s) (trace s).
Definition set_ls v s := ES (doc s) (doc_root s) (doc_body s) v (inline_handler s) (has_caret_cb s) (has_copy_cb s) (hover s) (focus s) (press_target s)
  (last_click_target s) (drag_range s) (sel_anchor s) (sel_focus s) (edit_snapshot s) (suppress_char s) (carets s) (drag s) (trace s).
Definition set_focus v s := ES (doc s) (doc_root s) (doc_body s) (ls s) (inline_handler s) (has_caret_cb s) (has_copy_cb s) (hover s) v (press_target s)
  (last_click_target s) (drag_range s) (sel_anchor s) (sel_focus s) (edit_snapshot s) (suppress_char s) (carets s) (drag s) (trace s).
Definition set_snapshot v s := ES (doc s) (doc_root s) (doc_body s) (ls s) (inline_handler s) (has_caret_cb s) (has_copy_cb s) (hover s) (focus s) (press_target s)
  (last_click_target s) (drag_range s) (sel_anchor s) (sel_focus s) v (suppress_char s) (carets s) (drag s) (trace s).
Definition set_suppress v s := ES (doc s) (doc_root s) (doc_body s) (ls s) (inline_handler s) (has_caret_cb s) (has_copy_cb s) (hover s) (focus s) (press_target s)
  (last_click_target s) (drag_range s) (sel_anchor s) (sel_focus s) (edit_snapshot s) v (carets s) (drag s) (trace s).
Definition set_carets v s := ES (doc s) (doc_root s) (doc_body s) (ls s) (inline_handler s) (has_caret_cb s) (has_copy_cb s) (hover s) (focus s) (press_target s)
  (last_click_target s) (drag_range s) (sel_anchor s) (sel_focus s) (edit_snapshot s) (suppress_char s) v (drag s) (trace s).
Definition set_sel a f s := ES (doc s) (doc_root s) (doc_body s) (ls s) (inline_handler s) (has_caret_cb s) (has_copy_cb s) (hover s) (focus s) (press_target s)
  (last_click_target s) (drag_range s) a f (edit_snapshot s) (suppress_char s) (carets s) (drag s) (trace s).
Definition set_drag v s := ES (doc s) (doc_root s) (doc_body s) (ls s) (inline_handler s) (has_caret_cb s) (has_copy_cb s) (hover s) (focus s) (press_target s)
  (last_click_target s) (drag_range s) (sel_anchor s) (sel_focus s) (edit_snapshot s) (suppress_char s) (carets s) v (trace s).
Definition log (c : call) s := ES (doc s) (doc_root s) (doc_body s) (ls s) (inline_handler s) (has_caret_cb s) (has_copy_cb s) (hover s) (focus s) (press_target s)
  (last_click_target s) (drag_range s) (sel_anchor s) (sel_focus s) (edit_snapshot s) (suppress_char s) (carets s) (drag s) (trace s ++ [c]).

(** ** The listener table *)

(** The first free slot, or a new one; the handle is the slot's index. *)
Fixpoint free_slot (l : list Listener) (i : nat) : option nat :=
  match l with [] => None | x :: l => if active x then free_slot l (S i) else Some i end.
Definition new_listener (t : nat) (ty : bytes) (c u : nat) (cap : bool) : Listener := Lsn (Some t) (take 23 ty) (Some c) u cap true.
Definition mini_events_add_listener (s : EventState) (t : option nat) (ty : option bytes) (c : option nat) (u : nat) (cap : bool) : EventState * option nat :=
  match t, ty, c with
  | Some t, Some ty, Some c =>
    match free_slot (ls s) 0 with
    | Some i => (set_ls (<[i := new_listener t ty c u cap]> (ls s)) s, Some i)
    | None =>
      if decide (length (ls s) < MINI_LS_MAX)%nat then (set_ls (ls s ++ [new_listener t ty c u cap]) s, Some (length (ls s)))
      else (s, None)
    end
  | _, _, _ => (s, None)
  end.
(** A handle past the used slots writes to one that is set anew before it is used. *)
Definition mini_events_remove_listener (s : EventState) (h : option nat) : EventState :=
  match h with
  | Some h => set_ls (alter (λ l, Lsn None (type l) None 0 (useCapture l) false) h (ls s)) s
  | None => s
  end.

(** The slots of [n], closing the gaps. *)
Fixpoint drop_target (l : list Listener) (n : nat) : list Listener :=
  match l with
  | [] => []
  | x :: l => if decide (target x = Some n) then drop_target l n else x :: drop_target l n
  end.
Definition not_node (n : nat) (o : option nat) : option nat := if decide (o = Some n) then None else o.
Definition mini_events_on_node_destroyed (s : EventState) (n : nat) : EventState :=
  ES (doc s) (doc_root s) (doc_body s) (drop_target (ls s) n) (inline_handler s) (has_caret_cb s) (has_copy_cb s)
    (not_node n (hover s)) (not_node n (focus s)) (not_node n (press_target s)) (not_node n (last_click_target s)) (not_node n (drag_range s))
    (if decide (fst (sel_anchor s) = Some n) then (None, 0) else sel_anchor s)
    (if decide (fst (sel_focus s) = Some n) then (None, 0) else sel_focus s)
    (edit_snapshot s) (suppress_char s) (carets s) (drag s) (trace s).
(** [mini_node_destroy] tells this module of every node it frees. *)
Definition destroy_node (s : EventState) (n : nat) : res EventState :=
  (let* d := mini_node_destroy (doc s) (Some n) in
   let gone := filter (λ m, nodes d !! m = None) (map_to_list (nodes (doc s))).*1 in
   Ok (set_doc d (fold_left mini_events_on_node_destroyed gone s)))%c.

(** ** Dispatch *)

Definition one_of_str (l : list string) (t : bytes) : bool := existsb (λ s, streq t (str s)) l.

Section events.
(** [collapsed] is the text [mini_dom_text_layout] gives for a text node. *)
Context (acts : call → list act) (hidden : nat → bool) (collapsed : nat → bytes).

(** The event: its type and flags. *)
Record Event := Ev { etype : bytes; bubbles : bool; stopPropagation : bool; preventDefault : bool }.

Definition act_step (s : EventState) (e : Event) (a : act) : res (EventState * Event) :=
  match a with
  | Stop => Ok (s, Ev (etype e) (bubbles e) true (preventDefault e))
  | Prevent => Ok (s, Ev (etype e) (bubbles e) (stopPropagation e) true)
  | Add t ty c u cap => (let* _ := node (doc s) t in Ok (fst (mini_events_add_listener s (Some t) (Some ty) (Some c) u cap), e))%c
  | Remove h => Ok (mini_events_remove_listener s (Some h), e)
  | Destroy n => (let* s := destroy_node s n in Ok (s, e))%c
  | SetAttr n k v => (let* d := mini_node_set_attribute (doc s) (Some n) (Some k) (Some v) in Ok (set_doc d s, e))%c
  end.
Fixpoint act_all (s : EventState) (e : Event) (l : list act) : res (EventState * Event) :=
  match l with [] => Ok (s, e) | a :: l => (let* (s, e) := act_step s e a in act_all s e l)%c end.
Definition do_call (s : EventState) (e : Event) (c : call) : res (EventState * Event) := act_all (log c s) e (acts c).

Definition pointer_name (ty : bytes) (l : bytes) : bool :=
  (streq ty (str "mousedown") && streq l (str "pointerdown")) || (streq ty (str "mousemove") && streq l (str "pointermove"))
  || (streq ty (str "mouseup") && streq l (str "pointerup")) || (streq ty (str "mouseleave") && streq l (str "pointercancel")).
(** The listener is called for this event at this node in this phase. *)
Definition fires (l : Listener) (ty : bytes) (n : nat) (phase : Z) : bool :=
  active l && bool_decide (target l = Some n) && (streq (type l) ty || pointer_name ty (type l))
  && (if decide (phase = 0) then useCapture l else if decide (phase = 1) then true else negb (useCapture l)).

(** The slots [i, i + count), those still in use; whether a call stopped the loop. *)
Fixpoint fire_slots (count i : nat) (s : EventState) (e : Event) (n : nat) (phase : Z) : res (EventState * Event * bool) :=
  match count, ls s !! i with
  | S count, Some l =>
    if fires l (etype e) n phase then
      match cb l with
      | None => UB
      | Some c =>
        (let* (s, e) := do_call s e (Listen c (ud l) n phase (etype e)) in
         if stopPropagation e then Ok (s, e, true) else fire_slots count (S i) s e n phase)%c
      end
    else fire_slots count (S i) s e n phase
  | _, _ => Ok (s, e, false)
  end.
Definition on_attr (ty : bytes) : bytes := take 31 (str "on" ++ ty).
Definition fire_at (s : EventState) (n : nat) (e : Event) (phase : Z) : res (EventState * Event) :=
  (let* (s, e, stopped) := fire_slots (length (ls s)) 0 s e n phase in
   if stopped : bool then Ok (s, e)
   else if inline_handler s && bool_decide (phase = 1 ∨ phase = 2) then
     let* code := mini_node_get_attribute (doc s) (Some n) (Some (on_attr (etype e))) in
     match code with
     | Some ((_ :: _) as code) => do_call s e (Inline code n phase (etype e))
     | _ => Ok (s, e)
     end
   else Ok (s, e))%c.

(** The target and at most 63 nodes above it. *)
Fixpoint event_path (room : nat) (d : dom) (n : option nat) : res (list nat) :=
  match room, n with
  | S room, Some n => (let* x := node d n in let* l := event_path room d (parent (lk x)) in Ok (n :: l))%c
  | _, _ => Ok []
  end.
(** Nodes in order, until one stops the event; whether one did. *)
Fixpoint fire_path (s : EventState) (e : Event) (l : list nat) (phase : Z) : res (EventState * Event * bool) :=
  match l with
  | [] => Ok (s, e, false)
  | n :: l => (let* (s, e) := fire_at s n e phase in if stopPropagation e then Ok (s, e, true) else fire_path s e l phase)%c
  end.
Definition mini_event_dispatch (s : EventState) (e : Event) (t : nat) : res (EventState * Event) :=
  (let* path := event_path 64 (doc s) (Some t) in
   let* (s, e, stopped) := fire_path s e (rev (tail path)) 0 in
   if stopped : bool then Ok (s, e) else
   let* (s, e) := fire_at s t e 1 in
   if stopPropagation e then Ok (s, e) else
   if bubbles e then let* (s, e, _) := fire_path s e (tail path) 2 in Ok (s, e) else Ok (s, e))%c.

Definition dispatch_simple (s : EventState) (ty : bytes) (t : nat) (bub : bool) : res EventState :=
  (let* (s, _) := mini_event_dispatch s (Ev ty bub false false) t in Ok s)%c.

(** ** Focus order *)

Definition focusable_tag (tg : bytes) : bool := one_of_str ["input"; "button"; "textarea"; "select"]%string tg.
Definition is_focusable (d : dom) (n : nat) : res bool :=
  (let* x := node d n in
   match tag x with
   | Some tg =>
     if bool_decide (ntype x = MN_ELEMENT_NODE) then
       Ok (focusable_tag tg
           || (streq tg (str "a") && bool_decide (is_Some (assoc_get (attrs x) (str "href") ≫= id)))
           || bool_decide (is_Some (assoc_get (attrs x) (str "tabindex") ≫= id)))
     else Ok false
   | None => Ok false
   end)%c.
(** Focusable elements of a subtree, children before the shadow tree. *)
Fixpoint collect_focusable (fuel : nat) (d : dom) (n : option nat) (out : list nat) (max : nat) : res (list nat) :=
  match n, fuel with
  | None, _ => Ok out
  | Some _, O => UB
  | Some n, S fuel =>
    (let* x := node d n in
     let* f := is_focusable d n in
     let out := if bool_decide (ntype x = MN_ELEMENT_NODE) && negb (hidden n) && f && bool_decide (length out < max)%nat then out ++ [n] else out in
     let* l := chain (rounds d) d next_sibling (first_child (lk x)) in
     let* out := foldl (λ r c, let* out := r in collect_focusable fuel d (Some c) out max) (Ok out) l in
     collect_focusable fuel d (shadow_root x) out max)%c
  end.
Definition next_in (arr : list nat) (from : option nat) (backward : bool) : option nat :=
  let n := length arr in
  match arr with
  | [] => None
  | first :: _ =>
    match from ≫= λ f, fst <$> list_find (λ x, x = f) arr with
    | None => if backward then last arr else Some first
    | Some idx => arr !! (if backward then (idx + n - 1) mod n else (idx + 1) mod n)%nat
    end
  end.
Definition next_focusable (d : dom) (root : nat) (from : option nat) (backward : bool) : res (option nat) :=
  (let* arr := collect_focusable (rounds d) d (Some root) [] 256 in Ok (next_in arr from backward))%c.

(** ** Controls *)

Definition input_type (x : MiniNode) : bytes := match assoc_get (attrs x) (str "type") ≫= id with Some t => t | None => str "text" end.
Definition tag_of (x : MiniNode) (s : string) : bool := bool_decide (ntype x = MN_ELEMENT_NODE) && match tag x with Some t => streq t (str s) | None => false end.
Definition is_text_input (x : MiniNode) : bool :=
  tag_of x "textarea" ||
  (tag_of x "input" && negb (one_of_str ["checkbox"; "radio"; "range"; "color"; "file"; "submit"; "button"; "reset"; "image"; "hidden"]%string (input_type x))).
Definition is_range_input (x : MiniNode) : bool := tag_of x "input" && streq (input_type x) (str "range").
Definition is_textarea (x : MiniNode) : bool := match tag x with Some t => streq t (str "textarea") | None => false end.
Definition control_value_get (x : MiniNode) : option bytes :=
  match tag x with
  | None => Some []
  | Some _ => if is_textarea x then Some (default [] (text x)) else assoc_get (attrs x) (str "value") ≫= id
  end.
Definition control_value_set (d : dom) (n : nat) (v : bytes) : res dom :=
  (let* x := node d n in
   match tag x with
   | None => Ok d
   | Some _ =>
     let* d := if is_textarea x then mini_node_set_text d (Some n) (Some v) else mini_node_set_attribute d (Some n) (Some (str "value")) (Some v) in
     put d n (λ x, set_dirty (dirty_layout x) true x)
   end)%c.

Definition field_of (s : EventState) (n : nat) (x : MiniNode) : Field :=
  let '(c, a) := default (0, 0) (carets s !! n) in Fld (control_value_get x) c a.
Definition fire_caret (s : EventState) (n : nat) : res EventState :=
  if has_caret_cb s then (let* _ := node (doc s) n in Ok (log (CaretMoved n) s))%c else Ok s.
(** What follows an edit of [n]. *)
Fixpoint effects (s : EventState) (n : nat) (l : list effect) : res EventState :=
  match l with
  | [] => Ok s
  | Input :: l => (let* s := dispatch_simple s (str "input") n true in effects s n l)%c
  | Caret :: l => (let* s := fire_caret s n in effects s n l)%c
  | Restyle :: l => effects s n l
  end.
(** The new field is stored before its effects; with none it is the old one. *)
Definition store_field (s : EventState) (n : nat) (f : Field) (effs : list effect) : res EventState :=
  match effs with
  | [] => Ok s
  | first :: _ =>
    (let s := set_carets (<[n := (caret_offset f, sel_anchor_off f)]> (carets s)) s in
     let* s := match first with
               | Input => let* d := control_value_set (doc s) n (default [] (value f)) in Ok (set_doc d s)
               | _ => Ok s
               end in
     effects s n effs)%c
  end.

(** ** Focus *)

Definition value_changed (x : MiniNode) (snap : option bytes) : bool :=
  match snap with Some v => negb (streq (default [] (control_value_get x)) v) | None => false end.
Definition on_node (s : EventState) (n : option nat) (ok : MiniNode → bool) : res bool :=
  match n with Some n => (let* x := node (doc s) n in Ok (ok x))%c | None => Ok false end.
Definition opt_dispatch (s : EventState) (ty : bytes) (n : option nat) (bub : bool) : res EventState :=
  match n with Some n => dispatch_simple s ty n bub | None => Ok s end.

(** Leaving the focused node, which the listeners may have destroyed meanwhile. *)
Definition blur_step (s : EventState) (old : nat) : res EventState :=
  (let* s := dispatch_simple s (str "blur") old false in
   let* d := mini_node_set_interaction_state (doc s) (focus s) (-1) (-1) 0 in
   let s := set_doc d s in
   let* edited := on_node s (focus s) (λ x, is_text_input x && negb (is_range_input x) && value_changed x (edit_snapshot s)) in
   let* s := if edited : bool then opt_dispatch s (str "change") (focus s) true else Ok s in
   Ok (set_snapshot None s))%c.
Definition focus_step (s : EventState) (n : nat) : res EventState :=
  (let* s := dispatch_simple s (str "focus") n false in
   let* d := mini_node_set_interaction_state (doc s) (Some n) (-1) (-1) 1 in
   let s := set_doc d s in
   let* x := node (doc s) n in
   let s := if is_text_input x || is_range_input x then set_snapshot (Some (default [] (control_value_get x))) s else s in
   if is_text_input x then
     let f := field_of s n x in
     fire_caret (set_carets (<[n := (Z.of_nat (length (default [] (control_value_get x))), sel_anchor_off f)]> (carets s)) s) n
   else Ok s)%c.
Definition mini_events_focus (s : EventState) (n : option nat) : res EventState :=
  if decide (focus s = n) then Ok s else
  (let* s := match focus s with Some old => blur_step s old | None => Ok s end in
   let s := set_focus n s in
   match n with Some n => focus_step s n | None => Ok s end)%c.

(** ** Page selection *)

Definition selection_clear (s : EventState) : EventState := set_sel (None, 0) (None, 0) s.
Fixpoint find_first_last_text (fuel : nat) (d : dom) (n : option nat) (first last : option nat) : res (option nat * option nat) :=
  match n, fuel with
  | None, _ => Ok (first, last)
  | Some _, O => UB
  | Some n, S fuel =>
    (let* x := node d n in
     let '(first, last) := if bool_decide (ntype x = MN_TEXT_NODE) && negb (bool_decide (default [] (text x) = []))
                           then (match first with None => Some n | _ => first end, Some n) else (first, last) in
     let* l := chain (rounds d) d next_sibling (first_child (lk x)) in
     foldl (λ r c, let* (a, b) := r in find_first_last_text fuel d (Some c) a b) (Ok (first, last)) l)%c
  end.
Definition mini_events_select_all (s : EventState) : res EventState :=
  match doc_body s with
  | None => Ok s
  | Some b =>
    (let s := selection_clear s in
     let* (first, last) := find_first_last_text (rounds (doc s)) (doc s) (Some b) None None in
     match first, last with
     | Some f, Some l => Ok (set_sel (Some f, 0) (Some l, Z.of_nat (length (collapsed l))) s)
     | _, _ => Ok s
     end)%c
  end.

Record SelCtx := Sel { start_n : nat; end_n : nat; start_off : Z; end_off : Z; out : bytes; in_range : bool; finished : bool }.
(** The part of [n]'s text between the ends, cut to what there is. *)
Definition sel_slice (c : SelCtx) (n : nat) : Z * Z :=
  let clen := Z.of_nat (length (collapsed n)) in
  let lo := if decide (n = start_n c) then start_off c else 0 in
  let hi := if decide (n = end_n c) then end_off c else clen in
  let '(lo, hi) := if decide (hi < lo) then (hi, lo) else (lo, hi) in
  (if decide (lo < 0) then 0 else lo, if decide (clen < hi) then clen else hi).
Definition sel_take (cap : nat) (c : SelCtx) (n : nat) : SelCtx :=
  let '(lo, hi) := sel_slice c n in
  if bool_decide (lo < hi) && bool_decide (Z.of_nat (length (out c)) + (hi - lo) + 1 < Z.of_nat cap) then
    Sel (start_n c) (end_n c) (start_off c) (end_off c) (out c ++ take (Z.to_nat (hi - lo)) (drop (Z.to_nat lo) (collapsed n))) (in_range c) (finished c)
  else c.
Fixpoint sel_collect_rec (cap : nat) (fuel : nat) (d : dom) (n : nat) (c : SelCtx) : res SelCtx :=
  if finished c then Ok c else
  match fuel with
  | O => UB
  | S fuel =>
    (let* x := node d n in
     let c := if bool_decide (n = start_n c ∨ n = end_n c) then Sel (start_n c) (end_n c) (start_off c) (end_off c) (out c) true (finished c) else c in
     let c := if in_range c && bool_decide (ntype x = MN_TEXT_NODE) && bool_decide (text x ≠ None) then sel_take cap c n else c in
     let* l := chain (rounds d) d next_sibling (first_child (lk x)) in
     let* c := foldl (λ r k, let* c := r in sel_collect_rec cap fuel d k c) (Ok c) l in
     Ok (if decide (n = end_n c) then Sel (start_n c) (end_n c) (start_off c) (end_off c) (out c) false true else c))%c
  end.
Definition mini_events_selection_text (s : EventState) (cap : nat) : res bytes :=
  match fst (sel_anchor s), fst (sel_focus s), doc_body s with
  | Some a, Some f, Some b =>
    (let* before := mini_node_precedes (doc s) (Some a) (Some f) in
     let '(sn, so, en, eo) := if before : bool then (a, snd (sel_anchor s), f, snd (sel_focus s)) else (f, snd (sel_focus s), a, snd (sel_anchor s)) in
     let* c := sel_collect_rec cap (rounds (doc s)) (doc s) b (Sel sn en so eo [] false false) in
     Ok (out c))%c
  | _, _, _ => Ok []
  end.

(** ** Keys *)

(** The selected part of a field, what Ctrl+C takes. *)
Definition field_selection (f : Field) : bytes :=
  let a := sel_anchor_off f in
  let b := Z.of_nat (caret_of f) in
  let '(a, b) := if decide (b < a) then (b, a) else (a, b) in
  let a := if decide (a < 0) then 0 else a in
  let b := if decide (Z.of_nat (length (text_of f)) < b) then Z.of_nat (length (text_of f)) else b in
  take (Z.to_nat (b - a)) (drop (Z.to_nat a) (text_of f)).
Definition copy (s : EventState) (t : bytes) : EventState := match t with [] => s | _ => log (Copied t) s end.

Definition focused_text (s : EventState) : res (option (nat * MiniNode)) :=
  match focus s with
  | Some n => (let* x := node (doc s) n in Ok (if is_text_input x then Some (n, x) else None))%c
  | None => Ok None
  end.
Definition key_char (key : bytes) (lower upper : Z) : bool := bool_decide (key = [lower] ∨ key = [upper]).

Definition select_all_key (s : EventState) : res EventState :=
  (let* f := focused_text s in
   match f with
   | Some (n, x) => Ok (set_carets (<[n := (Z.of_nat (length (default [] (control_value_get x))), 0)]> (carets s)) s)
   | None => mini_events_select_all s
   end)%c.
Definition copy_page (s : EventState) : res EventState :=
  (let* t := mini_events_selection_text s 4096 in
   let* t := if decide (length t = 4095)%nat then mini_events_selection_text s (Z.to_nat 65536) else Ok t in Ok (copy s t))%c.
Definition copy_key (s : EventState) : res EventState :=
  (let* f := focused_text s in
   match f with
   | Some (n, x) => if decide (0 <= sel_anchor_off (field_of s n x)) then Ok (copy s (field_selection (field_of s n x))) else copy_page s
   | None => copy_page s
   end)%c.
Definition edit_key (malloc : bool) (s : EventState) (prevented shift : bool) (key : bytes) : res (EventState * bool) :=
  (let* f := focused_text s in
   match f with
   | Some (n, x) =>
     let '(f, effs, pd) := apply_text_edit_key malloc prevented (is_textarea x) shift key (field_of s n x) in
     let* s := store_field s n f effs in Ok (s, prevented || pd)
   | None => Ok (s, prevented)
   end)%c.

Definition mini_events_handle_key (malloc : bool) (s : EventState) (ty : bytes) (key : bytes) (mods : Z) : res EventState :=
  (let ctrl := Z.testbit mods 1 in
   let shift := Z.testbit mods 0 in
   let down := streq ty (str "keydown") in
   let* (s, e) := match (match focus s with Some n => Some n | None => doc_body s end) with
                  | Some t => mini_event_dispatch s (Ev ty true false false) t
                  | None => Ok (s, Ev ty true false false)
                  end in
   let pd := preventDefault e in
   let tab := down && streq key (str "Tab") in
   let* s := if tab then let* n := next_focusable (doc s) (doc_root s) (focus s) shift in
                         match n with Some n => mini_events_focus s (Some n) | None => Ok s end
             else Ok s in
   let pd := pd || tab in
   if down then
     let all := ctrl && key_char key 97 65 && negb pd in
     let* s := if all then select_all_key s else Ok s in
     let pd := pd || all in
     let cp := ctrl && key_char key 99 67 && negb pd && has_copy_cb s in
     let* s := if cp then copy_key s else Ok s in
     let pd := pd || cp in
     let* (s, pd) := edit_key malloc s pd shift key in
     Ok (set_suppress pd s)
   else Ok s)%c.

Definition mini_events_handle_char (malloc : bool) (s : EventState) (cp : Z) : res EventState :=
  if suppress_char s then Ok (set_suppress false s) else
  (let* f := focused_text s in
   match f with
   | Some (n, x) =>
     let is_number := negb (is_textarea x) && streq (input_type x) (str "number") in
     let '(f, effs) := apply_text_char malloc is_number cp (field_of s n x) in store_field s n f effs
   | None => Ok s
   end)%c.

(** ** The order of calls *)

(** What is called at a node in a phase. *)
Definition listen_call (ty : bytes) (n : nat) (phase : Z) (l : Listener) : call := Listen (default 0%nat (cb l)) (ud l) n phase ty.
Definition inline_calls (s : EventState) (ty : bytes) (n : nat) (phase : Z) : list call :=
  if inline_handler s && bool_decide (phase = 1 ∨ phase = 2) then
    match nodes (doc s) !! n with
    | Some x => match assoc_get (attrs x) (on_attr ty) ≫= id with Some ((_ :: _) as code) => [Inline code n phase ty] | _ => [] end
    | None => []
    end
  else [].
Definition slot_calls (l : list Listener) (ty : bytes) (n : nat) (phase : Z) : list call :=
  listen_call ty n phase <$> filter (λ l, fires l ty n phase = true) l.
Definition calls_at (s : EventState) (ty : bytes) (phase : Z) (n : nat) : list call :=
  slot_calls (ls s) ty n phase ++ inline_calls s ty n phase.
Definition planned (s : EventState) (ty : bytes) (bub : bool) (t : nat) (above : list nat) : list call :=
  flat_map (calls_at s ty 0) (rev above) ++ calls_at s ty 1 t ++ (if bub then flat_map (calls_at s ty 2) above else []).

Definition is_stop (a : act) : bool := match a with Stop => true | _ => false end.
Definition is_prevent (a : act) : bool := match a with Prevent => true | _ => false end.
Definition stops (c : call) : bool := existsb is_stop (acts c).
Definition prevents (c : call) : bool := existsb is_prevent (acts c).
(** A call that only stops or prevents. *)
Definition quiet (c : call) : bool := forallb (λ a, is_stop a || is_prevent a) (acts c).
(** Up to the first call that stops the event. *)
Fixpoint until_stop (l : list call) : list call :=
  match l with [] => [] | c :: l => c :: if stops c then [] else until_stop l end.

Definition log_all (cs : list call) (s : EventState) : EventState := fold_left (λ s c, log c s) cs s.
Definition after (e : Event) (cs : list call) : Event :=
  Ev (etype e) (bubbles e) (stopPropagation e || existsb stops cs) (preventDefault e || existsb prevents cs).

Lemma log_all_app a b s : log_all (a ++ b) s = log_all b (log_all a s).
Proof. apply fold_left_app. Qed.
Lemma log_all_same cs s : ls (log_all cs s) = ls s ∧ doc (log_all cs s) = doc s ∧ inline_handler (log_all cs s) = inline_handler s.
Proof. revert s. induction cs as [|c cs IH]; intros s; [done|]. apply (IH (log c s)). Qed.
Lemma calls_at_log cs s ty n ph : calls_at (log_all cs s) ty ph n = calls_at s ty ph n.
Proof. destruct (log_all_same cs s) as (H1&H2&H3). unfold calls_at, inline_calls. by rewrite H1, H2, H3. Qed.
Lemma after_app e a b : after (after e a) b = after e (a ++ b).
Proof. unfold after. cbn. by rewrite !existsb_app, !orb_assoc. Qed.
Lemma after_nil e : after e [] = e.
Proof. unfold after. cbn. rewrite !orb_false_r. by destruct e. Qed.
Lemma until_stop_app a b : until_stop (a ++ b) = until_stop a ++ (if existsb stops (until_stop a) then [] else until_stop b).
Proof.
  induction a as [|c a IH]; [done|]. cbn [app until_stop existsb]. destruct (stops c) eqn:E; cbn [app existsb]; [done|].
  rewrite IH. by cbn.
Qed.

Section quiet.
Context (HQ : ∀ c, quiet c = true).

Lemma do_call_quiet s e c : do_call s e c = Ok (log c s, after e [c]).
Proof using HQ.
  unfold do_call. generalize (log c s). intros s'. unfold after. cbn [existsb]. rewrite !orb_false_r. specialize (HQ c). unfold quiet, stops, prevents in *.
  revert e. induction (acts c) as [|a l IH]; intros e; cbn [act_all existsb]; [rewrite !orb_false_r; by destruct e|].
  cbn [forallb] in HQ. apply andb_true_iff in HQ as [Ha Hl]. destruct a; try discriminate Ha; cbn [act_step res_bind]; rewrite (IH Hl); cbn.
  - by rewrite orb_true_r.
  - by rewrite orb_true_r.
Qed.

Definition slots_ok (s : EventState) : Prop := Forall (λ l, active l = true → cb l ≠ None) (ls s).

Lemma fire_slots_quiet s n ph : slots_ok s → ∀ L i e cs, drop i (ls s) = L → stopPropagation e = false →
  fire_slots (length L) i (log_all cs s) e n ph
  = Ok (log_all (until_stop (slot_calls L (etype e) n ph)) (log_all cs s), after e (until_stop (slot_calls L (etype e) n ph)),
        existsb stops (until_stop (slot_calls L (etype e) n ph))).
Proof using HQ.
  intros Hs. induction L as [|l L IH]; intros i e cs Hd He; cbn [length fire_slots].
  { by rewrite after_nil. }
  destruct (log_all_same cs s) as (Hls&_&_). rewrite Hls.
  assert (ls s !! i = Some l) as Hi by (rewrite <- (Nat.add_0_r i), <- lookup_drop; by rewrite Hd).
  assert (drop (S i) (ls s) = L) as Hd' by (rewrite <- Nat.add_1_r, <- drop_drop, Hd; done).
  rewrite Hi. unfold slot_calls. rewrite filter_cons. destruct (fires l (etype e) n ph) eqn:Ef.
  - rewrite decide_True by done. cbn [fmap list_fmap until_stop]. fold (slot_calls L (etype e) n ph).
    assert (∃ c, cb l = Some c) as [c Hc].
    { unfold fires in Ef. rewrite !andb_true_iff in Ef. destruct Ef as [[[Ea _] _] _].
      unfold slots_ok in Hs. rewrite Forall_forall in Hs. specialize (Hs l (list_elem_of_lookup_2 _ _ _ Hi) Ea). destruct (cb l); [by eexists|done]. }
    unfold listen_call. rewrite Hc. cbn [default from_option id]. rewrite do_call_quiet. cbn [res_bind]. set (k := Listen c (ud l) n ph (etype e)).
    unfold after at 1. cbn [stopPropagation]. rewrite He. cbn [orb existsb]. rewrite orb_false_r. destruct (stops k) eqn:Ek.
    + done.
    + change (log k (log_all cs s)) with (log_all [k] (log_all cs s)). rewrite <- log_all_app.
      rewrite (IH (S i) (after e [k]) (cs ++ [k]) Hd'); [|unfold after; cbn [stopPropagation existsb]; by rewrite He, Ek]. cbn [etype after]. by rewrite after_app, log_all_app.
  - rewrite decide_False by done. by rewrite (IH (S i) e cs Hd' He).
Qed.

Lemma fire_at_quiet s n ph cs e : slots_ok s → stopPropagation e = false → is_Some (nodes (doc s) !! n) →
  fire_at (log_all cs s) n e ph = Ok (log_all (until_stop (calls_at s (etype e) ph n)) (log_all cs s), after e (until_stop (calls_at s (etype e) ph n))).
Proof using HQ.
  intros Hs He [x Hx]. unfold fire_at. destruct (log_all_same cs s) as (Hls&Hdoc&Hin). rewrite Hls.
  rewrite (fire_slots_quiet s n ph Hs (ls s) 0 e cs) by done. cbn [res_bind]. unfold calls_at. rewrite until_stop_app.
  set (A := until_stop (slot_calls (ls s) (etype e) n ph)). destruct (existsb stops A) eqn:EA; [by rewrite app_nil_r|].
  rewrite <- log_all_app. destruct (log_all_same (cs ++ A) s) as (_&Hdoc'&Hin'). rewrite Hin'. unfold inline_calls. rewrite Hx.
  destruct (inline_handler s && _); [|by rewrite app_nil_r, log_all_app].
  unfold mini_node_get_attribute. rewrite Hdoc'. unfold node. rewrite Hx. cbn [res_bind etype after].
  change (λ v : option bytes, v) with (@id (option bytes)). destruct (assoc_get (attrs x) (on_attr (etype e)) ≫= id) as [[|c code]|]; [by rewrite app_nil_r, log_all_app|..|by rewrite app_nil_r, log_all_app].
  rewrite do_call_quiet. cbn [until_stop]. rewrite after_app, log_all_app.
  assert ((if stops (Inline (c :: code) n ph (etype e)) then [] else []) = @nil call) as -> by by destruct (stops _).
  by rewrite log_all_app.
Qed.

Lemma fire_path_quiet s ph l : slots_ok s → Forall (λ n, is_Some (nodes (doc s) !! n)) l → ∀ cs e, stopPropagation e = false →
  let made := until_stop (flat_map (calls_at s (etype e) ph) l) in
  fire_path (log_all cs s) e l ph = Ok (log_all made (log_all cs s), after e made, existsb stops made).
Proof using HQ.
  intros Hs. induction 1 as [|n l Hn _ IH]; intros cs e He; cbn [flat_map fire_path]; [by rewrite after_nil|].
  rewrite fire_at_quiet by done. cbn [res_bind]. cbv zeta. rewrite until_stop_app. set (A := until_stop (calls_at s (etype e) ph n)).
  unfold after at 1. cbn [stopPropagation]. rewrite He. cbn [orb]. destruct (existsb stops A) eqn:EA; [by rewrite app_nil_r, EA|].
  rewrite <- log_all_app. rewrite IH by (cbn; by rewrite He, EA). cbn [etype after]. by rewrite after_app, !log_all_app, existsb_app, EA.
Qed.
End quiet.
End events.

Lemma path_chain d room : ∀ fuel n l, chain fuel d parent n = Ok l → event_path room d n = Ok (take room l) ∧ Forall (λ n, is_Some (nodes d !! n)) l.
Proof.
  induction room as [|room IH]; intros fuel n l; destruct fuel as [|fuel], n as [n|]; cbn [chain event_path]; try done; try (by intros [= <-]).
  - unfold node. destruct (nodes d !! n) as [x|] eqn:Ex; [|done]. cbn [res_bind]. destruct (chain fuel d parent (parent (lk x))) as [l'|] eqn:E; [|done].
    intros [= <-]. split; [done|]. constructor; [by eexists|]. clear -E. revert l' E. generalize (parent (lk x)).
    induction fuel as [|fuel IH]; intros [n|] l; cbn [chain]; try done; try (by intros [= <-]).
    unfold node. destruct (nodes d !! n) as [x'|] eqn:Ex; [|done]. cbn [res_bind]. destruct (chain fuel d parent (parent (lk x'))) as [l'|] eqn:E; [|done].
    intros [= <-]. constructor; [by eexists|]. by eapply IH.
  - unfold node. destruct (nodes d !! n) as [x|] eqn:Ex; [|done]. cbn [res_bind]. destruct (chain fuel d parent (parent (lk x))) as [l'|] eqn:E; [|done].
    intros [= <-]. destruct (IH _ _ _ E) as [-> HF]. split; [done|]. constructor; [by eexists|done].
Qed.

(** C12. When the callbacks only stop or prevent the event (they neither change
    the listeners nor the document), dispatch calls, in this order: the capturing
    listeners from the farthest of the 63 nearest ancestors down to the parent
    (those further up are left out); at the target all listeners in slot order
    and its handler attribute; if the event bubbles, the other listeners and the
    attribute of each of those nodes back up.  It ends after the first call that
    stops it, the rest of the same node left out, and the event is prevented
    when one of the calls made prevents it. *)
Theorem event_dispatch_order acts s ty bub t above : (∀ c, quiet acts c = true) → slots_ok s →
  ancestors (doc s) (Some t) = Ok (t :: above) →
  let made := until_stop acts (planned s ty bub t (take 63 above)) in
  mini_event_dispatch acts s (Ev ty bub false false) t
  = Ok (log_all made s, Ev ty bub (existsb (stops acts) made) (existsb (prevents acts) made)).
Proof.
  intros HQ Hs HA. cbv zeta. destruct (path_chain _ 64 _ _ _ HA) as [EP HF]. change (take 64 (t :: above)) with (t :: take 63 above) in EP.
  set (up := take 63 above) in *. assert (Forall (λ n, is_Some (nodes (doc s) !! n)) (t :: up)) as HF'.
  { apply Forall_cons in HF as [? ?]. constructor; [done|by apply Forall_take]. }
  apply Forall_cons in HF' as [Ht Hup]. unfold mini_event_dispatch. rewrite EP. cbn [res_bind tail]. set (e := Ev ty bub false false).
  change s with (log_all [] s) at 1. rewrite (fire_path_quiet acts HQ s 0 (rev up) Hs) by (done || by apply Forall_rev). cbn [res_bind].
  unfold planned. rewrite !until_stop_app. change (etype e) with ty. set (A := until_stop acts (flat_map (calls_at s ty 0) (rev up))).
  destruct (existsb (stops acts) A) eqn:EA; [rewrite app_nil_r; unfold after; cbn; by rewrite EA|]. rewrite <- log_all_app. cbn [app].
  rewrite (fire_at_quiet acts HQ s t 1 A) by (done || unfold after; cbn; by rewrite EA). cbn [res_bind]. change (etype (after acts e A)) with ty.
  set (B := until_stop acts (calls_at s ty 1 t)). rewrite after_app. unfold after at 1. cbn [stopPropagation e orb]. rewrite existsb_app, EA. cbn [orb].
  destruct (existsb (stops acts) B) eqn:EB; [rewrite app_nil_r, <- log_all_app; unfold after; cbn; by rewrite !existsb_app, EA, EB|].
  rewrite <- !log_all_app. change (bubbles (after acts e (A ++ B))) with bub. destruct bub.
  - rewrite (fire_path_quiet acts HQ s 2 up Hs Hup) by (unfold after; cbn; by rewrite existsb_app, EA, EB). cbn [res_bind]. change (etype (after acts e (A ++ B))) with ty.
    rewrite after_app, <- log_all_app, <- app_assoc. unfold after. done.
  - cbn [until_stop]. rewrite app_nil_r. unfold after. done.
Qed.

Definition demo_acts (c : call) : list act :=
  match c with Listen 1 _ _ _ _ => [Prevent] | Listen 2 _ _ _ _ => [Stop] | _ => [] end.
Definition demo_state : EventState :=
  ES demo_dom 1 (Some 1%nat)
    [new_listener 1 (str "click") 3 0 false; new_listener 2 (str "click") 1 0 true; new_listener 4 (str "click") 2 7 false; new_listener 2 (str "click") 3 0 false]
    true false false None None None None None (None, 0) (None, 0) None false ∅ no_drag [].
Lemma event_dispatch_order_witness :
  ancestors demo_dom (Some 4%nat) = Ok [4; 2; 1]%nat ∧
  mini_event_dispatch demo_acts demo_state (Ev (str "click") true false false) 4
  = Ok (log_all [Listen 1 0 2 0 (str "click"); Listen 2 7 4 1 (str "click")] demo_state, Ev (str "click") true true true).
Proof.
  split; [reflexivity|]. refine (eq_trans (event_dispatch_order demo_acts demo_state (str "click") true 4 [2; 1]%nat _ _ _) _).
  - intros [[|[|[|c]]] u n ph ty|code n ph ty|n|tx]; reflexivity.
  - repeat constructor; discriminate.
  - reflexivity.
  - vm_compute. reflexivity.
Defined.

(** An event does not reach what is more than 63 nodes above its target. *)
Example deep_target :
  let d := fold_left (λ d n, let (d, c) := mini_node_create_element None d in match mini_node_append_child d (Some n) (Some c) with Ok (d, _) => d | UB => d end)
             (seq 1 70) (fst (mini_node_create_element None no_dom)) in
  length <$> match event_path 64 d (Some 71%nat) with Ok l => Some l | UB => None end = Some 64%nat.
Proof. vm_compute. reflexivity. Qed.
(** A handle does not outlive the destruction of another node: the slots shift,
    and removing by it removes another listener. *)
Example stale_handle :
  let s0 := set_ls [] demo_state in
  let (s1, h1) := mini_events_add_listener s0 (Some 4%nat) (Some (str "click")) (Some 1%nat) 0 false in
  let (s2, h2) := mini_events_add_listener s1 (Some 2%nat) (Some (str "click")) (Some 2%nat) 0 false in
  let (s3, h3) := mini_events_add_listener s2 (Some 3%nat) (Some (str "click")) (Some 3%nat) 0 false in
  h2 = Some 1%nat ∧ cb <$> ls (mini_events_remove_listener (mini_events_on_node_destroyed s3 4) h2) = [Some 2%nat; None].
Proof. split; reflexivity. Qed.
(** A listener that destroys the parent of the target: the dispatch goes on with a freed node. *)
Example destroyed_path :
  mini_event_dispatch (λ c, match c with Listen 1 _ _ _ _ => [Destroy 2] | _ => [] end) demo_state (Ev (str "click") true false false) 4 = UB.
Proof. vm_compute. reflexivity. Qed.

(** ** No reference outlives its node *)

(** Whatever [m] returns satisfies [Q]. *)
Definition holds {A} (m : res A) (Q : A → Prop) : Prop := ∀ a, m = Ok a → Q a.
Lemma holds_ok {A} (a : A) (Q : A → Prop) : Q a → holds (Ok a) Q.
Proof. by intros ? ? [= <-]. Qed.
Lemma holds_bind {A B} (m : res A) (k : A → res B) R Q : holds m R → (∀ a, R a → holds (k a) Q) → holds (res_bind m k) Q.
Proof. intros Hm Hk b E. destruct m as [a|]; [|done]. exact (Hk a (Hm a eq_refl) b E). Qed.
Lemma holds_weaken {A} (m : res A) (R Q : A → Prop) : holds m R → (∀ a, R a → Q a) → holds m Q.
Proof. intros Hm HQ a E. by apply HQ, Hm. Qed.
Lemma holds_node {A} d n (k : MiniNode → res A) Q : (∀ x, nodes d !! n = Some x → holds (k x) Q) → holds (let* x := node d n in k x)%c Q.
Proof. unfold node. intros Hk. destruct (nodes d !! n) as [x|]; [by apply Hk|done]. Qed.

(** The node pointers the module clears when a node is destroyed. *)
Definition holders (s : EventState) : list (option nat) :=
  (target <$> ls s) ++ [hover s; focus s; press_target s; last_click_target s; drag_range s; fst (sel_anchor s); fst (sel_focus s)].
Definition slot_fine (l : Listener) : Prop := active l = true → cb l ≠ None ∧ target l ≠ None.
Section kept.
(** The nodes of a drag, which nothing here clears. *)
Context (D : Drag).
Record tidy (s : EventState) : Prop := {
  td_live : ∀ n, Some n ∈ holders s → is_Some (nodes (doc s) !! n);
  td_slots : Forall slot_fine (ls s);
  td_room : (length (ls s) <= MINI_LS_MAX)%nat;
  td_drag : drag s = D }.

(** A new document with at least the nodes of the old one. *)
Definition covers (d d' : dom) : Prop := ∀ n, is_Some (nodes d !! n) → is_Some (nodes d' !! n).
Lemma tidy_doc s d : tidy s → covers (doc s) d → tidy (set_doc d s).
Proof. intros [H1 H2 H3 H4] Hd. split; [|done..]. intros n Hn. by apply Hd, H1. Qed.
Lemma put_covers d n f : holds (put d n f) (covers d).
Proof.
  intros d' E. unfold put in E. destruct (nodes d !! n) as [x|] eqn:Ex; [|done]. injection E as <-. intros m [y Hy]. cbn.
  destruct (decide (m = n)) as [->|]; [rewrite lookup_insert_eq; by eexists|rewrite lookup_insert_ne by done; by eexists].
Qed.
Lemma set_attribute_covers d n k v : holds (mini_node_set_attribute d n k v) (covers d).
Proof.
  unfold mini_node_set_attribute. destruct n as [n|], k as [k|]; try (apply holds_ok; by intros ?). apply holds_node. intros x _.
  eapply holds_bind; [apply put_covers|]. intros d' Hd. by apply holds_ok.
Qed.
Lemma set_text_covers d n v : holds (mini_node_set_text d n v) (covers d).
Proof. destruct n as [n|]; [apply put_covers|apply holds_ok; by intros ?]. Qed.
Lemma interaction_covers d n h a f : holds (mini_node_set_interaction_state d n h a f) (covers d).
Proof. destruct n as [n|]; [|apply holds_ok; by intros ?]. apply holds_node. intros x _. apply put_covers. Qed.

Lemma free_slot_lookup l : ∀ i h, free_slot l i = Some h → ∃ j x, h = (i + j)%nat ∧ l !! j = Some x.
Proof.
  induction l as [|x l IH]; intros i h; cbn [free_slot]; [done|]. destruct (active x).
  - intros (j&y&->&Hy)%IH. exists (S j), y. split; [lia|done].
  - intros [= <-]. exists 0%nat, x. split; [lia|done].
Qed.
Lemma add_tidy s t ty c u cap : tidy s → is_Some (nodes (doc s) !! t) → tidy (fst (mini_events_add_listener s (Some t) (Some ty) (Some c) u cap)).
Proof.
  intros [H1 H2 H3 H4] Ht. cbn [mini_events_add_listener]. assert (slot_fine (new_listener t ty c u cap)) as Hf by by intros _.
  destruct (free_slot (ls s) 0) as [i|]; [|case_decide; [|by split]]; cbn [fst]; split; cbn [ls set_ls].
  - intros n. unfold holders. cbn [ls set_ls doc]. rewrite elem_of_app. intros [(l&El&Hl)%list_elem_of_fmap|Hr]; [|apply H1; unfold holders; rewrite elem_of_app; by right].
    apply list_elem_of_lookup in Hl as [j Hj].
    apply list_lookup_insert_Some in Hj as [(->&<-&_)|[_ Hj]]; [cbn in El; by injection El as ->|].
    apply H1. unfold holders. rewrite elem_of_app. left. rewrite El. apply (list_elem_of_fmap_2 target). by eapply list_elem_of_lookup_2.
  - by apply Forall_insert.
  - by rewrite length_insert.
  - done.
  - intros n. unfold holders. cbn [ls set_ls doc]. rewrite fmap_app, !elem_of_app. intros [[Hl|Hl]|Hr].
    + apply H1. unfold holders. rewrite elem_of_app. by left.
    + cbn in Hl. apply list_elem_of_singleton in Hl. by injection Hl as ->.
    + apply H1. unfold holders. rewrite elem_of_app. by right.
  - apply Forall_app. split; [done|]. by constructor.
  - rewrite length_app. cbn [length]. lia.
  - done.
Qed.
Lemma remove_tidy s h : tidy s → tidy (mini_events_remove_listener s h).
Proof.
  intros [H1 H2 H3 H4]. destruct h as [h|]; [|by split]. cbn [mini_events_remove_listener]. split; cbn [ls set_ls].
  - intros n. unfold holders. cbn [ls set_ls doc]. rewrite elem_of_app. intros [(l&El&Hl)%list_elem_of_fmap|Hr]; [|apply H1; unfold holders; rewrite elem_of_app; by right].
    apply H1. unfold holders. rewrite elem_of_app. left. apply list_elem_of_lookup in Hl as [j Hj]. destruct (decide (j = h)) as [->|].
    + rewrite list_lookup_alter_eq in Hj. destruct (ls s !! h) as [l0|]; [|done]. injection Hj as <-. done.
    + rewrite list_lookup_alter_ne in Hj by done. rewrite El. apply (list_elem_of_fmap_2 target). by eapply list_elem_of_lookup_2.
  - rewrite Forall_lookup. intros j l Hj. destruct (decide (j = h)) as [->|].
    + rewrite list_lookup_alter_eq in Hj. destruct (ls s !! h); [|done]. by injection Hj as <-.
    + rewrite list_lookup_alter_ne in Hj by done. rewrite Forall_lookup in H2. by eapply H2.
  - by rewrite length_alter.
  - done.
Qed.

Lemma drop_target_in l n x : x ∈ drop_target l n → x ∈ l ∧ target x ≠ Some n.
Proof.
  induction l as [|y l IH]; cbn [drop_target]; [by intros ?%elem_of_nil|]. case_decide.
  - intros [? ?]%IH. split; [by right|done].
  - intros [->|Hx]%elem_of_cons; [split; [by left|done]|]. destruct (IH Hx). split; [by right|done].
Qed.
Lemma drop_target_length l n : (length (drop_target l n) <= length l)%nat.
Proof. induction l as [|y l IH]; cbn [drop_target]; [done|]. case_decide; simpl; lia. Qed.

Lemma holders_destroyed s n m : Some m ∈ holders (mini_events_on_node_destroyed s n) → m ≠ n ∧ Some m ∈ holders s.
Proof.
  unfold holders. cbn [mini_events_on_node_destroyed ls hover focus press_target last_click_target drag_range sel_anchor sel_focus]. rewrite !elem_of_app.
  intros [(l&El&[Hl Ht]%drop_target_in)%list_elem_of_fmap|Hr].
  - split; [congruence|]. left. rewrite El. by apply list_elem_of_fmap_2.
  - assert (∀ o, Some m = not_node n o → m ≠ n ∧ Some m = o) as Hn by (intros o; unfold not_node; destruct (decide (o = Some n)); [done|intros <-; split; [congruence|done]]).
    rewrite !elem_of_cons, elem_of_nil in *. destruct Hr as [Hr|[Hr|[Hr|[Hr|[Hr|[Hr|[Hr|[]]]]]]]]; try (apply Hn in Hr as [? ?]; split; [done|tauto]);
      destruct (decide (_ = Some n)) as [|Hne]; try done; (split; [intros ->; by apply Hne|tauto]).
Qed.
Lemma holders_gone gone : ∀ s m, Some m ∈ holders (fold_left mini_events_on_node_destroyed gone s) → m ∉ gone ∧ Some m ∈ holders s.
Proof.
  induction gone as [|n gone IH]; intros s m Hm; cbn [fold_left] in Hm; [split; [apply not_elem_of_nil|done]|].
  apply IH in Hm as [Hg Hm]. apply holders_destroyed in Hm as [Hn Hm]. split; [|done]. by apply not_elem_of_cons.
Qed.
Lemma gone_slots gone : ∀ s, Forall slot_fine (ls s) ∧ (length (ls s) <= MINI_LS_MAX)%nat →
  Forall slot_fine (ls (fold_left mini_events_on_node_destroyed gone s)) ∧ (length (ls (fold_left mini_events_on_node_destroyed gone s)) <= MINI_LS_MAX)%nat
  ∧ doc (fold_left mini_events_on_node_destroyed gone s) = doc s ∧ drag (fold_left mini_events_on_node_destroyed gone s) = drag s.
Proof.
  induction gone as [|n gone IH]; intros s [H1 H2]; cbn [fold_left]; [done|]. destruct (IH (mini_events_on_node_destroyed s n)) as (?&?&E&E'); [|by rewrite E, E'].
  cbn [mini_events_on_node_destroyed ls]. split; [|pose proof (drop_target_length (ls s) n); lia].
  rewrite Forall_forall in *. intros l [Hl _]%drop_target_in. by apply H1.
Qed.
Lemma destroy_tidy s n : tidy s → holds (destroy_node s n) tidy.
Proof.
  intros [H1 H2 H3 H4]. unfold destroy_node. intros s' E. destruct (mini_node_destroy (doc s) (Some n)) as [d|] eqn:Ed; [|done]. injection E as <-.
  set (gone := filter _ _). destruct (gone_slots gone s (conj H2 H3)) as (G1&G2&G3&G4). split; [|done|done|by rewrite <- H4].
  intros m Hm. change (holders (set_doc d ?x)) with (holders x) in Hm. apply holders_gone in Hm as [Hg Hm]. specialize (H1 m Hm). cbn [doc set_doc].
  destruct (nodes d !! m) eqn:E; [by eexists|]. exfalso. apply Hg. apply list_elem_of_filter. split; [done|]. destruct H1 as [x Hx].
  apply (list_elem_of_fmap_2 fst _ (m, x)). by apply elem_of_map_to_list.
Qed.

Lemma tidy_log c s : tidy s → tidy (log c s).
Proof. by intros []. Qed.
Lemma tidy_carets v s : tidy s → tidy (set_carets v s).
Proof. by intros []. Qed.
Lemma tidy_snapshot v s : tidy s → tidy (set_snapshot v s).
Proof. by intros []. Qed.
Lemma tidy_suppress v s : tidy s → tidy (set_suppress v s).
Proof. by intros []. Qed.
Lemma tidy_focus v s : tidy s → match v with Some n => is_Some (nodes (doc s) !! n) | None => True end → tidy (set_focus v s).
Proof.
  intros [H1 H2 H3 H4] Hv. split; [|done..]. intros n. unfold holders. cbn [set_focus ls hover focus press_target last_click_target drag_range sel_anchor sel_focus doc].
  specialize (H1 n). unfold holders in H1. rewrite elem_of_app, !elem_of_cons, elem_of_nil in *.
  intros [?|[?|[Hf|[?|[?|[?|[?|[?|[]]]]]]]]]; try (apply H1; tauto). by subst.
Qed.
Lemma tidy_sel a f s : tidy s → (∀ n, fst a = Some n ∨ fst f = Some n → is_Some (nodes (doc s) !! n)) → tidy (set_sel a f s).
Proof.
  intros [H1 H2 H3 H4] Hv. split; [|done..]. intros n. unfold holders. cbn [set_sel ls hover focus press_target last_click_target drag_range sel_anchor sel_focus doc].
  specialize (H1 n). unfold holders in H1. rewrite elem_of_app, !elem_of_cons, elem_of_nil in *.
  intros [?|[?|[?|[?|[?|[?|[?|[?|[]]]]]]]]]; try (apply H1; tauto); apply Hv; [left|right]; done.
Qed.

Section tidy.
Context (acts : call → list act) (hidden : nat → bool) (collapsed : nat → bytes).
Abbreviation keeps m := (holds m (λ r, tidy r.1)).

Lemma act_tidy s e a : tidy s → keeps (act_step s e a).
Proof.
  intros H. destruct a as [| |t ty c u cap|h|n|n k v]; cbn [act_step].
  - by apply holds_ok.
  - by apply holds_ok.
  - apply holds_node. intros x Hx. apply holds_ok. apply add_tidy; [done|by eexists].
  - by apply holds_ok, remove_tidy.
  - eapply holds_bind; [by apply destroy_tidy|]. intros s' Hs'. by apply holds_ok.
  - eapply holds_bind; [apply set_attribute_covers|]. intros d Hd. by apply holds_ok, tidy_doc.
Qed.
Lemma acts_tidy l : ∀ s e, tidy s → keeps (act_all s e l).
Proof.
  induction l as [|a l IH]; intros s e H; cbn [act_all]; [by apply holds_ok|]. eapply holds_bind; [by apply act_tidy|].
  intros [s' e'] H'. by apply IH.
Qed.
Lemma call_tidy s e c : tidy s → keeps (do_call acts s e c).
Proof. intros H. by apply acts_tidy, tidy_log. Qed.
Lemma slots_tidy count : ∀ i s e n ph, tidy s → holds (fire_slots acts count i s e n ph) (λ r, tidy r.1.1).
Proof.
  induction count as [|count IH]; intros i s e n ph H; cbn [fire_slots]; [by apply holds_ok|].
  destruct (ls s !! i) as [l|]; [|by apply holds_ok]. destruct (fires l (etype e) n ph); [|by apply IH].
  destruct (cb l) as [c|]; [|done]. eapply holds_bind; [by apply call_tidy|]. intros [s' e'] H'.
  destruct (stopPropagation e'); [by apply holds_ok|by apply IH].
Qed.
Lemma fire_at_tidy s n e ph : tidy s → keeps (fire_at acts s n e ph).
Proof.
  intros H. unfold fire_at. eapply holds_bind; [by apply slots_tidy|]. intros [[s' e'] stopped] H'. cbn [fst] in H'.
  destruct stopped; [by apply holds_ok|]. destruct (inline_handler s' && _); [|by apply holds_ok].
  eapply (holds_bind _ _ (λ _, True)); [done|]. intros [[|c code]|] _; [by apply holds_ok|by apply call_tidy|by apply holds_ok].
Qed.
Lemma path_tidy l : ∀ s e ph, tidy s → holds (fire_path acts s e l ph) (λ r, tidy r.1.1).
Proof.
  induction l as [|n l IH]; intros s e ph H; cbn [fire_path]; [by apply holds_ok|]. eapply holds_bind; [by apply fire_at_tidy|].
  intros [s' e'] H'. destruct (stopPropagation e'); [by apply holds_ok|by apply IH].
Qed.
Lemma dispatch_tidy s e t : tidy s → keeps (mini_event_dispatch acts s e t).
Proof.
  intros H. unfold mini_event_dispatch. eapply (holds_bind _ _ (λ _, True)); [done|]. intros path _.
  eapply holds_bind; [by apply path_tidy|]. intros [[s1 e1] st] H1. cbn [fst] in H1. destruct st; [by apply holds_ok|].
  eapply holds_bind; [by apply fire_at_tidy|]. intros [s2 e2] H2. destruct (stopPropagation e2); [by apply holds_ok|].
  destruct (bubbles e2); [|by apply holds_ok]. eapply holds_bind; [by apply path_tidy|]. intros [[s3 e3] b] H3. by apply holds_ok.
Qed.
Lemma dispatch_target s e t r : mini_event_dispatch acts s e t = Ok r → is_Some (nodes (doc s) !! t).
Proof.
  unfold mini_event_dispatch. change (event_path 64 (doc s) (Some t)) with
    (let* x := node (doc s) t in let* l := event_path 63 (doc s) (parent (lk x)) in Ok (t :: l))%c.
  unfold node. destruct (nodes (doc s) !! t); [by eexists|done].
Qed.
Lemma simple_tidy s ty t b : tidy s → holds (dispatch_simple acts s ty t b) tidy.
Proof. intros H. unfold dispatch_simple. eapply holds_bind; [by apply dispatch_tidy|]. intros [s' e'] H'. by apply holds_ok. Qed.
Lemma simple_target s ty t b r : dispatch_simple acts s ty t b = Ok r → is_Some (nodes (doc s) !! t).
Proof. unfold dispatch_simple. destruct (mini_event_dispatch acts s _ t) eqn:E; [|done]. intros _. by eapply dispatch_target. Qed.

Lemma caret_tidy s n : tidy s → holds (fire_caret s n) tidy.
Proof. intros H. unfold fire_caret. destruct (has_caret_cb s); [|by apply holds_ok]. apply holds_node. intros x _. by apply holds_ok, tidy_log. Qed.
Lemma effects_tidy l : ∀ s n, tidy s → holds (effects acts s n l) tidy.
Proof.
  induction l as [|[| |] l IH]; intros s n H; cbn [effects]; [by apply holds_ok| | |by apply IH].
  - eapply holds_bind; [by apply simple_tidy|]. intros s' H'. by apply IH.
  - eapply holds_bind; [by apply caret_tidy|]. intros s' H'. by apply IH.
Qed.
Lemma control_covers d n v : holds (control_value_set d n v) (covers d).
Proof.
  unfold control_value_set. apply holds_node. intros x _. destruct (tag x); [|apply holds_ok; by intros ?].
  eapply (holds_bind _ _ (covers d)).
  - destruct (is_textarea x); [apply set_text_covers|apply set_attribute_covers].
  - intros d' Hd. eapply holds_weaken; [apply put_covers|]. intros d'' Hd' m Hm. by apply Hd', Hd.
Qed.
Lemma store_tidy s n f effs : tidy s → holds (store_field acts s n f effs) tidy.
Proof.
  intros H. unfold store_field. destruct effs as [|k l]; [by apply holds_ok|]. apply (tidy_carets (<[n:=(caret_offset f, sel_anchor_off f)]> (carets s))) in H.
  eapply (holds_bind _ _ tidy); [|intros s' H'; by apply effects_tidy].
  destruct k; try by apply holds_ok. eapply holds_bind; [apply control_covers|]. intros d Hd. by apply holds_ok, tidy_doc.
Qed.

Lemma blur_tidy s old : tidy s → holds (blur_step acts s old) tidy.
Proof.
  intros H. unfold blur_step. eapply holds_bind; [by apply simple_tidy|]. intros s1 H1.
  eapply holds_bind; [apply interaction_covers|]. intros d Hd. apply (tidy_doc _ _ H1) in Hd.
  eapply (holds_bind _ _ (λ _, True)); [done|]. intros b _. eapply (holds_bind _ _ tidy).
  - destruct b; [|by apply holds_ok]. unfold opt_dispatch. destruct (focus _); [by apply simple_tidy|by apply holds_ok].
  - intros s2 H2. by apply holds_ok, tidy_snapshot.
Qed.
Lemma focus_tidy s n : tidy s → holds (mini_events_focus acts s n) tidy.
Proof.
  intros H. unfold mini_events_focus. case_decide; [by apply holds_ok|]. eapply (holds_bind _ _ tidy).
  { destruct (focus s); [by apply blur_tidy|by apply holds_ok]. }
  intros s1 H1. destruct n as [n|]; [|by apply holds_ok, tidy_focus]. unfold focus_step.
  destruct (dispatch_simple acts (set_focus (Some n) s1) (str "focus") n false) as [s2|] eqn:E; [|done]. cbn [res_bind].
  assert (tidy s2) as H2. { eapply simple_tidy, E. apply tidy_focus; [done|]. by apply simple_target in E. }
  eapply holds_bind; [apply interaction_covers|]. intros d Hd. apply (tidy_doc _ _ H2) in Hd. set (s3 := set_doc d s2) in *.
  apply holds_node. intros x _. destruct (is_text_input x || is_range_input x);
    (destruct (is_text_input x); [apply caret_tidy, tidy_carets|apply holds_ok]); try apply tidy_snapshot; exact Hd.
Qed.

(** The first and last text of a subtree are nodes of the document. *)
Lemma first_last_live fuel d : ∀ n a b, (∀ m, a = Some m ∨ b = Some m → is_Some (nodes d !! m)) →
  holds (find_first_last_text fuel d n a b) (λ r, ∀ m, fst r = Some m ∨ snd r = Some m → is_Some (nodes d !! m)).
Proof.
  induction fuel as [|fuel IH]; intros [n|] a b Hab; cbn [find_first_last_text]; try done; try by apply holds_ok.
  apply holds_node. intros x Hx. match goal with |- holds (let '(_, _) := ?r in _) _ => set (ab := r) end.
  assert (∀ m, fst ab = Some m ∨ snd ab = Some m → is_Some (nodes d !! m)) as H.
  { intros m. unfold ab. destruct (bool_decide _ && _); [|apply Hab]. destruct a; cbn; intros [E|E]; first [by (apply Hab; auto) | injection E as <-; by eexists]. }
  clearbody ab. destruct ab as [a1 b1]. eapply (holds_bind _ _ (λ _, True)); [done|]. intros l _. clear -IH H.
  assert (holds (Ok (a1, b1)) (λ r, ∀ m, fst r = Some m ∨ snd r = Some m → is_Some (nodes d !! m))) as H1 by by apply holds_ok.
  generalize dependent (Ok (a1, b1)). induction l as [|c l IHl]; intros r Hr; cbn [foldl]; [done|]. apply IHl.
  eapply holds_bind; [exact Hr|]. intros [a2 b2] H2. by apply IH.
Qed.
Lemma select_all_tidy s : tidy s → holds (mini_events_select_all collapsed s) tidy.
Proof.
  intros H. unfold mini_events_select_all. destruct (doc_body s) as [b|]; [|by apply holds_ok].
  assert (tidy (selection_clear s)) as H1 by (apply tidy_sel; [done|intros ? [?|?]; done]).
  eapply holds_bind; [apply first_last_live; intros m [?|?]; done|]. intros [[f|] [l|]] Hfl; try by apply holds_ok.
  apply holds_ok, tidy_sel; [done|]. intros m [E|E]; cbn in E; injection E as <-; apply Hfl; auto.
Qed.
Lemma copy_tidy s t : tidy s → tidy (copy s t).
Proof. intros H. destruct t; [done|by apply tidy_log]. Qed.
Lemma copy_page_tidy s : tidy s → holds (copy_page collapsed s) tidy.
Proof.
  intros H. unfold copy_page. eapply (holds_bind _ _ (λ _, True)); [done|]. intros t _. eapply (holds_bind _ _ (λ _, True)); [done|].
  intros t' _. by apply holds_ok, copy_tidy.
Qed.
Lemma copy_key_tidy s : tidy s → holds (copy_key collapsed s) tidy.
Proof.
  intros H. unfold copy_key. eapply (holds_bind _ _ (λ _, True)); [done|]. intros [[n x]|] _; [|by apply copy_page_tidy].
  case_decide; [by apply holds_ok, copy_tidy|by apply copy_page_tidy].
Qed.
Lemma all_key_tidy s : tidy s → holds (select_all_key collapsed s) tidy.
Proof.
  intros H. unfold select_all_key. eapply (holds_bind _ _ (λ _, True)); [done|]. intros [[n x]|] _; [by apply holds_ok, tidy_carets|by apply select_all_tidy].
Qed.
Lemma edit_key_tidy malloc s pd shift key : tidy s → keeps (edit_key acts malloc s pd shift key).
Proof.
  intros H. unfold edit_key. eapply (holds_bind _ _ (λ _, True)); [done|]. intros [[n x]|] _; [|by apply holds_ok].
  destruct (apply_text_edit_key malloc pd (is_textarea x) shift key (field_of s n x)) as [[f effs] pd'].
  eapply holds_bind; [by apply store_tidy|]. intros s' H'. by apply holds_ok.
Qed.

Lemma key_tidy malloc s ty key mods : tidy s → holds (mini_events_handle_key acts hidden collapsed malloc s ty key mods) tidy.
Proof.
  intros H. unfold mini_events_handle_key. eapply (holds_bind _ _ (λ r, tidy r.1)).
  { destruct (match focus s with Some n => Some n | None => doc_body s end); [by apply dispatch_tidy|by apply holds_ok]. }
  intros [s1 e1] H1. cbn [fst] in H1. eapply (holds_bind _ _ tidy).
  { destruct (streq ty (str "keydown") && streq key (str "Tab")); [|by apply holds_ok]. eapply (holds_bind _ _ (λ _, True)); [done|].
    intros [n|] _; [by apply focus_tidy|by apply holds_ok]. }
  intros s2 H2. destruct (streq ty (str "keydown")); [|by apply holds_ok]. eapply (holds_bind _ _ tidy).
  { destruct (_ && _ && _); [by apply all_key_tidy|by apply holds_ok]. }
  intros s3 H3. eapply (holds_bind _ _ tidy).
  { destruct (_ && _ && _ && _); [by apply copy_key_tidy|by apply holds_ok]. }
  intros s4 H4. eapply holds_bind; [by apply edit_key_tidy|]. intros [s5 pd] H5. by apply holds_ok, tidy_suppress.
Qed.
Lemma char_tidy malloc s cp : tidy s → holds (mini_events_handle_char acts malloc s cp) tidy.
Proof.
  intros H. unfold mini_events_handle_char. destruct (suppress_char s); [by apply holds_ok, tidy_suppress|].
  eapply (holds_bind _ _ (λ _, True)); [done|]. intros [[n x]|] _; [|by apply holds_ok].
  destruct (apply_text_char malloc _ cp (field_of s n x)) as [f effs]. by apply store_tidy.
Qed.
End tidy.
End kept.


(** A click on node 4 whose listener destroys node 3, which has focus and a listener. *)
Definition destroyer (c : call) : list act := match c with Listen 1 _ _ _ _ => [Destroy 3] | _ => [] end.
Definition focused_state : EventState := set_focus (Some 3%nat) (set_ls (new_listener 3 (str "blur") 9 0 false :: ls demo_state) demo_state).
Lemma focused_tidy : tidy no_drag focused_state.
Proof.
  split.
  - assert (Forall (λ o, match o with Some n => is_Some (nodes (doc focused_state) !! n) | None => True end) (holders focused_state)) as H.
    { vm_compute. repeat constructor; by eexists. }
    rewrite Forall_forall in H. intros n Hn. exact (H _ Hn).
  - repeat (apply Forall_cons_2; [by intros _|]). apply Forall_nil_2.
  - vm_compute. lia.
  - vm_compute. reflexivity.
Qed.

(** The source of a drag is destroyed by a listener, and stays its source. *)
Example dangling_drag :
  let s := set_drag (mkDrag (Some 3%nat) None None) focused_state in
  match mini_event_dispatch destroyer s (Ev (str "click") true false false) 4 with
  | Ok (s', _) => dnd_source (drag s') = Some 3%nat ∧ nodes (doc s') !! 3%nat = None
  | UB => False
  end.
Proof. vm_compute. split; reflexivity. Qed.

(** ** Keys and characters *)

Lemma single_key key : length key = 1%nat → ∀ s, (1 < String.length s)%nat → streq key (str s) = false.
Proof.
  intros Hk s Hs. unfold streq. apply bool_decide_eq_false. intros ->. unfold str in Hk. rewrite length_map in Hk.
  rewrite <- (String.string_of_list_ascii_of_string s) in Hs. revert Hs. generalize dependent (String.list_ascii_of_string s). intros l Hk.
  destruct l as [|a [|b l]]; cbn in *; lia.
Qed.
Lemma plain_key malloc ta shift key f : length key = 1%nat → apply_text_edit_key malloc false ta shift key f = (f, [], false).
Proof.
  intros Hk. pose proof (single_key key Hk) as Hs. unfold apply_text_edit_key. destruct key as [|c key]; [done|]. rewrite bool_decide_eq_false_2 by done.
  cbn [orb]. rewrite (Hs "Backspace"%string), (Hs "Delete"%string), (Hs "Enter"%string), (Hs "ArrowLeft"%string), (Hs "ArrowRight"%string), (Hs "Home"%string), (Hs "End"%string) by (cbn; lia).
  done.
Qed.
Lemma focused_ok D s : tidy D s → ∃ f, focused_text s = Ok f ∧ match f with Some (n, x) => focus s = Some n ∧ nodes (doc s) !! n = Some x ∧ is_text_input x = true | None => True end.
Proof.
  intros H. unfold focused_text. destruct (focus s) as [n|] eqn:E; [|by exists None].
  assert (is_Some (nodes (doc s) !! n)) as [x Hx]. { apply (td_live _ _ H). unfold holders. rewrite E, elem_of_app, !elem_of_cons. tauto. }
  unfold node. rewrite Hx. cbn [res_bind]. eexists. split; [done|]. destruct (is_text_input x) eqn:Ex; done.
Qed.


(** A form with an input, which has the focus; [2] is the listener that prevents. *)
Definition form_state : EventState :=
  match (let (d, f) := mini_node_create_element (Some (str "form")) no_dom in
         let (d, i) := mini_node_create_element (Some (str "input")) d in mini_node_append_child d (Some f) (Some i)) with
  | Ok (d, _) => ES d 1 (Some 1%nat) [new_listener 1 (str "keydown") 1 0 false] true false false None (Some 2%nat) None None None (None, 0) (None, 0) None false ∅ no_drag []
  | UB => demo_state
  end.
Lemma form_tidy : tidy no_drag form_state.
Proof.
  split.
  - assert (Forall (λ o, match o with Some n => is_Some (nodes (doc form_state) !! n) | None => True end) (holders form_state)) as H.
    { vm_compute. repeat constructor; by eexists. }
    rewrite Forall_forall in H. intros n Hn. exact (H _ Hn).
  - repeat (apply Forall_cons_2; [by intros _|]). apply Forall_nil_2.
  - vm_compute. lia.
  - vm_compute. reflexivity.
Qed.
Definition value_of (s : res EventState) (n : nat) : option bytes :=
  match s with Ok s => nodes (doc s) !! n ≫= control_value_get | UB => None end.

(** ** What is copied *)

Section selection.
Context (collapsed : nat → bytes).

Definition fits_in (cap : nat) (c : SelCtx) : Prop := (length (out c) + 2 <= cap)%nat.
Lemma sel_take_fits cap c n : fits_in cap c → fits_in cap (sel_take collapsed cap c n).
Proof.
  unfold fits_in, sel_take. destruct (sel_slice collapsed c n) as [lo hi]. intros H. destruct (bool_decide (lo < hi)) eqn:E1; [|done].
  destruct (bool_decide (_ < Z.of_nat cap)) eqn:E2; [|done]. apply bool_decide_eq_true in E1, E2. cbn [andb out]. rewrite length_app, length_take. lia.
Qed.
Lemma sel_collect_fits cap fuel d : ∀ n c, fits_in cap c → holds (sel_collect_rec collapsed cap fuel d n c) (fits_in cap).
Proof.
  induction fuel as [|fuel IH]; intros n c H; cbn [sel_collect_rec]; (destruct (finished c); [by apply holds_ok|]); [done|].
  apply holds_node. intros x _. cbv zeta.
  match goal with |- holds (res_bind _ (λ l, res_bind (foldl _ (Ok ?r) l) _)) _ => assert (fits_in cap r) as H2; [|revert H2; generalize r; intros c2 H2] end.
  { destruct (bool_decide (n = start_n c ∨ _)); (destruct (_ && _ && _); [apply sel_take_fits|]); exact H. }
  eapply (holds_bind _ _ (λ _, True)); [done|]. intros l _. eapply (holds_bind _ _ (fits_in cap)).
  - assert (holds (Ok c2) (fits_in cap)) as Hr by by apply holds_ok. generalize dependent (Ok c2). induction l as [|k l IHl]; intros r Hr; cbn [foldl]; [done|].
    apply IHl. eapply holds_bind; [exact Hr|]. intros c3 H3. by apply IH.
  - intros c3 H3. apply holds_ok. by case_decide.
Qed.
Lemma selection_text_fits s cap : (2 <= cap)%nat → holds (mini_events_selection_text collapsed s cap) (λ t, (length t + 2 <= cap)%nat).
Proof.
  intros Hc. unfold mini_events_selection_text. destruct (fst (sel_anchor s)) as [a|], (fst (sel_focus s)) as [f|], (doc_body s) as [b|]; try (apply holds_ok; cbn; lia).
  eapply (holds_bind _ _ (λ _, True)); [done|]. intros before _. destruct (if before then _ else _) as [[[sn so] en] eo].
  eapply holds_bind; [apply (sel_collect_fits cap); unfold fits_in; cbn; lia|]. intros c H. by apply holds_ok.
Qed.

(** C38. Copying a page selection takes what one pass of 4096 bytes gives, at most
    4094 bytes: no text has the length at which the code would try again with a
    larger buffer. *)
Theorem copy_is_bounded s t : mini_events_selection_text collapsed s 4096 = Ok t →
  (length t <= 4094)%nat ∧ copy_page collapsed s = Ok (copy s t).
Proof.
  intros E. pose proof (selection_text_fits s 4096 ltac:(lia) t E) as H. cbv beta in H. split; [lia|]. unfold copy_page. rewrite E. cbn [res_bind].
  by rewrite decide_False by lia.
Qed.
End selection.

(** A page of one text, selected to its third byte and copied. *)
Definition page_state : EventState :=
  match (let (d, b) := mini_node_create_element (Some (str "body")) no_dom in
         let (d, t) := mini_node_create_text (Some (str "hello")) d in mini_node_append_child d (Some b) (Some t)) with
  | Ok (d, _) => ES d 1 (Some 1%nat) [] false false true None None None None None (Some 2%nat, 1) (Some 2%nat, 3) None false ∅ no_drag []
  | UB => demo_state
  end.
Lemma copy_is_bounded_witness :
  mini_events_selection_text (λ _, str "hello") page_state 4096 = Ok (str "el")
  ∧ copy_page (λ _, str "hello") page_state = Ok (log (Copied (str "el")) page_state).
Proof.
  assert (mini_events_selection_text (λ _, str "hello") page_state 4096 = Ok (str "el")) as E by (vm_compute; reflexivity).
  split; [exact E|]. exact (proj2 (copy_is_bounded _ _ _ E)).
Defined.
(** A slice that does not fit is left out, and what follows it is taken. *)
Example long_text_skipped :
  let page := set_sel (Some 2%nat, 0) (Some 2%nat, 5) page_state in
  mini_events_selection_text (λ _, str "hello") page 6 = Ok [] ∧ mini_events_selection_text (λ _, str "hello") page 7 = Ok (str "hello").
Proof. split; vm_compute; reflexivity. Qed.

(** ** The tab order *)

Lemma next_in_at arr i x backward : NoDup arr → arr !! i = Some x →
  next_in arr (Some x) backward = arr !! (if backward then (i + length arr - 1) mod length arr else (i + 1) mod length arr)%nat.
Proof.
  intros Hd Hi. unfold next_in. destruct arr as [|a l] eqn:E; [done|]. rewrite <- E in *. cbn [mbind option_bind].
  assert (list_find (λ y, y = x) arr = Some (i, x)) as ->; [|done].
  apply list_find_Some. split; [done|]. split; [done|]. intros j y Hj Hlt ->. assert (j = i) by (by eapply NoDup_lookup). lia.
Qed.
Lemma mod_lookup {A} (l : list A) i x : l !! i = Some x → (i mod length l = i)%nat.
Proof. intros H. apply Nat.mod_small. by eapply lookup_lt_Some. Qed.
Lemma lookup_mod {A} (l : list A) i x j : l !! i = Some x → ∃ y, l !! (j mod length l)%nat = Some y.
Proof. intros H%lookup_lt_Some. apply lookup_lt_is_Some_2, Nat.mod_upper_bound. lia. Qed.

(** On a page whose focusable elements are [arr], Tab from the [i]th of them
    goes round the whole list in order, Shift+Tab undoes Tab and the other way
    round, and from anywhere else they start at its first and last element. *)
Theorem tab_cycle hidden d root arr i x from : collect_focusable hidden (rounds d) d (Some root) [] 256 = Ok arr → NoDup arr → arr !! i = Some x →
  let next b n := next_focusable hidden d root n b in
  (∀ k, Nat.iter k (λ r, let* n := r in next false n)%c (Ok (Some x)) = Ok (arr !! ((i + k) mod length arr)%nat))
  ∧ (let* n := next false (Some x) in next true n)%c = Ok (Some x)
  ∧ (let* n := next true (Some x) in next false n)%c = Ok (Some x)
  ∧ ((∀ f, from = Some f → f ∉ arr) → next false from = Ok (head arr) ∧ next true from = Ok (last arr)).
Proof.
  intros E Hd Hi next. assert (∀ b n, next b n = Ok (next_in arr n b)) as Hnext by (intros b n; unfold next, next_focusable; by rewrite E).
  pose proof (lookup_lt_Some _ _ _ Hi) as Hlt. split_and!.
  - induction k as [|k IH]; cbn [Nat.iter nat_rect]; [by rewrite Nat.add_0_r, (mod_lookup _ _ _ Hi), Hi|].
    unfold Nat.iter in IH. rewrite IH. cbn [res_bind]. rewrite Hnext.
    destruct (lookup_mod arr i x (i + k) Hi) as [y Hy]. rewrite Hy, (next_in_at _ _ _ _ Hd Hy), Nat.Div0.add_mod_idemp_l. do 2 f_equal. f_equal. lia.
  - rewrite Hnext. cbn [res_bind]. rewrite (next_in_at _ _ _ _ Hd Hi). destruct (lookup_mod arr i x (i + 1) Hi) as [y Hy].
    rewrite Hy, Hnext, (next_in_at _ _ _ _ Hd Hy). rewrite <- Nat.add_sub_assoc, Nat.Div0.add_mod_idemp_l by lia.
    replace (i + 1 + (length arr - 1))%nat with (i + 1 * length arr)%nat by lia. by rewrite Nat.Div0.mod_add, (mod_lookup _ _ _ Hi), Hi.
  - rewrite Hnext. cbn [res_bind]. rewrite (next_in_at _ _ _ _ Hd Hi). destruct (lookup_mod arr i x (i + length arr - 1) Hi) as [y Hy].
    rewrite Hy, Hnext, (next_in_at _ _ _ _ Hd Hy), Nat.Div0.add_mod_idemp_l.
    replace (i + length arr - 1 + 1)%nat with (i + 1 * length arr)%nat by lia. by rewrite Nat.Div0.mod_add, (mod_lookup _ _ _ Hi), Hi.
  - intros Hf. rewrite !Hnext. unfold next_in. destruct arr as [|a l]; [done|].
    assert ((from ≫= λ f, fst <$> list_find (λ y, y = f) (a :: l)) = None) as ->; [|done].
    destruct from as [f|]; [|done]. cbn [mbind option_bind]. destruct (list_find (λ y, y = f) (a :: l)) as [[j y]|] eqn:Ef; [|done].
    apply list_find_Some in Ef as (Hj & -> & _). exfalso. apply (Hf f); [done|]. by eapply list_elem_of_lookup_2.
Qed.
Definition tabs : list string := ["input"; "p"; "button"]%string.
Definition tab_dom : dom :=
  fold_left (λ d t, let (d, c) := mini_node_create_element (Some (str t)) d in match mini_node_append_child d (Some 1%nat) (Some c) with Ok (d, _) => d | UB => d end)
    tabs (fst (mini_node_create_element (Some (str "body")) no_dom)).
Lemma tab_cycle_witness : collect_focusable (λ _, false) (rounds tab_dom) tab_dom (Some 1%nat) [] 256 = Ok [2; 4]%nat
  ∧ (let* n := next_focusable (λ _, false) tab_dom 1 (Some 2%nat) false in next_focusable (λ _, false) tab_dom 1 n true)%c = Ok (Some 2%nat)
  ∧ next_focusable (λ _, false) tab_dom 1 (Some 3%nat) true = Ok (Some 4%nat).
Proof.
  assert (collect_focusable (λ _, false) (rounds tab_dom) tab_dom (Some 1%nat) [] 256 = Ok [2; 4]%nat) as E by (vm_compute; reflexivity).
  destruct (tab_cycle _ _ _ _ 0 2%nat (Some 3%nat) E) as (_ & H & _ & Hf); [refine (bool_decide_eq_true_1 _ _); vm_compute; reflexivity|reflexivity|].
  split; [exact E|]. split; [exact H|]. apply Hf. intros f [= <-]. refine (bool_decide_eq_true_1 _ _). vm_compute. reflexivity.
Defined.
