(* ===== verification/Selectors.v ===== *)
(** * CSS selectors (src/src/mini_dom.c)

    Compound and complex selectors against the tree: siblings, An+B, attribute
    operators, pseudo-classes, the splitting of a complex selector, matching from
    right to left, the cache of split selectors, and the queries.

    A match reads the split selector it works on from where [cs_get] put it, and a
    nested selector ([:not], [:is], [:has]) may change the cache meanwhile.  The
    matcher is therefore written over a [Store]: [cached] is the table of the code,
    [direct] splits anew each time and records what it splits.  Every step reads its part of the selector from
    the store again, as the code's pointers do. *)

From stdpp Require Import gmap list.
From S2P Require Import Prelude CString Dom.
Open Scope Z_scope.

(** ** Siblings *)

Definition prev_elem_sibling (d : dom) (n : nat) : res (option nat) :=
  (let* x := node d n in seek (rounds d) d prev_sibling (is_element d) (prev_sibling (lk x)))%c.
Definition next_elem_sibling (d : dom) (n : nat) : res (option nat) :=
  (let* x := node d n in seek (rounds d) d next_sibling (is_element d) (next_sibling (lk x)))%c.
(** [for (s = next(n); s; s = next(s))]. *)
Fixpoint elems (fuel : nat) (next : nat → res (option nat)) (n : nat) : res (list nat) :=
  match fuel with
  | O => UB
  | S fuel => (let* s := next n in match s with None => Ok [] | Some s => let* l := elems fuel next s in Ok (s :: l) end)%c
  end.
Definition elem_next (d : dom) (from_end : bool) : nat → res (option nat) := if from_end then next_elem_sibling d else prev_elem_sibling d.
Definition same_tag (d : dom) (tg : bytes) (s : nat) : bool :=
  match nodes d !! s ≫= tag with Some t => ci_eq t tg | None => false end.

(** [is_first_element_child], [is_last_element_child]. *)
Definition is_end_child (d : dom) (from_end : bool) (n : nat) : res bool :=
  (let* x := node d n in
   match parent (lk x) with
   | None => Ok false
   | Some _ => let* s := elem_next d from_end n in Ok (bool_decide (s = None))
   end)%c.
(** [is_first_of_type], [is_last_of_type]. *)
Definition is_end_of_type (d : dom) (from_end : bool) (n : nat) : res bool :=
  (let* x := node d n in
   match parent (lk x), tag x with
   | Some _, Some tg => let* l := elems (rounds d) (elem_next d from_end) n in Ok (negb (existsb (same_tag d tg) l))
   | _, _ => Ok false
   end)%c.
Definition elem_index (d : dom) (n : nat) (from_end : bool) : res Z :=
  (let* l := elems (rounds d) (elem_next d from_end) n in Ok (1 + Z.of_nat (length l)))%c.
Definition elem_index_of_type (d : dom) (n : nat) (from_end : bool) : res Z :=
  (let* x := node d n in
   match tag x with
   | None => Ok 0
   | Some tg => let* l := elems (rounds d) (elem_next d from_end) n in Ok (1 + Z.of_nat (length (List.filter (same_tag d tg) l)))
   end)%c.

(** ** An+B *)

(** [strtol] in base 10: the value and where it stopped; [s] itself when there is no number. *)
Definition strtol (s : bytes) : Z * bytes :=
  let t := skip c_isspace s in
  let u := if bool_decide (hd0 t = 45 ∨ hd0 t = 43) then tail t else t in
  let rest := skip c_isdigit u in
  if decide (rest = u) then (0, s) else (c_atol s, rest).

Definition is_sign (c : Z) : bool := bool_decide (c = 43 ∨ c = 45).
(** What follows the [n]. *)
Definition anb_tail (a : Z) (s : bytes) : option (Z * Z) :=
  if is_sign (hd0 s) then Some (a, i32 (fst (strtol s)))
  else match s with [] => Some (a, 0) | _ => None end.
Definition parse_anb (s0 : bytes) : option (Z * Z) :=
  let s := skip c_isspace s0 in
  match s with
  | [] => None
  | c :: s1 =>
    if streq s (str "odd") then Some (2, 1)
    else if streq s (str "even") then Some (2, 0)
    else if bool_decide (c = 110) || (is_sign c && bool_decide (hd0 s1 = 110)) then
      anb_tail (if decide (c = 45) then -1 else 1) (tail (if is_sign c then s1 else s))
    else
      let '(coef, e) := strtol s in
      if decide (e = s) then None
      else match e with
           | [] => Some (0, i32 coef)
           | x :: e => if decide (x = 110) then anb_tail (i32 coef) e else None
           end
  end.
Definition nth_test (idx a b : Z) : res bool :=
  if decide (a = 0) then Ok (bool_decide (idx = b)) else
  let diff := idx - b in
  if decide (- 2 ^ 31 <= diff < 2 ^ 31 ∧ ¬ (a = -1 ∧ diff = - 2 ^ 31)) then
    Ok (if decide (Z.rem diff a ≠ 0) then false else bool_decide (0 <= Z.quot diff a))
  else UB.
Definition nth_pseudo (idx : res Z) (arg : bytes) : res bool :=
  match parse_anb arg with
  | None => Ok false
  | Some (a, b) => (let* i := idx in nth_test i a b)%c
  end.

(** ** Attribute operators *)

Fixpoint ci_contains_from (hay needle : bytes) : bool :=
  if bool_decide (length hay < length needle)%nat then false
  else ci_eq_n hay needle (length needle) || match hay with [] => false | _ :: h => ci_contains_from h needle end.
Definition ci_contains (hay needle : bytes) : bool := match needle with [] => true | _ => ci_contains_from hay needle end.
Definition attr_op_match (got : option bytes) (op : Z) (av : bytes) : bool :=
  match got with
  | None => false
  | Some g =>
    let al := length av in
    if decide (op = 1) then ci_eq g av
    else if decide (op = 2) then class_has g av
    else if decide (op = 3) then ci_eq_n g av al
    else if decide (op = 4) then bool_decide (al <= length g)%nat && ci_eq_n (drop (length g - al) g) av al
    else if decide (op = 5) then ci_contains g av
    else if decide (op = 6) then ci_eq g av || (ci_eq_n g av al && bool_decide (hd0 (drop al g) = 45))
    else false
  end.
Definition get_attr (x : MiniNode) (k : bytes) : option bytes := assoc_get (attrs x) k ≫= id.
Definition has_attr (x : MiniNode) (k : string) : bool := bool_decide (is_Some (get_attr x (str k))).

(** ** Splitting a complex selector *)

Definition SEG : nat := 127.
Definition MAXSEG : nat := 16.
(** The finished segments with the combinator before each, the one being
    written, and whether white space has been seen. *)
Record Split := Spl { segs : list (bytes * Z); cur : bytes; comb : Z; saw_ws : bool }.
Definition app1 (b : bytes) (c : Z) : bytes := if decide (length b < SEG)%nat then b ++ [c] else b.
Definition put_seg (l : bytes) (p : Split) : Split := Spl (segs p) (fold_left app1 l (cur p)) (comb p) (saw_ws p).
Definition no_ws (p : Split) : Split := Spl (segs p) (cur p) (comb p) false.
(** A combinator ends the segment while there is room for one more. *)
Definition next_seg (c : Z) (p : Split) : Split :=
  if decide (S (length (segs p)) < MAXSEG)%nat then Spl (segs p ++ [(cur p, comb p)]) [] c false else no_ws p.

(** To the closing parenthesis: what is taken and what is left. *)
Fixpoint paren_block (s : bytes) (depth : nat) : bytes * bytes :=
  match s with
  | [] => ([], [])
  | c :: s =>
    let depth := if decide (c = 40) then S depth else if decide (c = 41) then pred depth else depth in
    match depth with
    | O => ([c], s)
    | _ => let '(t, r) := paren_block s depth in (c :: t, r)
    end
  end.
Definition name_char (c : Z) : bool := c_isalnum c || bool_decide (c = 45).
Definition not_close (c : Z) : bool := negb (bool_decide (c = 93)).
Definition split_space (c : Z) : bool := bool_decide (c = 32 ∨ c = 9 ∨ c = 10 ∨ c = 13 ∨ c = 12).
Definition combinator (c : Z) : bool := bool_decide (c = 62 ∨ c = 43 ∨ c = 126).
(** One round of the loop at the character [c]. *)
Definition split_step (c : Z) (s : bytes) (p : Split) : Split * bytes :=
  if decide (c = 91) then
    let '(t, r) := scan not_close (length s) s in
    match r with
    | x :: r => (no_ws (put_seg (c :: t ++ [x]) p), r)
    | [] => (no_ws (put_seg (c :: t) p), [])
    end
  else if decide (c = 58) then
    let p := put_seg [c] p in
    let '(p, s) := match expect 58 s with
                   | Some s' => if decide (length (cur p) < SEG)%nat then (put_seg [58] p, s') else (p, s)
                   | None => (p, s)
                   end in
    let '(t, s) := scan name_char (length s) s in
    let p := put_seg t p in
    if decide (hd0 s = 40) then let '(t, s) := paren_block s 0 in (no_ws (put_seg t p), s) else (no_ws p, s)
  else if split_space c then (Spl (segs p) (cur p) (comb p) true, s)
  else if combinator c then (no_ws (next_seg c p), skip c_isspace s)
  else
    let p := if saw_ws p && bool_decide (cur p ≠ []) then next_seg 32 p else p in
    (put_seg [c] p, s).
Fixpoint split_loop (fuel : nat) (s : bytes) (p : Split) : Split :=
  match fuel, s with
  | S fuel, c :: s => let '(p, s) := split_step c s p in split_loop fuel s p
  | _, _ => p
  end.
Definition parse_complex (s0 : bytes) : list (bytes * Z) :=
  match skip c_isspace s0 with
  | [] => []
  | s => let p := split_loop (length s) s (Spl [] [] 0 false) in segs p ++ [(cur p, comb p)]
  end.

(** ** Where split selectors are kept *)

(** [sopen] gives a split selector for a string and the number of its segments;
    [sseg] reads a segment and the combinator before it, as they are now. *)
Record Store := Sto {
  st : Type; handle : Type;
  sopen : bytes → st → handle * nat * st;
  sseg : st → handle → nat → bytes * Z }.

(** The string is split each time; the state is the list of these strings. *)
Definition direct : Store :=
  Sto (list bytes) (list (bytes * Z)) (λ s u, let l := parse_complex s in (l, length l, u ++ [s])) (λ _ l i, default ([], 0) (l !! i)).

Record CompiledSel := Cs { csel : bytes; cseg : list (bytes * Z) }.
(** The slots in use, and [g_cs_n]. *)
Record cs_table := Tbl { g_cs : gmap nat CompiledSel; g_cs_n : nat }.
Definition MINI_CS_CAP : nat := 2048.
Definition CS_KEY : nat := 159.
Definition fnv (s : bytes) : Z := foldl (λ h c, u32 (Z.lxor h (u8 c) * 16777619)) 2166136261 s.
Definition cs_hash (s : bytes) : nat := Z.to_nat (Z.land (fnv s) (Z.of_nat MINI_CS_CAP - 1)).
Definition cs_slot (h i : nat) : nat := ((h + i) mod MINI_CS_CAP)%nat.
(** The slots [i, i + k) of the probe chain: the one that holds [sel], up to the first free one. *)
Fixpoint cs_find (t : cs_table) (sel : bytes) (h k i : nat) : option nat :=
  match k with
  | O => None
  | S k => match g_cs t !! cs_slot h i with
           | None => None
           | Some c => if streq (csel c) sel then Some (cs_slot h i) else cs_find t sel h k (S i)
           end
  end.
Fixpoint cs_free (t : cs_table) (h k i : nat) : option nat :=
  match k with
  | O => None
  | S k => match g_cs t !! cs_slot h i with None => Some (cs_slot h i) | Some _ => cs_free t h k (S i) end
  end.
Definition compile (sel : bytes) : CompiledSel := let key := take CS_KEY sel in Cs key (parse_complex key).
Definition cs_add (t : cs_table) (sel : bytes) : option (nat * cs_table) :=
  match cs_free t (cs_hash sel) 8 0 with
  | Some i => Some (i, Tbl (<[i := compile sel]> (g_cs t)) (S (g_cs_n t)))
  | None => None
  end.
Definition empty_table : cs_table := Tbl ∅ 0.
(** The slot of [sel], or none when its chain is full. *)
Definition cs_get (sel : bytes) (t : cs_table) : option nat * cs_table :=
  match cs_find t sel (cs_hash sel) 8 0 with
  | Some i => (Some i, t)
  | None =>
    match cs_add t sel with
    | Some (i, t) => (Some i, t)
    | None =>
      if decide (MINI_CS_CAP * 3 / 4 < g_cs_n t)%nat then
        match cs_add empty_table sel with Some (i, t) => (Some i, t) | None => (None, empty_table) end
      else (None, t)
    end
  end.
(** The code's store: a slot of the table, or segments on the stack. *)
Definition slot_segs (t : cs_table) (h : nat + list (bytes * Z)) : list (bytes * Z) :=
  match h with inl i => from_option cseg [] (g_cs t !! i) | inr l => l end.
Definition cached : Store :=
  Sto cs_table (nat + list (bytes * Z))
    (λ s t, match cs_get s t with
            | (Some i, t) => (inl i, length (slot_segs t (inl i)), t)
            | (None, t) => let l := parse_complex s in (inr l, length l, t)
            end)
    (λ t h i, default ([], 0) (slot_segs t h !! i)).

(** ** Matching *)

Section matcher.
Context (K : Store) (d : dom).

(** A computation that may change the store. *)
Definition M (A : Type) : Type := st K → res (A * st K).
Definition ret {A} (a : A) : M A := λ s, Ok (a, s).
Definition bind {A B} (m : M A) (k : A → M B) : M B := λ s, match m s with Ok (a, s) => k a s | UB => UB end.
Definition lift {A} (m : res A) : M A := λ s, match m with Ok a => Ok (a, s) | UB => UB end.
Definition fail {A} : M A := λ _, UB.
Local Notation "'let!' x := m 'in' k" := (bind m (fun x => k)) (at level 10, x pattern, m at level 100, k at level 200).
Definition orM (a b : M bool) : M bool := let! x := a in if x : bool then ret true else b.
Definition andM (a b : M bool) : M bool := let! x := a in if x : bool then b else ret false.

(** The first node along [step] for which [f] holds. *)
Fixpoint any_along (fuel : nat) (step : nat → res (option nat)) (f : nat → M bool) (c : option nat) : M bool :=
  match c, fuel with
  | None, _ => ret false
  | Some _, O => fail
  | Some c, S fuel => orM (f c) (let! c := lift (step c) in any_along fuel step f c)
  end.
Definition link_step (f : Links → option nat) (c : nat) : res (option nat) := (let* x := node d c in Ok (f (lk x)))%c.
Fixpoint any_of {A} (f : A → M bool) (l : list A) : M bool :=
  match l with [] => ret false | a :: l => orM (f a) (any_of f l) end.

(** [strtok_r(s, ",")]: the stretches between commas that are not empty. *)
Fixpoint strtok_from (s t : bytes) : list bytes :=
  let flush := match t with [] => [] | _ => [t] end in
  match s with
  | [] => flush
  | c :: s => if decide (c = 44) then flush ++ strtok_from s [] else strtok_from s (t ++ [c])
  end.
Definition strtok (s : bytes) : list bytes := strtok_from s [].

(** [mc] is [match_complex]. *)
Section compound.
Context (mc : nat → bytes → M bool).

Definition match_list (cap : nat) (n : nat) (arg : bytes) : M bool :=
  any_of (λ t, mc n (skip c_isspace t)) (strtok (take cap arg)).

(** The descendants, the last pushed first; a node that finds the stack full is lost. *)
Definition push_all (l stack : list nat) : list nat := fold_left (λ s c, if decide (length s < 64)%nat then c :: s else s) l stack.
Fixpoint has_below (fuel : nat) (sel : bytes) (stack : list nat) : M bool :=
  match stack, fuel with
  | [], _ => ret false
  | _, O => fail
  | c :: stack, S fuel =>
    let! x := lift (node d c) in
    if bool_decide (ntype x = MN_ELEMENT_NODE) then
      orM (mc c sel) (let! l := lift (chain (rounds d) d next_sibling (first_child (lk x))) in has_below fuel sel (push_all l stack))
    else has_below fuel sel stack
  end.
Definition elem_and (f : nat → M bool) (c : nat) : M bool :=
  let! x := lift (node d c) in if bool_decide (ntype x = MN_ELEMENT_NODE) then f c else ret false.
Definition match_has (n : nat) (x : MiniNode) (arg : bytes) : M bool :=
  let a := skip c_isspace arg in
  let b := tail a in
  if decide (hd0 a = 62) then any_along (rounds d) (link_step next_sibling) (elem_and (λ c, mc c (skip c_isspace b))) (first_child (lk x))
  else if decide (hd0 a = 43) then let! s := lift (next_elem_sibling d n) in match s with Some s => mc s b | None => ret false end
  else if decide (hd0 a = 126) then let! s := lift (next_elem_sibling d n) in any_along (rounds d) (next_elem_sibling d) (λ c, mc c b) s
  else let! l := lift (chain (rounds d) d next_sibling (first_child (lk x))) in has_below (rounds d) a (push_all l []).

Definition tag_among (x : MiniNode) (l : list string) : bool :=
  match tag x with Some t => existsb (λ s, streq t (str s)) l | None => false end.
Definition is_disabled (x : MiniNode) : res bool :=
  if has_attr x "disabled" then Ok true else
  (let* l := chain (rounds d) d parent (parent (lk x)) in
   Ok (existsb (λ p, match nodes d !! p with Some y => tag_among y ["fieldset"]%string && has_attr y "disabled" | None => false end) l))%c.
Definition is_root (x : MiniNode) : res bool :=
  if bool_decide (ntype x = MN_DOCUMENT_NODE) then Ok true else
  match parent (lk x) with
  | None => Ok true
  | Some p => (let* y := node d p in Ok (bool_decide (ntype y = MN_DOCUMENT_NODE) && tag_among x ["html"]%string))%c
  end.
Definition focus_within (x : MiniNode) : res bool :=
  if bool_decide (state_focused x ≠ 0) then Ok true else
  (let* l := chain (rounds d) d next_sibling (first_child (lk x)) in
   Ok (existsb (λ c, match nodes d !! c with Some y => bool_decide (state_focused y ≠ 0) | None => false end) l))%c.
Definition blank (t : option bytes) : bool := bool_decide (default [] t = []).

Definition match_pseudo (n : nat) (name arg : bytes) : M bool :=
  let! x := lift (node d n) in
  let named s := streq name (str s) in
  let both a b := (let* x := a in if x : bool then b else Ok false)%c in
  if named "first-child" then lift (is_end_child d false n)
  else if named "last-child" then lift (is_end_child d true n)
  else if named "only-child" then lift (both (is_end_child d false n) (is_end_child d true n))
  else if named "empty" then ret (bool_decide (first_child (lk x) = None))
  else if named "root" then lift (is_root x)
  else if named "nth-child" then lift (nth_pseudo (elem_index d n false) arg)
  else if named "nth-last-child" then lift (nth_pseudo (elem_index d n true) arg)
  else if named "nth-of-type" then lift (nth_pseudo (elem_index_of_type d n false) arg)
  else if named "nth-last-of-type" then lift (nth_pseudo (elem_index_of_type d n true) arg)
  else if named "first-of-type" then lift (is_end_of_type d false n)
  else if named "last-of-type" then lift (is_end_of_type d true n)
  else if named "only-of-type" then lift (both (is_end_of_type d false n) (is_end_of_type d true n))
  else if named "is" || named "where" then match arg with [] => ret false | _ => match_list 255 n arg end
  else if named "has" then match arg with [] => ret false | _ => match_has n x arg end
  else if named "not" then match arg with [] => ret false | _ => let! any := match_list 127 n arg in ret (negb any) end
  else if named "hover" then ret (bool_decide (state_hovered x ≠ 0))
  else if named "active" then ret (bool_decide (state_active x ≠ 0))
  else if named "focus" || named "focus-visible" then ret (bool_decide (state_focused x ≠ 0))
  else if named "focus-within" then lift (focus_within x)
  else if named "checked" then ret (has_attr x "checked" || has_attr x "selected")
  else if named "disabled" then lift (is_disabled x)
  else if named "enabled" then
    if tag_among x ["input"; "button"; "select"; "textarea"; "option"; "fieldset"]%string
    then let! b := lift (is_disabled x) in ret (negb b) else ret false
  else if named "required" then ret (has_attr x "required")
  else if named "placeholder-shown" then ret (has_attr x "placeholder" && blank (get_attr x (str "value")) && blank (text x))
  else if named "placeholder" then ret (tag_among x ["input"; "textarea"]%string)
  else ret false.

(** The characters of a name run to a delimiter. *)
Definition delim (c : Z) : bool := bool_decide (c = 46 ∨ c = 35 ∨ c = 91 ∨ c = 58).
Definition word (n : nat) (p : bytes) : bytes * bytes := let '(t, r) := scan (λ c, negb (delim c)) n p in (c_tolower <$> t, r).
Definition op_char (c : Z) : bool := bool_decide (c = 126 ∨ c = 94 ∨ c = 36 ∨ c = 42 ∨ c = 124).
Definition attr_char (c : Z) : bool := negb (bool_decide (c = 93 ∨ c = 61) || op_char c).
Definition op_of (p : bytes) : Z * bytes :=
  if decide (hd0 p = 61) then (1, tail p)
  else if op_char (hd0 p) && bool_decide (hd0 (tail p) = 61) then
    let c := hd0 p in
    (if decide (c = 126) then 2 else if decide (c = 94) then 3 else if decide (c = 36) then 4 else if decide (c = 42) then 5 else 6, drop 2 p)
  else (0, p).
Definition attr_value (p : bytes) : bytes * bytes :=
  let q := hd0 p in
  if bool_decide (q = 34 ∨ q = 39) then
    let '(v, r) := scan (λ c, negb (bool_decide (c = q))) 127 (tail p) in (v, default r (expect q r))
  else scan not_close 127 p.
(** After the bracket: whether the node passes, and what is left. *)
Definition match_attr (x : MiniNode) (p : bytes) : bool * bytes :=
  let '(an, p) := scan attr_char 63 p in
  let an := c_tolower <$> an in
  let '(op, p) := op_of p in
  if decide (op = 0) then (bool_decide (is_Some (get_attr x an)), default p (expect 93 p))
  else let '(av, p) := attr_value p in (attr_op_match (get_attr x an) op av, default p (expect 93 p)).
(** After the colon: name, argument, and what is left. *)
Fixpoint paren_arg (s : bytes) (depth : nat) : bytes * bytes :=
  match s with
  | [] => ([], [])
  | c :: s =>
    if bool_decide (c = 41) && bool_decide (depth = 1)%nat then ([], s) else
    let '(t, r) := paren_arg s (if decide (c = 40) then S depth else if decide (c = 41) then pred depth else depth) in (c :: t, r)
  end.
Definition pseudo_at (p : bytes) : bytes * bytes * bytes :=
  let p := default p (expect 58 p) in
  let '(pname, p) := scan name_char 31 p in
  match expect 40 p with
  | Some r => let '(arg, r) := paren_arg r 1 in (c_tolower <$> pname, take 127 arg, r)
  | None => (c_tolower <$> pname, [], p)
  end.

Definition seg_rest (s : st K) (h : handle K) (i off : nat) : bytes := drop off (fst (sseg K s h i)).
Definition reading {A} (h : handle K) (i off : nat) (k : bytes → M A) : M A := λ s, k (seg_rest s h i off) s.
(** The part of a compound that starts with [c]: its test and what is left; none ends the compound. *)
Definition part_at (n : nat) (x : MiniNode) (c : Z) (q : bytes) : option (M bool * bytes) :=
  if decide (c = 46) then
    let '(tok, r) := word 63 q in Some (ret (match get_attr x (str "class") with Some v => class_has v tok | None => false end), r)
  else if decide (c = 35) then
    let '(tok, r) := word 63 q in Some (ret (match get_attr x (str "id") with Some v => ci_eq v tok | None => false end), r)
  else if decide (c = 91) then let '(ok, r) := match_attr x q in Some (ret ok, r)
  else if decide (c = 58) then let '(pname, parg, r) := pseudo_at q in Some (match_pseudo n pname parg, r)
  else None.
(** The loop of [match_compound] from the offset [off] of the segment. *)
Fixpoint compound_loop (fuel : nat) (n : nat) (h : handle K) (i off : nat) : M bool :=
  match fuel with
  | O => fail
  | S fuel =>
    reading h i off (λ p,
      match p with
      | [] => ret true
      | c :: q =>
        let! x := lift (node d n) in
        match part_at n x c q with
        | Some (test, r) => andM test (compound_loop fuel n h i (off + (length p - length r))%nat)
        | None => ret true
        end
      end)
  end.
Definition match_compound (n : nat) (h : handle K) (i : nat) : M bool :=
  let! x := lift (node d n) in
  if bool_decide (ntype x = MN_ELEMENT_NODE ∨ ntype x = MN_DOCUMENT_NODE) then
    reading h i 0 (λ p,
      match p with
      | c :: _ =>
        if delim c then compound_loop (S SEG) n h i 0 else
        let '(tg, r) := word 31 p in
        if streq tg (str "*") || match tag x with Some t => ci_eq t tg | None => false end
        then compound_loop (S SEG) n h i (length p - length r) else ret false
      | [] => ret true
      end)
  else ret false.

(** The nodes that the combinator [c] to the left allows. *)
Definition at_combinator (c : Z) (n : nat) (f : nat → M bool) : M bool :=
  let! x := lift (node d n) in
  if decide (c = 62) then match parent (lk x) with Some p => f p | None => ret false end
  else if decide (c = 32) then any_along (rounds d) (link_step parent) f (parent (lk x))
  else if decide (c = 43) then let! p := lift (prev_elem_sibling d n) in match p with Some p => f p | None => ret false end
  else if decide (c = 126) then let! p := lift (prev_elem_sibling d n) in any_along (rounds d) (prev_elem_sibling d) f p
  else ret false.
(** [match_at] at the segment [i]. *)
Fixpoint match_at (n : nat) (h : handle K) (i : nat) : M bool :=
  andM (match_compound n h i)
    match i with
    | O => ret true
    | S j => λ s, at_combinator (snd (sseg K s h i)) n (λ a, match_at a h j) s
    end.
End compound.

(** Each level of nesting takes one unit of fuel. *)
Fixpoint match_complex (fuel : nat) (n : nat) (sel : bytes) : M bool :=
  match fuel, sel with
  | _, [] => ret false
  | O, _ => fail
  | S fuel, _ => λ s,
    let '(h, nseg, s) := sopen K sel s in
    match nseg with
    | O => Ok (false, s)
    | S i => match_at (match_complex fuel) n h i s
    end
  end.
Definition mini_dom_matches_selector (n : nat) (sel : bytes) : M bool := match_complex (S (length sel)) n sel.

(** ** Queries *)

Fixpoint walk_collect (fuel : nat) (n : nat) (sel : bytes) (out : list nat) (max : nat) : M (list nat) :=
  match fuel with
  | O => fail
  | S fuel =>
    let! b := match_complex (S (length sel)) n sel in
    let out := if (b : bool) && bool_decide (length out < max)%nat then out ++ [n] else out in
    let! x := lift (node d n) in
    let! l := lift (chain (rounds d) d next_sibling (first_child (lk x))) in
    fold_left (λ r c, let! out := r in walk_collect fuel c sel out max) l (ret out)
  end.
(** To the comma outside of parentheses and brackets. *)
Fixpoint until_comma (s : bytes) (depth : nat) : bytes * bytes :=
  match s with
  | [] => ([], [])
  | c :: s' =>
    if bool_decide (c = 44) && bool_decide (depth = 0)%nat then ([], s') else
    let '(t, r) := until_comma s' (if bool_decide (c = 40 ∨ c = 91) then S depth else if bool_decide (c = 41 ∨ c = 93) then pred depth else depth) in
    (c :: t, r)
  end.
Definition rtrim (s : bytes) : bytes := rev (skip c_isspace (rev s)).
Fixpoint query_loop (fuel : nat) (root : nat) (p : bytes) (out : list nat) (max : nat) : M (list nat) :=
  match fuel with
  | O => ret out
  | S fuel =>
    if bool_decide (length out < max)%nat then
      match skip c_isspace p with
      | [] => ret out
      | p =>
        let '(tok, p) := until_comma p 0 in
        match rtrim tok with
        | [] => query_loop fuel root p out max
        | tok => let! out := walk_collect (rounds d) root tok out max in query_loop fuel root p out max
        end
      end
    else ret out
  end.
Definition mini_dom_query_selector_all (root : nat) (sel : bytes) (max : nat) : M (list nat) :=
  match sel with [] => ret [] | _ => query_loop (S (length sel)) root (take 511 sel) [] max end.
Definition mini_dom_query_selector (root : nat) (sel : bytes) : M (option nat) :=
  let! l := mini_dom_query_selector_all root sel 1 in ret (head l).
End matcher.

(** ** A page *)

(** [E tag class kids] and a text, as functions that add to a tree. *)
Definition grow : Type := dom → dom * option nat.
Definition E (t c : string) (kids : list grow) : grow := λ d : dom,
  let (d, n) := mini_node_create_element (Some (str t)) d in
  let d := match mini_node_set_attribute d (Some n) (Some (str "class")) (Some (str c)) with Ok d => d | UB => d end in
  (fold_left (λ (d : dom) (k : grow), let (d, c) := k d in match mini_node_append_child d (Some n) c with Ok (d, _) => d | UB => d end) kids d, Some n).
Definition T (t : string) : grow := λ d : dom, let (d, n) := mini_node_create_text (Some (str t)) d in (d, Some n).
Definition page : dom :=
  fst (E "body" "" [E "div" "r" [E "section" "" [E "p" "deep" [T "D"]]; E "p" "a" [T "1"]; E "p" "b" [T "2"]; E "span" "x y" []; E "p" "a" [T "3"]]] no_dom).
Definition q (sel : string) : option (list nat) :=
  match mini_dom_query_selector_all cached page 1 (str sel) 64 empty_table with Ok (l, _) => Some l | UB => None end.
Example combinators : map q ["div p"; "div > p"; "p + p"; "p ~ p"; ".r p:first-child"; ".r > :nth-child(2)"; ".r > p:not(.a)"; "[class~=y]"]%string
  = map Some [[4; 6; 8; 11]; [6; 8; 11]; [8]; [8; 11]; [4]; [6]; [8]; [10]]%nat.
Proof. vm_compute. reflexivity. Qed.
(** White space before a pseudo-class or an attribute is no combinator. *)
Example lost_descendant : q "div :first-child" = q "div:first-child" ∧ q "div [class]" = q "div[class]" ∧ q "div *:first-child" = Some [3; 4]%nat.
Proof. vm_compute. done. Qed.
(** Spaces within An+B. *)
Example spaced_anb : q "p:nth-child(2n + 1)" = Some [] ∧ q "p:nth-child(2n+1)" = Some [4; 8; 11]%nat.
Proof. vm_compute. done. Qed.
(** Commas divide the arguments inside the nested parentheses too. *)
Example nested_commas : q "p:not(:is(.a,.b), .deep)" = Some [8]%nat ∧ q "p:not(:is(.a,.b))" = Some [4; 8]%nat.
Proof. vm_compute. done. Qed.
(** [:has] does not divide its argument; a list of selectors repeats nodes, each selector's in turn. *)
Example has_list : q "div:has(.nope, .deep)" = Some [] ∧ q "p.b, p" = Some [8; 4; 6; 8; 11]%nat.
Proof. vm_compute. done. Qed.
(** An empty attribute value is found everywhere. *)
Example empty_value : q "[class^='']" = q "[class]".
Proof. vm_compute. done. Qed.
(** A count below zero is taken from the position: the difference leaves [int]. *)
Example nth_overflow : q "p:nth-child(n-2147483648)" = None.
Proof. vm_compute. done. Qed.
