(* ===== verification/SelCache.v ===== *)
(** * The cache of split selectors is transparent

    A query through the table of [cs_get] gives what a query that splits every
    selector anew gives, as long as the table is not cleared during the query.
    The proof runs the matcher over both stores at once. *)

From stdpp Require Import gmap list.
From S2P Require Import Prelude CString Dom Selectors.
Open Scope Z_scope.

(** ** The table *)

(** Every slot holds the parts of its key. *)
Definition coherent (t : cs_table) : Prop := ∀ i c, g_cs t !! i = Some c → cseg c = parse_complex (csel c).
Definition grows (t t' : cs_table) : Prop := g_cs t ⊆ g_cs t'.
Lemma table_grows_refl t : grows t t.
Proof. unfold grows. reflexivity. Qed.
#[export] Hint Resolve table_grows_refl : core.
#[export] Instance table_grows_trans : Transitive grows.
Proof. intros a b c. unfold grows. by etrans. Qed.
(** No slot of the probe chain is free. *)
Definition chain_full (t : cs_table) (sel : bytes) : Prop := ∀ i, (i < 8)%nat → is_Some (g_cs t !! cs_slot (cs_hash sel) i).

Lemma cs_find_some t sel h k i j : cs_find t sel h k i = Some j → ∃ c, g_cs t !! j = Some c ∧ csel c = sel.
Proof.
  revert i. induction k as [|k IH]; intros i; [done|]. cbn [cs_find]. destruct (g_cs t !! cs_slot h i) as [c|] eqn:E; [|discriminate].
  destruct (streq (csel c) sel) eqn:Es; [|apply IH]. intros [= <-]. apply streq_true in Es. by exists c.
Qed.
Lemma cs_find_grows t t' sel h k i j : grows t t' → cs_find t sel h k i = Some j → cs_find t' sel h k i = Some j.
Proof.
  intros G. revert i. induction k as [|k IH]; intros i; [done|]. cbn [cs_find]. destruct (g_cs t !! cs_slot h i) as [c|] eqn:E; [|discriminate].
  rewrite (lookup_weaken _ _ _ _ E G). destruct (streq (csel c) sel); [done|apply IH].
Qed.
Lemma cs_free_some t h k i j : cs_free t h k i = Some j → g_cs t !! j = None.
Proof.
  revert i. induction k as [|k IH]; intros i; [done|]. cbn [cs_free]. destruct (g_cs t !! cs_slot h i) eqn:E; [apply IH|]. by intros [= <-].
Qed.
Lemma cs_free_none t h k i : cs_free t h k i = None → ∀ j, (i <= j < i + k)%nat → is_Some (g_cs t !! cs_slot h j).
Proof.
  revert i. induction k as [|k IH]; intros i; [lia|]. cbn [cs_free]. destruct (g_cs t !! cs_slot h i) eqn:E; [|discriminate].
  intros H j Hj. destruct (decide (j = i)) as [->|]; [by rewrite E|]. apply (IH (S i) H). lia.
Qed.
Lemma cs_free_full t h k i : (∀ j, (i <= j < i + k)%nat → is_Some (g_cs t !! cs_slot h j)) → cs_free t h k i = None.
Proof.
  revert i. induction k as [|k IH]; intros i H; [done|]. cbn [cs_free]. destruct (H i) as [c ->]; [lia|]. apply IH. intros j Hj. apply H. lia.
Qed.
(** What was put in the first free slot is found. *)
Lemma cs_find_added t sel h k i j c : cs_find t sel h k i = None → cs_free t h k i = Some j → csel c = sel →
  cs_find (Tbl (<[j := c]> (g_cs t)) (S (g_cs_n t))) sel h k i = Some j.
Proof.
  intros Hf Hj Hc. revert i Hf Hj. induction k as [|k IH]; intros i; [done|]. cbn [cs_find cs_free g_cs].
  destruct (g_cs t !! cs_slot h i) as [x|] eqn:E.
  - destruct (streq (csel x) sel) eqn:Es; [done|]. intros Hf Hj. pose proof (cs_free_some _ _ _ _ _ Hj) as Hn.
    rewrite lookup_insert_ne, E, Es by congruence. by apply IH.
  - intros _ [= <-]. rewrite lookup_insert_eq. by rewrite (proj2 (streq_true _ _) Hc).
Qed.

Lemma chain_full_grows t t' sel : grows t t' → chain_full t sel → chain_full t' sel.
Proof. intros G H i Hi. destruct (H i Hi) as [c Hc]. exists c. by eapply lookup_weaken. Qed.

(** Where the cache stands after the strings [log] were asked for. *)
Record tracks (t0 : cs_table) (log : list bytes) (t : cs_table) : Prop := {
  tr_coh : coherent t;
  tr_grow : grows t0 t;
  tr_seen : ∀ s, s ∈ log → is_Some (cs_find t s (cs_hash s) 8 0) ∨ chain_full t s;
  tr_count : (g_cs_n t <= g_cs_n t0 + size (list_to_set log : gset bytes))%nat }.
Definition roomy (t0 : cs_table) (log : list bytes) : Prop := (g_cs_n t0 + size (list_to_set log : gset bytes) <= 1536)%nat.
Definition holds_segs (t : cs_table) (h : nat + list (bytes * Z)) (l : list (bytes * Z)) : Prop :=
  match h with inl i => ∃ c, g_cs t !! i = Some c ∧ cseg c = l | inr l' => l' = l end.

Lemma holds_segs_grows t t' h l : grows t t' → holds_segs t h l → holds_segs t' h l.
Proof. destruct h as [i|]; [|done]. intros G (c&Hc&<-). exists c. split; [by eapply lookup_weaken|done]. Qed.
Lemma holds_segs_read t h l : holds_segs t h l → slot_segs t h = l.
Proof. destruct h as [i|]; [|done]. intros (c&Hc&<-). cbn. by rewrite Hc. Qed.

Lemma compile_short s : (length s <= CS_KEY)%nat → compile s = Cs s (parse_complex s).
Proof. intros H. unfold compile. by rewrite take_ge. Qed.
Lemma log_size (log : list bytes) s : size (list_to_set (log ++ [s]) : gset bytes) =
  (size (list_to_set log : gset bytes) + if decide (s ∈ log) then 0 else 1)%nat.
Proof.
  rewrite list_to_set_app_L. cbn [list_to_set]. rewrite union_empty_r_L. case_decide as E.
  - replace (list_to_set log ∪ {[s]} : gset bytes) with (list_to_set log : gset bytes); [lia|]. apply set_eq. set_solver.
  - rewrite size_union, size_singleton; [lia|]. apply disjoint_singleton_r. by rewrite elem_of_list_to_set.
Qed.

Lemma cs_get_tracks t0 log t s : tracks t0 log t → roomy t0 (log ++ [s]) → (length s <= CS_KEY)%nat →
  ∃ o t', cs_get s t = (o, t') ∧ tracks t0 (log ++ [s]) t' ∧ grows t t' ∧
    holds_segs t' (match o with Some i => inl i | None => inr (parse_complex s) end) (parse_complex s).
Proof.
  intros [Hc Hg Hs Hn] Hr Hl. pose proof (log_size log s) as Hsz. unfold cs_get.
  destruct (cs_find t s (cs_hash s) 8 0) as [i|] eqn:Ef.
  { exists (Some i), t. split; [done|]. destruct (cs_find_some _ _ _ _ _ _ Ef) as (c&Hi&Ec). split; [|split; [done|]].
    - split; [done..| |lia]. intros x [H|H%list_elem_of_singleton]%elem_of_app; [by apply Hs|]. left. subst x. rewrite Ef. by eexists.
    - exists c. split; [done|]. by rewrite (Hc _ _ Hi), Ec. }
  unfold cs_add. destruct (cs_free t (cs_hash s) 8 0) as [j|] eqn:Ej.
  - rewrite compile_short by done. eexists (Some j), _. split; [done|]. pose proof (cs_free_some _ _ _ _ _ Ej) as Hj.
    assert (grows t (Tbl (<[j:=Cs s (parse_complex s)]> (g_cs t)) (S (g_cs_n t)))) as G by (apply insert_subseteq; exact Hj).
    split; [|split; [done|]]; [|exists (Cs s (parse_complex s)); split; [apply lookup_insert_eq|done]].
    split.
    + intros i c. cbn [g_cs]. intros [[<- <-]|[_ H]]%lookup_insert_Some; [done|by apply (Hc i)].
    + by transitivity t.
    + intros x [H|H%list_elem_of_singleton]%elem_of_app; [|subst x; left; rewrite (cs_find_added _ _ _ _ _ _ _ Ef Ej); [by eexists|done]].
      destruct (Hs _ H) as [[k Hk]|H']; [left; exists k; by eapply cs_find_grows|right; by eapply chain_full_grows].
    + rewrite decide_False in Hsz; [cbn [g_cs_n]; lia|]. intros H. destruct (Hs _ H) as [[k Hk]|H']; [congruence|].
      rewrite (cs_free_full t (cs_hash s) 8 0) in Ej; [done|]. intros i Hi. apply H'. lia.
  - assert (chain_full t s) as Hfull by (intros i Hi; apply (cs_free_none _ _ _ _ Ej); lia).
    rewrite decide_False by (unfold roomy in Hr; change (MINI_CS_CAP * 3 / 4)%nat with 1536%nat; lia).
    exists None, t. split; [done|]. split; [|done]. split; [done..| |lia].
    intros x [H|H%list_elem_of_singleton]%elem_of_app; [by apply Hs|subst x; by right].
Qed.

(** ** Two runs at once *)

Local Notation Md := (M direct).

(** From related states [m] over [direct] only adds to the log, and while there is
    room for what it adds [m'] over [cached] gives the same. *)
Definition sim {A} (T : cs_table) (m : M direct A) (m' : M cached A) : Prop := ∀ log a log', m log = Ok (a, log') →
  (∃ l, log' = log ++ l) ∧
  ∀ t0 t, tracks t0 log t → grows T t → roomy t0 log' → ∃ t', m' t = Ok (a, t') ∧ tracks t0 log' t' ∧ grows t t'.

Lemma roomy_app t0 l1 l2 : roomy t0 (l1 ++ l2) → roomy t0 l1.
Proof.
  unfold roomy. rewrite list_to_set_app_L. intros H.
  assert (size (list_to_set l1 : gset bytes) <= size (list_to_set l1 ∪ list_to_set l2 : gset bytes))%nat by (apply subseteq_size; set_solver). lia.
Qed.
Lemma sim_ret {A} T (a : A) : sim T (ret direct a) (ret cached a).
Proof. intros log ? ? [= <- <-]. split; [exists []; by rewrite app_nil_r|]. intros t0 t Ht _ _. by exists t. Qed.
Lemma sim_lift {A} T (m : res A) : sim T (lift direct m) (lift cached m).
Proof.
  intros log a log'. unfold lift. destruct m as [x|]; [|done]. intros [= <- <-]. split; [exists []; by rewrite app_nil_r|]. intros t0 t Ht _ _. by exists t.
Qed.
Lemma sim_fail {A} T : sim T (fail direct : Md A) (fail cached).
Proof. by intros log a log'. Qed.
Lemma sim_bind {A B} T (m : Md A) (k : A → Md B) m' k' : sim T m m' → (∀ a, sim T (k a) (k' a)) → sim T (bind direct m k) (bind cached m' k').
Proof.
  intros Hm Hk log b log'. unfold bind. destruct (m log) as [[a log1]|] eqn:E; [|discriminate]. intros E2.
  destruct (Hm _ _ _ E) as [[l1 ->] H1]. destruct (Hk a _ _ _ E2) as [[l2 ->] H2].
  split; [exists (l1 ++ l2); by rewrite app_assoc|]. intros t0 t Ht HT Hr.
  destruct (H1 t0 t Ht HT (roomy_app _ _ _ Hr)) as (t1&->&Ht1&G1). destruct (H2 t0 t1 Ht1) as (t2&->&Ht2&G2); [by transitivity t|done|].
  exists t2. split; [done|]. split; [done|]. by transitivity t1.
Qed.
Lemma sim_mono {A} T T' (m : Md A) m' : grows T T' → sim T m m' → sim T' m m'.
Proof. intros G H log a log' E. destruct (H _ _ _ E) as [? H']. split; [done|]. intros t0 t Ht HT. apply H'; [done|]. by transitivity T'. Qed.
Lemma sim_or T (a b : Md bool) a' b' : sim T a a' → sim T b b' → sim T (orM direct a b) (orM cached a' b').
Proof. intros Ha Hb. apply sim_bind; [done|]. intros []; [apply sim_ret|done]. Qed.
Lemma sim_and T (a b : Md bool) a' b' : sim T a a' → sim T b b' → sim T (andM direct a b) (andM cached a' b').
Proof. intros Ha Hb. apply sim_bind; [done|]. intros []; [done|apply sim_ret]. Qed.
Lemma sim_reading {A} T h l i off (k : bytes → Md A) k' : holds_segs T h l → (∀ p, sim T (k p) (k' p)) →
  sim T (reading direct l i off k) (reading cached h i off k').
Proof.
  intros Hh Hk log a log' E. destruct (Hk _ _ _ _ E) as [Hl H]. split; [done|]. intros t0 t Ht HT Hr.
  unfold reading, seg_rest. cbn [sseg cached]. rewrite (holds_segs_read _ _ _ (holds_segs_grows _ _ _ _ HT Hh)). by apply H.
Qed.
Lemma sim_any_along T fuel step f f' c : (∀ n, sim T (f n) (f' n)) → sim T (any_along direct fuel step f c) (any_along cached fuel step f' c).
Proof.
  intros Hf. revert c. induction fuel as [|fuel IH]; intros [c|]; cbn [any_along]; try apply sim_ret; [apply sim_fail|].
  apply sim_or; [done|]. apply sim_bind; [apply sim_lift|done].
Qed.
Lemma sim_any_of {A} T (f : A → Md bool) f' l : (∀ a, a ∈ l → sim T (f a) (f' a)) → sim T (any_of direct f l) (any_of cached f' l).
Proof.
  induction l as [|a l IH]; intros H; cbn [any_of]; [apply sim_ret|]. apply sim_or; [apply H; left|]. apply IH. intros x Hx. apply H. by right.
Qed.
Create HintDb sim.
#[export] Hint Resolve sim_ret sim_lift sim_fail sim_bind sim_or sim_and sim_any_along : sim.

Section sims.
Context (d : dom).

(** Nested selectors are short. *)
Definition mc_sim (mc : nat → bytes → Md bool) (mc' : nat → bytes → M cached bool) : Prop :=
  ∀ T n s, (length s <= CS_KEY)%nat → sim T (mc n s) (mc' n s).

Lemma strtok_short s acc t : t ∈ strtok_from s acc → (length t <= length acc + length s)%nat.
Proof.
  revert acc t. induction s as [|c s IH]; intros acc t; cbn [strtok_from].
  - destruct acc; [by intros ?%elem_of_nil|intros ->%list_elem_of_singleton; cbn; lia].
  - case_decide.
    + intros [H'|H']%elem_of_app; [destruct acc; [by apply elem_of_nil in H'|apply list_elem_of_singleton in H' as ->; cbn; lia]|].
      apply IH in H'. cbn in *. lia.
    + intros H'%IH. rewrite length_app in H'. cbn in *. lia.
Qed.

Section level.
Context (mc : nat → bytes → Md bool) (mc' : nat → bytes → M cached bool) (Hmc : mc_sim mc mc').

Lemma sim_match_list T cap n arg : (length arg <= CS_KEY)%nat → sim T (match_list direct mc cap n arg) (match_list cached mc' cap n arg).
Proof using Hmc.
  intros Ha. apply sim_any_of. intros t Ht. apply Hmc. apply strtok_short in Ht. rewrite length_take in Ht. cbn in Ht.
  pose proof (length_skip c_isspace t). lia.
Qed.
Lemma sim_has_below T fuel sel stack : (length sel <= CS_KEY)%nat →
  sim T (has_below direct d mc fuel sel stack) (has_below cached d mc' fuel sel stack).
Proof using Hmc.
  intros Hs. revert stack. induction fuel as [|fuel IH]; intros [|c stack]; cbn [has_below]; auto with sim.
  apply sim_bind; [apply sim_lift|]. intros x. destruct (bool_decide _); [|apply IH].
  apply sim_or; [by apply Hmc|]. apply sim_bind; [apply sim_lift|intros l; apply IH].
Qed.
Lemma sim_elem_and T (f : nat → Md bool) f' c : (∀ c, sim T (f c) (f' c)) → sim T (elem_and direct d f c) (elem_and cached d f' c).
Proof. intros H. apply sim_bind; [apply sim_lift|]. intros x. destruct (bool_decide _); [apply H|apply sim_ret]. Qed.
Lemma sim_match_has T n x arg : (length arg <= CS_KEY)%nat → sim T (match_has direct d mc n x arg) (match_has cached d mc' n x arg).
Proof using Hmc.
  intros Ha. unfold match_has. pose proof (length_skip c_isspace arg) as Hl. generalize dependent (skip c_isspace arg). intros a Hl.
  assert (sim T (let l := lift direct (chain (rounds d) d next_sibling (first_child (lk x))) in bind direct l (λ l, has_below direct d mc (rounds d) a (push_all l [])))
                (bind cached (lift cached (chain (rounds d) d next_sibling (first_child (lk x)))) (λ l, has_below cached d mc' (rounds d) a (push_all l [])))) as Hd.
  { apply sim_bind; [apply sim_lift|]. intros l. apply sim_has_below. lia. }
  assert (length (tail a) <= CS_KEY)%nat as Ht by (destruct a; cbn in *; lia).
  cbv zeta in *. repeat case_decide; [..|exact Hd].
  - apply sim_any_along. intros k. apply sim_elem_and. intros m. apply Hmc. pose proof (length_skip c_isspace (tail a)). lia.
  - apply sim_bind; [apply sim_lift|]. intros [s|]; [by apply Hmc|apply sim_ret].
  - apply sim_bind; [apply sim_lift|]. intros s. apply sim_any_along. intros k. by apply Hmc.
Qed.
Lemma sim_match_pseudo T n name arg : (length arg <= 127)%nat →
  sim T (match_pseudo direct d mc n name arg) (match_pseudo cached d mc' n name arg).
Proof using Hmc.
  intros Ha. assert (length arg <= CS_KEY)%nat as Hk by (unfold CS_KEY; lia).
  apply sim_bind; [apply sim_lift|]. intros x. cbv zeta.
  repeat match goal with
  | |- sim _ (if ?b then _ else _) _ => destruct b
  | |- sim _ (match arg with [] => _ | _ => _ end) _ => destruct arg
  | |- sim _ (lift _ _) _ => apply sim_lift
  | |- sim _ (ret _ _) _ => apply sim_ret
  | |- sim _ (match_list _ _ _ _ _) _ => by apply sim_match_list
  | |- sim _ (match_has _ _ _ _ _ _) _ => by apply sim_match_has
  | |- sim _ (bind _ _ _) _ => apply sim_bind; [|intros ?]
  end.
Qed.
Lemma pseudo_at_short p pn pa r : pseudo_at p = (pn, pa, r) → (length pa <= 127)%nat.
Proof.
  unfold pseudo_at. destruct (scan name_char 31 _) as [t q]. destruct (expect 40 q) as [q'|].
  - destruct (paren_arg q' 1) as [a b]. intros [= <- <- <-]. rewrite length_take. lia.
  - intros [= <- <- <-]. cbn. lia.
Qed.
Lemma sim_compound_loop T fuel n h l i off : holds_segs T h l →
  sim T (compound_loop direct d mc fuel n l i off) (compound_loop cached d mc' fuel n h i off).
Proof using Hmc.
  intros Hh. revert off. induction fuel as [|fuel IH]; intros off; cbn [compound_loop]; [apply sim_fail|].
  apply sim_reading; [done|]. intros [|c q]; [apply sim_ret|]. apply sim_bind; [apply sim_lift|]. intros x. unfold part_at.
  repeat case_decide; [| | | |apply sim_ret].
  1,2: destruct (word 63 q) as [tok r]; apply sim_and; [apply sim_ret|apply IH].
  - destruct (match_attr x q) as [b r]. apply sim_and; [apply sim_ret|apply IH].
  - destruct (pseudo_at q) as [[pn pa] r] eqn:E. apply sim_and; [|apply IH]. apply sim_match_pseudo. by eapply pseudo_at_short.
Qed.
Lemma sim_match_compound T n h l i : holds_segs T h l → sim T (match_compound direct d mc n l i) (match_compound cached d mc' n h i).
Proof using Hmc.
  intros Hh. apply sim_bind; [apply sim_lift|]. intros x. destruct (bool_decide _); [|apply sim_ret].
  apply sim_reading; [done|]. intros [|c p]; [apply sim_ret|]. destruct (delim c); [by apply sim_compound_loop|].
  destruct (word 31 (c :: p)) as [tg r]. destruct (streq tg (str "*") || _); [by apply sim_compound_loop|apply sim_ret].
Qed.
Lemma sim_at_combinator T c n (f : nat → Md bool) f' : (∀ a, sim T (f a) (f' a)) → sim T (at_combinator direct d c n f) (at_combinator cached d c n f').
Proof.
  intros H. apply sim_bind; [apply sim_lift|]. intros x. repeat case_decide.
  - destruct (parent (lk x)); [apply H|apply sim_ret].
  - by apply sim_any_along.
  - apply sim_bind; [apply sim_lift|]. intros [p|]; [apply H|apply sim_ret].
  - apply sim_bind; [apply sim_lift|]. intros p. by apply sim_any_along.
  - apply sim_ret.
Qed.
Lemma sim_match_at T n h l i : holds_segs T h l → sim T (match_at direct d mc n l i) (match_at cached d mc' n h i).
Proof using Hmc.
  intros Hh. revert n. induction i as [|i IH]; intros n; cbn [match_at]; apply sim_and; try (by apply sim_match_compound); [apply sim_ret|].
  intros log a log' E.
  pose proof (λ c, sim_at_combinator T c n _ _ IH) as Hfg.
  destruct (Hfg _ _ _ _ E) as [Hl H]. split; [done|]. intros t0 t Ht HT Hr.
  cbn [sseg cached]. rewrite (holds_segs_read _ _ _ (holds_segs_grows _ _ _ _ HT Hh)). apply (H t0 t Ht HT Hr).
Qed.
End level.

Lemma sim_match_complex fuel : mc_sim (match_complex direct d fuel) (match_complex cached d fuel).
Proof.
  induction fuel as [|fuel IH]; intros T n [|c s] Hs; cbn [match_complex]; try apply sim_ret; [apply sim_fail|].
  generalize dependent (c :: s). clear c s. intros s Hs log a log' E. cbn [sopen direct] in E.
  assert (∀ T h, holds_segs T h (parse_complex s) → ∀ i, sim T (match_at direct d (match_complex direct d fuel) n (parse_complex s) i)
            (match_at cached d (match_complex cached d fuel) n h i)) as Hat by (intros; by apply sim_match_at).
  assert (∃ l, log' = (log ++ [s]) ++ l) as [l ->].
  { destruct (length (parse_complex s)) as [|i]; [injection E as <- <-; exists []; by rewrite app_nil_r|].
    exact (proj1 (Hat T (inr (parse_complex s)) eq_refl i _ _ _ E)). }
  split; [exists ([s] ++ l); by rewrite app_assoc|]. intros t0 t Ht HT Hr.
  destruct (cs_get_tracks _ _ _ s Ht) as (o&t'&Eo&Ht'&G&Hh); [by eapply roomy_app|done|].
  set (h := match o with Some i => inl i | None => inr (parse_complex s) end) in *.
  assert (sopen cached s t = (h, length (parse_complex s), t')) as ->.
  { cbn [sopen cached]. rewrite Eo. unfold h in Hh. destruct o as [i|]; [|done]. cbn [slot_segs]. destruct Hh as (c&Hc&<-). by rewrite Hc. }
  destruct (length (parse_complex s)) as [|i].
  - injection E as <- E. exists t'. split; [done|]. rewrite <- E. by split.
  - destruct (proj2 (Hat t' h Hh i _ _ _ E) t0 t' Ht') as (t2&E2&Ht2&G2); [done|done|]. exists t2. split; [done|]. split; [done|]. by transitivity t'.
Qed.

Lemma sim_walk_collect T fuel n sel out max : (length sel <= CS_KEY)%nat →
  sim T (walk_collect direct d fuel n sel out max) (walk_collect cached d fuel n sel out max).
Proof.
  intros Hs. revert n out. induction fuel as [|fuel IH]; intros n out; cbn [walk_collect]; [apply sim_fail|].
  apply sim_bind; [by apply sim_match_complex|]. intros b. cbv zeta. apply sim_bind; [apply sim_lift|]. intros x.
  apply sim_bind; [apply sim_lift|]. intros l. match goal with |- context [ret direct ?o] => generalize o end. intros out'.
  assert (sim T (ret direct out') (ret cached out')) as Hr by apply sim_ret. revert Hr.
  generalize (ret direct out') (ret cached out'). induction l as [|c l IHl]; intros r r' Hr; cbn [fold_left]; [done|].
  apply IHl. apply sim_bind; [done|]. intros o. apply IH.
Qed.
Lemma until_comma_short p dep t r : until_comma p dep = (t, r) → (length t <= length p)%nat ∧ (length r <= length p)%nat.
Proof.
  revert dep t r. induction p as [|c p IH]; intros dep t r; cbn [until_comma]; [intros [= <- <-]; cbn; lia|].
  destruct (_ && _); [intros [= <- <-]; cbn; lia|]. destruct (until_comma p _) as [t' r'] eqn:E. intros [= <- <-]. apply IH in E. cbn. lia.
Qed.
Lemma rtrim_short s : (length (rtrim s) <= length s)%nat.
Proof. unfold rtrim. rewrite length_rev. pose proof (length_skip c_isspace (rev s)). rewrite length_rev in *. lia. Qed.
Lemma sim_query_loop T fuel root p out max : (length p <= CS_KEY)%nat →
  sim T (query_loop direct d fuel root p out max) (query_loop cached d fuel root p out max).
Proof.
  revert p out. induction fuel as [|fuel IH]; intros p out Hp; cbn [query_loop]; [apply sim_ret|].
  destruct (bool_decide _); [|apply sim_ret]. pose proof (length_skip c_isspace p) as Hl.
  destruct (skip c_isspace p) as [|c q]; [apply sim_ret|]. destruct (until_comma (c :: q) 0) as [tok r] eqn:E.
  apply until_comma_short in E as [Ht Hr]. pose proof (rtrim_short tok) as Hrt. destruct (rtrim tok) as [|e tok']; [apply IH; lia|].
  apply sim_bind; [apply sim_walk_collect; lia|]. intros o. apply IH. lia.
Qed.

Lemma sim_query T root sel max : (length sel <= CS_KEY)%nat →
  sim T (mini_dom_query_selector_all direct d root sel max) (mini_dom_query_selector_all cached d root sel max).
Proof.
  intros Hs. unfold mini_dom_query_selector_all. destruct sel as [|c s]; [apply sim_ret|]. apply sim_query_loop. rewrite length_take. lia.
Qed.
Lemma tracks_start t : coherent t → tracks t [] t.
Proof. intros Hc. split; [done|done|by intros s ?%elem_of_nil|cbn; lia]. Qed.

(** C18. A query of at most 159 bytes gives the same through the cache as without it
    while the selectors it splits fit under the limit at which the cache is
    cleared, and leaves the cache with every slot holding the parts of its key. *)
Theorem selector_cache_transparent root sel max t l log : coherent t → (length sel <= CS_KEY)%nat →
  mini_dom_query_selector_all direct d root sel max [] = Ok (l, log) →
  (g_cs_n t + size (list_to_set log : gset bytes) <= 1536)%nat →
  ∃ t', mini_dom_query_selector_all cached d root sel max t = Ok (l, t') ∧ coherent t' ∧ g_cs t ⊆ g_cs t'
        ∧ (g_cs_n t' <= g_cs_n t + size (list_to_set log : gset bytes))%nat.
Proof.
  intros Hc Hs E Hr. destruct (proj2 (sim_query t root sel max Hs _ _ _ E) t t (tracks_start _ Hc)) as (t'&E'&[H1 H2 _ H4]&_); [done|done|by exists t'].
Qed.
End sims.

Definition nested_sel : bytes := str ".r > p:not(:is(.a, .x))".
Lemma selector_cache_transparent_witness : ∃ log t',
  mini_dom_query_selector_all direct page 1 nested_sel 64 [] = Ok ([8]%nat, log) ∧ (size (list_to_set log : gset bytes) = 4)%nat
  ∧ mini_dom_query_selector_all cached page 1 nested_sel 64 empty_table = Ok ([8]%nat, t') ∧ coherent t'.
Proof.
  destruct (mini_dom_query_selector_all direct page 1 nested_sel 64 []) as [[l log]|] eqn:E; [|exfalso; vm_compute in E; discriminate E].
  destruct (selector_cache_transparent page 1 nested_sel 64 empty_table l log) as (t'&E'&Hc&_);
    [intros i c H; cbn [g_cs empty_table] in H; by rewrite lookup_empty in H|apply Nat.leb_le; reflexivity|exact E|apply Nat.leb_le; vm_compute in E; injection E as _ <-; vm_compute; reflexivity|].
  exists log, t'. vm_compute in E. injection E as <- <-. split; [reflexivity|]. split; [vm_compute; reflexivity|]. by split.
Defined.

(** The table is cleared by a nested selector whose probe chain is full: the
    selector under way reads a cleared slot and does not match, as it should. *)
Definition crowded : cs_table := Tbl (list_to_map ((λ i, (cs_slot (cs_hash (str ".a")) i, compile (str "x"))) <$> seq 0 8)) 1537.
Definition matched (t : cs_table) (n : nat) (sel : string) : option bool :=
  match mini_dom_matches_selector cached page n (str sel) t with Ok (b, _) => Some b | UB => None end.
Example cleared_in_a_match : matched empty_table 6 "div > p:is(.a)" = Some true ∧ matched crowded 6 "div > p:is(.a)" = Some false.
Proof. vm_compute. done. Qed.
