(* ===== verification/SelectorSem.v ===== *)
(** * Selectors mean what CSS says

    A syntax of selectors with its relation to the nodes of a tree, and the theorem
    that a query for the printed selector finds the nodes that are in the relation,
    in document order. *)

From stdpp Require Import gmap list.
From S2P Require Import Prelude CString Dom Selectors.
Open Scope Z_scope.

(** ** Computations that decide a proposition *)

Definition decides (m : M direct bool) (P : Prop) : Prop := ∀ log, ∃ b log', m log = Ok (b, log') ∧ (b = true ↔ P).

Lemma decides_ret b P : (b = true ↔ P) → decides (ret direct b) P.
Proof. intros H log. by exists b, log. Qed.
Lemma decides_ext m P Q : (P ↔ Q) → decides m P → decides m Q.
Proof. intros H Hm log. destruct (Hm log) as (b&l&E&Hb). exists b, l. split; [done|]. by rewrite Hb. Qed.
Lemma decides_lift b (m : res bool) P : m = Ok b → (b = true ↔ P) → decides (lift direct m) P.
Proof. intros -> H log. by exists b, log. Qed.
Lemma bind_lift {A B} (a : A) m (k : A → M direct B) : m = Ok a → bind direct (lift direct m) k = k a.
Proof. by intros ->. Qed.
Lemma decides_bind_lift {A} (a : A) m k P : m = Ok a → decides (k a) P → decides (bind direct (lift direct m) k) P.
Proof. intros E. unfold decides, bind, lift. by rewrite E. Qed.
Lemma decides_or a b P Q : decides a P → (¬ P → decides b Q) → decides (orM direct a b) (P ∨ Q).
Proof.
  intros Ha Hb log. unfold orM, bind. destruct (Ha log) as ([]&l&->&H).
  - exists true, l. split; [done|]. split; [intros _; left; by apply H|done].
  - assert (¬ P) as Hn by (intros ?%H; done). destruct (Hb Hn l) as (b'&l'&->&H'). exists b', l'. split; [done|]. rewrite H'. split; [by right|by intros [?|?]].
Qed.
Lemma decides_and a b P Q : decides a P → (P → decides b Q) → decides (andM direct a b) (P ∧ Q).
Proof.
  intros Ha Hb log. unfold andM, bind. destruct (Ha log) as ([]&l&->&H).
  - assert P as HP by by apply H. destruct (Hb HP l) as (b'&l'&->&H'). exists b', l'. split; [done|]. rewrite H'. by split; [|intros [_ ?]].
  - exists false, l. split; [done|]. split; [done|]. intros [?%H _]. done.
Qed.
Lemma decides_not m P : decides m P → decides (bind direct m (λ b, ret direct (negb b))) (¬ P).
Proof.
  intros H log. unfold bind. destruct (H log) as (b&l&->&Hb). exists (negb b), l. split; [done|]. rewrite <- Hb. destruct b; naive_solver.
Qed.
Lemma decides_any_of {A} (f : A → M direct bool) (P : A → Prop) l : (∀ a, a ∈ l → decides (f a) (P a)) → decides (any_of direct f l) (∃ a, a ∈ l ∧ P a).
Proof.
  induction l as [|a l IH]; intros H; cbn [any_of].
  - apply decides_ret. split; [done|]. by intros (a&?%elem_of_nil&_).
  - eapply decides_ext; [|apply (decides_or _ _ (P a) (∃ b, b ∈ l ∧ P b)); [apply H; left|intros _; apply IH; intros b Hb; apply H; by right]].
    split; [intros [Ha|(b&Hb&?)]; [exists a; split; [left|done]|exists b; split; [by right|done]]|].
    intros (b&[->|Hb]%elem_of_cons&HP); [by left|right; by exists b].
Qed.
(** Along a list of nodes. *)
Lemma decides_any_along (f : nat → M direct bool) (P : nat → Prop) step l fuel c : (length l < fuel)%nat → head l = c →
  (∀ i n, l !! i = Some n → step n = Ok (l !! S i)) → (∀ n, n ∈ l → decides (f n) (P n)) →
  decides (any_along direct fuel step f c) (∃ n, n ∈ l ∧ P n).
Proof.
  intros Hl <-. revert fuel Hl. induction l as [|n l IH]; intros fuel Hl Hs Hf; destruct fuel as [|fuel]; cbn [length] in Hl; try lia; cbn [any_along head].
  - apply decides_ret. split; [done|]. by intros (a&?%elem_of_nil&_).
  - eapply decides_ext; [|apply (decides_or _ _ (P n) (∃ b, b ∈ l ∧ P b)); [apply Hf; left|intros _]].
    + split; [intros [Ha|(b&Hb&?)]; [exists n; split; [left|done]|exists b; split; [by right|done]]|].
      intros (b&[->|Hb]%elem_of_cons&HP); [by left|right; by exists b].
    + assert (step n = Ok (head l)) as E by (rewrite (Hs 0%nat n eq_refl); by rewrite head_lookup).
      eapply decides_bind_lift; [exact E|]. apply IH; [lia| |].
      * intros i m Hi. apply (Hs (S i) m Hi).
      * intros m Hm. apply Hf. by right.
Qed.

(** ** Syntax

    [A] is the type of the selectors that arguments hold. *)

Inductive relative := Inside | Child | Next | Later.
#[export] Instance relative_eq_dec : EqDecision relative.
Proof. solve_decision. Defined.
Inductive named := FirstChild | LastChild | OnlyChild | FirstOfType | LastOfType | OnlyOfType | Empty | Hover | Active | Focus | Checked | Required.
Inductive attr_op := Equal | Word | Prefix | Suffix | Within | Dash.
Inductive part (A : Type) :=
| PClass (c : bytes) | PId (i : bytes) | PHas (k : bytes) | PAttr (k : bytes) (o : attr_op) (v : bytes)
| PNamed (p : named) | PNth (from_end of_type : bool) (a b : Z) | PNot (l : list A) | PIs (l : list A) | PRel (r : relative) (s : A).
Arguments PClass {A} c. Arguments PId {A} i. Arguments PHas {A} k. Arguments PAttr {A} k o v. Arguments PNamed {A} p.
Arguments PNth {A} from_end of_type a b. Arguments PNot {A} l. Arguments PIs {A} l. Arguments PRel {A} r s.
(** An element name, the star or neither, and the rest. *)
Record compound (A : Type) := Cmp { ctag : option (option bytes); cparts : list (part A) }.
Arguments Cmp {A} ctag cparts. Arguments ctag {A} c. Arguments cparts {A} c.
(** From left to right, with the combinator before each compound. *)
Definition complex (A : Type) : Type := list (relative * compound A).

Definition named_text (p : named) : string :=
  match p with
  | FirstChild => "first-child" | LastChild => "last-child" | OnlyChild => "only-child" | FirstOfType => "first-of-type"
  | LastOfType => "last-of-type" | OnlyOfType => "only-of-type" | Empty => "empty" | Hover => "hover" | Active => "active"
  | Focus => "focus" | Checked => "checked" | Required => "required"
  end.
Definition nth_text (from_end of_type : bool) : string :=
  match from_end, of_type with
  | false, false => "nth-child" | true, false => "nth-last-child" | false, true => "nth-of-type" | true, true => "nth-last-of-type"
  end.
Definition op_text (o : attr_op) : string :=
  match o with Equal => "=" | Word => "~=" | Prefix => "^=" | Suffix => "$=" | Within => "*=" | Dash => "|=" end.
Definition relative_code (r : relative) : Z := match r with Inside => 32 | Child => 62 | Next => 43 | Later => 126 end.
Definition lower (s : bytes) : bytes := c_tolower <$> s.

(** ** Siblings *)

Section tree.
Context (d : dom) (K : nat → list nat) (HL : linked d K) (HA : acyclic d).
(** A node that is no child has no siblings. *)
Context (HF : ∀ n x, nodes d !! n = Some x → (∀ p, n ∉ K p) → prev_sibling (lk x) = None ∧ next_sibling (lk x) = None).

(** [n] stands among the children of [p]. *)
Definition placed (p : nat) (before : list nat) (n : nat) (after : list nat) : Prop := K p = before ++ n :: after.
Lemma node_ok n x : nodes d !! n = Some x → node d n = Ok x.
Proof. unfold node. by intros ->. Qed.
Lemma placed_of n p : n ∈ K p → ∃ b a, placed p b n a.
Proof. intros (b&a&E)%list_elem_of_split. by exists b, a. Qed.
Lemma placed_lookup p b n a : placed p b n a → K p !! length b = Some n.
Proof. intros ->. by rewrite list_lookup_middle. Qed.
Lemma kids_fit p n : (n <= length (K p))%nat → (n < rounds d)%nat.
Proof using HL.
  intros H. assert (length (K p) < rounds d)%nat; [|lia]. apply nodup_size; [apply (lk_nodup _ _ HL)|]. intros c Hc.
  destruct (kid_node _ _ HL _ _ Hc) as (y&?&_). by eexists.
Qed.

Lemma chain_next p b n a : placed p b n a → chain (rounds d) d next_sibling (head a) = Ok a.
Proof using HL.
  intros Hp. apply chain_spec; [|done|].
  - apply (kids_fit p). rewrite Hp, length_app. cbn. lia.
  - intros i c Hi. assert (K p !! (length b + S i)%nat = Some c) as Hc by (rewrite Hp, lookup_app_r by lia; by replace (length b + S i - length b)%nat with (S i) by lia).
    destruct (lk_kid _ _ HL _ _ _ Hc) as (x&Hx&_&_&E). exists x. split; [done|]. rewrite E, Hp, lookup_app_r by lia.
    by replace (S (length b + S i) - length b)%nat with (S (S i)) by lia.
Qed.
Lemma chain_prev p b n a : placed p b n a → chain (rounds d) d prev_sibling (last b) = Ok (reverse b).
Proof using HL.
  intros Hp. apply chain_spec.
  - apply (kids_fit p). rewrite Hp, length_app, length_reverse. lia.
  - by rewrite head_reverse.
  - intros i c Hi. pose proof (lookup_lt_Some _ _ _ Hi) as Hlt. rewrite length_reverse in Hlt.
    rewrite reverse_lookup in Hi by done.
    assert (K p !! (length b - S i)%nat = Some c) as Hc by (rewrite Hp; by apply lookup_app_l_Some).
    destruct (lk_kid _ _ HL _ _ _ Hc) as (x&Hx&_&E&_). exists x. split; [done|]. rewrite E, Hp. unfold pred_at.
    destruct (length b - S i)%nat as [|j] eqn:Ej.
    + symmetry. apply lookup_ge_None. rewrite length_reverse. lia.
    + rewrite lookup_app_l by lia. rewrite reverse_lookup by lia. f_equal. lia.
Qed.
Lemma placed_links p b n a : placed p b n a → ∃ x, nodes d !! n = Some x ∧ parent (lk x) = Some p ∧ prev_sibling (lk x) = last b ∧ next_sibling (lk x) = head a.
Proof using HL.
  intros Hp. destruct (lk_kid _ _ HL _ _ _ (placed_lookup _ _ _ _ Hp)) as (x&Hx&E1&E2&E3). exists x. split; [done|]. split; [done|]. split.
  - rewrite E2, Hp. unfold pred_at. destruct b as [|y b]; [done|]. cbn [length]. rewrite lookup_app_l by (cbn; lia). rewrite last_lookup. done.
  - rewrite E3, Hp, lookup_app_r by lia. replace (S (length b) - length b)%nat with 1%nat by lia. cbn. by rewrite head_lookup.
Qed.
Lemma next_elem_placed p b n a : placed p b n a → next_elem_sibling d n = Ok (find (is_element d) a).
Proof using HL.
  intros Hp. destruct (placed_links _ _ _ _ Hp) as (x&Hx&_&_&E). unfold next_elem_sibling. rewrite (node_ok _ _ Hx). cbn [res_bind].
  rewrite E. by apply seek_chain, (chain_next p b n).
Qed.
Lemma prev_elem_placed p b n a : placed p b n a → prev_elem_sibling d n = Ok (find (is_element d) (reverse b)).
Proof using HL.
  intros Hp. destruct (placed_links _ _ _ _ Hp) as (x&Hx&_&E&_). unfold prev_elem_sibling. rewrite (node_ok _ _ Hx). cbn [res_bind].
  rewrite E. by apply seek_chain, (chain_prev p b n a).
Qed.

(** The siblings before and after a node; a node that is no child has none. *)
Definition stands (n : nat) (b a : list nat) : Prop := (∃ p, placed p b n a) ∨ ((∀ p, n ∉ K p) ∧ b = [] ∧ a = []).
Lemma stands_exists n : is_Some (nodes d !! n) → ∃ b a, stands n b a.
Proof using HL.
  intros [x Hx]. destruct (parent (lk x)) as [p|] eqn:Ep.
  - destruct (decide (n ∈ K p)) as [Hin|Hin]; [destruct (placed_of _ _ Hin) as (b&a&?); exists b, a; left; by exists p|].
    exists [], []. right. split; [|done]. intros r Hr. destruct (kid_node _ _ HL _ _ Hr) as (y&Hy&Ey). congruence.
  - exists [], []. right. split; [|done]. intros r Hr. destruct (kid_node _ _ HL _ _ Hr) as (y&Hy&Ey). congruence.
Qed.
Lemma seek_none ok : seek (rounds d) d next_sibling ok None = Ok None.
Proof. done. Qed.
Definition side (from_end : bool) (b a : list nat) : list nat := if from_end then a else reverse b.
Lemma elem_next_stands e n b a : is_Some (nodes d !! n) → stands n b a → elem_next d e n = Ok (find (is_element d) (side e b a)).
Proof using HL HF.
  intros [x Hx] [[p Hp]|(Hn&->&->)].
  - destruct e; cbn [elem_next side]; [by eapply next_elem_placed|by eapply prev_elem_placed].
  - destruct (HF _ _ Hx Hn) as [E1 E2]. destruct e; cbn [elem_next side]; unfold next_elem_sibling, prev_elem_sibling; rewrite (node_ok _ _ Hx); cbn [res_bind];
      rewrite ?E1, ?E2; done.
Qed.
Lemma find_split (f : nat → bool) l : match find f l with
  | Some s => ∃ l1 l2, l = l1 ++ s :: l2 ∧ f s = true ∧ List.filter f l = s :: List.filter f l2 ∧ List.filter f l1 = []
  | None => List.filter f l = []
  end.
Proof.
  induction l as [|x l IH]; [done|]. cbn [find List.filter]. destruct (f x) eqn:E.
  - exists [], l. done.
  - destruct (find f l) as [s|]; [|done]. destruct IH as (l1&l2&->&Hs&HE&H1). exists (x :: l1), l2. cbn. by rewrite E.
Qed.
Lemma filter_split (f : nat → bool) k l1 m l2 : List.filter f k = l1 ++ m :: l2 → ∃ k1 k2, k = k1 ++ m :: k2 ∧ List.filter f k2 = l2.
Proof.
  revert l1. induction k as [|y k IH]; intros l1 El; [by destruct l1|]. cbn [List.filter] in El. destruct (f y); [destruct l1 as [|z l1]|].
  - injection El as -> <-. by exists [], k.
  - injection El as -> El. destruct (IH _ El) as (k1&k2&->&E). by exists (z :: k1), k2.
  - destruct (IH _ El) as (k1&k2&->&E). by exists (y :: k1), k2.
Qed.
Lemma stands_some n b a : stands n b a → is_Some (nodes d !! n) → ∀ m, m ∈ b ∨ m ∈ a → is_Some (nodes d !! m).
Proof using HL.
  intros [[p Hp]|(_&->&->)] _ m Hm; [|by destruct Hm as [?%elem_of_nil|?%elem_of_nil]].
  assert (m ∈ K p) as Hin by (rewrite Hp, elem_of_app, elem_of_cons; tauto). destruct (kid_node _ _ HL _ _ Hin) as (y&?&_). by eexists.
Qed.
(** Stepping to a sibling. *)
Lemma stands_step e n b a l1 s l2 : stands n b a → side e b a = l1 ++ s :: l2 → ∃ b' a', stands s b' a' ∧ side e b' a' = l2.
Proof.
  intros [[p Hp]|(_&->&->)] Es; [|destruct e, l1; discriminate Es]. destruct e; cbn [side] in Es |- *.
  - exists (b ++ n :: l1), l2. split; [|done]. left. exists p. unfold placed in Hp |- *. by rewrite Hp, Es, <- app_assoc.
  - exists (reverse l2), (reverse l1 ++ n :: a). rewrite reverse_involutive. split; [|done]. left. exists p. unfold placed in Hp |- *. rewrite Hp.
    apply (f_equal reverse) in Es. rewrite reverse_involutive, reverse_app, reverse_cons in Es. rewrite Es. by rewrite <- !app_assoc.
Qed.
Lemma elems_stands e fuel n b a : is_Some (nodes d !! n) → stands n b a → (length (side e b a) < fuel)%nat →
  elems fuel (elem_next d e) n = Ok (List.filter (is_element d) (side e b a)).
Proof using HL HF.
  revert n b a. induction fuel as [|fuel IH]; intros n b a Hn Hst Hl; [lia|]. cbn [elems].
  rewrite (elem_next_stands _ _ _ _ Hn Hst). cbn [res_bind]. pose proof (find_split (is_element d) (side e b a)) as Hf.
  destruct (find (is_element d) (side e b a)) as [s|]; [|by rewrite Hf]. destruct Hf as (l1&l2&El&Hs&EF&_).
  destruct (stands_step _ _ _ _ _ _ _ Hst El) as (b'&a'&Hst'&E'). rewrite EF, <- E'.
  rewrite (IH s b' a'); [done| |done|].
  - unfold is_element in Hs. destruct (nodes d !! s) as [y|] eqn:Ey; [by eexists|done].
  - rewrite E'. rewrite El, length_app in Hl. cbn in Hl. lia.
Qed.
Lemma stands_fit e n b a : stands n b a → (length (side e b a) < rounds d)%nat.
Proof using HL.
  intros [[p Hp]|(_&->&->)].
  - apply (kids_fit p). rewrite Hp, length_app. destruct e; cbn [side]; rewrite ?length_reverse; cbn; lia.
  - destruct e; cbn; unfold rounds; lia.
Qed.
Lemma elems_run e n b a : is_Some (nodes d !! n) → stands n b a → elems (rounds d) (elem_next d e) n = Ok (List.filter (is_element d) (side e b a)).
Proof using HL HF. intros Hn Hst. apply (elems_stands _ _ _ _ _ Hn Hst). by eapply stands_fit. Qed.
(** Along the element siblings. *)
Lemma decides_along_elems (f : nat → M direct bool) (P : nat → Prop) e n b a : is_Some (nodes d !! n) → stands n b a → (∀ m, is_Some (nodes d !! m) → decides (f m) (P m)) →
  decides (any_along direct (rounds d) (elem_next d e) f (find (is_element d) (side e b a))) (∃ m, m ∈ side e b a ∧ is_element d m = true ∧ P m).
Proof using HL HF.
  intros Hn Hst Hf. set (l := List.filter (is_element d) (side e b a)).
  assert (∀ m, m ∈ l ↔ m ∈ side e b a ∧ is_element d m = true) as Hl by (intros m; unfold l; rewrite !list_elem_of_In; apply filter_In).
  eapply decides_ext; [|apply (decides_any_along f P _ l)].
  - split; [intros (m&[? ?]%Hl&?); by exists m|intros (m&?&?&?); exists m; split; [by apply Hl|done]].
  - unfold l. pose proof (filter_length_le (is_element d) (side e b a)). pose proof (stands_fit e _ _ _ Hst). lia.
  - pose proof (find_split (is_element d) (side e b a)) as Hs. unfold l. destruct (find _ _) as [s|]; [by destruct Hs as (?&?&_&_&->&_)|by rewrite Hs].
  - intros i m Hm. assert (∃ l1 l2, l = l1 ++ m :: l2 ∧ length l1 = i) as (l1&l2&El&<-).
    { exists (take i l), (drop (S i) l). split; [symmetry; by apply take_drop_middle|]. rewrite length_take. apply lookup_lt_Some in Hm. lia. }
    assert (∃ b' a' , stands m b' a' ∧ List.filter (is_element d) (side e b' a') = l2) as (b'&a'&Hst'&E2).
    { destruct (filter_split _ _ _ _ _ El) as (k1&k2&Ek&<-). destruct (stands_step _ _ _ _ _ _ _ Hst Ek) as (b'&a'&Hst'&<-). by exists b', a'. }
    assert (is_Some (nodes d !! m)) as Hm' by (assert (m ∈ l) as [_ He]%Hl by (rewrite El, elem_of_app, elem_of_cons; tauto); unfold is_element in He; destruct (nodes d !! m); [by eexists|done]).
    rewrite (elem_next_stands _ _ _ _ Hm' Hst'). f_equal. rewrite El, lookup_app_r by lia. replace (S (length l1) - length l1)%nat with 1%nat by lia. cbn.
    pose proof (find_split (is_element d) (side e b' a')) as Hs. destruct (find _ _) as [s|]; [destruct Hs as (?&?&_&_&Es&_); rewrite Es in E2|rewrite Hs in E2]; by rewrite <- E2.
  - intros m [_ He]%Hl. apply Hf. unfold is_element in He. destruct (nodes d !! m); [by eexists|done].
Qed.

(** ** Pseudo-classes *)

Definition no_elem (l : list nat) : Prop := ∀ m, m ∈ l → is_element d m = false.
Definition no_same (tg : bytes) (l : list nat) : Prop := ∀ m, m ∈ l → is_element d m = true → same_tag d tg m = false.
Definition end_child (e : bool) (n : nat) : Prop := ∃ p b a, placed p b n a ∧ no_elem (side e b a).
Definition end_of_type (e : bool) (n : nat) : Prop :=
  ∃ p b a x tg, placed p b n a ∧ nodes d !! n = Some x ∧ tag x = Some tg ∧ no_same tg (side e b a).
Definition at_node (n : nat) (P : MiniNode → Prop) : Prop := ∃ x, nodes d !! n = Some x ∧ P x.
Definition named_sat (p : named) (n : nat) : Prop :=
  match p with
  | FirstChild => end_child false n | LastChild => end_child true n | OnlyChild => end_child false n ∧ end_child true n
  | FirstOfType => end_of_type false n | LastOfType => end_of_type true n | OnlyOfType => end_of_type false n ∧ end_of_type true n
  | Empty => K n = []
  | Hover => at_node n (λ x, state_hovered x ≠ 0) | Active => at_node n (λ x, state_active x ≠ 0) | Focus => at_node n (λ x, state_focused x ≠ 0)
  | Checked => at_node n (λ x, is_Some (get_attr x (str "checked")) ∨ is_Some (get_attr x (str "selected")))
  | Required => at_node n (λ x, is_Some (get_attr x (str "required")))
  end.
(** The position of [n] among its siblings, or among those of its name; 0 for a node with no name. *)
Definition position (e of_type : bool) (n : nat) (k : Z) : Prop :=
  ∃ b a x, stands n b a ∧ nodes d !! n = Some x ∧
    k = if of_type then match tag x with
                        | None => 0
                        | Some tg => 1 + Z.of_nat (length (List.filter (same_tag d tg) (List.filter (is_element d) (side e b a))))
                        end
        else 1 + Z.of_nat (length (List.filter (is_element d) (side e b a))).
Definition nth_sat (e of_type : bool) (a b : Z) (n : nat) : Prop := ∃ k i, position e of_type n k ∧ 0 <= i ∧ k = a * i + b.

Lemma placed_unique p q b b' n a a' : placed p b n a → placed q b' n a' → p = q ∧ b = b' ∧ a = a'.
Proof using HL.
  intros H1 H2. assert (n ∈ K p) as I1 by (rewrite H1; apply elem_of_app; right; left). assert (n ∈ K q) as I2 by (rewrite H2; apply elem_of_app; right; left).
  assert (p = q) as -> by exact (kid_unique _ _ HL _ _ _ I1 I2). split; [done|]. pose proof (placed_lookup _ _ _ _ H1) as L1. pose proof (placed_lookup _ _ _ _ H2) as L2.
  assert (length b = length b') as El by exact (NoDup_lookup _ _ _ _ (lk_nodup _ _ HL q) L1 L2). unfold placed in H1, H2. rewrite H1 in H2.
  apply app_inj_1 in H2 as [-> [= ->]]; done.
Qed.
Lemma stands_placed p b n a b' a' : placed p b n a → stands n b' a' → b' = b ∧ a' = a.
Proof using HL.
  intros H1 [[q H2]|(H2&_)]; [by destruct (placed_unique _ _ _ _ _ _ _ H1 H2) as (_&->&->)|]. destruct (H2 p). rewrite H1. apply elem_of_app. right. left.
Qed.
Lemma stands_unique n b a b' a' : stands n b a → stands n b' a' → b' = b ∧ a' = a.
Proof using HL.
  intros H1 H2. destruct H1 as [[p H1]|(H1&->&->)]; [by eapply stands_placed|]. destruct H2 as [[q H2]|(_&->&->)]; [|done].
  destruct (H1 q). rewrite H2. apply elem_of_app. right. left.
Qed.
(** A node matched by selectors is an element or the document. *)
Definition plain_node (x : MiniNode) : Prop := ntype x = MN_ELEMENT_NODE ∨ ntype x = MN_DOCUMENT_NODE.
Lemma plain_placed n x p : nodes d !! n = Some x → plain_node x → parent (lk x) = Some p → ∃ b a, placed p b n a.
Proof using HL. intros Hx Ht Hp. apply placed_of. apply (lk_par _ _ HL _ _ _ Hx Hp). by destruct Ht as [-> | ->]. Qed.
Lemma no_parent_placed n x : nodes d !! n = Some x → parent (lk x) = None → ∀ p b a, ¬ placed p b n a.
Proof using HL. intros Hx Hn p b a Hp. destruct (placed_links _ _ _ _ Hp) as (y&Hy&E&_). congruence. Qed.
Lemma find_none_filter (f : nat → bool) l : bool_decide (find f l = None) = true ↔ List.filter f l = [].
Proof. rewrite bool_decide_eq_true. pose proof (find_split f l) as H. destruct (find f l) as [s|]; [|done]. destruct H as (?&?&_&_&->&_). done. Qed.
Lemma filter_nil_all (f : nat → bool) l : List.filter f l = [] ↔ ∀ m, m ∈ l → f m = false.
Proof.
  induction l as [|x l IH]; cbn [List.filter]; [split; [by intros _ m ?%elem_of_nil|done]|]. destruct (f x) eqn:E.
  - split; [done|]. intros H. rewrite (H x) in E by left. done.
  - rewrite IH. split; [intros H m [->|Hm]%elem_of_cons; [done|by apply H]|intros H m Hm; apply H; by right].
Qed.
Lemma end_child_spec e n x : nodes d !! n = Some x → plain_node x → ∃ b, is_end_child d e n = Ok b ∧ (b = true ↔ end_child e n).
Proof using HL HF.
  intros Hx Ht. unfold is_end_child. rewrite (node_ok _ _ Hx). cbn [res_bind]. destruct (parent (lk x)) as [p|] eqn:Ep.
  - destruct (plain_placed _ _ _ Hx Ht Ep) as (bf&af&Hp). rewrite (elem_next_stands e n bf af); [|by eexists|left; by exists p]. cbn [res_bind].
    eexists. split; [done|]. rewrite find_none_filter, filter_nil_all. split; [intros H; by exists p, bf, af|].
    intros (q&b'&a'&Hq&H). destruct (placed_unique _ _ _ _ _ _ _ Hp Hq) as (_&<-&<-). exact H.
  - exists false. split; [done|]. split; [done|]. intros (q&b'&a'&Hq&_). by destruct (no_parent_placed _ _ Hx Ep _ _ _ Hq).
Qed.
Lemma end_of_type_spec e n x : nodes d !! n = Some x → plain_node x → ∃ b, is_end_of_type d e n = Ok b ∧ (b = true ↔ end_of_type e n).
Proof using HL HF.
  intros Hx Ht. unfold is_end_of_type. rewrite (node_ok _ _ Hx). cbn [res_bind]. destruct (parent (lk x)) as [p|] eqn:Ep.
  - destruct (tag x) as [tg|] eqn:Etg.
    + destruct (plain_placed _ _ _ Hx Ht Ep) as (bf&af&Hp). rewrite (elems_run e n bf af); [|by eexists|left; by exists p]. cbn [res_bind].
      eexists. split; [done|]. rewrite negb_true_iff, <- not_true_iff_false, existsb_exists. split.
      * intros H. exists p, bf, af, x, tg. split_and!; [done..|]. intros m Hm He. apply not_true_iff_false. intros Hs. apply H. exists m. split; [|done].
        apply filter_In. split; [by apply list_elem_of_In|done].
      * intros (q&b'&a'&x'&tg'&Hq&Hx'&Htg'&H) (m&[Hm He]%filter_In&Hs). assert (tg' = tg) as -> by congruence.
        destruct (placed_unique _ _ _ _ _ _ _ Hp Hq) as (_&<-&<-). rewrite (H m) in Hs; [done|by apply list_elem_of_In|done].
    + exists false. split; [done|]. split; [done|]. intros (q&b'&a'&x'&tg'&Hq&Hx'&Htg'&_). congruence.
  - exists false. split; [done|]. split; [done|]. intros (q&b'&a'&x'&tg'&Hq&_). by destruct (no_parent_placed _ _ Hx Ep _ _ _ Hq).
Qed.

(** ** An+B *)

Lemma nth_test_spec idx a b : 0 <= idx < 2 ^ 30 → - 2 ^ 30 <= a < 2 ^ 30 → - 2 ^ 30 <= b < 2 ^ 30 →
  ∃ r, nth_test idx a b = Ok r ∧ (r = true ↔ ∃ i, 0 <= i ∧ idx = a * i + b).
Proof.
  intros Hi Ha Hb. unfold nth_test. case_decide as H0.
  - eexists. split; [done|]. rewrite bool_decide_eq_true. split; [intros ->; exists 0; lia|]. intros (i&_&->). lia.
  - cbv zeta. rewrite decide_True by lia. eexists. split; [done|]. pose proof (Z.quot_rem' (idx - b) a) as E.
    case_decide as Hr.
    + split; [done|]. intros (i&_&->). exfalso. apply Hr. replace (a * i + b - b) with (i * a) by lia. by apply Z.rem_mul.
    + rewrite bool_decide_eq_true. rewrite Hr in E. split; [intros Hq; exists (Z.quot (idx - b) a); lia|].
      intros (i&Hi0&->). replace (a * i + b - b) with (i * a) by lia. by rewrite Z.quot_mul.
Qed.
Context (HS : Z.of_nat (size (nodes d)) < 2 ^ 29).
Lemma position_range e ot n k : position e ot n k → 0 <= k < 2 ^ 30.
Proof using HL HS.
  intros (b&a&x&Hst&_&->). pose proof (stands_fit e _ _ _ Hst) as Hf. unfold rounds in Hf.
  pose proof (filter_length_le (is_element d) (side e b a)) as H1.
  assert (∀ tg, (length (List.filter (same_tag d tg) (List.filter (is_element d) (side e b a))) <= length (List.filter (is_element d) (side e b a)))%nat) as H2 by (intros; apply filter_length_le).
  destruct ot; [destruct (tag x) as [tg|]; [specialize (H2 tg)|]|]; lia.
Qed.
Lemma position_unique e ot n k k' : position e ot n k → position e ot n k' → k = k'.
Proof using HL.
  intros (b&a&x&Hst&Hx&->) (b'&a'&x'&Hst'&Hx'&->). assert (x' = x) as -> by congruence. by destruct (stands_unique _ _ _ _ _ Hst Hst') as [-> ->].
Qed.
Lemma position_run e (ot : bool) n : is_Some (nodes d !! n) → ∃ k, (if ot then elem_index_of_type d n e else elem_index d n e) = Ok k ∧ position e ot n k.
Proof using HL HF.
  intros Hn. destruct (stands_exists n Hn) as (b&a&Hst). destruct Hn as [x Hx]. assert (is_Some (nodes d !! n)) as Hn by by eexists.
  unfold elem_index_of_type, elem_index. rewrite (node_ok _ _ Hx), (elems_run e n b a Hn Hst). cbn [res_bind].
  destruct ot; [destruct (tag x) as [tg|] eqn:Et|]; (eexists; split; [done|]); exists b, a, x; rewrite ?Et; done.
Qed.
Lemma nth_pseudo_spec e (ot : bool) n arg a b : is_Some (nodes d !! n) → parse_anb arg = Some (a, b) → - 2 ^ 30 <= a < 2 ^ 30 → - 2 ^ 30 <= b < 2 ^ 30 →
  ∃ r, nth_pseudo (if ot then elem_index_of_type d n e else elem_index d n e) arg = Ok r ∧ (r = true ↔ nth_sat e ot a b n).
Proof using HL HF HS.
  intros Hn E Ha Hb. unfold nth_pseudo. rewrite E. destruct (position_run e ot n Hn) as (k&->&Hk). cbn [res_bind].
  destruct (nth_test_spec k a b (position_range _ _ _ _ Hk) Ha Hb) as (r&->&Hr). exists r. split; [done|]. rewrite Hr. unfold nth_sat. split.
  - intros (i&Hi&->). by exists (a * i + b), i.
  - intros (k'&i&Hk'&Hi&->). exists i. by rewrite (position_unique _ _ _ _ _ Hk Hk').
Qed.
End tree.

(** ** Attributes and classes *)

(** Upper and lower case are not told apart. *)
Definition op_sat (o : attr_op) (g v : bytes) : Prop :=
  match o with
  | Equal => lower g = lower v
  | Word => ∃ l w r, g = l ++ w ++ r ∧ lower w = lower v ∧ w ≠ [] ∧ Forall (λ c, c_isspace c = false) w
             ∧ (∀ c, last l = Some c → c_isspace c = true) ∧ (∀ c, head r = Some c → c_isspace c = true)
  | Prefix => ∃ r, lower g = lower v ++ r
  | Suffix => ∃ l, lower g = l ++ lower v
  | Within => ∃ l r, lower g = l ++ lower v ++ r
  | Dash => lower g = lower v ∨ ∃ r, lower g = lower v ++ 45 :: r
  end.
Definition op_code (o : attr_op) : Z := match o with Equal => 1 | Word => 2 | Prefix => 3 | Suffix => 4 | Within => 5 | Dash => 6 end.

Lemma lower_cons c s : lower (c :: s) = c_tolower c :: lower s.
Proof. done. Qed.
Lemma lower_app a b : lower (a ++ b) = lower a ++ lower b.
Proof. apply fmap_app. Qed.
Lemma length_lower s : length (lower s) = length s.
Proof. apply length_fmap. Qed.
Lemma ci_eq_true a b : ci_eq a b = true ↔ lower a = lower b.
Proof.
  unfold lower. revert b. induction a as [|x a IH]; intros [|y b]; cbn [ci_eq]; try done. rewrite !fmap_cons. case_decide as E.
  - rewrite IH. split; [intros ->; by rewrite E|by intros [= _ ?]].
  - split; [done|]. by intros [= ? _].
Qed.
Lemma ci_eq_n_prefix g v : ci_eq_n g v (length v) = true ↔ ∃ r, lower g = lower v ++ r.
Proof.
  unfold ci_eq_n, lower. rewrite bool_decide_eq_true, (take_ge v) by done. split.
  - intros E. exists (c_tolower <$> drop (length v) g). rewrite <- (take_drop (length v) g) at 1. rewrite fmap_app. by f_equal.
  - intros [r E]. change (map c_tolower) with (fmap (M := list) c_tolower). rewrite fmap_take, E, take_app_le by (by rewrite length_fmap).
    apply take_ge. by rewrite length_fmap.
Qed.
Lemma ci_contains_true g v : ci_contains g v = true ↔ ∃ l r, lower g = l ++ lower v ++ r.
Proof.
  unfold ci_contains. destruct v as [|c v]; [split; [by exists [], (lower g)|done]|]. set (v' := c :: v).
  induction g as [|x g IH]; cbn [ci_contains_from].
  - rewrite bool_decide_true by (cbn; lia). split; [done|]. intros (l&r&E). apply (f_equal length) in E. rewrite !length_app in E. unfold lower in E. rewrite !length_fmap in E. cbn in E. lia.
  - case_bool_decide as Hl.
    + split; [done|]. intros (l&r&E). apply (f_equal length) in E. rewrite !length_app in E. unfold lower in E. rewrite !length_fmap in E. lia.
    + rewrite orb_true_iff, ci_eq_n_prefix, IH. split.
      * intros [[r E]|(l&r&E)]; [by exists [], r|]. exists (c_tolower x :: l), r. by rewrite lower_cons, E.
      * intros ([|y l]&r&E); [left; by exists r|]. right. exists l, r. rewrite lower_cons in E. by injection E.
Qed.

(** The words of a value. *)
Definition word_in (g v : bytes) : Prop := op_sat Word g v.
Definition nonspace (c : Z) : bool := negb (c_isspace c).
Lemma scan_all f s : ∃ t r, scan f (length s) s = (t, r) ∧ s = t ++ r ∧ Forall (λ c, f c = true) t ∧ (∀ c, head r = Some c → f c = false).
Proof.
  induction s as [|c s IH]; cbn [scan length]; [by exists [], []|]. destruct (f c) eqn:E.
  - destruct IH as (t&r&->&->&Ht&Hr). exists (c :: t), r. split; [done|]. split; [done|]. split; [by constructor|done].
  - exists [], (c :: s). split; [done|]. split; [done|]. split; [done|]. by intros ? [= <-].
Qed.
Lemma word_split w1 r1 l w r : Forall (λ c, nonspace c = true) w1 → w1 ≠ [] → (∀ c, head r1 = Some c → c_isspace c = true) →
  w1 ++ r1 = l ++ w ++ r → w ≠ [] → Forall (λ c, c_isspace c = false) w → (∀ c, last l = Some c → c_isspace c = true) → (∀ c, head r = Some c → c_isspace c = true) →
  (l = [] ∧ w = w1) ∨ ∃ l', r1 = l' ++ w ++ r ∧ (∀ c, last l' = Some c → c_isspace c = true).
Proof.
  intros Hw1 Hn1 Hr1 E Hn Hw Hl Hr. destruct (decide (length l < length w1)%nat) as [Hlt|Hge].
  - destruct l as [|c l]; [left; split; [done|]|exfalso].
    + cbn in E. destruct (decide (length w1 = length w)) as [H|H]; [by apply app_inj_1 in E as [-> _]|exfalso].
      destruct (decide (length w < length w1)%nat).
      * destruct r as [|x r]; [apply (f_equal length) in E; rewrite !length_app in E; cbn in E; lia|].
        assert (w1 !! length w = Some x) as Hx by (rewrite <- (lookup_app_l w1 r1) by done; rewrite E, lookup_app_r, Nat.sub_diag by lia; done).
        apply (Forall_lookup_1 _ _ _ _ Hw1) in Hx. unfold nonspace in Hx. rewrite (Hr x eq_refl) in Hx. done.
      * destruct r1 as [|x r1]; [apply (f_equal length) in E; rewrite !length_app in E; cbn in E; lia|].
        assert (w !! length w1 = Some x) as Hx by (rewrite <- (lookup_app_l w r) by lia; rewrite <- E, lookup_app_r, Nat.sub_diag by lia; done).
        apply (Forall_lookup_1 _ _ _ _ Hw) in Hx. rewrite (Hr1 x eq_refl) in Hx. done.
    + destruct (last (c :: l)) as [x|] eqn:Ex; [|by apply last_None in Ex]. specialize (Hl x eq_refl).
      rewrite last_lookup in Ex. cbn [length pred] in Ex. assert (w1 !! length l = Some x) as Hx.
      { rewrite <- (lookup_app_l w1 r1) by (cbn in Hlt; lia). rewrite E, lookup_app_l by (cbn; lia). done. }
      apply (Forall_lookup_1 _ _ _ _ Hw1) in Hx. unfold nonspace in Hx. by rewrite Hl in Hx.
  - right. exists (drop (length w1) l). assert (r1 = drop (length w1) l ++ w ++ r) as ->.
    { apply (f_equal (drop (length w1))) in E. rewrite drop_app_length in E. rewrite E. rewrite drop_app_le by lia. done. }
    split; [done|]. intros c Hc. apply Hl. rewrite <- (take_drop (length w1) l). rewrite last_app. by rewrite Hc.
Qed.
Lemma word_skip g v : word_in (skip c_isspace g) v ↔ word_in g v.
Proof.
  destruct (skip_suffix c_isspace g) as (t&E&Ht). split.
  - intros (l&w&r&E2&Hv&Hn&Hw&Hl&Hr). exists (t ++ l), w, r. rewrite E, E2 at 1. split; [by rewrite <- app_assoc|]. split_and!; try done.
    intros c. rewrite last_app. destruct (last l) as [x|] eqn:El; [intros [= <-]; by apply Hl|]. intros [i Hi]%last_Some_elem_of%list_elem_of_lookup.
    exact (Forall_lookup_1 _ _ _ _ Ht Hi).
  - generalize dependent (skip c_isspace g). intros g' ->. intros (l&w&r&E2&Hv&Hn&Hw&Hl&Hr). revert l E2 Hl.
    induction Ht as [|c t Hc Ht IH]; intros l E2 Hl; [by exists l, w, r|]. destruct l as [|x l].
    + exfalso. destruct w as [|y w]; [done|]. cbn in E2. injection E2 as <- _. apply Forall_cons in Hw as [Hw _]. congruence.
    + cbn in E2. injection E2 as <- E2. apply (IH l E2). intros z Hz. apply Hl. destruct l; [done|exact Hz].
Qed.
Lemma class_loop_true fuel g v : (length g <= fuel)%nat → v ≠ [] → class_loop fuel g v = true ↔ word_in g v.
Proof.
  intros Hf Hv. revert g Hf. induction fuel as [|fuel IH]; intros g Hf.
  { destruct g; [|cbn in Hf; lia]. split; [done|]. intros (l&w&r&E&_&Hn&_). destruct l, w; done. }
  destruct g as [|c g]; [split; [done|]; intros (l&w&r&E&_&Hn&_); destruct l, w; done|].
  cbn [class_loop]. rewrite <- word_skip. pose proof (length_skip c_isspace (c :: g)) as Hl. pose proof (skip_stop c_isspace (c :: g)) as Hst.
  generalize dependent (skip c_isspace (c :: g)). intros p Hl Hst.
  destruct (scan_all nonspace p) as (t&r&Es&->&Ht&Hr). unfold nonspace in Es. rewrite Es.
  assert ((bool_decide (length v = length t) && ci_eq_n t v (length t) = true) ↔ lower t = lower v) as Hb.
  { rewrite andb_true_iff, bool_decide_eq_true. unfold ci_eq_n. rewrite bool_decide_eq_true. split.
    - intros [E1 E2]. rewrite <- E1 in E2. by rewrite !take_ge in E2 by lia.
    - intros E. pose proof (f_equal length E) as El. rewrite !length_lower in El. split; [done|]. rewrite !take_ge by lia. exact E. }
  assert (∀ c, head r = Some c → c_isspace c = true) as Hr' by (intros x Hx; specialize (Hr x Hx); unfold nonspace in Hr; by destruct (c_isspace x)).
  assert (Forall (λ c, c_isspace c = false) t) as Ht' by (eapply Forall_impl; [exact Ht|]; intros x; unfold nonspace; by destruct (c_isspace x)).
  destruct (bool_decide (length v = length t) && ci_eq_n t v (length t)) eqn:E.
  - assert (lower t = lower v) as Hv' by by apply Hb. split; [intros _|done]. exists [], t, r. split_and!; try done. intros ->. destruct v; done.
  - assert (lower t ≠ lower v) as Hne by (intros H%Hb; done). destruct t as [|x t].
    + cbn [app] in *. destruct r as [|x r]; [|specialize (Hr' x eq_refl); destruct Hst as [|Hst]; [done|cbn in Hst; congruence]].
      rewrite IH by (cbn; lia). done.
    + rewrite IH by (rewrite length_app in Hl; cbn in Hl, Hf; lia). split.
      * intros (l&w&r'&->&Ev&Hn&Hw&Hl'&?). exists (x :: t ++ l), w, r'. split; [cbn; by rewrite <- app_assoc|]. split_and!; try done. intros y.
        rewrite app_comm_cons, last_app. destruct (last l) as [z|] eqn:El; [by apply Hl'|]. apply last_None in El as ->.
        exfalso. destruct w as [|y' w]; [done|]. apply Forall_cons in Hw as [Hw _]. specialize (Hr' y' eq_refl). congruence.
      * intros (l&w&r'&E2&Ev&Hn&Hw&Hl'&Hr2). destruct (word_split (x :: t) r l w r' Ht ltac:(done) Hr' E2 Hn Hw Hl' Hr2) as [[-> ->]|(l2&->&Hl2)]; [done|].
        exists l2, w, r'. done.
Qed.
Lemma class_has_true g v : v ≠ [] → class_has g v = true ↔ word_in g v.
Proof. by apply class_loop_true. Qed.
Lemma op_code_spec o g v : v ≠ [] → attr_op_match (Some g) (op_code o) v = true ↔ op_sat o g v.
Proof.
  intros Hv. destruct o; cbn [op_code attr_op_match op_sat]; repeat (rewrite decide_False by lia); rewrite decide_True by lia.
  - apply ci_eq_true.
  - by apply class_has_true.
  - apply ci_eq_n_prefix.
  - rewrite andb_true_iff, bool_decide_eq_true. unfold ci_eq_n. rewrite bool_decide_eq_true. rewrite !(take_ge v) by done. split.
    + intros [Hl E]. rewrite take_ge in E by (rewrite length_drop; lia). exists (lower (take (length g - length v) g)).
      rewrite <- (take_drop (length g - length v) g) at 1. rewrite lower_app. by f_equal.
    + intros [l E]. pose proof (f_equal length E) as El. rewrite length_app, !length_lower in El. split; [lia|].
      rewrite take_ge by (rewrite length_drop; lia). change (lower (drop (length g - length v) g) = lower v). unfold lower in *.
      rewrite fmap_drop, E. replace (length g - length v)%nat with (length l) by lia. by rewrite drop_app_length.
  - apply ci_contains_true.
  - rewrite orb_true_iff, andb_true_iff, ci_eq_true, ci_eq_n_prefix, bool_decide_eq_true. split; intros [H|H]; try (by left); right.
    + destruct H as [[r E] Hd]. assert (lower (drop (length v) g) = r) as <-.
      { unfold lower in *. rewrite fmap_drop, E. replace (length v) with (length (c_tolower <$> v)) by apply length_lower. by rewrite drop_app_length. }
      destruct (drop (length v) g) as [|c t]; [done|]. cbn in Hd. subst c. by exists (lower t).
    + destruct H as [r E]. split; [by exists (45 :: r)|]. assert (lower (drop (length v) g) = 45 :: r) as E2.
      { unfold lower in *. rewrite fmap_drop, E. replace (length v) with (length (c_tolower <$> v)) by apply length_lower. by rewrite drop_app_length. }
      destruct (drop (length v) g) as [|c t]; [done|]. rewrite lower_cons in E2. injection E2 as E2 _. cbn. unfold c_tolower in E2.
      destruct (c_isupper c) eqn:Eu; [|done]. unfold c_isupper in Eu. apply bool_decide_eq_true in Eu. lia.
Qed.
