(* ===== verification/SelectorSpec.v ===== *)
(** * Queries implement the selectors

    The printed form of a selector is split, matched and searched for as the
    relation of SelectorSem says. *)

From stdpp Require Import gmap list.
From S2P Require Import Prelude CString Dom Selectors SelCache SelectorSem.
Open Scope Z_scope.

(** ** Printing *)

Section print.
Context {A : Type} (pr : A → bytes) (okA : A → Prop).

Fixpoint print_list (l : list A) : bytes :=
  match l with [] => [] | [a] => pr a | a :: l => pr a ++ 44 :: print_list l end.
Definition print_anb (a b : Z) : bytes := c_dec a ++ 110 :: (if decide (b < 0) then c_dec b else 43 :: c_dec b).
Definition pseudo (name : string) (arg : bytes) : bytes := 58 :: str name ++ 40 :: arg ++ [41].
Definition print_part (p : part A) : bytes :=
  match p with
  | PClass c => 46 :: c
  | PId i => 35 :: i
  | PHas k => 91 :: k ++ [93]
  | PAttr k o v => 91 :: k ++ str (op_text o) ++ 34 :: v ++ [34; 93]
  | PNamed p => 58 :: str (named_text p)
  | PNth e ot a b => pseudo (nth_text e ot) (print_anb a b)
  | PNot l => pseudo "not" (print_list l)
  | PIs l => pseudo "is" (print_list l)
  | PRel r s => pseudo "has" (relative_code r :: pr s)
  end.
Definition print_tag (t : option (option bytes)) : bytes := match t with None => [] | Some None => [42] | Some (Some t) => t end.
Definition print_compound (c : compound A) : bytes := print_tag (ctag c) ++ flat_map print_part (cparts c).
Definition print_relative (r : relative) : bytes := match r with Inside => [32] | _ => [32; relative_code r; 32] end.
Fixpoint print_rest (l : complex A) : bytes :=
  match l with [] => [] | (r, c) :: l => print_relative r ++ print_compound c ++ print_rest l end.
Definition print_complex (l : complex A) : bytes := match l with [] => [] | (_, c) :: l => print_compound c ++ print_rest l end.

(** What the printed form is well made of. *)
Definition idc (c : Z) : bool := c_isalnum c || bool_decide (c = 45 ∨ c = 95).
Definition ident (n : nat) (s : bytes) : Prop := s ≠ [] ∧ Forall (λ c, idc c = true) s ∧ (length s <= n)%nat.
Definition valc (c : Z) : bool := bool_decide (0 < c) && negb (bool_decide (c = 34 ∨ c = 40 ∨ c = 41 ∨ c = 91 ∨ c = 93)).
Definition ok_list (l : list A) : Prop := l ≠ [] ∧ Forall (λ a, okA a ∧ 44 ∉ pr a) l ∧ (length (print_list l) <= 127)%nat.
Definition ok_part (p : part A) : Prop :=
  match p with
  | PClass c | PId c | PHas c => ident 63 c
  | PAttr k _ v => ident 63 k ∧ v ≠ [] ∧ Forall (λ c, valc c = true) v ∧ (length v <= 127)%nat
  | PNamed _ => True
  | PNth _ _ a b => - 2 ^ 30 <= a < 2 ^ 30 ∧ - 2 ^ 30 <= b < 2 ^ 30
  | PNot l | PIs l => ok_list l
  | PRel r s => r ≠ Inside ∧ okA s ∧ (length (pr s) <= 126)%nat
  end.
Definition ok_tag (t : option (option bytes)) : Prop := match t with Some (Some t) => ident 31 t | _ => True end.
Definition ok_compound (c : compound A) : Prop :=
  ok_tag (ctag c) ∧ Forall ok_part (cparts c) ∧ (ctag c ≠ None ∨ cparts c ≠ []) ∧ (length (print_compound c) <= SEG)%nat.
(** A compound may follow white space when it does not begin with a bracket or a colon. *)
Definition plain_start (c : compound A) : Prop :=
  match ctag c, cparts c with Some _, _ => True | None, (PClass _ | PId _) :: _ => True | _, _ => False end.
Definition ok_step (x : relative * compound A) : Prop := ok_compound (snd x) ∧ (fst x = Inside → plain_start (snd x)).
Definition ok_complex (l : complex A) : Prop :=
  match l with [] => False | x :: r => ok_compound (snd x) ∧ Forall ok_step r ∧ (length l <= MAXSEG)%nat end.
End print.

(** ** Splitting what was printed *)

Definition put1 (l : bytes) (p : Split) : Split := Spl (segs p) (cur p ++ l) (comb p) false.
Lemma fold_app1 l b : (length b + length l <= SEG)%nat → fold_left app1 l b = b ++ l.
Proof.
  revert b. induction l as [|c l IH]; intros b H; cbn [fold_left]; [by rewrite app_nil_r|]. cbn [length] in H. unfold app1 at 2.
  rewrite decide_True by (unfold SEG in *; lia). rewrite IH by (rewrite length_app; cbn; lia). by rewrite <- app_assoc.
Qed.
Definition fits (l : bytes) (p : Split) : Prop := (length (cur p) + length l <= SEG)%nat.
Lemma put_seg_fits l p : fits l p → no_ws (put_seg l p) = put1 l p.
Proof. intros H. unfold put_seg, no_ws, put1. cbn. by rewrite fold_app1. Qed.
Lemma put1_put1 l1 l2 p : put1 l2 (put1 l1 p) = put1 (l1 ++ l2) p.
Proof. unfold put1. cbn. by rewrite app_assoc. Qed.

(** The loop takes [l] from the string and goes on. *)
Definition takes (l : bytes) (p p' : Split) : Prop := ∀ f r, (length (l ++ r) <= f)%nat → ∃ f', (length r <= f')%nat ∧ split_loop f (l ++ r) p = split_loop f' r p'.
Lemma takes_nil p : takes [] p p.
Proof. intros f r H. by exists f. Qed.
Lemma takes_app l1 l2 p1 p2 p3 : takes l1 p1 p2 → takes l2 p2 p3 → takes (l1 ++ l2) p1 p3.
Proof.
  intros H1 H2 f r H. rewrite <- app_assoc in H |- *. destruct (H1 _ _ H) as (f1&Hf1&->). destruct (H2 _ _ Hf1) as (f2&Hf2&->). by exists f2.
Qed.
Lemma takes_step c l p p' : (∀ r, split_step c (l ++ r) p = (p', r)) → takes (c :: l) p p'.
Proof.
  intros H f r Hf. destruct f as [|f]; [cbn in Hf; lia|]. exists f. cbn [app split_loop] in *. rewrite H. split; [|done].
  cbn in Hf. rewrite length_app in Hf. lia.
Qed.
Definition normal (c : Z) : bool := negb (bool_decide (c = 91 ∨ c = 58) || split_space c || combinator c).
Lemma takes_normal1 c p : normal c = true → saw_ws p = false → fits [c] p → takes [c] p (put1 [c] p).
Proof.
  intros Hc Hw Hf. apply (takes_step c []). intros r. unfold normal in Hc. apply negb_true_iff in Hc. rewrite !orb_false_iff in Hc.
  destruct Hc as [[Hb Hs] Hk]. apply bool_decide_eq_false in Hb. unfold split_step. rewrite !decide_False by tauto. rewrite Hs, Hk, Hw. cbn [andb app].
  rewrite <- put_seg_fits by done. unfold no_ws, put_seg. cbn. by rewrite Hw.
Qed.
Lemma fits_app l1 l2 p : fits (l1 ++ l2) p → fits l1 p ∧ fits l2 (put1 l1 p).
Proof. unfold fits, put1. cbn. rewrite !length_app. lia. Qed.
Lemma takes_normal l p : Forall (λ c, normal c = true) l → saw_ws p = false → fits l p → takes l p (put1 l p) .
Proof.
  intros Hl. revert p. induction Hl as [|c l Hc Hl IH]; intros p Hw Hf.
  - replace (put1 [] p) with p; [apply takes_nil|]. destruct p. unfold put1. cbn in *. by rewrite app_nil_r, Hw.
  - destruct (fits_app [c] l p Hf) as [H1 H2]. change (c :: l) with ([c] ++ l). rewrite <- put1_put1.
    eapply takes_app; [by apply takes_normal1|by apply IH].
Qed.
Lemma scan_stop f n t r : Forall (λ c, f c = true) t → (length t <= n)%nat → (∀ c, head r = Some c → f c = false) → scan f n (t ++ r) = (t, r).
Proof.
  revert n. induction t as [|c t IH]; intros n Ht Hn Hr.
  - destruct r as [|c r]; [by destruct n|]. specialize (Hr c eq_refl). destruct n; cbn [app scan]; [done|by rewrite Hr].
  - apply Forall_cons in Ht as [Hc Ht]. destruct n; [cbn in Hn; lia|]. cbn [app scan]. rewrite Hc, (IH n) by (done || (cbn in Hn; lia)). done.
Qed.
Lemma takes_bracket l p : Forall (λ c, not_close c = true) l → fits (91 :: l ++ [93]) p → takes (91 :: l ++ [93]) p (put1 (91 :: l ++ [93]) p).
Proof.
  intros Hl Hf. apply (takes_step 91 (l ++ [93])). intros r. unfold split_step. rewrite decide_True by done. rewrite <- app_assoc.
  rewrite scan_stop; [|done|rewrite length_app; lia|by intros c [= <-]]. cbn [app]. by rewrite put_seg_fits.
Qed.

(** ** Brackets are balanced *)

Definition ext (l : bytes) (x : bytes * bytes) : bytes * bytes := (l ++ fst x, snd x).
Lemma ext_app l1 l2 x : ext l1 (ext l2 x) = ext (l1 ++ l2) x.
Proof. unfold ext. cbn. by rewrite app_assoc. Qed.
(** Inside parentheses [l] is passed over; outside, [l] has no comma. *)
Definition neutral (l : bytes) : Prop := ∀ n r,
  paren_arg (l ++ r) (S n) = ext l (paren_arg r (S n)) ∧ paren_block (l ++ r) (S n) = ext l (paren_block r (S n))
  ∧ until_comma (l ++ r) (S n) = ext l (until_comma r (S n)).
Definition no_comma (l : bytes) : Prop := ∀ r, until_comma (l ++ r) 0 = ext l (until_comma r 0).
Lemma ext_nil x : ext [] x = x.
Proof. by destruct x. Qed.
Lemma neutral_nil : neutral [].
Proof. intros n r. cbn [app]. by rewrite !ext_nil. Qed.
Lemma neutral_app l1 l2 : neutral l1 → neutral l2 → neutral (l1 ++ l2).
Proof. intros H1 H2 n r. destruct (H1 n (l2 ++ r)) as (A1&A2&A3), (H2 n r) as (B1&B2&B3). by rewrite <- !app_assoc, A1, A2, A3, B1, B2, B3, !ext_app. Qed.
Lemma no_comma_nil : no_comma [].
Proof. intros r. cbn [app]. by rewrite ext_nil. Qed.
Lemma no_comma_app l1 l2 : no_comma l1 → no_comma l2 → no_comma (l1 ++ l2).
Proof. intros H1 H2 r. by rewrite <- app_assoc, H1, H2, ext_app. Qed.
Definition flat (c : Z) : bool := negb (bool_decide (c = 40 ∨ c = 41 ∨ c = 91 ∨ c = 93)).
Lemma neutral_flat l : Forall (λ c, flat c = true) l → neutral l.
Proof.
  induction 1 as [|c l Hc Hl IH]; [apply neutral_nil|]. change (c :: l) with ([c] ++ l). apply neutral_app; [|done]. intros n r.
  unfold flat in Hc. apply negb_true_iff, bool_decide_eq_false in Hc. cbn [app paren_arg paren_block until_comma].
  rewrite !(decide_False (P := c = 40)), !(decide_False (P := c = 41)) by tauto.
  rewrite (bool_decide_eq_false_2 (c = 41)), (bool_decide_eq_false_2 (c = 40 ∨ c = 91)), (bool_decide_eq_false_2 (c = 41 ∨ c = 93)) by tauto.
  rewrite (bool_decide_eq_false_2 (S n = 0)%nat), andb_false_r by done. cbn [andb].
  destruct (paren_arg r (S n)), (paren_block r (S n)), (until_comma r (S n)). done.
Qed.
Lemma no_comma_flat l : Forall (λ c, flat c = true ∧ c ≠ 44) l → no_comma l.
Proof.
  induction 1 as [|c l [Hc H44] Hl IH]; [apply no_comma_nil|]. change (c :: l) with ([c] ++ l). apply no_comma_app; [|done]. intros r.
  unfold flat in Hc. apply negb_true_iff, bool_decide_eq_false in Hc. cbn [app until_comma].
  rewrite (bool_decide_eq_false_2 (c = 44)), (bool_decide_eq_false_2 (c = 40 ∨ c = 91)), (bool_decide_eq_false_2 (c = 41 ∨ c = 93)) by tauto. cbn [andb].
  destruct (until_comma r 0). done.
Qed.
Lemma block_run l r n : neutral l → paren_block (40 :: l ++ 41 :: r) n = match n with O => (40 :: l ++ [41], r) | S _ => ext (40 :: l ++ [41]) (paren_block r n) end.
Proof.
  intros H. cbn [paren_block]. rewrite decide_True by done. destruct (H n (41 :: r)) as (_&->&_). cbn [paren_block].
  rewrite decide_False, decide_True by done. cbn [pred]. destruct n as [|n]; [done|]. destruct (paren_block r (S n)) as [t s]. unfold ext. cbn.
  by rewrite <- app_assoc.
Qed.
Lemma neutral_paren l : neutral l → neutral (40 :: l ++ [41]).
Proof.
  intros H n r. rewrite <- app_comm_cons, <- app_assoc. cbn [app]. split_and!.
  - cbn [paren_arg]. rewrite bool_decide_eq_false_2 by done. cbn [andb]. rewrite decide_True by done. destruct (H (S n) (41 :: r)) as (->&_&_).
    cbn [paren_arg]. rewrite (bool_decide_eq_false_2 (S (S n) = 1)%nat), andb_false_r by lia. rewrite decide_False, decide_True by done. cbn [pred].
    destruct (paren_arg r (S n)). unfold ext. cbn. by rewrite <- app_assoc.
  - by rewrite block_run.
  - cbn [until_comma]. rewrite (bool_decide_eq_false_2 (40 = 44)) by done. cbn [andb]. rewrite bool_decide_eq_true_2 by tauto. destruct (H (S n) (41 :: r)) as (_&_&->).
    cbn [until_comma]. rewrite (bool_decide_eq_false_2 (41 = 44)), (bool_decide_eq_false_2 (41 = 40 ∨ 41 = 91)), (bool_decide_eq_true_2 (41 = 41 ∨ 41 = 93)) by lia. cbn [andb pred].
    destruct (until_comma r (S n)). unfold ext. cbn. by rewrite <- app_assoc.
Qed.
Lemma no_comma_paren l : neutral l → no_comma (40 :: l ++ [41]).
Proof.
  intros H r. rewrite <- app_comm_cons, <- app_assoc. cbn [app until_comma]. rewrite (bool_decide_eq_false_2 (40 = 44)) by done. cbn [andb].
  rewrite bool_decide_eq_true_2 by tauto. destruct (H 0%nat (41 :: r)) as (_&_&->). cbn [until_comma].
  rewrite (bool_decide_eq_false_2 (41 = 44)), (bool_decide_eq_false_2 (41 = 40 ∨ 41 = 91)), (bool_decide_eq_true_2 (41 = 41 ∨ 41 = 93)) by lia. cbn [andb pred].
  destruct (until_comma r 0). unfold ext. cbn. by rewrite <- app_assoc.
Qed.
Lemma bracket_plain l n r : Forall (λ c, flat c = true) l →
  paren_arg ((91 :: l ++ [93]) ++ r) (S n) = ext (91 :: l ++ [93]) (paren_arg r (S n)) ∧ paren_block ((91 :: l ++ [93]) ++ r) (S n) = ext (91 :: l ++ [93]) (paren_block r (S n)).
Proof.
  intros Hl. pose proof (neutral_flat _ Hl) as H. rewrite <- app_comm_cons, <- app_assoc. cbn [app paren_arg paren_block].
  rewrite !(decide_False (P := 91 = 40)), !(decide_False (P := 91 = 41)), (bool_decide_eq_false_2 (91 = 41)) by lia. cbn [andb].
  destruct (H n (93 :: r)) as (->&->&_). cbn [paren_arg paren_block].
  rewrite !(decide_False (P := 93 = 40)), !(decide_False (P := 93 = 41)), (bool_decide_eq_false_2 (93 = 41)) by lia. cbn [andb].
  destruct (paren_arg r (S n)), (paren_block r (S n)). unfold ext. cbn. by rewrite <- !app_assoc.
Qed.
Lemma bracket_comma l n r : Forall (λ c, flat c = true) l → until_comma ((91 :: l ++ [93]) ++ r) n = ext (91 :: l ++ [93]) (until_comma r n).
Proof.
  intros Hl. pose proof (neutral_flat _ Hl) as H. rewrite <- app_comm_cons, <- app_assoc. cbn [app until_comma].
  rewrite (bool_decide_eq_false_2 (91 = 44)) by lia. cbn [andb]. rewrite bool_decide_eq_true_2 by tauto. destruct (H n (93 :: r)) as (_&_&->). cbn [until_comma].
  rewrite (bool_decide_eq_false_2 (93 = 44)), (bool_decide_eq_false_2 (93 = 40 ∨ 93 = 91)), (bool_decide_eq_true_2 (93 = 41 ∨ 93 = 93)) by lia. cbn [andb pred].
  destruct (until_comma r n). unfold ext. cbn. by rewrite <- app_assoc.
Qed.
Lemma neutral_bracket l : Forall (λ c, flat c = true) l → neutral (91 :: l ++ [93]).
Proof. intros Hl n r. destruct (bracket_plain l n r Hl) as [-> ->]. by rewrite (bracket_comma l (S n) r Hl). Qed.
Lemma no_comma_bracket l : Forall (λ c, flat c = true) l → no_comma (91 :: l ++ [93]).
Proof. intros Hl r. by apply bracket_comma. Qed.
Lemma neutral_cons c l : flat c = true → neutral l → neutral (c :: l).
Proof. intros Hc Hl. change (c :: l) with ([c] ++ l). apply neutral_app; [|done]. apply neutral_flat. by constructor. Qed.
Lemma no_comma_cons c l : flat c = true → c ≠ 44 → no_comma l → no_comma (c :: l).
Proof. intros Hc H44 Hl. change (c :: l) with ([c] ++ l). apply no_comma_app; [|done]. apply no_comma_flat. by constructor. Qed.
Create HintDb neutral.
#[export] Hint Resolve neutral_nil neutral_app neutral_flat neutral_paren neutral_bracket no_comma_nil no_comma_app no_comma_flat no_comma_paren no_comma_bracket : neutral.

(** Characters. *)
Lemma idc_flat c : idc c = true → flat c = true ∧ c ≠ 44 ∧ normal c = true ∧ c_isspace c = false ∧ delim c = false ∧ attr_char c = true.
Proof.
  unfold idc, flat, normal, split_space, combinator, c_isspace, c_isalnum, c_isalpha, c_isupper, c_islower, c_isdigit, delim, attr_char, op_char.
  rewrite !orb_true_iff, !bool_decide_eq_true. intros H. repeat split; try lia; repeat (rewrite bool_decide_eq_false_2 by lia); done.
Qed.
Lemma idc_not_close c : idc c = true → flat c = true ∧ not_close c = true.
Proof.
  intros H. destruct (idc_flat c H) as (Hf&_). split; [done|]. unfold flat in Hf. apply negb_true_iff, bool_decide_eq_false in Hf.
  unfold not_close. by rewrite bool_decide_eq_false_2 by tauto.
Qed.
Definition clean (l : bytes) : Prop := Forall (λ c, flat c = true ∧ c ≠ 44) l.
Lemma Forall_idc (P : Z → Prop) l : (∀ c, idc c = true → P c) → Forall (λ c, idc c = true) l → Forall P l.
Proof. intros H Hl. eapply Forall_impl; [exact Hl|]. exact H. Qed.
Lemma valc_flat c : valc c = true → flat c = true ∧ not_close c = true ∧ c ≠ 34.
Proof.
  unfold valc, flat, not_close. rewrite andb_true_iff, !negb_true_iff, bool_decide_eq_true, !bool_decide_eq_false. intros [H1 H2]. split_and!; tauto.
Qed.
Definition flat_str (s : string) : bool := forallb (λ c, flat c && negb (bool_decide (c = 44))) (str s).
Lemma flat_str_flat s : flat_str s = true → clean (str s).
Proof.
  unfold flat_str, clean. rewrite forallb_forall, Forall_forall. intros H c Hc%list_elem_of_In. specialize (H c Hc). rewrite andb_true_iff, negb_true_iff, bool_decide_eq_false in H. exact H.
Qed.
Lemma clean_neutral l : clean l → neutral l ∧ no_comma l.
Proof. intros H. split; [|by apply no_comma_flat]. apply neutral_flat. eapply Forall_impl; [exact H|]. by intros ? [? _]. Qed.
Lemma pseudo_neutral name arg : flat_str name = true → neutral arg → neutral (pseudo name arg) ∧ no_comma (pseudo name arg).
Proof.
  intros Hs Ha. destruct (clean_neutral _ (flat_str_flat _ Hs)) as [N1 N2]. unfold pseudo. split.
  - apply neutral_cons; [done|]. apply neutral_app; [done|by apply neutral_paren].
  - apply no_comma_cons; [done|done|]. apply no_comma_app; [done|by apply no_comma_paren].
Qed.

(** ** Splitting *)

(** What may follow a pseudo-class without an argument. *)
Definition stop (r : bytes) : Prop := ∀ c, head r = Some c → name_char c = false ∧ c ≠ 40.
Definition takes_if (l : bytes) (p p' : Split) : Prop :=
  ∀ f r, stop r → (length (l ++ r) <= f)%nat → ∃ f', (length r <= f')%nat ∧ split_loop f (l ++ r) p = split_loop f' r p'.
Lemma takes_takes_if l p p' : takes l p p' → takes_if l p p'.
Proof. intros H f r _. apply H. Qed.
Lemma takes_if_app l1 l2 p1 p2 p3 : takes_if l1 p1 p2 → takes_if l2 p2 p3 → (∀ r, stop r → stop (l2 ++ r)) → takes_if (l1 ++ l2) p1 p3.
Proof.
  intros H1 H2 Hs f r Hr H. rewrite <- app_assoc in H |- *. destruct (H1 f (l2 ++ r) (Hs _ Hr) H) as (f1&Hf1&->). destruct (H2 _ _ Hr Hf1) as (f2&Hf2&->). by exists f2.
Qed.
Definition name_ok (s : string) : bool :=
  forallb name_char (str s) && bool_decide (0 < length (str s) <= 31)%nat && streq (lower (str s)) (str s) && flat_str s.
Lemma name_ok_true s : name_ok s = true →
  Forall (λ c, name_char c = true) (str s) ∧ (0 < length (str s) <= 31)%nat ∧ lower (str s) = str s ∧ flat_str s = true.
Proof.
  unfold name_ok. rewrite !andb_true_iff, forallb_forall, bool_decide_eq_true, streq_true, Forall_forall. intros [[[H1 H2] H3] H4]. split_and!; try done; try lia.
  intros c Hc%list_elem_of_In. by apply H1.
Qed.
Lemma name_not_colon l r : Forall (λ c, name_char c = true) l → (0 < length l)%nat → expect 58 (l ++ r) = None.
Proof. intros Hl Hn. destruct l as [|c l]; [cbn in Hn; lia|]. apply Forall_cons in Hl as [Hc _]. cbn [app expect]. rewrite decide_False; [done|]. intros ->. done. Qed.
Lemma put_seg_app l1 l2 p : put_seg l2 (put_seg l1 p) = put_seg (l1 ++ l2) p.
Proof. unfold put_seg. cbn. by rewrite fold_left_app. Qed.
(** A colon, a name and what follows it. *)
Lemma split_colon name r p : Forall (λ c, name_char c = true) name → (0 < length name)%nat → (∀ c, head r = Some c → name_char c = false) →
  split_step 58 (name ++ r) p = (let p := put_seg (58 :: name) p in
    if decide (hd0 r = 40) then let '(t, s) := paren_block r 0 in (no_ws (put_seg t p), s) else (no_ws p, r)).
Proof.
  intros H1 H2 Hr. unfold split_step. rewrite decide_False, decide_True by done. rewrite name_not_colon by done.
  rewrite scan_stop; [|done|rewrite length_app; lia|done]. by rewrite put_seg_app.
Qed.
Lemma takes_pseudo name arg p : name_ok name = true → neutral arg → fits (pseudo name arg) p → takes (pseudo name arg) p (put1 (pseudo name arg) p).
Proof.
  intros Hn Ha Hf. destruct (name_ok_true _ Hn) as (H1&H2&_&_). apply takes_step. intros r.
  replace ((str name ++ 40 :: arg ++ [41]) ++ r) with (str name ++ 40 :: arg ++ 41 :: r) by (rewrite <- !app_assoc; cbn; by rewrite <- app_assoc).
  rewrite split_colon; [|done|lia|by intros c [= <-]]. cbv zeta. rewrite decide_True by done. rewrite (block_run _ _ 0) by done.
  rewrite put_seg_app. by rewrite put_seg_fits.
Qed.
Lemma takes_named name p : name_ok name = true → fits (58 :: str name) p → takes_if (58 :: str name) p (put1 (58 :: str name) p).
Proof.
  intros Hn Hf f r Hr Hl. destruct (name_ok_true _ Hn) as (H1&H2&_&_). destruct f as [|f]; [cbn in Hl; lia|]. exists f.
  cbn [app split_loop length] in *. rewrite length_app in Hl. split; [lia|]. rewrite split_colon; [|done|lia|intros c Hc; by destruct (Hr c Hc)]. cbv zeta.
  rewrite decide_False; [by rewrite put_seg_fits|]. destruct r as [|c r]; [done|]. by destruct (Hr c eq_refl).
Qed.
Lemma named_text_ok p : name_ok (named_text p) = true.
Proof. by destruct p. Qed.
Lemma nth_text_ok e ot : name_ok (nth_text e ot) = true.
Proof. by destruct e, ot. Qed.
Lemma c_dec_clean z : Forall (λ c, c = 43 ∨ c = 45 ∨ c = 110 ∨ 48 <= c <= 57) (c_dec z).
Proof. eapply Forall_impl; [apply c_dec_chars|]. cbn. lia. Qed.
Lemma print_anb_chars a b : Forall (λ c, c = 43 ∨ c = 45 ∨ c = 110 ∨ 48 <= c <= 57) (print_anb a b).
Proof.
  unfold print_anb. apply Forall_app. split; [apply c_dec_clean|]. constructor; [lia|]. case_decide; [apply c_dec_clean|]. constructor; [lia|apply c_dec_clean].
Qed.
Lemma print_anb_neutral a b : neutral (print_anb a b).
Proof.
  apply neutral_flat. eapply Forall_impl; [apply print_anb_chars|]. intros c Hc. cbn in Hc. unfold flat. by rewrite bool_decide_eq_false_2 by lia.
Qed.
Lemma op_text_ok o : flat_str (op_text o) = true ∧ forallb not_close (str (op_text o)) = true.
Proof. by destruct o. Qed.

Section parts.
Context {A : Type} (pr : A → bytes) (okA : A → Prop) (HN : ∀ a, okA a → neutral (pr a)).

Lemma print_list_neutral l : Forall (λ a, okA a ∧ 44 ∉ pr a) l → neutral (print_list pr l).
Proof using HN.
  induction l as [|a [|b l] IH]; intros Hl; cbn [print_list]; [apply neutral_nil| |].
  - apply Forall_cons in Hl as [[? _] _]. by apply HN.
  - apply Forall_cons in Hl as [[? _] Hl]. apply neutral_app; [by apply HN|]. apply neutral_cons; [done|by apply IH].
Qed.
Definition arg_ok (p : part A) (name : string) (arg : bytes) : Prop := print_part pr p = pseudo name arg ∧ name_ok name = true ∧ neutral arg.
Lemma attr_flat k o v : ident 63 k → Forall (λ c, valc c = true) v → Forall (λ c, flat c = true ∧ not_close c = true) (k ++ str (op_text o) ++ 34 :: v ++ [34]).
Proof.
  intros (_&Hk&_) Hv. destruct (op_text_ok o) as [H1 H2]. apply flat_str_flat in H1. rewrite forallb_forall in H2. rewrite !Forall_app. split_and!.
  - by apply (Forall_idc _ _ idc_not_close).
  - rewrite Forall_forall. intros c Hc. split; [|apply H2; by apply list_elem_of_In]. unfold clean in H1. rewrite Forall_forall in H1. by apply H1.
  - constructor; [done|]. apply Forall_app. split; [|by repeat constructor]. eapply Forall_impl; [exact Hv|]. intros c Hc. destruct (valc_flat c Hc) as (?&?&_). done.
Qed.
(** A part is a word, a bracket, a name or a pseudo-class with an argument. *)
Lemma part_takes p P : ok_part pr okA p → saw_ws P = false → fits (print_part pr p) P → takes_if (print_part pr p) P (put1 (print_part pr p) P).
Proof using HN.
  intros Hok Hw Hf. destruct p; cbn [print_part ok_part] in *.
  1,2: destruct Hok as (_&Hk&_); apply takes_takes_if, takes_normal; [|done|done]; constructor; [done|]; apply (Forall_idc _ _ (λ c H, proj1 (proj2 (proj2 (idc_flat c H))))); done.
  - destruct Hok as (_&Hk&_). apply takes_takes_if, takes_bracket; [|done]. by apply (Forall_idc _ _ (λ c H, proj2 (idc_not_close c H))).
  - destruct Hok as (Hk&_&Hv&_). pose proof (attr_flat k o v Hk Hv) as H.
    replace (91 :: k ++ str (op_text o) ++ 34 :: v ++ [34; 93]) with (91 :: (k ++ str (op_text o) ++ 34 :: v ++ [34]) ++ [93]) in * by (f_equal; rewrite <- !app_assoc; cbn; by rewrite <- app_assoc).
    apply takes_takes_if, takes_bracket; [|done]. eapply Forall_impl; [exact H|]. by intros ? [_ ?].
  - by apply takes_named; [apply named_text_ok|].
  - apply takes_takes_if, takes_pseudo; [apply nth_text_ok|apply print_anb_neutral|done].
  - destruct Hok as (_&Hl&_). apply takes_takes_if, takes_pseudo; [done|by apply print_list_neutral|done].
  - destruct Hok as (_&Hl&_). apply takes_takes_if, takes_pseudo; [done|by apply print_list_neutral|done].
  - destruct Hok as (_&Hs&_). apply takes_takes_if, takes_pseudo; [done| |done]. apply neutral_cons; [by destruct r|by apply HN].
Qed.
Lemma part_neutral p : ok_part pr okA p → neutral (print_part pr p) ∧ no_comma (print_part pr p).
Proof using HN.
  intros Hok. assert (∀ c k, (c = 46 ∨ c = 35) → ident 63 k → neutral (c :: k) ∧ no_comma (c :: k)) as Hw.
  { intros c k Hc (_&Hk&_). apply clean_neutral. constructor; [destruct Hc as [-> | ->]; done|]. apply (Forall_idc _ _ (λ c H, conj (proj1 (idc_flat c H)) (proj1 (proj2 (idc_flat c H))))). done. }
  destruct p; cbn [print_part ok_part] in *; try (by apply Hw; [tauto|]).
  - destruct Hok as (_&Hk&_). assert (Forall (λ c, flat c = true) k) as H by (by apply (Forall_idc _ _ (λ c H, proj1 (idc_flat c H)))).
    split; [by apply neutral_bracket|by apply no_comma_bracket].
  - destruct Hok as (Hk&_&Hv&_). pose proof (attr_flat k o v Hk Hv) as H.
    replace (91 :: k ++ str (op_text o) ++ 34 :: v ++ [34; 93]) with (91 :: (k ++ str (op_text o) ++ 34 :: v ++ [34]) ++ [93]) by (f_equal; rewrite <- !app_assoc; cbn; by rewrite <- app_assoc).
    assert (Forall (λ c, flat c = true) (k ++ str (op_text o) ++ 34 :: v ++ [34])) as H' by (eapply Forall_impl; [exact H|]; by intros ? [? _]).
    split; [by apply neutral_bracket|by apply no_comma_bracket].
  - apply clean_neutral. constructor; [done|]. apply flat_str_flat. by destruct p.
  - apply pseudo_neutral; [by destruct from_end, of_type|apply print_anb_neutral].
  - destruct Hok as (_&Hl&_). apply pseudo_neutral; [done|by apply print_list_neutral].
  - destruct Hok as (_&Hl&_). apply pseudo_neutral; [done|by apply print_list_neutral].
  - destruct Hok as (_&Hs&_). apply pseudo_neutral; [done|]. apply neutral_cons; [by destruct r|by apply HN].
Qed.

Lemma part_head p : ∃ c t, print_part pr p = c :: t ∧ delim c = true ∧ name_char c = false ∧ c ≠ 40 ∧ c_isspace c = false.
Proof. destruct p; eexists _, _; (split; [done|]); done. Qed.
Lemma parts_length ps : (length ps <= length (flat_map (print_part pr) ps))%nat.
Proof.
  induction ps as [|p ps IH]; [done|]. cbn [flat_map length]. rewrite length_app. destruct (part_head p) as (c&t&->&_). cbn [length]. lia.
Qed.
Lemma stop_cons c r : name_char c = false → c ≠ 40 → stop (c :: r).
Proof. intros H1 H2 x [= <-]. done. Qed.
Lemma parts_stop l r : stop r → stop (flat_map (print_part pr) l ++ r).
Proof.
  destruct l as [|p l]; [done|]. intros _. cbn [flat_map]. destruct (part_head p) as (c&t&->&_&?&?&_). by apply stop_cons.
Qed.
Lemma put1_nil P : saw_ws P = false → put1 [] P = P.
Proof. destruct P. unfold put1. cbn. intros ->. by rewrite app_nil_r. Qed.
Lemma parts_takes l P : Forall (ok_part pr okA) l → saw_ws P = false → fits (flat_map (print_part pr) l) P →
  takes_if (flat_map (print_part pr) l) P (put1 (flat_map (print_part pr) l) P).
Proof using HN.
  intros Hl. revert P. induction Hl as [|p l Hp Hl IH]; intros P Hw Hf; cbn [flat_map] in *.
  - rewrite put1_nil by done. apply takes_takes_if, takes_nil.
  - destruct (fits_app _ _ _ Hf) as [H1 H2]. rewrite <- put1_put1. eapply takes_if_app; [by apply part_takes|by apply IH|by apply parts_stop].
Qed.
Lemma compound_takes c P : ok_compound pr okA c → saw_ws P = false → fits (print_compound pr c) P →
  takes_if (print_compound pr c) P (put1 (print_compound pr c) P).
Proof using HN.
  intros (Ht&Hp&_&_) Hw Hf. unfold print_compound in *. destruct (fits_app _ _ _ Hf) as [H1 H2]. rewrite <- put1_put1.
  eapply takes_if_app; [|by apply parts_takes|by apply parts_stop]. apply takes_takes_if, takes_normal; [|done|done].
  destruct (ctag c) as [[t|]|]; cbn [print_tag]; [|by repeat constructor|done]. destruct Ht as (_&Ht&_).
  by apply (Forall_idc _ _ (λ c H, proj1 (proj2 (proj2 (idc_flat c H))))).
Qed.
Lemma compound_head c : ok_compound pr okA c → ∃ x t, print_compound pr c = x :: t ∧ c_isspace x = false ∧ (plain_start c → normal x = true).
Proof.
  intros (Ht&Hp&Hn&_). unfold print_compound, plain_start. destruct (ctag c) as [[t|]|].
  - destruct Ht as (Hne&Ht&_). destruct t as [|x t]; [done|]. apply Forall_cons in Ht as [Hx _]. destruct (idc_flat x Hx) as (_&_&?&?&_).
    eexists x, _. split; [done|]. done.
  - eexists 42, _. done.
  - destruct (cparts c) as [|p l]; [by destruct Hn|]. cbn [flat_map print_tag app]. destruct (part_head p) as (x&t&E&_&_&_&Hs). rewrite E. eexists x, _. split; [done|].
    split; [done|]. destruct p; try done; cbn in E; injection E as <- _; done.
Qed.
Lemma normal_not c : normal c = true → c ≠ 91 ∧ c ≠ 58 ∧ split_space c = false ∧ combinator c = false.
Proof. unfold normal. rewrite negb_true_iff, !orb_false_iff, bool_decide_eq_false. intros [[H ?] ?]. split_and!; tauto. Qed.
Definition pushed (r : relative) (P : Split) : Split := Spl (segs P ++ [(cur P, comb P)]) [] (relative_code r) false.
(** A combinator ends the segment. *)
Lemma relative_takes r c rest P f : ok_compound pr okA c → (r = Inside → plain_start c) → cur P ≠ [] → (S (length (segs P)) < MAXSEG)%nat →
  (length (print_relative r ++ print_compound pr c ++ rest) <= f)%nat →
  ∃ f', (length (print_compound pr c ++ rest) <= f')%nat ∧
    split_loop f (print_relative r ++ print_compound pr c ++ rest) P = split_loop f' (print_compound pr c ++ rest) (pushed r P).
Proof.
  intros Hc Hr Hcur Hroom Hf. destruct (compound_head c Hc) as (x&t&E&Hs&Hpl). rewrite E in *. cbn [app] in *.
  set (W := Spl (segs P) (cur P) (comb P) true).
  assert (∀ f s, split_loop (S f) (32 :: s) P = split_loop f s W) as H32 by done.
  assert (∀ k, next_seg k W = Spl (segs P ++ [(cur P, comb P)]) [] k false) as Hnext by (intros k; unfold next_seg, W; cbn [segs]; by rewrite decide_True).
  destruct (decide (r = Inside)) as [->|Hni].
  - destruct f as [|[|f]]; cbn in Hf; [lia..|]. exists (S f). split; [cbn; lia|]. cbn [print_relative app]. rewrite H32. cbn [split_loop].
    destruct (normal_not x (Hpl (Hr eq_refl))) as (H1&H2&H3&H4). unfold split_step. rewrite !decide_False by done. rewrite H3, H4.
    cbn [saw_ws W andb pushed cur]. rewrite bool_decide_eq_true_2 by done. by rewrite Hnext.
  - assert (print_relative r = [32; relative_code r; 32]) as Er by by destruct r. rewrite Er in *. cbn [app length] in *.
    destruct f as [|[|f]]; [lia..|]. exists f. split; [lia|]. rewrite H32. cbn [split_loop].
    assert (split_step (relative_code r) (32 :: x :: t ++ rest) W = (no_ws (next_seg (relative_code r) W), x :: t ++ rest)) as ->.
    { assert (skip c_isspace (32 :: x :: t ++ rest) = x :: t ++ rest) as Esk by (cbn [skip]; rewrite Hs; done).
      unfold split_step. rewrite Esk. by destruct r. }
    by rewrite Hnext.
Qed.
Definition seg_of (x : relative * compound A) : bytes * Z := (print_compound pr (snd x), relative_code (fst x)).
Lemma rest_stop l : stop (print_rest pr l).
Proof. destruct l as [|[[] c] l]; [done|..]; by apply stop_cons. Qed.
Lemma split_rest l P f : saw_ws P = false → cur P ≠ [] → Forall (ok_step pr okA) l → (S (length (segs P)) + length l <= MAXSEG)%nat →
  (length (print_rest pr l) <= f)%nat → (let P' := split_loop f (print_rest pr l) P in segs P' ++ [(cur P', comb P')]) = (segs P ++ [(cur P, comb P)]) ++ (seg_of <$> l).
Proof using HN.
  revert P f. induction l as [|[r c] l IH]; intros P f Hw Hcur Hl Hm Hf; cbn [print_rest] in *.
  - rewrite app_nil_r. by destruct f.
  - apply Forall_cons in Hl as [[Hc Hr] Hl]. cbn [fst snd length] in *. destruct (relative_takes r c (print_rest pr l) P f) as (f1&Hf1&->); [done..|lia|done|].
    destruct (compound_takes c (pushed r P) Hc eq_refl) with f1 (print_rest pr l) as (f2&Hf2&->); [|apply rest_stop|done|].
    { unfold fits. destruct Hc as (_&_&_&Hc). cbn. done. }
    destruct (compound_head c Hc) as (x&t&E&_). rewrite IH; [|done|cbn; by rewrite E|done|cbn [pushed put1 segs]; rewrite length_app; cbn; lia|done].
    cbn [pushed put1 segs cur comb app]. by rewrite <- !app_assoc.
Qed.
Lemma print_head l : ok_complex pr okA l → ∃ x t, print_complex pr l = x :: t ∧ c_isspace x = false.
Proof.
  destruct l as [|[r c] l]; [done|]. intros (Hc&_). destruct (compound_head c Hc) as (x&t&E&Hs&_). cbn [print_complex]. rewrite E. by eexists _, _.
Qed.
(** The segments of a printed selector are its compounds. *)
Lemma parse_print l : ok_complex pr okA l → ∃ x r, l = x :: r ∧ parse_complex (print_complex pr l) = (print_compound pr (snd x), 0) :: (seg_of <$> r).
Proof using HN.
  intros Hok. destruct (print_head l Hok) as (y&t&E&Hs). unfold parse_complex. rewrite E. cbn [skip]. rewrite Hs. rewrite <- E.
  destruct l as [|[r0 c] l]; [done|]. destruct Hok as (Hc&Hl&Hm). exists (r0, c), l. split; [done|]. cbn [snd print_complex] in *.
  destruct (compound_takes c (Spl [] [] 0 false) Hc eq_refl) with (length (print_compound pr c ++ print_rest pr l)) (print_rest pr l) as (f2&Hf2&->); [|apply rest_stop|done|].
  { unfold fits. destruct Hc as (_&_&_&Hc). cbn. done. }
  destruct (compound_head c Hc) as (x&t'&Ex&_). cbn zeta. rewrite split_rest; [done|done|cbn; by rewrite Ex|done| |done]. cbn in *. lia.
Qed.
Lemma print_neutral l : ok_complex pr okA l → neutral (print_complex pr l) ∧ no_comma (print_complex pr l).
Proof using HN.
  assert (∀ c, ok_compound pr okA c → neutral (print_compound pr c) ∧ no_comma (print_compound pr c)) as Hcmp.
  { intros c (Ht&Hp&_). unfold print_compound. assert (neutral (print_tag (ctag c)) ∧ no_comma (print_tag (ctag c))) as [T1 T2].
    { apply clean_neutral. destruct (ctag c) as [[t|]|]; cbn [print_tag]; [|by repeat constructor|constructor]. destruct Ht as (_&Ht&_).
      by apply (Forall_idc _ _ (λ c H, conj (proj1 (idc_flat c H)) (proj1 (proj2 (idc_flat c H))))). }
    assert (neutral (flat_map (print_part pr) (cparts c)) ∧ no_comma (flat_map (print_part pr) (cparts c))) as [P1 P2].
    { induction Hp as [|p ps Hp Hps IH]; [split; [apply neutral_nil|apply no_comma_nil]|]. destruct (part_neutral p Hp), IH. split; [by apply neutral_app|by apply no_comma_app]. }
    split; [by apply neutral_app|by apply no_comma_app]. }
  assert (∀ l, Forall (ok_step pr okA) l → neutral (print_rest pr l) ∧ no_comma (print_rest pr l)) as Hrest.
  { clear l. induction 1 as [|[r c] l [Hc _] Hl IH]; [split; [apply neutral_nil|apply no_comma_nil]|]. cbn [print_rest]. destruct (Hcmp c Hc), IH.
    assert (neutral (print_relative r) ∧ no_comma (print_relative r)) as [R1 R2] by (apply clean_neutral; destruct r; by repeat constructor).
    split; [apply neutral_app; [done|by apply neutral_app]|apply no_comma_app; [done|by apply no_comma_app]]. }
  destruct l as [|[r c] l]; [done|]. intros (Hc&Hl&_). cbn [print_complex]. destruct (Hcmp c Hc), (Hrest l Hl). split; [by apply neutral_app|by apply no_comma_app].
Qed.
End parts.

(** ** What selectors say of nodes *)

Section sat.
Context (d : dom) (K : nat → list nat) {A : Type} (satA : A → nat → Prop).

(** [m] is where the combinator [r] looks from [n]. *)
Definition left_of (r : relative) (n m : nat) : Prop :=
  match r with
  | Inside => tc (up d) n m
  | Child => up d n m
  | Next => ∃ p b mid a, placed K p (b ++ m :: mid) n a ∧ is_element d m = true ∧ no_elem d mid
  | Later => ∃ p b mid a, placed K p (b ++ m :: mid) n a ∧ is_element d m = true
  end.
(** The same the other way round, for [:has]. *)
Definition right_of (r : relative) (n m : nat) : Prop :=
  match r with
  | Inside => False
  | Child => m ∈ K n ∧ is_element d m = true
  | Next => ∃ p b mid a, placed K p b n (mid ++ m :: a) ∧ is_element d m = true ∧ no_elem d mid
  | Later => ∃ p b mid a, placed K p b n (mid ++ m :: a) ∧ is_element d m = true
  end.
Definition attr_sat (n : nat) (k : bytes) (P : bytes → Prop) : Prop := at_node d n (λ x, ∃ v, get_attr x k = Some v ∧ P v).
Definition part_sat (p : part A) (n : nat) : Prop :=
  match p with
  | PClass c => attr_sat n (str "class") (λ v, op_sat Word v c)
  | PId i => attr_sat n (str "id") (λ v, lower v = lower i)
  | PHas k => attr_sat n (lower k) (λ _, True)
  | PAttr k o v => attr_sat n (lower k) (λ g, op_sat o g v)
  | PNamed p => named_sat d K p n
  | PNth e ot a b => nth_sat d K e ot a b n
  | PNot l => ¬ ∃ a, a ∈ l ∧ satA a n
  | PIs l => ∃ a, a ∈ l ∧ satA a n
  | PRel r s => ∃ m, right_of r n m ∧ satA s m
  end.
Definition tag_sat (t : option (option bytes)) (n : nat) : Prop :=
  match t with Some (Some t) => at_node d n (λ x, ∃ tg, tag x = Some tg ∧ lower tg = lower t) | _ => True end.
Definition compound_sat (c : compound A) (n : nat) : Prop :=
  at_node d n plain_node ∧ tag_sat (ctag c) n ∧ Forall (λ p, part_sat p n) (cparts c).
(** From the right: the node, then one that the combinator leads to, and so on. *)
Fixpoint rev_sat (l : complex A) (n : nat) : Prop :=
  match l with
  | [] => True
  | (r, c) :: l => compound_sat c n ∧ match l with [] => True | _ => ∃ m, left_of r n m ∧ rev_sat l m end
  end.
Definition complex_sat (l : complex A) (n : nat) : Prop := rev_sat (reverse l) n.
End sat.

(** ** Reading a printed compound *)

Lemma decides_if (b : bool) P Q m : (b = true ↔ P) → (P → decides m Q) → decides (if b then m else ret direct false) (P ∧ Q).
Proof.
  intros Hb Hm. destruct b.
  - assert P as HP by by apply Hb. eapply decides_ext; [|by apply Hm]. tauto.
  - apply decides_ret. split; [done|]. by intros [?%Hb _].
Qed.
Definition delimited (r : bytes) : Prop := ∀ c, head r = Some c → delim c = true.
Lemma delim_name c : delim c = true → name_char c = false ∧ c ≠ 40 ∧ c ≠ 45.
Proof.
  unfold delim, name_char, c_isalnum, c_isalpha, c_isupper, c_islower, c_isdigit. rewrite bool_decide_eq_true. intros H. split; [|lia].
  repeat (rewrite bool_decide_eq_false_2 by lia). done.
Qed.
Lemma word_run n k r : ident n k → delimited r → word n (k ++ r) = (lower k, r).
Proof.
  intros (_&Hk&Hn) Hr. unfold word. rewrite scan_stop; [done| |done|].
  - apply (Forall_idc _ _ (λ c H, eq_trans (f_equal negb (proj1 (proj2 (proj2 (proj2 (proj2 (idc_flat c H))))))) eq_refl)). done.
  - intros c Hc. by rewrite (Hr c Hc).
Qed.
Lemma ident_attr k r : ident 63 k → (∀ c, head r = Some c → attr_char c = false) → scan attr_char 63 (k ++ r) = (k, r).
Proof. intros (_&Hk&Hn) Hr. apply scan_stop; [|done|done]. by apply (Forall_idc _ _ (λ c H, proj2 (proj2 (proj2 (proj2 (proj2 (idc_flat c H))))))). Qed.
Lemma has_attr_run x k r : ident 63 k → match_attr x (k ++ 93 :: r) = (bool_decide (is_Some (get_attr x (lower k))), r).
Proof. intros Hk. unfold match_attr. rewrite ident_attr by (done || by intros c [= <-]). done. Qed.
Lemma op_of_run o s : op_of (str (op_text o) ++ 34 :: s) = (op_code o, 34 :: s).
Proof. by destruct o. Qed.
Lemma attr_part_run x k o v r : ident 63 k → Forall (λ c, valc c = true) v → (length v <= 127)%nat →
  match_attr x (k ++ str (op_text o) ++ 34 :: v ++ 34 :: 93 :: r) = (attr_op_match (get_attr x (lower k)) (op_code o) v, r).
Proof.
  intros Hk Hv Hl. unfold match_attr. rewrite ident_attr; [|done|by destruct o; intros c [= <-]]. rewrite op_of_run.
  rewrite decide_False by by destruct o. unfold attr_value. cbn [hd0 tail]. rewrite bool_decide_eq_true_2 by tauto.
  rewrite scan_stop; [|eapply Forall_impl; [exact Hv|]; intros c Hc; destruct (valc_flat c Hc) as (_&_&?); by rewrite bool_decide_eq_false_2|done|by intros c [= <-]].
  cbn [default from_option expect]. rewrite decide_True by done. cbn [default from_option expect id]. rewrite decide_True by done. done.
Qed.
Lemma named_run name r : name_ok name = true → delimited r → pseudo_at (str name ++ r) = (str name, [], r).
Proof.
  intros Hn Hr. destruct (name_ok_true _ Hn) as (H1&H2&H3&_). unfold pseudo_at. rewrite name_not_colon by (done || lia). cbn [default from_option].
  rewrite scan_stop; [|done|lia|intros c Hc; by destruct (delim_name c (Hr c Hc))].
  assert (expect 40 r = None) as ->; [|unfold lower in H3; by rewrite H3].
  destruct r as [|c r]; [done|]. cbn [expect]. rewrite decide_False; [done|]. by destruct (delim_name c (Hr c eq_refl)) as (_&?&_).
Qed.
Lemma pseudo_run name arg r : name_ok name = true → neutral arg → (length arg <= 127)%nat →
  pseudo_at (str name ++ 40 :: arg ++ 41 :: r) = (str name, arg, r).
Proof.
  intros Hn Ha Hl. destruct (name_ok_true _ Hn) as (H1&H2&H3&_). unfold pseudo_at. rewrite name_not_colon by (done || lia). cbn [default from_option].
  rewrite scan_stop; [|done|lia|by intros c [= <-]]. cbn [expect]. rewrite decide_True by done. destruct (Ha 0%nat (41 :: r)) as (->&_&_).
  cbn [paren_arg]. rewrite !bool_decide_eq_true_2 by done. cbn [andb ext fst snd]. rewrite app_nil_r, take_ge by done. unfold lower in H3. by rewrite H3.
Qed.

(** The arguments of a list. *)
Lemma strtok_run x s acc : 44 ∉ x → strtok_from (x ++ s) acc = strtok_from s (acc ++ x).
Proof.
  revert acc. induction x as [|c x IH]; intros acc Hx; cbn [app]; [by rewrite app_nil_r|]. apply not_elem_of_cons in Hx as [Hc Hx].
  cbn [strtok_from]. rewrite decide_False by done. rewrite IH by done. by rewrite <- app_assoc.
Qed.
Lemma strtok_list {A} (pr : A → bytes) l : Forall (λ a, pr a ≠ [] ∧ 44 ∉ pr a) l → strtok (print_list pr l) = pr <$> l.
Proof.
  unfold strtok. induction l as [|a [|b l] IH]; intros Hl; cbn [print_list]; [done|..]; apply Forall_cons in Hl as [[Hn Ha] Hl].
  - pose proof (strtok_run (pr a) [] [] Ha) as E. rewrite app_nil_r in E. rewrite E. cbn. by destruct (pr a).
  - rewrite strtok_run by done. cbn [app strtok_from]. rewrite decide_True by done. specialize (IH Hl). cbn [print_list] in IH. rewrite IH, !fmap_cons. by destruct (pr a).
Qed.
Lemma any_of_fmap {A B} (f : B → M direct bool) (g : A → B) l : any_of direct f (g <$> l) = any_of direct (λ a, f (g a)) l.
Proof. induction l as [|a l IH]; [done|]. cbn [fmap list_fmap any_of]. by rewrite <- IH. Qed.

(** ** An+B, printed and parsed *)

Lemma digits_stop z s r : Forall (λ c, 48 <= c <= 57) s → (∀ c, head r = Some c → c_isdigit c = false) → digits z (s ++ r) = digits z s.
Proof. intros Hs Hr. rewrite digits_app by done. destruct r as [|c r]; [done|]. cbn [digits]. by rewrite (Hr c eq_refl). Qed.
Lemma skip_digits s r : Forall (λ c, 48 <= c <= 57) s → (∀ c, head r = Some c → c_isdigit c = false) → skip c_isdigit (s ++ r) = r.
Proof.
  intros Hs Hr. apply skip_app; [|intros c r' ->; by apply Hr]. eapply Forall_impl; [exact Hs|]. intros c Hc. by apply c_isdigit_true.
Qed.
Lemma udec20 z : 0 <= z < 2 ^ 63 → ∃ c t, udec 20 z = c :: t ∧ 48 <= c <= 57 ∧ Forall (λ c, 48 <= c <= 57) (udec 20 z) ∧ digits 0 (udec 20 z) = z.
Proof.
  intros Hz. destruct (udec_cons 19 z) as (c&t&E&Hc); [lia|]. exists c, t. split; [done|]. split; [done|]. split; [apply udec_digits; lia|apply digits_udec; lia].
Qed.
Lemma strtol_udec (pre : bytes) z r : (pre = [] ∨ pre = [45] ∨ pre = [43]) → 0 <= z < 2 ^ 63 → (∀ c, head r = Some c → c_isdigit c = false) →
  strtol (pre ++ udec 20 z ++ r) = (if bool_decide (pre = [45]) then - z else z, r).
Proof.
  intros Hp Hz Hr. destruct (udec20 z Hz) as (c&t&E&Hc&Hd&Hv). pose proof (digits_stop 0 _ r Hd Hr) as Hs. rewrite Hv in Hs.
  pose proof (skip_digits _ r Hd Hr) as Hsk. rewrite E in *. unfold strtol.
  assert (c_isspace c = false) as Hsp by (unfold c_isspace; by rewrite bool_decide_eq_false_2 by lia).
  assert (r ≠ (c :: t) ++ r) as Hne by (intros H%(f_equal length); rewrite length_app in H; cbn in H; lia).
  destruct Hp as [-> |[-> | ->]]; cbn [app] in *.
  - cbn [skip]. rewrite Hsp. cbn [hd0]. rewrite bool_decide_eq_false_2 by lia. rewrite Hsk, decide_False by done.
    unfold c_atol. cbn [skip]. rewrite Hsp. cbn [hd0]. rewrite !decide_False by lia. rewrite Hs, bool_decide_eq_false_2 by done. f_equal. lia.
  - cbn [skip]. replace (c_isspace 45) with false by done. cbn [hd0 tail]. rewrite bool_decide_eq_true_2 by tauto. rewrite Hsk, decide_False by done.
    unfold c_atol. cbn [skip]. replace (c_isspace 45) with false by done. cbn [hd0 tail]. rewrite decide_True by done. rewrite Hs, bool_decide_eq_true_2 by done. f_equal. lia.
  - cbn [skip]. replace (c_isspace 43) with false by done. cbn [hd0 tail]. rewrite bool_decide_eq_true_2 by tauto. rewrite Hsk, decide_False by done.
    unfold c_atol. cbn [skip]. replace (c_isspace 43) with false by done. cbn [hd0 tail]. rewrite decide_False, decide_True by done. rewrite Hs, bool_decide_eq_false_2 by done. f_equal. lia.
Qed.
Lemma c_dec_split z : ∃ pre, c_dec z = pre ++ udec 20 (Z.abs z) ∧ (pre = [] ∧ 0 <= z ∨ pre = [45] ∧ z < 0).
Proof.
  unfold c_dec. case_decide as H.
  - exists [45]. split; [cbn [app]; do 2 f_equal; lia|]. right. done.
  - exists []. split; [cbn [app]; f_equal; lia|]. left. split; [done|lia].
Qed.
Lemma strtol_dec z r : - 2 ^ 30 <= z < 2 ^ 30 → (∀ c, head r = Some c → c_isdigit c = false) → strtol (c_dec z ++ r) = (z, r).
Proof.
  intros Hz Hr. destruct (c_dec_split z) as (pre&->&H). rewrite <- app_assoc. rewrite strtol_udec; [|destruct H as [[-> _]|[-> _]]; tauto|lia|done].
  f_equal. destruct H as [[-> ?]|[-> ?]]; [rewrite bool_decide_eq_false_2 by done|rewrite bool_decide_eq_true_2 by done]; lia.
Qed.
Lemma anb_tail_run a b : - 2 ^ 30 <= b < 2 ^ 30 → anb_tail a (if decide (b < 0) then c_dec b else 43 :: c_dec b) = Some (a, b).
Proof.
  intros Hb. unfold anb_tail. case_decide as Hn.
  - destruct (c_dec_split b) as (pre&E&[[_ ?]|[-> _]]); [lia|]. pose proof (strtol_dec b [] Hb) as H. rewrite app_nil_r in H. rewrite H by done.
    rewrite E. cbn [app hd0]. replace (is_sign 45) with true by done. cbn [fst]. by rewrite i32_small by lia.
  - replace (is_sign (hd0 (43 :: c_dec b))) with true by done. destruct (c_dec_split b) as (pre&E&[[-> _]|[_ ?]]); [|lia]. rewrite E. cbn [app].
    pose proof (strtol_udec [43] (Z.abs b) []) as H. rewrite app_nil_r in H. cbn [app] in H. rewrite H by (lia || tauto || done).
    rewrite bool_decide_eq_false_2 by done. cbn [fst]. rewrite i32_small by lia. f_equal. f_equal. lia.
Qed.
Lemma streq_head a b : hd0 a ≠ hd0 b → streq a b = false.
Proof. intros H. apply bool_decide_eq_false. by intros ->. Qed.
Lemma parse_print_anb a b : - 2 ^ 30 <= a < 2 ^ 30 → - 2 ^ 30 <= b < 2 ^ 30 → parse_anb (print_anb a b) = Some (a, b).
Proof.
  intros Ha Hb. unfold print_anb, parse_anb. destruct (c_dec_split a) as (pre&E&Hpre). destruct (udec20 (Z.abs a)) as (c&t&Ec&Hc&_&_); [lia|].
  set (r := 110 :: _). pose proof (strtol_dec a r Ha ltac:(by intros ? [= <-])) as Hs. rewrite E, Ec in *.
  assert (c_isspace c = false) as Hsp by (unfold c_isspace; by rewrite bool_decide_eq_false_2 by lia).
  assert (r ≠ (pre ++ c :: t) ++ r) as Hne by (intros H%(f_equal length); rewrite !length_app in H; cbn in H; lia).
  destruct Hpre as [[-> Hp]|[-> Hp]]; cbn [app] in *.
  - cbn [skip]. rewrite Hsp. assert (streq (c :: t ++ r) (str "odd") = false) as -> by (apply streq_head; change (c ≠ 111); lia).
    assert (streq (c :: t ++ r) (str "even") = false) as -> by (apply streq_head; change (c ≠ 101); lia).
    rewrite (bool_decide_eq_false_2 (c = 110)) by lia. assert (is_sign c = false) as -> by (unfold is_sign; by rewrite bool_decide_eq_false_2 by lia). cbn [orb andb].
    rewrite Hs, decide_False by done. unfold r. rewrite decide_True by done. rewrite i32_small by lia. by apply anb_tail_run.
  - cbn [skip]. replace (c_isspace 45) with false by done. assert (streq (45 :: c :: t ++ r) (str "odd") = false) as -> by (apply streq_head; change (45 ≠ 111); lia).
    assert (streq (45 :: c :: t ++ r) (str "even") = false) as -> by (apply streq_head; change (45 ≠ 101); lia).
    rewrite (bool_decide_eq_false_2 (45 = 110)) by lia. cbn [hd0 orb]. rewrite (bool_decide_eq_false_2 (c = 110)) by lia. rewrite andb_false_r.
    rewrite Hs, decide_False by done. unfold r. rewrite decide_True by done. rewrite i32_small by lia. by apply anb_tail_run.
Qed.

(** ** Matching *)

(** A tree as the DOM keeps it: no node but a child has siblings. *)
Record tree_ok (d : dom) (K : nat → list nat) : Prop := {
  tree_linked : linked d K;
  tree_acyclic : acyclic d;
  tree_free : ∀ n x, nodes d !! n = Some x → (∀ p, n ∉ K p) → prev_sibling (lk x) = None ∧ next_sibling (lk x) = None;
  tree_small : Z.of_nat (size (nodes d)) < 2 ^ 29 }.

Lemma both_spec (m1 m2 : res bool) P Q : (∃ b, m1 = Ok b ∧ (b = true ↔ P)) → (∃ b, m2 = Ok b ∧ (b = true ↔ Q)) →
  ∃ b, (let* x := m1 in if x : bool then m2 else Ok false)%c = Ok b ∧ (b = true ↔ P ∧ Q).
Proof.
  intros (b1&->&H1) (b2&->&H2). cbn [res_bind]. destruct b1; [exists b2|exists false]; (split; [done|]); naive_solver.
Qed.
Lemma has_attr_true x k : has_attr x k = true ↔ is_Some (get_attr x (str k)).
Proof. apply bool_decide_eq_true. Qed.
Lemma at_node_decides (d : dom) n x (b : bool) (P : MiniNode → Prop) : nodes d !! n = Some x → (b = true ↔ P x) → decides (ret direct b) (at_node d n P).
Proof.
  intros Hx Hb. apply decides_ret. rewrite Hb. split; [intros H; by exists x|]. intros (y&Hy&H). by assert (y = x) as -> by congruence.
Qed.
Lemma decides_spec m P : (∃ b, m = Ok b ∧ (b = true ↔ P)) → decides (lift direct m) P.
Proof. intros (b&->&H). by eapply decides_lift. Qed.

Section level.
Context (d : dom) (K : nat → list nat) (HT : tree_ok d K).
Let HL := tree_linked _ _ HT.
Let HF := tree_free _ _ HT.
Let HS := tree_small _ _ HT.
Context {A : Type} (pr : A → bytes) (okA : A → Prop) (satA : A → nat → Prop) (mc : nat → bytes → M direct bool).
Context (HN : ∀ a, okA a → neutral (pr a)) (HH : ∀ a, okA a → ∃ x t, pr a = x :: t ∧ c_isspace x = false).
Context (HM : ∀ a n, okA a → is_Some (nodes d !! n) → decides (mc n (pr a)) (satA a n)).

Lemma skip_pr a : okA a → skip c_isspace (pr a) = pr a.
Proof using HH. intros Ha. destruct (HH a Ha) as (x&t&->&Hs). cbn [skip]. by rewrite Hs. Qed.
Lemma match_list_decides cap n l : ok_list pr okA l → (127 <= cap)%nat → is_Some (nodes d !! n) →
  decides (match_list direct mc cap n (print_list pr l)) (∃ a, a ∈ l ∧ satA a n).
Proof using HH HM.
  intros (_&Hl&Hlen) Hcap Hn. unfold match_list. rewrite take_ge by lia. rewrite strtok_list.
  - rewrite any_of_fmap. apply decides_any_of. intros a Ha. rewrite Forall_forall in Hl. destruct (Hl a Ha) as [Hok _]. rewrite skip_pr by done. by apply HM.
  - eapply Forall_impl; [exact Hl|]. cbn. intros a [Ha Hc]. split; [|done]. destruct (HH a Ha) as (?&?&->&_). done.
Qed.
Lemma print_list_cons l : ok_list pr okA l → ∃ x t, print_list pr l = x :: t.
Proof using HH.
  intros (Hn&Hl&_). destruct l as [|a [|b l]]; [done|..]; apply Forall_cons in Hl as [[Ha _] _]; destruct (HH a Ha) as (x&t&E&_); cbn [print_list]; rewrite E; by eexists _, _.
Qed.
Lemma kids_step n : ∀ i m, K n !! i = Some m → link_step d next_sibling m = Ok (K n !! S i).
Proof using HT.
  intros i m Hi. destruct (lk_kid _ _ HL _ _ _ Hi) as (y&Hy&_&_&E). unfold link_step. rewrite (node_ok d _ _ Hy). cbn [res_bind]. by rewrite E.
Qed.
Lemma is_element_some m : is_element d m = true → is_Some (nodes d !! m).
Proof. unfold is_element. destruct (nodes d !! m); [by eexists|done]. Qed.
Lemma elem_and_decides (f : nat → M direct bool) (P : nat → Prop) m : is_Some (nodes d !! m) → decides (f m) (P m) → decides (elem_and direct d f m) (is_element d m = true ∧ P m).
Proof.
  intros [y Hy] Hf. unfold elem_and. eapply decides_bind_lift; [exact (node_ok d _ _ Hy)|]. apply decides_if; [|done]. unfold is_element. by rewrite Hy.
Qed.
Lemma match_has_decides n x r s : nodes d !! n = Some x → r ≠ Inside → okA s →
  decides (match_has direct d mc n x (relative_code r :: pr s)) (∃ m, right_of d K r n m ∧ satA s m).
Proof using HT HH HM.
  intros Hx Hr Hs. assert (is_Some (nodes d !! n)) as Hn by by eexists. unfold match_has.
  assert (skip c_isspace (relative_code r :: pr s) = relative_code r :: pr s) as -> by by destruct r. cbn [hd0 tail].
  destruct r; [done|..]; cbn [relative_code right_of].
  - rewrite decide_True by done. eapply decides_ext; [|apply (decides_any_along _ (λ m, is_element d m = true ∧ satA s m) _ (K n))].
    + split; [intros (m&?&?&?); by exists m|intros (m&[? ?]&?); by exists m].
    + apply (kids_fit d K HL n). done.
    + symmetry. by apply (lk_ends _ _ HL).
    + apply kids_step.
    + intros m Hm. destruct (kid_node _ _ HL _ _ Hm) as (y&Hy&_). apply elem_and_decides; [by eexists|]. rewrite skip_pr by done. apply HM; [done|by eexists].
  - rewrite decide_False, decide_True by done. destruct (stands_exists d K HL n Hn) as (b&a&Hst).
    pose proof (elem_next_stands d K HL HF true n b a Hn Hst) as E. cbn [elem_next side] in E. eapply decides_bind_lift; [exact E|].
    pose proof (find_split (is_element d) a) as Hf. destruct (find (is_element d) a) as [m|].
    + destruct Hf as (l1&l2&->&Hm&_&H1). eapply decides_ext; [|apply HM; [done|by apply is_element_some]]. split.
      * intros Hsat. exists m. split; [|done]. destruct Hst as [[p Hp]|(_&_&?)]; [|by destruct l1]. exists p, b, l1, l2. split; [done|]. split; [done|]. exact (proj1 (filter_nil_all _ _) H1).
      * intros (m'&(p&b'&mid&a'&Hp&Hm'&Hmid)&Hsat). destruct (stands_placed d K HL _ _ _ _ _ _ Hp Hst) as [-> E2].
        apply (proj2 (filter_nil_all _ _)) in Hmid.
        assert (m = m') as ->; [|done]. apply (f_equal (List.filter (is_element d))) in E2. rewrite !List.filter_app, H1, Hmid in E2. cbn in E2.
        rewrite Hm, Hm' in E2. by injection E2.
    + apply decides_ret. split; [done|]. intros (m'&(p&b'&mid&a'&Hp&Hm'&_)&_). destruct (stands_placed d K HL _ _ _ _ _ _ Hp Hst) as [_ ->].
      rewrite filter_nil_all in Hf. rewrite (Hf m') in Hm'; [done|]. apply elem_of_app. right. left.
  - rewrite !decide_False, decide_True by done. destruct (stands_exists d K HL n Hn) as (b&a&Hst).
    pose proof (elem_next_stands d K HL HF true n b a Hn Hst) as E. cbn [elem_next side] in E. eapply decides_bind_lift; [exact E|].
    eapply decides_ext; [|apply (decides_along_elems d K HL HF _ (satA s) true n b a Hn Hst); intros m Hm; by apply HM]. cbn [side]. split.
    + intros (m&Hm&He&Hsat). exists m. split; [|done]. destruct Hst as [[p Hp]|(_&_&->)]; [|by apply elem_of_nil in Hm].
      apply list_elem_of_split in Hm as (mid&a'&->). by exists p, b, mid, a'.
    + intros (m&(p&b'&mid&a'&Hp&He)&Hsat). destruct (stands_placed d K HL _ _ _ _ _ _ Hp Hst) as [_ ->]. exists m. split; [|done]. apply elem_of_app. right. left.
Qed.

Lemma named_decides n x p : nodes d !! n = Some x → plain_node x → decides (match_pseudo direct d mc n (str (named_text p)) []) (named_sat d K p n).
Proof using HT.
  intros Hx Ht. eapply decides_bind_lift; [exact (node_ok d _ _ Hx)|].
  pose proof (end_child_spec d K HL HF) as E1. pose proof (end_of_type_spec d K HL HF) as E2.
  destruct p; cbn [named_sat named_text].
  - apply decides_spec. by eapply E1.
  - apply decides_spec. by eapply E1.
  - apply decides_spec, both_spec; by eapply E1.
  - apply decides_spec. by eapply E2.
  - apply decides_spec. by eapply E2.
  - apply decides_spec, both_spec; by eapply E2.
  - apply (decides_ret (bool_decide (first_child (lk x) = None))). rewrite bool_decide_eq_true. destruct (lk_ends _ _ HL _ _ Hx) as [-> _]. by destruct (K n).
  - apply (at_node_decides d n x (bool_decide (state_hovered x ≠ 0)) _ Hx), bool_decide_eq_true.
  - apply (at_node_decides d n x (bool_decide (state_active x ≠ 0)) _ Hx), bool_decide_eq_true.
  - apply (at_node_decides d n x (bool_decide (state_focused x ≠ 0)) _ Hx), bool_decide_eq_true.
  - apply (at_node_decides d n x (has_attr x "checked" || has_attr x "selected") _ Hx). by rewrite orb_true_iff, !has_attr_true.
  - apply (at_node_decides d n x (has_attr x "required") _ Hx). apply has_attr_true.
Qed.
Lemma nth_decides n x e ot arg a b : nodes d !! n = Some x → parse_anb arg = Some (a, b) → - 2 ^ 30 <= a < 2 ^ 30 → - 2 ^ 30 <= b < 2 ^ 30 →
  decides (match_pseudo direct d mc n (str (nth_text e ot)) arg) (nth_sat d K e ot a b n).
Proof using HT.
  intros Hx E Ha Hb. eapply decides_bind_lift; [exact (node_ok d _ _ Hx)|].
  pose proof (λ e ot, decides_spec _ _ (nth_pseudo_spec d K HL HF HS e ot n arg a b ltac:(by eexists) E Ha Hb)) as H.
  destruct e, ot; [apply (H true true)|apply (H true false)|apply (H false true)|apply (H false false)].
Qed.

Lemma not_decides n x l : nodes d !! n = Some x → ok_list pr okA l →
  decides (match_pseudo direct d mc n (str "not") (print_list pr l)) (¬ ∃ a, a ∈ l ∧ satA a n).
Proof using HT HH HM.
  intros Hx Hl. eapply decides_bind_lift; [exact (node_ok d _ _ Hx)|]. destruct (print_list_cons l Hl) as (y&t&E).
  pose proof (decides_not _ _ (match_list_decides 127 n l Hl ltac:(done) ltac:(by eexists))) as H. rewrite E in *. exact H.
Qed.
Lemma is_decides n x l : nodes d !! n = Some x → ok_list pr okA l →
  decides (match_pseudo direct d mc n (str "is") (print_list pr l)) (∃ a, a ∈ l ∧ satA a n).
Proof using HT HH HM.
  intros Hx Hl. eapply decides_bind_lift; [exact (node_ok d _ _ Hx)|]. destruct (print_list_cons l Hl) as (y&t&E).
  pose proof (match_list_decides 255 n l Hl ltac:(lia) ltac:(by eexists)) as H. rewrite E in *. exact H.
Qed.
Lemma has_decides n x r s : nodes d !! n = Some x → r ≠ Inside → okA s →
  decides (match_pseudo direct d mc n (str "has") (relative_code r :: pr s)) (∃ m, right_of d K r n m ∧ satA s m).
Proof using HT HH HM. intros Hx Hr Hs. eapply decides_bind_lift; [exact (node_ok d _ _ Hx)|]. by apply (match_has_decides n x r s Hx). Qed.

(** One part of a compound, read at the offset where it was printed. *)
Definition rest_of (l : list (bytes * Z)) (i off : nat) : bytes := drop off (fst (default ([], 0) (l !! i))).
Lemma rest_seg l i off t cb : l !! i = Some (t, cb) → rest_of l i off = drop off t.
Proof. intros H. exact (f_equal (λ o, drop off (fst (default ([], 0) o))) H). Qed.
Lemma attr_sat_if n x k (f : bytes → bool) (P : bytes → Prop) : nodes d !! n = Some x → (∀ v, f v = true ↔ P v) →
  (match get_attr x k with Some v => f v | None => false end) = true ↔ attr_sat d n k P.
Proof.
  intros Hx Hf. split.
  - destruct (get_attr x k) as [v|] eqn:E; [|done]. intros Hv. exists x. split; [done|]. exists v. split; [done|by apply Hf].
  - intros (y&Hy&v&Ev&Hv). assert (y = x) as -> by congruence. rewrite Ev. by apply Hf.
Qed.
Lemma lower_lower k : lower (lower k) = lower k.
Proof. unfold lower. rewrite <- list_fmap_compose. apply list_fmap_ext. intros i c _. apply c_tolower_idem. Qed.
Definition part_run (n : nat) (x : MiniNode) (s r : bytes) (P : Prop) : Prop :=
  ∃ c q m, s ++ r = c :: q ∧ part_at direct d mc n x c q = Some (m, r) ∧ decides m P.
Lemma pseudo_part n x name arg r P : name_ok name = true → neutral arg → (length arg <= 127)%nat →
  decides (match_pseudo direct d mc n (str name) arg) P → part_run n x (pseudo name arg) r P.
Proof.
  intros Hn Ha Hl Hm. exists 58, (str name ++ 40 :: arg ++ 41 :: r), (match_pseudo direct d mc n (str name) arg). split.
  - unfold pseudo. cbn [app]. rewrite <- app_assoc. cbn [app]. by rewrite <- app_assoc.
  - split; [|done]. unfold part_at. rewrite !decide_False, decide_True by done. by rewrite pseudo_run.
Qed.
Lemma part_decides n x p r : nodes d !! n = Some x → plain_node x → ok_part pr okA p → delimited r → part_run n x (print_part pr p) r (part_sat d K satA p n).
Proof using HT HN HH HM.
  intros Hx Ht Hok Hr. destruct p; cbn [print_part ok_part part_sat] in *.
  - eexists _, _, _. split; [done|]. unfold part_at. rewrite decide_True by done. rewrite (word_run 63) by done. split; [done|].
    apply decides_ret, (attr_sat_if n x _ _ _ Hx). intros v. rewrite class_has_true; [|by destruct Hok as (?&_); destruct c]. unfold word_in. cbn [op_sat]. by rewrite lower_lower.
  - eexists _, _, _. split; [done|]. unfold part_at. rewrite decide_False, decide_True by done. rewrite (word_run 63) by done. split; [done|].
    apply decides_ret, (attr_sat_if n x _ _ _ Hx). intros v. by rewrite ci_eq_true, lower_lower.
  - exists 91, (k ++ 93 :: r), (ret direct (bool_decide (is_Some (get_attr x (lower k))))). split; [cbn [app]; by rewrite <- app_assoc|].
    unfold part_at. rewrite !decide_False, decide_True by done. rewrite has_attr_run by done. split; [done|]. apply decides_ret.
    rewrite bool_decide_eq_true. split; [intros [v Hv]; exists x; split; [done|]; by exists v|]. intros (y&Hy&v&Hv&_). assert (y = x) as -> by congruence. by exists v.
  - destruct Hok as (Hk&Hne&Hv&Hl). exists 91, (k ++ str (op_text o) ++ 34 :: v ++ 34 :: 93 :: r), (ret direct (attr_op_match (get_attr x (lower k)) (op_code o) v)). split.
    { cbn [app]. rewrite <- !app_assoc. cbn [app]. by rewrite <- !app_assoc. }
    unfold part_at. rewrite !decide_False, decide_True by done. rewrite attr_part_run by done. split; [done|]. apply decides_ret.
    rewrite <- (attr_sat_if n x _ (λ g, attr_op_match (Some g) (op_code o) v) _ Hx); [by destruct (get_attr x (lower k))|]. intros g. by apply op_code_spec.
  - exists 58, (str (named_text p) ++ r), (match_pseudo direct d mc n (str (named_text p)) []). split; [done|]. unfold part_at.
    rewrite !decide_False, decide_True by done. rewrite named_run by (done || apply named_text_ok). split; [done|]. by apply (named_decides n x).
  - apply pseudo_part; [apply nth_text_ok|apply print_anb_neutral| |destruct Hok; by apply (nth_decides n x); [|apply parse_print_anb|..]].
    unfold print_anb. rewrite length_app. cbn [length]. pose proof (length_c_dec a). pose proof (length_c_dec b). case_decide; cbn [length]; lia.
  - pose proof Hok as (H1&H2&H3). apply pseudo_part; [done|by eapply print_list_neutral|done|by apply (not_decides n x)].
  - pose proof Hok as (H1&H2&H3). apply pseudo_part; [done|by eapply print_list_neutral|done|by apply (is_decides n x)].
  - destruct Hok as (H1&H2&H3). apply pseudo_part; [done|apply neutral_cons; [by destruct r0|by apply HN]|cbn [length]; lia|by apply (has_decides n x)].
Qed.
Lemma loop_decides n x l i ps : nodes d !! n = Some x → plain_node x → Forall (ok_part pr okA) ps → ∀ f off, (length ps < f)%nat →
  rest_of l i off = flat_map (print_part pr) ps → decides (compound_loop direct d mc f n l i off) (Forall (λ p, part_sat d K satA p n) ps).
Proof using HT HN HH HM.
  intros Hx Ht. induction 1 as [|p ps Hp Hps IH]; intros f off Hf Hr; destruct f as [|f]; cbn [length] in Hf; [lia| |lia|]; cbn [compound_loop flat_map] in *.
  - unfold reading, seg_rest. cbn [sseg direct]. change (drop off _) with (rest_of l i off). rewrite Hr. apply (decides_ret true). done.
  - assert (delimited (flat_map (print_part pr) ps)) as Hd.
    { destruct ps as [|q ps]; [done|]. cbn [flat_map]. destruct (part_head pr q) as (c&t&->&?&_). by intros y [= <-]. }
    destruct (part_decides n x p _ Hx Ht Hp Hd) as (c&q&m&Ec&Ep&Hm). unfold reading, seg_rest. cbn [sseg direct]. change (drop off _) with (rest_of l i off).
    rewrite Hr, Ec. eapply decides_bind_lift; [exact (node_ok d _ _ Hx)|]. rewrite Ep. eapply decides_ext; [symmetry; apply Forall_cons|].
    apply decides_and; [done|]. intros _. apply IH; [lia|]. rewrite <- Ec, length_app.
    replace (length (print_part pr p) + length (flat_map (print_part pr) ps) - length (flat_map (print_part pr) ps))%nat with (length (print_part pr p)) by lia.
    unfold rest_of in *. rewrite <- drop_drop, Hr. by rewrite drop_app_length.
Qed.
Lemma compound_decides n l i c cb : is_Some (nodes d !! n) → ok_compound pr okA c → l !! i = Some (print_compound pr c, cb) →
  decides (match_compound direct d mc n l i) (compound_sat d K satA c n).
Proof using HT HN HH HM.
  intros [x Hx] Hc Hi. pose proof Hc as (Htag&Hps&_&Hlen). unfold match_compound. eapply decides_bind_lift; [exact (node_ok d _ _ Hx)|].
  unfold compound_sat. apply decides_if.
  { rewrite bool_decide_eq_true. split; [intros H; by exists x|]. intros (y&Hy&H). by assert (y = x) as -> by congruence. }
  intros (y&Hy&Ht). assert (y = x) as -> by congruence. clear Hy.
  assert (rest_of l i 0 = print_compound pr c) as Er by (rewrite (rest_seg _ _ _ _ _ Hi); apply drop_0).
  unfold reading, seg_rest. cbn [sseg direct]. change (drop 0 _) with (rest_of l i 0). rewrite Er. clear Er.
  assert (∀ off, drop off (print_compound pr c) = flat_map (print_part pr) (cparts c) → decides (compound_loop direct d mc (S SEG) n l i off) (Forall (λ p, part_sat d K satA p n) (cparts c))) as Hloop.
  { intros off Hoff. apply (loop_decides n x l i (cparts c) Hx Ht Hps); [|by rewrite (rest_seg _ _ _ _ _ Hi)]. pose proof (parts_length pr (cparts c)).
    unfold print_compound in Hlen. rewrite length_app in Hlen. unfold SEG in *. lia. }
  unfold print_compound in *. destruct (ctag c) as [[t|]|] eqn:Et; cbn [print_tag tag_sat app] in *.
  - destruct Htag as (Hne&Hid&Hl31). destruct t as [|a t]; [done|]. cbn [app]. pose proof (Forall_inv Hid) as Ha. destruct (idc_flat a Ha) as (_&_&_&_&Hda&_). rewrite Hda.
    assert (delimited (flat_map (print_part pr) (cparts c))) as Hd.
    { destruct (cparts c) as [|q ps]; [done|]. cbn [flat_map]. destruct (part_head pr q) as (c1&t1&->&?&_). by intros y [= <-]. }
    pose proof (word_run 31 (a :: t) _ (conj Hne (conj Hid Hl31)) Hd) as Hw. cbn [app] in Hw. rewrite Hw.
    assert (streq (lower (a :: t)) (str "*") = false) as ->.
    { apply bool_decide_eq_false. intros E. rewrite lower_cons in E. apply (f_equal hd0) in E. cbn [hd0] in E. change (c_tolower a = 42) in E.
      unfold c_tolower, idc, c_isalnum, c_isalpha, c_isupper, c_islower, c_isdigit in *. rewrite !orb_true_iff, !bool_decide_eq_true in Ha. case_bool_decide; lia. }
    cbn [orb]. apply decides_if.
    + split.
      * destruct (tag x) as [tg|] eqn:Etg; [|done]. rewrite ci_eq_true, lower_lower. intros E. exists x. split; [done|]. by exists tg.
      * intros (y&Hy&tg&Etg&E). assert (y = x) as -> by congruence. rewrite Etg, ci_eq_true, lower_lower. done.
    + intros _. rewrite app_comm_cons, length_app.
      replace (length (a :: t) + length (flat_map (print_part pr) (cparts c)) - length (flat_map (print_part pr) (cparts c)))%nat with (length (a :: t)) by lia.
      apply Hloop. by rewrite drop_app_length.
  - replace (delim 42) with false by done.
    assert (delimited (flat_map (print_part pr) (cparts c))) as Hd.
    { destruct (cparts c) as [|q ps]; [done|]. cbn [flat_map]. destruct (part_head pr q) as (c1&t1&->&?&_). by intros y [= <-]. }
    assert (word 31 (42 :: flat_map (print_part pr) (cparts c)) = ([42], flat_map (print_part pr) (cparts c))) as ->.
    { unfold word. change (42 :: flat_map (print_part pr) (cparts c)) with ([42] ++ flat_map (print_part pr) (cparts c)).
      rewrite scan_stop; [done|by repeat constructor|cbn; lia|intros y Hy; by rewrite (Hd y Hy)]. }
    replace (streq [42] (str "*")) with true by done. cbn [orb]. 
    assert (length (42%Z :: flat_map (print_part pr) (cparts c)) - length (flat_map (print_part pr) (cparts c)) = 1)%nat as E1 by (cbn [length]; lia).
    eapply decides_ext; [|rewrite E1; apply (Hloop 1%nat); done]. tauto.
  - pose proof Hc as (_&_&Hne&_). destruct (cparts c) as [|q ps] eqn:Eps; [exfalso; destruct Hne; congruence|]. destruct (part_head pr q) as (c1&t1&E1&Hd1&_).
    specialize (Hloop 0%nat). rewrite drop_0 in Hloop. specialize (Hloop eq_refl). cbn [flat_map] in *. rewrite E1 in *. cbn [app]. rewrite Hd1.
    eapply decides_ext; [|exact Hloop]. tauto.
Qed.
Lemma in_reverse (x : nat) l : x ∈ reverse l → x ∈ l.
Proof. by rewrite elem_of_reverse. Qed.
Lemma tc_inv_l (R : nat → nat → Prop) x z : tc R x z → R x z ∨ ∃ y, R x y ∧ tc R y z.
Proof. intros H. destruct H as [x y H|x y z H1 H2]; [by left|right; by exists y]. Qed.
Lemma up_some n m : up d n m → is_Some (nodes d !! m).
Proof using HT. intros (x&Hx&Hp). destruct (tree_acyclic _ _ HT) as [depth HA]. by destruct (HA _ _ _ Hx Hp). Qed.
Lemma parent_up n x m : nodes d !! n = Some x → up d n m ↔ parent (lk x) = Some m.
Proof. intros Hx. split; [intros (y&Hy&E); by assert (y = x) as -> by congruence|intros E; by exists x]. Qed.
Lemma ancestors_decides n x (f : nat → M direct bool) (P : nat → Prop) : nodes d !! n = Some x → (∀ m, is_Some (nodes d !! m) → decides (f m) (P m)) →
  decides (any_along direct (rounds d) (link_step d parent) f (parent (lk x))) (∃ m, tc (up d) n m ∧ P m).
Proof using HT.
  intros Hx Hf. pose proof (parent_up n x) as Hup. destruct (parent (lk x)) as [p|] eqn:Ep.
  - assert (up d n p) as Hnp by (exists x; done). destruct (tree_acyclic _ _ HT) as [depth HA].
    destruct (path_exists d depth HA p (up_some _ _ Hnp)) as (l&Hh&Hnd&_&Hl&Hr).
    assert (∀ m, m ∈ l → is_Some (nodes d !! m)) as Hs by (intros m [j Hj]%list_elem_of_lookup; destruct (Hl _ _ Hj) as (y&?&_); by eexists).
    eapply decides_ext; [|apply (decides_any_along f P _ l); [by apply nodup_size|done| |intros m Hm; by apply Hf, Hs]].
    + split; intros (m&Hm&HP); exists m; (split; [|done]).
      * eapply tc_rtc_r; [by apply tc_once|by apply Hr].
      * apply Hr. apply tc_inv_l in Hm as [H|(q&H&Hm)]; apply (Hup _ Hx) in H; injection H as <-; [done|by apply tc_rtc].
    + intros i m Hi. destruct (Hl _ _ Hi) as (y&Hy&E). unfold link_step. rewrite (node_ok d _ _ Hy). cbn [res_bind]. by rewrite E.
  - apply decides_ret. split; [done|]. intros (m&Hm&_). apply tc_inv_l in Hm as [H|(q&H&_)]; by apply (Hup _ Hx) in H.
Qed.
Lemma combinator_decides r n (f : nat → M direct bool) (P : nat → Prop) : is_Some (nodes d !! n) → (∀ m, is_Some (nodes d !! m) → decides (f m) (P m)) →
  decides (at_combinator direct d (relative_code r) n f) (∃ m, left_of d K r n m ∧ P m).
Proof using HT.
  intros [x Hx] Hf. assert (is_Some (nodes d !! n)) as Hn by by eexists. destruct (stands_exists d K HL n Hn) as (b&a&Hst).
  pose proof (elem_next_stands d K HL HF false n b a Hn Hst) as E. cbn [elem_next side] in E.
  unfold at_combinator. eapply decides_bind_lift; [exact (node_ok d _ _ Hx)|]. destruct r; cbn [relative_code left_of].
  - rewrite decide_False, decide_True by done. by apply ancestors_decides.
  - rewrite decide_True by done. pose proof (parent_up n x) as Hup. destruct (parent (lk x)) as [p|] eqn:Ep.
    + eapply decides_ext; [|apply (Hf p)]; [|apply (up_some n); by exists x]. split; [intros HP; exists p; split; [by exists x|done]|].
      intros (m&H&HP). apply (Hup _ Hx) in H. by injection H as <-.
    + apply decides_ret. split; [done|]. intros (m&H&_). by apply (Hup _ Hx) in H.
  - rewrite !decide_False, decide_True by done. eapply decides_bind_lift; [exact E|]. pose proof (find_split (is_element d) (reverse b)) as Hfs.
    destruct (find (is_element d) (reverse b)) as [m|].
    + destruct Hfs as (l1&l2&Eb&Hm&_&H1). assert (b = reverse l2 ++ m :: reverse l1) as ->.
      { apply (f_equal reverse) in Eb. rewrite reverse_involutive, reverse_app, reverse_cons in Eb. by rewrite Eb, <- app_assoc. }
      eapply decides_ext; [|apply (Hf m); by apply is_element_some]. split.
      * intros HP. exists m. split; [|done]. destruct Hst as [[p Hp]|(_&Hb&_)]; [|by destruct (reverse l2)]. exists p, (reverse l2), (reverse l1), a.
        split; [done|]. split; [done|]. intros y Hy%in_reverse. exact (proj1 (filter_nil_all _ _) H1 y Hy).
      * intros (m'&(p&b'&mid&a'&Hp&Hm'&Hmid)&HP). destruct (stands_placed d K HL _ _ _ _ _ _ Hp Hst) as [E2 _].
        apply (proj2 (filter_nil_all _ _)) in Hmid. assert (List.filter (is_element d) (reverse l1) = []) as H1'.
        { apply filter_nil_all. intros y Hy%in_reverse. exact (proj1 (filter_nil_all _ _) H1 y Hy). }
        assert (m = m') as ->; [|done]. apply (f_equal (List.filter (is_element d))) in E2. rewrite !List.filter_app in E2. cbn [List.filter] in E2.
        rewrite Hm, Hm', H1', Hmid in E2. by apply app_inj_tail in E2 as [_ ?].
    + apply decides_ret. split; [done|]. intros (m'&(p&b'&mid&a'&Hp&Hm'&_)&_). destruct (stands_placed d K HL _ _ _ _ _ _ Hp Hst) as [-> _].
      rewrite filter_nil_all in Hfs. rewrite (Hfs m') in Hm'; [done|]. apply elem_of_reverse, elem_of_app. right. left.
  - rewrite !decide_False, decide_True by done. eapply decides_bind_lift; [exact E|].
    eapply decides_ext; [|apply (decides_along_elems d K HL HF f P false n b a Hn Hst Hf)]. cbn [side]. split.
    + intros (m&Hm%in_reverse&He&HP). exists m. split; [|done]. destruct Hst as [[p Hp]|(_&->&_)]; [|by apply elem_of_nil in Hm].
      apply list_elem_of_split in Hm as (b'&mid&->). by exists p, b', mid, a.
    + intros (m&(p&b'&mid&a'&Hp&He)&HP). destruct (stands_placed d K HL _ _ _ _ _ _ Hp Hst) as [-> _]. exists m. split; [|done].
      apply elem_of_reverse, elem_of_app. right. left.
Qed.

(** Matching the segments of a printed selector. *)
Lemma match_at_decides (cs : complex A) l i : (∀ j r c, cs !! j = Some (r, c) → ok_compound pr okA c ∧ ∃ cb, l !! j = Some (print_compound pr c, cb) ∧ ((0 < j)%nat → cb = relative_code r)) →
  (i < length cs)%nat → ∀ n, is_Some (nodes d !! n) → decides (match_at direct d mc n l i) (rev_sat d K satA (reverse (take (S i) cs)) n).
Proof using HT HN HH HM.
  intros Hcs. induction i as [|i IH]; intros Hi n Hn; (destruct (lookup_lt_is_Some_2 cs _ Hi) as [[r c] Ec]; destruct (Hcs _ _ _ Ec) as (Hc&cb&El&Hcb);
    rewrite (take_S_r _ _ _ Ec), reverse_snoc; cbn [match_at rev_sat]; apply decides_and; [by eapply compound_decides|]; intros _).
  - by apply decides_ret.
  - assert (snd (sseg direct [] l (S i)) = relative_code r) as Ecomb.
    { rewrite <- (Hcb ltac:(lia)). exact (f_equal (λ o, snd (default ([], 0) o)) El). }
    assert (∀ s, sseg direct s l (S i) = sseg direct [] l (S i)) as Es by done.
    assert (decides (at_combinator direct d (relative_code r) n (λ a, match_at direct d mc a l i)) (∃ m, left_of d K r n m ∧ rev_sat d K satA (reverse (take (S i) cs)) m)) as Hd.
    { apply combinator_decides; [done|]. intros m Hm. apply IH; [lia|done]. }
    intros log. cbv beta. rewrite (Es log), Ecomb. destruct (Hd log) as (b&log'&E&Hb). exists b, log'. split; [exact E|]. rewrite Hb.
    destruct (lookup_lt_is_Some_2 cs i ltac:(lia)) as [[r' c'] Ec']. rewrite (take_S_r _ _ _ Ec'), reverse_snoc. done.
Qed.
(** Matching a printed selector. *)
Lemma complex_decides cs n l : ok_complex pr okA cs → is_Some (nodes d !! n) → l = parse_complex (print_complex pr cs) →
  ∃ i, length l = S i ∧ decides (match_at direct d mc n l i) (complex_sat d K satA cs n).
Proof using HT HN HH HM.
  intros Hok Hn ->. destruct (parse_print pr okA HN cs Hok) as ([r0 c0]&r&->&->). destruct Hok as (Hc&Hr&_). cbn [snd] in *.
  exists (length r). split; [cbn [length]; by rewrite length_fmap|]. unfold complex_sat. rewrite <- (take_ge ((r0, c0) :: r) (S (length r))) at 1 by done.
  apply match_at_decides; [|cbn [length]; lia|done]. intros [|j] rr c E.
  - injection E as <- <-. split; [done|]. exists 0. split; [done|lia].
  - cbn in E. split; [rewrite Forall_forall in Hr; by apply (Hr (rr, c)), list_elem_of_lookup_2 with j|]. exists (relative_code rr). split; [|done].
    change (((print_compound pr c0, 0) :: (seg_of pr <$> r)) !! S j) with ((seg_of pr <$> r) !! j). rewrite list_lookup_fmap. exact (f_equal (λ o, seg_of pr <$> o) E).
Qed.
End level.

(** ** Arguments are shorter *)

Section shorter.
Context {A : Type} (pr : A → bytes) (okA : A → Prop) (N : nat).
Definition okN (a : A) : Prop := okA a ∧ (length (pr a) < N)%nat.
Lemma print_list_length l a : a ∈ l → (length (pr a) <= length (print_list pr l))%nat.
Proof.
  induction l as [|b [|c l] IH]; [by intros ?%elem_of_nil|..]; cbn [print_list].
  - by intros ->%list_elem_of_singleton.
  - rewrite length_app. cbn [length]. intros [->|Ha]%elem_of_cons; [lia|]. specialize (IH Ha). cbn [print_list] in IH. lia.
Qed.
Lemma part_shorter p : ok_part pr okA p → (length (print_part pr p) <= N)%nat → ok_part pr okN p.
Proof.
  intros Hok Hl. destruct p; try done; cbn [ok_part print_part] in *.
  1,2: destruct Hok as (H1&H2&H3); split; [done|]; split; [|done]; rewrite Forall_forall in H2 |- *; intros a Ha; destruct (H2 a Ha) as [? ?]; split; [|done];
    (split; [done|]); pose proof (print_list_length l a Ha); unfold pseudo in Hl; cbn [length] in Hl; rewrite length_app in Hl; cbn [length] in Hl; rewrite length_app in Hl; lia.
  destruct Hok as (H1&H2&H3). split; [done|]. split; [|done]. split; [done|]. unfold pseudo in Hl. cbn [length] in Hl. rewrite length_app in Hl. cbn [length app] in Hl. rewrite length_app in Hl. lia.
Qed.
Lemma compound_shorter c : ok_compound pr okA c → (length (print_compound pr c) <= N)%nat → ok_compound pr okN c.
Proof.
  intros (Ht&Hp&Hn&Hs) Hl. split; [done|]. split; [|done]. unfold print_compound in Hl. rewrite length_app in Hl.
  assert (length (flat_map (print_part pr) (cparts c)) <= N)%nat as Hf by lia. clear Ht Hn Hs Hl. induction Hp as [|p ps Hp Hps IH]; [done|].
  cbn [flat_map] in Hf. rewrite length_app in Hf. constructor; [apply part_shorter; [done|lia]|apply IH; lia].
Qed.
Lemma complex_shorter l : ok_complex pr okA l → (length (print_complex pr l) <= N)%nat → ok_complex pr okN l.
Proof.
  destruct l as [|[r c] l]; [done|]. intros (Hc&Hl&Hm) Hlen. cbn [print_complex] in Hlen. rewrite length_app in Hlen. split; [apply compound_shorter; [done|cbn [snd]; lia]|]. split; [|done].
  clear Hm. assert (length (print_rest pr l) <= N)%nat as Hf by lia. clear Hlen. induction Hl as [|[r1 c1] l [H1 H2] Hl IH]; [done|].
  cbn [print_rest] in Hf. rewrite !length_app in Hf. constructor; [split; [apply compound_shorter; [done|cbn [snd]; lia]|done]|apply IH; lia].
Qed.
End shorter.

(** ** Selectors with arguments to any depth *)

Fixpoint sel (k : nat) : Type := complex (match k with O => Empty_set | S k => sel k end).
Fixpoint print_sel (k : nat) : sel k → bytes :=
  match k with O => print_complex (λ e : Empty_set, match e with end) | S k => print_complex (print_sel k) end.
Fixpoint ok_sel (k : nat) : sel k → Prop :=
  match k with O => ok_complex (λ e : Empty_set, match e with end) (λ e, match e with end) | S k => ok_complex (print_sel k) (ok_sel k) end.
Fixpoint sel_sat (d : dom) (K : nat → list nat) (k : nat) : sel k → nat → Prop :=
  match k with O => complex_sat d K (λ (e : Empty_set) _, match e with end) | S k => complex_sat d K (sel_sat d K k) end.

(** The printed form does not end in white space. *)
Definition trimmed (s : bytes) : Prop := ∃ t c, s = t ++ [c] ∧ c_isspace c = false.
Lemma trimmed_app s t : trimmed t → trimmed (s ++ t).
Proof. intros (u&c&->&Hc). exists (s ++ u), c. by rewrite app_assoc. Qed.
Lemma trimmed_all c s : Forall (λ c, c_isspace c = false) (c :: s) → trimmed (c :: s).
Proof.
  intros Hs. apply Forall_cons in Hs as [Hc Hs]. induction s as [|x l _] using rev_ind; [by exists [], c|]. exists (c :: l), x. split; [done|].
  apply Forall_app in Hs as [_ Hx]. by apply Forall_cons in Hx as [Hx _].
Qed.
Lemma trimmed_word c s : Forall (λ c, idc c = true) s → c_isspace c = false → trimmed (c :: s).
Proof. intros Hs Hc. apply trimmed_all. constructor; [done|]. by apply (Forall_idc _ _ (λ c H, proj1 (proj2 (proj2 (proj2 (idc_flat c H)))))). Qed.
Lemma name_char_space c : name_char c = true → c_isspace c = false.
Proof.
  unfold name_char, c_isspace, c_isalnum, c_isalpha, c_isupper, c_islower, c_isdigit. rewrite !orb_true_iff, !bool_decide_eq_true. intros H. by rewrite bool_decide_eq_false_2 by lia.
Qed.
Lemma rtrim_trimmed s : trimmed s → rtrim s = s.
Proof. intros (t&c&->&Hc). unfold rtrim. rewrite rev_app_distr. cbn [rev app skip]. rewrite Hc. cbn [rev]. by rewrite rev_involutive. Qed.
Section trimmed.
Context {A : Type} (pr : A → bytes) (okA : A → Prop).
Lemma part_trimmed p : ok_part pr okA p → trimmed (print_part pr p).
Proof.
  destruct p; cbn [ok_part print_part].
  1,2: intros (_&Hk&_); by apply trimmed_word.
  all: intros _.
  4-7: unfold pseudo; rewrite (app_comm_cons _ [41] 40), app_assoc, app_comm_cons; by eexists _, 41.
  - rewrite app_comm_cons. by eexists _, 93.
  - exists (91 :: k ++ str (op_text o) ++ 34 :: v ++ [34]), 93. split; [|done]. cbn [app]. rewrite <- !app_assoc. cbn [app]. by rewrite <- app_assoc.
  - apply trimmed_all. constructor; [done|]. destruct (name_ok_true _ (named_text_ok p)) as (H&_). eapply Forall_impl; [exact H|]. apply name_char_space.
Qed.
Lemma compound_trimmed c : ok_compound pr okA c → trimmed (print_compound pr c).
Proof.
  destruct c as [tg ps]. intros (Ht&Hp&Hn&_). unfold print_compound. cbn [ctag cparts] in *. induction ps as [|p ps _] using rev_ind.
  - cbn [flat_map]. rewrite app_nil_r. destruct tg as [[t|]|]; cbn [print_tag]; [|by exists [], 42|by destruct Hn].
    destruct Ht as (Hne&Ht&_). destruct t as [|a t]; [done|]. apply Forall_cons in Ht as [Ha Ht]. apply trimmed_word; [done|]. by destruct (idc_flat a Ha) as (_&_&_&?&_).
  - rewrite flat_map_app. cbn [flat_map]. rewrite app_nil_r. apply Forall_app in Hp as [_ Hp]. apply Forall_cons in Hp as [Hp _].
    apply trimmed_app, trimmed_app. by apply part_trimmed.
Qed.
Lemma rest_trimmed s l : trimmed s → Forall (ok_step pr okA) l → trimmed (s ++ print_rest pr l).
Proof.
  intros Hs Hl. revert s Hs. induction Hl as [|[r c] l [Hc _] Hl IH]; intros s Hs; cbn [print_rest]; [by rewrite app_nil_r|].
  rewrite !app_assoc. apply IH. rewrite <- app_assoc. apply trimmed_app, trimmed_app. by apply compound_trimmed.
Qed.
Lemma complex_trimmed l : ok_complex pr okA l → trimmed (print_complex pr l).
Proof. destruct l as [|[r c] l]; [done|]. intros (Hc&Hl&_). cbn [print_complex]. apply rest_trimmed; [by apply compound_trimmed|done]. Qed.
End trimmed.

(** What is true of every printed selector. *)
Lemma sel_print k (s : sel k) : ok_sel k s → neutral (print_sel k s) ∧ no_comma (print_sel k s) ∧ trimmed (print_sel k s)
  ∧ ∃ x t, print_sel k s = x :: t ∧ c_isspace x = false.
Proof.
  revert s. induction k as [|k IH]; intros s Hs; cbn [ok_sel print_sel] in *.
  - destruct (print_neutral _ _ (λ (e : Empty_set) _, match e with end) s Hs) as [H1 H2]. split_and!; [done|done|by eapply complex_trimmed|by eapply print_head].
  - destruct (print_neutral _ _ (λ a Ha, proj1 (IH a Ha)) s Hs) as [H1 H2]. split_and!; [done|done|by eapply complex_trimmed|by eapply print_head].
Qed.
Lemma sel_decides d K k (s : sel k) n fuel : tree_ok d K → ok_sel k s → is_Some (nodes d !! n) → (length (print_sel k s) < fuel)%nat →
  decides (match_complex direct d fuel n (print_sel k s)) (sel_sat d K k s n).
Proof.
  intros HT. revert s n fuel. induction k as [|k IH]; intros s n [|fuel] Hs Hn Hf; try lia;
    destruct (sel_print _ s Hs) as (_&_&_&x&t&E&_); intros log; cbn [match_complex]; rewrite E, <- E; cbn [sopen direct]; cbn [ok_sel print_sel sel_sat] in *.
  - destruct (complex_decides d K HT _ _ (λ (e : Empty_set) _, match e with end) (match_complex direct d fuel)
      (λ (e : Empty_set) _, match e with end) (λ (e : Empty_set) _, match e with end) (λ (e : Empty_set) n _ _, match e with end) s n _ Hs Hn eq_refl) as (i&->&H).
    exact (H _).
  - assert (ok_complex (print_sel k) (okN (print_sel k) (ok_sel k) fuel) s) as Hs' by (apply complex_shorter; [done|lia]).
    destruct (complex_decides d K HT (print_sel k) (okN (print_sel k) (ok_sel k) fuel) (sel_sat d K k) (match_complex direct d fuel)
      (λ a Ha, proj1 (sel_print k a (proj1 Ha))) (λ a Ha, proj2 (proj2 (proj2 (sel_print k a (proj1 Ha))))) (λ a n Ha Hn, IH a n fuel (proj1 Ha) Hn (proj2 Ha)) s n _ Hs' Hn eq_refl) as (i&->&H).
    exact (H _).
Qed.

(** ** Walking the tree *)

(** A node and what is below it, in document order. *)
Fixpoint subtree (fuel : nat) (K : nat → list nat) (n : nat) : list nat :=
  match fuel with O => [] | S fuel => n :: flat_map (subtree fuel K) (K n) end.

Section walk.
Context (d : dom) (K : nat → list nat) (HT : tree_ok d K) (s : bytes) (found : nat → bool).
Context (HF : ∀ n log, is_Some (nodes d !! n) → ∃ log', match_complex direct d (S (length s)) n s log = Ok (found n, log')).

(** The nodes from [n] up to where the walk began, each deeper than the next. *)
Definition trail (depth : nat → nat) (n : nat) (l : list nat) : Prop :=
  head l = Some n ∧ NoDup l ∧ ∀ c, c ∈ l → (depth c <= depth n)%nat ∧ is_Some (nodes d !! c).
Lemma trail_kid depth n l c : (∀ c x p, nodes d !! c = Some x → parent (lk x) = Some p → is_Some (nodes d !! p) ∧ (depth p < depth c)%nat) →
  trail depth n l → c ∈ K n → trail depth c (c :: l).
Proof using HT.
  intros HA (Hh&Hn&Hl) Hc. destruct (kid_node _ _ (tree_linked _ _ HT) _ _ Hc) as (y&Hy&Hp). destruct (HA _ _ _ Hy Hp) as [_ Hlt].
  split; [done|]. split.
  - constructor; [|done]. intros Hin. destruct (Hl c Hin). lia.
  - intros m [->|Hm]%elem_of_cons; [split; [done|by eexists]|]. destruct (Hl m Hm). split; [lia|done].
Qed.
Definition pick (max : nat) (out l : list nat) : list nat := out ++ take (max - length out) (List.filter found l).
Lemma pick_app max out l1 l2 : pick max (pick max out l1) l2 = pick max out (l1 ++ l2).
Proof.
  unfold pick. rewrite List.filter_app, take_app, <- app_assoc. do 2 f_equal. rewrite !length_app, length_take. f_equal. lia.
Qed.
Lemma pick_one max out n : (if found n && bool_decide (length out < max)%nat then out ++ [n] else out) = pick max out [n].
Proof.
  unfold pick. cbn [List.filter]. destruct (found n); cbn [andb]; [|by rewrite take_nil, app_nil_r]. case_bool_decide.
  - by rewrite take_ge by (cbn; lia).
  - replace (max - length out)%nat with 0%nat by lia. by rewrite app_nil_r.
Qed.
Lemma walk_run max fuel : ∀ n out l depth, (∀ c x p, nodes d !! c = Some x → parent (lk x) = Some p → is_Some (nodes d !! p) ∧ (depth p < depth c)%nat) →
  trail depth n l → (rounds d <= length l + fuel)%nat → ∀ log, ∃ log', walk_collect direct d fuel n s out max log = Ok (pick max out (subtree fuel K n), log').
Proof using HT HF.
  induction fuel as [|fuel IH]; intros n out l depth HA Ht Hfit log.
  { destruct Ht as (_&Hn&Hl). pose proof (nodup_size d l Hn (λ c Hc, proj2 (Hl c Hc))). lia. }
  assert (is_Some (nodes d !! n)) as Hn by (destruct Ht as (Hh&_&Hl); apply Hl; destruct l; [done|injection Hh as ->; left]). destruct Hn as [x Hx].
  cbn [walk_collect subtree]. destruct (HF n log ltac:(by eexists)) as [log1 E1]. unfold bind. rewrite E1. cbn [lift]. unfold lift. rewrite (node_ok d _ _ Hx).
  pose proof (children_spec d K n (tree_linked _ _ HT) ltac:(by eexists)) as Ek. unfold children in Ek. rewrite (node_ok d _ _ Hx) in Ek. cbn [res_bind] in Ek. rewrite Ek.
  rewrite pick_one. change (n :: flat_map (subtree fuel K) (K n)) with ([n] ++ flat_map (subtree fuel K) (K n)). rewrite <- pick_app.
  assert (∀ ks, (∀ c, c ∈ ks → c ∈ K n) → ∀ (m : M direct (list nat)) o, (∃ log', m log1 = Ok (o, log')) →
    ∃ log', fold_left (λ r c, bind direct r (λ out, walk_collect direct d fuel c s out max)) ks m log1 = Ok (pick max o (flat_map (subtree fuel K) ks), log')) as Hfold.
  { induction ks as [|c ks IHk]; intros Hks m o [lo Em]; cbn [fold_left flat_map].
    - exists lo. rewrite Em. unfold pick. cbn [List.filter]. by rewrite take_nil, app_nil_r.
    - rewrite <- pick_app. apply IHk; [intros y Hy; apply Hks; by right|]. unfold bind. rewrite Em.
      apply (IH c o (c :: l) depth HA); [apply (trail_kid depth n l c HA Ht), Hks; left|cbn [length]; lia]. }
  destruct (Hfold (K n) (λ c H, H) (ret direct (pick max out [n])) (pick max out [n])) as [lo Elo]; [by exists log1|]. exists lo. exact Elo.
Qed.
(** A selector without commas, outside parentheses, is searched for once. *)
Lemma query_run root max log : is_Some (nodes d !! root) → (length s <= 511)%nat → no_comma s → trimmed s → (∃ x t, s = x :: t ∧ c_isspace x = false) →
  ∃ log', mini_dom_query_selector_all direct d root s max log = Ok (take max (List.filter found (subtree (rounds d) K root)), log').
Proof using HT HF.
  intros Hr Hl Hc Htr (x&t&Es&Hx).
  assert (mini_dom_query_selector_all direct d root s max = query_loop direct d (S (length s)) root s [] max) as ->.
  { unfold mini_dom_query_selector_all. rewrite take_ge by done. by rewrite Es. }
  destruct (tree_acyclic _ _ HT) as [depth HA]. cbn [query_loop]. case_bool_decide as Hm; [|cbn [length] in Hm; replace max with 0%nat by lia; by exists log].
  assert (skip c_isspace s = s) as -> by (rewrite Es; cbn [skip]; by rewrite Hx).
  pose proof (Hc []) as E. rewrite app_nil_r in E. cbn [until_comma] in E. unfold ext in E. cbn in E. rewrite app_nil_r in E.
  rewrite Es. cbv iota. rewrite <- Es. rewrite E, (rtrim_trimmed s Htr). rewrite Es. cbv iota. rewrite <- Es. unfold bind.
  destruct (walk_run max (rounds d) root [] [root] depth HA) with (log := log) as [lo Elo]; [|cbn; lia|].
  { split; [done|]. split; [apply NoDup_singleton|]. intros c ->%list_elem_of_singleton. by split. }
  rewrite Elo. exists lo. unfold pick. cbn [app length]. rewrite Nat.sub_0_r.
  assert (length s = S (length t)) as -> by (by rewrite Es). cbn [query_loop skip]. by case_bool_decide.
Qed.
End walk.

(** C3. A query for a printed selector finds, in document order and up to [max],
    exactly the nodes below the root that are in the selector's relation: it
    always ends, combinators look where they should, arguments nest to any depth,
    and through a coherent cache with room the result is the same. *)
Theorem query_implements_selector d K root k (s : sel k) max t : tree_ok d K → is_Some (nodes d !! root) → ok_sel k s →
  (length (print_sel k s) <= CS_KEY)%nat → coherent t →
  ∃ found log, (∀ n, is_Some (nodes d !! n) → found n = true ↔ sel_sat d K k s n)
    ∧ mini_dom_query_selector_all direct d root (print_sel k s) max [] = Ok (take max (List.filter found (subtree (rounds d) K root)), log)
    ∧ ((g_cs_n t + size (list_to_set log : gset bytes) <= 1536)%nat →
       ∃ t', mini_dom_query_selector_all cached d root (print_sel k s) max t = Ok (take max (List.filter found (subtree (rounds d) K root)), t') ∧ coherent t').
Proof.
  intros HT Hr Hs Hl Hc. destruct (sel_print k s Hs) as (_&H2&H3&H4). unfold CS_KEY in Hl.
  pose proof (λ n Hn, sel_decides d K k s n (S (length (print_sel k s))) HT Hs Hn ltac:(lia)) as Hd.
  set (found := λ n, match match_complex direct d (S (length (print_sel k s))) n (print_sel k s) [] with Ok (b, _) => b | UB => false end).
  assert (∀ n, is_Some (nodes d !! n) → found n = true ↔ sel_sat d K k s n) as Hf.
  { intros n Hn. unfold found. by destruct (Hd n Hn []) as (b&l&->&?). }
  assert (∀ n log, is_Some (nodes d !! n) → ∃ log', match_complex direct d (S (length (print_sel k s))) n (print_sel k s) log = Ok (found n, log')) as HF.
  { intros n log Hn. destruct (Hd n Hn log) as (b&l&E&Hb). exists l. rewrite E. do 2 f_equal. apply eq_bool_prop_intro. rewrite !Is_true_true, Hb. symmetry. by apply Hf. }
  destruct (query_run d K HT _ found HF root max [] Hr ltac:(lia) H2 H3 H4) as [log E]. exists found, log. split; [done|]. split; [done|]. intros Hroom.
  destruct (proj2 (sim_query d t root _ max Hl _ _ _ E) t t (tracks_start _ Hc)) as (t'&E'&[H1 _ _ _]&_); [done|done|by exists t'].
Qed.

(** The page of Selectors, and [.r > p:not(.a)] on it. *)
Definition page_kids : nat → list nat :=
  kids_of {[1%nat := [2%nat]; 2%nat := [3; 6; 8; 10; 11]%nat; 3%nat := [4%nat]; 4%nat := [5%nat]; 6%nat := [7%nat]; 8%nat := [9%nat]; 11%nat := [12%nat]]}.
Definition page_depth (n : nat) : nat :=
  nth n [0; 0; 1; 2; 3; 4; 2; 3; 2; 3; 2; 2; 3]%nat 0%nat.
Definition page_sel : sel 1 :=
  [(Inside, Cmp None [PClass (str "r")]);
   (Child, Cmp (Some (Some (str "p"))) [PNot [[(Inside, Cmp None [PClass (str "a")])] : sel 0]])].
Lemma page_ok : tree_ok page page_kids.
Proof.
  split.
  - apply linked_test_true. vm_compute. reflexivity.
  - exists page_depth. intros c y p Hy Hp.
    assert (map_Forall (λ c x, match parent (lk x) with
      | Some p => nodes page !! p ≠ None ∧ (page_depth p < page_depth c)%nat | None => True end) (nodes page)) as H
      by (refine (bool_decide_eq_true_1 _ _); vm_compute; reflexivity).
    specialize (H c y Hy). cbv beta in H. rewrite Hp in H. destruct H as [H l]. exact (conj (proj1 (not_eq_None_Some _) H) l).
  - assert (map_Forall (λ n x, prev_sibling (lk x) = None ∧ next_sibling (lk x) = None ∨ n ∈ page_kids (default 0%nat (parent (lk x)))) (nodes page)) as H
      by (refine (bool_decide_eq_true_1 _ _); vm_compute; reflexivity).
    intros n x Hx Hn. destruct (H n x Hx) as [?|Hp]; [done|]. by destruct (Hn _ Hp).
  - vm_compute. reflexivity.
Qed.
Lemma class_ok (A : Type) (pr : A → bytes) (okA : A → Prop) c : ident 63 c → ok_compound pr okA (Cmp None [PClass c]).
Proof.
  intros Hc. split; [exact I|]. split; [by constructor|]. split; [by right|].
  destruct Hc as (_&_&Hl). unfold print_compound, SEG. cbn [print_tag cparts ctag flat_map print_part]. rewrite !length_app. cbn [length]. lia.
Qed.
Lemma page_sel_ok : ok_sel 1 page_sel.
Proof.
  assert (∀ c, c ∈ [str "r"; str "p"; str "a"] → ident 31 c ∧ ident 63 c) as Hi.
  { apply (proj1 (Forall_forall _ _)). repeat constructor; done. }
  split; [apply class_ok, Hi; left|]. split; [|vm_compute; lia]. constructor; [|constructor]. split; [|discriminate].
  split; [apply Hi; right; left|]. split; [|split; [by left|vm_compute; lia]]. constructor; [|constructor].
  split; [discriminate|]. split; [|vm_compute; lia]. constructor; [|constructor]. split.
  - split; [apply class_ok, Hi; right; right; left|]. split; [exact (Forall_nil_2 _)|cbn; unfold MAXSEG; lia].
  - refine (bool_decide_eq_true_1 _ _). vm_compute. reflexivity.
Qed.
Lemma page_node n : (1 <= n <= 12)%nat → is_Some (nodes page !! n).
Proof.
  intros Hn. assert (Forall (λ n, is_Some (nodes page !! n)) (seq 1 12)) as H by (refine (bool_decide_eq_true_1 _ _); vm_compute; reflexivity).
  rewrite Forall_forall in H. apply H, elem_of_seq. lia.
Qed.
Lemma query_implements_selector_witness : print_sel 1 page_sel = str ".r > p:not(.a)"
  ∧ sel_sat page page_kids 1 page_sel 8 ∧ ~ sel_sat page page_kids 1 page_sel 6.
Proof.
  destruct (query_implements_selector page page_kids 1 1 page_sel 64 empty_table page_ok) as (found&log&Hf&E&_).
  - apply page_node. lia.
  - exact page_sel_ok.
  - vm_compute. lia.
  - intros i c H. discriminate H.
  - assert (match mini_dom_query_selector_all direct page 1 (print_sel 1 page_sel) 64 [] with Ok (l, _) => l = [8%nat] | UB => False end) as El by (vm_compute; reflexivity).
    rewrite E in El. cbv beta iota in El. assert (subtree (rounds page) page_kids 1 = [1; 2; 3; 4; 5; 6; 7; 8; 9; 10; 11; 12]%nat) as Es by (vm_compute; reflexivity).
    rewrite Es in El. rewrite take_ge in El by (etrans; [apply List.filter_length_le|cbn; lia]).
    assert (∀ n, n ∈ [1; 2; 3; 4; 5; 6; 7; 8; 9; 10; 11; 12]%nat → found n = true ↔ n = 8%nat) as Hn.
    { intros n Hn%list_elem_of_In. rewrite <- (list_elem_of_singleton n 8%nat), <- El, list_elem_of_In, filter_In. tauto. }
    assert (∀ n, (1 <= n <= 12)%nat → sel_sat page page_kids 1 page_sel n ↔ n = 8%nat) as H8.
    { intros n Hr. rewrite <- (Hf n (page_node n Hr)). apply Hn. change [1; 2; 3; 4; 5; 6; 7; 8; 9; 10; 11; 12]%nat with (seq 1 12). apply elem_of_seq. lia. }
    split; [vm_compute; reflexivity|]. split.
    + exact (proj2 (H8 8%nat ltac:(lia)) eq_refl).
    + intros H. apply (H8 6%nat ltac:(lia)) in H. lia.
Defined.
