(* ===== verification/CssVars.v ===== *)
(** * CSS custom properties (src/src/mini_css.c)

    The replacement of [var()] in a value, eight passes over the text with the
    variables of the node, of its ancestors and of the global table, and the
    cache of replaced values, a table of 8192 slots whose entries count while
    their generation is the current one. *)

From stdpp Require Import gmap list.
From S2P Require Import Prelude CString Dom Selectors.
Open Scope Z_scope.

(** ** Replacing [var()] *)

Definition get_var_scoped (d : dom) (n : option nat) (name : bytes) : res bytes := var_up (rounds d) d n name.
Definition trim (s : bytes) : bytes := skip c_isspace (rtrim s).
(** To the closing parenthesis or, with [comma], to a comma outside of inner ones. *)
Fixpoint var_part (comma : bool) (s : bytes) (depth : nat) : bytes * bytes :=
  match s with
  | [] => ([], [])
  | c :: s' =>
    if bool_decide (depth = 1)%nat && (bool_decide (c = 41) || comma && bool_decide (c = 44)) then ([], s) else
    let '(t, r) := var_part comma s' (if decide (c = 40) then S depth else if decide (c = 41) then pred depth else depth) in (c :: t, r)
  end.
(** At what follows [var]: what replaces it and what is left. *)
Definition resolve_one_var_scoped (d : dom) (n : option nat) (s : bytes) : res (bytes * bytes) :=
  let p := skip c_isspace s in
  match expect 40 p with
  | None => Ok (str "var", p)
  | Some p =>
    let '(name, p) := var_part true p 1 in
    let '(fallback, p) := match expect 44 p with
                          | Some p => let '(f, p) := var_part false p 1 in (Some (trim f), p)
                          | None => (None, p)
                          end in
    let p := default p (expect 41 p) in
    (let* val := get_var_scoped d n (var_name (trim name)) in
     Ok (match val with [] => default (str "0") fallback | _ => val end, p))%c
  end.
Definition at_var (s : bytes) : bool :=
  starts_with (str "var") s && (let c := hd0 (drop 3 s) in bool_decide (c = 40) || c_isspace c).
Fixpoint resolve_pass (fuel : nat) (d : dom) (n : option nat) (s : bytes) : res bytes :=
  match fuel, s with
  | O, _ => UB
  | _, [] => Ok []
  | S fuel, c :: s' =>
    if at_var s then (let* (o, r) := resolve_one_var_scoped d n (drop 3 s) in let* t := resolve_pass fuel d n r in Ok (o ++ t))%c
    else (let* t := resolve_pass fuel d n s' in Ok (c :: t))%c
  end.
Definition mentions (s p : bytes) : bool := bool_decide (is_Some (strstr s p)).
Definition has_var (s : bytes) : bool := mentions s (str "var(") || mentions s (str "var ").
Fixpoint resolve_passes (k : nat) (d : dom) (n : option nat) (cur : bytes) : res bytes :=
  match k with
  | O => Ok cur
  | S k => if has_var cur then (let* cur := resolve_pass (S (length cur)) d n cur in resolve_passes k d n cur)%c else Ok cur
  end.
Definition resolve_vars_uncached (d : dom) (n : option nat) (value : bytes) : res bytes := resolve_passes 8 d n value.

(** ** The cache *)

(** The node by its address, 0 for none. *)
Record VarCacheEntry := VarEntry { vnode : Z; vvalue : bytes; vresolved : bytes; vgen : Z }.
Record VarState := Vars { vdoc : dom; g_var_cache : gmap nat VarCacheEntry; g_var_gen : Z }.
Definition MINI_VAR_CACHE_CAP : nat := 8192.
Definition set_vdoc (d : dom) (st : VarState) : VarState := Vars d (g_var_cache st) (g_var_gen st).
Definition mini_css_var_cache_invalidate (st : VarState) : VarState := Vars (vdoc st) (g_var_cache st) (u64 (g_var_gen st + 1)).

Section addresses.
(** Where the nodes are in memory. *)
Context (addr : nat → Z).
Definition ptr (n : option nat) : Z := match n with Some n => addr n | None => 0 end.

Definition var_cache_hash (p : Z) (value : bytes) : nat :=
  let np := Z.lxor p (Z.shiftr p 33) in Z.to_nat (Z.land (fnv (le_bytes 8 np ++ value)) (Z.of_nat MINI_VAR_CACHE_CAP - 1)).
Definition var_slot (h i : nat) : nat := ((h + i) mod MINI_VAR_CACHE_CAP)%nat.
Fixpoint var_find (st : VarState) (p : Z) (value : bytes) (h k i : nat) : option bytes :=
  match k with
  | O => None
  | S k =>
    match g_var_cache st !! var_slot h i with
    | None => None
    | Some e =>
      if bool_decide (vgen e = g_var_gen st) && bool_decide (vnode e = p) && streq (vvalue e) value then Some (vresolved e)
      else var_find st p value h k (S i)
    end
  end.
Definition var_cache_lookup (st : VarState) (n : option nat) (value : bytes) : option bytes :=
  var_find st (ptr n) value (var_cache_hash (ptr n) value) 8 0.
(** The first slot that is empty or of an earlier generation. *)
Fixpoint var_free (st : VarState) (h k i : nat) : option nat :=
  match k with
  | O => None
  | S k =>
    match g_var_cache st !! var_slot h i with
    | None => Some (var_slot h i)
    | Some e => if decide (vgen e = g_var_gen st) then var_free st h k (S i) else Some (var_slot h i)
    end
  end.
Definition var_cache_store (st : VarState) (n : option nat) (value resolved : bytes) : VarState :=
  match var_free st (var_cache_hash (ptr n) value) 8 0 with
  | Some i => Vars (vdoc st) (<[i := VarEntry (ptr n) value resolved (g_var_gen st)]> (g_var_cache st)) (g_var_gen st)
  | None => st
  end.
Definition mini_css_resolve_vars_node (st : VarState) (n : option nat) (value : bytes) : res (bytes * VarState) :=
  match var_cache_lookup st n value with
  | Some r => Ok (r, st)
  | None => (let* r := resolve_vars_uncached (vdoc st) n value in Ok (r, var_cache_store st n value r))%c
  end.
(** How a declaration's value and a deferred expression are resolved: again up to
    five times while [var(] is left. *)
Fixpoint resolve_again (k : nat) (st : VarState) (n : option nat) (cur : bytes) : res (bytes * VarState) :=
  match k with
  | O => Ok (cur, st)
  | S k => if mentions cur (str "var(") then (let* (cur, st) := mini_css_resolve_vars_node st n cur in resolve_again k st n cur)%c else Ok (cur, st)
  end.
Definition resolve_value (st : VarState) (n : option nat) (value : bytes) : res (bytes * VarState) :=
  (let* (cur, st) := mini_css_resolve_vars_node st n value in resolve_again 5 st n cur)%c.

(** ** Changing variables *)

Definition var_reset (st : VarState) : VarState :=
  let d := vdoc st in mini_css_var_cache_invalidate (set_vdoc (Dom (nodes d) (next_id d) (muts d) (active_dirty d) []) st).
(** [mini_css_var_set] with its invalidation: nothing happens when the value is the same. *)
Definition var_set (st : VarState) (name value : bytes) : VarState :=
  if decide (assoc_get (css_vars (vdoc st)) name = Some value) then st
  else mini_css_var_cache_invalidate (set_vdoc (mini_css_var_set name value (vdoc st)) st).
(** [mini_node_set_var]: only the global table's change invalidates. *)
Definition is_global (d : dom) (n : option nat) : res bool :=
  match n with
  | None => Ok true
  | Some n => (let* x := node d n in Ok (bool_decide (tag x = Some (str "html")) || bool_decide (ntype x = MN_DOCUMENT_NODE)))%c
  end.
Definition node_set_var (st : VarState) (n : option nat) (name value : bytes) : res VarState :=
  (let* g := is_global (vdoc st) n in
   if g : bool then Ok (var_set st (var_name name) value)
   else let* d := mini_node_set_var (vdoc st) n name value in Ok (set_vdoc d st))%c.
End addresses.

(** ** Behaviours *)

(** A [p] in a [div]. *)
Definition two_nodes : dom := fst (E "div" "" [E "p" "" []] no_dom).
Definition spot (n : nat) : Z := 4096 + 16 * Z.of_nat n.
Definition new_vars (d : dom) : VarState := Vars d ∅ 1.
Definition tell (addr : nat → Z) (n : nat) (v : string) (st : VarState) : option (bytes * VarState) :=
  match mini_css_resolve_vars_node addr st (Some n) (str v) with Ok r => Some r | UB => None end.
Definition set_on (n : nat) (name v : string) (st : VarState) : VarState :=
  match node_set_var st (Some n) (str name) (str v) with Ok st => st | UB => st end.
(** The variable of a node that is no [html] element changes without ending the
    generation: its children keep the old value. *)
Example scoped_change_is_stale :
  let st := set_on 1 "--c" "red" (new_vars two_nodes) in
  match tell spot 2 "var(--c)" st with
  | Some (v, st) => v = str "red" ∧ fst <$> tell spot 2 "var(--c)" (set_on 1 "--c" "blue" st) = Some (str "red")
                    ∧ fst <$> tell spot 2 "var(--c)" (var_set st (str "z") (str "1")) = Some (str "red")
                    ∧ fst <$> tell spot 2 "var(--c)" (var_set (set_on 1 "--c" "blue" st) (str "z") (str "1")) = Some (str "blue")
  | None => False
  end.
Proof. vm_compute. done. Qed.
(** A node that is moved keeps the values of its old place. *)
Example moved_is_stale :
  let st := set_on 1 "--c" "red" (new_vars two_nodes) in
  match tell spot 2 "var(--c, none)" st with
  | Some (v, st) =>
    match mini_node_remove_child (vdoc st) (Some 1%nat) (Some 2%nat) with
    | Ok (d, _) => v = str "red" ∧ fst <$> tell spot 2 "var(--c, none)" (set_vdoc d st) = Some (str "red")
                   ∧ resolve_vars_uncached d (Some 2%nat) (str "var(--c, none)") = Ok (str "none")
    | UB => False
    end
  | None => False
  end.
Proof. vm_compute. done. Qed.
(** Eight passes of a variable that mentions itself twice. *)
Example doubling : match resolve_vars_uncached (mini_css_var_set (str "a") (str "var(--a)var(--a)") no_dom) None (str "var(--a)") with
  | Ok r => length r = (8 * 2 ^ 8)%nat | UB => False end.
Proof. vm_compute. done. Qed.

(** ** The cache changes nothing *)

Lemma pass_mono d d' n : (∀ name v, get_var_scoped d n name = Ok v → get_var_scoped d' n name = Ok v) →
  ∀ fuel s r, resolve_pass fuel d n s = Ok r → resolve_pass fuel d' n s = Ok r.
Proof.
  intros H. induction fuel as [|fuel IH]; intros s r; [done|]. cbn [resolve_pass]. destruct s as [|c s]; [done|]. destruct (at_var (c :: s)).
  - unfold resolve_one_var_scoped. destruct (expect 40 _) as [p|].
    + destruct (var_part true p 1) as [name q]. destruct (match expect 44 q with Some _ => _ | None => _ end) as [fb q'].
      destruct (get_var_scoped d n (var_name (trim name))) as [v|] eqn:E; [|done]. rewrite (H _ _ E). cbn [res_bind].
      destruct (resolve_pass fuel d n _) as [t|] eqn:Et; [|done]. by rewrite (IH _ _ Et).
    + cbn [res_bind]. destruct (resolve_pass fuel d n _) as [t|] eqn:Et; [|done]. by rewrite (IH _ _ Et).
  - destruct (resolve_pass fuel d n s) as [t|] eqn:Et; [|done]. by rewrite (IH _ _ Et).
Qed.
Lemma uncached_mono d d' n : (∀ name v, get_var_scoped d n name = Ok v → get_var_scoped d' n name = Ok v) →
  ∀ s r, resolve_vars_uncached d n s = Ok r → resolve_vars_uncached d' n s = Ok r.
Proof.
  intros H. unfold resolve_vars_uncached. generalize 8%nat. intros k. induction k as [|k IH]; intros s r; [done|]. cbn [resolve_passes].
  destruct (has_var s); [|done]. destruct (resolve_pass _ d n s) as [t|] eqn:E; [|done]. rewrite (pass_mono _ _ _ H _ _ _ E). apply IH.
Qed.

(** A history: values resolved, variables set, documents edited, with or without
    an invalidation. *)
Inductive var_op :=
| Resolve (n : option nat) (v : bytes)
| SetVar (n : option nat) (name v : bytes)
| Reset
| Edit (d : dom) (invalidate : bool).

Section history.
Context (addr : nat → Z).

Definition run_op (st : VarState) (o : var_op) : res (list bytes * VarState) :=
  match o with
  | Resolve n v => (let* (r, st) := mini_css_resolve_vars_node addr st n v in Ok ([r], st))%c
  | SetVar n name v => (let* st := node_set_var st n name v in Ok ([], st))%c
  | Reset => Ok ([], var_reset st)
  | Edit d b => Ok ([], let st := set_vdoc d st in if b then mini_css_var_cache_invalidate st else st)
  end.
Fixpoint run_ops (ops : list var_op) (st : VarState) : res (list bytes * VarState) :=
  match ops with
  | [] => Ok ([], st)
  | o :: ops => (let* (l, st) := run_op st o in let* (l', st) := run_ops ops st in Ok (l ++ l', st))%c
  end.
(** The same without a cache. *)
Definition plain_op (d : dom) (o : var_op) : res (list bytes * dom) :=
  match o with
  | Resolve n v => (let* r := resolve_vars_uncached d n v in Ok ([r], d))%c
  | SetVar n name v => (let* d := mini_node_set_var d n name v in Ok ([], d))%c
  | Reset => Ok ([], Dom (nodes d) (next_id d) (muts d) (active_dirty d) [])
  | Edit d _ => Ok ([], d)
  end.
Fixpoint plain_ops (ops : list var_op) (d : dom) : res (list bytes * dom) :=
  match ops with
  | [] => Ok ([], d)
  | o :: ops => (let* (l, d) := plain_op d o in let* (l', d) := plain_ops ops d in Ok (l ++ l', d))%c
  end.

Definition live (d : dom) (n : option nat) : Prop := match n with Some n => is_Some (nodes d !! n) | None => True end.
Definition old (d : dom) (n : option nat) : Prop := match n with Some n => (n < next_id d)%nat | None => True end.
Definition ids_ok (d : dom) : Prop := ∀ n, is_Some (nodes d !! n) → (n < next_id d)%nat.
(** What the nodes of [d] see stays as it is. *)
Definition keeps (d d' : dom) : Prop := ∀ n, live d' n → old d n → live d n ∧ ∀ name v, get_var_scoped d n name = Ok v → get_var_scoped d' n name = Ok v.
(** Variables are set where the code invalidates; an edit that changes what a
    node sees is followed by an invalidation. *)
Definition ok_op (d : dom) (o : var_op) : Prop :=
  match o with
  | Resolve n _ => live d n
  | SetVar n _ _ => is_global d n = Ok true
  | Reset => True
  | Edit d' b => ids_ok d' ∧ (next_id d <= next_id d')%nat ∧ (b = false → keeps d d')
  end.
Fixpoint ok_ops (ops : list var_op) (d : dom) : Prop :=
  match ops with
  | [] => True
  | o :: ops => ok_op d o ∧ match plain_op d o with Ok (_, d) => ok_ops ops d | UB => True end
  end.

(** The entries of the current generation say what resolving would. *)
Definition fresh (st : VarState) : Prop := ∀ i e, g_var_cache st !! i = Some e →
  vgen e <= g_var_gen st ∧ (∀ n, ptr addr n = vnode e → old (vdoc st) n) ∧
  (vgen e = g_var_gen st → ∀ n, live (vdoc st) n → ptr addr n = vnode e → resolve_vars_uncached (vdoc st) n (vvalue e) = Ok (vresolved e)).

Context (HI : ∀ n m, addr n = addr m → n = m) (H0 : ∀ n, addr n ≠ 0).

Lemma ptr_inj n m : ptr addr n = ptr addr m → n = m.
Proof using HI H0. destruct n as [n|], m as [m|]; cbn; intros H; [f_equal; by apply HI|by destruct (H0 n)|by destruct (H0 m)|done]. Qed.
Lemma invalidate_fresh st d : fresh st → 0 <= g_var_gen st < 2 ^ 64 - 1 → (next_id (vdoc st) <= next_id d)%nat →
  fresh (mini_css_var_cache_invalidate (set_vdoc d st)).
Proof.
  intros Hf Hg Hn i e He. destruct (Hf i e He) as (H1&H2&_). cbn [mini_css_var_cache_invalidate set_vdoc vdoc g_var_gen]. rewrite u64_small by lia.
  split; [lia|]. split; [|lia]. intros n E. specialize (H2 n E). destruct n as [n|]; [|done]. cbn in *. lia.
Qed.
Lemma var_find_some st p v h k i r : var_find st p v h k i = Some r →
  ∃ j e, g_var_cache st !! j = Some e ∧ vgen e = g_var_gen st ∧ vnode e = p ∧ vvalue e = v ∧ vresolved e = r.
Proof.
  revert i. induction k as [|k IH]; intros i; [done|]. cbn [var_find]. destruct (g_var_cache st !! var_slot h i) as [e|] eqn:E; [|discriminate].
  destruct (bool_decide _ && _ && _) eqn:Eb; [|apply IH]. intros [= <-]. rewrite !andb_true_iff, !bool_decide_eq_true, streq_true in Eb.
  destruct Eb as [[E1 E2] E3]. by eexists _, e.
Qed.
Lemma resolve_fresh st n v r : fresh st → ids_ok (vdoc st) → live (vdoc st) n → resolve_vars_uncached (vdoc st) n v = Ok r →
  ∃ st', mini_css_resolve_vars_node addr st n v = Ok (r, st') ∧ vdoc st' = vdoc st ∧ g_var_gen st' = g_var_gen st ∧ fresh st'.
Proof using HI H0.
  intros Hf Hids Hn Hr. unfold mini_css_resolve_vars_node. destruct (var_cache_lookup addr st n v) as [r'|] eqn:El.
  - apply var_find_some in El as (j&e&He&E1&E2&<-&<-). destruct (Hf _ _ He) as (_&_&H). rewrite (H E1 n Hn (eq_sym E2)) in Hr. injection Hr as <-. by exists st.
  - rewrite Hr. cbn [res_bind]. eexists. split; [done|]. unfold var_cache_store. destruct (var_free _ _ _ _) as [j|]; [|done]. split; [done|]. split; [done|].
    intros i e. cbn [g_var_cache g_var_gen vdoc]. intros [[<- <-]|[_ He]]%lookup_insert_Some; [|by apply (Hf i)]. cbn [vgen vnode vvalue vresolved].
    split; [lia|]. split; [|by intros _ m _ ->%ptr_inj]. intros m ->%ptr_inj. destruct n as [n|]; [|done]. by apply Hids.
Qed.
Lemma set_same {V} (l : list (bytes * V)) k v : assoc_get l k = Some v → assoc_set l k v = Some l.
Proof.
  induction l as [|[k' v'] l IH]; [done|]. cbn [assoc_get assoc_set]. destruct (streq k' k) eqn:E; [intros [= ->]; done|]. intros H. by rewrite (IH H).
Qed.
Lemma dom_eta d : Dom (nodes d) (next_id d) (muts d) (active_dirty d) (css_vars d) = d.
Proof. by destruct d. Qed.
Lemma set_global d n name v : is_global d n = Ok true → mini_node_set_var d n name v = Ok (mini_css_var_set (var_name name) v d).
Proof.
  destruct n as [n|]; [|done]. cbn [is_global mini_node_set_var]. destruct (node d n) as [x|]; [|done]. cbn [res_bind]. by intros [= ->].
Qed.

Lemma op_fresh st o l d : fresh st → ids_ok (vdoc st) → 0 <= g_var_gen st < 2 ^ 64 - 1 → ok_op (vdoc st) o → plain_op (vdoc st) o = Ok (l, d) →
  ∃ st', run_op st o = Ok (l, st') ∧ vdoc st' = d ∧ fresh st' ∧ ids_ok d ∧ 0 <= g_var_gen st' <= g_var_gen st + 1.
Proof using HI H0.
  intros Hf Hids Hg Ho Hp. destruct o as [n v|n name v| |d' b]; cbn [plain_op run_op ok_op] in *.
  - destruct (resolve_vars_uncached _ n v) as [r|] eqn:E; [|done]. injection Hp as <- <-.
    destruct (resolve_fresh st n v r Hf Hids Ho E) as (st'&->&E1&E2&Hf'). exists st'. cbn [res_bind]. rewrite E2. split_and!; try done; lia.
  - unfold node_set_var. rewrite Ho. rewrite (set_global _ _ _ _ Ho) in Hp. cbn [res_bind] in *. injection Hp as <- <-. unfold var_set. case_decide as E.
    + exists st. split; [done|]. split; [|split; [done|split; [done|lia]]]. unfold mini_css_var_set. rewrite (set_same _ _ _ E). by rewrite dom_eta.
    + eexists. split; [done|]. split; [done|]. split; [by apply invalidate_fresh|]. split; [done|].
      cbn [mini_css_var_cache_invalidate set_vdoc g_var_gen]. rewrite u64_small by lia. lia.
  - injection Hp as <- <-. eexists. split; [done|]. split; [done|]. split; [by apply invalidate_fresh|]. split; [done|].
    cbn [var_reset mini_css_var_cache_invalidate set_vdoc g_var_gen]. rewrite u64_small by lia. lia.
  - injection Hp as <- <-. destruct Ho as (Hi&Hn&Hk). eexists. split; [done|]. destruct b.
    + split; [done|]. split; [by apply invalidate_fresh|]. split; [done|]. cbn [mini_css_var_cache_invalidate set_vdoc g_var_gen]. rewrite u64_small by lia. lia.
    + split; [done|]. split; [|split; [done|cbn; lia]]. intros i e He. destruct (Hf i e He) as (H1&H2&H3). split; [done|]. split.
      * intros m E. specialize (H2 m E). destruct m as [m|]; [|done]. cbn in *. lia.
      * intros E m Hm Em. cbn [vdoc set_vdoc] in *. destruct (Hk eq_refl m Hm (H2 _ Em)) as [Hl Hg']. apply (uncached_mono (vdoc st)); [done|]. by apply H3.
Qed.

(** C20. Whatever is resolved, set and edited, in any order and over any number of
    generations, the cache gives what resolving anew would, provided that an edit
    which changes what a node sees invalidates. *)
Theorem var_cache_transparent ops st l d : fresh st → ids_ok (vdoc st) → 0 <= g_var_gen st → g_var_gen st + Z.of_nat (length ops) < 2 ^ 64 →
  ok_ops ops (vdoc st) → plain_ops ops (vdoc st) = Ok (l, d) → ∃ st', run_ops ops st = Ok (l, st') ∧ vdoc st' = d ∧ fresh st'.
Proof using HI H0.
  revert st l. induction ops as [|o ops IH]; intros st l Hf Hids Hg Hlen Hok; cbn [plain_ops run_ops]; [intros [= <- <-]; by exists st|].
  cbn [ok_ops length] in *. destruct Hok as [Ho Hops]. destruct (plain_op (vdoc st) o) as [[l1 d1]|] eqn:E; [|done]. cbn [res_bind].
  destruct (op_fresh st o l1 d1 Hf Hids ltac:(lia)) as (st1&->&<-&Hf1&Hids1&Hg1); [done|done|]. cbn [res_bind].
  destruct (plain_ops ops (vdoc st1)) as [[l2 d2]|] eqn:E2; [|done]. cbn [res_bind]. intros [= <- <-].
  destruct (IH st1 l2 Hf1 Hids1 ltac:(lia) ltac:(lia) Hops E2) as (st2&->&Hd&Hf2). by exists st2.
Qed.
End history.

(** The document, with a variable, with a new node, with a variable on the [div]. *)
Definition red_nodes : dom := Eval vm_compute in mini_css_var_set (str "c") (str "red") two_nodes.
Definition three_nodes : dom := Eval vm_compute in fst (mini_node_create_element (Some (str "b")) red_nodes).
Definition blue_nodes : dom :=
  Eval vm_compute in match mini_node_set_var three_nodes (Some 1%nat) (str "--c") (str "blue") with Ok d => d | UB => three_nodes end.
Definition var_history : list var_op :=
  [Resolve (Some 2%nat) (str "var(--c, none)"); SetVar None (str "--c") (str "red"); Resolve (Some 2%nat) (str "var(--c, none)");
   Edit three_nodes false; Resolve (Some 3%nat) (str "1px var( --c )"); Edit blue_nodes true; Resolve (Some 2%nat) (str "var(--c, none)")].
Lemma ids_within (d : dom) n lo hi : is_Some (nodes d !! n) → bool_decide (map_Forall (λ k _, lo <= k < hi)%nat (nodes d)) = true → (lo <= n < hi)%nat.
Proof. intros [x Hx] H%bool_decide_eq_true. exact (H n x Hx). Qed.
Lemma live_ok (d : dom) n : bool_decide (is_Some (nodes d !! n)) = true → live d (Some n).
Proof. by intros H%bool_decide_eq_true. Qed.
Lemma ok_ops_cons o ops d l d' : plain_op d o = Ok (l, d') → ok_op d o → ok_ops ops d' → ok_ops (o :: ops) d.
Proof. cbn [ok_ops]. by intros ->. Qed.
Lemma global_ok (d : dom) : ok_op d (SetVar None (str "--c") (str "red")).
Proof. done. Qed.
Lemma three_keeps : keeps red_nodes three_nodes.
Proof.
  intros n Hn Ho. assert (n = None ∨ n = Some 1%nat ∨ n = Some 2%nat) as Hc.
  { destruct n as [n|]; [|by left]. right. assert (1 <= n < 4)%nat as H by (apply (ids_within _ n 1 4 Hn); vm_compute; reflexivity).
    assert (n < 3)%nat as H3 by exact Ho. destruct n as [|[|[|n]]]; [lia|by left|by right|lia]. }
  destruct Hc as [->|[->| ->]]; (split; [by try eexists|intros name v H; exact H]).
Qed.
Lemma var_history_ok : ok_ops var_history two_nodes.
Proof.
  assert (ids_ok three_nodes) as H3 by (intros n Hn; refine (proj2 (ids_within _ n 1 4 Hn _)); vm_compute; reflexivity).
  assert (ids_ok blue_nodes) as Hb by (intros n Hn; refine (proj2 (ids_within _ n 1 4 Hn _)); vm_compute; reflexivity).
  apply (ok_ops_cons _ _ _ [str "none"] two_nodes); [vm_compute; reflexivity|apply live_ok; vm_compute; reflexivity|].
  apply (ok_ops_cons _ _ _ [] red_nodes); [vm_compute; reflexivity|apply global_ok|].
  apply (ok_ops_cons _ _ _ [str "red"] red_nodes); [vm_compute; reflexivity|apply live_ok; vm_compute; reflexivity|].
  apply (ok_ops_cons _ _ _ [] three_nodes); [reflexivity|split; [done|split; [vm_compute; lia|intros _; apply three_keeps]]|].
  apply (ok_ops_cons _ _ _ [str "1px red"] three_nodes); [vm_compute; reflexivity|apply live_ok; vm_compute; reflexivity|].
  apply (ok_ops_cons _ _ _ [] blue_nodes); [reflexivity|split; [done|split; [vm_compute; lia|discriminate]]|].
  apply (ok_ops_cons _ _ _ [str "blue"] blue_nodes); [vm_compute; reflexivity|apply live_ok; vm_compute; reflexivity|done].
Qed.
Lemma var_cache_transparent_witness : ∃ st', run_ops spot var_history (new_vars two_nodes)
  = Ok ([str "none"; str "red"; str "1px red"; str "blue"], st') ∧ fresh spot st'.
Proof.
  destruct (var_cache_transparent spot ltac:(unfold spot; lia) ltac:(unfold spot; lia) var_history (new_vars two_nodes)
    [str "none"; str "red"; str "1px red"; str "blue"] blue_nodes) as (st'&E'&_&Hf).
  - intros i e H. cbn in H. by rewrite lookup_empty in H.
  - intros n Hn. refine (proj2 (ids_within _ n 1 3 Hn _)). vm_compute. reflexivity.
  - cbn. lia.
  - vm_compute. reflexivity.
  - exact var_history_ok.
  - vm_compute. reflexivity.
  - exists st'. by split.
Defined.

(** ** What a value resolves to *)

(** A value: text, [var(--x)] and [var(--x,fallback)]. *)
Inductive vitem := Text (s : bytes) | Ref (x : bytes) | RefOr (x : bytes) (fallback : list vitem).
Fixpoint print_item (i : vitem) : bytes :=
  match i with
  | Text s => s
  | Ref x => str "var(--" ++ x ++ [41]
  | RefOr x fb => str "var(--" ++ x ++ 44 :: flat_map print_item fb ++ [41]
  end.
Notation print_value := (flat_map print_item).

(** All references at once: by the variable, by the fallback when it is empty,
    by 0 when there is none. *)
Definition subst_item (env : bytes → list vitem) (i : vitem) : list vitem :=
  match i with
  | Text s => [Text s]
  | Ref x => match env x with [] => [Text (str "0")] | e => e end
  | RefOr x fb => match env x with [] => fb | e => e end
  end.
Definition subst_value (env : bytes → list vitem) : list vitem → list vitem := flat_map (subst_item env).

(** Text does not spell [var] before a parenthesis or white space, not even
    together with what follows; names are words; fallbacks are balanced and
    do not begin or end in white space. *)
Fixpoint parens (s : bytes) (k : nat) : option nat :=
  match s with
  | [] => Some k
  | c :: s => if decide (c = 40) then parens s (S k) else if decide (c = 41) then match k with O => None | S k => parens s k end else parens s k
  end.
Fixpoint no_var_at (s r : bytes) : bool :=
  match s with [] => true | _ :: s' => negb (at_var (s ++ r)) && no_var_at s' r end.
Definition var_word (c : Z) : bool := c_isalnum c || bool_decide (c = 45 ∨ c = 95).
Definition clean_item (i : vitem) (r : bytes) : bool :=
  match i with
  | Text s => no_var_at s r
  | Ref x => forallb var_word x
  | RefOr x fb => forallb var_word x && bool_decide (parens (print_value fb) 0 = Some 0%nat) && streq (trim (print_value fb)) (print_value fb)
  end.
Fixpoint clean_value (e : list vitem) : bool :=
  match e with [] => true | i :: e => clean_item i (print_value e) && clean_value e end.

Lemma var_word_flat c : var_word c = true → c ≠ 40 ∧ c ≠ 41 ∧ c ≠ 44 ∧ c_isspace c = false.
Proof.
  unfold var_word, c_isalnum, c_isalpha, c_isupper, c_islower, c_isdigit, c_isspace. intros H.
  rewrite !orb_true_iff, !bool_decide_eq_true in H. rewrite bool_decide_eq_false. lia.
Qed.
Lemma var_part_parens comma s k j r : parens s j = Some k → (comma = true → 44 ∉ s) → 
  var_part comma (s ++ r) (S j) = (s ++ fst (var_part comma r (S k)), snd (var_part comma r (S k))).
Proof.
  revert j. induction s as [|c s IH]; intros j; cbn [parens app].
  - intros [= ->] _. by destruct (var_part comma r (S k)).
  - intros H Hc. cbn [var_part]. assert (comma && bool_decide (c = 44) = false) as ->.
    { destruct comma; [|done]. apply bool_decide_eq_false. intros ->. apply Hc; [done|left]. }
    assert (comma = true → 44 ∉ s) as Hc' by (intros E Hin; apply Hc; [done|by right]).
    case_decide as E1; [subst c; cbn; rewrite andb_false_r; by rewrite (IH _ H Hc')|].
    case_decide as E2.
    + subst c. destruct j as [|j]; [done|]. rewrite (bool_decide_eq_false_2 (S (S j) = 1%nat)) by lia. cbn [andb pred]. by rewrite (IH _ H Hc').
    + rewrite (bool_decide_eq_false_2 (c = 41)) by done. cbn [orb]. rewrite andb_false_r. by rewrite (IH _ H Hc').
Qed.
Lemma word_parens x k : forallb var_word x = true → parens x k = Some k ∧ 44 ∉ x.
Proof.
  revert k. induction x as [|c x IH]; intros k; cbn [forallb parens]; [by intros; split; [|apply not_elem_of_nil]|].
  intros [Hc Hx]%andb_true_iff. destruct (var_word_flat c Hc) as (H1&H2&H3&_). rewrite !decide_False by done. destruct (IH k Hx) as [E ?]. split; [done|].
  by apply not_elem_of_cons.
Qed.
Lemma trim_word x : forallb var_word x = true → trim x = x.
Proof.
  intros H. assert (∀ l, forallb var_word l = true → skip c_isspace l = l) as Hs.
  { intros [|c l]; [done|]. cbn [forallb skip]. intros [Hc _]%andb_true_iff. by destruct (var_word_flat c Hc) as (_&_&_&->). }
  unfold trim, rtrim. rewrite (Hs (rev x)), rev_involutive; [by apply Hs|]. rewrite forallb_forall in *. intros c Hc%in_rev. by apply H.
Qed.
Lemma var_name_dashes x : var_name (str "--" ++ x) = x.
Proof. unfold var_name. by rewrite (proj2 (starts_with_true _ _)) by by eexists. Qed.

Lemma skip_open l : skip c_isspace (40 :: l) = 40 :: l.
Proof. done. Qed.
Lemma part_close b l : var_part b (41 :: l) 1 = ([], 41 :: l).
Proof. done. Qed.
Lemma part_comma l : var_part true (44 :: l) 1 = ([], 44 :: l).
Proof. done. Qed.

Lemma mentions_within a p b : mentions (a ++ p ++ b) p = true.
Proof.
  apply bool_decide_eq_true. induction a as [|c a IH].
  - cbn [app]. destruct (p ++ b) eqn:E; cbn [strstr]; rewrite (proj2 (starts_with_true p _)) by (exists b; by rewrite ?E); by eexists.
  - cbn [app strstr]. destruct (starts_with p _); [by eexists|]. destruct IH as [j ->]. by eexists.
Qed.
(** A value where no reference shows is all text. *)
Lemma no_refs env e : mentions (print_value e) (str "var(") = false → subst_value env e = e.
Proof.
  intros Hm. assert (∀ i, i ∈ e → ∃ s, i = Text s) as Ht.
  { intros i (e1&e2&->)%list_elem_of_split. rewrite flat_map_app in Hm. cbn [flat_map] in Hm.
    assert (∀ w, mentions (print_value e1 ++ (str "var(--" ++ w) ++ print_value e2) (str "var(") = true) as Hw.
    { intros w. assert (str "var(--" = str "var(" ++ str "--") as -> by done. rewrite <- !app_assoc. apply mentions_within. }
    destruct i as [s|x|x fb]; [by eexists|..]; cbn [print_item] in Hm; by rewrite Hw in Hm. }
  clear Hm. induction e as [|i e IH]; [done|]. destruct (Ht i) as [s ->]; [left|]. unfold subst_value in *. cbn [flat_map subst_item app]. rewrite IH; [done|].
  intros j Hj. apply Ht. by right.
Qed.

Section meaning.
Context (d : dom) (n : option nat) (env : bytes → list vitem).
Context (He : ∀ x, get_var_scoped d n x = Ok (print_value (env x))) (Hne : ∀ x, print_value (env x) = [] → env x = []).

Lemma print_env x (f : bytes) : match print_value (env x) with [] => f | _ => print_value (env x) end
  = match env x with [] => f | _ => print_value (env x) end.
Proof using Hne.
  destruct (env x) as [|i e] eqn:E; [done|]. destruct (print_value (i :: e)) as [|c p] eqn:Ep; [|done].
  rewrite <- E in Ep. apply Hne in Ep. congruence.
Qed.
Lemma item_run i r : (∀ s, i ≠ Text s) → clean_item i r = true →
  ∃ t, print_item i ++ r = str "var" ++ t ∧ at_var (print_item i ++ r) = true
    ∧ resolve_one_var_scoped d n t = Ok (print_value (subst_item env i), r).
Proof using He Hne.
  intros Hi Hc. destruct i as [s|x|x fb]; [by destruct (Hi s)|..]; cbn [clean_item print_item subst_item] in *.
  - exists (40 :: str "--" ++ x ++ 41 :: r). assert (str "var(--" = str "var(" ++ str "--") as -> by done. rewrite <- !app_assoc. split; [done|]. split; [done|].
    unfold resolve_one_var_scoped. rewrite skip_open, expect_cons.
    assert (forallb var_word (str "--" ++ x) = true) as Hd by done. destruct (word_parens _ 0 Hd) as [Ep Ec].
    rewrite app_assoc. rewrite (var_part_parens true _ _ _ _ Ep) by done. rewrite part_close. cbn [fst snd]. rewrite app_nil_r.
    assert (expect 44 (41 :: r) = None) as -> by done. rewrite expect_cons. cbn [default]. rewrite (trim_word _ Hd), var_name_dashes, He. cbn [res_bind].
    rewrite print_env. by destruct (env x).
  - rewrite !andb_true_iff, bool_decide_eq_true, streq_true in Hc. destruct Hc as [[Hx Hb] Ht].
    exists (40 :: str "--" ++ x ++ 44 :: print_value fb ++ 41 :: r). assert (str "var(--" = str "var(" ++ str "--") as -> by done.
    split; [rewrite <- !app_assoc; cbn [app]; by rewrite <- !app_assoc|]. split; [done|].
    unfold resolve_one_var_scoped. rewrite skip_open, expect_cons.
    assert (forallb var_word (str "--" ++ x) = true) as Hd by done. destruct (word_parens _ 0 Hd) as [Ep Ec].
    rewrite app_assoc. rewrite (var_part_parens true _ _ _ _ Ep) by done. rewrite part_comma. cbn [fst snd]. rewrite app_nil_r.
    rewrite expect_cons. rewrite (var_part_parens false _ _ _ _ Hb) by done. rewrite part_close. cbn [fst snd].
    rewrite app_nil_r, expect_cons. cbn [default]. rewrite (trim_word _ Hd), var_name_dashes, He, Ht. cbn [res_bind]. rewrite print_env. by destruct (env x).
Qed.
Lemma subst_cons i e : print_value (subst_value env (i :: e)) = print_value (subst_item env i) ++ print_value (subst_value env e).
Proof. apply flat_map_app. Qed.
Lemma value_text_run s e fuel : no_var_at s (print_value e) = true → (length s <= fuel)%nat →
  ∀ t, resolve_pass (fuel - length s) d n (print_value e) = Ok t → resolve_pass fuel d n (s ++ print_value e) = Ok (s ++ t).
Proof.
  revert fuel. induction s as [|c s IH]; intros fuel Hs Hl t Ht; cbn [app]; [by rewrite Nat.sub_0_r in Ht|].
  cbn [no_var_at] in Hs. apply andb_true_iff in Hs as [Hc Hs]. apply negb_true_iff in Hc. destruct fuel as [|fuel]; [cbn in Hl; lia|]. cbn [resolve_pass app] in *.
  rewrite Hc. rewrite (IH fuel Hs ltac:(cbn in Hl; lia) t Ht). done.
Qed.
Lemma pass_run e : clean_value e = true → ∀ fuel, (length (print_value e) < fuel)%nat →
  resolve_pass fuel d n (print_value e) = Ok (print_value (subst_value env e)).
Proof using He Hne.
  induction e as [|i e IH]; intros Hc fuel Hf; [destruct fuel; [cbn in Hf; lia|done]|]. cbn [clean_value] in Hc. apply andb_true_iff in Hc as [Hi Hc].
  rewrite subst_cons. cbn [flat_map] in *. rewrite length_app in Hf.
  assert ((∃ s, i = Text s) ∨ (∀ s, i ≠ Text s)) as [[s ->]|Hn] by (destruct i; [left; by eexists|by right..]).
  - cbn [print_item subst_item flat_map] in *. rewrite app_nil_r. apply value_text_run; [done|lia|]. apply IH; [done|lia].
  - destruct (item_run i (print_value e) Hn Hi) as (t&Et&Ha&Er). destruct fuel as [|fuel]; [lia|]. cbn [resolve_pass].
    assert (length (print_item i) <> 0)%nat as Hl by (destruct i as [s| |]; [by destruct (Hn s)|cbn [print_item]; repeat (rewrite length_app || cbn [length]); lia..]).
    rewrite Et in *. cbn [str map String.list_ascii_of_string app] in *. rewrite Ha. cbn [drop]. rewrite drop_0. rewrite Er. cbn [res_bind]. rewrite IH by (done || lia). done.
Qed.
Lemma passes_run k e : (∀ i, (i < k)%nat → clean_value (Nat.iter i (subst_value env) e) = true) →
  resolve_passes k d n (print_value e) = Ok (print_value (Nat.iter k (subst_value env) e)).
Proof using He Hne.
  revert e. induction k as [|k IH]; intros e Hc; [done|]. cbn [resolve_passes]. destruct (has_var (print_value e)) eqn:Ev.
  - rewrite pass_run by (first [exact (Hc 0%nat ltac:(lia))|lia]). cbn [res_bind]. rewrite IH, <- Nat.iter_succ_r; [done|].
    intros i Hi. rewrite <- Nat.iter_succ_r. apply Hc. lia.
  - enough (Nat.iter (S k) (subst_value env) e = e) as -> by done. assert (subst_value env e = e) as E by (apply no_refs; by apply orb_false_iff in Ev as [? _]).
    clear -E. induction k as [|k IH]; [done|]. rewrite Nat.iter_succ, IH. done.
Qed.
End meaning.

(** C35. A value whose text does not spell [var] by chance resolves to its meaning:
    eight times, all its references together give way to the variable as the node
    sees it, to the fallback when that is empty, or to 0. *)
Theorem var_resolution d n env e : (∀ x, get_var_scoped d n x = Ok (print_value (env x))) → (∀ x, print_value (env x) = [] → env x = []) →
  (∀ i, (i < 8)%nat → clean_value (Nat.iter i (subst_value env) e) = true) →
  resolve_vars_uncached d n (print_value e) = Ok (print_value (Nat.iter 8 (subst_value env) e)).
Proof. intros He Hne Hc. by apply passes_run. Qed.

(** Two variables, the second of which mentions the first. *)
Definition demo_env (x : bytes) : list vitem :=
  if streq x (str "a") then [Text (str "red")] else if streq x (str "b") then [Text (str "calc("); RefOr (str "z") [Ref (str "a")]; Text (str ")")] else [].
Definition demo_value : list vitem := [Text (str "1px "); Ref (str "b"); RefOr (str "y") [Text (str "solid "); RefOr (str "q") [Ref (str "w")]]].
Definition demo_vars : dom := Dom ∅ 1 [] false [(str "a", print_value (demo_env (str "a"))); (str "b", print_value (demo_env (str "b")))].
Lemma var_resolution_witness : print_value demo_value = str "1px var(--b)var(--y,solid var(--q,var(--w)))"
  ∧ resolve_vars_uncached demo_vars None (print_value demo_value) = Ok (str "1px calc(red)solid 0").
Proof.
  split; [vm_compute; reflexivity|]. rewrite (var_resolution demo_vars None demo_env).
  - vm_compute. reflexivity.
  - intros x. unfold get_var_scoped, demo_env. cbn. unfold mini_css_var_get. cbn [css_vars demo_vars assoc_get].
    destruct (decide (x = str "a")) as [->|Ha]; [done|]. destruct (decide (x = str "b")) as [->|Hb]; [done|].
    unfold streq. rewrite !bool_decide_eq_false_2; [done|..]; intros Eq; first [exact (Ha Eq)|exact (Hb Eq)|exact (Ha (eq_sym Eq))|exact (Hb (eq_sym Eq))].
  - intros x. unfold demo_env. by repeat destruct (streq _ _).
  - intros i Hi. assert (Forall (λ i, clean_value (Nat.iter i (subst_value demo_env) demo_value) = true) (seq 0 8)) as H by (vm_compute; repeat constructor).
    rewrite Forall_forall in H. apply H, elem_of_seq. lia.
Defined.
