(* ===== verification/CssMedia.v ===== *)
(** * Media queries (src/src/mini_css.c)

    [mini_css_media_matches] and what it calls.  Lengths are [float]s, which are
    written here as fractions: an operation is exact and then rounded to 24 bits,
    ties to even.  Exponents are not bounded: a value past the range of [float] is
    past that of [int] as well, where the conversion has no meaning, and one too
    small for it is 0 as an [int].  The forms of [atof] other than decimal numbers
    (hexadecimal, infinity, not a number) have no meaning here. *)

From stdpp Require Import gmap list.
From S2P Require Import Prelude CString Dom Selectors.
Open Scope Z_scope.

(** ** Numbers *)

(** A numerator and a positive denominator. *)
Record frac := Frac { num : Z; den : Z }.
Definition frac_of (n : Z) : frac := Frac n 1.
Definition scale (n e : Z) : Z := n * 2 ^ Z.max e 0.
(** The power of two under [n / d]. *)
Definition exponent (n d : Z) : Z :=
  let e := Z.log2 n - Z.log2 d in if decide (scale d e <= scale n (- e)) then e else e - 1.
(** [n / d] to the nearest integer, ties to even. *)
Definition nearest (n d : Z) : Z :=
  let q := n / d in let r := 2 * (n mod d) in
  if decide (r < d) then q else if decide (d < r) then q + 1 else if Z.even q then q else q + 1.
Definition round_frac (p : Z) (x : frac) : frac :=
  let n := Z.abs (num x) in
  if decide (n = 0) then frac_of 0 else
  let e := exponent n (den x) - (p - 1) in
  Frac (Z.sgn (num x) * scale (nearest (scale n (- e)) (scale (den x) e)) e) (2 ^ Z.max (- e) 0).
Definition fmul (x y : frac) : frac := round_frac 24 (Frac (num x * num y) (den x * den y)).
Definition fdiv (x y : frac) : frac := round_frac 24 (Frac (num x * den y * Z.sgn (num y)) (den x * Z.abs (num y))).
Definition float_of (n : Z) : frac := round_frac 24 (frac_of n).
(** [(int)]. *)
Definition trunc (x : frac) : res Z :=
  let z := Z.quot (num x) (den x) in if decide (- 2 ^ 31 <= z < 2 ^ 31) then Ok z else UB.

(** The exponent after the digits, if there is one. *)
Definition exp_part (s : bytes) : Z :=
  if bool_decide (hd0 s = 101 ∨ hd0 s = 69) then
    let t := tail s in
    let u := if is_sign (hd0 t) then tail t else t in
    if c_isdigit (hd0 u) then (if decide (hd0 t = 45) then -1 else 1) * digits 0 u else 0
  else 0.
Definition decimal (s : bytes) : frac :=
  let '(a, s) := scan c_isdigit (length s) s in
  let '(b, s) := match expect 46 s with Some s => scan c_isdigit (length s) s | None => ([], s) end in
  if decide (a ++ b = []) then frac_of 0 else
  let e := exp_part s - Z.of_nat (length b) in
  Frac (digits 0 (a ++ b) * 10 ^ Z.max e 0) (10 ^ Z.max (- e) 0).
(** [(float) atof (s)]. *)
Definition atof (s : bytes) : res frac :=
  let s := skip c_isspace s in
  let u := if is_sign (hd0 s) then tail s else s in
  if starts_with_ci (str "inf") u || starts_with_ci (str "nan") u || starts_with_ci (str "0x") u then UB else
  let x := decimal u in
  Ok (round_frac 24 (round_frac 53 (Frac (if decide (hd0 s = 45) then - num x else num x) (den x)))).

(** ** Features *)

Definition within (s p : bytes) : bool := bool_decide (is_Some (strstr s p)).
Definition media_length (s : bytes) (vw vh : Z) : res frac :=
  let s := skip c_isspace s in
  (let* v := atof s in
   Ok (if within s (str "px") then v
       else if within s (str "em") then fmul v (frac_of 16)
       else if within s (str "vw") then fdiv (fmul v (float_of vw)) (frac_of 100)
       else if within s (str "vh") then fdiv (fmul v (float_of vh)) (frac_of 100)
       else if within s (str "%") then fdiv (fmul v (float_of vw)) (frac_of 100)
       else v))%c.
Definition media_feature (f : bytes) (vw vh : Z) : res bool :=
  match expect 40 (skip c_isspace f) with
  | None => Ok true
  | Some f =>
    let '(name, f) := scan (λ c, negb (bool_decide (c = 58 ∨ c = 41))) 31 f in
    let name := c_tolower <$> name in
    let f := skip c_isspace f in
    let f := skip c_isspace (default f (expect 58 f)) in
    let '(val, _) := scan (λ c, negb (bool_decide (c = 41))) 63 f in
    let test (g : Z → bool) := (let* x := media_length val vw vh in let* l := trunc x in Ok (g l))%c in
    if within name (str "min-width") then test (λ l, bool_decide (l <= vw))
    else if within name (str "max-width") then test (λ l, bool_decide (vw <= l))
    else if within name (str "min-height") then test (λ l, bool_decide (l <= vh))
    else if within name (str "max-height") then test (λ l, bool_decide (vh <= l))
    else if within name (str "orientation") then
      let land := bool_decide (vh <= vw) in Ok (if within val (str "landscape") then land else negb land)
    else Ok (negb (within name (str "color-scheme") || within name (str "prefers-")))
  end.

(** ** Queries *)

(** [starts_with] of mini_css.c. *)
Definition leads (s : bytes) (p : string) : bool := starts_with_ci (str p) s.
Fixpoint media_loop (fuel : nat) (p : bytes) (vw vh : Z) : res bool :=
  match fuel with
  | O => UB
  | S fuel =>
    let p := skip c_isspace p in
    if decide (hd0 p = 40) then
      let '(feat, q) := paren_block p 0 in
      (let* ok := media_feature feat vw vh in
       if ok : bool then
         let p := skip c_isspace q in
         if leads p "and" then media_loop fuel (drop 3 p) vw vh else Ok true
       else Ok false)%c
    else Ok true
  end.
Definition mini_css_media_matches (cond : bytes) (vw vh : Z) : res bool :=
  let p := skip c_isspace cond in
  let go p := media_loop (S (length p)) p vw vh in
  if leads p "all" || leads p "screen" then
    let k := if decide (hd0 p = 97) then 3%nat else 6%nat in
    if decide (length p < k)%nat then UB else go (skip c_isspace (drop k p))
  else if leads p "print" then Ok false
  else go p.

Definition media (cond : string) (vw vh : Z) : option bool := match mini_css_media_matches (str cond) vw vh with Ok b => Some b | UB => None end.
(** The tests of [mini_css_selftest], and lengths that round. *)
Example media_selftest : (media "(min-width: 768px)" 1024 768, media "(min-width: 2000px)" 1024 768,
  media "screen and (max-width: 1024px)" 800 600, media "(orientation: portrait)" 1024 768) = (Some true, Some false, Some true, Some false).
Proof. vm_compute. done. Qed.
Example media_rounding : (media "(min-width: 47.99999999em)" 768 10, media "(max-width: 33.3vw)" 300 10, media "(max-width: 1e-3px)" 0 0, media "(min-width: 1e30px)" 1 1)
  = (Some true, Some false, Some true, None).
Proof. vm_compute. done. Qed.
(** After a media type nothing is looked at, since the [and] is not passed over. *)
Example media_type_wins : media "screen and (max-width: 1024px)" 9999 600 = Some true ∧ media "all and (min-width: 5000px)" 10 10 = Some true.
Proof. vm_compute. done. Qed.
(** A capital [All] is skipped as if it were [screen]. *)
Example media_capital_all : media "ALL" 10 10 = None.
Proof. vm_compute. done. Qed.
(** What is not understood holds: negations, [only], lists. *)
Example media_unknown : (media "not all" 10 10, media "only print" 10 10, media "(min-width: 5px), (max-width: 1px)" 1 1, media "(max-width: 1px), all" 9 9)
  = (Some true, Some true, Some false, Some false).
Proof. vm_compute. done. Qed.

(** ** What queries mean *)

Inductive dimension := Width | Height.
(** A bound from below or from above, in pixels. *)
Record feature := Feature { fdim : dimension; flow : bool; fpx : Z }.
Definition feature_name (f : feature) : bytes :=
  str (if flow f then "min-" else "max-") ++ str (match fdim f with Width => "width" | Height => "height" end).
Definition print_feature (f : feature) : bytes := 40 :: feature_name f ++ str ": " ++ c_dec (fpx f) ++ str "px)".
Fixpoint print_features (l : list feature) : bytes :=
  match l with [] => [] | [f] => print_feature f | f :: l => print_feature f ++ str " and " ++ print_features l end.
Definition holds (vw vh : Z) (f : feature) : bool :=
  let v := match fdim f with Width => vw | Height => vh end in if flow f then bool_decide (fpx f <= v) else bool_decide (v <= fpx f).

Lemma scale_neg n e : e <= 0 → scale n e = n.
Proof. intros H. unfold scale. rewrite Z.max_r by lia. lia. Qed.
Lemma exponent_exact n k : 0 < n → 0 < k → exponent (n * k) k = Z.log2 n.
Proof.
  intros Hn Hk. unfold exponent. pose proof (Z.log2_mul_below n k ltac:(lia) ltac:(lia)). pose proof (Z.log2_mul_above n k ltac:(lia) ltac:(lia)).
  pose proof (Z.log2_nonneg n). destruct (Z.log2_spec n Hn) as [L1 L2]. assert (Z.log2 (n * k) - Z.log2 k = Z.log2 n ∨ Z.log2 (n * k) - Z.log2 k = Z.log2 n + 1) as [->| ->] by lia.
  - rewrite decide_True; [done|]. rewrite (scale_neg _ (- _)) by lia. unfold scale. rewrite Z.max_l by lia. nia.
  - rewrite decide_False; [lia|]. rewrite (scale_neg _ (- _)) by lia. unfold scale. rewrite Z.max_l by lia. replace (Z.log2 n + 1) with (Z.succ (Z.log2 n)) by lia. nia.
Qed.
Lemma nearest_exact a k : 0 < k → nearest (a * k) k = a.
Proof. intros Hk. unfold nearest. rewrite Z.div_mul, Z.mod_mul by lia. by rewrite decide_True. Qed.
Lemma exact_frac p n k : 0 <= n < 2 ^ p → 0 < p → 0 < k → ∃ j, round_frac p (Frac (n * k) k) = Frac (n * j) j ∧ 0 < j.
Proof.
  intros Hn Hp Hk. unfold round_frac. cbn [num den]. rewrite Z.abs_eq by nia. case_decide as E0; [assert (n = 0) as -> by nia; by exists 1|].
  assert (0 < n) as Hn0 by nia. rewrite exponent_exact by done. assert (Z.log2 n < p) as Hl by (apply Z.log2_lt_pow2; lia).
  exists (2 ^ (p - 1 - Z.log2 n)). split; [|by apply Z.pow_pos_nonneg; lia]. rewrite (scale_neg k), (scale_neg _ (_ - _)) by lia.
  unfold scale. rewrite Z.max_l by lia. replace (- (Z.log2 n - (p - 1))) with (p - 1 - Z.log2 n) by lia.
  replace (n * k * 2 ^ (p - 1 - Z.log2 n)) with (n * 2 ^ (p - 1 - Z.log2 n) * k) by ring. rewrite nearest_exact by done.
  rewrite Z.sgn_pos by nia. f_equal. lia.
Qed.
Lemma trunc_exact n j : 0 <= n < 2 ^ 31 → 0 < j → trunc (Frac (n * j) j) = Ok n.
Proof. intros Hn Hj. unfold trunc. cbn [num den]. rewrite Z.quot_mul by lia. rewrite decide_True by lia. done. Qed.

Lemma lower_digit c : 48 <= c <= 57 → c_tolower c = c.
Proof. intros H. unfold c_tolower, c_isupper. by rewrite bool_decide_eq_false_2 by lia. Qed.
Lemma atof_px n : 0 <= n < 2 ^ 24 → ∃ j, atof (c_dec n ++ str "px") = Ok (Frac (n * j) j) ∧ 0 < j.
Proof.
  intros Hn. unfold c_dec. rewrite decide_False by lia. destruct (udec_cons 19 n ltac:(lia)) as (c&r&Ec&Hc).
  pose proof (udec_digits 20 n ltac:(lia)) as Hd. pose proof (digits_udec 20 n ltac:(lia)) as Hv. generalize dependent (udec 20 n). intros u -> Hd Hv.
  unfold atof. assert (skip c_isspace ((c :: r) ++ str "px") = c :: r ++ str "px") as ->.
  { apply skip_none. intros x y [= <- _]. unfold c_isspace. apply bool_decide_eq_false. lia. }
  cbn [hd0]. assert (is_sign c = false) as -> by (unfold is_sign; apply bool_decide_eq_false; lia). rewrite decide_False by lia.
  assert (∀ x a, starts_with_ci (105 :: a) (c :: x) = false ∧ starts_with_ci (110 :: a) (c :: x) = false) as Hs.
  { intros x a. unfold starts_with_ci. cbn [length take map]. rewrite lower_digit by lia. split; apply bool_decide_eq_false; intros [= H]; revert H; vm_compute (c_tolower _); lia. }
  assert (starts_with_ci (str "inf") (c :: r ++ str "px") = false) as -> by apply (proj1 (Hs _ (str "nf"))).
  assert (starts_with_ci (str "nan") (c :: r ++ str "px") = false) as -> by apply (proj2 (Hs _ (str "an"))). cbn [orb].
  assert (starts_with_ci (str "0x") (c :: r ++ str "px") = false) as ->.
  { unfold starts_with_ci. apply bool_decide_eq_false. destruct r as [|c2 r]; [intros [= H]; discriminate H|]. apply Forall_cons in Hd as [_ [H2 _]%Forall_cons].
    cbn [length str String.list_ascii_of_string map app take]. rewrite !lower_digit by lia. intros [= H H']. revert H'. vm_compute (c_tolower _). lia. }
  assert (decimal (c :: r ++ str "px") = Frac (n * 1) 1) as ->.
  { unfold decimal. change (c :: r ++ str "px") with ((c :: r) ++ str "px"). rewrite scan_app.
    - change (expect 46 (str "px")) with (@None bytes). cbv iota beta. rewrite app_nil_r. rewrite decide_False by done.
      change (exp_part (str "px")) with 0. cbn [length]. rewrite Hv. f_equal; lia.
    - eapply Forall_impl; [exact Hd|]. intros x Hx. by apply c_isdigit_true.
    - rewrite length_app. lia.
    - by intros ? ? [= <- _]. }
  cbn [num den]. destruct (exact_frac 53 n 1) as (j&->&Hj); [lia..|]. destruct (exact_frac 24 n j) as (j'&->&Hj'); [lia..|]. by exists j'.
Qed.
Lemma px_chars n : 0 <= n < 2 ^ 24 → Forall (λ c, 48 <= c <= 57 ∨ c = 112 ∨ c = 120) (c_dec n ++ str "px") ∧ (length (c_dec n ++ str "px") <= 23)%nat.
Proof.
  intros Hn. split.
  - apply Forall_app. split; [|repeat constructor; lia]. unfold c_dec. rewrite decide_False by lia. eapply Forall_impl; [apply udec_digits; lia|]. cbn. lia.
  - rewrite length_app. pose proof (length_c_dec n). cbn. lia.
Qed.
Lemma within_end s p : within (s ++ p) p = true.
Proof.
  apply bool_decide_eq_true. induction s as [|c s IH]; cbn [app].
  - destruct p as [|c p]; cbn [strstr]; [by eexists|]. rewrite (proj2 (starts_with_true (c :: p) _)) by (exists []; by rewrite app_nil_r). by eexists.
  - cbn [strstr]. destruct (starts_with p _); [by eexists|]. destruct IH as [j ->]. by eexists.
Qed.
Lemma feature_run f vw vh : 0 <= fpx f < 2 ^ 24 → media_feature (print_feature f) vw vh = Ok (holds vw vh f).
Proof.
  intros Hn. destruct (px_chars _ Hn) as [Hc Hl]. destruct (atof_px _ Hn) as (j&Ea&Hj).
  unfold media_feature, print_feature. rewrite skip_none by (by intros ? ? [= <- _]). rewrite expect_cons.
  assert (∀ x, scan (λ c, negb (bool_decide (c = 58 ∨ c = 41))) 31 (feature_name f ++ str ": " ++ x) = (feature_name f, str ": " ++ x)) as ->.
  { intros x. destruct f as [[] [] z]; reflexivity. }
  assert (∀ x, skip c_isspace (str ": " ++ x) = 58 :: 32 :: x) as -> by done. rewrite expect_cons. cbn [from_option id]. assert (∀ x, skip c_isspace (32 :: x) = skip c_isspace x) as -> by done.
  assert (skip c_isspace (c_dec (fpx f) ++ str "px)") = (c_dec (fpx f) ++ str "px") ++ [41]) as ->.
  { rewrite <- app_assoc. apply skip_none. intros x y E. rewrite Forall_app in Hc. destruct Hc as [Hc _]. destruct (c_dec (fpx f)) as [|c l]; cbn in E; injection E as <- _; [done|].
    apply Forall_cons in Hc as [Hc _]. unfold c_isspace. apply bool_decide_eq_false. lia. }
  rewrite scan_app; [|eapply Forall_impl; [exact Hc|]; cbn; intros c Hx; rewrite bool_decide_eq_false_2 by lia; done|lia|by intros ? ? [= <- _]].
  assert (media_length (c_dec (fpx f) ++ str "px") vw vh = Ok (Frac (fpx f * j) j)) as El.
  { unfold media_length. assert (skip c_isspace (c_dec (fpx f) ++ str "px") = c_dec (fpx f) ++ str "px") as ->.
    { apply skip_none. intros x y E. rewrite E in Hc. apply Forall_cons in Hc as [Hc _]. unfold c_isspace. apply bool_decide_eq_false. lia. }
    rewrite Ea. cbn [res_bind]. by rewrite within_end. }
  rewrite El. cbn [res_bind]. rewrite trunc_exact by lia. cbn [res_bind]. unfold holds. destruct f as [[] [] z]; reflexivity.
Qed.

Lemma feature_block f r : paren_block (print_feature f ++ r) 0 = (print_feature f, r).
Proof.
  assert (∀ s k, Forall (λ c, c ≠ 40 ∧ c ≠ 41) s → paren_block (s ++ 41 :: r) (S k) = (s ++ fst (paren_block (41 :: r) (S k)), snd (paren_block (41 :: r) (S k)))) as Hp.
  { induction s as [|c s IH]; intros k Hs; cbn [app]; [by destruct (paren_block (41 :: r) (S k))|]. apply Forall_cons in Hs as [[H1 H2] Hs].
    cbn [paren_block]. rewrite !(decide_False (P := c = _)) by done. fold paren_block. rewrite IH by done. cbn [paren_block]. by destruct k. }
  unfold print_feature. cbn [app paren_block]. rewrite decide_True by done.
  assert (feature_name f ++ str ": " ++ c_dec (fpx f) ++ str "px)" = (feature_name f ++ str ": " ++ c_dec (fpx f) ++ str "px") ++ [41]) as ->
    by (rewrite <- !app_assoc; reflexivity).
  rewrite <- app_assoc. cbn [app]. rewrite Hp; [reflexivity|]. rewrite !Forall_app. split_and!.
  - destruct f as [[] [] z]; repeat constructor; done.
  - repeat constructor; done.
  - eapply Forall_impl; [apply c_dec_chars|]. cbn. lia.
  - repeat constructor; done.
Qed.
Lemma features_run l vw vh fuel : Forall (λ f, 0 <= fpx f < 2 ^ 24) l → (length l < fuel)%nat → ∀ s, s = [] ∨ s = [32] →
  media_loop fuel (s ++ print_features l) vw vh = Ok (forallb (holds vw vh) l).
Proof.
  intros Hl Hf s Hs. revert fuel Hf s Hs. induction l as [|f l IH]; intros [|fuel] Hf s Hs; cbn [length] in Hf; try lia; [by destruct Hs as [->| ->]|].
  apply Forall_cons in Hl as [Hf1 Hl]. cbn [media_loop forallb].
  assert (∃ r, print_features (f :: l) = print_feature f ++ r ∧ (l = [] → r = []) ∧ (l ≠ [] → r = str " and " ++ print_features l)) as (r&->&H1&H2).
  { destruct l as [|g l]; [exists []|exists (str " and " ++ print_features (g :: l))]; by rewrite ?app_nil_r. }
  assert (skip c_isspace (s ++ print_feature f ++ r) = print_feature f ++ r) as -> by (destruct Hs as [->| ->]; reflexivity).
  rewrite decide_True by done. rewrite feature_block, feature_run by done. cbn [res_bind]. destruct (holds vw vh f); [|done]. cbn [andb].
  destruct l as [|g l]; [rewrite H1 by done; reflexivity|]. rewrite H2 by done.
  assert (skip c_isspace (str " and " ++ print_features (g :: l)) = str "and " ++ print_features (g :: l)) as -> by reflexivity.
  assert (leads (str "and " ++ print_features (g :: l)) "and" = true) as -> by reflexivity.
  assert (drop 3 (str "and " ++ print_features (g :: l)) = [32] ++ print_features (g :: l)) as -> by reflexivity. apply IH; [done|cbn in *; lia|by right].
Qed.

Lemma open_leads r t : c_tolower (hd0 (str t)) ≠ 40 → str t ≠ [] → leads (40 :: r) t = false.
Proof.
  unfold leads. destruct (str t) as [|c p]; [done|]. cbn [hd0]. intros Hc _. unfold starts_with_ci. apply bool_decide_eq_false. cbn [length take map]. intros [= H _].
  by apply Hc.
Qed.
Lemma features_length l : (length l <= length (print_features l))%nat.
Proof.
  induction l as [|f [|g l] IH]; [done|cbn; lia|].
  change (print_features (f :: g :: l)) with (print_feature f ++ str " and " ++ print_features (g :: l)). rewrite !length_app.
  change (length (str " and ")) with 5%nat. cbn [length] in *. lia.
Qed.

Lemma media_features l vw vh : l ≠ [] → Forall (λ f, 0 <= fpx f < 2 ^ 24) l → mini_css_media_matches (print_features l) vw vh = Ok (forallb (holds vw vh) l).
Proof.
  intros Hn Hl. unfold mini_css_media_matches. assert (∃ r, print_features l = 40 :: r) as [r Er] by (destruct l as [|f [|g l]]; [done|by eexists..]).
  rewrite skip_none by (rewrite Er; by intros ? ? [= <- _]). rewrite Er, !open_leads by done. cbn [orb]. rewrite <- Er.
  apply (features_run l vw vh _ Hl) with (s := []); [|by left]. pose proof (features_length l). lia.
Qed.

(** A query of bounds on the size holds when all its bounds do; behind a
    media type of the screen it holds whatever they are. *)
Theorem media_bounds l vw vh : l ≠ [] → Forall (λ f, 0 <= fpx f < 2 ^ 24) l →
  mini_css_media_matches (print_features l) vw vh = Ok (forallb (holds vw vh) l)
  ∧ (∀ t, t ∈ ["all"; "screen"]%string → mini_css_media_matches (str t ++ str " and " ++ print_features l) vw vh = Ok true)
  ∧ mini_css_media_matches (str "print and " ++ print_features l) vw vh = Ok false.
Proof.
  intros Hn Hl. split; [by apply media_features|split].
  - intros t [->|[->|[]%elem_of_nil]%elem_of_cons]%elem_of_cons; reflexivity.
  - reflexivity.
Qed.
Lemma media_bounds_witness :
  let l := [Feature Width true 768; Feature Height false 1000] in
  print_features l = str "(min-width: 768px) and (max-height: 1000px)"
  ∧ mini_css_media_matches (print_features l) 1024 768 = Ok true ∧ mini_css_media_matches (print_features l) 700 768 = Ok false
  ∧ mini_css_media_matches (str "screen and " ++ print_features l) 700 768 = Ok true.
Proof.
  intros l. assert (l ≠ []) as Hn by discriminate. assert (Forall (λ f, 0 <= fpx f < 2 ^ 24) l) as Hl by (repeat constructor; cbn; lia).
  split; [vm_compute; reflexivity|]. split; [|split].
  - rewrite (proj1 (media_bounds l 1024 768 Hn Hl)). reflexivity.
  - rewrite (proj1 (media_bounds l 700 768 Hn Hl)). reflexivity.
  - exact (proj1 (proj2 (media_bounds l 700 768 Hn Hl)) "screen"%string (list_elem_of_further _ _ _ (list_elem_of_here _ _))).
Defined.
