(* ===== verification/Stylesheet.v ===== *)
(** * Style sheets (src/src/mini_dom.c, the first half of [mini_css_apply])

    From the text of a style sheet to its rules and declarations: comments are
    stripped, at-rules expanded or dropped, nested rules flattened, and the flat
    rules cut into declarations.  Key frames and font faces found on the way are
    given as events. *)

From stdpp Require Import gmap list.
From S2P Require Import Prelude CString Dom Selectors CssVars CssMedia.
Open Scope Z_scope.

(** ** Specificity *)

Definition css_name_char (c : Z) : bool := c_isalnum c || bool_decide (c = 45 ∨ c = 95).
Definition spec_value (a b c : Z) : Z := u32 (a * 10000 + b * 100 + c).
(** What the block in parentheses after a pseudo-class holds, without its last
    character, which closes it. *)
Definition block_arg (block : bytes) : bytes := removelast (tail block).
(** The loop of [spec_of] with the best part so far and the counts of this one. *)
Fixpoint spec_loop (fuel : nat) (s : bytes) (at_start : bool) (best a b c : Z) : Z :=
  match fuel, s with
  | S fuel, ch :: p =>
    if decide (ch = 44) then spec_loop fuel p true (Z.max best (spec_value a b c)) 0 0 0
    else if split_space ch || combinator ch then spec_loop fuel p true best a b c
    else if decide (ch = 91) then
      let r := snd (scan not_close (length p) p) in
      spec_loop fuel (default r (expect 93 r)) false best a (u32 (b + 1)) c
    else if decide (ch = 58) then
      let dbl := bool_decide (hd0 p = 58) in
      let '(name, r) := scan name_char (length p) (default p (expect 58 p)) in
      let plain := if dbl then spec_loop fuel r false best a b (u32 (c + 1)) else spec_loop fuel r false best a (u32 (b + 1)) c in
      if decide (hd0 r = 40) then
        let '(block, r) := paren_block r 0 in
        let arg := block_arg block in
        if negb dbl && streq name (str "where") then spec_loop fuel r false best a b c
        else if negb dbl && (streq name (str "is") || streq name (str "not")) && bool_decide (arg ≠ []) then
          let v := spec_loop fuel (take 255 arg) true 0 0 0 0 in
          spec_loop fuel r false best (u32 (a + v / 10000)) (u32 (b + v mod 10000 / 100)) (u32 (c + v mod 100))
        else if dbl then spec_loop fuel r false best a b (u32 (c + 1))
        else spec_loop fuel r false best a (u32 (b + 1)) c
      else plain
    else if decide (ch = 35) then spec_loop fuel (skip css_name_char p) false best (u32 (a + 1)) b c
    else if decide (ch = 46) then spec_loop fuel (skip css_name_char p) false best a (u32 (b + 1)) c
    else if decide (ch = 42) then spec_loop fuel p false best a b c
    else if at_start && c_isalpha ch then spec_loop fuel p false best a b (u32 (c + 1))
    else spec_loop fuel p at_start best a b c
  | _, _ => Z.max best (spec_value a b c)
  end.
Definition spec_of (sel : bytes) : Z := spec_loop (S (length sel)) sel true 0 0 0 0.

(** The value without [!important], and whether it had it. *)
Definition strip_important (val : bytes) : bytes * bool :=
  let v := rtrim val in
  let n := length v in
  if decide (10 <= n)%nat then
    if streq (c_tolower <$> drop (n - 10) v) (str "!important") then (rtrim (take (n - 10) v), true) else (v, false)
  else (v, false).

(** ** Comments *)

(** Past the star and slash that end a comment. *)
Fixpoint comment_end (s : bytes) : bytes :=
  match s with
  | c :: t => if bool_decide (c = 42) && bool_decide (hd0 t = 47) then tail t else comment_end t
  | [] => []
  end.
Fixpoint strip_comments (fuel : nat) (s : bytes) : bytes :=
  match fuel, s with
  | S fuel, c :: t =>
    if bool_decide (c = 47) && bool_decide (hd0 t = 42) then strip_comments fuel (comment_end (tail t))
    else c :: strip_comments fuel t
  | _, _ => []
  end.
Definition strip_css_comments (css : bytes) : bytes := strip_comments (length css) css.

(** ** Blocks *)

(** From an opening brace: what is skipped and what is left. *)
Fixpoint css_skip_block (s : bytes) (depth : nat) : bytes * bytes :=
  match s with
  | [] => ([], [])
  | c :: s =>
    let depth := if decide (c = 123) then S depth else if decide (c = 125) then pred depth else depth in
    match depth with
    | O => ([c], s)
    | _ => let '(t, r) := css_skip_block s depth in (c :: t, r)
    end
  end.
(** The inside of the block and where to go on: past the last character skipped
    when it is a closing brace, else at it.  An opening brace at the very end has an
    inside of length -1, which is copied. *)
Definition block_inside (s : bytes) : res (bytes * bytes) :=
  let '(t, r) := css_skip_block s 0 in
  match tail t with
  | [] => UB
  | u => let close := default 0 (last u) in Ok (removelast u, if decide (close = 125) then r else close :: r)
  end.
(** To the first [c], and from it. *)
Definition upto (c : Z) (s : bytes) : option (bytes * bytes) :=
  match strchr s c with Some i => Some (take i s, drop i s) | None => None end.

(** ** [@supports] *)

Definition known_props : list string :=
  ["display"; "flex-direction"; "flex-wrap"; "flex-grow"; "flex-shrink"; "flex-basis"; "flex"; "order"; "align-content"; "justify-content";
   "align-items"; "align-self"; "gap"; "grid-template-columns"; "grid-template-rows"; "grid-auto-flow"; "grid-column"; "grid-row";
   "grid-area"; "position"; "top"; "left"; "right"; "bottom"; "z-index"; "width"; "height"; "min-width"; "max-width"; "min-height"; "max-height";
   "margin"; "padding"; "border"; "border-radius"; "box-shadow"; "box-sizing"; "color"; "background"; "background-color"; "background-image";
   "font-size"; "font-weight"; "font-family"; "font-style"; "text-align"; "text-decoration"; "text-transform"; "vertical-align"; "line-height";
   "letter-spacing"; "opacity"; "overflow"; "transform"; "filter"; "backdrop-filter"; "transition"; "animation"; "cursor"; "pointer-events";
   "visibility"; "float"; "clear"]%string.
(** The value is not looked at. *)
Definition mini_style_is_supported_prop_val (prop : bytes) : bool := existsb (λ s, streq (skip c_isspace prop) (str s)) known_props.
Definition css_eval_supports_single (expr : bytes) : bool :=
  let e := skip c_isspace expr in
  let e := default e (expect 40 e) in
  match upto 58 e with
  | None => false
  | Some (prop, _) => mini_style_is_supported_prop_val (trim (take 63 prop))
  end.
(** [strtok_r]: the stretches of characters that are not in the set. *)
Fixpoint tokens (sep : Z → bool) (s acc : bytes) : list bytes :=
  let flush := match acc with [] => [] | _ => [acc] end in
  match s with
  | [] => flush
  | c :: s => if sep c then flush ++ tokens sep s [] else tokens sep s (acc ++ [c])
  end.
Definition among (l : string) (c : Z) : bool := bool_decide (c ∈ str l).
Definition supports_list (sep : string) (cond : bytes) : list bool :=
  map css_eval_supports_single (List.filter (λ t, negb (streq t [])) (map (skip c_isspace) (tokens (among sep) (take 255 cond) []))).
Definition css_eval_supports (cond : bytes) : bool :=
  match cond with
  | [] => true
  | _ =>
    let others :=
      if mentions cond (str " and ") then forallb id (supports_list " and " cond)
      else if mentions cond (str " or ") then existsb id (supports_list " or " cond)
      else css_eval_supports_single cond in
    if mentions cond (str "not ") || mentions cond (str "not(") then
      match upto 40 cond with Some (_, inner) => negb (css_eval_supports_single inner) | None => others end
    else others
  end.

(** ** At-rules *)

Inductive at_event := Keyframes (name body : bytes) | FontFace (body : bytes).
(** What an at-rule adds to the sheet, its event, and where to go on; none ends the sheet. *)
Definition at_step : Type := bytes * list at_event * option bytes.
Definition at_block (p : bytes) (k : bytes → bytes → res (bytes * list at_event)) : res at_step :=
  match upto 123 p with
  | None => Ok ([], [], None)
  | Some (pre, b) => (let* (ib, next) := block_inside b in let* (out, ev) := k pre ib in Ok (out, ev, Some next))%c
  end.
(** A semicolon that comes before any brace. *)
Definition semi_first (p : bytes) : option bytes :=
  match strchr p 59, strchr p 123 with
  | Some i, Some j => if decide (i < j)%nat then Some (drop (S i) p) else None
  | Some i, None => Some (drop (S i) p)
  | None, _ => None
  end.
(** At what follows the [@]. *)
Definition at_rule (p : bytes) (vw vh : Z) : res at_step :=
  let '(kw, p) := scan (λ c, c_isalpha c || bool_decide (c = 45)) (length p) p in
  let kw := c_tolower <$> take 23 kw in
  let named s := streq kw (str s) in
  let keep (ib : bytes) : bytes := ib ++ [10] in
  if named "media" then at_block p (λ cond ib, (let* m := mini_css_media_matches (take 255 cond) vw vh in Ok (if m : bool then keep ib else [], []))%c)
  else if named "keyframes" then
    let '(name, q) := scan css_name_char (length p) (skip c_isspace p) in
    at_block q (λ _ ib, Ok ([], [Keyframes (take 63 name) ib]))
  else if named "font-face" then at_block p (λ _ ib, Ok ([], [FontFace ib]))
  else if named "supports" then at_block p (λ cond ib, Ok (if css_eval_supports (take 255 cond) then keep ib else [], []))
  else if named "layer" then
    match semi_first p with Some q => Ok ([], [], Some q) | None => at_block p (λ _ ib, Ok (keep ib, [])) end
  else
    match semi_first p with
    | Some q => Ok ([], [], Some q)
    | None => Ok ([], [], match upto 123 p with Some (_, b) => Some (snd (css_skip_block b 0)) | None => None end)
    end.
Fixpoint expand_at (fuel : nat) (p : bytes) (vw vh : Z) : res (bytes * list at_event) :=
  match fuel, p with
  | _, [] => Ok ([], [])
  | O, _ => UB
  | S fuel, c :: p =>
    if decide (c = 64) then
      (let* (oe, next) := at_rule p vw vh in
       match next with
       | None => Ok oe
       | Some q => (let* (o, e) := expand_at fuel q vw vh in Ok (fst oe ++ o, snd oe ++ e))%c
       end)%c
    else (let* (o, e) := expand_at fuel p vw vh in Ok (c :: o, e))%c
  end.
Definition css_expand_at_rules (css : bytes) (vw vh : Z) : res (bytes * list at_event) := expand_at (S (length css)) css vw vh.

(** ** Nested rules *)

Definition SEL_CAP : nat := 512.
Definition comma_items (s : bytes) : list bytes := map trim (tokens (among ",") (take 255 s) []).
(** [&] stands for the parent. *)
Fixpoint combine_amp (item parent out : bytes) : bytes :=
  match item with
  | [] => out
  | c :: item =>
    if decide (length out + 1 < SEL_CAP)%nat then
      if decide (c = 38) then combine_amp item parent (if decide (length out + length parent < SEL_CAP)%nat then out ++ parent else out)
      else combine_amp item parent (out ++ [c])
    else out
  end.
Definition combine_one (parent out item : bytes) : bytes :=
  let out := if bool_decide (0 < length out)%nat && bool_decide (length out + 2 < SEL_CAP)%nat then out ++ str ", " else out in
  if decide (38 ∈ item) then combine_amp item parent out
  else
    let both := parent ++ (if combinator (hd0 item) then [] else [32]) ++ item in
    if decide (length out + length both < SEL_CAP)%nat then out ++ both else out.
Definition css_combine_selectors (parent child : bytes) : bytes :=
  match parent with
  | [] => take (SEL_CAP - 1) child
  | _ => fold_left (λ out p, fold_left (combine_one p) (comma_items child) out) (comma_items parent) []
  end.
Definition flat_rule (sel decls : bytes) : bytes := sel ++ str " { " ++ decls ++ str " }" ++ [10].

(** [css_expand_nesting_rec]; [expand_body] is its inner loop, which gives the
    nested rules, expanded, and the rule's own declarations. *)
Fixpoint expand_nesting (fuel : nat) (parent css : bytes) : res bytes :=
  match fuel with
  | O => UB
  | S fuel =>
    let p := skip c_isspace css in
    match upto 123 p with
    | None => Ok []
    | Some (pre, b) =>
      match strchr pre 59 with
      | Some i =>
        let out := match parent with [] => [] | _ => flat_rule parent (take (S i) pre) end in
        (let* o := expand_nesting fuel parent (drop (S i) p) in Ok (out ++ o))%c
      | None =>
        (let* (body, next) := block_inside b in
         let sel := css_combine_selectors parent (trim (take 255 pre)) in
         let* (o, decls) := expand_body fuel sel body in
         let own := match skip c_isspace decls with [] => [] | ds => flat_rule sel ds end in
         let* o' := expand_nesting fuel parent next in
         Ok (o ++ own ++ o'))%c
      end
    end
  end
with expand_body (fuel : nat) (sel body : bytes) : res (bytes * bytes) :=
  match fuel with
  | O => UB
  | S fuel =>
    let bp := skip c_isspace body in
    match bp with
    | [] => Ok ([], [])
    | c :: _ =>
      if decide (c = 123) then expand_body fuel sel (snd (css_skip_block bp 0))
      else match semi_first bp with
           | Some r => (let* (o, ds) := expand_body fuel sel r in Ok (o, take (length bp - length r) bp ++ ds))%c
           | None =>
             match upto 123 bp with
             | None => Ok ([], bp)
             | Some (pre, b) =>
               let '(t, r) := css_skip_block b 0 in
               (let* o := expand_nesting fuel sel (pre ++ t) in
                let* (o', ds) := expand_body fuel sel r in
                Ok (o ++ o', ds))%c
             end
           end
    end
  end.
Definition css_expand_nesting (css : bytes) : res bytes := expand_nesting (S (S (length css))) [] css.

(** ** Rules and declarations *)

Record CssRule := Rule { rsel : bytes; rspec : Z }.
Record CssDecl := Decl { drule : nat; dimportant : bool; dprop : bytes; dval : bytes }.
Record Sheet := Sht { rules : list CssRule; decls : list CssDecl }.
Definition MAX_RULES : nat := 1024.
Definition MAX_DECLS : nat := 4096.

(** Past an at-rule that is left: to a brace or past a semicolon, over strings; a
    string without an end is read past the terminator. *)
Fixpoint at_scan (quote : option Z) (s : bytes) : res (option (bool * bytes)) :=
  match s with
  | [] => match quote with None => Ok None | Some _ => UB end
  | c :: r =>
    match quote with
    | Some q => at_scan (if decide (c = q) then None else quote) r
    | None =>
      if decide (c = 123) then Ok (Some (true, s))
      else if decide (c = 59) then Ok (Some (false, r))
      else at_scan (if bool_decide (c = 34 ∨ c = 39) then Some c else None) r
    end
  end.
Definition add_rule (sel : bytes) (sh : Sheet) : Sheet :=
  if bool_decide (sel ≠ []) && bool_decide (length (rules sh) < MAX_RULES)%nat
  then let s := take 127 sel in Sht (rules sh ++ [Rule s (spec_of s)]) (decls sh) else sh.
Definition add_decl (ri : nat) (sh : Sheet) (d : bytes) : Sheet :=
  match upto 58 d with
  | Some (p, v) =>
    let prop := take 63 (trim p) in
    let val := take 255 (trim (tail v)) in
    if bool_decide (ri < length (rules sh))%nat && bool_decide (prop ≠ []) && bool_decide (length (decls sh) < MAX_DECLS)%nat
    then let '(val, imp) := strip_important val in Sht (rules sh) (decls sh ++ [Decl ri imp prop val])
    else sh
  | None => sh
  end.
Fixpoint pieces (s acc : bytes) : list bytes :=
  match s with
  | [] => [acc]
  | c :: s => if decide (c = 59) then acc :: pieces s [] else pieces s (acc ++ [c])
  end.
Fixpoint flat_loop (fuel : nat) (p : bytes) (sh : Sheet) : res Sheet :=
  match fuel with
  | O => UB
  | S fuel =>
    let p := skip c_isspace p in
    match p with
    | [] => Ok sh
    | c :: _ =>
      if decide (c = 64) then
        (let* r := at_scan None p in
         match r with
         | Some (false, q) => flat_loop fuel q sh
         | Some (true, b) => flat_loop fuel (snd (css_skip_block b 0)) sh
         | None => Ok sh
         end)%c
      else
        match upto 123 p with
        | None => Ok sh
        | Some (pre, b) =>
          let ri := length (rules sh) in
          let sh := add_rule (trim pre) sh in
          match upto 125 (tail b) with
          | None => Ok sh
          | Some (body, q) => flat_loop fuel (tail q) (fold_left (add_decl ri) (pieces body []) sh)
          end
        end
    end
  end.
(** Comments, at-rules, nesting, rules. *)
Definition css_parse (css : bytes) (vw vh : Z) : res (Sheet * list at_event) :=
  (let* (p, ev) := css_expand_at_rules (strip_css_comments css) vw vh in
   let* p := css_expand_nesting p in
   let* sh := flat_loop (S (length p)) p (Sht [] []) in
   Ok (sh, ev))%c.

(** ** Behaviours *)

Definition sheet (s : string) : option (list (string * Z) * list (string * string * bool)) :=
  let text b := String.string_of_list_ascii (map (λ z, Ascii.ascii_of_N (Z.to_N z)) b) in
  match css_parse (str s) 1024 768 with
  | Ok (sh, _) => Some (map (λ r, (text (rsel r), rspec r)) (rules sh), map (λ d, (text (dprop d), text (dval d), dimportant d)) (decls sh))
  | UB => None
  end.
Example plain_sheet : sheet "/* x */ p.a > #b { color: red; margin : 0 ! x } @media (max-width: 9px) { i {top:1px} } q{}"
  = Some ([("p.a > #b", 10101)], [("color", "red", false); ("margin", "0 ! x", false)])%string.
Proof. vm_compute. done. Qed.
(** A nested rule comes before the declarations around it, wherever it stands. *)
Example nested_first : sheet ".a { color: red; .b { top: 1px; } left: 2px; &:hover, > i { x: y } }"
  = Some ([(".a .b", 200); (".a:hover, .a> i", 200); (".a", 100)],
          [("top", "1px", false); ("x", "y", false); ("color", "red", false); ("left", "2px", false)])%string.
Proof. vm_compute. done. Qed.
(** A sheet that ends with an opening brace copies -1 bytes; one that ends within a
    rule loses its last character. *)
Example open_brace_last : sheet "a {" = None ∧ sheet "@media all {" = None ∧ sheet "a{b:c" = Some ([("a", 1)], [("b", "", false)])%string.
Proof. vm_compute. done. Qed.
(** The words of a condition are divided at each letter of [and] or [or]. *)
Example supports_and : css_eval_supports (str "(display: flex) and (gap: 1px)") = false ∧ css_eval_supports (str "(display: flex)") = true
  ∧ css_eval_supports (str "(bogus: 1) or (color: red)") = false.
Proof. vm_compute. done. Qed.
(** An at sign within a string begins an at-rule; a semicolon there ends the declaration. *)
Example strings_cut : sheet "a { content: '@'; top: 0 }" = Some ([("a", 1)], [("content", "' top: 0", false)])%string
  ∧ sheet "a { content: ';' }" = Some ([("a", 1)], [("content", "'", false)])%string.
Proof. vm_compute. done. Qed.
(** An at-rule within a media block is left in the sheet and skipped there. *)
Example nested_media : sheet "@media (min-width: 1px) { @media (min-width: 2px) { a { b: c } } d { e: f } }" = Some ([("d", 1)], [("e", "f", false)])%string.
Proof. vm_compute. done. Qed.
(** A hundred classes weigh as much as an identifier; [:has] counts as a class whatever
    it holds, as does an empty [:not]. *)
Example spec_carries : spec_of (mjoin (replicate 100 (str ".c"))) = spec_of (str "#i") ∧ spec_of (str ":has(#x)") = 100 ∧ spec_of (str ":not()") = 100
  ∧ spec_of (str ":is(#x)") = 10000 ∧ spec_of (str ":where(#x)") = 0.
Proof. vm_compute. done. Qed.
