(* ===== verification/StylesheetSpec.v ===== *)
(** * What a style sheet says

    Style sheets as trees of rules under media conditions, how they are written
    and what they stand for; the text of one is read as the flat rules it stands
    for. *)

From stdpp Require Import gmap list.
From S2P Require Import Prelude CString Dom Selectors CssVars CssMedia Stylesheet.
Open Scope Z_scope.

(** ** Sheets *)

Record decl := Dc { kprop : bytes; kval : bytes; kimp : bool }.
(** Alternatives, declarations and the rules within. *)
Inductive rule := R (alts : list bytes) (ds : list decl) (nested : list rule).
(** Rules, perhaps under bounds on the size of the window. *)
Record group := Group { cond : list feature; body : list rule }.

Definition print_decl (d : decl) : bytes := kprop d ++ 58 :: kval d ++ (if kimp d then str " !important" else []) ++ [59].
Definition print_decls (l : list decl) : bytes := flat_map print_decl l.
Fixpoint commas (l : list bytes) : bytes := match l with [] => [] | [a] => a | a :: l => a ++ str ", " ++ commas l end.
Fixpoint print_rule (r : rule) : bytes :=
  match r with R alts ds ns => commas alts ++ 123 :: print_decls ds ++ flat_map print_rule ns ++ [125] end.
Definition print_rules (l : list rule) : bytes := flat_map print_rule l.
Definition print_group (g : group) : bytes :=
  match cond g with [] => print_rules (body g) | q => str "@media " ++ print_features q ++ 123 :: print_rules (body g) ++ [125] end.
Definition print_sheet (l : list group) : bytes := flat_map print_group l.

(** An alternative under an alternative of the rule around it. *)
(** [&] stands for the parent. *)
Definition amp (parent item : bytes) : bytes := flat_map (λ c, if decide (c = 38) then parent else [c]) item.
Definition under (parent item : bytes) : bytes :=
  if decide (38 ∈ item) then amp parent item
  else parent ++ (if combinator (hd0 item) then [] else [32]) ++ item.
Definition nest (parents alts : list bytes) : list bytes :=
  match parents with [] => alts | _ => flat_map (λ p, map (under p) alts) parents end.
(** The flat rules: the nested ones come first. *)
Fixpoint flatten (parents : list bytes) (r : rule) : list (list bytes * list decl) :=
  match r with R alts ds ns =>
    let s := nest parents alts in flat_map (flatten s) ns ++ match ds with [] => [] | _ => [(s, ds)] end
  end.
Definition stands_for (vw vh : Z) (l : list group) : list (list bytes * list decl) :=
  flat_map (λ g, if forallb (holds vw vh) (cond g) then flat_map (flatten []) (body g) else []) l.
(** As the cascade has them. *)
Definition css_rule (f : list bytes * list decl) : CssRule := let s := commas (fst f) in Rule s (spec_of s).
Definition css_decls (i : nat) (f : list bytes * list decl) : list CssDecl := map (λ d, Decl i (kimp d) (kprop d) (kval d)) (snd f).
Definition sheet_of (l : list (list bytes * list decl)) : Sheet := Sht (map css_rule l) (mjoin (imap css_decls l)).

(** ** Well-formed text *)

Fixpoint no_comment (s : bytes) : bool :=
  match s with [] => true | c :: t => negb (bool_decide (c = 47) && bool_decide (hd0 t = 42)) && no_comment t end.
Definition text_char (c : Z) : bool := negb (bool_decide (c = 123 ∨ c = 125 ∨ c = 59 ∨ c = 64)).
Definition text_ok (s : bytes) : bool := forallb text_char s && no_comment s && streq (trim s) s && bool_decide (s ≠ []).
Definition alt_ok (s : bytes) : bool := text_ok s && bool_decide (44 ∉ s).
Definition alts_ok (l : list bytes) : bool := forallb alt_ok l && bool_decide (l ≠ []).
Definition decl_ok (d : decl) : bool :=
  text_ok (kprop d) && text_ok (kval d) && bool_decide (58 ∉ kprop d) && bool_decide (length (kprop d) <= 63)%nat
  && bool_decide (length (kval d) <= (if kimp d then 244 else 255))%nat && (kimp d || negb (snd (strip_important (kval d)))).
Fixpoint rule_ok (r : rule) : bool :=
  match r with R alts ds ns => alts_ok alts && forallb decl_ok ds && forallb rule_ok ns end.
Definition group_ok (g : group) : bool := forallb rule_ok (body g) && forallb (λ f, bool_decide (0 <= fpx f < 2 ^ 24)) (cond g)
  && bool_decide (length (print_features (cond g)) <= 254)%nat.
(** The selectors of the flat rules fit where they are kept, and so do the rules. *)
Fixpoint fits_rule (parents : list bytes) (r : rule) : bool :=
  match r with R alts _ ns =>
    let s := nest parents alts in bool_decide (length (commas alts) <= 127)%nat && bool_decide (length (commas s) <= 127)%nat && forallb (fits_rule s) ns
  end.
Definition fits_sheet (vw vh : Z) (l : list group) : bool :=
  forallb (λ g, forallb (fits_rule []) (body g)) l
  && bool_decide (length (stands_for vw vh l) <= MAX_RULES)%nat && bool_decide (length (flat_map snd (stands_for vw vh l)) <= MAX_DECLS)%nat.

(** ** Trimming and lists of alternatives *)

Definition whole (s : bytes) : Prop := skip c_isspace s = s ∧ skip c_isspace (rev s) = rev s ∧ s ≠ [].
Lemma skip_head f s : skip f s = s ↔ s = [] ∨ f (hd0 s) = false.
Proof.
  destruct s as [|c s]; [naive_solver|]. cbn [skip hd0]. destruct (f c) eqn:E; [|naive_solver]. split; [|naive_solver].
  intros H. pose proof (length_skip f s). rewrite H in *. cbn in *. lia.
Qed.
Lemma skip_through f x s : Forall (λ c, f c = true) x → skip f (x ++ s) = skip f s.
Proof. induction 1 as [|c x Hc Hx IH]; [done|]. cbn [app skip]. by rewrite Hc. Qed.
Lemma skip_keep f x s : skip f x = x → x ≠ [] → skip f (x ++ s) = x ++ s.
Proof. rewrite !skip_head. destruct x; naive_solver. Qed.
Lemma trim_within x s y : Forall (λ c, c_isspace c = true) x → Forall (λ c, c_isspace c = true) y → whole s → trim (x ++ s ++ y) = s.
Proof.
  intros Hx Hy (H1&H2&H3). unfold trim, rtrim. rewrite !rev_app_distr, <- app_assoc, skip_through by (apply Forall_forall; intros c Hc; rewrite Forall_forall in Hy; apply Hy; by apply list_elem_of_In, in_rev, list_elem_of_In).
  rewrite skip_keep by (done || by intros E%(f_equal (@rev Z)); rewrite rev_involutive in E). rewrite rev_app_distr, !rev_involutive. by rewrite skip_through.
Qed.
Lemma trim_whole s : trim s = s → s ≠ [] → whole s.
Proof.
  intros E Hn. unfold trim, rtrim in E. assert (skip c_isspace (rev s) = rev s) as Hr.
  { destruct (skip_suffix c_isspace (rev s)) as (t&Et&_). destruct t as [|c t]; [done|]. exfalso. apply (f_equal length) in E, Et.
    pose proof (length_skip c_isspace (rev (skip c_isspace (rev s)))). rewrite length_app, !length_rev in *. cbn in *. lia. }
  rewrite Hr, rev_involutive in E. done.
Qed.
Lemma whole_trim s : whole s → trim s = s.
Proof. intros H. rewrite <- (app_nil_r s) at 1. change (trim ([] ++ s ++ []) = s). by apply trim_within. Qed.
Lemma whole_app a x b : whole a → whole b → whole (a ++ x ++ b).
Proof.
  intros (A1&A2&A3) (B1&B2&B3). split; [by apply skip_keep|]. split; [|by destruct a].
  rewrite !rev_app_distr, <- app_assoc. apply skip_keep; [done|]. by intros E%(f_equal (@rev Z)); rewrite rev_involutive in E.
Qed.

Definition part_ok (s : bytes) : Prop := Forall (λ c, text_char c = true) s ∧ whole s ∧ 44 ∉ s.
Lemma alt_part s : alt_ok s = true → part_ok s.
Proof.
  unfold alt_ok, text_ok. rewrite !andb_true_iff, streq_true, !bool_decide_eq_true. intros [[[[H1 _] H3] H4] H5]. split; [|split; [by apply trim_whole|done]].
  rewrite forallb_forall in H1. apply Forall_forall. intros c Hc. apply H1. by apply list_elem_of_In.
Qed.

Lemma tokens_run a s acc : 44 ∉ a → tokens (among ",") (a ++ s) acc = tokens (among ",") s (acc ++ a).
Proof.
  revert acc. induction a as [|c a IH]; intros acc Ha; cbn [app]; [by rewrite app_nil_r|]. apply not_elem_of_cons in Ha as [Hc Ha]. cbn [tokens].
  assert (among "," c = false) as ->. { apply bool_decide_eq_false. change (str ",") with [44]. by intros H%list_elem_of_singleton. }
  rewrite IH by done. by rewrite <- app_assoc.
Qed.
Lemma commas_cons a b l : commas (a :: b :: l) = a ++ str ", " ++ commas (b :: l).
Proof. done. Qed.
Lemma tokens_commas a l acc : Forall part_ok (a :: l) → tokens (among ",") (commas (a :: l)) acc = (acc ++ a) :: map (cons 32) l.
Proof.
  revert a acc. induction l as [|b l IH]; intros a acc [(Ha&Hw&Hc) Hl]%Forall_cons.
  - cbn [commas]. rewrite <- (app_nil_r a) at 1. rewrite tokens_run by done. cbn [tokens map]. destruct (acc ++ a) eqn:E; [|done]. apply app_nil in E as [_ ->]. by destruct Hw as (_&_&?).
  - rewrite commas_cons, tokens_run by done. change (str ", ") with [44; 32]. cbn [app tokens]. change (among "," 44) with true. change (among "," 32) with false. cbv iota.
    change ([] ++ [32]) with [32]. rewrite IH by done. destruct (acc ++ a) eqn:E; [|done]. apply app_nil in E as [_ ->]. by destruct Hw as (_&_&?).
Qed.
Lemma trim_blank s : whole s → trim (32 :: s) = s.
Proof. intros H. pose proof (trim_within [32] s []) as E. rewrite app_nil_r in E. by apply E; [repeat constructor|constructor|]. Qed.
Lemma items_commas l : Forall part_ok l → l ≠ [] → (length (commas l) <= 255)%nat → comma_items (commas l) = l.
Proof.
  intros Hl Hn Hlen. unfold comma_items. rewrite take_ge by done. destruct l as [|a l]; [done|]. rewrite (tokens_commas _ _ _ Hl). cbn [app map].
  apply Forall_cons in Hl as [Ha Hl]. f_equal; [apply whole_trim, Ha|]. clear -Hl. induction Hl as [|b l Hb Hl IH]; [done|]. cbn [map]. by rewrite IH, trim_blank by apply Hb.
Qed.

(** ** Nested selectors *)

Lemma combine_amp_run item p out : (length (out ++ amp p item) < 511)%nat →
  combine_amp item p out = out ++ amp p item.
Proof.
  revert out. induction item as [|c item IH]; intros out Hl; unfold amp in *; cbn [combine_amp flat_map] in *; [by rewrite app_nil_r|].
  rewrite decide_True by (rewrite length_app in Hl; unfold SEL_CAP; lia). case_decide as E.
  - rewrite decide_True by (rewrite !length_app in Hl; unfold SEL_CAP; lia). rewrite IH by (by rewrite <- app_assoc). by rewrite <- app_assoc.
  - rewrite IH by (by rewrite <- app_assoc). by rewrite <- app_assoc.
Qed.
Lemma combine_one_run p out c : (length ((match out with [] => [] | _ => out ++ str ", " end) ++ under p c) < 500)%nat →
  combine_one p out c = (match out with [] => [] | _ => out ++ str ", " end) ++ under p c.
Proof.
  unfold combine_one, under. set (o := match out with [] => [] | _ => out ++ str ", " end). intros Hl.
  assert ((if bool_decide (0 < length out)%nat && bool_decide (length out + 2 < SEL_CAP)%nat then out ++ str ", " else out) = o) as ->.
  { unfold o in *. destruct out as [|x out]; [done|]. rewrite !bool_decide_eq_true_2; [done| |cbn; lia]. rewrite !length_app in Hl. cbn in *. unfold SEL_CAP. lia. }
  clearbody o. case_decide.
  - rewrite combine_amp_run; [done|lia].
  - rewrite decide_True; [done|]. rewrite length_app in Hl. unfold SEL_CAP. lia.
Qed.
Lemma under_nonempty p c : p ≠ [] → c ≠ [] → under p c ≠ [].
Proof. unfold under. intros Hp Hc. case_decide; [|by destruct p]. destruct c as [|x c]; [done|]. unfold amp. cbn [flat_map]. case_decide; [by destruct p|done]. Qed.
Lemma commas_snoc l x : l ≠ [] → commas (l ++ [x]) = commas l ++ str ", " ++ x.
Proof. induction l as [|a [|b l] IH]; intros Hn; [done|done|]. cbn [app]. rewrite !commas_cons. change (b :: l ++ [x]) with ((b :: l) ++ [x]). rewrite IH by done. by rewrite <- !app_assoc. Qed.
Lemma commas_nil l : Forall (λ s, s ≠ []) l → commas l = [] → l = [].
Proof. intros Hl. destruct l as [|a [|b l]]; [done|..]; apply Forall_cons in Hl as [Ha _]; [done|]. rewrite commas_cons. by destruct a. Qed.
Lemma commas_prefix l l' : (length (commas l) <= length (commas (l ++ l')))%nat.
Proof.
  destruct l' as [|x l'] using rev_ind; [by rewrite app_nil_r|]. rewrite app_assoc. destruct (decide (l ++ l' = [])) as [E|E].
  - apply app_nil in E as [-> ->]. cbn. lia.
  - rewrite commas_snoc by done. rewrite !length_app. lia.
Qed.
Lemma combine_items p cs acc : p ≠ [] → Forall (λ s, s ≠ []) cs → Forall (λ s, s ≠ []) acc → (length (commas (acc ++ map (under p) cs)) < 500)%nat →
  fold_left (combine_one p) cs (commas acc) = commas (acc ++ map (under p) cs).
Proof.
  intros Hp. revert acc. induction cs as [|c cs IH]; intros acc Hc Ha Hl; cbn [fold_left map]; [by rewrite app_nil_r|]. apply Forall_cons in Hc as [Hc Hcs].
  assert ((match commas acc with [] => [] | _ => commas acc ++ str ", " end) ++ under p c = commas (acc ++ [under p c])) as E.
  { destruct acc as [|a acc]; [done|]. rewrite commas_snoc by done. destruct (commas (a :: acc)) eqn:Ec; [by apply commas_nil in Ec|]. by rewrite <- app_assoc. }
  pose proof (commas_prefix (acc ++ [under p c]) (map (under p) cs)) as Hpre. rewrite <- app_assoc in Hpre. cbn [app] in Hpre. cbn [map] in Hl.
  rewrite combine_one_run by (rewrite E; lia). rewrite E, IH; [by rewrite <- app_assoc|done| |by rewrite <- app_assoc].
  apply Forall_app. split; [done|]. constructor; [by apply under_nonempty|done].
Qed.
Lemma commas_ok l : Forall part_ok l → Forall (λ s, s ≠ []) l.
Proof. intros H. eapply Forall_impl; [exact H|]. by intros s (_&(_&_&?)&_). Qed.
Lemma combine_nest ps cs : Forall part_ok ps → Forall part_ok cs → (length (commas ps) <= 127)%nat → (length (commas cs) <= 127)%nat → cs ≠ [] →
  (length (commas (nest ps cs)) <= 127)%nat → css_combine_selectors (commas ps) (commas cs) = commas (nest ps cs).
Proof.
  intros Hp Hc Lp Lc Nc Ln. destruct ps as [|p ps].
  { cbn [commas nest css_combine_selectors] in *. apply take_ge. unfold SEL_CAP. lia. }
  assert (css_combine_selectors (commas (p :: ps)) (commas cs) = fold_left (λ out p, fold_left (combine_one p) cs out) (p :: ps) []) as ->.
  { unfold css_combine_selectors. rewrite !items_commas by (done || lia). destruct (commas (p :: ps)) eqn:E; [|done]. apply commas_nil in E; [done|by apply commas_ok]. }
  change (nest (p :: ps) cs) with (flat_map (λ p, map (under p) cs) (p :: ps)) in *. revert Hp Ln. generalize (p :: ps). intros l Hp.
  assert (∀ acc, Forall (λ s, s ≠ []) acc → (length (commas (acc ++ flat_map (λ p, map (under p) cs) l)) <= 127)%nat →
    fold_left (λ out p, fold_left (combine_one p) cs out) l (commas acc) = commas (acc ++ flat_map (λ p, map (under p) cs) l)) as H; [|intros Ln; by apply (H [])].
  apply commas_ok in Hp, Hc. induction Hp as [|q l Hq Hl IH]; intros acc Ha Ln; cbn [fold_left flat_map] in *; [by rewrite app_nil_r|].
  rewrite app_assoc in Ln |- *. pose proof (commas_prefix (acc ++ map (under q) cs) (flat_map (λ p, map (under p) cs) l)).
  rewrite combine_items by (done || lia). apply IH; [|done]. apply Forall_app. split; [done|]. apply Forall_forall. intros s (c&->&Hin)%list_elem_of_fmap.
  apply under_nonempty; [done|]. rewrite Forall_forall in Hc. by apply Hc.
Qed.

Lemma amp_ends p c : whole p → whole c → whole (amp p c).
Proof.
  intros Hp (H1&H2&H3). assert (∀ p c, amp p (rev c) = rev (amp (rev p) c)) as Hrev.
  { clear. intros p c. unfold amp. induction c as [|x c IH]; [done|]. cbn [rev flat_map]. rewrite flat_map_app, rev_app_distr, IH. cbn [flat_map]. rewrite app_nil_r. f_equal.
    case_decide; [by rewrite rev_involutive|done]. }
  assert (∀ p c, skip c_isspace p = p → p ≠ [] → skip c_isspace c = c → skip c_isspace (amp p c) = amp p c) as Hs.
  { clear. intros p c Hp Hn. destruct c as [|x c]; [done|]. unfold amp. cbn [flat_map]. intros Hc%skip_head. destruct Hc as [|Hc]; [done|]. case_decide; [by apply skip_keep|].
    apply skip_head. by right. }
  destruct Hp as (P1&P2&P3). split; [by apply Hs|]. split.
  - assert (rev (amp p c) = amp (rev p) (rev c)) as ->. { rewrite Hrev. by rewrite rev_involutive. }
    apply Hs; [done| |done]. by intros E%(f_equal (@rev Z)); rewrite rev_involutive in E.
  - destruct c as [|x c]; [done|]. unfold amp. cbn [flat_map]. case_decide; [by destruct p|done].
Qed.
Lemma under_ok p c : part_ok p → part_ok c → part_ok (under p c).
Proof.
  intros (P1&P2&P3) (C1&C2&C3). unfold under. case_decide.
  - assert (∀ x, x ∈ amp p c → x ∈ p ∨ x ∈ c) as Hin.
    { intros x Hx. apply list_elem_of_In, in_flat_map in Hx as (y&Hy%list_elem_of_In&Hx%list_elem_of_In). case_decide; [by left|]. apply list_elem_of_singleton in Hx as ->. by right. }
    split; [|split; [by apply amp_ends|]].
    + apply Forall_forall. intros x [Hx|Hx]%Hin; [rewrite Forall_forall in P1; by apply P1|rewrite Forall_forall in C1; by apply C1].
    + by intros [Hx|Hx]%Hin.
  - split; [|split; [by apply whole_app|]].
    + rewrite !Forall_app. split; [done|]. split; [|done]. destruct (combinator (hd0 c)); repeat constructor.
    + rewrite !not_elem_of_app. split; [done|]. split; [|done]. destruct (combinator (hd0 c)); [apply not_elem_of_nil|]. by intros ?%list_elem_of_singleton.
Qed.
Lemma nest_ok ps cs : Forall part_ok ps → Forall part_ok cs → Forall part_ok (nest ps cs).
Proof.
  intros Hp Hc. unfold nest. destruct ps as [|p ps]; [done|]. rewrite Forall_forall in Hp, Hc. apply Forall_forall. intros s Hs.
  apply list_elem_of_In, in_flat_map in Hs as (q&Hq%list_elem_of_In&(c&<-&Hc'%list_elem_of_In)%in_map_iff). apply under_ok; [by apply Hp|by apply Hc].
Qed.
Lemma nest_nonempty ps cs : cs ≠ [] → nest ps cs ≠ [].
Proof. unfold nest. destruct ps as [|p ps]; [done|]. cbn [flat_map]. by destruct cs. Qed.
Lemma commas_part l : Forall part_ok l → l ≠ [] → Forall (λ c, text_char c = true) (commas l) ∧ whole (commas l).
Proof.
  intros Hl Hn. induction Hl as [|a [|b l] (H1&H2&_) Hl IH]; [done|done|]. rewrite commas_cons. destruct (IH ltac:(done)) as [I1 I2]. split; [|by apply whole_app].
  rewrite !Forall_app. split; [done|]. split; [repeat constructor|done].
Qed.

(** ** Comments *)

Fixpoint rule_ind' (P : rule → Prop) (H : ∀ alts ds ns, Forall P ns → P (R alts ds ns)) (r : rule) : P r :=
  match r with R alts ds ns =>
    H alts ds ns ((fix go l : Forall P l := match l with [] => Forall_nil_2 P | r :: l => Forall_cons_2 P r l (rule_ind' P H r) (go l) end) ns)
  end.

Lemma strip_clean s fuel : no_comment s = true → (length s <= fuel)%nat → strip_comments fuel s = s.
Proof.
  revert fuel. induction s as [|c s IH]; intros [|fuel] Hc Hl; cbn in Hl; try done; [lia|]. cbn [no_comment strip_comments] in *.
  apply andb_true_iff in Hc as [H1%negb_true_iff H2]. rewrite H1. f_equal. apply IH; [done|lia].
Qed.
(** No comment within, and none begun by the last character. *)
Definition sealed (s : bytes) : Prop := no_comment s = true ∧ last s ≠ Some 47.
Lemma sealed_nil : sealed [].
Proof. done. Qed.
Lemma sealed_app s t : sealed s → sealed t → sealed (s ++ t).
Proof.
  intros [S1 S2] [T1 T2]. split; [|by rewrite last_app; destruct (last t)]. clear T2. induction s as [|c s IH]; [done|]. cbn [app no_comment] in *.
  apply andb_true_iff in S1 as [H1 H2]. rewrite IH, andb_true_r; [|done|by destruct s]. destruct s as [|x s]; [|done]. cbn [app]. rewrite (bool_decide_eq_false_2 (c = 47)); [done|].
  intros ->. by apply S2.
Qed.
Lemma sealed_plain s : Forall (λ c, c ≠ 47) s → sealed s.
Proof.
  induction 1 as [|c s Hc Hs IH]; [done|]. change (c :: s) with ([c] ++ s). apply sealed_app; [|done]. split; [cbn; by rewrite bool_decide_eq_false_2|].
  cbn. by intros [= ->].
Qed.
Lemma sealed_text s c : no_comment s = true → c ≠ 42 → c ≠ 47 → sealed (s ++ [c]).
Proof.
  intros Hs H1 H2. split; [|rewrite last_snoc; by intros [= ->]]. induction s as [|x s IH]; cbn [app no_comment] in *; [by rewrite andb_true_r, (bool_decide_eq_false_2 (c = 47))|].
  apply andb_true_iff in Hs as [Hx Hs]. rewrite IH, andb_true_r by done. destruct s as [|y s]; [|done]. cbn [app hd0]. by rewrite (bool_decide_eq_false_2 (c = 42)), andb_false_r.
Qed.
Lemma sealed_flat {A} (f : A → bytes) l : (∀ a, a ∈ l → sealed (f a)) → sealed (flat_map f l).
Proof. induction l as [|a l IH]; intros H; [done|]. cbn [flat_map]. apply sealed_app; [apply H; left|]. apply IH. intros b Hb. apply H. by right. Qed.

(** What the checks on the parts give. *)
Lemma text_facts s : text_ok s = true → Forall (λ c, text_char c = true) s ∧ no_comment s = true ∧ whole s.
Proof.
  unfold text_ok. rewrite !andb_true_iff, streq_true, bool_decide_eq_true. intros [[[H1 H2] H3] H4]. split; [|split; [done|by apply trim_whole]].
  rewrite forallb_forall in H1. apply Forall_forall. intros c Hc. apply H1. by apply list_elem_of_In.
Qed.
Lemma alts_facts l : alts_ok l = true → Forall part_ok l ∧ l ≠ [] ∧ Forall (λ s, no_comment s = true) l.
Proof.
  unfold alts_ok. rewrite andb_true_iff, bool_decide_eq_true, forallb_forall. intros [H Hn]. split; [|split; [done|]]; apply Forall_forall; intros s Hs; specialize (H s (proj1 (list_elem_of_In _ _) Hs)).
  - by apply alt_part.
  - apply andb_true_iff in H as [H _]. by apply text_facts in H as (_&?&_).
Qed.
Lemma decl_facts d : decl_ok d = true → Forall (λ c, text_char c = true) (kprop d) ∧ no_comment (kprop d) = true ∧ whole (kprop d) ∧ 58 ∉ kprop d ∧ (length (kprop d) <= 63)%nat
  ∧ Forall (λ c, text_char c = true) (kval d) ∧ no_comment (kval d) = true ∧ whole (kval d) ∧ (length (kval d) <= if kimp d then 244 else 255)%nat
  ∧ (kimp d = false → snd (strip_important (kval d)) = false).
Proof.
  unfold decl_ok. rewrite !andb_true_iff, !bool_decide_eq_true. intros [[[[[(P1&P2&P3)%text_facts (V1&V2&V3)%text_facts] H1] H2] H3] H4].
  split_and!; try done. intros E. rewrite E in H4. by apply negb_true_iff in H4.
Qed.
Lemma sealed_commas l : Forall (λ s, no_comment s = true) l → sealed (commas l ++ [123]).
Proof.
  induction 1 as [|a [|b l] Ha Hl IH]; [by apply sealed_plain; repeat constructor|by apply sealed_text|]. rewrite commas_cons. change (str ", ") with ([44] ++ [32]).
  rewrite <- !app_assoc. rewrite (app_assoc a). apply sealed_app; [by apply sealed_text|]. apply sealed_app; [by apply sealed_plain; repeat constructor|done].
Qed.
Lemma sealed_decl d : decl_ok d = true → sealed (print_decl d).
Proof.
  intros (_&P2&_&_&_&_&V2&_)%decl_facts. unfold print_decl. change (58 :: kval d ++ ?x) with ([58] ++ kval d ++ x). rewrite app_assoc. apply sealed_app; [by apply sealed_text|].
  destruct (kimp d).
  - change (str " !important") with ([32] ++ str "!important"). rewrite <- app_assoc, app_assoc. apply sealed_app; [by apply sealed_text|]. apply sealed_plain. repeat constructor; done.
  - by apply sealed_text.
Qed.
Lemma sealed_rule r : rule_ok r = true → sealed (print_rule r).
Proof.
  induction r as [alts ds ns IH] using rule_ind'. cbn [rule_ok print_rule]. rewrite !andb_true_iff, !forallb_forall. intros [[(_&_&Ha)%alts_facts Hd] Hn].
  change (123 :: ?x) with ([123] ++ x). rewrite app_assoc. apply sealed_app; [by apply sealed_commas|]. apply sealed_app; [|apply sealed_app; [|by apply sealed_plain; repeat constructor]].
  - apply sealed_flat. intros d Hin. apply sealed_decl, Hd. by apply list_elem_of_In.
  - apply sealed_flat. intros r Hin. rewrite Forall_forall in IH. apply IH; [done|]. apply Hn. by apply list_elem_of_In.
Qed.
Lemma features_chars q : Forall (λ c, text_char c = true ∧ c ≠ 47) (print_features q).
Proof.
  assert (∀ f, Forall (λ c, text_char c = true ∧ c ≠ 47) (print_feature f)) as Hf.
  { intros f. unfold print_feature. constructor; [done|]. rewrite !Forall_app. split; [destruct f as [[] [] z]; repeat constructor; done|]. split; [repeat constructor; done|].
    split; [|repeat constructor; done]. eapply Forall_impl; [apply c_dec_chars|]. cbn. intros c Hc. split; [|lia]. unfold text_char. rewrite bool_decide_eq_false_2 by lia. done. }
  induction q as [|f [|g q] IH]; [constructor|apply Hf|]. change (print_features (f :: g :: q)) with (print_feature f ++ str " and " ++ print_features (g :: q)).
  rewrite !Forall_app. split; [apply Hf|]. split; [repeat constructor; done|done].
Qed.
Lemma sealed_rules l : forallb rule_ok l = true → sealed (print_rules l).
Proof. rewrite forallb_forall. intros H. apply sealed_flat. intros r Hr. apply sealed_rule, H. by apply list_elem_of_In. Qed.
Lemma sealed_group g : group_ok g = true → sealed (print_group g).
Proof.
  unfold group_ok, print_group. rewrite !andb_true_iff. intros [[Hr _] _]. destruct (cond g) as [|f q] eqn:E; [by apply sealed_rules|]. rewrite <- E.
  change (123 :: ?x) with ([123] ++ x). repeat apply sealed_app; try (apply sealed_plain; repeat constructor; done); [|by apply sealed_rules].
  apply sealed_plain. eapply Forall_impl; [apply features_chars|]. by intros c [_ ?].
Qed.
Lemma sheet_clean l : forallb group_ok l = true → strip_css_comments (print_sheet l) = print_sheet l.
Proof.
  rewrite forallb_forall. intros H. apply strip_clean; [|done]. assert (sealed (print_sheet l)) as [? _]; [|done]. apply sealed_flat. intros g Hg. apply sealed_group, H. by apply list_elem_of_In.
Qed.

(** ** Braces *)

Fixpoint braces (s : bytes) (k : nat) : option nat :=
  match s with
  | [] => Some k
  | c :: s => if decide (c = 123) then braces s (S k) else if decide (c = 125) then match k with O => None | S k => braces s k end else braces s k
  end.
Definition balanced (s : bytes) : Prop := ∀ k, braces s k = Some k.
Lemma braces_app s t k : braces (s ++ t) k = match braces s k with Some j => braces t j | None => None end.
Proof.
  revert k. induction s as [|c s IH]; intros k; [done|]. cbn [app braces]. case_decide; [apply IH|]. case_decide; [|apply IH]. destruct k; [done|apply IH].
Qed.
Lemma balanced_app s t : balanced s → balanced t → balanced (s ++ t).
Proof. intros Hs Ht k. by rewrite braces_app, Hs. Qed.
Lemma balanced_text s : Forall (λ c, text_char c = true ∨ c = 59) s → balanced s.
Proof.
  intros H k. revert k. induction H as [|c s Hc Hs IH]; intros k; [done|]. cbn [braces]. assert (c ≠ 123 ∧ c ≠ 125) as [H1 H2].
  { destruct Hc as [Hc| ->]; [|done]. unfold text_char in Hc. apply negb_true_iff, bool_decide_eq_false in Hc. lia. }
  by rewrite !decide_False.
Qed.
Lemma balanced_block s : balanced s → balanced (123 :: s ++ [125]).
Proof. intros Hs k. cbn [braces]. rewrite decide_True by done. by rewrite braces_app, Hs. Qed.
Lemma balanced_flat {A} (f : A → bytes) l : (∀ a, a ∈ l → balanced (f a)) → balanced (flat_map f l).
Proof. induction l as [|a l IH]; intros H; [done|]. cbn [flat_map]. apply balanced_app; [apply H; left|]. apply IH. intros b Hb. apply H. by right. Qed.
Lemma skip_inside s j k t : braces s j = Some k →
  css_skip_block (s ++ t) (S j) = (s ++ fst (css_skip_block t (S k)), snd (css_skip_block t (S k))).
Proof.
  revert j. induction s as [|c s IH]; intros j; cbn [braces app]; [intros [= ->]; by destruct (css_skip_block t (S k))|]. cbn [css_skip_block].
  case_decide; [intros Hb; by rewrite (IH _ Hb)|]. case_decide; [|intros Hb; by rewrite (IH _ Hb)]. destruct j as [|j]; [done|]. intros Hb. cbn [pred]. by rewrite (IH _ Hb).
Qed.
Lemma braced_run s t : balanced s → css_skip_block (123 :: s ++ 125 :: t) 0 = (123 :: s ++ [125], t).
Proof.
  intros H. cbn [css_skip_block]. rewrite decide_True by done. by rewrite (skip_inside _ _ _ _ (H 0%nat)).
Qed.
Lemma inside_run s t : balanced s → block_inside (123 :: s ++ 125 :: t) = Ok (s, t).
Proof.
  intros H. unfold block_inside. rewrite braced_run by done. cbn [tail]. destruct (s ++ [125]) as [|x l] eqn:E; [by destruct s|]. cbv zeta. rewrite <- E.
  rewrite last_snoc. cbn [from_option id]. rewrite decide_True by done. by rewrite removelast_last.
Qed.
Lemma upto_found c s t : c ∉ s → upto c (s ++ c :: t) = Some (s, c :: t).
Proof.
  intros H. unfold upto. assert (strchr (s ++ c :: t) c = Some (length s)) as ->; [|by rewrite take_app_length, drop_app_length].
  induction s as [|x s IH]; cbn [app strchr]; [by rewrite decide_True|]. apply not_elem_of_cons in H as [Hx Hs]. rewrite decide_False by done. by rewrite IH.
Qed.
Lemma upto_absent c s : c ∉ s → upto c s = None.
Proof. intros H. unfold upto. by rewrite (proj2 (strchr_None s c) H). Qed.

(** The characters of rules. *)
Lemma text_not c s : text_char c = false → Forall (λ c, text_char c = true) s → c ∉ s.
Proof. intros Hc Hs Hin. rewrite Forall_forall in Hs. rewrite (Hs _ Hin) in Hc. done. Qed.
Lemma decl_chars d : decl_ok d = true → Forall (λ c, text_char c = true ∨ c = 59) (print_decl d).
Proof.
  intros (P1&_&_&_&_&V1&_)%decl_facts. assert (∀ s, Forall (λ c, text_char c = true) s → Forall (λ c, text_char c = true ∨ c = 59) s) as Hw by (intros s Hs; eapply Forall_impl; [exact Hs|]; auto).
  unfold print_decl. change (58 :: kval d ++ ?x) with ([58] ++ kval d ++ x). rewrite !Forall_app. split_and!; [by apply Hw|repeat constructor; by left|by apply Hw| |repeat constructor; by right].
  destruct (kimp d); [|constructor]. apply Hw. repeat constructor.
Qed.
Lemma decls_chars ds : forallb decl_ok ds = true → Forall (λ c, text_char c = true ∨ c = 59) (print_decls ds).
Proof. intros H. induction ds as [|d ds IH]; [constructor|]. cbn [forallb] in H. apply andb_true_iff in H as [Hd Hds]. apply Forall_app. split; [by apply decl_chars|by apply IH]. Qed.
Lemma rule_chars r : rule_ok r = true → balanced (print_rule r) ∧ 64 ∉ print_rule r.
Proof.
  induction r as [alts ds ns IH] using rule_ind'. cbn [rule_ok print_rule]. rewrite !andb_true_iff. intros [[(Hp&Hn&_)%alts_facts Hd] Hns]. destruct (commas_part _ Hp Hn) as [Hc _].
  apply decls_chars in Hd. rewrite forallb_forall in Hns. rewrite Forall_forall in IH.
  assert (∀ r, r ∈ ns → balanced (print_rule r) ∧ 64 ∉ print_rule r) as IH' by (intros r Hr; apply IH; [done|]; apply Hns; by apply list_elem_of_In). split.
  - apply balanced_app; [apply balanced_text; eapply Forall_impl; [exact Hc|]; auto|]. rewrite app_assoc. apply balanced_block. apply balanced_app; [by apply balanced_text|].
    apply balanced_flat. intros r Hr. by apply IH'.
  - change (123 :: ?x) with ([123] ++ x). rewrite !not_elem_of_app. split_and!; [by apply (text_not 64)|by intros ?%list_elem_of_singleton| | |by intros ?%list_elem_of_singleton].
    + intros Hin. rewrite Forall_forall in Hd. by destruct (Hd _ Hin).
    + intros (r&Hr&Hin)%list_elem_of_In%in_flat_map. apply (IH' r); by apply list_elem_of_In.
Qed.
Lemma rules_chars l : forallb rule_ok l = true → balanced (print_rules l) ∧ 64 ∉ print_rules l.
Proof.
  rewrite forallb_forall. intros H. split; [apply balanced_flat; intros r Hr; apply rule_chars, H; by apply list_elem_of_In|].
  intros (r&Hr&Hin)%list_elem_of_In%in_flat_map. apply (rule_chars r (H r Hr)). by apply list_elem_of_In.
Qed.

(** ** At-rules *)

Definition gives {A} (f : nat → bytes → res A) (s : bytes) (r : A) : Prop := ∀ fuel, (length s < fuel)%nat → f fuel s = Ok r.
Notation expands vw vh := (gives (λ fuel s, expand_at fuel s vw vh)).

Lemma expand_plain vw vh s t o e : 64 ∉ s → expands vw vh t (o, e) → expands vw vh (s ++ t) (s ++ o, e).
Proof.
  intros Hs Ht. induction s as [|c s IH]; [done|]. apply not_elem_of_cons in Hs as [Hc Hs]. intros fuel Hf. cbn [app length] in *. destruct fuel as [|fuel]; [lia|]. cbn [expand_at].
  rewrite decide_False by done. rewrite (IH Hs fuel) by lia. done.
Qed.
Lemma matches_blank q vw vh : mini_css_media_matches (32 :: q) vw vh = mini_css_media_matches q vw vh.
Proof. done. Qed.
Lemma at_media q s t vw vh : q ≠ [] → Forall (λ f, 0 <= fpx f < 2 ^ 24) q → (length (print_features q) <= 254)%nat → balanced s →
  at_rule (str "media " ++ print_features q ++ 123 :: s ++ 125 :: t) vw vh = Ok (if forallb (holds vw vh) q then s ++ [10] else [], [], Some t).
Proof.
  intros Hn Hq Hl Hs. unfold at_rule. change (str "media " ++ ?x) with (str "media" ++ 32 :: x). rewrite scan_app; [|repeat constructor|rewrite length_app; lia|by intros ? ? [= <- _]].
  assert (named : ∀ x, streq (c_tolower <$> take 23 (str "media")) (str x) = streq (str "media") (str x)) by done. rewrite named. change (streq (str "media") (str "media")) with true. cbv iota.
  unfold at_block. change (32 :: print_features q ++ ?x) with ((32 :: print_features q) ++ x). rewrite upto_found.
  - rewrite inside_run by done. cbn [res_bind]. rewrite take_ge by (cbn; lia). rewrite matches_blank, media_features by done. cbn [res_bind]. done.
  - intros [?|Hin]%elem_of_cons; [done|]. pose proof (features_chars q) as Hc. rewrite Forall_forall in Hc. by destruct (Hc _ Hin) as [? _].
Qed.
Definition group_text (vw vh : Z) (g : group) : bytes :=
  match cond g with [] => print_rules (body g) | q => if forallb (holds vw vh) q then print_rules (body g) ++ [10] else [] end.
Lemma group_run vw vh g t o : group_ok g = true → expands vw vh t (o, []) → expands vw vh (print_group g ++ t) (group_text vw vh g ++ o, []).
Proof.
  unfold group_ok, print_group, group_text. rewrite !andb_true_iff, bool_decide_eq_true. intros [[Hr Hc] Hl] Ht. destruct (rules_chars _ Hr) as [Hb Ha].
  destruct (cond g) as [|f q] eqn:E; [by apply expand_plain|]. rewrite <- E in *. assert (Forall (λ f, 0 <= fpx f < 2 ^ 24) (cond g)) as Hq.
  { rewrite forallb_forall in Hc. apply Forall_forall. intros x Hx. apply (bool_decide_eq_true_1 _), Hc. by apply list_elem_of_In. }
  intros fuel Hf. destruct fuel as [|fuel]; [lia|].
  assert ((str "@media " ++ print_features (cond g) ++ 123 :: print_rules (body g) ++ [125]) ++ t = 64 :: str "media " ++ print_features (cond g) ++ 123 :: print_rules (body g) ++ 125 :: t) as Es.
  { change (str "@media ") with (64 :: str "media "). rewrite <- !app_assoc. cbn [app]. by rewrite <- !app_assoc. }
  rewrite Es in Hf |- *. cbn [expand_at]. rewrite decide_True by done. rewrite at_media by (done || by rewrite E). cbn [res_bind].
  rewrite (Ht fuel); [done|]. cbn [length] in Hf. rewrite !length_app in Hf. cbn [length] in Hf. rewrite length_app in Hf. cbn [length] in Hf. lia.
Qed.
Lemma sheet_run vw vh l : forallb group_ok l = true → expands vw vh (print_sheet l) (flat_map (group_text vw vh) l, []).
Proof.
  induction l as [|g l IH]; intros H; [by intros [|fuel] Hf; [cbn in Hf; lia|]|]. cbn [forallb] in H. apply andb_true_iff in H as [Hg Hl]. apply group_run; [done|by apply IH].
Qed.

(** ** Nesting *)

Definition flat_text (l : list (list bytes * list decl)) : bytes := flat_map (λ f, flat_rule (commas (fst f)) (print_decls (snd f))) l.
Notation nests parent := (gives (λ fuel s, expand_nesting fuel parent s)).
Definition bodies (sel s : bytes) (r : bytes * bytes) : Prop := ∀ fuel, (length s + 1 < fuel)%nat → expand_body fuel sel s = Ok r.

Lemma skip_commas alts t : Forall part_ok alts → alts ≠ [] → skip c_isspace (commas alts ++ t) = commas alts ++ t ∧ 123 ∉ commas alts ∧ 59 ∉ commas alts ∧ commas alts ≠ [].
Proof.
  intros Ha Hn. destruct (commas_part _ Ha Hn) as [Hc (H1&_&H3)]. split; [by apply skip_keep|]. split; [by apply (text_not 123)|]. split; [by apply (text_not 59)|done].
Qed.
Lemma strchr_run c s t : c ∉ s → strchr (s ++ c :: t) c = Some (length s).
Proof.
  intros H. induction s as [|x s IH]; cbn [app strchr]; [by rewrite decide_True|]. apply not_elem_of_cons in H as [Hx Hs]. rewrite decide_False by done. by rewrite IH.
Qed.
Lemma semi_none s t : 59 ∉ s → 123 ∉ s → semi_first (s ++ 123 :: t) = None.
Proof.
  intros H1 H2. unfold semi_first. rewrite (strchr_run 123) by done.
  destruct (strchr (s ++ 123 :: t) 59) as [i|] eqn:E; [|done]. rewrite decide_False; [done|]. intros Hi. apply strchr_Some in E as (E&_). rewrite lookup_app_l in E by done.
  apply H1. by eapply list_elem_of_lookup_2.
Qed.
Lemma semi_some s t : 59 ∉ s → 123 ∉ s → semi_first (s ++ 59 :: t) = Some t.
Proof.
  intros H1 H2. unfold semi_first. rewrite strchr_run by done. assert (drop (S (length s)) (s ++ 59 :: t) = t) as Ed by (change (S (length s)) with (1 + length s)%nat; rewrite Nat.add_comm, <- drop_drop, drop_app_length; done).
  rewrite Ed. destruct (strchr _ 123) as [j|] eqn:E; [|done]. rewrite decide_True; [done|]. apply strchr_Some in E as (E&_). destruct (decide (length s < j)%nat); [done|]. exfalso.
  destruct (decide (j = length s)) as [->|]; [rewrite list_lookup_middle in E by done; discriminate|]. rewrite lookup_app_l in E by lia. apply H2. by eapply list_elem_of_lookup_2.
Qed.

Lemma print_decl_split d : decl_ok d = true → ∃ s, print_decl d = s ++ [59] ∧ 59 ∉ s ∧ 123 ∉ s ∧ s ≠ [] ∧ ∀ t, skip c_isspace (s ++ t) = s ++ t.
Proof.
  intros (P1&_&(W1&_&W3)&_&_&V1&_)%decl_facts. exists (kprop d ++ 58 :: kval d ++ if kimp d then str " !important" else []). split; [unfold print_decl; rewrite <- !app_assoc; cbn [app]; by rewrite <- !app_assoc|].
  assert (∀ c, text_char c = false → c ∉ kprop d ++ 58 :: kval d ++ (if kimp d then str " !important" else [])) as Hc.
  { intros c Hc. apply (text_not c); [done|]. change (58 :: ?x) with ([58] ++ x). rewrite !Forall_app. split_and!; [done|by repeat constructor|done|]. destruct (kimp d); repeat constructor. }
  split; [by apply Hc|]. split; [by apply Hc|]. split; [by destruct (kprop d)|]. intros t. rewrite <- app_assoc. by apply skip_keep.
Qed.
Lemma body_decl sel d s o ds : decl_ok d = true → bodies sel s (o, ds) → bodies sel (print_decl d ++ s) (o, print_decl d ++ ds).
Proof.
  intros Hd Hs fuel Hf. destruct (print_decl_split d Hd) as (p&E&H1&H2&H3&H4). destruct fuel as [|fuel]; [lia|]. cbn [expand_body].
  rewrite E in *. rewrite <- app_assoc in *. rewrite H4. cbn [app] in *. rewrite semi_some by done.
  destruct p as [|c p]; [done|]. cbn [app] in *. rewrite decide_False by (apply not_elem_of_cons in H2 as [? _]; congruence).
  rewrite (Hs fuel) by (cbn in Hf; rewrite length_app in Hf; cbn in Hf; lia). cbn [res_bind]. do 3 f_equal. 
  change (c :: p ++ 59 :: s) with ((c :: p) ++ [59] ++ s). rewrite app_assoc. rewrite length_app, Nat.add_sub. by rewrite take_app_length.
Qed.
Lemma body_nil sel : bodies sel [] ([], []).
Proof. intros fuel Hf. destruct fuel; [cbn in Hf; lia|done]. Qed.
Lemma print_rule_split alts ds ns t : print_rule (R alts ds ns) ++ t = commas alts ++ 123 :: (print_decls ds ++ print_rules ns) ++ 125 :: t.
Proof. cbn [print_rule]. unfold print_rules. rewrite <- !app_assoc. cbn [app]. by rewrite <- !app_assoc. Qed.
Lemma inner_balanced alts ds ns : rule_ok (R alts ds ns) = true → balanced (print_decls ds ++ print_rules ns).
Proof.
  cbn [rule_ok]. rewrite !andb_true_iff. intros [[_ Hd] Hn]. apply balanced_app; [apply balanced_text; by apply decls_chars|by apply rules_chars].
Qed.
Lemma body_rule sel r s o o' : rule_ok r = true → nests sel (print_rule r) o → bodies sel s (o', []) → bodies sel (print_rule r ++ s) (o ++ o', []).
Proof.
  destruct r as [alts ds ns]. intros Hr Ho Hs fuel Hf. pose proof (inner_balanced _ _ _ Hr) as Hb. pose proof Hr as Hr'. cbn [rule_ok] in Hr'.
  rewrite !andb_true_iff in Hr'. destruct Hr' as [[(Ha&Hn&_)%alts_facts _] _]. destruct fuel as [|fuel]; [lia|]. cbn [expand_body]. rewrite print_rule_split in *.
  destruct (skip_commas alts (123 :: (print_decls ds ++ print_rules ns) ++ 125 :: s) Ha Hn) as (E&H1&H2&H3). rewrite E, semi_none by done. rewrite upto_found by done. rewrite braced_run by done.
  assert (nests sel (commas alts ++ 123 :: (print_decls ds ++ print_rules ns) ++ [125]) o) as Ho'.
  { intros f Hlf. rewrite <- (Ho f); rewrite <- (app_nil_r (print_rule _)), print_rule_split; [done|]. exact Hlf. }
  rewrite !length_app in Hf. cbn [length] in Hf. rewrite !length_app in Hf. cbn [length] in Hf.
  rewrite (Ho' fuel) by (rewrite !length_app; cbn [length]; rewrite !length_app; cbn [length]; lia). cbn [res_bind]. rewrite (Hs fuel) by lia. cbn [res_bind].
  destruct (commas alts) as [|c a] eqn:Ec; [done|]. cbn [app]. by rewrite decide_False by (apply not_elem_of_cons in H1 as [? _]; congruence).
Qed.
Lemma decls_skip ds : forallb decl_ok ds = true → ds ≠ [] → skip c_isspace (print_decls ds) = print_decls ds ∧ print_decls ds ≠ [].
Proof.
  destruct ds as [|d ds]; [done|]. cbn [forallb]. intros [Hd _]%andb_true_iff _. unfold print_decls. cbn [flat_map].
  destruct (print_decl_split d Hd) as (s&->&_&_&Hs&H). rewrite <- app_assoc. split; [apply H|by destruct s].
Qed.
Lemma body_run sel ds s o : forallb decl_ok ds = true → bodies sel s (o, []) → bodies sel (print_decls ds ++ s) (o, print_decls ds).
Proof.
  intros Hd Hs. induction ds as [|d ds IH]; [done|]. cbn [forallb] in Hd. apply andb_true_iff in Hd as [Hd Hds]. unfold print_decls. cbn [flat_map]. rewrite <- app_assoc.
  apply body_decl; [done|]. by apply IH.
Qed.
Definition own_text (s : list bytes) (ds : list decl) : list (list bytes * list decl) := match ds with [] => [] | _ => [(s, ds)] end.
Lemma rule_nests r : ∀ ps t o, rule_ok r = true → fits_rule ps r = true → Forall part_ok ps → (length (commas ps) <= 127)%nat →
  nests (commas ps) t o → nests (commas ps) (print_rule r ++ t) (flat_text (flatten ps r) ++ o).
Proof.
  induction r as [alts ds ns IH] using rule_ind'. intros ps t o Hr Hfit Hps Hlp Ht fuel Hf. pose proof (inner_balanced _ _ _ Hr) as Hb.
  cbn [rule_ok fits_rule] in Hr, Hfit. rewrite !andb_true_iff in Hr, Hfit. rewrite !bool_decide_eq_true in Hfit. destruct Hr as [[(Ha&Hn&_)%alts_facts Hd] Hns]. destruct Hfit as [[La Ls] Hfit].
  rewrite print_rule_split in *. destruct fuel as [|fuel]; [lia|]. cbn [expand_nesting].
  destruct (skip_commas alts (123 :: (print_decls ds ++ print_rules ns) ++ 125 :: t) Ha Hn) as (E&H1&H2&H3). rewrite E, upto_found by done.
  rewrite (proj2 (strchr_None _ _) H2), inside_run by done. cbn [res_bind]. rewrite (take_ge (commas alts)) by lia.
  destruct (commas_part _ Ha Hn) as [_ Hw]. rewrite (whole_trim _ Hw), combine_nest by done. set (s := nest ps alts) in *.
  pose proof (nest_ok _ _ Hps Ha) as Hs. change (nest ps alts) with s in Hs.
  rewrite !length_app in Hf. cbn [length] in Hf. rewrite !length_app in Hf. cbn [length] in Hf.
  assert (bodies (commas s) (print_rules ns) (flat_text (flat_map (flatten s) ns), [])) as Hb'.
  { clear -IH Hns Hfit Hs Ls. induction ns as [|r ns IHn]; [apply body_nil|]. cbn [forallb flat_map] in *. apply andb_true_iff in Hns as [Hr Hns], Hfit as [Hf Hfit]. apply Forall_cons in IH as [IHr IH].
    unfold flat_text. rewrite flat_map_app. apply body_rule; [done| |by apply IHn]. rewrite <- (app_nil_r (print_rule r)), <- (app_nil_r (flat_map _ (flatten s r))).
    apply IHr; try done. intros [|f] Hl; [cbn in Hl; lia|done]. }
  rewrite (body_run _ _ _ _ Hd Hb' fuel) by (rewrite length_app; lia). cbn [res_bind]. rewrite (Ht fuel) by lia. cbn [res_bind].
  assert (match skip c_isspace (print_decls ds) with [] => [] | _ => flat_rule (commas s) (skip c_isspace (print_decls ds)) end = flat_text (own_text s ds)) as Eo.
  { destruct ds as [|d ds]; [done|]. destruct (decls_skip _ Hd ltac:(done)) as [-> Hnd]. destruct (print_decls (d :: ds)) eqn:Ed; [done|]. rewrite <- Ed. unfold flat_text, own_text. cbn [flat_map fst snd]. by rewrite app_nil_r. }
  cbn [flatten]. change (match ds with [] => [] | _ => [(nest ps alts, ds)] end) with (own_text s ds). change (nest ps alts) with s.
  unfold flat_text at 2. rewrite flat_map_app. change (flat_map _ (own_text s ds)) with (flat_text (own_text s ds)). rewrite <- Eo, <- app_assoc.
  destruct (skip c_isspace (print_decls ds)); done.
Qed.
Lemma nests_newline t o : nests [] t o → nests [] (10 :: t) o.
Proof. intros H [|fuel] Hf; [lia|]. cbn [length] in Hf. rewrite <- (H (S fuel)) by lia. done. Qed.
Lemma rules_nests l t o : forallb rule_ok l = true → forallb (fits_rule []) l = true → nests [] t o → nests [] (print_rules l ++ t) (flat_text (flat_map (flatten []) l) ++ o).
Proof.
  intros Hr Hf Ht. induction l as [|r l IH]; [done|]. cbn [forallb flat_map] in *. apply andb_true_iff in Hr as [Hr Hl], Hf as [Hf Hfl]. unfold print_rules, flat_text. cbn [flat_map].
  rewrite flat_map_app, <- !app_assoc. apply (rule_nests r [] _ _ Hr Hf); [constructor|cbn; lia|by apply IH].
Qed.
Lemma group_nests vw vh g t o : group_ok g = true → forallb (fits_rule []) (body g) = true → nests [] t o →
  nests [] (group_text vw vh g ++ t) (flat_text (if forallb (holds vw vh) (cond g) then flat_map (flatten []) (body g) else []) ++ o).
Proof.
  unfold group_ok, group_text. rewrite !andb_true_iff. intros [[Hr _] _] Hf Ht. destruct (cond g) as [|f q] eqn:E; [by apply rules_nests|].
  destruct (forallb (holds vw vh) (f :: q)); [|done]. rewrite <- app_assoc. apply rules_nests; [done..|]. by apply nests_newline.
Qed.
Lemma sheet_nests vw vh l : forallb group_ok l = true → forallb (λ g, forallb (fits_rule []) (body g)) l = true →
  css_expand_nesting (flat_map (group_text vw vh) l) = Ok (flat_text (stands_for vw vh l)).
Proof.
  intros Hg Hf. assert (nests [] (flat_map (group_text vw vh) l) (flat_text (stands_for vw vh l))) as H; [|by apply H; lia].
  induction l as [|g l IH]; [intros [|f] Hl; [cbn in Hl; lia|done]|]. cbn [forallb flat_map] in *. apply andb_true_iff in Hg as [Hg Hgl], Hf as [Hf Hfl].
  unfold stands_for, flat_text. cbn [flat_map]. rewrite flat_map_app. apply group_nests; [done..|by apply IH].
Qed.

(** ** Rules and declarations *)

Lemma rtrim_within s y : Forall (λ c, c_isspace c = true) y → whole s → rtrim (s ++ y) = s.
Proof.
  intros Hy (_&H2&_). unfold rtrim. rewrite rev_app_distr, skip_through, H2, rev_involutive; [done|].
  apply Forall_forall. intros c Hc. rewrite Forall_forall in Hy. apply Hy. by apply list_elem_of_In, in_rev, list_elem_of_In.
Qed.
Lemma strip_imp v : whole v → strip_important (v ++ str " !important") = (v, true).
Proof.
  intros Hv. unfold strip_important. assert (rtrim (v ++ str " !important") = v ++ str " !important") as ->.
  { rewrite <- (app_nil_r (v ++ _)) at 1. apply rtrim_within; [constructor|]. apply (whole_app v [32] (str "!important")); [done|]. split; [done|]. by split. }
  change (str " !important") with ([32] ++ str "!important"). rewrite app_assoc, length_app. change (length (str "!important")) with 10%nat.
  rewrite decide_True by lia. rewrite Nat.add_sub, drop_app_length, take_app_length. change (streq (c_tolower <$> str "!important") (str "!important")) with true. cbv iota.
  rewrite rtrim_within; [done| |done]. repeat constructor.
Qed.
Lemma strip_plain v : whole v → snd (strip_important v) = false → strip_important v = (v, false).
Proof.
  intros Hv. unfold strip_important. assert (rtrim v = v) as -> by (rewrite <- (app_nil_r v) at 1; by apply rtrim_within).
  case_decide; [|done]. by destruct (streq _ _).
Qed.
Lemma pieces_run s t acc : 59 ∉ s → pieces (s ++ 59 :: t) acc = (acc ++ s) :: pieces t [].
Proof.
  revert acc. induction s as [|c s IH]; intros acc Hs; cbn [app pieces]; [by rewrite decide_True, app_nil_r by done|]. apply not_elem_of_cons in Hs as [Hc Hs].
  rewrite decide_False by done. rewrite IH by done. by rewrite <- app_assoc.
Qed.
Lemma add_decl_run ri sh w d s : Forall (λ c, c_isspace c = true) w → decl_ok d = true → print_decl d = s ++ [59] → (ri < length (rules sh))%nat → (length (decls sh) < MAX_DECLS)%nat →
  add_decl ri sh (w ++ s) = Sht (rules sh) (decls sh ++ [Decl ri (kimp d) (kprop d) (kval d)]).
Proof.
  intros Hw (_&_&WP&P4&P5&_&_&WV&V4&V5)%decl_facts E Hri Hn. assert (s = kprop d ++ 58 :: kval d ++ if kimp d then str " !important" else []) as ->.
  { apply (app_inv_tail [59]). rewrite <- E. unfold print_decl. rewrite <- !app_assoc. cbn [app]. by rewrite <- !app_assoc. }
  unfold add_decl. rewrite app_assoc, upto_found; [|rewrite not_elem_of_app; split; [|done]; intros Hin; rewrite Forall_forall in Hw; by specialize (Hw _ Hin)].
  assert (trim (w ++ kprop d) = kprop d) as -> by (rewrite <- (app_nil_r (kprop d)) at 1; by apply trim_within).
  rewrite (take_ge (kprop d)) by done. cbn [tail]. rewrite (bool_decide_eq_true_2 (ri < _)%nat), (bool_decide_eq_true_2 (kprop d ≠ [])), (bool_decide_eq_true_2 (_ < MAX_DECLS)%nat) by (done || apply WP). cbn [andb].
  destruct (kimp d).
  - rewrite (whole_trim (_ ++ _)) by (apply (whole_app (kval d) [32] (str "!important")); [done|]; by split). rewrite take_ge by (rewrite length_app; cbn; lia). by rewrite strip_imp.
  - rewrite app_nil_r, whole_trim, take_ge by done. by rewrite strip_plain by auto.
Qed.
Lemma add_decls_run ri ds w sh : Forall (λ c, c_isspace c = true) w → forallb decl_ok ds = true → (ri < length (rules sh))%nat → (length (decls sh) + length ds <= MAX_DECLS)%nat →
  fold_left (add_decl ri) (pieces (print_decls ds ++ [32]) w) sh = Sht (rules sh) (decls sh ++ map (λ d, Decl ri (kimp d) (kprop d) (kval d)) ds).
Proof.
  intros Hw Hd Hri Hn. revert w Hw sh Hri Hn. induction ds as [|d ds IH]; intros w Hw sh Hri Hn.
  - change (pieces (print_decls [] ++ [32]) w) with [w ++ [32]]. cbn [fold_left map]. unfold add_decl. rewrite upto_absent; [destruct sh; cbn; by rewrite app_nil_r|].
    rewrite not_elem_of_app. split; [intros Hin; rewrite Forall_forall in Hw; by specialize (Hw _ Hin)|by intros ?%list_elem_of_singleton].
  - cbn [forallb length] in *. apply andb_true_iff in Hd as [Hd Hds]. unfold print_decls. cbn [flat_map]. destruct (print_decl_split d Hd) as (s&E&H59&_). rewrite E, <- !app_assoc. cbn [app].
    rewrite pieces_run by done. cbn [fold_left]. rewrite (add_decl_run _ _ _ d) by (done || lia). rewrite IH; [|done|exact (Forall_nil_2 _)|done|cbn [decls]; rewrite length_app; cbn [length]; lia].
    cbn [rules decls map]. by rewrite <- app_assoc.
Qed.

Fixpoint decls_from (i : nat) (l : list (list bytes * list decl)) : list CssDecl :=
  match l with [] => [] | f :: l => css_decls i f ++ decls_from (S i) l end.
Lemma decls_from_join i l : decls_from i l = mjoin (imap (λ j, css_decls (i + j)) l).
Proof.
  revert i. induction l as [|f l IH]; intros i; [done|]. cbn [decls_from imap]. rewrite IH. cbn [mjoin list_join]. rewrite Nat.add_0_r. f_equal. f_equal.
  apply imap_ext. intros j x _. cbn. f_equal. lia.
Qed.
Definition flat_ok (f : list bytes * list decl) : Prop :=
  Forall part_ok (fst f) ∧ fst f ≠ [] ∧ (length (commas (fst f)) <= 127)%nat ∧ forallb decl_ok (snd f) = true.
Lemma flat_run l : ∀ sh fuel w, Forall flat_ok l → Forall (λ c, c_isspace c = true) w → (length (rules sh) + length l <= MAX_RULES)%nat →
  (length (decls sh) + length (flat_map snd l) <= MAX_DECLS)%nat → (length (flat_text l) < fuel)%nat →
  flat_loop fuel (w ++ flat_text l) sh = Ok (Sht (rules sh ++ map css_rule l) (decls sh ++ decls_from (length (rules sh)) l)).
Proof.
  induction l as [|[s ds] l IH]; intros sh [|fuel] w Hl Hw Hr Hd Hf; try lia; cbn [flat_loop]; rewrite skip_through by done.
  { cbn. rewrite !app_nil_r. by destruct sh. }
  apply Forall_cons in Hl as [(Hs&Hn&Hlen&Hds) Hl]. cbn [fst snd] in *. destruct (commas_part _ Hs Hn) as [Hc Hwh]. cbn [flat_map snd] in Hd. rewrite length_app in Hd. cbn [length] in Hr.
  assert (flat_text ((s, ds) :: l) = (commas s ++ [32]) ++ 123 :: (32 :: print_decls ds ++ [32]) ++ 125 :: [10] ++ flat_text l) as Et.
  { unfold flat_text. cbn [flat_map fst snd]. unfold flat_rule. change (str " { ") with [32; 123; 32]. change (str " }") with [32; 125]. rewrite <- !app_assoc. cbn [app]. by rewrite <- !app_assoc. }
  rewrite Et in *. rewrite <- app_assoc. rewrite (skip_keep _ _ _ (proj1 Hwh)) by apply Hwh. rewrite app_assoc.
  assert (∃ c r, commas s = c :: r ∧ c ≠ 64) as (c&r&Ec&H64).
  { destruct (commas s) as [|c r]; [by destruct Hwh as (_&_&?)|]. exists c, r. split; [done|]. apply Forall_cons in Hc as [Hc _]. by intros ->. }
  rewrite Ec at 1. cbn [app]. rewrite decide_False by done. 
  rewrite upto_found by (rewrite not_elem_of_app; split; [by apply (text_not 123)|by intros ?%list_elem_of_singleton]).
  assert (trim (commas s ++ [32]) = commas s) as -> by (apply (trim_within [] (commas s) [32]); [constructor|repeat constructor|done]).
  change (tail (123 :: ?x)) with x. change (32 :: (print_decls ds ++ [32]) ++ ?x) with ((32 :: print_decls ds ++ [32]) ++ x). rewrite upto_found.
  2: { intros [?|[Hin|?%list_elem_of_singleton]%elem_of_app]%elem_of_cons; [done| |done]. pose proof (decls_chars ds Hds) as Hch. rewrite Forall_forall in Hch. by destruct (Hch _ Hin). }
  assert (add_rule (commas s) sh = Sht (rules sh ++ [css_rule (s, ds)]) (decls sh)) as ->.
  { unfold add_rule. rewrite (bool_decide_eq_true_2 (commas s ≠ [])), (bool_decide_eq_true_2 (_ < MAX_RULES)%nat) by (lia || apply Hwh). cbn [andb]. by rewrite take_ge. }
  assert (pieces (32 :: print_decls ds ++ [32]) [] = pieces (print_decls ds ++ [32]) [32]) as -> by done.
  rewrite add_decls_run; [|repeat constructor|done|cbn [rules]; rewrite length_app; cbn; lia|cbn [decls]; lia]. change (tail (125 :: 10 :: ?x)) with ([10] ++ x).
  rewrite IH; [|done|repeat constructor|cbn [rules]; rewrite length_app; cbn; lia|cbn [decls]; rewrite length_app, length_map; lia|].
  - cbn [rules decls map decls_from]. rewrite length_app. cbn [length]. rewrite Nat.add_1_r, <- !app_assoc. done.
  - repeat first [rewrite length_app in Hf | progress cbn [length app] in Hf]. lia.
Qed.

Lemma flatten_ok r : ∀ ps, rule_ok r = true → fits_rule ps r = true → Forall part_ok ps → Forall flat_ok (flatten ps r).
Proof.
  induction r as [alts ds ns IH] using rule_ind'. intros ps Hr Hfit Hps. cbn [rule_ok fits_rule flatten] in *. rewrite !andb_true_iff in Hr, Hfit. rewrite !bool_decide_eq_true in Hfit.
  destruct Hr as [[(Ha&Hn&_)%alts_facts Hd] Hns], Hfit as [[La Ls] Hfit]. pose proof (nest_ok _ _ Hps Ha) as Hs. apply Forall_app. split.
  - apply Forall_forall. intros f (r&Hr%list_elem_of_In&Hf%list_elem_of_In)%list_elem_of_In%in_flat_map. rewrite !forallb_forall in Hns, Hfit. rewrite Forall_forall in IH.
    pose proof (IH r Hr (nest ps alts) (Hns r (proj1 (list_elem_of_In _ _) Hr)) (Hfit r (proj1 (list_elem_of_In _ _) Hr)) Hs) as H. rewrite Forall_forall in H. by apply H.
  - destruct ds as [|d ds]; [constructor|]. constructor; [|constructor]. split; [done|]. split; [by apply nest_nonempty|]. by split.
Qed.
Lemma stands_ok vw vh l : forallb group_ok l = true → forallb (λ g, forallb (fits_rule []) (body g)) l = true → Forall flat_ok (stands_for vw vh l).
Proof.
  intros Hg Hf. apply Forall_forall. intros f (g&Hin&Hx%list_elem_of_In)%list_elem_of_In%in_flat_map. destruct (forallb (holds vw vh) (cond g)); [|by apply elem_of_nil in Hx].
  apply list_elem_of_In, in_flat_map in Hx as (r&Hr&Hx%list_elem_of_In). rewrite forallb_forall in Hg, Hf. specialize (Hg g Hin). specialize (Hf g Hin). cbn beta in Hf.
  unfold group_ok in Hg. rewrite !andb_true_iff in Hg. destruct Hg as [[Hg _] _]. rewrite forallb_forall in Hg, Hf.
  pose proof (flatten_ok r [] (Hg r Hr) (Hf r Hr) (Forall_nil_2 _)) as H. rewrite Forall_forall in H. by apply H.
Qed.

(** C4. The text of a sheet is read as the flat rules it stands for: comments,
    conditions, nesting and the cutting of declarations give back the tree that was
    written, without key frames or font faces. *)
Theorem stylesheet_roundtrip l vw vh : forallb group_ok l = true → fits_sheet vw vh l = true →
  css_parse (print_sheet l) vw vh = Ok (sheet_of (stands_for vw vh l), []).
Proof.
  unfold fits_sheet. rewrite !andb_true_iff, !bool_decide_eq_true. intros Hg [[Hf Hr] Hd]. unfold css_parse, css_expand_at_rules. rewrite sheet_clean by done.
  rewrite (sheet_run vw vh l Hg) by lia. cbn [res_bind]. rewrite sheet_nests by done. cbn [res_bind].
  pose proof (flat_run _ (Sht [] []) (S (length (flat_text (stands_for vw vh l)))) [] (stands_ok vw vh l Hg Hf) (Forall_nil_2 _)) as E. cbn [app] in E.
  rewrite E by (cbn; lia). cbn [res_bind rules decls app length]. by rewrite decls_from_join.
Qed.

Definition demo_sheet : list group :=
  let dc p v i := Dc (str p) (str v) i in
  [Group [] [R [str ".a"; str "b"] [dc "color" "red" false; dc "top" "1px" true]
       [R [str "i"; str "> u"] [dc "left" "2px" false] []; R [str "&:hover"] [dc "margin" "0 auto" false] []]];
   Group [Feature Width true 500] [R [str "#x"] [dc "opacity" "1" false] []];
   Group [Feature Width false 400; Feature Height true 10] [R [str "#y"] [dc "opacity" "0" false] []]]%string.
Lemma stylesheet_roundtrip_witness :
  print_sheet demo_sheet = str ".a, b{color:red;top:1px !important;i, > u{left:2px;}&:hover{margin:0 auto;}}@media (min-width: 500px){#x{opacity:1;}}@media (max-width: 400px) and (min-height: 10px){#y{opacity:0;}}"
  ∧ css_parse (print_sheet demo_sheet) 1024 768 = Ok (Sht
      [Rule (str ".a i, .a> u, b i, b> u") 101; Rule (str ".a:hover, b:hover") 200; Rule (str ".a, b") 100; Rule (str "#x") 10000]
      [Decl 0 false (str "left") (str "2px"); Decl 1 false (str "margin") (str "0 auto"); Decl 2 false (str "color") (str "red");
       Decl 2 true (str "top") (str "1px"); Decl 3 false (str "opacity") (str "1")], []).
Proof.
  split; [vm_compute; reflexivity|]. rewrite (stylesheet_roundtrip demo_sheet 1024 768); [vm_compute; reflexivity|vm_compute; reflexivity|].
  unfold fits_sheet. apply andb_true_iff. split; [apply andb_true_iff; split; [vm_compute; reflexivity|]|]; apply bool_decide_eq_true; apply Nat.leb_le; vm_compute; reflexivity.
Defined.
