(* ===== verification/Cascade.v ===== *)
(** * The cascade (src/src/mini_dom.c, [mini_css_apply])

    Declarations are ordered by importance, specificity and source, variables are
    set first, and then every declaration from the strongest down is offered to the
    nodes its selector finds; a table of 32768 slots says which node has which
    property already.  Pseudo-elements are nodes made for their hosts on the way.
    What [mini_style_set] does with a value is not modelled: its calls are logged. *)

From stdpp Require Import gmap list sorting.
From S2P Require Import Prelude CString Dom Selectors CssVars CssMedia Stylesheet.
Open Scope Z_scope.

(** ** The order *)

(** Insertion from the end, as the array is searched; lists are reversed, the
    strongest first. *)
Section insertion.
Context {A : Type} (shift : A → A → bool).
Fixpoint insert_decl (key : A) (l : list A) : list A :=
  match l with
  | [] => [key]
  | x :: l => if shift x key then x :: insert_decl key l else key :: x :: l
  end.
Definition sort_decls (l : list A) : list A := fold_left (λ acc key, insert_decl key acc) l [].
End insertion.
Definition decl_spec (rs : list CssRule) (D : CssDecl) : Z := from_option rspec 0 (rs !! drule D).
(** [D] goes after [key]. *)
Definition stronger (rs : list CssRule) (D key : CssDecl) : bool :=
  (dimportant D && negb (dimportant key)) || (eqb (dimportant D) (dimportant key) && bool_decide (decl_spec rs key < decl_spec rs D)).

(** ** The winners *)

(** The slots in use: node, hash of the property, pseudo-element. *)
Notation winners := (gmap nat (Z * Z * Z)).
Definition MINI_CW_CAP : nat := 32768.
Definition cw_prop_hash (s : bytes) : Z := let h := fnv s in if decide (h = 0) then 1 else h.
Definition cw_slot (node ph pseudo : Z) : nat :=
  let n := Z.lxor node (Z.shiftr node 15) in
  Z.to_nat (Z.land (Z.lxor (Z.lxor (u32 n) (u32 (ph * 2654435761))) (u32 ((pseudo + 1) * 2246822519))) (Z.of_nat MINI_CW_CAP - 1)).
Definition cw_at (h i : nat) : nat := ((h + i) mod MINI_CW_CAP)%nat.
Fixpoint cw_look (w : winners) (key : Z * Z * Z) (h k i : nat) : bool :=
  match k with
  | O => false
  | S k => match w !! cw_at h i with None => false | Some x => if decide (x = key) then true else cw_look w key h k (S i) end
  end.
Definition slot_of (key : Z * Z * Z) : nat := let '(node, ph, pseudo) := key in cw_slot node ph pseudo.
Definition cw_seen (w : winners) (key : Z * Z * Z) : bool := cw_look w key (slot_of key) 8 0.
Fixpoint cw_put (w : winners) (key : Z * Z * Z) (h k i : nat) : winners :=
  match k with
  | O => w
  | S k => match w !! cw_at h i with None => <[cw_at h i := key]> w | Some x => if decide (x = key) then w else cw_put w key h k (S i) end
  end.
Definition cw_mark (w : winners) (key : Z * Z * Z) : winners := cw_put w key (slot_of key) 8 0.

(** ** Pseudo-elements *)

Definition before_first (s : bytes) (l : list string) : option bytes :=
  head (omap (λ p, (λ i, take i s) <$> strstr s (str p)) l).
(** The selector of the host, and 1 for [::before], 2 for [::after], 3 for
    [::placeholder], 0 for none. *)
Definition host_of (sel : bytes) : bytes * Z :=
  match before_first sel ["::before"; ":before"]%string with
  | Some h => (take 127 h, 1)
  | None =>
    match before_first sel ["::after"; ":after"]%string with
    | Some h => (take 127 h, 2)
    | None =>
      match before_first sel ["::placeholder"; ":placeholder"; "::-webkit-input-placeholder"; "::-moz-placeholder"; ":-ms-input-placeholder"]%string with
      | Some h => (if streq h [] || streq h (str "*") then str "input,textarea" else take 127 h, 3)
      | None => (take 127 sel, 0)
      end
    end
  end.
(** The text of a [content] declaration: unquoted, or the attribute it names. *)
Definition content_text (x : MiniNode) (val : bytes) : bytes :=
  let s := trim (take 127 val) in
  let q := hd0 s in
  if bool_decide (q = 34 ∨ q = 39) && bool_decide (last s = Some q) then removelast (tail s)
  else if starts_with (str "attr(") s then
    match upto 41 (skip c_isspace (drop 5 s)) with
    | Some (name, _) => default s (get_attr x (rtrim (take 63 name)))
    | None => s
    end
  else s.

(** [pseudo_of] gives the node of a host's pseudo-element; [content_of] its
    [before_content] (1) and [after_content] (2); [styles] are the calls of
    [mini_style_set]. *)
Record Apply := App {
  adoc : dom; cw : winners; pseudo_of : gmap (nat * Z) nat; content_of : gmap (nat * Z) bytes; styles : list (nat * bytes * bytes) }.
Definition set_adoc (d : dom) (a : Apply) : Apply := App d (cw a) (pseudo_of a) (content_of a) (styles a).
Definition set_cw (w : winners) (a : Apply) : Apply := App (adoc a) w (pseudo_of a) (content_of a) (styles a).
Definition set_pseudo (n : nat) (k : Z) (p : nat) (a : Apply) : Apply := App (adoc a) (cw a) (<[(n, k) := p]> (pseudo_of a)) (content_of a) (styles a).
Definition set_content (n : nat) (k : Z) (c : option bytes) (a : Apply) : Apply :=
  App (adoc a) (cw a) (pseudo_of a) (partial_alter (λ _, c) (n, if decide (k = 1) then 1 else 2) (content_of a)) (styles a).
Definition style (n : nat) (prop val : bytes) (a : Apply) : Apply := App (adoc a) (cw a) (pseudo_of a) (content_of a) (styles a ++ [(n, prop, val)]).

Definition pseudo_tag (k : Z) : string := if decide (k = 1) then "::before" else if decide (k = 2) then "::after" else "::placeholder".
Definition pseudo_node (k : Z) (n : nat) (a : Apply) : res (Apply * nat) :=
  match pseudo_of a !! (n, k) with
  | Some p => Ok (a, p)
  | None =>
    let '(d, p) := mini_node_create_element (Some (str (pseudo_tag k))) (adoc a) in
    let a := set_pseudo n k p a in
    (let* d :=
       if decide (k = 1) then (let* x := node d n in let* (d, _) := mini_node_insert_before d (Some n) (Some p) (first_child (lk x)) in Ok d)%c
       else if decide (k = 2) then (let* (d, _) := mini_node_append_child d (Some n) (Some p) in Ok d)%c
       else Ok d in
     Ok (set_adoc d a, p))%c
  end.
(** The children of a pseudo-element are freed one after the other. *)
Fixpoint destroy_row (fuel : nat) (d : dom) (c : option nat) : res dom :=
  match c, fuel with
  | None, _ => Ok d
  | Some _, O => UB
  | Some c, S fuel => (let* y := node d c in let* d := mini_node_destroy d (Some c) in destroy_row fuel d (next_sibling (lk y)))%c
  end.
Definition fill_pseudo (p : nat) (t : bytes) (d : dom) : res dom :=
  (let* d := mini_node_set_attribute d (Some p) (Some (str "content")) (Some t) in
   let* d := put d p (set_text (Some t)) in
   let* x := node d p in
   let* d := destroy_row (rounds d) d (first_child (lk x)) in
   let* d := put d p (set_lk (λ l, set_last None (set_first None l))) in
   match t with
   | [] => Ok d
   | _ => let '(d, c) := mini_node_create_text (Some t) d in let* (d, _) := mini_node_append_child d (Some p) (Some c) in Ok d
   end)%c.
Definition put_content (k : Z) (n p : nat) (val : bytes) (a : Apply) : res Apply :=
  (let* x := node (adoc a) n in
   let t := content_text x val in
   if streq t (str "none") then
     let* d := mini_node_remove_attribute (adoc a) (Some p) (Some (str "content")) in
     let* d := put d p (set_text None) in
     Ok (set_content n k None (set_adoc d a))
   else
     let* d := fill_pseudo p t (adoc a) in
     Ok (set_content n k (Some t) (set_adoc d a)))%c.

(** ** Applying *)

Definition is_custom (prop : bytes) : bool := starts_with (str "--") prop.
Definition QUERY_MAX : nat := Z.to_nat 4096.

Section apply.
Context (addr : nat → Z).
Definition key_of (n : nat) (D : CssDecl) (k : Z) : Z * Z * Z := (addr n, cw_prop_hash (dprop D), k).
(** One declaration and one node it was found for. *)
Definition apply_hit (D : CssDecl) (k : Z) (a : Apply) (n : nat) : res Apply :=
  if cw_seen (cw a) (key_of n D k) then Ok a
  else
    let a := set_cw (cw_mark (cw a) (key_of n D k)) a in
    if decide (k = 0) then Ok (style n (dprop D) (dval D) a)
    else
      (let* x := node (adoc a) n in
       if match tag x with Some t => starts_with (str "::") t | None => false end then Ok a
       else
         let* (a, p) := pseudo_node k n a in
         let* a := if streq (dprop D) (str "content") then put_content k n p (dval D) a else Ok (style p (dprop D) (dval D) a) in
         let* d := put (adoc a) n (set_dirty true true) in
         Ok (set_adoc d a))%c.
Fixpoint apply_hits (D : CssDecl) (k : Z) (l : list nat) (a : Apply) : res Apply :=
  match l with [] => Ok a | n :: l => (let* a := apply_hit D k a n in apply_hits D k l a)%c end.

Context (K : Store) (root : nat) (rs : list CssRule).
Definition sel_of (D : CssDecl) : bytes := from_option rsel [] (rs !! drule D).
Definition apply_decl (D : CssDecl) (a : Apply) : M K Apply :=
  if is_custom (dprop D) then ret K a
  else
    let '(sel, k) := host_of (sel_of D) in
    bind K (mini_dom_query_selector_all K (adoc a) root sel QUERY_MAX) (λ l, lift K (apply_hits D k l a)).
Fixpoint apply_decls (l : list CssDecl) (a : Apply) : M K Apply :=
  match l with [] => ret K a | D :: l => bind K (apply_decl D a) (apply_decls l) end.
(** The variables, from the weakest declaration to the strongest. *)
Fixpoint set_vars_on (l : list nat) (name v : bytes) (d : dom) : res dom :=
  match l with [] => Ok d | n :: l => (let* d := mini_node_set_var d (Some n) name v in set_vars_on l name v d)%c end.
Fixpoint vars_pass (l : list CssDecl) (d : dom) : M K dom :=
  match l with
  | [] => ret K d
  | D :: l =>
    if is_custom (dprop D) then
      bind K (mini_dom_query_selector_all K d root (sel_of D) QUERY_MAX) (λ ns, bind K (lift K (set_vars_on ns (drop 2 (dprop D)) (dval D) d)) (vars_pass l))
    else vars_pass l d
  end.
(** From the strongest declaration down. *)
Definition cascade_pass (ds : list CssDecl) (a : Apply) : M K Apply := apply_decls (sort_decls (stronger rs) ds) (set_cw ∅ a).
Definition apply_sheet (ds : list CssDecl) (a : Apply) : M K Apply :=
  bind K (vars_pass (rev (sort_decls (stronger rs) ds)) (adoc a)) (λ d, cascade_pass ds (set_adoc d a)).
End apply.
(** [mini_css_apply]: the document is styled; key frames and font faces are
    handed on. *)
Definition mini_css_apply (addr : nat → Z) (K : Store) (root : nat) (css : bytes) (vw vh : Z) (a : Apply) : M K (Apply * list at_event) :=
  bind K (lift K (css_parse css vw vh)) (λ se, bind K (apply_sheet addr K root (rules (fst se)) (decls (fst se)) a) (λ a, ret K (a, snd se))).

Definition new_apply (d : dom) : Apply := App d ∅ ∅ ∅ [].
Definition styled (css : string) : option Apply :=
  match mini_css_apply (λ n, 4096 + 64 * Z.of_nat n) cached 1 (str css) 1024 768 (new_apply page) empty_table with Ok (a, _, _) => Some a | UB => None end.
Definition writes (css : string) : option (list (nat * string * string)) :=
  let text b := String.string_of_list_ascii (map (λ z, Ascii.ascii_of_N (Z.to_N z)) b) in
  (λ a, map (λ '(n, p, v), (n, text p, text v)) (styles a)) <$> styled css.
Example strongest_wins : writes "p { color: red; top: 1px } .r p { color: blue } p.a { color: green !important; color: black }"
  = Some [(6, "color", "green"); (11, "color", "green"); (4, "color", "blue"); (8, "color", "blue");
          (4, "top", "1px"); (6, "top", "1px"); (8, "top", "1px"); (11, "top", "1px")]%nat%string.
Proof. vm_compute. done. Qed.
(** A pseudo-element is a child of its host, and it is kept by the host as well:
    destroying the host frees it once as a child, then again. *)
Example freed_twice :
  match styled "p.b::before { content: '>' ; color: red }" with
  | Some a => pseudo_of a !! (8%nat, 1) = Some 13%nat ∧ content_of a !! (8%nat, 1) = Some (str ">") ∧ (children (adoc a) 8 = Ok [13; 9]%nat)
      ∧ match mini_node_destroy (adoc a) (Some 8%nat) with Ok d => nodes d !! 13%nat = None | UB => False end
  | None => False
  end.
Proof. vm_compute. done. Qed.
(** The pseudo-element moves the first child on. *)
Example before_is_first_child : q "p:first-child" = Some [4]%nat
  ∧ match styled "section::before { content: 'x' }" with
    | Some a => match mini_dom_query_selector_all cached (adoc a) 1 (str "p:first-child") 64 empty_table with Ok (l, _) => l = [] | UB => False end
    | None => False
    end.
Proof. vm_compute. done. Qed.
(** A list with a pseudo-element styles that of its first selectors only, for both. *)
Example list_cut_at_pseudo : writes "p.b::before, span { color: red }" = Some [(13, "color", "red")]%nat%string.
Proof. vm_compute. done. Qed.

(** ** The order is that of importance, specificity and source *)

Lemma sort_map {A B} (f : A → B) sh l : map f (sort_decls (λ a b, sh (f a) (f b)) l) = sort_decls sh (map f l).
Proof.
  assert (∀ k l, map f (insert_decl (λ a b, sh (f a) (f b)) k l) = insert_decl sh (f k) (map f l)) as Hi.
  { intros k m. induction m as [|x m IH]; [done|]. cbn [insert_decl map]. destruct (sh (f x) (f k)); [|done]. cbn [map]. by rewrite IH. }
  unfold sort_decls. change (@nil B) with (map f []). generalize (@nil A). induction l as [|k l IH]; intros acc; [done|]. cbn [fold_left map]. by rewrite IH, Hi.
Qed.
Definition beats (rs : list CssRule) (x y : nat * CssDecl) : Prop :=
  stronger rs (snd x) (snd y) = true ∨ stronger rs (snd y) (snd x) = false ∧ (fst y < fst x)%nat.
Lemma stronger_true rs D E : stronger rs D E = true ↔
  (dimportant D = true ∧ dimportant E = false) ∨ (dimportant D = dimportant E ∧ decl_spec rs E < decl_spec rs D).
Proof. unfold stronger. rewrite orb_true_iff, !andb_true_iff, negb_true_iff, bool_decide_eq_true, eqb_true_iff. tauto. Qed.
Lemma beats_trans rs : Transitive (beats rs).
Proof.
  intros [i D] [j E] [k F]. unfold beats. cbn [fst snd]. rewrite <- !not_true_iff_false, !stronger_true.
  destruct (dimportant D), (dimportant E), (dimportant F); intuition (try congruence; try lia).
Qed.
Definition ranked (rs : list CssRule) (ds : list CssDecl) : list (nat * CssDecl) := sort_decls (λ x y, stronger rs (snd x) (snd y)) (imap pair ds).
Lemma imap_snd {A} (l : list A) : ∀ i, map snd (imap (λ j x, ((i + j)%nat, x)) l) = l.
Proof. induction l as [|x l IH]; intros i; [done|]. cbn [imap map]. f_equal. rewrite <- (IH (S i)) at 2. f_equal. apply imap_ext. intros j y _. cbn. f_equal. lia. Qed.
Lemma ranked_decls rs ds : map snd (ranked rs ds) = sort_decls (stronger rs) ds.
Proof. unfold ranked. rewrite sort_map. f_equal. apply (imap_snd ds 0). Qed.
Lemma insert_perm {A} sh (k : A) l : insert_decl sh k l ≡ₚ k :: l.
Proof. induction l as [|x l IH]; [done|]. cbn [insert_decl]. destruct (sh x k); [|done]. rewrite IH. apply Permutation_swap. Qed.
Lemma sort_perm {A} sh (l : list A) : sort_decls sh l ≡ₚ l.
Proof.
  unfold sort_decls. assert (∀ acc, fold_left (λ acc key, insert_decl sh key acc) l acc ≡ₚ l ++ acc) as H; [|rewrite H; by rewrite app_nil_r].
  induction l as [|k l IH]; intros acc; [done|]. cbn [fold_left app]. rewrite IH, insert_perm. by rewrite Permutation_middle.
Qed.
Lemma insert_sorted rs k l : StronglySorted (beats rs) l → Forall (λ x, (fst x < fst k)%nat) l →
  StronglySorted (beats rs) (insert_decl (λ x y, stronger rs (snd x) (snd y)) k l).
Proof.
  intros Hs Hl. induction Hs as [|x l Hs IH Hx]; cbn [insert_decl]; [repeat constructor|]. apply Forall_cons in Hl as [Hxk Hl]. destruct (stronger rs (snd x) (snd k)) eqn:E.
  - constructor; [by apply IH|]. rewrite insert_perm. constructor; [by left|done].
  - assert (beats rs k x) as Hk by (by right). constructor; [by constructor|]. constructor; [done|]. eapply Forall_impl; [exact Hx|]. intros y Hy. by eapply beats_trans.
Qed.
Lemma ranked_sorted rs ds : StronglySorted (beats rs) (ranked rs ds) ∧ ranked rs ds ≡ₚ imap pair ds.
Proof.
  split; [|apply sort_perm]. unfold ranked, sort_decls. assert (∀ i acc, StronglySorted (beats rs) acc → Forall (λ x, (fst x < i)%nat) acc →
    StronglySorted (beats rs) (fold_left (λ acc key, insert_decl (λ x y, stronger rs (snd x) (snd y)) key acc) (imap (λ j x, ((i + j)%nat, x)) ds) acc)) as H.
  { induction ds as [|D ds IH]; intros i acc Hs Ha; [done|]. cbn [imap fold_left]. rewrite Nat.add_0_r.
    rewrite (imap_ext _ (λ j x, ((S i + j)%nat, x))) by (intros j x _; cbn; f_equal; lia). apply IH; [by apply insert_sorted|].
    rewrite insert_perm. constructor; [cbn; lia|]. eapply Forall_impl; [exact Ha|]. cbn. lia. }
  apply (H 0%nat []); constructor.
Qed.

(** ** The table of winners *)

Definition absent (w : winners) (key : Z * Z * Z) : Prop := ∀ i, w !! i ≠ Some key.
(** The probe chain is full of others. *)
Definition crowded_out (w : winners) (key : Z * Z * Z) : Prop := ∀ i, (i < 8)%nat → ∃ x, w !! cw_at (slot_of key) i = Some x ∧ x ≠ key.

Lemma look_absent w key h k i : absent w key → cw_look w key h k i = false.
Proof.
  intros Ha. revert i. induction k as [|k IH]; intros i; [done|]. cbn [cw_look]. destruct (w !! cw_at h i) as [x|] eqn:E; [|done]. case_decide; [subst; by apply Ha in E|apply IH].
Qed.
Lemma look_crowded w key h k i : (∀ j, (i <= j < i + k)%nat → ∃ x, w !! cw_at h j = Some x ∧ x ≠ key) → cw_look w key h k i = false.
Proof.
  revert i. induction k as [|k IH]; intros i H; [done|]. cbn [cw_look]. destruct (H i) as (x&->&Hx); [lia|]. rewrite decide_False by done. apply IH. intros j Hj. apply H. lia.
Qed.
Lemma look_grows w w' key h k i : w ⊆ w' → cw_look w key h k i = true → cw_look w' key h k i = true.
Proof.
  intros Hw. revert i. induction k as [|k IH]; intros i; [done|]. cbn [cw_look]. destruct (w !! cw_at h i) as [x|] eqn:E; [|done]. rewrite (lookup_weaken _ _ _ _ E Hw). case_decide; [done|apply IH].
Qed.
Lemma put_grows w key h k i : w ⊆ cw_put w key h k i.
Proof.
  revert i. induction k as [|k IH]; intros i; [done|]. cbn [cw_put]. destruct (w !! cw_at h i) as [x|] eqn:E; [case_decide; [done|apply IH]|]. by apply insert_subseteq.
Qed.
Lemma put_absent w key h k i other : absent w other → other ≠ key → absent (cw_put w key h k i) other.
Proof.
  intros Ha Hk. revert i. induction k as [|k IH]; intros i; [done|]. cbn [cw_put]. destruct (w !! cw_at h i) as [x|] eqn:E; [case_decide; [done|apply IH]|].
  intros j. rewrite lookup_insert_Some. intros [[_ ?]|[_ ?]]; [congruence|by apply (Ha j)].
Qed.
Lemma put_look w key h k i : absent w key → cw_look (cw_put w key h k i) key h k i = true ∨
  cw_put w key h k i = w ∧ ∀ j, (i <= j < i + k)%nat → ∃ x, w !! cw_at h j = Some x ∧ x ≠ key.
Proof.
  intros Ha. revert i. induction k as [|k IH]; intros i; [right; split; [done|lia]|]. cbn [cw_put cw_look]. destruct (w !! cw_at h i) as [x|] eqn:E.
  - assert (x ≠ key) as Hx by (intros ->; by apply Ha in E). rewrite decide_False by done. rewrite (lookup_weaken _ _ _ _ E (put_grows w key h k (S i))). rewrite decide_False by done.
    destruct (IH (S i)) as [H|[H1 H2]]; [by left|right]. split; [done|]. intros j Hj. destruct (decide (j = i)) as [->|]; [by exists x|]. apply H2. lia.
  - left. rewrite lookup_insert_eq. by rewrite decide_True.
Qed.

Lemma put_keys w key h k i j x : cw_put w key h k i !! j = Some x → w !! j = Some x ∨ x = key.
Proof.
  revert i. induction k as [|k IH]; intros i; [by left|]. cbn [cw_put]. destruct (w !! cw_at h i) as [y|]; [case_decide; [by left|apply IH]|].
  rewrite lookup_insert_Some. intros [[_ ?]|[_ ?]]; [by right|by left].
Qed.

(** ** Who wins *)

Definition hit : Type := CssDecl * nat.
Definition hit_write (h : hit) : nat * bytes * bytes := (snd h, dprop (fst h), dval (fst h)).
(** For the node [n] and a property, by its hash. *)
Definition hit_at (n : nat) (ph : Z) (h : hit) : bool := bool_decide (snd h = n) && bool_decide (cw_prop_hash (dprop (fst h)) = ph).
Definition write_at (n : nat) (ph : Z) (w : nat * bytes * bytes) : bool := let '(m, p, _) := w in bool_decide (m = n) && bool_decide (cw_prop_hash p = ph).
Definition writes_of (n : nat) (ph : Z) (l : list (nat * bytes * bytes)) : list (nat * bytes * bytes) := List.filter (write_at n ph) l.

Section winner.
Context (addr : nat → Z) (HI : ∀ n m, addr n = addr m → n = m).

(** [apply_hit] without pseudo-element. *)
Definition offer (a : Apply) (h : hit) : Apply :=
  let key := key_of addr (snd h) (fst h) 0 in
  if cw_seen (cw a) key then a else style (snd h) (dprop (fst h)) (dval (fst h)) (set_cw (cw_mark (cw a) key) a).
Lemma hits_offer D l a : apply_hits addr D 0 l a = Ok (fold_left offer (map (pair D) l) a).
Proof.
  revert a. induction l as [|n l IH]; intros a; [done|]. cbn [apply_hits map fold_left]. assert (apply_hit addr D 0 a n = Ok (offer a (D, n))) as ->; [|cbn [res_bind]; apply IH].
  unfold apply_hit, offer. cbn [fst snd]. by destruct (cw_seen _ _).
Qed.
Lemma offer_doc hs a : adoc (fold_left offer hs a) = adoc a.
Proof. revert a. induction hs as [|h hs IH]; intros a; [done|]. cbn [fold_left]. rewrite IH. unfold offer. by destruct (cw_seen _ _). Qed.
Lemma offer_grows hs a : cw a ⊆ cw (fold_left offer hs a).
Proof.
  revert a. induction hs as [|h hs IH]; intros a; [done|]. cbn [fold_left]. etrans; [|apply IH]. unfold offer. destruct (cw_seen _ _); [done|]. apply put_grows.
Qed.

Section key.
Context (n : nat) (ph : Z).
Definition the_key : Z * Z * Z := (addr n, ph, 0).
Lemma key_hit h : hit_at n ph h = true ↔ key_of addr (snd h) (fst h) 0 = the_key.
Proof using HI. unfold hit_at, key_of, the_key. rewrite andb_true_iff, !bool_decide_eq_true. split; [intros [-> ->]; done|]. by intros [= ->%HI ->]. Qed.
Lemma writes_app l l' : writes_of n ph (l ++ l') = writes_of n ph l ++ writes_of n ph l'.
Proof. apply List.filter_app. Qed.
Lemma offer_other a h : hit_at n ph h = false → writes_of n ph (styles (offer a h)) = writes_of n ph (styles a).
Proof.
  intros Hh. unfold offer. destruct (cw_seen _ _); [done|]. cbn [styles style set_cw]. rewrite writes_app. cbn [writes_of List.filter write_at]. unfold hit_at in Hh. rewrite Hh. by rewrite app_nil_r.
Qed.
(** Once it is in the table nothing more is written. *)
Lemma offer_seen hs a : cw_seen (cw a) the_key = true → writes_of n ph (styles (fold_left offer hs a)) = writes_of n ph (styles a).
Proof using HI.
  revert a. induction hs as [|h hs IH]; intros a Hs; [done|]. cbn [fold_left]. rewrite IH.
  - destruct (hit_at n ph h) eqn:E; [|by apply offer_other]. apply key_hit in E. unfold offer. by rewrite E, Hs.
  - eapply look_grows; [apply (offer_grows [h] a)|done].
Qed.
Lemma crowded_grows w w' : w ⊆ w' → crowded_out w the_key → crowded_out w' the_key.
Proof. intros Hw H i Hi. destruct (H i Hi) as (x&Hx&?). exists x. split; [by eapply lookup_weaken|done]. Qed.
Lemma crowded_unseen w : crowded_out w the_key → cw_seen w the_key = false.
Proof. intros H. apply look_crowded. intros j Hj. apply H. lia. Qed.
(** When its chain is full of others everything is written. *)
Lemma offer_crowded hs a : crowded_out (cw a) the_key →
  writes_of n ph (styles (fold_left offer hs a)) = writes_of n ph (styles a) ++ map hit_write (List.filter (hit_at n ph) hs) ∧ crowded_out (cw (fold_left offer hs a)) the_key.
Proof using HI.
  revert a. induction hs as [|h hs IH]; intros a Hc; [by rewrite app_nil_r|]. cbn [fold_left List.filter]. pose proof (crowded_grows _ _ (offer_grows [h] a) Hc) as Hc'.
  destruct (IH (offer a h) Hc') as [-> ?]. split; [|done]. destruct (hit_at n ph h) eqn:E; [|by rewrite offer_other]. cbn [map]. rewrite cons_middle, app_assoc. f_equal.
  pose proof (proj1 (key_hit h) E) as Ek. unfold offer. rewrite Ek, crowded_unseen by done. cbn [styles style set_cw]. rewrite writes_app. f_equal.
  unfold writes_of. cbn [List.filter write_at]. unfold hit_at in E. by rewrite E.
Qed.
(** What is written for the key: the first candidate, and all of them when
    the chain is full of other keys in the end. *)
Definition settled_by (a a' : Apply) (cands : list hit) : Prop :=
  (¬ crowded_out (cw a') the_key → writes_of n ph (styles a') = writes_of n ph (styles a) ++ map hit_write (take 1 cands))
  ∧ (crowded_out (cw a') the_key → writes_of n ph (styles a') = writes_of n ph (styles a) ++ map hit_write cands).
Lemma offer_absent hs a : absent (cw a) the_key → settled_by a (fold_left offer hs a) (List.filter (hit_at n ph) hs).
Proof using HI.
  revert a. induction hs as [|h hs IH]; intros a Ha; [split; intros _; by rewrite app_nil_r|]. cbn [fold_left List.filter].
  destruct (hit_at n ph h) eqn:E.
  - pose proof (proj1 (key_hit h) E) as Ek. assert (cw_seen (cw a) the_key = false) as Hns by (apply look_absent; exact Ha). assert (writes_of n ph (styles (offer a h)) = writes_of n ph (styles a) ++ [hit_write h]) as Ew.
    { unfold offer. rewrite Ek, Hns. cbn [styles style set_cw]. rewrite writes_app. f_equal. unfold writes_of. cbn [List.filter write_at]. unfold hit_at in E. by rewrite E. }
    assert (cw (offer a h) = cw_mark (cw a) the_key) as Ec. { unfold offer. rewrite Ek, Hns. reflexivity. }
    destruct (put_look (cw a) the_key (slot_of the_key) 8 0 Ha) as [Hs|[Hs Hf]].
    + assert (cw_seen (cw (offer a h)) the_key = true) as Hs' by (rewrite Ec; exact Hs). split.
      * intros _. by rewrite offer_seen, Ew by done.
      * intros Hc%crowded_unseen. assert (cw_seen (cw (fold_left offer hs (offer a h))) the_key = true) as Ht by (eapply look_grows; [apply offer_grows|exact Hs']).
        congruence.
    + assert (crowded_out (cw (offer a h)) the_key) as Hc. { rewrite Ec. unfold cw_mark. rewrite Hs. intros i Hi. apply Hf. lia. }
      destruct (offer_crowded hs _ Hc) as [Ea Hc']. split; [intros Hn; by destruct Hn|]. intros _. rewrite Ea, Ew. by rewrite <- app_assoc.
  - assert (absent (cw (offer a h)) the_key) as Ha'.
    { unfold offer. destruct (cw_seen _ _); [done|]. apply put_absent; [done|]. intros E'. symmetry in E'. apply key_hit in E'. congruence. }
    pose proof (IH _ Ha') as H'. unfold settled_by in *. by rewrite (offer_other a h E) in H'.
Qed.
End key.
(** The table holds keys of what was offered. *)
Lemma offer_keys hs a i x : cw (fold_left offer hs a) !! i = Some x →
  cw a !! i = Some x ∨ ∃ h, h ∈ hs ∧ x = key_of addr (snd h) (fst h) 0.
Proof.
  revert a. induction hs as [|h hs IH]; intros a; [by left|]. cbn [fold_left]. intros Hx. destruct (IH _ Hx) as [H|(h'&Hh&E)]; [|right; exists h'; split; [by right|done]].
  unfold offer in H. destruct (cw_seen _ _); [by left|]. cbn [cw style set_cw] in H. destruct (put_keys _ _ _ _ _ _ _ H) as [?| ->]; [by left|]. right. exists h. split; [left|done].
Qed.

Context (K : Store) (root : nat) (rs : list CssRule).
Notation query D d := (mini_dom_query_selector_all K d root (fst (host_of (sel_of rs D))) QUERY_MAX).
Lemma decls_run ds a s : (∀ D, D ∈ ds → snd (host_of (sel_of rs D)) = 0) → (∀ D s, D ∈ ds → ∃ l s', query D (adoc a) s = Ok (l, s')) →
  ∃ hits s', apply_decls addr K root rs ds a s = Ok (fold_left offer (flat_map (λ '(D, l), map (pair D) l) hits) a, s')
    ∧ map fst hits = List.filter (λ D, negb (is_custom (dprop D))) ds ∧ ∀ D l, (D, l) ∈ hits → ∃ s1 s2, query D (adoc a) s1 = Ok (l, s2).
Proof.
  intros Hp Hq. revert a s Hq. induction ds as [|D ds IH]; intros a s Hq; [exists [], s; split; [done|split; [done|by intros ?? ?%elem_of_nil]]|].
  cbn [apply_decls List.filter]. unfold bind at 1, apply_decl. destruct (is_custom (dprop D)); cbn [negb].
  - apply IH; intros; [apply Hp; by right|apply Hq; by right].
  - pose proof (Hp D (list_elem_of_here _ _)) as H0. destruct (Hq D s (list_elem_of_here _ _)) as (l&s1&El). destruct (host_of (sel_of rs D)) as [sel k] eqn:Eh. cbn [fst snd] in *. subst k.
    unfold bind at 1. rewrite El. unfold lift. rewrite hits_offer.
    destruct (IH (λ D H, Hp D (list_elem_of_further _ _ _ H)) (fold_left offer (map (pair D) l) a) s1) as (hits&s'&E&Ef&Hh); [intros; rewrite offer_doc; apply Hq; by right|].
    exists ((D, l) :: hits), s'. split; [rewrite E; cbn [flat_map]; by rewrite fold_left_app|]. split; [cbn [map fst]; by rewrite Ef|].
    intros D' l' [[= -> ->]|Hin]%elem_of_cons; [exists s, s1; by rewrite Eh|]. rewrite offer_doc in Hh. by apply Hh.
Qed.

(** C5. For a style sheet without pseudo-elements whose queries succeed: the
    cascade takes the declarations by importance, then specificity, then source,
    the strongest first, and asks for the nodes of each.  Of the declarations a
    node was found for, each of its properties gets the strongest one and no
    other, unless the eight slots of its chain in the table of winners are taken
    by other properties some declaration was offered for: then it gets all of
    them, the weakest last. *)
Theorem cascade_winner ds a s : (∀ D, D ∈ ds → snd (host_of (sel_of rs D)) = 0) → (∀ D s, D ∈ ds → ∃ l s', query D (adoc a) s = Ok (l, s')) →
  ∃ a' s' hits, let offered := flat_map (λ '(D, l), map (pair D) l) hits in
    cascade_pass addr K root rs ds a s = Ok (a', s') ∧ adoc a' = adoc a
    ∧ (∀ D l, (D, l) ∈ hits → ∃ s1 s2, query D (adoc a) s1 = Ok (l, s2))
    ∧ StronglySorted (beats rs) (ranked rs ds) ∧ ranked rs ds ≡ₚ imap pair ds
    ∧ map fst hits = List.filter (λ D, negb (is_custom (dprop D))) (map snd (ranked rs ds))
    ∧ (∀ i x, cw a' !! i = Some x → ∃ h, h ∈ offered ∧ x = key_of addr (snd h) (fst h) 0)
    ∧ ∀ n ph, let cands := List.filter (hit_at n ph) offered in
        (¬ crowded_out (cw a') (addr n, ph, 0) → writes_of n ph (styles a') = writes_of n ph (styles a) ++ map hit_write (take 1 cands))
        ∧ (crowded_out (cw a') (addr n, ph, 0) → writes_of n ph (styles a') = writes_of n ph (styles a) ++ map hit_write cands).
Proof using HI.
  intros Hp Hq. destruct (ranked_sorted rs ds) as [Hs Hperm]. pose proof (sort_perm (stronger rs) ds) as Hpm.
  destruct (decls_run (sort_decls (stronger rs) ds) (set_cw ∅ a) s) as (hits&s'&E&Ef&Hh); [intros D HD; apply Hp; by rewrite <- Hpm|intros D s0 HD; apply Hq; by rewrite <- Hpm|].
  eexists _, s', hits. split; [exact E|]. split; [exact (offer_doc _ (set_cw ∅ a))|]. split; [exact Hh|]. split; [done|]. split; [done|]. split; [by rewrite ranked_decls|]. split.
  - intros i x Hx. destruct (offer_keys _ _ _ _ Hx) as [H|?]; [|done]. cbn [cw set_cw] in H. by rewrite lookup_empty in H.
  - intros n ph. apply (offer_absent n ph _ (set_cw ∅ a)). intros i. cbn [cw set_cw]. by rewrite lookup_empty.
Qed.
End winner.

(** A store that keeps nothing, and two rules on the page. *)
Definition plain_store : Store := Sto unit (list (bytes * Z)) (λ s u, let l := parse_complex s in (l, length l, u)) (λ _ l i, default ([], 0) (l !! i)).
Definition demo_rules : list CssRule := [Rule (str "p") 1; Rule (str ".a") 100].
Definition demo_decls : list CssDecl :=
  [Decl 0 true (str "top") (str "1px"); Decl 1 false (str "color") (str "blue"); Decl 1 false (str "top") (str "2px"); Decl 0 false (str "color") (str "red")].
Definition spread (n : nat) : Z := 4096 + 64 * Z.of_nat n.
Lemma cascade_winner_witness : ∃ a' s', cascade_pass spread plain_store 1 demo_rules demo_decls (new_apply page) tt = Ok (a', s') ∧ adoc a' = adoc (new_apply page)
  ∧ writes_of 6 (cw_prop_hash (str "color")) (styles a') = [(6%nat, str "color", str "blue")]
  ∧ writes_of 6 (cw_prop_hash (str "top")) (styles a') = [(6%nat, str "top", str "1px")]
  ∧ writes_of 4 (cw_prop_hash (str "color")) (styles a') = [(4%nat, str "color", str "red")].
Proof.
  assert (∀ D, D ∈ demo_decls → snd (host_of (sel_of demo_rules D)) = 0) as Hp.
  { assert (forallb (λ D, bool_decide (snd (host_of (sel_of demo_rules D)) = 0)) demo_decls = true) as H by (vm_compute; reflexivity).
    rewrite forallb_forall in H. intros D HD. apply (bool_decide_eq_true_1 _), H. by apply list_elem_of_In. }
  assert (∀ D (s : st plain_store), D ∈ demo_decls → ∃ l s', mini_dom_query_selector_all plain_store page 1 (fst (host_of (sel_of demo_rules D))) QUERY_MAX s = Ok (l, s')) as Hq.
  { assert (forallb (λ D, match mini_dom_query_selector_all plain_store page 1 (fst (host_of (sel_of demo_rules D))) QUERY_MAX tt with Ok _ => true | UB => false end) demo_decls = true) as H
      by (vm_compute; reflexivity).
    rewrite forallb_forall in H. intros D [] HD%list_elem_of_In. specialize (H D HD). cbv beta in H. destruct (mini_dom_query_selector_all _ _ _ _ _ _) as [[l s']|]; [by exists l, s'|discriminate H]. }
  destruct (cascade_winner spread ltac:(unfold spread; lia) plain_store 1 demo_rules demo_decls (new_apply page) tt Hp Hq) as (a'&s'&hits&E&Hd&_&_&_&_&_&Hw).
  assert (match cascade_pass spread plain_store 1 demo_rules demo_decls (new_apply page) tt with
    | Ok (a, _) => bool_decide (writes_of 6 (cw_prop_hash (str "color")) (styles a) = [(6%nat, str "color", str "blue")]) && bool_decide (writes_of 6 (cw_prop_hash (str "top")) (styles a) = [(6%nat, str "top", str "1px")])
        && bool_decide (writes_of 4 (cw_prop_hash (str "color")) (styles a) = [(4%nat, str "color", str "red")])
    | UB => false end = true) as Ev by (vm_compute; reflexivity).
  rewrite E in Ev. rewrite !andb_true_iff, !bool_decide_eq_true in Ev. exists a', s'. split; [exact E|]. split; [exact Hd|]. destruct Ev as [[E1 E2] E3]. split; [exact E1|]. split; [exact E2|exact E3].
Defined.
