(* ===== verification/Ipc.v ===== *)
(** * Messages between windows (src/src/mini_ipc.c)

    One queue per process.  A context is the main process (id 0) or a window;
    each has its own JavaScript runtime, in which the shim of the file keeps
    the listeners, the handlers and the promises of [ipcRenderer.invoke].  The
    code of the pages is an argument: a callback is a number, and running it
    gives the calls it makes and how it ends; a callback of the main process may
    run scripts in windows and make new windows.  [loop_turn] is what the run
    loop of src/src/main.c does with the contexts in one frame.  What a page serialises is text;
    the JSON reader and writer are an interface with their laws. *)

From stdpp Require Import list gmap.
From S2P Require Import Prelude CString.
Open Scope Z_scope.

(** JSON of the engine: values, [JSON.parse] ([None] throws), [JSON.stringify]
    and the string values among them. *)
Class Json := {
  jval : Type;
  json_parse : bytes → option jval;
  json_text : jval → bytes;
  jstr : bytes → jval;
  as_str : jval → option bytes }.

Class JsonLaws `(Json) := {
  parse_text v : json_parse (json_text v) = Some v;
  text_nonempty v : json_text v ≠ [];
  as_str_jstr t : as_str (jstr t) = Some t;
  undefined_is_not_json : json_parse (str "undefined") = None }.

(** ** The queue *)

Inductive Kind := IPC_SEND | IPC_INVOKE | IPC_INVOKE_RESP.
#[export] Instance Kind_eq : EqDecision Kind.
Proof. solve_decision. Defined.

(** [channel], [args] and [result] are null where they are [None]. *)
Record IpcMsg := Msg {
  src : Z; dst : Z; kind : Kind; req_id : Z; ok : bool;
  channel : option bytes; args : option bytes; result : option bytes }.
#[export] Instance IpcMsg_eq : EqDecision IpcMsg.
Proof. solve_decision. Defined.

Record MiniIPC := Ipc { q : list IpcMsg; next_req_id : Z }.

Definition mini_ipc_create : MiniIPC := Ipc [] 1.

Definition ipc_push (m : IpcMsg) (i : MiniIPC) : MiniIPC := Ipc (q i ++ [m]) (next_req_id i).

Definition mini_ipc_post_send (s d : Z) (c : bytes) (a : option bytes) (i : MiniIPC) : MiniIPC :=
  ipc_push (Msg s d IPC_SEND 0 false (Some c) a None) i.

(** [__ipcSend], [__ipcInvoke] and [__ipcPostResponse] of the context [me]. *)
Definition js_ipc_send (me d : Z) (c : bytes) (a : option bytes) : MiniIPC → MiniIPC := mini_ipc_post_send me d c a.

Definition js_ipc_invoke (me d : Z) (c : bytes) (a : option bytes) (i : MiniIPC) : Z * MiniIPC :=
  let r := next_req_id i in
  (r, ipc_push (Msg me d IPC_INVOKE r false (Some c) a None) (Ipc (q i) (r + 1))).

Definition js_ipc_post_response (r d : Z) (o : bool) (res : option bytes) (i : MiniIPC) : MiniIPC :=
  ipc_push (Msg 0 d IPC_INVOKE_RESP r o None None res) i.

(** ** The shim of a context *)

Section Shim.
Context `{Json}.

(** A JavaScript value as the shim sees it: [undefined], a value with a JSON
    text, one that [JSON.stringify] gives no text (a function). *)
Inductive Value := VUndefined | VJson (v : jval) | VNoText.

(** How a callback ends: it returns a value or a settled promise, it throws,
    it returns a promise that is settled later. *)
Inductive Outcome := Return (v : Value) | Throw (e : bytes) | Later.

(** What became of the promise of an invocation. *)
Inductive Settled := Resolved (v : Value) | Rejected (e : bytes) | RejectedSyntax.

(** The tables of one context; [seen] lists the senders of the events its
    callbacks were given, [settled] the promises that were settled. *)
Record Ctx := mkCtx {
  is_main : bool;
  listeners : gmap bytes (list Z);
  handlers : gmap bytes Z;
  once : gset Z;
  pending : gset Z;
  seen : list Z;
  settled : list (Z * Settled) }.

Definition new_ctx (m : bool) : Ctx := mkCtx m ∅ ∅ ∅ ∅ [] [].

Definition set_listeners (l : gmap bytes (list Z)) (x : Ctx) : Ctx :=
  mkCtx (is_main x) l (handlers x) (once x) (pending x) (seen x) (settled x).
Definition set_handlers (h : gmap bytes Z) (x : Ctx) : Ctx :=
  mkCtx (is_main x) (listeners x) h (once x) (pending x) (seen x) (settled x).
Definition set_once (o : gset Z) (x : Ctx) : Ctx :=
  mkCtx (is_main x) (listeners x) (handlers x) o (pending x) (seen x) (settled x).
Definition set_pending (p : gset Z) (x : Ctx) : Ctx :=
  mkCtx (is_main x) (listeners x) (handlers x) (once x) p (seen x) (settled x).
Definition saw (s : Z) (x : Ctx) : Ctx :=
  mkCtx (is_main x) (listeners x) (handlers x) (once x) (pending x) (seen x ++ [s]) (settled x).
Definition settle (r : Z) (s : Settled) (x : Ctx) : Ctx :=
  mkCtx (is_main x) (listeners x) (handlers x) (once x) (pending x ∖ {[r]}) (seen x) (settled x ++ [(r, s)]).

(** [cb.__once] is a property of the function: the last registration of the
    function, on whatever channel, decides it. *)
Definition addOn (c : bytes) (cb : Z) (o : bool) (x : Ctx) : Ctx :=
  set_listeners (<[c := default [] (listeners x !! c) ++ [cb]]> (listeners x))
    (set_once (if o then {[cb]} ∪ once x else once x ∖ {[cb]}) x).

Definition rmOn (c : bytes) (cb : Z) (x : Ctx) : Ctx :=
  match listeners x !! c with
  | Some a => set_listeners (<[c := filter (.≠ cb) a]> (listeners x)) x
  | None => x
  end.

(** [removeAllListeners(ch)]: a missing or empty channel means all of them. *)
Definition removeAll (c : option bytes) (x : Ctx) : Ctx :=
  match c with
  | Some (b :: t) => set_listeners (delete (b :: t) (listeners x)) x
  | _ => set_listeners ∅ x
  end.

(** [__ipcSyncMain] of this very context: the handler it would call. *)
Definition sync_main (x : Ctx) (c : bytes) : option Z := handlers x !! c.

(** What [__ipcDispatchInvokeMain] posts for an outcome. *)
Definition answer (o : Outcome) : bool * option bytes :=
  match o with
  | Return VUndefined => (true, Some (str "undefined"))
  | Return (VJson v) => (true, Some (json_text v))
  | Return VNoText => (true, None)
  | Throw e => (false, Some (json_text (jstr e)))
  | Later => (false, None)
  end.

(** What [__ipcResolveInvoke] makes of an answer; an empty text is falsy. *)
Definition read_answer (o : bool) (res : option bytes) : Settled :=
  match res with
  | Some (b :: t) =>
    match json_parse (b :: t) with
    | None => RejectedSyntax
    | Some v => if o then Resolved (VJson v) else Rejected (default (json_text v) (as_str v))
    end
  | _ => if o then Resolved VUndefined else Rejected (str "ipc error")
  end.

Definition resolve_invoke (r : Z) (o : bool) (res : option bytes) (x : Ctx) : Ctx :=
  if decide (r ∈ pending x) then settle r (read_answer o res) x else x.

(** ** The process *)

(** Calls a page can make.  [Reply k] answers the sender of the [k]-th event
    the context was given. *)
Inductive Action :=
| Send (c : bytes) (a : bytes)            (* ipcRenderer.send *)
| Invoke (c : bytes) (a : bytes)          (* ipcRenderer.invoke *)
| SendSync (c : bytes) (a : bytes)        (* ipcRenderer.sendSync *)
| Reply (k : nat) (c : bytes) (a : bytes) (* event.reply, event.sender.send *)
| WcSend (d : Z) (c : bytes) (a : bytes)  (* webContents.send *)
| On (c : bytes) (cb : Z) | Once (c : bytes) (cb : Z)
| Off (c : bytes) (cb : Z) | RemoveAll (c : option bytes)
| Handle (c : bytes) (h : Z) | RemoveHandler (c : bytes).

(** A handler whose answer is still to come: the request, who asked, and the
    outcome when it is known. *)
Record Job := mkJob { j_req : Z; j_src : Z; j_out : option Outcome }.

(** [handled] notes the outcome that was posted for a request; [user] is the
    state of the pages' own code. *)
Record World {U : Type} := mkWorld {
  ipc : MiniIPC;
  ctxs : gmap Z Ctx;
  jobs : list Job;
  next_window : Z;
  handled : gmap (Z * Z) Outcome;
  user : U }.
Arguments World : clear implicits.
Arguments mkWorld {U} _ _ _ _ _ _.

Context {U : Type}.
Implicit Type w : World U.

Definition set_ipc (i : MiniIPC) w : World U := mkWorld i (ctxs w) (jobs w) (next_window w) (handled w) (user w).
Definition set_ctxs (c : gmap Z Ctx) w : World U := mkWorld (ipc w) c (jobs w) (next_window w) (handled w) (user w).
Definition set_jobs (j : list Job) w : World U := mkWorld (ipc w) (ctxs w) j (next_window w) (handled w) (user w).
Definition set_user (u : U) w : World U := mkWorld (ipc w) (ctxs w) (jobs w) (next_window w) (handled w) u.
Definition in_ctx (c : Z) (f : Ctx → Ctx) w : World U := set_ctxs (alter f c (ctxs w)) w.

(** The answer to the request [r] of [s]. *)
Definition respond (r s : Z) (o : Outcome) w : World U :=
  let '(k, t) := answer o in
  mkWorld (js_ipc_post_response r s k t (ipc w)) (ctxs w) (jobs w) (next_window w) (<[(s, r) := o]> (handled w)) (user w).

(** One call of a page of the context [c]; [None] when it throws, because
    the object it is a method of does not exist there. *)
Definition act (c : Z) (a : Action) w : option (World U) :=
  x ← ctxs w !! c;
  let post d ch t := Some (set_ipc (js_ipc_send c d ch (Some t) (ipc w)) w) in
  match a with
  | Send ch t => if is_main x then None else post 0 ch t
  | Invoke ch t =>
    if is_main x then None else
    let '(r, i) := js_ipc_invoke c 0 ch (Some t) (ipc w) in
    Some (in_ctx c (λ x, set_pending ({[r]} ∪ pending x) x) (set_ipc i w))
  | SendSync ch t => if is_main x then None else Some w
  | Reply k ch t => s ← seen x !! k; post s ch t
  | WcSend d ch t =>
    if is_main x then
      if decide (0 < d < next_window w) then Some (set_ipc (mini_ipc_post_send 0 d ch (Some t) (ipc w)) w) else Some w
    else None
  | On ch cb => Some (in_ctx c (addOn ch cb false) w)
  | Once ch cb => Some (in_ctx c (addOn ch cb true) w)
  | Off ch cb => Some (in_ctx c (rmOn ch cb) w)
  | RemoveAll ch => Some (in_ctx c (removeAll ch) w)
  | Handle ch h => if is_main x then Some (in_ctx c (λ x, set_handlers (<[ch := h]> (handlers x)) x) w) else None
  | RemoveHandler ch => if is_main x then Some (in_ctx c (λ x, set_handlers (delete ch (handlers x)) x) w) else None
  end.

(** A run of calls, up to the first that throws. *)
Fixpoint acts (c : Z) (l : list Action) w : World U * bool :=
  match l with
  | [] => (w, false)
  | a :: l => match act c a w with Some w' => acts c l w' | None => (w, true) end
  end.

(** A window is made, or goes away. *)
Definition open_window w : World U :=
  mkWorld (ipc w) (<[next_window w := new_ctx false]> (ctxs w)) (jobs w) (next_window w + 1) (handled w) (user w).
Definition close_window (c : Z) w : World U := set_ctxs (delete c (ctxs w)) w.

(** What a program does: such a call; in the main process also
    [webContents.executeJavaScript] (and [loadURL], [loadFile], [reload]), which
    have a script run in the context of the window [d] before they return, and
    [new BrowserWindow] with the calls of its preload script.  What a script
    throws is printed and not passed on. *)
Inductive Doing :=
| Does (a : Action)
| RunIn (d : Z) (l : list Action)
| NewWindow (l : list Action).
Coercion Does : Action >-> Doing.

Definition perform (c : Z) (o : Doing) w : option (World U) :=
  match o with
  | Does a => act c a w
  | RunIn d l =>
    x ← ctxs w !! c;
    if is_main x then (if decide (0 < d) then Some (acts d l w).1 else Some w) else None
  | NewWindow l =>
    x ← ctxs w !! c;
    if is_main x then Some (acts (next_window w) l (open_window w)).1 else None
  end.

Fixpoint performs (c : Z) (l : list Doing) w : World U * bool :=
  match l with
  | [] => (w, false)
  | o :: l => match perform c o w with Some w' => performs c l w' | None => (w, true) end
  end.

(** The pages' code: context, callback, sender and arguments. *)
Context (code : Z → Z → Z → option bytes → U → U * list Doing * Outcome).

Definition call (c cb s : Z) (a : option bytes) w : World U * Outcome :=
  let '(u, l, o) := code c cb s a (user w) in
  let '(w', threw) := performs c l (set_user u w) in
  (w', if threw then Throw (str "TypeError") else o).

(** [__ipcDispatchSend]: the listeners the channel had when the message came;
    what one throws is printed and passed over. *)
Definition run_listener (c : Z) (ch : bytes) (s : Z) (a : option bytes) (cb : Z) w : World U :=
  let w1 := (call c cb s a w).1 in
  match ctxs w1 !! c with
  | Some x => if decide (cb ∈ once x) then in_ctx c (rmOn ch cb) w1 else w1
  | None => w1
  end.

Definition run_listeners (c : Z) (ch : bytes) (s : Z) (a : option bytes) (l : list Z) w : World U :=
  fold_left (λ w cb, run_listener c ch s a cb w) l w.

Definition dispatch_send (c : Z) (ch : bytes) (s : Z) (a : option bytes) w : World U :=
  match ctxs w !! c with
  | Some x => run_listeners c ch s a (default [] (listeners x !! ch)) (in_ctx c (saw s) w)
  | None => w
  end.

(** [__ipcDispatchInvokeMain]: a missing handler and one that throws are
    answered at once; [await] leaves the rest to a job. *)
Definition dispatch_invoke (ch : bytes) (r s : Z) (a : option bytes) w : World U :=
  match ctxs w !! 0 with
  | Some x =>
    let w1 := in_ctx 0 (saw s) w in
    match handlers x !! ch with
    | None => respond r s (Throw (str "No handler registered for " ++ ch)) w1
    | Some h =>
      let '(w2, o) := call 0 h s a w1 in
      match o with
      | Throw e => respond r s o w2
      | Return _ => set_jobs (jobs w2 ++ [mkJob r s (Some o)]) w2
      | Later => set_jobs (jobs w2 ++ [mkJob r s None]) w2
      end
    end
  | None => w
  end.

(** One message for the context [c]. *)
Definition deliver (c : Z) (m : IpcMsg) w : World U :=
  match kind m with
  | IPC_SEND => dispatch_send c (default [] (channel m)) (src m) (args m) w
  | IPC_INVOKE =>
    if decide (c = 0) then dispatch_invoke (default [] (channel m)) (req_id m) (src m) (args m) w else w
  | IPC_INVOKE_RESP => in_ctx c (resolve_invoke (req_id m) (ok m) (result m)) w
  end.

Definition without (i : nat) (p : MiniIPC) : MiniIPC := Ipc (delete i (q p)) (next_req_id p).

(** The loop of [mini_ipc_dispatch] from index [i], with the messages it
    consumed; [None] when the fuel ends first. *)
Fixpoint dispatch_loop (fuel : nat) (c : Z) (i : nat) w : option (World U * list IpcMsg) :=
  match fuel with
  | O => None
  | S fuel =>
    match q (ipc w) !! i with
    | None => Some (w, [])
    | Some m =>
      if decide (dst m = c) then
        '(w', l) ← dispatch_loop fuel c i (deliver c m (set_ipc (without i (ipc w)) w));
        Some (w', m :: l)
      else dispatch_loop fuel c (S i) w
    end
  end.

Definition mini_ipc_dispatch (fuel : nat) (c : Z) w : option (World U * list IpcMsg) :=
  match ctxs w !! c with
  | Some _ => dispatch_loop fuel c 0 w
  | None => Some (w, [])
  end.

(** The job [k] goes on, with the outcome its promise was settled with. *)
Definition run_job (k : nat) (late : Outcome) w : World U :=
  match jobs w !! k with
  | Some j => respond (j_req j) (j_src j) (default late (j_out j)) (set_jobs (delete k (jobs w)) w)
  | None => w
  end.

(** [mini_bridge_pump] of the context [c], as far as messages are concerned:
    its own code runs (due timers, promises), and in the main context handlers
    go on, in any order. *)
Inductive Jolt := Code (u : U) (l : list Doing) | Goes (k : nat) (late : Outcome).

Definition jolt (c : Z) w (j : Jolt) : World U :=
  match j with
  | Code u l => if ctxs w !! c then (performs c l (set_user u w)).1 else w
  | Goes k Later => w
  | Goes k late => if decide (c = 0) then run_job k late w else w
  end.

Definition pump_ctx (c : Z) (js : list Jolt) w : World U := fold_left (jolt c) js w.

(** The run loop, as far as scripts are concerned: the main context is pumped
    and drained, [second-instance] and finished requests call its listeners,
    and every window is pumped and drained in the order of the list; the rest
    of the frame (animation callbacks, the second pump of the main context,
    input events of the next turn) runs code in any of them. *)
Fixpoint windows_turn (fuel : nat) (ws : list (Z * list Jolt)) w : option (World U) :=
  match ws with
  | [] => Some w
  | (d, js) :: ws => '(w, _) ← mini_ipc_dispatch fuel d (pump_ctx d js w); windows_turn fuel ws w
  end.

Definition pumps (rest : list (Z * list Jolt)) w : World U := fold_left (λ w p, pump_ctx p.1 p.2 w) rest w.

Definition loop_turn (fuel : nat) (main after : list Jolt) (ws rest : list (Z * list Jolt)) w : option (World U) :=
  '(w, _) ← mini_ipc_dispatch fuel 0 (pump_ctx 0 main w);
  w ← windows_turn fuel ws (pump_ctx 0 after w);
  Some (pumps rest w).

Definition mini_ipc_start (u : U) : World U :=
  mkWorld mini_ipc_create {[0 := new_ctx true]} [] 1 ∅ u.

(** The process: a context is pumped (its timers and promises make calls),
    drained, a job of the main context goes on, a window opens or closes. *)
Inductive step : World U → World U → Prop :=
| step_pump c l u w : ctxs w !! c ≠ None → step w (performs c l (set_user u w)).1
| step_dispatch fuel c w w' l : mini_ipc_dispatch fuel c w = Some (w', l) → step w w'
| step_job k late w : late ≠ Later → step w (run_job k late w)
| step_open w : step w (open_window w)
| step_close c w : c ≠ 0 → step w (close_window c w).

Inductive reachable : World U → Prop :=
| reach_start u : reachable (mini_ipc_start u)
| reach_step w w' : reachable w → step w w' → reachable w'.
End Shim.
Arguments World {_} _.
Arguments mkWorld {_ U} _ _ _ _ _ _.

(** ** Invariant of the process *)

Section Proofs.
Context `{Json} {U : Type}.
Implicit Type w : World U.

(** What stands for the answer to a request: who asked, and its number. *)
Definition ticket (m : IpcMsg) : list (Z * Z) :=
  match kind m with
  | IPC_SEND => []
  | IPC_INVOKE => [(src m, req_id m)]
  | IPC_INVOKE_RESP => [(dst m, req_id m)]
  end.
Definition job_ticket (j : Job) : Z * Z := (j_src j, j_req j).
Definition tickets w : list (Z * Z) := (q (ipc w) ≫= ticket) ++ map job_ticket (jobs w).

(** Messages go between the main process and a window. *)
Definition star (n : Z) (m : IpcMsg) : Prop :=
  match kind m with
  | IPC_SEND => (dst m = 0 ∧ 0 < src m < n) ∨ (src m = 0 ∧ 0 < dst m < n)
  | IPC_INVOKE => dst m = 0 ∧ 0 < src m < n
  | IPC_INVOKE_RESP => src m = 0 ∧ 0 < dst m < n
  end.

Definition ctx_ok (n k : Z) (h : gmap (Z * Z) Outcome) (c : Z) (x : Ctx) : Prop :=
  0 <= c < n
  ∧ is_main x = bool_decide (c = 0)
  ∧ Forall (λ s, if decide (c = 0) then 0 < s < n else s = 0) (seen x)
  ∧ (c ≠ 0 → handlers x = ∅)
  ∧ NoDup (map fst (settled x))
  ∧ Forall (λ '(r, s), r < k ∧ r ∉ pending x ∧
      ∃ o, h !! (c, r) = Some o ∧ s = read_answer (answer o).1 (answer o).2) (settled x).

Definition resp_ok (h : gmap (Z * Z) Outcome) (m : IpcMsg) : Prop :=
  kind m = IPC_INVOKE_RESP → ∃ o, h !! (dst m, req_id m) = Some o ∧ answer o = (ok m, result m).

(** The invariant, while the tickets [F] are in hand. *)
Record Inv (F : list (Z * Z)) w : Prop := {
  i_nodup : NoDup (F ++ tickets w);
  i_old : ∀ c r, (c, r) ∈ F ++ tickets w → 0 < c < next_window w ∧ r < next_req_id (ipc w);
  i_pend : ∀ c x, ctxs w !! c = Some x → ∀ r, r ∈ pending x ↔ (c, r) ∈ F ++ tickets w;
  i_star : Forall (star (next_window w)) (q (ipc w));
  i_resp : Forall (resp_ok (handled w)) (q (ipc w));
  i_ctx : ∀ c x, ctxs w !! c = Some x → ctx_ok (next_window w) (next_req_id (ipc w)) (handled w) c x;
  i_main : ctxs w !! 0 ≠ None;
  i_win : 0 < next_window w }.

Lemma inv_user F u w : Inv F w → Inv F (set_user u w).
Proof. intros []. by constructor. Qed.

Lemma inv_perm F F' w : F ≡ₚ F' → Inv F w → Inv F' w.
Proof.
  intros P []. constructor; try done; try (by rewrite <- P).
  - intros c r. rewrite <- P. auto.
  - intros c x Hx r. rewrite <- P. by apply i_pend0.
Qed.

(** A change of one context that leaves its promises alone. *)
Lemma inv_in_ctx F c f w : Inv F w →
  (∀ x, ctxs w !! c = Some x → ctx_ok (next_window w) (next_req_id (ipc w)) (handled w) c x →
    ctx_ok (next_window w) (next_req_id (ipc w)) (handled w) c (f x) ∧ pending (f x) = pending x) →
  Inv F (in_ctx c f w).
Proof.
  intros I Hf. pose proof I as []. constructor; cbn [in_ctx set_ctxs ctxs ipc jobs next_window handled]; try done.
  - intros d y Hy r. destruct (decide (d = c)) as [->|n].
    + rewrite lookup_alter_eq in Hy. destruct (ctxs w !! c) as [x|] eqn:E; [|done]. injection Hy as <-.
      destruct (Hf x eq_refl (i_ctx0 _ _ E)) as [_ ->]. by apply i_pend0.
    + rewrite lookup_alter_ne in Hy by done. by apply i_pend0.
  - intros d y Hy. destruct (decide (d = c)) as [->|n].
    + rewrite lookup_alter_eq in Hy. destruct (ctxs w !! c) as [x|] eqn:E; [|done]. injection Hy as <-.
      apply (Hf x eq_refl (i_ctx0 _ _ E)).
    + rewrite lookup_alter_ne in Hy by done. by apply i_ctx0.
  - destruct (decide (c = 0)) as [->|n]; [rewrite lookup_alter_eq; by destruct (ctxs w !! 0)|].
    by rewrite lookup_alter_ne.
Qed.

Lemma tickets_push m w : tickets (set_ipc (ipc_push m (ipc w)) w) ≡ₚ ticket m ++ tickets w.
Proof.
  unfold tickets. cbn. rewrite bind_app. cbn. rewrite app_nil_r, <- app_assoc.
  by rewrite (Permutation_app_comm (q (ipc w) ≫= ticket)), <- app_assoc, (Permutation_app_comm (map _ _)).
Qed.

(** A message that carries no ticket. *)
Lemma inv_send F s d ch a w : Inv F w →
  (d = 0 ∧ 0 < s < next_window w) ∨ (s = 0 ∧ 0 < d < next_window w) →
  Inv F (set_ipc (mini_ipc_post_send s d ch a (ipc w)) w).
Proof.
  intros I Hs. unfold mini_ipc_post_send. set (m := Msg s d IPC_SEND 0 false (Some ch) a None).
  assert (tickets (set_ipc (ipc_push m (ipc w)) w) ≡ₚ tickets w) as P by apply tickets_push.
  destruct I. constructor; cbn [set_ipc ipc ipc_push q next_req_id ctxs next_window handled]; try done.
  - by rewrite P.
  - intros c r. rewrite P. auto.
  - intros c x Hx r. rewrite P. by apply i_pend0.
  - apply Forall_app. split; [done|]. apply Forall_singleton. exact Hs.
  - apply Forall_app. split; [done|]. by apply Forall_singleton.
Qed.

Lemma ctx_ok_weaken n k k' h c x : k <= k' → ctx_ok n k h c x → ctx_ok n k' h c x.
Proof.
  intros Hk ([H1a H1b]&H2&H3&H4&H5&H6). split_and!; try done. eapply Forall_impl; [exact H6|].
  intros [r s] (?&?&?). split_and!; [lia|done|done].
Qed.

Lemma inv_invoke F c ch a w x : Inv F w → ctxs w !! c = Some x → c ≠ 0 →
  let '(r, i) := js_ipc_invoke c 0 ch a (ipc w) in
  Inv F (in_ctx c (λ x, set_pending ({[r]} ∪ pending x) x) (set_ipc i w)).
Proof.
  intros I Hx Hc. cbn. set (m := Msg c 0 IPC_INVOKE (next_req_id (ipc w)) false (Some ch) a None).
  set (w' := in_ctx _ _ _).
  assert (tickets w' ≡ₚ (c, next_req_id (ipc w)) :: tickets w) as P by exact (tickets_push m w).
  assert (F ++ tickets w' ≡ₚ (c, next_req_id (ipc w)) :: (F ++ tickets w)) as P' by (rewrite P; by rewrite Permutation_middle).
  assert (∀ d, (d, next_req_id (ipc w)) ∉ F ++ tickets w) as Hfresh.
  { intros d Hd. pose proof (i_old _ _ I _ _ Hd). lia. }
  pose proof (i_ctx _ _ I _ _ Hx) as (Hcr&_).
  pose proof I as [].
  constructor; unfold w'; cbn [in_ctx set_ctxs set_ipc ipc ipc_push q next_req_id ctxs next_window handled]; fold w'; try done.
  - rewrite P'. by constructor.
  - intros d r. rewrite P'. intros [[= -> ->]|Hd]%elem_of_cons; [split; [lia|lia]|].
    destruct (i_old0 _ _ Hd). split; [done|lia].
  - intros d y Hy r. rewrite P', elem_of_cons. destruct (decide (d = c)) as [->|n].
    + rewrite lookup_alter_eq, Hx in Hy. injection Hy as <-. cbn. rewrite elem_of_union, elem_of_singleton, (i_pend0 _ _ Hx).
      split; (intros [?|?]; [left; congruence|by right]).
    + rewrite lookup_alter_ne in Hy by done. rewrite (i_pend0 _ _ Hy). split; [by right|intros [[= ??]|?]; [done|done]].
  - apply Forall_app. split; [done|]. apply Forall_singleton. split; [done|cbn; lia].
  - apply Forall_app. split; [done|]. by apply Forall_singleton.
  - intros d y Hy. destruct (decide (d = c)) as [->|n].
    + rewrite lookup_alter_eq, Hx in Hy. injection Hy as <-.
      destruct (i_ctx0 _ _ Hx) as ([H1a H1b]&H2&H3&H4&H5&H6). split_and!; try done. cbn.
      eapply Forall_impl; [exact H6|]. intros [r s] (Hr&Hp&Ho). split_and!; [lia| |done]. cbn. intros [->%elem_of_singleton|?]%elem_of_union; [lia|done].
    + rewrite lookup_alter_ne in Hy by done. eapply ctx_ok_weaken; [|by apply i_ctx0]. lia.
  - destruct (decide (c = 0)) as [->|n]; [done|]. by rewrite lookup_alter_ne.
Qed.

(** The answer to a request in hand. *)
Lemma inv_respond F s r o w : Inv ((s, r) :: F) w → Inv F (respond r s o w).
Proof.
  intros I. unfold respond. destruct (answer o) as [k t] eqn:Ea. set (m := Msg 0 s IPC_INVOKE_RESP r k None None t).
  set (w' := mkWorld _ _ _ _ _ _).
  assert (F ++ tickets w' ≡ₚ ((s, r) :: F) ++ tickets w) as P.
  { assert (tickets w' ≡ₚ (s, r) :: tickets w) as -> by exact (tickets_push m w). cbn. symmetry. apply Permutation_middle. }
  assert (0 < s < next_window w ∧ r < next_req_id (ipc w)) as [Hs Hr] by (apply (i_old _ _ I); left).
  assert ((s, r) ∉ F ++ tickets w) as Hn.
  { pose proof (i_nodup _ _ I) as N. cbn in N. by apply NoDup_cons in N as [? _]. }
  pose proof I as []. constructor; unfold w'; cbn [ipc js_ipc_post_response ipc_push q next_req_id ctxs next_window handled]; fold w'; try done.
  - by rewrite P.
  - intros c x. rewrite P. auto.
  - intros c x Hx y. rewrite P. by apply i_pend0.
  - apply Forall_app. split; [done|]. apply Forall_singleton. done.
  - apply Forall_app. split.
    + apply Forall_forall. intros m' Hm' K. rewrite Forall_forall in i_resp0. rewrite lookup_insert_ne; [by apply i_resp0|].
      intros [= E1 E2]. apply Hn, elem_of_app. right. apply elem_of_app. left. apply list_elem_of_bind.
      exists m'. split; [|done]. unfold ticket. rewrite K. rewrite E1, E2. left.
    + apply Forall_singleton. intros _. exists o. cbn. by rewrite lookup_insert_eq.
  - intros c x Hx. destruct (i_ctx0 _ _ Hx) as ([H1 H1']&H2&H3&H4&H5&H6). split_and!; try done.
    rewrite Forall_forall in H6 |- *. intros [y z] Hy. destruct (H6 _ Hy) as (Hk&Hp&o'&Ho). split_and!; [done|done|].
    exists o'. rewrite lookup_insert_ne; [done|]. intros [= -> ->]. apply Hp, (i_pend0 _ _ Hx). left.
Qed.

Lemma inv_job F s r o w : Inv ((s, r) :: F) w → Inv F (set_jobs (jobs w ++ [mkJob r s o]) w).
Proof.
  intros I. set (w' := set_jobs _ _).
  assert (F ++ tickets w' ≡ₚ ((s, r) :: F) ++ tickets w) as P.
  { unfold tickets. cbn. rewrite map_app. cbn. unfold job_ticket at 2. cbn.
    by rewrite !app_assoc, <- Permutation_cons_append. }
  destruct I. constructor; unfold w'; cbn [set_jobs ipc ctxs next_window handled]; fold w'; try done.
  - by rewrite P.
  - intros c y. rewrite P. auto.
  - intros c x Hx y. rewrite P. by apply i_pend0.
Qed.

(** A message taken from the queue, a job taken from the list. *)
Lemma inv_take F i m w : Inv F w → q (ipc w) !! i = Some m → Inv (ticket m ++ F) (set_ipc (without i (ipc w)) w).
Proof.
  intros I Hm. set (w' := set_ipc _ _). pose proof (delete_Permutation _ _ _ Hm) as Pq.
  assert ((ticket m ++ F) ++ tickets w' ≡ₚ F ++ tickets w) as P.
  { unfold tickets. cbn. rewrite Pq at 2. cbn. rewrite !app_assoc. by rewrite (Permutation_app_comm F (ticket m)). }
  destruct I. constructor; unfold w'; cbn [set_ipc without q next_req_id ipc ctxs next_window handled]; fold w'; try done.
  - by rewrite P.
  - intros c y. rewrite P. auto.
  - intros c x Hx y. rewrite P. by apply i_pend0.
  - rewrite Pq in i_star0. by inversion i_star0.
  - rewrite Pq in i_resp0. by inversion i_resp0.
Qed.

Lemma inv_take_job F k j w : Inv F w → jobs w !! k = Some j → Inv (job_ticket j :: F) (set_jobs (delete k (jobs w)) w).
Proof.
  intros I Hj. set (w' := set_jobs _ _). pose proof (delete_Permutation _ _ _ Hj) as Pq.
  assert ((job_ticket j :: F) ++ tickets w' ≡ₚ F ++ tickets w) as P.
  { unfold tickets. cbn. rewrite Pq at 2. cbn. by rewrite !app_assoc, <- Permutation_middle. }
  destruct I. constructor; unfold w'; cbn [set_jobs ipc ctxs next_window handled]; fold w'; try done.
  - by rewrite P.
  - intros c y. rewrite P. auto.
  - intros c x Hx y. rewrite P. by apply i_pend0.
Qed.

(** The promise of a request in hand is settled. *)
Lemma inv_settle F c r o w : Inv ((c, r) :: F) w → handled w !! (c, r) = Some o →
  Inv F (in_ctx c (resolve_invoke r (answer o).1 (answer o).2) w).
Proof.
  intros I Ho. set (w' := in_ctx _ _ _). pose proof (i_nodup _ _ I) as N. cbn in N. apply NoDup_cons in N as [Hn N].
  assert (0 < c < next_window w ∧ r < next_req_id (ipc w)) as [Hc Hr] by (apply (i_old _ _ I); left).
  assert (tickets w' = tickets w) as P by done.
  pose proof I as []. constructor; unfold w'; cbn [in_ctx set_ctxs ipc ctxs next_window handled]; fold w'; rewrite ?P; try done.
  - intros d y Hd. apply i_old0. by right.
  - intros d x Hx y. destruct (decide (d = c)) as [->|n].
    + rewrite lookup_alter_eq in Hx. destruct (ctxs w !! c) as [x0|] eqn:E; [|done]. injection Hx as <-.
      unfold resolve_invoke. pose proof (i_pend0 _ _ E) as Hp. rewrite decide_True by (apply Hp; left). cbn.
      rewrite elem_of_difference, elem_of_singleton, Hp. cbn. rewrite elem_of_cons. split.
      * by intros [[[= ->]|?] ?].
      * intros H'. split; [by right|]. by intros ->.
    + rewrite lookup_alter_ne in Hx by done. rewrite (i_pend0 _ _ Hx). cbn. rewrite elem_of_cons.
      split; [by intros [[= ??]|?]|by right].
  - intros d x Hx. destruct (decide (d = c)) as [->|n]; [|by rewrite lookup_alter_ne in Hx by done; apply i_ctx0].
    rewrite lookup_alter_eq in Hx. destruct (ctxs w !! c) as [x0|] eqn:E; [|done]. injection Hx as <-.
    destruct (i_ctx0 _ _ E) as ([H1 H1']&H2&H3&H4&H5&H6). unfold resolve_invoke.
    assert (r ∈ pending x0) as Hr' by (apply (i_pend0 _ _ E); left). rewrite decide_True by done.
    split_and!; try done; cbn.
    + rewrite map_app. apply NoDup_app. split_and!; [done| |apply NoDup_singleton].
      intros y Hy ->%list_elem_of_singleton. apply list_elem_of_fmap in Hy as ([? ?]&E'&Hy). cbn in E'. subst.
      rewrite Forall_forall in H6. destruct (H6 _ Hy) as (_&?&_). done.
    + apply Forall_app. split.
      * eapply Forall_impl; [exact H6|]. intros [y z] (?&?&?). split_and!; [done| |done]. set_solver.
      * apply Forall_singleton. split_and!; [done|set_solver|by exists o].
  - destruct (decide (c = 0)) as [->|n]; [lia|]. by rewrite lookup_alter_ne.
Qed.

(** *** What the calls leave alone *)

(** Later states: the queue grew by messages [P] holds of, jobs were added
    for the tickets [G] only, promises were made and none forgotten. *)
Definition later (G : list (Z * Z)) (P : IpcMsg → Prop) w w' : Prop :=
  (∃ news, q (ipc w') = q (ipc w) ++ news ∧ Forall P news
     ∧ Forall (λ m, kind m = IPC_INVOKE → next_req_id (ipc w) <= req_id m) news)
  ∧ next_req_id (ipc w) <= next_req_id (ipc w')
  ∧ (∀ d x, ctxs w !! d = Some x → ∃ x', ctxs w' !! d = Some x' ∧ settled x ⊆ settled x'
         ∧ ∀ r, r ∈ pending x → r ∈ pending x' ∨ r ∈ map fst (settled x'))
  ∧ (∀ j, j ∈ jobs w' → j ∈ jobs w ∨ job_ticket j ∈ G).

#[export] Instance later_refl G P : Reflexive (later G P).
Proof.
  intros w. split_and!; [exists []; by rewrite app_nil_r|lia| |by left].
  intros d x Hx. exists x; split_and!; [done|done|by left].
Qed.

#[export] Instance later_trans G P : Transitive (later G P).
Proof.
  intros w w1 w2 ((n1&E1&A1&B1)&K1&C1&J1) ((n2&E2&A2&B2)&K2&C2&J2). split_and!.
  - exists (n1 ++ n2). split_and!; [by rewrite E2, E1, app_assoc|by apply Forall_app|]. apply Forall_app. split; [done|].
    eapply Forall_impl; [exact B2|]. cbn. intros m Hm K. specialize (Hm K). lia.
  - lia.
  - intros d x Hx. destruct (C1 d x Hx) as (x1&Hx1&S1&P1). destruct (C2 d x1 Hx1) as (x2&Hx2&S2&P2).
    exists x2. split_and!; [done|set_solver|].
    intros r Hr. destruct (P1 _ Hr) as [Hr'|Hr']; [auto|right].
    apply list_elem_of_fmap in Hr' as (y&->&Hy). apply list_elem_of_fmap. exists y. split; [done|]. by apply S2.
  - intros j Hj. destruct (J2 _ Hj) as [Hj1|?]; [|by right]. by apply J1.
Qed.

Lemma later_weaken G G' (P P' : IpcMsg → Prop) w w' : G ⊆ G' → (∀ m, P m → P' m) → later G P w w' → later G' P' w w'.
Proof.
  intros HG HP ((n&E&A&B)&K&C&J). split_and!; [|done|done|].
  - exists n. split_and!; [done|exact (Forall_impl _ _ _ A HP)|done].
  - intros j Hj. destruct (J _ Hj); [by left|right; by apply HG].
Qed.

Lemma later_in_ctx G P d f w :
  (∀ x, ctxs w !! d = Some x → settled x ⊆ settled (f x)
    ∧ ∀ r, r ∈ pending x → r ∈ pending (f x) ∨ r ∈ map fst (settled (f x))) → later G P w (in_ctx d f w).
Proof.
  intros Hf. split_and!; [exists []; by rewrite app_nil_r|done| |by left]. cbn. intros e x Hx. destruct (decide (e = d)) as [->|n].
  - rewrite lookup_alter_eq, Hx. exists (f x). by destruct (Hf x Hx).
  - rewrite lookup_alter_ne by done. exists x; split_and!; [done|done|by left].
Qed.

Lemma later_push G (P : IpcMsg → Prop) m w : P m → (kind m = IPC_INVOKE → next_req_id (ipc w) <= req_id m) →
  later G P w (set_ipc (ipc_push m (ipc w)) w).
Proof.
  intros Hd Hk. split_and!; [|done| |by left].
  - exists [m]. split_and!; [done|by apply Forall_singleton|by apply Forall_singleton].
  - intros d x Hx. exists x; split_and!; [done|done|by left].
Qed.

(** *** Every operation keeps the invariant *)

Lemma edit_ok F G P c f w : Inv F w →
  (∀ x, is_main (f x) = is_main x ∧ pending (f x) = pending x ∧ seen (f x) = seen x ∧ settled (f x) = settled x
     ∧ (c ≠ 0 → handlers x = ∅ → handlers (f x) = ∅)) →
  Inv F (in_ctx c f w) ∧ later G P w (in_ctx c f w).
Proof.
  intros I Hf. split.
  - apply inv_in_ctx; [done|]. intros x Hx ([H1 H1']&H2&H3&H4&H5&H6). destruct (Hf x) as (E1&E2&E3&E4&E5).
    unfold ctx_ok. rewrite E1, E2, E3, E4. split; [|done]. split_and!; auto.
  - apply later_in_ctx. intros x Hx. destruct (Hf x) as (E1&E2&E3&E4&E5). rewrite E2, E4. split; [done|by left].
Qed.

(** Calls by which a window posts nothing to the main process. *)
Definition silent (a : Action) : bool :=
  match a with Send _ _ | Invoke _ _ | Reply _ _ _ => false | _ => true end.

(** Who the messages posted in [c] are not for; a silent window posts none. *)
Definition elsewhere (c : Z) (quiet : Prop) (m : IpcMsg) : Prop := dst m ≠ c ∧ (c ≠ 0 → ¬ quiet).

Lemma act_ok F c a w w' : Inv F w → act c a w = Some w' → Inv F w' ∧ later [] (elsewhere c (silent a)) w w'.
Proof.
  intros I. unfold act. destruct (ctxs w !! c) as [x|] eqn:Ex; [|done]. cbn [mbind option_bind].
  destruct (i_ctx _ _ I _ _ Ex) as (Hc&Hm&Hs&Hh&_).
  assert (is_main x = false → 0 < c < next_window w) as Hr.
  { rewrite Hm. intros ?%bool_decide_eq_false. lia. }
  assert (is_main x = true → c = 0) as H0 by (rewrite Hm; by intros ?%bool_decide_eq_true).
  destruct a as [ch t|ch t|ch t|k ch t|d ch t|ch cb|ch cb|ch cb|ch|ch h|ch]; cbn [silent].
  - destruct (is_main x); [done|]. intros [= <-]. specialize (Hr eq_refl). split; [apply inv_send; [done|by left]|].
    apply later_push; [split; [cbn; lia|cbn; tauto]|done].
  - destruct (is_main x); [done|]. specialize (Hr eq_refl).
    pose proof (inv_invoke F c ch (Some t) w x I Ex ltac:(lia)) as HI. cbn in HI. intros [= <-]. split; [done|].
    set (m := Msg _ _ _ _ _ _ _ _). etrans; [|apply later_in_ctx].
    + split_and!; cbn; [|lia| |by left].
      * exists [m]. split_and!; [done| |]; apply Forall_singleton; [split; [cbn; lia|cbn; tauto]|done].
      * intros d y Hy. exists y; split_and!; [done|done|by left].
    + intros y Hy. cbn. split; [done|]. intros r ?. left. set_solver.
  - destruct (is_main x); [done|]. by intros [= <-].
  - destruct (seen x !! k) as [s|] eqn:Ek; [|done]. cbn. intros [= <-].
    rewrite Forall_lookup in Hs. specialize (Hs _ _ Ek). destruct (decide (c = 0)) as [->|n].
    + split; [apply inv_send; [done|by right]|]. apply later_push; [split; [cbn; lia|cbn; tauto]|done].
    + subst s. split; [apply inv_send; [done|left; lia]|]. apply later_push; [split; [cbn; lia|cbn; tauto]|done].
  - destruct (is_main x); [|done]. pose proof (H0 eq_refl) as ->. destruct (decide (0 < d < next_window w)); intros E; injection E as <-; [|done].
    split; [apply inv_send; [done|by right]|]. apply later_push; [split; [cbn; lia|cbn; tauto]|done].
  - intros [= <-]. by apply edit_ok.
  - intros [= <-]. by apply edit_ok.
  - intros [= <-]. apply edit_ok; [done|]. intros y. unfold rmOn. by destruct (listeners y !! ch).
  - intros [= <-]. apply edit_ok; [done|]. intros y. unfold removeAll. by destruct ch as [[|??]|].
  - destruct (is_main x); [|done]. pose proof (H0 eq_refl) as ->. intros [= <-]. by apply edit_ok.
  - destruct (is_main x); [|done]. pose proof (H0 eq_refl) as ->. intros [= <-]. by apply edit_ok.
Qed.

Lemma acts_ok F c l w : Inv F w → Inv F (acts c l w).1 ∧ later [] (elsewhere c (Forall silent l)) w (acts c l w).1.
Proof.
  revert w. induction l as [|a l IH]; intros w I; cbn [acts]; [by split|].
  destruct (act c a w) as [w1|] eqn:E; [|by split]. destruct (act_ok _ _ _ _ _ I E) as [I1 L1].
  destruct (IH _ I1) as [I2 L2]. split; [done|].
  etrans; [eapply later_weaken; [done| |exact L1]|eapply later_weaken; [done| |exact L2]]; intros m [Hd Hq]; (split; [done|]);
    intros Hc Hf; apply Hq; [done| |done|]; inversion Hf; subst; done.
Qed.

Lemma later_user G P u w : later G P w (set_user u w).
Proof. exact (later_refl G P w). Qed.

Lemma ctx_ok_grow n n' k h c x : n <= n' → ctx_ok n k h c x → ctx_ok n' k h c x.
Proof.
  intros Hn ([H1 H1']&H2&H3&H4&H5&H6). split_and!; try done; [lia|]. eapply Forall_impl; [exact H3|].
  intros s. cbn. case_decide; lia.
Qed.

Lemma open_ok F G P w : Inv F w → Inv F (open_window w) ∧ later G P w (open_window w).
Proof.
  intros []. assert (ctxs w !! next_window w = None) as Hn.
  { destruct (ctxs w !! next_window w) as [x|] eqn:E; [|done]. destruct (i_ctx0 _ _ E). lia. }
  split.
  - constructor; cbn [open_window ipc ctxs next_window handled]; try done.
    + intros c r Hc. destruct (i_old0 _ _ Hc). lia.
    + intros c x. destruct (decide (c = next_window w)) as [->|n].
      * rewrite lookup_insert_eq. intros [= <-] r. split; [set_solver|]. intros Hc. destruct (i_old0 _ _ Hc). lia.
      * rewrite lookup_insert_ne by done. apply i_pend0.
    + eapply Forall_impl; [exact i_star0|]. intros m. unfold star. destruct (kind m); lia.
    + intros c x. destruct (decide (c = next_window w)) as [->|n].
      * rewrite lookup_insert_eq. intros [= <-]. split_and!; try done; try lia.
        { by rewrite bool_decide_eq_false_2 by lia. }
        constructor.
      * rewrite lookup_insert_ne by done. intros Hx. eapply ctx_ok_grow; [|by apply i_ctx0]. lia.
    + rewrite lookup_insert_ne by lia. done.
    + lia.
  - split_and!; [exists []; by rewrite app_nil_r|done| |by left].
    intros d x Hx. exists x. cbn. split_and!; [|done|by left]. rewrite lookup_insert_ne; [done|]. intros E. rewrite E in Hn. congruence.
Qed.

(** No script that is run posts a message to the main process. *)
Definition inward (o : Doing) : Prop :=
  match o with Does _ => True | RunIn _ l | NewWindow l => Forall silent l end.

Definition away_from (c : Z) (quiet : Prop) (m : IpcMsg) : Prop := c ≠ 0 ∨ quiet → dst m ≠ c.

Lemma perform_ok F c o w w' : Inv F w → perform c o w = Some w' → Inv F w' ∧ later [] (away_from c (inward o)) w w'.
Proof.
  intros I. destruct o as [a|d l|l]; cbn [perform inward].
  - intros E. destruct (act_ok _ _ _ _ _ I E) as [I1 L1]. split; [done|]. eapply later_weaken; [done| |exact L1]. by intros m [? _] _.
  - destruct (ctxs w !! c) as [x|] eqn:Ex; [|done]. cbn [mbind option_bind]. destruct (i_ctx _ _ I _ _ Ex) as (Hc&Hm&_).
    destruct (is_main x); [|done]. symmetry in Hm. apply bool_decide_eq_true in Hm as ->. case_decide; intros E; injection E as <-; [|done].
    destruct (acts_ok F d l w I) as [I1 L1]. split; [done|]. eapply later_weaken; [done| |exact L1].
    intros m [_ Hq] [?|Hl]; [done|]. exfalso. apply Hq; [lia|done].
  - destruct (ctxs w !! c) as [x|] eqn:Ex; [|done]. cbn [mbind option_bind]. destruct (i_ctx _ _ I _ _ Ex) as (Hc&Hm&_).
    destruct (is_main x); [|done]. symmetry in Hm. apply bool_decide_eq_true in Hm as ->. intros E; injection E as <-.
    destruct (open_ok F [] (away_from 0 (Forall silent l)) w I) as [I0 L0]. pose proof (i_win _ _ I).
    destruct (acts_ok F (next_window w) l _ I0) as [I1 L1]. split; [done|]. etrans; [exact L0|]. eapply later_weaken; [done| |exact L1].
    intros m [_ Hq] [?|Hl]; [done|]. exfalso. apply Hq; [lia|done].
Qed.

Lemma performs_ok F c l w : Inv F w → Inv F (performs c l w).1 ∧ later [] (away_from c (Forall inward l)) w (performs c l w).1.
Proof.
  revert w. induction l as [|o l IH]; intros w I; cbn [performs]; [by split|].
  destruct (perform c o w) as [w1|] eqn:E; [|by split]. destruct (perform_ok _ _ _ _ _ I E) as [I1 L1].
  destruct (IH _ I1) as [I2 L2]. split; [done|].
  etrans; [eapply later_weaken; [done| |exact L1]|eapply later_weaken; [done| |exact L2]]; intros m Hm [Hc|Hf];
    apply Hm; [by left|right|by left|right]; by inversion Hf.
Qed.
End Proofs.

Section Running.
Context `{Json} {U : Type} (code : Z → Z → Z → option bytes → U → U * list Doing * Outcome).
Implicit Type w : World U.

(** The callbacks of the main process run no script that posts to it. *)
Definition main_inward : Prop := ∀ cb s a u, Forall inward (code 0 cb s a u).1.2.

(** The messages a callback of [c] posts. *)
Abbreviation posted c := (away_from c main_inward).

Lemma call_ok F G c cb s a w : Inv F w → Inv F (call code c cb s a w).1 ∧ later G (posted c) w (call code c cb s a w).1.
Proof using Type.
  intros I. unfold call. pose proof (λ HI : main_inward, HI cb s a (user w)) as Hm.
  destruct (code c cb s a (user w)) as [[u l] o] eqn:Ec.
  destruct (performs_ok F c l _ (inv_user F u w I)) as [I2 L2].
  destruct (performs c l (set_user u w)) as [w2 t]. split; [done|]. cbn in *. etrans; [apply later_user|].
  eapply later_weaken; [apply list_subseteq_nil| |exact L2]. intros m H' [?|HI]; [apply H'; by left|].
  destruct (decide (c = 0)) as [->|n]; apply H'; [right|by left]. specialize (Hm HI). by rewrite Ec in Hm.
Qed.

Lemma run_listener_ok F G c ch s a cb w : Inv F w →
  Inv F (run_listener code c ch s a cb w) ∧ later G (posted c) w (run_listener code c ch s a cb w).
Proof using Type.
  intros I. unfold run_listener. destruct (call_ok F G c cb s a w I) as [I1 L1].
  destruct (ctxs (call code c cb s a w).1 !! c) as [x|]; [|done]. case_decide; [|done].
  destruct (edit_ok F G (posted c) c (rmOn ch cb) _ I1) as [I2 L2].
  { intros y. unfold rmOn. by destruct (listeners y !! ch). }
  split; [done|]. by etrans.
Qed.

Lemma run_listeners_ok F G c ch s a l w : Inv F w →
  Inv F (run_listeners code c ch s a l w) ∧ later G (posted c) w (run_listeners code c ch s a l w).
Proof using Type.
  revert w. induction l as [|cb l IH]; intros w I; cbn [run_listeners fold_left]; [by split|].
  destruct (run_listener_ok F G c ch s a cb w I) as [I1 L1]. destruct (IH _ I1) as [I2 L2]. split; [done|]. by etrans.
Qed.

Lemma saw_ok F G P c s w : Inv F w → (if decide (c = 0) then 0 < s < next_window w else s = 0) →
  Inv F (in_ctx c (saw s) w) ∧ later G P w (in_ctx c (saw s) w).
Proof using Type.
  intros I Hs. split.
  - apply inv_in_ctx; [done|]. intros x Hx ([H1 H1']&H2&H3&H4&H5&H6). split; [|done]. split_and!; try done.
    cbn. apply Forall_app. split; [done|]. by apply Forall_singleton.
  - apply later_in_ctx. intros x Hx. split; [done|by left].
Qed.

Lemma respond_later G (P : IpcMsg → Prop) r s o w : (∀ k t, P (Msg 0 s IPC_INVOKE_RESP r k None None t)) → later G P w (respond r s o w).
Proof using Type.
  intros Hs. unfold respond. destruct (answer o) as [k t].
  exact (later_push G P (Msg 0 s IPC_INVOKE_RESP r k None None t) w (Hs k t) ltac:(done)).
Qed.

Lemma jobs_later P r s o w : later [(s, r)] P w (set_jobs (jobs w ++ [mkJob r s o]) w).
Proof using Type.
  destruct (later_refl [(s, r)] P w) as (?&?&?&_). split_and!; [done..|].
  intros j [?| ->%list_elem_of_singleton]%elem_of_app; [by left|right; by left].
Qed.

Lemma dispatch_invoke_ok F ch r s a w : Inv ((s, r) :: F) w →
  Inv F (dispatch_invoke code ch r s a w) ∧ later [(s, r)] (posted 0) w (dispatch_invoke code ch r s a w).
Proof using Type.
  intros I. unfold dispatch_invoke. destruct (ctxs w !! 0) as [x|] eqn:Ex; [|by destruct (i_main _ _ I)].
  assert (0 < s < next_window w) as Hs by (eapply (i_old _ _ I); left).
  assert (∀ o w, later [(s, r)] (posted 0) w (respond r s o w)) as Lr by (intros; apply respond_later; intros ???; cbn; lia).
  destruct (saw_ok _ [(s, r)] (posted 0) 0 s w I Hs) as [I1 L1]. destruct (handlers x !! ch) as [h|].
  - destruct (call_ok _ [(s, r)] 0 h s a _ I1) as [I2 L2]. destruct (call code 0 h s a _) as [w2 o]. cbn [fst] in *.
    assert (later [(s, r)] (posted 0) w w2) as L by (by etrans).
    destruct o; (split; [by (apply inv_job || apply inv_respond)|]); (etrans; [exact L|]); (apply jobs_later || apply Lr).
  - split; [by apply inv_respond|]. etrans; [exact L1|]. apply Lr.
Qed.

(** A message in hand is for [c]. *)
Lemma deliver_ok F c m w : Inv (ticket m ++ F) w → ctxs w !! c ≠ None → dst m = c → star (next_window w) m →
  resp_ok (handled w) m → Inv F (deliver code c m w)
    ∧ later (if decide (kind m = IPC_INVOKE) then ticket m else []) (posted c) w (deliver code c m w).
Proof using Type.
  intros I Hc <- Hs Hr. unfold deliver, ticket, star, resp_ok in *. destruct (kind m); cbn [decide].
  - unfold dispatch_send. destruct (ctxs w !! dst m) as [x|] eqn:Ex; [|done].
    set (G := if decide _ then _ else _).
    destruct (saw_ok F G (posted (dst m)) (dst m) (src m) w I) as [I1 L1]. { case_decide; lia. }
    destruct (run_listeners_ok F G (dst m) (default [] (channel m)) (src m) (args m)
                (default [] (listeners x !! default [] (channel m))) _ I1) as [I2 L2].
    split; [done|]. by etrans.
  - destruct Hs as [-> ?]. case_decide; [|done]. by apply dispatch_invoke_ok.
  - destruct (Hr eq_refl) as (o&Ho&Ea). split.
    + pose proof (inv_settle F (dst m) (req_id m) o w I Ho) as HI. by rewrite Ea in HI.
    + apply later_in_ctx. intros x _. unfold resolve_invoke. case_decide; [|split; [done|by left]]. cbn.
      split; [set_solver|]. intros r Hin. destruct (decide (r = req_id m)) as [->|]; [right|left; set_solver].
      rewrite map_app. set_solver.
Qed.

(** *** The loop *)

Definition emptied w : World U := set_ipc (Ipc [] (next_req_id (ipc w))) w.

Lemma later_emptied G P P' w w' : later G P w w' → later G P' (emptied w) (emptied w').
Proof using Type. intros (_&K&C&J). split_and!; [by exists []|done..]. Qed.

(** The requests among messages. *)
Definition asked (m : IpcMsg) : list (Z * Z) := if decide (kind m = IPC_INVOKE) then ticket m else [].

(** Scripts of other contexts do not feed the context's own loop. *)
Definition calm (c : Z) : Prop := c ≠ 0 ∨ main_inward.

(** The messages for [c] are consumed in order, the others stay in order, and
    what the pages posted follows them. *)
Definition drains (c : Z) w w' (l : list IpcMsg) : Prop :=
  l = filter (λ m, dst m = c) (q (ipc w))
  ∧ (∃ news, q (ipc w') = filter (λ m, dst m ≠ c) (q (ipc w)) ++ news ∧ Forall (λ m, dst m ≠ c) news
      ∧ Forall (λ m, kind m = IPC_INVOKE → next_req_id (ipc w) <= req_id m) news)
  ∧ later (l ≫= asked) (λ _, True) (emptied w) (emptied w').

Lemma filter_all {A} (P : A → Prop) `{∀ x, Decision (P x)} l : Forall P l → filter P l = l.
Proof using Type. induction 1; [done|]. rewrite filter_cons_True by done. congruence. Qed.
Lemma filter_no {A} (P Q : A → Prop) `{∀ x, Decision (Q x)} l : Forall P l → (∀ x, P x → ¬ Q x) → filter Q l = [].
Proof using Type. intros F HP. induction F; [done|]. rewrite filter_cons_False by auto. done. Qed.

Lemma drains_nothing c w : Forall (λ m, dst m ≠ c) (q (ipc w)) → drains c w w [].
Proof using Type.
  intros Hq. split_and!; [by erewrite filter_no by (done || auto)| |done].
  exists []. rewrite filter_all by done. by rewrite app_nil_r.
Qed.

Lemma drains_deliver c i m w w2 w' l : calm c → q (ipc w) !! i = Some m → dst m = c →
  Forall (λ m, dst m ≠ c) (take i (q (ipc w))) → later (asked m) (posted c) (set_ipc (without i (ipc w)) w) w2 →
  drains c w2 w' l → drains c w w' (m :: l).
Proof using Type.
  intros Hcalm Hm Hd Hp L2 (El&(n&E&A&B)&L). pose proof L2 as ((n2&E2&A2&B2)&K2&_). cbn in E2, B2, K2.
  assert (Forall (λ m, dst m ≠ c) n2) as A2' by (eapply Forall_impl; [exact A2|]; intros x Hx; by apply Hx).
  assert (filter (λ m, dst m = c) n2 = []) as F2 by (by eapply filter_no; [exact A2'|auto]).
  assert (∃ pre post, q (ipc w) = pre ++ m :: post ∧ delete i (q (ipc w)) = pre ++ post ∧ Forall (λ m, dst m ≠ c) pre)
    as (pre&post&Eq&Ed&Ap).
  { exists (take i (q (ipc w))), (drop (S i) (q (ipc w))). by rewrite take_drop_middle, <- delete_take_drop. }
  rewrite Ed in E2. split_and!.
  - rewrite El, E2, Eq, !filter_app, filter_cons_True, F2, app_nil_r by done. by rewrite (filter_no _ _ pre Ap) by auto.
  - exists (n2 ++ n). split_and!.
    + rewrite E, E2, Eq, !filter_app, (filter_all _ n2), filter_cons_False by (done || (intros ?; done)).
      by rewrite <- !app_assoc.
    + by apply Forall_app.
    + apply Forall_app. split; [done|]. eapply Forall_impl; [exact B|]. cbn. intros x Hx Kx. specialize (Hx Kx). lia.
  - cbn [mbind list_bind]. etrans; [eapply later_weaken; [| |exact (later_emptied _ _ (λ _, True) _ _ L2)]|
      eapply later_weaken; [| |exact L]]; [set_solver|done|set_solver|done].
Qed.

Lemma dispatch_loop_drains F c : ∀ n w i, length (filter (λ m, dst m = c) (q (ipc w))) = n → Inv F w → ctxs w !! c ≠ None →
  Forall (λ m, dst m ≠ c) (take i (q (ipc w))) → calm c →
  ∃ f w' l, dispatch_loop code f c i w = Some (w', l) ∧ drains c w w' l ∧ Inv F w'.
Proof using Type.
  intros n. induction n as [n IHn] using lt_wf_ind. intros w i Hn I Hc.
  remember (length (q (ipc w)) - i)%nat as k eqn:Hk. revert i Hk. induction k as [|k IHk]; intros i Hk Hp Hcalm.
  - assert (q (ipc w) !! i = None) as E by (apply lookup_ge_None; lia).
    exists 1%nat, w, []. cbn. rewrite E. split_and!; [done| |done]. apply drains_nothing. by rewrite take_ge in Hp by lia.
  - destruct (lookup_lt_is_Some_2 (q (ipc w)) i ltac:(lia)) as [m E].
    destruct (decide (dst m = c)) as [Hd|Hd].
    + destruct (deliver_ok F c m _ (inv_take F i m w I E)) as [I2 L2].
      { done. } { done. } { by eapply Forall_lookup_1; [apply (i_star _ _ I)|]. } { by eapply Forall_lookup_1; [apply (i_resp _ _ I)|]. }
      set (w2 := deliver code c m _) in *.
      assert (ctxs w2 !! c ≠ None) as Hc2.
      { destruct L2 as (_&_&C&_). specialize (C c). cbn in C. destruct (ctxs w !! c) as [x|]; [|done]. destruct (C x eq_refl) as (?&->&_). done. }
      pose proof L2 as ((n2&E2&A2&B2)&_). cbn in E2. pose proof (lookup_lt_Some _ _ _ E) as Hlt.
      assert (Forall (λ m, dst m ≠ c) n2) as A2' by (eapply Forall_impl; [exact A2|]; intros x Hx; by apply Hx).
      assert (n = S (length (filter (λ m, dst m = c) (delete i (q (ipc w)))))) as Hn'.
      { assert (filter (λ m, dst m = c) (q (ipc w)) ≡ₚ m :: filter (λ m, dst m = c) (delete i (q (ipc w)))) as P.
        { rewrite (delete_Permutation _ _ _ E) at 1. by rewrite filter_cons_True. }
        rewrite <- Hn. exact (Permutation_length P). }
      destruct (IHn (n - 1)%nat ltac:(lia) w2 i) as (f&w'&l&Hf&D&I'); [|done|done| |done|].
      * rewrite E2, filter_app, (filter_no _ (λ m, dst m = c) n2 A2'), app_nil_r by auto. lia.
      * by rewrite E2, delete_take_drop, <- app_assoc, take_app_length' by (rewrite length_take; lia).
      * exists (S f), w', (m :: l). split_and!; [|by eapply drains_deliver|done]. cbn. rewrite E, decide_True by done.
        fold w2. by rewrite Hf.
    + destruct (IHk (S i)) as (f&w'&l&Hf&D&I'); [lia| |done|].
      { rewrite (take_S_r _ _ _ E). apply Forall_app. split; [done|]. by apply Forall_singleton. }
      exists (S f), w', l. split_and!; [|done|done]. cbn. by rewrite E, decide_False by done.
Qed.

Lemma dispatch_loop_more f f' c i w r : (f <= f')%nat → dispatch_loop code f c i w = Some r → dispatch_loop code f' c i w = Some r.
Proof using Type.
  revert f' i w r. induction f as [|f IH]; intros f' i w r Hf; [done|]. destruct f' as [|f']; [lia|]. cbn.
  destruct (q (ipc w) !! i) as [m|]; [|done]. case_decide; [|apply IH; lia].
  destruct (dispatch_loop code f c i _) as [[w1 l1]|] eqn:E; [|done]. by rewrite (IH f' _ _ _ ltac:(lia) E).
Qed.

(** Draining a context ends, with every amount of fuel that is enough. *)
Lemma dispatch_ok c w : Inv [] w → ctxs w !! c ≠ None → calm c → ∃ f0 w' l,
  (∀ f, (f0 <= f)%nat → mini_ipc_dispatch code f c w = Some (w', l)) ∧ drains c w w' l ∧ Inv [] w'.
Proof using Type.
  intros I Hc Hcalm. destruct (dispatch_loop_drains [] c _ w 0 eq_refl I Hc) as (f0&w'&l&Hf&D&I'); [done|done|].
  exists f0, w', l. split_and!; [|done|done]. intros f Hle. unfold mini_ipc_dispatch.
  destruct (ctxs w !! c); [|done]. by eapply dispatch_loop_more.
Qed.

Lemma dispatch_loop_inv f c : ∀ i w w' l, Inv [] w → ctxs w !! c ≠ None → dispatch_loop code f c i w = Some (w', l) → Inv [] w'.
Proof using Type.
  induction f as [|f IH]; intros i w w' l I Hc; [done|]. cbn. destruct (q (ipc w) !! i) as [m|] eqn:E; [|by intros [= <- _]].
  case_decide as Hd; [|by apply IH].
  destruct (deliver_ok [] c m _ (inv_take [] i m w I E)) as [I2 (_&_&C&_)].
  { done. } { done. } { by eapply Forall_lookup_1; [apply (i_star _ _ I)|]. } { by eapply Forall_lookup_1; [apply (i_resp _ _ I)|]. }
  destruct (dispatch_loop code f c i _) as [[w1 l1]|] eqn:Ed; [|done]. intros [= <- _]. eapply IH; [exact I2| |exact Ed].
  specialize (C c). cbn in C. destruct (ctxs w !! c) as [x|]; [|done]. by destruct (C x eq_refl) as (?&->&_).
Qed.

Lemma dispatch_inv f c w w' l : Inv [] w → mini_ipc_dispatch code f c w = Some (w', l) → Inv [] w'.
Proof using Type.
  intros I. unfold mini_ipc_dispatch. destruct (ctxs w !! c) as [x|] eqn:E; [|by intros [= <- _]].
  apply dispatch_loop_inv; [done|]. by rewrite E.
Qed.

Lemma run_job_inv k o w : Inv [] w → Inv [] (run_job k o w).
Proof using Type.
  intros I. unfold run_job. destruct (jobs w !! k) as [j|] eqn:E; [|done].
  apply inv_respond. exact (inv_take_job [] k j w I E).
Qed.

Lemma close_inv c w : c ≠ 0 → Inv [] w → Inv [] (close_window c w).
Proof using Type.
  intros Hc []. constructor; cbn [close_window set_ctxs ipc ctxs next_window handled]; try done.
  - intros d x Hx. apply i_pend0. by apply lookup_delete_Some in Hx as [_ ?].
  - intros d x Hx. apply i_ctx0. by apply lookup_delete_Some in Hx as [_ ?].
  - by rewrite lookup_delete_ne.
Qed.

Lemma start_inv (u : U) : Inv [] (mini_ipc_start u).
Proof using Type.
  clear code. constructor; cbn; try done.
  - constructor.
  - intros c r H'. by apply not_elem_of_nil in H'.
  - intros c x [<- <-]%lookup_singleton_Some r. cbn. set_solver.
  - intros c x [<- <-]%lookup_singleton_Some. split_and!; try done; constructor.
Qed.

Lemma reachable_inv w : reachable code w → Inv [] w.
Proof using Type.
  induction 1 as [u|w w' _ I S]; [apply start_inv|]. destruct S as [c l u w Hc|f c w w' l Hd|k o w _|w|c w Hc].
  - by apply performs_ok, inv_user.
  - by eapply dispatch_inv.
  - by apply run_job_inv.
  - by apply (open_ok _ [] (λ _, True)).
  - by apply close_inv.
Qed.

(** What a page is told for an outcome of the handler. *)
Definition told (o : Outcome) : Settled :=
  match o with
  | Return (VJson v) => Resolved (VJson v)
  | Return VNoText => Resolved VUndefined
  | Return VUndefined => RejectedSyntax
  | Throw e => Rejected e
  | Later => Rejected (str "ipc error")
  end.

Lemma read_answer_answer `{!JsonLaws H} o : read_answer (answer o).1 (answer o).2 = told o.
Proof using Type.
  destruct o as [[|v|]|e|]; cbn [answer fst snd]; try done.
  - unfold read_answer. destruct (str "undefined") as [|b t] eqn:E; [by vm_compute in E|]. by rewrite <- E, undefined_is_not_json.
  - unfold read_answer. pose proof (text_nonempty v). pose proof (parse_text v) as P.
    destruct (json_text v) as [|b t]; [done|]. by rewrite P.
  - unfold read_answer. pose proof (text_nonempty (jstr e)). pose proof (parse_text (jstr e)) as P.
    destruct (json_text (jstr e)) as [|b t]; [done|]. by rewrite P, as_str_jstr.
Qed.

(** *** Turns of the run loop *)

(** What every part of a turn leaves: promises are kept or settled, and a
    request that is gone, with no job for it, does not come back. *)
Definition onward w w' : Prop :=
  next_req_id (ipc w) <= next_req_id (ipc w')
  ∧ (∀ m, m ∈ q (ipc w') → kind m = IPC_INVOKE → m ∈ q (ipc w) ∨ next_req_id (ipc w) <= req_id m)
  ∧ (∀ d x, ctxs w !! d = Some x → ∃ x', ctxs w' !! d = Some x' ∧ settled x ⊆ settled x'
         ∧ ∀ r, r ∈ pending x → r ∈ pending x' ∨ r ∈ map fst (settled x'))
  ∧ (∀ j, j ∈ jobs w' → j ∈ jobs w ∨ (∃ m, m ∈ q (ipc w) ∧ kind m = IPC_INVOKE ∧ req_id m = j_req j)
         ∨ next_req_id (ipc w) <= j_req j).

#[local] Instance onward_refl : Reflexive onward.
Proof using Type. clear code. intros w. split_and!; [done|by left| |by left]. intros d x Hx. exists x. split_and!; [done|done|by left]. Qed.

#[local] Instance onward_trans : Transitive onward.
Proof using Type.
  clear code. intros w w1 w2 (K1&Q1&C1&J1) (K2&Q2&C2&J2). split_and!; [lia| | |].
  - intros m Hm Hk. destruct (Q2 m Hm Hk) as [?|?]; [by apply Q1|right; lia].
  - intros d x Hx. destruct (C1 d x Hx) as (x1&Hx1&S1&P1). destruct (C2 d x1 Hx1) as (x2&Hx2&S2&P2).
    exists x2. split_and!; [done|set_solver|]. intros r Hr. destruct (P1 _ Hr) as [Hr'|Hr']; [auto|right].
    apply list_elem_of_fmap in Hr' as (y&->&Hy). apply list_elem_of_fmap. exists y. split; [done|]. by apply S2.
  - intros j Hj. destruct (J2 j Hj) as [Hj1|[(m&Hm&Hk&E)|?]]; [by apply J1| |right; right; lia].
    destruct (Q1 m Hm Hk) as [?|?]; [right; left; by exists m|right; right; lia].
Qed.

Lemma later_onward P w w' : later [] P w w' → onward w w'.
Proof using Type.
  clear code. intros ((n&E&_&B)&K&C&J). split_and!; [done| |done|].
  - intros m Hm Hk. rewrite E in Hm. apply elem_of_app in Hm as [?|Hm]; [by left|right]. rewrite Forall_forall in B. by apply B.
  - intros j Hj. left. destruct (J _ Hj) as [?|Hn]; [done|by apply not_elem_of_nil in Hn].
Qed.

Lemma drains_onward c w w' l : drains c w w' l → onward w w'.
Proof using Type.
  clear code. intros (->&(n&E&_&B)&_&K&C&J). split_and!; [done| |done|].
  - intros m Hm Hk. rewrite E in Hm. apply elem_of_app in Hm as [[_ ?]%list_elem_of_filter|Hm]; [by left|right].
    rewrite Forall_forall in B. by apply B.
  - intros j Hj. destruct (J _ Hj) as [?|(m&Hm&[_ Hq]%list_elem_of_filter)%list_elem_of_bind]; [by left|right; left].
    exists m. unfold asked, ticket in Hm. destruct (kind m) eqn:Ek; cbn in Hm; try by apply not_elem_of_nil in Hm.
    apply list_elem_of_singleton in Hm. unfold job_ticket in Hm. split_and!; [done|done|congruence].
Qed.

(** The request [r] has been taken by the main process, and no handler is at it. *)
Definition taken (r : Z) w : Prop :=
  r < next_req_id (ipc w) ∧ ∀ m, m ∈ q (ipc w) → kind m = IPC_INVOKE → req_id m ≠ r.
Definition idle (r : Z) w : Prop := taken r w ∧ ∀ j, j ∈ jobs w → j_req j ≠ r.

Definition promised (c r : Z) w : Prop := ∃ x, ctxs w !! c = Some x ∧ (r ∈ pending x ∨ r ∈ map fst (settled x)).
Definition kept (c r : Z) w : Prop := ∃ x, ctxs w !! c = Some x ∧ r ∈ map fst (settled x).

Lemma taken_onward r w w' : onward w w' → taken r w → taken r w'.
Proof using Type. clear code. intros (K&Q&_) [Hr Hm]. split; [lia|]. intros m Hi Hk. destruct (Q m Hi Hk); [by apply Hm|lia]. Qed.
Lemma idle_onward r w w' : onward w w' → idle r w → idle r w'.
Proof using Type.
  clear code. intros O [T Hj]. split; [by eapply taken_onward|]. destruct O as (_&_&_&J). destruct T as [Hr Hm].
  intros j Hi. destruct (J j Hi) as [?|[(m&Hq&Hk&<-)|?]]; [by apply Hj|by apply Hm|lia].
Qed.
Lemma kept_onward c r w w' : onward w w' → kept c r w → kept c r w'.
Proof using Type.
  clear code. intros (_&_&C&_) (x&Hx&Hr). destruct (C c x Hx) as (x'&Hx'&S&_). exists x'. split; [done|].
  apply list_elem_of_fmap in Hr as (y&->&Hy). apply list_elem_of_fmap. exists y. split; [done|]. by apply S.
Qed.
Lemma promised_onward c r w w' : onward w w' → promised c r w → promised c r w'.
Proof using Type.
  clear code. intros O (x&Hx&[Hr|Hr]).
  - destruct O as (_&_&C&_). destruct (C c x Hx) as (x'&Hx'&_&P). exists x'. auto.
  - destruct (kept_onward c r _ _ O) as (x'&?&?); [by exists x|]. exists x'. auto.
Qed.

(** Where neither a request nor a job stands for the answer, draining the
    window brings it. *)
Lemma drained_kept c r w w' l : drains c w w' l → Inv [] w' → idle r w → promised c r w → kept c r w'.
Proof using Type.
  clear code. intros D I Hi Hp. pose proof (drains_onward _ _ _ _ D) as O.
  destruct (idle_onward _ _ _ O Hi) as [[_ Hq] Hj]. destruct (promised_onward _ _ _ _ O Hp) as (x&Hx&[Hr|Hr]); [|by exists x].
  exfalso. apply (i_pend _ _ I _ _ Hx) in Hr. unfold tickets in Hr. cbn [app] in Hr. apply elem_of_app in Hr as [Hr|Hr].
  - apply list_elem_of_bind in Hr as (m&Hm&Hin). unfold ticket in Hm. destruct (kind m) eqn:Ek.
    + by apply not_elem_of_nil in Hm.
    + apply list_elem_of_singleton in Hm as [= _ ->]. by eapply Hq.
    + apply list_elem_of_singleton in Hm as [= -> _]. destruct D as (_&(n&E&A&_)&_). rewrite E in Hin.
      rewrite Forall_forall in A. apply elem_of_app in Hin as [[? _]%list_elem_of_filter|?]; [done|by eapply A].
  - apply list_elem_of_fmap in Hr as (j&[= _ ->]&Hin). by eapply Hj.
Qed.

Lemma pump_ok c js : ∀ w, Inv [] w → Inv [] (pump_ctx c js w) ∧ onward w (pump_ctx c js w).
Proof using Type.
  clear code. induction js as [|j js IH]; intros w I; [by split|]. cbn [pump_ctx fold_left].
  assert (Inv [] (jolt c w j) ∧ onward w (jolt c w j)) as [I1 O1].
  { destruct j as [u l|k o]; cbn [jolt].
    - destruct (ctxs w !! c); [|done]. destruct (performs_ok [] c l _ (inv_user [] u w I)) as [I1 L1].
      split; [done|]. by eapply (later_onward _ (set_user u w)).
    - assert (Inv [] (run_job k o w) ∧ onward w (run_job k o w)) as Hr.
      { split; [by apply run_job_inv|]. unfold run_job. destruct (jobs w !! k) as [j|] eqn:E; [|done].
        apply (later_onward (λ _, True)). etrans; [|by apply respond_later].
        destruct (later_refl [] (λ _, True) w) as (?&?&?&_). split_and!; [done..|]. cbn. intros i Hi. left.
        rewrite (delete_Permutation _ _ _ E). by right. }
      destruct o; try case_decide; done. }
  destruct (IH _ I1) as [I2 O2]. split; [done|]. by etrans.
Qed.

Lemma pumps_ok rest : ∀ w, Inv [] w → Inv [] (pumps rest w) ∧ onward w (pumps rest w).
Proof using Type.
  clear code. induction rest as [|[c js] rest IH]; intros w I; [by split|]. cbn. destruct (pump_ok c js w I) as [I1 O1].
  destruct (IH _ I1) as [I2 O2]. split; [done|]. by etrans.
Qed.

(** Draining [c], whether or not there is such a context. *)
Lemma dispatch_turn c w : Inv [] w → calm c → ∃ f0 w' l, (∀ f, (f0 <= f)%nat → mini_ipc_dispatch code f c w = Some (w', l))
  ∧ Inv [] w' ∧ onward w w' ∧ (ctxs w !! c ≠ None → drains c w w' l).
Proof using Type.
  intros I Hc. destruct (ctxs w !! c) as [x|] eqn:E.
  - destruct (dispatch_ok c w I ltac:(by rewrite E) Hc) as (f0&w'&l&Hf&D&I'). exists f0, w', l.
    split_and!; [done|done|by eapply drains_onward|done].
  - exists 0%nat, w, []. split_and!; [|done|done|done]. intros f _. unfold mini_ipc_dispatch. by rewrite E.
Qed.

Lemma windows_turn_ok ws : ∀ w, Inv [] w → Forall (λ p, p.1 ≠ 0) ws → ∃ f0 w',
  (∀ f, (f0 <= f)%nat → windows_turn code f ws w = Some w') ∧ Inv [] w' ∧ onward w w'
  ∧ ∀ c r, c ∈ map fst ws → promised c r w → idle r w → kept c r w'.
Proof using Type.
  induction ws as [|[d js] ws IH]; intros w I Hw.
  - exists 0%nat, w. split_and!; [done..|]. by intros c r ?%not_elem_of_nil.
  - inversion Hw as [|? ? Hd Hw']; subst. cbn in Hd. destruct (pump_ok d js w I) as [I0 O0].
    destruct (dispatch_turn d _ I0 (or_introl Hd)) as (f1&w1&l&Hf1&I1&O1&D1).
    destruct (IH w1 I1 Hw') as (f2&w2&Hf2&I2&O2&A2). exists (f1 `max` f2)%nat, w2. split_and!; [|done|by do 2 (etrans; [eassumption|])|].
    + intros f Hf. cbn. rewrite Hf1 by lia. cbn. apply Hf2. lia.
    + cbn. intros c r [->|Hin]%elem_of_cons Hp Hi.
      * apply (kept_onward _ _ _ _ O2). pose proof (promised_onward _ _ _ _ O0 Hp) as Hp0.
        eapply (drained_kept _ _ _ _ l); [apply D1|done|by eapply idle_onward|done]. destruct Hp0 as (x&->&_). done.
      * apply A2; [done|by do 2 (eapply promised_onward; [eassumption|])|by do 2 (eapply idle_onward; [eassumption|])].
Qed.

(** A turn ends; it takes the requests made before, and brings the windows
    the answers of those no handler is at any more. *)
Lemma loop_turn_ok main after ws rest w : Inv [] w → main_inward → Forall (λ p, p.1 ≠ 0) ws → ∃ f0 w',
  (∀ f, (f0 <= f)%nat → loop_turn code f main after ws rest w = Some w') ∧ Inv [] w' ∧ onward w w'
  ∧ (∀ r, r < next_req_id (ipc w) → taken r w')
  ∧ ∀ c r, c ∈ map fst ws → promised c r w → idle r (pump_ctx 0 main w) → kept c r w'.
Proof using Type.
  intros I Hm Hw. destruct (pump_ok 0 main w I) as [I0 O0].
  destruct (dispatch_turn 0 _ I0 (or_intror Hm)) as (f1&w1&l&Hf1&I1&O1&D1). specialize (D1 (i_main _ _ I0)).
  destruct (pump_ok 0 after w1 I1) as [I2 O2]. destruct (windows_turn_ok ws _ I2 Hw) as (f3&w3&Hf3&I3&O3&A3).
  destruct (pumps_ok rest w3 I3) as [I4 O4].
  exists (f1 `max` f3)%nat, (pumps rest w3). split_and!; [|done|by do 4 (etrans; [eassumption|])| |].
  - intros f Hf. unfold loop_turn. rewrite Hf1 by lia. cbn. rewrite Hf3 by lia. done.
  - intros r Hr. apply (taken_onward _ _ _ O4), (taken_onward _ _ _ O3), (taken_onward _ _ _ O2). pose proof O0 as (K0&_). pose proof O1 as (K1&_).
    split; [lia|]. destruct D1 as (_&(n&E&A&B)&_). intros m Hin Hk. rewrite E in Hin. rewrite Forall_forall in B.
    apply elem_of_app in Hin as [[Hd Hin]%list_elem_of_filter|Hin]; [|specialize (B _ Hin Hk); lia].
    pose proof (i_star _ _ I0) as St. rewrite Forall_forall in St. specialize (St _ Hin). unfold star in St. rewrite Hk in St. by destruct St.
  - intros c r Hc Hp Hi. apply (kept_onward _ _ _ _ O4), A3; [done|by do 3 (eapply promised_onward; [eassumption|])|by do 2 (eapply idle_onward; [eassumption|])].
Qed.

(** The states of a turn are reached by steps of the process. *)
Lemma pump_reachable c js : ∀ w, reachable code w → reachable code (pump_ctx c js w).
Proof using Type.
  induction js as [|j js IH]; intros w R; [done|]. apply IH. destruct j as [u l|k o]; cbn [jolt].
  - destruct (ctxs w !! c) eqn:E; [|done]. eapply reach_step; [done|]. apply step_pump. by rewrite E.
  - destruct o; try case_decide; try done; (eapply reach_step; [done|]; by apply step_job).
Qed.

Lemma windows_turn_reachable f ws : ∀ w w', reachable code w → windows_turn code f ws w = Some w' → reachable code w'.
Proof using Type.
  induction ws as [|[d js] ws IH]; intros w w' R; cbn; [by intros [= <-]|].
  destruct (mini_ipc_dispatch code f d _) as [[w1 l]|] eqn:E; [|done]. cbn. apply IH.
  eapply reach_step; [by apply (pump_reachable d js)|]. by eapply step_dispatch.
Qed.

Lemma loop_turn_reachable f main after ws rest w w' : reachable code w → loop_turn code f main after ws rest w = Some w' → reachable code w'.
Proof using Type.
  intros R. unfold loop_turn. destruct (mini_ipc_dispatch code f 0 _) as [[w1 l]|] eqn:E; [|done]. cbn.
  destruct (windows_turn code f ws _) as [w2|] eqn:E2; [|done]. intros [= <-]. apply windows_turn_reachable in E2.
  - revert E2. generalize w2. clear. induction rest as [|[c js] rest IH]; intros w R; [done|]. by apply IH, pump_reachable.
  - apply pump_reachable. eapply reach_step; [by apply (pump_reachable 0 main)|]. by eapply step_dispatch.
Qed.

Lemma dispatch_more f f' c w r : (f <= f')%nat → mini_ipc_dispatch code f c w = Some r → mini_ipc_dispatch code f' c w = Some r.
Proof using Type. intros Hf. unfold mini_ipc_dispatch. destruct (ctxs w !! c); [|done]. by apply dispatch_loop_more. Qed.

Lemma loop_turn_more f f' main after ws rest w r : (f <= f')%nat →
  loop_turn code f main after ws rest w = Some r → loop_turn code f' main after ws rest w = Some r.
Proof using Type.
  intros Hf. unfold loop_turn. destruct (mini_ipc_dispatch code f 0 _) as [[w1 l]|] eqn:E; [|done]. rewrite (dispatch_more _ _ _ _ _ Hf E). cbn.
  clear E. enough (∀ w1 w2, windows_turn code f ws w1 = Some w2 → windows_turn code f' ws w1 = Some w2) as Hw.
  { destruct (windows_turn code f ws _) as [w2|] eqn:E; [|done]. by rewrite (Hw _ _ E). }
  clear w1. induction ws as [|[d js] ws IH]; intros w1 w3; [done|]. cbn.
  destruct (mini_ipc_dispatch code f d _) as [[w2 l2]|] eqn:E; [|done]. rewrite (dispatch_more _ _ _ _ _ Hf E). cbn. apply IH.
Qed.
End Running.

(** ** Concrete runs *)

(** Texts of JSON strings without escapes, enough to run the examples. *)
#[export] Instance quoted : Json := {|
  jval := bytes; json_parse t := match t with 34 :: v => Some v | _ => None end;
  json_text v := 34 :: v; jstr v := v; as_str v := Some v |}.

#[export] Instance quoted_laws : JsonLaws quoted.
Proof. by constructor. Qed.

(** The pages of the examples: callback 7 returns its arguments, 8 returns
    nothing, 9 answers the sender of the first event on the channel [pong],
    10 throws. *)
Definition demo_code (c cb s : Z) (a : option bytes) (u : unit) : unit * list Doing * Outcome :=
  if decide (cb = 7) then (u, [], Return (VJson (default [] a)))
  else if decide (cb = 9) then (u, [Does (Reply 0 (str "pong") (str "[]"))], Return VUndefined)
  else if decide (cb = 10) then (u, [], Throw (str "no"))
  else (u, [], Return VUndefined).

(** A window has been opened, the main process handles [echo], [nothing] and
    [broken]; the window asks for each. *)
Definition demo_calls : list Doing := map Does
  [Handle (str "echo") 7; Handle (str "nothing") 8; Handle (str "broken") 10; On (str "ping") 9].
Definition demo_asks : list Doing := map Does
  [Invoke (str "echo") (str "[1]"); Invoke (str "nothing") (str "[]"); Invoke (str "broken") (str "[]");
   Invoke (str "missing") (str "[]"); SendSync (str "echo") (str "[]")].
Definition demo_world : World unit :=
  (performs 1 demo_asks (performs 0 demo_calls (open_window (mini_ipc_start tt))).1).1.

(** Two turns of the run loop, without other code of the pages. *)
Definition turn (main : list (Jolt (U := unit))) (w : World unit) : option (World unit) := loop_turn demo_code 50 main [] [(1, [])] [] w.
Definition goes_on : list (Jolt (U := unit)) := [Goes 0 (Throw []); Goes 0 (Throw [])].

Definition answers_of (c : Z) (w : option (World unit)) : option (list (Z * Settled)) :=
  w ← w; x ← ctxs w !! c; Some (settled x).

(** A handler that returns nothing makes the promise of the page fail.  The
    failures come in the first turn; a handler's answer waits for the next pump
    of the main context and comes in the second. *)
Example undefined_rejects :
  answers_of 1 (turn [] demo_world) = Some
    [(3, Rejected (str "no")); (4, Rejected (str "No handler registered for missing"))]
  ∧ answers_of 1 (w ← turn [] demo_world; turn goes_on w) = Some
    [(3, Rejected (str "no")); (4, Rejected (str "No handler registered for missing"));
     (1, Resolved (VJson (str "[1]"))); (2, RejectedSyntax)].
Proof. split; vm_compute; reflexivity. Qed.

(** A listener of the main process has the window's script send again: the
    loop of the main process does not come to an end. *)
Definition echo_code (c cb s : Z) (a : option bytes) (u : unit) : unit * list Doing * Outcome :=
  (u, [RunIn s [Send (str "ping") (str "[]")]], Return VUndefined).
Example executeJavaScript_spins :
  let w := (performs 1 [Does (Send (str "ping") (str "[]"))] (performs 0 [Does (On (str "ping") 9)] (open_window (mini_ipc_start tt))).1).1 in
  mini_ipc_dispatch echo_code 300 0 w = None.
Proof. vm_compute. reflexivity. Qed.

(** [__once] belongs to the function: registering it once on another channel
    makes the first registration a single one too. *)
Example once_is_of_the_function :
  (λ x, listeners x !! str "a") <$>
    ctxs (dispatch_send demo_code 0 (str "a") 1 None (acts 0 [On (str "a") 8; Once (str "b") 8] (mini_ipc_start tt)).1) !! 0
  = Some (Some []).
Proof. vm_compute. reflexivity. Qed.

(** [__ipcPostResponse] is a global of every context: another window answers
    the request of the first. *)
Example forged_answer :
  let '(k, t) := answer (Return (VJson (str "forged"))) in
  answers_of 1 ('(w, _) ← mini_ipc_dispatch demo_code 50 1
                  (set_ipc (js_ipc_post_response 1 1 k t (ipc demo_world)) demo_world); Some w)
  = Some [(1, Resolved (VJson (str "forged")))].
Proof. vm_compute. reflexivity. Qed.

(** [__ipcSend] can name its own context: a listener that replies to such a
    message keeps the loop of [mini_ipc_dispatch] busy. *)
Example self_reply_spins :
  let w := (acts 1 [On (str "pong") 9] demo_world).1 in
  mini_ipc_dispatch demo_code 300 1 (set_ipc (js_ipc_send 1 1 (str "pong") None (ipc w)) w) = None.
Proof. vm_compute. reflexivity. Qed.

(** What is addressed to a window that was closed stays in the queue. *)
Example dead_letters :
  let w := close_window 1 (acts 0 [WcSend 1 (str "ping") (str "[]")] (open_window (mini_ipc_start tt))).1 in
  (λ '(w, l), (length (q (ipc w)), l)) <$> mini_ipc_dispatch demo_code 50 1 w = Some (1%nat, []).
Proof. vm_compute. reflexivity. Qed.

(** ** Properties *)

Section Properties.
Context `{JL : JsonLaws} {U : Type} (code : Z → Z → Z → option bytes → U → U * list Doing * Outcome).
Implicit Type w : World U.

(** C19. Draining a context ends: it hands over the messages addressed to it,
    in the order they were posted, leaves none of them, and keeps the other
    messages in their order, before what was posted meanwhile.  This holds for a
    window whatever the pages do through [ipcMain], [ipcRenderer],
    [webContents] and [BrowserWindow], and for the main process as long as its
    callbacks run no script of a window that posts to it
    ([executeJavaScript_spins]).  The raw function [__ipcSend], with which a
    context can write to itself, is not among these calls ([self_reply_spins]). *)
Theorem ipc_dispatch_drains w c : reachable code w → ctxs w !! c ≠ None → (c = 0 → main_inward code) → ∃ f0 w' l news,
  (∀ f, (f0 <= f)%nat → mini_ipc_dispatch code f c w = Some (w', l))
  ∧ l = filter (λ m, dst m = c) (q (ipc w))
  ∧ q (ipc w') = filter (λ m, dst m ≠ c) (q (ipc w)) ++ news
  ∧ filter (λ m, dst m = c) (q (ipc w')) = [].
Proof using Type.
  intros R Hc Hm. assert (calm code c) as Hcalm by (destruct (decide (c = 0)); [right; auto|by left]).
  destruct (dispatch_ok code c w (reachable_inv code w R) Hc Hcalm) as (f0&w'&l&Hf&(El&(n&En&An&_)&_)&_).
  exists f0, w', l, n. split_and!; [done..|]. rewrite En. apply (filter_no (λ m, dst m ≠ c)); [|auto].
  apply Forall_app. split; [|done]. apply Forall_forall. by intros m [? _]%list_elem_of_filter.
Qed.

(** C8. In every state the process reaches, a promise of [invoke] is pending
    exactly while one thing stands for its answer: the request in the queue,
    the handler's job, or the response in the queue.  Each promise is settled
    once, with what the outcome posted for its own request comes to; and
    [sendSync] of a window never finds a handler. *)
Theorem ipc_answers w c x : reachable code w → ctxs w !! c = Some x →
  NoDup (tickets w) ∧ (∀ r, r ∈ pending x ↔ (c, r) ∈ tickets w)
  ∧ NoDup (map fst (settled x))
  ∧ (∀ r s, (r, s) ∈ settled x → (c, r) ∉ tickets w ∧ ∃ o, handled w !! (c, r) = Some o ∧ s = told o)
  ∧ (c ≠ 0 → ∀ ch, sync_main x ch = None).
Proof using JL.
  intros R Hx. pose proof (reachable_inv code w R) as I. destruct (i_ctx _ _ I _ _ Hx) as (_&_&_&Hh&Hn&Hs).
  pose proof (i_pend _ _ I _ _ Hx) as Hp. split_and!; [apply (i_nodup _ _ I)|done|done| |].
  - intros r s Hin. rewrite Forall_forall in Hs. destruct (Hs _ Hin) as (_&Hr&o&Ho&->).
    split; [by rewrite <- (Hp r)|]. exists o. split; [done|]. apply read_answer_answer.
  - intros Hc ch. unfold sync_main. by rewrite (Hh Hc).
Qed.

(** C32. A promise a window waits for is settled within two turns of the run
    loop, each of which ends: the main context is pumped and drained, then each
    window, in any order and with any code of the pages in between; no window is
    closed meanwhile.  The first
    turn takes the request; the second brings the answer if by the end of its
    pump of the main context no handler is at the request any more.  The
    callbacks of the main process must run no script that posts to it. *)
Theorem ipc_invoke_answered w c x r main1 after1 ws1 rest1 main2 after2 ws2 rest2 :
  reachable code w → ctxs w !! c = Some x → r ∈ pending x → main_inward code →
  Forall (λ p, p.1 ≠ 0) ws1 → Forall (λ p, p.1 ≠ 0) ws2 → c ∈ map fst ws2 →
  ∃ f0 w1 w2, (∀ f, (f0 <= f)%nat → loop_turn code f main1 after1 ws1 rest1 w = Some w1)
  ∧ (∀ f, (f0 <= f)%nat → loop_turn code f main2 after2 ws2 rest2 w1 = Some w2)
  ∧ ((∀ j, j ∈ jobs (pump_ctx 0 main2 w1) → j_req j ≠ r) →
       ∃ x2 o, ctxs w2 !! c = Some x2 ∧ handled w2 !! (c, r) = Some o ∧ (r, told o) ∈ settled x2).
Proof using JL.
  intros R Hx Hr Hm Hw1 Hw2 Hc. pose proof (reachable_inv code w R) as I.
  destruct (loop_turn_ok code main1 after1 ws1 rest1 w I Hm Hw1) as (f1&w1&Hf1&I1&O1&T1&_).
  destruct (loop_turn_ok code main2 after2 ws2 rest2 w1 I1 Hm Hw2) as (f2&w2&Hf2&I2&O2&_&A2).
  exists (f1 `max` f2)%nat, w1, w2. split; [intros f Hf; apply Hf1; lia|]. split; [intros f Hf; apply Hf2; lia|]. intros Hj.
  assert (r < next_req_id (ipc w)) as Hlt by (eapply (i_old _ _ I); apply (i_pend _ _ I _ _ Hx); exact Hr).
  destruct (A2 c r Hc) as (x2&Hx2&Hs).
  { apply (promised_onward _ _ _ _ O1). exists x. auto. }
  { split; [|done]. eapply taken_onward; [apply (pump_ok 0 main2 w1 I1)|by apply T1]. }
  apply list_elem_of_fmap in Hs as ([r' s]&E&Hs). cbn in E. subst r'.
  destruct (i_ctx _ _ I2 _ _ Hx2) as (_&_&_&_&_&F). rewrite Forall_forall in F.
  destruct (F _ Hs) as (_&_&o&Ho&->). rewrite read_answer_answer in Hs. by exists x2, o.
Qed.
End Properties.

Lemma demo_reachable : reachable demo_code demo_world.
Proof.
  apply (reach_step _ (performs 0 demo_calls (open_window (mini_ipc_start tt))).1).
  - apply (reach_step _ (open_window (mini_ipc_start tt))).
    + apply (reach_step _ (mini_ipc_start tt)); [apply reach_start|apply step_open].
    + by apply (step_pump demo_code 0 demo_calls tt (open_window (mini_ipc_start tt))); vm_compute.
  - by apply (step_pump demo_code 1 demo_asks tt (performs 0 demo_calls (open_window (mini_ipc_start tt))).1); vm_compute.
Qed.

Lemma demo_inward : main_inward demo_code.
Proof. intros cb s a u. unfold demo_code. repeat case_decide; repeat constructor. Qed.

Definition demo_ctx : Ctx := default (new_ctx false) (ctxs demo_world !! 1).

Lemma demo_ctx_here : ctxs demo_world !! 1 = Some demo_ctx.
Proof. vm_compute. reflexivity. Qed.

Lemma ipc_dispatch_drains_witness : ∃ f0 w' l, (∀ f, (f0 <= f)%nat → mini_ipc_dispatch demo_code f 0 demo_world = Some (w', l))
  ∧ map req_id l = [1; 2; 3; 4].
Proof.
  destruct (ipc_dispatch_drains demo_code demo_world 0 demo_reachable) as (f0&w'&l&n&Hf&Hl&_).
  - vm_compute. discriminate.
  - intros _. exact demo_inward.
  - exists f0, w', l. split; [exact Hf|]. rewrite Hl. vm_compute. reflexivity.
Defined.

Lemma ipc_answers_witness : NoDup (tickets demo_world) ∧ sync_main demo_ctx (str "echo") = None
  ∧ sync_main (default (new_ctx true) (ctxs demo_world !! 0)) (str "echo") = Some 7.
Proof.
  destruct (ipc_answers demo_code demo_world 1 demo_ctx demo_reachable demo_ctx_here) as (H1&_&_&_&H2).
  split; [exact H1|]. split; [apply H2; discriminate|vm_compute; reflexivity].
Defined.

Lemma ipc_invoke_answered_witness : ∃ f0 w1 w2,
  (∀ f, (f0 <= f)%nat → loop_turn demo_code f [] [] [(1, [])] [] demo_world = Some w1)
  ∧ (∀ f, (f0 <= f)%nat → loop_turn demo_code f goes_on [] [(1, [])] [] w1 = Some w2)
  ∧ ∃ x2 o, ctxs w2 !! 1 = Some x2 ∧ (1, told o) ∈ settled x2.
Proof.
  destruct (ipc_invoke_answered demo_code demo_world 1 demo_ctx 1 [] [] [(1, [])] [] goes_on [] [(1, [])] [] demo_reachable demo_ctx_here)
    as (f0&w1&w2&Hf1&Hf2&Hs).
  - vm_compute. reflexivity.
  - exact demo_inward.
  - constructor; [discriminate|constructor].
  - constructor; [discriminate|constructor].
  - left.
  - exists f0, w1, w2. split; [exact Hf1|]. split; [exact Hf2|]. destruct Hs as (x2&o&Hx&_&Hin); [|exists x2, o; split; assumption].
    specialize (Hf1 (f0 + 50)%nat (Nat.le_add_r _ _)). intros j.
    destruct (turn [] demo_world) as [w|] eqn:E; [|vm_compute in E; discriminate].
    pose proof (loop_turn_more demo_code 50 (f0 + 50) _ _ _ _ _ _ (Nat.le_add_l _ _) E) as E'. rewrite Hf1 in E'. injection E' as ->.
    assert (((λ w, jobs (pump_ctx 0 goes_on w)) <$> turn [] demo_world) = Some []) as L by (vm_compute; reflexivity).
    rewrite E in L. assert (jobs (pump_ctx 0 goes_on w) = []) as Ej by (change (Some (jobs (pump_ctx 0 goes_on w)) = Some []) in L; injection L as L; exact L). rewrite Ej. intros Hj. apply not_elem_of_nil in Hj. destruct Hj.
Defined.
