(* ===== verification/Protocol.v ===== *)
(** * Custom schemes (src/src/mini_protocol.c)

    The registry of [electron.protocol] and [loadURL] (src/src/mini_native.c)
    that asks it first.  A handler is a reference to a function of the engine:
    [refs] are the references the registry has taken and not given back.  What
    a handler returns and which calls on the registry it makes, the files and
    the network are arguments.  Allocations succeed. *)

From stdpp Require Import list gmap.
From S2P Require Import Prelude CString.
Open Scope Z_scope.

Inductive ProtoType := PROTO_STRING | PROTO_BUFFER | PROTO_FILE | PROTO_HTTP | PROTO_HANDLE.
#[export] Instance ProtoType_eq : EqDecision ProtoType.
Proof. solve_decision. Defined.

Record ProtoEntry := Entry { scheme : bytes; type : ProtoType; handler : Z }.

(** The array: the [n] entries, and behind them the slots that were left when
    entries moved down, with what they held.  [block] counts the blocks the
    array has had; every [realloc] ends the one before.  [has_ctx] tells whether
    [ctx] is set. *)
Record MiniProtocol := Proto { a : list ProtoEntry; stale : list ProtoEntry; cap : nat; block : nat; has_ctx : bool; refs : list Z }.

Definition mini_protocol_create : MiniProtocol := Proto [] [] 0 0 false [].

(** The first entry of the scheme. *)
Definition find_entry (s : bytes) (l : list ProtoEntry) : option (nat * ProtoEntry) :=
  list_find (λ e, scheme e = s) l.

(** [proto_register] with a function: the entry is replaced or appended, and a
    reference to the handler is taken in both cases. *)
Definition proto_register (s : bytes) (t : ProtoType) (h : Z) (p : MiniProtocol) : MiniProtocol :=
  match find_entry s (a p) with
  | Some (i, _) => Proto (<[i := Entry s t h]> (a p)) (stale p) (cap p) (block p) true (refs p ++ [h])
  | None =>
    let '(c, b) := if decide (cap p <= length (a p))%nat
                   then (if decide (cap p = 0)%nat then 8 else cap p * 2, S (block p))%nat else (cap p, block p) in
    Proto (a p ++ [Entry s t h]) (drop 1 (stale p)) c b true (refs p ++ [h])
  end.

(** The arguments of the JavaScript calls. *)
Inductive arg := AString (s : bytes) | AFunction (h : Z) | AOther.

(** [js_proto_reg]: [None] is a TypeError. *)
Definition js_proto_reg (argv : list arg) (t : ProtoType) (p : MiniProtocol) : option MiniProtocol :=
  match argv with
  | AString s :: AFunction h :: _ => Some (proto_register s t h p)
  | _ => None
  end.

Definition js_proto_unprotocol (argv : list arg) (p : MiniProtocol) : MiniProtocol :=
  match argv with
  | AString s :: _ =>
    match find_entry s (a p) with
    | Some (i, _) => Proto (delete i (a p)) (option_list (last (a p)) ++ stale p) (cap p) (block p) (has_ctx p) (refs p)
    | None => p
    end
  | _ => p
  end.

(** [JS_FreeValue]: one reference is given back. *)
Fixpoint drop_ref (h : Z) (l : list Z) : list Z :=
  match l with
  | [] => []
  | x :: l => if decide (x = h) then l else x :: drop_ref h l
  end.

(** The references left when the registry is gone. *)
Definition mini_protocol_destroy (p : MiniProtocol) : list Z :=
  if has_ctx p then foldl (λ r e, drop_ref (handler e) r) (refs p) (a p) else refs p.

(** A call a program makes. *)
Inductive op := Register (s : bytes) (t : ProtoType) (h : Z) | Unregister (s : bytes).

Definition do_op (p : MiniProtocol) (o : op) : MiniProtocol :=
  match o with
  | Register s t h => default p (js_proto_reg [AString s; AFunction h] t p)
  | Unregister s => js_proto_unprotocol [AString s] p
  end.

(** ** Serving a URL *)

Inductive Data := DString (s : bytes) | DBuffer (s : bytes) | DOther.

(** What a handler gives: an exception, a string, or a value with the
    properties the code asks for ([None] where it is not a string, or not a
    number). *)
Inductive HResult :=
| HThrows
| HString (s : bytes)
| HObject (data : Data) (mimeType : option bytes) (statusCode : option Z) (path url : option bytes).

Definition no_object : HResult := HObject DOther None None None None.

(** The fields [mini_net_fetch] leaves in its record. *)
Record Net := mkNet { rc : Z; resp_body : option bytes; status : Z; failed : bool }.

Record Served := mkServed { resolved : bool; body : option bytes; mime : option bytes; code : Z }.

Section World.
(** A handler gives a result, and may have changed the registry before. *)
Context (call : Z → bytes → HResult * list op) (file : bytes → option bytes) (fetch : bytes → Net).

(** The scheme of a URL: what stands before the first [://], when it fits the
    buffer of 64 bytes. *)
Definition scheme_of (url : bytes) : option bytes :=
  i ← strstr url (str "://");
  if decide (64 <= i)%nat then None else Some (take i url).

(** The body, the type and the status of what the handler returned. *)
Definition serve (t : ProtoType) (r : HResult) : Served :=
  match t with
  | PROTO_FILE =>
    let pv := match r with HString s => Some s | HObject _ _ _ p _ => p | HThrows => None end in
    let b := pv ≫= file in
    mkServed (bool_decide (is_Some b)) b None 200
  | PROTO_HTTP =>
    match (match r with HObject _ _ _ _ u => u | _ => None end) with
    | Some u =>
      let n := fetch u in
      if decide (rc n = 0) then
        match resp_body n with
        | Some b => mkServed true (Some b) None (status n)
        | None => mkServed false None None 200
        end
      else mkServed false None None 200
    | None => mkServed false None None 200
    end
  | _ =>
    match r with
    | HObject d m s _ _ =>
      let b := match d with DString t => Some t | DBuffer t => Some t | DOther => None end in
      mkServed (bool_decide (is_Some b)) b m (default 200 s)
    | _ => mkServed false None None 200
    end
  end.

Definition unserved : Served := mkServed false None None 200.

(** The pointer to the entry is kept over the call of its handler and the type
    read through it: undefined when the array has moved, and otherwise the type
    of whatever the slot holds by then. *)
Definition mini_protocol_resolve (p : MiniProtocol) (url : bytes) : res (Served * MiniProtocol) :=
  match s ← scheme_of url; find_entry s (a p) with
  | None => Ok (unserved, p)
  | Some (i, e) =>
    if has_ctx p then
      let '(r, ops) := call (handler e) url in
      let p' := fold_left do_op ops p in
      match r with
      | HThrows => Ok (unserved, p')
      | _ =>
        if decide (block p' = block p) then
          match (a p' ++ stale p') !! i with
          | Some e' =>
            let v := serve (type e') r in
            Ok (mkServed (resolved v) (body v) (Some (default (str "text/html") (mime v))) (code v), p')
          | None => UB
          end
        else UB
      end
    else Ok (unserved, p)
  end.

(** What becomes of a window: the page it shows and its URL, or a TypeError. *)
Inductive Loaded := Page (html base url : bytes) | LoadError.

Definition js_bw_loadFile (path : bytes) : Loaded :=
  match file path with
  | Some b => Page b path path
  | None => LoadError
  end.

(** The part of [loadURL] behind the registry. *)
Definition load_plain (url : bytes) : Loaded :=
  if starts_with (str "http://") url || starts_with (str "https://") url then
    let n := fetch url in
    match resp_body n with
    | Some b => if decide (rc n ≠ 0 ∨ failed n = true) then LoadError else Page b url url
    | None => LoadError
    end
  else if starts_with (str "file://") url then
    let fp := drop 7 url in
    let q := if bool_decide (hd0 fp = 47 ∧ hd0 (drop 1 fp) = 47 ∧ hd0 (drop 2 fp) ≠ 47) then drop 2 fp else fp in
    match file q with
    | Some b => Page b url url
    | None => LoadError
    end
  else js_bw_loadFile url.

Definition js_bw_loadURL (p : MiniProtocol) (url : bytes) : res (Loaded * MiniProtocol) :=
  (let* (v, p) := mini_protocol_resolve p url in
   Ok (match (if resolved v then body v else None) with
       | Some b => Page b url url
       | None => load_plain url
       end, p))%c.
End World.

(** ** The registry as a map *)

(** A history of calls, and the table it leaves. *)
Definition history (l : list op) : MiniProtocol := fold_left do_op l mini_protocol_create.

Notation table := (gmap bytes (ProtoType * Z)).

Definition table_op (o : op) (m : table) : table :=
  match o with Register s t h => <[s := (t, h)]> m | Unregister s => delete s m end.

(** The handler an operation displaces. *)
Definition displaced (o : op) (m : table) : list Z :=
  match m !! (match o with Register s _ _ => s | Unregister s => s end) with Some (_, h) => [h] | None => [] end.

Definition tables (l : list op) : table := fold_left (λ m o, table_op o m) l ∅.

Fixpoint lost_from (m : table) (l : list op) : list Z :=
  match l with [] => [] | o :: l => displaced o m ++ lost_from (table_op o m) l end.

Definition entry_pair (e : ProtoEntry) : bytes * (ProtoType * Z) := (scheme e, (type e, handler e)).
Definition abs (l : list ProtoEntry) : table := list_to_map (map entry_pair l).
Definition schemes (l : list ProtoEntry) : list bytes := map scheme l.

Lemma entry_fst l : map fst (map entry_pair l) = schemes l.
Proof. unfold schemes. rewrite map_map. by apply map_ext. Qed.

Lemma abs_lookup l s : NoDup (schemes l) → abs l !! s = (λ '(_, e), (type e, handler e)) <$> find_entry s l.
Proof.
  intros N. unfold find_entry. destruct (list_find _ l) as [[i e]|] eqn:E; cbn.
  - apply list_find_Some in E as (E&<-&_). apply elem_of_list_to_map_1; [by rewrite entry_fst|].
    apply list_elem_of_fmap. exists e. split; [done|]. by eapply list_elem_of_lookup_2.
  - apply list_find_None in E. apply not_elem_of_list_to_map_1. rewrite entry_fst.
    intros (e&->&He)%list_elem_of_fmap. rewrite Forall_forall in E. by apply (E e).
Qed.

(** Putting an entry of the scheme [s] where another of it was, or taking that away. *)
Lemma entry_split s l i e : find_entry s l = Some (i, e) → ∃ l1 l2, l = l1 ++ e :: l2 ∧ scheme e = s
  ∧ (∀ e', <[i := e']> l = l1 ++ e' :: l2) ∧ delete i l = l1 ++ l2.
Proof.
  unfold find_entry. intros (E&Hs&_)%list_find_Some. exists (take i l), (drop (S i) l).
  pose proof (lookup_lt_Some _ _ _ E). split_and!; [by rewrite take_drop_middle|done| |apply delete_take_drop].
  intros e'. by rewrite insert_take_drop.
Qed.

Lemma schemes_mid l1 e l2 : schemes (l1 ++ e :: l2) = schemes l1 ++ scheme e :: schemes l2.
Proof. unfold schemes. by rewrite map_app. Qed.

Lemma abs_mid l1 e l2 : NoDup (schemes (l1 ++ e :: l2)) → abs (l1 ++ e :: l2) = <[scheme e := (type e, handler e)]> (abs (l1 ++ l2)).
Proof.
  intros N. transitivity (abs (e :: l1 ++ l2)); [|done]. unfold abs. apply (list_to_map_proper _ (map entry_pair (e :: l1 ++ l2))).
  - by rewrite entry_fst.
  - apply Permutation_map. by rewrite Permutation_middle.
Qed.

Lemma abs_without l1 e l2 : NoDup (schemes (l1 ++ e :: l2)) →
  NoDup (schemes (l1 ++ l2)) ∧ abs (l1 ++ l2) !! scheme e = None.
Proof.
  intros N. rewrite schemes_mid in N. assert (NoDup (schemes l1 ++ schemes l2) ∧ scheme e ∉ schemes l1 ++ schemes l2) as [N1 N2].
  { rewrite <- Permutation_middle in N. apply NoDup_cons in N. tauto. }
  unfold schemes in *. rewrite <- map_app in N1, N2. split; [done|].
  apply not_elem_of_list_to_map_1. by rewrite entry_fst.
Qed.

(** The invariant: distinct schemes, the table of the history, a context as
    soon as there is an entry, and the references: one for each entry and one
    for each handler that was displaced. *)
Definition reg_inv (m : table) (lost : list Z) (p : MiniProtocol) : Prop :=
  NoDup (schemes (a p)) ∧ abs (a p) = m ∧ (a p ≠ [] → has_ctx p = true)
  ∧ refs p ≡ₚ map handler (a p) ++ lost ∧ (has_ctx p = false → lost = []).

Lemma do_op_inv o m lost p : reg_inv m lost p → reg_inv (table_op o m) (lost ++ displaced o m) (do_op p o).
Proof.
  intros (N&<-&C&R&L). destruct o as [s t h|s]; cbn [do_op js_proto_reg default js_proto_unprotocol table_op]; unfold displaced;
    rewrite (abs_lookup _ s N).
  - unfold proto_register. destruct (find_entry s (a p)) as [[i e]|] eqn:E; cbn.
    + destruct (entry_split _ _ _ _ E) as (l1&l2&El&<-&Hi&_). rewrite (Hi (Entry (scheme e) t h)). rewrite El in N, R |- *.
      assert (NoDup (schemes (l1 ++ Entry (scheme e) t h :: l2))) as N' by (by rewrite schemes_mid in N |- *).
      split_and!; [done| |done| |done].
      * cbn [a]. rewrite (abs_mid _ _ _ N'), (abs_mid _ _ _ N). cbn. by rewrite insert_insert_eq.
      * cbn. rewrite R, !map_app. cbn. rewrite <- !Permutation_middle, <- app_assoc. cbn. solve_Permutation.
    + match goal with |- context [if ?d then _ else _] => set (cb := if d then _ else _); destruct cb end.
      rewrite app_nil_r. assert (s ∉ schemes (a p)) as Hs.
      { unfold find_entry in E. apply list_find_None in E. intros (e&->&He)%list_elem_of_fmap.
        rewrite Forall_forall in E. by apply (E e). }
      assert (NoDup (schemes (a p ++ [Entry s t h]))) as N'.
      { rewrite schemes_mid. cbn. rewrite <- Permutation_middle, app_nil_r. by constructor. }
      split_and!; [done| |done| |done].
      * cbn [a]. rewrite (abs_mid _ _ _ N'). cbn. by rewrite app_nil_r.
      * cbn. rewrite R, map_app. cbn. rewrite <- !app_assoc. apply Permutation_app_head. by rewrite Permutation_app_comm.
  - destruct (find_entry s (a p)) as [[i e]|] eqn:E; cbn.
    + destruct (entry_split _ _ _ _ E) as (l1&l2&El&<-&_&Hi). rewrite Hi. rewrite El in N, R |- *.
      destruct (abs_without _ _ _ N) as [N' Hn]. split_and!; [done| | | |].
      * cbn [a]. rewrite (abs_mid _ _ _ N). by rewrite delete_insert_id.
      * intros _. apply C. by rewrite El; destruct l1.
      * cbn. rewrite R, !map_app. cbn. solve_Permutation.
      * cbn. intros Hf. exfalso. rewrite C in Hf; [done|]. rewrite El. by destruct l1.
    + rewrite app_nil_r. split_and!; [done| |done|done|done].
      symmetry. apply delete_id. by rewrite (abs_lookup _ s N), E.
Qed.

Lemma history_from l m lost p : reg_inv m lost p →
  reg_inv (fold_left (λ m o, table_op o m) l m) (lost ++ lost_from m l) (fold_left do_op l p).
Proof.
  revert m lost p. induction l as [|o l IH]; intros m lost p I; cbn [fold_left lost_from]; [by rewrite app_nil_r|].
  rewrite app_assoc. apply IH. by apply do_op_inv.
Qed.

Lemma history_inv l : reg_inv (tables l) (lost_from ∅ l) (history l).
Proof. apply (history_from l ∅ []). split_and!; try done. constructor. Qed.

Lemma find_history l s : (λ '(_, e), (type e, handler e)) <$> find_entry s (a (history l)) = tables l !! s.
Proof. destruct (history_inv l) as (N&E&_). by rewrite <- E, abs_lookup. Qed.

(** Giving back a reference that is held. *)
Lemma drop_ref_perm h l : h ∈ l → h :: drop_ref h l ≡ₚ l.
Proof.
  induction l as [|x l IH]; cbn; [by intros ?%not_elem_of_nil|]. case_decide as Hx; [by subst|].
  intros [->|Hin]%elem_of_cons; [done|]. rewrite Permutation_swap. by rewrite IH.
Qed.

Lemma drop_refs l r rest : r ≡ₚ map handler l ++ rest → foldl (λ r e, drop_ref (handler e) r) r l ≡ₚ rest.
Proof.
  revert r. induction l as [|e l IH]; intros r P; cbn; [done|]. apply IH. apply (Permutation_cons_inv (a := handler e)).
  rewrite drop_ref_perm; [done|]. rewrite P. cbn. left.
Qed.

(** There is a body exactly when the answer counts. *)
Lemma served_body file fetch t r : (if resolved (serve file fetch t r) then body (serve file fetch t r) else None) = body (serve file fetch t r).
Proof.
  unfold serve. destruct t; cbn; repeat case_match; cbn in *; try done;
    by match goal with H : bool_decide (is_Some ?b) = false |- _ => apply bool_decide_eq_false in H; destruct b; [destruct H; eauto|] end.
Qed.

(** ** Calls made by a handler *)

(** The calls only register, and the array has room for what they add. *)
Definition fits (l ops : list op) : Prop :=
  (∀ o, o ∈ ops → ∃ s t h, o = Register s t h) ∧ (size (tables (l ++ ops)) <= cap (history l))%nat.

(** Each of the entries has one of the same scheme at its place. *)
Definition in_place (l l' : list ProtoEntry) : Prop :=
  (length l <= length l')%nat ∧ ∀ i e, l !! i = Some e → ∃ e', l' !! i = Some e' ∧ scheme e' = scheme e.

Lemma in_place_trans l1 l2 l3 : in_place l1 l2 → in_place l2 l3 → in_place l1 l3.
Proof.
  intros [H1 E1] [H2 E2]. split; [lia|]. intros i e H. destruct (E1 _ _ H) as (e1&H'&<-). by apply E2.
Qed.

Lemma register_in_place s t h p : in_place (a p) (a (proto_register s t h p))
  ∧ ((length (a (proto_register s t h p)) <= cap p)%nat →
      cap (proto_register s t h p) = cap p ∧ block (proto_register s t h p) = block p).
Proof.
  unfold proto_register. destruct (find_entry s (a p)) as [[i e]|] eqn:E; cbn.
  - split; [|done]. split; [by rewrite length_insert|]. apply list_find_Some in E as (E&<-&_).
    intros j x Hx. destruct (decide (j = i)) as [->|Hj].
    + rewrite list_lookup_insert_eq by (by eapply lookup_lt_Some). eexists. split; [done|]. cbn. congruence.
    + rewrite list_lookup_insert_ne by done. by exists x.
  - destruct (decide (cap p <= length (a p))%nat) as [Hc|Hc]; cbn; rewrite length_app; cbn.
    + split; [|lia]. split; [rewrite length_app; lia|]. intros i e He. exists e. split; [by apply lookup_app_l_Some|done].
    + split; [|done]. split; [rewrite length_app; lia|]. intros i e He. exists e. split; [by apply lookup_app_l_Some|done].
Qed.

Lemma registers_in_place ops : ∀ p, (∀ o, o ∈ ops → ∃ s t h, o = Register s t h) →
  in_place (a p) (a (fold_left do_op ops p))
  ∧ ((length (a (fold_left do_op ops p)) <= cap p)%nat → block (fold_left do_op ops p) = block p).
Proof.
  induction ops as [|o ops IH]; intros p H; cbn [fold_left].
  - split; [|done]. split; [done|]. intros i e He. by exists e.
  - destruct (H o (list_elem_of_here _ _)) as (s&t&h&->). cbn [do_op js_proto_reg default]. unfold id.
    destruct (register_in_place s t h p) as [H1 B1].
    destruct (IH (proto_register s t h p)) as [H2 B2]; [intros o Ho; apply H; by right|].
    split; [by eapply in_place_trans|]. intros Hl. destruct H2 as [H2 _].
    destruct B1 as [Ec Eb]; [etrans; [exact H2|done]|]. rewrite <- Eb. apply B2. by rewrite Ec.
Qed.

Lemma history_app l ops : history (l ++ ops) = fold_left do_op ops (history l).
Proof. apply fold_left_app. Qed.

Lemma tables_size l : size (tables l) = length (a (history l)).
Proof.
  destruct (history_inv l) as (N&<-&_). unfold abs. rewrite map_size_list_to_map by (by rewrite entry_fst).
  by rewrite length_map.
Qed.

Lemma history_room l : (length (a (history l)) <= cap (history l))%nat.
Proof.
  induction l as [|o l IH] using rev_ind; [done|]. rewrite history_app. cbn [fold_left]. set (p := history l) in *. clearbody p.
  destruct o as [s t h|s]; cbn [do_op js_proto_reg default js_proto_unprotocol].
  - unfold id, proto_register. destruct (find_entry s (a p)) as [[i e]|]; cbn; [by rewrite length_insert|].
    repeat case_decide; cbn; rewrite length_app; cbn; lia.
  - destruct (find_entry s (a p)) as [[i e]|] eqn:E; cbn; [|done]. apply list_find_Some in E as (E&_).
    rewrite length_delete by by eexists. lia.
Qed.

Lemma fits_nil l : fits l [].
Proof. split; [by intros o ?%not_elem_of_nil|]. rewrite app_nil_r, tables_size. apply history_room. Qed.

(** What the kept pointer reads after such calls. *)
Lemma fits_type l ops s i e : fits l ops → find_entry s (a (history l)) = Some (i, e) →
  let p' := fold_left do_op ops (history l) in
  block p' = block (history l) ∧ ∃ e' h, (a p' ++ stale p') !! i = Some e' ∧ tables (l ++ ops) !! s = Some (type e', h).
Proof.
  intros [Hr Hs] E p'. destruct (registers_in_place ops (history l) Hr) as [Hp Hb]. rewrite tables_size, history_app in Hs.
  split; [by apply Hb|]. apply list_find_Some in E as (E&<-&_). destruct Hp as [_ Hp]. destruct (Hp _ _ E) as (e'&E'&Es).
  exists e', (handler e'). split; [by apply lookup_app_l_Some|]. fold p' in E'.
  destruct (history_inv (l ++ ops)) as (N&<-&_). rewrite history_app in *. apply elem_of_list_to_map_1; [by rewrite entry_fst|].
  apply list_elem_of_fmap. exists e'. split; [unfold entry_pair; by rewrite Es|]. by eapply list_elem_of_lookup_2.
Qed.

(** ** Properties *)

(** C24. The registry is a map from schemes to handlers: after any calls,
    [loadURL] shows the body that the handler registered last for the scheme of
    the URL gives, and otherwise does what it does without a registry.  The
    handler may itself register, as long as the array need not grow (in
    particular it may do nothing, [fits_nil]): the calls it makes are then added
    to the history, and its result is read as the type the scheme has after
    them. *)
Theorem protocol_load call file fetch l url :
  (∀ s t h, scheme_of url = Some s → tables l !! s = Some (t, h) → fits l (call h url).2) →
  js_bw_loadURL call file fetch (history l) url = Ok
  match (s ← scheme_of url; pair s <$> tables l !! s) with
  | Some (s, (t, h)) =>
    let '(r, ops) := call h url in
    let now := default t (fst <$> tables (l ++ ops) !! s) in
    (match body (match r with HThrows => unserved | _ => serve file fetch now r end) with
     | Some b => Page b url url
     | None => load_plain file fetch url
     end, history (l ++ ops))
  | None => (load_plain file fetch url, history l)
  end.
Proof.
  intros H. unfold js_bw_loadURL, mini_protocol_resolve. destruct (scheme_of url) as [s|]; [|done]. cbn [mbind option_bind].
  specialize (H s). pose proof (find_history l s) as Ef.
  destruct (find_entry s (a (history l))) as [[i e]|] eqn:E; cbn [fmap option_fmap option_map] in Ef; rewrite <- Ef in H |- *; [|done].
  cbn [fmap option_fmap option_map]. specialize (H _ _ eq_refl eq_refl).
  destruct (history_inv l) as (_&_&C&_). rewrite C by (intros E'; unfold find_entry in E; by rewrite E' in E).
  destruct (call (handler e) url) as [r ops]. cbn [snd] in H. rewrite history_app.
  destruct (fits_type _ _ _ _ _ H E) as (Hb&e'&h'&Es&->). rewrite decide_True by done. rewrite Es. cbn [fmap option_fmap option_map default fst].
  destruct r; cbn [res_bind body resolved]; unfold id; [done|by rewrite served_body..].
Qed.

(** References: when the registry is destroyed, exactly the handlers that
    were replaced or unregistered are still referenced. *)
Theorem protocol_leaks l : mini_protocol_destroy (history l) ≡ₚ lost_from ∅ l.
Proof.
  destruct (history_inv l) as (_&_&C&R&L). unfold mini_protocol_destroy. destruct (has_ctx (history l)) eqn:E.
  - by apply drop_refs.
  - rewrite R, (L eq_refl). destruct (a (history l)) as [|e r] eqn:Ea; [done|]. specialize (C ltac:(discriminate)). congruence.
Qed.

(** ** Concrete runs *)

Definition no_file (p : bytes) : option bytes := None.
Definition no_net (u : bytes) : Net := mkNet 1 None 0 true.
Definition app_page (h : Z) (u : bytes) : HResult * list op := (HObject (DString (c_dec h)) None (Some 404) None None, []).

Notation "r 'shows' v" := (match r with Ok (x, _) => Some x | UB => None end = Some v) (at level 70, only parsing).

(** The handler registered last serves; its status is not looked at. *)
Example app_scheme :
  js_bw_loadURL app_page no_file no_net (history [Register (str "app") PROTO_STRING 1; Register (str "app") PROTO_HANDLE 2])
    (str "app://x/") shows Page (str "2") (str "app://x/") (str "app://x/").
Proof. vm_compute. reflexivity. Qed.

(** The first handler is still referenced when the registry is gone. *)
Example replaced_is_leaked :
  mini_protocol_destroy (history [Register (str "app") PROTO_STRING 1; Register (str "app") PROTO_HANDLE 2]) = [1].
Proof. vm_compute. reflexivity. Qed.

(** An asynchronous handler returns a promise, an object without [data]: the
    URL is then opened as a file. *)
Example promise_is_a_path :
  js_bw_loadURL (λ _ _, (no_object, [])) (λ p, Some p) no_net (history [Register (str "app") PROTO_HANDLE 1]) (str "app://x")
  shows Page (str "app://x") (str "app://x") (str "app://x").
Proof. vm_compute. reflexivity. Qed.

(** [localhost] is not stripped from a file URL; two of four slashes are. *)
Example file_localhost :
  map (load_plain (λ p, Some p) no_net) [str "file://localhost/x"; str "file:////x"; str "file:///x"]
  = [Page (str "localhost/x") (str "file://localhost/x") (str "file://localhost/x");
     Page (str "x") (str "file:////x") (str "file:////x"); Page (str "/x") (str "file:///x") (str "file:///x")].
Proof. vm_compute. reflexivity. Qed.

(** A handler that makes its scheme a scheme of files is read as one at once. *)
Definition becomes_file (h : Z) (u : bytes) : HResult * list op :=
  (HObject (DString (str "text")) None None (Some (str "/x")) None, [Register (str "app") PROTO_FILE 2]).

Lemma protocol_load_witness :
  js_bw_loadURL becomes_file (λ p, Some p) no_net (history [Register (str "app") PROTO_STRING 1]) (str "app://y")
  shows Page (str "/x") (str "app://y") (str "app://y").
Proof.
  rewrite (protocol_load becomes_file (λ p, Some p) no_net [Register (str "app") PROTO_STRING 1] (str "app://y")).
  - vm_compute. reflexivity.
  - intros s t h _ _. split; [|vm_compute; repeat constructor]. intros o ->%list_elem_of_singleton. by eexists _, _, _.
Defined.

(** A handler that takes its own entry away has its result read as the type of
    the entry that moved into its slot. *)
Example unregistered_is_shifted :
  js_bw_loadURL (λ _ _, (HObject (DString (str "text")) None None (Some (str "/x")) None, [Unregister (str "app")]))
    (λ p, Some p) no_net (history [Register (str "app") PROTO_STRING 1; Register (str "doc") PROTO_FILE 2]) (str "app://y")
  shows Page (str "/x") (str "app://y") (str "app://y").
Proof. vm_compute. reflexivity. Qed.

(** A handler that registers as many schemes as make the array grow leaves the
    pointer dangling. *)
Example registered_is_freed :
  js_bw_loadURL (λ h u, (fst (app_page h u), map (λ n, Register (c_dec (Z.of_nat n)) PROTO_FILE 2) (seq 0 8)))
    no_file no_net (history [Register (str "app") PROTO_STRING 1]) (str "app://y") = UB.
Proof. vm_compute. reflexivity. Qed.
